(* ===== verification/_CoqProject ===== *)
-Q . S2P
Prelude.v
IntRange.v
RangeExpr.v
Chunk.v
Combine.v
StatusText.v
Subjects.v
Leadership.v
Election.v
GoText.v
Schema.v
Sample.v
Finalize.v
Attempts.v
Lease.v
Jobs.v
Workers.v
Catalog.v
Evolve.v
Keeps.v
StoreInv.v
Ledger.v
Transitions.v
Reports.v
Outcomes.v
Typing.v
Submission.v
Sched.v
Policy.v
Match.v
Deps.v
Reconcile.v
Handlers.v
Handling.v
Select.v
Selecting.v
Reconciler.v
Waiters.v
Fleet.v
Tending.v
Silent.v
Logs.v
Blocked.v
ExprType.v
ExprFloat.v
ExprValue.v
ExprRange.v
ExprCoerce.v
ExprNarrow.v
ExprPath.v
ExprText.v
ExprQuote.v
FmtString.v
Template.v
Validated.v
ExprArith.v
ExprShape.v
ExprOps.v
ExprQuiet.v
ExprLib.v
ExprEval.v
ExprLibSound.v
ExprRe.v
ExprReSound.v
ExprSound.v
ExprDefects.v
ExprLex.v
ExprParse.v
ExprGrammar.v
ExprAccept.v
ExprNames.v
ExprNeeds.v
ExprMain.v
