(* ===== verification/Prelude.v ===== *)
(** * sqi: a verification library for the render-farm manager

    sqi (Go, under [src/]) runs OpenJD jobs on a farm of workers.  A template's
    parameter space is expanded into tasks ([internal/openjd]); the job, its
    steps and tasks are rows of a relational store ([internal/store/sqlstore]);
    workers lease ready tasks under the concurrency caps of queues, farms and
    usage pools and report on their attempts over a message bus; the scheduler
    ([internal/scheduler]) matches tasks with workers, takes their reports,
    finalizes steps and jobs from their children, releases or cancels what
    waited for them, retries failures and takes silent workers offline; one of
    several servers leads at a time ([internal/ha]).  Templates may contain
    expressions of a small typed language ([internal/openjd/expr]).  This library
    models the expansion, every write of the store's scheduling tables, the
    scheduler's handlers and sweeps, the election, and the expression language from
    source text to value, with the checks of a template's steps and parameter spaces, and
    proves what makes them correct.

    ** The files

    [Prelude] (this file): results with an early-return notation, 64-bit
    integers with their wrap-around, the parts of Go's [strings] and [strconv]
    the code uses, a stable sort, and the tactics.

    Expansion, from [internal/openjd]:
    - [IntRange] ([intrange/intrange.go]): ranges, their printing, counting,
      iteration and parsing.  [Iterate] is shown to list exactly the set the
      specification assigns to a range, [Count] to be its saturated size, and
      parsing to invert printing.
    - [RangeExpr] ([range.go]): expansion of a range expression is the
      de-duplicated union of its elements; validating and counting without
      expanding agree with it; overlap detection is exact within stated bounds
      and wrong outside them.
    - [Chunk] ([expand.go]): chunking partitions the values into the fewest,
      balanced chunks, and each chunk's text expands to its values.
    - [Combine] ([expand.go], types of [model.go]): combination expressions.
      The parser accepts exactly the grammar and always returns; the arithmetic
      guard admits exactly the spaces within the cap; an expansion charges the
      job's budget with its rows and stays within it.

    Templates, from [internal/openjd] (after the files below that they use):
    - [FmtString] ([fmtstring]): references in texts.  Resolving is substitution of
      every reference in exactly the texts that have the documented shape; the error
      lists the unknown names.
    - [Template] ([validate.go], [scope.go]): the checks of the names, dependencies and
      cycles of steps, of parameter spaces and their limits, of format strings.
    - [Validated]: the check for cycles is exact; a job made of validated steps is never
      stuck, as one of [ResolveDependencies] and [CancelDependents] moves a step; a
      validated parameter space expands, up to the errors listed.

    Text on the wire:
    - [StatusText] ([worker/protocol/statustext.go]): what is left of a status
      text is valid, printable and within its size.
    - [Subjects] ([bus/subjects.go], [brokerauth/permissions.go]): subjects
      parse back to what they were built from, and a worker's permissions reach
      no other worker's subjects.
    - [GoText]: case folding and the pieces of text handling the matcher needs.

    Leadership, from [internal/ha] and [sqlstore/leadership.go]:
    - [Leadership]: the lease row and its statements, the elector's steps.
    - [Election]: several servers on one database with delayed and lost
      messages; at most one is authorised at a time, and writes carry
      non-decreasing epochs.

    The store, from [internal/store] and [internal/store/sqlstore]:
    - [Schema]: statuses, rows, tables, transition tables, and an SQL statement
      as a guarded update of the rows of one table.  A table is a finite map
      from primary key to row; a transaction is a function of the database that
      commits or rolls back as a whole; times are integers.
    - [Sample]: a concrete farm for the witnesses.
    - [Finalize] ([finalize.go]), [Attempts] ([attemptclose.go],
      [attemptreport.go], failures in [task.go]), [Lease] ([lease.go], selection
      in [task.go], counts in [usage.go]), [Jobs] ([job.go], retries in
      [task.go]), [Workers] ([worker.go]), [Catalog] ([task_log.go],
      [compute_location.go], [workercredential.go]): one definition per statement
      and per operation, with the code's guards and early returns.  [Lease] also
      shows that a lease never oversubscribes a cap, is all or nothing, lands
      when there is room, and agrees with the list of ready tasks.
    - [Evolve], [Keeps]: how every operation changes rows; one lemma per
      operation.
    - [StoreInv]: the operations as one type of commands [Op], the databases
      they reach in any order, and the invariants: a usage claim is active
      exactly while its attempt runs, a task has one running attempt at most
      and it is the latest, and closed rows never change.
    - [Ledger]: an abstract ledger of who holds what, and that the store's
      tables refine it command by command.
    - [Transitions]: every status change of a task or job, under any command, is
      an arrow of the documented state machines, with the exceptions stated.
    - [Reports]: what a terminal report does, that redelivery is harmless, and
      that a failure is counted once.
    - [Outcomes]: how a step ends, and that in every reachable database a
      completed job's steps are completed and a completed step's tasks
      succeeded.
    - [Typing]: every reference between rows of a reachable database is to a row
      of the right job, step and task.
    - [Submission]: a submission is stored whole or not at all, in order, with
      strictly increasing stamps.

    The scheduler, from [internal/scheduler] and [internal/openjd/deps.go]:
    - [Sched]: code that makes several store calls in a row, as a monad in which
      other writers act between any two calls and any call may fail, with two
      program logics ([returns], [keeps]).
    - [Policy] ([retrypolicy.go], [policy.go], [api/retryoverrides.go]): the
      effective retry policy and the concurrency gate.
    - [Match] ([matcher.go], [exprcaps.go], [extcaps.go]): which worker may run
      a step, against a rule-by-rule reference.
    - [Deps] ([deps.go]): which steps are released and which are cancelled,
      exactly; the fixpoint loop returns under any interference.
    - [Reconcile] ([jobdeps.go], [retry.go], the completion half of
      [taskstatus.go]): the cascade over blocked jobs returns and leaves every
      affected job settled.
    - [Handlers] ([taskstatus.go], [failure.go], [cancellation.go], [fence.go]),
      [Handling]: a worker's report from its subject to the store; what a
      failure decides, and that a report not from the holder changes nothing.
    - [Select] ([lease.go], [unschedulable.go]), [Selecting]: a lease request
      writes only leases to its sender and never more than its free cores, and
      the sweep that explains waiting tasks agrees with the gates.
    - [Reconciler] ([attemptreconcile.go]): which attempts are overdue, against
      the history of reports.
    - [Waiters] ([waiter.go]): parked requests are woken once.
    - [Fleet] ([scheduler.go], [attemptreconcile.go]): worker messages, the
      sweeps of a tick and the start-up repairs.
    - [Tending]: all of the scheduler's inputs in any order on one store.
    - [Silent]: the sweep for silent workers takes exactly those.
    - [Logs] ([logingest.go], [attemptcache.go]): whose log chunk it is.
    - [Blocked]: a run in which a blocked job's tasks are executed.

    The expression language, from [internal/openjd/expr]:
    - [ExprType] ([type.go]): types, their notation and normal form.  Parsing is
      total and inverts printing; a union depends on its members only.
    - [ExprFloat]: Go's [float64] with [math] and [strconv], on the standard
      library's binary64 numbers.
    - [ExprValue] ([value.go], [errors.go], [meter.go], [limits.go],
      [rangeexpr.go]): values, errors, the meter of live bytes and operations, as
      a state monad in which a panic of the source is an error of its own.
    - [ExprRange] ([rangeexpr.go]): ranges as values; reading what is printed.
    - [ExprCoerce], [ExprNarrow] ([coerce.go]): coercion delivers its target, and
      what a placeholder is narrowed to covers the values to come.
    - [ExprPath] ([pathval.go], [pathmapping.go], parts of [funcspath.go]): the
      text of a path is a normal form, [relative_to] is inverse to joining, and
      mapping takes the longest rule.
    - [ExprArith] ([ops.go], [slice.go], parts of [funcsmath.go] and
      [funcslist.go]): integer arithmetic is exact or reports overflow, and a slice
      selects what Python's selects.
    - [ExprShape] ([shape.go], unification in [list.go]): the signature picked for
      a call is the first of the cheapest.
    - [ExprOps] ([ops.go]), [ExprQuiet]: the operators, and that each is sound for
      its signature and leaves the count of live bytes alone.
    - [ExprEval] ([ast.go], [eval.go], [list.go], [slice.go], [comp.go],
      [call.go], [resolve.go]): the evaluator.
    - [ExprSound]: a program logic for it; evaluation never panics, returns values
      that conform to the target, and ends with the live bytes of its result.
    - [ExprDefects]: three runs that go wrong.
    - [ExprText] ([funcsstr*.go], [funcsrepr*.go], [pathnumber.go] with Go's
      [strings]): the routines behind the text functions.  [ExprQuote]: readers of a
      POSIX shell word, a JSON string and a PowerShell literal, and that quoting is
      read back as the text; splitting and joining are inverse.
    - [ExprLib] ([funcsconv.go], [funcsmath.go], [funcslist.go], [funcspath.go] and
      the tables of the text functions), [ExprLibSound]: the functions a template may
      call, with Go's stable sort; every entry is sound for its signature.
    - [ExprRe] ([repattern.go], [funcsre.go], [recache.go] with Go's loops over
      matches), [ExprReSound]: patterns are translated or refused, an escaped text
      matches itself, the bound of a replacement is exact, and the cache of compiled
      patterns is not observable.  The engine is the interface [Regexps] with the
      laws [RegexpLaws], and a small engine satisfies them.
    - [ExprLex] ([lexer.go], [token.go], [unicodename.go]): tokens tile the source.
    - [ExprParse] ([parser.go]), [ExprGrammar], [ExprAccept]: the parser, the grammar
      it follows, and that it accepts every phrase of it within its depth.
    - [ExprNames] (the walk of [ast.go], the queries of [parser.go]), [ExprNeeds]: the
      names collected from a tree are its free ones, and what an evaluation reads.
    - [ExprMain] ([funcs.go]): the whole library as the table of the evaluator, and
      the theorems from source text to value: no panic, and exact live bytes.

    ** Bounds and fuel

    Recursion that is not structural takes fuel, and each use is shown to have
    enough: [Iterate] one round more than the range's count; Euclid's loops 130
    rounds, twice the width of an integer and more; the combination parser four
    calls per token and five more; [CancelDependents] one pass more than there
    are steps; [ReconcileDependents] one level more than there are blocked jobs;
    a batched insert one batch per task.  The compare-and-swap loop has the code's own
    bound, and so has the evaluator: its fuel is the depth the code allows, and the
    model reports the code's error where the fuel ends.  The loop of a slice has as
    many rounds as the sequence has elements, and that is enough.  The descent of the
    expression parser has the code's own depth, its loops the number of tokens left,
    the walk over a tree the number of its nodes, a loop over matches two rounds more
    than the text has bytes, and the lexer as many rounds as there are bytes left.  The
    scan for references has one round more than there are bytes, the check for cycles one
    level more than there are names.  Each is shown to be enough.

    ** What is not modelled

    Concurrency inside a transaction: each transaction is one atomic step, which
    is what the store's anchors (row locks) and the single SQLite writer are
    for; the retry of a serialization failure re-runs the body.  Columns no
    modelled statement reads or writes (names for display, JSON blobs).  The
    administration of farms, queues, pools, locations and credentials is one
    command that may leave those tables in any state.  Canonical float spelling
    is a parameter of the expansion, Unicode case folding one of the matcher and of
    Windows paths, [math.Pow] and the conversion of a float out of range one of the
    evaluator, the assembly of the message for a worker one of leasing, and the regular
    expression engine, the tables of Unicode and the names of its characters are
    parameters of the expression library, which leaves out the locks of its caches and
    the wording of its errors.  Of the validator the checks of scripts, environments, host
    requirements, job parameters and of the expressions in a template are left out.
    The template parser, the resolution of templates, patterns over logs, the REST and
    WebSocket layers, authentication, the connections of the message bus, the worker
    agent and the user interface are outside the library; submissions are assumed to have the shape
    [openjd.Submitter.Submit] gives them ([submissionBuilt]). *)

From Stdlib Require Export ZArith Lia Ascii.
From stdpp Require Export base option list strings gmap sets.
From Stdlib Require Export Sorted.

#[export] Set Default Goal Selector "!".
#[export] Set Warnings "-clear-no-such-hyp".

Declare Scope sqi_scope.
Delimit Scope sqi_scope with sqi.
Open Scope sqi_scope.

(** ** Results of fallible code *)

(** A Go function returning [(A, error)]. *)
Inductive res (E A : Type) : Type :=
  | Ok (a : A)
  | Err (e : E).
Arguments Ok {E A} a.
Arguments Err {E A} e.

Definition res_bind {E A B} (m : res E A) (k : A → res E B) : res E B :=
  match m with
  | Ok a => k a
  | Err e => Err e
  end.

Definition is_ok {E A} (m : res E A) : bool :=
  match m with Ok _ => true | Err _ => false end.

(** Early return on error: [let? x := m in k] is Go's
    [x, err := m; if err != nil { return err }; k]. *)
Notation "'let?' x ':=' m 'in' k" := (res_bind m (λ x, k))
  (at level 10, x pattern, m at level 100, k at level 200) : sqi_scope.

Lemma res_bind_ok {E A B} (m : res E A) (k : A → res E B) b :
  res_bind m k = Ok b → ∃ a, m = Ok a ∧ k a = Ok b.
Proof. destruct m; simpl; naive_solver. Qed.

(** Takes apart every hypothesis [res_bind m k = Ok b]. *)
Ltac invert_ok :=
  repeat match goal with
  | H : res_bind _ _ = Ok _ |- _ =>
      let a := fresh "a" in
      let Ha := fresh "Hok" in
      apply res_bind_ok in H as (a & Ha & H)
  | H : Ok _ = Ok _ |- _ => injection H; clear H; intros; subst
  | H : Err _ = Ok _ |- _ => discriminate H
  | H : Ok _ = Err _ |- _ => discriminate H
  end.

(** Case analysis on the outermost [if] or [match] of the goal or of [H]. *)
Ltac case_goal :=
  match goal with
  | |- context [if ?b then _ else _] => destruct b eqn:?
  | |- context [match ?x with _ => _ end] => destruct x eqn:?
  end.
Ltac case_in H :=
  match type of H with
  | context [if ?b then _ else _] => destruct b eqn:?
  | context [match ?x with _ => _ end] => destruct x eqn:?
  end.

(** Turns boolean comparisons on [Z] into propositions. *)
Ltac zbool :=
  repeat match goal with
  | H : (_ && _)%bool = true |- _ => apply andb_true_iff in H as [? ?]
  | H : (_ || _)%bool = false |- _ => apply orb_false_iff in H as [? ?]
  | H : negb _ = true |- _ => apply negb_true_iff in H
  | H : negb _ = false |- _ => apply negb_false_iff in H
  | H : (_ <? _)%Z = true |- _ => apply Z.ltb_lt in H
  | H : (_ <? _)%Z = false |- _ => apply Z.ltb_ge in H
  | H : (_ <=? _)%Z = true |- _ => apply Z.leb_le in H
  | H : (_ <=? _)%Z = false |- _ => apply Z.leb_gt in H
  | H : (_ >? _)%Z = _ |- _ => rewrite Z.gtb_ltb in H
  | H : (_ >=? _)%Z = _ |- _ => rewrite Z.geb_leb in H
  | H : (_ =? _)%Z = true |- _ => apply Z.eqb_eq in H
  | H : (_ =? _)%Z = false |- _ => apply Z.eqb_neq in H
  end.

(** ** Machine integers: Go's [int] on a 64-bit platform *)

Definition MaxInt : Z := 9223372036854775807.
Definition MinInt : Z := -9223372036854775808.

(** Two's complement wrap-around of an exact result. *)
Definition wrap64 (z : Z) : Z :=
  ((z + 9223372036854775808) mod 18446744073709551616 - 9223372036854775808)%Z.

Definition in_int (z : Z) : Prop := (MinInt ≤ z ≤ MaxInt)%Z.

#[export] Instance in_int_dec z : Decision (in_int z).
Proof. unfold in_int. apply _. Defined.

Lemma wrap64_id z : in_int z → wrap64 z = z.
Proof.
  unfold in_int, wrap64, MinInt, MaxInt. intros H.
  rewrite Z.mod_small; lia.
Qed.

Lemma wrap64_range z : in_int (wrap64 z).
Proof.
  unfold in_int, wrap64, MinInt, MaxInt.
  pose proof (Z.mod_pos_bound (z + 9223372036854775808) 18446744073709551616 ltac:(lia)).
  lia.
Qed.

(** The wrapped value differs from the exact one by a multiple of [2^64]. *)
Lemma wrap64_decomp z :
  ∃ k, (wrap64 z = z - k * 18446744073709551616)%Z.
Proof.
  exists ((z + 9223372036854775808) / 18446744073709551616)%Z.
  unfold wrap64.
  pose proof (Z.div_mod (z + 9223372036854775808) 18446744073709551616 ltac:(lia)).
  lia.
Qed.

(** Arithmetic that knows the extreme values of [int]. *)
Ltac zint :=
  unfold in_int, MaxInt, MinInt in *; try lia.

Create HintDb sqi.
#[export] Hint Resolve wrap64_range : sqi.

(** ** Sorting *)

(** A stable insertion sort: [slices.SortStableFunc] and [ORDER BY]. *)
Fixpoint insert_by {A} (le : A → A → bool) (x : A) (l : list A) : list A :=
  match l with
  | [] => [x]
  | y :: l' => if le x y then x :: l else y :: insert_by le x l'
  end.

Fixpoint sort_by {A} (le : A → A → bool) (l : list A) : list A :=
  match l with
  | [] => []
  | x :: l' => insert_by le x (sort_by le l')
  end.

Lemma insert_by_perm {A} (le : A → A → bool) x l : insert_by le x l ≡ₚ x :: l.
Proof.
  induction l as [|y l IH]; cbn [insert_by]; [done|]. destruct (le x y); [done|].
  rewrite IH. apply Permutation_swap.
Qed.

Lemma sort_by_perm {A} (le : A → A → bool) l : sort_by le l ≡ₚ l.
Proof.
  induction l as [|x l IH]; cbn [sort_by]; [done|]. by rewrite insert_by_perm, IH.
Qed.

Section Sorted.
Context {A : Type} (le : A → A → bool).
Hypothesis le_total : ∀ x y, le x y = true ∨ le y x = true.
Hypothesis le_trans : ∀ x y z, le x y = true → le y z = true → le x z = true.

Lemma insert_by_sorted x l :
  StronglySorted (λ x y, le x y = true) l →
  StronglySorted (λ x y, le x y = true) (insert_by le x l).
Proof.
  induction 1 as [|y l Hs IH Hy]; cbn [insert_by].
  { constructor; constructor. }
  destruct (le x y) eqn:E.
  - constructor; [by constructor|]. constructor; [done|].
    eapply Forall_impl; [exact Hy|]. intros z Hz. by apply (le_trans x y z).
  - constructor; [done|]. rewrite insert_by_perm. constructor; [|done].
    destruct (le_total x y); congruence.
Qed.

Lemma sort_by_sorted l : StronglySorted (λ x y, le x y = true) (sort_by le l).
Proof.
  induction l as [|x l IH]; cbn [sort_by]; [constructor|]. by apply insert_by_sorted.
Qed.
End Sorted.

(** ** Go strings: byte sequences *)

Abbreviation str := (list ascii).

Definition of_string (s : string) : str := String.list_ascii_of_string s.
Definition of_str (s : str) : string := String.string_of_list_ascii s.

#[export] Instance ascii_countable : Countable ascii :=
  inj_countable' nat_of_ascii ascii_of_nat ascii_nat_embedding.

Definition byte_is (c : ascii) (n : nat) : bool := Nat.eqb (nat_of_ascii c) n.

Definition byte_in (c : ascii) (lo hi : nat) : bool :=
  (Nat.leb lo (nat_of_ascii c) && Nat.leb (nat_of_ascii c) hi)%bool.

(** The one-, two- and three-byte UTF-8 encodings of the runes
    [unicode.IsSpace] accepts. *)
#[global] Arguments byte_is : simpl never.
#[global] Arguments byte_in : simpl never.
Definition space1 (c : ascii) : bool :=
  (byte_in c 9 13 || byte_is c 32)%bool.
Definition space2 (c1 c2 : ascii) : bool :=
  (byte_is c1 194 && (byte_is c2 133 || byte_is c2 160))%bool.
Definition space3 (c1 c2 c3 : ascii) : bool :=
  ((byte_is c1 225 && byte_is c2 154 && byte_is c3 128)
   || (byte_is c1 226 && byte_is c2 128
       && (byte_in c3 128 138 || byte_in c3 168 169 || byte_is c3 175))
   || (byte_is c1 226 && byte_is c2 129 && byte_is c3 159)
   || (byte_is c1 227 && byte_is c2 128 && byte_is c3 128))%bool.

Fixpoint trim_by (sp2 : ascii → ascii → bool) (sp3 : ascii → ascii → ascii → bool)
    (s : str) : str :=
  match s with
  | [] => []
  | c1 :: s1 =>
      if space1 c1 then trim_by sp2 sp3 s1
      else match s1 with
      | [] => s
      | c2 :: s2 =>
          if sp2 c1 c2 then trim_by sp2 sp3 s2
          else match s2 with
          | [] => s
          | c3 :: s3 => if sp3 c1 c2 c3 then trim_by sp2 sp3 s3 else s
          end
      end
  end.

(** [strings.TrimSpace]: leading runes from the front, trailing runes from
    the back (where an encoding is read in reverse). *)
Definition TrimLeft (s : str) : str := trim_by space2 space3 s.
Definition TrimRight (s : str) : str :=
  rev (trim_by (λ c2 c1, space2 c1 c2) (λ c3 c2 c1, space3 c1 c2 c3) (rev s)).
Definition TrimSpace (s : str) : str := TrimRight (TrimLeft s).

(** [strings.Split(s, sep)] for a one-byte separator. *)
Fixpoint split_on (sep : ascii) (s : str) : list str :=
  match s with
  | [] => [[]]
  | c :: s' =>
      if bool_decide (c = sep) then [] :: split_on sep s'
      else match split_on sep s' with
           | [] => [[c]]
           | p :: ps => (c :: p) :: ps
           end
  end.

(** [strings.Join(parts, sep)]. *)
Fixpoint join {A} (sep : list A) (parts : list (list A)) : list A :=
  match parts with
  | [] => []
  | [p] => p
  | p :: ps => p ++ sep ++ join sep ps
  end.

(** [strings.IndexByte] and [strings.LastIndex] for one byte. *)
Fixpoint index_byte (c : ascii) (s : str) : option nat :=
  match s with
  | [] => None
  | d :: s' => if bool_decide (d = c) then Some 0 else S <$> index_byte c s'
  end.
Fixpoint last_index (c : ascii) (s : str) : option nat :=
  match s with
  | [] => None
  | d :: s' =>
      match last_index c s' with
      | Some i => Some (S i)
      | None => if bool_decide (d = c) then Some 0 else None
      end
  end.

Fixpoint has_prefix (p s : str) : bool :=
  match p, s with
  | [], _ => true
  | _, [] => false
  | a :: p', b :: s' => bool_decide (a = b) && has_prefix p' s'
  end.

Fixpoint contains (s sub : str) : bool :=
  has_prefix sub s || match s with [] => false | _ :: s' => contains s' sub end.

(** ** Decimal integers: [strconv.Itoa] and [strconv.Atoi] *)

Definition is_digit (c : ascii) : bool := byte_in c 48 57.
Definition digit_val (c : ascii) : Z := Z.of_nat (nat_of_ascii c) - 48.
Definition digit_chr (d : Z) : ascii := ascii_of_nat (48 + Z.to_nat d).
#[global] Arguments is_digit : simpl never.
#[global] Arguments digit_val : simpl never.
#[global] Arguments digit_chr : simpl never.

Fixpoint digits (fuel : nat) (n : Z) : str :=
  match fuel with
  | O => []
  | S f =>
      if (n <? 10)%Z then [digit_chr n]
      else digits f (n / 10) ++ [digit_chr (n mod 10)]
  end.

(** Twenty digits print every 64-bit magnitude. *)
Definition Itoa (z : Z) : str :=
  if (z <? 0)%Z then "-"%char :: digits 20 (- z) else digits 20 z.

Fixpoint digits_val (acc : Z) (s : str) : option Z :=
  match s with
  | [] => Some acc
  | c :: s' =>
      if is_digit c then digits_val (acc * 10 + digit_val c) s' else None
  end.

(** An optional sign, at least one digit, and a value that fits. *)
Definition Atoi (s : str) : option Z :=
  let '(neg, ds) :=
    match s with
    | c :: s' =>
        if bool_decide (c = "-"%char) then (true, s')
        else if bool_decide (c = "+"%char) then (false, s') else (false, s)
    | [] => (false, s)
    end in
  match ds with
  | [] => None
  | _ =>
      match digits_val 0 ds with
      | None => None
      | Some n =>
          let z := if neg : bool then (- n)%Z else n in
          if decide (in_int z) then Some z else None
      end
  end.

(** ** Lemmas on strings and decimals *)

(** Printable ASCII that is not a space: what decimal text is made of. *)
Definition plain (c : ascii) : bool := byte_in c 33 127.

Lemma plain_not_space c1 c2 c3 :
  plain c1 = true →
  space1 c1 = false ∧ space2 c1 c2 = false ∧ space3 c1 c2 c3 = false.
Proof.
  unfold plain, space1, space2, space3, byte_in, byte_is.
  rewrite andb_true_iff, !Nat.leb_le. intros [Hlo Hhi].
  destruct (Nat.eqb_spec (nat_of_ascii c1) 32); [lia|].
  destruct (Nat.leb_spec (nat_of_ascii c1) 13); [lia|].
  destruct (Nat.eqb_spec (nat_of_ascii c1) 194); [lia|].
  destruct (Nat.eqb_spec (nat_of_ascii c1) 225); [lia|].
  destruct (Nat.eqb_spec (nat_of_ascii c1) 226); [lia|].
  destruct (Nat.eqb_spec (nat_of_ascii c1) 227); [lia|].
  rewrite !andb_false_r. done.
Qed.

Lemma space_rev_plain c1 c2 c3 :
  plain c1 = true → space2 c2 c1 = false ∧ space3 c3 c2 c1 = false.
Proof.
  unfold plain, space2, space3, byte_in, byte_is.
  rewrite andb_true_iff, !Nat.leb_le. intros [Hlo Hhi].
  repeat match goal with
  | |- context [Nat.eqb (nat_of_ascii c1) ?n] =>
      destruct (Nat.eqb_spec (nat_of_ascii c1) n); [lia|]
  | |- context [Nat.leb ?n (nat_of_ascii c1)] =>
      destruct (Nat.leb_spec n (nat_of_ascii c1)); [lia|]
  end.
  rewrite !andb_false_r. done.
Qed.

(** Trimming stops at once on a byte no space encoding can start with. *)
Lemma trim_by_stop sp2 sp3 c s :
  space1 c = false → (∀ d, sp2 c d = false) → (∀ d e, sp3 c d e = false) →
  trim_by sp2 sp3 (c :: s) = c :: s.
Proof.
  intros H1 H2 H3. destruct s as [|d [|e s]]; simpl; rewrite H1; [done| |].
  - by rewrite H2.
  - by rewrite H2, H3.
Qed.

Lemma TrimSpace_plain s :
  Forall (λ c, plain c = true) s → TrimSpace s = s.
Proof.
  intros Hs. unfold TrimSpace, TrimRight, TrimLeft.
  assert (Hl : trim_by space2 space3 s = s).
  { destruct Hs as [|c s Hc Hs]; [done|]. apply trim_by_stop.
    - by destruct (plain_not_space c c c Hc).
    - intros d. by destruct (plain_not_space c d d Hc) as (_&?&_).
    - intros d e. by destruct (plain_not_space c d e Hc) as (_&_&?). }
  rewrite Hl.
  assert (Hr : Forall (λ c, plain c = true) (rev s))
    by (by apply Forall_rev).
  destruct (rev s) as [|c t] eqn:Hrev.
  - destruct s; [done|]. apply (f_equal (@length _)) in Hrev.
    rewrite length_rev in Hrev. done.
  - inversion Hr as [|?? Hc _]; subst.
    rewrite trim_by_stop.
    + rewrite <- Hrev. apply rev_involutive.
    + by destruct (plain_not_space c c c Hc).
    + intros d. by destruct (space_rev_plain c d d Hc).
    + intros d e. by destruct (space_rev_plain c d e Hc).
Qed.

Lemma split_on_cons sep s : ∃ p ps, split_on sep s = p :: ps.
Proof.
  induction s as [|c s (p & ps & IH)]; simpl; [eauto|].
  case_bool_decide; [eauto|]. rewrite IH. eauto.
Qed.

Lemma split_on_app sep p s :
  sep ∉ p →
  split_on sep (p ++ sep :: s) = p :: split_on sep s.
Proof.
  induction p as [|c p IH]; simpl; intros Hp.
  - by rewrite bool_decide_true.
  - rewrite bool_decide_false by set_solver.
    rewrite IH by set_solver. done.
Qed.

Lemma split_on_none sep p : sep ∉ p → split_on sep p = [p].
Proof.
  induction p as [|c p IH]; simpl; intros Hp; [done|].
  rewrite bool_decide_false by set_solver. rewrite IH by set_solver. done.
Qed.

(** Splitting undoes joining when no part holds the separator. *)
Lemma split_on_join sep parts :
  parts ≠ [] → Forall (λ p, sep ∉ p) parts →
  split_on sep (join [sep] parts) = parts.
Proof.
  induction parts as [|p [|q ps] IH]; intros Hne Hall; [done| |].
  - inversion_clear Hall. simpl. by apply split_on_none.
  - inversion_clear Hall as [|?? Hp Hps].
    change (join [sep] (p :: q :: ps)) with (p ++ sep :: join [sep] (q :: ps)).
    rewrite split_on_app by done. rewrite IH by done. done.
Qed.

(** Joining undoes splitting, and no part holds the separator. *)
Lemma join_split_on sep s : join [sep] (split_on sep s) = s.
Proof.
  induction s as [|c s IH]; simpl; [done|]. destruct (split_on_cons sep s) as (p & ps & E).
  rewrite E in *. case_bool_decide as Hc.
  - subst c. change (join [sep] ([] :: p :: ps)) with (sep :: join [sep] (p :: ps)). by rewrite IH.
  - destruct ps; simpl in *; by f_equal.
Qed.

Lemma split_on_free sep s : Forall (λ p, sep ∉ p) (split_on sep s).
Proof.
  induction s as [|c s IH]; simpl; [repeat constructor; apply not_elem_of_nil|].
  case_bool_decide; [by constructor; [apply not_elem_of_nil|]|].
  destruct IH as [|p ps Hp Hps]; repeat constructor; set_solver.
Qed.

Lemma index_byte_none c s : index_byte c s = None ↔ c ∉ s.
Proof.
  induction s as [|d s IH]; simpl; [split; [intros _; apply not_elem_of_nil|done]|].
  rewrite not_elem_of_cons. case_bool_decide as Hd.
  - subst. split; [done|]. by intros [].
  - rewrite fmap_None, IH. split; [by auto|by intros []].
Qed.

Lemma index_byte_app c p s :
  c ∉ p → index_byte c (p ++ c :: s) = Some (length p).
Proof.
  induction p as [|d p IH]; simpl; intros Hp.
  - by rewrite bool_decide_true.
  - rewrite bool_decide_false by set_solver. rewrite IH by set_solver. done.
Qed.

Lemma last_index_none c s : c ∉ s → last_index c s = None.
Proof.
  induction s as [|d s IH]; simpl; intros Hs; [done|].
  rewrite IH by set_solver. rewrite bool_decide_false by set_solver. done.
Qed.

Lemma last_index_app c p s :
  c ∉ s → last_index c (p ++ c :: s) = Some (length p).
Proof.
  intros Hs. induction p as [|d p IH]; simpl.
  - rewrite last_index_none by done. by rewrite bool_decide_true.
  - by rewrite IH.
Qed.

(** *** Printing a decimal and reading it back *)

Lemma digit_chr_val d : (0 ≤ d < 10)%Z →
  is_digit (digit_chr d) = true ∧ digit_val (digit_chr d) = d.
Proof.
  intros Hd. unfold is_digit, digit_val, digit_chr, byte_in.
  rewrite nat_ascii_embedding by lia.
  rewrite andb_true_iff, !Nat.leb_le. lia.
Qed.

Lemma is_digit_plain c : is_digit c = true → plain c = true ∧ c ≠ "-"%char ∧ c ≠ "+"%char ∧ c ≠ ":"%char ∧ c ≠ ","%char.
Proof.
  unfold is_digit, plain, byte_in. rewrite !andb_true_iff, !Nat.leb_le.
  intros [Hlo Hhi]. repeat split; [lia|lia| | | |]; intros ->;
    vm_compute in Hlo, Hhi; lia.
Qed.

Lemma digits_val_app acc s t :
  digits_val acc (s ++ t) =
  match digits_val acc s with Some a => digits_val a t | None => None end.
Proof.
  revert acc. induction s as [|c s IH]; intros acc; simpl; [done|].
  case_goal; [apply IH|done].
Qed.

Lemma digits_spec fuel n :
  (0 ≤ n < 10 ^ Z.of_nat fuel)%Z → fuel ≠ 0 →
  digits fuel n ≠ [] ∧ Forall (λ c, is_digit c = true) (digits fuel n) ∧
  digits_val 0 (digits fuel n) = Some n.
Proof.
  revert n. induction fuel as [|f IH]; intros n Hn Hf; [done|].
  cbn [digits].
  destruct (Z.ltb_spec n 10) as [Hlt|Hge].
  - destruct (digit_chr_val n ltac:(lia)) as [Hd Hv].
    repeat split; [done|by repeat constructor|].
    cbn [digits_val]. rewrite Hd, Hv. f_equal; lia.
  - rewrite Nat2Z.inj_succ, Z.pow_succ_r in Hn by lia.
    assert (Hf0 : f ≠ 0) by (intros ->; simpl in Hn; lia).
    destruct (IH (n / 10)%Z) as (Hne & Hall & Hval); [|done|].
    { split; [apply Z.div_pos; lia|]. apply Z.div_lt_upper_bound; lia. }
    pose proof (Z.mod_pos_bound n 10 ltac:(lia)) as Hm.
    destruct (digit_chr_val (n mod 10) Hm) as [Hd Hv].
    repeat split.
    + by destruct (digits f (n / 10)).
    + apply Forall_app; split; [done|by repeat constructor].
    + rewrite digits_val_app, Hval. cbn [digits_val]. rewrite Hd, Hv. f_equal.
      pose proof (Z.div_mod n 10 ltac:(lia)). lia.
Qed.

#[global] Arguments digits : simpl never.

(** The text of an integer: an optional minus and at least one digit. *)
Lemma Itoa_shape z : in_int z →
  ∃ ds, ds ≠ [] ∧ Forall (λ c, is_digit c = true) ds ∧
        digits_val 0 ds = Some (Z.abs z) ∧
        Itoa z = if (z <? 0)%Z then "-"%char :: ds else ds.
Proof.
  intros Hz. unfold Itoa. assert (Hp : (10 ^ Z.of_nat 20 = 100000000000000000000)%Z) by done.
  destruct (Z.ltb_spec z 0).
  - destruct (digits_spec 20 (- z)) as (?&?&?); [zint|done|].
    exists (digits 20 (- z)). rewrite Z.abs_neq by lia. auto.
  - destruct (digits_spec 20 z) as (?&?&?); [zint|done|].
    exists (digits 20 z). rewrite Z.abs_eq by lia. auto.
Qed.

Lemma Itoa_plain z : in_int z → Forall (λ c, plain c = true) (Itoa z).
Proof.
  intros (ds & _ & Hd & _ & ->)%Itoa_shape.
  assert (Forall (λ c, plain c = true) ds)
    by (eapply Forall_impl; [done|]; intros c Hc; by apply is_digit_plain).
  case_goal; [by constructor|done].
Qed.

Lemma Itoa_free z c : in_int z → is_digit c = false → c ≠ "-"%char → c ∉ Itoa z.
Proof.
  intros (ds & _ & Hd & _ & ->)%Itoa_shape Hc Hm Hin.
  assert (Hds : c ∉ ds) by (intros Hx; rewrite Forall_forall in Hd; specialize (Hd c Hx); congruence).
  case_in Hin; set_solver.
Qed.

(** Only the first byte of a printed integer can be a minus sign. *)
Lemma Itoa_tail_free z : in_int z →
  ∃ c t, Itoa z = c :: t ∧ "-"%char ∉ t.
Proof.
  intros (ds & Hne & Hd & _ & ->)%Itoa_shape.
  assert (Hds : "-"%char ∉ ds).
  { intros Hx. rewrite Forall_forall in Hd. specialize (Hd _ Hx). done. }
  case_goal; [eauto|]. destruct ds as [|c t]; [done|]. exists c, t. set_solver.
Qed.

Lemma Atoi_Itoa z : in_int z → Atoi (Itoa z) = Some z.
Proof.
  intros Hz. destruct (Itoa_shape z Hz) as (ds & Hne & Hd & Hv & ->).
  destruct (Z.ltb_spec z 0).
  - unfold Atoi. rewrite bool_decide_true by done.
    destruct ds as [|c t]; [done|]. rewrite Hv.
    rewrite Z.abs_neq, Z.opp_involutive by lia. by rewrite decide_True.
  - destruct ds as [|c t]; [done|]. unfold Atoi.
    inversion Hd as [|?? Hc _]; subst.
    destruct (is_digit_plain c Hc) as (_ & Hm & Hp & _).
    rewrite !bool_decide_false by done. rewrite Hv, Z.abs_eq by lia.
    by rewrite decide_True.
Qed.

Lemma Atoi_range s z : Atoi s = Some z → in_int z.
Proof.
  unfold Atoi. intros H. repeat (case_in H; try done); by injection H as <-.
Qed.
