(* ===== verification/IntRange.v ===== *)
(** * Integer ranges: [internal/openjd/intrange/intrange.go]

    The range element, its arithmetic [Count] and its [Iterate], and the
    parser of the [<IntRangeExpr>] grammar.  [Count] is shown to be the
    saturated size of the set the specification gives a range, [Iterate] to
    list exactly that set in step order, and parsing to invert printing. *)

From S2P Require Import Prelude.
Open Scope Z_scope.

(** ** Data *)

Record Range := mkRange {
  Start : Z;
  End_ : Z;
  Step : Z;
}.

#[export] Instance Range_eq_dec : EqDecision Range.
Proof. solve_decision. Defined.

Record Policy := mkPolicy {
  PositiveStepOnly : bool;
  AscendingOnly : bool;
}.

(** The three fields are machine integers. *)
Definition range_ok (r : Range) : Prop :=
  in_int (Start r) ∧ in_int (End_ r) ∧ in_int (Step r).

#[export] Instance range_ok_dec r : Decision (range_ok r).
Proof. unfold range_ok. apply _. Defined.

(** ** Operations *)

Definition Range_String (r : Range) : str :=
  if Start r =? End_ r then Itoa (Start r)
  else if Step r =? 1 then Itoa (Start r) ++ ["-"%char] ++ Itoa (End_ r)
  else Itoa (Start r) ++ ["-"%char] ++ Itoa (End_ r) ++ [":"%char] ++ Itoa (Step r).

Definition Count (r : Range) : Z :=
  let step := if Step r =? 0 then 1 else Step r in
  let span := wrap64 (End_ r - Start r) in
  if ((span >? 0) && (End_ r <? Start r)) || ((span <? 0) && (End_ r >? Start r))
  then MaxInt
  else if negb (Bool.eqb (span >? 0) (step >? 0)) then 1
  else if (span =? MinInt) && (step =? -1) then MaxInt
  else
    let count := wrap64 (Z.quot span step) in
    if count =? MaxInt then MaxInt else wrap64 (count + 1).

(** The two loops of [Iterate]; [None] is running out of fuel. *)
Fixpoint iterUp (fuel : nat) (v start end_ step : Z) : option (list Z) :=
  match fuel with
  | O => None
  | S f =>
      if (v <=? end_) || (v =? start) then
        if v >? wrap64 (MaxInt - step) then Some [v]
        else cons v <$> iterUp f (wrap64 (v + step)) start end_ step
      else Some []
  end.

Fixpoint iterDown (fuel : nat) (v start end_ step : Z) : option (list Z) :=
  match fuel with
  | O => None
  | S f =>
      if (v >=? end_) || (v =? start) then
        if v <? wrap64 (MinInt - step) then Some [v]
        else cons v <$> iterDown f (wrap64 (v + step)) start end_ step
      else Some []
  end.

(** [Iterate] with [fuel] loop iterations at most. *)
Definition iterate_fuel (fuel : nat) (r : Range) : option (list Z) :=
  let step := if Step r =? 0 then 1 else Step r in
  if Count r =? MaxInt then Some []
  else if step >? 0 then iterUp fuel (Start r) (Start r) (End_ r) step
  else iterDown fuel (Start r) (Start r) (End_ r) step.

(** The loop runs [Count] times and tests its condition once more. *)
Definition Iterate (r : Range) : list Z :=
  default [] (iterate_fuel (S (Z.to_nat (Count r))) r).

(** ** Parsing *)

(** The errors the parser reports, one constructor per message. *)
Inductive ParseError :=
  | RangeExpressionEmpty                        (* range expression is empty *)
  | StepRequiresRange (stepText : str)          (* step (%s) requires a range *)
  | StartAfterEnd (start end_ : Z)              (* range start (%d) must be <= end (%d) *)
  | StepNotPositive (stepText : str)            (* must be a positive integer *)
  | StepZero (stepText : str)                   (* must be a non-zero integer *)
  | EmptyValue                                  (* empty value in range expression *)
  | InvalidInteger (s : str)
  | InvalidRangeStart (s : str)
  | InvalidRangeEnd (s : str).

(** A bare integer or the two bounds of a range. *)
Inductive Split := Single (n : Z) | Bounds (start end_ : Z).

Definition splitRange (s0 : str) : res ParseError Split :=
  let s := TrimSpace s0 in
  match s with
  | [] => Err EmptyValue
  | _ :: tl =>
      match index_byte "-"%char tl with
      | None =>
          match Atoi s with
          | None => Err (InvalidInteger s)
          | Some n => Ok (Single n)
          end
      | Some i =>
          let sepIdx := S i in
          match Atoi (TrimSpace (take sepIdx s)) with
          | None => Err (InvalidRangeStart (take sepIdx s))
          | Some st =>
              match Atoi (TrimSpace (drop (S sepIdx) s)) with
              | None => Err (InvalidRangeEnd (drop (S sepIdx) s))
              | Some en => Ok (Bounds st en)
              end
          end
      end
  end.

Definition parseStep (stepText : str) (p : Policy) : res ParseError Z :=
  match stepText with
  | [] => Ok 1
  | _ =>
      let bad := if PositiveStepOnly p then StepNotPositive stepText else StepZero stepText in
      match Atoi (TrimSpace stepText) with
      | None => Err bad
      | Some step =>
          if step =? 0 then Err bad
          else if PositiveStepOnly p && (step <? 0) then Err (StepNotPositive stepText)
          else Ok step
      end
  end.

Definition parseElement (s0 : str) (p : Policy) : res ParseError Range :=
  let '(s, stepText) :=
    match last_index ":"%char s0 with
    | Some idx => (take idx s0, drop (S idx) s0)
    | None => (s0, [])
    end in
  let? sp := splitRange s in
  match sp with
  | Single start =>
      match stepText with
      | [] => Ok (mkRange start start 1)
      | _ => Err (StepRequiresRange stepText)
      end
  | Bounds start end_ =>
      let? step := parseStep stepText p in
      if AscendingOnly p && (start >? end_) then Err (StartAfterEnd start end_)
      else Ok (mkRange start end_ step)
  end.

(** The loop over the comma-separated parts; empty parts are skipped. *)
Fixpoint parseParts (parts : list str) (p : Policy) : res ParseError (list Range) :=
  match parts with
  | [] => Ok []
  | part0 :: rest =>
      match TrimSpace part0 with
      | [] => parseParts rest p
      | part =>
          let? r := parseElement part p in
          let? rs := parseParts rest p in
          Ok (r :: rs)
      end
  end.

Definition ParseWithPolicy (s : str) (p : Policy) : res ParseError (list Range) :=
  match TrimSpace s with
  | [] => Err RangeExpressionEmpty
  | _ =>
      let? ranges := parseParts (split_on ","%char s) p in
      match ranges with
      | [] => Err RangeExpressionEmpty
      | _ => Ok ranges
      end
  end.

Definition Parse (s : str) : res ParseError (list Range) :=
  ParseWithPolicy s (mkPolicy false false).

(** ** The specification's set *)

Definition eff_step (r : Range) : Z := if Step r =? 0 then 1 else Step r.

(** [{x} ∪ {x + m n | m > 0, x + m n <= y if n > 0, x + m n >= y if n < 0}]. *)
Definition in_range_set (r : Range) (v : Z) : Prop :=
  v = Start r ∨
  ∃ m, 0 < m ∧ v = Start r + m * eff_step r ∧
       (0 < eff_step r → v ≤ End_ r) ∧ (eff_step r < 0 → End_ r ≤ v).

(** The exact number of its elements. *)
Definition exact_count (r : Range) : Z :=
  let n := eff_step r in
  if 0 <? n then
    if Start r <=? End_ r then (End_ r - Start r) / n + 1 else 1
  else
    if End_ r <=? Start r then (Start r - End_ r) / (- n) + 1 else 1.

(** The terms of the arithmetic progression, in step order. *)
Definition progression (start step : Z) (k : nat) : list Z :=
  (λ i : nat, start + Z.of_nat i * step) <$> seq 0 k.

(** ** Lemmas *)

Lemma progression_S start step k :
  progression start step (S k) = start :: progression (start + step) step k.
Proof.
  unfold progression. cbn [seq fmap list_fmap]. f_equal; [lia|].
  rewrite <- fmap_S_seq, <- list_fmap_compose.
  apply list_fmap_ext. intros i x _. cbn. lia.
Qed.

Lemma elem_of_progression start step k v :
  v ∈ progression start step k ↔
  ∃ i, 0 ≤ i < Z.of_nat k ∧ v = start + i * step.
Proof.
  unfold progression. rewrite list_elem_of_fmap. split.
  - intros (i & -> & Hi). apply elem_of_seq in Hi. exists (Z.of_nat i). lia.
  - intros (i & Hi & ->). exists (Z.to_nat i). rewrite elem_of_seq, Z2Nat.id by lia.
    split; [done|]. lia.
Qed.

Lemma eff_step_nonzero r : eff_step r ≠ 0.
Proof. unfold eff_step. case_goal; zbool; lia. Qed.

Lemma eff_step_int r : range_ok r → in_int (eff_step r).
Proof. intros (_ & _ & H). unfold eff_step. case_goal; [zint|done]. Qed.

Lemma quot_down a n : a ≤ 0 → n < 0 → Z.quot a n = (- a) / (- n).
Proof. intros. rewrite <- Z.quot_opp_opp by lia. apply Z.quot_div_nonneg; lia. Qed.

Lemma Z_div_le_self a n : 0 ≤ a → 0 < n → 0 ≤ a / n ≤ a.
Proof.
  intros. split; [apply Z.div_pos; lia|].
  apply Z.div_le_upper_bound; [lia|]. nia.
Qed.

(** [Count] when [End - Start] fits a machine integer. *)
Lemma Count_fits r : range_ok r → in_int (End_ r - Start r) →
  Count r = Z.min MaxInt (exact_count r).
Proof.
  intros Hok Hspan. pose proof (eff_step_int r Hok) as Hn.
  pose proof (eff_step_nonzero r) as Hn0.
  unfold Count, exact_count. fold (eff_step r). cbv zeta.
  rewrite (wrap64_id (End_ r - Start r)) by done.
  set (n := eff_step r) in *. destruct Hok as (Hs & He & _).
  destruct (_ || _)%bool eqn:Hov.
  { exfalso. apply orb_true_iff in Hov as [Hov|Hov]; zbool; lia. }
  clear Hov. rewrite !Z.gtb_ltb.
  destruct (Z.ltb_spec 0 n); destruct (Z.ltb_spec 0 (End_ r - Start r)); cbn [Bool.eqb negb].
  - rewrite (proj2 (Z.leb_le _ _)) by lia.
    rewrite (proj2 (Z.eqb_neq n (-1))) by lia. rewrite andb_false_r.
    rewrite Z.quot_div_nonneg by lia.
    pose proof (Z_div_le_self (End_ r - Start r) n). rewrite wrap64_id by zint.
    destruct (Z.eqb_spec ((End_ r - Start r) / n) MaxInt); [zint|]. rewrite wrap64_id; zint.
  - destruct (Z.leb_spec (Start r) (End_ r)); [|zint].
    replace (End_ r - Start r) with 0 by lia. rewrite Z.div_0_l; zint.
  - destruct (Z.leb_spec (End_ r) (Start r)); zint.
  - rewrite (proj2 (Z.leb_le (End_ r) _)) by lia. rewrite quot_down by lia.
    replace (- (End_ r - Start r)) with (Start r - End_ r) by lia.
    pose proof (Z_div_le_self (Start r - End_ r) (- n)).
    destruct (Z.eqb_spec (End_ r - Start r) MinInt) as [Hm|]; destruct (Z.eqb_spec n (-1)) as [Hm1|];
      cbn [andb].
    + rewrite Hm1. replace (- -1) with 1 by lia. rewrite Z.div_1_r. zint.
    + assert ((Start r - End_ r) / (- n) ≤ (Start r - End_ r) / 2)
        by (apply Z.div_le_compat_l; lia).
      replace (Start r - End_ r) with (- MinInt) in * by lia.
      change (- MinInt / 2) with 4611686018427387904 in *.
      rewrite wrap64_id by zint. rewrite (proj2 (Z.eqb_neq _ MaxInt)) by zint.
      rewrite wrap64_id; zint.
    + rewrite wrap64_id by zint. case_goal; zbool; [zint|]. rewrite wrap64_id; zint.
    + rewrite wrap64_id by zint. case_goal; zbool; [zint|]. rewrite wrap64_id; zint.
Qed.

(** [Count] when [End - Start] overflows. *)
Lemma Count_overflow r : range_ok r → ¬ in_int (End_ r - Start r) →
  Count r = MaxInt.
Proof.
  intros (Hs & He & _) Hspan. unfold Count.
  destruct (_ || _)%bool eqn:Hov; [done|]. exfalso.
  pose proof (wrap64_range (End_ r - Start r)) as Hw.
  destruct (wrap64_decomp (End_ r - Start r)) as [k Hk].
  rewrite !Z.gtb_ltb in Hov. apply orb_false_iff in Hov as [Ha Hb].
  apply andb_false_iff in Ha, Hb.
  destruct Ha, Hb; zbool; zint.
Qed.

Lemma Count_saturates r : range_ok r →
  Count r = if decide (in_int (End_ r - Start r))
            then Z.min MaxInt (exact_count r) else MaxInt.
Proof. intros H. case_decide; auto using Count_fits, Count_overflow. Qed.

(** The ascending loop past its first value: [k] more terms up to [end_]. *)
Lemma iterUp_after k fuel v start end_ step :
  (k < fuel)%nat → 0 < step → in_int step → in_int v → in_int end_ → start < v →
  (0 < Z.of_nat k → v + (Z.of_nat k - 1) * step ≤ end_) →
  end_ < v + Z.of_nat k * step →
  iterUp fuel v start end_ step = Some (progression v step k).
Proof.
  revert fuel v. induction k as [|k IH]; intros fuel v Hf Hstep Hs Hv He Hst Hk Hk';
    (destruct fuel as [|fuel]; [lia|]); cbn [iterUp].
  - rewrite (proj2 (Z.leb_gt _ _)), (proj2 (Z.eqb_neq v start)) by lia. done.
  - rewrite (proj2 (Z.leb_le _ _)) by nia. cbn [orb].
    rewrite wrap64_id by zint. rewrite Z.gtb_ltb.
    destruct (Z.ltb_spec (MaxInt - step) v).
    + assert (k = 0%nat) as -> by (destruct k; [done|]; zint; nia).
      unfold progression; cbn. by rewrite Z.add_0_r.
    + rewrite wrap64_id by zint. rewrite (IH fuel (v + step)) by (zint; lia).
      by rewrite progression_S.
Qed.

Lemma iterDown_after k fuel v start end_ step :
  (k < fuel)%nat → step < 0 → in_int step → in_int v → in_int end_ → v < start →
  (0 < Z.of_nat k → end_ ≤ v + (Z.of_nat k - 1) * step) →
  v + Z.of_nat k * step < end_ →
  iterDown fuel v start end_ step = Some (progression v step k).
Proof.
  revert fuel v. induction k as [|k IH]; intros fuel v Hf Hstep Hs Hv He Hst Hk Hk';
    (destruct fuel as [|fuel]; [lia|]); cbn [iterDown]; rewrite Z.geb_leb.
  - rewrite (proj2 (Z.leb_gt _ _)), (proj2 (Z.eqb_neq v start)) by lia. done.
  - rewrite (proj2 (Z.leb_le _ _)) by nia. cbn [orb].
    rewrite wrap64_id by zint.
    destruct (Z.ltb_spec v (MinInt - step)).
    + assert (k = 0%nat) as -> by (destruct k; [done|]; zint; nia).
      unfold progression; cbn. by rewrite Z.add_0_r.
    + rewrite wrap64_id by zint. rewrite (IH fuel (v + step)) by (zint; lia).
      by rewrite progression_S.
Qed.

(** The exact count brackets the end between two consecutive terms. *)
Lemma exact_count_up r : 0 < eff_step r →
  1 ≤ exact_count r ∧
  (1 < exact_count r → Start r + (exact_count r - 1) * eff_step r ≤ End_ r) ∧
  End_ r < Start r + exact_count r * eff_step r.
Proof.
  intros Hn. unfold exact_count. rewrite (proj2 (Z.ltb_lt _ _)) by lia.
  destruct (Z.leb_spec (Start r) (End_ r)); [|nia].
  pose proof (Z.div_mod (End_ r - Start r) (eff_step r) ltac:(lia)).
  pose proof (Z.mod_pos_bound (End_ r - Start r) (eff_step r) ltac:(lia)).
  pose proof (Z.div_pos (End_ r - Start r) (eff_step r) ltac:(lia)). nia.
Qed.

Lemma exact_count_down r : eff_step r < 0 →
  1 ≤ exact_count r ∧
  (1 < exact_count r → End_ r ≤ Start r + (exact_count r - 1) * eff_step r) ∧
  Start r + exact_count r * eff_step r < End_ r.
Proof.
  intros Hn. unfold exact_count. rewrite (proj2 (Z.ltb_ge _ _)) by lia.
  destruct (Z.leb_spec (End_ r) (Start r)); [|nia].
  pose proof (Z.div_mod (Start r - End_ r) (- eff_step r) ltac:(lia)).
  pose proof (Z.mod_pos_bound (Start r - End_ r) (- eff_step r) ltac:(lia)).
  pose proof (Z.div_pos (Start r - End_ r) (- eff_step r) ltac:(lia)). nia.
Qed.

Lemma exact_count_pos r : 1 ≤ exact_count r.
Proof.
  pose proof (eff_step_nonzero r).
  destruct (Z.lt_trichotomy 0 (eff_step r)) as [?|[?|?]]; [|lia|].
  - by apply exact_count_up.
  - by apply exact_count_down.
Qed.

Lemma Count_pos r : range_ok r → 1 ≤ Count r.
Proof.
  intros Hok. rewrite Count_saturates by done. pose proof (exact_count_pos r).
  case_decide; zint.
Qed.

Lemma Count_exact r : range_ok r → Count r ≠ MaxInt →
  Count r = exact_count r ∧ in_int (End_ r - Start r).
Proof.
  intros Hok. rewrite Count_saturates by done. case_decide; [|done].
  intros. split; [lia|done].
Qed.

(** With more fuel than terms, the loops of [Iterate] return the progression:
    the fuel [Iterate] is given is enough. *)
Lemma iterate_fuel_spec fuel r : range_ok r → Count r ≠ MaxInt →
  (Z.to_nat (Count r) < fuel)%nat →
  iterate_fuel fuel r = Some (progression (Start r) (eff_step r) (Z.to_nat (Count r))).
Proof.
  intros Hok Hc. destruct (Count_exact r Hok Hc) as [Heq Hspan]. rewrite Heq in *.
  unfold iterate_fuel. fold (eff_step r). cbv zeta.
  rewrite Heq, (proj2 (Z.eqb_neq _ _) Hc), Z.gtb_ltb.
  pose proof (eff_step_int r Hok) as Hi. pose proof (eff_step_nonzero r) as Hnz.
  destruct Hok as (Hs & He & _).
  destruct (Z.ltb_spec 0 (eff_step r)) as [Hpos|Hneg]; intros Hf.
  - destruct (exact_count_up r Hpos) as (H1 & H2 & H3).
    destruct (Z.to_nat (exact_count r)) as [|k] eqn:Hk; [lia|].
    assert (exact_count r = Z.of_nat k + 1) as Hx by lia. rewrite Hx in *. clear Hk Heq.
    destruct fuel as [|fuel]; [lia|]. cbn [iterUp].
    rewrite Z.eqb_refl, orb_true_r, Z.gtb_ltb, progression_S.
    rewrite (wrap64_id (MaxInt - _)) by zint.
    destruct (Z.ltb_spec (MaxInt - eff_step r) (Start r)).
    + assert (k = 0%nat) as -> by (destruct k; [done|]; zint; nia). done.
    + rewrite wrap64_id by zint.
      rewrite (iterUp_after k) by (zint; nia). done.
  - destruct (exact_count_down r ltac:(lia)) as (H1 & H2 & H3).
    destruct (Z.to_nat (exact_count r)) as [|k] eqn:Hk; [lia|].
    assert (exact_count r = Z.of_nat k + 1) as Hx by lia. rewrite Hx in *. clear Hk Heq.
    destruct fuel as [|fuel]; [lia|]. cbn [iterDown].
    rewrite Z.eqb_refl, orb_true_r, progression_S.
    rewrite (wrap64_id (MinInt - _)) by zint.
    destruct (Z.ltb_spec (Start r) (MinInt - eff_step r)).
    + assert (k = 0%nat) as -> by (destruct k; [done|]; zint; nia). done.
    + rewrite wrap64_id by zint.
      rewrite (iterDown_after k) by (zint; nia). done.
Qed.

Lemma Iterate_progression r : range_ok r → Count r ≠ MaxInt →
  Iterate r = progression (Start r) (eff_step r) (Z.to_nat (Count r)).
Proof.
  intros Hok Hc. unfold Iterate. by rewrite iterate_fuel_spec by (done || lia).
Qed.

Lemma elem_of_Iterate r v : range_ok r → Count r ≠ MaxInt →
  v ∈ Iterate r ↔ in_range_set r v.
Proof.
  intros Hok Hc. rewrite Iterate_progression, elem_of_progression by done.
  destruct (Count_exact r Hok Hc) as [-> _]. pose proof (exact_count_pos r).
  rewrite Z2Nat.id by lia. pose proof (eff_step_nonzero r) as Hnz. unfold in_range_set.
  destruct (Z.lt_trichotomy 0 (eff_step r)) as [Hn|[Hn|Hn]]; [|lia|].
  - destruct (exact_count_up r Hn) as (_ & H2 & H3). split.
    + intros (i & Hi & ->). destruct (Z.eq_dec i 0); [left; lia|].
      right. exists i. nia.
    + intros [->|(m & Hm & -> & Hle & _)]; [exists 0; lia|]. exists m.
      specialize (Hle Hn). nia.
  - destruct (exact_count_down r Hn) as (_ & H2 & H3). split.
    + intros (i & Hi & ->). destruct (Z.eq_dec i 0); [left; lia|].
      right. exists i. nia.
    + intros [->|(m & Hm & -> & _ & Hle)]; [exists 0; lia|]. exists m.
      specialize (Hle Hn). nia.
Qed.

Lemma progression_NoDup start step k : step ≠ 0 → NoDup (progression start step k).
Proof.
  intros Hs. unfold progression. apply NoDup_fmap; [|apply NoDup_seq].
  intros i j Hij. nia.
Qed.

Lemma length_progression start step k : length (progression start step k) = k.
Proof. unfold progression. by rewrite length_fmap, length_seq. Qed.

(** *** Parsing what was printed *)

(** What the parser yields for a policy: fields are machine integers, the step
    is non-zero, positive or ascending when the policy asks for it. *)
Definition accepted (p : Policy) (r : Range) : Prop :=
  range_ok r ∧ Step r ≠ 0 ∧
  (PositiveStepOnly p = true → 0 < Step r) ∧
  (AscendingOnly p = true → Start r ≤ End_ r).

Lemma splitRange_ints s sp : splitRange s = Ok sp →
  match sp with Single n => in_int n | Bounds a b => in_int a ∧ in_int b end.
Proof.
  unfold splitRange. intros H.
  repeat (case_in H; try done); invert_ok;
    repeat match goal with H : Atoi _ = Some _ |- _ => apply Atoi_range in H end; auto.
Qed.

Lemma parseStep_ok t p n : parseStep t p = Ok n →
  in_int n ∧ n ≠ 0 ∧ (PositiveStepOnly p = true → 0 < n).
Proof.
  unfold parseStep. intros H. destruct t as [|c t]; [invert_ok; zint|].
  destruct (Atoi _) eqn:Ha; [|done]. apply Atoi_range in Ha.
  destruct (Z.eqb_spec z 0); [done|].
  destruct (PositiveStepOnly p); cbn in H; [|invert_ok; done].
  destruct (Z.ltb_spec z 0); [done|]. invert_ok. repeat split; [apply Ha..|done|lia].
Qed.

Lemma parseElement_accepted s p r : parseElement s p = Ok r → accepted p r.
Proof.
  unfold parseElement. intros H.
  match type of H with (let '(_, _) := ?x in _) = _ => destruct x as [s' t] end.
  invert_ok. apply splitRange_ints in Hok. destruct a as [n|a b].
  - destruct t; [|done]. invert_ok. unfold accepted, range_ok; cbn. zint.
  - invert_ok. apply parseStep_ok in Hok0 as (Hn & Hnz & Hp). rename a0 into st.
    rewrite Z.gtb_ltb in H. destruct (AscendingOnly p) eqn:Hasc; cbn in H.
    + destruct (Z.ltb_spec b a); [done|]. invert_ok. unfold accepted, range_ok; cbn.
      destruct Hok. split_and!; auto.
    + invert_ok. unfold accepted, range_ok; cbn. rewrite Hasc.
      destruct Hok. split_and!; auto; done.
Qed.

Lemma parseParts_accepted parts p rs :
  parseParts parts p = Ok rs → Forall (accepted p) rs.
Proof.
  revert rs. induction parts as [|s parts IH]; cbn; intros rs H.
  - invert_ok. constructor.
  - destruct (TrimSpace s); [by apply IH|]. invert_ok.
    constructor; eauto using parseElement_accepted.
Qed.

Lemma ParseWithPolicy_accepted s p rs :
  ParseWithPolicy s p = Ok rs → rs ≠ [] ∧ Forall (accepted p) rs.
Proof.
  unfold ParseWithPolicy. destruct (TrimSpace s); [done|]. intros H. invert_ok.
  destruct a0; [done|]. invert_ok. split; [done|]. eauto using parseParts_accepted.
Qed.

Lemma splitRange_single z : in_int z → splitRange (Itoa z) = Ok (Single z).
Proof.
  intros Hz. unfold splitRange. rewrite TrimSpace_plain by auto using Itoa_plain.
  destruct (Itoa_tail_free z Hz) as (c & t & Heq & Ht).
  pose proof (Atoi_Itoa z Hz) as Ha. rewrite Heq in *.
  rewrite (proj2 (index_byte_none _ _) Ht), Ha. done.
Qed.

Lemma splitRange_bounds a b : in_int a → in_int b →
  splitRange (Itoa a ++ "-"%char :: Itoa b) = Ok (Bounds a b).
Proof.
  intros Ha Hb. unfold splitRange.
  rewrite TrimSpace_plain by (apply Forall_app; split; [|constructor]; auto using Itoa_plain).
  destruct (Itoa_tail_free a Ha) as (c & t & Heq & Ht).
  pose proof (Atoi_Itoa a Ha) as Hra. pose proof (Itoa_plain a Ha) as Hpa.
  rewrite Heq in *. cbn [app]. rewrite index_byte_app by done.
  assert (Htk : take (S (length t)) (c :: t ++ "-"%char :: Itoa b) = c :: t)
    by (cbn [firstn]; f_equal; apply take_app_length).
  assert (Hdr : drop (S (S (length t))) (c :: t ++ "-"%char :: Itoa b) = Itoa b).
  { cbn [drop]. rewrite drop_app_ge by lia.
    by replace (S (length t) - length t)%nat with 1%nat by lia. }
  rewrite Htk, Hdr, !TrimSpace_plain by auto using Itoa_plain.
  rewrite Hra, Atoi_Itoa by done. done.
Qed.

(** A range that [String] prints without loss: the step of a single value is
    not printed. *)
Definition printable (r : Range) : Prop := Start r = End_ r → Step r = 1.

Lemma Itoa_nonempty z : in_int z → Itoa z ≠ [].
Proof. intros (c & t & -> & _)%Itoa_tail_free. done. Qed.

Lemma Range_String_plain r : range_ok r →
  Forall (λ c, plain c = true) (Range_String r) ∧ (","%char ∉ Range_String r) ∧
  Range_String r ≠ [].
Proof.
  intros (Hs & He & Hn). unfold Range_String.
  pose proof (Itoa_nonempty _ Hs) as Hne.
  assert (Hfree : ∀ z, in_int z → ","%char ∉ Itoa z) by (by intros; apply Itoa_free).
  repeat case_goal; (split; [|split]);
    repeat apply Forall_app_2; repeat constructor; auto using Itoa_plain;
    rewrite ?elem_of_app, ?list_elem_of_singleton; try naive_solver;
    by destruct (Itoa (Start r)).
Qed.

Lemma parseElement_String p r :
  accepted p r → printable r → parseElement (Range_String r) p = Ok r.
Proof.
  intros ((Hs & He & Hn) & Hnz & Hpos & Hasc) Hpr. unfold parseElement, Range_String.
  assert (Hfree : ∀ z, in_int z → ":"%char ∉ Itoa z) by (by intros; apply Itoa_free).
  unfold printable in Hpr. destruct r as [s e n]; cbn [Start End_ Step] in *.
  assert (Hgt : (AscendingOnly p && (s >? e))%bool = false).
  { rewrite Z.gtb_ltb. destruct (AscendingOnly p); [|done]. cbn.
    apply Z.ltb_ge. auto. }
  destruct (Z.eqb_spec s e) as [->|Hse].
  - rewrite last_index_none, splitRange_single by auto. cbn.
    by rewrite (Hpr eq_refl).
  - destruct (Z.eqb_spec n 1) as [->|Hn1].
    + rewrite last_index_none by (rewrite !elem_of_app, list_elem_of_singleton; naive_solver).
      cbn [app]. rewrite splitRange_bounds by done. cbn. by rewrite Hgt.
    + rewrite !app_assoc, <- (app_assoc _ [":"%char] (Itoa n)). cbn [app].
      rewrite last_index_app by auto.
      rewrite take_app_length, <- app_assoc. cbn [app].
      rewrite splitRange_bounds by done. cbn [res_bind].
      rewrite drop_app_ge by lia.
      replace (S _ - _)%nat with 1%nat by lia. cbn [drop]. rewrite drop_0.
      unfold parseStep. destruct (Itoa n) eqn:Hit; [by destruct (Itoa_nonempty n Hn)|].
      rewrite <- Hit, TrimSpace_plain, Atoi_Itoa by auto using Itoa_plain.
      rewrite (proj2 (Z.eqb_neq _ _) Hnz).
      destruct (PositiveStepOnly p) eqn:Hp; cbn [andb res_bind].
      * rewrite (proj2 (Z.ltb_ge _ _)) by (specialize (Hpos eq_refl); lia).
        cbn [res_bind]. by rewrite Hgt.
      * by rewrite Hgt.
Qed.

Lemma parseParts_String p rs :
  Forall (accepted p) rs → Forall printable rs →
  parseParts (Range_String <$> rs) p = Ok rs.
Proof.
  induction 1 as [|r rs Hr Hrs IH]; intros Hpr; [done|]. inversion_clear Hpr.
  cbn. destruct (Range_String_plain r) as (Hpl & _ & Hne); [by destruct Hr|].
  rewrite TrimSpace_plain by done. destruct (Range_String r) eqn:Hs; [done|].
  rewrite <- Hs, parseElement_String by done. cbn. by rewrite IH.
Qed.

Lemma ParseWithPolicy_join (p : Policy) (rs : list Range)
    (Hne : rs ≠ []) (Hacc : Forall (accepted p) rs) (Hpr : Forall printable rs) :
  ParseWithPolicy (join [","%char] (Range_String <$> rs)) p = Ok rs.
Proof.
  assert (Hall : Forall (λ r, range_ok r) rs)
    by (apply (Forall_impl (accepted p)); [done|]; intros r Hr; apply Hr).
  assert (Hparts : Forall (λ q, ","%char ∉ q) (Range_String <$> rs)).
  { apply Forall_fmap. eapply Forall_impl; [done|]. intros r Hr. by apply Range_String_plain. }
  unfold ParseWithPolicy. rewrite split_on_join by (done || by destruct rs).
  rewrite parseParts_String by done. cbn [res_bind].
  rewrite TrimSpace_plain.
  - destruct rs as [|r rs]; [done|]. inversion_clear Hall as [|?? Hr _].
    destruct (Range_String_plain r Hr) as (_ & _ & Hs). cbn.
    destruct (Range_String r); [done|]. by destruct (Range_String <$> rs).
  - clear -Hall. induction Hall as [|r rs Hr Hrs IH]; [constructor|].
    destruct (Range_String_plain r Hr) as (Hp & _ & _). cbn.
    destruct (Range_String <$> rs); [done|]. apply Forall_app; split; [done|].
    by constructor.
Qed.

(** ** Properties *)

(** [Iterate] terminates within the fuel its loop is given and lists,
    without repetition and in step order, exactly the set the specification
    assigns to the range; [Count] is the length of that list. *)
Theorem Iterate_correct (r : Range) (Hok : range_ok r) (Hc : Count r ≠ MaxInt) :
  iterate_fuel (S (Z.to_nat (Count r))) r = Some (Iterate r) ∧
  Z.of_nat (length (Iterate r)) = Count r ∧
  NoDup (Iterate r) ∧
  (∀ i v, Iterate r !! i = Some v → v = Start r + Z.of_nat i * eff_step r) ∧
  (∀ v, v ∈ Iterate r ↔ in_range_set r v).
Proof.
  pose proof (Count_pos r Hok). pose proof (eff_step_nonzero r).
  rewrite iterate_fuel_spec, Iterate_progression, length_progression by (done || lia).
  split_and!; [done|lia|by apply progression_NoDup| |].
  - intros i v. unfold progression. rewrite list_lookup_fmap, fmap_Some.
    intros (j & Hj & ->). apply lookup_seq in Hj as [-> _]. done.
  - intros v. rewrite <- Iterate_progression by done. by apply elem_of_Iterate.
Qed.

Lemma Iterate_correct_witness :
  let r := mkRange 10 (-3) (-4) in
  Iterate r = [10; 6; 2; -2] ∧ Z.of_nat (length (Iterate r)) = Count r ∧ NoDup (Iterate r).
Proof.
  split; [by vm_compute|].
  destruct (Iterate_correct (mkRange 10 (-3) (-4))) as (_ & Hl & Hd & _).
  - repeat split; by vm_compute.
  - by vm_compute.
  - done.
Defined.

(** [Count] is the size of the specification's set, saturated at
    [math.MaxInt] when the size does not fit or when [End - Start] overflows;
    it is never below one. *)
Theorem Count_is_saturated_size (r : Range) (Hok : range_ok r) :
  1 ≤ Count r ≤ MaxInt ∧
  Count r = if decide (in_int (End_ r - Start r))
            then Z.min MaxInt (exact_count r) else MaxInt.
Proof.
  pose proof (Count_pos r Hok). pose proof (Count_saturates r Hok) as Heq.
  split; [|done]. split; [done|]. rewrite Heq. case_decide; lia.
Qed.

Lemma Count_is_saturated_size_witness :
  Count (mkRange MinInt (-1) 3) = 3074457345618258603 ∧ 1 ≤ Count (mkRange MinInt (-1) 3).
Proof.
  split; [by vm_compute|].
  destruct (Count_is_saturated_size (mkRange MinInt (-1) 3)) as [[H _] _].
  - repeat split; by vm_compute.
  - exact H.
Defined.

(** Printing a non-empty list of ranges with [String], joined by commas,
    and parsing the text under a policy that accepts them yields the list
    again. *)
Theorem ParseWithPolicy_String (p : Policy) (rs : list Range)
    (Hne : rs ≠ []) (Hacc : Forall (accepted p) rs) (Hpr : Forall printable rs) :
  ParseWithPolicy (join [","%char] (Range_String <$> rs)) p = Ok rs.
Proof. by apply ParseWithPolicy_join. Qed.

Lemma ParseWithPolicy_String_witness :
  ParseWithPolicy (of_string "-5--1:2,7,10-12") (mkPolicy true true)
  = Ok [mkRange (-5) (-1) 2; mkRange 7 7 1; mkRange 10 12 1].
Proof.
  apply (ParseWithPolicy_String (mkPolicy true true)
    [mkRange (-5) (-1) 2; mkRange 7 7 1; mkRange 10 12 1]).
  - done.
  - repeat constructor; by vm_compute.
  - repeat constructor; by vm_compute.
Defined.

(** A range of four values whose span overflows: [Count] answers
    [math.MaxInt] and [Iterate] answers nothing, although the set has four
    elements.  The comment on [Iterate] says such a range cannot be
    materialised on any machine. *)
Theorem Iterate_drops_wide_range :
  let r := mkRange MinInt MaxInt 4611686018427387904 in
  Count r = MaxInt ∧ Iterate r = [] ∧ exact_count r = 4 ∧
  in_range_set r 4611686018427387904.
Proof.
  cbv zeta. split_and!; [by vm_compute|lazy; reflexivity|by vm_compute|].
  right. exists 3. split_and!; by vm_compute.
Qed.
