(* ===== verification/RangeExpr.v ===== *)
(** * Range expressions: [internal/openjd/range.go]

    Expansion, counting, validation and overlap detection of integer range
    expressions, on top of the parser of [IntRange].  The overlap test solves
    two congruences with the Chinese Remainder Theorem on machine integers;
    it is shown to agree with the existence of a common value whenever the
    intermediate products fit, and to be wrong on an input where they do
    not. *)

From S2P Require Import Prelude IntRange.
Open Scope Z_scope.

(** ** Operations *)

Definition maxRangeValues : Z := 10000000.

Definition openjdRangePolicy : Policy := mkPolicy true true.

Inductive RangeExprError :=
  | ExprEmpty                              (* openjd: range expression is empty *)
  | ExprElement (expr : str) (e : ParseError)
  | ExprTooLarge (expr : str)              (* errRangeTooLarge *)
  | ExprNoValues (expr : str).             (* produced no values *)

(** [ParseWithPolicy]'s "range expression is empty" is the only message the
    code turns into an empty list. *)
Definition parseIntRangeElements (expr : str) : res RangeExprError (list Range) :=
  match TrimSpace expr with
  | [] => Err ExprEmpty
  | _ =>
      match ParseWithPolicy expr openjdRangePolicy with
      | Ok ranges => Ok ranges
      | Err RangeExpressionEmpty => Ok []
      | Err e => Err (ExprElement expr e)
      end
  end.

Fixpoint sumRangeCountsFrom (total : Z) (ranges : list Range) : option Z :=
  match ranges with
  | [] => Some total
  | r :: rs =>
      let c := Count r in
      if c >? maxRangeValues then None
      else
        let total' := wrap64 (total + c) in
        if total' >? maxRangeValues then None else sumRangeCountsFrom total' rs
  end.

(** [None] is the result [(0, false)]. *)
Definition sumRangeCounts (ranges : list Range) : option Z := sumRangeCountsFrom 0 ranges.

(** The inner loop of [parseIntRangeExpr]: append the values not yet seen. *)
Fixpoint addUnseen (seen : gset Z) (result : list Z) (vs : list Z) : gset Z * list Z :=
  match vs with
  | [] => (seen, result)
  | v :: vs' =>
      if decide (v ∈ seen) then addUnseen seen result vs'
      else addUnseen ({[v]} ∪ seen) (result ++ [v]) vs'
  end.

Fixpoint addRanges (seen : gset Z) (result : list Z) (ranges : list Range) : list Z :=
  match ranges with
  | [] => result
  | r :: rs => let '(seen', result') := addUnseen seen result (Iterate r) in
               addRanges seen' result' rs
  end.

Definition parseIntRangeExpr (expr : str) : res RangeExprError (list Z) :=
  let? ranges := parseIntRangeElements expr in
  match sumRangeCounts ranges with
  | None => Err (ExprTooLarge expr)
  | Some _ =>
      match addRanges ∅ [] ranges with
      | [] => Err (ExprNoValues expr)
      | result => Ok result
      end
  end.

Definition intRangeExprCount (expr : str) : option Z :=
  match parseIntRangeElements expr with
  | Err _ => None
  | Ok ranges => sumRangeCounts ranges
  end.

Definition validateIntRangeExpr (expr : str) : res RangeExprError unit :=
  let? ranges := parseIntRangeElements expr in
  match sumRangeCounts ranges with
  | None => Err (ExprTooLarge expr)
  | Some total => if total =? 0 then Err (ExprNoValues expr) else Ok tt
  end.

(** [mod] of the source. *)
Definition mod_ (a m : Z) : Z :=
  let r := Z.rem a m in
  if r <? 0 then wrap64 (r + m) else r.

(** The loop of [gcd]; [None] is running out of fuel. *)
Fixpoint gcdLoop (fuel : nat) (a b : Z) : option Z :=
  if b =? 0 then Some (if a <? 0 then wrap64 (- a) else a)
  else match fuel with
       | O => None
       | S f => gcdLoop f b (Z.rem a b)
       end.

(** The second argument halves every two rounds: 130 rounds are enough for
    64-bit operands. *)
Definition gcd (a b : Z) : Z := default 0 (gcdLoop 130 a b).

Fixpoint extGCDLoop (fuel : nat) (a b : Z) : option (Z * Z * Z) :=
  if b =? 0 then Some (a, 1, 0)
  else match fuel with
       | O => None
       | S f =>
           match extGCDLoop f b (Z.rem a b) with
           | Some (g, x1, y1) =>
               Some (g, y1, wrap64 (x1 - wrap64 (wrap64 (Z.quot a b) * y1)))
           | None => None
           end
       end.

Definition extGCD (a b : Z) : Z * Z * Z := default (0, 0, 0) (extGCDLoop 130 a b).

Definition modInverse (a m : Z) : Z :=
  if m =? 1 then 0
  else let '(_, x, _) := extGCD (mod_ a m) m in mod_ x m.

Definition rangesIntersect (a0 b0 : Range) : bool :=
  let a := if Step a0 <=? 0 then mkRange (Start a0) (End_ a0) 1 else a0 in
  let b := if Step b0 <=? 0 then mkRange (Start b0) (End_ b0) 1 else b0 in
  if (Start a >? End_ a) || (Start b >? End_ b) then false
  else
    let lo := Z.max (Start a) (Start b) in
    let hi := Z.min (End_ a) (End_ b) in
    if lo >? hi then false
    else
      let g := gcd (Step a) (Step b) in
      let diff := wrap64 (Start b - Start a) in
      if negb (Z.rem diff g =? 0) then false
      else
        let lcm := wrap64 (Z.quot (Step a) g * Step b) in
        let m := Z.quot (Step b) g in
        let inv := modInverse (Z.rem (Z.quot (Step a) g) m) m in
        let t := mod_ (wrap64 (mod_ (Z.quot diff g) m * inv)) m in
        let x0 := wrap64 (Start a + wrap64 (Step a * t)) in
        let v := wrap64 (lo + mod_ (wrap64 (x0 - lo)) lcm) in
        v <=? hi.

(** Some pair [i < j] intersects. *)
Fixpoint anyIntersect (ranges : list Range) : bool :=
  match ranges with
  | [] => false
  | r :: rs => existsb (rangesIntersect r) rs || anyIntersect rs
  end.

Definition intRangeHasOverlap (expr : str) : res RangeExprError bool :=
  if contains expr (of_string "{{") then Ok false
  else
    let? ranges := parseIntRangeElements expr in
    Ok (anyIntersect ranges).

(** ** Lemmas: remainders, gcd and Bezout coefficients *)

Lemma rem_bounds a m : 0 < m → - m < Z.rem a m < m.
Proof. intros. pose proof (Z.rem_bound_abs a m ltac:(lia)). lia. Qed.

Lemma mod_spec a m : 0 < m → in_int m → mod_ a m = a mod m.
Proof.
  intros Hm Hi. unfold mod_. pose proof (Z.quot_rem' a m) as Hq.
  pose proof (rem_bounds a m Hm) as Hb.
  destruct (Z.ltb_spec (Z.rem a m) 0).
  - rewrite wrap64_id by zint. apply Z.mod_unique with (q := Z.quot a m - 1); [left|]; lia.
  - apply Z.mod_unique with (q := Z.quot a m); [left|]; lia.
Qed.

Lemma Z_gcd_rem a b : b ≠ 0 → Z.gcd b (Z.rem a b) = Z.gcd a b.
Proof.
  intros Hb. rewrite (Z.rem_eq a b Hb).
  replace (a - b * Z.quot a b) with (a + (- Z.quot a b) * b) by lia.
  by rewrite Z.gcd_add_mult_diag_r, Z.gcd_comm.
Qed.

Lemma abs_rem a b : b ≠ 0 → Z.abs (Z.rem a b) = Z.abs a mod Z.abs b.
Proof. intros Hb. rewrite <- Z.rem_abs, Z.rem_mod_nonneg by lia. done. Qed.

Lemma mod_halves a b : 0 < b ≤ a → 2 * (a mod b) < a.
Proof.
  intros Hb. pose proof (Z.mod_pos_bound a b ltac:(lia)).
  pose proof (Z.div_mod a b ltac:(lia)).
  assert (1 ≤ a / b) by (apply Z.div_le_lower_bound; lia). nia.
Qed.

(** Any loop that runs the Euclidean algorithm with [2 k] rounds left finishes
    when the second argument is below [2 ^ k]. *)
Lemma euclid_rounds k fuel a b :
  (2 * k ≤ fuel)%nat → Z.abs b < 2 ^ Z.of_nat k →
  (∃ g, gcdLoop fuel a b = Some g) ∧ (∃ r, extGCDLoop fuel a b = Some r).
Proof.
  revert fuel a b. induction k as [|k IH]; intros fuel a b Hf Hb.
  - cbn in Hb. replace b with 0 by lia. destruct fuel; cbn; eauto.
  - destruct fuel as [|[|fuel]]; [lia..|]. cbn [gcdLoop extGCDLoop].
    destruct (Z.eqb_spec b 0); [eauto|].
    destruct (Z.eqb_spec (Z.rem a b) 0) as [|Hr]; [eauto|].
    destruct (IH fuel (Z.rem a b) (Z.rem b (Z.rem a b))) as [(g & Hg) ([[g' x] y] & Hx)]; [lia| |].
    + rewrite abs_rem by done. rewrite Nat2Z.inj_succ, Z.pow_succ_r in Hb by lia.
      pose proof (Z.rem_bound_abs a b ltac:(done)).
      pose proof (mod_halves (Z.abs b) (Z.abs (Z.rem a b)) ltac:(lia)). lia.
    + rewrite Hg, Hx. eauto.
Qed.

Lemma int_rounds b : in_int b → Z.abs b < 2 ^ Z.of_nat 64.
Proof. intros. change (2 ^ Z.of_nat 64) with 18446744073709551616. zint. Qed.

Lemma gcdLoop_spec fuel a b g : gcdLoop fuel a b = Some g → in_int a → in_int b →
  g = wrap64 (Z.gcd a b).
Proof.
  revert a b. induction fuel as [|f IH]; intros a b; cbn [gcdLoop];
    (destruct (Z.eqb_spec b 0) as [->|Hb]; [|try done]).
  1,2: intros [= <-] Ha _; rewrite Z.gcd_0_r; destruct (Z.ltb_spec a 0);
    [by rewrite Z.abs_neq by lia|rewrite Z.abs_eq, wrap64_id by (done || lia); done].
  intros Hg Ha Hbi. rewrite (IH _ _ Hg Hbi).
  - by rewrite Z_gcd_rem.
  - pose proof (Z.rem_bound_abs a b Hb). zint.
Qed.

Lemma gcd_spec a b : in_int a → in_int b → gcd a b = wrap64 (Z.gcd a b).
Proof.
  intros Ha Hb. unfold gcd.
  destruct (euclid_rounds 64 130 a b) as [[g Hg] _]; [lia|by apply int_rounds|].
  rewrite Hg. cbn. eauto using gcdLoop_spec.
Qed.

Lemma gcd_pos a b : in_int a → in_int b → 0 < a → 0 < b → gcd a b = Z.gcd a b.
Proof.
  intros Ha Hb Hpa Hpb. rewrite gcd_spec by done. apply wrap64_id.
  pose proof (Z.gcd_nonneg a b).
  pose proof (Z.divide_pos_le _ _ Hpa (Z.gcd_divide_l a b)). zint.
Qed.

(** Bezout on machine integers: the coefficients stay below the operands, so
    no intermediate result wraps. *)
Lemma extGCDLoop_spec fuel a b g x y :
  extGCDLoop fuel a b = Some (g, x, y) → 0 ≤ a ≤ MaxInt → 0 ≤ b ≤ MaxInt →
  g = Z.gcd a b ∧ a * x + b * y = g ∧
  Z.abs x ≤ Z.max 1 b ∧ Z.abs y ≤ Z.max 1 a ∧ (b = 0 → y = 0).
Proof.
  revert a b g x y. induction fuel as [|f IH]; intros a b g x y; cbn [extGCDLoop];
    (destruct (Z.eqb_spec b 0) as [->|Hb]; [|try done]).
  1,2: intros [= <- <- <-] Ha _; rewrite Z.gcd_0_r, Z.abs_eq by lia; lia.
  intros H Ha Hbb. destruct (extGCDLoop f b (Z.rem a b)) as [[[g' x1] y1]|] eqn:Hrec; [|done].
  injection H as -> <- <-.
  assert (Hrem : Z.rem a b = a mod b) by (apply Z.rem_mod_nonneg; lia).
  assert (Hquo : Z.quot a b = a / b) by (apply Z.quot_div_nonneg; lia).
  pose proof (Z.mod_pos_bound a b ltac:(lia)) as Hm. pose proof (Z.div_mod a b Hb) as Hd.
  apply IH in Hrec as (-> & Hbez & Hx1 & Hy1 & H0); [|lia..].
  rewrite Z_gcd_rem in Hbez |- * by done. rewrite Hrem in *. rewrite Hquo.
  pose proof (Z_div_le_self a b ltac:(lia) ltac:(lia)) as Hq.
  assert (Hqy : Z.abs (a / b * y1) ≤ a).
  { rewrite Z.abs_mul, (Z.abs_eq (a / b)) by lia. nia. }
  assert (Hqy' : Z.abs (x1 - a / b * y1) ≤ Z.max 1 a).
  { destruct (Z.eq_dec (a mod b) 0) as [Hz|Hz]; [rewrite (H0 Hz) in *; lia|].
    rewrite Z.max_r in Hx1, Hy1 by lia.
    assert (Z.abs (a / b * y1) ≤ a / b * b)
      by (rewrite Z.abs_mul, (Z.abs_eq (a / b)) by lia; nia). lia. }
  rewrite (wrap64_id (a / b)), (wrap64_id (a / b * y1)), (wrap64_id (x1 - _)) by zint.
  split_and!; [done| |lia|lia|lia].
  rewrite <- Hbez. rewrite Hd at 1. ring.
Qed.

Lemma extGCD_spec a b : 0 ≤ a ≤ MaxInt → 0 ≤ b ≤ MaxInt →
  ∃ x y, extGCD a b = (Z.gcd a b, x, y) ∧ a * x + b * y = Z.gcd a b ∧
         Z.abs x ≤ Z.max 1 b ∧ Z.abs y ≤ Z.max 1 a.
Proof.
  intros Ha Hb. unfold extGCD.
  destruct (euclid_rounds 64 130 a b) as [_ [[[g x] y] Hg]]; [lia|apply int_rounds; zint|].
  rewrite Hg. cbn. apply extGCDLoop_spec in Hg as (-> & ? & ? & ? & _); [|done..].
  exists x, y. auto.
Qed.

(** The inverse of [a] modulo [m]. *)
Lemma modInverse_spec a m : 0 < m ≤ MaxInt → Z.gcd a m = 1 →
  0 ≤ modInverse a m < m ∧ (a * modInverse a m) mod m = 1 mod m.
Proof.
  intros Hm Hg. unfold modInverse. destruct (Z.eqb_spec m 1) as [->|Hm1].
  { rewrite !Z.mod_1_r. lia. }
  rewrite mod_spec by zint. pose proof (Z.mod_pos_bound a m ltac:(lia)) as Hb.
  destruct (extGCD_spec (a mod m) m) as (x & y & -> & Hbez & Hx & _); [lia..|].
  rewrite mod_spec by zint. split; [apply Z.mod_pos_bound; lia|].
  rewrite Z.mul_mod_idemp_r by lia.
  rewrite Z.gcd_mod, (Z.gcd_comm m a), Hg in Hbez by lia.
  rewrite <- (Z.mul_mod_idemp_l a x) by lia.
  replace (a mod m * x) with (1 + (- y) * m) by lia.
  by rewrite Z.mod_add by lia.
Qed.

(** ** The overlap test *)

(** An ascending range whose intermediate products fit a machine integer. *)
Definition small_range (r : Range) : Prop :=
  0 < Step r ≤ 2147483648 ∧ Start r ≤ End_ r ∧
  - 2305843009213693952 ≤ Start r ∧ End_ r ≤ 2305843009213693952.

#[export] Instance small_range_dec r : Decision (small_range r).
Proof. unfold small_range. apply _. Defined.

Lemma in_range_set_ascending r v : 0 < Step r → Start r ≤ End_ r →
  in_range_set r v ↔ Start r ≤ v ≤ End_ r ∧ (Step r | v - Start r).
Proof.
  intros Hs Hle. unfold in_range_set, eff_step.
  rewrite (proj2 (Z.eqb_neq (Step r) 0)) by lia. split.
  - intros [->|(m & Hm & -> & Hend & _)].
    + split; [lia|]. replace (Start r - Start r) with 0 by lia. apply Z.divide_0_r.
    + split; [nia|]. exists m. lia.
  - intros [Hv [m Hm]]. destruct (Z.eq_dec v (Start r)) as [->|]; [by left|].
    right. exists m. split_and!; nia.
Qed.

(** Two congruences with a compatible difference have the common solutions of
    one congruence modulo the least common multiple. *)
Lemma crt_solutions g A m sa sb x0 (v xa xb : Z) :
  0 < g → sa = g * A → sb = g * m → Z.gcd A m = 1 →
  (sa | x0 - xa) → (sb | x0 - xb) →
  (sa | v - xa) ∧ (sb | v - xb) ↔ (A * sb | v - x0).
Proof.
  intros Hg -> -> Hco Ha Hb. split.
  - intros [Hva Hvb].
    assert (H1 : (g * A | v - x0)).
    { replace (v - x0) with ((v - xa) - (x0 - xa)) by lia. by apply Z.divide_sub_r. }
    assert (H2 : (g * m | v - x0)).
    { replace (v - x0) with ((v - xb) - (x0 - xb)) by lia. by apply Z.divide_sub_r. }
    destruct H1 as [p Hp]. rewrite Hp in *.
    replace (p * (g * A)) with (g * (A * p)) in H2 by lia.
    apply Z.mul_divide_cancel_l in H2; [|lia].
    apply Z.gauss in H2; [|by rewrite Z.gcd_comm].
    destruct H2 as [q ->]. exists q. ring.
  - intros [q Hq]. split.
    + replace (v - xa) with ((x0 - xa) + (g * A) * (m * q)) by (rewrite <- Z.sub_add with (m := x0) (n := v); lia).
      apply Z.divide_add_r; [done|]. apply Z.divide_factor_l.
    + replace (v - xb) with ((x0 - xb) + (g * m) * (A * q)) by lia.
      apply Z.divide_add_r; [done|]. apply Z.divide_factor_l.
Qed.

(** The particular solution the code computes. *)
Lemma crt_particular A m d : 0 < m ≤ MaxInt → Z.gcd A m = 1 → 
  let t := (d mod m * modInverse (A mod m) m) mod m in
  0 ≤ t < m ∧ (m | A * t - d).
Proof.
  intros Hm Hco t. split; [apply Z.mod_pos_bound; lia|].
  destruct (modInverse_spec (A mod m) m Hm) as [_ Hinv].
  { rewrite Z.gcd_mod, Z.gcd_comm by lia. done. }
  apply Z.mod_divide; [lia|]. unfold t.
  rewrite Zminus_mod, Z.mul_mod_idemp_r by lia.
  set (i := modInverse (A mod m) m) in *.
  rewrite Z.mul_mod_idemp_l in Hinv by lia.
  replace (A * (d mod m * i)) with (A * i * (d mod m)) by ring.
  rewrite <- Z.mul_mod_idemp_l, Hinv, Z.mul_mod_idemp_l, Z.mul_1_l by lia.
  rewrite Z.mod_mod, Z.sub_diag by lia. apply Z.mod_0_l. lia.
Qed.

(** The least solution at or above [lo] decides the interval. *)
Lemma least_solution lo hi L x0 : 0 < L →
  lo + (x0 - lo) mod L ≤ hi ↔ ∃ v, lo ≤ v ≤ hi ∧ (L | v - x0).
Proof.
  intros HL. pose proof (Z.mod_pos_bound (x0 - lo) L HL) as Hb.
  pose proof (Z.div_mod (x0 - lo) L ltac:(lia)) as Hd. split.
  - intros Hle. exists (lo + (x0 - lo) mod L). split; [lia|].
    exists (- ((x0 - lo) / L)). lia.
  - intros (v & Hv & [q Hq]).
    assert ((x0 - lo) mod L ≤ v - lo); [|lia].
    replace (x0 - lo) with ((v - lo) + (- q) * L) by lia.
    rewrite Z.mod_add by lia. apply Z.mod_le; lia.
Qed.

(** On small ranges every wrap is the identity: the code computes the CRT test
    over the integers. *)
Lemma rangesIntersect_exact a b : small_range a → small_range b →
  let g := Z.gcd (Step a) (Step b) in
  let A := Step a / g in let m := Step b / g in
  let d := (Start b - Start a) / g in
  let x0 := Start a + Step a * ((d mod m * modInverse (A mod m) m) mod m) in
  let lo := Z.max (Start a) (Start b) in let hi := Z.min (End_ a) (End_ b) in
  rangesIntersect a b = true ↔
  lo ≤ hi ∧ (g | Start b - Start a) ∧ lo + (x0 - lo) mod (A * Step b) ≤ hi.
Proof.
  intros ((Ha0 & Ha1) & Ha2 & Ha3 & Ha4) ((Hb0 & Hb1) & Hb2 & Hb3 & Hb4) g A m d x0 lo hi.
  unfold rangesIntersect.
  rewrite (proj2 (Z.leb_gt (Step a) 0)), (proj2 (Z.leb_gt (Step b) 0)) by lia.
  rewrite !Z.gtb_ltb, (proj2 (Z.ltb_ge (End_ a) _)), (proj2 (Z.ltb_ge (End_ b) _)) by lia.
  cbn [orb]. fold lo hi. destruct (Z.ltb_spec hi lo); [split; [done|lia]|].
  rewrite gcd_pos by zint. fold g. rewrite (wrap64_id (Start b - Start a)) by zint.
  assert (Hg : 0 < g).
  { pose proof (Z.gcd_nonneg (Step a) (Step b)). fold g in H0.
    assert (g ≠ 0) by (intros Hz; apply Z.gcd_eq_0_l in Hz; lia). lia. }
  assert (HA : Step a = g * A) by (unfold A, g; apply Z_div_exact_2; [lia|];
    apply Z.mod_divide; [lia|]; apply Z.gcd_divide_l).
  assert (Hm : Step b = g * m) by (unfold m, g; apply Z_div_exact_2; [lia|];
    apply Z.mod_divide; [lia|]; apply Z.gcd_divide_r).
  assert (0 < A ≤ Step a) by nia. assert (0 < m ≤ Step b) by nia.
  rewrite (Z.quot_div_nonneg (Step a)), (Z.quot_div_nonneg (Step b)) by lia. fold A m.
  rewrite (Z.rem_mod_nonneg A m) by lia.
  destruct (Z.eqb_spec (Z.rem (Start b - Start a) g) 0) as [Hrem|Hrem]; cbn [negb].
  2: { split; [done|]. intros (_ & Hdiv & _). apply Z.rem_divide in Hdiv; lia. }
  apply Z.rem_divide in Hrem; [|lia].
  assert (Hd : Z.quot (Start b - Start a) g = d).
  { destruct Hrem as [q Hq]. unfold d. rewrite Hq, Z.quot_mul, Z.div_mul by lia. done. }
  assert (Hco : Z.gcd A m = 1) by (apply Z.gcd_div_gcd; [lia|done]).
  destruct (crt_particular A m d ltac:(zint) Hco) as [Ht _].
  destruct (modInverse_spec (A mod m) m ltac:(zint)) as [Hi _].
  { rewrite Z.gcd_mod, Z.gcd_comm by lia. done. }
  set (t := (d mod m * modInverse (A mod m) m) mod m) in *.
  pose proof (Z.mod_pos_bound d m ltac:(lia)) as Hdm.
  rewrite Hd, (mod_spec d) by zint.
  rewrite (wrap64_id (d mod m * _)) by (zint; nia). rewrite (mod_spec _ m) by zint. fold t.
  rewrite (wrap64_id (A * Step b)), (wrap64_id (Step a * t)) by (zint; nia). 
  rewrite (wrap64_id (Start a + _)) by (zint; nia). fold x0.
  assert (Start a ≤ x0 ≤ Start a + 4611686018427387904) by (unfold x0; nia).
  rewrite (wrap64_id (x0 - lo)) by zint. rewrite mod_spec by (zint; nia).
  pose proof (Z.mod_pos_bound (x0 - lo) (A * Step b) ltac:(nia)).
  rewrite wrap64_id by (zint; nia). rewrite Z.leb_le. split; [auto|tauto].
Qed.

(** The overlap test is exact on small ranges. *)
Lemma rangesIntersect_iff a b : small_range a → small_range b →
  rangesIntersect a b = true ↔ ∃ v, in_range_set a v ∧ in_range_set b v.
Proof.
  intros Ha Hb. rewrite rangesIntersect_exact by done. cbv zeta.
  destruct Ha as (Ha1 & Ha2 & _), Hb as (Hb1 & Hb2 & _).
  set (g := Z.gcd (Step a) (Step b)).
  assert (Hg : 0 < g).
  { pose proof (Z.gcd_nonneg (Step a) (Step b)).
    assert (g ≠ 0) by (intros Hz; apply Z.gcd_eq_0_l in Hz; lia). lia. }
  assert (HA : Step a = g * (Step a / g)) by (apply Z_div_exact_2; [lia|];
    apply Z.mod_divide; [lia|]; apply Z.gcd_divide_l).
  assert (Hm : Step b = g * (Step b / g)) by (apply Z_div_exact_2; [lia|];
    apply Z.mod_divide; [lia|]; apply Z.gcd_divide_r).
  set (A := Step a / g) in *. set (m := Step b / g) in *.
  assert (Hco : Z.gcd A m = 1) by (apply Z.gcd_div_gcd; [lia|done]).
  set (d := (Start b - Start a) / g).
  destruct (crt_particular A m d) as [Ht Hdiv]; [zint; nia|done|].
  set (t := (d mod m * modInverse (A mod m) m) mod m) in *.
  setoid_rewrite in_range_set_ascending; [|lia..].
  assert (Hsol : (g | Start b - Start a) → ∀ v,
    (Step a | v - Start a) ∧ (Step b | v - Start b) ↔
    (A * Step b | v - (Start a + Step a * t))).
  { intros Hgd v. apply (crt_solutions g A m); try done.
    - exists t. lia.
    - assert (Start b - Start a = g * d) as Hgd' by (apply Z_div_exact_2; [lia|];
        apply Z.mod_divide; [lia|done]).
      replace (Start a + Step a * t - Start b) with (g * (A * t - d)) by lia.
      rewrite Hm. by apply Z.mul_divide_mono_l. }
  rewrite least_solution by nia. split.
  - intros (Hlo & Hgd & v & Hv & Hdv). apply Hsol in Hdv as [? ?]; [|done].
    exists v. split; (split; [lia|done]).
  - intros (v & [Hva Hda] & [Hvb Hdb]).
    assert (Hgd : (g | Start b - Start a)).
    { replace (Start b - Start a) with ((v - Start a) - (v - Start b)) by lia.
      apply Z.divide_sub_r; (eapply Z.divide_trans; [|done]);
        [apply Z.gcd_divide_l|apply Z.gcd_divide_r]. }
    split_and!; [lia|done|]. exists v. split; [lia|]. by apply Hsol.
Qed.

(** ** Expansion *)

(** The first occurrence of each value, in order. *)
Definition first_seen (l : list Z) : list Z := reverse (remove_dups (reverse l)).

Lemma first_seen_snoc l x :
  first_seen (l ++ [x]) = if decide (x ∈ l) then first_seen l else first_seen l ++ [x].
Proof.
  unfold first_seen. rewrite reverse_app. cbn.
  repeat case_decide; rewrite elem_of_reverse in *; try done.
  by rewrite <- reverse_cons.
Qed.

Lemma elem_of_first_seen l x : x ∈ first_seen l ↔ x ∈ l.
Proof. unfold first_seen. by rewrite elem_of_reverse, elem_of_remove_dups, elem_of_reverse. Qed.

Lemma NoDup_reverse (l : list Z) : NoDup (reverse l) ↔ NoDup l.
Proof. by rewrite reverse_Permutation. Qed.

Lemma NoDup_first_seen l : NoDup (first_seen l).
Proof. unfold first_seen. apply NoDup_reverse, NoDup_remove_dups. Qed.

Lemma length_remove_dups (l : list Z) :
  (length (remove_dups l) ≤ length l)%nat ∧
  (length (remove_dups l) = length l → NoDup l).
Proof.
  induction l as [|x l [IH1 IH2]]; cbn; [by split; [lia|constructor]|].
  case_decide as Hx; cbn.
  - split; lia.
  - split; [lia|]. intros H. constructor; [done|]. apply IH2. lia.
Qed.

Lemma remove_dups_id (l : list Z) : NoDup l → remove_dups l = l.
Proof.
  induction 1 as [|x l Hx Hl IH]; cbn; [done|]. case_decide; [done|]. by rewrite IH.
Qed.

Lemma length_first_seen l :
  (length (first_seen l) ≤ length l)%nat ∧
  (length (first_seen l) = length l ↔ NoDup l).
Proof.
  unfold first_seen. rewrite length_reverse, <- (length_reverse l).
  destruct (length_remove_dups (reverse l)) as [H1 H2]. split; [done|].
  rewrite <- (NoDup_reverse l). split; [done|]. intros H.
  by rewrite remove_dups_id.
Qed.

Lemma addUnseen_spec l vs (seen : gset Z) :
  (∀ v, v ∈ seen ↔ v ∈ l) →
  ∃ seen' : gset Z, addUnseen seen (first_seen l) vs = (seen', first_seen (l ++ vs)) ∧
    ∀ v, v ∈ seen' ↔ v ∈ l ++ vs.
Proof.
  revert l seen. induction vs as [|v vs IH]; intros l seen Hs; cbn.
  - exists seen. by rewrite app_nil_r.
  - replace (l ++ v :: vs) with ((l ++ [v]) ++ vs) by by rewrite <- app_assoc.
    case_decide as Hv.
    + destruct (IH (l ++ [v]) seen) as (s' & He & Hs').
      { intros w. rewrite elem_of_app, list_elem_of_singleton, <- Hs. naive_solver. }
      exists s'. rewrite first_seen_snoc, decide_True in He by by apply Hs. done.
    + destruct (IH (l ++ [v]) ({[v]} ∪ seen)) as (s' & He & Hs').
      { intros w. rewrite elem_of_union, elem_of_singleton, elem_of_app, list_elem_of_singleton, Hs.
        tauto. }
      exists s'. rewrite first_seen_snoc, decide_False in He by by rewrite <- Hs. done.
Qed.

Lemma addRanges_spec ranges l (seen : gset Z) :
  (∀ v, v ∈ seen ↔ v ∈ l) →
  addRanges seen (first_seen l) ranges = first_seen (l ++ mjoin (Iterate <$> ranges)).
Proof.
  revert l seen. induction ranges as [|r rs IH]; intros l seen Hs; cbn.
  - by rewrite app_nil_r.
  - destruct (addUnseen_spec l (Iterate r) seen Hs) as (s' & -> & Hs').
    rewrite IH by done. by rewrite <- app_assoc.
Qed.

Lemma addRanges_first_seen ranges :
  addRanges ∅ [] ranges = first_seen (mjoin (Iterate <$> ranges)).
Proof. apply (addRanges_spec ranges []). set_solver. Qed.

(** The exact total of the counts. *)
Definition total_count (ranges : list Range) : Z := foldr Z.add 0 (Count <$> ranges).

Lemma total_count_nonneg ranges : Forall range_ok ranges → 0 ≤ total_count ranges.
Proof.
  induction 1 as [|r rs Hr Hrs IH]; cbn; [lia|]. fold (total_count rs).
  pose proof (Count_pos r Hr). lia.
Qed.

(** The guard answers the exact total, and answers exactly when the total is
    within the bound. *)
Lemma sumRangeCountsFrom_spec ranges total :
  Forall range_ok ranges → 0 ≤ total ≤ maxRangeValues →
  sumRangeCountsFrom total ranges =
  if decide (total + total_count ranges ≤ maxRangeValues)
  then Some (total + total_count ranges) else None.
Proof.
  intros Hok. revert total. unfold maxRangeValues.
  induction Hok as [|r rs Hr Hrs IH]; intros total Ht; cbn [sumRangeCountsFrom].
  - unfold total_count; cbn. rewrite decide_True by lia. f_equal; lia.
  - change (total_count (r :: rs)) with (Count r + total_count rs).
    pose proof (Count_pos r Hr). pose proof (total_count_nonneg rs Hrs).
    unfold maxRangeValues. rewrite !Z.gtb_ltb.
    destruct (Z.ltb_spec 10000000 (Count r)); [by rewrite decide_False by lia|].
    rewrite wrap64_id by zint.
    destruct (Z.ltb_spec 10000000 (total + Count r)); [by rewrite decide_False by lia|].
    rewrite IH by lia. rewrite Z.add_assoc. done.
Qed.

Lemma sumRangeCounts_spec ranges : Forall range_ok ranges →
  sumRangeCounts ranges =
  if decide (total_count ranges ≤ maxRangeValues) then Some (total_count ranges) else None.
Proof. intros. unfold sumRangeCounts. by rewrite sumRangeCountsFrom_spec. Qed.

Lemma parseIntRangeElements_accepted expr ranges :
  parseIntRangeElements expr = Ok ranges → Forall (accepted openjdRangePolicy) ranges.
Proof.
  unfold parseIntRangeElements. destruct (TrimSpace expr); [done|].
  destruct (ParseWithPolicy expr openjdRangePolicy) as [rs|e] eqn:Hp.
  - intros [= <-]. by apply ParseWithPolicy_accepted in Hp as [_ ?].
  - destruct e; intros; try done. invert_ok. constructor.
Qed.

Lemma accepted_ok p ranges : Forall (accepted p) ranges → Forall range_ok ranges.
Proof. intros H. apply (Forall_impl (accepted p)); [done|]. intros r Hr. apply Hr. Qed.

Lemma total_count_bounds ranges r : Forall range_ok ranges →
  r ∈ ranges → Count r ≤ total_count ranges.
Proof.
  intros Hok Hr. induction Hok as [|q rs Hq Hrs IH]; [by apply elem_of_nil in Hr|].
  change (total_count (q :: rs)) with (Count q + total_count rs).
  pose proof (Count_pos q Hq). pose proof (total_count_nonneg rs Hrs).
  apply elem_of_cons in Hr as [->|Hr]; [lia|]. specialize (IH Hr). lia.
Qed.

Lemma length_iterate_all ranges : Forall range_ok ranges →
  total_count ranges ≤ maxRangeValues →
  Z.of_nat (length (mjoin (Iterate <$> ranges))) = total_count ranges.
Proof.
  unfold maxRangeValues. intros Hok Hb. induction Hok as [|r rs Hr Hrs IH]; [done|].
  change (total_count (r :: rs)) with (Count r + total_count rs) in *.
  pose proof (Count_pos r Hr). pose proof (total_count_nonneg rs Hrs).
  change (mjoin (Iterate <$> r :: rs)) with (Iterate r ++ mjoin (Iterate <$> rs)).
  rewrite length_app, Nat2Z.inj_add, IH by lia.
  rewrite Iterate_progression by (done || zint). rewrite length_progression. lia.
Qed.

Lemma elem_of_iterate_all ranges v : Forall range_ok ranges →
  total_count ranges ≤ maxRangeValues →
  v ∈ mjoin (Iterate <$> ranges) ↔ ∃ r, r ∈ ranges ∧ in_range_set r v.
Proof.
  unfold maxRangeValues. intros Hok Hb. rewrite list_elem_of_join.
  assert (Hit : ∀ r, r ∈ ranges → v ∈ Iterate r ↔ in_range_set r v).
  { intros r Hr. pose proof (total_count_bounds ranges r Hok Hr).
    rewrite Forall_forall in Hok. apply elem_of_Iterate; [auto|zint]. }
  split.
  - intros (l & Hv & (r & -> & Hr)%list_elem_of_fmap). exists r. by rewrite <- Hit.
  - intros (r & Hr & Hv). exists (Iterate r). rewrite Hit by done.
    split; [done|]. by apply list_elem_of_fmap_2.
Qed.

(** No value is produced by two elements of the expression. *)
Definition disjoint_ranges (ranges : list Range) : Prop :=
  ∀ i j ri rj v, (i < j)%nat → ranges !! i = Some ri → ranges !! j = Some rj →
    in_range_set ri v → in_range_set rj v → False.

Lemma disjoint_ranges_cons r rs :
  disjoint_ranges (r :: rs) ↔
  (∀ q v, q ∈ rs → in_range_set r v → in_range_set q v → False) ∧ disjoint_ranges rs.
Proof.
  split.
  - intros H. split.
    + intros q v Hq Hr Hqv. apply list_elem_of_lookup in Hq as [j Hj].
      by apply (H 0%nat (S j) r q v); [lia|..].
    + intros i j ri rj v Hij Hi Hj. apply (H (S i) (S j)); [lia|done..].
  - intros [Hr Hrs] [|i] [|j] ri rj v Hij Hi Hj; [lia| |lia|].
    + injection Hi as ->. cbn in Hj. apply Hr, list_elem_of_lookup. eauto.
    + cbn in Hi, Hj. apply (Hrs i j); [lia|done..].
Qed.

Lemma NoDup_iterate_all ranges : Forall range_ok ranges →
  total_count ranges ≤ maxRangeValues →
  NoDup (mjoin (Iterate <$> ranges)) ↔ disjoint_ranges ranges.
Proof.
  intros Hok Hb. induction Hok as [|r rs Hr Hrs IH].
  { split; [intros _ i j ri rj v _ Hi; done|constructor]. }
  change (total_count (r :: rs)) with (Count r + total_count rs) in *.
  pose proof (Count_pos r Hr). pose proof (total_count_nonneg rs Hrs).
  change (mjoin (Iterate <$> r :: rs)) with (Iterate r ++ mjoin (Iterate <$> rs)).
  unfold maxRangeValues in *. assert (Count r ≠ MaxInt) by zint.
  rewrite NoDup_app, IH, disjoint_ranges_cons by lia.
  setoid_rewrite elem_of_iterate_all; [|done|unfold maxRangeValues; lia].
  split.
  - intros (_ & Hd & Hrest). split; [|done]. intros q v Hq Hv Hqv.
    apply (Hd v); [by apply elem_of_Iterate|eauto].
  - intros [Hd Hrest]. split_and!; [| |done].
    + rewrite Iterate_progression by done. apply progression_NoDup, eff_step_nonzero.
    + intros v Hv (q & Hq & Hqv). apply (Hd q v); [done| |done]. by apply elem_of_Iterate.
Qed.

Lemma anyIntersect_spec ranges : Forall small_range ranges →
  anyIntersect ranges = false ↔ disjoint_ranges ranges.
Proof.
  induction 1 as [|r rs Hr Hrs IH]; cbn.
  { split; [intros _ i j ri rj v _ Hi; done|done]. }
  rewrite orb_false_iff, IH, disjoint_ranges_cons.
  assert (existsb (rangesIntersect r) rs = false ↔
    ∀ q v, q ∈ rs → in_range_set r v → in_range_set q v → False) as ->; [|done].
  rewrite <- not_true_iff_false, existsb_exists. rewrite Forall_forall in Hrs. split.
  - intros Hn q v Hq Hv Hqv. apply Hn. exists q.
    rewrite rangesIntersect_iff by auto. rewrite <- list_elem_of_In. eauto.
  - intros Hn (q & Hq & Hint). rewrite <- list_elem_of_In in Hq.
    apply rangesIntersect_iff in Hint as (v & Hv & Hqv); eauto.
Qed.

Lemma parseIntRangeExpr_inv expr vs : parseIntRangeExpr expr = Ok vs →
  ∃ ranges, parseIntRangeElements expr = Ok ranges ∧ Forall range_ok ranges ∧
    total_count ranges ≤ maxRangeValues ∧ vs = first_seen (mjoin (Iterate <$> ranges)) ∧ vs ≠ [].
Proof.
  unfold parseIntRangeExpr. intros H. invert_ok. rename a into ranges.
  pose proof (accepted_ok _ _ (parseIntRangeElements_accepted _ _ Hok)) as Hr.
  rewrite sumRangeCounts_spec, addRanges_first_seen in H by done.
  exists ranges. case_decide; [|done].
  destruct (first_seen _) eqn:Hf; [done|]. invert_ok. done.
Qed.

(** ** Properties *)

(** C32. A successful expansion is the de-duplicated union of the sets of its
    elements, in first-seen order; it is not empty and holds at most
    [maxRangeValues] values. *)
Theorem parseIntRangeExpr_correct (expr : str) (vs : list Z)
    (H : parseIntRangeExpr expr = Ok vs) :
  ∃ ranges, parseIntRangeElements expr = Ok ranges ∧
    vs = first_seen (mjoin (Iterate <$> ranges)) ∧ NoDup vs ∧
    (∀ v, v ∈ vs ↔ ∃ r, r ∈ ranges ∧ in_range_set r v) ∧
    1 ≤ Z.of_nat (length vs) ≤ maxRangeValues.
Proof.
  apply parseIntRangeExpr_inv in H as (ranges & Hp & Hok & Hb & -> & Hne).
  exists ranges. split_and!; [done..|apply NoDup_first_seen| | |].
  - intros v. rewrite elem_of_first_seen. by apply elem_of_iterate_all.
  - destruct (first_seen _); [done|]. cbn [length]. lia.
  - pose proof (length_iterate_all ranges Hok Hb).
    destruct (length_first_seen (mjoin (Iterate <$> ranges))) as [? _]. lia.
Qed.

Lemma parseIntRangeExpr_correct_witness :
  parseIntRangeExpr (of_string "5-9:2, 1-3,2") = Ok [5; 7; 9; 1; 2; 3] ∧
  NoDup [5; 7; 9; 1; 2; 3].
Proof.
  split; [by vm_compute|].
  destruct (parseIntRangeExpr_correct (of_string "5-9:2, 1-3,2") [5; 7; 9; 1; 2; 3])
    as (ranges & _ & _ & Hd & _); [by vm_compute|exact Hd].
Defined.

(** Validation without materialising reports exactly the error expansion
    would report, and succeeds exactly when expansion does. *)
Theorem validateIntRangeExpr_mirrors (expr : str) :
  validateIntRangeExpr expr =
  match parseIntRangeExpr expr with Ok _ => Ok tt | Err e => Err e end.
Proof.
  unfold validateIntRangeExpr, parseIntRangeExpr.
  destruct (parseIntRangeElements expr) as [ranges|e] eqn:Hp; cbn [res_bind]; [|done].
  pose proof (accepted_ok _ _ (parseIntRangeElements_accepted _ _ Hp)) as Hr.
  rewrite sumRangeCounts_spec, addRanges_first_seen by done. case_decide as Hb; [|done].
  pose proof (length_iterate_all ranges Hr Hb) as Hl.
  destruct (mjoin (Iterate <$> ranges)) as [|v l] eqn:Hj.
  - rewrite <- Hl. done.
  - cbn [length] in Hl. rewrite (proj2 (Z.eqb_neq _ 0)) by lia.
    assert (Hv : v ∈ first_seen (v :: l)) by (apply elem_of_first_seen; left).
    destruct (first_seen (v :: l)); [by apply elem_of_nil in Hv|done].
Qed.

(** The arithmetic count is never below the number of expanded values,
    and equals it exactly when no two elements share a value. *)
Theorem intRangeExprCount_correct (expr : str) (vs : list Z)
    (H : parseIntRangeExpr expr = Ok vs) :
  ∃ ranges c, parseIntRangeElements expr = Ok ranges ∧ intRangeExprCount expr = Some c ∧
    Z.of_nat (length vs) ≤ c ∧ (Z.of_nat (length vs) = c ↔ disjoint_ranges ranges).
Proof.
  apply parseIntRangeExpr_inv in H as (ranges & Hp & Hok & Hb & -> & _).
  exists ranges, (total_count ranges). unfold intRangeExprCount.
  rewrite Hp, sumRangeCounts_spec, decide_True by done.
  destruct (length_first_seen (mjoin (Iterate <$> ranges))) as [Hle Heq].
  rewrite NoDup_iterate_all in Heq by done.
  rewrite <- (length_iterate_all ranges Hok Hb), <- Heq. split_and!; [done|done|lia|lia].
Qed.

Lemma intRangeExprCount_correct_witness :
  ∃ ranges c, parseIntRangeElements (of_string "1-4,3-6") = Ok ranges ∧
    intRangeExprCount (of_string "1-4,3-6") = Some c ∧ c = 8 ∧ Z.of_nat (length [1;2;3;4;5;6]) ≤ c.
Proof.
  destruct (intRangeExprCount_correct (of_string "1-4,3-6") [1;2;3;4;5;6])
    as (ranges & c & Hr & Hc & Hle & _); [by vm_compute|].
  exists ranges, c. repeat split; try done.
  vm_compute in Hc. by injection Hc as <-.
Defined.

(** Overlap detection is exact on ranges whose steps are at most [2^31]
    and whose bounds are within [2^61]: it reports an overlap exactly when two
    elements produce a common value. *)
Theorem intRangeHasOverlap_correct (expr : str) (ranges : list Range)
    (Hfmt : contains expr (of_string "{{") = false)
    (Hp : parseIntRangeElements expr = Ok ranges)
    (Hsmall : Forall small_range ranges) :
  (intRangeHasOverlap expr = Ok false ∧ disjoint_ranges ranges) ∨
  (intRangeHasOverlap expr = Ok true ∧ ¬ disjoint_ranges ranges).
Proof.
  unfold intRangeHasOverlap. rewrite Hfmt, Hp. cbn [res_bind].
  pose proof (anyIntersect_spec ranges Hsmall) as Hs.
  destruct (anyIntersect ranges); [right|left]; (split; [done|]).
  - intros Hd. by apply Hs in Hd.
  - by apply Hs.
Qed.

Lemma intRangeHasOverlap_correct_witness :
  intRangeHasOverlap (of_string "1-100:7,2-100:5") = Ok true ∧
  (intRangeHasOverlap (of_string "1-10:2,2-10:2") = Ok false ∧
   disjoint_ranges [mkRange 1 10 2; mkRange 2 10 2]).
Proof.
  split; [by vm_compute|].
  destruct (intRangeHasOverlap_correct (of_string "1-10:2,2-10:2")
    [mkRange 1 10 2; mkRange 2 10 2]) as [H|[H _]]; [by vm_compute..| |exact H|].
  - repeat constructor; by vm_compute.
  - by vm_compute in H.
Defined.

(** Outside those bounds the test is wrong in both directions: two
    elements of a million and one values each, without a common value, are
    reported as overlapping, and two with a common value as disjoint, because
    the products of the Chinese Remainder computation overflow. *)
Theorem rangesIntersect_overflow :
  let a := mkRange 0 20000000000000000 20000000000 in
  let b := mkRange 1 20000000000000000 20000000001 in
  let c := mkRange 0 900000000000000000 4900000000000 in
  let d := mkRange 38824879978020 900000000000000000 6496327059470 in
  (rangesIntersect a b = true ∧ ¬ ∃ v, in_range_set a v ∧ in_range_set b v) ∧
  (rangesIntersect c d = false ∧ ∃ v, in_range_set c v ∧ in_range_set d v).
Proof.
  intros a b c d. split; (split; [by vm_compute|]).
  - intros (v & Ha & Hb).
    apply in_range_set_ascending in Ha as [Ha [i Hi]]; [|by vm_compute..].
    apply in_range_set_ascending in Hb as [Hb [j Hj]]; [|by vm_compute..].
    cbn in *. lia.
  - exists 259700000000000. split; (apply in_range_set_ascending; [by vm_compute..|]).
    + split; [by vm_compute|by exists 53].
    + split; [by vm_compute|by exists 34].
Qed.
