(* ===== verification/Chunk.v ===== *)
(** * Task chunking: the chunk half of [internal/openjd/expand.go]

    [CHUNK[INT]] parameters group integers into chunks, each spelled as a
    range expression.  The chunks are shown to partition the values in order
    into the fewest, evenly filled groups, and every spelling to expand to the
    values it stands for. *)

From S2P Require Import Prelude IntRange RangeExpr.
Open Scope Z_scope.

(** ** Operations *)

(** The scan of [consecutiveRuns]: [run] is [vals[start:i]] and [prev] its last
    value. *)
Fixpoint consecutiveRunsFrom (run : list Z) (prev : Z) (rest : list Z) : list (list Z) :=
  match rest with
  | [] => [run]
  | v :: rest' =>
      if v =? wrap64 (prev + 1) then consecutiveRunsFrom (run ++ [v]) v rest'
      else run :: consecutiveRunsFrom [v] v rest'
  end.

Definition consecutiveRuns (vals : list Z) : list (list Z) :=
  match vals with
  | [] => []
  | v :: rest => consecutiveRunsFrom [v] v rest
  end.

(** [strconv.Itoa(vals[0]) + "-" + strconv.Itoa(vals[len(vals)-1])]; the
    caller never passes an empty run. *)
Definition formatContiguousChunk (vals : list Z) : str :=
  match vals, last vals with
  | v0 :: _, Some vn => Itoa v0 ++ ["-"%char] ++ Itoa vn
  | _, _ => []
  end.

(** How many values of [rest] continue the progression ending in [prev]. *)
Fixpoint extendRun (step prev : Z) (rest : list Z) : nat :=
  match rest with
  | v :: rest' => if wrap64 (v - prev) =? step then S (extendRun step v rest') else O
  | [] => O
  end.

(** The parts [formatNoncontiguousChunk] appends, scanning from [vals[i:]];
    [None] is running out of fuel. *)
Fixpoint noncontiguousParts (fuel : nat) (vals : list Z) : option (list str) :=
  match vals with
  | [] => Some []
  | [v] => Some [Itoa v]
  | v0 :: ((v1 :: rest) as tl) =>
      match fuel with
      | O => None
      | S f =>
          let step := wrap64 (v1 - v0) in
          if step <=? 0 then cons (Itoa v0) <$> noncontiguousParts f tl
          else
            let ext := extendRun step v1 rest in
            match ext with
            | O => (λ ps, Itoa v0 :: Itoa v1 :: ps) <$> noncontiguousParts f rest
            | S e =>
                let vj := nth e rest 0 in
                let part :=
                  if step =? 1 then Itoa v0 ++ ["-"%char] ++ Itoa vj
                  else Itoa v0 ++ ["-"%char] ++ Itoa vj ++ [":"%char] ++ Itoa step in
                cons part <$> noncontiguousParts f (drop ext rest)
            end
      end
  end.

(** Every round consumes a value. *)
Definition formatNoncontiguousChunk (vals : list Z) : str :=
  join [","%char] (default [] (noncontiguousParts (length vals) vals)).

(** [run[start:end]] *)
Definition slice (run : list Z) (start end_ : Z) : list Z :=
  take (Z.to_nat (end_ - start)) (drop (Z.to_nat start) run).

(** The loop [for i := range k] of [chunkValues] over one run. *)
Fixpoint chunkLoop (todo : nat) (i start n k : Z) (run : list Z) : list (list Z) :=
  match todo with
  | O => []
  | S t =>
      let end_ := Z.quot ((i + 1) * n + k - 1) k in
      slice run start end_ :: chunkLoop t (i + 1) end_ n k run
  end.

Definition chunkRun (chunkSize : Z) (run : list Z) : list (list Z) :=
  let n := Z.of_nat (length run) in
  let k := Z.quot (n - 1) chunkSize + 1 in
  chunkLoop (Z.to_nat k) 0 0 n k run.

(** The groups of values behind the chunks. *)
Definition chunkGroups (all : list Z) (chunkSize : Z) (contiguous : bool) : list (list Z) :=
  let runs := if contiguous then consecutiveRuns all else [all] in
  mjoin (chunkRun chunkSize <$> runs).

Definition chunkValues (all : list Z) (chunkSize : Z) (contiguous : bool) : list str :=
  (if contiguous then formatContiguousChunk else formatNoncontiguousChunk)
    <$> chunkGroups all chunkSize contiguous.

(** ** Lemmas: splitting a run *)

(** The end index of chunk [i - 1]: [ceil (i n / k)]. *)
Definition chunk_end (n k i : Z) : Z := (i * n + k - 1) / k.

Lemma chunk_end_quot n k i : 0 ≤ n → 0 < k → 0 ≤ i →
  Z.quot ((i + 1) * n + k - 1) k = chunk_end n k (i + 1).
Proof. intros. unfold chunk_end. apply Z.quot_div_nonneg; nia. Qed.

Lemma chunk_end_0 n k : 0 < k → chunk_end n k 0 = 0.
Proof. intros. unfold chunk_end. apply Z.div_small. lia. Qed.

Lemma chunk_end_k n k : 0 < k → chunk_end n k k = n.
Proof.
  intros. unfold chunk_end. replace (k * n + k - 1) with (n * k + (k - 1)) by lia.
  rewrite Z.div_add_l by lia. rewrite Z.div_small by lia. lia.
Qed.

Lemma chunk_end_step n k i : 0 < k →
  n / k ≤ chunk_end n k (i + 1) - chunk_end n k i ≤ n / k + 1 ∧
  chunk_end n k (i + 1) - chunk_end n k i ≤ (n + k - 1) / k.
Proof.
  intros Hk. unfold chunk_end.
  replace ((i + 1) * n + k - 1) with ((i * n + k - 1) + n) by lia.
  set (x := i * n + k - 1).
  pose proof (Z.div_mod x k ltac:(lia)). pose proof (Z.mod_pos_bound x k Hk).
  pose proof (Z.div_mod n k ltac:(lia)). pose proof (Z.mod_pos_bound n k Hk).
  pose proof (Z.div_mod (x + n) k ltac:(lia)). pose proof (Z.mod_pos_bound (x + n) k Hk).
  pose proof (Z.div_mod (n + k - 1) k ltac:(lia)). pose proof (Z.mod_pos_bound (n + k - 1) k Hk).
  nia.
Qed.

Lemma slice_join run a b : 0 ≤ a ≤ b →
  slice run a b ++ drop (Z.to_nat b) run = drop (Z.to_nat a) run.
Proof.
  intros H. unfold slice.
  replace (Z.to_nat b) with (Z.to_nat a + Z.to_nat (b - a))%nat by lia.
  rewrite <- drop_drop. apply take_drop.
Qed.

Lemma length_slice run a b : 0 ≤ a ≤ b → b ≤ Z.of_nat (length run) →
  Z.of_nat (length (slice run a b)) = b - a.
Proof. intros. unfold slice. rewrite length_take, length_drop. lia. Qed.

Section Chunking.
Context (run : list Z) (n k : Z).
Context (Hn : n = Z.of_nat (length run)) (Hk : 0 < k ≤ n).

Lemma chunk_end_mono i : 0 ≤ i → 0 ≤ chunk_end n k i < chunk_end n k (i + 1).
Proof.
  intros Hi. destruct (chunk_end_step n k i ltac:(lia)) as [Hs _].
  assert (1 ≤ n / k) by (apply Z.div_le_lower_bound; lia).
  split; [|lia]. unfold chunk_end. apply Z.div_pos; nia.
Qed.

Lemma chunk_end_le i : 0 ≤ i ≤ k → chunk_end n k i ≤ n.
Proof.
  intros Hi. transitivity (chunk_end n k k); [|by rewrite chunk_end_k by lia].
  unfold chunk_end. apply Z.div_le_mono; nia.
Qed.

Lemma chunkLoop_spec todo i : 0 ≤ i → i + Z.of_nat todo = k →
  let cs := chunkLoop todo i (chunk_end n k i) n k run in
  mjoin cs = drop (Z.to_nat (chunk_end n k i)) run ∧ length cs = todo ∧
  Forall (λ c, n / k ≤ Z.of_nat (length c) ≤ n / k + 1 ∧
               Z.of_nat (length c) ≤ (n + k - 1) / k) cs.
Proof.
  revert i. induction todo as [|t IH]; intros i Hi Hik; cbn [chunkLoop]; cbv zeta.
  - assert (i = k) as -> by lia. rewrite chunk_end_k by lia. split_and!; [|done|constructor].
    symmetry. apply drop_ge. lia.
  - rewrite chunk_end_quot by lia. pose proof (chunk_end_mono i Hi) as Hm.
    destruct (IH (i + 1) ltac:(lia) ltac:(lia)) as (Hj & Hl & Hf).
    pose proof (chunk_end_le (i + 1) ltac:(lia)).
    split_and!.
    + change (slice run (chunk_end n k i) (chunk_end n k (i + 1)) ++
              mjoin (chunkLoop t (i + 1) (chunk_end n k (i + 1)) n k run)
              = drop (Z.to_nat (chunk_end n k i)) run).
      rewrite Hj. apply slice_join. lia.
    + cbn [length]. by rewrite Hl.
    + constructor; [|done]. rewrite length_slice by lia. by apply chunk_end_step; lia.
Qed.
End Chunking.

Lemma chunk_count n size : 1 ≤ n → 1 ≤ size →
  let k := Z.quot (n - 1) size + 1 in
  0 < k ≤ n ∧ (k - 1) * size < n ≤ k * size ∧ (n + k - 1) / k ≤ size.
Proof.
  intros Hn Hs k. unfold k. rewrite Z.quot_div_nonneg by lia.
  pose proof (Z.div_mod (n - 1) size ltac:(lia)).
  pose proof (Z.mod_pos_bound (n - 1) size ltac:(lia)).
  pose proof (Z_div_le_self (n - 1) size ltac:(lia) ltac:(lia)).
  set (q := (n - 1) / size) in *. split_and!; [lia|lia|nia|nia|].
  apply Z.lt_succ_r, Z.div_lt_upper_bound; nia.
Qed.

(** One run: order and content are kept, the number of chunks is the least
    possible, no chunk is empty or above the size, and lengths differ by at
    most one. *)
Lemma chunkRun_spec size run : run ≠ [] → 1 ≤ size →
  mjoin (chunkRun size run) = run ∧
  (Z.of_nat (length (chunkRun size run)) - 1) * size < Z.of_nat (length run) ∧
  ∃ base, 1 ≤ base ∧ Forall (λ c, base ≤ Z.of_nat (length c) ≤ base + 1 ∧
                                  Z.of_nat (length c) ≤ size) (chunkRun size run).
Proof.
  intros Hne Hs. unfold chunkRun. set (n := Z.of_nat (length run)).
  assert (1 ≤ n) by (destruct run; [done|]; unfold n; cbn [length]; lia).
  destruct (chunk_count n size) as (Hk & Hc & Hle); [done..|].
  set (k := Z.quot (n - 1) size + 1) in *.
  destruct (chunkLoop_spec run n k eq_refl Hk (Z.to_nat k) 0) as (Hj & Hl & Hf); [lia..|].
  rewrite chunk_end_0 in * by lia. rewrite Hj, Hl. split_and!; [done|lia|].
  exists (n / k). split; [apply Z.div_le_lower_bound; lia|].
  eapply Forall_impl; [done|]. cbn. intros c. lia.
Qed.

(** ** Lemmas: runs of consecutive values *)

Lemma progression_app v s a b :
  progression v s (a + b) = progression v s a ++ progression (v + Z.of_nat a * s) s b.
Proof.
  revert v. induction a as [|a IH]; intros v; cbn [Nat.add app].
  - cbn. f_equal. lia.
  - rewrite !progression_S, IH. cbn [app]. do 3 f_equal. lia.
Qed.

(** Every value is the previous one plus one. *)
Definition consecutive (run : list Z) : Prop :=
  ∃ v, run = progression v 1 (length run).

Lemma consecutive_sub a c b : consecutive (a ++ c ++ b) → consecutive c.
Proof.
  intros [v Hv]. rewrite !length_app, !progression_app in Hv.
  apply app_inj_1 in Hv as [_ Hv]; [|by rewrite length_progression].
  apply app_inj_1 in Hv as [Hc _]; [|by rewrite length_progression].
  eexists. exact Hc.
Qed.

Lemma elem_of_mjoin_split {A} (cs : list (list A)) c :
  c ∈ cs → ∃ a b, mjoin cs = a ++ c ++ b.
Proof.
  induction cs as [|d cs IH]; [by intros ?%elem_of_nil|].
  change (mjoin (d :: cs)) with (d ++ mjoin cs).
  rewrite elem_of_cons. intros [->|(a & b & ->)%IH].
  - by exists [], (mjoin cs).
  - exists (d ++ a), b. by rewrite <- app_assoc.
Qed.

(** The runs, when no value wraps into the least integer. *)
Lemma consecutiveRunsFrom_spec rest v k prev :
  Forall in_int rest → MinInt ∉ rest → in_int prev →
  prev = v + Z.of_nat k →
  let rs := consecutiveRunsFrom (progression v 1 (S k)) prev rest in
  mjoin rs = progression v 1 (S k) ++ rest ∧ Forall (λ r, r ≠ [] ∧ consecutive r) rs.
Proof.
  revert v k prev. induction rest as [|w rest IH]; intros v k prev Hint Hmin Hp Hpv;
    cbn [consecutiveRunsFrom]; cbv zeta.
  - split; [done|]. repeat constructor; [by rewrite progression_S|].
    exists v. by rewrite length_progression.
  - apply Forall_cons in Hint as [Hw Hint]. apply not_elem_of_cons in Hmin as [Hm Hmin].
    destruct (Z.eqb_spec w (wrap64 (prev + 1))) as [Heq|Hneq].
    + assert (w = prev + 1) as ->.
      { destruct (decide (prev = MaxInt)) as [->|Hne].
        - vm_compute in Heq. subst w. by destruct Hm.
        - rewrite Heq. apply wrap64_id. zint. }
      assert (Hsnoc : progression v 1 (S k) ++ [prev + 1] = progression v 1 (S (S k))).
      { replace (S (S k)) with (S k + 1)%nat by lia. rewrite (progression_app v 1 (S k)).
        f_equal. unfold progression; cbn. f_equal. lia. }
      rewrite Hsnoc. destruct (IH v (S k) (prev + 1)) as [Hj Hf]; [done..|lia|].
      split; [|done]. rewrite Hj, <- Hsnoc, <- app_assoc. done.
    + assert (H1 : progression w 1 1 = [w]) by (unfold progression; cbn; f_equal; lia).
      destruct (IH w 0%nat w) as [Hj Hf]; [done..|lia|]. rewrite H1 in Hj, Hf. split.
      * change (progression v 1 (S k) ++ mjoin (consecutiveRunsFrom [w] w rest) =
                progression v 1 (S k) ++ w :: rest). by rewrite Hj.
      * constructor; [|done]. split; [by rewrite progression_S|].
        exists v. by rewrite length_progression.
Qed.

Lemma consecutiveRuns_spec vals : Forall in_int vals → MinInt ∉ vals →
  mjoin (consecutiveRuns vals) = vals ∧
  Forall (λ r, r ≠ [] ∧ consecutive r) (consecutiveRuns vals).
Proof.
  intros Hint Hmin. destruct vals as [|v rest]; [by split; [|constructor]|].
  apply Forall_cons in Hint as [Hv Hint]. apply not_elem_of_cons in Hmin as [_ Hmin].
  cbn [consecutiveRuns].
  assert (H1 : progression v 1 1 = [v]) by (unfold progression; cbn; f_equal; lia).
  rewrite <- H1. destruct (consecutiveRunsFrom_spec rest v 0 v) as [Hj Hf]; [done..|lia|].
  split; [|done]. by rewrite Hj, H1.
Qed.

(** ** Lemmas: spelling a chunk *)

(** An ascending range that ends on a term iterates up to it. *)
Lemma Iterate_ending v step k :
  0 < step → in_int step → in_int v → in_int (v + Z.of_nat k * step) →
  in_int (Z.of_nat k * step) → Z.of_nat k < MaxInt - 1 →
  let r := mkRange v (v + Z.of_nat k * step) step in
  range_ok r ∧ Count r = Z.of_nat k + 1 ∧ Iterate r = progression v step (S k).
Proof.
  intros Hpos Hs Hv He Hspan Hk r.
  assert (Hok : range_ok r) by done.
  assert (Hc : Count r = Z.of_nat k + 1).
  { rewrite Count_fits; [|done|].
    2: { cbn. by replace (v + Z.of_nat k * step - v) with (Z.of_nat k * step) by lia. }
    unfold exact_count, eff_step, r; cbn [Start End_ Step].
    rewrite (proj2 (Z.eqb_neq step 0)), (proj2 (Z.ltb_lt 0 step)) by lia.
    rewrite (proj2 (Z.leb_le _ _)) by lia.
    replace (v + Z.of_nat k * step - v) with (Z.of_nat k * step) by lia.
    rewrite Z.div_mul by lia. zint. }
  split_and!; [done|done|]. rewrite Iterate_progression by (done || zint).
  rewrite Hc. unfold eff_step, r; cbn [Start End_ Step].
  rewrite (proj2 (Z.eqb_neq step 0)) by lia. f_equal. lia.
Qed.

Lemma parse_one_contiguous v k :
  in_int v → in_int (v + Z.of_nat k) →
  parseIntRangeElements (Itoa v ++ ["-"%char] ++ Itoa (v + Z.of_nat k))
  = Ok [mkRange v (v + Z.of_nat k) 1].
Proof.
  intros Hv Hw. set (w := v + Z.of_nat k) in *. set (s := Itoa v ++ ["-"%char] ++ Itoa w).
  assert (Hpl : Forall (λ c, plain c = true) s)
    by (repeat apply Forall_app_2; repeat constructor; auto using Itoa_plain).
  assert (Hne : s ≠ []) by (pose proof (Itoa_nonempty v Hv); unfold s; by destruct (Itoa v)).
  assert (Hcomma : ","%char ∉ s).
  { unfold s. rewrite !elem_of_app, list_elem_of_singleton.
    pose proof (Itoa_free v ","%char Hv eq_refl ltac:(done)).
    pose proof (Itoa_free w ","%char Hw eq_refl ltac:(done)). naive_solver. }
  assert (Hel : parseElement s openjdRangePolicy = Ok (mkRange v w 1)).
  { unfold parseElement. rewrite last_index_none.
    - unfold s. cbn [app]. rewrite splitRange_bounds by done. cbn.
      rewrite Z.gtb_ltb, (proj2 (Z.ltb_ge _ _)) by lia. done.
    - unfold s. rewrite !elem_of_app, list_elem_of_singleton.
      pose proof (Itoa_free v ":"%char Hv eq_refl ltac:(done)).
      pose proof (Itoa_free w ":"%char Hw eq_refl ltac:(done)). naive_solver. }
  unfold parseIntRangeElements, ParseWithPolicy.
  rewrite TrimSpace_plain by done. rewrite split_on_none by done. cbn [parseParts].
  rewrite TrimSpace_plain by done. destruct s as [|c s']; [done|]. rewrite Hel. done.
Qed.

(** A list of accepted ranges with a bounded, duplicate-free union expands to
    that union. *)
Lemma parseIntRangeExpr_of_ranges expr ranges vals :
  parseIntRangeElements expr = Ok ranges →
  mjoin (Iterate <$> ranges) = vals → total_count ranges = Z.of_nat (length vals) →
  NoDup vals → vals ≠ [] → Z.of_nat (length vals) ≤ maxRangeValues →
  parseIntRangeExpr expr = Ok vals.
Proof.
  intros Hp Hj Ht Hd Hne Hb. unfold parseIntRangeExpr. rewrite Hp. cbn [res_bind].
  pose proof (accepted_ok _ _ (parseIntRangeElements_accepted _ _ Hp)) as Hok.
  rewrite sumRangeCounts_spec, decide_True, addRanges_first_seen by (done || lia).
  rewrite Hj. unfold first_seen. rewrite remove_dups_id by by apply NoDup_reverse.
  rewrite reverse_involutive. by destruct vals.
Qed.

Lemma last_progression v k : last (v :: progression (v + 1) 1 k) = Some (v + Z.of_nat k).
Proof.
  rewrite <- progression_S. replace (S k) with (k + 1)%nat by lia. rewrite progression_app, last_app.
  unfold progression; cbn. f_equal. lia.
Qed.

Lemma format_contiguous_parses vals :
  vals ≠ [] → consecutive vals → Forall in_int vals →
  Z.of_nat (length vals) ≤ maxRangeValues →
  parseIntRangeExpr (formatContiguousChunk vals) = Ok vals.
Proof.
  intros Hne [v Hv] Hint Hb. unfold maxRangeValues in Hb.
  destruct vals as [|v0 vals]; [done|]. cbn [length] in Hv, Hb. set (k := length vals) in *.
  assert (v0 = v) as -> by (rewrite progression_S in Hv; congruence).
  rewrite Hv in *. clear Hne Hv.
  unfold formatContiguousChunk. rewrite progression_S, last_progression.
  assert (Hv : in_int v) by (rewrite progression_S in Hint; by inversion Hint).
  assert (Hw : in_int (v + Z.of_nat k)).
  { rewrite Forall_forall in Hint. apply Hint, elem_of_progression. exists (Z.of_nat k). lia. }
  destruct (Iterate_ending v 1 k) as (_ & Hc & Hi); [lia|zint|done|by rewrite Z.mul_1_r|zint|zint|].
  rewrite Z.mul_1_r in Hc, Hi.
  apply (parseIntRangeExpr_of_ranges _ [mkRange v (v + Z.of_nat k) 1]).
  - by apply parse_one_contiguous.
  - change (Iterate (mkRange v (v + Z.of_nat k) 1) ++ [] = v :: progression (v + 1) 1 k).
    by rewrite Hi, app_nil_r, progression_S.
  - unfold total_count; cbn [fmap list_fmap foldr]. rewrite Hc. cbn [length].
    rewrite length_progression. lia.
  - rewrite <- progression_S. by apply progression_NoDup.
  - done.
  - cbn [length]. rewrite length_progression. unfold maxRangeValues. lia.
Qed.

(** Values whose differences do not wrap. *)
Definition tame (v : Z) : Prop := - 2305843009213693952 ≤ v ≤ 2305843009213693952.

#[export] Instance tame_dec v : Decision (tame v).
Proof. unfold tame. apply _. Defined.

Lemma tame_int v : tame v → in_int v.
Proof. unfold tame. zint. Qed.

Lemma extendRun_spec step prev rest :
  tame prev → Forall tame rest →
  rest = progression (prev + step) step (extendRun step prev rest)
         ++ drop (extendRun step prev rest) rest ∧
  (extendRun step prev rest ≤ length rest)%nat.
Proof.
  revert prev. induction rest as [|w rest IH]; intros prev Hp Ht; cbn [extendRun]; [done|].
  apply Forall_cons in Ht as [Hw Ht]. unfold tame in Hp, Hw.
  rewrite wrap64_id by zint. destruct (Z.eqb_spec (w - prev) step) as [He|]; [|split; [done|cbn; lia]].
  destruct (IH w) as [Hr Hl]; [done..|]. replace (prev + step) with w by lia.
  rewrite progression_S. cbn [drop app length]. split; [|lia]. by rewrite <- Hr at 1.
Qed.

(** The ranges a non-contiguous spelling stands for. *)
Definition spells (parts : list str) (rs : list Range) (vals : list Z) : Prop :=
  parts = Range_String <$> rs ∧ mjoin (Iterate <$> rs) = vals ∧
  total_count rs = Z.of_nat (length vals) ∧
  Forall (accepted openjdRangePolicy) rs ∧ Forall printable rs.

Lemma spells_cons part r parts rs vs vals :
  part = Range_String r → Iterate r = vs → Count r = Z.of_nat (length vs) →
  accepted openjdRangePolicy r → printable r → spells parts rs vals →
  spells (part :: parts) (r :: rs) (vs ++ vals).
Proof.
  intros -> <- Hc Ha Hp (-> & <- & Ht & Hacc & Hpr).
  split_and!; [done|done| |by constructor|by constructor].
  change (total_count (r :: rs)) with (Count r + total_count rs).
  rewrite length_app, Hc, Ht. lia.
Qed.

(** A single value. *)
Lemma spells_value v parts rs vals : tame v → spells parts rs vals →
  spells (Itoa v :: parts) (mkRange v v 1 :: rs) (v :: vals).
Proof.
  intros Hv Hs. pose proof (tame_int v Hv).
  destruct (Iterate_ending v 1 0) as (Hok & Hc & Hi); [lia|zint|done|zint|zint|zint|].
  replace (v + Z.of_nat 0 * 1) with v in * by lia.
  apply (spells_cons _ _ _ _ [v]); try done.
  - unfold Range_String; cbn. by rewrite Z.eqb_refl.
  - rewrite Hi. unfold progression; cbn. f_equal. lia.
Qed.

(** A run of at least two values with a positive step. *)
Lemma spells_run v step k parts rs vals :
  0 < step → (0 < k)%nat → tame v → tame (v + Z.of_nat k * step) → in_int step →
  spells parts rs vals →
  spells ((if step =? 1 then Itoa v ++ ["-"%char] ++ Itoa (v + Z.of_nat k * step)
           else Itoa v ++ ["-"%char] ++ Itoa (v + Z.of_nat k * step) ++ [":"%char] ++ Itoa step)
          :: parts)
    (mkRange v (v + Z.of_nat k * step) step :: rs) (progression v step (S k) ++ vals).
Proof.
  intros Hpos Hk Hv Hw Hs Hsp. unfold tame in Hv, Hw.
  destruct (Iterate_ending v step k) as (Hok & Hc & Hi); [done|done|zint|zint|zint|zint; nia|].
  apply spells_cons; try done.
  - unfold Range_String; cbn [Start End_ Step].
    rewrite (proj2 (Z.eqb_neq v _)) by nia. done.
  - rewrite Hc, length_progression. lia.
  - split_and!; [done|cbn; lia|done|cbn; nia].
  - unfold printable; cbn. nia.
Qed.

Lemma noncontiguousParts_spells fuel vals :
  (length vals ≤ fuel)%nat → Forall tame vals →
  ∃ parts rs, noncontiguousParts fuel vals = Some parts ∧ spells parts rs vals.
Proof.
  revert vals. induction fuel as [|f IH]; intros vals Hl Ht.
  { destruct vals; cbn in Hl; [|lia]. exists [], []. done. }
  destruct vals as [|v0 [|v1 rest]]; [by exists [], []| |].
  { exists [Itoa v0], [mkRange v0 v0 1]. split; [done|].
    apply Forall_cons in Ht as [H0 _]. apply spells_value; [done|]. done. }
  apply Forall_cons in Ht as [H0 Htl]. pose proof (proj1 (Forall_cons _ _ _) Htl) as [H1 Ht].
  cbn [noncontiguousParts]. unfold tame in H0, H1. rewrite wrap64_id by zint.
  cbn [length] in Hl. destruct (Z.leb_spec (v1 - v0) 0) as [Hneg|Hpos].
  { destruct (IH (v1 :: rest)) as (ps & rs & -> & Hsp); [cbn; lia|done|].
    eexists _, _. split; [done|]. by apply spells_value. }
  destruct (extendRun_spec (v1 - v0) v1 rest) as [Hr Hrl]; [done..|].
  destruct (extendRun (v1 - v0) v1 rest) as [|e] eqn:Hext.
  { destruct (IH rest) as (ps & rs & -> & Hsp); [lia|done|].
    eexists _, _. split; [done|]. by apply spells_value, spells_value. }
  destruct (IH (drop (S e) rest)) as (ps & rs & -> & Hsp).
  { rewrite length_drop. lia. }
  { by apply Forall_drop. }
  assert (Hnth : nth e rest 0 = v0 + Z.of_nat (S (S e)) * (v1 - v0) ∧ tame (nth e rest 0)).
  { assert (Hlk : rest !! e = Some (v0 + Z.of_nat (S (S e)) * (v1 - v0))).
    { rewrite Hr, lookup_app_l by (rewrite length_progression; lia).
      unfold progression. rewrite list_lookup_fmap, lookup_seq_lt by lia. cbn. f_equal. lia. }
    rewrite (nth_lookup_Some _ _ _ _ Hlk). split; [done|].
    rewrite Forall_forall in Ht. apply Ht. by eapply list_elem_of_lookup_2. }
  destruct Hnth as [-> Htame].
  eexists _, _. split; [done|].
  replace (v0 :: v1 :: rest) with (progression v0 (v1 - v0) (S (S (S e))) ++ drop (S e) rest).
  - apply spells_run; [lia|lia|done|done|zint|done].
  - rewrite Hr at 2. rewrite (progression_S v0), (progression_S (v0 + _)).
    by replace (v0 + (v1 - v0)) with v1 by lia.
Qed.

(** The text of a non-contiguous chunk parses to the ranges it spells. *)
Lemma format_noncontiguous_parses vals :
  vals ≠ [] → NoDup vals → Forall tame vals → Z.of_nat (length vals) ≤ maxRangeValues →
  parseIntRangeExpr (formatNoncontiguousChunk vals) = Ok vals.
Proof.
  intros Hne Hd Ht Hb. unfold formatNoncontiguousChunk.
  destruct (noncontiguousParts_spells (length vals) vals) as
    (parts & rs & Hp & -> & Hj & Htot & Hacc & Hpr); [lia|done|].
  rewrite Hp. cbn [from_option id].
  assert (Hrs : rs ≠ []) by (intros ->; by rewrite <- Hj in Hne).
  apply (parseIntRangeExpr_of_ranges _ rs); try done.
  pose proof (ParseWithPolicy_join openjdRangePolicy rs Hrs Hacc Hpr) as Hparse.
  unfold parseIntRangeElements. destruct (TrimSpace _) eqn:Htrim; [|by rewrite Hparse].
  unfold ParseWithPolicy in Hparse. by rewrite Htrim in Hparse.
Qed.

Lemma Forall_sub {A} (P : A → Prop) (cs : list (list A)) :
  Forall P (mjoin cs) → Forall (Forall P) cs.
Proof.
  rewrite !Forall_forall. intros H c Hc. apply Forall_forall. intros x Hx. apply H.
  apply list_elem_of_join. eauto.
Qed.

Lemma NoDup_sub {A} (cs : list (list A)) : NoDup (mjoin cs) → Forall NoDup cs.
Proof.
  intros H. apply Forall_forall. intros c (a & b & Heq)%elem_of_mjoin_split.
  rewrite Heq in H. apply NoDup_app in H as (_ & _ & H). by apply NoDup_app in H as (H & _).
Qed.

Lemma length_sub {A} (cs : list (list A)) :
  Forall (λ c, (length c ≤ length (mjoin cs))%nat) cs.
Proof.
  apply Forall_forall. intros c (a & b & ->)%elem_of_mjoin_split. rewrite !length_app. lia.
Qed.

Lemma mjoin_mjoin_map {A B} (f : A → list (list B)) (g : A → list B) (l : list A) :
  Forall (λ x, mjoin (f x) = g x) l → mjoin (mjoin (f <$> l)) = mjoin (g <$> l).
Proof.
  induction 1 as [|x l Hx Hl IH]; [done|].
  change (mjoin (f x ++ mjoin (f <$> l)) = g x ++ mjoin (g <$> l)).
  rewrite <- IH, <- Hx. clear. induction (f x) as [|y ys IHy]; [done|].
  change (y ++ mjoin (ys ++ mjoin (f <$> l)) = (y ++ mjoin ys) ++ mjoin (mjoin (f <$> l))).
  by rewrite IHy, app_assoc.
Qed.

Lemma chunkGroups_spec all size contiguous :
  all ≠ [] → 1 ≤ size → Forall in_int all → MinInt ∉ all →
  mjoin (chunkGroups all size contiguous) = all ∧
  Forall (λ c, 1 ≤ Z.of_nat (length c) ≤ size) (chunkGroups all size contiguous) ∧
  (contiguous = true → Forall consecutive (chunkGroups all size contiguous)).
Proof.
  intros Hne Hs Hint Hmin. unfold chunkGroups.
  set (runs := if contiguous then consecutiveRuns all else [all]).
  assert (Hruns : mjoin runs = all ∧ Forall (λ r, r ≠ [] ∧ (contiguous = true → consecutive r)) runs).
  { unfold runs. destruct contiguous.
    - destruct (consecutiveRuns_spec all Hint Hmin) as [? Hf]. split; [done|].
      eapply Forall_impl; [done|]. cbn. naive_solver.
    - split; [apply app_nil_r|]. by repeat constructor. }
  clearbody runs. destruct Hruns as [Hj Hf]. split_and!.
  - rewrite (mjoin_mjoin_map _ id), list_fmap_id; [done|].
    eapply Forall_impl; [done|]. cbn. intros r [Hr _]. by apply chunkRun_spec.
  - apply Forall_forall. intros c Hc. apply list_elem_of_join in Hc as (cs & Hc & Hcs).
    apply list_elem_of_fmap in Hcs as (r & -> & Hr).
    rewrite Forall_forall in Hf. destruct (Hf r Hr) as [Hr0 _].
    destruct (chunkRun_spec size r Hr0 Hs) as (_ & _ & base & Hb & Hl).
    rewrite Forall_forall in Hl. specialize (Hl c Hc). lia.
  - intros Hcont. apply Forall_forall. intros c Hc.
    apply list_elem_of_join in Hc as (cs & Hc & Hcs).
    apply list_elem_of_fmap in Hcs as (r & -> & Hr).
    rewrite Forall_forall in Hf. destruct (Hf r Hr) as [Hr0 Hr1].
    destruct (chunkRun_spec size r Hr0 Hs) as (Hjr & _).
    apply elem_of_mjoin_split in Hc as (a & b & Hab). rewrite Hjr in Hab. subst r.
    apply (consecutive_sub a c b). auto.
Qed.

(** ** Properties *)

(** Chunking loses, repeats and reorders nothing: the groups concatenate
    to the values, each holds between one and [chunkSize] values, and in the
    contiguous mode each is a run of consecutive integers. *)
Theorem chunkGroups_partition (all : list Z) (chunkSize : Z) (contiguous : bool)
    (Hne : all ≠ []) (Hs : 1 ≤ chunkSize) (Hint : Forall in_int all) (Hmin : MinInt ∉ all) :
  mjoin (chunkGroups all chunkSize contiguous) = all ∧
  Forall (λ c, 1 ≤ Z.of_nat (length c) ≤ chunkSize) (chunkGroups all chunkSize contiguous) ∧
  (contiguous = true → Forall consecutive (chunkGroups all chunkSize contiguous)).
Proof. by apply chunkGroups_spec. Qed.

Lemma chunkGroups_partition_witness :
  chunkGroups [1; 2; 3; 4; 5; 7; 8] 3 true = [[1; 2; 3]; [4; 5]; [7; 8]] ∧
  mjoin (chunkGroups [1; 2; 3; 4; 5; 7; 8] 3 true) = [1; 2; 3; 4; 5; 7; 8].
Proof.
  split; [by vm_compute|].
  apply (chunkGroups_partition [1; 2; 3; 4; 5; 7; 8] 3 true).
  - done.
  - lia.
  - repeat constructor; by vm_compute.
  - rewrite !not_elem_of_cons. split_and!; try done. apply not_elem_of_nil.
Defined.

(** A run is split into the fewest chunks that fit, [ceil (n / chunkSize)]
    of them, with its values spread evenly: chunk lengths differ by at most
    one. *)
Theorem chunkRun_fewest_balanced (chunkSize : Z) (run : list Z)
    (Hne : run ≠ []) (Hs : 1 ≤ chunkSize) :
  let cs := chunkRun chunkSize run in
  let n := Z.of_nat (length run) in
  (Z.of_nat (length cs) - 1) * chunkSize < n ≤ Z.of_nat (length cs) * chunkSize ∧
  ∀ c d, c ∈ cs → d ∈ cs → (length c ≤ S (length d))%nat.
Proof.
  intros cs n. destruct (chunkRun_spec chunkSize run Hne Hs) as (Hj & Hl & base & Hb & Hf).
  fold cs in Hj, Hl, Hf. split.
  - split; [done|]. unfold n. rewrite <- Hj. clear -Hf.
    induction Hf as [|c cs [_ Hc] Hcs IH]; [done|].
    change (mjoin (c :: cs)) with (c ++ mjoin cs). rewrite length_app. cbn [length]. lia.
  - intros c d Hc Hd. rewrite Forall_forall in Hf.
    pose proof (Hf c Hc). pose proof (Hf d Hd). lia.
Qed.

Lemma chunkRun_fewest_balanced_witness :
  let run := [1; 2; 3; 4; 5; 6; 7; 8; 9; 10; 11; 12] in
  chunkRun 5 run = [[1; 2; 3; 4]; [5; 6; 7; 8]; [9; 10; 11; 12]] ∧
  Z.of_nat (length run) ≤ Z.of_nat (length (chunkRun 5 run)) * 5.
Proof.
  intros run. split; [by vm_compute|].
  destruct (chunkRun_fewest_balanced 5 run) as [[_ H] _]; [done|lia|exact H].
Defined.

(** Every chunk text a worker receives expands to exactly the values of its
    group, in order, in both modes. *)
Theorem chunkValues_expand (all : list Z) (chunkSize : Z) (contiguous : bool)
    (Hne : all ≠ []) (Hs : 1 ≤ chunkSize) (Ht : Forall tame all) (Hd : NoDup all)
    (Hb : Z.of_nat (length all) ≤ maxRangeValues) :
  parseIntRangeExpr <$> chunkValues all chunkSize contiguous
  = Ok <$> chunkGroups all chunkSize contiguous.
Proof.
  assert (Hint : Forall in_int all) by (eapply Forall_impl; [done|]; apply tame_int).
  assert (Hmin : MinInt ∉ all).
  { intros Hin. rewrite Forall_forall in Ht. by destruct (Ht _ Hin). }
  destruct (chunkGroups_spec all chunkSize contiguous Hne Hs Hint Hmin) as (Hj & Hl & Hc).
  unfold chunkValues. rewrite <- list_fmap_compose.
  apply list_fmap_ext. intros i c Hic%list_elem_of_lookup_2. unfold compose.
  rewrite <- Hj in Ht, Hint, Hd, Hb.
  apply Forall_sub in Ht. apply Forall_sub in Hint. apply NoDup_sub in Hd.
  pose proof (length_sub (chunkGroups all chunkSize contiguous)) as Hlen.
  rewrite Forall_forall in Ht, Hint, Hd, Hlen, Hl.
  specialize (Ht c Hic). specialize (Hint c Hic). specialize (Hd c Hic).
  specialize (Hlen c Hic). specialize (Hl c Hic).
  assert (c ≠ []) by (intros ->; cbn in Hl; lia).
  destruct contiguous.
  - apply format_contiguous_parses; [done| |done|lia].
    specialize (Hc eq_refl). rewrite Forall_forall in Hc. by apply Hc.
  - apply format_noncontiguous_parses; [done..|lia].
Qed.

Lemma chunkValues_expand_witness :
  chunkValues [1; 3; 5; 6; 7; 8] 6 false = [of_string "1-5:2,6-8"] ∧
  parseIntRangeExpr <$> chunkValues [1; 3; 5; 6; 7; 8] 6 false = [Ok [1; 3; 5; 6; 7; 8]].
Proof.
  split; [by vm_compute|].
  apply (chunkValues_expand [1; 3; 5; 6; 7; 8] 6 false).
  - done.
  - lia.
  - repeat constructor; by vm_compute.
  - apply (bool_decide_unpack _). by vm_compute.
  - by vm_compute.
Defined.

(** At the ends of the integer range the consecutive test wraps: the
    greatest and the least integer are taken for a run, and the chunk's text is
    one the package's own parser rejects. *)
Theorem consecutiveRuns_wraps :
  consecutiveRuns [MaxInt; MinInt] = [[MaxInt; MinInt]] ∧
  chunkValues [MaxInt; MinInt] 2 true
    = [of_string "9223372036854775807--9223372036854775808"] ∧
  is_ok (parseIntRangeExpr (of_string "9223372036854775807--9223372036854775808")) = false.
Proof. split_and!; by vm_compute. Qed.
