(* ===== verification/Combine.v ===== *)
(** * Parameter-space expansion: [internal/openjd/expand.go]

    Combination expressions (product [*] and association [(A,B)]) are
    tokenised, parsed, counted arithmetically and evaluated into the task
    rows of a step.  The parser is shown total and inverse to printing, and
    the arithmetic count to admit exactly the spaces within the per-step
    limit. *)

From S2P Require Import Prelude IntRange RangeExpr Chunk.
Open Scope Z_scope.

(** ** Data *)

Abbreviation TaskParams := (gmap str str).

#[warnings="-register-all"]
Inductive combNode :=
  | combIdent (Name : str)
  | combProduct (Children : list combNode)
  | combAssoc (Children : list combNode).

Inductive CombError :=
  | UnexpectedToken (tok : str) (index : nat)
  | UnexpectedEnd
  | ExpectedName (tok : str)
  | NestedTooDeeply
  | UnclosedParen
  | ExpectedExprInGroup (tok : str)
  | ExpectedCommaOrParen (tok : str)
  | AssocTooFew
  | OutOfFuel.

(** ** Tokens *)

Definition isIdentChar (c : ascii) : bool :=
  byte_in c 65 90 || byte_in c 97 122 || byte_in c 48 57 || byte_is c 95.

(** The regular expression [^[A-Za-z_][A-Za-z0-9_]*$]. *)
Definition isIdentifier (s : str) : bool :=
  match s with
  | [] => false
  | c :: s' =>
      (byte_in c 65 90 || byte_in c 97 122 || byte_is c 95) && forallb isIdentChar s'
  end.

(** [string(c)] of a byte: the UTF-8 encoding of the rune with that value. *)
Definition byteString (c : ascii) : str :=
  let n := nat_of_ascii c in
  if (n <? 128)%nat then [c]
  else [ascii_of_nat (192 + n / 64); ascii_of_nat (128 + n mod 64)].

Definition flush (cur : str) : list str := match cur with [] => [] | _ => [cur] end.

(** [cur] is the identifier [expr[i:j]] scanned so far. *)
Fixpoint tokenizeFrom (cur : str) (expr : str) : list str :=
  match expr with
  | [] => flush cur
  | c :: rest =>
      if isIdentChar c then tokenizeFrom (cur ++ [c]) rest
      else flush cur ++
        (if bool_decide (c = " "%char) || byte_is c 9 then [] else [byteString c])
        ++ tokenizeFrom [] rest
  end.

Definition tokenizeComb (expr : str) : list str := tokenizeFrom [] expr.

(** ** Parser *)

Definition tok_star : str := ["*"%char].
Definition tok_open : str := ["("%char].
Definition tok_close : str := [")"%char].
Definition tok_comma : str := [","%char].

Definition maxCombDepth : nat := 64.

(** The recursive descent on the tokens left; [depth] counts open groups. *)
Fixpoint parseExpr (fuel : nat) (depth : nat) (toks : list str)
    : res CombError (combNode * list str) :=
  match fuel with
  | O => Err OutOfFuel
  | S f =>
      let? (first, rest) := parseCombElement f depth toks in
      match rest with
      | [] => Ok (first, rest)
      | t :: _ =>
          if bool_decide (t = tok_star) then
            let? (children, rest') := productLoop f depth rest in
            Ok (combProduct (first :: children), rest')
          else Ok (first, rest)
      end
  end
with productLoop (fuel : nat) (depth : nat) (toks : list str)
    : res CombError (list combNode * list str) :=
  match fuel with
  | O => Err OutOfFuel
  | S f =>
      match toks with
      | [] => Ok ([], [])
      | t :: rest =>
          if bool_decide (t = tok_star) then
            let? (next, rest1) := parseCombElement f depth rest in
            let? (children, rest2) := productLoop f depth rest1 in
            Ok (next :: children, rest2)
          else Ok ([], toks)
      end
  end
with parseCombElement (fuel : nat) (depth : nat) (toks : list str)
    : res CombError (combNode * list str) :=
  match fuel with
  | O => Err OutOfFuel
  | S f =>
      match toks with
      | [] => Err UnexpectedEnd
      | name :: rest =>
          if bool_decide (name = tok_open) then parseAssocGroup f depth toks
          else if isIdentifier name then Ok (combIdent name, rest)
          else Err (ExpectedName name)
      end
  end
with parseAssocGroup (fuel : nat) (depth : nat) (toks : list str)
    : res CombError (combNode * list str) :=
  match fuel with
  | O => Err OutOfFuel
  | S f =>
      if (maxCombDepth <? S depth)%nat then Err NestedTooDeeply
      else
        let? (children, rest) := groupLoop f (S depth) (tail toks) in
        if (length children <? 2)%nat then Err AssocTooFew
        else Ok (combAssoc children, rest)
  end
with groupLoop (fuel : nat) (depth : nat) (toks : list str)
    : res CombError (list combNode * list str) :=
  match fuel with
  | O => Err OutOfFuel
  | S f =>
      match toks with
      | [] => Err UnclosedParen
      | t :: _ =>
          if bool_decide (t = tok_close) || bool_decide (t = tok_comma)
          then Err (ExpectedExprInGroup t)
          else
            let? (child, rest) := parseExpr f depth toks in
            match rest with
            | [] => Err UnclosedParen
            | next :: rest1 =>
                if bool_decide (next = tok_close) then Ok ([child], rest1)
                else if bool_decide (next = tok_comma) then
                  let? (children, rest2) := groupLoop f depth rest1 in
                  Ok (child :: children, rest2)
                else Err (ExpectedCommaOrParen next)
            end
      end
  end.

(** Four calls at most between two consumed tokens. *)
Definition parseFuel (toks : list str) : nat := (4 * length toks + 5)%nat.

Definition parseCombinationExpr (expr : str) : res CombError combNode :=
  let toks := tokenizeComb expr in
  let? (node, rest) := parseExpr (parseFuel toks) 0 toks in
  match rest with
  | [] => Ok node
  | t :: _ => Err (UnexpectedToken t (length toks - length rest)%nat)
  end.

Fixpoint collectIdents (node : combNode) : list str :=
  match node with
  | combIdent n => [n]
  | combProduct cs => concat (map collectIdents cs)
  | combAssoc cs => concat (map collectIdents cs)
  end.

Definition combinationIdentifiers (expr : str) : res CombError (list str * combNode) :=
  let? tree := parseCombinationExpr expr in
  Ok (collectIdents tree, tree).

(** ** Counting *)

Definition maxTasksPerStep : Z := 1000000.
Definition maxTasksPerJob : Z := maxTasksPerStep.

Definition mulSaturate (a b : Z) : option Z :=
  if (a =? 0) || (b =? 0) then Some 0
  else
    let product := wrap64 (a * b) in
    if negb (Z.quot product b =? a) then None else Some product.

(** The loop over the children of a product; it stops as soon as the running
    product passes the cap. *)
Definition countProduct (count : combNode → option Z) : Z → list combNode → option Z :=
  fix loop total cs :=
    match cs with
    | [] => Some total
    | child :: cs' =>
        match count child with
        | None => None
        | Some c =>
            match mulSaturate total c with
            | None => None
            | Some total' =>
                if total' >? maxTasksPerStep then Some total' else loop total' cs'
            end
        end
    end.

(** [None] is the result [(0, false)]. *)
Fixpoint countCombNode (node : combNode) (values : gmap str (list str)) : option Z :=
  match node with
  | combIdent n => Some (Z.of_nat (length (default [] (values !! n))))
  | combProduct children => countProduct (λ c, countCombNode c values) 1 children
  | combAssoc children =>
      match children with
      | [] => Some 0
      | c :: _ => countCombNode c values
      end
  end.

(** ** Evaluation *)

Inductive EvalError :=
  | Undeclared (name : str)
  | LengthMismatch (n : nat) (i : nat) (m : nat).

Definition evalIdent (name : str) (values : gmap str (list str))
    : res EvalError (list TaskParams) :=
  match values !! name with
  | None => Err (Undeclared name)
  | Some vals => Ok ((λ v, {[name := v]}) <$> vals)
  end.

(** [maps.Copy(merged, ra); maps.Copy(merged, rb)]: the later copy wins. *)
Definition cartesianProduct (a b : list TaskParams) : list TaskParams :=
  concat (map (λ ra, map (λ rb : TaskParams, rb ∪ ra) b) a).

(** The first group whose length is not [n]; [i] is its index. *)
Fixpoint findMismatch (n i : nat) (groups : list (list TaskParams)) : option (nat * nat) :=
  match groups with
  | [] => None
  | g :: gs => if (length g =? n)%nat then findMismatch n (S i) gs else Some (i, length g)
  end.

Definition mergeAt (groups : list (list TaskParams)) (i : nat) : TaskParams :=
  foldl (λ (merged : TaskParams) g, nth i g ∅ ∪ merged) ∅ groups.

Definition zipRows (groups : list (list TaskParams)) : res EvalError (list TaskParams) :=
  match groups with
  | [] => Ok []
  | g0 :: gs =>
      let n := length g0 in
      match findMismatch n 1 gs with
      | Some (i, m) => Err (LengthMismatch n i m)
      | None => Ok (mergeAt groups <$> seq 0 n)
      end
  end.

(** The loops over the children; an error ends them. *)
Definition evalProduct (eval : combNode → res EvalError (list TaskParams))
    : list TaskParams → list combNode → res EvalError (list TaskParams) :=
  fix loop result cs :=
    match cs with
    | [] => Ok result
    | child :: cs' =>
        let? childRows := eval child in
        loop (cartesianProduct result childRows) cs'
    end.

Definition evalChildren (eval : combNode → res EvalError (list TaskParams))
    : list combNode → res EvalError (list (list TaskParams)) :=
  fix loop cs :=
    match cs with
    | [] => Ok []
    | child :: cs' =>
        let? rows := eval child in
        let? rest := loop cs' in
        Ok (rows :: rest)
    end.

Fixpoint evalCombNode (node : combNode) (values : gmap str (list str))
    : res EvalError (list TaskParams) :=
  match node with
  | combIdent n => evalIdent n values
  | combProduct children => evalProduct (λ c, evalCombNode c values) [∅] children
  | combAssoc children =>
      let? childResults := evalChildren (λ c, evalCombNode c values) children in
      zipRows childResults
  end.

(** ** Task parameters *)

Inductive TaskParamType :=
  | TaskParamTypeInt | TaskParamTypeFloat | TaskParamTypeString | TaskParamTypePath
  | TaskParamTypeChunkInt | TaskParamTypeOther (name : str).

Record TaskChunks := mkTaskChunks {
  DefaultTaskCount : Z;
  TargetRuntimeSeconds : option Z;
  DefaultTaskCountExpr : option str;
  TargetRuntimeSecondsExpr : option str;
  RangeConstraint : str;
}.

Record TaskParamDefinition := mkTaskParam {
  ParamName : str;
  ParamType : TaskParamType;
  ParamRangeExpr : option str;
  ParamRangeList : list str;
  ParamChunks : option TaskChunks;
}.

Record StepParameterSpace := mkSpace {
  TaskParameterDefinitions : list TaskParamDefinition;
  Combination : option str;
}.

Inductive ParamError :=
  | ParamRange (e : RangeExprError)
  | ParamListEmpty
  | ParamInvalidInteger (s : str)
  | ParamInvalidFloat (s : str)
  | ParamUnresolvedCount (expr : str)
  | ParamNoValues
  | ParamUnknownType (name : str).

Fixpoint validateInts (items : list str) : res ParamError (list Z) :=
  match items with
  | [] => Ok []
  | s :: rest =>
      match Atoi (TrimSpace s) with
      | None => Err (ParamInvalidInteger s)
      | Some n => let? ns := validateInts rest in Ok (n :: ns)
      end
  end.

Definition validateIntList (items : list str) : res ParamError (list str) :=
  match items with
  | [] => Err ParamListEmpty
  | _ => let? ns := validateInts items in Ok (Itoa <$> ns)
  end.

Definition expandChunkInt (tp : TaskParamDefinition) : res ParamError (list str) :=
  match ParamChunks tp ≫= DefaultTaskCountExpr with
  | Some e => Err (ParamUnresolvedCount e)
  | None =>
      let? all :=
        match ParamRangeExpr tp with
        | Some e =>
            match parseIntRangeExpr e with Ok l => Ok l | Err e => Err (ParamRange e) end
        | None => validateInts (ParamRangeList tp)
        end in
      match all with
      | [] => Err ParamNoValues
      | _ =>
          let '(chunkSize, contiguous) :=
            match ParamChunks tp with
            | None => (1, true)
            | Some ch =>
                (if DefaultTaskCount ch >? 0 then DefaultTaskCount ch else 1,
                 negb (bool_decide (RangeConstraint ch = of_string "NONCONTIGUOUS")))
            end in
          Ok (chunkValues all chunkSize contiguous)
      end
  end.

Inductive ExpandError :=
  | ExpandParam (name : str) (e : ParamError)
  | ExpandCombination (e : CombError)
  | ExpandEval (e : EvalError)
  | TooManyTasks
  | JobTooManyTasks (total : Z).

(** [jobTaskBudget.charge]; [None] is the nil budget.  The total is updated
    even when the charge is refused. *)
Definition charge (b : option Z) (count : Z) : option Z * res ExpandError unit :=
  match b with
  | None => (None, Ok tt)
  | Some total =>
      let total' := wrap64 (total + count) in
      (Some total',
       if total' >? maxTasksPerJob then Err (JobTooManyTasks total') else Ok tt)
  end.

Section Expand.
(** The canonical form of a decimal floating-point literal:
    [strconv.FormatFloat] of [strconv.ParseFloat], [None] on a syntax
    error. *)
Context (canonFloat : str → option str).

Fixpoint canonFloats (items : list str) : res ParamError (list str) :=
  match items with
  | [] => Ok []
  | s :: rest =>
      match canonFloat (TrimSpace s) with
      | None => Err (ParamInvalidFloat s)
      | Some f => let? fs := canonFloats rest in Ok (f :: fs)
      end
  end.

Definition validateFloatList (items : list str) : res ParamError (list str) :=
  match items with
  | [] => Err ParamListEmpty
  | _ => canonFloats items
  end.

Definition expandTaskParam (tp : TaskParamDefinition) : res ParamError (list str) :=
  match ParamType tp with
  | TaskParamTypeInt =>
      match ParamRangeExpr tp with
      | Some e =>
          match parseIntRangeExpr e with
          | Ok ints => Ok (Itoa <$> ints)
          | Err e => Err (ParamRange e)
          end
      | None => validateIntList (ParamRangeList tp)
      end
  | TaskParamTypeChunkInt => expandChunkInt tp
  | TaskParamTypeFloat => validateFloatList (ParamRangeList tp)
  | TaskParamTypeString | TaskParamTypePath =>
      match ParamRangeList tp with
      | [] => Err ParamListEmpty
      | l => Ok l
      end
  | TaskParamTypeOther n => Err (ParamUnknownType n)
  end.

(** The map of value lists; a repeated name keeps the last list. *)
Fixpoint paramValuesFrom (values : gmap str (list str)) (tps : list TaskParamDefinition)
    : res ExpandError (gmap str (list str)) :=
  match tps with
  | [] => Ok values
  | tp :: rest =>
      match expandTaskParam tp with
      | Err e => Err (ExpandParam (ParamName tp) e)
      | Ok vals => paramValuesFrom (<[ParamName tp := vals]> values) rest
      end
  end.

(** The rows of a step and the job's budget afterwards. *)
Definition expandParameterSpace (ps : option StepParameterSpace) (jobBudget : option Z)
    : option Z * res ExpandError (list TaskParams) :=
  let one :=
    let '(b, r) := charge jobBudget 1 in
    (b, match r with Ok _ => Ok [∅] | Err e => Err e end) in
  match ps with
  | None => one
  | Some ps =>
      match paramValuesFrom ∅ (TaskParameterDefinitions ps) with
      | Err e => (jobBudget, Err e)
      | Ok paramValues =>
          let expr :=
            match Combination ps with
            | Some e => e
            | None => join ["*"%char] (ParamName <$> TaskParameterDefinitions ps)
            end in
          match expr with
          | [] => one
          | _ =>
              match parseCombinationExpr expr with
              | Err e => (jobBudget, Err (ExpandCombination e))
              | Ok tree =>
                  match countCombNode tree paramValues with
                  | None => (jobBudget, Err TooManyTasks)
                  | Some count =>
                      if count >? maxTasksPerStep then (jobBudget, Err TooManyTasks)
                      else
                        let '(b, r) := charge jobBudget count in
                        match r with
                        | Err e => (b, Err e)
                        | Ok _ =>
                            (b, match evalCombNode tree paramValues with
                                | Ok rows => Ok rows
                                | Err e => Err (ExpandEval e)
                                end)
                        end
                  end
              end
          end
      end
  end.

Definition ExpandParameterSpace (ps : option StepParameterSpace)
    : res ExpandError (list TaskParams) := (expandParameterSpace ps None).2.
End Expand.

(** [<name>.Start] and [<name>.End]: the least and the greatest value of a
    chunk. *)
Definition chunkBounds (ints : list Z) : option (Z * Z) :=
  match ints with
  | [] => None
  | n0 :: rest =>
      Some (foldl (λ '(lo, hi) n, (if n <? lo then n else lo, if n >? hi then n else hi))
              (n0, n0) rest)
  end.

Definition deriveRow (name : str) (row : TaskParams) : TaskParams :=
  match row !! name with
  | None => row
  | Some v =>
      match parseIntRangeExpr v with
      | Err _ => row
      | Ok ints =>
          match chunkBounds ints with
          | None => row
          | Some (lo, hi) =>
              <[name ++ of_string ".End" := Itoa hi]>
                (<[name ++ of_string ".Start" := Itoa lo]> row)
          end
      end
  end.

Definition DeriveChunkBounds (rows : list TaskParams) (ps : option StepParameterSpace)
    : list TaskParams :=
  match ps with
  | None => rows
  | Some ps =>
      foldl (λ rows tp,
        match ParamType tp with
        | TaskParamTypeChunkInt => deriveRow (ParamName tp) <$> rows
        | _ => rows
        end) rows (TaskParameterDefinitions ps)
  end.

(** ** The grammar *)

Section CombInd.
Context (P : combNode → Prop).
Context (Hident : ∀ n, P (combIdent n)).
Context (Hprod : ∀ cs, Forall P cs → P (combProduct cs)).
Context (Hassoc : ∀ cs, Forall P cs → P (combAssoc cs)).

Fixpoint combNode_nested_ind (node : combNode) : P node :=
  let fix all (cs : list combNode) : Forall P cs :=
    match cs with
    | [] => Forall_nil_2 P
    | c :: cs' => Forall_cons_2 P c cs' (combNode_nested_ind c) (all cs')
    end in
  match node with
  | combIdent n => Hident n
  | combProduct cs => Hprod cs (all cs)
  | combAssoc cs => Hassoc cs (all cs)
  end.
End CombInd.

(** The tokens of an expression tree. *)
Fixpoint expr_tokens (node : combNode) : list str :=
  match node with
  | combIdent n => [n]
  | combProduct cs => join [tok_star] (map expr_tokens cs)
  | combAssoc cs => [tok_open] ++ join [tok_comma] (map expr_tokens cs) ++ [tok_close]
  end.

Definition is_product (node : combNode) : bool :=
  match node with combProduct _ => true | _ => false end.

(** The trees of the grammar: products of at least two elements, groups of at
    least two expressions. *)
#[warnings="-register-all"]
Inductive comb_wf : combNode → Prop :=
  | wf_ident n : isIdentifier n = true → comb_wf (combIdent n)
  | wf_product cs : (2 ≤ length cs)%nat →
      Forall (λ c, comb_wf c ∧ is_product c = false) cs → comb_wf (combProduct cs)
  | wf_assoc cs : (2 ≤ length cs)%nat → Forall comb_wf cs → comb_wf (combAssoc cs).

Fixpoint comb_depth (node : combNode) : nat :=
  match node with
  | combIdent _ => 0
  | combProduct cs => list_max (map comb_depth cs)
  | combAssoc cs => S (list_max (map comb_depth cs))
  end.

(** What a successful call of each parsing function says about its tokens. *)
Definition expr_sound (d : nat) (toks : list str) (node : combNode) (rest : list str) : Prop :=
  toks = expr_tokens node ++ rest ∧ comb_wf node ∧ (d + comb_depth node ≤ maxCombDepth)%nat.

Lemma list_max_cons_le x l d :
  (d + x ≤ maxCombDepth)%nat → (d + list_max l ≤ maxCombDepth)%nat →
  (d + list_max (x :: l) ≤ maxCombDepth)%nat.
Proof. cbn [list_max foldr]. change (foldr max 0%nat l) with (list_max l). lia. Qed.

Lemma wf_product_intro c cs d :
  cs ≠ [] → comb_wf c → is_product c = false → (d + comb_depth c ≤ maxCombDepth)%nat →
  Forall (λ c, comb_wf c ∧ is_product c = false) cs →
  (d + list_max (map comb_depth cs) ≤ maxCombDepth)%nat →
  comb_wf (combProduct (c :: cs)) ∧ (d + comb_depth (combProduct (c :: cs)) ≤ maxCombDepth)%nat.
Proof.
  intros Hne Hc Hp Hd Hcs Hds. split.
  - constructor; [destruct cs; [done|cbn; lia]|by constructor].
  - by apply list_max_cons_le.
Qed.

Lemma join_cons {A} (sep : list A) p ps :
  ps ≠ [] → join sep (p :: ps) = p ++ sep ++ join sep ps.
Proof. by destruct ps. Qed.

(** Soundness of the five mutually recursive functions. *)
Lemma parser_sound fuel :
  (∀ d toks node rest, parseExpr fuel d toks = Ok (node, rest) →
     (d ≤ maxCombDepth)%nat → expr_sound d toks node rest) ∧
  (∀ d toks cs rest, productLoop fuel d toks = Ok (cs, rest) → (d ≤ maxCombDepth)%nat →
     toks = concat (map (λ c, tok_star :: expr_tokens c) cs) ++ rest ∧
     Forall (λ c, comb_wf c ∧ is_product c = false) cs ∧
     (d + list_max (map comb_depth cs) ≤ maxCombDepth)%nat ∧ head rest ≠ Some tok_star) ∧
  (∀ d toks node rest, parseCombElement fuel d toks = Ok (node, rest) →
     (d ≤ maxCombDepth)%nat → expr_sound d toks node rest ∧ is_product node = false) ∧
  (∀ d toks node rest, parseAssocGroup fuel d (tok_open :: toks) = Ok (node, rest) →
     (d ≤ maxCombDepth)%nat → expr_sound d (tok_open :: toks) node rest ∧ is_product node = false) ∧
  (∀ d toks cs rest, groupLoop fuel d toks = Ok (cs, rest) → (d ≤ maxCombDepth)%nat →
     toks = join [tok_comma] (map expr_tokens cs) ++ [tok_close] ++ rest ∧ cs ≠ [] ∧
     Forall comb_wf cs ∧ (d + list_max (map comb_depth cs) ≤ maxCombDepth)%nat).
Proof.
  induction fuel as [|f (IHe & IHp & IHel & IHa & IHg)].
  { split_and!; intros; discriminate. }
  split_and!.
  - intros d toks node rest H Hd. cbn [parseExpr] in H. invert_ok. destruct a as [c r].
    apply IHel in Hok as [(-> & Hwf & Hdep) Hnp]; [|done].
    destruct r as [|t r']; [by invert_ok|].
    case_bool_decide as Ht; [|by invert_ok]. invert_ok. destruct a as [cs r''].
    apply IHp in Hok as (Heq & Hcs & Hds & Hhd); [|done]. invert_ok.
    assert (cs ≠ []) as Hne.
    { intros ->. cbn in Heq. by rewrite <- Heq in Hhd. }
    unfold expr_sound. split; [|by apply wf_product_intro].
    rewrite Heq, app_assoc. f_equal. cbn [expr_tokens map].
    rewrite join_cons by by destruct cs. f_equal. clear -Hne.
    induction cs as [|x [|y cs] IH]; [done|cbn; by rewrite app_nil_r|].
    cbn [map concat]. rewrite join_cons by done. cbn [app]. f_equal. f_equal. by apply IH.
  - intros d toks cs rest H Hd. cbn [productLoop] in H.
    destruct toks as [|t toks]; [by invert_ok; cbn; split_and!; [| |lia|]|].
    case_bool_decide as Ht; cycle 1.
    { invert_ok. cbn. split_and!; [done|constructor|lia|congruence]. }
    invert_ok. destruct a as [c r]. invert_ok. destruct a as [cs' r'].
    apply IHel in Hok as [(-> & Hwf & Hdep) Hnp]; [|done].
    apply IHp in Hok0 as (-> & Hcs & Hds & Hhd); [|done]. invert_ok.
    split_and!; [|by constructor|by apply list_max_cons_le|done].
    cbn [map concat]. cbn [app]. by rewrite <- app_assoc.
  - intros d toks node rest H Hd. cbn [parseCombElement] in H.
    destruct toks as [|t toks]; [done|]. case_bool_decide as Ht.
    + subst t. by apply IHa in H.
    + destruct (isIdentifier t) eqn:Hi; [|done]. invert_ok.
      split; [|done]. split_and!; [done|by constructor|cbn; lia].
  - intros d toks node rest H Hd. cbn [parseAssocGroup] in H.
    destruct (maxCombDepth <? S d)%nat eqn:Hmax; [done|]. apply Nat.ltb_ge in Hmax.
    invert_ok. destruct a as [cs r]. cbn [tail] in Hok.
    apply IHg in Hok as (-> & _ & Hwf & Hds); [|done].
    destruct (length cs <? 2)%nat eqn:Hlen; [done|]. apply Nat.ltb_ge in Hlen.
    invert_ok. split; [|done]. split_and!.
    + cbn [expr_tokens app]. by rewrite <- app_assoc.
    + by constructor.
    + cbn [comb_depth]. lia.
  - intros d toks cs rest H Hd. cbn [groupLoop] in H. destruct toks as [|t toks]; [done|].
    destruct (_ || _)%bool eqn:Hbad; [done|]. invert_ok. destruct a as [c r].
    apply IHe in Hok as (Heq & Hwf & Hdep); [|done]. rewrite Heq. clear Heq Hbad t toks.
    destruct r as [|nx r]; [done|]. case_bool_decide as Hclose.
    { invert_ok.
      split_and!; [done|done|by repeat constructor|apply list_max_cons_le; cbn; lia]. }
    case_bool_decide as Hcomma; [|done]. invert_ok. destruct a as [cs' r'].
    apply IHg in Hok as (-> & Hne & Hwfs & Hds); [|done]. invert_ok.
    split_and!; [|done|by constructor|by apply list_max_cons_le].
    cbn [map]. rewrite join_cons by by destruct cs'. by rewrite <- !app_assoc.
Qed.

(** The first token of an expression is a name or an opening parenthesis. *)
Lemma expr_tokens_head node : comb_wf node →
  ∃ t ts, expr_tokens node = t :: ts ∧ t ≠ tok_close ∧ t ≠ tok_comma ∧ t ≠ tok_star ∧
          (t = tok_open ∨ isIdentifier t = true).
Proof.
  induction node as [n|cs IH|cs IH] using combNode_nested_ind; intros Hwf; inversion Hwf; subst.
  - exists n, []. split_and!; [done|..|by right]; intros ->; done.
  - destruct cs as [|c cs]; [cbn in *; lia|].
    apply Forall_cons in IH as [IHc _]. match goal with H : Forall _ _ |- _ =>
      apply Forall_cons in H as [[Hc _] _] end.
    destruct (IHc Hc) as (t & ts & Heq & Hrest). cbn [expr_tokens map].
    destruct cs as [|c' cs]; [cbn in *; lia|]. cbn [map]. rewrite join_cons, Heq by done.
    eauto.
  - exists tok_open, (join [tok_comma] (map expr_tokens cs) ++ [tok_close]). eauto 10.
Qed.

Lemma expr_tokens_nonempty node : comb_wf node → (1 ≤ length (expr_tokens node))%nat.
Proof. intros (t & ts & -> & _)%expr_tokens_head. cbn. lia. Qed.

(** With five rounds of fuel per token no call runs out. *)
Lemma parser_total fuel :
  (∀ d toks, (d ≤ maxCombDepth)%nat → (4 * length toks + 4 ≤ fuel)%nat →
     parseExpr fuel d toks ≠ Err OutOfFuel) ∧
  (∀ d toks, (d ≤ maxCombDepth)%nat → (4 * length toks + 1 ≤ fuel)%nat →
     productLoop fuel d toks ≠ Err OutOfFuel) ∧
  (∀ d toks, (d ≤ maxCombDepth)%nat → (4 * length toks + 3 ≤ fuel)%nat →
     parseCombElement fuel d toks ≠ Err OutOfFuel) ∧
  (∀ d t toks, (d ≤ maxCombDepth)%nat → (4 * length toks + 6 ≤ fuel)%nat →
     parseAssocGroup fuel d (t :: toks) ≠ Err OutOfFuel) ∧
  (∀ d toks, (d ≤ maxCombDepth)%nat → (4 * length toks + 5 ≤ fuel)%nat →
     groupLoop fuel d toks ≠ Err OutOfFuel).
Proof.
  induction fuel as [|f (IHe & IHp & IHel & IHa & IHg)]; [split_and!; intros; lia|].
  destruct (parser_sound f) as (Se & Sp & Sel & Sa & Sg).
  split_and!; intros.
  - cbn [parseExpr]. pose proof (IHel d toks H ltac:(lia)).
    destruct (parseCombElement f d toks) as [[c r]|e] eqn:Hel; cbn; [|congruence].
    apply Sel in Hel as [(-> & Hwf & _) _]; [|done]. pose proof (expr_tokens_nonempty c Hwf).
    rewrite length_app in *. destruct r as [|t r]; [done|]. case_bool_decide; [|done].
    pose proof (IHp d (t :: r) H ltac:(lia)).
    destruct (productLoop f d (t :: r)) as [[? ?]|]; cbn; congruence.
  - cbn [productLoop]. destruct toks as [|t toks]; [done|]. case_bool_decide; [|done].
    cbn [length] in *. pose proof (IHel d toks H ltac:(lia)).
    destruct (parseCombElement f d toks) as [[c r]|e] eqn:Hel; cbn; [|congruence].
    apply Sel in Hel as [(-> & Hwf & _) _]; [|done]. pose proof (expr_tokens_nonempty c Hwf).
    rewrite length_app in *. pose proof (IHp d r H ltac:(lia)).
    destruct (productLoop f d r) as [[? ?]|]; cbn; congruence.
  - cbn [parseCombElement]. destruct toks as [|t toks]; [done|].
    case_bool_decide; [|by destruct (isIdentifier t)]. apply IHa; [done|]. cbn in *; lia.
  - cbn [parseAssocGroup]. destruct (maxCombDepth <? S d)%nat eqn:Hmax; [done|].
    apply Nat.ltb_ge in Hmax. cbn [tail]. pose proof (IHg (S d) toks Hmax ltac:(lia)).
    destruct (groupLoop f (S d) toks) as [[? ?]|]; cbn; [by case_goal|congruence].
  - cbn [groupLoop]. destruct toks as [|t toks]; [done|].
    destruct (_ || _)%bool; [done|]. pose proof (IHe d (t :: toks) H ltac:(lia)).
    destruct (parseExpr f d (t :: toks)) as [[c r]|e] eqn:He; cbn; [|congruence].
    apply Se in He as (Heq & Hwf & _); [|done]. pose proof (expr_tokens_nonempty c Hwf).
    apply (f_equal length) in Heq. rewrite length_app in Heq.
    destruct r as [|nx r]; [done|]. repeat (case_bool_decide; [try done|]); [|done].
    cbn [length] in *. pose proof (IHg d r H ltac:(lia)).
    destruct (groupLoop f d r) as [[? ?]|]; cbn; congruence.
Qed.

(** ** Completeness *)

Definition expr_complete (c : combNode) : Prop :=
  ∀ fuel d rest, (4 * length (expr_tokens c) + 4 ≤ fuel)%nat →
    (d + comb_depth c ≤ maxCombDepth)%nat → head rest ≠ Some tok_star →
    parseExpr fuel d (expr_tokens c ++ rest) = Ok (c, rest).

Definition elem_complete (c : combNode) : Prop :=
  ∀ fuel d rest, (4 * length (expr_tokens c) + 3 ≤ fuel)%nat →
    (d + comb_depth c ≤ maxCombDepth)%nat →
    parseCombElement fuel d (expr_tokens c ++ rest) = Ok (c, rest).

Lemma elem_to_expr c : elem_complete c → expr_complete c.
Proof.
  intros H fuel d rest Hf Hd Hr. destruct fuel as [|f]; [lia|]. cbn [parseExpr].
  rewrite H by lia. cbn [res_bind]. destruct rest as [|t rest]; [done|].
  rewrite bool_decide_false by naive_solver. done.
Qed.

Lemma list_max_cons x l : list_max (x :: l) = Nat.max x (list_max l).
Proof. done. Qed.

Lemma productLoop_complete cs : Forall (λ c, elem_complete c ∧ comb_wf c) cs →
  ∀ fuel d rest,
    (4 * length (concat (map (λ c, tok_star :: expr_tokens c) cs)) + 1 ≤ fuel)%nat →
    (d + list_max (map comb_depth cs) ≤ maxCombDepth)%nat → head rest ≠ Some tok_star →
    productLoop fuel d (concat (map (λ c, tok_star :: expr_tokens c) cs) ++ rest)
    = Ok (cs, rest).
Proof.
  induction 1 as [|c cs [Hc Hwf] Hcs IH]; intros fuel d rest Hf Hd Hr;
    (destruct fuel as [|f]; [lia|]); cbn [productLoop map concat app].
  - destruct rest as [|t rest]; [done|]. rewrite bool_decide_false by naive_solver. done.
  - cbn [map concat] in Hf. cbn [length app] in Hf. rewrite length_app in Hf.
    cbn [map] in Hd. rewrite list_max_cons in Hd.
    rewrite bool_decide_true by done. rewrite <- app_assoc, Hc by lia. cbn [res_bind].
    rewrite IH by (done || lia). done.
Qed.

Lemma groupLoop_complete cs : Forall (λ c, expr_complete c ∧ comb_wf c) cs → cs ≠ [] →
  ∀ fuel d rest,
    (4 * length (join [tok_comma] (map expr_tokens cs)) + 5 ≤ fuel)%nat →
    (d + list_max (map comb_depth cs) ≤ maxCombDepth)%nat →
    groupLoop fuel d (join [tok_comma] (map expr_tokens cs) ++ [tok_close] ++ rest)
    = Ok (cs, rest).
Proof.
  induction 1 as [|c cs [Hc Hwf] Hcs IH]; intros Hne fuel d rest Hf Hd; [done|].
  destruct fuel as [|f]; [lia|]. cbn [groupLoop].
  destruct (expr_tokens_head c Hwf) as (t & ts & Ht & Hn1 & Hn2 & _).
  cbn [map] in *. rewrite list_max_cons in Hd.
  destruct (decide (cs = [])) as [->|Hcs0].
  - cbn [map join] in *. rewrite Ht. cbn [app]. rewrite !bool_decide_false by done. cbn [orb].
    rewrite app_comm_cons, <- Ht, Hc by (done || lia). cbn [res_bind].
    by rewrite bool_decide_true.
  - rewrite join_cons in * by by destruct cs. rewrite !length_app in Hf. cbn [length] in Hf.
    rewrite Ht. cbn [app]. rewrite !bool_decide_false by done. cbn [orb].
    rewrite <- app_assoc, app_comm_cons, <- Ht. cbn [app].
    rewrite Hc by (done || lia). cbn [res_bind].
    rewrite bool_decide_false, bool_decide_true by done.
    change (tok_close :: rest) with ([tok_close] ++ rest). rewrite IH by (done || lia). done.
Qed.

Lemma join_star_concat c cs :
  join [tok_star] (expr_tokens c :: map expr_tokens cs)
  = expr_tokens c ++ concat (map (λ c, tok_star :: expr_tokens c) cs).
Proof.
  revert c. induction cs as [|x cs IH]; intros c; [cbn; by rewrite app_nil_r|].
  cbn [map concat]. rewrite join_cons by done. rewrite IH. done.
Qed.

Lemma parser_complete node : comb_wf node →
  expr_complete node ∧ (is_product node = false → elem_complete node).
Proof.
  induction node as [n|cs IH|cs IH] using combNode_nested_ind; intros Hwf;
    inversion Hwf as [? Hn|? Hlen Hcs|? Hlen Hcs]; subst.
  - assert (He : elem_complete (combIdent n)).
    { intros fuel d rest Hf Hd. destruct fuel as [|f]; [cbn in Hf; lia|].
      cbn [parseCombElement expr_tokens app].
      rewrite bool_decide_false by (intros ->; done). by rewrite Hn. }
    auto using elem_to_expr.
  - split; [|done]. intros fuel d rest Hf Hd Hr.
    assert (Hall : Forall (λ c, elem_complete c ∧ comb_wf c) cs).
    { rewrite Forall_forall in *. intros c Hc. destruct (Hcs c Hc). 
      destruct (IH c Hc) as [_ ?]; auto. }
    destruct cs as [|c cs]; [cbn in Hlen; lia|]. apply Forall_cons in Hall as [[Hc Hw] Hall].
    destruct fuel as [|f]; [lia|]. cbn [parseExpr].
    change (comb_depth _) with (list_max (comb_depth c :: map comb_depth cs)) in Hd.
    change (expr_tokens (combProduct (c :: cs)))
      with (join [tok_star] (expr_tokens c :: map expr_tokens cs)) in *.
    pose proof (expr_tokens_nonempty c Hw). rewrite list_max_cons in Hd.
    rewrite join_star_concat, length_app in *. rewrite <- app_assoc, Hc by lia. cbn [res_bind].
    destruct cs as [|c' cs]; [cbn in Hlen; lia|].
    rewrite productLoop_complete by (done || lia). done.
  - assert (He : elem_complete (combAssoc cs)).
    { intros fuel d rest Hf Hd. cbn [expr_tokens] in *. cbn [app] in *.
      change (comb_depth _) with (S (list_max (map comb_depth cs))) in Hd.
      cbn [length] in Hf. rewrite length_app in Hf.
      destruct fuel as [|[|f]]; [lia..|]. cbn [parseCombElement]. rewrite bool_decide_true by done.
      cbn [parseAssocGroup tail]. rewrite (proj2 (Nat.ltb_ge _ _)) by lia.
      rewrite <- app_assoc, groupLoop_complete.
      - cbn [res_bind]. by rewrite (proj2 (Nat.ltb_ge _ _)) by lia.
      - rewrite Forall_forall in *. intros c Hc. split; [by apply IH; auto|auto].
      - intros ->. cbn in Hlen. lia.
      - cbn [length] in Hf. lia.
      - lia. }
    auto using elem_to_expr.
Qed.

(** ** Tokenising printed text *)

(** The text of a tree: its tokens, written without spaces. *)
Definition expr_text (node : combNode) : str := concat (expr_tokens node).

Lemma isIdentifier_chars s : isIdentifier s = true → s ≠ [] ∧ forallb isIdentChar s = true.
Proof.
  destruct s as [|c s]; [done|]. cbn [isIdentifier forallb]. intros [Hc Hs]%andb_true_iff.
  split; [done|]. rewrite Hs, andb_true_r. unfold isIdentChar.
  repeat (apply orb_true_iff in Hc as [Hc|Hc]); rewrite Hc; rewrite ?orb_true_r; done.
Qed.

Lemma tokenizeFrom_ident cur id s : forallb isIdentChar id = true →
  tokenizeFrom cur (id ++ s) = tokenizeFrom (cur ++ id) s.
Proof.
  revert cur. induction id as [|c id IH]; intros cur; cbn [app forallb]; [by rewrite app_nil_r|].
  intros [Hc Hid]%andb_true_iff. cbn [tokenizeFrom]. rewrite Hc, IH by done.
  by rewrite <- app_assoc.
Qed.

(** A suffix that cannot extend an identifier. *)
Definition stops (s : str) : Prop :=
  match s with [] => True | c :: _ => isIdentChar c = false end.

Lemma tokenizeFrom_flush cur s : stops s →
  tokenizeFrom cur s = flush cur ++ tokenizeFrom [] s.
Proof. destruct s as [|c s]; cbn; [by rewrite app_nil_r|]. by intros ->. Qed.

Definition tokenizes (toks : list str) : Prop :=
  ∀ s, stops s → tokenizeFrom [] (concat toks ++ s) = toks ++ tokenizeFrom [] s.

Lemma tokenizes_punct c s : c ∈ ["*"; "("; ")"; ","]%char →
  stops (c :: s) ∧ tokenizeFrom [] (c :: s) = [c] :: tokenizeFrom [] s.
Proof.
  intros Hc. split.
  - cbn. repeat (apply elem_of_cons in Hc as [->|Hc]; [done|]). by apply elem_of_nil in Hc.
  - cbn [tokenizeFrom]. repeat (apply elem_of_cons in Hc as [->|Hc]; [done|]).
    by apply elem_of_nil in Hc.
Qed.

Lemma tokenizes_join sep parts : sep ∈ ["*"; "("; ")"; ","]%char →
  Forall tokenizes parts → tokenizes (join [[sep]] parts).
Proof.
  intros Hsep. induction 1 as [|p parts Hp Hparts IH]; [by intros s _|].
  destruct parts as [|q parts]; [done|]. intros s Hs.
  rewrite join_cons by done. rewrite !concat_app, <- !app_assoc.
  cbn [concat]. rewrite app_nil_r. cbn [app].
  destruct (tokenizes_punct sep (concat (join [[sep]] (q :: parts)) ++ s) Hsep) as [Hst Heq].
  rewrite Hp by done. rewrite Heq, IH by done. done.
Qed.

Lemma expr_tokenizes node : comb_wf node → tokenizes (expr_tokens node).
Proof.
  induction node as [n|cs IH|cs IH] using combNode_nested_ind; intros Hwf;
    inversion Hwf as [? Hn|? Hlen Hcs|? Hlen Hcs]; subst; cbn [expr_tokens].
  - intros s Hs. destruct (isIdentifier_chars n Hn) as [Hne Hall].
    cbn [concat]. rewrite app_nil_r, tokenizeFrom_ident by done. cbn [app].
    rewrite tokenizeFrom_flush by done. by destruct n.
  - apply tokenizes_join; [set_solver|]. apply Forall_fmap. rewrite Forall_forall in *.
    intros c Hc. destruct (Hcs c Hc). by apply IH.
  - intros s Hs. cbn [app].
    assert (Hj : tokenizes (join [tok_comma] (map expr_tokens cs))).
    { apply tokenizes_join; [set_solver|]. apply Forall_fmap. rewrite Forall_forall in *. auto. }
    assert (Htxt : concat (tok_open :: join [tok_comma] (map expr_tokens cs) ++ [tok_close]) ++ s
      = "("%char :: concat (join [tok_comma] (map expr_tokens cs)) ++ ")"%char :: s).
    { cbn [concat]. rewrite concat_app. cbn. by rewrite <- app_assoc. }
    rewrite Htxt.
    destruct (tokenizes_punct "(" (concat (join [tok_comma] (map expr_tokens cs)) ++ ")"%char :: s))
      as [_ ->]; [set_solver|].
    destruct (tokenizes_punct ")" s) as [Hst Heq]; [set_solver|].
    rewrite Hj, Heq by done. unfold tok_open, tok_close. by rewrite <- app_assoc.
Qed.

Lemma tokenize_text node : comb_wf node → tokenizeComb (expr_text node) = expr_tokens node.
Proof.
  intros Hwf. unfold tokenizeComb, expr_text.
  pose proof (expr_tokenizes node Hwf [] I) as H. rewrite !app_nil_r in H. exact H.
Qed.

Lemma parseCombinationExpr_iff expr node :
  parseCombinationExpr expr = Ok node ↔
  tokenizeComb expr = expr_tokens node ∧ comb_wf node ∧ (comb_depth node ≤ maxCombDepth)%nat.
Proof.
  unfold parseCombinationExpr. set (toks := tokenizeComb expr). split.
  - intros H. invert_ok. destruct a as [n r]. destruct r; [|done]. invert_ok.
    destruct (parser_sound (parseFuel toks)) as [Se _].
    apply Se in Hok as (Heq & Hwf & Hd); [|unfold maxCombDepth; lia].
    rewrite app_nil_r in Heq. done.
  - intros (Heq & Hwf & Hd). destruct (parser_complete node Hwf) as [Hc _].
    pose proof (Hc (parseFuel toks) 0%nat [] ltac:(rewrite Heq; unfold parseFuel; lia) Hd ltac:(done)) as Hp.
    rewrite app_nil_r, <- Heq in Hp. by rewrite Hp.
Qed.

Lemma parseCombinationExpr_no_fuel expr : parseCombinationExpr expr ≠ Err OutOfFuel.
Proof.
  unfold parseCombinationExpr. set (toks := tokenizeComb expr).
  destruct (parser_total (parseFuel toks)) as [Ht _].
  specialize (Ht 0%nat toks ltac:(unfold maxCombDepth; lia) ltac:(unfold parseFuel; lia)).
  destruct (parseExpr _ _ _) as [[n r]|e]; cbn; [by destruct r|congruence].
Qed.

(** ** Counting *)

Lemma mulSaturate_spec a b : 0 ≤ a ≤ MaxInt → 0 ≤ b ≤ MaxInt →
  mulSaturate a b = if decide (a * b ≤ MaxInt) then Some (a * b) else None.
Proof.
  intros Ha Hb. unfold mulSaturate.
  destruct (Z.eqb_spec a 0) as [->|Ha0]; [by rewrite decide_True by zint|].
  destruct (Z.eqb_spec b 0) as [->|Hb0]; [rewrite Z.mul_0_r, decide_True by zint; done|].
  cbn [orb]. case_decide as Hm.
  - rewrite wrap64_id by (zint; nia). rewrite Z.quot_mul by done. by rewrite Z.eqb_refl.
  - destruct (wrap64_decomp (a * b)) as [k Hk]. pose proof (wrap64_range (a * b)) as Hr.
    destruct (Z.eqb_spec (Z.quot (wrap64 (a * b)) b) a) as [Hq|]; [|done]. exfalso.
    pose proof (Z.quot_rem' (wrap64 (a * b)) b) as Hqr. rewrite Hq in Hqr.
    pose proof (rem_bounds (wrap64 (a * b)) b ltac:(lia)). zint.
Qed.

Lemma length_cartesianProduct a b :
  length (cartesianProduct a b) = (length a * length b)%nat.
Proof.
  unfold cartesianProduct. induction a as [|r a IH]; [done|].
  cbn [map concat]. rewrite length_app, length_map, IH. done.
Qed.

Lemma findMismatch_none n i groups :
  findMismatch n i groups = None ↔ Forall (λ g, length g = n) groups.
Proof.
  revert i. induction groups as [|g gs IH]; intros i; cbn; [by split; [constructor|]|].
  rewrite Forall_cons, <- (IH (S i)). destruct (Nat.eqb_spec (length g) n); naive_solver.
Qed.

Lemma zipRows_ok groups rows : groups ≠ [] → zipRows groups = Ok rows →
  Forall (λ g, length g = length rows) groups ∧ rows = mergeAt groups <$> seq 0 (length rows).
Proof.
  destruct groups as [|g gs]; [done|]. intros _. cbn [zipRows].
  destruct (findMismatch _ _ _) as [[i m]|] eqn:Hf; [done|]. intros H.
  apply findMismatch_none in Hf. injection H as <-.
  rewrite length_fmap, length_seq. split; [by constructor|done].
Qed.

Lemma evalChildren_ok eval cs gs : evalChildren eval cs = Ok gs →
  Forall2 (λ c g, eval c = Ok g) cs gs.
Proof.
  revert gs. induction cs as [|c cs IH]; cbn; intros gs H; invert_ok; constructor; auto.
Qed.

(** Every declared value list is non-empty and has a machine length. *)
Definition values_ok (values : gmap str (list str)) : Prop :=
  ∀ n l, values !! n = Some l → l ≠ [] ∧ Z.of_nat (length l) ≤ MaxInt.

(** The count [c] describes [n] rows as far as the cap can tell. *)
Definition counts (c : option Z) (n : nat) : Prop :=
  (1 ≤ n)%nat ∧
  match c with
  | Some k => 0 ≤ k ≤ MaxInt ∧ k ≤ Z.of_nat n ∧ (k ≤ maxTasksPerStep → k = Z.of_nat n)
  | None => MaxInt < Z.of_nat n
  end.

Lemma countProduct_spec (count : combNode → option Z) eval cs :
  Forall (λ c, ∀ rows, eval c = Ok rows → counts (count c) (length rows)) cs →
  ∀ total acc rows, evalProduct eval acc cs = Ok rows →
    Z.of_nat (length acc) = total → 1 ≤ total ≤ maxTasksPerStep →
    counts (countProduct count total cs) (length rows).
Proof.
  unfold maxTasksPerStep.
  induction 1 as [|c cs Hc Hcs IH]; cbn; intros total acc rows Hev Hacc Ht; unfold maxTasksPerStep in *.
  { invert_ok. unfold counts, maxTasksPerStep. zint. }
  invert_ok. rename a into cr. specialize (Hc cr Hok) as [Hn Hc].
  assert (Hgrow : ∀ acc, (1 ≤ length acc)%nat → evalProduct eval acc cs = Ok rows →
    (length acc ≤ length rows)%nat).
  { clear -Hcs. revert rows. induction Hcs as [|c cs Hc Hcs IH]; cbn; intros rows acc Ha He;
      invert_ok; [done|]. destruct (Hc _ Hok) as [Hn _].
    etransitivity; [|apply IH in He; [exact He|]]; rewrite length_cartesianProduct; nia. }
  pose proof (Hgrow (cartesianProduct acc cr)) as Hg. rewrite length_cartesianProduct in Hg.
  specialize (Hg ltac:(nia) Hev).
  destruct (count c) as [k|].
  2: { unfold counts. split; [lia|]. zint; nia. }
  destruct Hc as (Hk & Hkle & Hkeq). rewrite mulSaturate_spec by zint.
  case_decide as Hfit.
  2: { unfold counts. split; [lia|]. nia. }
  rewrite Z.gtb_ltb. destruct (Z.ltb_spec 1000000 (total * k)).
  - unfold counts, maxTasksPerStep. split; [lia|]. nia.
  - assert (k ≤ 1000000) by nia.
    apply (IH (total * k) (cartesianProduct acc cr)); [done| |].
    + rewrite length_cartesianProduct, Nat2Z.inj_mul, Hacc, <- Hkeq by done. done.
    + rewrite (Hkeq ltac:(done)) in *. nia.
Qed.

Lemma countCombNode_spec node values rows :
  comb_wf node → values_ok values → evalCombNode node values = Ok rows →
  counts (countCombNode node values) (length rows).
Proof.
  intros Hwf Hv. revert rows.
  induction node as [n|cs IH|cs IH] using combNode_nested_ind; intros rows He;
    inversion Hwf as [? Hn|? Hlen Hcs|? Hlen Hcs]; subst.
  - cbn in *. unfold evalIdent in He. destruct (values !! n) as [l|] eqn:Hl; [|done].
    invert_ok. destruct (Hv n l Hl) as [Hne Hb]. cbn. rewrite length_fmap. unfold counts.
    destruct l; [done|]. cbn [length] in *. lia.
  - cbn in *. apply (countProduct_spec _ (λ c, evalCombNode c values) _) with (acc := [∅]);
      [|done|done|unfold maxTasksPerStep; lia].
    rewrite Forall_forall in *. intros c Hc rs Hrs. destruct (Hcs c Hc). by apply IH.
  - cbn in He. invert_ok. rename a into gs. apply evalChildren_ok in Hok.
    destruct cs as [|c cs]; [cbn in Hlen; lia|]. inversion Hok as [|? g ? gs' Hg Hgs]; subst.
    apply zipRows_ok in He as [Hl _]; [|done]. apply Forall_cons in Hl as [Hl _].
    apply Forall_cons in IH as [IHc _]. apply Forall_cons in Hcs as [Hwc _].
    cbn [countCombNode]. rewrite <- Hl. by apply IHc.
Qed.

(** ** Expansion of one parameter *)

Lemma consecutiveRunsFrom_cover run prev rest : run ≠ [] →
  mjoin (consecutiveRunsFrom run prev rest) = run ++ rest ∧
  Forall (λ r, r ≠ []) (consecutiveRunsFrom run prev rest).
Proof.
  revert run prev. induction rest as [|v rest IH]; intros run prev Hne; cbn [consecutiveRunsFrom].
  - split; [done|]. by repeat constructor.
  - destruct (v =? _).
    + destruct (IH (run ++ [v]) v) as [Hj Hf]; [by destruct run|].
      rewrite Hj, <- app_assoc. done.
    + destruct (IH [v] v) as [Hj Hf]; [done|]. split; [|by constructor].
      change (run ++ mjoin (consecutiveRunsFrom [v] v rest) = run ++ v :: rest). by rewrite Hj.
Qed.

Lemma length_le_mjoin {A} (cs : list (list A)) :
  Forall (λ c, c ≠ []) cs → (length cs ≤ length (mjoin cs))%nat.
Proof.
  induction 1 as [|c cs Hc Hcs IH]; [done|].
  change (mjoin (c :: cs)) with (c ++ mjoin cs). rewrite length_app. cbn [length].
  destruct c; [done|]. cbn [length]. lia.
Qed.

(** There is at least one chunk and at most one per value. *)
Lemma chunkValues_length all size contiguous : all ≠ [] → 1 ≤ size →
  (1 ≤ length (chunkValues all size contiguous) ≤ length all)%nat.
Proof.
  intros Hne Hs. unfold chunkValues, chunkGroups. rewrite length_fmap.
  set (runs := if contiguous then consecutiveRuns all else [all]).
  assert (Hruns : mjoin runs = all ∧ Forall (λ r, r ≠ []) runs).
  { unfold runs. destruct contiguous; [|split; [apply app_nil_r|by repeat constructor]].
    destruct all as [|v rest]; [done|]. by apply consecutiveRunsFrom_cover. }
  clearbody runs. destruct Hruns as [Hj Hf].
  assert (Hj2 : mjoin (mjoin (chunkRun size <$> runs)) = all).
  { rewrite (mjoin_mjoin_map _ id), list_fmap_id; [done|].
    eapply Forall_impl; [done|]. cbn. intros r Hr. by apply chunkRun_spec. }
  assert (Hne2 : Forall (λ c, c ≠ []) (mjoin (chunkRun size <$> runs))).
  { apply Forall_forall. intros c (cs & Hc & (r & -> & Hr)%list_elem_of_fmap)%list_elem_of_join.
    rewrite Forall_forall in Hf. destruct (chunkRun_spec size r (Hf r Hr) Hs) as (_ & _ & b & Hb & Hl).
    rewrite Forall_forall in Hl. specialize (Hl c Hc). intros ->. cbn in Hl. lia. }
  split.
  - destruct (mjoin (chunkRun size <$> runs)); [by rewrite <- Hj2 in Hne|cbn; lia].
  - rewrite <- Hj2. by apply length_le_mjoin.
Qed.

Lemma validateInts_length items ns : validateInts items = Ok ns → length ns = length items.
Proof.
  revert ns. induction items as [|s items IH]; cbn; intros ns H; [by invert_ok|].
  destruct (Atoi _); [|done]. invert_ok. cbn. f_equal. auto.
Qed.

Lemma parseIntRangeExpr_length e vs : parseIntRangeExpr e = Ok vs →
  vs ≠ [] ∧ Z.of_nat (length vs) ≤ maxRangeValues.
Proof.
  intros (ranges & _ & Hok & Hb & -> & Hne)%parseIntRangeExpr_inv. split; [done|].
  pose proof (length_iterate_all ranges Hok Hb).
  destruct (length_first_seen (mjoin (Iterate <$> ranges))). lia.
Qed.

Definition list_fits (tp : TaskParamDefinition) : Prop :=
  Z.of_nat (length (ParamRangeList tp)) ≤ MaxInt.

Section ExpandProofs.
Context (canonFloat : str → option str).

Lemma canonFloats_length items fs :
  canonFloats canonFloat items = Ok fs → length fs = length items.
Proof.
  revert fs. induction items as [|s items IH]; cbn; intros fs H; [by invert_ok|].
  destruct (canonFloat _); [|done]. invert_ok. cbn. f_equal. auto.
Qed.

Lemma expandChunkInt_ok tp vals : list_fits tp → expandChunkInt tp = Ok vals →
  vals ≠ [] ∧ Z.of_nat (length vals) ≤ MaxInt.
Proof.
  intros Hfit H. unfold expandChunkInt in H.
  destruct (_ ≫= _); [done|]. invert_ok. rename a into all.
  assert (Hall : Z.of_nat (length all) ≤ MaxInt).
  { destruct (ParamRangeExpr tp) as [e|].
    - destruct (parseIntRangeExpr e) eqn:Hp; [|done]. invert_ok.
      apply parseIntRangeExpr_length in Hp as [_ Hp]. unfold maxRangeValues in Hp. zint.
    - apply validateInts_length in Hok. rewrite Hok. exact Hfit. }
  destruct all as [|v all]; [done|].
  match type of H with (let '(_, _) := ?x in _) = _ => destruct x as [size cont] eqn:Hx end.
  invert_ok.
  assert (Hs : 1 ≤ size).
  { destruct (ParamChunks tp) as [ch|]; injection Hx as <- _; [|lia].
    rewrite Z.gtb_ltb. destruct (Z.ltb_spec 0 (DefaultTaskCount ch)); lia. }
  pose proof (chunkValues_length (v :: all) size cont ltac:(done) Hs).
  split; [|lia]. intros Hnil. rewrite Hnil in *. cbn in *. lia.
Qed.

Lemma expandTaskParam_ok tp vals : list_fits tp → expandTaskParam canonFloat tp = Ok vals →
  vals ≠ [] ∧ Z.of_nat (length vals) ≤ MaxInt.
Proof.
  intros Hfit H. unfold expandTaskParam in H. unfold list_fits in Hfit. destruct (ParamType tp).
  - destruct (ParamRangeExpr tp) as [e|].
    + destruct (parseIntRangeExpr e) as [l|] eqn:Hp; [|done]. invert_ok.
      apply parseIntRangeExpr_length in Hp as [Hne Hp]. unfold maxRangeValues in Hp.
      rewrite length_fmap. split; [by destruct l|zint].
    + unfold validateIntList in H. destruct (ParamRangeList tp) as [|s l] eqn:Hl; [done|].
      invert_ok. apply validateInts_length in Hok. rewrite length_fmap, Hok.
      split; [by destruct a|done].
  - unfold validateFloatList in H. destruct (ParamRangeList tp) as [|s l]; [done|].
    apply canonFloats_length in H. rewrite H. split; [by destruct vals|done].
  - destruct (ParamRangeList tp) as [|s l]; [done|]. by invert_ok.
  - destruct (ParamRangeList tp) as [|s l]; [done|]. by invert_ok.
  - eauto using expandChunkInt_ok.
  - done.
Qed.

Lemma paramValuesFrom_ok tps values values' :
  Forall list_fits tps → values_ok values →
  paramValuesFrom canonFloat values tps = Ok values' → values_ok values'.
Proof.
  intros Hfit. revert values. induction Hfit as [|tp tps Htp Htps IH]; cbn; intros values Hv H.
  { by invert_ok. }
  destruct (expandTaskParam canonFloat tp) as [vals|] eqn:He; [|done].
  apply IH in H; [done|]. intros n l Hl.
  destruct (decide (ParamName tp = n)) as [<-|Hne].
  - rewrite lookup_insert_eq in Hl. injection Hl as <-. by eapply expandTaskParam_ok.
  - rewrite lookup_insert_ne in Hl by done. eauto.
Qed.
End ExpandProofs.

(** ** The content of the rows *)

(** A row assigns to exactly the names [ids] one of their declared values. *)
Definition row_of (values : gmap str (list str)) (ids : list str) (row : TaskParams) : Prop :=
  (∀ n, is_Some (row !! n) ↔ n ∈ ids) ∧
  (∀ n v, row !! n = Some v → ∃ l, values !! n = Some l ∧ v ∈ l).

Lemma row_of_empty values : row_of values [] ∅.
Proof.
  split; intros n; [|by rewrite lookup_empty].
  rewrite lookup_empty. split; [by intros [? ?]|by intros ?%elem_of_nil].
Qed.

Lemma row_of_union (values : gmap str (list str)) (ids1 ids2 : list str) (r1 r2 : TaskParams) :
  row_of values ids1 r1 → row_of values ids2 r2 → row_of values (ids1 ++ ids2) (r2 ∪ r1).
Proof.
  intros [D1 V1] [D2 V2]. split.
  - intros n. rewrite lookup_union, elem_of_app, <- D1, <- D2.
    destruct (r1 !! n), (r2 !! n); cbn; rewrite ?is_Some_alt; naive_solver eauto.
  - intros n v. rewrite lookup_union_Some_raw. intros [H|[_ H]]; eauto.
Qed.

Lemma evalProduct_rows (values : gmap str (list str)) eval cs :
  Forall (λ c, ∀ rows, eval c = Ok rows → Forall (row_of values (collectIdents c)) rows) cs →
  ∀ acc ids rows, Forall (row_of values ids) acc → evalProduct eval acc cs = Ok rows →
    Forall (row_of values (ids ++ concat (map collectIdents cs))) rows.
Proof.
  induction 1 as [|c cs Hc Hcs IH]; cbn; intros acc ids rows Hacc He.
  { invert_ok. by rewrite app_nil_r. }
  invert_ok. specialize (Hc _ Hok). rewrite app_assoc. eapply IH; [|done].
  unfold cartesianProduct. apply Forall_forall. intros r Hr.
  rewrite list_elem_of_In, in_concat in Hr. destruct Hr as (l & Hl & Hr).
  apply in_map_iff in Hl as (ra & <- & Hra). apply in_map_iff in Hr as (rb & <- & Hrb).
  rewrite <- list_elem_of_In in Hra, Hrb. rewrite Forall_forall in Hacc, Hc.
  apply row_of_union; auto.
Qed.

Lemma mergeAt_rows (values : gmap str (list str)) (cs : list combNode)
    (gs : list (list TaskParams)) (i : nat) (ids : list str) (m : TaskParams) :
  Forall2 (λ c g, Forall (row_of values (collectIdents c)) g ∧ (i < length g)%nat) cs gs →
  row_of values ids m →
  row_of values (ids ++ concat (map collectIdents cs))
    (foldl (λ (merged : TaskParams) g, nth i g ∅ ∪ merged) m gs).
Proof.
  intros H. revert m ids. induction H as [|c g cs gs [Hg Hi] Hrest IH]; intros m ids Hm; cbn.
  { by rewrite app_nil_r. }
  rewrite app_assoc. apply IH, row_of_union; [done|].
  rewrite Forall_forall in Hg. apply Hg. rewrite list_elem_of_In. by apply nth_In.
Qed.

Lemma evalCombNode_rows node values rows :
  comb_wf node → evalCombNode node values = Ok rows →
  Forall (row_of values (collectIdents node)) rows.
Proof.
  intros Hwf. revert rows.
  induction node as [n|cs IH|cs IH] using combNode_nested_ind; intros rows He;
    inversion Hwf as [? Hn|? Hlen Hcs|? Hlen Hcs]; subst; cbn in He.
  - unfold evalIdent in He. destruct (values !! n) as [l|] eqn:Hl; [|done]. invert_ok.
    apply Forall_fmap, Forall_forall. intros v Hv. split; cbn.
    + intros m. rewrite lookup_singleton_is_Some, list_elem_of_singleton. done.
    + intros m w [<- <-]%lookup_singleton_Some. by exists l.
  - apply (evalProduct_rows values) with (ids := []) in He; [done| |].
    + rewrite Forall_forall in *. intros c Hc rs Hrs. destruct (Hcs c Hc). by apply IH.
    + constructor; [apply row_of_empty|constructor].
  - invert_ok. rename a into gs. apply evalChildren_ok in Hok.
    apply zipRows_ok in He as [Hl ->]; [|destruct Hok; [cbn in Hlen; lia|done]].
    apply Forall_fmap, Forall_forall. intros i Hi. apply elem_of_seq in Hi.
    apply (mergeAt_rows values cs gs i [] ∅); [|apply row_of_empty].
    clear Hwf Hlen. induction Hok as [|c g cs gs Hg Hgs IHg]; [constructor|].
    apply Forall_cons in Hl as [Hlg Hl]. apply Forall_cons in IH as [IHc IH].
    apply Forall_cons in Hcs as [Hwc Hcs]. constructor; [|by apply IHg].
    split; [by apply IHc|]. lia.
Qed.

Section ExpandSpec.
Context (canonFloat : str → option str).

Definition space_fits (ps : option StepParameterSpace) : Prop :=
  match ps with
  | None => True
  | Some ps => Forall list_fits (TaskParameterDefinitions ps)
  end.

Lemma charge_ok total c b : 0 ≤ total ≤ maxTasksPerJob → 0 ≤ c ≤ maxTasksPerStep →
  charge (Some total) c = (b, Ok tt) →
  b = Some (total + c) ∧ total + c ≤ maxTasksPerJob.
Proof.
  unfold charge, maxTasksPerJob, maxTasksPerStep. intros Ht Hc.
  rewrite wrap64_id by zint. rewrite Z.gtb_ltb.
  destruct (Z.ltb_spec 1000000 (total + c)); [done|]. intros [= <-]. done.
Qed.

(** The budget afterwards and the rows, on success. *)
Lemma expandParameterSpace_spec ps total b rows :
  space_fits ps → 0 ≤ total ≤ maxTasksPerJob →
  expandParameterSpace canonFloat ps (Some total) = (b, Ok rows) →
  (1 ≤ length rows)%nat ∧ Z.of_nat (length rows) ≤ maxTasksPerStep ∧
  b = Some (total + Z.of_nat (length rows)) ∧
  total + Z.of_nat (length rows) ≤ maxTasksPerJob ∧
  ∃ values ids, values_ok values ∧ Forall (row_of values ids) rows.
Proof.
  intros Hfit Ht H.
  assert (Hone : (let '(b, r) := charge (Some total) 1 in
      (b, match r with Ok _ => Ok [∅] | Err e => Err e end)) = (b, Ok rows) →
    (1 ≤ length rows)%nat ∧ Z.of_nat (length rows) ≤ maxTasksPerStep ∧
    b = Some (total + Z.of_nat (length rows)) ∧
    total + Z.of_nat (length rows) ≤ maxTasksPerJob ∧
    ∃ values ids, values_ok values ∧ Forall (row_of values ids) rows).
  { destruct (charge (Some total) 1) as [b' [[]|e]] eqn:Hc; [|done]. intros [= <- <-].
    apply charge_ok in Hc as [-> Hle]; [|done|unfold maxTasksPerStep; lia].
    split_and!; [done|done|done|done|]. exists ∅, []. split; [by intros n l|].
    apply Forall_singleton, row_of_empty. }
  unfold expandParameterSpace in H. destruct ps as [ps|]; [|by apply Hone].
  destruct (paramValuesFrom canonFloat ∅ _) as [values|e] eqn:Hv; [|done].
  apply paramValuesFrom_ok in Hv; [|done|by intros n l].
  match type of H with (match ?x with [] => _ | _ :: _ => _ end) = _ => destruct x as [|c0 e0] end;
    [by apply Hone|]. clear Hone.
  destruct (parseCombinationExpr _) as [tree|e] eqn:Hp; [|done].
  apply parseCombinationExpr_iff in Hp as (_ & Hwf & _).
  destruct (countCombNode tree values) as [k|] eqn:Hk; [|done].
  rewrite Z.gtb_ltb in H. destruct (Z.ltb_spec maxTasksPerStep k) as [|Hle]; [done|].
  destruct (charge (Some total) k) as [b' [[]|e]] eqn:Hc; [|done].
  destruct (evalCombNode tree values) as [rows'|e] eqn:He; [|done]. injection H as <- <-.
  destruct (countCombNode_spec tree values rows' Hwf Hv He) as [Hn Hcount]. rewrite Hk in Hcount.
  destruct Hcount as (Hk0 & _ & Heq). specialize (Heq Hle). subst k.
  apply charge_ok in Hc as [-> Hjob]; [|done|lia].
  split_and!; [done|done|done|done|]. exists values, (collectIdents tree).
  split; [done|]. by apply evalCombNode_rows.
Qed.

(** The expansions of the steps of one job, sharing its budget; the first
    error ends the submission. *)
Fixpoint expandJob (spaces : list (option StepParameterSpace)) (budget : option Z)
    : res ExpandError (list (list TaskParams)) :=
  match spaces with
  | [] => Ok []
  | ps :: rest =>
      let '(b, r) := expandParameterSpace canonFloat ps budget in
      let? rows := r in
      let? more := expandJob rest b in
      Ok (rows :: more)
  end.

Lemma expandJob_spec spaces total rowss :
  Forall space_fits spaces → 0 ≤ total ≤ maxTasksPerJob →
  expandJob spaces (Some total) = Ok rowss →
  total + Z.of_nat (length (mjoin rowss)) ≤ maxTasksPerJob.
Proof.
  intros Hfit. revert total rowss.
  induction Hfit as [|ps spaces Hps Hrest IH]; cbn [expandJob]; intros total rowss Ht H.
  { invert_ok. cbn. lia. }
  destruct (expandParameterSpace canonFloat ps (Some total)) as [b r] eqn:He.
  destruct r as [rows|]; [|done]. cbn [res_bind] in H. invert_ok.
  apply expandParameterSpace_spec in He as (_ & _ & -> & Hle & _); [|done..].
  apply IH in Hok; [|lia].
  change (mjoin (rows :: a)) with (rows ++ mjoin a). rewrite length_app. lia.
Qed.
End ExpandSpec.

(** ** Properties *)

(** C31. The combination parser accepts exactly the token sequences of the
    grammar's trees nested at most 64 deep, returns the tree, and always
    terminates with a result. *)
Theorem parseCombinationExpr_grammar (expr : str) :
  parseCombinationExpr expr ≠ Err OutOfFuel ∧
  ∀ node, parseCombinationExpr expr = Ok node ↔
    tokenizeComb expr = expr_tokens node ∧ comb_wf node ∧
    (comb_depth node ≤ maxCombDepth)%nat.
Proof.
  split; [apply parseCombinationExpr_no_fuel|]. intros node. apply parseCombinationExpr_iff.
Qed.

(** Parsing the text of a well-formed tree gives the tree back. *)
Theorem parseCombinationExpr_text (node : combNode)
    (Hwf : comb_wf node) (Hd : (comb_depth node ≤ maxCombDepth)%nat) :
  parseCombinationExpr (expr_text node) = Ok node.
Proof. apply parseCombinationExpr_iff. by rewrite tokenize_text. Qed.

Lemma parseCombinationExpr_text_witness :
  parseCombinationExpr (of_string "A*(B,C*D)") =
  Ok (combProduct [combIdent (of_string "A");
        combAssoc [combIdent (of_string "B");
                   combProduct [combIdent (of_string "C"); combIdent (of_string "D")]]]).
Proof.
  apply (parseCombinationExpr_text
    (combProduct [combIdent (of_string "A");
       combAssoc [combIdent (of_string "B");
                  combProduct [combIdent (of_string "C"); combIdent (of_string "D")]]])).
  - repeat constructor.
  - cbn. unfold maxCombDepth. lia.
Defined.

(** The arithmetic guard admits a parameter space exactly when its rows
    number at most [maxTasksPerStep], and the count it admits is the number of
    rows: nothing above the cap is materialised and nothing within it is
    refused. *)
Theorem countCombNode_guard (node : combNode) (values : gmap str (list str))
    (rows : list TaskParams) (Hwf : comb_wf node) (Hv : values_ok values)
    (He : evalCombNode node values = Ok rows) :
  (∃ c, countCombNode node values = Some c ∧ c ≤ maxTasksPerStep ∧ c = Z.of_nat (length rows))
  ↔ Z.of_nat (length rows) ≤ maxTasksPerStep.
Proof.
  destruct (countCombNode_spec node values rows Hwf Hv He) as [Hn Hc]. split.
  - intros (c & _ & Hle & ->). done.
  - intros Hle. destruct (countCombNode node values) as [k|].
    + exists k. destruct Hc as (_ & Hk & Heq). split_and!; [done|lia|apply Heq; lia].
    + unfold maxTasksPerStep in Hle. zint.
Qed.

Lemma countCombNode_guard_witness :
  let values : gmap str (list str) :=
    <[of_string "A" := [of_string "1"; of_string "2"]]> {[of_string "B" := [of_string "x"]]} in
  let node := combProduct [combIdent (of_string "A"); combIdent (of_string "B")] in
  ∃ rows c, evalCombNode node values = Ok rows ∧ length rows = 2%nat ∧
    countCombNode node values = Some c ∧ c ≤ maxTasksPerStep ∧ c = Z.of_nat (length rows).
Proof.
  intros values node.
  assert (Hlen : match evalCombNode node values with Ok r => length r | Err _ => O end = 2%nat)
    by by vm_compute.
  destruct (evalCombNode node values) as [rows|e] eqn:He; [|done].
  assert (Hv : values_ok values).
  { intros n l. unfold values. rewrite lookup_insert_Some, lookup_singleton_Some.
    intros [[_ <-]|[_ [_ <-]]]; (split; [done|by vm_compute]). }
  destruct (proj2 (countCombNode_guard node values rows ltac:(repeat constructor) Hv He))
    as (c & Hc); [rewrite Hlen; by vm_compute|].
  exists rows, c. done.
Defined.



(** However many steps a job has, the tasks of all of them together stay
    within [maxTasksPerJob]. *)
Theorem expandJob_total (canonFloat : str → option str)
    (spaces : list (option StepParameterSpace)) (rowss : list (list TaskParams))
    (Hfit : Forall space_fits spaces)
    (H : expandJob canonFloat spaces (Some 0) = Ok rowss) :
  Z.of_nat (length (mjoin rowss)) ≤ maxTasksPerJob.
Proof.
  apply (expandJob_spec canonFloat spaces 0 rowss); [done| |done].
  unfold maxTasksPerJob, maxTasksPerStep. lia.
Qed.

Lemma expandJob_total_witness :
  let ps := mkSpace [mkTaskParam (of_string "F") TaskParamTypeInt (Some (of_string "1-2")) [] None] None in
  ∃ rowss, expandJob (λ _, None) [Some ps; None] (Some 0) = Ok rowss ∧
    Z.of_nat (length (mjoin rowss)) ≤ maxTasksPerJob.
Proof.
  intros ps.
  assert (Hok : is_ok (expandJob (λ _, None) [Some ps; None] (Some 0)) = true) by by vm_compute.
  destruct (expandJob (λ _, None) [Some ps; None] (Some 0)) as [rowss|e] eqn:He.
  - exists rowss. split; [done|].
    apply (expandJob_total (λ _, None) [Some ps; None]); [|done].
    repeat constructor; by vm_compute.
  - discriminate Hok.
Defined.

(** The derived bounds of a chunk are its least and greatest value. *)
Theorem chunkBounds_extremes (ints : list Z) (lo hi : Z) (H : chunkBounds ints = Some (lo, hi)) :
  lo ∈ ints ∧ hi ∈ ints ∧ ∀ v, v ∈ ints → lo ≤ v ≤ hi.
Proof.
  destruct ints as [|n0 rest]; [done|]. cbn in H. injection H as H.
  assert (Hgen : ∀ l a b, a ≤ b →
    foldl (λ '(lo, hi) n, (if n <? lo then n else lo, if n >? hi then n else hi)) (a, b) l = (lo, hi) →
    (lo = a ∨ lo ∈ l) ∧ (hi = b ∨ hi ∈ l) ∧ lo ≤ a ∧ b ≤ hi ∧ ∀ v, v ∈ l → lo ≤ v ≤ hi).
  { clear. induction l as [|n l IH]; cbn; intros a b Hab H.
    - injection H as <- <-. split_and!; auto; [lia..|]. by intros v ?%elem_of_nil.
    - rewrite Z.gtb_ltb in H. apply IH in H.
      + destruct H as (Hlo & Hhi & H1 & H2 & Hall).
        destruct (Z.ltb_spec n a), (Z.ltb_spec b n);
          (split_and!; [rewrite elem_of_cons; destruct Hlo as [->|]; auto
                       |rewrite elem_of_cons; destruct Hhi as [->|]; auto|lia|lia
                       |intros v [->|Hv]%elem_of_cons; [lia|auto]]).
      + destruct (Z.ltb_spec n a), (Z.ltb_spec b n); lia. }
  apply Hgen in H as (Hlo & Hhi & H1 & H2 & Hall); [|lia].
  rewrite !elem_of_cons. split_and!; [by destruct Hlo; auto|by destruct Hhi; auto|].
  intros v [->|Hv]%elem_of_cons; [lia|auto].
Qed.

Lemma chunkBounds_extremes_witness :
  chunkBounds [5; 2; 9] = Some (2, 9) ∧ 2 ∈ [5; 2; 9].
Proof.
  split; [done|]. apply (chunkBounds_extremes [5; 2; 9] 2 9). done.
Defined.
