(* ===== verification/StatusText.v ===== *)
(** * Status text: [internal/worker/protocol/statustext.go]

    The cleaning of task-controlled text before it is stored and shown, with the
    UTF-8 decoding of Go's [unicode/utf8] and the character classes of
    [unicode]. *)

From Stdlib Require Import ZifyBool.
From S2P Require Import Prelude.
Open Scope Z_scope.

(** ** Runes *)

Definition RuneError : Z := 65533.

Definition byte_val (c : ascii) : Z := Z.of_nat (nat_of_ascii c).
Definition byte_chr (z : Z) : ascii := ascii_of_nat (Z.to_nat z).

Definition between (lo hi z : Z) : bool := (lo <=? z) && (z <=? hi).

(** A continuation byte's six bits. *)
Definition cont (z : Z) : bool := between 128 191 z.
Definition low6 (z : Z) : Z := z - 128.

(** [utf8.DecodeRuneInString]: the rune and the bytes it takes; an invalid
    sequence is [RuneError] and one byte. *)
Definition DecodeRune (s : str) : Z * nat :=
  match byte_val <$> s with
  | [] => (RuneError, 0%nat)
  | b0 :: t =>
      if b0 <? 128 then (b0, 1%nat)
      else if b0 <? 194 then (RuneError, 1%nat)
      else if b0 <? 224 then
        match t with
        | b1 :: _ => if cont b1 then ((b0 - 192) * 64 + low6 b1, 2%nat) else (RuneError, 1%nat)
        | [] => (RuneError, 1%nat)
        end
      else if b0 <? 240 then
        match t with
        | b1 :: b2 :: _ =>
            if between (if b0 =? 224 then 160 else 128) (if b0 =? 237 then 159 else 191) b1 && cont b2
            then ((b0 - 224) * 4096 + low6 b1 * 64 + low6 b2, 3%nat) else (RuneError, 1%nat)
        | _ => (RuneError, 1%nat)
        end
      else if b0 <? 245 then
        match t with
        | b1 :: b2 :: b3 :: _ =>
            if between (if b0 =? 240 then 144 else 128) (if b0 =? 244 then 143 else 191) b1
               && cont b2 && cont b3
            then ((b0 - 240) * 262144 + low6 b1 * 4096 + low6 b2 * 64 + low6 b3, 4%nat)
            else (RuneError, 1%nat)
        | _ => (RuneError, 1%nat)
        end
      else (RuneError, 1%nat)
  end.

(** [utf8.AppendRune] and [utf8.RuneLen] of a rune that [DecodeRune] returns. *)
Definition EncodeRune (r : Z) : str :=
  byte_chr <$>
    (if r <? 128 then [r]
     else if r <? 2048 then [192 + r / 64; 128 + r mod 64]
     else if r <? 65536 then [224 + r / 4096; 128 + (r / 64) mod 64; 128 + r mod 64]
     else [240 + r / 262144; 128 + (r / 4096) mod 64; 128 + (r / 64) mod 64; 128 + r mod 64]).

Definition RuneLen (r : Z) : nat := length (EncodeRune r).

Definition IsControl (r : Z) : bool := between 0 31 r || between 127 159 r.

Definition IsSpace (r : Z) : bool :=
  between 9 13 r || (r =? 32) || (r =? 133) || (r =? 160) || (r =? 5760) || between 8192 8202 r
  || (r =? 8232) || (r =? 8233) || (r =? 8239) || (r =? 8287) || (r =? 12288).

(** ** Cleaning *)

Definition MaxStatusTextBytes : nat := 1024.

(** The loop: [b] is the builder's content; [fuel] bounds the runes read, each
    of one byte at least. *)
Fixpoint sanitizeLoop (fuel : nat) (s b : str) : str :=
  match fuel, s with
  | O, _ | _, [] => b
  | S fuel', _ =>
      let '(r, size) := DecodeRune s in
      let s' := drop size s in
      if (r =? RuneError) && Nat.eqb size 1 then sanitizeLoop fuel' s' b
      else
        let blank := (r =? 9) || (r =? 10) || (r =? 13) in
        if negb blank && IsControl r then sanitizeLoop fuel' s' b
        else
          let r' := if blank then 32 else r in
          if Nat.eqb (length b) 0 && IsSpace r' then sanitizeLoop fuel' s' b
          else if (MaxStatusTextBytes <? length b + RuneLen r')%nat then b
          else sanitizeLoop fuel' s' (b ++ EncodeRune r')
  end.

Definition SanitizeStatusText (s : str) : str := TrimRight (sanitizeLoop (length s) s []).

(** ** Runes and bytes *)

(** What [DecodeRune] returns of valid text: a Unicode scalar value. *)
Definition valid (r : Z) : bool := between 0 55295 r || between 57344 1114111 r.

Definition encode (rs : list Z) : str := concat (EncodeRune <$> rs).

#[local] Ltac Zify.zify_post_hook ::= Z.to_euclidean_division_equations.

Lemma byte_val_range c : 0 ≤ byte_val c < 256.
Proof. unfold byte_val. pose proof (nat_ascii_bounded c). lia. Qed.

Lemma byte_val_chr z : 0 ≤ z < 256 → byte_val (byte_chr z) = z.
Proof. intros H. unfold byte_val, byte_chr. rewrite nat_ascii_embedding; lia. Qed.

Lemma byte_chr_val c : byte_chr (byte_val c) = c.
Proof. unfold byte_val, byte_chr. by rewrite Nat2Z.id, ascii_nat_embedding. Qed.

Lemma byte_is_val c n : byte_is c n = (byte_val c =? Z.of_nat n).
Proof. unfold byte_is, byte_val. lia. Qed.

Lemma byte_in_val c lo hi : byte_in c lo hi = between (Z.of_nat lo) (Z.of_nat hi) (byte_val c).
Proof. unfold byte_in, between, byte_val. lia. Qed.

(** Decides the tests of the goal by arithmetic. *)
Ltac decide_tests :=
  repeat match goal with
  | |- context [if ?b then _ else _] =>
      lazymatch b with context [if _ then _ else _] => fail | _ => idtac end;
      first [replace b with true by lia | replace b with false by lia | destruct b eqn:?];
      cbv iota
  end.

Lemma DecodeRune_Encode r t :
  valid r = true → DecodeRune (EncodeRune r ++ t) = (r, RuneLen r).
Proof.
  intros Hv. unfold RuneLen, EncodeRune, DecodeRune, valid, cont, between, low6 in *.
  destruct (r <? 128) eqn:?; [|destruct (r <? 2048) eqn:?; [|destruct (r <? 65536) eqn:?]];
    cbn [fmap list_fmap app length]; rewrite ?byte_val_chr by lia;
    decide_tests; f_equal; lia.
Qed.

Lemma EncodeRune_bytes r cs zs :
  byte_val <$> cs = zs →
  zs = (if r <? 128 then [r]
     else if r <? 2048 then [192 + r / 64; 128 + r mod 64]
     else if r <? 65536 then [224 + r / 4096; 128 + (r / 64) mod 64; 128 + r mod 64]
     else [240 + r / 262144; 128 + (r / 4096) mod 64; 128 + (r / 64) mod 64; 128 + r mod 64]) →
  cs = EncodeRune r.
Proof.
  intros <- E. unfold EncodeRune. rewrite <- E, <- list_fmap_compose.
  rewrite (list_fmap_ext _ id); [by rewrite list_fmap_id|]. intros i c _. apply byte_chr_val.
Qed.

Lemma DecodeRune_valid s r n :
  DecodeRune s = (r, n) → s ≠ [] → (r =? RuneError) && Nat.eqb n 1 = false →
  valid r = true ∧ take n s = EncodeRune r ∧ n = RuneLen r.
Proof.
  intros HD Hs He. assert (valid r = true ∧ take n s = EncodeRune r) as [Hv Ht].
  { unfold DecodeRune in HD. destruct s as [|c0 t]; [done|]. cbn in HD.
    pose proof (byte_val_range c0).
    destruct (byte_val c0 <? 128) eqn:?.
    { injection HD as <- <-. unfold valid, between. split; [lia|].
      cbn [take]. eapply EncodeRune_bytes; [done|]. by decide_tests. }
    destruct (byte_val c0 <? 194) eqn:?; [injection HD as <- <-; done|].
    destruct (byte_val c0 <? 224) eqn:?.
    { destruct t as [|c1 t]; cbn in HD; [injection HD as <- <-; done|].
      pose proof (byte_val_range c1).
      destruct (cont _) eqn:Hc; injection HD as <- <-; [|done].
      unfold valid, cont, between, low6 in *. split; [lia|].
      cbn [take]. eapply EncodeRune_bytes; [done|]. decide_tests. cbn. repeat f_equal; lia. }
    destruct (byte_val c0 <? 240) eqn:?.
    { destruct t as [|c1 [|c2 t]]; cbn in HD; try (injection HD as <- <-; done).
      pose proof (byte_val_range c1). pose proof (byte_val_range c2).
      destruct (_ && _) eqn:Hc in HD; injection HD as <- <-; [|done].
      unfold valid, cont, between, low6 in *. repeat case_in Hc; (split; [lia|]);
      (eapply EncodeRune_bytes; [done|]); decide_tests; cbn; repeat f_equal; lia. }
    destruct (byte_val c0 <? 245) eqn:?; [|injection HD as <- <-; done].
    destruct t as [|c1 [|c2 [|c3 t]]]; cbn in HD; try (injection HD as <- <-; done).
    pose proof (byte_val_range c1). pose proof (byte_val_range c2). pose proof (byte_val_range c3).
    destruct (_ && _) eqn:Hc in HD; injection HD as <- <-; [|done].
    unfold valid, cont, between, low6 in *. repeat case_in Hc; (split; [lia|]);
    (eapply EncodeRune_bytes; [done|]); decide_tests; cbn; repeat f_equal; lia. }
  split; [done|]. split; [done|].
  pose proof (DecodeRune_Encode r (drop n s) Hv) as E. rewrite <- Ht, take_drop in E. congruence.
Qed.

Lemma EncodeRune_pos r : (0 < RuneLen r)%nat.
Proof. unfold RuneLen, EncodeRune. repeat case_match; cbn; lia. Qed.

Lemma encode_app rs rs' : encode (rs ++ rs') = encode rs ++ encode rs'.
Proof. unfold encode. by rewrite fmap_app, concat_app. Qed.

Lemma encode_cons r rs : encode (r :: rs) = EncodeRune r ++ encode rs.
Proof. done. Qed.

Lemma encode_snoc rs r : encode (rs ++ [r]) = encode rs ++ EncodeRune r.
Proof. rewrite encode_app. unfold encode at 2. cbn. by rewrite app_nil_r. Qed.

Lemma encode_nil rs : encode rs = [] ↔ rs = [].
Proof.
  split; [|by intros ->]. destruct rs as [|r rs]; [done|]. intros E.
  apply (f_equal length) in E. rewrite encode_cons, length_app in E.
  pose proof (EncodeRune_pos r). unfold RuneLen in *. cbn in E. lia.
Qed.

(** ** The loop on runes *)

(** The runes kept: no control character is left. *)
Definition clean (r : Z) : bool := valid r && negb (IsControl r).

(** Text of clean runes that does not start with a space. *)
Definition started (rs : list Z) : Prop :=
  Forall (λ r, clean r = true) rs ∧ (∀ r, head rs = Some r → IsSpace r = false).

Lemma started_snoc rs r :
  started rs → clean r = true → (rs = [] → IsSpace r = false) → started (rs ++ [r]).
Proof.
  intros [H1 H2] Hc Hs. split.
  - apply Forall_app. split; [done|by constructor].
  - destruct rs; cbn; [intros ? [= <-]; auto|apply H2].
Qed.

Lemma encode_empty_test rs : Nat.eqb (length (encode rs)) 0 = true ↔ rs = [].
Proof. rewrite Nat.eqb_eq, length_zero_iff_nil. apply encode_nil. Qed.

Lemma sanitizeLoop_started fuel s rs :
  started rs → (length (encode rs) ≤ MaxStatusTextBytes)%nat →
  ∃ rs', sanitizeLoop fuel s (encode rs) = encode rs' ∧ started rs' ∧
    (length (encode rs') ≤ MaxStatusTextBytes)%nat.
Proof.
  revert s rs. induction fuel as [|fuel IH]; intros s rs Hst Hlen; [by exists rs|].
  destruct s as [|c s]; [by exists rs|]. cbn [sanitizeLoop].
  destruct (DecodeRune (c :: s)) as [r n] eqn:HD.
  destruct (_ && _) eqn:He; [by apply IH|].
  destruct (DecodeRune_valid _ _ _ HD ltac:(done) He) as (Hv & _ & _).
  set (blank := (r =? 9) || (r =? 10) || (r =? 13)).
  destruct (negb blank && IsControl r) eqn:Hctl; [by apply IH|].
  set (r' := if blank then 32 else r).
  assert (clean r' = true) as Hclean.
  { subst r'. unfold clean. destruct blank; [done|]. cbn in Hctl. by rewrite Hv, Hctl. }
  destruct (Nat.eqb (length (encode rs)) 0 && IsSpace r') eqn:Hsp; [by apply IH|].
  destruct (_ <? _)%nat eqn:Hcap; [by exists rs|].
  rewrite <- encode_snoc. apply IH.
  - apply started_snoc; [done..|]. intros ->. by apply andb_false_iff in Hsp as [?|?].
  - rewrite encode_snoc, length_app. apply Nat.ltb_ge in Hcap. unfold RuneLen in Hcap. lia.
Qed.

(** Text that is clean already is copied. *)
Lemma sanitizeLoop_clean fuel rs done_ :
  started (done_ ++ rs) → (length (encode (done_ ++ rs)) ≤ MaxStatusTextBytes)%nat →
  (length (encode rs) ≤ fuel)%nat →
  sanitizeLoop fuel (encode rs) (encode done_) = encode (done_ ++ rs).
Proof.
  revert rs done_. induction fuel as [|fuel IH]; intros rs d Hst Hlen Hf.
  { assert (rs = []) as ->; [|by rewrite app_nil_r]. apply encode_nil, nil_length_inv. lia. }
  destruct rs as [|r rs]; [by rewrite app_nil_r|].
  destruct Hst as [Hcl Hsp]. pose proof Hcl as [_ Hr]%Forall_app.
  inversion Hr as [|?? Hr1 _]; subst. unfold clean in Hr1. zbool.
  assert (sanitizeLoop (S fuel) (encode (r :: rs)) (encode d) =
          sanitizeLoop fuel (encode rs) (encode (d ++ [r]))) as ->.
  { cbn [sanitizeLoop]. destruct (encode (r :: rs)) as [|c t] eqn:E; [by apply encode_nil in E|].
    rewrite <- E, encode_cons, DecodeRune_Encode by done.
    rewrite drop_app_length'  by done.
    assert ((r =? RuneError) && Nat.eqb (RuneLen r) 1 = false) as ->.
    { destruct (r =? RuneError) eqn:Er; [|done]. zbool. subst r. by vm_compute. }
    assert ((r =? 9) || (r =? 10) || (r =? 13) = false) as ->.
    { unfold IsControl, between in *. lia. }
    rewrite H0. cbn [negb andb].
    assert (Nat.eqb (length (encode d)) 0 && IsSpace r = false) as ->.
    { destruct (Nat.eqb _ 0) eqn:Ed; [|done]. apply encode_empty_test in Ed as ->. by apply Hsp. }
    rewrite encode_snoc. rewrite encode_app, encode_cons, !length_app in Hlen. unfold RuneLen.
    by replace (_ <? _)%nat with false by lia. }
  rewrite IH; rewrite <- ?(assoc_L (++)); [done..|].
  rewrite encode_cons, length_app in Hf. pose proof (EncodeRune_pos r). unfold RuneLen in *. lia.
Qed.

(** ** Trimming on runes *)

Fixpoint trimSpaces (rs : list Z) : list Z :=
  match rs with
  | [] => []
  | r :: rs' => if IsSpace r then trimSpaces rs' else rs
  end.

Abbreviation trim_rev := (trim_by (λ c2 c1, space2 c1 c2) (λ c3 c2 c1, space3 c1 c2 c3)).

Lemma space1_val c : space1 c = between 9 13 (byte_val c) || (byte_val c =? 32).
Proof. unfold space1. by rewrite byte_in_val, byte_is_val. Qed.

Lemma space2_val c1 c2 :
  space2 c1 c2 = (byte_val c1 =? 194) && ((byte_val c2 =? 133) || (byte_val c2 =? 160)).
Proof. unfold space2. by rewrite !byte_is_val. Qed.

Lemma space3_val c1 c2 c3 :
  let x := byte_val c1 in let y := byte_val c2 in let z := byte_val c3 in
  space3 c1 c2 c3 =
  ((x =? 225) && (y =? 154) && (z =? 128)
   || (x =? 226) && (y =? 128) && (between 128 138 z || between 168 169 z || (z =? 175))
   || (x =? 226) && (y =? 129) && (z =? 159)
   || (x =? 227) && (y =? 128) && (z =? 128)).
Proof. cbv zeta. unfold space3. by rewrite !byte_in_val, !byte_is_val. Qed.

Lemma sextets r :
  ∃ y z, 0 ≤ y < 64 ∧ 0 ≤ z < 64 ∧ (r / 64) mod 64 = y ∧ r mod 64 = z ∧
    r = r / 4096 * 4096 + y * 64 + z.
Proof. exists ((r / 64) mod 64), (r mod 64). lia. Qed.

Lemma trim_rev_rune r t :
  valid r = true →
  trim_rev (rev (EncodeRune r) ++ t) = if IsSpace r then trim_rev t else rev (EncodeRune r) ++ t.
Proof.
  intros Hv. unfold EncodeRune, valid, between in *.
  destruct (r <? 128) eqn:?; [|destruct (r <? 2048) eqn:?; [|destruct (r <? 65536) eqn:?]];
    cbn [fmap list_fmap rev app trim_by].
  - rewrite space1_val, byte_val_chr by lia.
    assert (IsSpace r = between 9 13 r || (r =? 32)) as -> by (unfold IsSpace, between; lia).
    match goal with |- context [if ?b then _ else _] => destruct b eqn:E end; [reflexivity|].
    unfold between in E. destruct t as [|c [|d t]]; [done|..];
      rewrite !space2_val, ?space3_val; cbv zeta; rewrite ?byte_val_chr by lia; unfold between;
      by decide_tests.
  - rewrite space1_val, space2_val, !byte_val_chr by lia.
    assert (IsSpace r = (192 + r / 64 =? 194) && ((128 + r mod 64 =? 133) || (128 + r mod 64 =? 160)))
      as -> by (unfold IsSpace, between; lia).
    replace (between _ _ _ || _) with false by (unfold between; lia).
    match goal with |- context [if ?b then _ else _] => destruct b eqn:E end; [reflexivity|].
    destruct t as [|c t]; [done|].
    rewrite space3_val. cbv zeta. rewrite !byte_val_chr by lia. unfold between. by decide_tests.
  - rewrite !space1_val, !space2_val, !space3_val. cbv zeta. rewrite !byte_val_chr by lia.
    destruct (sextets r) as (y & z & Hy & Hz & -> & -> & Er). generalize dependent (r / 4096).
    intros x Er. rewrite Er in *. unfold IsSpace, between. by decide_tests.
  - rewrite !space1_val, !space2_val, !space3_val. cbv zeta. rewrite !byte_val_chr by lia.
    unfold IsSpace, between. by decide_tests.
Qed.

Lemma TrimRight_encode rs :
  Forall (λ r, valid r = true) rs → TrimRight (encode rs) = encode (rev (trimSpaces (rev rs))).
Proof.
  intros Hv. unfold TrimRight.
  assert (∀ rs, Forall (λ r, valid r = true) rs →
    trim_rev (rev (encode (rev rs))) = rev (encode (rev (trimSpaces rs)))) as H.
  { clear. induction rs as [|r rs IH]; [done|]. intros Hv. inversion Hv; subst.
    cbn [rev trimSpaces]. rewrite encode_snoc, rev_app_distr, trim_rev_rune by done.
    destruct (IsSpace r); [by apply IH|]. cbn [rev]. by rewrite encode_snoc, rev_app_distr. }
  specialize (H (rev rs)). rewrite rev_involutive in H. rewrite H by by apply Forall_rev.
  apply rev_involutive.
Qed.

Lemma trimSpaces_suffix rs : ∃ p, rs = p ++ trimSpaces rs.
Proof.
  induction rs as [|r rs [p IH]]; [by exists []|]. cbn. destruct (IsSpace r); [|by exists []].
  exists (r :: p). cbn. by f_equal.
Qed.

Lemma trimSpaces_head rs r : head (trimSpaces rs) = Some r → IsSpace r = false.
Proof. induction rs as [|x rs IH]; cbn; [done|]. destruct (IsSpace x) eqn:E; [done|]. by intros [= <-]. Qed.

Lemma trimSpaces_id rs : (∀ r, head rs = Some r → IsSpace r = false) → trimSpaces rs = rs.
Proof. destruct rs as [|r rs]; [done|]. cbn. intros H. by rewrite (H r). Qed.

Lemma last_rev {A} (l : list A) : last (rev l) = head l.
Proof. rewrite rev_alt. apply last_reverse. Qed.

(** Text that cleaning leaves alone: at most [MaxStatusTextBytes] bytes of valid
    UTF-8, no control character (so no tab or line break), no space at either
    end. *)
Definition presentable (s : str) : Prop :=
  ∃ rs, s = encode rs ∧ Forall (λ r, valid r = true ∧ IsControl r = false) rs ∧
    (∀ r, head rs = Some r → IsSpace r = false) ∧ (∀ r, last rs = Some r → IsSpace r = false) ∧
    (length s ≤ MaxStatusTextBytes)%nat.

Lemma SanitizeStatusText_started rs :
  started rs → (length (encode rs) ≤ MaxStatusTextBytes)%nat → presentable (TrimRight (encode rs)).
Proof.
  intros [Hc Hh] Hl. rewrite TrimRight_encode.
  2: { eapply Forall_impl; [exact Hc|]. intros r Hr. unfold clean in Hr. by zbool. }
  destruct (trimSpaces_suffix (rev rs)) as [p Hp]. apply (f_equal (@rev Z)) in Hp.
  rewrite rev_involutive, rev_app_distr in Hp. set (kept := rev (trimSpaces (rev rs))) in *.
  exists kept. split; [done|]. rewrite Hp in Hc, Hh, Hl. split_and!.
  - apply Forall_app in Hc as [Hc _]. eapply Forall_impl; [exact Hc|].
    intros r Hr. unfold clean in Hr. by zbool.
  - intros r Hr. apply Hh. by destruct kept.
  - intros r Hr. apply (trimSpaces_head (rev rs)). subst kept. by rewrite last_rev in Hr.
  - rewrite encode_app, length_app in Hl. lia.
Qed.

(** C27. Cleaned status text is safe to store and show, and cleaning is
    idempotent: whatever bytes a task emits, [SanitizeStatusText] returns at most
    [MaxStatusTextBytes] bytes of valid UTF-8 with no control character and no
    space at either end, and cleaning such text again (the worker cleans, then
    the server) returns it unchanged. *)
Theorem SanitizeStatusText_safe s :
  presentable (SanitizeStatusText s) ∧
  SanitizeStatusText (SanitizeStatusText s) = SanitizeStatusText s.
Proof.
  assert (presentable (SanitizeStatusText s)) as HP.
  { unfold SanitizeStatusText.
    destruct (sanitizeLoop_started (length s) s []) as (rs & E & Hst & Hl); [|cbn; lia|].
    { by split. }
    change (encode []) with (@nil ascii) in E. rewrite E. by apply SanitizeStatusText_started. }
  split; [done|]. destruct HP as (rs & E & Hv & Hh & Ht & Hl). rewrite E in *.
  unfold SanitizeStatusText. change (@nil ascii) with (encode []).
  rewrite (sanitizeLoop_clean _ rs []); [|split; [|done]|done..].
  2: { eapply Forall_impl; [exact Hv|]. intros r [H1 H2]. unfold clean. by rewrite H1, H2. }
  cbn [app]. rewrite TrimRight_encode.
  2: { eapply Forall_impl; [exact Hv|]. by intros r [? _]. }
  rewrite trimSpaces_id; [by rewrite rev_involutive|]. intros r Hr. apply Ht. by rewrite <- (rev_involutive rs), last_rev.
Qed.
