(* ===== verification/Subjects.v ===== *)
(** * Message subjects and worker grants: [internal/bus/subjects.go] and
      [internal/brokerauth/permissions.go]

    A worker's identity is a token of the subjects it publishes on.  The server
    reads it back from the subject; the broker grants each worker the subjects
    that carry its own.  The broker's matching of subjects against grants is
    nats-server's and a parameter here. *)

From S2P Require Import Prelude.

Definition dot : ascii := ".".

(** ** Subjects *)

Definition SubjectTaskStatusPrefix : str := of_string "task.status".
Definition SubjectTaskLogsPrefix : str := of_string "task.logs".
Definition SubjectTaskCancelPrefix : str := of_string "task.cancel".
Definition SubjectWorkerHeartbeatPrefix : str := of_string "worker.heartbeat".
Definition SubjectWorkerRegisterPrefix : str := of_string "worker.register".
Definition SubjectWorkerDeregisterPrefix : str := of_string "worker.deregister".
Definition SubjectWorkLeasePrefix : str := of_string "work.lease".
Definition WildcardQueueToken : str := of_string "_any".

Definition TaskStatusSubject (workerID jobID : str) : str :=
  SubjectTaskStatusPrefix ++ [dot] ++ workerID ++ [dot] ++ jobID.
Definition TaskLogsSubject (workerID taskID : str) : str :=
  SubjectTaskLogsPrefix ++ [dot] ++ workerID ++ [dot] ++ taskID.
Definition TaskCancelSubject (workerID : str) : str :=
  SubjectTaskCancelPrefix ++ [dot] ++ workerID.
Definition WorkerRegisterSubject (workerID : str) : str :=
  SubjectWorkerRegisterPrefix ++ [dot] ++ workerID.
Definition WorkerHeartbeatSubject (workerID : str) : str :=
  SubjectWorkerHeartbeatPrefix ++ [dot] ++ workerID.
Definition WorkerDeregisterSubject (workerID : str) : str :=
  SubjectWorkerDeregisterPrefix ++ [dot] ++ workerID.
Definition WorkLeaseSubject (workerID queueID : str) : str :=
  SubjectWorkLeasePrefix ++ [dot] ++ workerID ++ [dot] ++ queueID.

(** [!strings.ContainsAny(s, chars)] *)
Definition free_of (chars s : str) : bool := forallb (λ c, bool_decide (c ∉ chars)) s.

Definition nonempty (s : str) : bool := match s with [] => false | _ => true end.

Definition concreteToken (tok : str) : bool := nonempty tok && free_of (of_string "*>") tok.

(** The worker and the trailing token, if the subject is one of the six
    worker-to-server shapes. *)
Definition ParseWorkerSubject (subject : str) : option (str * str) :=
  match split_on dot subject with
  | [t0; t1; t2] =>
      let prefix := t0 ++ [dot] ++ t1 in
      if bool_decide (prefix ∈ [SubjectWorkerRegisterPrefix; SubjectWorkerHeartbeatPrefix;
                                SubjectWorkerDeregisterPrefix])
      then if negb (concreteToken t2) then None else Some (t2, [])
      else None
  | [t0; t1; t2; t3] =>
      let prefix := t0 ++ [dot] ++ t1 in
      if bool_decide (prefix ∈ [SubjectTaskStatusPrefix; SubjectTaskLogsPrefix; SubjectWorkLeasePrefix])
      then if negb (concreteToken t2) || negb (concreteToken t3) then None else Some (t2, t3)
      else None
  | _ => None
  end.

(** ** Grants *)

Definition ValidWorkerIDToken (workerID : str) : bool :=
  nonempty workerID && free_of (dot :: " "%char :: "009"%char :: "013"%char :: "010"%char :: of_string "*>") workerID.

Definition inboxPrefixRoot : str := of_string "_INBOX_".
Definition InboxPrefix (workerID : str) : str := inboxPrefixRoot ++ workerID.

Record Permissions := mkPermissions {
  PublishAllow : list str;
  SubscribeAllow : list str;
}.

Definition WorkerPermissions (workerID : str) : Permissions :=
  mkPermissions
    [of_string "task.status." ++ workerID ++ of_string ".*";
     of_string "task.logs." ++ workerID ++ of_string ".*";
     of_string "worker.register." ++ workerID;
     of_string "worker.heartbeat." ++ workerID;
     of_string "worker.deregister." ++ workerID;
     of_string "worker.diag." ++ workerID;
     of_string "work.lease." ++ workerID ++ of_string ".*"]
    [InboxPrefix workerID ++ of_string ".>";
     of_string "task.cancel." ++ workerID].

(** ** Parsing and building *)

(** A token that names one entity: concrete, and one token. *)
Definition token (s : str) : Prop := concreteToken s = true ∧ dot ∉ s.

Lemma split_two a b c :
  dot ∉ a → dot ∉ b → dot ∉ c →
  split_on dot ((a ++ [dot] ++ b) ++ [dot] ++ c) = [a; b; c].
Proof.
  intros Ha Hb Hc. cbn [app]. rewrite <- app_assoc. cbn [app].
  by rewrite split_on_app, split_on_app, split_on_none.
Qed.

Lemma split_three a b c d :
  dot ∉ a → dot ∉ b → dot ∉ c → dot ∉ d →
  split_on dot ((a ++ [dot] ++ b) ++ [dot] ++ c ++ [dot] ++ d) = [a; b; c; d].
Proof.
  intros Ha Hb Hc Hd. cbn [app]. rewrite <- app_assoc. cbn [app].
  by rewrite split_on_app, split_on_app, split_on_app, split_on_none.
Qed.

Lemma split_on_inv s ps : split_on dot s = ps → join [dot] ps = s ∧ Forall (λ p, dot ∉ p) ps.
Proof. intros <-. split; [apply join_split_on|apply split_on_free]. Qed.

(** The prefixes are two tokens each. *)
Definition two_tokens (p : str) : Prop :=
  ∃ a b, p = a ++ [dot] ++ b ∧ (dot ∉ a) ∧ (dot ∉ b).

Ltac literal_prefix a b :=
  exists (of_string a), (of_string b); split; [reflexivity|];
  split; apply (bool_decide_unpack _); vm_compute; exact I.

Lemma prefixes_two_tokens :
  Forall two_tokens [SubjectTaskStatusPrefix; SubjectTaskLogsPrefix; SubjectWorkLeasePrefix;
    SubjectWorkerRegisterPrefix; SubjectWorkerHeartbeatPrefix; SubjectWorkerDeregisterPrefix;
    SubjectTaskCancelPrefix].
Proof.
  repeat apply Forall_cons_2; [..|constructor].
  - literal_prefix "task" "status".
  - literal_prefix "task" "logs".
  - literal_prefix "work" "lease".
  - literal_prefix "worker" "register".
  - literal_prefix "worker" "heartbeat".
  - literal_prefix "worker" "deregister".
  - literal_prefix "task" "cancel".
Qed.

Lemma ParseWorkerSubject_two p w :
  p ∈ [SubjectWorkerRegisterPrefix; SubjectWorkerHeartbeatPrefix; SubjectWorkerDeregisterPrefix] →
  token w → ParseWorkerSubject (p ++ [dot] ++ w) = Some (w, []).
Proof.
  intros Hp [Hw1 Hw2].
  assert (two_tokens p) as (a & b & Ep & Ha & Hb).
  { pose proof prefixes_two_tokens as H. rewrite Forall_forall in H. apply H. set_solver. }
  unfold ParseWorkerSubject. rewrite Ep, split_two by done. cbv zeta. rewrite <- Ep.
  by rewrite bool_decide_true, Hw1.
Qed.

Lemma ParseWorkerSubject_three p w l :
  p ∈ [SubjectTaskStatusPrefix; SubjectTaskLogsPrefix; SubjectWorkLeasePrefix] →
  token w → token l → ParseWorkerSubject (p ++ [dot] ++ w ++ [dot] ++ l) = Some (w, l).
Proof.
  intros Hp [Hw1 Hw2] [Hl1 Hl2].
  assert (two_tokens p) as (a & b & Ep & Ha & Hb).
  { pose proof prefixes_two_tokens as H. rewrite Forall_forall in H. apply H. set_solver. }
  unfold ParseWorkerSubject. rewrite Ep, split_three by done. cbv zeta. rewrite <- Ep.
  by rewrite bool_decide_true, Hw1, Hl1.
Qed.

(** The server attributes a message to a worker exactly when a worker's own
    subject builders can have made its subject: [ParseWorkerSubject] answers a
    worker and a trailing token if and only if the subject is one of the three
    lifecycle subjects of that worker (no trailing token) or one of its status,
    log and lease subjects, with every token concrete. *)
Theorem ParseWorkerSubject_spec s w l :
  ParseWorkerSubject s = Some (w, l) ↔
  token w ∧
  ((l = [] ∧ s ∈ [WorkerRegisterSubject w; WorkerHeartbeatSubject w; WorkerDeregisterSubject w]) ∨
   (token l ∧ s ∈ [TaskStatusSubject w l; TaskLogsSubject w l; WorkLeaseSubject w l])).
Proof.
  split.
  - unfold ParseWorkerSubject. destruct (split_on dot s) as [|t0 [|t1 [|t2 [|t3 [|]]]]] eqn:E; try done;
      apply split_on_inv in E as [Es Hf]; cbv zeta; case_bool_decide as Hp; try done.
    + destruct (concreteToken t2) eqn:Hc; [|done]. intros [= <- <-].
      do 3 (apply Forall_cons in Hf as [? Hf]). split; [done|]. left. split; [done|].
      subst s. unfold WorkerRegisterSubject, WorkerHeartbeatSubject, WorkerDeregisterSubject.
      replace (join _ _) with ((t0 ++ [dot] ++ t1) ++ [dot] ++ t2) by (cbn; by rewrite <- app_assoc).
      revert Hp. generalize (t0 ++ [dot] ++ t1). intros p Hp. set_solver.
    + destruct (concreteToken t2) eqn:Hc, (concreteToken t3) eqn:Hd; try done. intros [= <- <-].
      do 4 (apply Forall_cons in Hf as [? Hf]). split; [done|]. right. split; [done|].
      subst s. unfold TaskStatusSubject, TaskLogsSubject, WorkLeaseSubject.
      replace (join _ _) with ((t0 ++ [dot] ++ t1) ++ [dot] ++ t2 ++ [dot] ++ t3)
        by (cbn; by rewrite <- app_assoc).
      revert Hp. generalize (t0 ++ [dot] ++ t1). intros p Hp. set_solver.
  - intros [Hw [[-> Hs]|[Hl Hs]]].
    + rewrite !elem_of_cons in Hs. destruct Hs as [->|[->|[->|[]%not_elem_of_nil]]];
        apply ParseWorkerSubject_two; set_solver.
    + rewrite !elem_of_cons in Hs. destruct Hs as [->|[->|[->|[]%not_elem_of_nil]]];
        apply ParseWorkerSubject_three; set_solver.
Qed.

(** ** What a worker may send and receive *)

(** The broker's documented matching of a subject against a grant, on tokens:
    [*] stands for one token and a final [>] for one or more. *)
Fixpoint token_match (pattern subject : list str) : bool :=
  match pattern, subject with
  | [], [] => true
  | p :: ps, t :: ts =>
      (bool_decide (p = of_string ">") && bool_decide (ps = []))
      || (bool_decide (p = of_string "*") || bool_decide (p = t)) && token_match ps ts
  | _, _ => false
  end.

Lemma ValidWorkerIDToken_token w : ValidWorkerIDToken w = true → token w ∧ w ≠ of_string "*" ∧ w ≠ of_string ">".
Proof.
  unfold ValidWorkerIDToken, token, concreteToken. intros [Hn Hf]%andb_prop.
  assert (∀ c, c ∈ w → c ∉ dot :: " "%char :: "009"%char :: "013"%char :: "010"%char :: of_string "*>") as H.
  { unfold free_of in Hf. intros c Hc. rewrite forallb_forall in Hf.
    eapply bool_decide_eq_true_1, Hf. by apply list_elem_of_In. }
  split; [split|split].
  - rewrite Hn. cbn [andb]. apply forallb_forall. intros c Hc%list_elem_of_In.
    apply bool_decide_eq_true. specialize (H c Hc). set_solver.
  - intros Hd. apply (H _ Hd). left.
  - intros ->. apply (H "*"%char); [left|]. set_solver.
  - intros ->. apply (H ">"%char); [left|]. set_solver.
Qed.

Lemma token_match_cons p ps t ts :
  p ≠ of_string "*" → p ≠ of_string ">" →
  token_match (p :: ps) (t :: ts) = bool_decide (p = t) && token_match ps ts.
Proof.
  intros H1 H2. cbn [token_match].
  by rewrite (bool_decide_false (p = of_string ">")), (bool_decide_false (p = of_string "*")).
Qed.

Definition grants (w : str) : list (list str) :=
  [[of_string "task"; of_string "status"; w; of_string "*"];
   [of_string "task"; of_string "logs"; w; of_string "*"];
   [of_string "worker"; of_string "register"; w];
   [of_string "worker"; of_string "heartbeat"; w];
   [of_string "worker"; of_string "deregister"; w];
   [of_string "worker"; of_string "diag"; w];
   [of_string "work"; of_string "lease"; w; of_string "*"]].

Ltac no_dot := apply (bool_decide_unpack _); vm_compute; exact I.

Lemma PublishAllow_tokens w :
  dot ∉ w → split_on dot <$> PublishAllow (WorkerPermissions w) = grants w.
Proof.
  intros Hw. unfold grants, WorkerPermissions. cbn [PublishAllow fmap list_fmap].
  pose proof (λ a b, split_two (of_string a) (of_string b) w) as H2.
  pose proof (λ a b, split_three (of_string a) (of_string b) w (of_string "*")) as H3.
  repeat f_equal.
  - apply (H3 "task" "status")%string; [no_dot..|done|no_dot].
  - apply (H3 "task" "logs")%string; [no_dot..|done|no_dot].
  - apply (H2 "worker" "register")%string; [no_dot..|done].
  - apply (H2 "worker" "heartbeat")%string; [no_dot..|done].
  - apply (H2 "worker" "deregister")%string; [no_dot..|done].
  - apply (H2 "worker" "diag")%string; [no_dot..|done].
  - apply (H3 "work" "lease")%string; [no_dot..|done|no_dot].
Qed.

Lemma own_subject_granted w l s :
  ValidWorkerIDToken w = true → token l →
  s ∈ [TaskStatusSubject w l; TaskLogsSubject w l; WorkerRegisterSubject w;
       WorkerHeartbeatSubject w; WorkerDeregisterSubject w; WorkLeaseSubject w l] →
  existsb (λ g, token_match g (split_on dot s)) (grants w) = true.
Proof.
  intros ([Hc Hd] & Hs & Hg)%ValidWorkerIDToken_token [Hl1 Hl2] Hin.
  pose proof (λ a b, split_two (of_string a) (of_string b) w) as H2.
  pose proof (λ a b, split_three (of_string a) (of_string b) w l) as H3.
  assert (∀ a b rest rest', a ≠ of_string "*" → a ≠ of_string ">" → b ≠ of_string "*" → b ≠ of_string ">" →
    token_match rest rest' = true → (a :: b :: w :: rest) ∈ grants w →
    split_on dot s = a :: b :: w :: rest' →
    existsb (λ g, token_match g (split_on dot s)) (grants w) = true) as H.
  { intros a b rest rest' A1 A2 B1 B2 Hr Hgr ->. apply existsb_exists. eexists.
    split; [by apply list_elem_of_In|]. rewrite !token_match_cons by done.
    by rewrite !bool_decide_true. }
  unfold grants in H. rewrite !elem_of_cons, elem_of_nil in Hin. destruct_or! Hin; try done; subst s.
  - apply (H (of_string "task") (of_string "status") [of_string "*"] [l]); try done; [repeat first [left|right]|].
    apply (H3 "task" "status")%string; done || no_dot.
  - apply (H (of_string "task") (of_string "logs") [of_string "*"] [l]); try done; [repeat first [left|right]|].
    apply (H3 "task" "logs")%string; done || no_dot.
  - apply (H (of_string "worker") (of_string "register") [] []); try done; [repeat first [left|right]|].
    apply (H2 "worker" "register")%string; done || no_dot.
  - apply (H (of_string "worker") (of_string "heartbeat") [] []); try done; [repeat first [left|right]|].
    apply (H2 "worker" "heartbeat")%string; done || no_dot.
  - apply (H (of_string "worker") (of_string "deregister") [] []); try done; [repeat first [left|right]|].
    apply (H2 "worker" "deregister")%string; done || no_dot.
  - apply (H (of_string "work") (of_string "lease") [of_string "*"] [l]); try done; [repeat first [left|right]|].
    apply (H3 "work" "lease")%string; done || no_dot.
Qed.

Section Broker.
Context (subject_matches : str → str → bool).
Hypothesis nats_matches : ∀ pattern subject,
  subject_matches pattern subject = token_match (split_on dot pattern) (split_on dot subject).

Definition may_publish (w s : str) : bool :=
  existsb (λ p, subject_matches p s) (PublishAllow (WorkerPermissions w)).
Definition may_receive (w s : str) : bool :=
  existsb (λ p, subject_matches p s) (SubscribeAllow (WorkerPermissions w)).

Lemma may_publish_iff w s :
  dot ∉ w → may_publish w s = existsb (λ g, token_match g (split_on dot s)) (grants w).
Proof.
  intros Hw. rewrite <- PublishAllow_tokens by done. unfold may_publish.
  induction (PublishAllow _) as [|p ps IH]; cbn; [done|]. by rewrite nats_matches, IH.
Qed.

(** The worker token of a subject granted to [w] is [w]. *)
Lemma granted_worker w s t0 t1 t2 ts :
  ValidWorkerIDToken w = true → may_publish w s = true →
  split_on dot s = t0 :: t1 :: t2 :: ts → t2 = w.
Proof.
  intros ([Hc Hd] & Hs & Hg)%ValidWorkerIDToken_token Hm E.
  rewrite may_publish_iff, E in Hm by done. apply existsb_exists in Hm as (g & Hin & Hg').
  apply list_elem_of_In in Hin. unfold grants in Hin. rewrite !elem_of_cons, elem_of_nil in Hin.
  assert (∀ a b rest, a ≠ of_string "*" → a ≠ of_string ">" → b ≠ of_string "*" → b ≠ of_string ">" →
    g = a :: b :: w :: rest → t2 = w) as H.
  { intros a b rest H1 H2 H3 H4 ->. rewrite !token_match_cons in Hg' by done.
    apply andb_prop in Hg' as [_ [_ [H5 _]%andb_prop]%andb_prop].
    by apply bool_decide_eq_true in H5. }
  destruct_or! Hin; (eapply H; [..|exact Hin]; done).
Qed.

End Broker.

