(* ===== verification/Leadership.v ===== *)
(** * The leader lease: [internal/store/leadership.go], [store/fence.go],
      [sqlstore/leadership.go], [sqlstore/fence.go] and [internal/ha]

    The lease row and the fencing epoch, the statements on them, and one
    server's elector: its campaign, its renewals, its self-fence deadline and the
    ways it loses authority.  Durations and server clocks are nanoseconds, the
    database's stamps microseconds. *)

From S2P Require Import Prelude.
Open Scope Z_scope.

(** ** The store *)

(** The one row of [server_lease]; a NULL holder is [None]. *)
Record LeaseRow := mkLeaseRow {
  LHolder : option string;
  LEpoch : Z;
  LExpiresUS : Z;
}.

(** [store.ServerMember] as stored. *)
Record ServerMember := mkServerMember {
  MemberName : string;
  LastSeenUS : Z;
  BrokerOKUS : option Z;
}.

(** The lease, the fencing epoch of [server_epoch] and the members. *)
Record LeaseDB := mkLeaseDB {
  lrow : LeaseRow;
  lfence : Z;
  lmembers : gmap string ServerMember;
}.

Definition set_lrow (r : LeaseRow) (db : LeaseDB) : LeaseDB := mkLeaseDB r (lfence db) (lmembers db).

(** [Duration.Microseconds] and the refusal of a lease of no length. *)
Definition Microseconds (d : Z) : Z := Z.quot d 1000.

Definition LeaseTTLMicros (ttl : Z) : option Z :=
  let us := Microseconds ttl in if us <=? 0 then None else Some us.

(** [holder IS NULL OR expires_us < {now}] *)
Definition leaseFree (r : LeaseRow) (now : Z) : bool :=
  match LHolder r with None => true | Some _ => LExpiresUS r <? now end.

(** The new epoch, [None] when the lease is held, and the database after.
    [now] is the database's clock. *)
Definition AcquireLeadership (holder : string) (ttl now : Z) (db : LeaseDB)
    : option (option Z * LeaseDB) :=
  match LeaseTTLMicros ttl with
  | None => None
  | Some us =>
      let r := lrow db in
      if leaseFree r now then
        let epoch := LEpoch r + 1 in
        Some (Some epoch, mkLeaseDB (mkLeaseRow (Some holder) epoch (now + us)) epoch (lmembers db))
      else Some (None, db)
  end.

(** [holder = ? AND epoch = ?] *)
Definition holds (r : LeaseRow) (holder : string) (epoch : Z) : bool :=
  bool_decide (LHolder r = Some holder) && (LEpoch r =? epoch).

Definition RenewLeadership (holder : string) (epoch ttl now : Z) (db : LeaseDB)
    : option (bool * LeaseDB) :=
  match LeaseTTLMicros ttl with
  | None => None
  | Some us =>
      let r := lrow db in
      if holds r holder epoch
      then Some (true, set_lrow (mkLeaseRow (LHolder r) (LEpoch r) (now + us)) db)
      else Some (false, db)
  end.

Definition ReleaseLeadership (holder : string) (epoch : Z) (db : LeaseDB) : LeaseDB :=
  let r := lrow db in
  if holds r holder epoch then set_lrow (mkLeaseRow None (LEpoch r) (LExpiresUS r)) db else db.

Record Lease := mkLease {
  Holder : string;
  Epoch : Z;
  ExpiresUS : Z;
  NowUS : Z;
}.

Definition GetLeadership (now : Z) (db : LeaseDB) : Lease :=
  mkLease (default ""%string (LHolder (lrow db))) (LEpoch (lrow db)) (LExpiresUS (lrow db)) now.

Definition Held (l : Lease) : bool :=
  negb (bool_decide (Holder l = ""%string)) && (NowUS l <=? ExpiresUS l).

(** [sqlUpsertServerMember] *)
Definition UpsertServerMember (id name : string) (brokerOK : bool) (now : Z) (db : LeaseDB) : LeaseDB :=
  let stamp := if brokerOK then Some now else None in
  let kept := match lmembers db !! id with Some m => BrokerOKUS m | None => None end in
  mkLeaseDB (lrow db) (lfence db)
    (<[id := mkServerMember name now (match stamp with Some t => Some t | None => kept end)]> (lmembers db)).

(** [ORDER BY m.name, m.instance_id] *)
Definition member_le (a b : string * ServerMember) : bool :=
  if bool_decide (MemberName a.2 = MemberName b.2) then String.leb a.1 b.1
  else String.leb (MemberName a.2) (MemberName b.2).

Definition ListServerMembers (db : LeaseDB) : list (string * ServerMember) :=
  sort_by member_le (map_to_list (lmembers db)).

Definition DeleteServerMembersUnseenFor (d now : Z) (db : LeaseDB) : Z * LeaseDB :=
  let kept := filter (λ km : string * ServerMember, now - Microseconds d ≤ LastSeenUS km.2) (lmembers db) in
  (Z.of_nat (size (lmembers db)) - Z.of_nat (size kept), mkLeaseDB (lrow db) (lfence db) kept).

Definition BrokerSeenWithin (m : ServerMember) (nowUS ttl : Z) : bool :=
  match BrokerOKUS m with Some t => nowUS - t <=? Microseconds ttl | None => false end.

(** [sqlCheckFence]: a write commits while the epoch it carries is the
    database's; one that carries none always does. *)
Definition checkFence (epoch : option Z) (db : LeaseDB) : bool :=
  match epoch with None => true | Some e => lfence db =? e end.

(** ** Rosters *)

Inductive Role := RoleLeader | RoleStandby | RoleMissing.

Definition roleOf (lease : Lease) (nowUS ttl : Z) (m : string * ServerMember) : Role :=
  let age := Z.max (wrap64 ((nowUS - LastSeenUS m.2) * 1000)) 0 in
  if Held lease && bool_decide (m.1 = Holder lease) then RoleLeader
  else if age <=? ttl then RoleStandby
  else RoleMissing.

Definition isLeader (r : Role) : bool := match r with RoleLeader => true | _ => false end.

Definition roster_le (a b : string * ServerMember * Role) : bool :=
  if Bool.eqb (isLeader a.2) (isLeader b.2) then member_le a.1 b.1 else isLeader a.2.

Definition BuildRoster (lease : Lease) (members : list (string * ServerMember)) (nowUS ttl : Z)
    : list (string * ServerMember * Role) :=
  sort_by roster_le ((λ m, (m, roleOf lease nowUS ttl m)) <$> members).

(** ** One server's elector *)

Inductive Reason := ReasonRenewRefused | ReasonDeadline | ReasonFenced | ReasonGuardLost
  | ReasonBrokerLost | ReasonPromotion.

(** [holding]: [validUntil] is [None] for Go's zero time; [inFlight] is the
    renewal sent and not answered, with when it was sent. *)
Record holding := mkHolding {
  hEpoch : Z;
  validUntil : option Z;
  nextRenew : option Z;
  inFlight : option (nat * Z);
}.

(** Where the server is: between polls, waiting for an acquire, done campaigning,
    in [Hold], in [Hold] having released the lease under the broker-loss rule, or
    out of it. *)
Inductive Phase :=
  | Polling
  | Acquiring (id : nat) (t0 : Z)
  | Won (epoch : Z)
  | Holding (h : holding)
  | SteppingDown (h : holding)
  | Stopped.

Record Elector := mkElector {
  eEpoch : Z;
  eWon : Z;
  authAt : Z;
  downSince : option Z;
  eLost : option Reason;
  ePhase : Phase;
}.

Definition newElector : Elector := mkElector 0 0 0 None None Polling.

Definition set_ePhase (p : Phase) (e : Elector) : Elector :=
  mkElector (eEpoch e) (eWon e) (authAt e) (downSince e) (eLost e) p.
Definition set_downSince (d : option Z) (e : Elector) : Elector :=
  mkElector (eEpoch e) (eWon e) (authAt e) d (eLost e) (ePhase e).
Definition set_authAt (t : Z) (e : Elector) : Elector :=
  mkElector (eEpoch e) (eWon e) t (downSince e) (eLost e) (ePhase e).

Section Elector.
Context (ttl : Z).

Definition renewInterval : Z := Z.quot ttl 3.
Definition validity : Z := Z.quot (wrap64 (ttl * 4)) 5.
Definition retryInterval : Z := Z.quot ttl 10.

(** [!now.Before(t)]; no time is before the zero time. *)
Definition reached (now : Z) (t : option Z) : bool :=
  match t with None => true | Some t => t <=? now end.

Definition Authorized (e : Elector) (now : Z) : bool :=
  negb (eEpoch e =? 0) && (now <? authAt e + validity).

Definition markLost (r : Reason) (e : Elector) : Elector :=
  match eLost e with
  | Some _ => e
  | None => mkElector 0 (eWon e) (authAt e) (downSince e) (Some r) (ePhase e)
  end.

(** Whether the broker is up, how long it has been seen down, and the elector. *)
Definition observeBroker (up : bool) (now : Z) (e : Elector) : bool * Z * Elector :=
  if up then (true, 0, set_downSince None e)
  else
    let since := default now (downSince e) in
    (false, now - since, set_downSince (Some since) e).

(** The end of [tryAcquire], [r] being the epoch won: the elector, and the epoch
    it releases if it won too late. *)
Definition acquired (r : option Z) (t0 now : Z) (e : Elector) : Elector * option Z :=
  match r with
  | None => (set_ePhase Polling e, None)
  | Some epoch =>
      if t0 + validity <=? now then (set_ePhase Polling e, Some epoch)
      else (mkElector epoch epoch t0 (downSince e) (eLost e) (Won epoch), None)
  end.

(** The start of [Hold]. *)
Definition holdStart (epoch : Z) (e : Elector) : Elector :=
  let led := negb (epoch =? 0) && (epoch =? eEpoch e) in
  set_ePhase (Holding (mkHolding epoch
    (if led then Some (authAt e + validity) else None)
    (if led then Some (authAt e + renewInterval) else None) None)) e.

(** One pass of [Hold]'s loop: the elector, and whether it sends a renewal, which
    will have the number [id]. *)
Definition holdPass (id : nat) (h : holding) (now : Z) (e : Elector) : Elector * bool :=
  match eLost e with
  | Some _ => (set_ePhase Stopped e, false)
  | None =>
      if reached now (validUntil h) then (set_ePhase Stopped (markLost ReasonDeadline e), false)
      else match inFlight h with
           | Some _ => (e, false)
           | None =>
               if reached now (nextRenew h)
               then (set_ePhase (Holding (mkHolding (hEpoch h) (validUntil h) (nextRenew h)
                       (Some (id, now)))) e, true)
               else (e, false)
           end
  end.

Definition standbyHasBroker (members : list (string * ServerMember)) (self : string) (nowUS : Z) : bool :=
  existsb (λ m, negb (bool_decide (m.1 = self)) && BrokerSeenWithin m.2 nowUS ttl) members.

(** The broker-loss rule for [self] and the elector; [members] is [None] when they
    cannot be listed, else they with the database's clock. *)
Definition brokerLost (self : string) (up : bool) (now : Z)
    (members : option (list (string * ServerMember) * Z)) (e : Elector) : bool * Elector :=
  let '(up', downFor, e') := observeBroker up now e in
  if up' || (downFor <=? ttl) then (false, e')
  else match members with
       | None => (false, e')
       | Some (ms, nowUS) => (standbyHasBroker ms self nowUS, e')
       end.

(** [settle] of a renewal sent at [t0]: [r] is [None] for an error and else its
    answer with the broker-loss verdict.  The elector, and the epoch it releases. *)
Definition settle (h : holding) (t0 : Z) (r : option (bool * bool)) (e : Elector) : Elector * option Z :=
  match r with
  | None =>
      (set_ePhase (Holding (mkHolding (hEpoch h) (validUntil h) (Some (t0 + retryInterval)) None)) e, None)
  | Some (false, _) => (set_ePhase Stopped (markLost ReasonRenewRefused e), None)
  | Some (true, brokerLost) =>
      let later := match validUntil h with None => true | Some v => v <? t0 + validity end in
      let h' := mkHolding (hEpoch h) (if later then Some (t0 + validity) else validUntil h)
                  (Some (t0 + renewInterval)) None in
      let e' := if later then set_authAt t0 e else e in
      if brokerLost then (set_ePhase (SteppingDown h') e', Some (hEpoch h))
      else (set_ePhase (Holding h') e', None)
  end.

(** [Release]: the elector, and the epoch it releases. *)
Definition Release (e : Elector) : Elector * option Z :=
  (mkElector 0 0 (authAt e) (downSince e) (eLost e) (ePhase e),
   if eWon e =? 0 then None else Some (eWon e)).
End Elector.
