(* ===== verification/Election.v ===== *)
(** * Elections: several servers on one lease

    Servers with clocks of their own campaign for, hold and give up the lease of
    one database; requests and answers take any time or are lost, and a request
    its server has given up on may still be executed.  Clocks advance together:
    a server's clock may run slow against the database's by a fifth at most,
    which is the margin the self-fence leaves. *)

From S2P Require Import Prelude Leadership.
Open Scope Z_scope.

(** ** The system *)

Record Server := mkServer {
  clock : Z;
  elector : Elector;
}.

Inductive Msg :=
  | AcquireReq (i : string)
  | AcquireRes (i : string) (r : option Z)
  | RenewReq (i : string) (epoch : Z)
  | RenewRes (i : string) (ok : bool)
  | ReleaseReq (i : string) (epoch : Z).

(** [commits] are the epochs of the fenced writes committed so far, newest
    first. *)
Record Sys := mkSys {
  sdb : LeaseDB;
  sclock : Z;
  servers : gmap string Server;
  net : gmap nat Msg;
  nextID : nat;
  commits : list Z;
}.

Inductive Label :=
  | Tick (dt : Z) (adv : string → Z)
  | Campaign (i : string) (up : bool)
  | Exec (id : nat)
  | AnswerAcquire (id : nat)
  | AcquireError (i : string)
  | HoldBegin (i : string)
  | HoldTick (i : string)
  | AnswerRenew (id : nat) (up listed : bool)
  | RenewError (i : string)
  | StepDown (i : string)
  | Lose (i : string) (r : Reason)
  | ReleaseLead (i : string)
  | StopHold (i : string)
  | Drop (id : nat)
  | Write (epoch : option Z)
  | Membership (i name : string) (up : bool).

Definition now_us (s : Sys) : Z := sclock s / 1000.

Definition set_server (i : string) (sv : Server) (s : Sys) : Sys :=
  mkSys (sdb s) (sclock s) (<[i := sv]> (servers s)) (net s) (nextID s) (commits s).
Definition set_net (m : gmap nat Msg) (s : Sys) : Sys :=
  mkSys (sdb s) (sclock s) (servers s) m (nextID s) (commits s).
Definition set_sdb (d : LeaseDB) (s : Sys) : Sys :=
  mkSys d (sclock s) (servers s) (net s) (nextID s) (commits s).
Definition set_elector (i : string) (sv : Server) (e : Elector) (s : Sys) : Sys :=
  set_server i (mkServer (clock sv) e) s.

Definition send (m : Msg) (s : Sys) : Sys :=
  mkSys (sdb s) (sclock s) (servers s) (<[nextID s := m]> (net s)) (S (nextID s)) (commits s).

Definition send_release (i : string) (e : option Z) (s : Sys) : Sys :=
  match e with None => s | Some e => send (ReleaseReq i e) s end.

Section System.
Context (ttl : Z).

(** The database executes a request. *)
Definition exec_msg (id : nat) (m : Msg) (s : Sys) : option Sys :=
  match m with
  | AcquireReq i =>
      match AcquireLeadership i ttl (now_us s) (sdb s) with
      | None => None
      | Some (r, d) => Some (set_net (<[id := AcquireRes i r]> (net s)) (set_sdb d s))
      end
  | RenewReq i e =>
      match RenewLeadership i e ttl (now_us s) (sdb s) with
      | None => None
      | Some (ok, d) => Some (set_net (<[id := RenewRes i ok]> (net s)) (set_sdb d s))
      end
  | ReleaseReq i e => Some (set_net (delete id (net s)) (set_sdb (ReleaseLeadership i e (sdb s)) s))
  | _ => None
  end.

(** One step, [None] when it is not enabled. *)
Definition step (l : Label) (s : Sys) : option Sys :=
  match l with
  | Tick dt adv =>
      if bool_decide (0 ≤ dt ∧ map_Forall (λ i _, 4 * dt ≤ 5 * adv i) (servers s)) then
        Some (mkSys (sdb s) (sclock s + dt)
          (map_imap (λ i sv, Some (mkServer (clock sv + adv i) (elector sv))) (servers s))
          (net s) (nextID s) (commits s))
      else None
  | Campaign i up =>
      sv ← servers s !! i;
      match ePhase (elector sv) with
      | Polling =>
          let '(up', _, e) := observeBroker up (clock sv) (elector sv) in
          if up' : bool
          then Some (send (AcquireReq i) (set_elector i sv (set_ePhase (Acquiring (nextID s) (clock sv)) e) s))
          else Some (set_elector i sv e s)
      | _ => None
      end
  | Exec id => m ← net s !! id; exec_msg id m s
  | AnswerAcquire id =>
      match net s !! id with
      | Some (AcquireRes i r) =>
          sv ← servers s !! i;
          match ePhase (elector sv) with
          | Acquiring id' t0 =>
              if bool_decide (id' = id) then
                let '(e, rel) := acquired ttl r t0 (clock sv) (elector sv) in
                Some (send_release i rel (set_net (delete id (net s)) (set_elector i sv e s)))
              else None
          | _ => None
          end
      | _ => None
      end
  | AcquireError i =>
      sv ← servers s !! i;
      match ePhase (elector sv) with
      | Acquiring _ _ => Some (set_elector i sv (set_ePhase Polling (elector sv)) s)
      | _ => None
      end
  | HoldBegin i =>
      sv ← servers s !! i;
      match ePhase (elector sv) with
      | Won epoch => Some (set_elector i sv (holdStart ttl epoch (elector sv)) s)
      | _ => None
      end
  | HoldTick i =>
      sv ← servers s !! i;
      match ePhase (elector sv) with
      | Holding h =>
          let '(e, sends) := holdPass (nextID s) h (clock sv) (elector sv) in
          let s' := set_elector i sv e s in
          Some (if sends : bool then send (RenewReq i (hEpoch h)) s' else s')
      | _ => None
      end
  | AnswerRenew id up listed =>
      match net s !! id with
      | Some (RenewRes i ok) =>
          sv ← servers s !! i;
          match ePhase (elector sv) with
          | Holding h =>
              match inFlight h with
              | Some (id', t0) =>
                  if bool_decide (id' = id) then
                    let members := if listed : bool then Some (ListServerMembers (sdb s), now_us s) else None in
                    let '(lost, e) :=
                      if ok : bool then brokerLost ttl i up t0 members (elector sv) else (false, elector sv) in
                    let '(e', rel) := settle ttl h t0 (Some (ok, lost)) e in
                    Some (send_release i rel (set_net (delete id (net s)) (set_elector i sv e' s)))
                  else None
              | None => None
              end
          | _ => None
          end
      | _ => None
      end
  | RenewError i =>
      sv ← servers s !! i;
      match ePhase (elector sv) with
      | Holding h =>
          match inFlight h with
          | Some (_, t0) => Some (set_elector i sv (settle ttl h t0 None (elector sv)).1 s)
          | None => None
          end
      | _ => None
      end
  | StepDown i =>
      sv ← servers s !! i;
      match ePhase (elector sv) with
      | SteppingDown _ =>
          Some (set_elector i sv (set_ePhase Stopped (markLost ReasonBrokerLost (elector sv))) s)
      | _ => None
      end
  | Lose i r =>
      sv ← servers s !! i;
      Some (set_elector i sv (markLost r (elector sv)) s)
  | ReleaseLead i =>
      sv ← servers s !! i;
      let '(e, rel) := Release (elector sv) in
      Some (send_release i rel (set_elector i sv e s))
  | StopHold i =>
      sv ← servers s !! i;
      match ePhase (elector sv) with
      | Holding _ => Some (set_elector i sv (set_ePhase Stopped (elector sv)) s)
      | _ => None
      end
  | Drop id => Some (set_net (delete id (net s)) s)
  | Write epoch =>
      if checkFence epoch (sdb s)
      then Some (mkSys (sdb s) (sclock s) (servers s) (net s) (nextID s)
                   (match epoch with Some e => e :: commits s | None => commits s end))
      else Some s
  | Membership i name up =>
      sv ← servers s !! i;
      let '(up', _, e) := observeBroker up (clock sv) (elector sv) in
      Some (set_sdb (UpsertServerMember i name up' (now_us s) (sdb s)) (set_elector i sv e s))
  end.

Fixpoint steps (ls : list Label) (s : Sys) : option Sys :=
  match ls with
  | [] => Some s
  | l :: ls' => s' ← step l s; steps ls' s'
  end.

(** A lease nobody has held, and servers at any clock. *)
Definition initial (s : Sys) : Prop :=
  lrow (sdb s) = mkLeaseRow None 0 0 ∧ lfence (sdb s) = 0 ∧ net s = ∅ ∧ commits s = [] ∧
  map_Forall (λ _ sv, elector sv = newElector) (servers s).

Inductive reachable : Sys → Prop :=
  | reach_initial s : initial s → reachable s
  | reach_step s l s' : reachable s → step l s = Some s' → reachable s'.

Definition authorized (s : Sys) (i : string) : Prop :=
  ∃ sv, servers s !! i = Some sv ∧ Authorized ttl (elector sv) (clock sv) = true.

(** Between the release of the broker-loss rule and the loss it records. *)
Definition stepping_down (s : Sys) (i : string) : Prop :=
  ∃ sv h, servers s !! i = Some sv ∧ ePhase (elector sv) = SteppingDown h.
End System.

(** Only a write that passes the fence adds to the commits. *)
Lemma step_commits ttl l s s' :
  step ttl l s = Some s' →
  commits s' = commits s ∨ ∃ e, e = lfence (sdb s) ∧ commits s' = e :: commits s.
Proof.
  assert (∀ i e s, commits (send_release i e s) = commits s) as Hrel by (by intros i [e|] s0).
  destruct l; cbn [step]; unfold exec_msg, mbind, option_bind; intros H;
    repeat (case_in H; try done); simplify_eq; rewrite ?Hrel; cbn; auto.
  right. eexists. split; [|done]. match goal with H : checkFence _ _ = true |- _ => cbn in H; zbool end. done.
Qed.

(** ** The invariant *)

Section Invariant.
Context (ttl : Z) (Hpos : 0 < ttl) (Hus : ttl mod 1000 = 0) (Hmax : ttl * 4 ≤ MaxInt).

Lemma validity_bound : 5 * validity ttl ≤ 4 * ttl.
Proof.
  unfold validity. rewrite wrap64_id by zint. pose proof (Z.quot_pos (ttl * 4) 5).
  pose proof (Z.mul_quot_le (ttl * 4) 5). lia.
Qed.

Lemma ttl_us : LeaseTTLMicros ttl = Some (ttl / 1000) ∧ ttl / 1000 * 1000 = ttl.
Proof.
  pose proof (Z.div_mod ttl 1000). assert (ttl / 1000 * 1000 = ttl) as E by lia.
  split; [|done]. unfold LeaseTTLMicros, Microseconds. rewrite Z.quot_div_nonneg by lia.
  destruct (_ <=? 0) eqn:?; zbool; [lia|done].
Qed.

(** The database's clock has moved from [d0] to [D] at most a quarter faster than
    a server's from [t0] to [c]. *)
Definition drift (D c t0 d0 : Z) : Prop := d0 ≤ D ∧ 4 * (D - d0) ≤ 5 * (c - t0).

(** Server [i]'s authority from a request sent at [t0] is backed: the lease is
    its own at epoch [e] and lasts a full term from then, or the authority is
    over. *)
Definition backed (r : LeaseRow) (D c : Z) (i : string) (e t0 : Z) : Prop :=
  (LHolder r = Some i ∧ LEpoch r = e ∧ ∃ d0, drift D c t0 d0 ∧ d0 + ttl < (LExpiresUS r + 1) * 1000)
  ∨ validity ttl ≤ c - t0.

Definition stepping (e : Elector) : bool :=
  match ePhase e with SteppingDown _ => true | _ => false end.

Definition never_released (nt : gmap nat Msg) (i : string) (e : Z) : Prop :=
  ∀ id, nt !! id ≠ Some (ReleaseReq i e).

(** What the phase of server [i] relies on. *)
Definition phase_ok (r : LeaseRow) (D : Z) (nt : gmap nat Msg) (nid : nat) (i : string) (sv : Server) : Prop :=
  let e := elector sv in
  let c := clock sv in
  match ePhase e with
  | Polling => eEpoch e = 0 ∧ eWon e = 0
  | Acquiring id t0 =>
      eEpoch e = 0 ∧ eWon e = 0 ∧ (id < nid)%nat ∧ (∃ d0, drift D c t0 d0) ∧
      ∀ m, nt !! id = Some m → m = AcquireReq i ∨ m = AcquireRes i None ∨
        ∃ ep, m = AcquireRes i (Some ep) ∧ 0 < ep ≤ LEpoch r ∧ backed r D c i ep t0 ∧ never_released nt i ep
  | Won ep => (eEpoch e ≠ 0 → ep = eEpoch e) ∧ ep ≤ LEpoch r
  | Holding h =>
      ((eEpoch e ≠ 0 → hEpoch h = eEpoch e) ∧ hEpoch h ≤ LEpoch r) ∧
      match inFlight h with
      | None => True
      | Some (id, t0) =>
          (eEpoch e ≠ 0 → eLost e = None) ∧ (id < nid)%nat ∧ (∃ d0, drift D c t0 d0) ∧
          ∀ m, nt !! id = Some m → m = RenewReq i (hEpoch h) ∨ m = RenewRes i false ∨
            m = RenewRes i true ∧ (eEpoch e ≠ 0 → backed r D c i (hEpoch h) t0)
      end
  | SteppingDown _ => eEpoch e ≠ 0 → eLost e = None
  | Stopped => True
  end.

Definition server_ok (r : LeaseRow) (D : Z) (nt : gmap nat Msg) (nid : nat) (i : string) (sv : Server) : Prop :=
  let e := elector sv in
  0 ≤ eEpoch e ≤ LEpoch r ∧ 0 ≤ eWon e ≤ LEpoch r ∧
  (stepping e = false → eEpoch e ≠ 0 →
     backed r D (clock sv) i (eEpoch e) (authAt e) ∧ never_released nt i (eEpoch e)) ∧
  phase_ok r D nt nid i sv.

Record Inv (s : Sys) : Prop := mkInv {
  inv_fence : lfence (sdb s) = LEpoch (lrow (sdb s));
  inv_epoch : 0 ≤ LEpoch (lrow (sdb s));
  inv_ids : ∀ id m, net s !! id = Some m → (id < nextID s)%nat;
  inv_releases : ∀ id i e, net s !! id = Some (ReleaseReq i e) → e ≤ LEpoch (lrow (sdb s));
  inv_servers : map_Forall (server_ok (lrow (sdb s)) (sclock s) (net s) (nextID s)) (servers s);
  inv_commits : StronglySorted Z.ge (commits s) ∧ Forall (λ e, e ≤ lfence (sdb s)) (commits s);
}.

(** *** How its parts move *)

(** A lease that can be taken backs nobody. *)
Lemma backed_free r D c i e t0 :
  leaseFree r (D / 1000) = true → backed r D c i e t0 → validity ttl ≤ c - t0.
Proof.
  unfold leaseFree. intros Hf [(Hh & _ & d0 & [Hd Hr] & Hp)|H]; [|done]. rewrite Hh in Hf. zbool.
  pose proof (Z.mul_div_le D 1000). pose proof validity_bound. nia.
Qed.

(** A lease set now backs any earlier request. *)
Lemma backed_set i e D c t0 d0 :
  drift D c t0 d0 → backed (mkLeaseRow (Some i) e (D / 1000 + ttl / 1000)) D c i e t0.
Proof.
  intros Hd. left. cbn. split; [done|]. split; [done|]. exists d0. split; [done|]. destruct Hd.
  pose proof (Z.mod_pos_bound D 1000). pose proof (Z.div_mod D 1000). pose proof (proj2 ttl_us). lia.
Qed.

Lemma backed_tick r D c i e t0 dt adv :
  0 ≤ dt → 4 * dt ≤ 5 * adv → backed r D c i e t0 → backed r (D + dt) (c + adv) i e t0.
Proof.
  intros H1 H2 [(Hh & He & d0 & [Hd Hr] & Hp)|H]; [left|right; lia].
  split; [done|]. split; [done|]. exists d0. unfold drift. split; [lia|done].
Qed.

(** A server that does not rely on epoch [e] any more. *)
Definition gives_up (sv : Server) (e : Z) : Prop :=
  (stepping (elector sv) = false → eEpoch (elector sv) ≠ 0 → eEpoch (elector sv) ≠ e) ∧
  ∀ id t0, ePhase (elector sv) ≠ Acquiring id t0.

(** The messages a server relies on are still there, or are gone, and the new
    ones do not release what it relies on. *)
Lemma server_ok_net r D nt nid nt' nid' i sv :
  server_ok r D nt nid i sv → (nid ≤ nid')%nat →
  (∀ id m, nt' !! id = Some m →
     nt !! id = Some m ∨ ((nid ≤ id)%nat ∧ ∀ e, m = ReleaseReq i e → gives_up sv e)) →
  server_ok r D nt' nid' i sv.
Proof.
  intros (H1 & H2 & H3 & H4) Hn Hm.
  assert (∀ id m, (id < nid)%nat → nt' !! id = Some m → nt !! id = Some m) as Hold.
  { intros id m Hid E. destruct (Hm _ _ E) as [E'|[Hle _]]; [done|lia]. }
  split; [done|]. split; [done|]. split.
  { intros Hs He. destruct (H3 Hs He) as [Hb Hr]. split; [done|]. intros id E.
    destruct (Hm _ _ E) as [E'|[_ Hg]]; [by apply (Hr id)|]. by destruct (Hg _ eq_refl) as [[] _]. }
  unfold phase_ok in *. destruct (ePhase (elector sv)) as [|id t0| |h| |] eqn:Ep; try done.
  - destruct H4 as (E1 & E2 & Hid & Hd & H4). split_and!; [done|done|lia|done|].
    intros m E. destruct (H4 m (Hold _ _ Hid E)) as [->|[->|(ep & -> & Hep & Hb & Hr)]]; [auto..|].
    right; right. exists ep. split_and!; [done|lia..|done|]. intros id' E'.
    destruct (Hm _ _ E') as [E2'|[_ Hg]]; [by apply (Hr id')|].
    destruct (Hg _ eq_refl) as [_ Hna]. by apply (Hna id t0).
  - destruct H4 as [E1 H4]. split; [done|]. destruct (inFlight h) as [[id t0]|]; [|done].
    destruct H4 as (Hlo & Hid & Hd & H4). split_and!; [done|lia|done|]. intros m E. eauto.
Qed.

Lemma server_ok_tick r D nt nid i sv dt adv :
  0 ≤ dt → 4 * dt ≤ 5 * adv → server_ok r D nt nid i sv →
  server_ok r (D + dt) nt nid i (mkServer (clock sv + adv) (elector sv)).
Proof.
  intros Hdt Hadv (H1 & H2 & H3 & H4).
  assert (∀ c t0, (∃ d0, drift D c t0 d0) → ∃ d0, drift (D + dt) (c + adv) t0 d0) as Hd.
  { intros c t0 (d0 & Hd & Hr). exists d0. unfold drift. lia. }
  assert (∀ e t0, backed r D (clock sv) i e t0 → backed r (D + dt) (clock sv + adv) i e t0) as Hb
    by (intros; by apply backed_tick).
  split; [done|]. split; [done|]. split.
  { intros Hs He. destruct (H3 Hs He). auto. }
  unfold phase_ok in *. cbn [elector clock]. destruct (ePhase (elector sv)) as [|id t0| |h| |]; try done.
  - destruct H4 as (E1 & E2 & Hid & Hdr & H4). split_and!; auto.
    intros m E. destruct (H4 m E) as [->|[->|(ep & -> & Hep & Hbk & Hr)]]; [auto..|].
    right; right. exists ep. split_and!; [done|lia..|auto|done].
  - destruct H4 as [E1 H4]. split; [done|]. destruct (inFlight h) as [[id t0]|]; [|done].
    destruct H4 as (Hlo & Hid & Hdr & H4). split; [done|]. split; [done|]. split; [auto|]. intros m E.
    destruct (H4 m E) as [->|[->|[-> Hbk]]]; [by left|by right; left|]. right; right. auto.
Qed.

(** The row changes, backing what it backed of a server that has not asked for
    its release. *)
Lemma server_ok_row r r' D nt nid i sv :
  server_ok r D nt nid i sv → LEpoch r ≤ LEpoch r' →
  (∀ e t0, never_released nt i e → backed r D (clock sv) i e t0 → backed r' D (clock sv) i e t0) →
  server_ok r' D nt nid i sv.
Proof.
  intros (H1 & H2 & H3 & H4) He Hb. split; [lia|]. split; [lia|]. split.
  { intros Hs Hne. destruct (H3 Hs Hne). auto. }
  unfold phase_ok in *. destruct (ePhase (elector sv)) as [|id t0|ep|h| |] eqn:Ep; try done.
  - destruct H4 as (E1 & E2 & Hid & Hdr & H4). split_and!; auto.
    intros m E. destruct (H4 m E) as [->|[->|(ep & -> & Hep & Hbk & Hr)]]; [auto..|].
    right; right. exists ep. split_and!; auto; lia.
  - destruct H4 as [H4 Hle]. split; [done|lia].
  - destruct H4 as [[E1 Hle] H4]. split; [split; [done|lia]|]. destruct (inFlight h) as [[id t0]|]; [|done].
    destruct H4 as (Hlo & Hid & Hdr & H4). do 3 (split; [done|]). intros m E.
    destruct (H4 m E) as [->|[->|[-> Hbk]]]; [auto..|]. right; right. split; [done|]. intros Hne.
    apply Hb; [|auto]. rewrite E1 by done. apply H3; [|done]. unfold stepping. by rewrite Ep.
Qed.

(** The answer to a request takes its place. *)
Lemma server_ok_answer r D nt nid i sv id m m' :
  server_ok r D nt nid i sv → nt !! id = Some m → (∀ k e, m' ≠ ReleaseReq k e) →
  (∀ t0, ePhase (elector sv) = Acquiring id t0 → m = AcquireReq i → m' = AcquireRes i None ∨
     ∃ ep, m' = AcquireRes i (Some ep) ∧ 0 < ep ≤ LEpoch r ∧ backed r D (clock sv) i ep t0
           ∧ never_released nt i ep) →
  (∀ h t0, ePhase (elector sv) = Holding h → inFlight h = Some (id, t0) → m = RenewReq i (hEpoch h) →
     m' = RenewRes i false ∨ m' = RenewRes i true ∧ backed r D (clock sv) i (hEpoch h) t0) →
  (∀ k e, m ≠ RenewRes k e) → (∀ k e, m ≠ AcquireRes k e) →
  server_ok r D (<[id := m']> nt) nid i sv.
Proof.
  intros (H1 & H2 & H3 & H4) Em Hrel Hacq Hren Hn1 Hn2.
  assert (∀ e, never_released nt i e → never_released (<[id := m']> nt) i e) as Hnr.
  { intros e H id' [[_ E]|[_ E]]%lookup_insert_Some; [by apply (Hrel i e)|by apply (H id')]. }
  split; [done|]. split; [done|]. split.
  { intros Hs He. destruct (H3 Hs He). auto. }
  unfold phase_ok in *. destruct (ePhase (elector sv)) as [|id1 t0| |h| |] eqn:Ep; try done.
  - destruct H4 as (E1 & E2 & Hid & Hdr & H4). split_and!; auto.
    intros x [[<- <-]|[Hne E]]%lookup_insert_Some.
    + destruct (H4 m Em) as [->|[->|(ep & -> & _)]]; [|by destruct (Hn2 i None)|by destruct (Hn2 i (Some ep))].
      destruct (Hacq t0 eq_refl eq_refl) as [->|(ep & -> & Hep & Hb & Hr)]; eauto 10.
    + destruct (H4 x E) as [->|[->|(ep & -> & Hep & Hb & Hr)]]; eauto 10.
  - destruct H4 as [E1 H4]. split; [done|]. destruct (inFlight h) as [[id1 t0]|] eqn:Ef; [|done].
    destruct H4 as (Hlo & Hid & Hdr & H4). split_and!; auto.
    intros x [[<- <-]|[Hne E]]%lookup_insert_Some; [|auto].
    destruct (H4 m Em) as [->|[->|[-> _]]]; [|by destruct (Hn1 i false)|by destruct (Hn1 i true)].
    destruct (Hren h t0 eq_refl Ef eq_refl) as [->|[-> Hb]]; auto.
Qed.

(** *** The invariant under each part of a step *)

Lemma Inv_elector s i sv e :
  Inv s → servers s !! i = Some sv →
  server_ok (lrow (sdb s)) (sclock s) (net s) (nextID s) i (mkServer (clock sv) e) →
  Inv (set_elector i sv e s).
Proof.
  intros [] E H. split; try done. cbn. by apply map_Forall_insert_2.
Qed.

Lemma Inv_delete s id : Inv s → Inv (set_net (delete id (net s)) s).
Proof.
  intros []. split; try done; cbn.
  - intros id' m [_ E]%lookup_delete_Some. eauto.
  - intros id' i e [_ E]%lookup_delete_Some. eauto.
  - intros i sv E. eapply server_ok_net; [by apply inv_servers0|done|].
    intros id' m [_ E']%lookup_delete_Some. by left.
Qed.

Lemma Inv_send s m :
  Inv s → (∀ i e, m = ReleaseReq i e → e ≤ LEpoch (lrow (sdb s)) ∧
             ∀ sv, servers s !! i = Some sv → gives_up sv e) →
  Inv (send m s).
Proof.
  intros [] Hm. split; try done; cbn.
  - intros id x [[<- <-]|[_ E]]%lookup_insert_Some; [lia|]. specialize (inv_ids0 _ _ E). lia.
  - intros id i e [[<- ->]|[_ E]]%lookup_insert_Some; [by apply (Hm i e)|eauto].
  - intros i sv E. eapply server_ok_net; [by apply inv_servers0|lia|].
    intros id x [[<- <-]|[_ E']]%lookup_insert_Some; [right|by left]. split; [lia|].
    intros e ->. by apply (Hm i e).
Qed.

Lemma Inv_send_release s i e :
  Inv s → (∀ ep, e = Some ep → ep ≤ LEpoch (lrow (sdb s)) ∧ ∀ sv, servers s !! i = Some sv → gives_up sv ep) →
  Inv (send_release i e s).
Proof. intros HI H. destruct e as [e|]; [|done]. apply Inv_send; [done|]. intros ? ? [= <- <-]. auto. Qed.

(** The database's own steps: it answers an acquire, *)
Lemma Inv_acquire id i s s' :
  Inv s → net s !! id = Some (AcquireReq i) → exec_msg ttl id (AcquireReq i) s = Some s' → Inv s'.
Proof.
  intros HI Em. cbn. unfold AcquireLeadership. rewrite (proj1 ttl_us).
  destruct (leaseFree _ _) eqn:Hf; intros [= <-]; destruct HI; split; cbn; try done; try lia.
  - intros id' m [[<- <-]|[_ E]]%lookup_insert_Some; eauto.
  - intros id' k e [[_ E]|[_ E]]%lookup_insert_Some; [done|]. specialize (inv_releases0 _ _ _ E). lia.
  - intros k sv E. pose proof (inv_servers0 k sv E) as Hk. set (r' := mkLeaseRow _ _ _).
    assert (server_ok r' (sclock s) (net s) (nextID s) k sv) as Hk'.
    { eapply server_ok_row; [done|cbn; lia|]. intros e t0 _ Hb. right. by eapply backed_free. }
    eapply server_ok_answer; [exact Hk'|exact Em|done| |done..].
    intros t0 Hp [= ->]. right. eexists. split; [done|]. split; [cbn; lia|].
    destruct Hk' as (_ & _ & _ & Hph). unfold phase_ok in Hph. rewrite Hp in Hph.
    destruct Hph as (_ & _ & _ & (d0 & Hd) & _). split; [by eapply backed_set|].
    intros id' E'. specialize (inv_releases0 _ _ _ E'). lia.
  - destruct inv_commits0 as [Hs Hl]. split; [done|]. eapply Forall_impl; [exact Hl|]. cbn. lia.
  - intros id' m [[<- <-]|[_ E]]%lookup_insert_Some; eauto.
  - intros id' k e [[_ E]|[_ E]]%lookup_insert_Some; [done|eauto].
  - intros k sv E. eapply server_ok_answer; [by apply inv_servers0|exact Em|done| |done..].
    intros t0 _ [= ->]. by left.
Qed.

(** a renewal, which backs again what the lease backed, *)
Lemma Inv_renew id i e s s' :
  Inv s → net s !! id = Some (RenewReq i e) → exec_msg ttl id (RenewReq i e) s = Some s' → Inv s'.
Proof.
  intros HI Em. cbn. unfold RenewLeadership. rewrite (proj1 ttl_us).
  destruct (holds _ _ _) eqn:Hh; intros [= <-]; destruct HI; split; cbn; try done.
  - intros id' m [[<- <-]|[_ E]]%lookup_insert_Some; eauto.
  - intros id' k e' [[_ E]|[_ E]]%lookup_insert_Some; [done|eauto].
  - apply andb_prop in Hh as [Hh He]. apply bool_decide_eq_true in Hh. zbool.
    intros k sv E. pose proof (inv_servers0 k sv E) as Hk. set (r' := mkLeaseRow _ _ _).
    assert (server_ok r' (sclock s) (net s) (nextID s) k sv) as Hk'.
    { eapply server_ok_row; [done|cbn; lia|]. intros e' t0 _ [(Hh' & He' & d0 & Hd & _)|Hb]; [|by right].
      subst r'. rewrite Hh', He'. by eapply backed_set. }
    eapply server_ok_answer; [exact Hk'|exact Em|done|done| |done..].
    intros h t0 Hp Hf [= -> Hep]. right. split; [done|].
    destruct Hk' as (_ & _ & _ & Hph). unfold phase_ok in Hph. rewrite Hp, Hf in Hph.
    destruct Hph as (_ & _ & _ & (d0 & Hd) & _). subst r'. rewrite Hh, He, Hep. by eapply backed_set.
  - intros id' m [[<- <-]|[_ E]]%lookup_insert_Some; eauto.
  - intros id' k e' [[_ E]|[_ E]]%lookup_insert_Some; [done|eauto].
  - intros k sv E. eapply server_ok_answer; [by apply inv_servers0|exact Em|done|done| |done..].
    intros h t0 _ _ [= -> ->]. by left.
Qed.

(** and a release, which nobody relies on. *)
Lemma Inv_release id i e s s' :
  Inv s → net s !! id = Some (ReleaseReq i e) → exec_msg ttl id (ReleaseReq i e) s = Some s' → Inv s'.
Proof.
  intros HI Em. cbn. intros [= <-].
  assert (Inv (set_sdb (ReleaseLeadership i e (sdb s)) s)) as HI'.
  { unfold ReleaseLeadership. destruct (holds _ _ _) eqn:Hh; [|by destruct s].
    apply andb_prop in Hh as [Hh He]. apply bool_decide_eq_true in Hh. zbool.
    destruct HI. split; cbn; try done. intros k sv E.
    eapply server_ok_row; [by apply inv_servers0|cbn; lia|].
    intros e' t0 Hn [(Hh' & He' & _)|Hb]; [|by right]. exfalso. apply (Hn id). rewrite Em. congruence. }
  apply (Inv_delete _ id HI').
Qed.

Lemma Inv_exec id m s s' : Inv s → net s !! id = Some m → exec_msg ttl id m s = Some s' → Inv s'.
Proof. intros HI Em. destruct m; try done; [by apply Inv_acquire|by apply Inv_renew|by apply Inv_release]. Qed.

(** *** The servers' steps *)

(** Sending and a server's own change do not disturb each other. *)
Lemma Inv_send_elector s i sv e m :
  Inv (send m s) → servers s !! i = Some sv →
  server_ok (lrow (sdb s)) (sclock s) (<[nextID s := m]> (net s)) (S (nextID s)) i (mkServer (clock sv) e) →
  Inv (send m (set_elector i sv e s)).
Proof. intros HI E H. by apply (Inv_elector (send m s)). Qed.

Lemma drift_now D c : ∃ d0, drift D c c d0.
Proof. exists D. unfold drift. lia. Qed.

Lemma Inv_campaign i up s s' : Inv s → step ttl (Campaign i up) s = Some s' → Inv s'.
Proof.
  intros HI. cbn [step]. destruct (servers s !! i) as [sv|] eqn:E; [|done]. cbn [mbind option_bind].
  pose proof (inv_servers s HI i sv E) as (H1 & H2 & _ & H4). unfold phase_ok in H4.
  destruct (ePhase (elector sv)) eqn:Ep; try done. destruct H4 as [He Hw].
  destruct up; cbn; intros [= <-].
  - apply Inv_send_elector; [by apply Inv_send|done|]. split; [done|]. split; [done|].
    split; [intros _ Hne; by destruct Hne|]. unfold phase_ok. cbn.
    split_and!; [done|done|lia|apply drift_now|]. intros m. rewrite lookup_insert_eq. intros [= <-]. by left.
  - apply Inv_elector; [done..|]. split; [done|]. split; [done|].
    split; [intros _ Hne; by destruct Hne|]. unfold phase_ok. cbn. by rewrite Ep.
Qed.

Lemma Inv_answer_acquire id s s' : Inv s → step ttl (AnswerAcquire id) s = Some s' → Inv s'.
Proof.
  intros HI. cbn [step]. destruct (net s !! id) as [[|i r| | |]|] eqn:Em; try done.
  destruct (servers s !! i) as [sv|] eqn:E; [|done]. cbn [mbind option_bind].
  pose proof (inv_servers s HI i sv E) as (H1 & H2 & _ & H4). unfold phase_ok in H4.
  destruct (ePhase (elector sv)) as [|id' t0| | | |] eqn:Ep; try done.
  case_bool_decide as Hid; [|done]. subst id'. destruct H4 as (He & Hw & Hid & Hd & H4).
  assert (∀ e, ePhase e = Polling → eEpoch e = 0 → eWon e = 0 → Inv (set_elector i sv e s)) as Hpoll.
  { intros e P1 P2 P3. apply Inv_elector; [done..|]. split; [cbn; lia|]. split; [cbn; lia|].
    split; [intros _ Hne; by destruct Hne|]. unfold phase_ok. cbn. by rewrite P1. }
  destruct (H4 _ Em) as [?|[[= ->]|(ep & [= ->] & Hep & Hb & Hr)]]; [done|..]; unfold acquired.
  { intros [= <-]. cbn [send_release]. apply (Inv_delete (set_elector i sv _ s)). by apply Hpoll. }
  destruct (_ <=? _) eqn:Hlate; intros [= <-]; cbn [send_release].
  - apply Inv_send; [apply (Inv_delete (set_elector i sv _ s)); by apply Hpoll|].
    intros k e [= <- <-]. cbn. split; [lia|]. intros sv'. rewrite lookup_insert_eq. intros [= <-].
    split; [by intros _ []|done].
  - apply (Inv_delete (set_elector i sv _ s)). apply Inv_elector; [done..|].
    split; [cbn; lia|]. split; [cbn; lia|]. cbn. split; [by split|]. unfold phase_ok. cbn. split; [done|lia].
Qed.

(** A server that stops keeps its authority or gives it up. *)
Lemma server_ok_stopped r D nt nid i sv e :
  server_ok r D nt nid i sv → ePhase e = Stopped → 0 ≤ eWon e ≤ LEpoch r →
  eEpoch e = 0 ∨ stepping (elector sv) = false ∧ eEpoch e = eEpoch (elector sv) ∧ authAt e = authAt (elector sv) →
  server_ok r D nt nid i (mkServer (clock sv) e).
Proof.
  intros (H1 & H2 & H3 & H4) Hp Hw He. unfold server_ok, phase_ok. cbn. rewrite Hp.
  destruct He as [He|(Hs & He & Ha)]; rewrite He.
  - split; [lia|]. split; [done|]. split; [|done]. by intros _ [].
  - rewrite Ha. split; [done|]. split; [done|]. split; [|done]. intros _. by apply H3.
Qed.

Lemma markLost_epoch r e :
  eEpoch (markLost r e) = (match eLost e with None => 0 | Some _ => eEpoch e end) ∧
  eWon (markLost r e) = eWon e ∧ authAt (markLost r e) = authAt e ∧ ePhase (markLost r e) = ePhase e ∧
  (eLost (markLost r e) = None → False).
Proof. unfold markLost. destruct (eLost e) eqn:E; cbn; rewrite ?E; done. Qed.

Lemma Inv_acquire_error i s s' : Inv s → step ttl (AcquireError i) s = Some s' → Inv s'.
Proof.
  intros HI. cbn [step]. destruct (servers s !! i) as [sv|] eqn:E; [|done]. cbn [mbind option_bind].
  pose proof (inv_servers s HI i sv E) as (H1 & H2 & _ & H4). unfold phase_ok in H4.
  destruct (ePhase (elector sv)) eqn:Ep; try done. destruct H4 as (He & Hw & _). intros [= <-].
  apply Inv_elector; [done..|]. split; [done|]. split; [done|]. split; [by intros _ []|].
  unfold phase_ok. cbn. done.
Qed.

Lemma Inv_hold_begin i s s' : Inv s → step ttl (HoldBegin i) s = Some s' → Inv s'.
Proof.
  intros HI. cbn [step]. destruct (servers s !! i) as [sv|] eqn:E; [|done]. cbn [mbind option_bind].
  pose proof (inv_servers s HI i sv E) as (H1 & H2 & H3 & H4). unfold phase_ok in H4.
  destruct (ePhase (elector sv)) eqn:Ep; try done. intros [= <-].
  apply Inv_elector; [done..|]. split; [done|]. split; [done|]. split; [|done].
  intros _. apply H3. unfold stepping. by rewrite Ep.
Qed.

Lemma Inv_stop_hold i s s' : Inv s → step ttl (StopHold i) s = Some s' → Inv s'.
Proof.
  intros HI. cbn [step]. destruct (servers s !! i) as [sv|] eqn:E; [|done]. cbn [mbind option_bind].
  pose proof (inv_servers s HI i sv E) as Hs. destruct (ePhase (elector sv)) eqn:Ep; try done.
  intros [= <-]. apply Inv_elector; [done..|]. eapply server_ok_stopped; [done|done|apply Hs|].
  right. unfold stepping. by rewrite Ep.
Qed.

Lemma Inv_step_down i s s' : Inv s → step ttl (StepDown i) s = Some s' → Inv s'.
Proof.
  intros HI. cbn [step]. destruct (servers s !! i) as [sv|] eqn:E; [|done]. cbn [mbind option_bind].
  pose proof (inv_servers s HI i sv E) as Hs. destruct (ePhase (elector sv)) eqn:Ep; try done.
  intros [= <-]. apply Inv_elector; [done..|].
  destruct (markLost_epoch ReasonBrokerLost (elector sv)) as (M1 & M2 & M3 & _).
  eapply server_ok_stopped; [done|done|cbn; rewrite M2; apply Hs|]. left. cbn. rewrite M1.
  destruct Hs as (_ & _ & _ & H4). unfold phase_ok in H4. rewrite Ep in H4.
  destruct (eLost (elector sv)); [|done]. destruct (decide (eEpoch (elector sv) = 0)); [done|].
  by specialize (H4 n).
Qed.

(** The elector's epoch is dropped, its phase kept. *)
Lemma server_ok_drop r D nt nid i sv e :
  server_ok r D nt nid i sv → ePhase e = ePhase (elector sv) → eEpoch e = 0 →
  eWon e = eWon (elector sv) ∨ eWon e = 0 → server_ok r D nt nid i (mkServer (clock sv) e).
Proof.
  intros (H1 & H2 & H3 & H4) Hp He Hw. unfold server_ok, phase_ok in *. cbn. rewrite He, Hp.
  split; [lia|]. split; [lia|]. split; [by intros _ []|].
  destruct (ePhase (elector sv)) as [|id t0| |h| |]; try done.
  - split; [done|]. destruct H4 as [_ H4]. lia.
  - destruct H4 as (_ & Hw' & H4). split; [done|]. split; [lia|done].
  - by destruct H4 as [_ H4].
  - destruct H4 as [[_ Hle] H4]. split; [by split; [intros []|]|]. destruct (inFlight h) as [[id t0]|]; [|done].
    destruct H4 as (_ & Hid & Hd & H4). do 3 (split; [done|]). intros m E.
    destruct (H4 m E) as [->|[->|[-> _]]]; auto. right; right. by split; [|intros []].
Qed.

Lemma Inv_lose i r s s' : Inv s → step ttl (Lose i r) s = Some s' → Inv s'.
Proof.
  intros HI. cbn [step]. destruct (servers s !! i) as [sv|] eqn:E; [|done]. cbn [mbind option_bind].
  intros [= <-]. pose proof (inv_servers s HI i sv E) as Hs. apply Inv_elector; [done..|].
  destruct (markLost_epoch r (elector sv)) as (M1 & M2 & M3 & M4 & _).
  destruct (eLost (elector sv)) eqn:El.
  - unfold markLost. rewrite El. by destruct sv.
  - apply server_ok_drop; auto.
Qed.

Lemma Inv_release_lead i s s' : Inv s → step ttl (ReleaseLead i) s = Some s' → Inv s'.
Proof.
  intros HI. cbn [step]. destruct (servers s !! i) as [sv|] eqn:E; [|done]. cbn [mbind option_bind].
  pose proof (inv_servers s HI i sv E) as Hs. unfold Release. intros [= <-].
  apply Inv_send_release.
  - apply Inv_elector; [done..|]. apply server_ok_drop; auto.
  - intros ep. destruct (eWon (elector sv) =? 0) eqn:Hw; [done|]. intros [= <-]. zbool. cbn.
    destruct Hs as (_ & H2 & _ & H4). split; [lia|]. intros sv'. rewrite lookup_insert_eq. intros [= <-].
    split; [by intros _ []|]. cbn. intros id t0 Ep. unfold phase_ok in H4. rewrite Ep in H4.
    by destruct H4 as (_ & ? & _).
Qed.

Lemma Inv_hold_tick i s s' : Inv s → step ttl (HoldTick i) s = Some s' → Inv s'.
Proof.
  intros HI. cbn [step]. destruct (servers s !! i) as [sv|] eqn:E; [|done]. cbn [mbind option_bind].
  pose proof (inv_servers s HI i sv E) as Hs. destruct (ePhase (elector sv)) as [| | |h| |] eqn:Ep; try done.
  assert (stepping (elector sv) = false) as Hst by (unfold stepping; by rewrite Ep).
  assert (Inv (set_elector i sv (elector sv) s)) as Hsame by (apply Inv_elector; [done..|by destruct sv]).
  unfold holdPass. destruct (eLost (elector sv)) eqn:El.
  { intros [= <-]. apply Inv_elector; [done..|]. eapply server_ok_stopped; [done|done|apply Hs|].
    by right. }
  destruct (reached _ _).
  { intros [= <-]. apply Inv_elector; [done..|].
    destruct (markLost_epoch ReasonDeadline (elector sv)) as (M1 & M2 & _). rewrite El in M1.
    eapply server_ok_stopped; [done|done|cbn; rewrite M2; apply Hs|]. by left. }
  destruct (inFlight h); [by intros [= <-]|]. destruct (reached _ _); intros [= <-]; [|done].
  assert (Inv (send (RenewReq i (hEpoch h)) s)) as HI' by by apply Inv_send.
  apply Inv_send_elector; [done..|].
  pose proof (inv_servers _ HI' i sv E) as (H1 & H2 & H3 & H4). unfold phase_ok in H4. rewrite Ep in H4.
  split; [done|]. split; [done|]. split; [by intros _; apply H3|]. destruct H4 as [H4 _].
  unfold phase_ok. cbn. split; [done|]. split; [done|]. split; [lia|]. split; [apply drift_now|].
  intros m. rewrite lookup_insert_eq. intros [= <-]. by left.
Qed.

Lemma Inv_renew_error i s s' : Inv s → step ttl (RenewError i) s = Some s' → Inv s'.
Proof.
  intros HI. cbn [step]. destruct (servers s !! i) as [sv|] eqn:E; [|done]. cbn [mbind option_bind].
  pose proof (inv_servers s HI i sv E) as (H1 & H2 & H3 & H4). unfold phase_ok in H4.
  destruct (ePhase (elector sv)) as [| | |h| |] eqn:Ep; try done.
  destruct (inFlight h) as [[id t0]|]; [|done]. intros [= <-]. apply Inv_elector; [done..|].
  split; [done|]. split; [done|]. split; [|by split; [apply H4|]].
  intros _. apply H3. unfold stepping. by rewrite Ep.
Qed.

(** The elector that settles an answer, before the broker-loss rule acts. *)
Lemma server_ok_settle r D nt nid i sv h id t0 v e :
  server_ok r D nt nid i sv → ePhase (elector sv) = Holding h → inFlight h = Some (id, t0) →
  nt !! id = Some (RenewRes i true) →
  eEpoch e = eEpoch (elector sv) → eWon e = eWon (elector sv) → eLost e = eLost (elector sv) →
  authAt e = authAt (elector sv) ∨ authAt e = t0 →
  (ePhase e = Holding v ∧ hEpoch v = hEpoch h ∧ inFlight v = None) ∨ ePhase e = SteppingDown v →
  server_ok r D nt nid i (mkServer (clock sv) e).
Proof.
  intros (H1 & H2 & H3 & H4) Ep Ef Em Ee Ew El Ha Hp. unfold phase_ok in H4. rewrite Ep, Ef in H4.
  destruct H4 as ([He Hle] & Hlo & Hid & Hd & H4). destruct (H4 _ Em) as [?|[?|[_ Hb]]]; [done..|].
  assert (stepping (elector sv) = false) as Hst by (unfold stepping; by rewrite Ep).
  unfold server_ok. cbn. rewrite Ee, Ew. split; [done|]. split; [done|]. split.
  - intros _ Hne. destruct (H3 Hst Hne) as [Hb' Hr]. split; [|done].
    destruct Ha as [->| ->]; [done|]. rewrite <- He by done. auto.
  - unfold phase_ok. cbn. destruct Hp as [(-> & -> & ->)| ->]; rewrite Ee, ?El; [by split|done].
Qed.

Lemma Inv_answer_renew id up listed s s' : Inv s → step ttl (AnswerRenew id up listed) s = Some s' → Inv s'.
Proof.
  intros HI. cbn [step]. destruct (net s !! id) as [[| | |i ok|]|] eqn:Em; try done.
  destruct (servers s !! i) as [sv|] eqn:E; [|done]. cbn [mbind option_bind].
  pose proof (inv_servers s HI i sv E) as Hs. destruct (ePhase (elector sv)) as [| | |h| |] eqn:Ep; try done.
  destruct (inFlight h) as [[id' t0]|] eqn:Ef; [|done]. case_bool_decide; [|done]. subst id'.
  destruct ok; cbn [andb].
  2: { cbn. intros [= <-]. apply (Inv_delete (set_elector i sv _ s)). apply Inv_elector; [done..|].
       destruct (markLost_epoch ReasonRenewRefused (elector sv)) as (M1 & M2 & _).
       eapply server_ok_stopped; [done|done|cbn; rewrite M2; apply Hs|]. left. cbn. rewrite M1.
       destruct Hs as (_ & _ & _ & H4). unfold phase_ok in H4. rewrite Ep, Ef in H4.
       destruct H4 as (_ & Hlo & _). destruct (eLost (elector sv)); [|done].
       destruct (decide (eEpoch (elector sv) = 0)) as [?|Hne]; [done|]. by specialize (Hlo Hne). }
  destruct (brokerLost ttl i up t0 _ (elector sv)) as [lost e] eqn:Eo.
  assert (eEpoch e = eEpoch (elector sv) ∧ eWon e = eWon (elector sv) ∧ eLost e = eLost (elector sv) ∧
    authAt e = authAt (elector sv)) as (O1 & O2 & O3 & O4).
  { revert Eo. unfold brokerLost, observeBroker. destruct up; [by intros [= <- <-]|]. cbn [orb].
    destruct (_ <=? ttl); [|destruct listed]; by intros [= <- <-]. }
  unfold settle. set (later := match validUntil h with None => true | Some _ => _ end).
  set (h' := mkHolding _ _ _ _).
  assert (∀ ph, ph = Holding h' ∨ ph = SteppingDown h' →
    Inv (set_net (delete id (net s)) (set_elector i sv (set_ePhase ph (if later then set_authAt t0 e else e)) s)))
    as Hgo.
  { intros ph Hph. apply (Inv_delete (set_elector i sv _ s)). apply Inv_elector; [done..|].
    apply (server_ok_settle _ _ _ _ _ _ h id t0 h'); try done; try (by destruct later).
    - destruct later; cbn; auto.
    - cbn. destruct Hph as [->| ->]; auto. }
  destruct lost; intros [= <-]; [|by apply Hgo; left].
  apply Inv_send; [by apply Hgo; right|]. intros k ep [= <- <-]. cbn.
  destruct Hs as (_ & _ & _ & H4). unfold phase_ok in H4. rewrite Ep in H4. split; [apply H4|].
  intros sv'. rewrite lookup_insert_eq. by intros [= <-].
Qed.

Lemma Inv_step l s s' : Inv s → step ttl l s = Some s' → Inv s'.
Proof.
  intros HI. destruct l as [dt adv|i up|id|id|i|i|i|id up listed|i|i|i r|i|i|id|epoch|i name up];
    [|by apply Inv_campaign| |by apply Inv_answer_acquire|by apply Inv_acquire_error
     |by apply Inv_hold_begin|by apply Inv_hold_tick|by apply Inv_answer_renew|by apply Inv_renew_error
     |by apply Inv_step_down|by apply Inv_lose|by apply Inv_release_lead|by apply Inv_stop_hold|..];
    cbn [step].
  - case_bool_decide as Hc; [|done]. destruct Hc as [Hdt Hadv]. intros [= <-].
    destruct HI. split; cbn; try done. intros i sv E. rewrite map_lookup_imap in E.
    destruct (servers s !! i) as [sv0|] eqn:E0; [|done]. cbn in E. injection E as <-.
    apply server_ok_tick; [done|by apply (Hadv i sv0)|by apply inv_servers0].
  - destruct (net s !! id) as [m|] eqn:Em; [|done]. cbn [mbind option_bind]. by apply Inv_exec.
  - intros [= <-]. by apply Inv_delete.
  - destruct (checkFence _ _) eqn:Hf; intros [= <-]; [|done]. destruct HI. split; try done. cbn.
    destruct epoch as [e|]; [|done]. cbn in Hf. zbool. destruct inv_commits0 as [Hs Hl]. split.
    + constructor; [done|]. eapply Forall_impl; [exact Hl|]. cbn. lia.
    + constructor; [lia|done].
  - destruct (servers s !! i) as [sv|] eqn:E; [|done]. cbn [mbind option_bind].
    destruct (observeBroker up (clock sv) (elector sv)) as [[up' d] e] eqn:Eo. intros [= <-].
    assert (Inv (set_elector i sv e s)) as [].
    { apply Inv_elector; [done..|]. pose proof (inv_servers s HI i sv E) as Hs.
      unfold observeBroker in Eo. by destruct up; injection Eo as <- <- <-. }
    by split.
Qed.

Lemma Inv_initial s : initial s → Inv s.
Proof.
  intros (Er & Ef & En & Ec & Hs). split; rewrite ?Er, ?Ef, ?En, ?Ec; cbn; try done.
  - intros i sv E. unfold server_ok, phase_ok. rewrite (Hs i sv E). cbn. split_and!; try lia; try done.
  - split; constructor.
Qed.

Lemma reachable_Inv s : reachable ttl s → Inv s.
Proof. induction 1 as [s H|s l s' _ IH H]; [by apply Inv_initial|by eapply Inv_step]. Qed.

Lemma authorized_backed s i sv :
  Inv s → servers s !! i = Some sv → Authorized ttl (elector sv) (clock sv) = true →
  stepping (elector sv) = false →
  LHolder (lrow (sdb s)) = Some i ∧ LEpoch (lrow (sdb s)) = eEpoch (elector sv).
Proof.
  intros HI E Ha Hs. unfold Authorized in Ha. zbool.
  destruct (inv_servers s HI i sv E) as (_ & _ & H3 & _).
  destruct (H3 Hs ltac:(done)) as [[(Hh & He & _)|Hv] _]; [done|lia].
Qed.

End Invariant.

(** ** Exclusive leadership *)

(** C3. At most one server leads.  In every reachable state of any number of
    servers, whatever requests and answers are delayed, lost or executed after
    their server gave up on them, a server that is authorized (and is not in the
    middle of giving the lease up under the broker-loss rule) holds the lease
    row, its epoch is the fencing epoch, so its writes commit, and no other such
    server is authorized. *)
Theorem leader_exclusive ttl s i :
  0 < ttl → ttl mod 1000 = 0 → ttl * 4 ≤ MaxInt → reachable ttl s →
  authorized ttl s i → ¬ stepping_down s i →
  (∃ sv, servers s !! i = Some sv ∧ LHolder (lrow (sdb s)) = Some i ∧
     checkFence (Some (eEpoch (elector sv))) (sdb s) = true) ∧
  ∀ j, authorized ttl s j → ¬ stepping_down s j → j = i.
Proof.
  intros Hpos Hus Hmax HR (sv & E & Ha) Hs.
  pose proof (reachable_Inv ttl Hpos Hus Hmax s HR) as HI.
  assert (∀ k svk, servers s !! k = Some svk → ¬ stepping_down s k → stepping (elector svk) = false) as Hst.
  { intros k svk Ek Hk. unfold stepping. destruct (ePhase (elector svk)) eqn:Ep; try done.
    exfalso. apply Hk. unfold stepping_down. eauto. }
  destruct (authorized_backed ttl s i sv HI E Ha (Hst _ _ E Hs)) as [Hh He]. split.
  - exists sv. split; [done|]. split; [done|]. cbn. rewrite (inv_fence ttl s HI), He. apply Z.eqb_refl.
  - intros j (svj & Ej & Haj) Hsj.
    destruct (authorized_backed ttl s j svj HI Ej Haj (Hst _ _ Ej Hsj)) as [Hh' _]. congruence.
Qed.

(** C25. Fenced writes commit in the order of their epochs: once a server has
    taken the lease over, no write of an earlier leader commits, however long it
    was delayed; every committed write carries the fencing epoch of its moment. *)
Theorem fenced_writes_ordered ttl s :
  0 < ttl → ttl mod 1000 = 0 → ttl * 4 ≤ MaxInt → reachable ttl s →
  StronglySorted Z.ge (commits s) ∧ Forall (λ e, e ≤ lfence (sdb s)) (commits s) ∧
  lfence (sdb s) = LEpoch (lrow (sdb s)) ∧
  ∀ l s' e, step ttl l s = Some s' → commits s' = e :: commits s → e = lfence (sdb s).
Proof.
  intros Hpos Hus Hmax HR. pose proof (reachable_Inv ttl Hpos Hus Hmax s HR) as HI.
  destruct (inv_commits ttl s HI) as [H1 H2]. split; [done|]. split; [done|].
  split; [apply (inv_fence ttl s HI)|]. intros l s' e Hstep Hc.
  pose proof (step_commits ttl l s s' Hstep) as [Hs|(e' & Hf & Hs)].
  - rewrite Hs in Hc. apply (f_equal length) in Hc. cbn in Hc. lia.
  - rewrite Hs in Hc. injection Hc as <-. done.
Qed.

(** ** A run of two servers *)

Definition Second : Z := 1000000000.
Definition sampleTTL : Z := 15 * Second.

Definition sampleSys : Sys :=
  mkSys (mkLeaseDB (mkLeaseRow None 0 0) 0 ∅) 0
    {["a"%string := mkServer 0 newElector; "b"%string := mkServer 7 newElector]} ∅ 0 [].

Lemma sampleSys_initial : initial sampleSys.
Proof. do 4 (split; [done|]). apply map_Forall_insert_2; [done|]. by apply map_Forall_singleton. Qed.

Lemma steps_reachable ttl ls s s' : reachable ttl s → steps ttl ls s = Some s' → reachable ttl s'.
Proof.
  revert s. induction ls as [|l ls IH]; cbn; intros s HR H; [by injection H as <-|].
  destruct (step ttl l s) as [s1|] eqn:E; [|done]. apply (IH s1); [|done]. by econstructor.
Qed.

(** [a] wins and holds. *)
Definition sampleWin : list Label :=
  [Campaign "a" true; Exec 0; AnswerAcquire 0; HoldBegin "a"; Write (Some 1);
   Tick (5 * Second) (λ _, 5 * Second); HoldTick "a"; Exec 1; AnswerRenew 1 true true; Campaign "b" true].

Definition sampleLed : Sys := default sampleSys (steps sampleTTL sampleWin sampleSys).

Lemma sampleLed_reachable : reachable sampleTTL sampleLed.
Proof.
  unfold sampleLed. destruct (steps sampleTTL sampleWin sampleSys) as [s|] eqn:E.
  - apply (steps_reachable sampleTTL sampleWin sampleSys); [|done]. apply reach_initial, sampleSys_initial.
  - apply reach_initial, sampleSys_initial.
Qed.

(** [authorized] and [stepping_down] as the elector computes them. *)
Lemma authorized_compute ttl s i :
  (λ sv, Authorized ttl (elector sv) (clock sv)) <$> servers s !! i = Some true → authorized ttl s i.
Proof. unfold authorized. destruct (servers s !! i) as [sv|]; [|done]. intros [= H]. eauto. Qed.

Lemma stepping_compute s i :
  (λ sv, stepping (elector sv)) <$> servers s !! i = Some false → ¬ stepping_down s i.
Proof.
  intros H (sv & h & E & Hp). rewrite E in H. cbn in H. unfold stepping in H. by rewrite Hp in H.
Qed.

Lemma leader_exclusive_witness :
  authorized sampleTTL sampleLed "a" ∧
  ∀ j, authorized sampleTTL sampleLed j → ¬ stepping_down sampleLed j → j = "a"%string.
Proof.
  assert (authorized sampleTTL sampleLed "a") as Ha
    by (apply authorized_compute; vm_compute; reflexivity).
  split; [done|].
  apply (leader_exclusive sampleTTL sampleLed "a"); [done|done|done|apply sampleLed_reachable|exact Ha|].
  apply stepping_compute. vm_compute. reflexivity.
Defined.

Lemma fenced_writes_ordered_witness :
  commits sampleLed = [1] ∧ StronglySorted Z.ge (commits sampleLed).
Proof.
  split; [vm_compute; reflexivity|].
  apply (fenced_writes_ordered sampleTTL sampleLed); [done|done|done|apply sampleLed_reachable].
Defined.

(** [a]'s broker is down for longer than the lease while [b] reaches its own: [a]
    releases the lease, [b] takes it, and [a] has not recorded its loss yet. *)
Definition renewDown (id : nat) : list Label :=
  [Tick (5 * Second) (λ _, 5 * Second); HoldTick "a"; Exec id; AnswerRenew id false true].

Definition sampleBrokerLoss : list Label :=
  [Campaign "a" true; Exec 0; AnswerAcquire 0; HoldBegin "a"]
  ++ renewDown 1 ++ renewDown 2 ++ renewDown 3 ++ renewDown 4
  ++ [Membership "b" "b" true] ++ renewDown 5
  ++ [Exec 6; Campaign "b" true; Exec 7; AnswerAcquire 7].

(** The broker-loss rule releases the lease before the loss is recorded: a run
    in which the old leader and the standby that took over are authorized at the
    same time. *)
Theorem broker_loss_overlap :
  ∃ s, reachable sampleTTL s ∧ authorized sampleTTL s "a" ∧ authorized sampleTTL s "b".
Proof.
  destruct (steps sampleTTL sampleBrokerLoss sampleSys) as [s|] eqn:E; [|by vm_compute in E].
  exists s. split; [|split].
  - apply (steps_reachable sampleTTL sampleBrokerLoss sampleSys); [|done].
    apply reach_initial, sampleSys_initial.
  - apply authorized_compute. vm_compute in E. injection E as <-. vm_compute. reflexivity.
  - apply authorized_compute. vm_compute in E. injection E as <-. vm_compute. reflexivity.
Qed.
