(* ===== verification/GoText.v ===== *)
(** * Text and numbers of Go's standard library

    Case-insensitive comparison of [strings] and the parser of [strconv] for
    floating-point numbers, as the scheduler uses them on capability names and
    requirements.  The case tables of [unicode] outside ASCII are parameters. *)

From Stdlib Require Import SpecFloat.
From S2P Require Import Prelude StatusText.
Open Scope Z_scope.

(** ** Letter case *)

(** The runes of a string; an invalid byte reads as [RuneError]. *)
Fixpoint runes_from (fuel : nat) (s : str) : list Z :=
  match fuel, s with
  | O, _ | _, [] => []
  | S fuel', _ => let '(r, size) := DecodeRune s in r :: runes_from fuel' (drop size s)
  end.

Definition runes (s : str) : list Z := runes_from (length s) s.

Definition ascii_lower (r : Z) : Z := if between 65 90 r then r + 32 else r.

(** The tables of [unicode]: [ToLower] of a rune outside ASCII, and whether two
    runes, one of them outside ASCII, are on one orbit of [SimpleFold]. *)
Class CaseTables := mkCaseTables {
  lowerRune : Z → Z;
  sameFold : Z → Z → bool;
}.

Section Case.
Context {tables : CaseTables}.

Definition ToLower (s : str) : str :=
  if forallb (λ c, byte_val c <? 128) s then byte_chr <$> (ascii_lower <$> (byte_val <$> s))
  else concat ((λ r, EncodeRune (if r <? 128 then ascii_lower r else lowerRune r)) <$> runes s).

Definition foldRune (a b : Z) : bool :=
  (a =? b)
  || (if (a <? 128) && (b <? 128) then ascii_lower a =? ascii_lower b else sameFold a b).

Fixpoint foldRunes (a b : list Z) : bool :=
  match a, b with
  | [], [] => true
  | x :: a', y :: b' => foldRune x y && foldRunes a' b'
  | _, _ => false
  end.

Definition EqualFold (s t : str) : bool := foldRunes (runes s) (runes t).
End Case.

(** Tables for text whose letters are ASCII. *)
Definition asciiTables : CaseTables := mkCaseTables (λ r, r) (λ _ _, false).

(** ** Floating-point numbers *)

Definition lower (c : ascii) : Z := Z.lor (byte_val c) 32.

Definition is_char (c : ascii) (x : ascii) : bool := byte_val c =? byte_val x.

(** The quotient of two integers rounded to a [float64], half to even: seventy
    bits of it and whether the rest is zero. *)
Definition float_quotient (neg : bool) (num den : Z) : spec_float :=
  let s := Z.max 0 (70 + Z.log2 den - Z.log2 num) in
  let n := num * 2 ^ s in
  let m := 2 * (n / den) + (if n mod den =? 0 then 0 else 1) in
  binary_normalize 53 1024 (if neg then - m else m) (- (s + 1)) neg.

(** The digits of a mantissa: their value, how many follow the point, whether any
    was read, and the rest of the text. *)
Fixpoint mantissa (base : Z) (s : str) (m frac : Z) (dot seen : bool) : Z * Z * bool * str :=
  match s with
  | [] => (m, frac, seen, [])
  | c :: s' =>
      if is_char c "_" then mantissa base s' m frac dot seen
      else if is_char c "." then
        if dot then (m, frac, seen, s) else mantissa base s' m frac true seen
      else
        let d :=
          if is_digit c then Some (digit_val c)
          else if (base =? 16) && between 97 102 (lower c) then Some (lower c - 87)
          else None in
        match d with
        | None => (m, frac, seen, s)
        | Some d => mantissa base s' (m * base + d) (if dot then frac + 1 else frac) dot true
        end
  end.

(** The digits of an exponent, kept below a hundred thousand, and the rest. *)
Fixpoint exponent (s : str) (e : Z) : Z * str :=
  match s with
  | [] => (e, [])
  | c :: s' =>
      if is_char c "_" then exponent s' e
      else if is_digit c then exponent s' (if e <? 10000 then e * 10 + digit_val c else e)
      else (e, s)
  end.

(** [underscoreOK]: every underscore is between digits, a base prefix counting
    as one.  [last] is [Some true] after a digit, [Some false] after an
    underscore, else [None]. *)
Fixpoint underscores_ok (hex : bool) (last : option bool) (s : str) : bool :=
  match s with
  | [] => negb (bool_decide (last = Some false))
  | c :: s' =>
      if is_digit c || (hex && between 97 102 (lower c)) then underscores_ok hex (Some true) s'
      else if is_char c "_" then bool_decide (last = Some true) && underscores_ok hex (Some false) s'
      else negb (bool_decide (last = Some false)) && underscores_ok hex None s'
  end.

Definition signed (s : str) : bool * str :=
  match s with
  | c :: s' => if is_char c "-" then (true, s') else if is_char c "+" then (false, s') else (false, s)
  | [] => (false, [])
  end.

(** The mantissa, the exponent and their rest: [None] when there is no number. *)
Definition readExponent (base : Z) (s : str) : option (Z * str) :=
  let mark := if base =? 16 then 112 else 101 in
  match s with
  | c :: s' =>
      if lower c =? mark then
        let '(neg, digits) := signed s' in
        match digits with
        | d :: _ =>
            if is_digit d then
              let '(e, rest) := exponent digits 0 in Some (if neg then - e else e, rest)
            else None
        | [] => None
        end
      else if base =? 16 then None else Some (0, s)
  | [] => if base =? 16 then None else Some (0, [])
  end.

Definition hex_prefix (s : str) : option str :=
  match s with
  | z :: x :: (_ :: _) as rest =>
      if is_char z "0" && (lower x =? 120) then Some (drop 2 s) else None
  | _ => None
  end.

(** [strconv.ParseFloat(s, 64)]: [None] for malformed text and for a number out
    of range. *)
Definition ParseFloat (s : str) : option spec_float :=
  let '(neg, body) := signed s in
  let low := byte_chr <$> (ascii_lower <$> (byte_val <$> body)) in
  if bool_decide (low = of_string "inf") || bool_decide (low = of_string "infinity") then
    Some (S754_infinity neg)
  else if bool_decide (byte_chr <$> (ascii_lower <$> (byte_val <$> s)) = of_string "nan") then Some S754_nan
  else
    let '(base, hex, text) :=
      match hex_prefix body with Some t => (16, true, t) | None => (10, false, body) end in
    let '(m, frac, seen, rest) := mantissa base text 0 0 false false in
    if negb seen then None
    else
      match readExponent base rest with
      | Some (e, []) =>
          if negb (underscores_ok hex (if hex then Some true else None) text) then None
          else
            let f :=
              if m =? 0 then S754_zero neg
              else if hex then binary_normalize 53 1024 (if neg then - m else m) (e - 4 * frac) neg
              else float_quotient neg (m * 10 ^ Z.max 0 (e - frac)) (10 ^ Z.max 0 (frac - e)) in
            match f with S754_infinity _ => None | _ => Some f end
      | _ => None
      end.
