(* ===== verification/Schema.v ===== *)
(** * The store's schema: [internal/store] types and the tables of
      [internal/store/sqlstore]

    Statuses, rows and tables of the relational store, the state machines of
    [store/statemachine.go] and [openjd/statemachine.go], and the shape of an
    SQL statement: a guarded update of the rows of one table.  A row's
    columns are the ones some modelled statement reads or writes; its primary
    key is its key in the table.  Times are integers: the store writes
    fixed-width UTC text, whose order is the order of the instants. *)

From S2P Require Import Prelude.
Open Scope Z_scope.

(** ** Statuses *)

Inductive JobStatus :=
  | JobPending | JobRunning | JobPaused | JobBlocked
  | JobCompleted | JobFailed | JobCanceled.

Inductive StepStatus :=
  | StepPending | StepReady | StepRunning
  | StepCompleted | StepFailed | StepCanceled.

Inductive TaskStatus :=
  | TaskPending | TaskReady | TaskAssigned | TaskRunning
  | TaskSucceeded | TaskFailed | TaskCanceled.

Inductive AttemptStatus :=
  | AttemptRunning | AttemptSucceeded | AttemptFailed | AttemptCanceled.

(** A worker's liveness, and the effective status the API reports. *)
Inductive WorkerStatus := WorkerOnline | WorkerOffline | WorkerDisabled.

#[export] Instance JobStatus_eq_dec : EqDecision JobStatus.
Proof. solve_decision. Defined.
#[export] Instance StepStatus_eq_dec : EqDecision StepStatus.
Proof. solve_decision. Defined.
#[export] Instance TaskStatus_eq_dec : EqDecision TaskStatus.
Proof. solve_decision. Defined.
#[export] Instance AttemptStatus_eq_dec : EqDecision AttemptStatus.
Proof. solve_decision. Defined.
#[export] Instance WorkerStatus_eq_dec : EqDecision WorkerStatus.
Proof. solve_decision. Defined.

Definition job_terminal (s : JobStatus) : bool :=
  match s with JobCompleted | JobFailed | JobCanceled => true | _ => false end.

Definition step_terminal (s : StepStatus) : bool :=
  match s with StepCompleted | StepFailed | StepCanceled => true | _ => false end.

Definition task_terminal (s : TaskStatus) : bool :=
  match s with TaskSucceeded | TaskFailed | TaskCanceled => true | _ => false end.

(** [status IN ('assigned', 'running')] *)
Definition in_flight (s : TaskStatus) : bool :=
  match s with TaskAssigned | TaskRunning => true | _ => false end.

(** ** State machines *)

Definition validTaskTransitions (from : TaskStatus) : list TaskStatus :=
  match from with
  | TaskPending => [TaskReady; TaskCanceled]
  | TaskReady => [TaskAssigned; TaskCanceled]
  | TaskAssigned => [TaskRunning; TaskReady; TaskCanceled; TaskSucceeded; TaskFailed]
  | TaskRunning => [TaskSucceeded; TaskFailed; TaskReady; TaskCanceled]
  | TaskSucceeded | TaskFailed | TaskCanceled => []
  end.

Definition JobTransitions (from : JobStatus) : list JobStatus :=
  match from with
  | JobPending => [JobRunning; JobPaused; JobCompleted; JobFailed; JobCanceled]
  | JobRunning => [JobPending; JobPaused; JobCompleted; JobFailed; JobCanceled]
  | JobPaused => [JobPending; JobCompleted; JobFailed; JobCanceled]
  | JobBlocked => [JobPending; JobPaused; JobCanceled]
  | JobCompleted => []
  | JobFailed => [JobPending]
  | JobCanceled => [JobPending]
  end.

Definition validStepTransitions (from : StepStatus) : list StepStatus :=
  match from with
  | StepPending => [StepReady; StepCanceled]
  | StepReady => [StepCompleted; StepFailed; StepCanceled]
  | StepRunning => [StepCompleted; StepFailed; StepCanceled]
  | StepCompleted => []
  | StepFailed => [StepPending]
  | StepCanceled => [StepPending]
  end.

(** The sentinel errors of package store. *)
Inductive StoreErr :=
  | ErrNotFound
  | ErrConflict
  | ErrInvalidTransition
  | ErrStaleRegistration
  | ErrDependencyUnsatisfiable (upstream : string) (status : option JobStatus)
  | ErrStatusKeptChanging
  | ErrRowsReturned.

Definition ValidateTaskTransition (from to : TaskStatus) : res StoreErr unit :=
  if bool_decide (to ∈ validTaskTransitions from) then Ok tt else Err ErrInvalidTransition.

Definition ValidateStepTransition (from to : StepStatus) : res StoreErr unit :=
  if bool_decide (to ∈ validStepTransitions from) then Ok tt else Err ErrInvalidTransition.

(** ** Rows *)

Record Farm := mkFarm {
  FarmMaxConcurrentTasks : Z;      (* 0 = unlimited *)
  FarmMaxAttempts : option Z;
  FarmRetryDelaySeconds : option Z;
  FarmFailureLimit : option Z;
}.

Record Queue := mkQueue {
  QueueFarmID : string;
  QueueMaxConcurrentTasks : Z;     (* 0 = unlimited *)
  Paused : bool;
  QueueMaxAttempts : option Z;
  QueueRetryDelaySeconds : option Z;
  QueueFailureLimit : option Z;
}.

Record UsagePool := mkUsagePool {
  PoolName : string;
  MaxConcurrent : Z;               (* 0 = unlimited *)
}.

Record Job := mkJob {
  JobFarmID : string;
  JobQueueID : string;
  JobPriority : Z;
  JobStatusOf : JobStatus;
  JobFailedAttempts : Z;
  JobMaxAttempts : option Z;
  JobRetryDelaySeconds : option Z;
  JobFailureLimit : option Z;
  ParkReason : string;
  JobCreatedAt : Z;
  JobUpdatedAt : Z;
  JobStartedAt : option Z;
  JobCompletedAt : option Z;
  DeclaredExtensions : option (list string);   (* None = not recorded *)
  RawTemplate : string;
}.

Definition set_JobStatusOf (v : JobStatus) (x : Job) : Job :=
  mkJob (JobFarmID x) (JobQueueID x) (JobPriority x) v (JobFailedAttempts x) (JobMaxAttempts x)
    (JobRetryDelaySeconds x) (JobFailureLimit x) (ParkReason x) (JobCreatedAt x)
    (JobUpdatedAt x) (JobStartedAt x) (JobCompletedAt x) (DeclaredExtensions x) (RawTemplate x).
Definition set_JobFailedAttempts (v : Z) (x : Job) : Job :=
  mkJob (JobFarmID x) (JobQueueID x) (JobPriority x) (JobStatusOf x) v (JobMaxAttempts x)
    (JobRetryDelaySeconds x) (JobFailureLimit x) (ParkReason x) (JobCreatedAt x)
    (JobUpdatedAt x) (JobStartedAt x) (JobCompletedAt x) (DeclaredExtensions x) (RawTemplate x).
Definition set_ParkReason (v : string) (x : Job) : Job :=
  mkJob (JobFarmID x) (JobQueueID x) (JobPriority x) (JobStatusOf x) (JobFailedAttempts x)
    (JobMaxAttempts x) (JobRetryDelaySeconds x) (JobFailureLimit x) v (JobCreatedAt x)
    (JobUpdatedAt x) (JobStartedAt x) (JobCompletedAt x) (DeclaredExtensions x) (RawTemplate x).
Definition set_JobUpdatedAt (v : Z) (x : Job) : Job :=
  mkJob (JobFarmID x) (JobQueueID x) (JobPriority x) (JobStatusOf x) (JobFailedAttempts x)
    (JobMaxAttempts x) (JobRetryDelaySeconds x) (JobFailureLimit x) (ParkReason x)
    (JobCreatedAt x) v (JobStartedAt x) (JobCompletedAt x) (DeclaredExtensions x)
    (RawTemplate x).
Definition set_JobStartedAt (v : option Z) (x : Job) : Job :=
  mkJob (JobFarmID x) (JobQueueID x) (JobPriority x) (JobStatusOf x) (JobFailedAttempts x)
    (JobMaxAttempts x) (JobRetryDelaySeconds x) (JobFailureLimit x) (ParkReason x)
    (JobCreatedAt x) (JobUpdatedAt x) v (JobCompletedAt x) (DeclaredExtensions x)
    (RawTemplate x).
Definition set_JobCompletedAt (v : option Z) (x : Job) : Job :=
  mkJob (JobFarmID x) (JobQueueID x) (JobPriority x) (JobStatusOf x) (JobFailedAttempts x)
    (JobMaxAttempts x) (JobRetryDelaySeconds x) (JobFailureLimit x) (ParkReason x)
    (JobCreatedAt x) (JobUpdatedAt x) (JobStartedAt x) v (DeclaredExtensions x) (RawTemplate x).

(** A host requirement of a step; absent bounds are [None]. *)
Record StepAmountRequirement := mkStepAmountRequirement {
  AmountName : string;
  AmountMin : option string;
  AmountMax : option string;
}.

Record StepAttributeRequirement := mkStepAttributeRequirement {
  AttributeName : string;
  AnyOf : list string;
  AllOf : list string;
}.

Record StepHostRequirements := mkStepHostRequirements {
  Amounts : list StepAmountRequirement;
  Attributes : list StepAttributeRequirement;
  UsagePools : list string;
}.

Record Step := mkStep {
  StepJobID : string;
  StepName : string;
  DependsOn : list string;
  StepOrder : Z;
  StepStatusOf : StepStatus;
  StepCreatedAt : Z;
  StepUpdatedAt : Z;
  StepComputeLocation : string;
  HostRequirements : option StepHostRequirements;
}.

Definition set_StepStatusOf (v : StepStatus) (x : Step) : Step :=
  mkStep (StepJobID x) (StepName x) (DependsOn x) (StepOrder x) v (StepCreatedAt x)
    (StepUpdatedAt x) (StepComputeLocation x) (HostRequirements x).
Definition set_StepUpdatedAt (v : Z) (x : Step) : Step :=
  mkStep (StepJobID x) (StepName x) (DependsOn x) (StepOrder x) (StepStatusOf x)
    (StepCreatedAt x) v (StepComputeLocation x) (HostRequirements x).

Record Task := mkTask {
  TaskJobID : string;
  TaskStepID : string;
  TaskStatusOf : TaskStatus;
  AssignedWorkerID : option string;
  AssignedAt : option Z;
  TaskCreatedAt : Z;
  TaskUpdatedAt : Z;
  RequiredCores : option Z;
  UnschedulableReason : string;
  TaskFailedAttempts : Z;
  RetryAfter : option Z;
  FailureReason : string;
}.

Definition set_TaskStatusOf (v : TaskStatus) (x : Task) : Task :=
  mkTask (TaskJobID x) (TaskStepID x) v (AssignedWorkerID x) (AssignedAt x) (TaskCreatedAt x)
    (TaskUpdatedAt x) (RequiredCores x) (UnschedulableReason x) (TaskFailedAttempts x)
    (RetryAfter x) (FailureReason x).
Definition set_AssignedWorkerID (v : option string) (x : Task) : Task :=
  mkTask (TaskJobID x) (TaskStepID x) (TaskStatusOf x) v (AssignedAt x) (TaskCreatedAt x)
    (TaskUpdatedAt x) (RequiredCores x) (UnschedulableReason x) (TaskFailedAttempts x)
    (RetryAfter x) (FailureReason x).
Definition set_AssignedAt (v : option Z) (x : Task) : Task :=
  mkTask (TaskJobID x) (TaskStepID x) (TaskStatusOf x) (AssignedWorkerID x) v (TaskCreatedAt
    x) (TaskUpdatedAt x) (RequiredCores x) (UnschedulableReason x) (TaskFailedAttempts x)
    (RetryAfter x) (FailureReason x).
Definition set_TaskUpdatedAt (v : Z) (x : Task) : Task :=
  mkTask (TaskJobID x) (TaskStepID x) (TaskStatusOf x) (AssignedWorkerID x) (AssignedAt x)
    (TaskCreatedAt x) v (RequiredCores x) (UnschedulableReason x) (TaskFailedAttempts x)
    (RetryAfter x) (FailureReason x).
Definition set_UnschedulableReason (v : string) (x : Task) : Task :=
  mkTask (TaskJobID x) (TaskStepID x) (TaskStatusOf x) (AssignedWorkerID x) (AssignedAt x)
    (TaskCreatedAt x) (TaskUpdatedAt x) (RequiredCores x) v (TaskFailedAttempts x) (RetryAfter
    x) (FailureReason x).
Definition set_TaskFailedAttempts (v : Z) (x : Task) : Task :=
  mkTask (TaskJobID x) (TaskStepID x) (TaskStatusOf x) (AssignedWorkerID x) (AssignedAt x)
    (TaskCreatedAt x) (TaskUpdatedAt x) (RequiredCores x) (UnschedulableReason x) v
    (RetryAfter x) (FailureReason x).
Definition set_RetryAfter (v : option Z) (x : Task) : Task :=
  mkTask (TaskJobID x) (TaskStepID x) (TaskStatusOf x) (AssignedWorkerID x) (AssignedAt x)
    (TaskCreatedAt x) (TaskUpdatedAt x) (RequiredCores x) (UnschedulableReason x)
    (TaskFailedAttempts x) v (FailureReason x).
Definition set_FailureReason (v : string) (x : Task) : Task :=
  mkTask (TaskJobID x) (TaskStepID x) (TaskStatusOf x) (AssignedWorkerID x) (AssignedAt x)
    (TaskCreatedAt x) (TaskUpdatedAt x) (RequiredCores x) (UnschedulableReason x)
    (TaskFailedAttempts x) (RetryAfter x) v.

Record TaskAttempt := mkTaskAttempt {
  AttemptTaskID : string;
  AttemptWorkerID : string;
  SessionID : option string;
  AttemptNumber : Z;
  AttemptStatusOf : AttemptStatus;
  ExitCode : option Z;
  Message : string;
  AttemptStartedAt : Z;
  EndedAt : option Z;
  AttemptCreatedAt : Z;
  Progress : option Z;
  StatusText : string;
  ProgressAt : option Z;
}.

Definition set_SessionID (v : option string) (x : TaskAttempt) : TaskAttempt :=
  mkTaskAttempt (AttemptTaskID x) (AttemptWorkerID x) v (AttemptNumber x) (AttemptStatusOf x)
    (ExitCode x) (Message x) (AttemptStartedAt x) (EndedAt x) (AttemptCreatedAt x) (Progress
    x) (StatusText x) (ProgressAt x).
Definition set_AttemptStatusOf (v : AttemptStatus) (x : TaskAttempt) : TaskAttempt :=
  mkTaskAttempt (AttemptTaskID x) (AttemptWorkerID x) (SessionID x) (AttemptNumber x) v
    (ExitCode x) (Message x) (AttemptStartedAt x) (EndedAt x) (AttemptCreatedAt x) (Progress
    x) (StatusText x) (ProgressAt x).
Definition set_ExitCode (v : option Z) (x : TaskAttempt) : TaskAttempt :=
  mkTaskAttempt (AttemptTaskID x) (AttemptWorkerID x) (SessionID x) (AttemptNumber x)
    (AttemptStatusOf x) v (Message x) (AttemptStartedAt x) (EndedAt x) (AttemptCreatedAt x)
    (Progress x) (StatusText x) (ProgressAt x).
Definition set_Message (v : string) (x : TaskAttempt) : TaskAttempt :=
  mkTaskAttempt (AttemptTaskID x) (AttemptWorkerID x) (SessionID x) (AttemptNumber x)
    (AttemptStatusOf x) (ExitCode x) v (AttemptStartedAt x) (EndedAt x) (AttemptCreatedAt x)
    (Progress x) (StatusText x) (ProgressAt x).
Definition set_EndedAt (v : option Z) (x : TaskAttempt) : TaskAttempt :=
  mkTaskAttempt (AttemptTaskID x) (AttemptWorkerID x) (SessionID x) (AttemptNumber x)
    (AttemptStatusOf x) (ExitCode x) (Message x) (AttemptStartedAt x) v (AttemptCreatedAt x)
    (Progress x) (StatusText x) (ProgressAt x).
Definition set_Progress (v : option Z) (x : TaskAttempt) : TaskAttempt :=
  mkTaskAttempt (AttemptTaskID x) (AttemptWorkerID x) (SessionID x) (AttemptNumber x)
    (AttemptStatusOf x) (ExitCode x) (Message x) (AttemptStartedAt x) (EndedAt x)
    (AttemptCreatedAt x) v (StatusText x) (ProgressAt x).
Definition set_StatusText (v : string) (x : TaskAttempt) : TaskAttempt :=
  mkTaskAttempt (AttemptTaskID x) (AttemptWorkerID x) (SessionID x) (AttemptNumber x)
    (AttemptStatusOf x) (ExitCode x) (Message x) (AttemptStartedAt x) (EndedAt x)
    (AttemptCreatedAt x) (Progress x) v (ProgressAt x).
Definition set_ProgressAt (v : option Z) (x : TaskAttempt) : TaskAttempt :=
  mkTaskAttempt (AttemptTaskID x) (AttemptWorkerID x) (SessionID x) (AttemptNumber x)
    (AttemptStatusOf x) (ExitCode x) (Message x) (AttemptStartedAt x) (EndedAt x)
    (AttemptCreatedAt x) (Progress x) (StatusText x) v.

Record UsageClaim := mkUsageClaim {
  ClaimPoolID : string;
  ClaimAttemptID : string;
  ClaimedAt : Z;
  ReleasedAt : option Z;
}.

Definition set_ReleasedAt (v : option Z) (x : UsageClaim) : UsageClaim :=
  mkUsageClaim (ClaimPoolID x) (ClaimAttemptID x) (ClaimedAt x) v.

(** The EXPR caps and the hardware a worker reports at registration. *)
Record WorkerExprLimits := mkWorkerExprLimits {
  OperationLimit : Z;
  MemoryLimit : Z;
  AssignmentPositions : Z;
  AssignmentRetainedBytes : Z;
  LetRetainedBytes : Z;
}.

Record Capabilities := mkCapabilities {
  ComputeLocation : string;
  OS : string;
  OSVersion : string;
  Arch : string;
  CPUCount : Z;
  RAMMb : Z;
  GPUCount : Z;
  VRAMMb : Z;
  Tags : gmap string string;
  ExprLimits : WorkerExprLimits;
  WorkerExtensions : list string;
}.

Record Worker := mkWorker {
  WorkerFarmID : option string;
  WorkerQueueID : option string;
  WorkerStatusOf : WorkerStatus;
  Disabled : bool;
  InstanceID : string;
  RegistrationBrokerAt : option Z;
  HeartbeatBrokerAt : option Z;
  LastHeartbeatAt : option Z;
  RegisteredAt : Z;
  WorkerUpdatedAt : Z;
  Caps : Capabilities;
}.

Definition set_WorkerStatusOf (v : WorkerStatus) (x : Worker) : Worker :=
  mkWorker (WorkerFarmID x) (WorkerQueueID x) v (Disabled x) (InstanceID x)
    (RegistrationBrokerAt x) (HeartbeatBrokerAt x) (LastHeartbeatAt x) (RegisteredAt x)
    (WorkerUpdatedAt x) (Caps x).
Definition set_Disabled (v : bool) (x : Worker) : Worker :=
  mkWorker (WorkerFarmID x) (WorkerQueueID x) (WorkerStatusOf x) v (InstanceID x)
    (RegistrationBrokerAt x) (HeartbeatBrokerAt x) (LastHeartbeatAt x) (RegisteredAt x)
    (WorkerUpdatedAt x) (Caps x).
Definition set_HeartbeatBrokerAt (v : option Z) (x : Worker) : Worker :=
  mkWorker (WorkerFarmID x) (WorkerQueueID x) (WorkerStatusOf x) (Disabled x) (InstanceID x)
    (RegistrationBrokerAt x) v (LastHeartbeatAt x) (RegisteredAt x) (WorkerUpdatedAt x)
    (Caps x).
Definition set_LastHeartbeatAt (v : option Z) (x : Worker) : Worker :=
  mkWorker (WorkerFarmID x) (WorkerQueueID x) (WorkerStatusOf x) (Disabled x) (InstanceID x)
    (RegistrationBrokerAt x) (HeartbeatBrokerAt x) v (RegisteredAt x) (WorkerUpdatedAt x)
    (Caps x).
Definition set_WorkerUpdatedAt (v : Z) (x : Worker) : Worker :=
  mkWorker (WorkerFarmID x) (WorkerQueueID x) (WorkerStatusOf x) (Disabled x) (InstanceID x)
    (RegistrationBrokerAt x) (HeartbeatBrokerAt x) (LastHeartbeatAt x) (RegisteredAt x) v
    (Caps x).

(** ** Logs, locations and credentials *)

Inductive LogStream := LogStreamStdout | LogStreamStderr.

Record TaskLog := mkTaskLog {
  LogTaskID : string;
  LogAttemptID : string;
  SeqNum : Z;
  NATSSeq : Z;
  LogAt : Z;
  ReceivedAt : Z;
  Stream : LogStream;
  Data : string;
}.

(** The columns of [worker_credentials] a registration reads or writes. *)
Record WorkerCredential := mkWorkerCredential {
  CredWorkerID : string;
  CredLastSeenAt : option Z;
  CredRevokedAt : option Z;
}.

(** ** Tables *)

(** Keyed by id.  A compute location is its name. *)
Record DB := mkDB {
  farms : gmap string Farm;
  queues : gmap string Queue;
  jobs : gmap string Job;
  jobDependencies : gset (string * string);
  steps : gmap string Step;
  tasks : gmap string Task;
  attempts : gmap string TaskAttempt;
  pools : gmap string UsagePool;
  claims : gmap string UsageClaim;
  workers : gmap string Worker;
  taskLogs : gmap string TaskLog;
  computeLocations : gmap string string;
  credentials : gmap string WorkerCredential;
}.

Definition set_farms (v : gmap string Farm) (x : DB) : DB :=
  mkDB v (queues x) (jobs x) (jobDependencies x) (steps x) (tasks x) (attempts x) (pools x)
    (claims x) (workers x) (taskLogs x) (computeLocations x) (credentials x).
Definition set_queues (v : gmap string Queue) (x : DB) : DB :=
  mkDB (farms x) v (jobs x) (jobDependencies x) (steps x) (tasks x) (attempts x) (pools x)
    (claims x) (workers x) (taskLogs x) (computeLocations x) (credentials x).
Definition set_jobs (v : gmap string Job) (x : DB) : DB :=
  mkDB (farms x) (queues x) v (jobDependencies x) (steps x) (tasks x) (attempts x) (pools x)
    (claims x) (workers x) (taskLogs x) (computeLocations x) (credentials x).
Definition set_jobDependencies (v : gset (string * string)) (x : DB) : DB :=
  mkDB (farms x) (queues x) (jobs x) v (steps x) (tasks x) (attempts x) (pools x) (claims x)
    (workers x) (taskLogs x) (computeLocations x) (credentials x).
Definition set_steps (v : gmap string Step) (x : DB) : DB :=
  mkDB (farms x) (queues x) (jobs x) (jobDependencies x) v (tasks x) (attempts x) (pools x)
    (claims x) (workers x) (taskLogs x) (computeLocations x) (credentials x).
Definition set_tasks (v : gmap string Task) (x : DB) : DB :=
  mkDB (farms x) (queues x) (jobs x) (jobDependencies x) (steps x) v (attempts x) (pools x)
    (claims x) (workers x) (taskLogs x) (computeLocations x) (credentials x).
Definition set_attempts (v : gmap string TaskAttempt) (x : DB) : DB :=
  mkDB (farms x) (queues x) (jobs x) (jobDependencies x) (steps x) (tasks x) v (pools x)
    (claims x) (workers x) (taskLogs x) (computeLocations x) (credentials x).
Definition set_pools (v : gmap string UsagePool) (x : DB) : DB :=
  mkDB (farms x) (queues x) (jobs x) (jobDependencies x) (steps x) (tasks x) (attempts x) v
    (claims x) (workers x) (taskLogs x) (computeLocations x) (credentials x).
Definition set_claims (v : gmap string UsageClaim) (x : DB) : DB :=
  mkDB (farms x) (queues x) (jobs x) (jobDependencies x) (steps x) (tasks x) (attempts x)
    (pools x) v (workers x) (taskLogs x) (computeLocations x) (credentials x).
Definition set_workers (v : gmap string Worker) (x : DB) : DB :=
  mkDB (farms x) (queues x) (jobs x) (jobDependencies x) (steps x) (tasks x) (attempts x)
    (pools x) (claims x) v (taskLogs x) (computeLocations x) (credentials x).
Definition set_taskLogs (v : gmap string TaskLog) (x : DB) : DB :=
  mkDB (farms x) (queues x) (jobs x) (jobDependencies x) (steps x) (tasks x) (attempts x)
    (pools x) (claims x) (workers x) v (computeLocations x) (credentials x).
Definition set_computeLocations (v : gmap string string) (x : DB) : DB :=
  mkDB (farms x) (queues x) (jobs x) (jobDependencies x) (steps x) (tasks x) (attempts x)
    (pools x) (claims x) (workers x) (taskLogs x) v (credentials x).
Definition set_credentials (v : gmap string WorkerCredential) (x : DB) : DB :=
  mkDB (farms x) (queues x) (jobs x) (jobDependencies x) (steps x) (tasks x) (attempts x)
    (pools x) (claims x) (workers x) (taskLogs x) (computeLocations x) v.

Definition emptyDB : DB := mkDB ∅ ∅ ∅ ∅ ∅ ∅ ∅ ∅ ∅ ∅ ∅ ∅ ∅.

(** ** Statements *)

(** [UPDATE m SET f WHERE p] *)
Definition update_where {A} (p : string → A → bool) (f : string → A → A) (m : gmap string A)
    : gmap string A :=
  map_imap (λ k x, Some (if p k x then f k x else x)) m.

(** [DELETE FROM m WHERE p] *)
Definition delete_where {A} (p : string → A → bool) (m : gmap string A) : gmap string A :=
  filter (λ kx, p kx.1 kx.2 = false) m.

(** The rows a WHERE clause matches. *)
Definition matching {A} (p : string → A → bool) (m : gmap string A) : gmap string A :=
  filter (λ kx, p kx.1 kx.2 = true) m.

(** [SELECT COUNT] of the matching rows. *)
Definition count_where {A} (p : string → A → bool) (m : gmap string A) : Z :=
  Z.of_nat (size (matching p m)).

(** [EXISTS (SELECT 1 FROM m WHERE p)] *)
Definition exists_where {A} (p : string → A → bool) (m : gmap string A) : bool :=
  existsb (λ kx, p kx.1 kx.2) (map_to_list m).

(** [UPDATE ... RETURNING]: the changed rows, as they are afterwards. *)
Definition returning {A} (p : string → A → bool) (f : string → A → A) (m : gmap string A)
    : gmap string A := map_imap (λ k x, Some (f k x)) (matching p m).

(** Whether a guarded single-row UPDATE matched: [RowsAffected = 1]. *)
Definition row_matches {A} (m : gmap string A) (id : string) (g : A → bool) : bool :=
  match m !! id with Some x => g x | None => false end.

Definition present {A} (m : gmap string A) (id : string) : bool := row_matches m id (λ _, true).

(** A nullable foreign key. *)
Definition references {A} (m : gmap string A) (id : option string) : bool :=
  match id with None => true | Some i => present m i end.

(** [COALESCE(NULLIF(v, ''), old)] *)
Definition keep_if_empty (v old : string) : string :=
  if bool_decide (v = ""%string) then old else v.

(** ** Transactions *)

Inductive txOutcome := txCommit | txRollback.

(** [inTxValue]: the body's database is kept on a commit, dropped on a rollback
    and on an error. *)
Definition inTx {A} (body : DB → res StoreErr (A * txOutcome * DB)) (db : DB)
    : res StoreErr A * DB :=
  match body db with
  | Ok (a, txCommit, db') => (Ok a, db')
  | Ok (a, txRollback, _) => (Ok a, db)
  | Err e => (Err e, db)
  end.

(** [SELECT]s of one row. *)
Definition get {A} (m : gmap string A) (id : string) : res StoreErr A :=
  match m !! id with Some x => Ok x | None => Err ErrNotFound end.

(** *** Lemmas on statements *)

Lemma lookup_update_where {A} p (f : string → A → A) m k :
  update_where p f m !! k = (λ x, if p k x then f k x else x) <$> m !! k.
Proof. unfold update_where. rewrite map_lookup_imap. by destruct (m !! k). Qed.

Lemma lookup_matching {A} p (m : gmap string A) k x :
  matching p m !! k = Some x ↔ m !! k = Some x ∧ p k x = true.
Proof. unfold matching. by rewrite map_lookup_filter_Some. Qed.

Lemma lookup_delete_where {A} p (m : gmap string A) k x :
  delete_where p m !! k = Some x ↔ m !! k = Some x ∧ p k x = false.
Proof. unfold delete_where. by rewrite map_lookup_filter_Some. Qed.

Lemma exists_where_true {A} p (m : gmap string A) :
  exists_where p m = true ↔ ∃ k x, m !! k = Some x ∧ p k x = true.
Proof.
  unfold exists_where. rewrite existsb_exists. split.
  - intros ([k x] & Hin & Hp). rewrite <- list_elem_of_In, elem_of_map_to_list in Hin. eauto.
  - intros (k & x & Hm & Hp). exists (k, x). by rewrite <- list_elem_of_In, elem_of_map_to_list.
Qed.

Lemma exists_where_false {A} p (m : gmap string A) :
  exists_where p m = false ↔ ∀ k x, m !! k = Some x → p k x = false.
Proof.
  rewrite <- not_true_iff_false, exists_where_true. split.
  - intros H k x Hm. destruct (p k x) eqn:Hp; [|done]. exfalso. eauto.
  - intros H (k & x & Hm & Hp). specialize (H k x Hm). congruence.
Qed.

(** A row after an update comes from the row before it. *)
Lemma update_where_inv {A} p (f : string → A → A) m k y :
  update_where p f m !! k = Some y →
  ∃ x, m !! k = Some x ∧ ((p k x = true ∧ y = f k x) ∨ (p k x = false ∧ y = x)).
Proof.
  rewrite lookup_update_where. intros (x & Hm & ->)%fmap_Some. exists x. split; [done|].
  destruct (p k x); auto.
Qed.

Lemma update_where_some {A} p (f : string → A → A) m k x :
  m !! k = Some x → update_where p f m !! k = Some (if p k x then f k x else x).
Proof. intros H. by rewrite lookup_update_where, H. Qed.

Lemma update_where_none {A} p (f : string → A → A) m k :
  update_where p f m !! k = None ↔ m !! k = None.
Proof. rewrite lookup_update_where. destruct (m !! k); naive_solver. Qed.

Lemma update_where_ext {A} p q (f g : string → A → A) m :
  (∀ k x, m !! k = Some x → p k x = q k x) → (∀ k x, f k x = g k x) →
  update_where p f m = update_where q g m.
Proof.
  intros Hp Hf. apply map_eq. intros k. rewrite !lookup_update_where.
  destruct (m !! k) as [x|] eqn:E; [|done]. cbn. by rewrite (Hp k x E), Hf.
Qed.

Lemma row_matches_update {A} p (f : string → A → A) m k g :
  (∀ k x, g (f k x) = g x) → row_matches (update_where p f m) k g = row_matches m k g.
Proof.
  intros Hg. unfold row_matches. rewrite lookup_update_where.
  destruct (m !! k) as [x|]; [|done]. cbn. destruct (p k x); auto.
Qed.

Lemma row_matches_ext {A} (m : gmap string A) k g h :
  (∀ x, g x = h x) → row_matches m k g = row_matches m k h.
Proof. intros H. unfold row_matches. destruct (m !! k); auto. Qed.

Lemma row_matches_true {A} (m : gmap string A) id g :
  row_matches m id g = true ↔ ∃ x, m !! id = Some x ∧ g x = true.
Proof. unfold row_matches. destruct (m !! id); naive_solver. Qed.

Lemma inTx_ok {A} (body : DB → res StoreErr (A * txOutcome * DB)) db a db' :
  inTx body db = (Ok a, db') →
  (body db = Ok (a, txCommit, db')) ∨ (∃ d, body db = Ok (a, txRollback, d) ∧ db' = db).
Proof.
  unfold inTx. destruct (body db) as [[[b o] d]|e]; [destruct o|]; intros H;
    inversion H; subst; eauto.
Qed.

Lemma inTx_err {A} (body : DB → res StoreErr (A * txOutcome * DB)) db e db' :
  inTx body db = (Err e, db') → db' = db.
Proof.
  unfold inTx. destruct (body db) as [[[b o] d]|e']; [destruct o|];
    intros H; by inversion H.
Qed.

(** Counting: rows that stop matching lower a count, rows that start raise it. *)
Lemma count_where_mono {A B} (p : string → A → bool) (q : string → B → bool)
    (m : gmap string A) (n : gmap string B) :
  (∀ k x, m !! k = Some x → p k x = true → ∃ y, n !! k = Some y ∧ q k y = true) →
  count_where p m ≤ count_where q n.
Proof.
  intros H. unfold count_where. apply inj_le.
  rewrite <- !size_dom. apply subseteq_size. intros k.
  rewrite !elem_of_dom. intros [x [Hm Hp]%lookup_matching].
  destruct (H k x Hm Hp) as (y & Hn & Hq). exists y. by apply lookup_matching.
Qed.

Lemma matching_insert_fresh {A} p (m : gmap string A) k x :
  m !! k = None →
  matching p (<[k := x]> m) = if p k x then <[k := x]> (matching p m) else matching p m.
Proof.
  intros Hm. apply map_eq. intros j. apply option_eq. intros y.
  rewrite lookup_matching. destruct (decide (k = j)) as [<-|Hne].
  - rewrite lookup_insert_eq. destruct (p k x) eqn:E.
    + rewrite lookup_insert_eq. naive_solver.
    + rewrite lookup_matching, Hm. split; [|by intros []]. intros [[= <-] ?]. congruence.
  - rewrite lookup_insert_ne by done. destruct (p k x);
      [rewrite lookup_insert_ne by done|]; by rewrite lookup_matching.
Qed.

(** A new row adds one to a count exactly when it matches. *)
Lemma count_where_insert {A} p (m : gmap string A) k x :
  m !! k = None → count_where p (<[k := x]> m) = count_where p m + (if p k x then 1 else 0).
Proof.
  intros Hm. unfold count_where. rewrite matching_insert_fresh by done.
  destruct (p k x); [|lia]. rewrite map_size_insert_None; [lia|].
  destruct (matching p m !! k) eqn:E; [|done]. apply lookup_matching in E as [E _]. congruence.
Qed.

Lemma count_where_ext {A} (p q : string → A → bool) m :
  (∀ k x, m !! k = Some x → p k x = q k x) → count_where p m = count_where q m.
Proof.
  intros H. apply Z.le_antisymm; apply count_where_mono; intros k x E Ep; exists x;
    (split; [done|]); rewrite <- Ep; [symmetry|]; auto.
Qed.

(** A guarded UPDATE of one row that matched. *)
Lemma update_one {A} (g : A → bool) (f : string → A → A) m id x :
  m !! id = Some x → g x = true →
  update_where (λ k y, bool_decide (k = id) && g y) f m = <[id := f id x]> m.
Proof.
  intros E Hg. apply map_eq. intros k. rewrite lookup_update_where.
  destruct (decide (id = k)) as [<-|Hne].
  - rewrite lookup_insert_eq, E. cbn. by rewrite bool_decide_true, Hg.
  - rewrite lookup_insert_ne, bool_decide_false by congruence. by destruct (m !! k).
Qed.

Lemma update_nothing {A} p (f : string → A → A) m :
  (∀ k x, m !! k = Some x → p k x = false) → update_where p f m = m.
Proof.
  intros H. apply map_eq. intros k. rewrite lookup_update_where.
  destruct (m !! k) as [x|] eqn:E; [|done]. cbn. by rewrite (H k x E).
Qed.

(** A row rewritten in place changes a count by whether it matched before and
    after. *)
Lemma count_where_replace {A} p (m : gmap string A) k x y :
  m !! k = Some x →
  count_where p (<[k := y]> m) =
  count_where p m - (if p k x then 1 else 0) + (if p k y then 1 else 0).
Proof.
  intros Hm. assert (∀ z, count_where p (<[k := z]> m) =
    count_where p (delete k m) + (if p k z then 1 else 0)) as H.
  { intros z. rewrite <- insert_delete_eq. apply count_where_insert, lookup_delete_eq. }
  rewrite (H y). rewrite <- (insert_id m k x Hm) at 2. rewrite (H x). lia.
Qed.
