(* ===== verification/Sample.v ===== *)
(** * A concrete farm

    One farm with a capped queue and a capped pool, a pending job of one ready
    step with two ready tasks, and two workers, one of them disabled.  The
    witnesses of the store's theorems evaluate the operations on it. *)

From S2P Require Import Prelude Schema.
Open Scope Z_scope.

Module Sample.

Definition farm : Farm := mkFarm 2 None None None.
Definition queue : Queue := mkQueue "f" 1 false None None None.
Definition pool : UsagePool := mkUsagePool "nuke" 1.

Definition job (s : JobStatus) : Job :=
  mkJob "f" "q" 50 s 0 None None None "" 1 1 None None (Some []) "".

Definition stepRow (s : StepStatus) : Step := mkStep "j" "render" [] 0 s 2 2 "" None.

Definition task (s : TaskStatus) (created : Z) : Task :=
  mkTask "j" "s" s None None created created None "" 0 None "".

(** A Linux machine of eight cores. *)
Definition caps : Capabilities :=
  mkCapabilities "" "linux" "6.1" "amd64" 8 32768 0 0 ∅
    (mkWorkerExprLimits 1000000 20000000 10000 20000000 10000000) [].

Definition worker (disabled : bool) : Worker :=
  mkWorker (Some "f"%string) None WorkerOnline disabled "i1" None None (Some 5) 1 1 caps.

Definition db : DB :=
  mkDB {["f"%string := farm]} {["q"%string := queue]} {["j"%string := job JobPending]} ∅
    {["s"%string := stepRow StepReady]}
    {["t1"%string := task TaskReady 3; "t2"%string := task TaskReady 4]}
    ∅ {["p"%string := pool]} ∅
    {["w"%string := worker false; "d"%string := worker true]} ∅ ∅ ∅.

End Sample.
