(* ===== verification/Finalize.v ===== *)
(** * Steps and jobs as their children leave them:
      [internal/store/sqlstore/finalize.go]

    Finalizing a step from its tasks and a job from its steps, releasing and
    cancelling pending steps, releasing and cancelling blocked jobs, promoting
    and pausing.  Every write is guarded inside its own statement. *)

From S2P Require Import Prelude Schema.
Open Scope Z_scope.

(** ** Finalizing a step *)

(** [sqlStepHasNoOpenTask] *)
Definition stepHasNoOpenTask (db : DB) (id : string) : bool :=
  negb (exists_where
    (λ _ t, bool_decide (TaskStepID t = id) && negb (task_terminal (TaskStatusOf t)))
    (tasks db)).

Definition stepHasTask (db : DB) (id : string) (p : TaskStatus → bool) : bool :=
  exists_where (λ _ t, bool_decide (TaskStepID t = id) && p (TaskStatusOf t)) (tasks db).

(** [sqlStepOutcomeArms] *)
Definition stepOutcome (db : DB) (id : string) : StepStatus :=
  if stepHasTask db id (λ s, bool_decide (s = TaskFailed)) then StepFailed
  else if stepHasTask db id (λ s, bool_decide (s = TaskCanceled)) then StepCanceled
  else StepCompleted.

(** The WHERE clause of [sqlFinalizeStep] *)
Definition finalizeStepGuard (db : DB) (id : string) (st : Step) : bool :=
  negb (step_terminal (StepStatusOf st)) && stepHasNoOpenTask db id.

(** [UPDATE steps SET status = s, updated_at = now] *)
Definition step_to (s : StepStatus) (now : Z) (st : Step) : Step :=
  set_StepUpdatedAt now (set_StepStatusOf s st).

Definition sqlFinalizeStep (id : string) (now : Z) (db : DB) : DB :=
  set_steps (update_where (λ k st, bool_decide (k = id) && finalizeStepGuard db k st)
    (λ k, step_to (stepOutcome db k) now) (steps db)) db.

(** The status the step holds and whether this call wrote it. *)
Definition FinalizeStep (id : string) (now : Z)
    : DB → res StoreErr (option StepStatus * bool) * DB :=
  inTx (λ db,
    let? st := get (steps db) id in
    if finalizeStepGuard db id st then
      Ok (Some (stepOutcome db id), true, txCommit, sqlFinalizeStep id now db)
    else if step_terminal (StepStatusOf st) then
      Ok (Some (StepStatusOf st), false, txRollback, db)
    else Ok (None, false, txRollback, db)).

(** The CASE of [sqlCancelJobFinalizeSteps] *)
Definition cancelStepOutcome (db : DB) (id : string) (st : Step) : StepStatus :=
  if bool_decide (StepStatusOf st = StepPending) then StepCanceled
  else if negb (stepHasTask db id (λ _, true)) then StepCanceled
  else stepOutcome db id.

Definition sqlCancelJobFinalizeSteps (jobID : string) (now : Z) (db : DB) : DB :=
  set_steps (update_where
    (λ k st, bool_decide (StepJobID st = jobID) && finalizeStepGuard db k st)
    (λ k st, step_to (cancelStepOutcome db k st) now st) (steps db)) db.

(** ** Finalizing a job *)

Definition jobHasStep (db : DB) (id : string) (p : StepStatus → bool) : bool :=
  exists_where (λ _ st, bool_decide (StepJobID st = id) && p (StepStatusOf st)) (steps db).

Definition jobOutcome (db : DB) (id : string) : JobStatus :=
  if jobHasStep db id (λ s, bool_decide (s = StepFailed)) then JobFailed
  else if jobHasStep db id (λ s, bool_decide (s = StepCanceled)) then JobCanceled
  else JobCompleted.

(** The WHERE clause of [sqlFinalizeJob] *)
Definition finalizeJobGuard (db : DB) (id : string) (j : Job) : bool :=
  negb (job_terminal (JobStatusOf j)) && negb (jobHasStep db id (λ s, negb (step_terminal s))).

Definition job_to (s : JobStatus) (now : Z) (j : Job) : Job :=
  set_JobUpdatedAt now (set_JobStatusOf s j).

Definition sqlFinalizeJob (id : string) (now : Z) (db : DB) : DB :=
  set_jobs (update_where (λ k j, bool_decide (k = id) && finalizeJobGuard db k j)
    (λ k j, set_JobCompletedAt (Some now) (job_to (jobOutcome db k) now j)) (jobs db)) db.

Definition FinalizeJob (id : string) (now : Z)
    : DB → res StoreErr (option JobStatus * bool) * DB :=
  inTx (λ db,
    let? j := get (jobs db) id in
    if finalizeJobGuard db id j then
      Ok (Some (jobOutcome db id), true, txCommit, sqlFinalizeJob id now db)
    else if job_terminal (JobStatusOf j) then
      Ok (Some (JobStatusOf j), false, txRollback, db)
    else Ok (None, false, txRollback, db)).

(** [ListStuckSteps]: the steps [FinalizeStep] would finalize now, of a job
    that is not terminal. *)
Definition ListStuckSteps (db : DB) : gmap string Step :=
  matching (λ k st,
    negb (step_terminal (StepStatusOf st))
    && row_matches (jobs db) (StepJobID st) (λ j, negb (job_terminal (JobStatusOf j)))
    && stepHasTask db k (λ _, true) && stepHasNoOpenTask db k) (steps db).

(** ** Moving a pending step with its tasks *)

(** [sqlTransitionStepPendingTasks] and [sqlCancelJobPendingTasks]: the columns
    a pending task's move writes. *)
Definition pending_task_to (s : TaskStatus) (now : Z) (reason : string) (t : Task) : Task :=
  set_FailureReason (if bool_decide (FailureReason t = ""%string) then reason else FailureReason t)
    (set_UnschedulableReason "" (set_TaskUpdatedAt now (set_TaskStatusOf s t))).

Definition stepPendingTask (id : string) (t : Task) : bool :=
  bool_decide (TaskStepID t = id) && bool_decide (TaskStatusOf t = TaskPending).

Definition anyUpstreamUnsuccessful (db : DB) (jobID : string) (deps : list string) : bool :=
  exists_where (λ _ u,
    bool_decide (StepJobID u = jobID)
    && (bool_decide (StepStatusOf u = StepFailed) || bool_decide (StepStatusOf u = StepCanceled))
    && bool_decide (StepName u ∈ deps)) (steps db).

(** The tasks moved, or nothing when the step is no longer pending. *)
Definition movePendingStep (id : string) (stepTo : StepStatus) (taskTo : TaskStatus)
    (reason : string) (now : Z) : DB → res StoreErr (bool * gmap string Task) * DB :=
  inTx (λ db,
    let? st := get (steps db) id in
    if bool_decide (stepTo = StepCanceled)
       && negb (anyUpstreamUnsuccessful db (StepJobID st) (DependsOn st))
    then Ok (false, ∅, txRollback, db)
    else if negb (bool_decide (StepStatusOf st = StepPending))
    then Ok (false, ∅, txRollback, db)
    else
      let db1 := set_steps (update_where
        (λ k s, bool_decide (k = id) && bool_decide (StepStatusOf s = StepPending))
        (λ _, step_to stepTo now) (steps db)) db in
      let p := λ _ : string, stepPendingTask id in
      let f := λ _ : string, pending_task_to taskTo now reason in
      Ok (true, returning p f (tasks db1), txCommit,
          set_tasks (update_where p f (tasks db1)) db1)).

Definition ReleaseStep (id : string) (now : Z) :=
  movePendingStep id StepReady TaskReady "" now.

Definition CancelPendingStep (id reason : string) (now : Z) :=
  movePendingStep id StepCanceled TaskCanceled reason now.

(** ** Blocked jobs *)

Definition dependencyIDs (db : DB) (id : string) : list string :=
  snd <$> filter (λ e, e.1 = id) (elements (jobDependencies db)).

(** Every upstream exists and is completed. *)
Definition upstreamsCompleted (db : DB) (id : string) : bool :=
  forallb (λ u, row_matches (jobs db) u (λ j, bool_decide (JobStatusOf j = JobCompleted)))
    (dependencyIDs db id).

(** [sqlReleaseBlockedJob] *)
Definition sqlReleaseBlockedJob (id : string) (now : Z) (db : DB) : DB :=
  set_jobs (update_where
    (λ k j, bool_decide (k = id) && bool_decide (JobStatusOf j = JobBlocked)
            && upstreamsCompleted db k)
    (λ _, job_to JobPending now) (jobs db)) db.

Definition ReleaseBlockedJob (id : string) (now : Z) : DB → res StoreErr bool * DB :=
  inTx (λ db,
    let? j := get (jobs db) id in
    Ok (bool_decide (JobStatusOf j = JobBlocked) && upstreamsCompleted db id, txCommit,
        sqlReleaseBlockedJob id now db)).

Definition CancelBlockedJob (id reason : string) (now : Z)
    : DB → res StoreErr (bool * gmap string Task) * DB :=
  inTx (λ db,
    let? j := get (jobs db) id in
    if negb (bool_decide (JobStatusOf j = JobBlocked)) then Ok (false, ∅, txRollback, db)
    else
      let db1 := set_jobs (update_where
        (λ k j, bool_decide (k = id) && bool_decide (JobStatusOf j = JobBlocked))
        (λ _ j, set_JobCompletedAt (Some now) (job_to JobCanceled now j)) (jobs db)) db in
      let db2 := set_steps (update_where
        (λ _ st, bool_decide (StepJobID st = id) && negb (step_terminal (StepStatusOf st)))
        (λ _, step_to StepCanceled now) (steps db1)) db1 in
      let p := λ (_ : string) t,
        bool_decide (TaskJobID t = id) && bool_decide (TaskStatusOf t = TaskPending) in
      let f := λ _ : string, pending_task_to TaskCanceled now reason in
      Ok (true, returning p f (tasks db2), txCommit,
          set_tasks (update_where p f (tasks db2)) db2)).

(** ** Promoting and pausing *)

Definition sqlPromoteJobRunning (id : string) (now : Z) (db : DB) : DB :=
  set_jobs (update_where
    (λ k j, bool_decide (k = id) && bool_decide (JobStatusOf j = JobPending))
    (λ _ j, set_JobStartedAt (Some (default now (JobStartedAt j))) (job_to JobRunning now j))
    (jobs db)) db.

Definition PromoteJobRunning (id : string) (now : Z) (db : DB) : res StoreErr bool * DB :=
  (Ok (row_matches (jobs db) id (λ j, bool_decide (JobStatusOf j = JobPending))),
   sqlPromoteJobRunning id now db).

Definition pausable (s : JobStatus) : bool :=
  match s with JobPending | JobRunning => true | _ => false end.

Definition PauseJob (id : string) (now : Z) (db : DB) : res StoreErr unit * DB :=
  let db' := set_jobs (update_where (λ k j, bool_decide (k = id) && pausable (JobStatusOf j))
               (λ _, job_to JobPaused now) (jobs db)) db in
  (if row_matches (jobs db) id (λ j, pausable (JobStatusOf j)) then Ok tt
   else let? _ := get (jobs db') id in Err ErrConflict, db').
