(* ===== verification/Attempts.v ===== *)
(** * Task attempts: [internal/store/sqlstore/attemptclose.go],
      [attemptreport.go] and the failure accounting of [task.go]

    How a task's attempts are started, reported on, closed and reclaimed.
    Closing an attempt always releases its usage claims, and a report moves a
    task only when its attempt is the task's latest. *)

From S2P Require Import Prelude Schema Finalize.
Open Scope Z_scope.

(** ** Latest attempts *)

Fixpoint max_list (l : list Z) : option Z :=
  match l with
  | [] => None
  | x :: l' => Some (match max_list l' with Some m => Z.max x m | None => x end)
  end.

Definition attemptsOf (db : DB) (taskID : string) : gmap string TaskAttempt :=
  matching (λ _ a, bool_decide (AttemptTaskID a = taskID)) (attempts db).

(** [SELECT MAX(attempt_number) FROM task_attempts WHERE task_id = ?] *)
Definition maxAttemptNumber (db : DB) (taskID : string) : option Z :=
  max_list ((λ ka, AttemptNumber ka.2) <$> map_to_list (attemptsOf db taskID)).

(** [sqlIsLatestAttempt] *)
Definition isLatestAttempt (db : DB) (attemptID taskID : string) : bool :=
  match attempts db !! attemptID with
  | None => false
  | Some a =>
      bool_decide (AttemptTaskID a = taskID)
      && bool_decide (maxAttemptNumber db taskID = Some (AttemptNumber a))
  end.

(** ** Compare-and-set of a task's status *)

Inductive casResult := casApplied | casSame.

Definition casMaxAttempts : nat := 3.

(** [sqlCASTaskStatus] *)
Definition sqlCASTaskStatus (id : string) (observed to : TaskStatus) (now : Z) (db : DB) : DB :=
  set_tasks (update_where
    (λ k t, bool_decide (k = id) && bool_decide (TaskStatusOf t = observed))
    (λ _ t, set_UnschedulableReason "" (set_TaskUpdatedAt now (set_TaskStatusOf to t)))
    (tasks db)) db.

(** Whether the guarded write landed, and the database after it. *)
Definition casWriteTaskStatus (id : string) (observed to : TaskStatus) (now : Z) (db : DB)
    : bool * DB :=
  (row_matches (tasks db) id (λ t, bool_decide (TaskStatusOf t = observed)),
   sqlCASTaskStatus id observed to now db).

Fixpoint casLoop (tries : nat) (id : string) (to : TaskStatus) (now : Z) (db : DB)
    : res StoreErr (casResult * DB) :=
  match tries with
  | O => Err ErrStatusKeptChanging
  | S n =>
      let? t := get (tasks db) id in
      let current := TaskStatusOf t in
      if bool_decide (current = to) then Ok (casSame, db)
      else
        let? _ := ValidateTaskTransition current to in
        let '(ok, db') := casWriteTaskStatus id current to now db in
        if ok : bool then Ok (casApplied, db') else casLoop n id to now db'
  end.

Definition casTaskStatusTx := casLoop casMaxAttempts.

(** ** A worker's terminal report *)

Record AttemptCompletion := mkAttemptCompletion {
  CompAttemptID : string;
  CompTaskID : string;
  CompTaskStatus : TaskStatus;
  CompAttemptStatus : AttemptStatus;
  CompExitCode : option Z;
  CompSessionID : string;
  CompMessage : string;
  CompFailureReason : string;
  CompEndedAt : Z;
}.

Inductive CompletionResult := Applied | Rejected.

Definition attempt_open (a : TaskAttempt) : bool :=
  bool_decide (AttemptStatusOf a = AttemptRunning).

Definition claim_active (c : UsageClaim) : bool :=
  match ReleasedAt c with None => true | Some _ => false end.

(** [session_id = COALESCE(NULLIF(?, ''), session_id)] *)
Definition keep_session (v : string) (old : option string) : option string :=
  if bool_decide (v = ""%string) then old else Some v.

(** [sqlCloseRunningAttempt]: the columns, and the statement. *)
Definition completedBy (c : AttemptCompletion) (a : TaskAttempt) : TaskAttempt :=
  set_Message (keep_if_empty (CompMessage c) (Message a))
    (set_SessionID (keep_session (CompSessionID c) (SessionID a))
      (set_EndedAt (Some (CompEndedAt c))
        (set_ExitCode (CompExitCode c) (set_AttemptStatusOf (CompAttemptStatus c) a)))).

Definition sqlCloseRunningAttempt (c : AttemptCompletion) (db : DB) : DB :=
  set_attempts (update_where
    (λ k a, bool_decide (k = CompAttemptID c) && attempt_open a)
    (λ _, completedBy c) (attempts db)) db.

(** [sqlReleaseAttemptClaims] *)
Definition sqlReleaseAttemptClaims (released : Z) (attemptID : string) (db : DB) : DB :=
  set_claims (update_where
    (λ _ c, bool_decide (ClaimAttemptID c = attemptID) && claim_active c)
    (λ _, set_ReleasedAt (Some released)) (claims db)) db.

Definition closeAttemptAndReleaseTx (c : AttemptCompletion) (released : Z) (db : DB) : DB :=
  sqlReleaseAttemptClaims released (CompAttemptID c) (sqlCloseRunningAttempt c db).

(** [sqlSetTaskFailureReason] *)
Definition sqlSetTaskFailureReason (reason : string) (now : Z) (id : string) (db : DB) : DB :=
  set_tasks (update_where (λ k _, bool_decide (k = id))
    (λ _ t, set_TaskUpdatedAt now (set_FailureReason reason t)) (tasks db)) db.

Definition applyCompletionTx (c : AttemptCompletion) (now : Z) (db : DB)
    : res StoreErr (CompletionResult * DB) :=
  if negb (isLatestAttempt db (CompAttemptID c) (CompTaskID c)) then Ok (Rejected, db)
  else
    let? t := get (tasks db) (CompTaskID c) in
    let cur := TaskStatusOf t in
    if negb (bool_decide (cur = CompTaskStatus c)) && negb (in_flight cur) then Ok (Rejected, db)
    else
      match casTaskStatusTx (CompTaskID c) (CompTaskStatus c) now db with
      | Err ErrInvalidTransition => Ok (Rejected, db)
      | Err e => Err e
      | Ok (_, db1) =>
          Ok (Applied,
              if bool_decide (CompFailureReason c = ""%string) then db1
              else sqlSetTaskFailureReason (CompFailureReason c) now (CompTaskID c) db1)
      end.

Definition CompleteTaskAttempt (c : AttemptCompletion) (now : Z)
    : DB → res StoreErr CompletionResult * DB :=
  inTx (λ db,
    let? _ := get (tasks db) (CompTaskID c) in
    let? (r, db') := applyCompletionTx c now (closeAttemptAndReleaseTx c now db) in
    Ok (r, txCommit, db')).

(** ** Closing the attempts of tasks *)

(** [sqlCloseTasksRunningAttempts]: the columns, and the statement. *)
Definition closedAs (status : AttemptStatus) (now : Z) (message : string) (a : TaskAttempt)
    : TaskAttempt :=
  set_Message (keep_if_empty message (Message a))
    (set_EndedAt (Some now) (set_AttemptStatusOf status a)).

Definition sqlCloseTasksRunningAttempts (ids : gset string) (status : AttemptStatus)
    (now : Z) (message : string) (db : DB) : DB :=
  set_attempts (update_where
    (λ _ a, attempt_open a && bool_decide (AttemptTaskID a ∈ ids))
    (λ _, closedAs status now message) (attempts db)) db.

(** The attempt exists, is closed and satisfies [p]: the subquery of the claim
    releases. *)
Definition closed_attempt (db : DB) (attemptID : string) (p : TaskAttempt → bool) : bool :=
  row_matches (attempts db) attemptID (λ a, negb (attempt_open a) && p a).

(** [sqlReleaseClosedTasksClaims] *)
Definition sqlReleaseClosedTasksClaims (ids : gset string) (now : Z) (db : DB) : DB :=
  set_claims (update_where
    (λ _ c, claim_active c
            && closed_attempt db (ClaimAttemptID c) (λ a, bool_decide (AttemptTaskID a ∈ ids)))
    (λ _, set_ReleasedAt (Some now)) (claims db)) db.

Definition closeTasksAttemptsTx (ids : gset string) (status : AttemptStatus)
    (message : string) (now : Z) (db : DB) : DB :=
  if bool_decide (ids = ∅) then db
  else sqlReleaseClosedTasksClaims ids now (sqlCloseTasksRunningAttempts ids status now message db).

Definition closeTaskAttemptsTx (taskID : string) (status : AttemptStatus)
    (message : string) (now : Z) (db : DB) : DB :=
  closeTasksAttemptsTx {[taskID]} status message now db.

(** ** Cancelling *)

(** [status IN ('pending', 'ready', 'assigned', 'running')] *)
Definition cancelable (s : TaskStatus) : bool := negb (task_terminal s).

Definition task_canceled (reason : string) (now : Z) (t : Task) : Task :=
  set_FailureReason (if bool_decide (FailureReason t = ""%string) then reason else FailureReason t)
    (set_UnschedulableReason "" (set_TaskUpdatedAt now (set_TaskStatusOf TaskCanceled t))).

(** [sqlCancelJobTasks] *)
Definition sqlCancelJobTasks (jobID reason : string) (now : Z) (db : DB) : DB :=
  set_tasks (update_where
    (λ _ t, bool_decide (TaskJobID t = jobID) && cancelable (TaskStatusOf t))
    (λ _ t, set_AssignedAt None (set_AssignedWorkerID None (task_canceled reason now t)))
    (tasks db)) db.

(** [sqlCancelJobAttempts] *)
Definition sqlCancelJobAttempts (jobID : string) (now : Z) (db : DB) : DB :=
  set_attempts (update_where
    (λ _ a, attempt_open a
            && row_matches (tasks db) (AttemptTaskID a) (λ t, bool_decide (TaskJobID t = jobID)))
    (λ _ a, set_EndedAt (Some now) (set_AttemptStatusOf AttemptCanceled a))
    (attempts db)) db.

(** [sqlReleaseClosedJobClaims] *)
Definition sqlReleaseClosedJobClaims (jobID : string) (now : Z) (db : DB) : DB :=
  set_claims (update_where
    (λ _ c, claim_active c
            && closed_attempt db (ClaimAttemptID c) (λ a,
                 row_matches (tasks db) (AttemptTaskID a) (λ t, bool_decide (TaskJobID t = jobID))))
    (λ _, set_ReleasedAt (Some now)) (claims db)) db.

(** [sqlCancelJobStatus] *)
Definition sqlCancelJobStatus (id : string) (now : Z) (db : DB) : DB :=
  set_jobs (update_where
    (λ k j, bool_decide (k = id) && negb (job_terminal (JobStatusOf j)))
    (λ _ j, set_JobCompletedAt (Some now) (job_to JobCanceled now j)) (jobs db)) db.

(** [sqlSelectActiveJobTasks] *)
Definition activeJobTasks (db : DB) (jobID : string) : gmap string Task :=
  matching (λ _ t, bool_decide (TaskJobID t = jobID) && in_flight (TaskStatusOf t)) (tasks db).

Definition CancelJobExecution (jobID reason : string) (now : Z)
    : DB → res StoreErr (gmap string Task) * DB :=
  inTx (λ db,
    let active := activeJobTasks db jobID in
    let db1 := sqlCancelJobTasks jobID reason now db in
    let db2 := sqlCancelJobAttempts jobID now db1 in
    let db3 := sqlReleaseClosedJobClaims jobID now db2 in
    let db4 := sqlCancelJobFinalizeSteps jobID now db3 in
    let db5 := sqlCancelJobStatus jobID now db4 in
    Ok (active, txCommit, db5)).

(** [sqlCancelOneTask] *)
Definition sqlCancelOneTask (id reason : string) (now : Z) (db : DB) : DB :=
  set_tasks (update_where
    (λ k t, bool_decide (k = id) && cancelable (TaskStatusOf t))
    (λ _, task_canceled reason now) (tasks db)) db.

(** The task before the cancel, and whether it was canceled. *)
Definition CancelTaskExecution (taskID reason : string) (now : Z)
    : DB → res StoreErr (Task * bool) * DB :=
  inTx (λ db,
    let? prior := get (tasks db) taskID in
    if negb (cancelable (TaskStatusOf prior)) then Ok (prior, false, txRollback, db)
    else
      Ok (prior, true, txCommit,
          closeTaskAttemptsTx taskID AttemptCanceled "" now
            (sqlCancelOneTask taskID reason now db))).

(** ** Reports of a running attempt *)

(** [liveAttemptTx]: whether a report may act on the task, and the task. *)
Definition liveAttempt (db : DB) (attemptID taskID : string) : res StoreErr (bool * Task) :=
  let? t := get (tasks db) taskID in
  Ok (in_flight (TaskStatusOf t)
      && row_matches (attempts db) attemptID attempt_open
      && isLatestAttempt db attemptID taskID, t).

(** [sqlSetRunningAttemptSession] *)
Definition sqlSetRunningAttemptSession (sessionID attemptID : string) (db : DB) : DB :=
  set_attempts (update_where (λ k a, bool_decide (k = attemptID) && attempt_open a)
    (λ _, set_SessionID (Some sessionID)) (attempts db)) db.

Definition StartTaskAttempt (attemptID taskID sessionID : string) (now : Z)
    : DB → res StoreErr bool * DB :=
  inTx (λ db,
    let? (live, t) := liveAttempt db attemptID taskID in
    if negb live then Ok (false, txCommit, db)
    else
      let '(moved, db1) :=
        if bool_decide (TaskStatusOf t = TaskAssigned)
        then casWriteTaskStatus taskID TaskAssigned TaskRunning now db
        else (true, db) in
      if negb moved then Ok (false, txRollback, db1)
      else
        Ok (true, txCommit,
            if bool_decide (sessionID = ""%string) then db1
            else sqlSetRunningAttemptSession sessionID attemptID db1)).

Inductive ProgressOutcome :=
  ProgressRecorded | ProgressOutOfOrder | ProgressNotLive | ProgressTaskAssigned.

(** [progress_at IS NULL OR progress_at < at] *)
Definition progress_before (a : TaskAttempt) (at_ : Z) : bool :=
  match ProgressAt a with None => true | Some p => p <? at_ end.

Definition RecordAttemptProgress (attemptID taskID : string) (progress : option Z)
    (text : string) (at_ : Z) : DB → res StoreErr (ProgressOutcome * string) * DB :=
  inTx (λ db,
    let? (live, t) := liveAttempt db attemptID taskID in
    if negb live then Ok (ProgressNotLive, TaskJobID t, txCommit, db)
    else if bool_decide (TaskStatusOf t = TaskAssigned)
    then Ok (ProgressTaskAssigned, TaskJobID t, txCommit, db)
    else
      let g := λ a, attempt_open a && progress_before a at_ in
      let db' := set_attempts (update_where (λ k a, bool_decide (k = attemptID) && g a)
        (λ _ a, set_ProgressAt (Some at_) (set_StatusText text (set_Progress progress a)))
        (attempts db)) db in
      Ok (if row_matches (attempts db) attemptID g then ProgressRecorded else ProgressOutOfOrder,
          TaskJobID t, txCommit, db')).

(** ** Reclaiming *)

(** [sqlReclaimTaskSet] *)
Definition reclaimTask (now : Z) (t : Task) : Task :=
  set_UnschedulableReason "" (set_TaskUpdatedAt now (set_AssignedAt None
    (set_AssignedWorkerID None (set_TaskStatusOf TaskReady t)))).

Definition FailureReasonWorkerOffline : string := "worker went offline".
Definition FailureReasonWorkerShutdown : string := "worker shut down".
Definition FailureReasonWorkerRestarted : string := "worker restarted".

Definition ReclaimTaskAttempt (attemptID taskID : string) (now : Z)
    : DB → res StoreErr bool * DB :=
  inTx (λ db,
    let? (live, _) := liveAttempt db attemptID taskID in
    if negb live then Ok (false, txCommit, db)
    else
      let db1 := set_tasks (update_where
        (λ k t, bool_decide (k = taskID) && in_flight (TaskStatusOf t))
        (λ _, reclaimTask now) (tasks db)) db in
      Ok (true, txCommit,
          closeTaskAttemptsTx taskID AttemptFailed FailureReasonWorkerShutdown now db1)).

(** [sqlReclaimWorkerTasksReturning]'s WHERE clause *)
Definition workerTask (workerID : string) (t : Task) : bool :=
  bool_decide (AssignedWorkerID t = Some workerID) && in_flight (TaskStatusOf t).

(** The tasks returned to ready, and the database after. *)
Definition reclaimWorkerTasksTx (workerID message : string) (now : Z) (db : DB)
    : gmap string Task * DB :=
  let p := λ _ : string, workerTask workerID in
  let f := λ _ : string, reclaimTask now in
  let reclaimed := returning p f (tasks db) in
  let db1 := set_tasks (update_where p f (tasks db)) db in
  (reclaimed, closeTasksAttemptsTx (dom reclaimed) AttemptFailed message now db1).

(** [offlineWorker] with the guard of the marking statement. *)
Definition offlineWorker (id : string) (guard : Worker → bool) (now : Z)
    : DB → res StoreErr (gmap string Task * bool) * DB :=
  inTx (λ db,
    if negb (row_matches (workers db) id guard) then Ok (∅, false, txRollback, db)
    else
      let db1 := set_workers (update_where (λ k w, bool_decide (k = id) && guard w)
        (λ _ w, set_WorkerUpdatedAt now (set_WorkerStatusOf WorkerOffline w)) (workers db)) db in
      let '(reclaimed, db2) := reclaimWorkerTasksTx id FailureReasonWorkerOffline now db1 in
      Ok (reclaimed, true, txCommit, db2)).

(** [sqlOfflineStaleWorker]'s guard; a NULL heartbeat is never stale. *)
Definition staleWorker (cutoff : Z) (w : Worker) : bool :=
  bool_decide (WorkerStatusOf w = WorkerOnline)
  && match LastHeartbeatAt w with Some h => h <? cutoff | None => false end.

Definition OfflineStaleWorker (id : string) (cutoff now : Z) :=
  offlineWorker id (staleWorker cutoff) now.

(** [sqlOfflineWorker]'s guard; an empty instance ID on either side matches. *)
Definition sameInstance (instanceID : string) (w : Worker) : bool :=
  bool_decide (instanceID = ""%string) || bool_decide (InstanceID w = ""%string)
  || bool_decide (InstanceID w = instanceID).

Definition OfflineWorker (id instanceID : string) (now : Z) (db : DB)
    : res StoreErr (gmap string Task * bool) * DB :=
  match offlineWorker id (sameInstance instanceID) now db with
  | (Ok (_, false), db') =>
      (let? _ := get (workers db') id in Ok (∅, false), db')
  | r => r
  end.

(** ** Stale assignments *)

(** [status = 'assigned' AND assigned_at < cutoff] *)
Definition staleAssigned (cutoff : Z) (t : Task) : bool :=
  bool_decide (TaskStatusOf t = TaskAssigned)
  && match AssignedAt t with Some at_ => at_ <? cutoff | None => false end.

Definition reclaimBatch : nat := 500.

(** One batch of candidates, re-checked. *)
Definition reclaimStaleBatch (batch : list string) (cutoff now : Z)
    : DB → res StoreErr (gmap string Task) * DB :=
  inTx (λ db,
    let p := λ k t, bool_decide (k ∈ batch) && staleAssigned cutoff t in
    let f := λ _ : string, reclaimTask now in
    let reclaimed := returning p f (tasks db) in
    if bool_decide (reclaimed = ∅) then Ok (∅, txRollback, db)
    else
      let db1 := set_tasks (update_where p f (tasks db)) db in
      Ok (reclaimed, txCommit, closeTasksAttemptsTx (dom reclaimed) AttemptFailed "" now db1)).

(** The list in chunks of [n]; [fuel] bounds the chunks. *)
Fixpoint chunks {A} (fuel n : nat) (l : list A) : list (list A) :=
  match fuel, l with
  | O, _ | _, [] => []
  | S f, _ => take n l :: chunks f n (drop n l)
  end.

(** [sqlStaleAssignedCandidates], in task id order. *)
Definition staleAssignedCandidates (cutoff : Z) (db : DB) : list string :=
  sort_by String.leb (map_to_list (matching (λ _, staleAssigned cutoff) (tasks db))).*1.

(** ** Failure accounting *)

(** [sqlCloseAttemptAsFailed]: the columns, and the statement. *)
Definition failedWith (ended : Z) (exitCode : option Z) (sessionID message : string)
    (a : TaskAttempt) : TaskAttempt :=
  set_Message (keep_if_empty message (Message a))
    (set_SessionID (keep_session sessionID (SessionID a))
      (set_ExitCode (match exitCode with Some e => Some e | None => ExitCode a end)
        (set_EndedAt (Some ended) (set_AttemptStatusOf AttemptFailed a)))).

Definition sqlCloseAttemptAsFailed (ended : Z) (exitCode : option Z)
    (sessionID message attemptID : string) (db : DB) : DB :=
  set_attempts (update_where (λ k a, bool_decide (k = attemptID) && attempt_open a)
    (λ _, failedWith ended exitCode sessionID message) (attempts db)) db.

(** The task's and the job's failure counts, and whether this call closed the
    attempt. *)
Definition RecordTaskFailure (attemptID taskID : string) (exitCode : option Z)
    (sessionID message : string) (now server : Z)
    : DB → res StoreErr (Z * Z * bool) * DB :=
  inTx (λ db,
    let? t := get (tasks db) taskID in
    let closed := row_matches (attempts db) attemptID attempt_open in
    let db1 := sqlCloseAttemptAsFailed now exitCode sessionID message attemptID db in
    let db2 := sqlReleaseAttemptClaims server attemptID db1 in
    let? j := get (jobs db2) (TaskJobID t) in
    if negb closed then Ok (TaskFailedAttempts t, JobFailedAttempts j, false, txCommit, db2)
    else
      let db3 := set_tasks (update_where (λ k _, bool_decide (k = taskID))
        (λ _ t, set_TaskUpdatedAt now (set_TaskFailedAttempts (TaskFailedAttempts t + 1) t))
        (tasks db2)) db2 in
      let db4 := set_jobs (update_where (λ k _, bool_decide (k = TaskJobID t))
        (λ _ j, set_JobUpdatedAt now (set_JobFailedAttempts (JobFailedAttempts j + 1) j))
        (jobs db3)) db3 in
      Ok (TaskFailedAttempts t + 1, JobFailedAttempts j + 1, true, txCommit, db4)).

(** [sqlRequeueTaskForRetry] *)
Definition requeueTask (retryAfter now : Z) (t : Task) : Task :=
  set_FailureReason "" (set_TaskUpdatedAt now (set_RetryAfter (Some retryAfter)
    (set_AssignedAt None (set_AssignedWorkerID None (set_TaskStatusOf TaskReady t))))).

Definition RequeueTaskForRetry (taskID attemptID : string) (retryAfter now : Z)
    : DB → res StoreErr bool * DB :=
  inTx (λ db,
    match tasks db !! taskID with
    | None => Ok (false, txRollback, db)
    | Some t =>
        Ok (in_flight (TaskStatusOf t) && isLatestAttempt db attemptID taskID, txCommit,
            set_tasks (update_where
              (λ k t, bool_decide (k = taskID) && in_flight (TaskStatusOf t)
                      && isLatestAttempt db attemptID taskID)
              (λ _, requeueTask retryAfter now) (tasks db)) db)
    end).

(** ** Annotations *)

Definition SetTaskUnschedulableReason (id reason : string) (now : Z) (db : DB)
    : res StoreErr bool * DB :=
  let g := λ t, bool_decide (TaskStatusOf t = TaskReady) in
  let db' := set_tasks (update_where (λ k t, bool_decide (k = id) && g t)
    (λ _ t, set_TaskUpdatedAt now (set_UnschedulableReason reason t)) (tasks db)) db in
  (if row_matches (tasks db) id g then Ok true
   else let? _ := get (tasks db') id in Ok false, db').
