(* ===== verification/Lease.v ===== *)
(** * Leasing a task: [internal/store/sqlstore/lease.go] and the selection
      queries of [task.go]

    The ready list, the counts the caps are checked against, and [LeaseTask]:
    one transaction that moves a ready task to assigned, opens its next
    attempt and claims a slot of every pool it needs, or writes nothing. *)

From S2P Require Import Prelude Schema Sample Finalize Attempts.
Open Scope Z_scope.

(** ** Eligibility *)

(** [sqlLeasableTask] *)
Definition leasableTask (now : Z) (t : Task) (j : Job) (q : Queue) : bool :=
  bool_decide (TaskStatusOf t = TaskReady)
  && negb (Paused q)
  && negb (bool_decide (JobStatusOf j = JobPaused) || job_terminal (JobStatusOf j))
  && match RetryAfter t with None => true | Some r => r <=? now end.

(** The joined row of [sqlListReadyTasks]: the task's key and row with its job,
    its job's queue and its step. *)
Record ReadyRow := mkReadyRow {
  RowID : string;
  RowTask : Task;
  RowJob : Job;
  RowQueue : Queue;
  RowStep : Step;
}.

Definition joinRow (db : DB) (id : string) (t : Task) : option ReadyRow :=
  j ← jobs db !! TaskJobID t;
  q ← queues db !! JobQueueID j;
  s ← steps db !! TaskStepID t;
  Some (mkReadyRow id t j q s).

(** [ORDER BY j.priority DESC, j.created_at, s.step_order, t.created_at] *)
Definition ready_key (r : ReadyRow) : Z * Z * Z * Z :=
  (- JobPriority (RowJob r), JobCreatedAt (RowJob r), StepOrder (RowStep r),
   TaskCreatedAt (RowTask r)).

Definition key_le (a b : Z * Z * Z * Z) : bool :=
  let '(a1, a2, a3, a4) := a in
  let '(b1, b2, b3, b4) := b in
  (a1 <? b1) || ((a1 =? b1) && ((a2 <? b2) || ((a2 =? b2)
    && ((a3 <? b3) || ((a3 =? b3) && (a4 <=? b4)))))).

Definition readyRows (db : DB) (farmID : string) (now : Z) : list ReadyRow :=
  filter (λ r,
    (bool_decide (farmID = ""%string) || bool_decide (JobFarmID (RowJob r) = farmID))
    && leasableTask now (RowTask r) (RowJob r) (RowQueue r) = true)
    (omap (λ kt, joinRow db kt.1 kt.2) (map_to_list (tasks db))).

Definition ListReadyTasks (farmID : string) (now : Z) (limit : nat) (db : DB) : list ReadyRow :=
  take limit (sort_by (λ a b, key_le (ready_key a) (ready_key b)) (readyRows db farmID now)).

(** ** Active counts *)

(** The task is in flight and its job satisfies [p]. *)
Definition activeTask (db : DB) (p : Job → bool) (_ : string) (t : Task) : bool :=
  in_flight (TaskStatusOf t) && row_matches (jobs db) (TaskJobID t) p.

Definition CountActiveTasksInQueue (db : DB) (queueID : string) : Z :=
  count_where (activeTask db (λ j, bool_decide (JobQueueID j = queueID))) (tasks db).

Definition CountActiveTasksInFarm (db : DB) (farmID : string) : Z :=
  count_where (activeTask db (λ j, bool_decide (JobFarmID j = farmID))) (tasks db).

Definition ActiveClaimCount (db : DB) (poolID : string) : Z :=
  count_where (λ _ c, bool_decide (ClaimPoolID c = poolID) && claim_active c) (claims db).

(** ** The lease *)

Record UsagePoolClaim := mkUsagePoolClaim {
  ReqClaimID : string;
  ReqPoolID : string;
  ReqPoolName : string;
}.

Record LeaseRequest := mkLeaseRequest {
  ReqTaskID : string;
  ReqWorkerID : string;
  ReqAttemptID : string;
  ReqNow : Z;
  ReqClaims : list UsagePoolClaim;
}.

Inductive LeaseResult :=
  | LeaseLeased (attemptID : string) (attempt : TaskAttempt)
  | LeaseLost
  | LeaseQueueFull
  | LeaseFarmFull
  | LeasePoolFull (pool : string).

Record leaseScope := mkLeaseScope {
  scopeJobID : string;
  scopeQueueID : string;
  scopeFarmID : string;
  queueCap : Z;
  farmCap : Z;
}.

Definition readLeaseScope (db : DB) (taskID : string) : option leaseScope :=
  t ← tasks db !! taskID;
  j ← jobs db !! TaskJobID t;
  q ← queues db !! JobQueueID j;
  f ← farms db !! JobFarmID j;
  Some (mkLeaseScope (TaskJobID t) (JobQueueID j) (JobFarmID j)
          (QueueMaxConcurrentTasks q) (FarmMaxConcurrentTasks f)).

(** The EXISTS and NOT EXISTS clauses of [sqlLeaseTaskGuarded] on the task row. *)
Definition leaseGuard (db : DB) (sc : leaseScope) (workerID : string) (now : Z) (t : Task) : bool :=
  match jobs db !! TaskJobID t with
  | None => false
  | Some j =>
      bool_decide (JobQueueID j = scopeQueueID sc) && bool_decide (JobFarmID j = scopeFarmID sc)
      && row_matches (queues db) (JobQueueID j) (leasableTask now t j)
  end
  && negb (row_matches (workers db) workerID Disabled).

Definition leaseTask (workerID : string) (now : Z) (t : Task) : Task :=
  set_UnschedulableReason "" (set_TaskUpdatedAt now (set_AssignedAt (Some now)
    (set_AssignedWorkerID (Some workerID) (set_TaskStatusOf TaskAssigned t)))).

(** The guarded ready-to-assigned write, and whether it landed. *)
Definition leaseTaskRowTx (sc : leaseScope) (req : LeaseRequest) (db : DB) : bool * DB :=
  let g := leaseGuard db sc (ReqWorkerID req) (ReqNow req) in
  (row_matches (tasks db) (ReqTaskID req) g,
   set_tasks (update_where (λ k t, bool_decide (k = ReqTaskID req) && g t)
     (λ _, leaseTask (ReqWorkerID req) (ReqNow req)) (tasks db)) db).

(** [capacity > 0 && active > capacity] *)
Definition overCap (capacity active : Z) : bool := (0 <? capacity) && (capacity <? active).

Definition fullTx (sc : leaseScope) (db : DB) : res StoreErr (option LeaseResult) :=
  let? queueFull :=
    (if 0 <? queueCap sc then
       let? q := get (queues db) (scopeQueueID sc) in
       Ok (overCap (QueueMaxConcurrentTasks q) (CountActiveTasksInQueue db (scopeQueueID sc)))
     else Ok false) in
  if queueFull : bool then Ok (Some LeaseQueueFull)
  else
    let? farmFull :=
      (if 0 <? farmCap sc then
         let? f := get (farms db) (scopeFarmID sc) in
         Ok (overCap (FarmMaxConcurrentTasks f) (CountActiveTasksInFarm db (scopeFarmID sc)))
       else Ok false) in
    Ok (if farmFull : bool then Some LeaseFarmFull else None).

(** [COALESCE(MAX(attempt_number), 0) + 1] *)
Definition nextAttemptNumber (db : DB) (taskID : string) : Z :=
  default 0 (maxAttemptNumber db taskID) + 1.

Definition leaseAttempt (req : LeaseRequest) (num : Z) : TaskAttempt :=
  mkTaskAttempt (ReqTaskID req) (ReqWorkerID req) None num AttemptRunning None ""
    (ReqNow req) None (ReqNow req) None "" None.

(** The primary key is the only constraint an attempt's insert can break. *)
Definition insertLeaseAttemptTx (req : LeaseRequest) (db : DB)
    : res StoreErr (TaskAttempt * DB) :=
  match attempts db !! ReqAttemptID req with
  | Some _ => Err ErrConflict
  | None =>
      let a := leaseAttempt req (nextAttemptNumber db (ReqTaskID req)) in
      Ok (a, set_attempts (<[ReqAttemptID req := a]> (attempts db)) db)
  end.

(** [UNIQUE (task_attempt_id, pool_id)] and the primary key. *)
Definition claimConflict (db : DB) (c : UsagePoolClaim) (attemptID : string) : bool :=
  match claims db !! ReqClaimID c with Some _ => true | None => false end
  || exists_where (λ _ x, bool_decide (ClaimAttemptID x = attemptID)
                          && bool_decide (ClaimPoolID x = ReqPoolID c)) (claims db).

(** [None] when the claim was written, [PoolFull] when not. *)
Definition claimPoolTx (c : UsagePoolClaim) (attemptID : string) (now : Z) (db : DB)
    : res StoreErr (option LeaseResult * DB) :=
  match pools db !! ReqPoolID c with
  | None => Ok (Some (LeasePoolFull (ReqPoolName c)), db)
  | Some p =>
      if (0 <? MaxConcurrent p) && (MaxConcurrent p <=? ActiveClaimCount db (ReqPoolID c))
      then Ok (Some (LeasePoolFull (PoolName p)), db)
      else if claimConflict db c attemptID then Err ErrConflict
      else Ok (None, set_claims (<[ReqClaimID c := mkUsageClaim (ReqPoolID c) attemptID now None]>
                                   (claims db)) db)
  end.

Fixpoint claimPools (cs : list UsagePoolClaim) (attemptID : string) (now : Z) (db : DB)
    : res StoreErr (option LeaseResult * DB) :=
  match cs with
  | [] => Ok (None, db)
  | c :: cs' =>
      let? (r, db') := claimPoolTx c attemptID now db in
      match r with
      | Some full => Ok (Some full, db')
      | None => claimPools cs' attemptID now db'
      end
  end.

Definition sortClaims (cs : list UsagePoolClaim) : list UsagePoolClaim :=
  sort_by (λ a b, String.leb (ReqPoolID a) (ReqPoolID b)) cs.

Definition leaseTx (req : LeaseRequest) (db : DB) : res StoreErr (LeaseResult * DB) :=
  match readLeaseScope db (ReqTaskID req) with
  | None => Ok (LeaseLost, db)
  | Some sc =>
      let cs := sortClaims (ReqClaims req) in
      let '(moved, db1) := leaseTaskRowTx sc req db in
      if negb moved then Ok (LeaseLost, db1)
      else
        let? full := fullTx sc db1 in
        match full with
        | Some r => Ok (r, db1)
        | None =>
            let? (a, db2) := insertLeaseAttemptTx req db1 in
            let? (r, db3) := claimPools cs (ReqAttemptID req) (ReqNow req) db2 in
            match r with
            | Some full => Ok (full, db3)
            | None => Ok (LeaseLeased (ReqAttemptID req) a, db3)
            end
        end
  end.

Definition LeaseTask (req : LeaseRequest) : DB → res StoreErr LeaseResult * DB :=
  inTx (λ db,
    let? (r, db') := leaseTx req db in
    match r with
    | LeaseLeased _ _ => Ok (r, txCommit, db')
    | _ => Ok (r, txRollback, db')
    end).

(** ** Lemmas *)

(** What claiming the pools leaves: the old claims and one new active claim per
    request, nothing else. *)
Lemma claimPoolTx_none c aid now db db' :
  claimPoolTx c aid now db = Ok (None, db') →
  ∃ p, pools db !! ReqPoolID c = Some p ∧
       (0 < MaxConcurrent p → ActiveClaimCount db (ReqPoolID c) < MaxConcurrent p) ∧
       claimConflict db c aid = false ∧
       db' = set_claims (<[ReqClaimID c := mkUsageClaim (ReqPoolID c) aid now None]> (claims db)) db.
Proof.
  unfold claimPoolTx. destruct (pools db !! ReqPoolID c) as [p|]; [|by intros].
  destruct (_ && _) eqn:Hf; [by intros|]. destruct (claimConflict db c aid) eqn:Hc; [by intros|].
  intros H. invert_ok. exists p. repeat split. intros Hm. apply andb_false_iff in Hf. zbool. lia.
Qed.

Lemma claimConflict_false db c aid :
  claimConflict db c aid = false →
  claims db !! ReqClaimID c = None ∧
  ∀ k x, claims db !! k = Some x → ClaimAttemptID x = aid → ClaimPoolID x ≠ ReqPoolID c.
Proof.
  unfold claimConflict. intros [H1 H2]%orb_false_iff. split.
  - by destruct (claims db !! ReqClaimID c).
  - intros k x E Ha Hp. rewrite exists_where_false in H2. specialize (H2 _ _ E).
    by rewrite Ha, Hp, !bool_decide_true in H2.
Qed.

Lemma claimPools_none cs aid now db db' :
  claimPools cs aid now db = Ok (None, db') →
  db' = set_claims (claims db') db ∧ claims db ⊆ claims db' ∧
  (∀ k c, claims db' !! k = Some c → claims db !! k = Some c ∨
     ∃ r, r ∈ cs ∧ k = ReqClaimID r ∧ c = mkUsageClaim (ReqPoolID r) aid now None) ∧
  (∀ r, r ∈ cs →
     claims db' !! ReqClaimID r = Some (mkUsageClaim (ReqPoolID r) aid now None)).
Proof.
  revert db. induction cs as [|c cs IH]; intros db; cbn [claimPools].
  { intros H. invert_ok. repeat split; [by destruct db'|done|auto|].
    intros r Hr. by apply elem_of_nil in Hr. }
  intros H. apply res_bind_ok in H as ([o db1] & H1 & H). destruct o; [by invert_ok|].
  apply claimPoolTx_none in H1 as (p & Hp & Hcap & [Hk _]%claimConflict_false & ->).
  apply IH in H as (Hdb & Hsub & Hnew & Hin). cbn in Hdb, Hsub, Hnew. repeat split.
  - exact Hdb.
  - etrans; [|exact Hsub]. by apply insert_subseteq.
  - intros k x E. destruct (Hnew _ _ E) as [E'|(r & Hr & -> & ->)].
    + destruct (decide (ReqClaimID c = k)) as [<-|Hne].
      * rewrite lookup_insert_eq in E'. injection E' as <-. right. exists c.
        repeat split. apply elem_of_cons; auto.
      * rewrite lookup_insert_ne in E' by done. auto.
    + right. exists r. repeat split. apply elem_of_cons; auto.
  - intros r [->|Hr]%elem_of_cons; [|auto].
    eapply lookup_weaken; [|exact Hsub]. apply lookup_insert_eq.
Qed.

(** A pool the attempt already holds is claimed no further. *)
Lemma claimPools_held cs aid now db db' k x :
  claimPools cs aid now db = Ok (None, db') →
  claims db !! k = Some x → ClaimAttemptID x = aid →
  ActiveClaimCount db' (ClaimPoolID x) = ActiveClaimCount db (ClaimPoolID x).
Proof.
  revert db. induction cs as [|c cs IH]; intros db; cbn [claimPools].
  { intros H. by invert_ok. }
  intros H Ek Ha. apply res_bind_ok in H as ([o db1] & H1 & H). destruct o; [by invert_ok|].
  apply claimPoolTx_none in H1 as (p & Hp & Hcap & [Hk Hne]%claimConflict_false & ->).
  rewrite (IH _ H); [|cbn; rewrite lookup_insert_ne by congruence; done|done].
  unfold ActiveClaimCount. cbn. rewrite count_where_insert by done. cbn.
  rewrite (bool_decide_false (ReqPoolID c = _)); [cbn; lia|].
  intros E. by apply (Hne k x).
Qed.

Lemma claimPools_pool cs aid now db db' r :
  claimPools cs aid now db = Ok (None, db') → r ∈ cs → ∃ p, pools db !! ReqPoolID r = Some p.
Proof.
  revert db. induction cs as [|c cs IH]; intros db; cbn [claimPools].
  { intros _ Hr. by apply elem_of_nil in Hr. }
  intros H Hr. apply res_bind_ok in H as ([o db1] & H1 & H). destruct o; [by invert_ok|].
  apply claimPoolTx_none in H1 as (p & Hp & _ & _ & ->).
  apply elem_of_cons in Hr as [->|Hr]; [eauto|]. by apply (IH _ H).
Qed.

(** Every claimed pool stays within its cap. *)
Lemma claimPools_caps cs aid now db db' r p :
  claimPools cs aid now db = Ok (None, db') → r ∈ cs → pools db !! ReqPoolID r = Some p →
  0 < MaxConcurrent p → ActiveClaimCount db' (ReqPoolID r) ≤ MaxConcurrent p.
Proof.
  revert db. induction cs as [|c cs IH]; intros db; cbn [claimPools].
  { intros _ Hr. by apply elem_of_nil in Hr. }
  intros H Hr Hp Hm. apply res_bind_ok in H as ([o db1] & H1 & H). destruct o; [by invert_ok|].
  apply claimPoolTx_none in H1 as (p' & Hp' & Hcap & [Hk Hne]%claimConflict_false & ->).
  apply elem_of_cons in Hr as [->|Hr].
  - rewrite Hp in Hp'. injection Hp' as <-. specialize (Hcap Hm).
    pose proof (claimPools_held _ _ _ _ _ (ReqClaimID c) (mkUsageClaim (ReqPoolID c) aid now None)
                  H (lookup_insert_eq _ _ _) eq_refl) as E. cbn in E. rewrite E.
    unfold ActiveClaimCount in *. cbn. rewrite count_where_insert by done. cbn.
    rewrite bool_decide_true by done. cbn. lia.
  - by apply (IH _ H).
Qed.

(** The task, job, queue and farm rows the lease's scope joins. *)
Lemma readLeaseScope_some db id sc :
  readLeaseScope db id = Some sc →
  ∃ t j q f, tasks db !! id = Some t ∧ jobs db !! TaskJobID t = Some j ∧
    queues db !! JobQueueID j = Some q ∧ farms db !! JobFarmID j = Some f ∧
    sc = mkLeaseScope (TaskJobID t) (JobQueueID j) (JobFarmID j)
           (QueueMaxConcurrentTasks q) (FarmMaxConcurrentTasks f).
Proof.
  unfold readLeaseScope. intros H.
  apply bind_Some in H as (t & Ht & H). apply bind_Some in H as (j & Hj & H).
  apply bind_Some in H as (q & Hq & H). apply bind_Some in H as (f & Hf & H).
  injection H as <-. eauto 9.
Qed.

Lemma fullTx_none sc db q f :
  queues db !! scopeQueueID sc = Some q → farms db !! scopeFarmID sc = Some f →
  queueCap sc = QueueMaxConcurrentTasks q → farmCap sc = FarmMaxConcurrentTasks f →
  fullTx sc db = Ok None ↔
  (0 < QueueMaxConcurrentTasks q →
     CountActiveTasksInQueue db (scopeQueueID sc) ≤ QueueMaxConcurrentTasks q) ∧
  (0 < FarmMaxConcurrentTasks f →
     CountActiveTasksInFarm db (scopeFarmID sc) ≤ FarmMaxConcurrentTasks f).
Proof.
  intros Hq Hf Eq Ef. unfold fullTx, get, overCap. rewrite Hq, Hf, Eq, Ef.
  destruct (0 <? QueueMaxConcurrentTasks q) eqn:E1;
    destruct (0 <? FarmMaxConcurrentTasks f) eqn:E2; cbn;
    repeat (match goal with |- context [if ?b then _ else _] => destruct b eqn:? end; cbn);
    zbool; split; intros; try done; try lia; (split; intros; lia).
Qed.

(** The state a lease leaves: the task assigned, the next attempt opened and
    the claims added. *)
Record Leased (req : LeaseRequest) (db db' : DB) (t : Task) (a : TaskAttempt) : Prop := mkLeased {
  leased_task : tasks db !! ReqTaskID req = Some t;
  leased_ready : TaskStatusOf t = TaskReady;
  leased_fresh : attempts db !! ReqAttemptID req = None;
  leased_attempt : a = leaseAttempt req (nextAttemptNumber db (ReqTaskID req));
  leased_tasks : tasks db' = <[ReqTaskID req := leaseTask (ReqWorkerID req) (ReqNow req) t]> (tasks db);
  leased_attempts : attempts db' = <[ReqAttemptID req := a]> (attempts db);
  leased_claims_old : claims db ⊆ claims db';
  leased_claims_new : ∀ k c, claims db' !! k = Some c → claims db !! k = Some c ∨
    ∃ r, r ∈ ReqClaims req ∧ k = ReqClaimID r ∧
         c = mkUsageClaim (ReqPoolID r) (ReqAttemptID req) (ReqNow req) None;
  leased_claims_all : ∀ r, r ∈ ReqClaims req → claims db' !! ReqClaimID r =
    Some (mkUsageClaim (ReqPoolID r) (ReqAttemptID req) (ReqNow req) None);
  leased_rest : db' = set_claims (claims db') (set_attempts (attempts db') (set_tasks (tasks db') db));
}.

(** The conditions under which it leases. *)
Record Leasable (req : LeaseRequest) (db : DB) (t : Task) (j : Job) (q : Queue) (f : Farm) : Prop :=
  mkLeasable {
  lok_task : tasks db !! ReqTaskID req = Some t;
  lok_job : jobs db !! TaskJobID t = Some j;
  lok_queue : queues db !! JobQueueID j = Some q;
  lok_farm : farms db !! JobFarmID j = Some f;
  lok_ready : leasableTask (ReqNow req) t j q = true;
  lok_worker : ∀ w, workers db !! ReqWorkerID req = Some w → Disabled w = false;
}.

Lemma leaseGuard_true db sc wid now t j :
  jobs db !! TaskJobID t = Some j → scopeQueueID sc = JobQueueID j → scopeFarmID sc = JobFarmID j →
  leaseGuard db sc wid now t = true ↔
  (∃ q, queues db !! JobQueueID j = Some q ∧ leasableTask now t j q = true) ∧
  (∀ w, workers db !! wid = Some w → Disabled w = false).
Proof.
  intros Hj Eq Ef. unfold leaseGuard. rewrite Hj, Eq, Ef, !bool_decide_true by done. cbn [andb].
  rewrite andb_true_iff, negb_true_iff, row_matches_true. unfold row_matches.
  split; intros [H1 H2]; (split; [done|]).
  - intros w Hw. by rewrite Hw in H2.
  - destruct (workers db !! wid); [auto|done].
Qed.

Lemma leasableTask_status now t j q :
  leasableTask now t j q = true → TaskStatusOf t = TaskReady.
Proof.
  unfold leasableTask. intros [[[H _]%andb_prop _]%andb_prop _]%andb_prop.
  by apply bool_decide_eq_true in H.
Qed.

(** The counts after the lease's own write include the leased task. *)
Lemma count_active_lease db t j id wid now p :
  tasks db !! id = Some t → jobs db !! TaskJobID t = Some j → in_flight (TaskStatusOf t) = false →
  p j = true →
  let m := <[id := leaseTask wid now t]> (tasks db) in
  count_where (activeTask (set_tasks m db) p) m = count_where (activeTask db p) (tasks db) + 1.
Proof.
  intros Ht Hj Hf Hp m. unfold m.
  rewrite (count_where_ext _ (activeTask db p)) by done.
  rewrite (count_where_replace _ _ _ t) by done.
  assert (activeTask db p id t = false) as -> by (unfold activeTask; by rewrite Hf).
  assert (activeTask db p id (leaseTask wid now t) = true) as ->; [|lia].
  unfold activeTask, row_matches. cbn. by rewrite Hj.
Qed.

(** ** The lease *)

Lemma sortClaims_elem cs r : r ∈ sortClaims cs ↔ r ∈ cs.
Proof. unfold sortClaims. by rewrite sort_by_perm. Qed.

Lemma maxAttemptNumber_attempts db db' id :
  attempts db' = attempts db → maxAttemptNumber db' id = maxAttemptNumber db id.
Proof. intros E. unfold maxAttemptNumber, attemptsOf. by rewrite E. Qed.

(** The transaction commits a lease and nothing else. *)
Lemma LeaseTask_cases req db :
  LeaseTask req db =
  match leaseTx req db with
  | Ok (LeaseLeased aid a, db') => (Ok (LeaseLeased aid a), db')
  | Ok (r, _) => (Ok r, db)
  | Err e => (Err e, db)
  end.
Proof. unfold LeaseTask, inTx. by destruct (leaseTx req db) as [[[] db']|]. Qed.

Lemma LeaseTask_outcome req db r db' :
  LeaseTask req db = (r, db') →
  (∃ aid a, r = Ok (LeaseLeased aid a)) ∨ db' = db ∧ ∀ aid a, r ≠ Ok (LeaseLeased aid a).
Proof.
  rewrite LeaseTask_cases. destruct (leaseTx req db) as [[[] d]|]; intros [= <- <-]; eauto.
Qed.

(** What a full queue, farm or pool is reported as. *)
Lemma fullTx_some sc db r : fullTx sc db = Ok (Some r) → r = LeaseQueueFull ∨ r = LeaseFarmFull.
Proof.
  unfold fullTx. intros H. apply res_bind_ok in H as (b & _ & H). destruct b; [invert_ok; auto|].
  apply res_bind_ok in H as (b & _ & H). destruct b; [invert_ok; auto|by invert_ok].
Qed.

Lemma claimPools_some cs aid now db r db' :
  claimPools cs aid now db = Ok (Some r, db') → ∃ name, r = LeasePoolFull name.
Proof.
  revert db. induction cs as [|c cs IH]; intros db; cbn [claimPools]; [by intros|].
  intros H. apply res_bind_ok in H as ([o d'] & H1 & H). destruct o; [|by apply IH in H].
  invert_ok. revert H1. unfold claimPoolTx.
  destruct (pools db !! _); [|intros; invert_ok; eauto].
  destruct (_ && _); [intros; invert_ok; eauto|].
  destruct (claimConflict _ _ _); by intros.
Qed.

(** The statements of a lease that runs to its end. *)
Lemma leaseTx_leased req db aid a db' :
  leaseTx req db = Ok (LeaseLeased aid a, db') →
  ∃ sc full, readLeaseScope db (ReqTaskID req) = Some sc ∧
    row_matches (tasks db) (ReqTaskID req) (leaseGuard db sc (ReqWorkerID req) (ReqNow req)) = true ∧
    aid = ReqAttemptID req ∧ full = None ∧
    let db1 := (leaseTaskRowTx sc req db).2 in
    fullTx sc db1 = Ok full ∧ attempts db !! aid = None ∧
    a = leaseAttempt req (nextAttemptNumber db (ReqTaskID req)) ∧
    claimPools (sortClaims (ReqClaims req)) aid (ReqNow req)
      (set_attempts (<[aid := a]> (attempts db)) db1) = Ok (None, db').
Proof.
  unfold leaseTx. destruct (readLeaseScope _ _) as [sc|]; [|intros; by invert_ok].
  cbn [leaseTaskRowTx]. destruct (row_matches _ _ _) eqn:Hg; cbn [negb]; [|intros; by invert_ok].
  intros H. apply res_bind_ok in H as (full & Hfull & H).
  destruct full as [r|].
  { invert_ok. by apply fullTx_some in Hfull as [|]. }
  apply res_bind_ok in H as ([a' db2] & Hins & H). unfold insertLeaseAttemptTx in Hins.
  cbn in Hins. destruct (attempts db !! ReqAttemptID req) eqn:Hfresh; [done|]. invert_ok.
  destruct a0 as [[r|] db3]; invert_ok.
  2: { exists sc, None. repeat split; [done..|exact Hok]. }
  by apply claimPools_some in Hok as [].
Qed.

(** A lease that lands: it was allowed, it left its state and the caps hold. *)
Lemma LeaseTask_leased req db aid a db' :
  LeaseTask req db = (Ok (LeaseLeased aid a), db') →
  ∃ t j q f, Leasable req db t j q f ∧ Leased req db db' t a ∧ aid = ReqAttemptID req ∧
    (0 < QueueMaxConcurrentTasks q →
       CountActiveTasksInQueue db' (JobQueueID j) ≤ QueueMaxConcurrentTasks q) ∧
    (0 < FarmMaxConcurrentTasks f →
       CountActiveTasksInFarm db' (JobFarmID j) ≤ FarmMaxConcurrentTasks f) ∧
    (∀ r, r ∈ ReqClaims req → ∃ p, pools db !! ReqPoolID r = Some p ∧
       (0 < MaxConcurrent p → ActiveClaimCount db' (ReqPoolID r) ≤ MaxConcurrent p)).
Proof.
  rewrite LeaseTask_cases. intros H.
  assert (leaseTx req db = Ok (LeaseLeased aid a, db')) as Htx.
  { destruct (leaseTx req db) as [[[] d]|]; congruence. }
  clear H. apply leaseTx_leased in Htx as (sc & full & Hsc & Hg & -> & -> & Hfull & Hfresh & Ha & Hcl).
  apply readLeaseScope_some in Hsc as (t & j & q & f & Ht & Hj & Hq & Hf & Esc).
  unfold row_matches in Hg. rewrite Ht in Hg. pose proof Hg as Hg'.
  rewrite (leaseGuard_true _ _ _ _ _ j) in Hg' by (by rewrite ?Esc).
  destruct Hg' as [(q' & Hq' & Hl) Hw]. rewrite Hq in Hq'. injection Hq' as <-.
  exists t, j, q, f. cbn in Hfull, Hcl. rewrite (update_one _ _ _ _ t) in Hfull, Hcl by done.
  rewrite (fullTx_none _ _ q f) in Hfull by (by rewrite ?Esc).
  destruct Hfull as [Hfq Hff].
  pose proof (claimPools_none _ _ _ _ _ Hcl) as (Hdb & Hold & Hnew & Hall).
  split; [by constructor|]. split.
  { constructor; [done|by eapply leasableTask_status|done|done|by rewrite Hdb|by rewrite Hdb|done| | |].
    - intros k c E. destruct (Hnew k c E) as [|(r & Hr & ?)]; [auto|].
      right. exists r. by rewrite <- sortClaims_elem.
    - intros r Hr. apply Hall. by apply sortClaims_elem.
    - rewrite Hdb. by destruct db. }
  split; [done|]. rewrite Esc in Hfq, Hff. cbn in Hfq, Hff. split; [|split].
  - intros Hm. specialize (Hfq Hm). rewrite Hdb. exact Hfq.
  - intros Hm. specialize (Hff Hm). rewrite Hdb. exact Hff.
  - intros r Hr. apply sortClaims_elem in Hr. 
    destruct (claimPools_pool _ _ _ _ _ _ Hcl Hr) as [p Hp].
    exists p. split; [done|]. intros Hm. by eapply claimPools_caps.
Qed.

(** C17. A lease never oversubscribes: when [LeaseTask] answers Leased, the
    task's queue, its farm and every claimed pool hold at most their cap of
    active tasks and claims afterwards, the leased task included. *)
Theorem lease_respects_caps req db aid a db' :
  LeaseTask req db = (Ok (LeaseLeased aid a), db') →
  ∃ t j q f, tasks db !! ReqTaskID req = Some t ∧ jobs db !! TaskJobID t = Some j ∧
    queues db !! JobQueueID j = Some q ∧ farms db !! JobFarmID j = Some f ∧
    (0 < QueueMaxConcurrentTasks q →
       CountActiveTasksInQueue db' (JobQueueID j) ≤ QueueMaxConcurrentTasks q) ∧
    (0 < FarmMaxConcurrentTasks f →
       CountActiveTasksInFarm db' (JobFarmID j) ≤ FarmMaxConcurrentTasks f) ∧
    (∀ r, r ∈ ReqClaims req → ∃ p, pools db !! ReqPoolID r = Some p ∧
       (0 < MaxConcurrent p → ActiveClaimCount db' (ReqPoolID r) ≤ MaxConcurrent p)).
Proof.
  intros (t & j & q & f & [] & _ & _ & Hq & Hf & Hp)%LeaseTask_leased. eauto 12.
Qed.

(** The lease of the first sample task with a pool slot. *)
Definition sampleLease (taskID attemptID worker claimID : string) : LeaseRequest :=
  mkLeaseRequest taskID worker attemptID 10 [mkUsagePoolClaim claimID "p" "nuke"].

Lemma lease_respects_caps_witness :
  ∃ a db', LeaseTask (sampleLease "t1" "a1" "w" "c1") Sample.db = (Ok (LeaseLeased "a1" a), db') ∧
  ∃ t j q f, tasks Sample.db !! "t1"%string = Some t ∧ jobs Sample.db !! TaskJobID t = Some j ∧
    queues Sample.db !! JobQueueID j = Some q ∧ farms Sample.db !! JobFarmID j = Some f ∧
    (0 < QueueMaxConcurrentTasks q →
       CountActiveTasksInQueue db' (JobQueueID j) ≤ QueueMaxConcurrentTasks q) ∧
    (0 < FarmMaxConcurrentTasks f →
       CountActiveTasksInFarm db' (JobFarmID j) ≤ FarmMaxConcurrentTasks f) ∧
    (∀ r, r ∈ ReqClaims (sampleLease "t1" "a1" "w" "c1") →
       ∃ p, pools Sample.db !! ReqPoolID r = Some p ∧
       (0 < MaxConcurrent p → ActiveClaimCount db' (ReqPoolID r) ≤ MaxConcurrent p)).
Proof.
  destruct (LeaseTask (sampleLease "t1" "a1" "w" "c1") Sample.db) as [r db'] eqn:E.
  assert (r = Ok (LeaseLeased "a1" (leaseAttempt (sampleLease "t1" "a1" "w" "c1") 1))) as ->.
  { change r with (r, db').1. rewrite <- E. by vm_compute. }
  eexists _, _. split; [reflexivity|]. by apply (lease_respects_caps _ _ "a1" _ _ E).
Defined.

(** Pools with room, distinct and not yet claimed by the attempt, are claimed. *)
Lemma claimPools_room cs aid now db :
  NoDup (ReqClaimID <$> cs) → NoDup (ReqPoolID <$> cs) →
  (∀ r, r ∈ cs → claims db !! ReqClaimID r = None ∧
     (∀ k x, claims db !! k = Some x → ClaimAttemptID x = aid → ClaimPoolID x ≠ ReqPoolID r) ∧
     ∃ p, pools db !! ReqPoolID r = Some p ∧
          (0 < MaxConcurrent p → ActiveClaimCount db (ReqPoolID r) < MaxConcurrent p)) →
  ∃ db', claimPools cs aid now db = Ok (None, db').
Proof.
  revert db. induction cs as [|c cs IH]; intros db Hn1 Hn2 Hr; cbn [claimPools]; [eauto|].
  rewrite fmap_cons, NoDup_cons in Hn1, Hn2. destruct Hn1 as [Hc1 Hn1], Hn2 as [Hc2 Hn2].
  destruct (Hr c) as (Hk & Hx & p & Hp & Hm); [by apply elem_of_cons; auto|].
  unfold claimPoolTx at 1. rewrite Hp.
  destruct (_ && _) eqn:Hfull.
  { apply andb_prop in Hfull as [H1 H2]. zbool. specialize (Hm H1). lia. }
  assert (claimConflict db c aid = false) as ->.
  { unfold claimConflict. rewrite Hk. cbn. apply exists_where_false. intros k x E.
    apply andb_false_iff. destruct (decide (ClaimAttemptID x = aid)) as [Ha|Ha].
    - right. apply bool_decide_false. eauto.
    - left. by apply bool_decide_false. }
  cbn [res_bind]. apply IH; [done..|]. intros r Hin.
  destruct (Hr r) as (Hk' & Hx' & p' & Hp' & Hm'); [by apply elem_of_cons; auto|].
  assert (ReqClaimID r ≠ ReqClaimID c) as Hne1
    by (intros E; apply Hc1; rewrite <- E; by apply list_elem_of_fmap_2).
  assert (ReqPoolID r ≠ ReqPoolID c) as Hne2
    by (intros E; apply Hc2; rewrite <- E; by apply list_elem_of_fmap_2).
  cbn. rewrite lookup_insert_ne by congruence. split; [done|]. split.
  - intros k x E Ha. destruct (decide (ReqClaimID c = k)) as [<-|Hne].
    + rewrite lookup_insert_eq in E. injection E as <-. cbn. congruence.
    + rewrite lookup_insert_ne in E by done. eauto.
  - exists p'. split; [done|]. intros H0. unfold ActiveClaimCount. cbn.
    rewrite count_where_insert by done. cbn.
    rewrite (bool_decide_false (ReqPoolID c = _)) by congruence. cbn.
    specialize (Hm' H0). unfold ActiveClaimCount in Hm'. lia.
Qed.

Lemma sortClaims_fmap_NoDup (g : UsagePoolClaim → string) cs :
  NoDup (g <$> cs) → NoDup (g <$> sortClaims cs).
Proof. unfold sortClaims. by rewrite sort_by_perm. Qed.

Lemma Leasable_guard req db t j q f :
  Leasable req db t j q f →
  let sc := mkLeaseScope (TaskJobID t) (JobQueueID j) (JobFarmID j)
              (QueueMaxConcurrentTasks q) (FarmMaxConcurrentTasks f) in
  readLeaseScope db (ReqTaskID req) = Some sc ∧
  leaseGuard db sc (ReqWorkerID req) (ReqNow req) t = true.
Proof.
  intros [Ht Hj Hq Hf Hl Hw] sc. split.
  - unfold readLeaseScope. rewrite Ht. cbn. rewrite Hj. cbn. rewrite Hq. cbn. by rewrite Hf.
  - rewrite (leaseGuard_true _ _ _ _ _ j) by done. eauto.
Qed.

(** C24. A task that is leasable is leased when there is room: with its job
    schedulable, its queue unpaused, its backoff elapsed and the worker enabled,
    a lease under a fresh attempt ID lands whenever the queue, the farm and each
    of the distinct pools it claims are below their caps. *)
Theorem lease_lands req db t j q f :
  Leasable req db t j q f →
  (0 < QueueMaxConcurrentTasks q →
     CountActiveTasksInQueue db (JobQueueID j) < QueueMaxConcurrentTasks q) →
  (0 < FarmMaxConcurrentTasks f →
     CountActiveTasksInFarm db (JobFarmID j) < FarmMaxConcurrentTasks f) →
  attempts db !! ReqAttemptID req = None →
  (∀ k c, claims db !! k = Some c → ClaimAttemptID c ≠ ReqAttemptID req) →
  NoDup (ReqClaimID <$> ReqClaims req) → NoDup (ReqPoolID <$> ReqClaims req) →
  (∀ r, r ∈ ReqClaims req → claims db !! ReqClaimID r = None ∧
     ∃ p, pools db !! ReqPoolID r = Some p ∧
          (0 < MaxConcurrent p → ActiveClaimCount db (ReqPoolID r) < MaxConcurrent p)) →
  ∃ db', LeaseTask req db = (Ok (LeaseLeased (ReqAttemptID req)
    (leaseAttempt req (nextAttemptNumber db (ReqTaskID req)))), db').
Proof.
  intros HL Hq Hf Hfresh Hcl Hn1 Hn2 Hr. rewrite LeaseTask_cases. unfold leaseTx.
  pose proof (Leasable_guard _ _ _ _ _ _ HL) as [-> Hg].
  set (sc := mkLeaseScope _ _ _ _ _) in *. destruct HL as [Ht Hj Hqr Hfr Hl Hw].
  unfold leaseTaskRowTx, row_matches. rewrite Ht, Hg. cbn [negb].
  rewrite (update_one _ _ _ _ t) by done. set (db1 := set_tasks _ db).
  pose proof (leasableTask_status _ _ _ _ Hl) as Hs.
  rewrite (proj2 (fullTx_none sc db1 q f Hqr Hfr eq_refl eq_refl)).
  2: { assert (in_flight (TaskStatusOf t) = false) as Hnf by by rewrite Hs.
       unfold CountActiveTasksInQueue, CountActiveTasksInFarm in *.
       pose proof (λ p, count_active_lease db t j (ReqTaskID req) (ReqWorkerID req) (ReqNow req) p
                          Ht Hj Hnf) as C.
       split; intros H0; (etrans; [apply Z.eq_le_incl, C; by apply bool_decide_true|]);
         [specialize (Hq H0)|specialize (Hf H0)]; cbn; lia. }
  cbn [res_bind]. unfold insertLeaseAttemptTx. cbn. rewrite Hfresh. cbn [res_bind].
  match goal with |- context [claimPools _ _ _ ?d] =>
    destruct (claimPools_room (sortClaims (ReqClaims req)) (ReqAttemptID req) (ReqNow req) d)
      as [db' ->] end; [by apply sortClaims_fmap_NoDup..| |cbn; eauto].
  intros r Hin. rewrite sortClaims_elem in Hin. destruct (Hr r Hin) as (Hk & p & Hp & Hm).
  cbn. split; [done|]. split; [|eauto]. intros k x E Ha. by destruct (Hcl k x E).
Qed.

Lemma lease_lands_witness :
  ∃ db', LeaseTask (sampleLease "t1" "a1" "w" "c1") Sample.db =
    (Ok (LeaseLeased "a1" (leaseAttempt (sampleLease "t1" "a1" "w" "c1") 1)), db').
Proof.
  refine (lease_lands (sampleLease "t1" "a1" "w" "c1") Sample.db (Sample.task TaskReady 3)
    (Sample.job JobPending) Sample.queue Sample.farm _ _ _ _ _ _ _ _).
  - constructor; try by vm_compute. intros w E. vm_compute in E. by injection E as <-.
  - by vm_compute.
  - by vm_compute.
  - by vm_compute.
  - intros k c E. change (claims Sample.db) with (∅ : gmap string UsageClaim) in E.
    by rewrite lookup_empty in E.
  - apply NoDup_singleton.
  - apply NoDup_singleton.
  - intros r Hr. apply list_elem_of_singleton in Hr as ->. split; [by vm_compute|].
    exists Sample.pool. split; by vm_compute.
Defined.

Lemma leaseTx_lost req db :
  (∃ d, leaseTx req db = Ok (LeaseLost, d)) ↔ ¬ ∃ t j q f, Leasable req db t j q f.
Proof.
  split.
  - intros [d H] (t & j & q & f & HL). pose proof (Leasable_guard _ _ _ _ _ _ HL) as [Hsc Hg].
    unfold leaseTx in H. rewrite Hsc in H. unfold leaseTaskRowTx, row_matches in H.
    rewrite (lok_task _ _ _ _ _ _ HL), Hg in H. cbn [negb] in H.
    apply res_bind_ok in H as (full & Hf & H).
    destruct full as [r|].
    { invert_ok. by apply fullTx_some in Hf as [|]. }
    apply res_bind_ok in H as ([a db2] & _ & H). apply res_bind_ok in H as ([r db3] & Hc & H).
    destruct r; invert_ok.
    + by apply claimPools_some in Hc as [].
    + done.
  - intros Hno. unfold leaseTx. destruct (readLeaseScope _ _) as [sc|] eqn:Hsc; [|eauto].
    apply readLeaseScope_some in Hsc as (t & j & q & f & Ht & Hj & Hq & Hf & Esc).
    unfold leaseTaskRowTx, row_matches. rewrite Ht.
    destruct (leaseGuard _ _ _ _ _) eqn:Hg; [|cbn; eauto]. exfalso. apply Hno.
    rewrite (leaseGuard_true _ _ _ _ _ j) in Hg by (by rewrite ?Esc).
    destruct Hg as [(q' & Hq' & Hl) Hw]. rewrite Hq in Hq'. injection Hq' as <-.
    exists t, j, q, f. by constructor.
Qed.

(** A lease is all or nothing, and it is Lost exactly when the task cannot
    be leased: an outcome other than Leased, or an error, leaves the database
    untouched; the answer is Lost when there is no leasable task, job, queue and
    farm for the request or the worker is disabled, and only then. *)
Theorem lease_all_or_nothing req db :
  ((LeaseTask req db).2 = db ∨
   ∃ a, (LeaseTask req db).1 = Ok (LeaseLeased (ReqAttemptID req) a)) ∧
  ((LeaseTask req db).1 = Ok LeaseLost ↔ ¬ ∃ t j q f, Leasable req db t j q f).
Proof.
  rewrite LeaseTask_cases. split.
  - destruct (leaseTx req db) as [[[] d]|] eqn:E; try (by left).
    apply leaseTx_leased in E as (_ & _ & _ & _ & -> & _). right. cbn. eauto.
  - rewrite <- leaseTx_lost. destruct (leaseTx req db) as [[[] d]|]; cbn; naive_solver.
Qed.

(** ** The ready list *)

Lemma joinRow_some db id t r :
  joinRow db id t = Some r ↔
  RowID r = id ∧ RowTask r = t ∧ jobs db !! TaskJobID t = Some (RowJob r) ∧
  queues db !! JobQueueID (RowJob r) = Some (RowQueue r) ∧
  steps db !! TaskStepID t = Some (RowStep r).
Proof.
  unfold joinRow. split.
  - intros H. apply bind_Some in H as (j & Hj & H). apply bind_Some in H as (q & Hq & H).
    apply bind_Some in H as (s & Hs & H). injection H as <-. eauto.
  - destruct r as [id' t' j q s]. cbn. intros (-> & -> & -> & Hq & Hs). cbn.
    rewrite Hq. cbn. by rewrite Hs.
Qed.

Lemma readyRows_elem db farmID now r :
  r ∈ readyRows db farmID now ↔
  tasks db !! RowID r = Some (RowTask r) ∧ jobs db !! TaskJobID (RowTask r) = Some (RowJob r) ∧
  queues db !! JobQueueID (RowJob r) = Some (RowQueue r) ∧
  steps db !! TaskStepID (RowTask r) = Some (RowStep r) ∧
  (farmID = ""%string ∨ JobFarmID (RowJob r) = farmID) ∧
  leasableTask now (RowTask r) (RowJob r) (RowQueue r) = true.
Proof.
  unfold readyRows. rewrite list_elem_of_filter, list_elem_of_omap.
  rewrite andb_true_iff, orb_true_iff, !bool_decide_eq_true. split.
  - intros [[Hf Hl] ([id t] & Hin & Hj)]. apply elem_of_map_to_list in Hin.
    cbn in Hj. apply joinRow_some in Hj as (E1 & E2 & Hj & Hq & Hs).
    destruct r. cbn in *. subst. auto 10.
  - intros (Ht & Hj & Hq & Hs & Hf & Hl). split; [done|]. exists (RowID r, RowTask r).
    split; [by apply elem_of_map_to_list|]. by apply joinRow_some.
Qed.

Lemma key_le_spec a1 a2 a3 a4 b1 b2 b3 b4 :
  key_le (a1, a2, a3, a4) (b1, b2, b3, b4) = true ↔
  a1 < b1 ∨ (a1 = b1 ∧ (a2 < b2 ∨ (a2 = b2 ∧ (a3 < b3 ∨ (a3 = b3 ∧ a4 ≤ b4))))).
Proof.
  unfold key_le. rewrite !orb_true_iff, !andb_true_iff, !orb_true_iff, !andb_true_iff,
    !orb_true_iff, !andb_true_iff, !Z.ltb_lt, !Z.eqb_eq, Z.leb_le. tauto.
Qed.

Lemma key_le_total a b : key_le a b = true ∨ key_le b a = true.
Proof.
  destruct a as [[[a1 a2] a3] a4], b as [[[b1 b2] b3] b4]. rewrite !key_le_spec. lia.
Qed.

Lemma key_le_trans a b c : key_le a b = true → key_le b c = true → key_le a c = true.
Proof.
  destruct a as [[[a1 a2] a3] a4], b as [[[b1 b2] b3] b4], c as [[[c1 c2] c3] c4].
  rewrite !key_le_spec. lia.
Qed.

Lemma readyRows_fresh db farmID now r :
  r ∈ readyRows db farmID now → RowID r ∈ (map_to_list (tasks db)).*1.
Proof.
  intros (Ht & _)%readyRows_elem. apply list_elem_of_fmap. exists (RowID r, RowTask r).
  split; [done|]. by apply elem_of_map_to_list.
Qed.

Lemma StronglySorted_take {A} (R : A → A → Prop) n l :
  StronglySorted R l → StronglySorted R (take n l) ∧
  ∀ x y, x ∈ take n l → y ∈ drop n l → R x y.
Proof.
  intros H. revert n. induction H as [|x l Hs IH Hx]; intros n.
  { rewrite take_nil, drop_nil. split; [constructor|]. intros x y Hx. by apply elem_of_nil in Hx. }
  destruct n as [|n]; cbn.
  { split; [constructor|]. intros z y Hz. by apply elem_of_nil in Hz. }
  destruct (IH n) as [IH1 IH2]. rewrite Forall_forall in Hx. split.
  - constructor; [done|]. apply Forall_forall. intros y Hy. apply Hx.
    rewrite <- (take_drop n l). apply elem_of_app. auto.
  - intros z y [->|Hz]%elem_of_cons Hy; [|auto].
    apply Hx. rewrite <- (take_drop n l). apply elem_of_app. auto.
Qed.

(** [ListReadyTasks] lists exactly what [LeaseTask] accepts, best first: each
    listed task passes the lease's guard for every enabled worker when its farm
    exists; the list is ordered by job priority (highest first), job age, step
    order and task age; and when it is shorter than the limit it holds every
    leasable task of the farm. *)
Theorem ListReadyTasks_matches_lease farmID now limit db :
  let l := ListReadyTasks farmID now limit db in
  StronglySorted (λ a b, key_le (ready_key a) (ready_key b) = true) l ∧
  (∀ r req f, r ∈ l → ReqTaskID req = RowID r → ReqNow req = now →
     farms db !! JobFarmID (RowJob r) = Some f →
     (∀ w, workers db !! ReqWorkerID req = Some w → Disabled w = false) →
     Leasable req db (RowTask r) (RowJob r) (RowQueue r) f) ∧
  (∀ req t j q f s, Leasable req db t j q f → ReqNow req = now →
     (farmID = ""%string ∨ JobFarmID j = farmID) → steps db !! TaskStepID t = Some s →
     (length l < limit)%nat → mkReadyRow (ReqTaskID req) t j q s ∈ l).
Proof.
  set (le := λ a b, key_le (ready_key a) (ready_key b)).
  cbv zeta. unfold ListReadyTasks. fold le.
  assert (StronglySorted (λ a b, le a b = true) (sort_by le (readyRows db farmID now))) as Hs.
  { apply sort_by_sorted; intros; [apply key_le_total|by eapply key_le_trans]. }
  split; [by apply StronglySorted_take|]. split.
  - intros r req f Hr Eid Enow Hf Hw. apply elem_of_take in Hr as (i & Hr & _).
    apply list_elem_of_lookup_2 in Hr. rewrite sort_by_perm in Hr.
    apply readyRows_elem in Hr as (Ht & Hj & Hq & _ & _ & Hl).
    constructor; [by rewrite Eid|done..|by rewrite Enow|done].
  - intros req t j q f s [Ht Hj Hq Hf Hl Hw] Enow Hfarm Hst Hlen.
    rewrite take_ge by (rewrite length_take in Hlen; lia).
    rewrite sort_by_perm. apply readyRows_elem. cbn. rewrite <- Enow. auto 10.
Qed.
