(* ===== verification/Jobs.v ===== *)
(** * Jobs: [internal/store/sqlstore/job.go] and [RetryTasks] of [task.go]

    Submitting a job in one transaction, editing, cancelling, parking and
    resuming it, demoting stalled jobs, retrying tasks, and deleting jobs with
    everything that hangs off them. *)

From S2P Require Import Prelude Schema Finalize Attempts.
Open Scope Z_scope.

(** ** The row clock *)

(** [rowClock.next]: the wall clock, or a nanosecond past the last stamp. *)
Definition rowClock_next (last now : Z) : Z := if last <? now then now else last + 1.

(** Go's zero [time.Time], in nanoseconds of the Unix epoch. *)
Definition zeroTime : Z := -62135596800 * 1000000000.

(** ** Batches *)

(** [bits.Len] *)
Definition bits_Len (n : Z) : Z := if n <=? 0 then 0 else Z.log2 n + 1.

Definition taskBatchRows (left_ batchRows : Z) : Z :=
  if batchRows <=? left_ then batchRows else Z.shiftl 1 (bits_Len left_ - 1).

(** The row of a task ID, in the order the tasks were given. *)
Fixpoint pickRows {A} (byID : gmap string A) (ids : list string) : res StoreErr (list (string * A)) :=
  match ids with
  | [] => Ok []
  | id :: ids' =>
      match byID !! id with
      | None => Err ErrRowsReturned
      | Some t => let? rest := pickRows byID ids' in Ok ((id, t) :: rest)
      end
  end.

Definition inInsertOrder {A} (stored : list (string * A)) (inserted : list string)
    : res StoreErr (list (string * A)) :=
  if bool_decide (stored.*1 = inserted) then Ok stored
  else pickRows (list_to_map (reverse stored)) inserted.

(** ** Submitting *)

Record JobSubmission := mkJobSubmission {
  SubJobID : string;
  SubJob : Job;
  SubDependsOn : list string;
  SubSteps : list (string * Step);
  SubTasks : list (string * Task);
}.

Definition stamp_job (now : Z) (j : Job) : Job :=
  mkJob (JobFarmID j) (JobQueueID j) (JobPriority j) (JobStatusOf j) (JobFailedAttempts j)
    (JobMaxAttempts j) (JobRetryDelaySeconds j) (JobFailureLimit j) (ParkReason j)
    now now (JobStartedAt j) (JobCompletedAt j) (DeclaredExtensions j) (RawTemplate j).

Definition stamp_step (now : Z) (s : Step) : Step :=
  mkStep (StepJobID s) (StepName s) (DependsOn s) (StepOrder s) (StepStatusOf s) now now
    (StepComputeLocation s) (HostRequirements s).

Definition stamp_task (now : Z) (t : Task) : Task :=
  mkTask (TaskJobID t) (TaskStepID t) (TaskStatusOf t) (AssignedWorkerID t) (AssignedAt t)
    now now (RequiredCores t) (UnschedulableReason t) (TaskFailedAttempts t) (RetryAfter t)
    (FailureReason t).

(** A broken primary key, foreign key or UNIQUE constraint is a conflict. *)
Definition insertJobTx (id : string) (j : Job) (now : Z) (db : DB) : res StoreErr (Job * DB) :=
  if present (jobs db) id || negb (present (farms db) (JobFarmID j))
     || negb (present (queues db) (JobQueueID j))
  then Err ErrConflict
  else let j' := stamp_job now j in Ok (j', set_jobs (<[id := j']> (jobs db)) db).

(** [ON CONFLICT DO NOTHING] on the pair's primary key. *)
Definition insertEdges (id : string) (ups : list string) (db : DB) : DB :=
  set_jobDependencies (list_to_set ((λ u, (id, u)) <$> ups) ∪ jobDependencies db) db.

(** [slices.Compact] *)
Fixpoint compact (l : list string) : list string :=
  match l with
  | x :: ((y :: _) as l') => if bool_decide (x = y) then compact l' else x :: compact l'
  | _ => l
  end.

Fixpoint checkUpstreamList (db : DB) (ids : list string) : res StoreErr unit :=
  match ids with
  | [] => Ok tt
  | up :: ids' =>
      match jobs db !! up with
      | None => Err (ErrDependencyUnsatisfiable up None)
      | Some j =>
          if bool_decide (JobStatusOf j = JobFailed) || bool_decide (JobStatusOf j = JobCanceled)
          then Err (ErrDependencyUnsatisfiable up (Some (JobStatusOf j)))
          else checkUpstreamList db ids'
      end
  end.

Definition checkUpstreamsTx (ups : list string) (db : DB) : res StoreErr unit :=
  checkUpstreamList db (compact (sort_by String.leb ups)).

Section Submit.
(** The readings of the wall clock, and the order the database returns the
    rows of a multi-row INSERT in. *)
Context (clock : nat → Z) (rowOrder : list (string * Task) → list (string * Task)).

(** The clock's last stamp and how often it has been read. *)
Definition rowClock : Type := Z * nat.

Definition tick (c : rowClock) : Z * rowClock :=
  let s := rowClock_next c.1 (clock c.2) in (s, (s, S c.2)).

Definition insertStep (id : string) (s : Step) (db : DB) : res StoreErr DB :=
  if present (steps db) id || negb (present (jobs db) (StepJobID s))
     || exists_where (λ _ s', bool_decide (StepJobID s' = StepJobID s)
                              && bool_decide (StepName s' = StepName s)) (steps db)
  then Err ErrConflict
  else Ok (set_steps (<[id := s]> (steps db)) db).

Fixpoint insertStepsTx (c : rowClock) (ss : list (string * Step)) (db : DB)
    : res StoreErr (list (string * Step) * rowClock * DB) :=
  match ss with
  | [] => Ok ([], c, db)
  | (id, s) :: ss' =>
      let '(now, c1) := tick c in
      let s' := stamp_step now s in
      let? db1 := insertStep id s' db in
      let? (out, c2, db2) := insertStepsTx c1 ss' db1 in
      Ok ((id, s') :: out, c2, db2)
  end.

Definition insertTask (id : string) (t : Task) (db : DB) : res StoreErr DB :=
  if present (tasks db) id || negb (present (jobs db) (TaskJobID t))
     || negb (present (steps db) (TaskStepID t))
  then Err ErrConflict
  else Ok (set_tasks (<[id := t]> (tasks db)) db).

Fixpoint insertTaskRows (ts : list (string * Task)) (db : DB) : res StoreErr DB :=
  match ts with
  | [] => Ok db
  | (id, t) :: ts' => let? db1 := insertTask id t db in insertTaskRows ts' db1
  end.

(** The rows of one statement with their stamps. *)
Fixpoint stampTasks (c : rowClock) (ts : list (string * Task))
    : list (string * Task) * rowClock :=
  match ts with
  | [] => ([], c)
  | (id, t) :: ts' =>
      let '(now, c1) := tick c in
      let '(out, c2) := stampTasks c1 ts' in
      ((id, stamp_task now t) :: out, c2)
  end.

Definition runInsertTasks (rows : list (string * Task)) (db : DB)
    : res StoreErr (list (string * Task) * DB) :=
  let? db' := insertTaskRows rows db in
  let stored := rowOrder rows in
  if negb (bool_decide (length stored = length rows)) then Err ErrRowsReturned
  else
    let? out := inInsertOrder stored rows.*1 in
    Ok (out, db').

(** One statement per batch; [fuel] bounds the batches. *)
Fixpoint insertTasksBatches (fuel : nat) (c : rowClock) (ts : list (string * Task))
    (batchRows : Z) (db : DB) : res StoreErr (list (string * Task) * rowClock * DB) :=
  match fuel, ts with
  | O, _ | _, [] => Ok ([], c, db)
  | S f, _ =>
      let n := Z.to_nat (taskBatchRows (Z.of_nat (length ts)) batchRows) in
      let '(rows, c1) := stampTasks c (take n ts) in
      let? (stored, db1) := runInsertTasks rows db in
      let? (out, c2, db2) := insertTasksBatches f c1 (drop n ts) batchRows db1 in
      Ok (stored ++ out, c2, db2)
  end.

Definition insertTasksBatchedTx (c : rowClock) (ts : list (string * Task)) (batchRows : Z)
    (db : DB) := insertTasksBatches (length ts) c ts batchRows db.

Definition insertTasksTx (c : rowClock) (ts : list (string * Task)) (batchRows : Z) (db : DB) :=
  insertTasksBatchedTx c ts (Z.max batchRows 1) db.

Definition CreateJobSubmission (sub : JobSubmission) (batchRows now : Z)
    : DB → res StoreErr JobSubmission * DB :=
  inTx (λ db,
    let? (j, db1) := insertJobTx (SubJobID sub) (SubJob sub) now db in
    let db2 := insertEdges (SubJobID sub) (SubDependsOn sub) db1 in
    let? _ := checkUpstreamsTx (SubDependsOn sub) db2 in
    let? (ss, c1, db3) := insertStepsTx (zeroTime, O) (SubSteps sub) db2 in
    let? (ts, _, db4) := insertTasksTx c1 (SubTasks sub) batchRows db3 in
    let? _ := checkUpstreamsTx (SubDependsOn sub) db4 in
    Ok (mkJobSubmission (SubJobID sub) j (SubDependsOn sub) ss ts, txCommit, db4)).
End Submit.

(** ** Editing, cancelling, parking and resuming *)

Record JobEdit := mkJobEdit {
  EditFarmID : string;
  EditQueueID : string;
  EditPriority : Z;
  EditMaxAttempts : option Z;
  EditRetryDelaySeconds : option Z;
  EditFailureLimit : option Z;
  EditRawTemplate : string;
}.

(** [sqlUpdateJob]: no lifecycle column is written. *)
Definition edit_job (e : JobEdit) (now : Z) (j : Job) : Job :=
  mkJob (EditFarmID e) (EditQueueID e) (EditPriority e) (JobStatusOf j) (JobFailedAttempts j)
    (EditMaxAttempts e) (EditRetryDelaySeconds e) (EditFailureLimit e) (ParkReason j)
    (JobCreatedAt j) now (JobStartedAt j) (JobCompletedAt j) (DeclaredExtensions j) (EditRawTemplate e).

Definition UpdateJob (id : string) (e : JobEdit) (now : Z) (db : DB) : res StoreErr Job * DB :=
  match jobs db !! id with
  | None => (Err ErrNotFound, db)
  | Some j =>
      if present (farms db) (EditFarmID e) && present (queues db) (EditQueueID e)
      then (Ok (edit_job e now j), set_jobs (<[id := edit_job e now j]> (jobs db)) db)
      else (Err ErrConflict, db)
  end.

Definition CancelJobStatus (id : string) (now : Z) (db : DB) : res StoreErr unit * DB :=
  let db' := sqlCancelJobStatus id now db in
  (if row_matches (jobs db) id (λ j, negb (job_terminal (JobStatusOf j))) then Ok tt
   else
     let? j := get (jobs db') id in
     if bool_decide (JobStatusOf j = JobCanceled) then Ok tt else Err ErrConflict, db').

Definition ParkJob (id reason : string) (now : Z) (db : DB) : res StoreErr unit * DB :=
  let db' := set_jobs (update_where
    (λ k j, bool_decide (k = id) && negb (job_terminal (JobStatusOf j)))
    (λ _ j, set_ParkReason reason (job_to JobPaused now j)) (jobs db)) db in
  (let? _ := get (jobs db') id in Ok tt, db').

(** [sqlResumeJob] *)
Definition resume_job (now : Z) (j : Job) : Job :=
  set_ParkReason "" (set_JobFailedAttempts
    (if bool_decide (ParkReason j = ""%string) then JobFailedAttempts j else 0)
    (job_to JobPending now j)).

Definition ResumeJob (id : string) (now : Z) (db : DB) : res StoreErr unit * DB :=
  let db' := set_jobs (update_where
    (λ k j, bool_decide (k = id) && bool_decide (JobStatusOf j = JobPaused))
    (λ _, resume_job now) (jobs db)) db in
  (let? _ := get (jobs db') id in Ok tt, db').

(** ** Stalled jobs *)

Definition jobHasTask (db : DB) (id : string) (p : TaskStatus → bool) : bool :=
  exists_where (λ _ t, bool_decide (TaskJobID t = id) && p (TaskStatusOf t)) (tasks db).

(** [status IN ('ready', 'pending')] *)
Definition task_waiting (s : TaskStatus) : bool :=
  match s with TaskReady | TaskPending => true | _ => false end.

(** [sqlStalledJobPredicate] *)
Definition stalledJob (db : DB) (id : string) (j : Job) : bool :=
  bool_decide (JobStatusOf j = JobRunning) && negb (jobHasTask db id in_flight)
  && jobHasTask db id task_waiting.

Definition stalledJobCandidates (db : DB) : list string :=
  sort_by String.leb (map_to_list (matching (stalledJob db) (jobs db))).*1.

Definition demoteStalledJob (id : string) (now : Z) : DB → res StoreErr bool * DB :=
  inTx (λ db,
    if row_matches (jobs db) id (stalledJob db id)
    then Ok (true, txCommit, set_jobs (update_where
           (λ k j, bool_decide (k = id) && stalledJob db k j) (λ _, job_to JobPending now)
           (jobs db)) db)
    else Ok (false, txRollback, db)).

(** ** Retrying tasks *)

Definition retryable (s : TaskStatus) : bool :=
  match s with TaskFailed | TaskCanceled => true | _ => false end.

(** The WHERE clause of [sqlRetryTasksPrefix] with its optional ID list. *)
Definition retryGuard (jobID : string) (ids : option (list string)) (k : string) (t : Task) : bool :=
  bool_decide (TaskJobID t = jobID) && retryable (TaskStatusOf t)
  && match ids with None => true | Some l => bool_decide (k ∈ l) end.

Definition step_open (s : Step) : bool :=
  match StepStatusOf s with StepReady | StepRunning => true | _ => false end.

(** [sqlRetryTasksPrefix] *)
Definition retry_task (db : DB) (now : Z) (t : Task) : Task :=
  set_FailureReason "" (set_RetryAfter None (set_TaskFailedAttempts 0 (set_UnschedulableReason ""
    (set_TaskUpdatedAt now (set_TaskStatusOf
      (if row_matches (steps db) (TaskStepID t) step_open then TaskReady else TaskPending) t))))).

(** [sqlRetryResetSteps] *)
Definition sqlRetryResetSteps (jobID : string) (now : Z) (db : DB) : DB :=
  set_steps (update_where
    (λ k s, bool_decide (StepJobID s = jobID)
            && (bool_decide (StepStatusOf s = StepFailed) || bool_decide (StepStatusOf s = StepCanceled))
            && exists_where (λ _, stepPendingTask k) (tasks db))
    (λ _, step_to StepPending now) (steps db)) db.

(** [sqlRetryResetJob] *)
Definition resettable (j : Job) : bool :=
  bool_decide (JobStatusOf j = JobFailed) || bool_decide (JobStatusOf j = JobCanceled)
  || (bool_decide (JobStatusOf j = JobPaused) && negb (bool_decide (ParkReason j = ""%string))).

Definition sqlRetryResetJob (jobID : string) (now : Z) (db : DB) : DB :=
  set_jobs (update_where (λ k j, bool_decide (k = jobID) && resettable j)
    (λ _ j, set_ParkReason "" (set_JobFailedAttempts 0 (set_JobCompletedAt None
              (job_to JobPending now j)))) (jobs db)) db.

Definition RetryTasks (jobID : string) (ids : option (list string)) (now : Z) (db : DB)
    : res StoreErr (gmap string Task) * DB :=
  if match ids with Some [] => true | _ => false end then (Ok ∅, db)
  else
    inTx (λ db,
      let p := retryGuard jobID ids in
      let f := λ _ : string, retry_task db now in
      let revived := returning p f (tasks db) in
      let db1 := set_tasks (update_where p f (tasks db)) db in
      if bool_decide (revived = ∅) then Ok (∅, txCommit, db1)
      else
        Ok (revived, txCommit, sqlRetryResetJob jobID now (sqlRetryResetSteps jobID now db1))) db.

(** ** Deleting *)

Definition attemptOfJob (db : DB) (jobID : string) (a : TaskAttempt) : bool :=
  row_matches (tasks db) (AttemptTaskID a) (λ t, bool_decide (TaskJobID t = jobID)).

(** The cascade, and how many job rows it deleted. *)
Definition deleteJobCascadeTx (id : string) (db : DB) : bool * DB :=
  let db1 := set_claims (delete_where
    (λ _ c, row_matches (attempts db) (ClaimAttemptID c) (attemptOfJob db id)) (claims db)) db in
  let db2 := set_taskLogs (delete_where (λ _ l,
    row_matches (tasks db1) (LogTaskID l) (λ t, bool_decide (TaskJobID t = id))) (taskLogs db1)) db1 in
  let db3 := set_attempts (delete_where (λ _, attemptOfJob db2 id) (attempts db2)) db2 in
  let db4 := set_tasks (delete_where (λ _ t, bool_decide (TaskJobID t = id)) (tasks db3)) db3 in
  let db5 := set_steps (delete_where (λ _ s, bool_decide (StepJobID s = id)) (steps db4)) db4 in
  let db6 := set_jobDependencies (filter (λ e, e.1 ≠ id) (jobDependencies db5)) db5 in
  (present (jobs db6) id, set_jobs (delete id (jobs db6)) db6).

Definition DeleteJob (id : string) : DB → res StoreErr unit * DB :=
  inTx (λ db,
    let '(deleted, db') := deleteJobCascadeTx id db in
    if deleted : bool then Ok (tt, txCommit, db') else Err ErrNotFound).

(** A dependent of the job is not terminal. *)
Definition liveDependent (db : DB) (id : string) : bool :=
  existsb (λ e, bool_decide (e.2 = id)
                && row_matches (jobs db) e.1 (λ d, negb (job_terminal (JobStatusOf d))))
    (elements (jobDependencies db)).

(** The retention SELECT's WHERE clause. *)
Definition expiredJob (db : DB) (cutoff : Z) (includeFailed : bool) (id : string) (j : Job) : bool :=
  (bool_decide (JobStatusOf j = JobCompleted) || bool_decide (JobStatusOf j = JobCanceled)
   || (includeFailed && bool_decide (JobStatusOf j = JobFailed)))
  && (default (JobUpdatedAt j) (JobCompletedAt j) <? cutoff)
  && negb (liveDependent db id).

Definition purgeExpiredJob (cutoff : Z) (includeFailed : bool) (id : string)
    : DB → res StoreErr bool * DB :=
  inTx (λ db,
    if row_matches (jobs db) id (expiredJob db cutoff includeFailed id)
    then Ok (true, txCommit, (deleteJobCascadeTx id db).2)
    else Ok (false, txRollback, db)).

(** The retention SELECT, in id order. *)
Definition expiredJobs (cutoff : Z) (includeFailed : bool) (db : DB) : list string :=
  sort_by String.leb (map_to_list (matching (expiredJob db cutoff includeFailed) (jobs db))).*1.
