(* ===== verification/Workers.v ===== *)
(** * Workers: [internal/store/sqlstore/worker.go] and [internal/store/worker.go]

    Registering, disabling, heartbeats and removal of workers.  Going offline
    is in [Attempts]. *)

From S2P Require Import Prelude Schema Finalize Attempts.
Open Scope Z_scope.

Definition StaleRegistration (stored incoming : option Z) : bool :=
  match stored, incoming with Some s, Some i => i <? s | _, _ => false end.

Definition EffectiveStatus (w : Worker) : WorkerStatus :=
  if Disabled w then WorkerDisabled else WorkerStatusOf w.

Definition Removable (w : Worker) : bool := bool_decide (WorkerStatusOf w = WorkerOffline).

(** [sqlUpsertWorker]: a registration over the stored row. *)
Definition upsertWorker (w : Worker) (now : Z) (stored : option Worker) : Worker :=
  match stored with
  | None =>
      mkWorker (WorkerFarmID w) (WorkerQueueID w) (WorkerStatusOf w) false (InstanceID w) (RegistrationBrokerAt w)
        None (LastHeartbeatAt w) now now (Caps w)
  | Some old =>
      mkWorker (WorkerFarmID w) (WorkerQueueID w) (WorkerStatusOf w) (Disabled old)
        (keep_if_empty (InstanceID w) (InstanceID old))
        (match RegistrationBrokerAt w with Some b => Some b | None => RegistrationBrokerAt old end)
        (HeartbeatBrokerAt old) (LastHeartbeatAt w) (RegisteredAt old) now (Caps w)
  end.

(** The tasks of the worker's previous process are reclaimed. *)
Definition restarted (prior new : string) : bool :=
  negb (bool_decide (prior = ""%string)) && negb (bool_decide (new = ""%string))
  && negb (bool_decide (prior = new)).

Definition RegisterWorker (id : string) (w : Worker) (now : Z) (db : DB)
    : res StoreErr (Worker * gmap string Task) * DB :=
  match
    inTx (λ db,
      let stored := workers db !! id in
      if match stored with
         | Some old => StaleRegistration (RegistrationBrokerAt old) (RegistrationBrokerAt w)
         | None => false
         end
      then Ok (default w stored, ∅, true, txCommit, db)
      else if negb (references (farms db) (WorkerFarmID w))
              || negb (references (queues db) (WorkerQueueID w))
      then Err ErrConflict
      else
        let w' := upsertWorker w now stored in
        let db1 := set_workers (<[id := w']> (workers db)) db in
        let prior := match stored with Some old => InstanceID old | None => ""%string end in
        if restarted prior (InstanceID w) then
          let '(reclaimed, db2) := reclaimWorkerTasksTx id FailureReasonWorkerRestarted now db1 in
          Ok (w', reclaimed, false, txCommit, db2)
        else Ok (w', ∅, false, txCommit, db1)) db
  with
  | (Ok (_, _, true), db') => (Err ErrStaleRegistration, db')
  | (Ok (w', reclaimed, false), db') => (Ok (w', reclaimed), db')
  | (Err e, db') => (Err e, db')
  end.

Definition SetWorkerDisabled (id : string) (disabled : bool) (now : Z) (db : DB)
    : res StoreErr Worker * DB :=
  let db' := set_workers (update_where (λ k _, bool_decide (k = id))
    (λ _ w, set_WorkerUpdatedAt now (set_Disabled disabled w)) (workers db)) db in
  (get (workers db') id, db').

(** [heartbeat_broker_at IS NULL OR heartbeat_broker_at <= COALESCE(stamp, heartbeat_broker_at)] *)
Definition heartbeatInOrder (stamp : option Z) (w : Worker) : bool :=
  match HeartbeatBrokerAt w with
  | None => true
  | Some h => h <=? default h stamp
  end.

Definition UpdateWorkerHeartbeat (id : string) (at_ : Z) (brokerAt : option Z) (now : Z) (db : DB)
    : res StoreErr unit * DB :=
  let db' := set_workers (update_where
    (λ k w, bool_decide (k = id) && heartbeatInOrder brokerAt w)
    (λ _ w, set_HeartbeatBrokerAt (match brokerAt with Some b => Some b | None => HeartbeatBrokerAt w end)
              (set_WorkerUpdatedAt now (set_LastHeartbeatAt (Some at_) w))) (workers db)) db in
  (let? _ := get (workers db') id in Ok tt, db').

Definition ListStaleWorkers (before : Z) (db : DB) : gmap string Worker :=
  matching (λ _, staleWorker before) (workers db).

(** [sqlWorkerHasWorkInFlight] *)
Definition workerHasWorkInFlight (db : DB) (id : string) : bool :=
  exists_where (λ _, workerTask id) (tasks db).

(** Online, enabled workers with no active task; an empty farm means all farms. *)
Definition CountIdleWorkers (farmID : string) (db : DB) : Z :=
  count_where (λ id w,
    (bool_decide (farmID = ""%string) || bool_decide (WorkerFarmID w = Some farmID))
    && bool_decide (WorkerStatusOf w = WorkerOnline) && negb (Disabled w)
    && negb (workerHasWorkInFlight db id)) (workers db).

Definition DeleteWorkerIfRemovable (id : string) (db : DB) : res StoreErr unit * DB :=
  let g := λ w, Removable w && negb (workerHasWorkInFlight db id) in
  let db' := set_workers (delete_where (λ k w, bool_decide (k = id) && g w) (workers db)) db in
  (if row_matches (workers db) id g then Ok tt
   else let? _ := get (workers db') id in Err ErrConflict, db').

(** [status = 'offline' AND NOT disabled AND last_heartbeat_at < cutoff] *)
Definition expiredWorker (cutoff : Z) (w : Worker) : bool :=
  bool_decide (WorkerStatusOf w = WorkerOffline) && negb (Disabled w)
  && match LastHeartbeatAt w with Some h => h <? cutoff | None => false end.

Definition DeleteOfflineWorkersBefore (cutoff : Z) (db : DB)
    : res StoreErr (gmap string Worker) * DB :=
  (Ok (matching (λ _, expiredWorker cutoff) (workers db)),
   set_workers (delete_where (λ _, expiredWorker cutoff) (workers db)) db).
