(* ===== verification/Catalog.v ===== *)
(** * Task logs, compute locations and credentials:
      [internal/store/sqlstore/task_log.go], [compute_location.go] and
      [workercredential.go]

    The writes a worker's log chunks and registrations make on these tables. *)

From S2P Require Import Prelude Schema Finalize.
Open Scope Z_scope.

(** ** Task logs *)

(** [sqlInsertTaskLog]: a chunk already stored, and a task or an attempt that is
    gone, are the same error. *)
Definition CreateTaskLog (id : string) (log : TaskLog) (now : Z) (db : DB) : res StoreErr unit * DB :=
  if present (taskLogs db) id
     || exists_where (λ _ l, bool_decide (LogAttemptID l = LogAttemptID log)
                             && (SeqNum l =? SeqNum log)) (taskLogs db)
     || negb (present (tasks db) (LogTaskID log)) || negb (present (attempts db) (LogAttemptID log))
  then (Err ErrConflict, db)
  else (Ok tt, set_taskLogs (<[id := mkTaskLog (LogTaskID log) (LogAttemptID log) (SeqNum log)
                 (NATSSeq log) (LogAt log) now (Stream log) (Data log)]> (taskLogs db)) db).

(** ** Compute locations *)

Definition namesLocation (name : string) (_ n : string) : bool := bool_decide (n = name).

Definition GetComputeLocationByName (name : string) (db : DB) : res StoreErr unit :=
  if exists_where (namesLocation name) (computeLocations db) then Ok tt else Err ErrNotFound.

Definition CreateComputeLocation (id name : string) (db : DB) : res StoreErr unit * DB :=
  if present (computeLocations db) id || exists_where (namesLocation name) (computeLocations db)
  then (Err ErrConflict, db)
  else (Ok tt, set_computeLocations (<[id := name]> (computeLocations db)) db).

(** ** Credentials *)

(** [worker_id = ? AND revoked_at IS NULL] *)
Definition activeCredential (workerID : string) (_ : string) (c : WorkerCredential) : bool :=
  bool_decide (CredWorkerID c = workerID) && bool_decide (CredRevokedAt c = None).

Definition TouchWorkerCredential (workerID : string) (at_ : Z) (db : DB) : res StoreErr unit * DB :=
  (if exists_where (activeCredential workerID) (credentials db) then Ok tt else Err ErrNotFound,
   set_credentials (update_where (activeCredential workerID)
     (λ _ c, mkWorkerCredential (CredWorkerID c) (Some at_) (CredRevokedAt c)) (credentials db)) db).

(** ** What they write *)

Lemma CreateTaskLog_writes id log now db : ∃ m, (CreateTaskLog id log now db).2 = set_taskLogs m db.
Proof.
  unfold CreateTaskLog. destruct (_ || _); [|by eexists]. exists (taskLogs db). by destruct db.
Qed.

Lemma CreateComputeLocation_writes id name db :
  ∃ m, (CreateComputeLocation id name db).2 = set_computeLocations m db.
Proof.
  unfold CreateComputeLocation. destruct (_ || _); [|by eexists]. exists (computeLocations db). by destruct db.
Qed.
