(* ===== verification/Evolve.v ===== *)
(** * How the store's operations change rows

    The relations between the tables before and after an operation that the
    store's invariants rest on: rows keep their keys and references, a closed
    attempt and a released claim are never rewritten, and closing attempts
    together with releasing their claims keeps the two in step. *)

From S2P Require Import Prelude Schema Finalize Attempts Lease Jobs Workers.
Open Scope Z_scope.

Create HintDb keeps.

(** ** Pointwise relations between tables *)

Definition pointwise {A} (R : A → A → Prop) (m m' : gmap string A) : Prop :=
  ∀ k, option_Forall2 R (m !! k) (m' !! k).

Lemma pointwise_refl {A} (R : A → A → Prop) m : (∀ x, R x x) → pointwise R m m.
Proof. intros HR k. destruct (m !! k); by constructor. Qed.

Lemma pointwise_trans {A} (R : A → A → Prop) m1 m2 m3 :
  (∀ x y z, R x y → R y z → R x z) →
  pointwise R m1 m2 → pointwise R m2 m3 → pointwise R m1 m3.
Proof.
  intros HR H1 H2 k. specialize (H1 k). specialize (H2 k).
  destruct H1; inversion H2; subst; constructor; eauto.
Qed.

Lemma pointwise_update {A} (R : A → A → Prop) p f m :
  (∀ x, R x x) → (∀ k x, m !! k = Some x → p k x = true → R x (f k x)) →
  pointwise R m (update_where p f m).
Proof.
  intros Hr Hf k. rewrite lookup_update_where.
  destruct (m !! k) as [x|] eqn:E; simpl; constructor.
  destruct (p k x) eqn:Ep; auto.
Qed.

Lemma pointwise_some {A} (R : A → A → Prop) m m' k x :
  pointwise R m m' → m !! k = Some x → ∃ y, m' !! k = Some y ∧ R x y.
Proof. intros H E. specialize (H k). rewrite E in H. inversion H; subst; eauto. Qed.

Lemma pointwise_some_inv {A} (R : A → A → Prop) m m' k y :
  pointwise R m m' → m' !! k = Some y → ∃ x, m !! k = Some x ∧ R x y.
Proof. intros H E. specialize (H k). rewrite E in H. inversion H; subst; eauto. Qed.

(** ** What every row keeps *)

(** A task in flight was in flight, with the same worker. *)
Definition task_kept (t t' : Task) : Prop :=
  TaskJobID t' = TaskJobID t ∧ TaskStepID t' = TaskStepID t ∧ RequiredCores t' = RequiredCores t
  ∧ (in_flight (TaskStatusOf t') = true →
     in_flight (TaskStatusOf t) = true ∧ AssignedWorkerID t' = AssignedWorkerID t).

(** What an attempt is of never changes. *)
Definition attempt_same (a a' : TaskAttempt) : Prop :=
  AttemptTaskID a' = AttemptTaskID a ∧ AttemptNumber a' = AttemptNumber a
  ∧ AttemptWorkerID a' = AttemptWorkerID a.

Definition attempt_kept (a a' : TaskAttempt) : Prop :=
  attempt_same a a' ∧ (attempt_open a = false → a' = a).

Definition claim_kept (c c' : UsageClaim) : Prop :=
  ClaimPoolID c' = ClaimPoolID c ∧ ClaimAttemptID c' = ClaimAttemptID c
  ∧ (claim_active c = false → c' = c).

(** The tables keep their rows: nothing is inserted or deleted, and no closed
    attempt or released claim is touched. *)
Record Evolves (db db' : DB) : Prop := mkEvolves {
  ev_tasks : pointwise task_kept (tasks db) (tasks db');
  ev_attempts : pointwise attempt_kept (attempts db) (attempts db');
  ev_claims : pointwise claim_kept (claims db) (claims db');
}.

Lemma attempt_kept_trans a b c : attempt_kept a b → attempt_kept b c → attempt_kept a c.
Proof.
  intros [(H1 & H2 & H3) H4] [(H5 & H6 & H7) H8]. repeat split; [congruence..|].
  intros Ho. specialize (H4 Ho). subst b. auto.
Qed.

Lemma claim_kept_trans a b c : claim_kept a b → claim_kept b c → claim_kept a c.
Proof.
  intros (H1 & H2 & H3) (H4 & H5 & H6). repeat split; [congruence..|].
  intros Ho. specialize (H3 Ho). subst b. auto.
Qed.

Lemma task_kept_trans a b c : task_kept a b → task_kept b c → task_kept a c.
Proof.
  intros (H1 & H2 & H3 & H4) (H5 & H6 & H7 & H8). repeat split; [congruence..| |];
    destruct (H8 H) as [Hb E]; destruct (H4 Hb); congruence.
Qed.

(** A rewrite that keeps the references and leaves the task idle, or keeps its
    status and worker. *)
Lemma task_kept_idle t t' :
  TaskJobID t' = TaskJobID t → TaskStepID t' = TaskStepID t → RequiredCores t' = RequiredCores t →
  in_flight (TaskStatusOf t') = false → task_kept t t'.
Proof. intros. repeat split; congruence. Qed.

Lemma task_kept_same t t' :
  TaskJobID t' = TaskJobID t → TaskStepID t' = TaskStepID t → RequiredCores t' = RequiredCores t →
  TaskStatusOf t' = TaskStatusOf t → AssignedWorkerID t' = AssignedWorkerID t → task_kept t t'.
Proof. intros. repeat split; congruence. Qed.

#[export] Hint Extern 1 (task_kept _ _) => by apply task_kept_idle : keeps.
#[export] Hint Extern 1 (task_kept _ _) => by apply task_kept_same : keeps.

#[export] Instance Evolves_refl : Reflexive Evolves.
Proof. intros db. split; apply pointwise_refl; intros x; by repeat split. Qed.

#[export] Instance Evolves_trans : Transitive Evolves.
Proof.
  intros a b c [H1 H2 H3] [H4 H5 H6]. split.
  - eapply pointwise_trans; [apply task_kept_trans|done..].
  - eapply pointwise_trans; [apply attempt_kept_trans|done..].
  - eapply pointwise_trans; [apply claim_kept_trans|done..].
Qed.

(** Only tables other than tasks, attempts and claims change. *)
Lemma Evolves_other db db' :
  tasks db' = tasks db → attempts db' = attempts db → claims db' = claims db → Evolves db db'.
Proof.
  intros H1 H2 H3. split; [rewrite H1|rewrite H2|rewrite H3];
    apply pointwise_refl; intros x; by repeat split.
Qed.

Lemma Evolves_tasks db p f :
  (∀ k t, p k t = true → task_kept t (f k t)) → Evolves db (set_tasks (update_where p f (tasks db)) db).
Proof.
  intros H. split; cbn.
  - apply pointwise_update; [by repeat split|auto].
  - apply pointwise_refl. intros x. by repeat split.
  - apply pointwise_refl. intros x. by repeat split.
Qed.

Lemma Evolves_attempts db p f :
  (∀ k a, p k a = true → attempt_open a = true) →
  (∀ k a, attempt_same a (f k a)) →
  Evolves db (set_attempts (update_where p f (attempts db)) db).
Proof.
  intros Hp Hf. split; cbn.
  - apply pointwise_refl. intros x. by repeat split.
  - apply pointwise_update; [repeat split|]. intros k a _ E.
    split; [done|]. rewrite (Hp k a E). discriminate.
  - apply pointwise_refl. intros x. by repeat split.
Qed.

Lemma Evolves_claims db p r :
  (∀ k c, p k c = true → claim_active c = true) →
  Evolves db (set_claims (update_where p (λ _, set_ReleasedAt r) (claims db)) db).
Proof.
  intros Hp. split; cbn.
  - apply pointwise_refl. intros x. by repeat split.
  - apply pointwise_refl. intros x. by repeat split.
  - apply pointwise_update; [repeat split|]. intros k c _ E. repeat split.
    rewrite (Hp k c E). discriminate.
Qed.

(** ** Liveness of attempts and claims *)

(** The attempt of this ID is open. *)
Definition openAttempt (db : DB) (id : string) : bool := row_matches (attempts db) id attempt_open.

(** Every open attempt's task is in flight. *)
Definition OpenInFlight (db : DB) : Prop :=
  ∀ id a, attempts db !! id = Some a → attempt_open a = true →
  ∃ t, tasks db !! AttemptTaskID a = Some t ∧ in_flight (TaskStatusOf t) = true.

(** A claim is active exactly while its attempt is open. *)
Definition ClaimsMatch (db : DB) : Prop :=
  ∀ id c, claims db !! id = Some c → claim_active c = openAttempt db (ClaimAttemptID c).

Lemma openAttempt_update p f db id m :
  attempts m = update_where p f (attempts db) →
  openAttempt m id = match attempts db !! id with
                     | Some a => attempt_open (if p id a then f id a else a)
                     | None => false
                     end.
Proof.
  intros E. unfold openAttempt, row_matches. rewrite E, lookup_update_where.
  by destruct (attempts db !! id).
Qed.

(** Attempts closed, the claims of the closed ones released. *)
Lemma ClaimsMatch_close db db' p f q r :
  attempts db' = update_where p f (attempts db) →
  claims db' = update_where q (λ _, set_ReleasedAt (Some r)) (claims db) →
  (∀ k a, p k a = true → attempt_open a = true ∧ attempt_open (f k a) = false) →
  (∀ k c, claims db !! k = Some c → claim_active c = true →
     q k c = negb (openAttempt db' (ClaimAttemptID c))) →
  (∀ k c, q k c = true → claim_active c = true) →
  ClaimsMatch db → ClaimsMatch db'.
Proof.
  intros Ea Ec Hp Hq Hqa H id c' E. rewrite Ec in E.
  apply update_where_inv in E as (c & E & [[Eq ->]|[Eq ->]]).
  - cbn. pose proof (Hqa _ _ Eq) as Hact. specialize (Hq _ _ E Hact). rewrite Eq in Hq.
    by destruct (openAttempt _ _).
  - specialize (H _ _ E). destruct (claim_active c) eqn:Ha.
    + specialize (Hq _ _ E Ha). rewrite Eq in Hq. by destruct (openAttempt _ _).
    + rewrite (openAttempt_update _ _ _ _ _ Ea). unfold openAttempt, row_matches in H.
      destruct (attempts db !! ClaimAttemptID c) as [a|]; [|done].
      destruct (p (ClaimAttemptID c) a) eqn:Ep; [|done].
      destruct (Hp _ _ Ep). congruence.
Qed.

(** Attempts keep their liveness and claims are untouched. *)
Lemma ClaimsMatch_same db db' :
  claims db' = claims db → (∀ id, openAttempt db' id = openAttempt db id) →
  ClaimsMatch db → ClaimsMatch db'.
Proof. intros Ec Ea H id c E. rewrite Ea. apply (H id). congruence. Qed.

(** Tasks move; a task that leaves flight has no attempt left open. *)
Lemma OpenInFlight_step db db' :
  (∀ id a', attempts db' !! id = Some a' → attempt_open a' = true →
     ∃ a, attempts db !! id = Some a ∧ attempt_open a = true ∧ AttemptTaskID a = AttemptTaskID a') →
  (∀ k t, tasks db !! k = Some t → in_flight (TaskStatusOf t) = true →
     ∃ t', tasks db' !! k = Some t' ∧
       (in_flight (TaskStatusOf t') = true ∨
        ∀ id a', attempts db' !! id = Some a' → AttemptTaskID a' = k → attempt_open a' = false)) →
  OpenInFlight db → OpenInFlight db'.
Proof.
  intros Ha Ht H id a' E Ho. destruct (Ha _ _ E Ho) as (a & E' & Ho' & Ek).
  destruct (H _ _ E' Ho') as (t & Et & Hf). rewrite Ek in Et.
  destruct (Ht _ _ Et Hf) as (t' & Et' & [Hf'|Hc]); [eauto|].
  specialize (Hc _ _ E eq_refl). congruence.
Qed.

Lemma OpenInFlight_attempts db db' p f :
  tasks db' = tasks db → attempts db' = update_where p f (attempts db) →
  (∀ k a, p k a = true → AttemptTaskID (f k a) = AttemptTaskID a) →
  (∀ k a, p k a = true → attempt_open (f k a) = true → attempt_open a = true) →
  OpenInFlight db → OpenInFlight db'.
Proof.
  intros Et Ea Hf Ho. apply OpenInFlight_step; [|rewrite Et; eauto].
  intros id a' E Hop. rewrite Ea in E.
  apply update_where_inv in E as (a & E & [[Ep ->]|[Ep ->]]); [|eauto].
  exists a. rewrite Hf by done. eauto.
Qed.

Record Live (db : DB) : Prop := mkLive {
  live_tasks : OpenInFlight db;
  live_claims : ClaimsMatch db;
}.

Lemma Live_other db db' :
  tasks db' = tasks db → attempts db' = attempts db → claims db' = claims db →
  Live db → Live db'.
Proof.
  intros E1 E2 E3 [H1 H2]. split.
  - intros id a. rewrite E1, E2. apply H1.
  - apply (ClaimsMatch_same db); [done| |done]. intros id. unfold openAttempt. by rewrite E2.
Qed.

(** A write of task rows: a task leaves flight only with no attempt open. *)
Lemma Live_set_tasks db p f :
  (∀ k t, tasks db !! k = Some t → p k t = true → in_flight (TaskStatusOf t) = true →
     in_flight (TaskStatusOf (f k t)) = true ∨
     ∀ id a, attempts db !! id = Some a → AttemptTaskID a = k → attempt_open a = false) →
  Live db → Live (set_tasks (update_where p f (tasks db)) db).
Proof.
  intros Hp [H1 H2]. split.
  - apply (OpenInFlight_step db); cbn; [eauto| |done].
    intros k t E Hf. rewrite (update_where_some _ _ _ _ _ E). eexists. split; [done|].
    destruct (p k t) eqn:Ep; eauto.
  - by apply (ClaimsMatch_same db).
Qed.

(** Task rows outside flight may be rewritten at will. *)
Lemma Live_set_idle_tasks db p f :
  (∀ k t, p k t = true → in_flight (TaskStatusOf t) = false) →
  Live db → Live (set_tasks (update_where p f (tasks db)) db).
Proof. intros Hp. apply Live_set_tasks. intros k t _ Ep Hf. rewrite (Hp _ _ Ep) in Hf. done. Qed.

(** Closing attempts by ID. *)
Section CloseOne.
Context (id : string) (f : string → TaskAttempt → TaskAttempt) (released : Z).
Hypothesis f_kept : ∀ k a, attempt_same a (f k a).
Hypothesis f_closes : ∀ k a, attempt_open (f k a) = false.

Definition closeOne (db : DB) : DB :=
  sqlReleaseAttemptClaims released id
    (set_attempts (update_where (λ k a, bool_decide (k = id) && attempt_open a) f
      (attempts db)) db).

Lemma closeOne_evolves db : Evolves db (closeOne db).
Proof using f_kept.
  unfold closeOne, sqlReleaseAttemptClaims.
  etrans; [apply Evolves_attempts; [|apply f_kept]|apply Evolves_claims].
  - intros k a E. by apply andb_prop in E as [_ E].
  - intros k c E. by apply andb_prop in E as [_ E].
Qed.

Lemma closeOne_closed db : openAttempt (closeOne db) id = false.
Proof using f_closes.
  erewrite openAttempt_update by reflexivity. destruct (attempts db !! id) as [a|]; [|done].
  rewrite bool_decide_true by done. destruct (attempt_open a) eqn:E; simpl; auto.
Qed.

Lemma closeOne_other db k : k ≠ id → attempts (closeOne db) !! k = attempts db !! k.
Proof using Type.
  intros Hk. cbn. rewrite lookup_update_where, bool_decide_false by done.
  by destruct (attempts db !! k).
Qed.

Lemma closeOne_live db : Live db → Live (closeOne db).
Proof using f_closes f_kept.
  intros [H1 H2]. split.
  - eapply (OpenInFlight_attempts db); [done|cbn; reflexivity|..].
    + intros k a _. apply f_kept.
    + intros k a _. by rewrite f_closes.
    + done.
  - eapply (ClaimsMatch_close db); [cbn; reflexivity|cbn; reflexivity|..].
    + intros k a E. apply andb_prop in E as [_ E]. auto.
    + intros k c E Ha. cbv beta. rewrite Ha, andb_true_r.
      destruct (decide (ClaimAttemptID c = id)) as [->|Hne].
      * rewrite bool_decide_true by done. by rewrite closeOne_closed.
      * rewrite bool_decide_false by done. specialize (H2 _ _ E). rewrite Ha in H2.
        unfold openAttempt, row_matches in *. rewrite closeOne_other by done.
        by rewrite <- H2.
    + intros k c E. by apply andb_prop in E as [_ E].
    + done.
Qed.
End CloseOne.

(** Closing every attempt of the tasks that leave flight, by whatever WHERE
    clause [p] selects them, and releasing the claims of closed attempts that
    [q] selects. *)
Section CloseMany.
Context (tp : string → Task → bool) (tf : string → Task → Task).
Context (p : TaskAttempt → bool) (f : TaskAttempt → TaskAttempt) (released : Z).
Hypothesis f_kept : ∀ a, attempt_same a (f a).
Hypothesis f_closes : ∀ a, attempt_open (f a) = false.
Hypothesis p_task : ∀ a b, AttemptTaskID a = AttemptTaskID b → p a = p b.

Definition closeMany (db : DB) : DB :=
  let db1 := set_tasks (update_where tp tf (tasks db)) db in
  let db2 := set_attempts (update_where (λ _ a, attempt_open a && p a) (λ _, f)
                             (attempts db1)) db1 in
  set_claims (update_where
    (λ _ c, claim_active c && closed_attempt db2 (ClaimAttemptID c) p)
    (λ _, set_ReleasedAt (Some released)) (claims db2)) db2.

Lemma closeMany_evolves db : (∀ k t, tp k t = true → task_kept t (tf k t)) → Evolves db (closeMany db).
Proof using f_kept.
  intros Ht. unfold closeMany.
  etrans; [by apply (Evolves_tasks db tp tf)|].
  etrans; [apply Evolves_attempts|apply Evolves_claims].
  - intros k a E. by apply andb_prop in E as [E _].
  - intros k a. apply f_kept.
  - intros k c E. by apply andb_prop in E as [E _].
Qed.

Lemma closeMany_closed_of db id :
  Live db → openAttempt db id = true →
  closed_attempt (closeMany db) id p = negb (openAttempt (closeMany db) id).
Proof using f_closes f_kept p_task.
  intros _ Ho. erewrite (openAttempt_update _ _ db) by reflexivity.
  unfold closed_attempt, row_matches. cbn. rewrite lookup_update_where.
  unfold openAttempt, row_matches in Ho. destruct (attempts db !! id) as [a|]; [|done].
  cbn. rewrite Ho. cbn. destruct (p a) eqn:Ep.
  - rewrite f_closes. cbn. rewrite (p_task _ a) by apply f_kept. done.
  - by rewrite Ho.
Qed.

Lemma closeMany_live db :
  (∀ k t a, tasks db !! k = Some t → tp k t = true → in_flight (TaskStatusOf t) = true →
     AttemptTaskID a = k → p a = true) →
  Live db → Live (closeMany db).
Proof using f_closes f_kept p_task.
  intros Hcov HL. pose proof HL as [H1 H2]. split.
  - apply (OpenInFlight_step db); [..|done].
    + intros id a' E Ho. cbn in E. apply update_where_inv in E as (a & E & [[Ep ->]|[Ep ->]]).
      * by rewrite f_closes in Ho.
      * eauto.
    + intros k t E Hf. cbn. rewrite (update_where_some _ _ _ _ _ E). eexists. split; [done|].
      destruct (tp k t) eqn:Et; [|auto]. right.
      intros id a' Ea Hk. apply update_where_inv in Ea as (a & Ea & [[Ep ->]|[Ep ->]]).
      * apply f_closes.
      * rewrite (Hcov k t a E Et Hf Hk), andb_true_r in Ep. done.
  - eapply (ClaimsMatch_close db); [cbn; reflexivity|cbn; reflexivity|..].
    + intros k a E. apply andb_prop in E as [E _]. auto.
    + intros k c E Ha. cbv beta. rewrite Ha. cbn [andb].
      apply (closeMany_closed_of db); [done|]. by rewrite <- (H2 _ _ E).
    + intros k c E. by apply andb_prop in E as [E _].
    + done.
Qed.
End CloseMany.

(** ** Attempt numbers and references *)

(** A task's attempts have distinct numbers, and an open one the highest. *)
Definition Numbered (db : DB) : Prop :=
  ∀ i a j b, attempts db !! i = Some a → attempts db !! j = Some b →
  AttemptTaskID a = AttemptTaskID b →
  (AttemptNumber a = AttemptNumber b → i = j) ∧
  (attempt_open a = true → AttemptNumber b ≤ AttemptNumber a).

(** An attempt's task and a claim's attempt exist. *)
Definition Referenced (db : DB) : Prop :=
  (∀ id a, attempts db !! id = Some a → is_Some (tasks db !! AttemptTaskID a)) ∧
  (∀ id c, claims db !! id = Some c → is_Some (attempts db !! ClaimAttemptID c)).

Lemma attempt_kept_open a a' : attempt_kept a a' → attempt_open a' = true → attempt_open a = true.
Proof. intros [_ H] Ho. destruct (attempt_open a) eqn:E; [done|]. rewrite H in Ho; congruence. Qed.

Lemma Numbered_evolves db db' : Evolves db db' → Numbered db → Numbered db'.
Proof.
  intros [_ Ha _] H i a' j b' Ei Ej Et.
  destruct (pointwise_some_inv _ _ _ _ _ Ha Ei) as (a & Ei' & Ka).
  destruct (pointwise_some_inv _ _ _ _ _ Ha Ej) as (b & Ej' & Kb).
  pose proof Ka as [(Ta & Na & _) _]. pose proof Kb as [(Tb & Nb & _) _].
  destruct (H i a j b Ei' Ej') as [Hi Hn]; [congruence|]. split.
  - intros E. apply Hi. congruence.
  - intros Ho. rewrite Na, Nb. apply Hn. by eapply attempt_kept_open.
Qed.

Lemma Referenced_evolves db db' : Evolves db db' → Referenced db → Referenced db'.
Proof.
  intros [Ht Ha Hc] [H1 H2]. split.
  - intros id a' E. destruct (pointwise_some_inv _ _ _ _ _ Ha E) as (a & E' & [[-> _] _]).
    destruct (H1 _ _ E') as [t Et]. destruct (pointwise_some _ _ _ _ _ Ht Et) as (t' & -> & _). eauto.
  - intros id c' E. destruct (pointwise_some_inv _ _ _ _ _ Hc E) as (c & E' & (_ & -> & _)).
    destruct (H2 _ _ E') as [a Ea]. destruct (pointwise_some _ _ _ _ _ Ha Ea) as (a' & -> & _). eauto.
Qed.

(** [max_list] is the maximum. *)
Lemma max_list_spec l m : max_list l = Some m ↔ m ∈ l ∧ ∀ x, x ∈ l → x ≤ m.
Proof.
  revert m. induction l as [|y l IH]; intros m; cbn [max_list].
  { split; [done|]. intros [H _]. by apply elem_of_nil in H. }
  setoid_rewrite elem_of_cons.
  destruct (max_list l) as [n|] eqn:E.
  - destruct (proj1 (IH n) eq_refl) as [Hn Hm]. split.
    + intros [= <-]. split; [|intros x [->|Hx]; [lia|specialize (Hm x Hx); lia]].
      destruct (Z.max_spec y n) as [[_ ->]|[_ ->]]; auto.
    + intros [[->|Hin] Hle]; f_equal.
      * specialize (Hle n (or_intror Hn)). lia.
      * specialize (Hm m Hin). pose proof (Hle n (or_intror Hn)).
        pose proof (Hle y (or_introl eq_refl)). lia.
  - assert (l = []) as ->.
    { destruct l as [|z l]; [done|]. cbn [max_list] in E. by destruct (max_list l). }
    split.
    + intros [= <-]. split; [auto|]. intros x [->|Hx]; [lia|by apply elem_of_nil in Hx].
    + intros [[->|Hin] _]; [done|by apply elem_of_nil in Hin].
Qed.

Lemma maxAttemptNumber_spec db taskID m :
  maxAttemptNumber db taskID = Some m ↔
  (∃ id a, attempts db !! id = Some a ∧ AttemptTaskID a = taskID ∧ AttemptNumber a = m) ∧
  (∀ id a, attempts db !! id = Some a → AttemptTaskID a = taskID → AttemptNumber a ≤ m).
Proof.
  unfold maxAttemptNumber, attemptsOf. rewrite max_list_spec.
  assert (∀ x, x ∈ (λ ka, AttemptNumber ka.2) <$>
            map_to_list (matching (λ _ a, bool_decide (AttemptTaskID a = taskID)) (attempts db)) ↔
          ∃ id a, attempts db !! id = Some a ∧ AttemptTaskID a = taskID ∧ AttemptNumber a = x) as Hin.
  { intros x. rewrite list_elem_of_fmap. split.
    - intros ([id a] & -> & E). apply elem_of_map_to_list in E.
      apply lookup_matching in E as [E Hb]. apply bool_decide_eq_true in Hb. eauto.
    - intros (id & a & E & Hk & <-). exists (id, a). split; [done|].
      apply elem_of_map_to_list, lookup_matching. by rewrite bool_decide_true. }
  setoid_rewrite Hin. split; intros [H1 H2]; (split; [done|]).
  - intros id a E Hk. apply H2. eauto.
  - intros x (id & a & E & Hk & <-). eauto.
Qed.

Lemma maxAttemptNumber_none db taskID :
  maxAttemptNumber db taskID = None ↔
  ∀ id a, attempts db !! id = Some a → AttemptTaskID a ≠ taskID.
Proof.
  unfold maxAttemptNumber, attemptsOf. split.
  - intros H id a E Hk.
    destruct (map_to_list (matching (λ _ a, bool_decide (AttemptTaskID a = taskID)) (attempts db)))
      as [|x l] eqn:El.
    + apply (elem_of_nil (id, a)). rewrite <- El.
      apply elem_of_map_to_list, lookup_matching. by rewrite bool_decide_true.
    + cbn in H. by destruct (max_list _).
  - intros H. replace (matching _ _) with (∅ : gmap string TaskAttempt); [by rewrite map_to_list_empty|].
    symmetry. apply map_empty. intros k.
    destruct (matching _ _ !! k) as [a|] eqn:E; [|done].
    apply lookup_matching in E as [E Hb]. apply bool_decide_eq_true in Hb. by destruct (H _ _ E).
Qed.

(** An attempt is the latest when it is one of its task's with the highest
    number. *)
Lemma isLatestAttempt_spec db id taskID :
  isLatestAttempt db id taskID = true ↔
  ∃ a, attempts db !! id = Some a ∧ AttemptTaskID a = taskID ∧
       ∀ j b, attempts db !! j = Some b → AttemptTaskID b = taskID →
              AttemptNumber b ≤ AttemptNumber a.
Proof.
  unfold isLatestAttempt. destruct (attempts db !! id) as [a|] eqn:E; [|naive_solver].
  rewrite andb_true_iff, !bool_decide_eq_true, maxAttemptNumber_spec. split.
  - intros (Hk & _ & Hm). eauto.
  - intros (a' & [= <-] & Hk & Hm). eauto 8.
Qed.

(** The latest attempt closed, none of the task's attempts is open. *)
Lemma latest_closed db id taskID :
  Numbered db → isLatestAttempt db id taskID = true → openAttempt db id = false →
  ∀ j b, attempts db !! j = Some b → AttemptTaskID b = taskID → attempt_open b = false.
Proof.
  intros HN (a & E & Hk & Hm)%isLatestAttempt_spec Hc j b Ej Hb.
  destruct (attempt_open b) eqn:Ho; [|done].
  destruct (HN j b id a Ej E) as [Hi Hn]; [congruence|].
  specialize (Hn Ho). specialize (Hm _ _ Ej Hb).
  assert (j = id) as -> by (apply Hi; lia).
  unfold openAttempt, row_matches in Hc. rewrite E in Hc. congruence.
Qed.

(** An attempt that is open is its task's latest. *)
Lemma open_latest db id a :
  Numbered db → attempts db !! id = Some a → attempt_open a = true →
  isLatestAttempt db id (AttemptTaskID a) = true.
Proof.
  intros HN E Ho. apply isLatestAttempt_spec. exists a. repeat split; [done|].
  intros j b Ej Hk. by apply (HN id a j b).
Qed.
