(* ===== verification/Keeps.v ===== *)
(** * Every operation on existing rows keeps the tables in step

    One lemma per operation of [Finalize], [Attempts], [Jobs] and [Workers] that
    neither inserts nor deletes task, attempt or claim rows. *)

From S2P Require Import Prelude Schema Finalize Attempts Lease Jobs Workers Evolve.
Open Scope Z_scope.

Record Keeps (db db' : DB) : Prop := mkKeeps {
  keeps_evolves : Evolves db db';
  keeps_live : Numbered db → Live db → Live db';
}.

#[export] Instance Keeps_refl : Reflexive Keeps.
Proof. intros db. by split. Qed.

#[export] Instance Keeps_trans : Transitive Keeps.
Proof.
  intros a b c [H1 H2] [H3 H4]. split; [by etrans|].
  intros HN HL. apply H4; [by apply (Numbered_evolves a)|auto].
Qed.

Lemma Keeps_other db db' :
  tasks db' = tasks db → attempts db' = attempts db → claims db' = claims db → Keeps db db'.
Proof. intros. split; [by apply Evolves_other|intros _; by apply Live_other]. Qed.

#[export] Hint Resolve Keeps_refl : keeps.
#[export] Hint Extern 2 (Keeps _ _) => apply Keeps_other; reflexivity : keeps.

(** Transactions: only a commit needs a look. *)
Lemma inTx_prop {A} (P : DB → Prop) (body : DB → res StoreErr (A * txOutcome * DB)) db :
  P db → (∀ a db', body db = Ok (a, txCommit, db') → P db') → P (inTx body db).2.
Proof.
  intros H Hc. unfold inTx. destruct (body db) as [[[a o] db']|e] eqn:E; [|done].
  destruct o; simpl; eauto.
Qed.

(** Opens a transaction and its early returns. *)
Ltac tx :=
  apply inTx_prop; [reflexivity|]; let r := fresh "r" in let db' := fresh "db'" in
  intros r db' Htx; cbv beta in Htx; invert_ok.

(** ** Statements *)

Lemma Keeps_tasks db p f :
  (∀ k t, p k t = true → task_kept t (f k t)) →
  (∀ k t, p k t = true → in_flight (TaskStatusOf t) = true →
     in_flight (TaskStatusOf (f k t)) = true) →
  Keeps db (set_tasks (update_where p f (tasks db)) db).
Proof.
  intros Hk Hf. split; [by apply Evolves_tasks|]. intros _. apply Live_set_tasks.
  intros k t _ Ep Ef. left. eauto.
Qed.

Lemma Keeps_attempts db p f :
  (∀ k a, p k a = true → attempt_open a = true) →
  (∀ k a, attempt_same a (f k a)) →
  (∀ k a, attempt_open (f k a) = attempt_open a) →
  Keeps db (set_attempts (update_where p f (attempts db)) db).
Proof.
  intros Hp Hf Ho. split; [by apply Evolves_attempts|]. intros _ [H1 H2]. split.
  - eapply (OpenInFlight_attempts db); [done|cbn; reflexivity|..|done].
    + intros k a _. apply Hf.
    + intros k a _. by rewrite Ho.
  - apply (ClaimsMatch_same db); [done| |done]. intros id.
    erewrite openAttempt_update by reflexivity. unfold openAttempt, row_matches.
    destruct (attempts db !! id) as [a|]; [|done]. destruct (p id a); auto.
Qed.

(** ** Closing attempts *)

Lemma closeAttemptAndReleaseTx_keeps c now db :
  CompAttemptStatus c ≠ AttemptRunning → Keeps db (closeAttemptAndReleaseTx c now db).
Proof.
  intros Hs. split.
  - apply (closeOne_evolves (CompAttemptID c) (λ _, completedBy c)). by intros.
  - intros _. apply (closeOne_live (CompAttemptID c) (λ _, completedBy c)); [by intros|].
    intros k a. by apply bool_decide_false.
Qed.

Lemma closeAsFailed_keeps ended code sid msg id released db :
  Keeps db (sqlReleaseAttemptClaims released id (sqlCloseAttemptAsFailed ended code sid msg id db)).
Proof.
  split.
  - apply (closeOne_evolves id (λ _, failedWith ended code sid msg)). by intros.
  - intros _. apply (closeOne_live id (λ _, failedWith ended code sid msg)); by intros.
Qed.

(** Tasks moved by one statement, their attempts closed by the next two. *)
Lemma closeTasks_keeps tp tf ids status msg now db :
  status ≠ AttemptRunning →
  (∀ k t, tp k t = true → task_kept t (tf k t)) →
  (∀ k t, tasks db !! k = Some t → tp k t = true → k ∈ ids) →
  Keeps db (closeTasksAttemptsTx ids status msg now
              (set_tasks (update_where tp tf (tasks db)) db)).
Proof.
  intros Hs Hk Hids. unfold closeTasksAttemptsTx. case_bool_decide as Hne.
  - subst ids. assert (∀ k t, tasks db !! k = Some t → tp k t = false) as Hno.
    { intros k t E. destruct (tp k t) eqn:Ep; [|done]. set_solver. }
    split; [by apply Evolves_tasks|]. intros _. apply Live_set_tasks.
    intros k t E Ep. rewrite (Hno _ _ E) in Ep. done.
  - split.
    + apply (closeMany_evolves tp tf (λ a, bool_decide (AttemptTaskID a ∈ ids))
               (closedAs status now msg)); [by intros|done].
    + intros _. apply (closeMany_live tp tf (λ a, bool_decide (AttemptTaskID a ∈ ids))
               (closedAs status now msg)); [by intros| | |].
      * intros a. by apply bool_decide_false.
      * intros a b Hab. by rewrite Hab.
      * intros k t a E Et _ Ha. apply bool_decide_true. rewrite Ha. eauto.
Qed.

Lemma closeTask_keeps tp tf id status msg now db :
  status ≠ AttemptRunning →
  (∀ k t, tp k t = true → task_kept t (tf k t)) →
  (∀ k t, tp k t = true → k = id) →
  Keeps db (closeTaskAttemptsTx id status msg now
              (set_tasks (update_where tp tf (tasks db)) db)).
Proof.
  intros Hs Hk Hid. apply closeTasks_keeps; [done..|]. intros k t _ E.
  rewrite (Hid _ _ E). set_solver.
Qed.

(** ** Compare-and-set *)

Lemma casTaskStatusTx_ok id to now db r db' :
  casTaskStatusTx id to now db = Ok (r, db') →
  ∃ t, tasks db !! id = Some t ∧
  ((r = casSame ∧ db' = db ∧ TaskStatusOf t = to) ∨
   (r = casApplied ∧ db' = sqlCASTaskStatus id (TaskStatusOf t) to now db
    ∧ to ∈ validTaskTransitions (TaskStatusOf t))).
Proof.
  unfold casTaskStatusTx, casMaxAttempts. cbn [casLoop]. unfold get.
  destruct (tasks db !! id) as [t|] eqn:E; cbn [res_bind]; [|by intros].
  case_bool_decide as Hs.
  - intros H. invert_ok. eauto 6.
  - unfold ValidateTaskTransition. case_bool_decide as Hv; cbn [res_bind]; [|by intros].
    unfold casWriteTaskStatus, row_matches. rewrite E, bool_decide_true by done.
    intros H. invert_ok. eauto 7.
Qed.

(** The compare-and-set never runs out of tries. *)
Lemma casTaskStatusTx_err id to now db e :
  casTaskStatusTx id to now db = Err e →
  (e = ErrNotFound ∧ tasks db !! id = None) ∨
  (∃ t, tasks db !! id = Some t ∧ e = ErrInvalidTransition ∧ TaskStatusOf t ≠ to
        ∧ to ∉ validTaskTransitions (TaskStatusOf t)).
Proof.
  unfold casTaskStatusTx, casMaxAttempts. cbn [casLoop]. unfold get.
  destruct (tasks db !! id) as [t|] eqn:E; cbn [res_bind]; [|intros [= <-]; auto].
  case_bool_decide as Hs; [by intros|].
  unfold ValidateTaskTransition. case_bool_decide as Hv; cbn [res_bind].
  - unfold casWriteTaskStatus, row_matches. rewrite E, bool_decide_true by done. by intros.
  - intros [= <-]. right. eauto.
Qed.

(** ** Reports *)


(** ** Completions *)

Lemma isLatestAttempt_evolves db db' id taskID :
  pointwise attempt_kept (attempts db) (attempts db') →
  isLatestAttempt db' id taskID = isLatestAttempt db id taskID.
Proof.
  intros Ha. apply eq_bool_prop_intro. rewrite !Is_true_true, !isLatestAttempt_spec. split.
  - intros (a' & E & Hk & Hm).
    destruct (pointwise_some_inv _ _ _ _ _ Ha E) as (a & E' & [(Ta & Na & _) _]).
    exists a. repeat split; [done|congruence|]. intros j b Ej Hb.
    destruct (pointwise_some _ _ _ _ _ Ha Ej) as (b' & Ej' & [(Tb & Nb & _) _]).
    rewrite <- Na, <- Nb. apply (Hm j b'); congruence.
  - intros (a & E & Hk & Hm).
    destruct (pointwise_some _ _ _ _ _ Ha E) as (a' & E' & [(Ta & Na & _) _]).
    exists a'. repeat split; [done|congruence|]. intros j b' Ej Hb.
    destruct (pointwise_some_inv _ _ _ _ _ Ha Ej) as (b & Ej' & [(Tb & Nb & _) _]).
    rewrite Na, Nb. apply (Hm j b); congruence.
Qed.

(** A task row rewritten while its latest attempt is closed. *)
Lemma Keeps_latest_closed db id taskID p f :
  isLatestAttempt db id taskID = true → openAttempt db id = false →
  (∀ k t, p k t = true → k = taskID) → (∀ k t, p k t = true → task_kept t (f k t)) →
  Keeps db (set_tasks (update_where p f (tasks db)) db).
Proof.
  intros HL Hc Hp Hf. split; [by apply Evolves_tasks|]. intros HN. apply Live_set_tasks.
  intros k t _ Ep _. right. intros j b Ej Hb. rewrite (Hp _ _ Ep) in Hb.
  by eapply (latest_closed db id taskID).
Qed.

Lemma sqlSetTaskFailureReason_keeps reason now id db :
  Keeps db (sqlSetTaskFailureReason reason now id db).
Proof. apply Keeps_tasks; by auto with keeps. Qed.

Lemma applyCompletionTx_keeps c now db r db' :
  task_terminal (CompTaskStatus c) = true → openAttempt db (CompAttemptID c) = false →
  applyCompletionTx c now db = Ok (r, db') → Keeps db db'.
Proof.
  intros Ht Hc. unfold applyCompletionTx.
  destruct (isLatestAttempt _ _ _) eqn:HL; cbn [negb]; [|intros; by invert_ok].
  intros H. apply res_bind_ok in H as (t & Hget & H).
  destruct (negb _ && negb _); [by invert_ok|].
  destruct (casTaskStatusTx _ _ _ _) as [[r' db1]|e] eqn:Ecas; [|by destruct e; invert_ok].
  invert_ok. transitivity db1.
  - apply casTaskStatusTx_ok in Ecas as (t' & Et & [(-> & -> & _)|(-> & -> & _)]); [done|].
    apply (Keeps_latest_closed db (CompAttemptID c) (CompTaskID c)); [done..| |].
    2: { intros k x _. apply task_kept_idle; try done. cbn. by destruct (CompTaskStatus c). }
    intros k x Ep. apply andb_prop in Ep as [Ep _]. by apply bool_decide_eq_true in Ep.
  - case_bool_decide; [done|]. apply sqlSetTaskFailureReason_keeps.
Qed.

Lemma closeAttemptAndReleaseTx_closed c now db :
  CompAttemptStatus c ≠ AttemptRunning →
  openAttempt (closeAttemptAndReleaseTx c now db) (CompAttemptID c) = false.
Proof.
  intros Hs. apply (closeOne_closed (CompAttemptID c) (λ _, completedBy c)).
  intros k a. by apply bool_decide_false.
Qed.

Lemma CompleteTaskAttempt_keeps c now db :
  CompAttemptStatus c ≠ AttemptRunning → task_terminal (CompTaskStatus c) = true →
  Keeps db (CompleteTaskAttempt c now db).2.
Proof.
  intros Hs Ht. unfold CompleteTaskAttempt. tx. destruct a0 as [r' db'']. cbn in Htx. invert_ok.
  etrans; [by apply closeAttemptAndReleaseTx_keeps|].
  eapply applyCompletionTx_keeps; [done|by apply closeAttemptAndReleaseTx_closed|done].
Qed.

(** ** Cancelling *)

Lemma cancelJob_closeMany jobID reason now db :
  let db1 := sqlCancelJobTasks jobID reason now db in
  sqlReleaseClosedJobClaims jobID now (sqlCancelJobAttempts jobID now db1) =
  closeMany (λ _ t, bool_decide (TaskJobID t = jobID) && cancelable (TaskStatusOf t))
    (λ _ t, set_AssignedAt None (set_AssignedWorkerID None (task_canceled reason now t)))
    (λ a, row_matches (tasks db) (AttemptTaskID a) (λ t, bool_decide (TaskJobID t = jobID)))
    (λ a, set_EndedAt (Some now) (set_AttemptStatusOf AttemptCanceled a)) now db.
Proof.
  cbv zeta. unfold sqlReleaseClosedJobClaims, sqlCancelJobAttempts, sqlCancelJobTasks, closeMany.
  cbn. unfold closed_attempt. cbn.
  assert (∀ a, row_matches (update_where
            (λ _ t, bool_decide (TaskJobID t = jobID) && cancelable (TaskStatusOf t))
            (λ _ t, set_AssignedAt None (set_AssignedWorkerID None (task_canceled reason now t)))
            (tasks db)) (AttemptTaskID a) (λ t, bool_decide (TaskJobID t = jobID))
          = row_matches (tasks db) (AttemptTaskID a) (λ t, bool_decide (TaskJobID t = jobID))) as Hrm.
  { intros a. by apply row_matches_update. }
  unfold set_claims, set_attempts, set_tasks. cbn. f_equal.
  - apply update_where_ext; [|done]. intros k a _. by rewrite Hrm.
  - apply update_where_ext; [|done]. intros k c _. f_equal.
    erewrite update_where_ext; [apply row_matches_ext|..].
    + intros a. by rewrite Hrm.
    + intros k' a _. cbv beta. by rewrite Hrm.
    + done.
Qed.

Lemma CancelJobExecution_keeps jobID reason now db :
  Keeps db (CancelJobExecution jobID reason now db).2.
Proof.
  unfold CancelJobExecution, inTx. cbv beta iota zeta. cbn [snd].
  assert (∀ d, Keeps d (sqlCancelJobStatus jobID now (sqlCancelJobFinalizeSteps jobID now d)))
    as Hrest by (intros d; by apply Keeps_other).
  rewrite cancelJob_closeMany. etrans; [|apply Hrest].
  split; [by apply closeMany_evolves; auto with keeps|]. intros _.
  apply closeMany_live; [done..| |].
  - intros a b E. by rewrite E.
  - intros k t a E Et _ Hk. rewrite Hk. unfold row_matches. rewrite E.
    by apply andb_prop in Et as [Et _].
Qed.

Lemma CancelTaskExecution_keeps id reason now db :
  Keeps db (CancelTaskExecution id reason now db).2.
Proof.
  unfold CancelTaskExecution. tx. destruct (negb _); [by invert_ok|]. invert_ok.
  apply closeTask_keeps; [done|by auto with keeps|]. intros k t E.
  apply andb_prop in E as [E _]. by apply bool_decide_eq_true in E.
Qed.

(** ** Reports of a running attempt *)

Lemma StartTaskAttempt_keeps id taskID sid now db :
  Keeps db (StartTaskAttempt id taskID sid now db).2.
Proof.
  unfold StartTaskAttempt. tx. destruct a as [live t]. cbn in Htx.
  destruct live; cbn in Htx; [|by invert_ok].
  set (mv := if bool_decide _ then _ else _) in Htx.
  assert (Keeps db mv.2) as Hmv.
  { unfold mv. destruct (bool_decide (TaskStatusOf t = TaskAssigned)); [|done].
    apply Keeps_tasks; [|done]. intros k x E. apply andb_prop in E as [_ E].
    apply bool_decide_eq_true in E. repeat split; by rewrite E. }
  destruct mv as [moved db1]. cbn in Hmv. destruct moved; cbn in Htx; [|by invert_ok].
  invert_ok. etrans; [exact Hmv|]. destruct (bool_decide (sid = _)); [done|].
  apply Keeps_attempts; [|by intros|by intros].
  intros k a E. by apply andb_prop in E as [_ E].
Qed.

Lemma RecordAttemptProgress_keeps id taskID progress text at_ db :
  Keeps db (RecordAttemptProgress id taskID progress text at_ db).2.
Proof.
  unfold RecordAttemptProgress. tx. destruct a as [live t]. cbn in Htx.
  destruct live; cbn in Htx; [|by invert_ok]. case_bool_decide; invert_ok; [done|].
  apply Keeps_attempts; [|by intros|by intros].
  intros k a E. by apply andb_prop in E as [_ [E _]%andb_prop].
Qed.

(** ** Reclaiming *)

Lemma ReclaimTaskAttempt_keeps id taskID now db :
  Keeps db (ReclaimTaskAttempt id taskID now db).2.
Proof.
  unfold ReclaimTaskAttempt. tx. destruct a as [live t]. cbn in Htx.
  destruct live; cbn in Htx; invert_ok; [|done].
  apply closeTask_keeps; [done|by auto with keeps|]. intros k x E.
  apply andb_prop in E as [E _]. by apply bool_decide_eq_true in E.
Qed.

Lemma returning_dom {A} p (f : string → A → A) m k x :
  m !! k = Some x → p k x = true → k ∈ dom (returning p f m).
Proof.
  intros E Ep. apply elem_of_dom. unfold returning. rewrite map_lookup_imap.
  by rewrite (proj2 (lookup_matching p m k x)).
Qed.

Lemma reclaimWorkerTasksTx_keeps id msg now db :
  Keeps db (reclaimWorkerTasksTx id msg now db).2.
Proof.
  apply closeTasks_keeps; [done|by auto with keeps|]. intros k t E Ep. by eapply returning_dom.
Qed.

Lemma offlineWorker_keeps id guard now db : Keeps db (offlineWorker id guard now db).2.
Proof.
  unfold offlineWorker. tx. destruct (row_matches _ _ _); cbn -[reclaimWorkerTasksTx] in Htx;
    [|by invert_ok].
  set (db1 := set_workers _ _) in Htx.
  assert (Keeps db db1) as H1 by by apply Keeps_other.
  pose proof (reclaimWorkerTasksTx_keeps id FailureReasonWorkerOffline now db1) as H2.
  destruct (reclaimWorkerTasksTx _ _ _ _) as [rec db2]. invert_ok. by etrans.
Qed.

Lemma OfflineWorker_keeps id inst now db : Keeps db (OfflineWorker id inst now db).2.
Proof.
  unfold OfflineWorker. pose proof (offlineWorker_keeps id (sameInstance inst) now db) as H.
  by destruct (offlineWorker _ _ _ _) as [[[? []]|] db'].
Qed.

Lemma reclaimStaleBatch_keeps batch cutoff now db :
  Keeps db (reclaimStaleBatch batch cutoff now db).2.
Proof.
  unfold reclaimStaleBatch. tx. case_bool_decide; [by invert_ok|]. invert_ok.
  apply closeTasks_keeps; [done|by auto with keeps|]. intros k t E Ep. by eapply returning_dom.
Qed.

(** ** Failures *)

Lemma RecordTaskFailure_keeps id taskID code sid msg now server db :
  Keeps db (RecordTaskFailure id taskID code sid msg now server db).2.
Proof.
  unfold RecordTaskFailure. tx.
  pose proof (closeAsFailed_keeps now code sid msg id server db) as H.
  set (db2 := sqlReleaseAttemptClaims _ _ _) in *.
  destruct (negb _); invert_ok; [done|]. etrans; [exact H|].
  transitivity (set_tasks (update_where (λ k _, bool_decide (k = taskID))
    (λ _ t, set_TaskUpdatedAt now (set_TaskFailedAttempts (TaskFailedAttempts t + 1) t))
    (tasks db2)) db2).
  - apply Keeps_tasks; by auto with keeps.
  - by apply Keeps_other.
Qed.

Lemma RequeueTaskForRetry_keeps taskID id retryAfter now db :
  openAttempt db id = false → Keeps db (RequeueTaskForRetry taskID id retryAfter now db).2.
Proof.
  intros Hc. unfold RequeueTaskForRetry. tx.
  destruct (tasks db !! taskID) as [t|]; [|by invert_ok]. invert_ok.
  destruct (isLatestAttempt db id taskID) eqn:HL.
  - apply (Keeps_latest_closed db id taskID); [done..| |by auto with keeps].
    intros k x E. apply andb_prop in E as [[E _]%andb_prop _]. by apply bool_decide_eq_true in E.
  - apply Keeps_tasks; [by auto with keeps|]. intros k x E. rewrite andb_false_r in E. done.
Qed.

Lemma SetTaskUnschedulableReason_keeps id reason now db :
  Keeps db (SetTaskUnschedulableReason id reason now db).2.
Proof. apply Keeps_tasks; by auto with keeps. Qed.

(** ** Steps and jobs *)

(** Task rows outside flight may be rewritten. *)
Lemma Keeps_idle_tasks db db' p f :
  tasks db' = update_where p f (tasks db) → attempts db' = attempts db → claims db' = claims db →
  (∀ k t, p k t = true → task_kept t (f k t)) → (∀ k t, p k t = true → in_flight (TaskStatusOf t) = false) →
  Keeps db db'.
Proof.
  intros E1 E2 E3 Hk Hp. transitivity (set_tasks (update_where p f (tasks db)) db).
  - apply Keeps_tasks; [done|]. intros k t E Hf. rewrite (Hp _ _ E) in Hf. done.
  - by apply Keeps_other.
Qed.

Lemma movePendingStep_keeps id stepTo taskTo reason now db :
  in_flight taskTo = false → Keeps db (movePendingStep id stepTo taskTo reason now db).2.
Proof.
  intros Hto. unfold movePendingStep. tx. destruct (_ && _); [by invert_ok|].
  destruct (negb _); [by invert_ok|]. invert_ok.
  eapply (Keeps_idle_tasks db); [reflexivity..|by auto with keeps|].
  intros k t E. apply andb_prop in E as [_ E]. apply bool_decide_eq_true in E. by rewrite E.
Qed.

Lemma CancelBlockedJob_keeps id reason now db :
  Keeps db (CancelBlockedJob id reason now db).2.
Proof.
  unfold CancelBlockedJob. tx. destruct (negb _); [by invert_ok|]. invert_ok.
  eapply (Keeps_idle_tasks db); [reflexivity..|by auto with keeps|].
  intros k t E. apply andb_prop in E as [_ E]. apply bool_decide_eq_true in E. by rewrite E.
Qed.

Lemma RetryTasks_keeps jobID ids now db : Keeps db (RetryTasks jobID ids now db).2.
Proof.
  unfold RetryTasks. destruct (match ids with Some [] => true | _ => false end); [done|].
  assert (Keeps db (set_tasks (update_where (retryGuard jobID ids)
                      (λ _, retry_task db now) (tasks db)) db)) as H.
  { eapply (Keeps_idle_tasks db); [reflexivity..| |].
    { intros k t _. apply task_kept_idle; try done. cbn. by destruct (row_matches _ _ _). }
    intros k t E. unfold retryGuard in E.
    apply andb_prop in E as [[_ E]%andb_prop _]. by destruct (TaskStatusOf t). }
  tx. case_bool_decide; invert_ok; [done|]. etrans; [exact H|]. by apply Keeps_other.
Qed.

Lemma RegisterWorker_keeps id w now db : Keeps db (RegisterWorker id w now db).2.
Proof.
  unfold RegisterWorker.
  match goal with |- Keeps _ (match inTx ?b db with _ => _ end).2 =>
    assert (Keeps db (inTx b db).2) as H; [|by destruct (inTx b db) as [[[[? ?] []]|] ?]]
  end.
  tx. destruct (match workers db !! id with Some _ => _ | None => _ end); [by invert_ok|].
  destruct (_ || _); [by invert_ok|].
  set (db1 := set_workers _ _) in Htx.
  assert (Keeps db db1) as H1 by by apply Keeps_other.
  pose proof (reclaimWorkerTasksTx_keeps id FailureReasonWorkerRestarted now db1) as H2.
  destruct (restarted _ _); [|by invert_ok].
  destruct (reclaimWorkerTasksTx _ _ _ _) as [rec db2]. invert_ok. by etrans.
Qed.
