(* ===== verification/StoreInv.v ===== *)
(** * The store as a state machine

    The store's write operations as one type of commands, the databases they
    reach from an empty one in any order, and the invariants every reachable
    database satisfies. *)

From S2P Require Import Prelude Schema Sample Finalize Attempts Lease Jobs Workers Catalog Evolve Keeps.
Open Scope Z_scope.

(** ** Commands *)

(** One constructor per write of [store.Store] on the modelled tables.  [OpAdmin]
    stands for every write of the farm, queue, pool, location and credential
    administration: it may leave those tables in any state. *)
Inductive Op :=
  | OpSubmit (clock : nat → Z) (order : list (string * Task) → list (string * Task))
      (sub : JobSubmission) (batchRows now : Z)
  | OpUpdateJob (id : string) (e : JobEdit) (now : Z)
  | OpCancelJobStatus (id : string) (now : Z)
  | OpParkJob (id reason : string) (now : Z)
  | OpResumeJob (id : string) (now : Z)
  | OpPauseJob (id : string) (now : Z)
  | OpPromoteJobRunning (id : string) (now : Z)
  | OpDemoteStalledJob (id : string) (now : Z)
  | OpReleaseBlockedJob (id : string) (now : Z)
  | OpCancelBlockedJob (id reason : string) (now : Z)
  | OpFinalizeStep (id : string) (now : Z)
  | OpFinalizeJob (id : string) (now : Z)
  | OpReleaseStep (id : string) (now : Z)
  | OpCancelPendingStep (id reason : string) (now : Z)
  | OpRetryTasks (jobID : string) (ids : option (list string)) (now : Z)
  | OpLease (req : LeaseRequest)
  | OpStart (attemptID taskID sessionID : string) (now : Z)
  | OpProgress (attemptID taskID : string) (progress : option Z) (text : string) (at_ : Z)
  | OpComplete (c : AttemptCompletion) (now : Z)
  | OpRecordFailure (attemptID taskID : string) (exitCode : option Z) (sessionID message : string)
      (now server : Z)
  | OpRequeue (taskID attemptID : string) (retryAfter now : Z)
  | OpReclaimAttempt (attemptID taskID : string) (now : Z)
  | OpReclaimStale (batch : list string) (cutoff now : Z)
  | OpUnschedulable (id reason : string) (now : Z)
  | OpCancelJob (jobID reason : string) (now : Z)
  | OpCancelTask (taskID reason : string) (now : Z)
  | OpOfflineStale (id : string) (cutoff now : Z)
  | OpOffline (id instanceID : string) (now : Z)
  | OpRegister (id : string) (w : Worker) (now : Z)
  | OpDisable (id : string) (disabled : bool) (now : Z)
  | OpHeartbeat (id : string) (at_ : Z) (brokerAt : option Z) (now : Z)
  | OpDeleteWorker (id : string)
  | OpDeleteOfflineWorkers (cutoff : Z)
  | OpDeleteJob (id : string)
  | OpPurgeJob (id : string) (cutoff : Z) (includeFailed : bool)
  | OpLog (id : string) (log : TaskLog) (now : Z)
  | OpLocation (id name : string)
  | OpTouchCredential (workerID : string) (at_ : Z)
  | OpAdmin (fs : gmap string Farm) (qs : gmap string Queue) (ps : gmap string UsagePool)
      (ls : gmap string string) (cs : gmap string WorkerCredential).

Definition run (o : Op) (db : DB) : DB :=
  match o with
  | OpSubmit clock order sub rows now => (CreateJobSubmission clock order sub rows now db).2
  | OpUpdateJob id e now => (UpdateJob id e now db).2
  | OpCancelJobStatus id now => (CancelJobStatus id now db).2
  | OpParkJob id reason now => (ParkJob id reason now db).2
  | OpResumeJob id now => (ResumeJob id now db).2
  | OpPauseJob id now => (PauseJob id now db).2
  | OpPromoteJobRunning id now => (PromoteJobRunning id now db).2
  | OpDemoteStalledJob id now => (demoteStalledJob id now db).2
  | OpReleaseBlockedJob id now => (ReleaseBlockedJob id now db).2
  | OpCancelBlockedJob id reason now => (CancelBlockedJob id reason now db).2
  | OpFinalizeStep id now => (FinalizeStep id now db).2
  | OpFinalizeJob id now => (FinalizeJob id now db).2
  | OpReleaseStep id now => (ReleaseStep id now db).2
  | OpCancelPendingStep id reason now => (CancelPendingStep id reason now db).2
  | OpRetryTasks jobID ids now => (RetryTasks jobID ids now db).2
  | OpLease req => (LeaseTask req db).2
  | OpStart aid tid sid now => (StartTaskAttempt aid tid sid now db).2
  | OpProgress aid tid p text at_ => (RecordAttemptProgress aid tid p text at_ db).2
  | OpComplete c now => (CompleteTaskAttempt c now db).2
  | OpRecordFailure aid tid code sid msg now server =>
      (RecordTaskFailure aid tid code sid msg now server db).2
  | OpRequeue tid aid retryAfter now => (RequeueTaskForRetry tid aid retryAfter now db).2
  | OpReclaimAttempt aid tid now => (ReclaimTaskAttempt aid tid now db).2
  | OpReclaimStale batch cutoff now => (reclaimStaleBatch batch cutoff now db).2
  | OpUnschedulable id reason now => (SetTaskUnschedulableReason id reason now db).2
  | OpCancelJob jobID reason now => (CancelJobExecution jobID reason now db).2
  | OpCancelTask tid reason now => (CancelTaskExecution tid reason now db).2
  | OpOfflineStale id cutoff now => (OfflineStaleWorker id cutoff now db).2
  | OpOffline id inst now => (OfflineWorker id inst now db).2
  | OpRegister id w now => (RegisterWorker id w now db).2
  | OpDisable id d now => (SetWorkerDisabled id d now db).2
  | OpHeartbeat id at_ broker now => (UpdateWorkerHeartbeat id at_ broker now db).2
  | OpDeleteWorker id => (DeleteWorkerIfRemovable id db).2
  | OpDeleteOfflineWorkers cutoff => (DeleteOfflineWorkersBefore cutoff db).2
  | OpDeleteJob id => (DeleteJob id db).2
  | OpPurgeJob id cutoff f => (purgeExpiredJob cutoff f id db).2
  | OpLog id log now => (CreateTaskLog id log now db).2
  | OpLocation id name => (CreateComputeLocation id name db).2
  | OpTouchCredential workerID at_ => (TouchWorkerCredential workerID at_ db).2
  | OpAdmin fs qs ps ls cs =>
      set_farms fs (set_queues qs (set_pools ps (set_computeLocations ls (set_credentials cs db))))
  end.

(** A submission as [openjd.Submitter.Submit] builds it: a pending or blocked job
    whose steps and tasks are its own, each task of one of its steps, none of
    them further than ready and none reserving less than one core. *)
Definition submissionBuilt (sub : JobSubmission) : bool :=
  match JobStatusOf (SubJob sub) with JobPending | JobBlocked => true | _ => false end
  && forallb (λ s, bool_decide (StepJobID s.2 = SubJobID sub)
       && match StepStatusOf s.2 with StepPending | StepReady => true | _ => false end) (SubSteps sub)
  && forallb (λ t, bool_decide (TaskJobID t.2 = SubJobID sub)
       && bool_decide (TaskStepID t.2 ∈ (SubSteps sub).*1)
       && task_waiting (TaskStatusOf t.2)) (SubTasks sub)
  && forallb (λ t, match RequiredCores t.2 with Some c => 1 <=? c | None => true end) (SubTasks sub).

(** How the program calls them: a submission is built by the submitter, a completion closes its attempt with a final
    status (the scheduler maps a worker's terminal status to one), a failure is
    requeued after [RecordTaskFailure] closed its attempt, and a log chunk names
    the task of its attempt. *)
Definition allowed (o : Op) (db : DB) : bool :=
  match o with
  | OpSubmit _ _ sub _ _ => submissionBuilt sub
  | OpComplete c _ =>
      negb (bool_decide (CompAttemptStatus c = AttemptRunning)) && task_terminal (CompTaskStatus c)
  | OpRequeue _ aid _ _ => negb (openAttempt db aid)
  | OpLog _ log _ =>
      match attempts db !! LogAttemptID log with
      | Some a => bool_decide (AttemptTaskID a = LogTaskID log)
      | None => true
      end
  | _ => true
  end.

(** [ListOpenAttempts]: running, its task in flight, and the task's latest. *)
Definition ListOpenAttempts (db : DB) : gmap string TaskAttempt :=
  matching (λ id a,
    attempt_open a
    && row_matches (tasks db) (AttemptTaskID a) (λ t, in_flight (TaskStatusOf t))
    && isLatestAttempt db id (AttemptTaskID a)) (attempts db).

(** [sqlClaimInvariantViolations] *)
Definition claimViolation (db : DB) (_ : string) (c : UsageClaim) : bool :=
  claim_active c
  && match attempts db !! ClaimAttemptID c with
     | None => true
     | Some a =>
         negb (attempt_open a)
         || row_matches (tasks db) (AttemptTaskID a) (λ t, task_terminal (TaskStatusOf t))
     end.

Definition ClaimInvariantViolations (db : DB) : list string :=
  sort_by String.leb (map_to_list (matching (claimViolation db) (claims db))).*1.

Inductive reachable : DB → Prop :=
  | reach_empty : reachable emptyDB
  | reach_step db o : reachable db → allowed o db = true → reachable (run o db).

(** A run of commands, each allowed where it is applied. *)
Fixpoint run_all (os : list Op) (db : DB) : option DB :=
  match os with
  | [] => Some db
  | o :: os' => if allowed o db then run_all os' (run o db) else None
  end.

Lemma run_all_reachable os db db' : reachable db → run_all os db = Some db' → reachable db'.
Proof.
  revert db. induction os as [|o os IH]; intros db Hr; cbn [run_all]; [by intros [= <-]|].
  destruct (allowed o db) eqn:E; [|done]. apply IH. by constructor.
Qed.

(** ** The invariant *)

Record Inv (db : DB) : Prop := mkInv {
  inv_live : Live db;
  inv_numbered : Numbered db;
  inv_referenced : Referenced db;
}.

Lemma Keeps_inv db db' : Keeps db db' → Inv db → Inv db'.
Proof.
  intros [He Hl] [H1 H2 H3]. split; [by apply Hl|by eapply Numbered_evolves|by eapply Referenced_evolves].
Qed.

Lemma Inv_empty : Inv emptyDB.
Proof.
  split; [split|..].
  - intros id a E. cbn in E. by rewrite lookup_empty in E.
  - intros id c E. cbn in E. by rewrite lookup_empty in E.
  - intros i a j b E. cbn in E. by rewrite lookup_empty in E.
  - split; intros id x E; cbn in E; by rewrite lookup_empty in E.
Qed.

(** *** Leasing *)

Lemma nextAttemptNumber_above db taskID id a :
  attempts db !! id = Some a → AttemptTaskID a = taskID →
  AttemptNumber a < nextAttemptNumber db taskID.
Proof.
  intros E Hk. unfold nextAttemptNumber. destruct (maxAttemptNumber db taskID) as [m|] eqn:Em; cbn.
  - apply maxAttemptNumber_spec in Em as [_ Hm]. specialize (Hm _ _ E Hk). lia.
  - rewrite maxAttemptNumber_none in Em. by destruct (Em _ _ E).
Qed.

Lemma Leased_openAttempt req db db' t a id :
  Leased req db db' t a →
  openAttempt db' id = if bool_decide (id = ReqAttemptID req) then true else openAttempt db id.
Proof.
  intros HL. unfold openAttempt, row_matches. rewrite (leased_attempts _ _ _ _ _ HL).
  case_bool_decide as E.
  - subst id. rewrite lookup_insert_eq, (leased_attempt _ _ _ _ _ HL). done.
  - by rewrite lookup_insert_ne by done.
Qed.

Lemma Leased_inv req db db' t a : Leased req db db' t a → Inv db → Inv db'.
Proof.
  intros HL [[Hf Hc] HN [Hr1 Hr2]].
  pose proof HL as [Ht Hs Hfresh Ha Etasks Eatt Hold Hnew _ _].
  assert (∀ id b, attempts db !! id = Some b → AttemptTaskID b = ReqTaskID req →
            attempt_open b = false) as Hclosed.
  { intros id b E Hk. destruct (attempt_open b) eqn:Ho; [|done].
    destruct (Hf _ _ E Ho) as (t' & Et & Hfl). rewrite Hk, Ht in Et. injection Et as <-.
    by rewrite Hs in Hfl. }
  split; [split|..].
  - intros id b E Ho. rewrite Eatt in E. rewrite Etasks.
    destruct (decide (ReqAttemptID req = id)) as [<-|Hne].
    + rewrite lookup_insert_eq in E. injection E as <-. rewrite Ha. cbn.
      rewrite lookup_insert_eq. eauto.
    + rewrite lookup_insert_ne in E by done. destruct (Hf _ _ E Ho) as (t' & Et & Hfl).
      exists t'. split; [|done]. rewrite lookup_insert_ne; [done|].
      intros Hk. by rewrite (Hclosed _ _ E) in Ho.
  - intros id c E. rewrite (Leased_openAttempt _ _ _ _ _ _ HL).
    destruct (Hnew _ _ E) as [E'|(r & _ & _ & ->)].
    + rewrite (Hc _ _ E'), bool_decide_false; [done|]. intros Hk.
      destruct (Hr2 _ _ E') as [b Eb]. congruence.
    + cbn. by rewrite bool_decide_true.
  - intros i x j y Ei Ej Hk. rewrite Eatt in Ei, Ej.
    destruct (decide (ReqAttemptID req = i)) as [<-|Hi]; destruct (decide (ReqAttemptID req = j)) as [<-|Hj];
      rewrite ?lookup_insert_eq in *; rewrite ?lookup_insert_ne in * by done.
    + split; [done|]. intros _. injection Ei as <-. injection Ej as <-. lia.
    + injection Ei as <-. rewrite Ha in *. cbn in *.
      pose proof (nextAttemptNumber_above _ _ _ _ Ej (eq_sym Hk)). split; [lia|]. intros _. lia.
    + injection Ej as <-. rewrite Ha in *. cbn in *.
      pose proof (nextAttemptNumber_above _ _ _ _ Ei Hk). split; [lia|].
      intros Ho. by rewrite (Hclosed _ _ Ei Hk) in Ho.
    + by apply (HN i x j y).
  - split.
    + intros id b E. rewrite Eatt in E. rewrite Etasks.
      destruct (decide (ReqTaskID req = AttemptTaskID b)) as [<-|Hne].
      { rewrite lookup_insert_eq. eauto. }
      rewrite lookup_insert_ne by done. apply (Hr1 id).
      destruct (decide (ReqAttemptID req = id)) as [<-|Hid]; [|by rewrite lookup_insert_ne in E].
      rewrite lookup_insert_eq, Ha in E. injection E as <-. done.
    + intros id c E. rewrite Eatt. destruct (Hnew _ _ E) as [E'|(r & _ & _ & ->)].
      * destruct (decide (ReqAttemptID req = ClaimAttemptID c)) as [<-|Hne].
        { rewrite lookup_insert_eq. eauto. }
        rewrite lookup_insert_ne by done. eauto.
      * cbn. rewrite lookup_insert_eq. eauto.
Qed.

Lemma LeaseTask_inv req db : Inv db → Inv (LeaseTask req db).2.
Proof.
  intros HI. destruct (LeaseTask req db) as [r db'] eqn:E.
  destruct (LeaseTask_outcome _ _ _ _ E) as [(aid & a & ->)|[-> _]]; [|done].
  apply LeaseTask_leased in E as (t & j & q & f & _ & HL & _). by eapply Leased_inv.
Qed.

(** *** Submitting *)

Record Grows (db db' : DB) : Prop := mkGrows {
  grows_tasks : tasks db ⊆ tasks db';
  grows_attempts : attempts db' = attempts db;
  grows_claims : claims db' = claims db;
  grows_jobs : jobs db ⊆ jobs db';
  grows_steps : steps db ⊆ steps db';
}.

#[export] Instance Grows_refl : Reflexive Grows.
Proof. by split. Qed.

#[export] Instance Grows_trans : Transitive Grows.
Proof. intros a b c [] []. split; [by etrans|congruence|congruence|by etrans..]. Qed.

Lemma Grows_inv db db' : Grows db db' → Inv db → Inv db'.
Proof.
  intros [Ht Ea Ec _ _] [[H1 H2] H3 [H4 H5]]. split; [split|..].
  - intros id a. rewrite Ea. intros E Ho. destruct (H1 _ _ E Ho) as (t & Et & Hf).
    exists t. split; [by eapply lookup_weaken|done].
  - apply (ClaimsMatch_same db); [done| |done]. intros id. unfold openAttempt. by rewrite Ea.
  - intros i a j b. rewrite Ea. apply H3.
  - split.
    + intros id a. rewrite Ea. intros E. destruct (H4 _ _ E) as [t Et].
      exists t. by eapply lookup_weaken.
    + intros id c. rewrite Ec, Ea. apply H5.
Qed.

Lemma insertTask_grows id t db db' : insertTask id t db = Ok db' → Grows db db'.
Proof.
  unfold insertTask. destruct (_ || _) eqn:E; [done|]. intros H. invert_ok.
  apply orb_false_iff in E as [[E _]%orb_false_iff _]. split; [cbn|done..].
  apply insert_subseteq. unfold present, row_matches in E. by destruct (tasks db !! id).
Qed.

Lemma insertTaskRows_grows ts db db' : insertTaskRows ts db = Ok db' → Grows db db'.
Proof.
  revert db. induction ts as [|[id t] ts IH]; intros db; cbn [insertTaskRows].
  { intros H. by invert_ok. }
  intros H. apply res_bind_ok in H as (db1 & H1 & H).
  etrans; [by eapply insertTask_grows|by apply IH].
Qed.

Lemma insertTasksBatches_grows clock order fuel c ts rows db out c' db' :
  insertTasksBatches clock order fuel c ts rows db = Ok (out, c', db') → Grows db db'.
Proof.
  revert c ts db out. induction fuel as [|fuel IH]; intros c ts db out; cbn [insertTasksBatches].
  { intros H. by invert_ok. }
  destruct ts as [|t ts]; [intros H; by invert_ok|].
  destruct (stampTasks _ _ _) as [rs c1]. intros H.
  apply res_bind_ok in H as ([stored db1] & H1 & H).
  apply res_bind_ok in H as ([[out' c2] db2] & H2 & H). invert_ok.
  etrans; [|by eapply IH]. unfold runInsertTasks in H1.
  apply res_bind_ok in H1 as (d & H1 & H3). destruct (negb _); [done|]. invert_ok.
  by eapply insertTaskRows_grows.
Qed.

Lemma insertStepsTx_grows clock c ss db out c' db' :
  insertStepsTx clock c ss db = Ok (out, c', db') → Grows db db'.
Proof.
  revert c db out. induction ss as [|[id s] ss IH]; intros c db out; cbn [insertStepsTx].
  { intros H. by invert_ok. }
  destruct (tick _ _) as [now c1]. intros H. apply res_bind_ok in H as (db1 & H1 & H).
  apply res_bind_ok in H as ([[out' c2] db2] & H2 & H). invert_ok.
  etrans; [|by eapply IH]. unfold insertStep in H1. destruct (_ || _) eqn:E; [done|]. invert_ok.
  apply orb_false_iff in E as [[E _]%orb_false_iff _]. split; [done..|cbn].
  apply insert_subseteq. unfold present, row_matches in E. by destruct (steps db !! id).
Qed.

Lemma CreateJobSubmission_grows clock order sub rows now db :
  Grows db (CreateJobSubmission clock order sub rows now db).2.
Proof.
  unfold CreateJobSubmission. apply inTx_prop; [done|]. intros r db' H.
  apply res_bind_ok in H as ([j db1] & H1 & H). apply res_bind_ok in H as (? & _ & H).
  apply res_bind_ok in H as ([[ss c1] db3] & H3 & H).
  apply res_bind_ok in H as ([[ts c2] db4] & H4 & H). apply res_bind_ok in H as (? & _ & H). invert_ok.
  etrans; [|by eapply insertTasksBatches_grows]. etrans; [|by eapply insertStepsTx_grows].
  unfold insertJobTx in H1. destruct (_ || _) eqn:E; [done|]. invert_ok.
  apply orb_false_iff in E as [[E _]%orb_false_iff _]. split; [done|done|done|cbn|done].
  apply insert_subseteq. unfold present, row_matches in E. by destruct (jobs db !! SubJobID sub).
Qed.

(** *** Deleting *)

(** Rows deleted with everything that refers to them. *)
Lemma Inv_restrict db db' :
  (∀ id a, attempts db' !! id = Some a →
     attempts db !! id = Some a ∧ tasks db' !! AttemptTaskID a = tasks db !! AttemptTaskID a) →
  (∀ id c, claims db' !! id = Some c →
     claims db !! id = Some c ∧
     attempts db' !! ClaimAttemptID c = attempts db !! ClaimAttemptID c) →
  Inv db → Inv db'.
Proof.
  intros Ha Hc [[H1 H2] H3 [H4 H5]]. split; [split|..].
  - intros id a E Ho. destruct (Ha _ _ E) as [E' ->]. by eapply H1.
  - intros id c E. destruct (Hc _ _ E) as [E' Ec]. rewrite (H2 _ _ E').
    unfold openAttempt, row_matches. by rewrite Ec.
  - intros i a j b Ei Ej. destruct (Ha _ _ Ei) as [Ei' _], (Ha _ _ Ej) as [Ej' _]. by apply H3.
  - split.
    + intros id a E. destruct (Ha _ _ E) as [E' ->]. by eapply H4.
    + intros id c E. destruct (Hc _ _ E) as [E' ->]. by eapply H5.
Qed.

Lemma lookup_delete_where_kept {A} p (m : gmap string A) k :
  (∀ x, m !! k = Some x → p k x = false) → delete_where p m !! k = m !! k.
Proof.
  intros H. destruct (m !! k) as [x|] eqn:E.
  - apply lookup_delete_where. auto.
  - destruct (delete_where p m !! k) as [x|] eqn:E'; [|done].
    apply lookup_delete_where in E' as [E' _]. congruence.
Qed.

(** What a delete leaves: rows go, with those that refer to them. *)
Record Shrinks (db db' : DB) : Prop := mkShrinks {
  shrinks_tasks : tasks db' ⊆ tasks db;
  shrinks_attempts : attempts db' ⊆ attempts db;
  shrinks_claims : claims db' ⊆ claims db;
  shrinks_jobs : jobs db' ⊆ jobs db;
  shrinks_steps : steps db' ⊆ steps db;
  shrinks_attempt_kept : ∀ id a, attempts db !! id = Some a → attempts db' !! id = Some a ∨
    (attempts db' !! id = None ∧ tasks db' !! AttemptTaskID a = None);
  shrinks_claim_kept : ∀ id c, claims db !! id = Some c → claims db' !! id = Some c ∨
    (claims db' !! id = None ∧ attempts db' !! ClaimAttemptID c = None);
}.

#[export] Instance Shrinks_refl : Reflexive Shrinks.
Proof. split; auto. Qed.

Lemma subseteq_none {A} (m m' : gmap string A) k : m' ⊆ m → m !! k = None → m' !! k = None.
Proof. intros Hs E. by eapply lookup_weaken_None. Qed.

#[export] Instance Shrinks_trans : Transitive Shrinks.
Proof.
  intros a b c [H1 H2 H3 ? ? H4 H5] [K1 K2 K3 ? ? K4 K5]. split; [by etrans..|idtac|idtac].
  - intros id x E. destruct (H4 _ _ E) as [E'|[E' Et]]; [auto|].
    right. split; by eapply subseteq_none.
  - intros id x E. destruct (H5 _ _ E) as [E'|[E' Et]]; [auto|].
    right. split; by eapply subseteq_none.
Qed.

Lemma delete_where_subseteq {A} p (m : gmap string A) : delete_where p m ⊆ m.
Proof. apply map_filter_subseteq. Qed.

Lemma lookup_delete_where_gone {A} p (m : gmap string A) k x :
  m !! k = Some x → p k x = true → delete_where p m !! k = None.
Proof.
  intros E Hp. destruct (delete_where p m !! k) as [y|] eqn:E'; [|done].
  apply lookup_delete_where in E' as [E' Hy]. congruence.
Qed.

Lemma deleteJobCascadeTx_shrinks id db : Shrinks db (deleteJobCascadeTx id db).2.
Proof.
  split; cbn; [apply delete_where_subseteq..|apply delete_subseteq|apply delete_where_subseteq|idtac|idtac].
  - intros k a E. destruct (attemptOfJob db id a) eqn:Ep.
    + right. split; [by eapply lookup_delete_where_gone|]. unfold attemptOfJob, row_matches in Ep.
      destruct (tasks db !! AttemptTaskID a) as [t|] eqn:Et; [|done].
      by eapply lookup_delete_where_gone.
    + left. by apply lookup_delete_where.
  - intros k c E. destruct (row_matches (attempts db) (ClaimAttemptID c) (attemptOfJob db id)) eqn:Ep.
    + right. split; [by eapply lookup_delete_where_gone|].
      apply row_matches_true in Ep as (a & Ea & Ep). by eapply lookup_delete_where_gone.
    + left. by apply lookup_delete_where.
Qed.

Lemma deleteJobCascadeTx_inv id db : Inv db → Inv (deleteJobCascadeTx id db).2.
Proof.
  intros HI. apply (Inv_restrict db); [..|done]; cbn.
  - intros k a [E Hn]%lookup_delete_where. split; [done|].
    apply lookup_delete_where_kept. intros t Et. unfold attemptOfJob, row_matches in Hn. cbn in Hn.
    by rewrite Et in Hn.
  - intros k c [E Hn]%lookup_delete_where. split; [done|].
    apply lookup_delete_where_kept. intros a Ea. unfold row_matches in Hn. by rewrite Ea in Hn.
Qed.

Lemma DeleteJob_inv id db : Inv db → Inv (DeleteJob id db).2.
Proof.
  intros HI. unfold DeleteJob. apply inTx_prop; [done|]. intros r db' H.
  pose proof (deleteJobCascadeTx_inv id db HI) as HC.
  destruct (deleteJobCascadeTx id db) as [[] d]; by invert_ok.
Qed.

Lemma DeleteJob_shrinks id db : Shrinks db (DeleteJob id db).2.
Proof.
  unfold DeleteJob. apply inTx_prop; [done|]. intros r db' H.
  pose proof (deleteJobCascadeTx_shrinks id db) as HC.
  destruct (deleteJobCascadeTx id db) as [[] d]; by invert_ok.
Qed.

Lemma purgeExpiredJob_inv id cutoff f db : Inv db → Inv (purgeExpiredJob cutoff f id db).2.
Proof.
  intros HI. unfold purgeExpiredJob. apply inTx_prop; [done|]. intros r db' H.
  destruct (row_matches _ _ _); [|by invert_ok]. injection H as <- <-. by apply deleteJobCascadeTx_inv.
Qed.

Lemma purgeExpiredJob_shrinks id cutoff f db : Shrinks db (purgeExpiredJob cutoff f id db).2.
Proof.
  unfold purgeExpiredJob. apply inTx_prop; [done|]. intros r db' H.
  destruct (row_matches _ _ _); [|by invert_ok]. injection H as <- <-. apply deleteJobCascadeTx_shrinks.
Qed.

(** *** Every command *)

(** Writes of other tables inside a transaction. *)
Lemma inTx_other {A} (body : DB → res StoreErr (A * txOutcome * DB)) db :
  (∀ a db', body db = Ok (a, txCommit, db') →
     tasks db' = tasks db ∧ attempts db' = attempts db ∧ claims db' = claims db) →
  Keeps db (inTx body db).2.
Proof.
  intros H. apply inTx_prop; [done|]. intros a db' E. destruct (H _ _ E) as (? & ? & ?).
  by apply Keeps_other.
Qed.

Lemma run_keeps o db :
  allowed o db = true →
  match o with
  | OpSubmit _ _ _ _ _ | OpLease _ | OpDeleteJob _ | OpPurgeJob _ _ _ => True
  | _ => Keeps db (run o db)
  end.
Proof.
  intros Ha. destruct o; cbn [run]; try done; try (by apply Keeps_other).
  - unfold UpdateJob. destruct (jobs db !! id); [|done]. destruct (_ && _); [|done].
    by apply Keeps_other.
  - apply inTx_other. intros a db' H. destruct (row_matches _ _ _); by invert_ok.
  - apply inTx_other. intros a db' H. by invert_ok.
  - apply CancelBlockedJob_keeps.
  - apply inTx_other. intros a db' H. invert_ok. repeat case_in H; by invert_ok.
  - apply inTx_other. intros a db' H. invert_ok. repeat case_in H; by invert_ok.
  - by apply movePendingStep_keeps.
  - by apply movePendingStep_keeps.
  - apply RetryTasks_keeps.
  - apply StartTaskAttempt_keeps.
  - apply RecordAttemptProgress_keeps.
  - cbn in Ha. apply andb_prop in Ha as [Ha Ht]. apply negb_true_iff in Ha.
    apply bool_decide_eq_false in Ha. by apply CompleteTaskAttempt_keeps.
  - apply RecordTaskFailure_keeps.
  - apply RequeueTaskForRetry_keeps. cbn in Ha. by apply negb_true_iff in Ha.
  - apply ReclaimTaskAttempt_keeps.
  - apply reclaimStaleBatch_keeps.
  - apply SetTaskUnschedulableReason_keeps.
  - apply CancelJobExecution_keeps.
  - apply CancelTaskExecution_keeps.
  - apply offlineWorker_keeps.
  - apply OfflineWorker_keeps.
  - apply RegisterWorker_keeps.
  - destruct (CreateTaskLog_writes id log now db) as [m ->]. by apply Keeps_other.
  - destruct (CreateComputeLocation_writes id name db) as [m ->]. by apply Keeps_other.
Qed.

(** What a command does to the tables of tasks, attempts and claims: it rewrites
    rows, adds or deletes some with their jobs, or leases. *)
Lemma run_kind o db :
  allowed o db = true →
  Evolves db (run o db) ∨ Grows db (run o db) ∨ Shrinks db (run o db) ∨
  ∃ req aid a, o = OpLease req ∧ LeaseTask req db = (Ok (LeaseLeased aid a), run o db).
Proof.
  intros Hal. pose proof (run_keeps o db Hal) as HK.
  destruct o; try (left; by destruct HK); cbn [run].
  - right; left. apply CreateJobSubmission_grows.
  - destruct (LeaseTask req db) as [r db'] eqn:E. cbn [snd].
    destruct (LeaseTask_outcome _ _ _ _ E) as [(aid & a & ->)|[-> _]].
    + right; right; right. by exists req, aid, a.
    + by left.
  - right; right; left. apply DeleteJob_shrinks.
  - right; right; left. apply purgeExpiredJob_shrinks.
Qed.

Lemma run_inv o db : allowed o db = true → Inv db → Inv (run o db).
Proof.
  intros Ha HI. pose proof (run_keeps o db Ha) as HK.
  destruct o; try (by apply (Keeps_inv db)); cbn [run].
  - eapply Grows_inv; [apply CreateJobSubmission_grows|done].
  - by apply LeaseTask_inv.
  - by apply DeleteJob_inv.
  - by apply purgeExpiredJob_inv.
Qed.

Lemma reachable_inv db : reachable db → Inv db.
Proof. induction 1; [apply Inv_empty|by apply run_inv]. Qed.

(** ** Properties of every reachable database *)

(** A farm, a worker and a job submitted, one task leased with a pool slot and
    running. *)
Definition sampleOps : list Op :=
  [OpAdmin (farms Sample.db) (queues Sample.db) (pools Sample.db) ∅ ∅;
   OpRegister "w" (Sample.worker false) 2;
   OpSubmit (λ i, Z.of_nat i + 5) id
     (mkJobSubmission "j" (Sample.job JobPending) [] [("s"%string, Sample.stepRow StepReady)]
        [("t1"%string, Sample.task TaskReady 0); ("t2"%string, Sample.task TaskReady 0)]) 64 5;
   OpLease (sampleLease "t1" "a1" "w" "c1");
   OpStart "a1" "t1" "sess" 11].

Definition sampleReached : DB := default emptyDB (run_all sampleOps emptyDB).

Lemma sampleReached_reachable : reachable sampleReached.
Proof.
  unfold sampleReached. destruct (run_all sampleOps emptyDB) as [db|] eqn:E; [|constructor].
  by apply (run_all_reachable sampleOps emptyDB); [constructor|].
Qed.

Lemma in_flight_not_terminal s : in_flight s = true → task_terminal s = false.
Proof. by destruct s. Qed.

(** C1. Usage claims and attempts never drift apart: in every reachable database
    the diagnostic query [ClaimInvariantViolations] is empty, and a claim is
    active exactly while its attempt is running. *)
Theorem claims_match_attempts db :
  reachable db →
  ClaimInvariantViolations db = [] ∧
  (∀ id c, claims db !! id = Some c →
     (claim_active c = true ↔
      ∃ a, attempts db !! ClaimAttemptID c = Some a ∧ AttemptStatusOf a = AttemptRunning)).
Proof.
  intros [[Hf Hc] _ _]%reachable_inv. split.
  - unfold ClaimInvariantViolations.
    assert (matching (claimViolation db) (claims db) = ∅) as ->; [|by rewrite map_to_list_empty].
    apply map_empty. intros id. destruct (matching _ _ !! id) as [c|] eqn:E; [|done].
    apply lookup_matching in E as [E Hv]. exfalso. unfold claimViolation in Hv.
    apply andb_prop in Hv as [Ha Hv]. rewrite (Hc _ _ E) in Ha.
    unfold openAttempt, row_matches in Ha. destruct (attempts db !! _) as [a|] eqn:Ea; [|done].
    rewrite Ha in Hv. cbn in Hv. destruct (Hf _ _ Ea Ha) as (t & Et & Hfl).
    unfold row_matches in Hv. rewrite Et, in_flight_not_terminal in Hv; done.
  - intros id c E. rewrite (Hc _ _ E). unfold openAttempt. rewrite row_matches_true.
    unfold attempt_open. setoid_rewrite bool_decide_eq_true. done.
Qed.

Lemma claims_match_attempts_witness :
  reachable sampleReached ∧
  (∃ c, claims sampleReached !! "c1"%string = Some c ∧ claim_active c = true ∧
     ∃ a, attempts sampleReached !! ClaimAttemptID c = Some a ∧ AttemptStatusOf a = AttemptRunning) ∧
  ClaimInvariantViolations sampleReached = [].
Proof.
  pose proof (claims_match_attempts _ sampleReached_reachable) as [Hv Hc].
  split; [exact sampleReached_reachable|]. split; [|exact Hv].
  destruct (claims sampleReached !! "c1"%string) as [c|] eqn:E; [|by vm_compute in E].
  exists c. assert (claim_active c = true) as Ha.
  { assert (claims sampleReached !! "c1"%string = Some (mkUsageClaim "p" "a1" 10 None)) as E'
      by by vm_compute. rewrite E in E'. by injection E' as ->. }
  split; [done|]. split; [done|]. by apply (Hc _ _ E).
Defined.

(** C2. No task runs twice at once: in every reachable database two running
    attempts of one task are the same attempt, a running attempt has the
    highest number of its task, its task is assigned or running, and so
    [ListOpenAttempts] lists every running attempt. *)
Theorem one_running_attempt db :
  reachable db →
  (∀ i a j b, attempts db !! i = Some a → attempts db !! j = Some b →
     AttemptTaskID a = AttemptTaskID b →
     AttemptStatusOf a = AttemptRunning → AttemptStatusOf b = AttemptRunning → i = j) ∧
  ListOpenAttempts db = matching (λ _ a, bool_decide (AttemptStatusOf a = AttemptRunning)) (attempts db).
Proof.
  intros [[Hf _] HN _]%reachable_inv. split.
  - intros i a j b Ei Ej Hk Ha Hb.
    destruct (HN i a j b Ei Ej Hk) as [Hi H1].
    destruct (HN j b i a Ej Ei (eq_sym Hk)) as [_ H2]. apply Hi.
    apply Z.le_antisymm; [apply H2|apply H1]; by apply bool_decide_eq_true.
  - apply map_eq. intros id. apply option_eq. intros a. unfold ListOpenAttempts.
    rewrite !lookup_matching. fold (attempt_open a). split.
    + intros [E [[Ho _]%andb_prop _]%andb_prop]. done.
    + intros [E Ho]. split; [done|]. rewrite Ho, (open_latest db id a) by done.
      destruct (Hf _ _ E Ho) as (t & Et & Hfl). unfold row_matches. by rewrite Et, Hfl.
Qed.

Lemma one_running_attempt_witness :
  reachable sampleReached ∧ is_Some (ListOpenAttempts sampleReached !! "a1"%string).
Proof.
  split; [exact sampleReached_reachable|].
  rewrite (proj2 (one_running_attempt _ sampleReached_reachable)). vm_compute. eauto.
Defined.

(** History is append-only: whatever command runs, a closed attempt and a
    released claim keep every column of their rows, unless the attempt is
    deleted along with its task and the claim along with its attempt. *)
Theorem closed_rows_are_final o db :
  allowed o db = true →
  (∀ id a, attempts db !! id = Some a → AttemptStatusOf a ≠ AttemptRunning →
     attempts (run o db) !! id = Some a ∨
     (attempts (run o db) !! id = None ∧ tasks (run o db) !! AttemptTaskID a = None)) ∧
  (∀ id c, claims db !! id = Some c → ReleasedAt c ≠ None →
     claims (run o db) !! id = Some c ∨
     (claims (run o db) !! id = None ∧ attempts (run o db) !! ClaimAttemptID c = None)).
Proof.
  intros Hal.
  destruct (run_kind o db Hal) as [H|[H|[H|(req & aid & x & _ & H)]]].
  - destruct H as [_ Ha Hc]. split.
    + intros id a E Hs. left. destruct (pointwise_some _ _ _ _ _ Ha E) as (a' & E' & [_ Hk]).
      rewrite E'. f_equal. apply Hk. by apply bool_decide_eq_false.
    + intros id c E Hs. left. destruct (pointwise_some _ _ _ _ _ Hc E) as (c' & E' & (_ & _ & Hk)).
      rewrite E'. f_equal. apply Hk. unfold claim_active. by destruct (ReleasedAt c).
  - destruct H as [_ Ha Hc _ _]. rewrite Ha, Hc. auto.
  - destruct H as [_ _ _ _ _ Ha Hc]. split; auto.
  - apply LeaseTask_leased in H as (t & j & q & f & _ & [_ _ Hfr _ _ Ha Hold _ _ _] & _). split.
    + intros id y E Hs. left. rewrite Ha. rewrite lookup_insert_ne; [done|]. intros <-. congruence.
    + intros id c E Hs. left. by eapply lookup_weaken.
Qed.

Lemma closed_rows_are_final_witness :
  ∃ db, attempts db !! "a1"%string ≠ None ∧
    (∀ a, attempts db !! "a1"%string = Some a → AttemptStatusOf a ≠ AttemptRunning →
       attempts (run (OpRecordFailure "a1" "t1" (Some 1) "" "boom" 30 30) db) !! "a1"%string = Some a ∨
       (attempts (run (OpRecordFailure "a1" "t1" (Some 1) "" "boom" 30 30) db) !! "a1"%string = None ∧
        tasks (run (OpRecordFailure "a1" "t1" (Some 1) "" "boom" 30 30) db) !! AttemptTaskID a = None)).
Proof.
  exists (run (OpCancelJob "j" "stop" 20) sampleReached). split; [by vm_compute|].
  intros a E Hs.
  exact (proj1 (closed_rows_are_final (OpRecordFailure "a1" "t1" (Some 1) "" "boom" 30 30)
    (run (OpCancelJob "j" "stop" 20) sampleReached) eq_refl) _ _ E Hs).
Defined.
