(* ===== verification/Ledger.v ===== *)
(** * The store as a ledger of running work

    What the store promises the scheduler, without rows, statuses or counters:
    a ledger of running attempts and of the pool slots they hold.  An attempt
    starts on a task nobody runs, with slots its pools have free; running
    attempts finish, and their slots go with them.  Every command of the store
    is one step of the ledger, so the store refines it. *)

From S2P Require Import Prelude Schema Sample Finalize Attempts Lease Jobs Workers Evolve Keeps StoreInv.
Open Scope Z_scope.

(** ** The abstract machine *)

Record Ledger := mkLedger {
  running : gmap string string;                (* attempt to task *)
  held : gmap string (string * string);        (* claim to attempt and pool *)
}.

(** The slots of a pool in use. *)
Definition inUse (h : gmap string (string * string)) (pool : string) : Z :=
  count_where (λ _ x, bool_decide (x.2 = pool)) h.

Definition finish (S : gset string) (l : Ledger) : Ledger :=
  mkLedger (filter (λ kx, kx.1 ∉ S) (running l)) (filter (λ kx, kx.2.1 ∉ S) (held l)).

(** [caps] is each pool's capacity, zero for no limit. *)
Inductive ledger_step (caps : gmap string Z) (l : Ledger) : Ledger → Prop :=
  | ledger_start a t new :
      running l !! a = None →
      (∀ b, running l !! b ≠ Some t) →
      (∀ c x, new !! c = Some x → x.1 = a ∧
         ∃ cap, caps !! x.2 = Some cap ∧ (0 < cap → inUse (new ∪ held l) x.2 ≤ cap)) →
      new ##ₘ held l →
      ledger_step caps l (mkLedger (<[a := t]> (running l)) (new ∪ held l))
  | ledger_finish S :
      ledger_step caps l (finish S l).

(** In a run of the ledger a task has one attempt at most and only running
    attempts hold slots. *)
Definition exclusive (l : Ledger) : Prop :=
  (∀ a b t, running l !! a = Some t → running l !! b = Some t → a = b) ∧
  (∀ c x, held l !! c = Some x → is_Some (running l !! x.1)).

Lemma ledger_step_exclusive caps l l' : ledger_step caps l l' → exclusive l → exclusive l'.
Proof.
  intros [a t new Hfresh Hfree Hnew _|S] [H1 H2]; split; cbn.
  - intros b c t' Eb Ec. apply lookup_insert_Some in Eb as [[Hb Ht]|[Hb Eb]];
      apply lookup_insert_Some in Ec as [[Hc Ht']|[Hc Ec]]; subst; eauto.
    + by destruct (Hfree c).
    + by destruct (Hfree b).
  - intros c x [E|[_ E]]%lookup_union_Some_raw.
    + destruct (Hnew c x E) as [Hx _]. rewrite Hx, lookup_insert_eq. eauto.
    + destruct (H2 c x E) as [t' E']. rewrite lookup_insert_ne by congruence. eauto.
  - intros a b t [Ea _]%map_lookup_filter_Some [Eb _]%map_lookup_filter_Some. eauto.
  - intros c x [E Hx]%map_lookup_filter_Some. destruct (H2 c x E) as [t Et]. exists t.
    by apply map_lookup_filter_Some.
Qed.

(** ** The abstraction *)

Definition runningTask (a : TaskAttempt) : option string :=
  if attempt_open a then Some (AttemptTaskID a) else None.

Definition heldSlot (c : UsageClaim) : option (string * string) :=
  if claim_active c then Some (ClaimAttemptID c, ClaimPoolID c) else None.

Definition ledger (db : DB) : Ledger :=
  mkLedger (omap runningTask (attempts db)) (omap heldSlot (claims db)).

Definition capacity (db : DB) : gmap string Z := MaxConcurrent <$> pools db.

Lemma running_some db k t :
  running (ledger db) !! k = Some t ↔
  ∃ a, attempts db !! k = Some a ∧ attempt_open a = true ∧ AttemptTaskID a = t.
Proof.
  cbn. rewrite lookup_omap_Some. unfold runningTask. split.
  - intros (a & Ho & E). exists a. destruct (attempt_open a); naive_solver.
  - intros (a & E & Ho & Ht). exists a. rewrite Ho. naive_solver.
Qed.

Lemma held_some db k x :
  held (ledger db) !! k = Some x ↔
  ∃ c, claims db !! k = Some c ∧ claim_active c = true ∧ x = (ClaimAttemptID c, ClaimPoolID c).
Proof.
  cbn. rewrite lookup_omap_Some. unfold heldSlot. split.
  - intros (c & Ho & E). exists c. destruct (claim_active c); naive_solver.
  - intros (c & E & Ho & Ht). exists c. rewrite Ho. naive_solver.
Qed.

(** The count the lease checks is the ledger's. *)
Lemma inUse_ledger db pool : inUse (held (ledger db)) pool = ActiveClaimCount db pool.
Proof.
  unfold inUse, ActiveClaimCount. apply Z.le_antisymm; apply count_where_mono.
  - intros k x E Hx. apply held_some in E as (c & E & Ha & ->). exists c. split; [done|].
    cbn in Hx. apply bool_decide_eq_true in Hx. rewrite Ha, Hx. by rewrite bool_decide_true.
  - intros k c E Hc. apply andb_prop in Hc as [Hp Ha]. apply bool_decide_eq_true in Hp.
    exists (ClaimAttemptID c, ClaimPoolID c). split; [apply held_some; eauto|].
    by rewrite bool_decide_true.
Qed.

(** ** The refinement *)

(** Rows leave the ledger together: an attempt that stays open kept its task,
    and its claims kept theirs. *)
Record Settles (db db' : DB) : Prop := mkSettles {
  settles_attempt : ∀ k a', attempts db' !! k = Some a' → attempt_open a' = true →
    ∃ a, attempts db !! k = Some a ∧ attempt_open a = true ∧ AttemptTaskID a = AttemptTaskID a';
  settles_claim : ∀ k c', claims db' !! k = Some c' → claim_active c' = true →
    ∃ c, claims db !! k = Some c ∧ claim_active c = true ∧
         ClaimAttemptID c = ClaimAttemptID c' ∧ ClaimPoolID c = ClaimPoolID c';
  settles_kept : ∀ k c, claims db !! k = Some c → openAttempt db' (ClaimAttemptID c) = true →
    ∃ c', claims db' !! k = Some c' ∧
          ClaimAttemptID c' = ClaimAttemptID c ∧ ClaimPoolID c' = ClaimPoolID c;
}.

Lemma Evolves_settles db db' : Evolves db db' → Settles db db'.
Proof.
  intros [_ Ha Hc]. split.
  - intros k a' E Ho. destruct (pointwise_some_inv _ _ _ _ _ Ha E) as (a & Ea & [H1 _] & H3).
    exists a. split; [done|]. destruct (attempt_open a) eqn:E'; [done|].
    specialize (H3 eq_refl). congruence.
  - intros k c' E Ho. destruct (pointwise_some_inv _ _ _ _ _ Hc E) as (c & Ec & H1 & H2 & H3).
    exists c. split; [done|]. destruct (claim_active c) eqn:E'; [done|].
    specialize (H3 eq_refl). congruence.
  - intros k c E _. destruct (pointwise_some _ _ _ _ _ Hc E) as (c' & Ec & H1 & H2 & _). eauto.
Qed.

Lemma Grows_settles db db' : Grows db db' → Settles db db'.
Proof. intros [_ Ha Hc _ _]. split; rewrite ?Ha, ?Hc; eauto. Qed.

Lemma Shrinks_settles db db' : Shrinks db db' → Settles db db'.
Proof.
  intros [_ Ha Hc _ _ _ Hk]. split.
  - intros k a' E Ho. exists a'. by eapply lookup_weaken in E.
  - intros k c' E Ho. exists c'. by eapply lookup_weaken in E.
  - intros k c E Ho. destruct (Hk k c E) as [E'|[_ E']]; [eauto|].
    unfold openAttempt, row_matches in Ho. by rewrite E' in Ho.
Qed.

Lemma openAttempt_running db k : openAttempt db k = true ↔ is_Some (running (ledger db) !! k).
Proof.
  unfold openAttempt, row_matches. split.
  - destruct (attempts db !! k) as [a|] eqn:E; [|done]. intros Ho.
    exists (AttemptTaskID a). apply running_some. eauto.
  - intros [t (a & -> & Ho & _)%running_some]. done.
Qed.

(** What settles is a finish of the attempts that are no longer open. *)
Lemma Settles_finish db db' :
  Settles db db' → ClaimsMatch db → ClaimsMatch db' →
  ledger db' = finish (dom (running (ledger db)) ∖ dom (running (ledger db'))) (ledger db).
Proof.
  intros [Ha Hc Hk] Hm Hm'. set (S := _ ∖ _).
  assert (∀ k, is_Some (running (ledger db) !! k) → k ∉ S ↔ is_Some (running (ledger db') !! k)) as HS.
  { intros k [t E]%elem_of_dom%elem_of_dom. subst S. rewrite elem_of_difference, !elem_of_dom.
    split; [|naive_solver]. intros Hn. destruct (running (ledger db') !! k) eqn:E'; [eauto|].
    exfalso. apply Hn. split; [eauto|]. by intros [? ?]. }
  assert (running (ledger db') = filter (λ kx, kx.1 ∉ S) (running (ledger db))) as Hr.
  { apply map_eq. intros k. apply option_eq. intros t. rewrite map_lookup_filter_Some. cbn [fst]. split.
    - intros E. pose proof E as (a' & Ea & Ho & <-)%running_some.
      destruct (Ha k a' Ea Ho) as (a & Ea' & Ho' & Et).
      assert (running (ledger db) !! k = Some (AttemptTaskID a')) as Er by (apply running_some; eauto).
      split; [done|]. apply HS; eauto.
    - intros [E Hn]. apply HS in Hn as [t' E']; [|eauto]. pose proof E' as (a' & Ea & Ho & <-)%running_some.
      destruct (Ha k a' Ea Ho) as (a & Ea' & Ho' & Et).
      apply running_some in E as (a2 & Ea2 & _ & <-). congruence. }
  assert (held (ledger db') = filter (λ kx, kx.2.1 ∉ S) (held (ledger db))) as Hh.
  { apply map_eq. intros k. apply option_eq. intros x. rewrite map_lookup_filter_Some. cbn [snd]. split.
    - intros (c' & Ec & Ho & ->)%held_some. destruct (Hc k c' Ec Ho) as (c & Ec' & Ho' & E1 & E2).
      split; [apply held_some; exists c; split_and!; [done..|congruence]|]. cbn [fst].
      rewrite (Hm' k c' Ec) in Ho. rewrite (Hm k c Ec'), E1 in Ho'.
      apply HS; by apply openAttempt_running.
    - intros [(c & Ec & Ho & ->)%held_some Hn]. cbn [fst] in Hn. rewrite (Hm k c Ec) in Ho.
      apply HS in Hn; [|by apply openAttempt_running]. apply openAttempt_running in Hn.
      destruct (Hk k c Ec Hn) as (c' & Ec' & E1 & E2). apply held_some. exists c'.
      rewrite (Hm' k c' Ec'), E1. split_and!; [done..|congruence]. }
  destruct (ledger db') as [r h]. unfold finish. cbn [running held] in *. congruence.
Qed.

(** The claims of a lease that were not there before. *)
Definition newSlots (db db' : DB) : gmap string (string * string) :=
  filter (λ kx, held (ledger db) !! kx.1 = None) (held (ledger db')).

Lemma newSlots_union db db' :
  claims db ⊆ claims db' →
  newSlots db db' ##ₘ held (ledger db) ∧ newSlots db db' ∪ held (ledger db) = held (ledger db').
Proof.
  intros Hs. assert (newSlots db db' ##ₘ held (ledger db)) as Hd.
  { apply map_disjoint_spec. intros k x y [_ E]%map_lookup_filter_Some E'. cbn [fst] in E. congruence. }
  split; [done|]. apply map_eq. intros k. apply option_eq. intros x.
  rewrite lookup_union_Some by done. unfold newSlots. rewrite map_lookup_filter_Some. cbn [fst]. split.
  - intros [[E _]|(c & E & Ho & ->)%held_some]; [done|]. apply held_some. exists c.
    split; [by eapply lookup_weaken|done].
  - intros E. destruct (held (ledger db) !! k) as [y|] eqn:E'; [right|by left].
    pose proof E as (c & Ec & _ & ->)%held_some. apply held_some in E' as (c' & Ec' & _ & ->).
    eapply lookup_weaken in Ec'; [|exact Hs]. congruence.
Qed.

Lemma Leased_start req db db' aid a :
  Inv db → LeaseTask req db = (Ok (LeaseLeased aid a), db') →
  ledger_step (capacity db) (ledger db) (ledger db').
Proof.
  intros [[Hfl _] _ _] (t & j & q & f & _ & HL & _ & _ & _ & Hp)%LeaseTask_leased.
  destruct HL as [Ht Hrd Hfr Ea _ Eas Hold Hnew _ _].
  destruct (newSlots_union db db' Hold) as [Hd Hu].
  assert (running (ledger db') = <[ReqAttemptID req := ReqTaskID req]> (running (ledger db))) as Hr.
  { cbn. rewrite Eas. by rewrite (omap_insert_Some _ _ _ _ (ReqTaskID req)) by by subst a. }
  assert (ledger db' = mkLedger (<[ReqAttemptID req := ReqTaskID req]> (running (ledger db)))
                                (newSlots db db' ∪ held (ledger db))) as ->.
  { rewrite <- Hr, Hu. by destruct (ledger db'). }
  constructor; [| |intros k x E|done].
  - cbn. by rewrite lookup_omap, Hfr.
  - intros b (x & Eb & Ho & Ex)%running_some. destruct (Hfl b x Eb Ho) as (t' & Et & Hin).
    rewrite Ex, Ht in Et. injection Et as <-. by rewrite Hrd in Hin.
  - rewrite Hu, inUse_ledger. apply map_lookup_filter_Some in E as [E En]. cbn [fst] in En.
    apply held_some in E as (c & Ec & Ho & ->). cbn [fst snd].
    destruct (Hnew k c Ec) as [Ec'|(r & Hr' & -> & ->)].
    + exfalso. apply eq_None_not_Some in En. apply En. eexists. apply held_some. eauto.
    + cbn. split; [done|]. destruct (Hp r Hr') as (p & Ep & Hc). exists (MaxConcurrent p).
      split; [|done]. unfold capacity. by rewrite lookup_fmap, Ep.
Qed.


