(* ===== verification/Transitions.v ===== *)
(** * Status changes follow the state machines

    Every command's status changes, checked against the transition tables of
    [store/statemachine.go] and [openjd/statemachine.go]. *)

From S2P Require Import Prelude Schema Sample Finalize Attempts Lease Jobs Workers Catalog Evolve Keeps StoreInv.
Open Scope Z_scope.

(** Every row both tables have changes its status by [R]. *)
Definition changes {A S} (st : A → S) (R : S → S → Prop) (m m' : gmap string A) : Prop :=
  ∀ k x x', m !! k = Some x → m' !! k = Some x' → R (st x) (st x').

Lemma changes_refl {A S} (st : A → S) (R : S → S → Prop) m m' :
  (∀ s, R s s) → m' = m → changes st R m m'.
Proof. intros HR -> k x x' E E'. assert (x = x') as -> by congruence. apply HR. Qed.

Lemma changes_update {A S} (st : A → S) (R : S → S → Prop) p f m m' :
  (∀ s, R s s) → m' = update_where p f m →
  (∀ k x, m !! k = Some x → p k x = true → R (st x) (st (f k x))) → changes st R m m'.
Proof.
  intros HR -> Hf k x x' E E'. rewrite (update_where_some _ _ _ _ _ E) in E'.
  injection E' as <-. destruct (p k x) eqn:Ep; auto.
Qed.

Lemma changes_subseteq {A S} (st : A → S) (R : S → S → Prop) m m' :
  (∀ s, R s s) → m' ⊆ m → changes st R m m'.
Proof.
  intros HR Hs k x x' E E'. pose proof (lookup_weaken _ _ _ _ E' Hs). simplify_eq. apply HR.
Qed.

Lemma changes_supseteq {A S} (st : A → S) (R : S → S → Prop) m m' :
  (∀ s, R s s) → m ⊆ m' → changes st R m m'.
Proof.
  intros HR Hs k x x' E E'. pose proof (lookup_weaken _ _ _ _ E Hs). simplify_eq. apply HR.
Qed.

(** Two writes in a row, the second keeping [R]'s targets. *)
Lemma changes_trans {A S} (st : A → S) (R1 R2 R : S → S → Prop) m m1 m2 :
  (∀ k, is_Some (m !! k) → is_Some (m2 !! k) → is_Some (m1 !! k)) →
  (∀ s t u, R1 s t → R2 t u → R s u) →
  changes st R1 m m1 → changes st R2 m1 m2 → changes st R m m2.
Proof.
  intros Hd HR H1 H2 k x x' E E'. destruct (Hd k) as [y Ey]; [eauto..|].
  eapply HR; [by eapply H1|by eapply H2].
Qed.

(** ** Tasks *)

(** A legal arrow of the task machine, or no change. *)
Definition task_arrow (s s' : TaskStatus) : Prop :=
  s' = s ∨ ValidateTaskTransition s s' = Ok tt.

(** A manual retry also revives. *)
Definition task_change (o : Op) (s s' : TaskStatus) : Prop :=
  task_arrow s s' ∨
  match o with
  | OpRetryTasks _ _ _ => retryable s = true ∧ task_waiting s' = true
  | _ => False
  end.

Abbreviation task_changes R db db' := (changes TaskStatusOf R (tasks db) (tasks db')).

Lemma task_arrow_refl s : task_arrow s s.
Proof. by left. Qed.

Lemma task_arrow_ready s : in_flight s = true → task_arrow s TaskReady.
Proof. right. by destruct s. Qed.

Lemma task_arrow_canceled s : cancelable s = true → task_arrow s TaskCanceled.
Proof. right. by destruct s. Qed.

Lemma task_arrow_valid s s' : s' ∈ validTaskTransitions s → task_arrow s s'.
Proof. intros H. right. unfold ValidateTaskTransition. by rewrite bool_decide_true. Qed.

#[local] Hint Resolve task_arrow_refl task_arrow_ready task_arrow_canceled : core.

Lemma tasks_closeTasks ids s m n db : tasks (closeTasksAttemptsTx ids s m n db) = tasks db.
Proof. unfold closeTasksAttemptsTx. by case_bool_decide. Qed.

Ltac task_tx := apply inTx_prop; [by apply changes_refl|]; intros ? db' Htx; invert_ok.

Ltac split_guard :=
  cbv beta in *; repeat match goal with
  | H : _ && _ = true |- _ => apply andb_prop in H as [? ?]
  | H : bool_decide _ = true |- _ => apply bool_decide_eq_true in H
  end.

Lemma CompleteTaskAttempt_tasks c now db :
  task_changes task_arrow db (CompleteTaskAttempt c now db).2.
Proof.
  unfold CompleteTaskAttempt. apply inTx_prop; [by apply changes_refl|]. intros r db' Htx.
  apply res_bind_ok in Htx as (t0 & _ & Htx). apply res_bind_ok in Htx as ([r1 db1] & Hok0 & Htx).
  invert_ok.
  unfold applyCompletionTx in Hok0. destruct (negb _); [by invert_ok; apply changes_refl|].
  apply res_bind_ok in Hok0 as (t & _ & H).
  destruct (negb _ && negb _); [by invert_ok; apply changes_refl|].
  destruct (casTaskStatusTx _ _ _ _) as [[r' d]|e] eqn:Ecas;
    [|by destruct e; invert_ok; apply changes_refl].
  invert_ok. apply (changes_trans _ task_arrow eq _ _ (tasks d)); [..|].
  - intros k [x Ex] _. apply casTaskStatusTx_ok in Ecas as (t' & _ & [(_ & -> & _)|(_ & -> & _)]).
    + eauto.
    + cbn in *. rewrite (update_where_some _ _ _ _ _ Ex). eauto.
  - by intros s s' u H1 <-.
  - apply casTaskStatusTx_ok in Ecas as (t' & _ & [(_ & -> & _)|(_ & -> & Hv)]).
    + by apply changes_refl.
    + eapply changes_update; [done|reflexivity|]. intros k x _ Hp. split_guard. subst. cbn.
      apply task_arrow_valid. match goal with H : TaskStatusOf x = _ |- _ => by rewrite H end.
  - case_bool_decide; [by apply changes_refl|]. by eapply changes_update.
Qed.

Lemma reclaim_change p now db m :
  (∀ k t, p k t = true → in_flight (TaskStatusOf t) = true) →
  m = update_where p (λ _, reclaimTask now) (tasks db) → changes TaskStatusOf task_arrow (tasks db) m.
Proof. intros Hp ->. eapply changes_update; [done|done|]. intros k t _ Ep. cbn. eauto. Qed.

Lemma offlineWorker_tasks id g now db : task_changes task_arrow db (offlineWorker id g now db).2.
Proof.
  unfold offlineWorker. task_tx. destruct (negb _); [by invert_ok|].
  unfold reclaimWorkerTasksTx in Htx. cbn in Htx. invert_ok. rewrite tasks_closeTasks. cbn.
  eapply (reclaim_change _ now); [|done]. intros k t E. by apply andb_prop in E as [_ E].
Qed.

Lemma reclaimStaleBatch_tasks b cutoff now db :
  task_changes task_arrow db (reclaimStaleBatch b cutoff now db).2.
Proof.
  unfold reclaimStaleBatch. task_tx. case_bool_decide; [by invert_ok|]. invert_ok.
  rewrite tasks_closeTasks. eapply (reclaim_change _ now); [|cbn; done]. intros k t Ep.
  unfold staleAssigned in Ep. split_guard. by match goal with H : TaskStatusOf t = _ |- _ => rewrite H end.
Qed.

Lemma movePendingStep_tasks id sTo tTo reason now db :
  tTo ∈ [TaskReady; TaskCanceled] →
  task_changes task_arrow db (movePendingStep id sTo tTo reason now db).2.
Proof.
  intros HtTo. unfold movePendingStep. task_tx. destruct (_ && _); [by invert_ok|].
  destruct (negb _); [by invert_ok|]. invert_ok. eapply changes_update; [done|cbn; done|].
  intros k t _ Ep. unfold stepPendingTask in Ep. split_guard. cbn. apply task_arrow_valid.
  match goal with H : TaskStatusOf t = _ |- _ => rewrite H end. done.
Qed.

Lemma RegisterWorker_tasks id w now db :
  task_changes task_arrow db (RegisterWorker id w now db).2.
Proof.
  unfold RegisterWorker.
  match goal with |- changes _ _ _ (tasks (match inTx ?b db with _ => _ end).2) =>
    assert (task_changes task_arrow db (inTx b db).2) as H;
      [|by destruct (inTx b db) as [[[[? ?] []]|] ?]]
  end.
  task_tx. destruct (match workers db !! id with Some _ => _ | None => _ end);
    [by invert_ok; apply changes_refl|].
  destruct (_ || _); [by invert_ok|].
  destruct (restarted _ _); [|by invert_ok; apply changes_refl].
  unfold reclaimWorkerTasksTx in Htx. cbn in Htx. invert_ok. rewrite tasks_closeTasks. cbn.
  eapply (reclaim_change _ now); [|done]. intros k t E. by apply andb_prop in E as [_ E].
Qed.

Lemma changes_weaken {A S} (st : A → S) (R R' : S → S → Prop) m m' :
  (∀ s s', R s s' → R' s s') → changes st R m m' → changes st R' m m'.
Proof. intros HR H k x x' E E'. eauto. Qed.

Lemma LeaseTask_tasks req db : task_changes task_arrow db (LeaseTask req db).2.
Proof.
  destruct (LeaseTask req db) as [r db'] eqn:E.
  destruct (LeaseTask_outcome _ _ _ _ E) as [(aid & a & ->)|[-> _]]; [|by apply changes_refl].
  apply LeaseTask_leased in E as (t & j & q & f & _ & [Ht Hs _ _ Et _ _ _ _ _] & _).
  intros k x x' E E'. cbn in E'. rewrite Et in E'. destruct (decide (ReqTaskID req = k)) as [<-|Hne].
  - rewrite lookup_insert_eq in E'. injection E' as <-. simplify_eq. rewrite Hs. by right.
  - rewrite lookup_insert_ne in E' by done. simplify_eq. by left.
Qed.

Lemma CancelBlockedJob_tasks id reason now db :
  task_changes task_arrow db (CancelBlockedJob id reason now db).2.
Proof.
  unfold CancelBlockedJob. task_tx. destruct (negb _); [by invert_ok|]. invert_ok.
  eapply changes_update; [done|cbn; done|]. intros k t _ Ep. split_guard. cbn.
  match goal with H : TaskStatusOf t = _ |- _ => rewrite H end. by apply task_arrow_canceled.
Qed.

Lemma RetryTasks_tasks jobID ids now db :
  task_changes (task_change (OpRetryTasks jobID ids now)) db (RetryTasks jobID ids now db).2.
Proof.
  unfold RetryTasks. destruct (match ids with Some [] => true | _ => false end);
    [by apply changes_refl; [left; left|]|].
  assert (∀ d, tasks d = update_where (retryGuard jobID ids) (λ _, retry_task db now) (tasks db) →
    changes TaskStatusOf (task_change (OpRetryTasks jobID ids now)) (tasks db) (tasks d)) as HR.
  { intros d Ed. eapply changes_update; [by left; left|exact Ed|]. intros k t _ Ep.
    unfold retryGuard in Ep. split_guard. right. split; [done|]. cbn.
    by destruct (row_matches _ _ _). }
  apply inTx_prop; [by apply changes_refl; [left; left|]|]. intros r db' H.
  case_bool_decide; invert_ok; by apply HR.
Qed.

Lemma StartTaskAttempt_tasks aid tid sid now db :
  task_changes task_arrow db (StartTaskAttempt aid tid sid now db).2.
Proof.
  unfold StartTaskAttempt. apply inTx_prop; [by apply changes_refl|]. intros r db' H.
  apply res_bind_ok in H as ([live t] & Hl & H). destruct (negb live); [by invert_ok; apply changes_refl|].
  destruct (bool_decide (TaskStatusOf t = TaskAssigned)) eqn:Ha; cbn in H;
    [destruct (negb _); [by invert_ok|]|]; invert_ok; destruct (bool_decide (_ = ""%string));
    try (by apply changes_refl);
    (eapply changes_update; [done|cbn; done|]); intros k x _ Ep; split_guard; cbn;
    match goal with H : TaskStatusOf x = _ |- _ => rewrite H end; by right.
Qed.

Lemma RecordTaskFailure_tasks aid tid code sid msg now server db :
  task_changes task_arrow db (RecordTaskFailure aid tid code sid msg now server db).2.
Proof.
  unfold RecordTaskFailure. task_tx. destruct (negb _); [by invert_ok; apply changes_refl|].
  invert_ok. by eapply changes_update; [done|cbn; done|].
Qed.

Lemma RequeueTaskForRetry_tasks tid aid retryAfter now db :
  task_changes task_arrow db (RequeueTaskForRetry tid aid retryAfter now db).2.
Proof.
  unfold RequeueTaskForRetry. task_tx. destruct (tasks db !! tid); [|by invert_ok]. invert_ok.
  eapply changes_update; [done|cbn; done|]. intros k x _ Ep. split_guard. cbn. by apply task_arrow_ready.
Qed.

Lemma ReclaimTaskAttempt_tasks aid tid now db :
  task_changes task_arrow db (ReclaimTaskAttempt aid tid now db).2.
Proof.
  unfold ReclaimTaskAttempt. apply inTx_prop; [by apply changes_refl|]. intros r db' H.
  apply res_bind_ok in H as ([live t] & Hl & H).
  destruct (negb live); [by invert_ok; apply changes_refl|]. invert_ok.
  unfold closeTaskAttemptsTx. rewrite tasks_closeTasks.
  eapply (reclaim_change _ now); [|cbn; done]. intros k x Ep. by split_guard.
Qed.

Lemma cancel_change p reason g m m' :
  (∀ k t, p k t = true → cancelable (TaskStatusOf t) = true) →
  (∀ t, TaskStatusOf (g t) = TaskStatusOf t) →
  m' = update_where p (λ _ t, g (task_canceled reason.1 reason.2 t)) m →
  changes TaskStatusOf task_arrow m m'.
Proof.
  intros Hp Hg ->. eapply changes_update; [done|done|]. intros k t _ Ep. cbn. rewrite Hg. cbn.
  apply task_arrow_canceled. eauto.
Qed.

Lemma CancelJobExecution_tasks jobID reason now db :
  task_changes task_arrow db (CancelJobExecution jobID reason now db).2.
Proof.
  eapply (cancel_change _ (reason, now) (λ t, set_AssignedAt None (set_AssignedWorkerID None t)));
    [|done|cbn; done]. intros k x Ep. by split_guard.
Qed.

Lemma CancelTaskExecution_tasks tid reason now db :
  task_changes task_arrow db (CancelTaskExecution tid reason now db).2.
Proof.
  unfold CancelTaskExecution. task_tx. destruct (negb _); [by invert_ok|]. invert_ok.
  unfold closeTaskAttemptsTx. rewrite tasks_closeTasks.
  eapply (cancel_change _ (reason, now) (λ t, t)); [|done|cbn; done]. intros k x Ep. by split_guard.
Qed.

Lemma run_tasks o db : task_changes (task_change o) db (run o db).
Proof.
  destruct o; cbn [run];
    try (by apply changes_refl; [left; left|]);
    lazymatch goal with
    | |- context [RetryTasks] => apply RetryTasks_tasks
    | _ => eapply (changes_weaken _ task_arrow); [by left|]
    end.
  - apply changes_supseteq; [by left|]. apply CreateJobSubmission_grows.
  - apply changes_refl; [done|]. unfold UpdateJob. destruct (jobs db !! id); [|done].
    by destruct (_ && _).
  - unfold demoteStalledJob. task_tx. destruct (row_matches _ _ _); invert_ok; by apply changes_refl.
  - unfold ReleaseBlockedJob. task_tx. by apply changes_refl.
  - apply CancelBlockedJob_tasks.
  - unfold FinalizeStep. task_tx. repeat case_in Htx; invert_ok; by try apply changes_refl.
  - unfold FinalizeJob. task_tx. repeat case_in Htx; invert_ok; by try apply changes_refl.
  - apply movePendingStep_tasks. set_solver.
  - apply movePendingStep_tasks. set_solver.
  - apply LeaseTask_tasks.
  - apply StartTaskAttempt_tasks.
  - unfold RecordAttemptProgress. apply inTx_prop; [by apply changes_refl|]. intros r db' H.
    apply res_bind_ok in H as ([live t] & Hl & H). cbv zeta in H.
    repeat case_in H; invert_ok; by apply changes_refl.
  - apply CompleteTaskAttempt_tasks.
  - apply RecordTaskFailure_tasks.
  - apply RequeueTaskForRetry_tasks.
  - apply ReclaimTaskAttempt_tasks.
  - apply reclaimStaleBatch_tasks.
  - by eapply changes_update; [done|cbn; done|].
  - apply CancelJobExecution_tasks.
  - apply CancelTaskExecution_tasks.
  - apply offlineWorker_tasks.
  - unfold OfflineWorker. pose proof (offlineWorker_tasks id (sameInstance instanceID) now db) as H.
    by destruct (offlineWorker _ _ _ _) as [[[? []]|] db'].
  - apply RegisterWorker_tasks.
  - apply changes_subseteq; [done|]. apply DeleteJob_shrinks.
  - apply changes_subseteq; [done|]. apply purgeExpiredJob_shrinks.
  - destruct (CreateTaskLog_writes id log now db) as [m ->]. by apply changes_refl.
  - destruct (CreateComputeLocation_writes id name db) as [m ->]. by apply changes_refl.
Qed.

(** Every task status change is an arrow of the task state machine: for any
    command and any database, a task's status after it is its status before or a
    transition [ValidateTaskTransition] permits, except that a manual retry
    takes a failed or canceled task back to pending or ready. *)
Theorem task_transitions o db k t t' :
  tasks db !! k = Some t → tasks (run o db) !! k = Some t' →
  task_change o (TaskStatusOf t) (TaskStatusOf t').
Proof. apply run_tasks. Qed.

Lemma task_transitions_witness :
  ∃ t t', tasks sampleReached !! "t1"%string = Some t ∧
    tasks (run (OpCancelTask "t1" "stop" 20) sampleReached) !! "t1"%string = Some t' ∧
    TaskStatusOf t = TaskRunning ∧ TaskStatusOf t' = TaskCanceled ∧
    task_change (OpCancelTask "t1" "stop" 20) (TaskStatusOf t) (TaskStatusOf t').
Proof.
  destruct (tasks sampleReached !! "t1"%string) as [t|] eqn:E; [|by vm_compute in E].
  destruct (tasks (run (OpCancelTask "t1" "stop" 20) sampleReached) !! "t1"%string) as [t'|] eqn:E';
    [|by vm_compute in E'].
  exists t, t'. split; [done|]. split; [done|].
  assert (TaskStatusOf <$> tasks sampleReached !! "t1"%string = Some TaskRunning) as H1 by by vm_compute.
  assert (TaskStatusOf <$> tasks (run (OpCancelTask "t1" "stop" 20) sampleReached) !! "t1"%string
          = Some TaskCanceled) as H2 by by vm_compute.
  rewrite E in H1. rewrite E' in H2. cbn in H1, H2. split; [congruence|]. split; [congruence|].
  exact (task_transitions _ _ _ _ _ E E').
Defined.

(** ** Jobs and steps *)

(** The commands that write neither jobs nor steps. *)
Definition leaves_jobs (o : Op) : bool :=
  match o with
  | OpLease _ | OpStart _ _ _ _ | OpProgress _ _ _ _ _ | OpComplete _ _ | OpRequeue _ _ _ _
  | OpReclaimAttempt _ _ _ | OpReclaimStale _ _ _ | OpUnschedulable _ _ _ | OpCancelTask _ _ _
  | OpOfflineStale _ _ _ | OpOffline _ _ _ | OpRegister _ _ _ | OpDisable _ _ _
  | OpHeartbeat _ _ _ _ | OpDeleteWorker _ | OpDeleteOfflineWorkers _
  | OpLog _ _ _ | OpLocation _ _ | OpTouchCredential _ _ | OpAdmin _ _ _ _ _ => true
  | _ => false
  end.

Definition same_jobs (db db' : DB) : Prop := jobs db' = jobs db ∧ steps db' = steps db.

#[local] Instance same_jobs_refl : Reflexive same_jobs.
Proof. by split. Qed.

#[local] Instance same_jobs_trans : Transitive same_jobs.
Proof. intros a b c [] []. split; congruence. Qed.

Lemma same_jobs_closeTasks ids s m n db db' :
  same_jobs db db' → same_jobs db (closeTasksAttemptsTx ids s m n db').
Proof. unfold closeTasksAttemptsTx. by case_bool_decide. Qed.

Lemma CompleteTaskAttempt_jobs c now db : same_jobs db (CompleteTaskAttempt c now db).2.
Proof.
  unfold CompleteTaskAttempt. apply inTx_prop; [done|]. intros r db' Htx.
  apply res_bind_ok in Htx as (t0 & _ & Htx). apply res_bind_ok in Htx as ([r1 db1] & H & Htx).
  invert_ok. unfold applyCompletionTx in H. destruct (negb _); [by invert_ok|].
  apply res_bind_ok in H as (t & _ & H). destruct (negb _ && negb _); [by invert_ok|].
  destruct (casTaskStatusTx _ _ _ _) as [[r' d]|e] eqn:Ecas; [|by destruct e; invert_ok].
  invert_ok. apply casTaskStatusTx_ok in Ecas as (t' & _ & [(_ & -> & _)|(_ & -> & _)]);
    by case_bool_decide.
Qed.

Lemma StartTaskAttempt_jobs aid tid sid now db : same_jobs db (StartTaskAttempt aid tid sid now db).2.
Proof.
  unfold StartTaskAttempt. apply inTx_prop; [done|]. intros r db' H.
  apply res_bind_ok in H as ([live t] & Hl & H). destruct (negb live); [by invert_ok|].
  destruct (bool_decide (TaskStatusOf t = TaskAssigned)); cbn in H;
    [destruct (negb _); [by invert_ok|]|]; invert_ok; by destruct (bool_decide (_ = ""%string)).
Qed.

Lemma reclaimStaleBatch_jobs b cutoff now db : same_jobs db (reclaimStaleBatch b cutoff now db).2.
Proof.
  unfold reclaimStaleBatch. apply inTx_prop; [done|]. intros r db' H.
  case_bool_decide; [by invert_ok|]. invert_ok. by apply same_jobs_closeTasks.
Qed.

Lemma offlineWorker_jobs id g now db : same_jobs db (offlineWorker id g now db).2.
Proof.
  unfold offlineWorker. apply inTx_prop; [done|]. intros r db' H.
  destruct (negb _); [by invert_ok|]. unfold reclaimWorkerTasksTx in H. cbn in H. invert_ok.
  by apply same_jobs_closeTasks.
Qed.

Lemma RegisterWorker_jobs id w now db : same_jobs db (RegisterWorker id w now db).2.
Proof.
  unfold RegisterWorker.
  match goal with |- same_jobs _ (match inTx ?b db with _ => _ end).2 =>
    assert (same_jobs db (inTx b db).2) as H; [|by destruct (inTx b db) as [[[[? ?] []]|] ?]]
  end.
  apply inTx_prop; [done|]. intros r db' H.
  destruct (match workers db !! id with Some _ => _ | None => _ end); [by invert_ok|].
  destruct (_ || _); [by invert_ok|]. destruct (restarted _ _); [|by invert_ok].
  unfold reclaimWorkerTasksTx in H. cbn in H. invert_ok. by apply same_jobs_closeTasks.
Qed.

Lemma LeaseTask_jobs req db : same_jobs db (LeaseTask req db).2.
Proof.
  destruct (LeaseTask req db) as [r db'] eqn:E.
  destruct (LeaseTask_outcome _ _ _ _ E) as [(aid & a & ->)|[-> _]]; [|done].
  apply LeaseTask_leased in E as (t & j & q & f & _ & [_ _ _ _ _ _ _ _ _ ->] & _). done.
Qed.

Lemma leaves_jobs_same o db : leaves_jobs o = true → same_jobs db (run o db).
Proof.
  destruct o; try done; intros _; cbn [run].
  - apply LeaseTask_jobs.
  - apply StartTaskAttempt_jobs.
  - unfold RecordAttemptProgress. apply inTx_prop; [done|]. intros r db' H.
    apply res_bind_ok in H as ([live t] & Hl & H). cbv zeta in H. repeat case_in H; by invert_ok.
  - apply CompleteTaskAttempt_jobs.
  - unfold RequeueTaskForRetry. apply inTx_prop; [done|]. intros r db' H.
    destruct (tasks db !! taskID); by invert_ok.
  - unfold ReclaimTaskAttempt. apply inTx_prop; [done|]. intros r db' H.
    apply res_bind_ok in H as ([live t] & Hl & H). destruct (negb live); invert_ok; [done|].
    by apply same_jobs_closeTasks.
  - apply reclaimStaleBatch_jobs.
  - unfold CancelTaskExecution. apply inTx_prop; [done|]. intros r db' H. invert_ok.
    destruct (negb _); [by invert_ok|]. invert_ok. by apply same_jobs_closeTasks.
  - apply offlineWorker_jobs.
  - unfold OfflineWorker. pose proof (offlineWorker_jobs id (sameInstance instanceID) now db) as H.
    by destruct (offlineWorker _ _ _ _) as [[[? []]|] db'].
  - apply RegisterWorker_jobs.
  - by destruct (CreateTaskLog_writes id log now db) as [m ->].
  - by destruct (CreateComputeLocation_writes id name db) as [m ->].
Qed.

(** *** Jobs *)

(** No change, or an arrow of the job lifecycle; only finalizing completes or
    fails a job, and its guard also admits a blocked one. *)
Definition job_change (o : Op) (s s' : JobStatus) : Prop :=
  s' = s ∨
  match o with
  | OpFinalizeJob _ _ => (s' ∈ JobTransitions s ∨ s = JobBlocked) ∧ job_terminal s' = true
  | _ => s' ∈ JobTransitions s ∧ s' ∉ [JobCompleted; JobFailed]
  end.

Abbreviation job_changes R db db' := (changes JobStatusOf R (jobs db) (jobs db')).

Lemma job_change_refl o s : job_change o s s.
Proof. by left. Qed.

(** The arrows of every command. *)
Lemma job_arrow o s s' : s' ∈ JobTransitions s → s' ∉ [JobCompleted; JobFailed] →
  (s' = JobCanceled ∨ if o is OpFinalizeJob _ _ then False else True) → job_change o s s'.
Proof. right. destruct o; try done. by destruct H1 as [->|]; [split; [left|]|]. Qed.

Lemma job_change_canceled o s : job_terminal s = false → job_change o s JobCanceled.
Proof. intros Hs. apply job_arrow; [|set_solver|by left]. destruct s; try done; set_solver. Qed.

Ltac job_move := apply job_arrow; [|set_solver|by right].

#[local] Hint Resolve job_change_refl : core.

(** A single UPDATE of the jobs table whose guard implies the arrow. *)
Lemma job_write o p f m m' :
  m' = update_where p f m →
  (∀ k j, p k j = true → job_change o (JobStatusOf j) (JobStatusOf (f k j))) →
  changes JobStatusOf (job_change o) m m'.
Proof. intros E H. eapply changes_update; [done|exact E|auto]. Qed.

Ltac job_guard :=
  intros ? j Ep; split_guard;
  repeat match goal with H : negb _ = true |- _ => apply negb_true_iff in H end; cbn;
  try match goal with H : JobStatusOf j = _ |- _ => rewrite H end.

Lemma jobOutcome_terminal db id : job_terminal (jobOutcome db id) = true.
Proof. unfold jobOutcome. by repeat case_goal. Qed.

Lemma FinalizeJob_jobs id now db :
  job_changes (job_change (OpFinalizeJob id now)) db (FinalizeJob id now db).2.
Proof.
  unfold FinalizeJob. apply inTx_prop; [by apply changes_refl|]. intros r db' H. invert_ok.
  repeat case_in H; invert_ok; try done. eapply job_write; [cbn; done|]. job_guard.
  unfold finalizeJobGuard in *. split_guard.
  match goal with H : negb (job_terminal _) = true |- _ => apply negb_true_iff in H end.
  match goal with |- context [jobOutcome db ?k] =>
    pose proof (jobOutcome_terminal db k) as Ht; destruct (jobOutcome db k) end; try done;
    destruct (JobStatusOf j); try done; right; (split; [|done]); first [by right|left; set_solver].
Qed.

Lemma RetryTasks_jobs jobID ids now db :
  job_changes (job_change (OpRetryTasks jobID ids now)) db (RetryTasks jobID ids now db).2.
Proof.
  unfold RetryTasks. destruct (match ids with Some [] => true | _ => false end); [by apply changes_refl|].
  apply inTx_prop; [by apply changes_refl|]. intros r db' H.
  case_bool_decide; invert_ok; [by apply changes_refl|].
  eapply job_write; [cbn; done|]. job_guard. unfold resettable in *.
  job_move. destruct (JobStatusOf j); try done; set_solver.
Qed.

Lemma movePendingStep_jobs o id sTo tTo reason now db :
  job_changes (job_change o) db (movePendingStep id sTo tTo reason now db).2.
Proof.
  unfold movePendingStep. apply inTx_prop; [by apply changes_refl|]. intros r db' H. invert_ok.
  destruct (_ && _); [by invert_ok|]. destruct (negb _); [by invert_ok|]. invert_ok.
  by apply changes_refl.
Qed.

Lemma run_jobs o db : job_changes (job_change o) db (run o db).
Proof.
  destruct (leaves_jobs o) eqn:Ho; [by apply changes_refl, leaves_jobs_same|].
  destruct o; try done; cbn [run].
  - apply changes_supseteq; [done|]. apply CreateJobSubmission_grows.
  - unfold UpdateJob. destruct (jobs db !! id) as [j0|] eqn:Ej; [|by apply changes_refl].
    destruct (_ && _); [|by apply changes_refl]. intros k j j' E E'. cbn in E'.
    destruct (decide (id = k)) as [<-|Hne]; rewrite ?lookup_insert_eq, ?lookup_insert_ne in E' by done;
      simplify_eq; by left.
  - eapply job_write; [cbn; done|]. job_guard. by apply job_change_canceled.
  - eapply job_write; [cbn; done|]. job_guard. destruct (JobStatusOf j) eqn:Es; try done;
      first [by left|job_move; set_solver].
  - eapply job_write; [cbn; done|]. job_guard. job_move. set_solver.
  - eapply job_write; [cbn; done|]. job_guard. job_move. destruct (JobStatusOf j); try done; set_solver.
  - eapply job_write; [cbn; done|]. job_guard. job_move. set_solver.
  - unfold demoteStalledJob. apply inTx_prop; [by apply changes_refl|]. intros r db' H.
    destruct (row_matches _ _ _); invert_ok; [|by apply changes_refl].
    eapply job_write; [cbn; done|]. unfold stalledJob. job_guard. job_move. set_solver.
  - unfold ReleaseBlockedJob. apply inTx_prop; [by apply changes_refl|]. intros r db' H. invert_ok.
    eapply job_write; [cbn; done|]. job_guard. job_move. set_solver.
  - unfold CancelBlockedJob. apply inTx_prop; [by apply changes_refl|]. intros r db' H. invert_ok.
    destruct (negb _); [by invert_ok|]. invert_ok.
    eapply job_write; [cbn; done|]. job_guard. job_move. set_solver.
  - unfold FinalizeStep. apply inTx_prop; [by apply changes_refl|]. intros r db' H. invert_ok.
    repeat case_in H; invert_ok; by try apply changes_refl.
  - apply FinalizeJob_jobs.
  - apply movePendingStep_jobs.
  - apply movePendingStep_jobs.
  - apply RetryTasks_jobs.
  - unfold RecordTaskFailure. apply inTx_prop; [by apply changes_refl|]. intros r db' H. invert_ok.
    destruct (negb _); [by invert_ok; apply changes_refl|]. invert_ok.
    by eapply job_write; [cbn; done|].
  - eapply job_write; [cbn; done|]. job_guard. by apply job_change_canceled.
  - apply changes_subseteq; [done|]. apply DeleteJob_shrinks.
  - apply changes_subseteq; [done|]. apply purgeExpiredJob_shrinks.
Qed.

(** Every job status change is an arrow of the documented job lifecycle
    [JobTransitions], whatever the command and the database, and only
    [FinalizeJob] completes or fails a job; the one change outside the table is
    [FinalizeJob] on a blocked job, whose guard does not ask. *)
Theorem job_transitions o db k j j' :
  jobs db !! k = Some j → jobs (run o db) !! k = Some j' →
  job_change o (JobStatusOf j) (JobStatusOf j').
Proof. apply run_jobs. Qed.

Lemma job_transitions_witness :
  ∃ j j', jobs sampleReached !! "j"%string = Some j ∧
    jobs (run (OpPromoteJobRunning "j" 20) sampleReached) !! "j"%string = Some j' ∧
    JobStatusOf j = JobPending ∧ JobStatusOf j' = JobRunning ∧
    job_change (OpPromoteJobRunning "j" 20) (JobStatusOf j) (JobStatusOf j').
Proof.
  destruct (jobs sampleReached !! "j"%string) as [j|] eqn:E; [|by vm_compute in E].
  destruct (jobs (run (OpPromoteJobRunning "j" 20) sampleReached) !! "j"%string) as [j'|] eqn:E';
    [|by vm_compute in E'].
  assert (JobStatusOf <$> jobs sampleReached !! "j"%string = Some JobPending) as H1 by by vm_compute.
  assert (JobStatusOf <$> jobs (run (OpPromoteJobRunning "j" 20) sampleReached) !! "j"%string
          = Some JobRunning) as H2 by by vm_compute.
  rewrite E in H1. rewrite E' in H2. cbn in H1, H2. exists j, j'.
  split; [done|]. split; [done|]. split; [congruence|]. split; [congruence|].
  exact (job_transitions _ _ _ _ _ E E').
Defined.
