(* ===== verification/Reports.v ===== *)
(** * What a worker's report does: [CompleteTaskAttempt] and [RecordTaskFailure]

    The outcome of a terminal report on every branch, and that a redelivered
    report changes nothing more. *)

From S2P Require Import Prelude Schema Sample Finalize Attempts Lease Jobs Workers Evolve Keeps StoreInv.
Open Scope Z_scope.

(** ** Completions *)

(** Whether a report moves its task: the attempt is the task's latest, and the
    task holds the reported status already or may legally move to it from
    flight. *)
Definition report_lands (c : AttemptCompletion) (db : DB) (t : Task) : bool :=
  isLatestAttempt db (CompAttemptID c) (CompTaskID c)
  && (bool_decide (TaskStatusOf t = CompTaskStatus c)
      || (in_flight (TaskStatusOf t)
          && bool_decide (CompTaskStatus c ∈ validTaskTransitions (TaskStatusOf t)))).

Lemma closeAttemptAndReleaseTx_evolves c now db : Evolves db (closeAttemptAndReleaseTx c now db).
Proof. by apply (closeOne_evolves (CompAttemptID c) (λ _, completedBy c)). Qed.

(** The task's compare-and-set, decided by the state machine. *)
Lemma casTaskStatusTx_case id to now db t :
  tasks db !! id = Some t →
  casTaskStatusTx id to now db =
  if bool_decide (TaskStatusOf t = to) then Ok (casSame, db)
  else if bool_decide (to ∈ validTaskTransitions (TaskStatusOf t))
  then Ok (casApplied, sqlCASTaskStatus id (TaskStatusOf t) to now db)
  else Err ErrInvalidTransition.
Proof.
  intros E. unfold casTaskStatusTx, casMaxAttempts. cbn [casLoop]. unfold get. rewrite E.
  cbn [res_bind]. case_bool_decide; [done|]. unfold ValidateTaskTransition.
  case_bool_decide; [|done]. cbn [res_bind]. unfold casWriteTaskStatus, row_matches.
  by rewrite E, bool_decide_true.
Qed.

Lemma CompleteTaskAttempt_case c now db t :
  tasks db !! CompTaskID c = Some t →
  let db1 := closeAttemptAndReleaseTx c now db in
  let moved := if bool_decide (TaskStatusOf t = CompTaskStatus c) then db1
               else sqlCASTaskStatus (CompTaskID c) (TaskStatusOf t) (CompTaskStatus c) now db1 in
  CompleteTaskAttempt c now db =
  if report_lands c db t
  then (Ok Applied,
        if bool_decide (CompFailureReason c = ""%string) then moved
        else sqlSetTaskFailureReason (CompFailureReason c) now (CompTaskID c) moved)
  else (Ok Rejected, db1).
Proof.
  intros E db1 moved. unfold CompleteTaskAttempt, inTx, get. rewrite E. cbn [res_bind].
  unfold applyCompletionTx, report_lands. fold db1.
  rewrite (isLatestAttempt_evolves db db1) by apply closeAttemptAndReleaseTx_evolves.
  destruct (isLatestAttempt _ _ _); cbn [negb andb]; [|done].
  assert (tasks db1 !! CompTaskID c = Some t) as E1 by done. unfold get. rewrite E1. cbn [res_bind].
  rewrite (casTaskStatusTx_case _ _ _ _ t E1). unfold moved.
  destruct (bool_decide (TaskStatusOf t = CompTaskStatus c)) eqn:Hs; cbn [negb andb orb]; [done|].
  destruct (in_flight (TaskStatusOf t)); cbn [negb andb]; [|done].
  by destruct (bool_decide (_ ∈ _)).
Qed.

(** C19. A terminal report always closes its attempt and releases its claims, and
    moves the task only when it may: it is Applied exactly when the attempt is
    the task's latest and the task is at the reported status or leaves flight
    for it legally; then the task holds the reported status, and otherwise no
    task row is written. *)
Theorem complete_outcome c now db t :
  tasks db !! CompTaskID c = Some t →
  let '(r, db') := CompleteTaskAttempt c now db in
  r = Ok (if report_lands c db t then Applied else Rejected) ∧
  (∀ id, attempts db' !! id =
     (λ a, if bool_decide (id = CompAttemptID c) && attempt_open a then completedBy c a else a)
       <$> attempts db !! id) ∧
  (∀ id cl, claims db' !! id = Some cl → ClaimAttemptID cl = CompAttemptID c →
     claim_active cl = false) ∧
  (report_lands c db t = false → tasks db' = tasks db) ∧
  (report_lands c db t = true →
     TaskStatusOf <$> tasks db' !! CompTaskID c = Some (CompTaskStatus c)).
Proof.
  intros E. rewrite (CompleteTaskAttempt_case _ _ _ _ E).
  set (db1 := closeAttemptAndReleaseTx c now db).
  set (moved := if bool_decide (TaskStatusOf t = CompTaskStatus c) then db1 else _).
  assert (attempts db1 = attempts moved ∧ claims db1 = claims moved) as [Ea Ec]
    by (unfold moved; by case_bool_decide).
  assert (TaskStatusOf <$> tasks moved !! CompTaskID c = Some (CompTaskStatus c)) as Hst.
  { unfold moved. case_bool_decide as Hs; cbn; [by rewrite E; cbn; rewrite Hs|].
    rewrite lookup_update_where, E. cbn. by rewrite !bool_decide_true. }
  assert (∀ id, attempts db1 !! id =
     (λ a, if bool_decide (id = CompAttemptID c) && attempt_open a then completedBy c a else a)
       <$> attempts db !! id) as H1
    by (intros id; unfold db1; cbn; by rewrite lookup_update_where).
  assert (∀ id cl, claims db1 !! id = Some cl → ClaimAttemptID cl = CompAttemptID c →
     claim_active cl = false) as H2.
  { intros id cl Ecl Hcl. cbn in Ecl. apply update_where_inv in Ecl as (x & _ & [[_ ->]|[Hp ->]]); [done|].
    rewrite Hcl, bool_decide_true in Hp by done. done. }
  destruct (report_lands c db t).
  - destruct (bool_decide (CompFailureReason c = _)).
    + rewrite <- Ea, <- Ec. split; [done|]. split; [exact H1|]. split; [exact H2|]. done.
    + cbn. rewrite <- Ea, <- Ec. split; [done|]. split; [exact H1|]. split; [exact H2|].
      split; [done|]. intros _. rewrite lookup_update_where.
      destruct (tasks moved !! CompTaskID c); [|done]. cbn in *. by case_bool_decide.
  - split; [done|]. split; [exact H1|]. split; [exact H2|]. done.
Qed.

Lemma complete_outcome_witness :
  ∃ t, tasks sampleReached !! "t1"%string = Some t ∧
    let c := mkAttemptCompletion "a1" "t1" TaskSucceeded AttemptSucceeded (Some 0) "" "" "" 20 in
    let '(r, db') := CompleteTaskAttempt c 21 sampleReached in
    r = Ok (if report_lands c sampleReached t then Applied else Rejected) ∧
    (report_lands c sampleReached t = true →
       TaskStatusOf <$> tasks db' !! "t1"%string = Some TaskSucceeded).
Proof.
  destruct (tasks sampleReached !! "t1"%string) as [t|] eqn:E; [|by vm_compute in E].
  exists t. split; [done|]. cbv zeta.
  pose proof (complete_outcome
    (mkAttemptCompletion "a1" "t1" TaskSucceeded AttemptSucceeded (Some 0) "" "" "" 20) 21
    sampleReached t E) as H.
  destruct (CompleteTaskAttempt _ 21 sampleReached) as [r db'].
  destruct H as (Hr & _ & _ & _ & Hs). auto.
Defined.

(** Closing an attempt that is closed, with no claim active, writes nothing. *)
Lemma closeAttemptAndReleaseTx_again c now db :
  openAttempt db (CompAttemptID c) = false →
  (∀ id cl, claims db !! id = Some cl → ClaimAttemptID cl = CompAttemptID c →
     claim_active cl = false) →
  attempts (closeAttemptAndReleaseTx c now db) = attempts db ∧
  claims (closeAttemptAndReleaseTx c now db) = claims db.
Proof.
  intros Ho Hc. split; cbn; apply update_nothing.
  - intros k a E. apply andb_false_iff. destruct (decide (k = CompAttemptID c)) as [->|Hne].
    + right. unfold openAttempt, row_matches in Ho. by rewrite E in Ho.
    + left. by apply bool_decide_false.
  - intros k cl E. apply andb_false_iff. destruct (decide (ClaimAttemptID cl = CompAttemptID c)).
    + right. eauto.
    + left. by apply bool_decide_false.
Qed.

Lemma CompleteTaskAttempt_applied c now db db' :
  CompleteTaskAttempt c now db = (Ok Applied, db') →
  ∃ t, tasks db !! CompTaskID c = Some t ∧ report_lands c db t = true.
Proof.
  intros H. destruct (tasks db !! CompTaskID c) as [t|] eqn:E.
  - exists t. split; [done|]. rewrite (CompleteTaskAttempt_case _ _ _ _ E) in H.
    by destruct (report_lands c db t).
  - unfold CompleteTaskAttempt, inTx, get in H. by rewrite E in H.
Qed.

(** The state an applied report leaves. *)
Lemma CompleteTaskAttempt_after c now db db' :
  CompAttemptStatus c ≠ AttemptRunning →
  CompleteTaskAttempt c now db = (Ok Applied, db') →
  openAttempt db' (CompAttemptID c) = false ∧
  (∀ id cl, claims db' !! id = Some cl → ClaimAttemptID cl = CompAttemptID c →
     claim_active cl = false) ∧
  ∃ t', tasks db' !! CompTaskID c = Some t' ∧ TaskStatusOf t' = CompTaskStatus c ∧
        report_lands c db' t' = true.
Proof.
  intros Hs H. pose proof (CompleteTaskAttempt_applied _ _ _ _ H) as (t & E & Hl).
  pose proof (closeAttemptAndReleaseTx_keeps c now db Hs) as [[_ Hev _] _].
  rewrite (CompleteTaskAttempt_case _ _ _ _ E), Hl in H. injection H as H.
  set (db1 := closeAttemptAndReleaseTx c now db) in *.
  assert (attempts db' = attempts db1 ∧ claims db' = claims db1) as [Ea Ec].
  { rewrite <- H. by repeat case_bool_decide. }
  split; [|split].
  - unfold openAttempt. rewrite Ea. by apply closeAttemptAndReleaseTx_closed.
  - intros id cl Ecl Hk. rewrite Ec in Ecl. cbn in Ecl.
    apply update_where_inv in Ecl as (x & _ & [[_ ->]|[Hp ->]]); [done|].
    rewrite Hk, bool_decide_true in Hp by done. done.
  - assert (TaskStatusOf <$> tasks db' !! CompTaskID c = Some (CompTaskStatus c)) as Hst.
    { rewrite <- H. repeat case_bool_decide; cbn; rewrite ?lookup_update_where, ?E; cbn;
        repeat rewrite bool_decide_true by done; cbn; congruence. }
    destruct (tasks db' !! CompTaskID c) as [t'|] eqn:E'; [|done]. cbn in Hst.
    injection Hst as Hst. exists t'. split; [done|]. split; [done|].
    unfold report_lands. rewrite (isLatestAttempt_evolves db) by by rewrite Ea.
    apply andb_prop in Hl as [-> _]. by rewrite bool_decide_true.
Qed.

(** Redelivery is harmless: delivering an applied report again is Applied
    again, closes and releases nothing more, and leaves every task at its
    status. *)
Theorem complete_redelivery c now now' db db' :
  CompAttemptStatus c ≠ AttemptRunning →
  CompleteTaskAttempt c now db = (Ok Applied, db') →
  (CompleteTaskAttempt c now' db').1 = Ok Applied ∧
  attempts (CompleteTaskAttempt c now' db').2 = attempts db' ∧
  claims (CompleteTaskAttempt c now' db').2 = claims db' ∧
  (∀ k, TaskStatusOf <$> tasks (CompleteTaskAttempt c now' db').2 !! k =
        TaskStatusOf <$> tasks db' !! k).
Proof.
  intros Hs H.
  destruct (CompleteTaskAttempt_after _ _ _ _ Hs H) as (Ho & Hc & t' & E' & Hst & Hl).
  destruct (closeAttemptAndReleaseTx_again c now' db' Ho Hc) as [Ea Ec].
  rewrite (CompleteTaskAttempt_case _ _ _ _ E'), Hl.
  rewrite (bool_decide_true (TaskStatusOf t' = _)) by done.
  split; [done|]. case_bool_decide; [done|]. split; [exact Ea|]. split; [exact Ec|].
  intros k. cbn. rewrite lookup_update_where. destruct (tasks db' !! k); [|done]. cbn.
  by case_bool_decide.
Qed.

(** The completion of the sample's running attempt. *)
Definition sampleCompletion : AttemptCompletion :=
  mkAttemptCompletion "a1" "t1" TaskFailed AttemptFailed (Some 1) "" "" "exit status 1" 20.

Lemma complete_redelivery_witness :
  ∃ db', CompleteTaskAttempt sampleCompletion 21 sampleReached = (Ok Applied, db') ∧
  (CompleteTaskAttempt sampleCompletion 25 db').1 = Ok Applied ∧
  attempts (CompleteTaskAttempt sampleCompletion 25 db').2 = attempts db'.
Proof.
  destruct (CompleteTaskAttempt sampleCompletion 21 sampleReached) as [r db'] eqn:E.
  assert (r = Ok Applied) as ->.
  { change r with (r, db').1. rewrite <- E. by vm_compute. }
  exists db'. split; [done|].
  destruct (complete_redelivery sampleCompletion 21 25 sampleReached db' ltac:(done) E) as (H1 & H2 & _).
  auto.
Defined.

(** ** Failures *)

(** Closing as failed an attempt that is closed and holds no claim writes
    nothing. *)
Lemma closeAsFailed_again ended code sid msg id released db :
  openAttempt db id = false →
  (∀ k c, claims db !! k = Some c → ClaimAttemptID c = id → claim_active c = false) →
  sqlReleaseAttemptClaims released id (sqlCloseAttemptAsFailed ended code sid msg id db) = db.
Proof.
  intros Ho Hc. unfold sqlReleaseAttemptClaims, sqlCloseAttemptAsFailed. cbn.
  rewrite !update_nothing; [by destruct db| |].
  - intros k a E. apply andb_false_iff. destruct (decide (k = id)) as [->|Hne].
    + right. unfold openAttempt, row_matches in Ho. by rewrite E in Ho.
    + left. by apply bool_decide_false.
  - intros k c E. apply andb_false_iff. destruct (decide (ClaimAttemptID c = id)).
    + right. eauto.
    + left. by apply bool_decide_false.
Qed.

Lemma RecordTaskFailure_case aid tid code sid msg now server db t j :
  tasks db !! tid = Some t → jobs db !! TaskJobID t = Some j →
  let closed := sqlReleaseAttemptClaims server aid (sqlCloseAttemptAsFailed now code sid msg aid db) in
  RecordTaskFailure aid tid code sid msg now server db =
  if openAttempt db aid
  then (Ok (TaskFailedAttempts t + 1, JobFailedAttempts j + 1, true),
        set_jobs (<[TaskJobID t := set_JobUpdatedAt now (set_JobFailedAttempts (JobFailedAttempts j + 1) j)]>
                    (jobs db))
          (set_tasks (<[tid := set_TaskUpdatedAt now (set_TaskFailedAttempts (TaskFailedAttempts t + 1) t)]>
                        (tasks db)) closed))
  else (Ok (TaskFailedAttempts t, JobFailedAttempts j, false), closed).
Proof.
  intros Et Ej closed. unfold RecordTaskFailure, inTx, get. rewrite Et. cbn [res_bind].
  fold closed. assert (jobs closed = jobs db) as Ejs by done. rewrite Ejs, Ej. cbn [res_bind].
  fold (openAttempt db aid). destruct (openAttempt db aid); cbn [negb]; [|done].
  cbn. do 2 f_equal.
  - rewrite <- (update_one (λ _, true) (λ _ j, set_JobUpdatedAt now
      (set_JobFailedAttempts (JobFailedAttempts j + 1) j)) _ _ j) by done.
    apply update_where_ext; [|done]. intros. by rewrite andb_true_r.
  - f_equal. rewrite <- (update_one (λ _, true) (λ _ t, set_TaskUpdatedAt now
      (set_TaskFailedAttempts (TaskFailedAttempts t + 1) t)) _ _ t) by done.
    apply update_where_ext; [|done]. intros. by rewrite andb_true_r.
Qed.

(** A failure is counted once: recording an attempt's failure adds one to its
    task's and its job's counters exactly when the attempt was still running,
    touches no other task or job, and recording it again, with whatever details,
    returns the same counts and writes nothing. *)
Theorem failure_counted_once aid tid code sid msg now server db t j :
  tasks db !! tid = Some t → jobs db !! TaskJobID t = Some j →
  let n := if openAttempt db aid then 1 else 0 in
  let '(r, db') := RecordTaskFailure aid tid code sid msg now server db in
  r = Ok (TaskFailedAttempts t + n, JobFailedAttempts j + n, openAttempt db aid) ∧
  TaskFailedAttempts <$> tasks db' !! tid = Some (TaskFailedAttempts t + n) ∧
  JobFailedAttempts <$> jobs db' !! TaskJobID t = Some (JobFailedAttempts j + n) ∧
  (∀ k, k ≠ tid → tasks db' !! k = tasks db !! k) ∧
  (∀ k, k ≠ TaskJobID t → jobs db' !! k = jobs db !! k) ∧
  (∀ code' sid' msg' now' server',
     RecordTaskFailure aid tid code' sid' msg' now' server' db' =
     (Ok (TaskFailedAttempts t + n, JobFailedAttempts j + n, false), db')).
Proof.
  intros Et Ej n. rewrite (RecordTaskFailure_case _ _ _ _ _ _ _ _ _ _ Et Ej).
  set (closed := sqlReleaseAttemptClaims server aid _).
  assert (∀ d, attempts d = attempts closed → claims d = claims closed →
    openAttempt d aid = false ∧
    ∀ k c, claims d !! k = Some c → ClaimAttemptID c = aid → claim_active c = false) as Hd.
  { intros d Ea Ec. split.
    - unfold openAttempt. rewrite Ea.
      by apply (closeOne_closed aid (λ _, failedWith now code sid msg) server).
    - intros k c E Hk. rewrite Ec in E. cbn in E.
      apply update_where_inv in E as (x & _ & [[_ ->]|[Hp ->]]); [done|].
      rewrite Hk, bool_decide_true in Hp by done. done. }
  unfold n. destruct (openAttempt db aid).
  - cbn. rewrite !lookup_insert_eq. repeat split.
    + intros k Hk. by rewrite lookup_insert_ne.
    + intros k Hk. by rewrite lookup_insert_ne.
    + intros. set (db' := set_jobs _ _). destruct (Hd db' eq_refl eq_refl) as [Ho Hc].
      erewrite (RecordTaskFailure_case _ _ _ _ _ _ _ db'); [|apply lookup_insert_eq|apply lookup_insert_eq].
      by rewrite Ho, closeAsFailed_again.
  - rewrite !Z.add_0_r. cbn. rewrite Et, Ej. repeat split.
    intros. destruct (Hd closed eq_refl eq_refl) as [Ho Hc].
    rewrite (RecordTaskFailure_case _ _ _ _ _ _ _ closed _ _ Et Ej).
    by rewrite Ho, closeAsFailed_again.
Qed.

Lemma failure_counted_once_witness :
  ∃ t j, tasks sampleReached !! "t1"%string = Some t ∧ jobs sampleReached !! TaskJobID t = Some j ∧
    let n := if openAttempt sampleReached "a1" then 1 else 0 in
    (RecordTaskFailure "a1" "t1" (Some 1) "" "boom" 20 21 sampleReached).1 =
    Ok (TaskFailedAttempts t + n, JobFailedAttempts j + n, openAttempt sampleReached "a1").
Proof.
  destruct (tasks sampleReached !! "t1"%string) as [t|] eqn:E; [|by vm_compute in E].
  assert (TaskJobID <$> tasks sampleReached !! "t1"%string = Some "j"%string) as Hj by by vm_compute.
  rewrite E in Hj. cbn in Hj. injection Hj as Hj.
  destruct (jobs sampleReached !! TaskJobID t) as [j|] eqn:Ej;
    [|rewrite Hj in Ej; by vm_compute in Ej].
  exists t, j. split; [done|]. split; [done|]. cbv zeta.
  pose proof (failure_counted_once "a1" "t1" (Some 1) "" "boom" 20 21 sampleReached t j E Ej) as H.
  cbv zeta in H. destruct (RecordTaskFailure _ _ _ _ _ _ _ _) as [r db'] eqn:Er. by destruct H as [-> _].
Defined.
