(* ===== verification/Outcomes.v ===== *)
(** * What a finished step and a finished job mean

    The outcomes of [FinalizeStep] and [FinalizeJob], that a completed job has
    nothing but completed steps and a completed step nothing but succeeded
    tasks, in every reachable database. *)

From S2P Require Import Prelude Schema Sample Finalize Attempts Lease Jobs Workers Evolve.
From S2P Require Import Keeps StoreInv Transitions.
Open Scope Z_scope.

(** ** Outcomes *)

Lemma stepHasTask_true db id p :
  stepHasTask db id p = true ↔
  ∃ k t, tasks db !! k = Some t ∧ TaskStepID t = id ∧ p (TaskStatusOf t) = true.
Proof.
  unfold stepHasTask. rewrite exists_where_true. setoid_rewrite andb_true_iff.
  setoid_rewrite bool_decide_eq_true. done.
Qed.

Lemma stepHasTask_false db id p :
  stepHasTask db id p = false ↔
  ∀ k t, tasks db !! k = Some t → TaskStepID t = id → p (TaskStatusOf t) = false.
Proof.
  unfold stepHasTask. rewrite exists_where_false. split; intros H k t E.
  - intros Hk. specialize (H k t E). by rewrite bool_decide_true in H.
  - specialize (H k t E). case_bool_decide; cbn; auto.
Qed.

Lemma stepHasNoOpenTask_true db id :
  stepHasNoOpenTask db id = true ↔
  ∀ k t, tasks db !! k = Some t → TaskStepID t = id → task_terminal (TaskStatusOf t) = true.
Proof.
  unfold stepHasNoOpenTask. rewrite negb_true_iff.
  rewrite (stepHasTask_false db id (λ s, negb (task_terminal s))).
  by setoid_rewrite negb_false_iff.
Qed.

(** With every task terminal, a step's outcome is completed exactly when they all
    succeeded, and failed exactly when one failed. *)
Lemma stepOutcome_spec db id :
  stepHasNoOpenTask db id = true →
  (stepOutcome db id = StepCompleted ↔
     ∀ k t, tasks db !! k = Some t → TaskStepID t = id → TaskStatusOf t = TaskSucceeded) ∧
  (stepOutcome db id = StepFailed ↔
     ∃ k t, tasks db !! k = Some t ∧ TaskStepID t = id ∧ TaskStatusOf t = TaskFailed) ∧
  step_terminal (stepOutcome db id) = true.
Proof.
  rewrite stepHasNoOpenTask_true. intros Hall. unfold stepOutcome.
  destruct (stepHasTask db id (λ s, bool_decide (s = TaskFailed))) eqn:Hf.
  - apply stepHasTask_true in Hf as (k & t & E & Hk & Hs). apply bool_decide_eq_true in Hs.
    repeat split; try done.
    + intros H. by rewrite (H k t E Hk) in Hs.
    + intros _. eauto.
  - rewrite stepHasTask_false in Hf.
    assert (¬ ∃ k t, tasks db !! k = Some t ∧ TaskStepID t = id ∧ TaskStatusOf t = TaskFailed) as Hnf.
    { intros (k & t & E & Hk & Hs). specialize (Hf k t E Hk). by rewrite Hs in Hf. }
    destruct (stepHasTask db id (λ s, bool_decide (s = TaskCanceled))) eqn:Hc.
    + apply stepHasTask_true in Hc as (k & t & E & Hk & Hs). apply bool_decide_eq_true in Hs.
      repeat split; try done. intros H. by rewrite (H k t E Hk) in Hs.
    + rewrite stepHasTask_false in Hc. repeat split; try done. intros _ k t E Hk.
      specialize (Hall k t E Hk). specialize (Hf k t E Hk). specialize (Hc k t E Hk).
      by destruct (TaskStatusOf t).
Qed.

Lemma jobHasStep_true db id p :
  jobHasStep db id p = true ↔
  ∃ k s, steps db !! k = Some s ∧ StepJobID s = id ∧ p (StepStatusOf s) = true.
Proof.
  unfold jobHasStep. rewrite exists_where_true. setoid_rewrite andb_true_iff.
  setoid_rewrite bool_decide_eq_true. done.
Qed.

Lemma jobHasStep_false db id p :
  jobHasStep db id p = false ↔
  ∀ k s, steps db !! k = Some s → StepJobID s = id → p (StepStatusOf s) = false.
Proof.
  unfold jobHasStep. rewrite exists_where_false. split; intros H k s E.
  - intros Hk. specialize (H k s E). by rewrite bool_decide_true in H.
  - specialize (H k s E). case_bool_decide; cbn; auto.
Qed.

Lemma jobOutcome_completed db id :
  (∀ k s, steps db !! k = Some s → StepJobID s = id → step_terminal (StepStatusOf s) = true) →
  (jobOutcome db id = JobCompleted ↔
     ∀ k s, steps db !! k = Some s → StepJobID s = id → StepStatusOf s = StepCompleted) ∧
  (jobOutcome db id = JobFailed ↔
     ∃ k s, steps db !! k = Some s ∧ StepJobID s = id ∧ StepStatusOf s = StepFailed).
Proof.
  intros Hall. unfold jobOutcome.
  destruct (jobHasStep db id (λ s, bool_decide (s = StepFailed))) eqn:Hf.
  - apply jobHasStep_true in Hf as (k & s & E & Hk & Hs). apply bool_decide_eq_true in Hs.
    repeat split; try done.
    + intros H. by rewrite (H k s E Hk) in Hs.
    + intros _. eauto.
  - rewrite jobHasStep_false in Hf.
    assert (¬ ∃ k s, steps db !! k = Some s ∧ StepJobID s = id ∧ StepStatusOf s = StepFailed) as Hnf.
    { intros (k & s & E & Hk & Hs). specialize (Hf k s E Hk). by rewrite Hs in Hf. }
    destruct (jobHasStep db id (λ s, bool_decide (s = StepCanceled))) eqn:Hc.
    + apply jobHasStep_true in Hc as (k & s & E & Hk & Hs). apply bool_decide_eq_true in Hs.
      repeat split; try done. intros H. by rewrite (H k s E Hk) in Hs.
    + rewrite jobHasStep_false in Hc. repeat split; try done. intros _ k s E Hk.
      specialize (Hall k s E Hk). specialize (Hf k s E Hk). specialize (Hc k s E Hk).
      by destruct (StepStatusOf s).
Qed.

(** [FinalizeStep] writes a step exactly when the step is open and all its
    tasks are terminal; it then ends completed if and only if every task
    succeeded, failed if and only if one failed, and otherwise canceled.  An open
    step with an open task, and a finished step, are left alone. *)
Theorem finalize_step_outcome id now db st :
  steps db !! id = Some st →
  let '(r, db') := FinalizeStep id now db in
  (r = Ok (Some (stepOutcome db id), true) ↔
     step_terminal (StepStatusOf st) = false ∧
     ∀ k t, tasks db !! k = Some t → TaskStepID t = id → task_terminal (TaskStatusOf t) = true) ∧
  (r = Ok (Some (stepOutcome db id), true) →
     steps db' = <[id := step_to (stepOutcome db id) now st]> (steps db) ∧
     (stepOutcome db id = StepCompleted ↔
        ∀ k t, tasks db !! k = Some t → TaskStepID t = id → TaskStatusOf t = TaskSucceeded) ∧
     (stepOutcome db id = StepFailed ↔
        ∃ k t, tasks db !! k = Some t ∧ TaskStepID t = id ∧ TaskStatusOf t = TaskFailed)) ∧
  (r ≠ Ok (Some (stepOutcome db id), true) → db' = db ∧
     r = Ok (if step_terminal (StepStatusOf st) then Some (StepStatusOf st) else None, false)).
Proof.
  intros E. unfold FinalizeStep, inTx, get. rewrite E. cbn [res_bind]. unfold finalizeStepGuard.
  pose proof (stepHasNoOpenTask_true db id) as Hopen.
  destruct (step_terminal (StepStatusOf st)) eqn:Ht; cbn [negb andb].
  { split; [split; [done|by intros []]|]. done. }
  destruct (stepHasNoOpenTask db id) eqn:Ho.
  2: { split; [|done]. split; [done|]. intros [_ H%Hopen]. done. }
  split; [split; [by intros _; split; [|apply Hopen]|done]|]. split; [|done]. intros _.
  pose proof (stepOutcome_spec db id Ho) as (H1 & H2 & _). split; [|done]. cbn.
  apply map_eq. intros k. rewrite lookup_update_where. unfold finalizeStepGuard.
  destruct (decide (id = k)) as [<-|Hne].
  - rewrite lookup_insert_eq, E. cbn. by rewrite bool_decide_true, Ht, Ho.
  - rewrite lookup_insert_ne, bool_decide_false by congruence. by destruct (steps db !! k).
Qed.

(** A step whose tasks all ended, one of them failed. *)
Definition sampleEnded : DB :=
  set_tasks {["t1"%string := Sample.task TaskSucceeded 3; "t2"%string := Sample.task TaskFailed 4]} Sample.db.

Lemma finalize_step_outcome_witness :
  steps sampleEnded !! "s"%string = Some (Sample.stepRow StepReady) ∧
  (FinalizeStep "s" 20 sampleEnded).1 = Ok (Some StepFailed, true).
Proof.
  split; [by vm_compute|].
  assert (steps sampleEnded !! "s"%string = Some (Sample.stepRow StepReady)) as E by by vm_compute.
  pose proof (finalize_step_outcome "s" 20 sampleEnded (Sample.stepRow StepReady) E) as H.
  destruct (FinalizeStep "s" 20 sampleEnded) as [r db'] eqn:Er. destruct H as (H & _ & _).
  assert (stepOutcome sampleEnded "s" = StepFailed) as Ho by by vm_compute. rewrite Ho in H.
  apply H. split; [done|]. by apply stepHasNoOpenTask_true; vm_compute.
Defined.

(** ** Steps follow their state machine *)

(** A legal arrow of the step lifecycle, or no change; finalizing is the one
    operation whose guard also admits a pending step. *)
Definition step_change (o : Op) (s s' : StepStatus) : Prop :=
  s' = s ∨ ValidateStepTransition s s' = Ok tt ∨
  match o with
  | OpFinalizeStep _ _ => s = StepPending ∧ step_terminal s' = true
  | _ => False
  end.

(** How a command treats the steps it finds: each keeps its job and moves by
    [step_change], and a step newly completed has only succeeded tasks. *)
Record StepsMove (o : Op) (db db' : DB) : Prop := mkStepsMove {
  sm_change : ∀ k s s', steps db !! k = Some s → steps db' !! k = Some s' →
    StepJobID s' = StepJobID s ∧ step_change o (StepStatusOf s) (StepStatusOf s');
  sm_completed : ∀ k s', steps db' !! k = Some s' → StepStatusOf s' = StepCompleted →
    (∃ s, steps db !! k = Some s ∧ StepStatusOf s = StepCompleted) ∨
    (∀ i t, tasks db' !! i = Some t → TaskStepID t = k → TaskStatusOf t = TaskSucceeded);
  sm_new : ∀ k s', steps db' !! k = Some s' → is_Some (steps db !! k) ∨
    ∃ j, jobs db' !! StepJobID s' = Some j ∧ JobStatusOf j ≠ JobCompleted;
}.

Lemma StepsMove_sub o db db' : steps db' ⊆ steps db → StepsMove o db db'.
Proof.
  intros Hs. split.
  - intros k s s' E E'. pose proof (lookup_weaken _ _ _ _ E' Hs). simplify_eq. split; [done|by left].
  - intros k s' E' Hc. left. exists s'. split; [|done]. by eapply lookup_weaken.
  - intros k s' E'. left. exists s'. by eapply lookup_weaken.
Qed.

(** One UPDATE of the steps table that completes no step. *)
Lemma StepsMove_update o db db' p f :
  steps db' = update_where p f (steps db) →
  (∀ k s, steps db !! k = Some s → p k s = true →
     StepJobID (f k s) = StepJobID s ∧ step_change o (StepStatusOf s) (StepStatusOf (f k s)) ∧
     StepStatusOf (f k s) ≠ StepCompleted) →
  StepsMove o db db'.
Proof.
  intros Es Hp. split; rewrite Es.
  - intros k s s' E E'. rewrite (update_where_some _ _ _ _ _ E) in E'. injection E' as <-.
    destruct (p k s) eqn:Ep; [|split; [done|by left]]. by destruct (Hp k s E Ep) as (? & ? & _).
  - intros k s' E' Hc. apply update_where_inv in E' as (s & E & [[Ep ->]|[Ep ->]]); [|eauto].
    by destruct (Hp k s E Ep) as (_ & _ & H).
  - intros k s' E'. left. apply update_where_inv in E' as (s & E & _). eauto.
Qed.

(** A step moved to its outcome once no task of it is open. *)
Lemma StepsMove_outcome o db db' p f now :
  steps db' = update_where p (λ k s, step_to (f k s) now s) (steps db) → tasks db' = tasks db →
  (∀ k s, steps db !! k = Some s → p k s = true →
     step_change o (StepStatusOf s) (f k s) ∧
     (f k s = StepCompleted → stepHasNoOpenTask db k = true ∧ stepOutcome db k = StepCompleted)) →
  StepsMove o db db'.
Proof.
  intros Es Et Hp. split; rewrite Es.
  - intros k s s' E E'. rewrite (update_where_some _ _ _ _ _ E) in E'. injection E' as <-.
    destruct (p k s) eqn:Ep; [|split; [done|by left]]. split; [done|]. cbn. by apply Hp.
  - intros k s' E' Hc. apply update_where_inv in E' as (s & E & [[Ep ->]|[Ep ->]]); [|eauto].
    right. rewrite Et. cbn in Hc. destruct (Hp k s E Ep) as [_ Hout].
    destruct (Hout Hc) as [Ho Hco]. by apply (stepOutcome_spec db k Ho).
  - intros k s' E'. left. apply update_where_inv in E' as (s & E & _). eauto.
Qed.

(** ** The rows a submission adds *)

Lemma stampTasks_elem clock c ts rows c' k t' :
  stampTasks clock c ts = (rows, c') → (k, t') ∈ rows → ∃ t now, (k, t) ∈ ts ∧ t' = stamp_task now t.
Proof.
  revert c rows. induction ts as [|[id t] ts IH]; intros c rows; cbn [stampTasks].
  { intros [= <- <-] H. by apply elem_of_nil in H. }
  destruct (tick clock c) as [now c1]. destruct (stampTasks clock c1 ts) as [out c2] eqn:E.
  intros [= <- <-] [H|H]%elem_of_cons.
  - injection H as -> ->. exists t, now. split; [apply elem_of_cons; auto|done].
  - destruct (IH _ _ E H) as (t0 & now0 & Hin & ->). exists t0, now0.
    split; [apply elem_of_cons; auto|done].
Qed.

Lemma insertTaskRows_new rows db db' :
  insertTaskRows rows db = Ok db' →
  db' = set_tasks (tasks db') db ∧
  ∀ k t, tasks db' !! k = Some t → tasks db !! k = Some t ∨ (k, t) ∈ rows.
Proof.
  revert db. induction rows as [|[id t] rows IH]; intros db; cbn [insertTaskRows].
  { intros H. invert_ok. split; [by destruct db'|auto]. }
  intros H. apply res_bind_ok in H as (db1 & H1 & H). unfold insertTask in H1.
  destruct (_ || _); [done|]. invert_ok. destruct (IH _ H) as [Hdb Hnew]. split; [by rewrite Hdb|].
  intros k x E. destruct (Hnew k x E) as [E'|E']; [|right; apply elem_of_cons; auto].
  cbn in E'. destruct (decide (id = k)) as [<-|Hne].
  - rewrite lookup_insert_eq in E'. injection E' as ->. right. apply elem_of_cons; auto.
  - rewrite lookup_insert_ne in E' by done. auto.
Qed.

Lemma insertTasksBatches_new clock order fuel c ts n db out c' db' :
  insertTasksBatches clock order fuel c ts n db = Ok (out, c', db') →
  db' = set_tasks (tasks db') db ∧
  ∀ k t', tasks db' !! k = Some t' →
    tasks db !! k = Some t' ∨ ∃ t now, (k, t) ∈ ts ∧ t' = stamp_task now t.
Proof.
  revert c ts db out. induction fuel as [|fuel IH]; intros c ts db out; cbn [insertTasksBatches].
  { intros H. invert_ok. split; [by destruct db'|auto]. }
  destruct ts as [|t0 ts']; [intros H; invert_ok; split; [by destruct db'|auto]|].
  set (ts := t0 :: ts'). set (m := Z.to_nat _).
  destruct (stampTasks _ _ _) as [rs c1] eqn:Est. intros H.
  apply res_bind_ok in H as ([stored db1] & H1 & H).
  apply res_bind_ok in H as ([[out' c2] db2] & H2 & H). invert_ok.
  unfold runInsertTasks in H1. apply res_bind_ok in H1 as (d & H1 & H3).
  destruct (negb _); [done|]. invert_ok.
  destruct (IH _ _ _ _ H2) as [Hdb Hnew]. destruct (insertTaskRows_new _ _ _ H1) as [Hd Hrows].
  split; [rewrite Hdb; by rewrite Hd|]. intros k t' E.
  destruct (Hnew k t' E) as [E'|(t & now & Hin & ->)].
  - destruct (Hrows k t' E') as [|Hr]; [auto|]. right.
    destruct (stampTasks_elem _ _ _ _ _ _ _ Est Hr) as (t & now & Hin & ->). exists t, now.
    split; [|done]. rewrite <- (take_drop m ts). apply elem_of_app. auto.
  - right. exists t, now. split; [|done]. rewrite <- (take_drop m ts). apply elem_of_app. auto.
Qed.

Lemma insertStepsTx_new clock c ss db out c' db' :
  insertStepsTx clock c ss db = Ok (out, c', db') →
  db' = set_steps (steps db') db ∧
  (∀ k, k ∈ ss.*1 → steps db !! k = None ∧ is_Some (steps db' !! k)) ∧ steps db ⊆ steps db' ∧
  ∀ k s', steps db' !! k = Some s' →
    steps db !! k = Some s' ∨ ∃ s now, (k, s) ∈ ss ∧ s' = stamp_step now s.
Proof.
  revert c db out. induction ss as [|[id s] ss IH]; intros c db out; cbn [insertStepsTx].
  { intros H. invert_ok. split; [by destruct db'|]. split; [|auto].
    intros k Hk. by apply elem_of_nil in Hk. }
  destruct (tick clock c) as [now c1]. intros H. apply res_bind_ok in H as (db1 & H1 & H).
  apply res_bind_ok in H as ([[out' c2] db2] & H2 & H). invert_ok.
  unfold insertStep in H1. destruct (_ || _) eqn:Hp; [done|]. invert_ok.
  apply orb_false_iff in Hp as [[Hp _]%orb_false_iff _].
  assert (steps db !! id = None) as Hfresh.
  { unfold present, row_matches in Hp. by destruct (steps db !! id). }
  destruct (IH _ _ _ H2) as (Hdb & Hnone & Hsub & Hnew). cbn in Hsub. split; [by rewrite Hdb|].
  split; [|split].
  - intros k [->|Hk]%elem_of_cons; [split; [done|]|].
    + eexists. eapply lookup_weaken; [|exact Hsub]. apply lookup_insert_eq.
    + destruct (Hnone k Hk) as [Hn Hin]. split; [|done]. cbn in Hn. by apply lookup_insert_None in Hn as [].
  - etrans; [|exact Hsub]. by apply insert_subseteq.
  - intros k s' E. destruct (Hnew k s' E) as [E'|(s0 & now0 & Hin & ->)].
    + cbn in E'. destruct (decide (id = k)) as [<-|Hne].
      * rewrite lookup_insert_eq in E'. injection E' as <-. right. exists s, now.
        split; [apply elem_of_cons; auto|done].
      * rewrite lookup_insert_ne in E' by done. auto.
    + right. exists s0, now0. split; [apply elem_of_cons; auto|done].
Qed.

(** What a committed submission adds, or nothing. *)
Lemma CreateJobSubmission_new clock order sub n now db :
  let db' := (CreateJobSubmission clock order sub n now db).2 in
  db' = db ∨
  (jobs db !! SubJobID sub = None ∧
   jobs db' = <[SubJobID sub := stamp_job now (SubJob sub)]> (jobs db) ∧
   (∀ k, k ∈ (SubSteps sub).*1 → steps db !! k = None ∧ is_Some (steps db' !! k)) ∧
   (∀ k s', steps db' !! k = Some s' → steps db !! k = Some s' ∨
      ∃ s at_, (k, s) ∈ SubSteps sub ∧ s' = stamp_step at_ s) ∧
   (∀ k t', tasks db' !! k = Some t' → tasks db !! k = Some t' ∨
      ∃ t at_, (k, t) ∈ SubTasks sub ∧ t' = stamp_task at_ t)).
Proof.
  unfold CreateJobSubmission. apply inTx_prop; [auto|]. intros r db' H. right.
  apply res_bind_ok in H as ([j db1] & H1 & H). apply res_bind_ok in H as (? & _ & H).
  apply res_bind_ok in H as ([[ss c1] db3] & H3 & H).
  apply res_bind_ok in H as ([[ts c2] db4] & H4 & H). apply res_bind_ok in H as (? & _ & H). invert_ok.
  unfold insertJobTx in H1. destruct (_ || _) eqn:Hp; [done|]. invert_ok.
  apply orb_false_iff in Hp as [[Hp _]%orb_false_iff _].
  destruct (insertStepsTx_new _ _ _ _ _ _ _ H3) as (Hd3 & Hnone & _ & Hsteps).
  destruct (insertTasksBatches_new _ _ _ _ _ _ _ _ _ _ H4) as (Hd4 & Htasks).
  split; [unfold present, row_matches in Hp; by destruct (jobs db !! SubJobID sub)|].
  split; [by rewrite Hd4, Hd3|]. split; [by rewrite Hd4|]. split.
  - intros k s'. rewrite Hd4. cbn. apply Hsteps.
  - intros k t' E. destruct (Htasks k t' E) as [E'|]; [|auto]. left. by rewrite Hd3 in E'.
Qed.

(** ** Every command *)

Lemma step_arrow o s s' : s' ∈ validStepTransitions s → step_change o s s'.
Proof. intros H. right; left. unfold ValidateStepTransition. by rewrite bool_decide_true. Qed.

Lemma submit_steps clock order sub n now db :
  submissionBuilt sub = true →
  StepsMove (OpSubmit clock order sub n now) db (CreateJobSubmission clock order sub n now db).2.
Proof.
  intros Hb. pose proof (CreateJobSubmission_grows clock order sub n now db) as [_ _ _ _ Hgs].
  destruct (CreateJobSubmission_new clock order sub n now db) as [->|(_ & Hj & _ & Hnew & _)];
    [by apply StepsMove_sub|].
  unfold submissionBuilt in Hb. apply andb_prop in Hb as [[[Hb Hs]%andb_prop _]%andb_prop _].
  rewrite forallb_forall in Hs. setoid_rewrite <- list_elem_of_In in Hs. split.
  - intros k s s' E E'. pose proof (lookup_weaken _ _ _ _ E Hgs). simplify_eq. split; [done|by left].
  - intros k s' E' Hc. destruct (Hnew k s' E') as [E|(s & at_ & Hin & ->)]; [eauto|].
    exfalso. specialize (Hs (k, s) Hin). cbn in Hs, Hc. rewrite Hc in Hs. by rewrite andb_false_r in Hs.
  - intros k s' E'. destruct (Hnew k s' E') as [E|(s & at_ & Hin & ->)]; [eauto|].
    right. specialize (Hs (k, s) Hin). split_guard. cbn in *.
    match goal with H : StepJobID s = _ |- _ => rewrite H end.
    rewrite Hj, lookup_insert_eq. eexists. split; [done|]. cbn. by destruct (JobStatusOf (SubJob sub)).
Qed.

Lemma finalizeStep_steps id now db :
  StepsMove (OpFinalizeStep id now) db (FinalizeStep id now db).2.
Proof.
  unfold FinalizeStep. apply inTx_prop; [by apply StepsMove_sub|]. intros r db' H. invert_ok.
  destruct (finalizeStepGuard db id a) eqn:Hg; [|repeat case_in H; by invert_ok].
  invert_ok. eapply (StepsMove_outcome _ _ _ _ (λ k _, stepOutcome db k)); [cbn; reflexivity|done|].
  intros k s E Ep. split_guard. subst k. unfold finalizeStepGuard in *. split_guard. split; [|done].
  match goal with H : stepHasNoOpenTask db id = true |- _ =>
    pose proof (stepOutcome_spec db id H) as (_ & _ & Hterm) end.
  repeat match goal with H : negb _ = true |- _ => apply negb_true_iff in H end.
  destruct (stepOutcome db id); try done; destruct (StepStatusOf s); try done;
    first [by right; right|apply step_arrow; set_solver].
Qed.

Lemma movePending_steps o id sTo tTo reason now db :
  sTo ∈ [StepReady; StepCanceled] → StepsMove o db (movePendingStep id sTo tTo reason now db).2.
Proof.
  intros Hto. unfold movePendingStep. apply inTx_prop; [by apply StepsMove_sub|]. intros r db' H.
  invert_ok. destruct (_ && _); [by invert_ok|]. destruct (negb _); [by invert_ok|]. invert_ok.
  eapply StepsMove_update; [cbn; reflexivity|]. intros k s E Ep. split_guard. cbn.
  match goal with H : StepStatusOf s = _ |- _ => rewrite H end.
  split; [done|]. split; [by apply step_arrow|]. set_solver.
Qed.

Lemma cancelBlocked_steps id reason now db :
  StepsMove (OpCancelBlockedJob id reason now) db (CancelBlockedJob id reason now db).2.
Proof.
  unfold CancelBlockedJob. apply inTx_prop; [by apply StepsMove_sub|]. intros r db' H. invert_ok.
  destruct (negb _); [by invert_ok|]. invert_ok.
  eapply StepsMove_update; [cbn; reflexivity|]. intros k s E Ep. split_guard. cbn.
  split; [done|]. split; [|done]. apply step_arrow. destruct (StepStatusOf s); try done; set_solver.
Qed.

Lemma retry_steps jobID ids now db :
  StepsMove (OpRetryTasks jobID ids now) db (RetryTasks jobID ids now db).2.
Proof.
  unfold RetryTasks. destruct (match ids with Some [] => true | _ => false end);
    [by apply StepsMove_sub|].
  apply inTx_prop; [by apply StepsMove_sub|]. intros r db' H.
  case_bool_decide; invert_ok; [by apply StepsMove_sub|].
  eapply StepsMove_update; [cbn; reflexivity|]. intros k s E Ep. split_guard. cbn.
  split; [done|]. split; [|done]. apply step_arrow. destruct (StepStatusOf s); try done; set_solver.
Qed.

Lemma cancelJob_steps jobID reason now db :
  StepsMove (OpCancelJob jobID reason now) db (CancelJobExecution jobID reason now db).2.
Proof.
  set (db3 := sqlReleaseClosedJobClaims jobID now
                (sqlCancelJobAttempts jobID now (sqlCancelJobTasks jobID reason now db))).
  assert (StepsMove (OpCancelJob jobID reason now) db3 (CancelJobExecution jobID reason now db).2) as H.
  { eapply (StepsMove_outcome _ db3 _ _ (cancelStepOutcome db3)); [reflexivity|done|].
    intros k s E Ep. unfold finalizeStepGuard in Ep. split_guard.
    repeat match goal with H : negb _ = true |- _ => apply negb_true_iff in H end.
    match goal with H : stepHasNoOpenTask ?d k = true |- _ =>
      assert (stepHasNoOpenTask db3 k = true) as Ho by exact H end.
    pose proof (stepOutcome_spec db3 k Ho) as (_ & _ & Hterm). unfold cancelStepOutcome.
    case_bool_decide as Hp; [rewrite Hp; split; [apply step_arrow; set_solver|done]|].
    destruct (negb _); (split; [|done]).
    - apply step_arrow. destruct (StepStatusOf s); try done; set_solver.
    - destruct (stepOutcome db3 k); try done; destruct (StepStatusOf s); try done;
        apply step_arrow; set_solver. }
  destruct H as [H1 H2 H3]. by split.
Qed.

Lemma run_steps o db : allowed o db = true → StepsMove o db (run o db).
Proof.
  intros Ha. destruct (leaves_jobs o) eqn:Ho.
  { apply StepsMove_sub. by destruct (leaves_jobs_same o db Ho) as [_ ->]. }
  destruct o; try done; cbn [run]; try (by apply StepsMove_sub).
  - by apply submit_steps.
  - apply StepsMove_sub. assert (steps (UpdateJob id e now db).2 = steps db) as ->; [|done].
    unfold UpdateJob. destruct (jobs db !! id); [|done]. by destruct (_ && _).
  - unfold demoteStalledJob. apply inTx_prop; [by apply StepsMove_sub|]. intros r db' H.
    destruct (row_matches _ _ _); invert_ok; by apply StepsMove_sub.
  - unfold ReleaseBlockedJob. apply inTx_prop; [by apply StepsMove_sub|]. intros r db' H.
    invert_ok. by apply StepsMove_sub.
  - apply cancelBlocked_steps.
  - apply finalizeStep_steps.
  - unfold FinalizeJob. apply inTx_prop; [by apply StepsMove_sub|]. intros r db' H. invert_ok.
    repeat case_in H; invert_ok; try done. by apply StepsMove_sub.
  - apply movePending_steps. set_solver.
  - apply movePending_steps. set_solver.
  - apply retry_steps.
  - unfold RecordTaskFailure. apply inTx_prop; [by apply StepsMove_sub|]. intros r db' H. invert_ok.
    destruct (negb _); invert_ok; by apply StepsMove_sub.
  - apply cancelJob_steps.
  - apply StepsMove_sub, DeleteJob_shrinks.
  - apply StepsMove_sub, purgeExpiredJob_shrinks.
Qed.

(** ** Finished work *)

Record Finished (db : DB) : Prop := mkFinished {
  finished_steps : ∀ k s, steps db !! k = Some s → StepStatusOf s = StepCompleted →
    ∀ i t, tasks db !! i = Some t → TaskStepID t = k → TaskStatusOf t = TaskSucceeded;
  finished_jobs : ∀ k j, jobs db !! k = Some j → JobStatusOf j = JobCompleted →
    ∀ i s, steps db !! i = Some s → StepJobID s = k → StepStatusOf s = StepCompleted;
}.

Lemma task_change_succeeded o s : task_change o TaskSucceeded s → s = TaskSucceeded.
Proof.
  intros [[->|H]|H]; [done|..].
  - unfold ValidateTaskTransition in H. by rewrite bool_decide_false in H by set_solver.
  - destruct o; try done. by destruct H.
Qed.

Lemma step_change_completed o s : step_change o StepCompleted s → s = StepCompleted.
Proof.
  intros [->|[H|H]]; [done|..].
  - unfold ValidateStepTransition in H. by rewrite bool_decide_false in H by set_solver.
  - destruct o; try done. by destruct H.
Qed.

(** A task of the database after a command was there before, of the same step,
    or came with a submission under one of its new steps. *)
Lemma run_task_origin o db i t' :
  allowed o db = true → tasks (run o db) !! i = Some t' →
  (∃ t, tasks db !! i = Some t ∧ TaskStepID t' = TaskStepID t) ∨
  steps db !! TaskStepID t' = None.
Proof.
  intros Ha E'. pose proof (run_keeps o db Ha) as HK.
  assert (∀ d, Keeps db d → tasks d !! i = Some t' →
    ∃ t, tasks db !! i = Some t ∧ TaskStepID t' = TaskStepID t) as Hkeep.
  { intros d [[Ht _ _] _] Ed. destruct (pointwise_some_inv _ _ _ _ _ Ht Ed) as (t & E & (_ & Hs & _)). eauto. }
  destruct o; try (left; by eapply Hkeep); cbn [run] in E'.
  - destruct (CreateJobSubmission_new clock order sub batchRows now db) as [H|(_ & _ & Hn & _ & Ht)].
    { rewrite H in E'. eauto. }
    destruct (Ht _ _ E') as [E|(t & at_ & Hin & ->)]; [eauto|]. right. apply Hn. cbn in Ha.
    unfold submissionBuilt in Ha. apply andb_prop in Ha as [[_ Ha]%andb_prop _]. rewrite forallb_forall in Ha.
    specialize (Ha (i, t)). rewrite <- list_elem_of_In in Ha. specialize (Ha Hin).
    apply andb_prop in Ha as [[_ Ha]%andb_prop _]. by apply bool_decide_eq_true in Ha.
  - left. destruct (LeaseTask req db) as [r db'] eqn:E.
    destruct (LeaseTask_outcome _ _ _ _ E) as [(aid & a & ->)|[-> _]]; [|by eauto].
    apply LeaseTask_leased in E as (t & j & q & f & _ & [Ht _ _ _ Et _ _ _ _ _] & _).
    cbn in E'. rewrite Et in E'. destruct (decide (ReqTaskID req = i)) as [<-|Hne].
    + rewrite lookup_insert_eq in E'. injection E' as <-. eauto.
    + rewrite lookup_insert_ne in E' by done. eauto.
  - left. exists t'. split; [|done]. eapply lookup_weaken; [exact E'|apply DeleteJob_shrinks].
  - left. exists t'. split; [|done]. eapply lookup_weaken; [exact E'|].
    apply purgeExpiredJob_shrinks.
Qed.

(** No row is added. *)
Definition rows_from {A} (m m' : gmap string A) : Prop :=
  ∀ k, is_Some (m' !! k) → is_Some (m !! k).

Lemma rows_from_refl {A} (m m' : gmap string A) : m' = m → rows_from m m'.
Proof. by intros -> k. Qed.

Lemma rows_from_sub {A} (m m' : gmap string A) : m' ⊆ m → rows_from m m'.
Proof. intros Hs k [x E]. exists x. by eapply lookup_weaken. Qed.

Lemma rows_from_update {A} p f (m m' : gmap string A) : m' = update_where p f m → rows_from m m'.
Proof. intros -> k [x E]. apply update_where_inv in E as (y & E & _). eauto. Qed.

(** Only a submission adds jobs. *)
Lemma run_job_rows o db :
  match o with
  | OpSubmit _ _ _ _ _ => True
  | _ => rows_from (jobs db) (jobs (run o db))
  end.
Proof.
  destruct (leaves_jobs o) eqn:Ho.
  { destruct (leaves_jobs_same o db Ho) as [H _]. destruct o; try done; by apply rows_from_refl. }
  destruct o; try done; cbn [run]; try (by eapply rows_from_update; cbn).
  - unfold UpdateJob. destruct (jobs db !! id) eqn:E; [|by apply rows_from_refl].
    destruct (_ && _); [|by apply rows_from_refl]. intros k [x Ek]. cbn in Ek.
    destruct (decide (id = k)) as [<-|Hne]; [eauto|]. rewrite lookup_insert_ne in Ek by done. eauto.
  - unfold demoteStalledJob. apply inTx_prop; [by apply rows_from_refl|]. intros r db' H.
    destruct (row_matches _ _ _); invert_ok; [|by apply rows_from_refl]. by eapply rows_from_update; cbn.
  - unfold ReleaseBlockedJob. apply inTx_prop; [by apply rows_from_refl|]. intros r db' H. invert_ok.
    by eapply rows_from_update; cbn.
  - unfold CancelBlockedJob. apply inTx_prop; [by apply rows_from_refl|]. intros r db' H. invert_ok.
    destruct (negb _); invert_ok; [done|]. by eapply rows_from_update; cbn.
  - unfold FinalizeStep. apply inTx_prop; [by apply rows_from_refl|]. intros r db' H. invert_ok.
    repeat case_in H; invert_ok; try done. by apply rows_from_refl.
  - unfold FinalizeJob. apply inTx_prop; [by apply rows_from_refl|]. intros r db' H. invert_ok.
    repeat case_in H; invert_ok; try done. by eapply rows_from_update; cbn.
  - unfold ReleaseStep, movePendingStep. apply inTx_prop; [by apply rows_from_refl|]. intros r db' H.
    invert_ok. repeat case_in H; invert_ok; try done. by apply rows_from_refl.
  - unfold CancelPendingStep, movePendingStep. apply inTx_prop; [by apply rows_from_refl|]. intros r db' H.
    invert_ok. repeat case_in H; invert_ok; try done. by apply rows_from_refl.
  - unfold RetryTasks. destruct (match ids with Some [] => true | _ => false end); [by apply rows_from_refl|].
    apply inTx_prop; [by apply rows_from_refl|]. intros r db' H.
    case_bool_decide; invert_ok; [by apply rows_from_refl|]. by eapply rows_from_update; cbn.
  - unfold RecordTaskFailure. apply inTx_prop; [by apply rows_from_refl|]. intros r db' H. invert_ok.
    destruct (negb _); invert_ok; [by apply rows_from_refl|]. by eapply rows_from_update; cbn.
  - apply rows_from_sub, DeleteJob_shrinks.
  - apply rows_from_sub, purgeExpiredJob_shrinks.
Qed.

Lemma FinalizeJob_completed id now db k j j' :
  jobs db !! k = Some j → jobs (FinalizeJob id now db).2 !! k = Some j' →
  JobStatusOf j' = JobCompleted → JobStatusOf j ≠ JobCompleted →
  ∀ i s, steps (FinalizeJob id now db).2 !! i = Some s → StepJobID s = k →
         StepStatusOf s = StepCompleted.
Proof.
  intros E. unfold FinalizeJob. apply inTx_prop.
  { intros E' H1 H2. simplify_eq. }
  intros r db' H. apply res_bind_ok in H as (a & _ & H).
  destruct (finalizeJobGuard db id a); [|repeat case_in H; by invert_ok].
  injection H as <- <-. cbn. rewrite (update_where_some _ _ _ _ _ E). intros [= <-] Hc Hn.
  destruct (bool_decide _ && _) eqn:Hp; [|done]. unfold finalizeJobGuard in Hp. split_guard. subst k.
  cbn in Hc. match goal with H : negb (jobHasStep _ _ _) = true |- _ =>
    apply negb_true_iff in H; rewrite jobHasStep_false in H; rename H into Hall end.
  apply jobOutcome_completed; [|done]. intros i s Es Hk. specialize (Hall i s Es Hk).
  by apply negb_false_iff in Hall.
Qed.

(** A job newly completed has only completed steps. *)
Lemma run_job_completed o db k j' :
  allowed o db = true → jobs (run o db) !! k = Some j' → JobStatusOf j' = JobCompleted →
  (∃ j, jobs db !! k = Some j ∧ JobStatusOf j = JobCompleted) ∨
  (∀ i s, steps (run o db) !! i = Some s → StepJobID s = k → StepStatusOf s = StepCompleted).
Proof.
  intros Ha E' Hc. assert (is_Some (jobs db !! k)) as [j E].
  { pose proof (run_job_rows o db) as Hr. destruct o; try (by apply Hr; eauto). cbn [run] in E'.
    destruct (CreateJobSubmission_new clock order sub batchRows now db) as [H|(_ & H & _)];
      rewrite H in E'; [eauto|].
    destruct (decide (SubJobID sub = k)) as [<-|Hne]; [|rewrite lookup_insert_ne in E'; eauto].
    rewrite lookup_insert_eq in E'. injection E' as <-. cbn in Hc, Ha. unfold submissionBuilt in Ha.
    by rewrite Hc in Ha. }
  destruct (decide (JobStatusOf j = JobCompleted)) as [Hj|Hj]; [eauto|].
  pose proof (run_jobs o db k j j' E E') as [Hs|Hs]; [congruence|].
  rewrite Hc in Hs. destruct o; try (by destruct Hs as [_ []]; set_solver). right.
  by eapply FinalizeJob_completed.
Qed.

Lemma run_finished o db : allowed o db = true → Finished db → Finished (run o db).
Proof.
  intros Ha [HS HJ]. pose proof (run_steps o db Ha) as [Hch Hco Hnew]. split.
  - intros k s' E' Hc i t' Et' Hk. destruct (Hco k s' E' Hc) as [(s & E & Hs)|Hall]; [|eauto].
    destruct (run_task_origin o db i t' Ha Et') as [(t & Et & Hst)|Hno]; [|congruence].
    apply (task_change_succeeded o). rewrite <- (HS k s E Hs i t Et) by congruence.
    by apply (run_tasks o db i).
  - intros k j' E' Hc i s' Es' Hk.
    destruct (run_job_completed o db k j' Ha E' Hc) as [(j & E & Hj)|Hall]; [|eauto].
    destruct (Hnew i s' Es') as [[s Es]|(j2 & Ej2 & Hj2)]; [|subst k; congruence].
    destruct (Hch i s s' Es Es') as [Hjob Hst]. apply (step_change_completed o).
    rewrite <- (HJ k j E Hj i s Es) by congruence. done.
Qed.

(** C18. Completed means done: in every reachable database all the steps of a
    completed job are completed, and all the tasks of a completed step have
    succeeded. *)
Theorem completed_means_succeeded db :
  reachable db →
  (∀ k j, jobs db !! k = Some j → JobStatusOf j = JobCompleted →
     ∀ i s, steps db !! i = Some s → StepJobID s = k → StepStatusOf s = StepCompleted) ∧
  (∀ k s, steps db !! k = Some s → StepStatusOf s = StepCompleted →
     ∀ i t, tasks db !! i = Some t → TaskStepID t = k → TaskStatusOf t = TaskSucceeded).
Proof.
  intros Hr. enough (Finished db) as [HS HJ] by done. induction Hr; [|by apply run_finished].
  split; intros k x E; cbn in E; by rewrite lookup_empty in E.
Qed.

(** The sample farm with its job run to completion. *)
Definition sampleDone : DB :=
  default emptyDB (run_all
    [OpComplete (mkAttemptCompletion "a1" "t1" TaskSucceeded AttemptSucceeded (Some 0) "" "" "" 20) 21;
     OpLease (sampleLease "t2" "a2" "w" "c2");
     OpComplete (mkAttemptCompletion "a2" "t2" TaskSucceeded AttemptSucceeded (Some 0) "" "" "" 30) 31;
     OpFinalizeStep "s" 32; OpFinalizeJob "j" 33] sampleReached).

Lemma sampleDone_reachable : reachable sampleDone.
Proof.
  unfold sampleDone. destruct (run_all _ sampleReached) as [db|] eqn:E; [|constructor].
  exact (run_all_reachable _ _ _ sampleReached_reachable E).
Qed.

Lemma completed_means_succeeded_witness :
  reachable sampleDone ∧ JobStatusOf <$> jobs sampleDone !! "j"%string = Some JobCompleted ∧
  ∀ i s, steps sampleDone !! i = Some s → StepJobID s = "j"%string → StepStatusOf s = StepCompleted.
Proof.
  split; [exact sampleDone_reachable|].
  assert (JobStatusOf <$> jobs sampleDone !! "j"%string = Some JobCompleted) as Hj by by vm_compute.
  split; [exact Hj|]. destruct (jobs sampleDone !! "j"%string) as [j|] eqn:E; [|discriminate Hj].
  cbn in Hj. injection Hj as Hj.
  exact (proj1 (completed_means_succeeded _ sampleDone_reachable) _ _ E Hj).
Defined.
