(* ===== verification/Typing.v ===== *)
(** * The tables stay well formed

    Every reference from one table to another holds in every reachable database,
    as do the columns two tables share: what a foreign key of the schema asks of
    one row, and what no key can say. *)

From S2P Require Import Prelude Schema Sample Finalize Attempts Lease Jobs Workers Catalog Evolve Keeps.
From S2P Require Import StoreInv Transitions Outcomes.
Open Scope Z_scope.

(** ** Well-formed tables *)

Record WellFormed (db : DB) : Prop := mkWellFormed {
  wf_step : ∀ k s, steps db !! k = Some s → is_Some (jobs db !! StepJobID s);
  (** A task is of its step's job. *)
  wf_task : ∀ k t, tasks db !! k = Some t →
    ∃ s, steps db !! TaskStepID t = Some s ∧ StepJobID s = TaskJobID t;
  wf_attempt : ∀ k a, attempts db !! k = Some a → is_Some (tasks db !! AttemptTaskID a);
  (** An open attempt's task is in flight on the attempt's worker. *)
  wf_open : ∀ k a, attempts db !! k = Some a → attempt_open a = true →
    ∃ t, tasks db !! AttemptTaskID a = Some t ∧ in_flight (TaskStatusOf t) = true ∧
         AssignedWorkerID t = Some (AttemptWorkerID a);
  wf_claim : ∀ k c, claims db !! k = Some c → is_Some (attempts db !! ClaimAttemptID c);
  (** A log chunk is of its attempt's task. *)
  wf_log : ∀ k l, taskLogs db !! k = Some l →
    ∃ a, attempts db !! LogAttemptID l = Some a ∧ AttemptTaskID a = LogTaskID l;
  wf_dependency : ∀ e, e ∈ jobDependencies db → is_Some (jobs db !! e.1);
}.

Lemma WellFormed_empty : WellFormed emptyDB.
Proof. split; intros k *; cbn; rewrite ?lookup_empty; [done..|]. set_solver. Qed.

(** ** Commands that rewrite rows *)

(** What such a command leaves of the tables. *)
Record Frame (db db' : DB) : Prop := mkFrame {
  fr_logs : taskLogs db' = taskLogs db;
  fr_dependencies : jobDependencies db' = jobDependencies db;
  fr_jobs : pointwise (λ _ _, True) (jobs db) (jobs db');
  fr_steps : pointwise (λ s s', StepJobID s' = StepJobID s) (steps db) (steps db');
}.

#[export] Instance Frame_refl : Reflexive Frame.
Proof. split; try done; by apply pointwise_refl. Qed.

#[export] Instance Frame_trans : Transitive Frame.
Proof.
  intros a b c [H1 H2 H3 H4] [H5 H6 H7 H8]. split; [congruence..| |].
  - by eapply pointwise_trans.
  - eapply pointwise_trans; [|done..]. cbn. congruence.
Qed.

(** Neither jobs, steps, dependencies nor logs are written. *)
Lemma Frame_other db db' :
  taskLogs db' = taskLogs db → jobDependencies db' = jobDependencies db → jobs db' = jobs db →
  steps db' = steps db → Frame db db'.
Proof.
  intros H1 H2 H3 H4. split; [done..|rewrite H3|rewrite H4]; by apply pointwise_refl.
Qed.

Lemma Frame_jobs db db' p f :
  taskLogs db' = taskLogs db → jobDependencies db' = jobDependencies db →
  jobs db' = update_where p f (jobs db) → steps db' = steps db → Frame db db'.
Proof.
  intros H1 H2 H3 H4. split; [done..|rewrite H3|rewrite H4]; [by apply pointwise_update|by apply pointwise_refl].
Qed.

Lemma Frame_steps db db' p f :
  taskLogs db' = taskLogs db → jobDependencies db' = jobDependencies db →
  jobs db' = jobs db → steps db' = update_where p f (steps db) →
  (∀ k s, StepJobID (f k s) = StepJobID s) → Frame db db'.
Proof.
  intros H1 H2 H3 H4 Hf. split; [done..|rewrite H3|rewrite H4]; [by apply pointwise_refl|by apply pointwise_update].
Qed.

Lemma Frame_both db db' p f q g :
  taskLogs db' = taskLogs db → jobDependencies db' = jobDependencies db →
  jobs db' = update_where p f (jobs db) → steps db' = update_where q g (steps db) →
  (∀ k s, StepJobID (g k s) = StepJobID s) → Frame db db'.
Proof. intros H1 H2 H3 H4 Hg. split; [done..|rewrite H3|rewrite H4]; by apply pointwise_update. Qed.

Lemma Frame_closeTasks db db' ids s m n : Frame db db' → Frame db (closeTasksAttemptsTx ids s m n db').
Proof.
  intros H. etrans; [exact H|]. unfold closeTasksAttemptsTx. case_bool_decide; [done|].
  by apply Frame_other.
Qed.

(** A transaction whose body keeps the frame. *)
Lemma Frame_tx {A} (body : DB → res StoreErr (A * txOutcome * DB)) db :
  (∀ a db', body db = Ok (a, txCommit, db') → Frame db db') → Frame db (inTx body db).2.
Proof. intros H. by apply inTx_prop. Qed.

#[export] Hint Extern 4 (Frame _ _) => by apply Frame_other : keeps.
#[export] Hint Extern 5 (Frame _ _) => by eapply Frame_jobs : keeps.
#[export] Hint Extern 5 (Frame _ _) => by eapply Frame_steps : keeps.
#[export] Hint Extern 6 (Frame _ _) => by eapply Frame_both : keeps.

Ltac frame_tx :=
  apply Frame_tx; let r := fresh "r" in let db' := fresh "db'" in let H := fresh "Htx" in
  intros r db' H; invert_ok; repeat case_in H; invert_ok; auto with keeps.

Lemma UpdateJob_frame id e now db : Frame db (UpdateJob id e now db).2.
Proof.
  unfold UpdateJob. destruct (jobs db !! id) as [j|] eqn:E; [|done]. destruct (_ && _); [|done].
  split; [done..| |by apply pointwise_refl]. intros k. cbn.
  destruct (decide (id = k)) as [<-|Hne]; [rewrite E, lookup_insert_eq; by constructor|].
  rewrite lookup_insert_ne by done. destruct (jobs db !! k); by constructor.
Qed.

Lemma LeaseTask_frame req db : Frame db (LeaseTask req db).2.
Proof.
  destruct (LeaseTask req db) as [r db'] eqn:E.
  destruct (LeaseTask_outcome _ _ _ _ E) as [(aid & a & ->)|[-> _]]; [|done].
  apply LeaseTask_leased in E as (t & j & q & f & _ & [_ _ _ _ _ _ _ _ _ ->] & _). by apply Frame_other.
Qed.

Lemma CompleteTaskAttempt_frame c now db : Frame db (CompleteTaskAttempt c now db).2.
Proof.
  unfold CompleteTaskAttempt. apply Frame_tx. intros r db' Htx.
  apply res_bind_ok in Htx as (t0 & _ & Htx). apply res_bind_ok in Htx as ([r1 db1] & H & Htx).
  invert_ok. unfold applyCompletionTx in H. destruct (negb _); [invert_ok; by apply Frame_other|].
  apply res_bind_ok in H as (t & _ & H). destruct (negb _ && negb _); [invert_ok; by apply Frame_other|].
  destruct (casTaskStatusTx _ _ _ _) as [[r' d]|e] eqn:Ecas;
    [|destruct e; invert_ok; by apply Frame_other].
  invert_ok. apply casTaskStatusTx_ok in Ecas as (t' & _ & [(_ & -> & _)|(_ & -> & _)]);
    case_bool_decide; by apply Frame_other.
Qed.

Lemma StartTaskAttempt_frame aid tid sid now db : Frame db (StartTaskAttempt aid tid sid now db).2.
Proof.
  unfold StartTaskAttempt. apply Frame_tx. intros r db' H.
  apply res_bind_ok in H as ([live t] & Hl & H). destruct (negb live); [by invert_ok|].
  destruct (bool_decide (TaskStatusOf t = TaskAssigned)); cbn in H;
    [destruct (negb _); [by invert_ok|]|]; invert_ok;
    (destruct (bool_decide (_ = ""%string)); by apply Frame_other).
Qed.

Lemma offlineWorker_frame id g now db : Frame db (offlineWorker id g now db).2.
Proof.
  unfold offlineWorker. apply Frame_tx. intros r db' H. destruct (negb _); [by invert_ok|].
  unfold reclaimWorkerTasksTx in H. cbn in H. invert_ok. apply Frame_closeTasks. by apply Frame_other.
Qed.

Lemma RegisterWorker_frame id w now db : Frame db (RegisterWorker id w now db).2.
Proof.
  unfold RegisterWorker.
  match goal with |- Frame _ (match inTx ?b db with _ => _ end).2 =>
    assert (Frame db (inTx b db).2) as H; [|by destruct (inTx b db) as [[[[? ?] []]|] ?]]
  end.
  apply Frame_tx. intros r db' H.
  destruct (match workers db !! id with Some _ => _ | None => _ end); [by invert_ok|].
  destruct (_ || _); [by invert_ok|]. destruct (restarted _ _); [|invert_ok; by apply Frame_other].
  unfold reclaimWorkerTasksTx in H. cbn in H. invert_ok. apply Frame_closeTasks. by apply Frame_other.
Qed.

Lemma run_frame o db :
  match o with
  | OpSubmit _ _ _ _ _ | OpDeleteJob _ | OpPurgeJob _ _ _ | OpLog _ _ _ => True
  | _ => Frame db (run o db)
  end.
Proof.
  destruct o; cbn [run]; try done; auto with keeps; try (frame_tx; fail).
  - apply UpdateJob_frame.
  - unfold CancelBlockedJob. frame_tx.
  - unfold ReleaseStep, movePendingStep. frame_tx.
  - unfold CancelPendingStep, movePendingStep. frame_tx.
  - unfold RetryTasks. destruct (match ids with Some [] => true | _ => false end); [done|]. frame_tx.
  - apply LeaseTask_frame.
  - apply StartTaskAttempt_frame.
  - unfold RecordAttemptProgress. apply Frame_tx. intros r db' H.
    apply res_bind_ok in H as ([live t] & Hl & H). cbv zeta in H. repeat case_in H; invert_ok; auto with keeps.
  - apply CompleteTaskAttempt_frame.
  - unfold RecordTaskFailure. apply Frame_tx. intros r db' H. invert_ok.
    destruct (negb _); invert_ok; auto with keeps.
  - unfold ReclaimTaskAttempt. apply Frame_tx. intros r db' H.
    apply res_bind_ok in H as ([live t] & Hl & H). destruct (negb live); invert_ok; [done|].
    apply Frame_closeTasks. by apply Frame_other.
  - unfold reclaimStaleBatch. apply Frame_tx. intros r db' H. case_bool_decide; invert_ok; [done|].
    apply Frame_closeTasks. by apply Frame_other.
  - apply offlineWorker_frame.
  - unfold OfflineWorker. pose proof (offlineWorker_frame id (sameInstance instanceID) now db) as H.
    by destruct (offlineWorker _ _ _ _) as [[[? []]|] db'].
  - apply RegisterWorker_frame.
  - destruct (CreateComputeLocation_writes id name db) as [m ->]. by apply Frame_other.
Qed.

Lemma Frame_wf db db' : Evolves db db' → Frame db db' → Inv db' → WellFormed db → WellFormed db'.
Proof.
  intros [Ht Ha Hc] [Hl Hd Hj Hs] [[Hopen _] _ _] [W1 W2 W3 W4 W5 W6 W7]. split.
  - intros k s' E. destruct (pointwise_some_inv _ _ _ _ _ Hs E) as (s & Es & ->).
    destruct (W1 _ _ Es) as [j Ej]. destruct (pointwise_some _ _ _ _ _ Hj Ej) as (j' & -> & _). eauto.
  - intros k t' E. destruct (pointwise_some_inv _ _ _ _ _ Ht E) as (t & Et & Hj' & Hs' & _).
    destruct (W2 _ _ Et) as (s & Es & Hsj). destruct (pointwise_some _ _ _ _ _ Hs Es) as (s' & Es' & Hk).
    exists s'. rewrite Hs', Hj'. split; [done|congruence].
  - intros k a' E. destruct (pointwise_some_inv _ _ _ _ _ Ha E) as (a & Ea & [[-> _] _]).
    destruct (W3 _ _ Ea) as [t Et]. destruct (pointwise_some _ _ _ _ _ Ht Et) as (t' & -> & _). eauto.
  - intros k a' E Ho. destruct (pointwise_some_inv _ _ _ _ _ Ha E) as (a & Ea & Hk).
    destruct (Hopen _ _ E Ho) as (t' & Et' & Hf'). exists t'. do 2 (split; [done|]).
    destruct (W4 _ _ Ea (attempt_kept_open _ _ Hk Ho)) as (t & Et & _ & Hw).
    destruct Hk as [(Htask & _ & ->) _]. rewrite Htask in Et'.
    destruct (pointwise_some _ _ _ _ _ Ht Et) as (t2 & Et2 & _ & _ & _ & Hk). simplify_eq.
    destruct (Hk Hf') as [_ ->]. done.
  - intros k c' E. destruct (pointwise_some_inv _ _ _ _ _ Hc E) as (c & Ec & _ & -> & _).
    destruct (W5 _ _ Ec) as [a Ea]. destruct (pointwise_some _ _ _ _ _ Ha Ea) as (a' & -> & _). eauto.
  - intros k l. rewrite Hl. intros E. destruct (W6 _ _ E) as (a & Ea & Hk).
    destruct (pointwise_some _ _ _ _ _ Ha Ea) as (a' & Ea' & [[H _] _]). exists a'. split; [done|congruence].
  - intros e. rewrite Hd. intros He. destruct (W7 _ He) as [j Ej].
    destruct (pointwise_some _ _ _ _ _ Hj Ej) as (j' & -> & _). eauto.
Qed.

(** ** Leasing *)

Lemma Leased_wf req db db' t a : Leased req db db' t a → Frame db db' → Inv db → WellFormed db → WellFormed db'.
Proof.
  intros HL [Hl Hd Hj Hs] [[Hopen _] _ _] [W1 W2 W3 W4 W5 W6 W7].
  pose proof HL as [Ht Hr Hfresh Ha Etasks Eatt Hold Hnew _ Hsame].
  assert (∀ k, is_Some (tasks db !! k) → is_Some (tasks db' !! k)) as Hts.
  { intros k [x Ex]. rewrite Etasks. destruct (decide (ReqTaskID req = k)) as [<-|Hne];
      [rewrite lookup_insert_eq|rewrite lookup_insert_ne by done]; eauto. }
  assert (∀ k x, attempts db !! k = Some x → attempts db' !! k = Some x) as Has.
  { intros k x Ex. rewrite Eatt, lookup_insert_ne; [done|]. intros <-. congruence. }
  split.
  - intros k s' E. destruct (pointwise_some_inv _ _ _ _ _ Hs E) as (s & Es & ->).
    destruct (W1 _ _ Es) as [j Ej]. destruct (pointwise_some _ _ _ _ _ Hj Ej) as (j' & -> & _). eauto.
  - intros k t' E. rewrite Etasks in E.
    assert (∃ t0, tasks db !! k = Some t0 ∧ TaskStepID t' = TaskStepID t0 ∧ TaskJobID t' = TaskJobID t0)
      as (t0 & Et0 & -> & ->).
    { destruct (decide (ReqTaskID req = k)) as [<-|Hne].
      - rewrite lookup_insert_eq in E. injection E as <-. by exists t.
      - rewrite lookup_insert_ne in E by done. by exists t'. }
    destruct (W2 _ _ Et0) as (s & Es & Hsj). destruct (pointwise_some _ _ _ _ _ Hs Es) as (s' & Es' & Hk).
    exists s'. split; [done|congruence].
  - intros k a' E. apply Hts. rewrite Eatt in E. destruct (decide (ReqAttemptID req = k)) as [<-|Hne].
    + rewrite lookup_insert_eq in E. injection E as <-. rewrite Ha. cbn. eauto.
    + rewrite lookup_insert_ne in E by done. eauto.
  - intros k a' E Ho. rewrite Eatt in E. rewrite Etasks. destruct (decide (ReqAttemptID req = k)) as [<-|Hne].
    + rewrite lookup_insert_eq in E. injection E as <-. rewrite Ha. cbn. rewrite lookup_insert_eq. eauto.
    + rewrite lookup_insert_ne in E by done. destruct (W4 _ _ E Ho) as (t0 & Et0 & Hf & Hw).
      rewrite lookup_insert_ne; [eauto|]. intros Hk. rewrite <- Hk, Ht in Et0. injection Et0 as <-. by rewrite Hr in Hf.
  - intros k c E. destruct (Hnew _ _ E) as [E'|(r & _ & _ & ->)].
    + destruct (W5 _ _ E') as [x Ex]. eauto.
    + cbn. rewrite Eatt, lookup_insert_eq. eauto.
  - intros k l. rewrite Hl. intros E. destruct (W6 _ _ E) as (x & Ex & Hk). eauto.
  - intros e. rewrite Hd. intros He. destruct (W7 _ He) as [j Ej].
    destruct (pointwise_some _ _ _ _ _ Hj Ej) as (j' & -> & _). eauto.
Qed.

(** ** Submitting *)

Lemma CreateJobSubmission_side clock order sub n now db :
  let db' := (CreateJobSubmission clock order sub n now db).2 in
  taskLogs db' = taskLogs db ∧
  (∀ e, e ∈ jobDependencies db' → e ∈ jobDependencies db ∨ is_Some (jobs db' !! e.1)).
Proof.
  unfold CreateJobSubmission. apply inTx_prop; [auto|]. intros r db' H.
  apply res_bind_ok in H as ([j db1] & H1 & H). apply res_bind_ok in H as (? & _ & H).
  apply res_bind_ok in H as ([[ss c1] db3] & H3 & H).
  apply res_bind_ok in H as ([[ts c2] db4] & H4 & H). apply res_bind_ok in H as (? & _ & H). invert_ok.
  unfold insertJobTx in H1. destruct (_ || _) eqn:Hp; [done|]. invert_ok.
  destruct (insertStepsTx_new _ _ _ _ _ _ _ H3) as (Hd3 & _).
  destruct (insertTasksBatches_new _ _ _ _ _ _ _ _ _ _ H4) as (Hd4 & _).
  rewrite Hd4, Hd3. split; [done|]. intros e He. cbn in *.
  apply elem_of_union in He as [He|He]; [|auto]. right.
  apply elem_of_list_to_set, list_elem_of_fmap in He as (u & -> & _). cbn. rewrite lookup_insert_eq. eauto.
Qed.

Lemma submit_wf clock order sub n now db :
  submissionBuilt sub = true → WellFormed db → WellFormed (CreateJobSubmission clock order sub n now db).2.
Proof.
  intros Hb [W1 W2 W3 W4 W5 W6 W7].
  pose proof (CreateJobSubmission_grows clock order sub n now db) as [Gt Ga Gc Gj Gs].
  destruct (CreateJobSubmission_side clock order sub n now db) as [Hl Hd].
  destruct (CreateJobSubmission_new clock order sub n now db) as [E0|(_ & Hj & Hin & Hsteps & Htasks)].
  { by rewrite E0. }
  set (db' := (CreateJobSubmission clock order sub n now db).2) in *.
  unfold submissionBuilt in Hb. apply andb_prop in Hb as [[[_ Hs]%andb_prop Ht]%andb_prop _].
  rewrite forallb_forall in Hs, Ht. setoid_rewrite <- list_elem_of_In in Hs. setoid_rewrite <- list_elem_of_In in Ht.
  split.
  - intros k s' E. destruct (Hsteps _ _ E) as [E'|(s & at_ & Hi & ->)].
    + destruct (W1 _ _ E') as [j Ej]. exists j. by eapply lookup_weaken.
    + specialize (Hs _ Hi). split_guard. cbn in *.
      match goal with H : StepJobID s = _ |- _ => rewrite H end. rewrite Hj, lookup_insert_eq. eauto.
  - intros k t' E. destruct (Htasks _ _ E) as [E'|(t & at_ & Hi & ->)].
    + destruct (W2 _ _ E') as (s & Es & Hk). exists s. split; [by eapply lookup_weaken|done].
    + specialize (Ht _ Hi). split_guard. cbn in *.
      match goal with H : TaskStepID t ∈ _ |- _ => destruct (Hin _ H) as [Hnone [s' Es']] end.
      exists s'. split; [done|]. destruct (Hsteps _ _ Es') as [E'|(s & at' & Hi' & ->)]; [congruence|].
      specialize (Hs _ Hi'). split_guard. cbn in *. congruence.
  - intros k a. rewrite Ga. intros E. destruct (W3 _ _ E) as [t Et]. exists t. by eapply lookup_weaken.
  - intros k a. rewrite Ga. intros E Ho. destruct (W4 _ _ E Ho) as (t & Et & H).
    exists t. split; [by eapply lookup_weaken|done].
  - intros k c. rewrite Gc, Ga. apply W5.
  - intros k l. rewrite Hl, Ga. apply W6.
  - intros e He. destruct (Hd _ He) as [He'|H]; [|done]. destruct (W7 _ He') as [j Ej].
    exists j. by eapply lookup_weaken.
Qed.

(** ** Deleting *)

Lemma delete_where_some {A} p (m : gmap string A) k x :
  delete_where p m !! k = Some x ↔ m !! k = Some x ∧ p k x = false.
Proof. apply map_lookup_filter_Some. Qed.

Lemma row_matches_some {A} (m : gmap string A) k x g : m !! k = Some x → row_matches m k g = g x.
Proof. unfold row_matches. by intros ->. Qed.

Lemma deleteJobCascadeTx_wf id db : WellFormed db → WellFormed (deleteJobCascadeTx id db).2.
Proof.
  intros [W1 W2 W3 W4 W5 W6 W7].
  set (db' := (deleteJobCascadeTx id db).2).
  assert (∀ k t, tasks db !! k = Some t → TaskJobID t ≠ id → tasks db' !! k = Some t) as Ht.
  { intros k t E Hk. subst db'. cbn. apply delete_where_some. by rewrite bool_decide_false. }
  assert (∀ k a t, attempts db !! k = Some a → tasks db !! AttemptTaskID a = Some t → TaskJobID t ≠ id →
            attempts db' !! k = Some a) as Ha.
  { intros k a t E Et Hk. subst db'. cbn. apply delete_where_some. split; [done|].
    unfold attemptOfJob. cbn. rewrite (row_matches_some _ _ _ _ Et). by rewrite bool_decide_false. }
  assert (∀ k j, jobs db !! k = Some j → k ≠ id → jobs db' !! k = Some j) as Hj.
  { intros k j E Hk. subst db'. cbn. by rewrite lookup_delete_ne. }
  (* what is left was there, and is not the job's *)
  assert (∀ k t, tasks db' !! k = Some t → tasks db !! k = Some t ∧ TaskJobID t ≠ id) as Ht'.
  { intros k t E. subst db'. cbn in E. apply delete_where_some in E as [E Hk].
    split; [done|]. by apply bool_decide_eq_false in Hk. }
  assert (∀ k a, attempts db' !! k = Some a → attempts db !! k = Some a ∧
            ∃ t, tasks db !! AttemptTaskID a = Some t ∧ TaskJobID t ≠ id) as Ha'.
  { intros k a E. subst db'. cbn in E. apply delete_where_some in E as [E Hk]. split; [done|].
    destruct (W3 _ _ E) as [t Et]. exists t. split; [done|]. unfold attemptOfJob in Hk. cbn in Hk.
    rewrite (row_matches_some _ _ _ _ Et) in Hk. by apply bool_decide_eq_false in Hk. }
  split.
  - intros k s E. subst db'. cbn in E. apply delete_where_some in E as [E Hk].
    apply bool_decide_eq_false in Hk. destruct (W1 _ _ E) as [j Ej]. exists j. by apply Hj.
  - intros k t E. apply Ht' in E as [E Hk]. destruct (W2 _ _ E) as (s & Es & Hs). exists s. split; [|done].
    subst db'. cbn. apply delete_where_some. rewrite bool_decide_false by congruence. done.
  - intros k a E. apply Ha' in E as (E & t & Et & Hk). exists t. by apply Ht.
  - intros k a E Ho. apply Ha' in E as (E & t & Et & Hk). destruct (W4 _ _ E Ho) as (t' & Et' & H).
    simplify_eq. exists t. split; [by apply Ht|done].
  - intros k c E. subst db'. cbn in E. apply delete_where_some in E as [E Hk].
    destruct (W5 _ _ E) as [a Ea]. destruct (W3 _ _ Ea) as [t Et]. exists a. apply (Ha _ _ t); [done..|].
    rewrite (row_matches_some _ _ _ _ Ea) in Hk. unfold attemptOfJob in Hk. cbn in Hk.
    rewrite (row_matches_some _ _ _ _ Et) in Hk. by apply bool_decide_eq_false in Hk.
  - intros k l E. subst db'. cbn in E. apply delete_where_some in E as [E Hk].
    destruct (W6 _ _ E) as (a & Ea & Hl). destruct (W3 _ _ Ea) as [t Et]. exists a. split; [|done].
    apply (Ha _ _ t); [done..|]. rewrite <- Hl, (row_matches_some _ _ _ _ Et) in Hk.
    by apply bool_decide_eq_false in Hk.
  - intros e He. subst db'. cbn in He. apply elem_of_filter in He as [Hk He].
    destruct (W7 _ He) as [j Ej]. exists j. by apply Hj.
Qed.

(** ** Every command *)

Lemma log_wf id log now db :
  allowed (OpLog id log now) db = true → WellFormed db → WellFormed (CreateTaskLog id log now db).2.
Proof.
  intros Ha [W1 W2 W3 W4 W5 W6 W7]. unfold CreateTaskLog.
  destruct (_ || _) eqn:Hc; [by split|]. apply orb_false_iff in Hc as [_ Hc]. split; try done. cbn.
  intros k l E. destruct (decide (id = k)) as [<-|Hne].
  - rewrite lookup_insert_eq in E. injection E as <-. cbn. cbn in Ha.
    apply negb_false_iff in Hc. unfold present, row_matches in Hc.
    destruct (attempts db !! LogAttemptID log) as [a|]; [|done]. exists a.
    by apply bool_decide_eq_true in Ha.
  - rewrite lookup_insert_ne in E by done. eauto.
Qed.

Lemma run_wf o db : allowed o db = true → Inv db → WellFormed db → WellFormed (run o db).
Proof.
  intros Ha HI HW. pose proof (run_inv o db Ha HI) as HI'. pose proof (run_frame o db) as HF.
  pose proof (run_keeps o db Ha) as HK.
  destruct o; try (by apply (Frame_wf db); [apply HK|..]); cbn [run].
  - by apply submit_wf.
  - destruct (LeaseTask req db) as [r db'] eqn:E. cbn [run] in HF. rewrite E in HF.
    destruct (LeaseTask_outcome _ _ _ _ E) as [(aid & a & ->)|[-> _]]; [|done].
    apply LeaseTask_leased in E as (t & j & q & f & _ & HL & _). by eapply Leased_wf.
  - unfold DeleteJob. apply inTx_prop; [done|]. intros r db' H.
    pose proof (deleteJobCascadeTx_wf id db HW) as HC.
    destruct (deleteJobCascadeTx id db) as [[] d]; by invert_ok.
  - unfold purgeExpiredJob. apply inTx_prop; [done|]. intros r db' H.
    destruct (row_matches _ _ _); [|by invert_ok]. injection H as <- <-. by apply deleteJobCascadeTx_wf.
  - by apply log_wf.
Qed.

(** C11. The tables are well formed in every reachable database: a step's job
    exists; a task's step exists and is of the task's job; an attempt's task, a
    claim's attempt and a dependency's job exist; a log chunk's attempt exists
    and is of the chunk's task; and an open attempt's task is assigned to or
    running on the attempt's worker. *)
Theorem reachable_well_formed db : reachable db → WellFormed db.
Proof.
  induction 1 as [|db o Hr IH Ha]; [apply WellFormed_empty|].
  apply run_wf; [done|by apply reachable_inv|done].
Qed.

(** In the sample farm the leased task's log is kept with its attempt. *)
Definition sampleLogged : DB :=
  run (OpLog "l1" (mkTaskLog "t1" "a1" 1 7 20 0 LogStreamStdout "frame 1") 21) sampleReached.

Lemma reachable_well_formed_witness :
  size (taskLogs sampleLogged) = 1%nat ∧ size (attempts sampleLogged) = 1%nat ∧ WellFormed sampleLogged.
Proof.
  split; [vm_compute; reflexivity|]. split; [vm_compute; reflexivity|].
  apply reachable_well_formed. apply reach_step; [apply sampleReached_reachable|].
  vm_compute. reflexivity.
Defined.
