(* ===== verification/Submission.v ===== *)
(** * What a submission stores

    A submission is one transaction: it stores the whole graph or nothing.  The
    steps and tasks are stamped by one clock that never repeats a reading, the
    tasks go in by batches whose sizes are few, and the rows come back in the
    order they were given whatever order the database returns them in. *)

From S2P Require Import Prelude Schema Sample Finalize Attempts Jobs Lease Evolve Keeps StoreInv.
Open Scope Z_scope.

(** ** Stamps *)

(** [stamps] increase, above [lo] and up to [hi]. *)
Record Increasing (lo : Z) (stamps : list Z) (hi : Z) : Prop := mkIncreasing {
  inc_sorted : StronglySorted Z.lt stamps;
  inc_range : Forall (λ s, lo < s ≤ hi) stamps;
  inc_le : lo ≤ hi;
}.

Lemma Increasing_nil lo : Increasing lo [] lo.
Proof. by split; [constructor..|]. Qed.

Lemma Increasing_app a l b m c : Increasing a l b → Increasing b m c → Increasing a (l ++ m) c.
Proof.
  intros [H1 H2 H3] [H4 H5 H6]. split; [|apply Forall_app; split|lia].
  - induction l as [|x l IH]; cbn; [done|]. inversion H1; subst. apply Forall_cons in H2 as [Hx H2].
    constructor; [by apply IH|]. apply Forall_app. split; [done|].
    eapply Forall_impl; [exact H5|]. cbn. intros y. lia.
  - eapply Forall_impl; [exact H2|]. cbn. intros y. lia.
  - eapply Forall_impl; [exact H5|]. cbn. intros y. lia.
Qed.

Lemma Increasing_tick clock c : Increasing c.1 [(tick clock c).1] (tick clock c).2.1.
Proof.
  unfold tick, rowClock_next. cbn. destruct (Z.ltb_spec c.1 (clock c.2));
    (split; [repeat constructor|constructor; [lia|done]|lia]).
Qed.

(** A row and the row stored for it. *)
Definition stamped {A} (stamp : Z → A → A) (a b : string * A) : Prop :=
  b.1 = a.1 ∧ ∃ at_, b.2 = stamp at_ a.2.

Lemma stamped_ids {A} (stamp : Z → A → A) l m : Forall2 (stamped stamp) l m → m.*1 = l.*1.
Proof. induction 1 as [|a b l m [H _] _ IH]; cbn; congruence. Qed.

Lemma stampTasks_spec clock c ts out c' :
  stampTasks clock c ts = (out, c') →
  Forall2 (stamped stamp_task) ts out ∧ Increasing c.1 ((TaskCreatedAt ∘ snd) <$> out) c'.1.
Proof.
  revert c out c'. induction ts as [|[id t] ts IH]; intros c out c'; cbn [stampTasks].
  { intros [= <- <-]. split; [constructor|apply Increasing_nil]. }
  pose proof (Increasing_tick clock c) as Ht. destruct (tick clock c) as [now c1] eqn:E.
  destruct (stampTasks clock c1 ts) as [out2 c2] eqn:E2. intros [= <- <-].
  destruct (IH _ _ _ E2) as [H1 H2]. split; [constructor; [split; [done|by eexists]|done]|].
  by apply (Increasing_app _ [now] _ _ _ Ht).
Qed.

(** ** Rows *)

Lemma present_false {A} (m : gmap string A) k : present m k = false → m !! k = None.
Proof. unfold present, row_matches. by destruct (m !! k). Qed.

Lemma insertTaskRows_spec ts db db' :
  insertTaskRows ts db = Ok db' →
  NoDup ts.*1 ∧ (∀ k, k ∈ ts.*1 → tasks db !! k = None) ∧ tasks db ⊆ tasks db' ∧
  (∀ k t, (k, t) ∈ ts → tasks db' !! k = Some t) ∧ db' = set_tasks (tasks db') db.
Proof.
  revert db. induction ts as [|[id t] ts IH]; intros db; cbn [insertTaskRows].
  { intros H. invert_ok. split; [constructor|]. split; [set_solver|]. split; [done|].
    split; [set_solver|by destruct db']. }
  intros H. apply res_bind_ok in H as (db1 & H1 & H). unfold insertTask in H1.
  destruct (_ || _) eqn:Hp; [done|]. invert_ok.
  apply orb_false_iff in Hp as [[Hp%present_false _]%orb_false_iff _].
  destruct (IH _ H) as (I1 & I2 & I3 & I4 & I5). cbn in *.
  assert (id ∉ ts.*1) as Hid.
  { intros Hin. apply I2 in Hin. by rewrite lookup_insert_eq in Hin. }
  split; [by constructor|]. split.
  { intros k [->|Hk]%elem_of_cons; [done|]. apply I2 in Hk.
    destruct (decide (id = k)) as [<-|]; [done|by rewrite lookup_insert_ne in Hk]. }
  split; [etrans; [by apply insert_subseteq|exact I3]|]. split; [|rewrite I5; done].
  intros k x [[= -> ->]|Hk]%elem_of_cons; [|auto]. eapply lookup_weaken; [|exact I3].
  by rewrite lookup_insert_eq.
Qed.

Lemma pickRows_spec {A} (byID : gmap string A) rows :
  (∀ k t, (k, t) ∈ rows → byID !! k = Some t) → pickRows byID rows.*1 = Ok rows.
Proof.
  induction rows as [|[k t] rows IH]; intros H; cbn; [done|].
  rewrite (H k t) by left. rewrite IH; [done|]. intros k' t' Hin. apply H. by right.
Qed.

(** Rows come back in insert order, whatever order the database returns. *)
Lemma inInsertOrder_spec {A} (stored rows : list (string * A)) :
  NoDup rows.*1 → stored ≡ₚ rows → inInsertOrder stored rows.*1 = Ok rows.
Proof.
  intros HN HP. unfold inInsertOrder.
  assert (∀ k t, (k, t) ∈ rows →
            (list_to_map (reverse stored) : gmap string A) !! k = Some t) as Hmap.
  { intros k t Hin. apply elem_of_list_to_map.
    - by rewrite fmap_reverse, reverse_Permutation, HP.
    - by rewrite elem_of_reverse, HP. }
  case_bool_decide as E; [|by apply pickRows_spec]. f_equal.
  clear Hmap. revert stored HP E. induction rows as [|[k t] rows IH]; intros stored HP E.
  { by apply Permutation_nil_r in HP. }
  destruct stored as [|[k' t'] stored]; [done|]. cbn in E. injection E as -> E.
  apply NoDup_cons in HN as [Hk HN].
  assert ((k, t') ∈ (k, t) :: rows) as [[= ->]|Hin]%elem_of_cons by (rewrite <- HP; left).
  - f_equal. apply IH; [done| |done]. by apply Permutation_cons_inv in HP.
  - destruct Hk. apply list_elem_of_fmap. by exists (k, t').
Qed.

(** ** Batches *)

(** A batch is neither empty nor longer than what is left, so no slice of the
    tasks is out of range and the loop ends. *)
Lemma taskBatchRows_bounds left_ batchRows :
  1 ≤ left_ → 1 ≤ batchRows → 1 ≤ taskBatchRows left_ batchRows ≤ left_.
Proof.
  intros Hl Hb. unfold taskBatchRows, bits_Len. destruct (Z.leb_spec batchRows left_); [lia|].
  destruct (Z.leb_spec left_ 0); [lia|]. replace (Z.log2 left_ + 1 - 1) with (Z.log2 left_) by lia.
  rewrite Z.shiftl_1_l. pose proof (Z.log2_spec left_ ltac:(lia)).
  pose proof (Z.log2_nonneg left_). pose proof (Z.pow_pos_nonneg 2 (Z.log2 left_)). lia.
Qed.

Section Batches.
Context (clock : nat → Z) (rowOrder : list (string * Task) → list (string * Task)).
Hypothesis rowOrder_perm : ∀ rows, rowOrder rows ≡ₚ rows.

Lemma runInsertTasks_spec rows db out db' :
  runInsertTasks rowOrder rows db = Ok (out, db') → out = rows ∧ insertTaskRows rows db = Ok db'.
Proof.
  unfold runInsertTasks. intros H. apply res_bind_ok in H as (d & H1 & H).
  destruct (negb _); [done|]. apply res_bind_ok in H as (o & H2 & H). invert_ok.
  destruct (insertTaskRows_spec _ _ _ H1) as (HN & _).
  rewrite inInsertOrder_spec in H2 by done. by injection H2 as ->.
Qed.

Lemma insertTasksBatches_spec fuel c ts batchRows db out c' db' :
  insertTasksBatches clock rowOrder fuel c ts batchRows db = Ok (out, c', db') →
  (length ts ≤ fuel)%nat → 1 ≤ batchRows →
  Forall2 (stamped stamp_task) ts out ∧ Increasing c.1 ((TaskCreatedAt ∘ snd) <$> out) c'.1 ∧
  (∀ k t, (k, t) ∈ out → tasks db' !! k = Some t) ∧ tasks db ⊆ tasks db' ∧
  db' = set_tasks (tasks db') db.
Proof.
  revert c ts db out. induction fuel as [|fuel IH]; intros c ts db out H Hf Hb.
  { destruct ts; [|cbn in Hf; lia]. cbn in H. invert_ok. split; [constructor|].
    split; [apply Increasing_nil|]. split; [set_solver|]. split; [done|by destruct db']. }
  destruct ts as [|t0 ts0]; cbn [insertTasksBatches] in H.
  { invert_ok. split; [constructor|]. split; [apply Increasing_nil|]. split; [set_solver|].
    split; [done|by destruct db']. }
  set (ts := t0 :: ts0) in *.
  set (n := Z.to_nat (taskBatchRows (Z.of_nat (length ts)) batchRows)) in *.
  assert (1 ≤ n)%nat as Hn.
  { pose proof (taskBatchRows_bounds (Z.of_nat (length ts)) batchRows
      ltac:(unfold ts; cbn; lia) Hb). lia. }
  destruct (stampTasks clock c (take n ts)) as [rows c1] eqn:E.
  destruct (stampTasks_spec _ _ _ _ _ E) as [S1 S2].
  apply res_bind_ok in H as ([stored db1] & H1 & H).
  apply res_bind_ok in H as ([[out2 c2] db2] & H2 & H). invert_ok.
  apply runInsertTasks_spec in H1 as [-> H1].
  destruct (insertTaskRows_spec _ _ _ H1) as (_ & _ & R3 & R4 & R5).
  destruct (IH _ _ _ _ H2) as (I1 & I2 & I3 & I4 & I5); [rewrite length_drop; lia|done|].
  split; [rewrite <- (take_drop n ts); by apply Forall2_app|].
  split; [rewrite fmap_app; by eapply Increasing_app|]. split.
  { intros k t [Hin|Hin]%elem_of_app; [eapply lookup_weaken; [|exact I4]|]; auto. }
  split; [by etrans|]. rewrite I5, R5. done.
Qed.
End Batches.

Lemma insertStepsTx_spec clock c ss db out c' db' :
  insertStepsTx clock c ss db = Ok (out, c', db') →
  Forall2 (stamped stamp_step) ss out ∧ Increasing c.1 ((StepCreatedAt ∘ snd) <$> out) c'.1 ∧
  (∀ k s, (k, s) ∈ out → steps db' !! k = Some s) ∧ steps db ⊆ steps db' ∧
  db' = set_steps (steps db') db.
Proof.
  revert c db out. induction ss as [|[id s] ss IH]; intros c db out; cbn [insertStepsTx].
  { intros H. invert_ok. split; [constructor|]. split; [apply Increasing_nil|].
    split; [set_solver|]. split; [done|by destruct db']. }
  pose proof (Increasing_tick clock c) as Ht. destruct (tick clock c) as [now c1].
  intros H. apply res_bind_ok in H as (db1 & H1 & H).
  apply res_bind_ok in H as ([[out2 c2] db2] & H2 & H). invert_ok.
  unfold insertStep in H1. destruct (_ || _) eqn:Hp; [done|]. invert_ok.
  apply orb_false_iff in Hp as [[Hp%present_false _]%orb_false_iff _].
  destruct (IH _ _ _ H2) as (I1 & I2 & I3 & I4 & I5). cbn in *.
  split; [constructor; [split; [done|by eexists]|done]|].
  split; [by apply (Increasing_app _ [now] _ _ _ Ht)|]. split.
  { intros k x [[= -> ->]|Hin]%elem_of_cons; [|auto]. eapply lookup_weaken; [|exact I4].
    by rewrite lookup_insert_eq. }
  split; [etrans; [by apply insert_subseteq|exact I4]|]. rewrite I5. done.
Qed.

(** Every dependency of a stored submission can still be satisfied. *)
Lemma elem_of_compact l x : x ∈ compact l ↔ x ∈ l.
Proof.
  induction l as [|y [|z l] IH]; [done|done|]. cbn [compact] in *.
  case_bool_decide as E; [|set_solver]. rewrite IH. subst. set_solver.
Qed.

Lemma checkUpstreamsTx_spec ups db :
  checkUpstreamsTx ups db = Ok tt ↔
  ∀ u, u ∈ ups → ∃ j, jobs db !! u = Some j ∧ JobStatusOf j ≠ JobFailed ∧ JobStatusOf j ≠ JobCanceled.
Proof.
  unfold checkUpstreamsTx.
  assert (∀ u, u ∈ ups ↔ u ∈ compact (sort_by String.leb ups)) as Hu
    by (intros u; by rewrite elem_of_compact, sort_by_perm).
  setoid_rewrite Hu. clear Hu. induction (compact _) as [|u l IH]; cbn [checkUpstreamList]; [set_solver|].
  destruct (jobs db !! u) as [j|] eqn:Ej.
  2: { split; [done|]. intros H. destruct (H u ltac:(left)) as (j & E & _). congruence. }
  destruct (_ || _) eqn:Eb.
  - split; [done|]. intros H. destruct (H u ltac:(left)) as (j' & E & Hj). rewrite Ej in E.
    injection E as <-. apply orb_true_iff in Eb as [Eb|Eb]; apply bool_decide_eq_true in Eb; tauto.
  - apply orb_false_iff in Eb as [E1 E2]. apply bool_decide_eq_false in E1, E2. rewrite IH.
    split; [intros H v [->|Hv]%elem_of_cons; eauto|]. intros H v Hv. apply H. by right.
Qed.

(** C28. A submission is all or nothing and keeps its order.  On an error the
    database is unchanged.  Otherwise the job, its dependency edges, every step
    and every task are stored; the rows returned are the submitted ones in the
    order they were given, as stored, differing only in their stamps; over the
    steps and then the tasks the stamps strictly increase, so ordering by creation
    time is submission order whatever the wall clock does; and every upstream job
    exists and has neither failed nor been cancelled. *)
Theorem CreateJobSubmission_stores clock rowOrder sub batchRows now db :
  (∀ rows, rowOrder rows ≡ₚ rows) →
  match CreateJobSubmission clock rowOrder sub batchRows now db with
  | (Err _, db') => db' = db
  | (Ok out, db') =>
      SubJob out = stamp_job now (SubJob sub) ∧ jobs db !! SubJobID sub = None ∧
      jobs db' = <[SubJobID sub := SubJob out]> (jobs db) ∧
      jobDependencies db' =
        list_to_set ((λ u, (SubJobID sub, u)) <$> SubDependsOn sub) ∪ jobDependencies db ∧
      Forall2 (stamped stamp_step) (SubSteps sub) (SubSteps out) ∧
      Forall2 (stamped stamp_task) (SubTasks sub) (SubTasks out) ∧
      (∀ k s, (k, s) ∈ SubSteps out → steps db' !! k = Some s) ∧
      (∀ k t, (k, t) ∈ SubTasks out → tasks db' !! k = Some t) ∧
      StronglySorted Z.lt (((StepCreatedAt ∘ snd) <$> SubSteps out) ++
                           ((TaskCreatedAt ∘ snd) <$> SubTasks out)) ∧
      ∀ u, u ∈ SubDependsOn sub → ∃ j, jobs db' !! u = Some j ∧
        JobStatusOf j ≠ JobFailed ∧ JobStatusOf j ≠ JobCanceled
  end.
Proof.
  intros HP. destruct (CreateJobSubmission _ _ _ _ _ _) as [[out|e] db'] eqn:E;
    unfold CreateJobSubmission in E; [|by apply inTx_err in E].
  apply inTx_ok in E as [H|(d & H & ->)].
  2: { exfalso. apply res_bind_ok in H as ([j db1] & H1 & H). apply res_bind_ok in H as (? & _ & H).
       apply res_bind_ok in H as ([[ss c1] db3] & H3 & H).
       apply res_bind_ok in H as ([[ts c2] db4] & H4 & H). apply res_bind_ok in H as (? & _ & H).
       by invert_ok. }
  apply res_bind_ok in H as ([j db1] & H1 & H). apply res_bind_ok in H as (? & _ & H).
  apply res_bind_ok in H as ([[ss c1] db3] & H3 & H).
  apply res_bind_ok in H as ([[ts c2] db4] & H4 & H). apply res_bind_ok in H as ([] & H5 & H). invert_ok.
  unfold insertJobTx in H1. destruct (_ || _) eqn:Hp; [done|]. invert_ok.
  apply orb_false_iff in Hp as [[Hp%present_false _]%orb_false_iff _].
  destruct (insertStepsTx_spec clock _ _ _ _ _ _ H3) as (S1 & S2 & S3 & S4 & S5).
  destruct (insertTasksBatches_spec clock rowOrder HP _ _ _ _ _ _ _ _ H4)
    as (T1 & T2 & T3 & T4 & T5); [done|lia|]. cbn in *.
  split; [done|]. split; [done|]. split; [by rewrite T5, S5|]. split; [by rewrite T5, S5|].
  split; [done|]. split; [done|]. split; [rewrite T5; exact S3|]. split; [exact T3|].
  split; [|by apply checkUpstreamsTx_spec].
  exact (inc_sorted _ _ _ (Increasing_app _ _ _ _ _ S2 T2)).
Qed.

Definition sampleSubmission : JobSubmission :=
  mkJobSubmission "j2" (Sample.job JobPending) ["j"%string]
    [("s2"%string, mkStep "j2" "comp" [] 0 StepReady 0 0 "" None)]
    [("t3"%string, mkTask "j2" "s2" TaskReady None None 0 0 None "" 0 None "");
     ("t4"%string, mkTask "j2" "s2" TaskReady None None 0 0 None "" 0 None "")].

(** A clock that stands still and a database that returns the rows backwards. *)
Lemma CreateJobSubmission_stores_witness :
  (∀ rows : list (string * Task), reverse rows ≡ₚ rows) ∧
  ∃ out db', CreateJobSubmission (λ _, 7) reverse sampleSubmission 64 5 Sample.db = (Ok out, db') ∧
    (SubTasks out).*1 = ["t3"%string; "t4"%string] ∧
    StronglySorted Z.lt (((StepCreatedAt ∘ snd) <$> SubSteps out) ++
                         ((TaskCreatedAt ∘ snd) <$> SubTasks out)).
Proof.
  assert (∀ rows : list (string * Task), reverse rows ≡ₚ rows) as HP
    by (intros rows; apply reverse_Permutation).
  split; [exact HP|].
  pose proof (CreateJobSubmission_stores (λ _, 7) reverse sampleSubmission 64 5 Sample.db HP) as H.
  destruct (CreateJobSubmission (λ _, 7) reverse sampleSubmission 64 5 Sample.db) as [[out|e] db'] eqn:E.
  - exists out, db'. destruct H as (_ & _ & _ & _ & _ & H6 & _ & _ & H9 & _).
    split; [reflexivity|]. split; [exact (stamped_ids _ _ _ H6)|exact H9].
  - exfalso. assert (CreateJobSubmission (λ _, 7) reverse sampleSubmission 64 5 Sample.db
      = (Err e, db')) as E' by exact E. vm_compute in E'. discriminate E'.
Defined.
