(* ===== verification/Sched.v ===== *)
(** * The scheduler's calls on the store

    The scheduler and the dependency resolver run many store calls in a row,
    each its own transaction, while other writers (other workers' reports, the
    API, the sweeps) run theirs in between, and any call may fail.  This file
    is the monad their code is written in: a world with the database, the
    number of calls made so far and the events sent, in which

    - [now n] is the clock when the [n]-th call is made,
    - [others n] is what other writers do to the database before it,
    - [fault n] is the failure of that call, if it fails.

    A computation that runs out of fuel has no result ([None]).  With [quiet]
    nothing interferes. *)

From S2P Require Import Prelude Schema.
Open Scope Z_scope.

(** The errors a call returns: the store's own, the fence of a deposed leader
    ([store.ErrFenced]) and any failure of the database. *)
Inductive CallErr :=
  | StoreError (e : StoreErr)
  | ErrFenced
  | ErrUnavailable.

(** What the scheduler does outside the store, in order: the events sent to
    WebSocket subscribers, the wakes of parked lease requests (of a queue, now or
    after a delay, or of all), the cancel signals published to workers, the
    attempts evicted from and put into its ownership cache, and the loss of its
    leadership. *)
Inductive Event :=
  | TaskEvent (jobID taskID : string) (status : TaskStatus)
  | JobEvent (jobID : string) (status : JobStatus)
  | JobRemoved (jobID : string)
  | WorkerEvent (workerID : string) (status : WorkerStatus)
  | WorkerRemoved (workerID : string)
  | LogEvent (taskID attemptID : string) (seq : Z)
  | Wake (queueID : string)
  | WakeAfter (queueID : string) (delay : Z)
  | WakeAll
  | CancelSent (workerID taskID attemptID : string)
  | Evicted (attemptID : string)
  | Cached (attemptID workerID taskID : string)
  | Deposed.

#[export] Instance Event_eq_dec : EqDecision Event.
Proof. solve_decision. Defined.

Record World := mkWorld {
  wdb : DB;
  wcalls : nat;
  wevents : list Event;
}.

Record Surroundings := mkSurroundings {
  now : nat → Z;
  others : nat → DB → DB;
  fault : nat → option CallErr;
}.

Definition quiet (clock : nat → Z) : Surroundings :=
  mkSurroundings clock (λ _ db, db) (λ _, None).

Definition M (A : Type) : Type := World → option (res CallErr A * World).

#[export] Instance M_ret : MRet M := λ A x w, Some (Ok x, w).

#[export] Instance M_bind : MBind M := λ A B k m w,
  match m w with
  | None => None
  | Some (Err e, w') => Some (Err e, w')
  | Some (Ok x, w') => k x w'
  end.

Definition fail {A} (e : CallErr) : M A := λ w, Some (Err e, w).
Definition out_of_fuel {A} : M A := λ _, None.

(** [v, err := m] : the error as a value. *)
Definition attempt {A} (m : M A) : M (res CallErr A) := λ w,
  match m w with None => None | Some (r, w') => Some (Ok r, w') end.

Definition notify (e : Event) : M unit := λ w,
  Some (Ok tt, mkWorld (wdb w) (wcalls w) (wevents w ++ [e])).

Fixpoint for_each {A} (xs : list A) (body : A → M unit) : M unit :=
  match xs with
  | [] => mret tt
  | x :: xs' => _ ← body x; for_each xs' body
  end.

Section Calls.
Context (env : Surroundings).

Definition time_Now : M Z := λ w, Some (Ok (now env (wcalls w)), w).

Definition call {A} (op : DB → res StoreErr A * DB) : M A := λ w,
  let db := others env (wcalls w) (wdb w) in
  match fault env (wcalls w) with
  | Some e => Some (Err e, mkWorld db (S (wcalls w)) (wevents w))
  | None =>
      let '(r, db') := op db in
      Some (match r with Ok x => Ok x | Err e => Err (StoreError e) end,
            mkWorld db' (S (wcalls w)) (wevents w))
  end.

(** A read. *)
Definition query {A} (f : DB → res StoreErr A) : M A := call (λ db, (f db, db)).
End Calls.

(** ** Lemmas *)

Lemma bind_some {A B} (m : M A) (k : A → M B) w r w' :
  mbind k m w = Some (r, w') →
  (∃ e, m w = Some (Err e, w') ∧ r = Err e) ∨
  (∃ x w1, m w = Some (Ok x, w1) ∧ k x w1 = Some (r, w')).
Proof.
  unfold mbind, M_bind. destruct (m w) as [[[x|e] w1]|]; [|intros [= <- <-]|done]; eauto.
Qed.

Lemma bind_ok {A B} (m : M A) (k : A → M B) w x w1 :
  m w = Some (Ok x, w1) → mbind k m w = k x w1.
Proof. unfold mbind, M_bind. by intros ->. Qed.

Lemma bind_err {A B} (m : M A) (k : A → M B) w e w1 :
  m w = Some (Err e, w1) → mbind k m w = Some (Err e, w1).
Proof. unfold mbind, M_bind. by intros ->. Qed.

Lemma attempt_some {A} (m : M A) w r w' : m w = Some (r, w') → attempt m w = Some (Ok r, w').
Proof. unfold attempt. by intros ->. Qed.

Lemma call_quiet {A} clock (op : DB → res StoreErr A * DB) w :
  call (quiet clock) op w =
  Some (match (op (wdb w)).1 with Ok x => Ok x | Err e => Err (StoreError e) end,
        mkWorld (op (wdb w)).2 (S (wcalls w)) (wevents w)).
Proof. unfold call. cbn. by destruct (op (wdb w)). Qed.

Lemma query_quiet {A} clock (f : DB → res StoreErr A) w :
  query (quiet clock) f w =
  Some (match f (wdb w) with Ok x => Ok x | Err e => Err (StoreError e) end,
        mkWorld (wdb w) (S (wcalls w)) (wevents w)).
Proof. unfold query. by rewrite call_quiet. Qed.

Lemma others_quiet clock n db : others (quiet clock) n db = db.
Proof. done. Qed.

(** A property of results that every part of a computation has, the whole has. *)
Definition returns {A} (m : M A) (w : World) (Q : res CallErr A → World → Prop) : Prop :=
  ∃ r w', m w = Some (r, w') ∧ Q r w'.

Lemma returns_ret {A} (x : A) w (Q : res CallErr A → World → Prop) :
  Q (Ok x) w → returns (mret x) w Q.
Proof. intros H. by exists (Ok x), w. Qed.

Lemma returns_fail {A} e w (Q : res CallErr A → World → Prop) :
  Q (Err e) w → returns (fail e) w Q.
Proof. intros H. by exists (Err e), w. Qed.

Lemma returns_bind {A B} (m : M A) (k : A → M B) w (Q : res CallErr B → World → Prop) :
  returns m w (λ r w1, match r with Ok x => returns (k x) w1 Q | Err e => Q (Err e) w1 end) →
  returns (mbind k m) w Q.
Proof.
  intros (r & w1 & E & H). unfold returns, mbind, M_bind. rewrite E. destruct r; [done|eauto].
Qed.

Lemma returns_attempt {A} (m : M A) w (Q : res CallErr (res CallErr A) → World → Prop) :
  returns m w (λ r w1, Q (Ok r) w1) → returns (attempt m) w Q.
Proof. intros (r & w1 & E & H). exists (Ok r), w1. unfold attempt. by rewrite E. Qed.

Lemma returns_mono {A} (m : M A) w (Q R : res CallErr A → World → Prop) :
  returns m w Q → (∀ r w', Q r w' → R r w') → returns m w R.
Proof. intros (r & w' & E & H) HQ. exists r, w'. auto. Qed.

Lemma returns_notify e w (Q : res CallErr unit → World → Prop) :
  Q (Ok tt) (mkWorld (wdb w) (wcalls w) (wevents w ++ [e])) → returns (notify e) w Q.
Proof. intros H. by exists (Ok tt), (mkWorld (wdb w) (wcalls w) (wevents w ++ [e])). Qed.

Lemma returns_call {A} env (op : DB → res StoreErr A * DB) w (Q : res CallErr A → World → Prop) :
  (∀ e, fault env (wcalls w) = Some e →
     Q (Err e) (mkWorld (others env (wcalls w) (wdb w)) (S (wcalls w)) (wevents w))) →
  (fault env (wcalls w) = None →
     let r := op (others env (wcalls w) (wdb w)) in
     Q (match r.1 with Ok x => Ok x | Err e => Err (StoreError e) end)
       (mkWorld r.2 (S (wcalls w)) (wevents w))) →
  returns (call env op) w Q.
Proof.
  intros H1 H2. unfold returns, call. destruct (fault env (wcalls w)) as [e|] eqn:E.
  - eauto.
  - specialize (H2 eq_refl). destruct (op _) as [r d]. eauto.
Qed.

(** Over a list: an invariant every element's body keeps, and what each leaves
    behind if the later ones keep it. *)
Lemma returns_for_each {A} (xs : list A) body w (I : World → Prop) :
  I w → (∀ x w1, x ∈ xs → I w1 → returns (body x) w1 (λ _ w2, I w2)) →
  returns (for_each xs body) w (λ _ w2, I w2).
Proof.
  revert w. induction xs as [|x xs IH]; intros w Hw Hb; cbn [for_each].
  - by apply returns_ret.
  - apply returns_bind. eapply returns_mono; [apply Hb; [left|done]|].
    intros [u|e] w1 Hw1; cbn; [|done]. apply IH; [done|]. intros y w2 Hy. apply Hb. by right.
Qed.

(** An assertion on the database that a computation keeps, whatever it answers.
    With [total] it also ends. *)
Definition keeps {A} (total : bool) (P : DB → Prop) (m : M A) : Prop :=
  ∀ w, P (wdb w) → match m w with Some (_, w') => P (wdb w') | None => total = false end.

Section Keeps.
Context (total : bool) (P : DB → Prop).

Lemma keeps_ret {A} (x : A) : keeps total P (mret x).
Proof. by intros w Hw. Qed.

Lemma keeps_fail {A} e : keeps total P (@fail A e).
Proof. by intros w Hw. Qed.

Lemma keeps_notify e : keeps total P (notify e).
Proof. by intros w Hw. Qed.

Lemma keeps_time env : keeps total P (time_Now env).
Proof. by intros w Hw. Qed.

Lemma keeps_bind {A B} (m : M A) (k : A → M B) :
  keeps total P m → (∀ x, keeps total P (k x)) → keeps total P (mbind k m).
Proof.
  intros Hm Hk w Hw. specialize (Hm w Hw). unfold mbind, M_bind.
  destruct (m w) as [[[x|e] w1]|]; [|done..]. by apply Hk.
Qed.

Lemma keeps_attempt {A} (m : M A) : keeps total P m → keeps total P (attempt m).
Proof. intros Hm w Hw. specialize (Hm w Hw). unfold attempt. by destruct (m w) as [[r w1]|]. Qed.

Lemma keeps_for_each {A} (xs : list A) body :
  (∀ x, keeps total P (body x)) → keeps total P (for_each xs body).
Proof. intros Hb. induction xs as [|x xs IH]; cbn [for_each]; [apply keeps_ret|]. by apply keeps_bind. Qed.

Lemma keeps_call {A} env (op : DB → res StoreErr A * DB) :
  (∀ n db, P db → P (others env n db)) → (∀ db, P db → P (op db).2) → keeps total P (call env op).
Proof.
  intros Ho Hop w Hw. unfold call. destruct (fault env (wcalls w)); cbn; [by apply Ho|].
  specialize (Hop _ (Ho (wcalls w) _ Hw)). by destruct (op _).
Qed.

Lemma keeps_query {A} env (f : DB → res StoreErr A) :
  (∀ n db, P db → P (others env n db)) → keeps total P (query env f).
Proof. intros Ho. by apply keeps_call. Qed.
End Keeps.

Lemma keeps_out_of_fuel {A} P : keeps false P (@out_of_fuel A).
Proof. by intros w Hw. Qed.

(** A computation that ends keeps what it keeps if it ends. *)
Lemma keeps_total {A} P (m : M A) :
  (∀ w, P (wdb w) → ∃ r w', m w = Some (r, w')) → keeps false P m → keeps true P m.
Proof.
  intros Ht Hm w Hw. specialize (Hm w Hw). destruct (Ht w Hw) as (r & w' & E). by rewrite E in *.
Qed.

Lemma keeps_and {A} total P Q (m : M A) :
  keeps total P m → keeps false Q m → keeps total (λ db, P db ∧ Q db) m.
Proof.
  intros HP HQ w [H1 H2]. specialize (HP w H1). specialize (HQ w H2). by destruct (m w) as [[]|].
Qed.

Lemma keeps_returns {A} P (m : M A) w :
  keeps true P m → P (wdb w) → ∃ r w', m w = Some (r, w') ∧ P (wdb w').
Proof. intros Hm Hw. specialize (Hm w Hw). destruct (m w) as [[r w']|]; [eauto|done]. Qed.

Lemma keeps_returns_post {A} P (m : M A) w :
  keeps true P m → P (wdb w) → returns m w (λ _ w', P (wdb w')).
Proof. apply keeps_returns. Qed.

Lemma keeps_of_returns {A} P (m : M A) :
  (∀ w, P (wdb w) → returns m w (λ _ w', P (wdb w'))) → keeps true P m.
Proof. intros H w Hw. destruct (H w Hw) as (r & w' & -> & Hw'). done. Qed.

(** Follows a computation's structure. *)
Ltac keep_steps :=
  repeat first
    [ assumption
    | lazymatch goal with
      | |- keeps _ _ (mret _) => apply keeps_ret
      | |- keeps _ _ (fail _) => apply keeps_fail
      | |- keeps _ _ out_of_fuel => apply keeps_out_of_fuel
      | |- keeps _ _ (notify _) => apply keeps_notify
      | |- keeps _ _ (time_Now _) => apply keeps_time
      | |- keeps _ _ (mbind _ _) => apply keeps_bind; [|intros ?]
      | |- keeps _ _ (attempt _) => apply keeps_attempt
      | |- keeps _ _ (query _ _) => apply keeps_query
      | |- keeps _ _ (for_each _ _) => apply keeps_for_each; intros ?
      | |- keeps _ _ (if ?b then _ else _) => destruct b
      | |- keeps _ _ (match ?x with _ => _ end) => destruct x
      end ].

(** With nobody around. *)
Lemma returns_call_quiet {A} clock (op : DB → res StoreErr A * DB) w (Q : res CallErr A → World → Prop) :
  Q (match (op (wdb w)).1 with Ok x => Ok x | Err e => Err (StoreError e) end)
    (mkWorld (op (wdb w)).2 (S (wcalls w)) (wevents w)) →
  returns (call (quiet clock) op) w Q.
Proof. intros H. by apply returns_call. Qed.

Lemma returns_time env w (Q : res CallErr Z → World → Prop) :
  Q (Ok (now env (wcalls w))) w → returns (time_Now env) w Q.
Proof. intros H. by exists (Ok (now env (wcalls w))), w. Qed.
