(* ===== verification/Policy.v ===== *)
(** * Retry and concurrency policy: [internal/scheduler/retrypolicy.go],
      [policy.go] and [internal/api/retryoverrides.go]

    The effective retry policy of a task, resolved job first, then queue, farm
    and server default, and the validation of the overrides the API accepts. *)

From Stdlib Require Import SpecFloat.
From S2P Require Import Prelude Schema Lease Sched.
Open Scope Z_scope.

(** ** Durations *)

(** [time.Duration] counts nanoseconds in an [int64]. *)
Definition Second : Z := 1000000000.

(** [float64(z)] for an integer, and Go's conversion of a float to an integer,
    which truncates. *)
Definition float64 (z : Z) : spec_float := binary_normalize 53 1024 z 0 false.

Definition float_int (f : spec_float) : Z :=
  match f with
  | S754_finite neg m e =>
      let v := if 0 <=? e then Z.pos m * 2 ^ e else Z.pos m / 2 ^ (- e) in
      if neg then - v else v
  | _ => 0
  end.

(** [Duration.Seconds] *)
Definition Seconds (d : Z) : spec_float :=
  SFadd 53 1024 (float64 (Z.quot d Second))
    (SFdiv 53 1024 (float64 (Z.rem d Second)) (float64 Second)).

(** ** Retry policy *)

Record RetryPolicy := mkRetryPolicy {
  MaxAttempts : Z;
  RetryDelay : Z;
  FailureLimit : Z;
}.

Fixpoint coalesceInt (def : Z) (vals : list (option Z)) : Z :=
  match vals with
  | [] => def
  | Some v :: _ => v
  | None :: vals' => coalesceInt def vals'
  end.

Definition ResolveRetryPolicy (job : Job) (queue : Queue) (farm : Farm) (def : RetryPolicy)
    : RetryPolicy :=
  let max := coalesceInt (MaxAttempts def) [JobMaxAttempts job; QueueMaxAttempts queue; FarmMaxAttempts farm] in
  let max := if max <? 1 then 1 else max in
  let delaySec := coalesceInt (float_int (Seconds (RetryDelay def)))
    [JobRetryDelaySeconds job; QueueRetryDelaySeconds queue; FarmRetryDelaySeconds farm] in
  let delaySec := if delaySec <? 0 then 0 else delaySec in
  let limit := coalesceInt (FailureLimit def) [JobFailureLimit job; QueueFailureLimit queue; FarmFailureLimit farm] in
  let limit := if limit <? 0 then 0 else limit in
  mkRetryPolicy max (wrap64 (delaySec * Second)) limit.

(** What [validateRetryOverrides] answers; [None] is its empty string. *)
Inductive RetryProblem := MaxAttemptsTooLow | RetryDelayNegative | FailureLimitNegative.

Definition below (v : option Z) (bound : Z) : bool :=
  match v with Some n => n <? bound | None => false end.

Definition validateRetryOverrides (maxAttempts retryDelaySeconds failureLimit : option Z)
    : option RetryProblem :=
  if below maxAttempts 1 then Some MaxAttemptsTooLow
  else if below retryDelaySeconds 0 then Some RetryDelayNegative
  else if below failureLimit 0 then Some FailureLimitNegative
  else None.

Inductive QueryProblem := NotAnInteger (name : string) | OutOfRange (p : RetryProblem).

Definition RetryOverrides : Type := option Z * option Z * option Z.

(** [q.Get(name)] of each parameter; an absent one is empty. *)
Definition parseOverride (name : string) (raw : str) : res QueryProblem (option Z) :=
  match raw with
  | [] => Ok None
  | _ => match Atoi raw with Some n => Ok (Some n) | None => Err (NotAnInteger name) end
  end.

Definition parseRetryOverridesQuery (get : string → str) : res QueryProblem RetryOverrides :=
  let? m := parseOverride "max_attempts" (get "max_attempts"%string) in
  let? d := parseOverride "retry_delay_seconds" (get "retry_delay_seconds"%string) in
  let? f := parseOverride "failure_limit" (get "failure_limit"%string) in
  match validateRetryOverrides m d f with
  | None => Ok (m, d, f)
  | Some p => Err (OutOfRange p)
  end.

(** ** Concurrency policy *)

Section Gate.
Context (env : Surroundings).

(** Whether the queue's and the farm's caps leave room; [false] is
    [errPolicyBlocked]. *)
Definition policyGate (job : Job) (queue : Queue) (farm : Farm) : M bool :=
  qok ← (if 0 <? QueueMaxConcurrentTasks queue then
           active ← query env (λ db, Ok (CountActiveTasksInQueue db (JobQueueID job)));
           mret (negb (QueueMaxConcurrentTasks queue <=? active))
         else mret true);
  if negb qok then mret false
  else if 0 <? FarmMaxConcurrentTasks farm then
    active ← query env (λ db, Ok (CountActiveTasksInFarm db (JobFarmID job)));
    mret (negb (FarmMaxConcurrentTasks farm <=? active))
  else mret true.
End Gate.

(** ** Bounds *)

(** The first override set, nearest first. *)
Lemma coalesceInt_spec def vals :
  coalesceInt def vals = default def (head (omap id vals)).
Proof. induction vals as [|[v|] vals IH]; cbn; [done..|exact IH]. Qed.

(** The longest delay in seconds that a duration can hold. *)
Definition maxDelaySeconds : Z := 9223372036.

(** An override beats the levels above it and the result is in bounds: at
    least one attempt, a failure limit that is off or positive, and the resolved
    number of seconds (none negative) as the delay, up to the longest a
    [time.Duration] holds. *)
Theorem ResolveRetryPolicy_bounds job queue farm def :
  let p := ResolveRetryPolicy job queue farm def in
  let sec := default (float_int (Seconds (RetryDelay def)))
    (head (omap id [JobRetryDelaySeconds job; QueueRetryDelaySeconds queue; FarmRetryDelaySeconds farm])) in
  MaxAttempts p = Z.max 1 (default (MaxAttempts def)
    (head (omap id [JobMaxAttempts job; QueueMaxAttempts queue; FarmMaxAttempts farm]))) ∧
  FailureLimit p = Z.max 0 (default (FailureLimit def)
    (head (omap id [JobFailureLimit job; QueueFailureLimit queue; FarmFailureLimit farm]))) ∧
  (sec ≤ maxDelaySeconds → RetryDelay p = Z.max 0 sec * Second ∧ 0 ≤ RetryDelay p).
Proof.
  cbv zeta. unfold ResolveRetryPolicy. cbv zeta. cbn [MaxAttempts FailureLimit RetryDelay].
  rewrite !coalesceInt_spec. unfold maxDelaySeconds, Second.
  split; [|split; [|intros Hd; rewrite wrap64_id]].
  - destruct (_ <? 1) eqn:?; zbool; lia.
  - destruct (_ <? 0) eqn:?; zbool; lia.
  - destruct (_ <? 0) eqn:?; zbool; lia.
  - zint. destruct (_ <? 0) eqn:?; zbool; lia.
Qed.

(** A delay the API accepts that is not positive once resolved. *)
Definition longDelayJob : Job :=
  mkJob "f" "q" 0 JobRunning 0 None (Some 9223372037) None "" 0 0 None None (Some []) "".

(** A [retry_delay_seconds] the API accepts can resolve to a negative delay: the
    multiplication by a second overflows, the retry's time is in the past and the
    task is retried at once. *)
Theorem retry_delay_overflow queue farm def :
  validateRetryOverrides None (Some 9223372037) None = None ∧
  RetryDelay (ResolveRetryPolicy longDelayJob queue farm def) < 0.
Proof. split; vm_compute; reflexivity. Qed.
