(* ===== verification/Match.v ===== *)
(** * Matching workers to tasks: [internal/scheduler/matcher.go], [exprcaps.go]
      and [extcaps.go]

    Whether a worker may run a task of a step: farm, queue and compute-location
    affinity, the step's host requirements against what the worker reports, free
    usage pools, and the limits and extensions of the worker's binary. *)

From Stdlib Require Import SpecFloat.
From S2P Require Import Prelude StatusText GoText Schema Sample Policy.
Open Scope Z_scope.

(** ** Rejections *)

Inductive matchRejection :=
  | rejectNone
  | rejectFarm
  | rejectQueue
  | rejectComputeLocation
  | rejectAmountRequirement
  | rejectAttributeRequirement
  | rejectUsagePool.

Definition rejection_String (r : matchRejection) : string :=
  match r with
  | rejectFarm => "farm mismatch"
  | rejectQueue => "queue affinity"
  | rejectComputeLocation => "compute location mismatch"
  | rejectAmountRequirement => "amount requirement not met"
  | rejectAttributeRequirement => "attribute requirement not met"
  | rejectUsagePool => "usage pool at capacity"
  | rejectNone => "eligible"
  end.

Section Matcher.
Context {tables : CaseTables}.
(** The order in which Go ranges over a map: any, and another each time. *)
Context (range : gmap string string → list (string * string)).

Definition lowered (s : string) : string := of_str (ToLower (of_string s)).
Definition same_fold (s t : string) : bool := EqualFold (of_string s) (of_string t).

Definition hasPrefixFold (s prefix : string) : bool :=
  let s' := of_string s in
  let p := of_string prefix in
  (length p <=? length s')%nat && EqualFold (take (length p) s') p.

Definition cutPrefixFold (s prefix : string) : option string :=
  if hasPrefixFold s prefix then Some (of_str (drop (length (of_string prefix)) (of_string s))) else None.

(** ** Amounts *)

Definition workerAmountValue (name : string) (c : Capabilities) : option Z :=
  if bool_decide (name = "amount.worker.vcpu"%string) then Some (CPUCount c)
  else if bool_decide (name = "amount.worker.memory.mb"%string) then Some (RAMMb c)
  else if bool_decide (name = "amount.worker.gpu.count"%string) then Some (GPUCount c)
  else if bool_decide (name = "amount.worker.gpu.memory.mb"%string) then Some (VRAMMb c)
  else None.

(** [bound] parses and [fval] is not on its wrong side. *)
Definition within (bound : option string) (outside : spec_float → bool) : bool :=
  match bound with
  | None => true
  | Some s => match ParseFloat (of_string s) with None => false | Some v => negb (outside v) end
  end.

Definition satisfiesAmount (req : StepAmountRequirement) (workerVal : Z) : bool :=
  let fval := float64 workerVal in
  within (AmountMin req) (λ v, SFltb fval v) && within (AmountMax req) (λ v, SFltb v fval).

Fixpoint checkAmounts (amts : list StepAmountRequirement) (c : Capabilities) : matchRejection :=
  match amts with
  | [] => rejectNone
  | req :: amts' =>
      if hasPrefixFold (AmountName req) "amount.worker.usagepool." then checkAmounts amts' c
      else
        let val := default 0 (workerAmountValue (lowered (AmountName req)) c) in
        if satisfiesAmount req val then checkAmounts amts' c else rejectAmountRequirement
  end.

(** ** Attributes *)

Definition osFamily (workerOS : string) : string :=
  let family := lowered workerOS in
  if bool_decide (family = "darwin"%string) then "macos" else family.

Definition cpuArch (workerArch : string) : string :=
  let arch := lowered workerArch in
  if bool_decide (arch = "amd64"%string) then "x86_64" else arch.

Definition tagValueFold (tags : gmap string string) (key : string) : string :=
  match tags !! key with
  | Some v => v
  | None =>
      match list_find (λ kv, same_fold kv.1 key = true) (range tags) with
      | Some (_, (_, v)) => v
      | None => ""
      end
  end.

Definition workerAttributeValue (c : Capabilities) (name : string) : string :=
  let n := lowered name in
  if bool_decide (n = "attr.worker.os.family"%string) then osFamily (OS c)
  else if bool_decide (n = "attr.worker.os.version"%string) then OSVersion c
  else if bool_decide (n = "attr.worker.cpu.arch"%string) then cpuArch (Arch c)
  else if bool_decide (n = "attr.worker.computelocation"%string) then ComputeLocation c
  else match cutPrefixFold name "attr.worker.tag." with
       | Some key => tagValueFold (Tags c) key
       | None => ""
       end.

Fixpoint checkAttributes (attrs : list StepAttributeRequirement) (c : Capabilities) : matchRejection :=
  match attrs with
  | [] => rejectNone
  | req :: attrs' =>
      let val := workerAttributeValue c (AttributeName req) in
      let anyOK := match AnyOf req with [] => true | l => existsb (same_fold val) l end in
      if negb anyOK then rejectAttributeRequirement
      else if forallb (same_fold val) (AllOf req) then checkAttributes attrs' c
      else rejectAttributeRequirement
  end.

(** ** Usage pools *)

(** [pools] and [activeCounts] are keyed by lowered names; a pool comes with its
    ID. *)
Fixpoint checkUsagePools (poolNames : list string) (pools : gmap string (string * UsagePool))
    (activeCounts : gmap string Z) : matchRejection :=
  match poolNames with
  | [] => rejectNone
  | name :: rest =>
      let lk := lowered name in
      match pools !! lk with
      | None => rejectUsagePool
      | Some (_, pool) =>
          if MaxConcurrent pool <=? 0 then checkUsagePools rest pools activeCounts
          else if MaxConcurrent pool <=? default 0 (activeCounts !! lk) then rejectUsagePool
          else checkUsagePools rest pools activeCounts
      end
  end.

(** ** Eligibility *)

Definition affine (mine theirs : string) : bool :=
  bool_decide (mine = ""%string) || bool_decide (mine = theirs).

Definition workerEligible (w : Worker) (job : Job) (step : Step)
    (pools : gmap string (string * UsagePool)) (activeCounts : gmap string Z) : matchRejection :=
  if negb (affine (default "" (WorkerFarmID w)) (JobFarmID job)) then rejectFarm
  else if negb (affine (default "" (WorkerQueueID w)) (JobQueueID job)) then rejectQueue
  else if negb (affine (StepComputeLocation step) (ComputeLocation (Caps w))) then rejectComputeLocation
  else match HostRequirements step with
       | None => rejectNone
       | Some hr =>
           match checkAmounts (Amounts hr) (Caps w) with
           | rejectNone =>
               match checkAttributes (Attributes hr) (Caps w) with
               | rejectNone => checkUsagePools (UsagePools hr) pools activeCounts
               | r => r
               end
           | r => r
           end
       end.

Definition WorkerEligible (w : Worker) (job : Job) (step : Step)
    (pools : gmap string (string * UsagePool)) (activeCounts : gmap string Z) : bool :=
  match workerEligible w job step pools activeCounts with rejectNone => true | _ => false end.
End Matcher.

(** ** Limits and extensions of the worker's binary *)

(** [openjd.ExprLimits], normalized: what the scheduler compares. *)
Record ServerExprLimits := mkServerExprLimits {
  SubmissionOperations : Z;
  SubmissionMemoryBytes : Z;
  TemplatePositions : Z;
  TemplateRetainedBytes : Z;
}.

Definition legacyWorkerExprCaps : WorkerExprLimits :=
  mkWorkerExprLimits 1000000 20000000 10000 20000000 10000000.

Definition advertised (mine legacy : Z) : Z := if mine <=? 0 then legacy else mine.

Definition workerExprCapsOrLegacy (c : WorkerExprLimits) : WorkerExprLimits :=
  let l := legacyWorkerExprCaps in
  mkWorkerExprLimits (advertised (OperationLimit c) (OperationLimit l))
    (advertised (MemoryLimit c) (MemoryLimit l))
    (advertised (AssignmentPositions c) (AssignmentPositions l))
    (advertised (AssignmentRetainedBytes c) (AssignmentRetainedBytes l))
    (advertised (LetRetainedBytes c) (LetRetainedBytes l)).

(** One sentence of the reason, when the worker's budget is below the server's. *)
Definition shortfall (mine theirs : Z) (a b c : string) : list str :=
  if mine <? theirs
  then [of_string a ++ Itoa mine ++ of_string b ++ Itoa theirs ++ of_string c] else [].

Definition exprCapShortfall (caps : WorkerExprLimits) (srv : ServerExprLimits) : string :=
  let c := workerExprCapsOrLegacy caps in
  let short :=
    shortfall (AssignmentPositions c) (TemplatePositions srv)
      "resolves at most " " expression positions per assignment but this server accepts templates costing up to "
      " (expr.assignment_positions vs openjd.expr_template_positions)"
    ++ shortfall (OperationLimit c) (SubmissionOperations srv)
      "allows " " operations per expression evaluation but this server accepts expressions costing up to "
      " (expr.operation_limit vs openjd.expr_operation_limit)"
    ++ shortfall (MemoryLimit c) (SubmissionMemoryBytes srv)
      "allows " " live bytes per expression evaluation but this server accepts expressions holding up to "
      " (expr.memory_limit vs openjd.expr_memory_limit)"
    ++ shortfall (AssignmentRetainedBytes c) (TemplateRetainedBytes srv)
      "lets let: bindings retain " " bytes per assignment but this server accepts templates retaining up to "
      " (expr.assignment_retained_bytes vs openjd.expr_template_retained_bytes)"
    ++ shortfall (LetRetainedBytes c) (TemplateRetainedBytes srv)
      "lets one symbol table hold " " live bytes but this server accepts templates whose let: bindings retain up to "
      " (expr.let_retained_bytes vs openjd.expr_template_retained_bytes)" in
  match short with
  | [] => ""
  | _ => of_str (of_string "worker EXPR limits are tighter than this server's: it "
           ++ join (of_string "; ") short
           ++ of_string ". A job accepted under the server's limits would fail on this worker once per task, so it is not offered EXPR work")
  end.

(** [Job.DeclaresExtension]; [None] when nothing is recorded. *)
Definition DeclaresExtension (j : Job) (name : string) : option bool :=
  (λ l, bool_decide (name ∈ l)) <$> DeclaredExtensions j.

Definition jobMayUseEXPR (j : Job) : bool :=
  contains (of_string (RawTemplate j)) (of_string "EXPR")
  && contains (of_string (RawTemplate j)) (of_string "extensions").

Definition jobUsesEXPR (j : Job) : bool :=
  match DeclaresExtension j "EXPR" with Some declared => declared | None => jobMayUseEXPR j end.

Definition exprCapsBlock (workerShortfall : string) (j : Job) : string :=
  if bool_decide (workerShortfall = ""%string) || negb (jobUsesEXPR j) then "" else workerShortfall.

Definition WorkerEnforcedExtensions : list string := ["SQI_LOG_CHECKS"%string].

Fixpoint extensionBlock (names : list string) (w : Worker) (j : Job) : string :=
  match names with
  | [] => ""
  | name :: names' =>
      match DeclaresExtension j name with
      | Some true =>
          if bool_decide (name ∈ WorkerExtensions (Caps w)) then extensionBlock names' w j
          else of_str (of_string "worker does not enforce " ++ of_string name ++ of_string "; upgrade sqi-worker")
      | _ => extensionBlock names' w j
      end
  end.

Definition workerExtensionBlock (w : Worker) (j : Job) : string :=
  extensionBlock WorkerEnforcedExtensions w j.

Definition workerCompatBlock (exprShortfall : string) (w : Worker) (j : Job) : string :=
  let reason := exprCapsBlock exprShortfall j in
  if bool_decide (reason = ""%string) then workerExtensionBlock w j else reason.

(** ** The rules of matching *)

Definition wellKnown : list string :=
  ["attr.worker.os.family"; "attr.worker.os.version"; "attr.worker.cpu.arch"; "attr.worker.computelocation"]%string.

Section Rules.
Context {tables : CaseTables}.

(** The value of a worker's tag: of the exact key, or else of a key that differs
    in case only, or empty. *)
Inductive has_tag (tags : gmap string string) (key : string) : string → Prop :=
  | tag_exact v : tags !! key = Some v → has_tag tags key v
  | tag_folded k v : tags !! key = None → tags !! k = Some v → same_fold k key = true → has_tag tags key v
  | tag_absent : tags !! key = None → (∀ k v, tags !! k = Some v → same_fold k key = false) →
      has_tag tags key "".

(** The value of a requirement's attribute; names match whatever their case. *)
Inductive has_attribute (c : Capabilities) (name : string) : string → Prop :=
  | has_os : lowered name = "attr.worker.os.family"%string → has_attribute c name (osFamily (OS c))
  | has_version : lowered name = "attr.worker.os.version"%string → has_attribute c name (OSVersion c)
  | has_arch : lowered name = "attr.worker.cpu.arch"%string → has_attribute c name (cpuArch (Arch c))
  | has_location : lowered name = "attr.worker.computelocation"%string →
      has_attribute c name (ComputeLocation c)
  | has_tagged key v : lowered name ∉ wellKnown → cutPrefixFold name "attr.worker.tag." = Some key →
      has_tag (Tags c) key v → has_attribute c name v
  | has_nothing : lowered name ∉ wellKnown → cutPrefixFold name "attr.worker.tag." = None →
      has_attribute c name "".

(** No two keys of a worker's tags differ in case only. *)
Definition unambiguous (tags : gmap string string) : Prop :=
  ∀ key k k', is_Some (tags !! k) → is_Some (tags !! k') →
  same_fold k key = true → same_fold k' key = true → k = k'.

(** The rules of the matcher's documentation. *)
Record Matches (w : Worker) (job : Job) (step : Step) (pools : gmap string (string * UsagePool))
    (activeCounts : gmap string Z) : Prop := mkMatches {
  match_farm : default "" (WorkerFarmID w) = ""%string ∨ default "" (WorkerFarmID w) = JobFarmID job;
  match_queue : default "" (WorkerQueueID w) = ""%string ∨ default "" (WorkerQueueID w) = JobQueueID job;
  match_location : StepComputeLocation step = ""%string ∨ StepComputeLocation step = ComputeLocation (Caps w);
  match_amounts : ∀ hr req, HostRequirements step = Some hr → req ∈ Amounts hr →
    hasPrefixFold (AmountName req) "amount.worker.usagepool." = false →
    satisfiesAmount req (default 0 (workerAmountValue (lowered (AmountName req)) (Caps w))) = true;
  match_attributes : ∀ hr req, HostRequirements step = Some hr → req ∈ Attributes hr →
    ∃ val, has_attribute (Caps w) (AttributeName req) val ∧
      (AnyOf req = [] ∨ ∃ a, a ∈ AnyOf req ∧ same_fold val a = true) ∧
      ∀ a, a ∈ AllOf req → same_fold val a = true;
  match_pools : ∀ hr name, HostRequirements step = Some hr → name ∈ UsagePools hr →
    ∃ id pool, pools !! lowered name = Some (id, pool) ∧
      (0 < MaxConcurrent pool → default 0 (activeCounts !! lowered name) < MaxConcurrent pool);
}.

Context (range : gmap string string → list (string * string)).
Context (Hrange : ∀ m, range m ≡ₚ map_to_list m).

Lemma tagValueFold_has tags key : has_tag tags key (tagValueFold range tags key).
Proof using Hrange.
  unfold tagValueFold. destruct (tags !! key) as [v|] eqn:E; [by constructor|].
  destruct (list_find _ (range tags)) as [[i [k v]]|] eqn:Ef.
  - apply list_find_Some in Ef as (Ei%list_elem_of_lookup_2 & Hs & _).
    rewrite Hrange, elem_of_map_to_list in Ei. by eapply tag_folded.
  - constructor; [done|]. intros k v Ek. rewrite list_find_None, Forall_forall in Ef.
    apply not_true_is_false. intros Hs. apply (Ef (k, v)); [|done]. by rewrite Hrange, elem_of_map_to_list.
Qed.

Lemma has_tag_unique tags key v v' :
  unambiguous tags → has_tag tags key v → has_tag tags key v' → v = v'.
Proof.
  intros Hu [x E|k x E Ek Hk|E Hn] [y E'|k' y E' Ek' Hk'|E' Hn']; try congruence.
  - assert (k = k') as -> by (eapply Hu; eauto). congruence.
  - by rewrite (Hn' _ _ Ek) in Hk.
  - by rewrite (Hn _ _ Ek') in Hk'.
Qed.

Lemma workerAttributeValue_has c name : has_attribute c name (workerAttributeValue range c name).
Proof using Hrange.
  unfold workerAttributeValue. repeat (case_bool_decide; [by constructor|]).
  assert (lowered name ∉ wellKnown) by (unfold wellKnown; set_solver).
  destruct (cutPrefixFold _ _) as [key|] eqn:E; [|by constructor].
  eapply has_tagged; [done..|]. apply tagValueFold_has.
Qed.

Lemma has_attribute_unique c name v v' :
  unambiguous (Tags c) → has_attribute c name v → has_attribute c name v' → v = v'.
Proof.
  unfold wellKnown. intros Hu [] []; try congruence; try (exfalso; unfold wellKnown in *; set_solver).
  simplify_eq. by eapply has_tag_unique.
Qed.

Lemma checkAmounts_spec amts c :
  checkAmounts amts c = rejectNone ↔
  ∀ req, req ∈ amts → hasPrefixFold (AmountName req) "amount.worker.usagepool." = false →
    satisfiesAmount req (default 0 (workerAmountValue (lowered (AmountName req)) c)) = true.
Proof.
  induction amts as [|req amts IH]; cbn [checkAmounts].
  { split; [|done]. intros _ req H. by apply elem_of_nil in H. }
  setoid_rewrite elem_of_cons. destruct (hasPrefixFold _ _) eqn:Ep; [rewrite IH; naive_solver congruence|].
  destruct (satisfiesAmount _ _) eqn:Es; [rewrite IH; naive_solver|]. split; [done|].
  intros H. specialize (H req (or_introl eq_refl) Ep). congruence.
Qed.

Lemma checkAttributes_spec attrs c :
  unambiguous (Tags c) →
  checkAttributes range attrs c = rejectNone ↔
  ∀ req, req ∈ attrs → ∃ val, has_attribute c (AttributeName req) val ∧
    (AnyOf req = [] ∨ ∃ a, a ∈ AnyOf req ∧ same_fold val a = true) ∧
    ∀ a, a ∈ AllOf req → same_fold val a = true.
Proof using Hrange.
  intros Hu. induction attrs as [|req attrs IH]; cbn [checkAttributes].
  { split; [|done]. intros _ req H. by apply elem_of_nil in H. }
  set (val := workerAttributeValue range c (AttributeName req)).
  assert (has_attribute c (AttributeName req) val) as Hv by apply workerAttributeValue_has.
  assert ((match AnyOf req with [] => true | l => existsb (same_fold val) l end = true ↔
    (AnyOf req = [] ∨ ∃ a, a ∈ AnyOf req ∧ same_fold val a = true))) as Hany.
  { destruct (AnyOf req) as [|a l]; [naive_solver|]. rewrite existsb_exists.
    setoid_rewrite <- list_elem_of_In. naive_solver. }
  assert (forallb (same_fold val) (AllOf req) = true ↔ ∀ a, a ∈ AllOf req → same_fold val a = true) as Hall.
  { rewrite forallb_forall. by setoid_rewrite <- list_elem_of_In. }
  setoid_rewrite elem_of_cons.
  destruct (match AnyOf req with [] => true | _ => _ end); cbn [negb].
  - destruct (forallb _ _).
    + rewrite IH. split; [|by auto]. intros H r [->|Hr]; [|auto]. exists val. naive_solver.
    + split; [done|]. intros H. destruct (H req (or_introl eq_refl)) as (v & Hv' & _ & Ha).
      rewrite (has_attribute_unique c _ v val) in Ha by done. naive_solver.
  - split; [done|]. intros H. destruct (H req (or_introl eq_refl)) as (v & Hv' & Ha & _).
    rewrite (has_attribute_unique c _ v val) in Ha by done. naive_solver.
Qed.

Lemma checkUsagePools_spec names pools counts :
  checkUsagePools names pools counts = rejectNone ↔
  ∀ name, name ∈ names → ∃ id pool, pools !! lowered name = Some (id, pool) ∧
    (0 < MaxConcurrent pool → default 0 (counts !! lowered name) < MaxConcurrent pool).
Proof.
  induction names as [|name names IH]; cbn [checkUsagePools].
  { split; [|done]. intros _ name H. by apply elem_of_nil in H. }
  setoid_rewrite elem_of_cons. destruct (pools !! lowered name) as [[id p]|] eqn:E.
  2: { split; [done|]. intros H. destruct (H name) as (? & ? & ? & _); [auto|congruence]. }
  destruct (MaxConcurrent p <=? 0) eqn:E0; [|destruct (_ <=? default 0 _) eqn:E1].
  - rewrite IH. zbool. split; [|auto]. intros H n [->|Hn]; [|auto]. exists id, p. split; [done|lia].
  - split; [done|]. intros H. destruct (H name (or_introl eq_refl)) as (? & ? & ? & ?).
    simplify_eq; zbool; lia.
  - rewrite IH. zbool. split; [|auto]. intros H n [->|Hn]; [|auto]. exists id, p. split; [done|lia].
Qed.

End Rules.

(** A step that wants Maya on a Linux machine of four cores. *)
Definition mayaStep : Step :=
  mkStep "j" "render" [] 0 StepReady 2 2 ""
    (Some (mkStepHostRequirements
      [mkStepAmountRequirement "Amount.Worker.vCPU" (Some "4"%string) None]
      [mkStepAttributeRequirement "attr.worker.os.family" ["linux"; "macos"]%string [];
       mkStepAttributeRequirement "attr.worker.tag.software" [] ["Maya"%string]] [])).

Definition mayaWorker : Worker :=
  mkWorker (Some "f"%string) None WorkerOnline false "i1" None None (Some 5) 1 1
    (mkCapabilities "" "linux" "6.1" "amd64" 8 32768 0 0 {["Software"%string := "maya"%string]}
       legacyWorkerExprCaps []).

