(* ===== verification/Deps.v ===== *)
(** * Step dependencies: [internal/openjd/deps.go]

    Releasing the steps whose upstreams completed and cancelling, transitively,
    the steps behind one that did not.  The steps are listed once and every
    decision is taken on that list; the store re-checks each one inside its own
    write. *)

From S2P Require Import Prelude Schema Finalize Sched.
Open Scope Z_scope.

Definition FailureReasonUpstreamFailed : string := "canceled: upstream step failed".

(** [sqlListSteps]: the job's steps in step order. *)
Definition ListSteps (db : DB) (jobID : string) : list (string * Step) :=
  sort_by (λ a b, StepOrder a.2 <=? StepOrder b.2)
    (map_to_list (matching (λ _ st, bool_decide (StepJobID st = jobID)) (steps db))).

(** Name to status; a name that is listed twice keeps the later one, and a name
    that is not listed has no status. *)
Definition stepStatusByName (ss : list (string * Step)) : gmap string StepStatus :=
  foldl (λ m s, <[StepName s.2 := StepStatusOf s.2]> m) ∅ ss.

Definition allDepsCompleted (deps : list string) (statusByName : gmap string StepStatus) : bool :=
  forallb (λ d, bool_decide (statusByName !! d = Some StepCompleted)) deps.

Definition anyDepUnsuccessful (deps : list string) (statusByName : gmap string StepStatus) : bool :=
  existsb (λ d, bool_decide (statusByName !! d = Some StepFailed)
                || bool_decide (statusByName !! d = Some StepCanceled)) deps.

Section Deps.
Context (env : Surroundings).

Fixpoint resolveLoop (statusByName : gmap string StepStatus) (ss : list (string * Step))
    (promoted : Z) : M Z :=
  match ss with
  | [] => mret promoted
  | (id, st) :: ss' =>
      if negb (bool_decide (StepStatusOf st = StepPending)) then resolveLoop statusByName ss' promoted
      else if negb (allDepsCompleted (DependsOn st) statusByName)
      then resolveLoop statusByName ss' promoted
      else
        t ← time_Now env;
        r ← call env (ReleaseStep id t);
        resolveLoop statusByName ss' (if r.1 : bool then promoted + 1 else promoted)
  end.

Definition ResolveDependencies (jobID : string) : M Z :=
  ss ← query env (λ db, Ok (ListSteps db jobID));
  resolveLoop (stepStatusByName ss) ss 0.

(** What the cancel loop carries: the statuses as it knows them, the steps
    cancelled so far and their tasks, and whether this pass settled a step. *)
Record CancelState := mkCancelState {
  statusByName : gmap string StepStatus;
  canceled : Z;
  canceledTasks : list (string * Task);
  progressed : bool;
}.

(** One pass over the steps. *)
Fixpoint cancelPass (ss : list (string * Step)) (s : CancelState) : M CancelState :=
  match ss with
  | [] => mret s
  | (id, st) :: ss' =>
      if negb (bool_decide (statusByName s !! StepName st = Some StepPending)) then cancelPass ss' s
      else if negb (anyDepUnsuccessful (DependsOn st) (statusByName s)) then cancelPass ss' s
      else
        t ← time_Now env;
        r ← call env (CancelPendingStep id FailureReasonUpstreamFailed t);
        cancelPass ss'
          (mkCancelState (<[StepName st := StepCanceled]> (statusByName s))
             (if r.1 : bool then canceled s + 1 else canceled s)
             (canceledTasks s ++ map_to_list r.2) true)
  end.

(** Passes until one settles nothing. *)
Fixpoint cancelLoop (fuel : nat) (ss : list (string * Step)) (s : CancelState)
    : M (Z * list (string * Task)) :=
  match fuel with
  | O => out_of_fuel
  | S fuel' =>
      s' ← cancelPass ss (mkCancelState (statusByName s) (canceled s) (canceledTasks s) false);
      if progressed s' : bool then cancelLoop fuel' ss s'
      else mret (canceled s', canceledTasks s')
  end.

(** Every pass but the last settles a step, so one more pass than there are
    steps is enough. *)
Definition CancelDependents (jobID : string) : M (Z * list (string * Task)) :=
  ss ← query env (λ db, Ok (ListSteps db jobID));
  cancelLoop (S (length ss)) ss (mkCancelState (stepStatusByName ss) 0 [] false).
End Deps.

(** ** Termination *)

(** The steps a loop state still takes to be pending. *)
Definition pendingNames (ss : list (string * Step)) (m : gmap string StepStatus) : nat :=
  length (filter (λ s, m !! StepName s.2 = Some StepPending) ss).

Lemma pendingNames_settle ss m name :
  (pendingNames ss (<[name := StepCanceled]> m) ≤ pendingNames ss m)%nat ∧
  (name ∈ (StepName ∘ snd) <$> ss → m !! name = Some StepPending →
   (pendingNames ss (<[name := StepCanceled]> m) < pendingNames ss m)%nat).
Proof.
  unfold pendingNames. induction ss as [|[id st] ss [IH1 IH2]]; [set_solver|].
  rewrite !filter_cons, fmap_cons. cbn [snd compose].
  destruct (decide (StepName st = name)) as [<-|Hne].
  - rewrite lookup_insert_eq, (decide_False (P := Some StepCanceled = _)) by done.
    destruct (decide (m !! StepName st = _)); cbn; split; [lia|lia|lia|congruence].
  - rewrite lookup_insert_ne by done.
    destruct (decide (m !! StepName st = _)); cbn; (split; [lia|]);
      intros [->|Hin]%elem_of_cons Hm; try done; specialize (IH2 Hin Hm); lia.
Qed.

Section Termination.
Context (env : Surroundings).

(** A pass only settles steps, and one that reports progress settled some. *)
Lemma cancelPass_settles all ss s w :
  (∀ s, s ∈ ss → s ∈ all) →
  returns (cancelPass env ss s) w (λ r _, match r with
    | Ok s' =>
        (pendingNames all (statusByName s') ≤ pendingNames all (statusByName s))%nat ∧
        (progressed s' = true → progressed s = true ∨
           (pendingNames all (statusByName s') < pendingNames all (statusByName s))%nat)
    | Err _ => True
    end).
Proof.
  revert s w. induction ss as [|[id st] ss IH]; intros s w Hin; cbn [cancelPass].
  { apply returns_ret. auto. }
  assert (∀ s, s ∈ ss → s ∈ all) as Hin' by (intros; apply Hin; by right).
  case_bool_decide as Hp; cbn [negb]; [|by apply IH].
  destruct (anyDepUnsuccessful _ _) eqn:Hd; cbn [negb]; [|by apply IH].
  apply returns_bind. exists (Ok (now env (wcalls w))), w. split; [done|].
  apply returns_bind. apply returns_call; [done|]. intros _.
  destruct (CancelPendingStep _ _ _ _) as [[r|e] d]; cbn; [|done].
  eapply returns_mono; [by apply IH|]. cbn. intros [s'|e] _; [|done]. intros [H1 H2].
  destruct (pendingNames_settle all (statusByName s) (StepName st)) as [H3 H4].
  specialize (H4 ltac:(apply list_elem_of_fmap; exists (id, st); split; [done|]; apply Hin; left) Hp).
  split; [lia|]. right. lia.
Qed.

Lemma cancelLoop_returns fuel ss s w :
  (pendingNames ss (statusByName s) < fuel)%nat →
  returns (cancelLoop env fuel ss s) w (λ _ _, True).
Proof.
  revert s w. induction fuel as [|fuel IH]; intros s w Hf; [lia|]. cbn [cancelLoop].
  apply returns_bind.
  eapply returns_mono; [by apply (cancelPass_settles ss)|]. cbn. intros [s'|e] w'; [|done].
  intros [H1 H2]. destruct (progressed s') eqn:E; [|by apply returns_ret].
  apply IH. destruct (H2 eq_refl); [done|lia].
Qed.

Lemma pendingNames_length ss m : (pendingNames ss m ≤ length ss)%nat.
Proof. apply length_filter. Qed.

(** More fuel gives the same answer. *)
Lemma cancelLoop_more fuel fuel' ss s w r :
  cancelLoop env fuel ss s w = Some r → (fuel ≤ fuel')%nat → cancelLoop env fuel' ss s w = Some r.
Proof.
  revert fuel' s w. induction fuel as [|fuel IH]; intros [|fuel'] s w H Hle; [done|done|lia|].
  cbn [cancelLoop] in *. unfold mbind, M_bind in *.
  destruct (cancelPass env ss _ w) as [[[s'|e] w']|]; [|done|done].
  destruct (progressed s'); [|done]. apply IH; [done|lia].
Qed.
End Termination.

(** ** The steps as the loops see them *)

(** A job's step names are unique ([steps] has a unique index on them). *)
Definition NamesUnique (db : DB) (jobID : string) : Prop :=
  ∀ i j a b, steps db !! i = Some a → steps db !! j = Some b →
    StepJobID a = jobID → StepJobID b = jobID → StepName a = StepName b → i = j.

(** Step [name] of the job has status [s]. *)
Definition HasStatus (db : DB) (jobID name : string) (s : StepStatus) : Prop :=
  ∃ k u, steps db !! k = Some u ∧ StepJobID u = jobID ∧ StepName u = name ∧ StepStatusOf u = s.

Lemma ListSteps_elem db jobID k st :
  (k, st) ∈ ListSteps db jobID ↔ steps db !! k = Some st ∧ StepJobID st = jobID.
Proof.
  unfold ListSteps. rewrite sort_by_perm, elem_of_map_to_list, lookup_matching.
  by rewrite bool_decide_eq_true.
Qed.

Lemma ListSteps_ids db jobID : NoDup (ListSteps db jobID).*1.
Proof. unfold ListSteps. rewrite sort_by_perm. apply NoDup_fst_map_to_list. Qed.

Lemma ListSteps_names db jobID :
  NamesUnique db jobID → NoDup ((StepName ∘ snd) <$> ListSteps db jobID).
Proof.
  intros HU. apply NoDup_fmap_2_strong.
  - intros [i a] [j b] [Ha Ja]%ListSteps_elem [Hb Jb]%ListSteps_elem Hn. cbn in Hn.
    assert (i = j) as -> by (by eapply HU). congruence.
  - eapply NoDup_fmap_1, ListSteps_ids.
Qed.

Lemma NamesUnique_list db jobID :
  NoDup ((StepName ∘ snd) <$> ListSteps db jobID) → NamesUnique db jobID.
Proof.
  intros HN i j a b Ea Eb Ja Jb Hn.
  assert ((i, a) ∈ ListSteps db jobID) as [x Hx]%list_elem_of_lookup_1 by (by apply ListSteps_elem).
  assert ((j, b) ∈ ListSteps db jobID) as [y Hy]%list_elem_of_lookup_1 by (by apply ListSteps_elem).
  assert (x = y) as ->; [|congruence].
  apply (NoDup_lookup _ x y (StepName a) HN); rewrite list_lookup_fmap; [by rewrite Hx|].
  by rewrite Hy, Hn.
Qed.

Lemma stepStatusByName_spec ss name s :
  NoDup ((StepName ∘ snd) <$> ss) →
  stepStatusByName ss !! name = Some s ↔
  ∃ k st, (k, st) ∈ ss ∧ StepName st = name ∧ StepStatusOf st = s.
Proof.
  unfold stepStatusByName. induction ss as [|[k st] ss IH] using rev_ind; intros HN.
  { cbn. rewrite lookup_empty. split; [done|]. intros (k & st & H & _). by apply not_elem_of_nil in H. }
  rewrite foldl_app. cbn [foldl snd].
  rewrite fmap_app in HN. apply NoDup_app in HN as (HN & Hd & _). specialize (IH HN).
  assert (StepName st ∉ (StepName ∘ snd) <$> ss) as Hnot.
  { intros Hin. apply (Hd _ Hin). apply list_elem_of_fmap. exists (k, st). split; [done|left]. }
  destruct (decide (StepName st = name)) as [<-|Hne].
  - rewrite lookup_insert_eq. split.
    + intros [= <-]. exists k, st. split; [|done]. apply elem_of_app. right. left.
    + intros (k' & st' & [Hin|[[= <- <-]|[]%elem_of_nil]%elem_of_cons]%elem_of_app & Hn & <-); [|done].
      destruct Hnot. apply list_elem_of_fmap. by exists (k', st').
  - rewrite lookup_insert_ne, IH by done. split; intros (k' & st' & Hin & Hn & Hs).
    + exists k', st'. split; [|done]. apply elem_of_app. by left.
    + exists k', st'. apply elem_of_app in Hin as [Hin|[[= <- <-]|[]%elem_of_nil]%elem_of_cons]; done.
Qed.

(** The map the loops decide on agrees with a database. *)
Definition Sync (m : gmap string StepStatus) (db : DB) (jobID : string) : Prop :=
  ∀ name s, m !! name = Some s ↔ HasStatus db jobID name s.

Lemma Sync_list db jobID : NamesUnique db jobID →
  Sync (stepStatusByName (ListSteps db jobID)) db jobID.
Proof.
  intros HU name s. rewrite stepStatusByName_spec by (by apply ListSteps_names).
  unfold HasStatus. split.
  - intros (k & st & [? ?]%ListSteps_elem & ? & ?). by exists k, st.
  - intros (k & st & ? & ? & ? & ?). exists k, st. by rewrite ListSteps_elem.
Qed.

Lemma allDepsCompleted_spec m db jobID deps : Sync m db jobID →
  allDepsCompleted deps m = true ↔ ∀ d, d ∈ deps → HasStatus db jobID d StepCompleted.
Proof.
  intros HS. unfold allDepsCompleted. rewrite forallb_forall. split; intros H d Hd.
  - apply HS. specialize (H d). rewrite bool_decide_eq_true in H. apply H. by apply list_elem_of_In.
  - rewrite bool_decide_eq_true. apply HS, H. by apply list_elem_of_In.
Qed.

Lemma anyDepUnsuccessful_spec m db jobID deps : Sync m db jobID →
  anyDepUnsuccessful deps m = true ↔
  ∃ d, d ∈ deps ∧ (HasStatus db jobID d StepFailed ∨ HasStatus db jobID d StepCanceled).
Proof.
  intros HS. unfold anyDepUnsuccessful. rewrite existsb_exists. split.
  - intros (d & Hd & H). exists d. split; [by apply list_elem_of_In|].
    apply orb_true_iff in H as [H|H]; apply bool_decide_eq_true, HS in H; auto.
  - intros (d & Hd & H). exists d. split; [by apply list_elem_of_In|].
    rewrite orb_true_iff, !bool_decide_eq_true, !(HS d). done.
Qed.

(** The store's re-check is the same question. *)
Lemma anyUpstreamUnsuccessful_spec db jobID deps :
  anyUpstreamUnsuccessful db jobID deps = true ↔
  ∃ d, d ∈ deps ∧ (HasStatus db jobID d StepFailed ∨ HasStatus db jobID d StepCanceled).
Proof.
  unfold anyUpstreamUnsuccessful, HasStatus. rewrite exists_where_true. split.
  - intros (k & u & E & H). rewrite !andb_true_iff, orb_true_iff, !bool_decide_eq_true in H.
    destruct H as [[H1 H2] H3]. exists (StepName u). split; [done|]. destruct H2; [left|right]; by exists k, u.
  - intros (d & Hd & [(k & u & E & H1 & <- & H2)|(k & u & E & H1 & <- & H2)]); exists k, u;
      rewrite !andb_true_iff, orb_true_iff, !bool_decide_eq_true; auto.
Qed.

(** ** What a run of moves leaves *)

(** [db'] is [db] with the pending steps [C] moved to [stepTo] and their pending
    tasks to [taskTo], and nothing else changed. *)
Record Moved (stepTo : StepStatus) (taskTo : TaskStatus) (reason : string) (C : gset string)
    (db db' : DB) : Prop := mkMoved {
  moved_in : ∀ k, k ∈ C → ∃ st t, steps db !! k = Some st ∧ StepStatusOf st = StepPending ∧
    steps db' !! k = Some (step_to stepTo t st);
  moved_out : ∀ k, k ∉ C → steps db' !! k = steps db !! k;
  moved_task : ∀ k t, tasks db !! k = Some t → TaskStatusOf t = TaskPending → TaskStepID t ∈ C →
    ∃ n, tasks db' !! k = Some (pending_task_to taskTo n reason t);
  moved_task_out : ∀ k,
    (∀ t, tasks db !! k = Some t → TaskStatusOf t = TaskPending → TaskStepID t ∉ C) →
    tasks db' !! k = tasks db !! k;
  moved_rest : db' = set_tasks (tasks db') (set_steps (steps db') db);
}.

Lemma Moved_none stepTo taskTo reason db : Moved stepTo taskTo reason ∅ db db.
Proof. split; [set_solver|done|set_solver|done|by destruct db]. Qed.

(** One successful move. *)
Lemma movePendingStep_moves id stepTo taskTo reason n db st :
  steps db !! id = Some st → StepStatusOf st = StepPending →
  (stepTo = StepCanceled → anyUpstreamUnsuccessful db (StepJobID st) (DependsOn st) = true) →
  taskTo ≠ TaskPending →
  ∃ ts, (movePendingStep id stepTo taskTo reason n db).1 = Ok (true, ts) ∧
    ts = returning (λ _, stepPendingTask id) (λ _, pending_task_to taskTo n reason) (tasks db) ∧
    steps (movePendingStep id stepTo taskTo reason n db).2 = <[id := step_to stepTo n st]> (steps db) ∧
    tasks (movePendingStep id stepTo taskTo reason n db).2 =
      update_where (λ _, stepPendingTask id) (λ _, pending_task_to taskTo n reason) (tasks db) ∧
    Moved stepTo taskTo reason {[id]} db (movePendingStep id stepTo taskTo reason n db).2.
Proof.
  intros E Hp Hup Hto. unfold movePendingStep, inTx, get. rewrite E. cbn.
  assert (bool_decide (stepTo = StepCanceled)
          && negb (anyUpstreamUnsuccessful db (StepJobID st) (DependsOn st)) = false) as ->.
  { case_bool_decide; [|done]. by rewrite Hup. }
  rewrite bool_decide_true by done. cbn.
  rewrite (update_one (λ s, bool_decide (StepStatusOf s = StepPending)) _ _ _ _ E)
    by (by rewrite bool_decide_true).
  eexists. split; [done|]. split; [done|]. split; [done|]. split; [done|]. split; cbn.
  - intros k ->%elem_of_singleton. exists st, n. by rewrite lookup_insert_eq.
  - intros k Hk. rewrite lookup_insert_ne; [done|set_solver].
  - intros k t Et Ht Hs%elem_of_singleton. exists n. rewrite lookup_update_where, Et. cbn.
    unfold stepPendingTask. by rewrite !bool_decide_true.
  - intros k Hk. rewrite lookup_update_where. destruct (tasks db !! k) as [t|]; [|done]. cbn.
    unfold stepPendingTask. destruct (bool_decide (TaskStepID t = id)) eqn:E1; [|done].
    destruct (bool_decide (TaskStatusOf t = TaskPending)) eqn:E2; [|done].
    apply bool_decide_eq_true in E1, E2. destruct (Hk t eq_refl E2). set_solver.
  - done.
Qed.

Lemma Moved_step stepTo taskTo reason C k db db1 db2 :
  Moved stepTo taskTo reason C db db1 → Moved stepTo taskTo reason {[k]} db1 db2 →
  k ∉ C → taskTo ≠ TaskPending → Moved stepTo taskTo reason (C ∪ {[k]}) db db2.
Proof.
  intros [A1 A2 A3 A4 A5] [B1 B2 B3 B4 B5] Hk Hto. split.
  - intros j [Hj| ->%elem_of_singleton]%elem_of_union.
    + destruct (A1 j Hj) as (st & t & E1 & E2 & E3). exists st, t. rewrite B2; [done|set_solver].
    + rewrite <- (A2 k Hk). apply B1. set_solver.
  - intros j Hj. rewrite B2, A2; [done|set_solver..].
  - intros j t Et Ht [Hin|Hin]%elem_of_union.
    + destruct (A3 j t Et Ht Hin) as (n & E). exists n. rewrite B4; [done|].
      rewrite E. intros t' [= <-] Ht'. by cbn in Ht'.
    + apply B3; [|done|done]. rewrite A4; [done|]. rewrite Et. intros t' [= <-] _. set_solver.
  - intros j Hj. rewrite B4, A4; [done| |].
    + intros t Et Ht Hin. apply (Hj t Et Ht). set_solver.
    + intros t Et Ht Hin%elem_of_singleton.
      rewrite A4 in Et by (intros t' Et' Ht' Hin'; apply (Hj t' Et' Ht'); set_solver).
      apply (Hj t Et Ht). set_solver.
  - rewrite B5, A5. done.
Qed.

Lemma Moved_status stepTo taskTo reason C db db' k st :
  Moved stepTo taskTo reason C db db' → steps db !! k = Some st →
  ∃ st', steps db' !! k = Some st' ∧ StepJobID st' = StepJobID st ∧ StepName st' = StepName st ∧
    DependsOn st' = DependsOn st ∧
    StepStatusOf st' = if bool_decide (k ∈ C) then stepTo else StepStatusOf st.
Proof.
  intros H E. case_bool_decide as Hk.
  - destruct (moved_in _ _ _ _ _ _ H k Hk) as (st' & t & E1 & E2 & E3).
    rewrite E in E1. injection E1 as <-. by eexists.
  - rewrite (moved_out _ _ _ _ _ _ H k Hk). by exists st.
Qed.

Lemma Moved_back stepTo taskTo reason C db db' k st' :
  Moved stepTo taskTo reason C db db' → steps db' !! k = Some st' →
  ∃ st, steps db !! k = Some st ∧ StepJobID st' = StepJobID st ∧ StepName st' = StepName st ∧
    DependsOn st' = DependsOn st ∧
    StepStatusOf st' = if bool_decide (k ∈ C) then stepTo else StepStatusOf st.
Proof.
  intros H E. destruct (steps db !! k) as [st|] eqn:E0.
  - destruct (Moved_status _ _ _ _ _ _ _ _ H E0) as (st1 & E1 & ?). exists st. naive_solver.
  - destruct (decide (k ∈ C)) as [Hk|Hk].
    + destruct (moved_in _ _ _ _ _ _ H k Hk) as (st & t & E1 & _). congruence.
    + rewrite (moved_out _ _ _ _ _ _ H k Hk) in E. congruence.
Qed.

(** ** Releasing *)

Definition releasable (m : gmap string StepStatus) (st : Step) : Prop :=
  StepStatusOf st = StepPending ∧ allDepsCompleted (DependsOn st) m = true.

#[export] Instance releasable_dec m st : Decision (releasable m st).
Proof. unfold releasable. apply _. Defined.

Lemma resolveLoop_cons_skip env m id st ss p :
  ¬ releasable m st → resolveLoop env m ((id, st) :: ss) p = resolveLoop env m ss p.
Proof.
  intros H. cbn [resolveLoop]. case_bool_decide as Hp; [cbn [negb]|done].
  destruct (allDepsCompleted _ _) eqn:Hd; [|done]. by destruct H.
Qed.

Lemma resolveLoop_quiet clock m ss p w db C :
  Moved StepReady TaskReady "" C db (wdb w) → NoDup ss.*1 →
  (∀ k st, (k, st) ∈ ss → steps db !! k = Some st ∧ k ∉ C) →
  ∃ C' w', resolveLoop (quiet clock) m ss p w = Some (Ok (p + Z.of_nat (size C')), w') ∧
    Moved StepReady TaskReady "" (C ∪ C') db (wdb w') ∧ wevents w' = wevents w ∧
    ∀ k, k ∈ C' ↔ ∃ st, (k, st) ∈ ss ∧ releasable m st.
Proof.
  revert p w C. induction ss as [|[id st] ss IH]; intros p w C HM HN Hss.
  { exists ∅, w. rewrite size_empty, Z.add_0_r, union_empty_r_L. split; [done|]. split; [done|].
    split; [done|]. set_solver. }
  apply NoDup_cons in HN as [Hid HN]. destruct (Hss id st ltac:(left)) as [E HC].
  destruct (decide (releasable m st)) as [Hr|Hr].
  2: { rewrite resolveLoop_cons_skip by done.
       destruct (IH p w C HM HN) as (C' & w' & H1 & H2 & H3 & H4).
       { intros k s Hk. apply Hss. by right. }
       exists C', w'. split; [done|]. split; [done|]. split; [done|]. intros k. rewrite H4.
       split; intros (s & Hin & Hs); exists s; [split; [by right|done]|].
       apply elem_of_cons in Hin as [[= <- <-]|Hin]; done. }
  destruct Hr as [Hp Hd]. cbn [resolveLoop]. rewrite (bool_decide_true _ Hp), Hd. cbn [negb].
  rewrite (bind_ok (time_Now _) _ w (clock (wcalls w)) w) by done. cbv beta.
  destruct (movePendingStep_moves id StepReady TaskReady "" (clock (wcalls w)) (wdb w) st)
    as (ts & R1 & _ & _ & _ & R2); [|done|done|done|].
  { by rewrite (moved_out _ _ _ _ _ _ HM id HC). }
  set (w1 := mkWorld (ReleaseStep id (clock (wcalls w)) (wdb w)).2 (S (wcalls w)) (wevents w)).
  rewrite (bind_ok _ _ w (true, ts) w1)
    by (rewrite call_quiet; unfold w1, ReleaseStep; by rewrite R1). cbn [fst].
  destruct (IH (p + 1) w1 (C ∪ {[id]})) as (C' & w' & H1 & H2 & H3 & H4);
    [by eapply Moved_step|done| |].
  { intros k s Hk. destruct (Hss k s ltac:(by right)). split; [done|].
    apply not_elem_of_union. split; [done|]. intros ->%elem_of_singleton. apply Hid.
    apply list_elem_of_fmap. by exists (id, s). }
  assert (id ∉ C') as Hn.
  { rewrite H4. intros (s & Hin & _). apply Hid. apply list_elem_of_fmap. by exists (id, s). }
  exists ({[id]} ∪ C'), w'. rewrite (assoc_L (∪)). split; [|split; [done|split; [done|]]].
  - rewrite H1, size_union, size_singleton by set_solver. do 3 f_equal. lia.
  - intros k. rewrite elem_of_union, elem_of_singleton, H4. split.
    + intros [->|(s & Hin & Hs)]; [exists st; split; [left|done]|exists s; split; [by right|done]].
    + intros (s & [[= -> ->]|Hin]%elem_of_cons & Hs); [by left|right; eauto].
Qed.

(** [ResolveDependencies], with nobody interfering, returns and moves to
    ready exactly the job's pending steps whose every named upstream is a
    completed step of the job, and exactly those steps' pending tasks; it changes
    nothing else, in the steps, the tasks or any other table, and the count it
    returns is the number of steps it moved. *)
Theorem ResolveDependencies_releases clock jobID w :
  NamesUnique (wdb w) jobID →
  ∃ C w', ResolveDependencies (quiet clock) jobID w = Some (Ok (Z.of_nat (size C)), w') ∧
    Moved StepReady TaskReady "" C (wdb w) (wdb w') ∧ wevents w' = wevents w ∧
    ∀ k, k ∈ C ↔ ∃ st, steps (wdb w) !! k = Some st ∧ StepJobID st = jobID ∧
      StepStatusOf st = StepPending ∧
      ∀ d, d ∈ DependsOn st → HasStatus (wdb w) jobID d StepCompleted.
Proof.
  intros HU. unfold ResolveDependencies. erewrite bind_ok by (by rewrite query_quiet).
  edestruct (resolveLoop_quiet clock (stepStatusByName (ListSteps (wdb w) jobID))
    (ListSteps (wdb w) jobID) 0 (mkWorld (wdb w) (S (wcalls w)) (wevents w)) (wdb w) ∅)
    as (C & w' & H1 & H2 & H3 & H4); [apply Moved_none|apply ListSteps_ids| |].
  { intros k st [E _]%ListSteps_elem. split; [done|set_solver]. }
  rewrite union_empty_l_L in H2. exists C, w'. split; [done|]. split; [done|]. split; [done|].
  intros k. rewrite H4. unfold releasable.
  setoid_rewrite (allDepsCompleted_spec _ _ jobID); [|by apply Sync_list].
  setoid_rewrite ListSteps_elem. naive_solver.
Qed.

(** ** Cancelling *)

(** A pending step that can never run: one of its upstreams failed or was
    cancelled, or is itself such a step. *)
Inductive Doomed (db : DB) (jobID : string) : string → Prop :=
  | Doomed_direct k st d :
      steps db !! k = Some st → StepJobID st = jobID → StepStatusOf st = StepPending →
      d ∈ DependsOn st → HasStatus db jobID d StepFailed ∨ HasStatus db jobID d StepCanceled →
      Doomed db jobID k
  | Doomed_behind k st j u :
      steps db !! k = Some st → StepJobID st = jobID → StepStatusOf st = StepPending →
      steps db !! j = Some u → StepJobID u = jobID → StepName u ∈ DependsOn st →
      Doomed db jobID j → Doomed db jobID k.

Section Cancel.
Context (clock : nat → Z) (db : DB) (jobID : string) (HU : NamesUnique db jobID).

Abbreviation Canceled_ := (Moved StepCanceled TaskCanceled FailureReasonUpstreamFailed).

Record CancelInv (s : CancelState) (C : gset string) (db1 : DB) : Prop := mkCancelInv {
  ci_moved : Canceled_ C db db1;
  ci_sync : Sync (statusByName s) db1 jobID;
  ci_doomed : ∀ k, k ∈ C → Doomed db jobID k;
  ci_count : canceled s = Z.of_nat (size C);
  ci_tasks : ∀ k t, (k, t) ∈ canceledTasks s ↔ tasks db1 !! k = Some t ∧
    ∃ t0, tasks db !! k = Some t0 ∧ TaskStatusOf t0 = TaskPending ∧ TaskStepID t0 ∈ C;
}.

Lemma Moved_unique C db1 : Canceled_ C db db1 → NamesUnique db1 jobID.
Proof.
  intros H i j a b Ea Eb Ja Jb Hn.
  destruct (Moved_back _ _ _ _ _ _ _ _ H Ea) as (a0 & Ea0 & ? & ? & _).
  destruct (Moved_back _ _ _ _ _ _ _ _ H Eb) as (b0 & Eb0 & ? & ? & _).
  eapply HU; [exact Ea0|exact Eb0|congruence..].
Qed.

(** The step a pending name stands for is the listed one, still untouched. *)
Lemma pending_untouched s C db1 k st :
  CancelInv s C db1 → steps db !! k = Some st → StepJobID st = jobID →
  statusByName s !! StepName st = Some StepPending →
  (k ∉ C) ∧ steps db1 !! k = Some st ∧ StepStatusOf st = StepPending.
Proof.
  intros [HM HS _ _ _] E HJ (j & u & Eu & Ju & Hn & Hp)%HS.
  destruct (Moved_back _ _ _ _ _ _ _ _ HM Eu) as (u0 & Eu0 & J0 & N0 & _ & S0).
  assert (j = k) as -> by (eapply HU; [exact Eu0|exact E|congruence..]).
  destruct (bool_decide (k ∈ C)) eqn:Hk; [congruence|]. apply bool_decide_eq_false in Hk.
  rewrite (moved_out _ _ _ _ _ _ HM k Hk). rewrite E in *. injection Eu0 as <-.
  split; [done|]. split; [done|congruence].
Qed.

Lemma Sync_cancel m db1 db2 k st :
  NamesUnique db1 jobID → Sync m db1 jobID → steps db1 !! k = Some st → StepJobID st = jobID →
  Canceled_ {[k]} db1 db2 → Sync (<[StepName st := StepCanceled]> m) db2 jobID.
Proof.
  intros HU1 HS E HJ HM name s. destruct (decide (StepName st = name)) as [<-|Hne].
  - rewrite lookup_insert_eq. split.
    + intros [= <-]. destruct (Moved_status _ _ _ _ _ _ _ _ HM E) as (u & Eu & ? & ? & _ & Hs).
      rewrite bool_decide_true in Hs by set_solver. exists k, u. repeat split; congruence.
    + intros (j & u & Eu & Ju & Hn & <-).
      destruct (Moved_back _ _ _ _ _ _ _ _ HM Eu) as (u0 & Eu0 & ? & ? & _ & Hs).
      assert (j = k) as -> by (eapply HU1; [exact Eu0|exact E|congruence..]).
      rewrite bool_decide_true in Hs by set_solver. by rewrite Hs.
  - rewrite lookup_insert_ne, (HS name s) by done. unfold HasStatus.
    split; intros (j & u & Eu & Ju & Hn & Hs).
    + assert (j ∉ ({[k]} : gset string)) by (intros ->%elem_of_singleton; congruence).
      exists j, u. by rewrite (moved_out _ _ _ _ _ _ HM j).
    + destruct (Moved_back _ _ _ _ _ _ _ _ HM Eu) as (u0 & Eu0 & ? & ? & _ & Hs0).
      assert (j ∉ ({[k]} : gset string)) as Hj by (intros ->%elem_of_singleton; congruence).
      rewrite bool_decide_false in Hs0 by done. exists j, u0. repeat split; congruence.
Qed.

(** What a step the loop cancels was behind. *)
Lemma Doomed_now s C db1 k st :
  CancelInv s C db1 → steps db !! k = Some st → StepJobID st = jobID →
  StepStatusOf st = StepPending → anyDepUnsuccessful (DependsOn st) (statusByName s) = true →
  Doomed db jobID k.
Proof.
  intros [HM HS HD _ _] E HJ Hp H. rewrite (anyDepUnsuccessful_spec _ _ jobID _ HS) in H.
  destruct H as (d & Hd & H).
  assert (∃ j u, steps db1 !! j = Some u ∧ StepJobID u = jobID ∧ StepName u = d ∧
            (StepStatusOf u = StepFailed ∨ StepStatusOf u = StepCanceled)) as (j & u & Eu & Ju & Hn & Hs)
    by (destruct H as [(j & u & H)|(j & u & H)]; exists j, u; naive_solver).
  destruct (Moved_back _ _ _ _ _ _ _ _ HM Eu) as (u0 & Eu0 & J0 & N0 & _ & Hs0).
  destruct (bool_decide (j ∈ C)) eqn:Hj.
  - apply bool_decide_eq_true in Hj. eapply (Doomed_behind _ _ k st j u0); try done; try congruence; auto.
  - eapply (Doomed_direct _ _ k st d); try done. destruct Hs; [left|right]; exists j, u0;
      repeat split; congruence.
Qed.

(** The tasks a move returns, among those returned so far. *)
Lemma canceledTasks_add C db1 k n ts :
  Canceled_ C db db1 → (k ∉ C) →
  (∀ i t, (i, t) ∈ ts ↔ tasks db1 !! i = Some t ∧
     ∃ t0, tasks db !! i = Some t0 ∧ TaskStatusOf t0 = TaskPending ∧ TaskStepID t0 ∈ C) →
  let f := λ _ : string, pending_task_to TaskCanceled n FailureReasonUpstreamFailed in
  ∀ i t, (i, t) ∈ ts ++ map_to_list (returning (λ _, stepPendingTask k) f (tasks db1)) ↔
    update_where (λ _, stepPendingTask k) f (tasks db1) !! i = Some t ∧
    ∃ t0, tasks db !! i = Some t0 ∧ TaskStatusOf t0 = TaskPending ∧ TaskStepID t0 ∈ C ∪ {[k]}.
Proof.
  intros HM Hk Hts f i t. rewrite elem_of_app, elem_of_map_to_list, Hts, lookup_update_where.
  unfold returning. rewrite map_lookup_imap.
  assert (∀ t0, tasks db !! i = Some t0 → TaskStatusOf t0 = TaskPending → TaskStepID t0 = k →
            tasks db1 !! i = Some t0) as Hsame.
  { intros t0 E0 P0 S0. rewrite (moved_task_out _ _ _ _ _ _ HM i); [done|].
    intros t' E' _. replace t' with t0 by congruence. by rewrite S0. }
  split.
  - intros [(E1 & t0 & E0 & P0 & S0)|H].
    + split; [|exists t0; set_solver].
      destruct (moved_task _ _ _ _ _ _ HM i t0 E0 P0 S0) as [n' E]. rewrite E in E1 |- *.
      injection E1 as <-. cbn. unfold stepPendingTask. cbn. by rewrite andb_false_r.
    + apply bind_Some in H as (t1 & [E1 Hp]%lookup_matching & [= <-]).
      rewrite E1. cbn. rewrite Hp. split; [done|].
      apply andb_true_iff in Hp as [S1 P1]. apply bool_decide_eq_true in S1, P1.
      destruct (tasks db !! i) as [t0|] eqn:E0.
      2: { rewrite (moved_task_out _ _ _ _ _ _ HM i), E0 in E1 by (by rewrite E0). done. }
      exists t1. rewrite (moved_task_out _ _ _ _ _ _ HM i) in E1; [split; [congruence|set_solver]|].
      intros t' E' P' S'. destruct (moved_task _ _ _ _ _ _ HM i t' E' P' S') as [n' E].
      rewrite E in E1. injection E1 as <-. by cbn in P1.
  - intros (E1 & t0 & E0 & P0 & [S0|S0%elem_of_singleton]%elem_of_union).
    + left. split; [|eauto]. destruct (moved_task _ _ _ _ _ _ HM i t0 E0 P0 S0) as [n' E].
      rewrite E in E1 |- *. cbn in E1. unfold stepPendingTask in E1. cbn in E1.
      by rewrite andb_false_r in E1.
    + right. rewrite (Hsame t0 E0 P0 S0) in E1. cbn in E1.
      assert (stepPendingTask k t0 = true) as Hp
        by (unfold stepPendingTask; by rewrite !bool_decide_true).
      rewrite Hp in E1. injection E1 as <-.
      assert (matching (λ _, stepPendingTask k) (tasks db1) !! i = Some t0) as ->
        by (apply lookup_matching; split; [by apply Hsame|done]). done.
Qed.

Definition settle (s : CancelState) (st : Step) (ts : gmap string Task) : CancelState :=
  mkCancelState (<[StepName st := StepCanceled]> (statusByName s)) (canceled s + 1)
    (canceledTasks s ++ map_to_list ts) true.

Lemma cancel_one s C db1 k st n :
  CancelInv s C db1 → steps db !! k = Some st → StepJobID st = jobID →
  statusByName s !! StepName st = Some StepPending →
  anyDepUnsuccessful (DependsOn st) (statusByName s) = true →
  ∃ ts, (CancelPendingStep k FailureReasonUpstreamFailed n db1).1 = Ok (true, ts) ∧
    CancelInv (settle s st ts) (C ∪ {[k]}) (CancelPendingStep k FailureReasonUpstreamFailed n db1).2.
Proof.
  intros HI E HJ Hp Hd. destruct (pending_untouched _ _ _ _ _ HI E HJ Hp) as (Hk & E1 & Hs).
  pose proof (Doomed_now _ _ _ _ _ HI E HJ Hs Hd) as HD. destruct HI as [HM HS HDs HC HT].
  destruct (movePendingStep_moves k StepCanceled TaskCanceled FailureReasonUpstreamFailed n db1 st)
    as (ts & R1 & -> & _ & R3 & R4); [done|done| |done|].
  { intros _. rewrite HJ, anyUpstreamUnsuccessful_spec. by eapply anyDepUnsuccessful_spec. }
  eexists. split; [exact R1|]. split.
  - by eapply Moved_step.
  - eapply Sync_cancel; [by eapply Moved_unique|done..].
  - intros j [Hj| ->%elem_of_singleton]%elem_of_union; auto.
  - cbn. rewrite HC, size_union, size_singleton by set_solver. lia.
  - cbn. unfold CancelPendingStep. rewrite R3. by apply canceledTasks_add.
Qed.

(** No listed step is left to settle. *)
Definition Stable (ss : list (string * Step)) (s : CancelState) : Prop :=
  ∀ k st, (k, st) ∈ ss → statusByName s !! StepName st = Some StepPending →
    anyDepUnsuccessful (DependsOn st) (statusByName s) = false.

Lemma cancelPass_quiet ss s C w :
  (∀ k st, (k, st) ∈ ss → steps db !! k = Some st ∧ StepJobID st = jobID) →
  CancelInv s C (wdb w) →
  ∃ s' C' w', cancelPass (quiet clock) ss s w = Some (Ok s', w') ∧ CancelInv s' C' (wdb w') ∧
    wevents w' = wevents w ∧ (progressed s = true → progressed s' = true) ∧
    (progressed s' = false → s' = s ∧ Stable ss s).
Proof.
  revert s C w. induction ss as [|[k st] ss IH]; intros s C w Hss HI.
  { exists s, C, w. do 4 (split; [done|]). split; [done|]. by intros k st Hin%elem_of_nil. }
  assert (∀ k st, (k, st) ∈ ss → steps db !! k = Some st ∧ StepJobID st = jobID) as Hss'
    by (intros; apply Hss; by right).
  destruct (Hss k st ltac:(left)) as [E HJ]. cbn [cancelPass].
  destruct (bool_decide (statusByName s !! StepName st = Some StepPending)
            && anyDepUnsuccessful (DependsOn st) (statusByName s)) eqn:Hc.
  - apply andb_true_iff in Hc as [Hp Hd]. rewrite Hp, Hd. cbn [negb].
    apply bool_decide_eq_true in Hp.
    rewrite (bind_ok (time_Now _) _ w (clock (wcalls w)) w) by done. cbv beta.
    destruct (cancel_one _ _ _ _ _ (clock (wcalls w)) HI E HJ Hp Hd) as (ts & R & HI').
    set (w1 := mkWorld (CancelPendingStep k FailureReasonUpstreamFailed (clock (wcalls w)) (wdb w)).2
      (S (wcalls w)) (wevents w)).
    rewrite (bind_ok _ _ w (true, ts) w1) by (rewrite call_quiet; by rewrite R). cbn [fst snd].
    destruct (IH _ _ w1 Hss' HI') as (s' & C' & w' & H1 & H2 & H3 & H4 & H5).
    exists s', C', w'. do 3 (split; [done|]). specialize (H4 eq_refl).
    split; [done|]. by rewrite H4.
  - destruct (IH s C w Hss' HI) as (s' & C' & w' & H1 & H2 & H3 & H4 & H5).
    exists s', C', w'. split.
    { destruct (bool_decide _); [cbn in Hc; rewrite Hc|]; done. }
    do 3 (split; [done|]). intros Hf. destruct (H5 Hf) as [-> Hst]. split; [done|].
    intros j u [[= -> ->]|Hj]%elem_of_cons Hu; [|by eapply Hst].
    rewrite bool_decide_true in Hc by done. done.
Qed.

Lemma cancelLoop_quiet fuel ss s C w r w' :
  (∀ k st, (k, st) ∈ ss → steps db !! k = Some st ∧ StepJobID st = jobID) →
  CancelInv s C (wdb w) → cancelLoop (quiet clock) fuel ss s w = Some (r, w') →
  ∃ s' C', r = Ok (canceled s', canceledTasks s') ∧ CancelInv s' C' (wdb w') ∧
    wevents w' = wevents w ∧ Stable ss s'.
Proof.
  intros Hss. revert s C w. induction fuel as [|fuel IH]; intros s C w HI; [done|].
  cbn [cancelLoop].
  destruct (cancelPass_quiet ss
    (mkCancelState (statusByName s) (canceled s) (canceledTasks s) false) C w Hss)
    as (s1 & C1 & w1 & H1 & H2 & H3 & _ & H5); [by destruct HI|].
  rewrite (bind_ok _ _ _ _ _ H1). cbv beta. destruct (progressed s1) eqn:Hp; intros H.
  - destruct (IH _ _ _ H2 H) as (s' & C' & ? & ? & He & ?). exists s', C'. by rewrite He.
  - injection H as <- <-. exists s1, C1. do 3 (split; [done|]). destruct (H5 eq_refl) as [-> Hst].
    exact Hst.
Qed.

(** When nothing is left to settle, every doomed step has been cancelled. *)
Lemma Stable_all s C db1 :
  CancelInv s C db1 → Stable (ListSteps db jobID) s → ∀ k, Doomed db jobID k → k ∈ C.
Proof.
  intros HI Hst k HD. pose proof (ci_moved _ _ _ HI) as HM. pose proof (ci_sync _ _ _ HI) as HS.
  assert (∀ k st d, steps db !! k = Some st → StepJobID st = jobID → StepStatusOf st = StepPending →
    d ∈ DependsOn st → HasStatus db1 jobID d StepFailed ∨ HasStatus db1 jobID d StepCanceled →
    k ∈ C) as Hkey.
  { clear k HD. intros k st d E HJ Hp Hd Hs. destruct (decide (k ∈ C)) as [|Hk]; [done|exfalso].
    assert (statusByName s !! StepName st = Some StepPending) as Hm.
    { apply HS. exists k, st. by rewrite (moved_out _ _ _ _ _ _ HM k Hk). }
    assert (anyDepUnsuccessful (DependsOn st) (statusByName s) = true) as Ht
      by (apply (anyDepUnsuccessful_spec _ _ _ _ HS); eauto).
    rewrite (Hst k st) in Ht; [done|by apply ListSteps_elem|done]. }
  induction HD as [k st d E HJ Hp Hd Hs|k st j u E HJ Hp Eu Ju Hn _ IH].
  - apply (Hkey k st d E HJ Hp Hd).
    assert (∀ σ, σ ≠ StepPending → HasStatus db jobID d σ → HasStatus db1 jobID d σ) as Hst'.
    { intros σ Hσ (i & v & Ei & Ji & Ni & <-). exists i, v. split; [|done].
      rewrite (moved_out _ _ _ _ _ _ HM i); [done|]. intros Hi.
      destruct (moved_in _ _ _ _ _ _ HM i Hi) as (v' & t & Ev & Pv & _). congruence. }
    destruct Hs; [left|right]; by apply Hst'.
  - apply (Hkey k st (StepName u) E HJ Hp Hn). right.
    destruct (Moved_status _ _ _ _ _ _ _ _ HM Eu) as (u' & Eu' & J' & N' & _ & S').
    rewrite bool_decide_true in S' by done. exists j, u'. repeat split; congruence.
Qed.
End Cancel.

(** [CancelDependents] always returns: whatever other writers do to the store
    between its calls and whichever of its calls fail, its fixpoint loop settles
    a step in every pass but the last, so one more pass than there are steps is
    enough, and any larger bound gives the same run. *)
Theorem CancelDependents_terminates env jobID w :
  (∃ r w', CancelDependents env jobID w = Some (r, w')) ∧
  ∀ ss s w1 fuel, (length ss < fuel)%nat →
    (∃ r w', cancelLoop env fuel ss s w1 = Some (r, w')) ∧
    cancelLoop env fuel ss s w1 = cancelLoop env (S (length ss)) ss s w1.
Proof.
  assert (∀ ss s w1 fuel, (length ss < fuel)%nat →
            ∃ r w', cancelLoop env fuel ss s w1 = Some (r, w')) as H.
  { intros ss s w1 fuel Hf. destruct (cancelLoop_returns env fuel ss s w1) as (r & w' & E & _);
      [pose proof (pendingNames_length ss (statusByName s)); lia|eauto]. }
  split.
  - unfold CancelDependents, mbind, M_bind. destruct (query env _ w) as [[[ss|e] w1]|] eqn:E.
    + apply H. lia.
    + eauto.
    + exfalso. unfold query, call in E. by destruct (fault env (wcalls w)).
  - intros ss s w1 fuel Hf. split; [by apply H|].
    destruct (H ss s w1 (S (length ss)) ltac:(lia)) as (r & w' & E).
    rewrite E. apply (cancelLoop_more env (S (length ss)) fuel ss s w1 (r, w') E). lia.
Qed.

Lemma CancelDependents_spec clock jobID w :
  NamesUnique (wdb w) jobID →
  ∃ C ts w', CancelDependents (quiet clock) jobID w = Some (Ok (Z.of_nat (size C), ts), w') ∧
    Moved StepCanceled TaskCanceled FailureReasonUpstreamFailed C (wdb w) (wdb w') ∧
    wevents w' = wevents w ∧
    (∀ k, k ∈ C ↔ Doomed (wdb w) jobID k) ∧
    ∀ k t, (k, t) ∈ ts ↔ tasks (wdb w') !! k = Some t ∧
      ∃ t0, tasks (wdb w) !! k = Some t0 ∧ TaskStatusOf t0 = TaskPending ∧ TaskStepID t0 ∈ C.
Proof.
  intros HU. unfold CancelDependents.
  set (w1 := mkWorld (wdb w) (S (wcalls w)) (wevents w)).
  rewrite (bind_ok _ _ w (ListSteps (wdb w) jobID) w1) by (by rewrite query_quiet). cbv beta.
  set (ss := ListSteps (wdb w) jobID). set (s := mkCancelState (stepStatusByName ss) 0 [] false).
  destruct (cancelLoop_returns (quiet clock) (S (length ss)) ss s w1) as (r & w' & E & _).
  { pose proof (pendingNames_length ss (statusByName s)). lia. }
  destruct (cancelLoop_quiet clock (wdb w) jobID HU (S (length ss)) ss s ∅ w1 r w') as (s' & C & -> & HI & He & Hst);
    [by intros k st H%ListSteps_elem| |done|].
  { split; [apply Moved_none|by apply Sync_list|set_solver|by rewrite size_empty|].
    cbn. intros k t. split; [by intros H%elem_of_nil|]. set_solver. }
  exists C, (canceledTasks s'), w'. rewrite <- (ci_count _ _ _ _ _ HI).
  split; [done|]. split; [by destruct HI|]. split; [done|]. split; [|by destruct HI].
  intros k. split; [by apply HI|by eapply Stable_all].
Qed.

(** C20. [CancelDependents], with nobody interfering, cancels exactly the job's
    doomed steps: the pending steps with an upstream that failed or was cancelled,
    directly or through other pending steps.  Their pending tasks are cancelled
    with them, nothing else changes in any table, the count it returns is the
    number of steps cancelled and the tasks it returns are the cancelled ones as
    the store now has them. *)
Theorem CancelDependents_cancels clock jobID w :
  NamesUnique (wdb w) jobID →
  ∃ C ts w', CancelDependents (quiet clock) jobID w = Some (Ok (Z.of_nat (size C), ts), w') ∧
    Moved StepCanceled TaskCanceled FailureReasonUpstreamFailed C (wdb w) (wdb w') ∧
    wevents w' = wevents w ∧
    (∀ k, k ∈ C ↔ Doomed (wdb w) jobID k) ∧
    ∀ k t, (k, t) ∈ ts ↔ tasks (wdb w') !! k = Some t ∧
      ∃ t0, tasks (wdb w) !! k = Some t0 ∧ TaskStatusOf t0 = TaskPending ∧ TaskStepID t0 ∈ C.
Proof. apply CancelDependents_spec. Qed.

(** A job whose step [b] waits for the failed [a] and [c] for [b], while [e] only
    waits for the completed [d]. *)
Definition sampleChain : DB :=
  let st name deps order s := mkStep "j" name deps order s 1 1 "" None in
  set_tasks {["tb"%string := mkTask "j" "sb" TaskPending None None 1 1 None "" 0 None "";
              "tc"%string := mkTask "j" "sc" TaskPending None None 1 1 None "" 0 None "";
              "te"%string := mkTask "j" "se" TaskPending None None 1 1 None "" 0 None ""]}
    (set_steps {["sa"%string := st "a"%string [] 0 StepFailed;
                 "sb"%string := st "b"%string ["a"%string] 1 StepPending;
                 "sc"%string := st "c"%string ["b"%string] 2 StepPending;
                 "sd"%string := st "d"%string [] 3 StepCompleted;
                 "se"%string := st "e"%string ["d"%string] 4 StepPending]} emptyDB).

Lemma sampleChain_names : NamesUnique sampleChain "j".
Proof.
  apply NamesUnique_list. apply (bool_decide_eq_true (NoDup _)). vm_compute. reflexivity.
Qed.

Lemma ResolveDependencies_releases_witness :
  NamesUnique sampleChain "j" ∧
  ∃ C w', ResolveDependencies (quiet Z.of_nat) "j" (mkWorld sampleChain 0 []) =
      Some (Ok (Z.of_nat (size C)), w') ∧
    Moved StepReady TaskReady "" C sampleChain (wdb w').
Proof.
  split; [exact sampleChain_names|].
  destruct (ResolveDependencies_releases Z.of_nat "j" (mkWorld sampleChain 0 []) sampleChain_names)
    as (C & w' & H1 & H2 & _).
  exists C, w'. exact (conj H1 H2).
Defined.

Lemma CancelDependents_cancels_witness :
  NamesUnique sampleChain "j" ∧
  ∃ C ts w', CancelDependents (quiet Z.of_nat) "j" (mkWorld sampleChain 0 []) =
      Some (Ok (Z.of_nat (size C), ts), w') ∧
    Moved StepCanceled TaskCanceled FailureReasonUpstreamFailed C sampleChain (wdb w').
Proof.
  split; [exact sampleChain_names|].
  destruct (CancelDependents_cancels Z.of_nat "j" (mkWorld sampleChain 0 []) sampleChain_names)
    as (C & ts & w' & H1 & H2 & _).
  exists C, ts, w'. exact (conj H1 H2).
Defined.
