(* ===== verification/Reconcile.v ===== *)
(** * Propagating outcomes: [internal/scheduler/jobdeps.go], [retry.go] and the
      completion half of [taskstatus.go]

    What the scheduler does once a step or a job has ended: finalize, release or
    cancel what waited for it, within the job and across jobs, and revive work on
    a retry.  The store calls, their order, the early returns and the events are
    the code's; the log lines are left out. *)

From S2P Require Import Prelude Schema Finalize Attempts Lease Jobs Sched Deps.
Open Scope Z_scope.

(** ** Reads *)

(** [sqlListDependents], [sqlListJobDependencyIDs] and [sqlListBlockedJobs] *)
Definition ListDependents (db : DB) (upstream : string) : list string :=
  sort_by String.leb (fst <$> filter (λ e, e.2 = upstream) (elements (jobDependencies db))).

Definition ListJobDependencyIDs (db : DB) (jobID : string) : list string :=
  sort_by String.leb (dependencyIDs db jobID).

Definition ListBlockedJobs (db : DB) : list (string * Job) :=
  sort_by (λ a b, JobCreatedAt a.2 <=? JobCreatedAt b.2)
    (map_to_list (matching (λ _ j, bool_decide (JobStatusOf j = JobBlocked)) (jobs db))).

(** What a blocked job's upstreams say of it. *)
Inductive Verdict := Unsatisfiable | Satisfied | Waiting.

Section Reconcile.
Context (env : Surroundings).

Definition GetJob (id : string) : M Job := query env (λ db, get (jobs db) id).
Definition GetTask (id : string) : M Task := query env (λ db, get (tasks db) id).

(** Waking both the queue's waiters and those of no queue is one event. *)
Definition WakeQueue (queueID : string) : M unit := notify (Wake queueID).

Definition notifyQueueForJob (jobID : string) : M unit :=
  r ← attempt (GetJob jobID);
  match r with Err _ => mret tt | Ok job => WakeQueue (JobQueueID job) end.

Definition notifyCanceled (ts : list (string * Task)) : M unit :=
  for_each ts (λ t, notify (TaskEvent (TaskJobID t.2) t.1 TaskCanceled)).

(** ** Jobs blocked on other jobs *)

(** The loop over the upstreams of [reconcileBlockedJob]. *)
Fixpoint upstreamVerdict (ups : list string) (allCompleted : bool) : M Verdict :=
  match ups with
  | [] => mret (if allCompleted then Satisfied else Waiting)
  | u :: ups' =>
      r ← attempt (GetJob u);
      match r with
      | Err (StoreError ErrNotFound) => mret Unsatisfiable
      | Err e => fail e
      | Ok up =>
          match JobStatusOf up with
          | JobCompleted => upstreamVerdict ups' allCompleted
          | JobFailed | JobCanceled => mret Unsatisfiable
          | _ => upstreamVerdict ups' false
          end
      end
  end.

Definition releaseBlockedJob (jobID : string) (job : Job) : M unit :=
  t ← time_Now env;
  released ← call env (ReleaseBlockedJob jobID t);
  if released : bool then
    _ ← ResolveDependencies env jobID;
    _ ← WakeQueue (JobQueueID job);
    notify (JobEvent jobID JobPending)
  else mret tt.

Definition cancelBlockedJob (jobID : string) : M unit :=
  t ← time_Now env;
  r ← call env (CancelBlockedJob jobID FailureReasonUpstreamFailed t);
  if r.1 : bool then
    _ ← notifyCanceled (map_to_list r.2);
    notify (JobEvent jobID JobCanceled)
  else mret tt.

(** [cancelAndCascade] is the [Unsatisfiable] branch and [ReconcileDependents]
    its loop: the three functions call each other. *)
Fixpoint reconcileBlockedJob (fuel : nat) (jobID : string) : M unit :=
  match fuel with
  | O => out_of_fuel
  | S fuel' =>
      r ← attempt (GetJob jobID);
      match r with
      | Err (StoreError ErrNotFound) => mret tt
      | Err e => fail e
      | Ok job =>
          if negb (bool_decide (JobStatusOf job = JobBlocked)) then mret tt
          else
            ups ← query env (λ db, Ok (ListJobDependencyIDs db jobID));
            v ← upstreamVerdict ups true;
            match v with
            | Waiting => mret tt
            | Satisfied => releaseBlockedJob jobID job
            | Unsatisfiable =>
                _ ← cancelBlockedJob jobID;
                ds ← query env (λ db, Ok (ListDependents db jobID));
                for_each ds (reconcileBlockedJob fuel')
            end
      end
  end.

Definition ReconcileDependents (fuel : nat) (upstream : string) : M unit :=
  ds ← query env (λ db, Ok (ListDependents db upstream));
  for_each ds (reconcileBlockedJob fuel).

(** A failure is logged and the sweep goes on, unless the leader is fenced. *)
Definition sweepBlockedJobs (fuel : nat) : M unit :=
  blocked ← query env (λ db, Ok (ListBlockedJobs db));
  for_each blocked (λ job,
    r ← attempt (reconcileBlockedJob fuel job.1);
    match r with Err ErrFenced => fail ErrFenced | _ => mret tt end).

(** ** Ended steps and jobs *)

Definition checkJobCompletion (fuel : nat) (jobID : string) : M unit :=
  t ← time_Now env;
  r ← call env (FinalizeJob jobID t);
  match r.1 with
  | None => mret tt
  | Some status =>
      _ ← (if r.2 : bool then notify (JobEvent jobID status) else mret tt);
      e ← attempt (ReconcileDependents fuel jobID);
      match e with Err ErrFenced => fail ErrFenced | _ => mret tt end
  end.

Definition propagateStepDependencies (jobID : string) (newStepStatus : StepStatus) : M unit :=
  if bool_decide (newStepStatus = StepCompleted) then
    n ← ResolveDependencies env jobID;
    if 0 <? n then notifyQueueForJob jobID else mret tt
  else
    r ← CancelDependents env jobID;
    notifyCanceled r.2.

Definition checkStepCompletion (fuel : nat) (stepID jobID : string) : M unit :=
  t ← time_Now env;
  r ← call env (FinalizeStep stepID t);
  match r.1 with
  | None => mret tt
  | Some status =>
      _ ← propagateStepDependencies jobID status;
      checkJobCompletion fuel jobID
  end.

(** ** Retrying *)

Definition notifyRevived (jobID : string) (revived : list (string * Task)) : M unit :=
  for_each revived (λ rt,
    r ← attempt (GetTask rt.1);
    notify (TaskEvent jobID rt.1
      (match r with Ok cur => TaskStatusOf cur | Err _ => TaskPending end))).

(** The re-cancelled tasks that were not revived by this call. *)
Definition notifyRecanceled (jobID : string) (revived : gmap string Task)
    (ts : list (string * Task)) : M unit :=
  for_each ts (λ ct,
    if present revived ct.1 then mret tt
    else notify (TaskEvent jobID ct.1 (TaskStatusOf ct.2))).

Definition retry (fuel : nat) (jobID : string) (taskIDs : option (list string)) : M Z :=
  t ← time_Now env;
  revived ← call env (RetryTasks jobID taskIDs t);
  if bool_decide (revived = ∅) then mret 0
  else
    _ ← ResolveDependencies env jobID;
    r ← CancelDependents env jobID;
    _ ← checkJobCompletion fuel jobID;
    _ ← notifyRevived jobID (map_to_list revived);
    _ ← notifyRecanceled jobID revived r.2;
    j ← attempt (GetJob jobID);
    _ ← (match j with Ok job => notify (JobEvent jobID (JobStatusOf job)) | Err _ => mret tt end);
    _ ← notifyQueueForJob jobID;
    mret (Z.of_nat (size revived)).

Definition RetryJob (fuel : nat) (jobID : string) : M Z := retry fuel jobID None.

Definition RetryTask (fuel : nat) (taskID : string) : M unit :=
  task ← GetTask taskID;
  _ ← retry fuel (TaskJobID task) (Some [taskID]);
  mret tt.
End Reconcile.

(** ** Blocked jobs only leave *)

Definition blockedIDs (db : DB) : gset string :=
  dom (matching (λ _ j, bool_decide (JobStatusOf j = JobBlocked)) (jobs db)).

Lemma elem_of_blockedIDs db k :
  k ∈ blockedIDs db ↔ ∃ j, jobs db !! k = Some j ∧ JobStatusOf j = JobBlocked.
Proof.
  unfold blockedIDs. rewrite elem_of_dom. split.
  - intros [j [E H]%lookup_matching]. apply bool_decide_eq_true in H. eauto.
  - intros (j & E & H). exists j. apply lookup_matching. by rewrite bool_decide_true.
Qed.

(** A write that rewrites job rows without blocking any. *)
Lemma blockedIDs_update p f db db' :
  jobs db' = update_where p f (jobs db) →
  (∀ k j, p k j = true → JobStatusOf (f k j) ≠ JobBlocked) → blockedIDs db' ⊆ blockedIDs db.
Proof.
  intros E Hf k. rewrite !elem_of_blockedIDs. intros (j & Ej & Hj). rewrite E in Ej.
  apply update_where_inv in Ej as (x & Ex & [[Hp ->]|[_ ->]]); [|eauto].
  by destruct (Hf k x Hp).
Qed.

Lemma blockedIDs_same db db' : jobs db' = jobs db → blockedIDs db' = blockedIDs db.
Proof. unfold blockedIDs. by intros ->. Qed.

Lemma moveStep_keeps_jobs id stepTo taskTo reason n db :
  jobs (movePendingStep id stepTo taskTo reason n db).2 = jobs db.
Proof.
  unfold movePendingStep, inTx, get. destruct (steps db !! id) as [st|]; cbn; [|done].
  destruct (_ && _); [done|]. by destruct (negb _).
Qed.

Lemma ReleaseBlockedJob_blocked id n db : blockedIDs (ReleaseBlockedJob id n db).2 ⊆ blockedIDs db.
Proof.
  unfold ReleaseBlockedJob, inTx, get. destruct (jobs db !! id) as [j|]; cbn; [|done].
  eapply blockedIDs_update; [done|]. done.
Qed.

(** After a successful [CancelBlockedJob] the job is not blocked, whether this
    call cancelled it or another writer had moved it. *)
Lemma CancelBlockedJob_blocked id reason n db r :
  (CancelBlockedJob id reason n db).1 = Ok r →
  blockedIDs (CancelBlockedJob id reason n db).2 ⊆ blockedIDs db ∖ {[id]}.
Proof.
  unfold CancelBlockedJob, inTx, get. destruct (jobs db !! id) as [j|] eqn:Ej; cbn; [|done].
  case_bool_decide as Hb; cbn; intros _ k Hk.
  - apply elem_of_difference. split.
    + eapply blockedIDs_update; [..|exact Hk]; [reflexivity|done].
    + intros ->%elem_of_singleton. apply elem_of_blockedIDs in Hk as (j' & E & Hj'). cbn in E.
      rewrite lookup_update_where, Ej in E. cbn in E.
      rewrite !bool_decide_true in E by done. injection E as <-. done.
  - apply elem_of_difference. split; [done|]. intros ->%elem_of_singleton.
    apply elem_of_blockedIDs in Hk as (j' & E & Hj'). congruence.
Qed.

Lemma CancelBlockedJob_err id reason n db e :
  (CancelBlockedJob id reason n db).1 = Err e → (CancelBlockedJob id reason n db).2 = db.
Proof.
  unfold CancelBlockedJob, inTx, get. destruct (jobs db !! id) as [j|]; cbn; [|done].
  by destruct (negb _).
Qed.

Section Termination.
Context (env : Surroundings).
Hypothesis no_new : ∀ n db, blockedIDs (others env n db) ⊆ blockedIDs db.

(** The blocked jobs of the world are among [B]. *)
Definition within (B : gset string) (w : World) : Prop := blockedIDs (wdb w) ⊆ B.

Lemma call_within {A} (op : DB → res StoreErr A * DB) w B (Q : res CallErr A → World → Prop) :
  within B w →
  (∀ db, blockedIDs db ⊆ B → blockedIDs (op db).2 ⊆ B) →
  (∀ r w', within B w' → Q r w') → returns (call env op) w Q.
Proof.
  intros Hw Hop HQ. apply returns_call; [intros e _|intros _]; apply HQ; unfold within; cbn.
  - etrans; [apply no_new|done].
  - apply Hop. etrans; [apply no_new|done].
Qed.

Lemma query_within {A} (f : DB → res StoreErr A) w B (Q : res CallErr A → World → Prop) :
  within B w → (∀ r w', within B w' → Q r w') → returns (query env f) w Q.
Proof. intros Hw HQ. by apply (call_within _ w B). Qed.

Lemma upstreamVerdict_within ups acc w B :
  within B w → returns (upstreamVerdict env ups acc) w (λ _ w', within B w').
Proof.
  revert acc w. induction ups as [|u ups IH]; intros acc w Hw; cbn [upstreamVerdict].
  { by apply returns_ret. }
  apply returns_bind, returns_attempt. apply (query_within _ w B); [done|]. intros [up|e] w1 Hw1.
  - destruct (JobStatusOf up); try (by apply IH); by apply returns_ret.
  - destruct e as [[]| |]; try (by apply returns_ret); by apply returns_fail.
Qed.

Lemma resolveLoop_within m ss p w B :
  within B w → returns (resolveLoop env m ss p) w (λ _ w', within B w').
Proof.
  revert p w. induction ss as [|[id st] ss IH]; intros p w Hw; cbn [resolveLoop].
  { by apply returns_ret. }
  destruct (negb _); [by apply IH|]. destruct (negb _); [by apply IH|].
  apply returns_bind. exists (Ok (now env (wcalls w))), w. split; [done|].
  apply returns_bind. apply (call_within _ w B); [done| |].
  { intros db Hdb. unfold ReleaseStep.
    by rewrite (blockedIDs_same _ _ (moveStep_keeps_jobs _ _ _ _ _ _)). }
  intros [r|e] w1 Hw1; [by apply IH|done].
Qed.

Lemma notifyCanceled_within ts w B :
  within B w → returns (notifyCanceled ts) w (λ r w', within B w' ∧ r = Ok tt).
Proof.
  revert w. unfold notifyCanceled. induction ts as [|t ts IH]; intros w Hw; cbn [for_each].
  { by apply returns_ret. }
  apply returns_bind, returns_notify. by apply IH.
Qed.

Lemma releaseBlockedJob_within id job w B :
  within B w → returns (releaseBlockedJob env id job) w (λ _ w', within B w').
Proof.
  intros Hw. unfold releaseBlockedJob. apply returns_bind.
  exists (Ok (now env (wcalls w))), w. split; [done|].
  apply returns_bind. apply (call_within _ w B); [done| |].
  { intros db Hdb. etrans; [apply ReleaseBlockedJob_blocked|done]. }
  intros [[|]|e] w1 Hw1; [|by apply returns_ret|done].
  apply returns_bind. unfold ResolveDependencies. apply returns_bind.
  apply (query_within _ w1 B); [done|]. intros [ss|e] w2 Hw2; [|done].
  eapply returns_mono; [by apply resolveLoop_within|]. intros [p|e] w3 Hw3; cbn; [|done].
  apply returns_bind, returns_notify. by apply returns_notify.
Qed.

Lemma cancelBlockedJob_within id w B :
  within B w → returns (cancelBlockedJob env id) w (λ r w',
    within B w' ∧ (r = Ok tt → within (B ∖ {[id]}) w')).
Proof.
  intros Hw. unfold cancelBlockedJob. apply returns_bind.
  exists (Ok (now env (wcalls w))), w. split; [done|].
  assert (blockedIDs (others env (wcalls w) (wdb w)) ⊆ B) as HB by (by etrans; [apply no_new|]).
  apply returns_bind. apply returns_call; [done|]. intros _. cbv zeta.
  set (d := others env (wcalls w) (wdb w)) in *.
  destruct (CancelBlockedJob id FailureReasonUpstreamFailed (now env (wcalls w)) d).1
    as [[c ts]|e] eqn:E; cbn [fst snd].
  - pose proof (CancelBlockedJob_blocked _ _ _ _ _ E) as Hb.
    assert (within (B ∖ {[id]}) (mkWorld
      (CancelBlockedJob id FailureReasonUpstreamFailed (now env (wcalls w)) d).2
      (S (wcalls w)) (wevents w))) as Hw1 by (unfold within; cbn; set_solver).
    destruct c; [|apply returns_ret; split; [unfold within in *; set_solver|done]].
    apply returns_bind. eapply returns_mono; [by apply notifyCanceled_within|].
    intros r w2 [Hw2 ->]. apply returns_notify. split; [unfold within in *; cbn; set_solver|done].
  - split; [|done]. apply CancelBlockedJob_err in E. unfold within. cbn. by rewrite E.
Qed.

(** With more fuel than blocked jobs, the cascade returns. *)
Lemma reconcileBlockedJob_returns fuel id w B :
  within B w → (size B < fuel)%nat →
  returns (reconcileBlockedJob env fuel id) w (λ _ w', within B w').
Proof.
  revert id w B. induction fuel as [|fuel IH]; intros id w B Hw Hf; [lia|].
  cbn [reconcileBlockedJob]. apply returns_bind, returns_attempt. apply returns_call.
  { intros e _. destruct e as [[]| |]; try (by apply returns_fail; unfold within; etrans; [apply no_new|]).
    apply returns_ret. by unfold within; etrans; [apply no_new|]. }
  intros _. cbn. set (d := others env (wcalls w) (wdb w)).
  assert (blockedIDs d ⊆ B) as HB by (by etrans; [apply no_new|]).
  unfold get. destruct (jobs d !! id) as [job|] eqn:Ej; [|by apply returns_ret].
  case_bool_decide as Hb; cbn [negb]; [|by apply returns_ret].
  assert (id ∈ B) as Hid by (apply HB, elem_of_blockedIDs; eauto).
  apply returns_bind. apply (query_within _ _ B); [done|]. intros [ups|e] w1 Hw1; [|done].
  apply returns_bind. eapply returns_mono; [by apply upstreamVerdict_within|].
  intros [v|e] w2 Hw2; [|done]. destruct v; [|by apply releaseBlockedJob_within|by apply returns_ret].
  apply returns_bind. eapply returns_mono; [by apply (cancelBlockedJob_within id w2 B)|].
  intros [u|e] w3 [Hw3 Hless]; [|done]. destruct u. specialize (Hless eq_refl).
  assert (size (B ∖ {[id]}) < fuel)%nat as Hsize.
  { assert ({[id]} ⊆ B) as Hs by set_solver. pose proof (subseteq_size _ _ Hs) as Hle.
    rewrite size_difference by done. rewrite size_singleton in *. lia. }
  assert (∀ w', within (B ∖ {[id]}) w' → within B w') as Hweak by (unfold within; set_solver).
  apply returns_bind. apply (query_within _ _ (B ∖ {[id]})); [done|]. intros [ds|e] w4 Hw4; [|auto].
  eapply returns_mono; [apply (returns_for_each ds _ w4 (within (B ∖ {[id]}))); [done|]|auto].
  intros x w5 _ Hw5. by apply IH.
Qed.
End Termination.

(** C21. The cascade over blocked jobs returns: whatever other writers do between
    its calls short of submitting new blocked jobs, and whichever calls fail,
    [ReconcileDependents] never recurses deeper than one more than the number of
    jobs that are blocked when it starts, since each level cancels one. *)
Theorem ReconcileDependents_terminates env fuel upstream w :
  (∀ n db, blockedIDs (others env n db) ⊆ blockedIDs db) →
  (size (blockedIDs (wdb w)) < fuel)%nat →
  ∃ r w', ReconcileDependents env fuel upstream w = Some (r, w').
Proof.
  intros Hno Hf.
  assert (returns (ReconcileDependents env fuel upstream) w (λ _ _, True)) as (r & w' & H & _).
  { unfold ReconcileDependents. set (B := blockedIDs (wdb w)) in *.
    apply returns_bind. apply (query_within env Hno _ w B); [unfold within; reflexivity|].
    intros [ds|e] w1 Hw1; [|done].
    eapply returns_mono; [apply (returns_for_each ds _ w1 (within B)); [done|]|done].
    intros x w2 _ Hw2. by apply reconcileBlockedJob_returns. }
  eauto.
Qed.

(** ** What the cascade leaves *)

Lemma elem_of_dependencyIDs db k u : u ∈ dependencyIDs db k ↔ (k, u) ∈ jobDependencies db.
Proof.
  unfold dependencyIDs. rewrite list_elem_of_fmap. split.
  - intros ([a b] & -> & [Ha Hb]%list_elem_of_filter). cbn in Ha. subst. by apply elem_of_elements.
  - intros H. exists (k, u). split; [done|]. apply list_elem_of_filter. split; [done|].
    by apply elem_of_elements.
Qed.

Lemma elem_of_ListDependents db u d : d ∈ ListDependents db u ↔ (d, u) ∈ jobDependencies db.
Proof.
  unfold ListDependents. rewrite sort_by_perm, list_elem_of_fmap. split.
  - intros ([a b] & -> & [Ha Hb]%list_elem_of_filter). cbn in Ha. subst. by apply elem_of_elements.
  - intros H. exists (d, u). split; [done|]. apply list_elem_of_filter. split; [done|].
    by apply elem_of_elements.
Qed.

(** An upstream that will never complete: deleted, failed or cancelled. *)
Definition lost (db : DB) (u : string) : Prop :=
  ∀ j, jobs db !! u = Some j → JobStatusOf j = JobFailed ∨ JobStatusOf j = JobCanceled.

Definition completed (db : DB) (u : string) : Prop :=
  ∃ j, jobs db !! u = Some j ∧ JobStatusOf j = JobCompleted.

Definition SomeLost (db : DB) (k : string) : Prop := ∃ u, (k, u) ∈ jobDependencies db ∧ lost db u.
Definition AllCompleted (db : DB) (k : string) : Prop :=
  ∀ u, (k, u) ∈ jobDependencies db → completed db u.

(** There is nothing to do for job [k]: it is not blocked, or it has an upstream
    still to finish and none that never will. *)
Definition Settled (db : DB) (k : string) : Prop :=
  k ∈ blockedIDs db → ¬ SomeLost db k ∧ ¬ AllCompleted db k.

Lemma lost_not_completed db u : lost db u → ¬ completed db u.
Proof. intros H (j & E & Hj). destruct (H j E); congruence. Qed.

(** The jobs change as dependencies say: a blocked job becomes pending when its
    upstreams all completed, or cancelled when one is lost. *)
Record JobsMove (db db' : DB) : Prop := mkJobsMove {
  jm_edges : jobDependencies db' = jobDependencies db;
  jm_jobs : ∀ k, jobs db' !! k = jobs db !! k ∨
    ∃ j t, jobs db !! k = Some j ∧ JobStatusOf j = JobBlocked ∧
      ((jobs db' !! k = Some (job_to JobPending t j) ∧ AllCompleted db' k) ∨
       (jobs db' !! k = Some (set_JobCompletedAt (Some t) (job_to JobCanceled t j)) ∧ SomeLost db' k));
}.

Section JobsMove.
Context (db db' : DB) (HM : JobsMove db db').

Lemma JobsMove_blocked : blockedIDs db' ⊆ blockedIDs db.
Proof.
  intros k. rewrite !elem_of_blockedIDs. intros (j & E & Hj).
  destruct (jm_jobs _ _ HM k) as [->|(j0 & t & E0 & Hb & [[E' _]|[E' _]])] in E; [eauto|..];
    rewrite E' in E; by injection E as <-.
Qed.

Lemma JobsMove_completed u : completed db' u ↔ completed db u.
Proof.
  unfold completed. destruct (jm_jobs _ _ HM u) as [->|(j0 & t & E0 & Hb & [[E' _]|[E' _]])]; [done|..];
    rewrite E', E0; split; intros (j & [= <-] & Hj); cbn in *; congruence.
Qed.

Lemma JobsMove_lost u : lost db u → lost db' u.
Proof.
  intros H j. destruct (jm_jobs _ _ HM u) as [->|(j0 & t & E0 & Hb & _)]; [auto|].
  destruct (H j0 E0); congruence.
Qed.

Lemma JobsMove_AllCompleted k : AllCompleted db' k ↔ AllCompleted db k.
Proof.
  unfold AllCompleted. rewrite (jm_edges _ _ HM). by setoid_rewrite JobsMove_completed.
Qed.

Lemma JobsMove_SomeLost k : SomeLost db k → SomeLost db' k.
Proof.
  intros (u & Hu & Hl). exists u. rewrite (jm_edges _ _ HM). split; [done|by apply JobsMove_lost].
Qed.
End JobsMove.

Lemma JobsMove_refl db db' :
  jobs db' = jobs db → jobDependencies db' = jobDependencies db → JobsMove db db'.
Proof. intros E1 E2. split; [done|]. rewrite E1. by left. Qed.

#[export] Instance JobsMove_trans : Transitive JobsMove.
Proof.
  intros a b c H1 H2. split; [by rewrite (jm_edges _ _ H2), (jm_edges _ _ H1)|]. intros k.
  destruct (jm_jobs _ _ H1 k) as [E1|(j & t & E1 & Hb & Hj)];
    destruct (jm_jobs _ _ H2 k) as [E2|(j' & t' & E2 & Hb' & Hj')].
  - left. congruence.
  - right. exists j', t'. by rewrite <- E1.
  - right. exists j, t. split; [done|]. split; [done|]. rewrite E2.
    destruct Hj as [[E H]|[E H]]; [left|right]; (split; [done|]).
    + by rewrite (JobsMove_AllCompleted _ _ H2).
    + by apply (JobsMove_SomeLost _ _ H2).
  - exfalso. destruct Hj as [[E _]|[E _]]; rewrite E in E2; injection E2 as <-; by cbn in Hb'.
Qed.

(** And whoever waited for a job it cancelled is settled. *)
Definition Cascaded (db db' : DB) : Prop :=
  JobsMove db db' ∧
  ∀ u d, u ∈ blockedIDs db → (u ∉ blockedIDs db') → lost db' u →
    (d, u) ∈ jobDependencies db → Settled db' d.

Lemma Cascaded_settled db db' k : Cascaded db db' → Settled db k → Settled db' k.
Proof.
  intros [HM HC] HS Hb. destruct (HS (JobsMove_blocked _ _ HM k Hb)) as [Hl Hc].
  split; [|by rewrite (JobsMove_AllCompleted _ _ HM)].
  intros (u & Hu & Hlost). rewrite (jm_edges _ _ HM) in Hu. destruct (decide (u ∈ blockedIDs db)) as [Hub|Hub].
  - assert (u ∉ blockedIDs db') as Hub'.
    { intros (j & E & Hj)%elem_of_blockedIDs. destruct (Hlost j E); congruence. }
    destruct (HC u k Hub Hub' Hlost Hu Hb) as [H _]. apply H. exists u.
    by rewrite (jm_edges _ _ HM).
  - apply Hl. exists u. split; [done|]. intros j E. apply Hlost.
    destruct (jm_jobs _ _ HM u) as [->|(j0 & t & E0 & Hj0 & _)]; [done|].
    destruct Hub. apply elem_of_blockedIDs. eauto.
Qed.

#[export] Instance Cascaded_trans : Transitive Cascaded.
Proof.
  intros a b c H1 H2. split; [etrans; [apply H1|apply H2]|]. intros u d Hu Hu' Hl Hd.
  destruct (decide (u ∈ blockedIDs b)) as [Hb|Hb].
  - apply (proj2 H2 u d Hb Hu' Hl). by rewrite (jm_edges _ _ (proj1 H1)).
  - apply (Cascaded_settled b c); [done|]. apply (proj2 H1 u d Hu Hb); [|done].
    intros j E. destruct (jm_jobs _ _ (proj1 H2) u) as [Ec|(j0 & t & E0 & Hj0 & _)].
    + apply Hl. by rewrite Ec.
    + destruct Hb. apply elem_of_blockedIDs. eauto.
Qed.

Lemma Cascaded_same db db' :
  jobs db' = jobs db → jobDependencies db' = jobDependencies db → Cascaded db db'.
Proof.
  intros E1 E2. split; [by apply JobsMove_refl|]. intros u d Hu Hu'.
  by rewrite (blockedIDs_same _ _ E1) in Hu'.
Qed.

Section Quiet.
Context (clock : nat → Z).

(** A computation that returns normally, leaving the database related by [R]. *)
Definition leaves {A} (m : M A) (w : World) (R : A → DB → Prop) : Prop :=
  ∃ x w', m w = Some (Ok x, w') ∧ R x (wdb w').

Lemma leaves_ret {A} (x : A) w (R : A → DB → Prop) : R x (wdb w) → leaves (mret x) w R.
Proof. intros H. by exists x, w. Qed.

Lemma leaves_notify e w (R : unit → DB → Prop) : R tt (wdb w) → leaves (notify e) w R.
Proof. intros H. by exists tt, (mkWorld (wdb w) (wcalls w) (wevents w ++ [e])). Qed.

Lemma leaves_bind {A B} (m : M A) (k : A → M B) w (R : B → DB → Prop) (S : A → DB → Prop) :
  leaves m w S → (∀ x w1, S x (wdb w1) → leaves (k x) w1 R) → leaves (mbind k m) w R.
Proof.
  intros (x & w1 & E & HS) Hk. destruct (Hk x w1 HS) as (y & w2 & E2 & HR).
  exists y, w2. by rewrite (bind_ok _ _ _ _ _ E).
Qed.

Lemma leaves_mono {A} (m : M A) w (R S : A → DB → Prop) :
  leaves m w S → (∀ x d, S x d → R x d) → leaves m w R.
Proof. intros (x & w1 & E & HS) H. exists x, w1. auto. Qed.

Lemma leaves_call {A} (op : DB → res StoreErr A * DB) w x :
  (op (wdb w)).1 = Ok x → leaves (call (quiet clock) op) w (λ y d, y = x ∧ d = (op (wdb w)).2).
Proof. intros E. eexists x, _. rewrite call_quiet, E. by split. Qed.

Lemma leaves_query {A} (f : DB → res StoreErr A) w x :
  f (wdb w) = Ok x → leaves (query (quiet clock) f) w (λ y d, y = x ∧ d = wdb w).
Proof. intros E. eexists x, _. rewrite query_quiet, E. by split. Qed.

Lemma leaves_attempt_GetJob k w :
  leaves (attempt (GetJob (quiet clock) k)) w (λ r d, d = wdb w ∧
    match jobs (wdb w) !! k with
    | Some j => r = Ok j
    | None => r = Err (StoreError ErrNotFound)
    end).
Proof.
  unfold leaves, attempt, GetJob. rewrite query_quiet. unfold get.
  destruct (jobs (wdb w) !! k); eauto.
Qed.

Lemma leaves_time w (R : Z → DB → Prop) :
  (∀ t, R t (wdb w)) → leaves (time_Now (quiet clock)) w R.
Proof. intros H. by exists (clock (wcalls w)), w. Qed.

Lemma notifyCanceled_leaves ts w (R : unit → DB → Prop) :
  R tt (wdb w) → leaves (notifyCanceled ts) w R.
Proof.
  unfold notifyCanceled. revert w. induction ts as [|t ts IH]; intros w H; cbn [for_each].
  { by apply leaves_ret. }
  eapply leaves_bind; [apply (leaves_notify _ _ (λ _ d, R tt d)), H|]. intros x w1 H1. by apply IH.
Qed.

Lemma ResolveDependencies_leaves jobID w :
  leaves (ResolveDependencies (quiet clock) jobID) w (λ _ d,
    jobs d = jobs (wdb w) ∧ jobDependencies d = jobDependencies (wdb w)).
Proof.
  unfold ResolveDependencies. eapply leaves_bind; [by apply leaves_query|]. cbv beta.
  intros ss w1 [-> E].
  destruct (resolveLoop_quiet clock (stepStatusByName (ListSteps (wdb w) jobID))
    (ListSteps (wdb w) jobID) 0 w1 (wdb w1) ∅) as (C & w' & H1 & H2 & _);
    [apply Moved_none|apply ListSteps_ids| |].
  { intros k st [Es _]%ListSteps_elem. rewrite E. split; [done|set_solver]. }
  eexists _, w'. split; [exact H1|]. rewrite (moved_rest _ _ _ _ _ _ H2), E. done.
Qed.

Lemma upstreamVerdict_leaves ups acc w :
  leaves (upstreamVerdict (quiet clock) ups acc) w (λ v d, d = wdb w ∧
    match v with
    | Unsatisfiable => ∃ u, u ∈ ups ∧ lost (wdb w) u
    | Satisfied => acc = true ∧ ∀ u, u ∈ ups → completed (wdb w) u
    | Waiting => (∀ u, u ∈ ups → ¬ lost (wdb w) u) ∧
                 (acc = true → ∃ u, u ∈ ups ∧ ¬ completed (wdb w) u)
    end).
Proof.
  revert acc w. induction ups as [|u ups IH]; intros acc w; cbn [upstreamVerdict].
  { apply leaves_ret. split; [done|]. destruct acc; set_solver. }
  eapply leaves_bind; [apply leaves_attempt_GetJob|]. cbv beta. intros r w1 [E Hr].
  destruct (jobs (wdb w) !! u) as [j|] eqn:Ej; subst r.
  2: { apply leaves_ret. split; [done|]. exists u. split; [left|]. intros j. congruence. }
  assert (∀ s, JobStatusOf j = s → s ≠ JobFailed → s ≠ JobCanceled → ¬ lost (wdb w) u) as Hnl.
  { intros s <- ? ? Hl. by destruct (Hl j Ej). }
  assert (JobStatusOf j ≠ JobCompleted → ¬ completed (wdb w) u) as Hnc.
  { intros Hn (j' & E' & Hj'). congruence. }
  specialize (Hnl (JobStatusOf j) eq_refl).
  destruct (JobStatusOf j) eqn:Ej'.
  all: try (apply leaves_ret; split; [done|]; exists u; split; [left|]; intros j' E'; naive_solver).
  all: eapply leaves_mono; [apply IH|]; rewrite E; intros v d [-> Hv]; (split; [done|]);
    destruct v; [set_solver| |].
  all: try (by destruct Hv as [? _]).
  all: destruct Hv as [Hv1 Hv2]; (split; [|]).
  all: try done.
  all: try (intros u' [->|Hin]%elem_of_cons; [by apply Hnl|by apply Hv1]).
  all: try (intros _; exists u; split; [left|by apply Hnc]).
  - intros u' [->|Hin]%elem_of_cons; [by exists j|by apply Hv2].
  - intros Ha. destruct (Hv2 Ha) as (u' & ? & ?). exists u'. split; [by right|done].
Qed.

Lemma upstreamsCompleted_spec db k : upstreamsCompleted db k = true ↔ AllCompleted db k.
Proof.
  unfold upstreamsCompleted, AllCompleted, completed. rewrite forallb_forall.
  setoid_rewrite <- list_elem_of_In. setoid_rewrite elem_of_dependencyIDs.
  setoid_rewrite row_matches_true. setoid_rewrite bool_decide_eq_true. done.
Qed.

Lemma releaseBlockedJob_leaves k job w :
  jobs (wdb w) !! k = Some job → JobStatusOf job = JobBlocked → AllCompleted (wdb w) k →
  leaves (releaseBlockedJob (quiet clock) k job) w (λ _ d,
    Cascaded (wdb w) d ∧ k ∉ blockedIDs d).
Proof.
  intros Ej Hb HA. pose proof HA as Hu. rewrite <- upstreamsCompleted_spec in Hu.
  unfold releaseBlockedJob.
  eapply leaves_bind; [apply (leaves_time _ (λ _ d, d = wdb w)); done|]. intros t w1 E1.
  eapply (leaves_bind _ _ _ _ (λ r d, r = true ∧ Cascaded (wdb w) d ∧ k ∉ blockedIDs d)).
  - eapply leaves_mono; [apply (leaves_call _ _ true)|];
      rewrite E1; unfold ReleaseBlockedJob, inTx, get; rewrite Ej; cbn;
      [by rewrite bool_decide_true, Hu|].
    intros r d [-> ->]. split; [done|]. unfold sqlReleaseBlockedJob.
    rewrite (update_where_ext _ (λ k' j, bool_decide (k' = k) && bool_decide (JobStatusOf j = JobBlocked))
      _ (λ _, job_to JobPending t)), (update_one _ _ _ _ _ Ej); [|by rewrite bool_decide_true|..|done].
    2: { intros k' x _. destruct (decide (k' = k)) as [->|Hne];
           [rewrite Hu; apply andb_true_r|by rewrite (bool_decide_false (k' = k))]. }
    set (db1 := set_jobs _ _).
    assert (JobsMove (wdb w) db1) as HJ.
    { split; [done|]. intros k'. cbn. destruct (decide (k = k')) as [<-|Hne].
      - right. exists job, t. split; [done|]. split; [done|]. left. rewrite lookup_insert_eq.
        split; [done|]. intros u Hku. destruct (HA u Hku) as (ju & Eu & Hju). exists ju.
        cbn. rewrite lookup_insert_ne; [done|]. intros <-. congruence.
      - left. by rewrite lookup_insert_ne. }
    split; [split; [done|]|].
    + intros u d Hu1 Hu2 Hl. exfalso. apply elem_of_blockedIDs in Hu1 as (ju & Eu & Hju).
      destruct (decide (k = u)) as [<-|Hne].
      * destruct (Hl (job_to JobPending t job)); [cbn; by rewrite lookup_insert_eq|done..].
      * apply Hu2, elem_of_blockedIDs. exists ju. cbn. by rewrite lookup_insert_ne.
    + intros (j & E & Hj)%elem_of_blockedIDs. cbn in E. rewrite lookup_insert_eq in E.
      by injection E as <-.
  - intros r w2 (-> & HC & Hk).
    eapply leaves_bind; [apply ResolveDependencies_leaves|]. intros n w3 [E3 E4]. cbv beta.
    eapply leaves_bind; [by apply (leaves_notify _ _ (λ _ d, d = wdb w3))|]. intros [] w4 E5.
    apply leaves_notify. rewrite E5. split.
    + etrans; [exact HC|by apply Cascaded_same].
    + by rewrite (blockedIDs_same _ _ E3).
Qed.

(** Before the cascade goes on, the cancelled job is the only change. *)
Lemma cancelBlockedJob_leaves k job w :
  jobs (wdb w) !! k = Some job → JobStatusOf job = JobBlocked → SomeLost (wdb w) k →
  leaves (cancelBlockedJob (quiet clock) k) w (λ _ d,
    JobsMove (wdb w) d ∧ blockedIDs d = blockedIDs (wdb w) ∖ {[k]}).
Proof.
  intros Ej Hb HL. unfold cancelBlockedJob.
  eapply leaves_bind; [apply (leaves_time _ (λ _ d, d = wdb w)); done|]. intros t w1 E1.
  eapply (leaves_bind _ _ _ _ (λ r d, r.1 = true ∧ JobsMove (wdb w) d ∧
    blockedIDs d = blockedIDs (wdb w) ∖ {[k]})).
  - eapply leaves_mono; [eapply leaves_call|];
      rewrite E1; unfold CancelBlockedJob, inTx, get; rewrite Ej; cbn;
      rewrite (bool_decide_true _ Hb); cbn; [reflexivity|].
    intros r d [-> ->]. split; [done|].
    rewrite (update_one (λ j, bool_decide (JobStatusOf j = JobBlocked)) _ _ _ _ Ej)
      by (by rewrite bool_decide_true).
    set (d := set_tasks _ _).
    assert (jobs d = <[k := set_JobCompletedAt (Some t) (job_to JobCanceled t job)]> (jobs (wdb w)))
      as Ed by done. split.
    + split; [done|]. intros k'. rewrite Ed. destruct (decide (k = k')) as [<-|Hne].
      * right. exists job, t. split; [done|]. split; [done|]. right. rewrite lookup_insert_eq.
        split; [done|]. destruct HL as (u & Hku & Hl). exists u. split; [done|].
        intros j. rewrite Ed. destruct (decide (k = u)) as [<-|Hne];
          [rewrite lookup_insert_eq; intros [= <-]; by right|].
        rewrite lookup_insert_ne by done. apply Hl.
      * left. by rewrite lookup_insert_ne.
    + apply set_eq. intros k'. rewrite elem_of_difference, !elem_of_blockedIDs, Ed.
      destruct (decide (k = k')) as [<-|Hne].
      * rewrite lookup_insert_eq. set_solver.
      * rewrite lookup_insert_ne by done. set_solver.
  - intros r w2 (-> & HJ & HB).
    eapply leaves_bind; [by apply (notifyCanceled_leaves _ _ (λ _ d, d = wdb w2))|].
    intros [] w3 E3. apply leaves_notify. by rewrite E3.
Qed.

Lemma for_each_leaves ds body w :
  (∀ x w1, x ∈ ds → blockedIDs (wdb w1) ⊆ blockedIDs (wdb w) →
     leaves (body x) w1 (λ _ d, Cascaded (wdb w1) d ∧ Settled d x)) →
  leaves (for_each ds body) w (λ _ d, Cascaded (wdb w) d ∧ ∀ x, x ∈ ds → Settled d x).
Proof.
  revert w. induction ds as [|x ds IH]; intros w Hb; cbn [for_each].
  { apply leaves_ret. split; [by apply Cascaded_same|]. by intros x H%elem_of_nil. }
  eapply leaves_bind; [apply Hb; [left|done]|]. cbv beta. intros [] w1 [H1 H2].
  eapply leaves_mono; [apply IH|].
  - intros y w2 Hy Hw2. apply Hb; [by right|]. etrans; [exact Hw2|].
    apply JobsMove_blocked, H1.
  - cbv beta. intros [] d [H3 H4]. split; [by etrans|].
    intros y [->|Hy]%elem_of_cons; [by eapply Cascaded_settled|auto].
Qed.

Lemma reconcileBlockedJob_leaves fuel k w :
  (size (blockedIDs (wdb w)) < fuel)%nat →
  leaves (reconcileBlockedJob (quiet clock) fuel k) w (λ _ d, Cascaded (wdb w) d ∧ Settled d k).
Proof.
  revert k w. induction fuel as [|fuel IH]; intros k w Hf; [lia|]. cbn [reconcileBlockedJob].
  assert (∀ d, d = wdb w → (k ∉ blockedIDs d) → Cascaded (wdb w) d ∧ Settled d k) as Hstay.
  { intros d -> Hk. split; [by apply Cascaded_same|]. intros H. by destruct Hk. }
  eapply leaves_bind; [apply leaves_attempt_GetJob|]. cbv beta. intros r w1 [E1 Hr].
  destruct (jobs (wdb w) !! k) as [job|] eqn:Ej; subst r.
  2: { apply leaves_ret, Hstay; [done|]. rewrite E1. intros (j & E & _)%elem_of_blockedIDs. congruence. }
  case_bool_decide as Hb; cbn [negb].
  2: { apply leaves_ret, Hstay; [done|]. rewrite E1. intros (j & E & ?)%elem_of_blockedIDs. congruence. }
  eapply leaves_bind; [by apply leaves_query|]. cbv beta. intros ups w2 [-> E2].
  rewrite E1 in E2.
  assert (∀ u, u ∈ ListJobDependencyIDs (wdb w1) k ↔ (k, u) ∈ jobDependencies (wdb w)) as Hups.
  { intros u. unfold ListJobDependencyIDs. by rewrite sort_by_perm, elem_of_dependencyIDs, E1. }
  eapply leaves_bind; [apply upstreamVerdict_leaves|]. cbv beta. intros v w3 [E3 Hv].
  rewrite E2 in E3, Hv. destruct v.
  - assert (SomeLost (wdb w3) k) as HL.
    { destruct Hv as (u & Hu & Hl). exists u. rewrite E3. split; [by apply Hups|done]. }
    eapply leaves_bind; [apply (cancelBlockedJob_leaves k job); [by rewrite E3|done|done]|].
    cbv beta. intros [] w4 [HJ HB]. rewrite E3 in HJ, HB.
    eapply leaves_bind; [by apply leaves_query|]. cbv beta. intros ds w5 [-> E5].
    assert (k ∈ blockedIDs (wdb w)) as Hk by (apply elem_of_blockedIDs; eauto).
    eapply leaves_mono; [apply for_each_leaves|].
    { intros x w6 _ Hw6. apply IH. rewrite E5, HB in Hw6. apply subseteq_size in Hw6.
      assert ({[k]} ⊆ blockedIDs (wdb w)) as Hs by set_solver.
      rewrite size_difference, size_singleton in Hw6 by done.
      pose proof (subseteq_size _ _ Hs) as Hle. rewrite size_singleton in Hle. lia. }
    cbv beta. intros _ d [HC HS]. rewrite E5 in HC. split.
    + split; [etrans; [exact HJ|apply HC]|]. intros u d' Hu Hu' Hl Hd.
      destruct (decide (u = k)) as [->|Hne].
      * apply HS. rewrite elem_of_ListDependents. by rewrite (jm_edges _ _ HJ).
      * apply (proj2 HC u d'); [rewrite HB; set_solver|done|done|].
        by rewrite (jm_edges _ _ HJ).
    + intros H. apply (JobsMove_blocked _ _ (proj1 HC)) in H. rewrite HB in H. set_solver.
  - destruct Hv as [_ Hv]. eapply leaves_mono; [apply (releaseBlockedJob_leaves k job)|].
    + by rewrite E3.
    + done.
    + rewrite E3. intros u Hu. by apply Hv, Hups.
    + cbv beta. intros [] d [HC Hk]. rewrite E3 in HC. split; [done|]. intros H. by destruct Hk.
  - destruct Hv as [Hv1 Hv2]. apply leaves_ret. rewrite E3. split; [by apply Cascaded_same|].
    intros _. split.
    + intros (u & Hu & Hl). by apply (Hv1 u); [apply Hups|].
    + intros HA. destruct (Hv2 eq_refl) as (u & Hu & Hn). apply Hn, HA. by apply Hups.
Qed.
End Quiet.

(** What [ReconcileDependents] does when nobody interferes.  It returns
    without an error.  A job row changes only from blocked: to pending when all
    the job's upstreams are completed, or to cancelled when one of them failed,
    was cancelled or does not exist.  Afterwards every job that waited for the
    given upstream, or for a job the cascade cancelled, is settled: if it is
    still blocked then none of its upstreams is lost and one has yet to
    complete. *)
Theorem ReconcileDependents_settles clock fuel upstream w :
  (size (blockedIDs (wdb w)) < fuel)%nat →
  ∃ w', ReconcileDependents (quiet clock) fuel upstream w = Some (Ok tt, w') ∧
    JobsMove (wdb w) (wdb w') ∧
    (∀ d, (d, upstream) ∈ jobDependencies (wdb w) → Settled (wdb w') d) ∧
    ∀ u d, u ∈ blockedIDs (wdb w) → (u ∉ blockedIDs (wdb w')) → lost (wdb w') u →
      (d, u) ∈ jobDependencies (wdb w) → Settled (wdb w') d.
Proof.
  intros Hf.
  assert (leaves (ReconcileDependents (quiet clock) fuel upstream) w (λ _ d,
    Cascaded (wdb w) d ∧ ∀ x, (x, upstream) ∈ jobDependencies (wdb w) → Settled d x))
    as ([] & w' & E & [H1 H2] & H3).
  { unfold ReconcileDependents. eapply leaves_bind; [by apply leaves_query|]. cbv beta.
    intros ds w1 [-> E]. eapply leaves_mono; [apply for_each_leaves|].
    - intros x w2 _ Hw2. apply reconcileBlockedJob_leaves. rewrite E in Hw2.
      pose proof (subseteq_size _ _ Hw2). lia.
    - cbv beta. rewrite E. intros _ d [HC HS]. split; [done|]. intros x Hx.
      by apply HS, elem_of_ListDependents. }
  exists w'. auto.
Qed.

(** A failed job, one blocked on it and one blocked on that. *)
Definition sampleBlocked : DB :=
  let job s := mkJob "f" "q" 50 s 0 None None None "" 1 1 None None (Some []) "" in
  set_jobDependencies {[("b"%string, "a"%string); ("c"%string, "b"%string)]}
    (set_jobs {["a"%string := job JobFailed; "b"%string := job JobBlocked;
                "c"%string := job JobBlocked]} emptyDB).

Lemma ReconcileDependents_terminates_witness :
  (size (blockedIDs sampleBlocked) < 3)%nat ∧
  ∃ r w', ReconcileDependents (quiet Z.of_nat) 3 "a" (mkWorld sampleBlocked 0 []) = Some (r, w').
Proof.
  assert (size (blockedIDs sampleBlocked) < 3)%nat as H by (vm_compute; lia).
  split; [exact H|].
  apply (ReconcileDependents_terminates (quiet Z.of_nat) 3 "a" (mkWorld sampleBlocked 0 []));
    [intros n db k Hk; exact Hk|exact H].
Defined.

Lemma ReconcileDependents_settles_witness :
  (size (blockedIDs sampleBlocked) < 3)%nat ∧
  ∃ w', ReconcileDependents (quiet Z.of_nat) 3 "a" (mkWorld sampleBlocked 0 []) = Some (Ok tt, w') ∧
    Settled (wdb w') "b".
Proof.
  assert (size (blockedIDs sampleBlocked) < 3)%nat as H by (vm_compute; lia).
  split; [exact H|].
  destruct (ReconcileDependents_settles Z.of_nat 3 "a" (mkWorld sampleBlocked 0 []) H)
    as (w' & H1 & _ & H2 & _).
  exists w'. split; [exact H1|]. apply H2. vm_compute. reflexivity.
Defined.
