(* ===== verification/Handlers.v ===== *)
(** * Worker reports: [internal/scheduler/taskstatus.go], [failure.go],
      [cancellation.go] and [fence.go]

    What the scheduler does with a task-status message: the checks on its
    identity, the store calls of each status, the retry decision on a failure,
    the cancel signals and whether the message is acknowledged.  The store calls,
    their order, the early returns and the events are the code's; log lines and
    metrics are left out. *)

From S2P Require Import Prelude StatusText Subjects Schema Finalize Attempts Lease Jobs Sched Policy Deps Reconcile.
Open Scope Z_scope.

(** ** Messages *)

(** [protocol.TaskStatusMsg]; [MsgAt] is [None] for Go's zero time. *)
Record TaskStatusMsg := mkTaskStatusMsg {
  MsgVersion : string;
  MsgTaskID : string;
  MsgAttemptID : string;
  MsgJobID : string;
  MsgStatus : string;
  MsgExitCode : option Z;
  MsgSessionID : string;
  MsgAt : option Z;
  MsgLastProgress : option Z;
  MsgMessage : string;
}.

Definition ProtocolVersion : string := "5".
Definition MessageWorkerShutdown : string := "worker_shutdown".
Definition FailureReasonCanceledByUser : string := "canceled by user".

(** [store.AttemptProgress] *)
Record AttemptProgress := mkAttemptProgress {
  ProgAttemptID : string;
  ProgTaskID : string;
  ProgProgress : option Z;
  ProgStatusText : string;
  ProgAt : Z;
}.

(** What becomes of a message: acknowledged, refused for redelivery after a
    delay, or left for the new leader. *)
Inductive Disposition := Acked | Naked (delay : Z) | LeftUnacked.

Definition failureReasonOrFallback (msg : string) (exitCode : option Z) (status : TaskStatus) : string :=
  if negb (bool_decide (msg = ""%string)) then msg
  else if bool_decide (status = TaskFailed) then
    match exitCode with
    | Some e => of_str (of_string "failed (exit " ++ Itoa e ++ of_string ")")
    | None => "failed"
    end
  else "".

Definition nakBaseDelay : Z := Second.
Definition nakMaxDelay : Z := 30 * Second.

(** The loop of [nakDelay]: at most [n] doublings, five of which reach the cap. *)
Fixpoint nakLoop (fuel : nat) (i n d : Z) : Z :=
  match fuel with
  | O => d
  | S f => if (i <? n) && (d <? nakMaxDelay) then nakLoop f (i + 1) n (d * 2) else d
  end.

Definition nakDelay (n : Z) : Z := Z.min (nakLoop 5 1 n nakBaseDelay) nakMaxDelay.

Section Handlers.
Context (env : Surroundings).
(** [s.RetryDefaults()], from the server's configuration. *)
Context (RetryDefaults : RetryPolicy).

(** ** The fence *)

Definition deposed : M bool := λ w, Some (Ok (bool_decide (Deposed ∈ wevents w)), w).

Definition fenced : M unit :=
  d ← deposed;
  if d : bool then mret tt else notify Deposed.

Definition stopIfFenced (err : CallErr) : M bool :=
  match err with
  | ErrFenced => _ ← fenced; mret true
  | _ => mret false
  end.

Definition warnUnlessStopped {A} (r : res CallErr A) : M unit :=
  match r with
  | Ok _ => mret tt
  | Err e => _ ← stopIfFenced e; mret tt
  end.

Definition ackMsg : M Disposition :=
  d ← deposed; mret (if d : bool then LeftUnacked else Acked).

Definition nakMsg (delivered : Z) : M Disposition :=
  d ← deposed; mret (if d : bool then LeftUnacked else Naked (nakDelay delivered)).

(** ** Reads *)

Definition GetTaskAttempt (id : string) : M TaskAttempt := query env (λ db, get (attempts db) id).
Definition GetQueue (id : string) : M Queue := query env (λ db, get (queues db) id).
Definition GetFarm (id : string) : M Farm := query env (λ db, get (farms db) id).

(** [ORDER BY attempt_number DESC LIMIT 1]; the numbers of a task's attempts are
    unique. *)
Definition latestAttempt (db : DB) (taskID : string) : option string :=
  fst <$> head (filter (λ ka, Some (AttemptNumber ka.2) = maxAttemptNumber db taskID)
    (map_to_list (attemptsOf db taskID))).

Definition LatestTaskAttempt (taskID : string) : M string :=
  query env (λ db, match latestAttempt db taskID with Some id => Ok id | None => Err ErrNotFound end).

(** ** Cancel signals *)

(** A failed publish is only logged. *)
Definition publishCancel (workerID taskID attemptID : string) : M unit :=
  notify (CancelSent workerID taskID attemptID).

(** The tasks of a job cancel name no attempt. *)
Definition publishCancelSignals (ts : list (string * Task)) : M unit :=
  for_each ts (λ t,
    match AssignedWorkerID t.2 with
    | None => mret tt
    | Some w => if bool_decide (w = ""%string) then mret tt else publishCancel w t.1 ""
    end).

(** ** Running reports *)

Definition maybePromoteJobRunning (jobID : string) : M unit :=
  t ← time_Now env;
  r ← attempt (call env (PromoteJobRunning jobID t));
  match r with
  | Err e => _ ← stopIfFenced e; mret tt
  | Ok promoted => if promoted : bool then notify (JobEvent jobID JobRunning) else mret tt
  end.

Definition snapshotProgress (attemptID : string) (m : TaskStatusMsg) : M AttemptProgress :=
  t ← time_Now env;
  mret (mkAttemptProgress attemptID (MsgTaskID m) (MsgLastProgress m)
    (of_str (SanitizeStatusText (of_string (MsgMessage m)))) (default t (MsgAt m))).

Definition recordProgress (p : AttemptProgress) : M (ProgressOutcome * string) :=
  call env (RecordAttemptProgress (ProgAttemptID p) (ProgTaskID p) (ProgProgress p)
    (ProgStatusText p) (ProgAt p)).

(** Whether the message is fully handled. *)
Definition handleRunningSnapshot (attemptID : string) (a : TaskAttempt) (m : TaskStatusMsg)
    (p : AttemptProgress) : M bool :=
  r ← attempt (recordProgress p);
  match r with
  | Err (StoreError ErrNotFound) => mret true
  | Err e => fail e
  | Ok (ProgressRecorded, jobID) => _ ← notify (TaskEvent jobID (MsgTaskID m) TaskRunning); mret true
  | Ok (ProgressNotLive, _) => _ ← publishCancel (AttemptWorkerID a) (MsgTaskID m) attemptID; mret true
  | Ok (ProgressTaskAssigned, _) => mret false
  | Ok (ProgressOutOfOrder, _) => mret true
  end.

Definition recordSnapshotAfterStart (p : AttemptProgress) : M unit :=
  r ← attempt (recordProgress p); warnUnlessStopped r.

(** The report is a snapshot when it carries a progress or a message. *)
Definition isSnapshot (m : TaskStatusMsg) : bool :=
  (match MsgLastProgress m with Some _ => true | None => false end)
  || negb (bool_decide (MsgMessage m = ""%string)).

Definition startRunning (attemptID : string) (a : TaskAttempt) (m : TaskStatusMsg)
    (snap : option AttemptProgress) : M unit :=
  t ← time_Now env;
  started ← call env (StartTaskAttempt attemptID (MsgTaskID m) (MsgSessionID m) t);
  if negb started then publishCancel (AttemptWorkerID a) (MsgTaskID m) attemptID
  else
    r ← attempt (GetTask env (MsgTaskID m));
    match r with
    | Err _ => mret tt
    | Ok task =>
        _ ← (match snap with Some p => recordSnapshotAfterStart p | None => mret tt end);
        _ ← notify (TaskEvent (TaskJobID task) (MsgTaskID m) TaskRunning);
        maybePromoteJobRunning (TaskJobID task)
    end.

Definition handleTaskRunning (attemptID : string) (a : TaskAttempt) (m : TaskStatusMsg) : M unit :=
  if isSnapshot m then
    p ← snapshotProgress attemptID m;
    done_ ← handleRunningSnapshot attemptID a m p;
    if done_ : bool then mret tt else startRunning attemptID a m (Some p)
  else startRunning attemptID a m None.

(** ** Terminal reports *)

Definition handleTaskTerminal (fuel : nat) (attemptID : string) (m : TaskStatusMsg)
    (taskStatus : TaskStatus) (attemptStatus : AttemptStatus) (at_ : Z) : M unit :=
  let reason :=
    if bool_decide (taskStatus = TaskFailed) || bool_decide (taskStatus = TaskCanceled)
    then failureReasonOrFallback (MsgMessage m) (MsgExitCode m) taskStatus else ""%string in
  t ← time_Now env;
  res ← call env (CompleteTaskAttempt (mkAttemptCompletion attemptID (MsgTaskID m) taskStatus attemptStatus
    (MsgExitCode m) (MsgSessionID m) (MsgMessage m) reason at_) t);
  _ ← notify (Evicted attemptID);
  task ← GetTask env (MsgTaskID m);
  _ ← notifyQueueForJob env (TaskJobID task);
  match res with
  | Rejected => fail (StoreError ErrInvalidTransition)
  | Applied =>
      _ ← notify (TaskEvent (TaskJobID task) (MsgTaskID m) taskStatus);
      checkStepCompletion env fuel (TaskStepID task) (TaskJobID task)
  end.

(** ** Failures *)

Definition notifyTaskReclaimed (taskID : string) (task : Task) : M unit :=
  _ ← notify (TaskEvent (TaskJobID task) taskID TaskReady);
  notifyQueueForJob env (TaskJobID task).

Definition reclaimAttempt (attemptID taskID : string) (now : Z) : M bool :=
  reclaimed ← call env (ReclaimTaskAttempt attemptID taskID now);
  _ ← notify (Evicted attemptID);
  if negb reclaimed then mret false
  else
    task ← GetTask env taskID;
    _ ← notifyTaskReclaimed taskID task;
    mret true.

Definition handleTaskShutdown (attemptID : string) (m : TaskStatusMsg) : M unit :=
  t ← time_Now env;
  _ ← reclaimAttempt attemptID (MsgTaskID m) t;
  mret tt.

Definition failureReportStillCurrent (taskID attemptID : string) : M bool :=
  cur ← GetTaskAttempt attemptID;
  if negb (bool_decide (AttemptStatusOf cur = AttemptFailed)) then mret false
  else
    latest ← LatestTaskAttempt taskID;
    mret (bool_decide (latest = attemptID)).

(** While the scheduler runs; a positive delay sets a timer. *)
Definition scheduleRetryWake (queueID : string) (delay : Z) : M unit :=
  if delay <=? 0 then WakeQueue queueID else notify (WakeAfter queueID delay).

Definition retryTaskAfterFailure (task : Task) (job : Job) (m : TaskStatusMsg)
    (policy : RetryPolicy) (at_ : Z) : M unit :=
  requeued ← call env (RequeueTaskForRetry (MsgTaskID m) (MsgAttemptID m) (at_ + RetryDelay policy) at_);
  if negb requeued then mret tt
  else
    _ ← notify (TaskEvent (TaskJobID task) (MsgTaskID m) TaskReady);
    scheduleRetryWake (JobQueueID job) (RetryDelay policy).

Definition parkReason (failureLimit : Z) : string :=
  of_str (of_string "failure limit reached (" ++ Itoa failureLimit ++ of_string ")").

Definition parkJobAtFailureLimit (jobID : string) (failureLimit at_ : Z) : M unit :=
  _ ← call env (ParkJob jobID (parkReason failureLimit) at_);
  notify (JobEvent jobID JobPaused).

Definition handleTaskFailed (fuel : nat) (attemptID : string) (m : TaskStatusMsg) (at_ : Z) : M unit :=
  if bool_decide (MsgMessage m = MessageWorkerShutdown) then handleTaskShutdown attemptID m
  else
    task ← GetTask env (MsgTaskID m);
    job ← GetJob env (TaskJobID task);
    queue ← GetQueue (JobQueueID job);
    farm ← GetFarm (JobFarmID job);
    let policy := ResolveRetryPolicy job queue farm RetryDefaults in
    t ← time_Now env;
    r ← call env (RecordTaskFailure attemptID (MsgTaskID m) (MsgExitCode m) (MsgSessionID m)
      (MsgMessage m) at_ t);
    let '(taskFailed, jobFailed, firstClose) := r in
    _ ← notify (Evicted attemptID);
    proceed ← (if firstClose : bool then mret true
               else failureReportStillCurrent (MsgTaskID m) attemptID);
    if negb proceed then mret tt
    else
      let parked := (0 <? FailureLimit policy) && (FailureLimit policy <=? jobFailed) in
      if negb parked && (taskFailed <? MaxAttempts policy)
      then retryTaskAfterFailure task job m policy at_
      else
        _ ← (if parked then parkJobAtFailureLimit (TaskJobID task) (FailureLimit policy) at_ else mret tt);
        handleTaskTerminal fuel attemptID m TaskFailed AttemptFailed at_.

(** ** The consumer *)

Definition processTaskStatus (fuel : nat) (subjectWorkerID : string) (m : TaskStatusMsg) : M unit :=
  r ← attempt (GetTaskAttempt (MsgAttemptID m));
  match r with
  | Err (StoreError ErrNotFound) => mret tt
  | Err e => fail e
  | Ok a =>
      if negb (bool_decide (AttemptTaskID a = MsgTaskID m)) then mret tt
      else if negb (bool_decide (subjectWorkerID = AttemptWorkerID a)) then mret tt
      else
        t ← time_Now env;
        let at_ := default t (MsgAt m) in
        if bool_decide (MsgStatus m = "running"%string) then handleTaskRunning (MsgAttemptID m) a m
        else if bool_decide (MsgStatus m = "succeeded"%string) then
          handleTaskTerminal fuel (MsgAttemptID m) m TaskSucceeded AttemptSucceeded at_
        else if bool_decide (MsgStatus m = "failed"%string) then
          handleTaskFailed fuel (MsgAttemptID m) m at_
        else if bool_decide (MsgStatus m = "canceled"%string) then
          handleTaskTerminal fuel (MsgAttemptID m) m TaskCanceled AttemptCanceled at_
        else mret tt
  end.

(** [payload] is the decoded message, [None] when it does not decode;
    [delivered] counts its deliveries, zero when the metadata cannot be read. *)
Definition handleTaskStatusMessage (fuel : nat) (subject : str) (payload : option TaskStatusMsg)
    (delivered : Z) : M Disposition :=
  match payload with
  | None => ackMsg
  | Some m =>
      if negb (bool_decide (MsgVersion m = ProtocolVersion)) then ackMsg
      else if bool_decide (MsgTaskID m = ""%string) || bool_decide (MsgAttemptID m = ""%string) then ackMsg
      else
        match ParseWorkerSubject subject with
        | None => ackMsg
        | Some (workerID, _) =>
            r ← attempt (processTaskStatus fuel (of_str workerID) m);
            match r with
            | Ok _ => ackMsg
            | Err e =>
                stop ← stopIfFenced e;
                if stop : bool then mret LeftUnacked
                else match e with
                     | StoreError ErrInvalidTransition => ackMsg
                     | _ => nakMsg delivered
                     end
            end
        end
  end.

(** ** Cancellation *)

Definition CancelJob (jobID : string) : M unit :=
  t ← time_Now env;
  active ← call env (CancelJobExecution jobID FailureReasonCanceledByUser t);
  publishCancelSignals (map_to_list active).

Definition CancelTask (fuel : nat) (taskID : string) : M unit :=
  t ← time_Now env;
  r ← call env (CancelTaskExecution taskID FailureReasonCanceledByUser t);
  let '(prior, canceled) := r in
  if negb canceled then mret tt
  else
    _ ← publishCancelSignals [(taskID, prior)];
    _ ← attempt (checkStepCompletion env fuel (TaskStepID prior) (TaskJobID prior));
    mret tt.
End Handlers.
