(* ===== verification/Handling.v ===== *)
(** * What handling a report does

    The scheduler's handlers against the store's invariants: every call they make
    is one the store's invariants allow, so that a database stays reachable
    whatever message arrives and whatever happens around it; and what the failure
    handler decides. *)

From S2P Require Import Prelude StatusText Subjects Schema Sample Finalize Attempts Lease Jobs Workers Evolve Keeps.
From S2P Require Import StoreInv Transitions Outcomes Reports Sched Policy Deps Reconcile Handlers.
Open Scope Z_scope.

(** ** Completing a step keeps what its store calls keep *)

Record Completes (env : Surroundings) (P : DB → Prop) : Prop := mkCompletes {
  comp_others : ∀ n db, P db → P (others env n db);
  comp_FinalizeStep : ∀ id t db, P db → P (FinalizeStep id t db).2;
  comp_FinalizeJob : ∀ id t db, P db → P (FinalizeJob id t db).2;
  comp_ReleaseStep : ∀ id t db, P db → P (ReleaseStep id t db).2;
  comp_CancelPendingStep : ∀ id r t db, P db → P (CancelPendingStep id r t db).2;
  comp_ReleaseBlockedJob : ∀ id t db, P db → P (ReleaseBlockedJob id t db).2;
  comp_CancelBlockedJob : ∀ id r t db, P db → P (CancelBlockedJob id r t db).2;
}.

Section Completion.
Context (env : Surroundings) (P : DB → Prop) (HC : Completes env P).

Lemma call_keeps {A} total (op : DB → res StoreErr A * DB) :
  (∀ db, P db → P (op db).2) → keeps total P (call env op).
Proof. intros H. apply keeps_call; [apply HC|done]. Qed.

Lemma resolveLoop_keeps total m ss p : keeps total P (resolveLoop env m ss p).
Proof.
  revert p. induction ss as [|[id st] ss IH]; intros p; cbn [resolveLoop]; keep_steps; try apply IH.
  apply call_keeps. intros db. apply HC.
Qed.

Lemma ResolveDependencies_keeps total jobID : keeps total P (ResolveDependencies env jobID).
Proof. unfold ResolveDependencies. keep_steps; [apply HC|apply resolveLoop_keeps]. Qed.

Lemma cancelPass_keeps total ss s : keeps total P (cancelPass env ss s).
Proof.
  revert s. induction ss as [|[id st] ss IH]; intros s; cbn [cancelPass]; keep_steps; try apply IH.
  apply call_keeps. intros db. apply HC.
Qed.

Lemma cancelLoop_keeps fuel ss s : keeps false P (cancelLoop env fuel ss s).
Proof.
  revert s. induction fuel as [|fuel IH]; intros s; cbn [cancelLoop]; keep_steps; [|apply IH].
  apply cancelPass_keeps.
Qed.

Lemma CancelDependents_keeps jobID : keeps true P (CancelDependents env jobID).
Proof.
  unfold CancelDependents. keep_steps; [apply HC|]. apply keeps_total; [|apply cancelLoop_keeps].
  intros w _. edestruct cancelLoop_returns as (r & w' & E & _); [|by eauto].
  apply (Nat.le_lt_trans _ _ _ (pendingNames_length _ _)). lia.
Qed.

Lemma notifyQueueForJob_keeps total jobID : keeps total P (notifyQueueForJob env jobID).
Proof. unfold notifyQueueForJob, GetJob, WakeQueue. keep_steps. apply HC. Qed.

Lemma propagateStepDependencies_keeps jobID st : keeps true P (propagateStepDependencies env jobID st).
Proof.
  unfold propagateStepDependencies, notifyCanceled. keep_steps;
    auto using ResolveDependencies_keeps, CancelDependents_keeps, notifyQueueForJob_keeps.
Qed.

Lemma upstreamVerdict_keeps total ups acc : keeps total P (upstreamVerdict env ups acc).
Proof.
  revert acc. induction ups as [|u ups IH]; intros acc; cbn [upstreamVerdict]; unfold GetJob;
    keep_steps; try apply IH. apply HC.
Qed.

Lemma reconcileBlockedJob_keeps fuel id : keeps false P (reconcileBlockedJob env fuel id).
Proof.
  revert id. induction fuel as [|fuel IH]; intros id; cbn [reconcileBlockedJob];
    unfold releaseBlockedJob, cancelBlockedJob, notifyCanceled, WakeQueue, GetJob; keep_steps;
    try apply HC; auto using upstreamVerdict_keeps, ResolveDependencies_keeps.
  - apply call_keeps. intros db. apply HC.
  - apply call_keeps. intros db. apply HC.
Qed.

(** With fuel for the blocked jobs the whole completion ends. *)
Context (B : gset string) (HB : ∀ db, P db → blockedIDs db ⊆ B).
Context (no_new : ∀ n db, blockedIDs (others env n db) ⊆ blockedIDs db).

Lemma reconcileBlockedJob_total fuel id :
  (size B < fuel)%nat → keeps true P (reconcileBlockedJob env fuel id).
Proof.
  intros Hf. apply keeps_total; [|apply reconcileBlockedJob_keeps]. intros w Hw.
  destruct (reconcileBlockedJob_returns env no_new fuel id w B) as (r & w' & E & _); [|done|eauto].
  by apply HB.
Qed.

Lemma checkJobCompletion_keeps fuel jobID :
  (size B < fuel)%nat → keeps true P (checkJobCompletion env fuel jobID).
Proof.
  intros Hf. unfold checkJobCompletion, ReconcileDependents. keep_steps; try apply HC.
  - apply call_keeps. intros db. apply HC.
  - by apply reconcileBlockedJob_total.
Qed.

Lemma checkStepCompletion_keeps fuel stepID jobID :
  (size B < fuel)%nat → keeps true P (checkStepCompletion env fuel stepID jobID).
Proof.
  intros Hf. unfold checkStepCompletion. keep_steps.
  - apply call_keeps. intros db. apply HC.
  - apply propagateStepDependencies_keeps.
  - by apply checkJobCompletion_keeps.
Qed.
End Completion.

(** ** Reachable databases *)

Lemma run_blocked o db :
  (match o with OpSubmit _ _ _ _ _ => False | _ => True end) → blockedIDs (run o db) ⊆ blockedIDs db.
Proof.
  intros Ho k. rewrite !elem_of_blockedIDs. intros (j' & E' & Hb).
  assert (is_Some (jobs db !! k)) as [j E].
  { pose proof (run_job_rows o db) as H. destruct o; try done; apply H; eauto. }
  exists j. split; [done|]. pose proof (run_jobs o db k j j' E E') as Hj. rewrite Hb in Hj.
  destruct Hj as [Hj|Hj]; [done|].
  destruct o, (JobStatusOf j); try done;
    repeat match goal with H : _ ∧ _ |- _ => destruct H | H : _ ∨ _ |- _ => destruct H end; set_solver.
Qed.

(** A reachable database whose blocked jobs are among [B]. *)
Definition Sound (B : gset string) (db : DB) : Prop := reachable db ∧ blockedIDs db ⊆ B.

Lemma run_Sound B o db :
  (match o with OpSubmit _ _ _ _ _ => False | _ => True end) → allowed o db = true →
  Sound B db → Sound B (run o db).
Proof.
  intros Ho Ha [Hr Hb]. split; [by apply reach_step|]. etrans; [by apply run_blocked|done].
Qed.

(** What other writers do around a handler: the store's own commands, submitting
    no blocked job, none of which reopens the attempt [aid]. *)
Record Writers (env : Surroundings) (aid : string) : Prop := mkWriters {
  writers_reachable : ∀ n db, reachable db → reachable (others env n db);
  writers_blocked : ∀ n db, blockedIDs (others env n db) ⊆ blockedIDs db;
  writers_closed : ∀ n db, openAttempt db aid = false → openAttempt (others env n db) aid = false;
}.

Lemma RecordTaskFailure_closed id taskID code sid msg n server db r :
  (RecordTaskFailure id taskID code sid msg n server db).1 = Ok r →
  openAttempt (RecordTaskFailure id taskID code sid msg n server db).2 id = false.
Proof.
  assert (∀ db', attempts db' = attempts (sqlCloseAttemptAsFailed n code sid msg id db) →
    openAttempt db' id = false) as H.
  { intros db' E. rewrite (openAttempt_update _ _ db id db' E).
    destruct (attempts db !! id) as [a|]; [|done]. rewrite bool_decide_true by done. cbn [andb].
    destruct (attempt_open a) eqn:Ho; [done|exact Ho]. }
  unfold RecordTaskFailure, inTx, get. destruct (tasks db !! taskID) as [t|]; cbn; [|done].
  destruct (jobs db !! TaskJobID t) as [j|]; cbn; [|done]. destruct (negb _); cbn; intros _; by apply H.
Qed.

Section Reports.
Context (env : Surroundings) (RetryDefaults : RetryPolicy) (aid : string) (HW : Writers env aid).
Context (B : gset string) (fuel : nat) (Hfuel : (size B < fuel)%nat).

Lemma others_Sound n db : Sound B db → Sound B (others env n db).
Proof. intros [H1 H2]. split; [by apply HW|]. etrans; [apply HW|done]. Qed.

Lemma op_keeps {A} total (op : DB → res StoreErr A * DB) (o : DB → Op) :
  (∀ db, Sound B db → (op db).2 = run (o db) db ∧ allowed (o db) db = true ∧
     match o db with OpSubmit _ _ _ _ _ => False | _ => True end) →
  keeps total (Sound B) (call env op).
Proof.
  intros H. apply keeps_call; [apply others_Sound|]. intros db Hdb.
  destruct (H db Hdb) as (-> & Ha & Ho). by apply run_Sound.
Qed.

Lemma Completes_Sound : Completes env (Sound B).
Proof.
  split; [apply others_Sound|..]; intros.
  - by apply (run_Sound B (OpFinalizeStep id t)).
  - by apply (run_Sound B (OpFinalizeJob id t)).
  - by apply (run_Sound B (OpReleaseStep id t)).
  - by apply (run_Sound B (OpCancelPendingStep id r t)).
  - by apply (run_Sound B (OpReleaseBlockedJob id t)).
  - by apply (run_Sound B (OpCancelBlockedJob id r t)).
Qed.

Lemma notifyQueue_keeps jobID : keeps true (Sound B) (notifyQueueForJob env jobID).
Proof. apply notifyQueueForJob_keeps, Completes_Sound. Qed.

Lemma completion_keeps stepID jobID : keeps true (Sound B) (checkStepCompletion env fuel stepID jobID).
Proof.
  apply (checkStepCompletion_keeps env (Sound B) Completes_Sound B); [by intros db []|apply HW|done].
Qed.

Lemma stopIfFenced_keeps e : keeps true (Sound B) (stopIfFenced e).
Proof. unfold stopIfFenced, fenced. keep_steps. by intros w Hw. Qed.

Lemma recordProgress_keeps p : keeps true (Sound B) (recordProgress env p).
Proof.
  apply (op_keeps _ _ (λ _, OpProgress (ProgAttemptID p) (ProgTaskID p) (ProgProgress p)
    (ProgStatusText p) (ProgAt p))). done.
Qed.

Lemma startRunning_keeps id a m snap : keeps true (Sound B) (startRunning env id a m snap).
Proof.
  unfold startRunning, publishCancel, recordSnapshotAfterStart, warnUnlessStopped,
    maybePromoteJobRunning, GetTask.
  keep_steps; try apply others_Sound; try apply recordProgress_keeps; try apply stopIfFenced_keeps.
  - by eapply (op_keeps _ _ (λ _, OpStart _ _ _ _)).
  - by eapply (op_keeps _ _ (λ _, OpPromoteJobRunning _ _)).
Qed.

Lemma handleTaskRunning_keeps id a m : keeps true (Sound B) (handleTaskRunning env id a m).
Proof.
  unfold handleTaskRunning, handleRunningSnapshot, snapshotProgress, publishCancel.
  keep_steps; try apply startRunning_keeps; apply recordProgress_keeps.
Qed.

Lemma handleTaskTerminal_keeps id m ts as_ at_ :
  as_ ≠ AttemptRunning → task_terminal ts = true → keeps true (Sound B) (handleTaskTerminal env fuel id m ts as_ at_).
Proof.
  intros Has Hts. unfold handleTaskTerminal, GetTask. keep_steps; try apply others_Sound;
    try apply notifyQueue_keeps; try apply completion_keeps.
  eapply (op_keeps _ _ (λ _, OpComplete _ _)). intros db _. split; [done|]. split; [|done].
  cbn. by rewrite bool_decide_false, Hts.
Qed.

Lemma handleTaskShutdown_keeps id m : keeps true (Sound B) (handleTaskShutdown env id m).
Proof.
  unfold handleTaskShutdown, reclaimAttempt, notifyTaskReclaimed, GetTask.
  keep_steps; try apply others_Sound; try apply notifyQueue_keeps.
  by eapply (op_keeps _ _ (λ _, OpReclaimAttempt _ _ _)).
Qed.

(** The requeue is made while the attempt is closed. *)
Lemma retryTaskAfterFailure_returns task job m policy at_ w :
  MsgAttemptID m = aid → Sound B (wdb w) → openAttempt (wdb w) aid = false →
  returns (retryTaskAfterFailure env task job m policy at_) w (λ _ w', Sound B (wdb w')).
Proof.
  intros Hm Hw Hc. unfold retryTaskAfterFailure. apply returns_bind, returns_call.
  { intros e _. by apply others_Sound. }
  intros _. cbv zeta. set (db := others env (wcalls w) (wdb w)).
  assert (Sound B (RequeueTaskForRetry (MsgTaskID m) (MsgAttemptID m) (at_ + RetryDelay policy) at_ db).2)
    as Hs.
  { apply (run_Sound B (OpRequeue (MsgTaskID m) (MsgAttemptID m) (at_ + RetryDelay policy) at_));
      [done| |by apply others_Sound].
    cbn. rewrite Hm. apply negb_true_iff. by apply (writers_closed _ _ HW). }
  destruct (RequeueTaskForRetry _ _ _ _ db).1 as [requeued|e]; [|done].
  apply keeps_returns; [|done]. unfold scheduleRetryWake, WakeQueue. keep_steps.
Qed.

(** [failureReportStillCurrent] only reads. *)
Lemma failureReportStillCurrent_returns taskID w :
  Sound B (wdb w) → openAttempt (wdb w) aid = false →
  returns (failureReportStillCurrent env taskID aid) w (λ _ w',
    Sound B (wdb w') ∧ openAttempt (wdb w') aid = false).
Proof.
  intros Hw Hc.
  apply (keeps_returns (λ db, Sound B db ∧ openAttempt db aid = false)); [|done].
  unfold failureReportStillCurrent, GetTaskAttempt, LatestTaskAttempt. keep_steps;
    intros n db [H1 H2]; (split; [by apply others_Sound|by apply HW]).
Qed.

Lemma handleTaskFailed_keeps m at_ :
  MsgAttemptID m = aid → keeps true (Sound B) (handleTaskFailed env RetryDefaults fuel aid m at_).
Proof.
  intros Hm. unfold handleTaskFailed, GetTask, GetJob, GetQueue, GetFarm.
  destruct (bool_decide _); [apply handleTaskShutdown_keeps|].
  do 4 (apply keeps_bind; [apply keeps_query, others_Sound|intros ?]). rename x into task, x0 into job.
  set (policy := ResolveRetryPolicy _ _ _ _).
  apply keeps_of_returns. intros w Hw.
  apply returns_bind. exists (Ok (now env (wcalls w))), w. split; [done|].
  apply returns_bind, returns_call. { intros e _. by apply others_Sound. }
  intros _. cbv zeta. set (db := others env (wcalls w) (wdb w)).
  assert (Sound B (RecordTaskFailure aid (MsgTaskID m) (MsgExitCode m) (MsgSessionID m) (MsgMessage m)
            at_ (now env (wcalls w)) db).2) as Hs.
  { apply (run_Sound B (OpRecordFailure aid (MsgTaskID m) (MsgExitCode m) (MsgSessionID m) (MsgMessage m)
            at_ (now env (wcalls w)))); [done|done|by apply others_Sound]. }
  destruct (RecordTaskFailure _ _ _ _ _ _ _ db).1 as [[[tf jf] first]|e] eqn:ER; [|done].
  apply RecordTaskFailure_closed in ER.
  set (w1 := mkWorld _ _ _). assert (openAttempt (wdb w1) aid = false) as Hc1 by exact ER.
  assert (Sound B (wdb w1)) as Hw1 by exact Hs. clearbody w1. clear ER Hs.
  apply returns_bind, returns_notify, returns_bind.
  eapply returns_mono with (Q := λ _ w', Sound B (wdb w') ∧ openAttempt (wdb w') aid = false).
  { destruct first; [by apply returns_ret|by apply failureReportStillCurrent_returns]. }
  intros [proceed|e] w2 [Hw2 Hc2]; [|done].
  destruct (negb proceed); [by apply returns_ret|]. cbv zeta.
  destruct (negb _ && _); [by apply retryTaskAfterFailure_returns|].
  apply keeps_returns; [|done]. unfold parkJobAtFailureLimit. keep_steps;
    try (by apply handleTaskTerminal_keeps). by eapply (op_keeps _ _ (λ _, OpParkJob _ _ _)).
Qed.

Lemma processTaskStatus_keeps subjectWorkerID m :
  MsgAttemptID m = aid →
  keeps true (Sound B) (processTaskStatus env RetryDefaults fuel subjectWorkerID m).
Proof.
  intros Hm. unfold processTaskStatus, GetTaskAttempt. keep_steps; try apply others_Sound;
    try (by apply handleTaskTerminal_keeps).
  - apply handleTaskRunning_keeps.
  - rewrite Hm. by apply handleTaskFailed_keeps.
Qed.

Lemma handleTaskStatusMessage_keeps subject payload delivered :
  (∀ m, payload = Some m → MsgAttemptID m = aid) →
  keeps true (Sound B) (handleTaskStatusMessage env RetryDefaults fuel subject payload delivered).
Proof.
  intros Hm. unfold handleTaskStatusMessage, ackMsg, nakMsg. keep_steps; try (by intros w Hw);
    try apply stopIfFenced_keeps. apply processTaskStatus_keeps. auto.
Qed.
End Reports.

(** Handling a report is safe: in any reachable database, whatever message
    arrives (any status, attempt, worker and times; malformed, stale, duplicated
    or forged), whatever other writers do between the handler's store calls, and
    whichever of those calls fail, the handler returns and leaves a reachable
    database; so every invariant of the store holds afterwards.  It needs no more
    fuel than one level for each job blocked at the start. *)
Theorem status_message_keeps_store env RetryDefaults fuel subject payload delivered w :
  Writers env (from_option MsgAttemptID ""%string payload) →
  (size (blockedIDs (wdb w)) < fuel)%nat → reachable (wdb w) →
  ∃ r w', handleTaskStatusMessage env RetryDefaults fuel subject payload delivered w = Some (r, w') ∧
    reachable (wdb w').
Proof.
  intros HW Hf Hr.
  destruct (keeps_returns (Sound (blockedIDs (wdb w)))
    (handleTaskStatusMessage env RetryDefaults fuel subject payload delivered) w)
    as (r & w' & E & H & _).
  - eapply handleTaskStatusMessage_keeps; [done|done|]. by intros m ->.
  - by split.
  - eauto.
Qed.
(** ** What a failure report decides *)

(** Neither pending, running nor blocked. *)
Definition stopped (j : Job) : bool :=
  match JobStatusOf j with JobPending | JobRunning | JobBlocked => false | _ => true end.

Definition job_stopped (id : string) (db : DB) : Prop := row_matches (jobs db) id stopped = true.

Definition task_failed (id : string) (db : DB) : Prop :=
  TaskStatusOf <$> tasks db !! id = Some TaskFailed.

Lemma task_failed_run id o db :
  allowed o db = true →
  (match o with OpSubmit _ _ _ _ _ | OpLease _ | OpDeleteJob _ | OpPurgeJob _ _ _
              | OpRetryTasks _ _ _ => False | _ => True end) →
  task_failed id db → task_failed id (run o db).
Proof.
  unfold task_failed. intros Ha Ho H. destruct (tasks db !! id) as [t|] eqn:E; [|done].
  assert (Keeps db (run o db)) as [[Ht _ _] _].
  { pose proof (run_keeps o db Ha) as HK. by destruct o. }
  destruct (pointwise_some _ _ _ _ _ Ht E) as (t' & E' & _). rewrite E'. cbn in *. f_equal.
  injection H as H. destruct (run_tasks o db id t t' E E') as [[->|Hv]|Hr]; [done| |by destruct o].
  rewrite H in Hv. unfold ValidateTaskTransition in Hv. by case_bool_decide; [set_solver|].
Qed.

Lemma job_stopped_update id p f db db' :
  jobs db' = update_where p f (jobs db) →
  (∀ k j, p k j = true → stopped j = true → stopped (f k j) = true) →
  job_stopped id db → job_stopped id db'.
Proof.
  unfold job_stopped, row_matches. intros -> Hf. rewrite lookup_update_where.
  destruct (jobs db !! id) as [j|]; [|done]. cbn. destruct (p id j) eqn:Ep; [by apply Hf|done].
Qed.

Lemma job_stopped_same id db db' : jobs db' = jobs db → job_stopped id db → job_stopped id db'.
Proof. unfold job_stopped. by intros ->. Qed.

Lemma jobOutcome_stopped db id n j : stopped (set_JobCompletedAt (Some n) (job_to (jobOutcome db id) n j)) = true.
Proof. unfold stopped, jobOutcome. cbn. repeat case_goal; done. Qed.

Lemma Completes_stopped clock id : Completes (quiet clock) (job_stopped id).
Proof.
  split; [done|..]; intros k *.
  - intros Hdb. unfold FinalizeStep. apply inTx_prop; [done|]. intros a db' H. invert_ok.
    repeat case_in H; by invert_ok.
  - intros Hdb. unfold FinalizeJob. apply inTx_prop; [done|]. intros a db' H. invert_ok.
    repeat case_in H; invert_ok; try done. eapply job_stopped_update; [done| |done].
    intros k' j' _ _. apply jobOutcome_stopped.
  - apply job_stopped_same, moveStep_keeps_jobs.
  - apply job_stopped_same, moveStep_keeps_jobs.
  - intros Hdb. unfold ReleaseBlockedJob. apply inTx_prop; [done|]. intros a db' H. invert_ok.
    eapply job_stopped_update; [done| |done]. intros k' j' [[_ Hb]%andb_prop _]%andb_prop.
    apply bool_decide_eq_true in Hb. unfold stopped. by rewrite Hb.
  - intros Hdb. unfold CancelBlockedJob. apply inTx_prop; [done|]. intros a db' H. invert_ok.
    destruct (negb _); invert_ok; [done|]. eapply job_stopped_update; [done| |done]. done.
Qed.

Lemma Completes_failed clock id : Completes (quiet clock) (task_failed id).
Proof.
  split; [done|..]; intros.
  - by apply (task_failed_run id (OpFinalizeStep id0 t)).
  - by apply (task_failed_run id (OpFinalizeJob id0 t)).
  - by apply (task_failed_run id (OpReleaseStep id0 t)).
  - by apply (task_failed_run id (OpCancelPendingStep id0 r t)).
  - by apply (task_failed_run id (OpReleaseBlockedJob id0 t)).
  - by apply (task_failed_run id (OpCancelBlockedJob id0 r t)).
Qed.

Lemma Completes_blocked clock B : Completes (quiet clock) (λ db, blockedIDs db ⊆ B).
Proof.
  split; [done|..]; intros; (etrans; [|done]).
  - by apply (run_blocked (OpFinalizeStep id t)).
  - by apply (run_blocked (OpFinalizeJob id t)).
  - by apply (run_blocked (OpReleaseStep id t)).
  - by apply (run_blocked (OpCancelPendingStep id r t)).
  - by apply (run_blocked (OpReleaseBlockedJob id t)).
  - by apply (run_blocked (OpCancelBlockedJob id r t)).
Qed.

Lemma Completes_and env P Q : Completes env P → Completes env Q → Completes env (λ db, P db ∧ Q db).
Proof. intros [] []. split; intros; naive_solver. Qed.

Lemma Completes_if env (b : bool) P : Completes env P → Completes env (λ db, b = true → P db).
Proof. intros []. split; eauto. Qed.

(** A terminal failure that the store applies ends the task, and the completion
    that follows changes neither that nor a stopped job. *)
Lemma handleTaskTerminal_failed clock fuel aid m at_ w t (b : bool) jid :
  tasks (wdb w) !! MsgTaskID m = Some t → in_flight (TaskStatusOf t) = true →
  isLatestAttempt (wdb w) aid (MsgTaskID m) = true →
  (b = true → job_stopped jid (wdb w)) → (size (blockedIDs (wdb w)) < fuel)%nat →
  returns (handleTaskTerminal (quiet clock) fuel aid m TaskFailed AttemptFailed at_) w (λ _ w',
    task_failed (MsgTaskID m) (wdb w') ∧ (b = true → job_stopped jid (wdb w'))).
Proof.
  intros Et Hfl Hlat Hst Hf. unfold handleTaskTerminal. cbv zeta.
  match goal with |- context [mkAttemptCompletion _ _ _ _ _ _ _ ?r _] => generalize r end. intros reason.
  apply returns_bind, returns_time. apply returns_bind, returns_call_quiet.
  set (c := mkAttemptCompletion _ _ _ _ _ _ _ _ _).
  assert (report_lands c (wdb w) t = true) as Hl.
  { unfold report_lands. subst c. cbn. rewrite Hlat, Hfl. by destruct (TaskStatusOf t). }
  rewrite (CompleteTaskAttempt_case c _ (wdb w) t Et), Hl. cbn [fst snd].
  rewrite (bool_decide_false (TaskStatusOf t = CompTaskStatus c))
    by (subst c; cbn; by intros Hs; rewrite Hs in Hfl).
  match goal with |- context [mkWorld ?d _ _] => set (db' := d) end.
  set (P := λ db, blockedIDs db ⊆ blockedIDs (wdb w) ∧
    (task_failed (MsgTaskID m) db ∧ (b = true → job_stopped jid db))).
  assert (P db') as HP.
  { assert (jobs db' = jobs (wdb w)) as Ej by (subst db'; by repeat case_bool_decide).
    unfold P. rewrite (blockedIDs_same _ _ Ej). split; [done|]. split.
    - unfold task_failed. subst db'.
      case_bool_decide; cbn; rewrite !lookup_update_where, Et; cbn; by rewrite !bool_decide_true.
    - intros Hb. by eapply job_stopped_same; [|apply Hst]. }
  assert (Completes (quiet clock) P) as HC.
  { apply (Completes_and _ (λ db, blockedIDs db ⊆ _)); [apply Completes_blocked|].
    apply Completes_and; [apply Completes_failed|apply Completes_if, Completes_stopped]. }
  eapply returns_mono.
  - apply (keeps_returns P); [|exact HP]. unfold GetTask. keep_steps; [apply HC|..].
    + by apply notifyQueueForJob_keeps.
    + eapply (checkStepCompletion_keeps (quiet clock) P HC); [|done|exact Hf]. by intros db [? _].
  - intros r w' (_ & H1 & H2). done.
Qed.

Lemma blockedIDs_insert id j j' db :
  jobs db !! id = Some j → JobStatusOf j' = JobStatusOf j →
  blockedIDs (set_jobs (<[id := j']> (jobs db)) db) = blockedIDs db.
Proof.
  intros E Hs. apply set_eq. intros k. rewrite !elem_of_blockedIDs. cbn.
  destruct (decide (id = k)) as [<-|Hne]; [|by rewrite lookup_insert_ne].
  rewrite lookup_insert_eq, E. naive_solver congruence.
Qed.

(** The requeue of an in-flight task by its latest attempt lands. *)
Lemma retryTaskAfterFailure_ready clock task job m policy at_ w t :
  tasks (wdb w) !! MsgTaskID m = Some t → in_flight (TaskStatusOf t) = true →
  isLatestAttempt (wdb w) (MsgAttemptID m) (MsgTaskID m) = true →
  returns (retryTaskAfterFailure (quiet clock) task job m policy at_) w (λ r w',
    r = Ok tt ∧ tasks (wdb w') !! MsgTaskID m = Some (requeueTask (at_ + RetryDelay policy) at_ t)).
Proof.
  intros Et Hfl Hlat. unfold retryTaskAfterFailure. apply returns_bind, returns_call_quiet.
  unfold RequeueTaskForRetry, inTx. rewrite Et, Hlat, Hfl. cbn [fst snd andb negb].
  match goal with |- context [mkWorld ?d _ _] => set (db' := d) end.
  assert (tasks db' !! MsgTaskID m = Some (requeueTask (at_ + RetryDelay policy) at_ t)) as E.
  { subst db'. cbn. rewrite lookup_update_where, Et. cbn. by rewrite bool_decide_true, Hfl by done. }
  apply returns_bind, returns_notify. unfold scheduleRetryWake, WakeQueue.
  destruct (_ <=? 0); by apply returns_notify.
Qed.

(** The terminal branch, parking first when the limit is reached. *)
Lemma parkThenFail_failed clock fuel aid m at_ w t j (parked : bool) limit :
  tasks (wdb w) !! MsgTaskID m = Some t → in_flight (TaskStatusOf t) = true →
  isLatestAttempt (wdb w) aid (MsgTaskID m) = true → jobs (wdb w) !! TaskJobID t = Some j →
  (size (blockedIDs (wdb w)) < fuel)%nat →
  returns (_ ← (if parked then parkJobAtFailureLimit (quiet clock) (TaskJobID t) limit at_ else mret tt);
           handleTaskTerminal (quiet clock) fuel aid m TaskFailed AttemptFailed at_) w (λ _ w',
    task_failed (MsgTaskID m) (wdb w') ∧ (parked = true → job_stopped (TaskJobID t) (wdb w'))).
Proof.
  intros Et Hfl Hlat Ej Hf. apply returns_bind. destruct parked.
  2: { apply returns_ret. by eapply handleTaskTerminal_failed. }
  unfold parkJobAtFailureLimit. apply returns_bind, returns_call_quiet.
  unfold ParkJob, get. cbn [fst snd]. set (db' := set_jobs _ _).
  assert (∃ j', jobs db' !! TaskJobID t = Some j' ∧ stopped j' = true) as (j' & Ej' & Hs).
  { subst db'. cbn. rewrite lookup_update_where, Ej. cbn. rewrite bool_decide_true by done.
    eexists. split; [done|]. unfold stopped. by destruct (JobStatusOf j) eqn:E; cbn; rewrite ?E. }
  rewrite Ej'. cbn [res_bind]. apply returns_notify.
  apply (handleTaskTerminal_failed _ _ _ _ _ _ t); [exact Et|exact Hfl|exact Hlat|..].
  - intros _. cbn [wdb]. unfold job_stopped, row_matches. by rewrite Ej'.
  - eapply Nat.le_lt_trans; [|exact Hf]. apply subseteq_size.
    apply (run_blocked (OpParkJob (TaskJobID t) (parkReason limit) at_)). done.
Qed.

(** The policy's verdict on the failure after [n] earlier ones of the task and
    [k] of the job. *)
Definition limit_reached (policy : RetryPolicy) (k : Z) : bool :=
  (0 <? FailureLimit policy) && (FailureLimit policy <=? k + 1).

(** C16. What the first report of a failure decides, with nobody interfering.
    While the job is below its failure limit and the task below its attempts, the
    task goes back to ready with its failure counted and its backoff set.
    Otherwise the task ends failed, whatever the completion that follows does;
    and at the failure limit the job is no longer pending or running, so no more
    of it is leased. *)
Theorem handleTaskFailed_decides clock RetryDefaults fuel m at_ w t j q f :
  let db := wdb w in
  let aid := MsgAttemptID m in
  tasks db !! MsgTaskID m = Some t → in_flight (TaskStatusOf t) = true →
  jobs db !! TaskJobID t = Some j → queues db !! JobQueueID j = Some q → farms db !! JobFarmID j = Some f →
  openAttempt db aid = true → isLatestAttempt db aid (MsgTaskID m) = true →
  MsgMessage m ≠ MessageWorkerShutdown → (size (blockedIDs db) < fuel)%nat →
  let policy := ResolveRetryPolicy j q f RetryDefaults in
  let parked := limit_reached policy (JobFailedAttempts j) in
  ∃ r w' t', handleTaskFailed (quiet clock) RetryDefaults fuel aid m at_ w = Some (r, w') ∧
    tasks (wdb w') !! MsgTaskID m = Some t' ∧
    if negb parked && (TaskFailedAttempts t + 1 <? MaxAttempts policy)
    then r = Ok tt ∧ TaskStatusOf t' = TaskReady ∧ AssignedWorkerID t' = None ∧
         RetryAfter t' = Some (at_ + RetryDelay policy) ∧
         TaskFailedAttempts t' = TaskFailedAttempts t + 1
    else TaskStatusOf t' = TaskFailed ∧ (parked = true → job_stopped (TaskJobID t) (wdb w')).
Proof.
  intros db aid Et Hfl Ej Eq Ef Hop Hlat Hmsg Hfuel policy parked.
  enough (returns (handleTaskFailed (quiet clock) RetryDefaults fuel aid m at_) w (λ r w',
    ∃ t', tasks (wdb w') !! MsgTaskID m = Some t' ∧
    if negb parked && (TaskFailedAttempts t + 1 <? MaxAttempts policy)
    then r = Ok tt ∧ TaskStatusOf t' = TaskReady ∧ AssignedWorkerID t' = None ∧
         RetryAfter t' = Some (at_ + RetryDelay policy) ∧
         TaskFailedAttempts t' = TaskFailedAttempts t + 1
    else TaskStatusOf t' = TaskFailed ∧ (parked = true → job_stopped (TaskJobID t) (wdb w'))))
    as (r & w' & E & t' & Ht & H) by eauto 10.
  unfold handleTaskFailed. rewrite bool_decide_false by done.
  apply returns_bind, returns_call_quiet. cbn [fst snd]. fold db. unfold get. rewrite Et.
  apply returns_bind, returns_call_quiet. cbn [fst snd wdb]. fold db. unfold get. rewrite Ej.
  apply returns_bind, returns_call_quiet. cbn [fst snd wdb]. fold db. unfold get. rewrite Eq.
  apply returns_bind, returns_call_quiet. cbn [fst snd wdb]. fold db. unfold get. rewrite Ef.
  fold policy. apply returns_bind, returns_time. apply returns_bind, returns_call_quiet.
  cbn [wdb]. fold db. set (server := now _ _).
  pose proof (RecordTaskFailure_keeps aid (MsgTaskID m) (MsgExitCode m) (MsgSessionID m) (MsgMessage m)
    at_ server db) as [[_ Hev _] _].
  apply (isLatestAttempt_evolves _ _ aid (MsgTaskID m)) in Hev. rewrite Hlat in Hev.
  revert Hev.
  rewrite (RecordTaskFailure_case aid (MsgTaskID m) (MsgExitCode m) (MsgSessionID m) (MsgMessage m)
    at_ server db t j Et Ej), Hop. cbn [fst snd].
  match goal with |- context [mkWorld ?d _ _] => set (db1 := d) end. intros Hlat1.
  set (t1 := set_TaskUpdatedAt at_ (set_TaskFailedAttempts (TaskFailedAttempts t + 1) t)).
  assert (tasks db1 !! MsgTaskID m = Some t1) as Et1 by apply lookup_insert_eq.
  apply returns_bind, returns_notify. apply returns_bind, returns_ret. cbn [negb].
  fold (limit_reached policy (JobFailedAttempts j)). fold parked.
  destruct (negb parked && _) eqn:Hb.
  - eapply returns_mono; [by apply (retryTaskAfterFailure_ready clock _ _ _ _ _ _ t1)|].
    intros r w' [-> E]. by exists (requeueTask (at_ + RetryDelay policy) at_ t1).
  - eapply returns_mono; [eapply (parkThenFail_failed clock fuel aid m at_ _ t1 _ parked)|]; try done.
    + apply lookup_insert_eq.
    + eapply Nat.le_lt_trans; [|exact Hfuel]. apply subseteq_size. cbn [wdb].
      rewrite (blockedIDs_same (set_jobs (jobs db1) db) db1) by done.
      apply reflexive_eq. by apply (blockedIDs_insert (TaskJobID t) j).
    + intros r w' [Hf1 Hp]. unfold task_failed in Hf1.
      destruct (tasks (wdb w') !! MsgTaskID m) as [t'|]; [|done]. exists t'. by injection Hf1.
Qed.

Definition samplePolicy : RetryPolicy := mkRetryPolicy 3 (30 * Second) 0.

Definition sampleReport (status : string) : TaskStatusMsg :=
  mkTaskStatusMsg ProtocolVersion "t1" "a1" "j" status (Some 1) "" (Some 20) None "exit status 1".

Definition sampleWorld : World := mkWorld sampleReached 0 [].

Lemma status_message_keeps_store_witness :
  ∃ r w', handleTaskStatusMessage (quiet (λ _, 30)) samplePolicy 1
    (TaskStatusSubject (of_string "w") (of_string "j")) (Some (sampleReport "failed")) 1 sampleWorld
    = Some (r, w') ∧ reachable (wdb w').
Proof.
  apply status_message_keeps_store; [by split|vm_compute; lia|apply sampleReached_reachable].
Defined.

Lemma handleTaskFailed_decides_witness :
  ∃ t j q f, tasks sampleReached !! "t1"%string = Some t ∧ jobs sampleReached !! TaskJobID t = Some j ∧
    queues sampleReached !! JobQueueID j = Some q ∧ farms sampleReached !! JobFarmID j = Some f ∧
    ∃ r w' t', handleTaskFailed (quiet (λ _, 30)) samplePolicy 1 "a1" (sampleReport "failed") 20 sampleWorld
      = Some (r, w') ∧ tasks (wdb w') !! "t1"%string = Some t' ∧
      if negb (limit_reached (ResolveRetryPolicy j q f samplePolicy) (JobFailedAttempts j))
         && (TaskFailedAttempts t + 1 <? MaxAttempts (ResolveRetryPolicy j q f samplePolicy))
      then TaskStatusOf t' = TaskReady else TaskStatusOf t' = TaskFailed.
Proof.
  assert (is_Some (tasks sampleReached !! "t1"%string)) as [t Et] by (vm_compute; eauto).
  assert ((λ t, (TaskJobID t, in_flight (TaskStatusOf t))) <$> tasks sampleReached !! "t1"%string
          = Some ("j"%string, true)) as Ht by (vm_compute; reflexivity).
  rewrite Et in Ht. cbn in Ht. injection Ht as Hj Hfl.
  assert (is_Some (jobs sampleReached !! "j"%string)) as [j Ej] by (vm_compute; eauto).
  assert ((λ j, (JobQueueID j, JobFarmID j)) <$> jobs sampleReached !! "j"%string = Some ("q"%string, "f"%string))
    as Hjq by (vm_compute; reflexivity).
  rewrite Ej in Hjq. cbn in Hjq. injection Hjq as Hq Hf.
  assert (is_Some (queues sampleReached !! "q"%string)) as [q Eq] by (vm_compute; eauto).
  assert (is_Some (farms sampleReached !! "f"%string)) as [f Ef] by (vm_compute; eauto).
  rewrite <- Hj in Ej. rewrite <- Hq in Eq. rewrite <- Hf in Ef.
  exists t, j, q, f. do 4 (split; [assumption|]).
  destruct (handleTaskFailed_decides (λ _, 30) samplePolicy 1 (sampleReport "failed") 20 sampleWorld t j q f
    Et Hfl Ej Eq Ef) as (r & w' & t' & H1 & H2 & H3).
  - vm_compute. reflexivity.
  - vm_compute. reflexivity.
  - discriminate.
  - vm_compute. lia.
  - exists r, w', t'. split; [exact H1|]. split; [exact H2|].
    destruct (negb _ && _); [exact (proj1 (proj2 H3))|exact (proj1 H3)].
Defined.

(** ** Reports that are not the holder's *)

(** A report changes nothing unless it comes from the worker that holds the
    attempt: when the subject does not name a worker, or the attempt is unknown,
    is another task's or belongs to another worker than the subject's, the
    handler writes no row, sends no event and acknowledges the message, so that
    it is not redelivered (a deposed leader leaves it to the new one). *)
Theorem foreign_report_ignored env RetryDefaults fuel subject m delivered w :
  MsgVersion m = ProtocolVersion → MsgTaskID m ≠ ""%string → MsgAttemptID m ≠ ""%string →
  let db := others env (wcalls w) (wdb w) in
  fault env (wcalls w) = None →
  (∀ worker leaf a, ParseWorkerSubject subject = Some (worker, leaf) →
     attempts db !! MsgAttemptID m = Some a →
     AttemptTaskID a ≠ MsgTaskID m ∨ AttemptWorkerID a ≠ of_str worker) →
  ∃ w', handleTaskStatusMessage env RetryDefaults fuel subject (Some m) delivered w =
    Some (Ok (if bool_decide (Deposed ∈ wevents w) then LeftUnacked else Acked), w') ∧
    wevents w' = wevents w ∧ (wdb w' = wdb w ∨ wdb w' = db).
Proof.
  intros Hv Ht Ha db Hfault Hforeign. unfold handleTaskStatusMessage.
  rewrite bool_decide_true, !(bool_decide_false (_ = ""%string)) by done. cbn [negb orb].
  destruct (ParseWorkerSubject subject) as [[worker leaf]|] eqn:EP; [|by exists w; eauto].
  set (w1 := mkWorld db (S (wcalls w)) (wevents w)).
  assert (processTaskStatus env RetryDefaults fuel (of_str worker) m w = Some (Ok tt, w1)) as E.
  { unfold processTaskStatus, GetTaskAttempt, query, call, attempt, mbind, M_bind. rewrite Hfault.
    fold db. unfold get. destruct (attempts db !! MsgAttemptID m) as [a|] eqn:Ea; [|done].
    destruct (Hforeign worker leaf a eq_refl eq_refl) as [Hne|Hne].
    - by rewrite (bool_decide_false (AttemptTaskID a = _)).
    - destruct (bool_decide (AttemptTaskID a = _)); [|done]. cbn [negb].
      by rewrite bool_decide_false by congruence. }
  exists w1. rewrite (bind_ok _ _ w (Ok tt) w1) by by apply attempt_some. split; [done|]. auto.
Qed.

Lemma foreign_report_ignored_witness :
  ∃ w', handleTaskStatusMessage (quiet (λ _, 30)) samplePolicy 1
    (TaskStatusSubject (of_string "other") (of_string "j")) (Some (sampleReport "succeeded")) 1 sampleWorld
    = Some (Ok Acked, w') ∧ wdb w' = wdb sampleWorld.
Proof.
  destruct (foreign_report_ignored (quiet (λ _, 30)) samplePolicy 1
    (TaskStatusSubject (of_string "other") (of_string "j")) (sampleReport "succeeded") 1 sampleWorld)
    as (w' & E & _ & H); [done|done|done|done| |].
  - intros worker leaf a HP Ha. vm_compute in HP. injection HP as <- <-. right.
    assert (AttemptWorkerID <$> attempts (others (quiet (λ _, 30)) (wcalls sampleWorld) (wdb sampleWorld))
              !! MsgAttemptID (sampleReport "succeeded") = Some "w"%string) as Hw
      by (vm_compute; reflexivity).
    rewrite Ha in Hw. injection Hw as ->. discriminate.
  - exists w'. split; [exact E|]. rewrite others_quiet in H. destruct H as [H|H]; exact H.
Defined.

(** ** Redelivery *)

(** The wait before a redelivery doubles from a second up to thirty. *)
Lemma nakDelay_spec n : 1 ≤ n → nakDelay n = Z.min (2 ^ (n - 1)) 30 * Second.
Proof.
  intros Hn. destruct (decide (n ≤ 6)) as [Hs|Hb].
  - assert (n = 1 ∨ n = 2 ∨ n = 3 ∨ n = 4 ∨ n = 5 ∨ n = 6) as H by lia.
    destruct_or! H; subst n; reflexivity.
  - assert (nakDelay n = 30 * Second) as ->.
    { unfold nakDelay, nakBaseDelay, nakMaxDelay, Second. cbn [nakLoop].
      repeat (match goal with |- context [?a <? n] => replace (a <? n) with true by lia end; cbn [andb];
              match goal with |- context [if ?b then _ else _] => let v := eval vm_compute in b in
                change b with v end; cbv iota). reflexivity. }
    assert (2 ^ 6 ≤ 2 ^ (n - 1)) by (apply Z.pow_le_mono_r; lia). lia.
Qed.
