(* ===== verification/Select.v ===== *)
(** * Selecting work for a worker: [internal/scheduler/lease.go],
      [unschedulable.go] and the usage context of [scheduler.go]

    A lease request, from the checks on its sender to the batch it gets; and the
    sweep that tells an operator why a task does not run. *)

From S2P Require Import Prelude StatusText GoText Schema Finalize Attempts Lease Jobs Workers.
From S2P Require Import Sched Policy Match Deps Reconcile Handlers.
Open Scope Z_scope.

(** [sqlCommittedCores]: the cores reserved by the worker's tasks in flight, an
    undeclared reservation counting as [full]. *)
Definition sum_by {A} (f : A → Z) (m : gmap string A) : Z := map_fold (λ _ x acc, f x + acc) 0 m.

Definition committedBy (workerID : string) (full : Z) (t : Task) : Z :=
  if bool_decide (AssignedWorkerID t = Some workerID) && in_flight (TaskStatusOf t)
  then default full (RequiredCores t) else 0.

Definition CommittedCores (db : DB) (workerID : string) (full : Z) : Z :=
  sum_by (committedBy workerID full) (tasks db).

(** [ORDER BY name] *)
Definition ListUsagePools (db : DB) : list (string * UsagePool) :=
  sort_by (λ a b, String.leb (PoolName a.2) (PoolName b.2)) (map_to_list (pools db)).

Definition MaxLimit : nat := 1000.

(** The cores a worker offers, and what a task takes of them. *)
Definition fullCores (c : Capabilities) : Z := if CPUCount c <=? 0 then 1 else CPUCount c.

Definition fullMachineCost (t : Task) (c : Capabilities) : Z :=
  match RequiredCores t with
  | Some n => if n <? 1 then 1 else n
  | None => if 0 <? CPUCount c then CPUCount c else 1
  end.

(** [leaseFromUnregisteredInstance] *)
Definition leaseFromUnregisteredInstance (w : Worker) (instanceID : string) : bool :=
  negb (bool_decide (InstanceID w = ""%string) || bool_decide (instanceID = ""%string)
        || bool_decide (InstanceID w = instanceID)).

(** The request's worker and instance. *)
Record leaseRequest := mkleaseRequest {
  LeaseWorkerID : string;
  LeaseInstanceID : string;
}.

(** What [leaseGatesPass] read. *)
Record leaseGateData := mkleaseGateData {
  gateJob : Job;
  gateStep : Step;
  gateQueue : Queue;
  gatePools : gmap string (string * UsagePool);
}.

Section Select.
Context (env : Surroundings) {tables : CaseTables}.
Context (range : gmap string string → list (string * string)).
(** [cfg.FarmID], [cfg.AssignBatchSize], [cfg.ExprLimits] and
    [cfg.UnschedulableGrace]. *)
Context (FarmID : string) (AssignBatchSize : nat) (srv : ServerExprLimits) (UnschedulableGrace : Z).
(** [uuid.NewString]: the [k]-th drawn before the [n]-th call. *)
Context (uuid : nat → nat → string).
(** The assignment message: what [buildAssignPayload] takes from the job's template
    for the step, [None] when it does not parse or has no such step, and the message
    built from it, [None] when a location it refers to cannot be resolved. *)
Context {Template Payload : Type}.
Context (stepTemplate : Job → Step → option Template).
Context (assemble : Template → string → Task → Worker → Queue → string → option Payload).
(** The rows of a listing of workers in its order. *)
Context (listed : gmap string Worker → list (string * Worker)).

(** ** Reads *)

Definition GetStep (id : string) : M Step := query env (λ db, get (steps db) id).
Definition GetWorker (id : string) : M Worker := query env (λ db, get (workers db) id).

(** ** Usage pools *)

Definition requiredPools (step : Step) : list string :=
  match HostRequirements step with Some hr => UsagePools hr | None => [] end.

Definition poolsByName (ps : list (string * UsagePool)) : gmap string (string * UsagePool) :=
  fold_left (λ m p, <[lowered (PoolName p.2) := p]> m) ps ∅.

Fixpoint activeCountsOf (names : list string) (ps : gmap string (string * UsagePool))
    (counts : gmap string Z) : M (gmap string Z) :=
  match names with
  | [] => mret counts
  | name :: names' =>
      match ps !! lowered name with
      | None => activeCountsOf names' ps counts
      | Some (id, _) =>
          n ← query env (λ db, Ok (ActiveClaimCount db id));
          activeCountsOf names' ps (<[lowered name := n]> counts)
      end
  end.

Definition buildUsageContext (step : Step)
    : M (gmap string (string * UsagePool) * gmap string Z) :=
  match requiredPools step with
  | [] => mret (∅, ∅)
  | names =>
      all ← query env (λ db, Ok (ListUsagePools db));
      let ps := poolsByName all in
      counts ← activeCountsOf names ps ∅;
      mret (ps, counts)
  end.

Fixpoint usageClaims (draw : nat → string) (k : nat) (names : list string)
    (ps : gmap string (string * UsagePool)) : list UsagePoolClaim :=
  match names with
  | [] => []
  | name :: names' =>
      match ps !! lowered name with
      | None => usageClaims draw k names' ps
      | Some (id, p) => mkUsagePoolClaim (draw k) id (PoolName p) :: usageClaims draw (S k) names' ps
      end
  end.

Definition buildUsageClaims (draw : nat → string) (step : Step) (ps : gmap string (string * UsagePool))
    : list UsagePoolClaim :=
  usageClaims draw 0 (requiredPools step) ps.

(** ** The gates *)

Definition workerExprShortfall (w : Worker) : string := exprCapShortfall (ExprLimits (Caps w)) srv.

Definition leaseGatesPass (task : Task) (w : Worker) (exprShortfall : string)
    : M (option leaseGateData) :=
  job ← GetJob env (TaskJobID task);
  if bool_decide (JobStatusOf job = JobPaused) || job_terminal (JobStatusOf job) then mret None
  else if negb (bool_decide (workerCompatBlock exprShortfall w job = ""%string)) then mret None
  else
    step ← GetStep (TaskStepID task);
    queue ← GetQueue env (JobQueueID job);
    farm ← GetFarm env (JobFarmID job);
    room ← policyGate env job queue farm;
    if negb room then mret None
    else
      ctx ← buildUsageContext step;
      if WorkerEligible range w job step ctx.1 ctx.2
      then mret (Some (mkleaseGateData job step queue ctx.1)) else mret None.

(** ** Leasing *)

Definition new_uuid (k : nat) : M string := λ w, Some (Ok (uuid (wcalls w) k), w).
Definition draws : M (nat → string) := λ w, Some (Ok (λ k, uuid (wcalls w) (S k)), w).

(** The template is read before the storage locations are. *)
Definition buildAssignPayload (taskID : string) (task : Task) (w : Worker) (gd : leaseGateData)
    (attemptID : string) : M Payload :=
  match stepTemplate (gateJob gd) (gateStep gd) with
  | None => fail ErrUnavailable
  | Some tmpl =>
      _ ← query env (λ _, Ok tt);
      match assemble tmpl taskID task w (gateQueue gd) attemptID with
      | Some p => mret p
      | None => fail ErrUnavailable
      end
  end.

(** The payload and its cost when the task was leased. *)
Definition tryLeaseTask (taskID : string) (task : Task) (workerID : string) (w : Worker) (free : Z)
    (exprShortfall : string) : M (option (Payload * Z)) :=
  let cost := fullMachineCost task (Caps w) in
  if free <? cost then mret None
  else
    gates ← leaseGatesPass task w exprShortfall;
    match gates with
    | None => mret None
    | Some gd =>
        attemptID ← new_uuid 0;
        draw ← draws;
        t ← time_Now env;
        res ← call env (LeaseTask (mkLeaseRequest taskID workerID attemptID t
                 (buildUsageClaims draw (gateStep gd) (gatePools gd))));
        match res with
        | LeaseLeased aid a =>
            _ ← notify (Cached aid (AttemptWorkerID a) (AttemptTaskID a));
            p ← buildAssignPayload taskID task w gd aid;
            mret (Some (p, cost))
        | _ => mret None
        end
    end.

(** The batch, with the error that cut it short. *)
Fixpoint leaseLoop (cands : list ReadyRow) (workerID : string) (w : Worker) (exprShortfall : string)
    (free : Z) (batch : list Payload) : M (list Payload * option CallErr) :=
  match cands with
  | [] => mret (batch, None)
  | row :: cands' =>
      if free <=? 0 then mret (batch, None)
      else
        r ← attempt (tryLeaseTask (RowID row) (RowTask row) workerID w free exprShortfall);
        match r with
        | Err e => mret (batch, Some e)
        | Ok None => leaseLoop cands' workerID w exprShortfall free batch
        | Ok (Some (p, cost)) =>
            leaseLoop cands' workerID w exprShortfall (free - cost) (batch ++ [p])
        end
  end.

Definition selectLeaseBatch (workerID : string) (w : Worker) : M (list Payload * option CallErr) :=
  let full := fullCores (Caps w) in
  r ← attempt (query env (λ db, Ok (CommittedCores db workerID full)));
  match r with
  | Err e => mret ([], Some e)
  | Ok committed =>
      let free := full - committed in
      if free <=? 0 then mret ([], None)
      else
        t ← time_Now env;
        c ← attempt (query env (λ db, Ok (ListReadyTasks FarmID t AssignBatchSize db)));
        match c with
        | Err e => mret ([], Some e)
        | Ok cands => leaseLoop cands workerID w (workerExprShortfall w) free []
        end
  end.

(** ** Requests *)

Definition leaseAfterPark (workerID instanceID : string) : M (list Payload) :=
  d ← deposed;
  if d : bool then mret []
  else
    r ← attempt (GetWorker workerID);
    match r with
    | Err _ => mret []
    | Ok w =>
        if Disabled w || bool_decide (WorkerStatusOf w = WorkerOffline)
           || leaseFromUnregisteredInstance w instanceID
        then mret []
        else
          b ← selectLeaseBatch workerID w;
          _ ← (match b.2 with Some e => stopIfFenced e | None => mret true end);
          mret b.1
    end.

(** [payload] is the decoded request; [woken] whether the wait of a parked request
    ends by a wake. *)
Definition handleLeaseRequest (workerID : string) (payload : option leaseRequest) (woken : bool)
    : M (list Payload) :=
  d ← deposed;
  if d : bool then mret []
  else match payload with
  | None => mret []
  | Some req =>
      if bool_decide (LeaseWorkerID req = ""%string) then mret []
      else if negb (bool_decide (LeaseWorkerID req = workerID)) then mret []
      else
        r ← attempt (GetWorker workerID);
        match r with
        | Err _ => mret []
        | Ok w =>
            if Disabled w then
              if woken then leaseAfterPark workerID (LeaseInstanceID req) else mret []
            else if leaseFromUnregisteredInstance w (LeaseInstanceID req) then mret []
            else
              b ← selectLeaseBatch workerID w;
              match b with
              | (batch, Some e) => _ ← stopIfFenced e; mret batch
              | ([], None) =>
                  if woken then leaseAfterPark workerID (LeaseInstanceID req) else mret []
              | (batch, None) => mret batch
              end
        end
  end.

(** ** Why a task does not run *)

(** Online workers of the farm and unaffiliated ones, a page of them. *)
Definition onlineWorkers : M (list (string * Worker)) :=
  query env (λ db, Ok (take MaxLimit (listed (matching (λ _ w,
    bool_decide (EffectiveStatus w = WorkerOnline)
    && (bool_decide (FarmID = ""%string) || bool_decide (WorkerFarmID w = Some FarmID)
        || bool_decide (WorkerFarmID w = None))) (workers db))))).

Fixpoint lastReason (ws : list (string * Worker)) (job : Job) (step : Step)
    (ps : gmap string (string * UsagePool)) (counts : gmap string Z) (last : string) : option string :=
  match ws with
  | [] => Some last
  | (_, w) :: ws' =>
      match workerEligible range w job step ps counts with
      | rejectNone =>
          let compat := workerCompatBlock (workerExprShortfall w) w job in
          if bool_decide (compat = ""%string) then None
          else lastReason ws' job step ps counts compat
      | r => lastReason ws' job step ps counts (rejection_String r)
      end
  end.

Definition evaluateSchedulability (task : Task) (ws : list (string * Worker)) : M string :=
  match ws with
  | [] => mret "no online workers"%string
  | _ =>
      r ← attempt (job ← GetJob env (TaskJobID task);
                   step ← GetStep (TaskStepID task);
                   ctx ← buildUsageContext step;
                   mret (job, step, ctx));
      match r with
      | Err _ => mret ""%string
      | Ok (job, step, ctx) =>
          mret (match lastReason ws job step ctx.1 ctx.2 "" with
                | None => ""%string
                | Some reason => of_str (of_string "no eligible online worker: " ++ of_string reason)
                end)
      end
  end.

Definition reconcileTaskSchedulability (taskID : string) (task : Task) (ws : list (string * Worker))
    : M unit :=
  reason ← evaluateSchedulability task ws;
  if bool_decide (reason = UnschedulableReason task) then mret tt
  else
    t ← time_Now env;
    r ← attempt (call env (SetTaskUnschedulableReason taskID reason t));
    match r with
    | Err e => _ ← stopIfFenced e; mret tt
    | Ok written =>
        if written : bool then notify (TaskEvent (TaskJobID task) taskID (TaskStatusOf task))
        else mret tt
    end.

Fixpoint unschedulableLoop (rows : list ReadyRow) (cutoff : Z) (ws : list (string * Worker)) : M unit :=
  match rows with
  | [] => mret tt
  | row :: rows' =>
      d ← deposed;
      if d : bool then mret tt
      else
        let t := RowTask row in
        _ ← (if bool_decide (UnschedulableReason t = ""%string) && (cutoff <? TaskUpdatedAt t)
             then mret tt
             else reconcileTaskSchedulability (RowID row) t ws);
        unschedulableLoop rows' cutoff ws
  end.

Definition sweepUnschedulable : M unit :=
  if UnschedulableGrace <=? 0 then mret tt
  else
    t ← time_Now env;
    let cutoff := t - UnschedulableGrace in
    t2 ← time_Now env;
    r ← attempt (query env (λ db, Ok (ListReadyTasks FarmID t2 MaxLimit db)));
    match r with
    | Err _ | Ok [] => mret tt
    | Ok ready =>
        ws ← attempt onlineWorkers;
        match ws with
        | Err _ => mret tt
        | Ok ws => unschedulableLoop ready cutoff ws
        end
    end.
End Select.
