(* ===== verification/Selecting.v ===== *)
(** * What a lease request hands out

    A worker's cores are never oversubscribed, whatever other writers do between
    the scheduler's calls; and the verdict of the unschedulable sweep against the
    gates of a lease. *)

From S2P Require Import Prelude StatusText GoText Schema Sample Finalize Attempts Lease Jobs Workers Evolve Keeps.
From S2P Require Import StoreInv Outcomes Sched Policy Match Deps Reconcile Handlers Select.
Open Scope Z_scope.

(** ** Sums over a table *)

Section Sums.
Context {A : Type} (f : A → Z).

Lemma sum_by_empty : sum_by f ∅ = 0.
Proof. apply map_fold_empty. Qed.

Lemma sum_by_insert m k x : m !! k = None → sum_by f (<[k := x]> m) = f x + sum_by f m.
Proof.
  intros E. unfold sum_by.
  apply (map_fold_insert_L (λ _ y acc, f y + acc) 0 k x m); [|done]. intros. lia.
Qed.

Lemma sum_by_delete m k x : m !! k = Some x → sum_by f m = f x + sum_by f (delete k m).
Proof.
  intros E. rewrite <- (sum_by_insert _ k) by apply lookup_delete_eq. by rewrite insert_delete_id.
Qed.

Lemma sum_by_nonneg m : (∀ k x, m !! k = Some x → 0 ≤ f x) → 0 ≤ sum_by f m.
Proof.
  induction m as [|k x m E IH] using map_ind; intros H; [by rewrite sum_by_empty|].
  rewrite sum_by_insert by done. specialize (H k x (lookup_insert_eq _ _ _)) as Hx.
  assert (0 ≤ sum_by f m); [|lia]. apply IH. intros k' x' E'. apply (H k'). rewrite lookup_insert_ne; congruence.
Qed.

(** Rows that count in the second table counted as much in the first. *)
Lemma sum_by_le m m' :
  (∀ k x, m !! k = Some x → 0 ≤ f x) →
  (∀ k x', m' !! k = Some x' → f x' = 0 ∨ ∃ x, m !! k = Some x ∧ f x' = f x) →
  sum_by f m' ≤ sum_by f m.
Proof.
  revert m. induction m' as [|k x' m' E IH] using map_ind; intros m Hp H.
  { rewrite sum_by_empty. by apply sum_by_nonneg. }
  rewrite sum_by_insert by done.
  assert (∀ n, (∀ j, j ≠ k → n !! j = m !! j) → (∀ j x, n !! j = Some x → 0 ≤ f x) →
    sum_by f m' ≤ sum_by f n) as Hrest.
  { intros n Hn Hpn. apply IH; [done|]. intros j y Ej. assert (j ≠ k) as Hne by congruence.
    rewrite (Hn j Hne). apply H. by rewrite lookup_insert_ne by done. }
  destruct (H k x' (lookup_insert_eq _ _ _)) as [-> |(x & Ex & ->)].
  - apply Hrest; [done|exact Hp].
  - rewrite (sum_by_delete m k x Ex). apply Zplus_le_compat_l, Hrest.
    + intros j Hj. by rewrite lookup_delete_ne.
    + intros j y Ej. apply (Hp j). by apply lookup_delete_Some in Ej as [_ ?].
Qed.
End Sums.

(** ** Tasks and their reservations *)

(** Where a task row of the database after a command comes from. *)
Lemma run_task_row o db k t' :
  allowed o db = true → tasks (run o db) !! k = Some t' →
  (∃ t, tasks db !! k = Some t ∧ task_kept t t') ∨
  (∃ clock order sub n now t at_, o = OpSubmit clock order sub n now ∧
     (k, t) ∈ SubTasks sub ∧ t' = stamp_task at_ t) ∨
  (∃ req t, o = OpLease req ∧ k = ReqTaskID req ∧ tasks db !! k = Some t ∧
     TaskStatusOf t = TaskReady ∧ t' = leaseTask (ReqWorkerID req) (ReqNow req) t).
Proof.
  intros Ha E'. pose proof (run_keeps o db Ha) as HK.
  assert (∀ d, Keeps db d → tasks d !! k = Some t' → ∃ t, tasks db !! k = Some t ∧ task_kept t t') as Hkeep.
  { intros d [[Ht _ _] _] Ed. by apply (pointwise_some_inv _ _ _ _ _ Ht). }
  assert (task_kept t' t') as Hrefl by by repeat split.
  destruct o; try (left; by eapply Hkeep); cbn [run] in E'.
  - destruct (CreateJobSubmission_new clock order sub batchRows now db) as [H|(_ & _ & _ & _ & Ht)].
    { rewrite H in E'. eauto. }
    destruct (Ht _ _ E') as [E|(t & at_ & Hin & ->)]; [eauto|]. right; left. by repeat eexists.
  - destruct (LeaseTask req db) as [r db'] eqn:E.
    destruct (LeaseTask_outcome _ _ _ _ E) as [(aid & a & ->)|[-> _]]; [|by eauto].
    apply LeaseTask_leased in E as (t & j & q & f & _ & [Ht Hr _ _ Et _ _ _ _ _] & _).
    cbn in E'. rewrite Et in E'. destruct (decide (ReqTaskID req = k)) as [<-|Hne].
    + rewrite lookup_insert_eq in E'. injection E' as <-. right; right. by exists req, t.
    + rewrite lookup_insert_ne in E' by done. eauto.
  - pose proof (DeleteJob_shrinks id db) as Hs. left. exists t'. split; [|done].
    by apply (lookup_weaken _ _ _ _ E'), Hs.
  - left. exists t'. split; [|done]. apply (lookup_weaken _ _ _ _ E').
    apply purgeExpiredJob_shrinks.
Qed.

(** What is submitted waits and reserves a core at least. *)
Lemma submitted_task sub k t :
  submissionBuilt sub = true → (k, t) ∈ SubTasks sub →
  task_waiting (TaskStatusOf t) = true ∧ ∀ c, RequiredCores t = Some c → 1 ≤ c.
Proof.
  unfold submissionBuilt. intros [[_ Hw]%andb_prop Hc]%andb_prop Hin.
  rewrite forallb_forall in Hw, Hc. apply list_elem_of_In in Hin.
  specialize (Hw _ Hin). specialize (Hc _ Hin). cbn in Hw, Hc.
  apply andb_prop in Hw as [_ Hw]. split; [done|]. intros c E. rewrite E in Hc. by apply Z.leb_le.
Qed.

(** Every reservation is of a core at least. *)
Definition ReservesCores (db : DB) : Prop :=
  ∀ k t c, tasks db !! k = Some t → RequiredCores t = Some c → 1 ≤ c.

Lemma reachable_reserves db : reachable db → ReservesCores db.
Proof.
  induction 1 as [|db o Hr IH Ha]; intros k t' c E Hc.
  { cbn in E. by rewrite lookup_empty in E. }
  destruct (run_task_row o db k t' Ha E) as
    [(t & Et & _ & _ & Hq & _)|[(clk & ord & sub & n & now & t & at_ & -> & Hin & ->)
    |(req & t & _ & _ & Et & _ & ->)]].
  - apply (IH k t c Et). congruence.
  - by apply (submitted_task sub k t Ha Hin).
  - by apply (IH k t c Et).
Qed.

(** ** A worker's cores *)

Section Cores.
Context (wid : string) (full : Z) (Hfull : 1 ≤ full).
(** The reservation each task ID stands for: IDs are UUIDs, never reused. *)
Context (cores : string → option Z).

(** A command that leases nothing to the worker and submits no task under an ID
    of another. *)
Definition elsewhere (o : Op) : Prop :=
  match o with
  | OpLease req => ReqWorkerID req ≠ wid
  | OpSubmit _ _ sub _ _ => ∀ k t, (k, t) ∈ SubTasks sub → RequiredCores t = cores k
  | _ => True
  end.

Definition Identified (db : DB) : Prop :=
  ∀ k t, tasks db !! k = Some t → RequiredCores t = cores k.

(** A reachable database in which the worker's tasks take at most [b] cores. *)
Definition Within (b : Z) (db : DB) : Prop :=
  reachable db ∧ Identified db ∧ CommittedCores db wid full ≤ b.

Lemma committedBy_nonneg db k t : reachable db → tasks db !! k = Some t → 0 ≤ committedBy wid full t.
Proof using Hfull.
  intros Hr E. unfold committedBy. destruct (_ && _); [|done].
  destruct (RequiredCores t) as [c|] eqn:Ec; cbn; [|lia].
  pose proof (reachable_reserves db Hr k t c E Ec). lia.
Qed.

Lemma committedBy_kept t t' :
  task_kept t t' → committedBy wid full t' = 0 ∨ committedBy wid full t' = committedBy wid full t.
Proof.
  intros (_ & _ & Hc & Hf). unfold committedBy. destruct (in_flight (TaskStatusOf t')) eqn:E.
  - destruct (Hf eq_refl) as [-> ->]. rewrite Hc. auto.
  - left. by rewrite andb_false_r.
Qed.

Lemma run_identified o db :
  allowed o db = true → match o with OpLease _ => True | _ => elsewhere o end →
  Identified db → Identified (run o db).
Proof.
  intros Ha Ho Hi k t' E. destruct (run_task_row o db k t' Ha E) as
    [(t & Et & _ & _ & Hq & _)|[(clk & ord & sub & n & now & t & at_ & -> & Hin & ->)
    |(req & t & _ & _ & Et & _ & ->)]].
  - rewrite Hq. eauto.
  - by apply (Ho k t).
  - cbn. eauto.
Qed.

Lemma run_elsewhere b o db : allowed o db = true → elsewhere o → Within b db → Within b (run o db).
Proof using Hfull.
  intros Ha Ho (Hr & Hi & Hb). split; [by apply reach_step|]. split; [by apply run_identified; [|destruct o|]|].
  etrans; [|exact Hb]. apply sum_by_le; [intros k t; by apply committedBy_nonneg|].
  intros k t' E. destruct (run_task_row o db k t' Ha E) as
    [(t & Et & Hk)|[(clk & ord & sub & n & now & t & at_ & -> & Hin & ->)
    |(req & t & -> & -> & Et & Hst & ->)]].
  - destruct (committedBy_kept t t' Hk); eauto.
  - left. destruct (submitted_task sub k t Ha Hin) as [Hw _]. unfold committedBy. cbn.
    destruct (TaskStatusOf t); try done; by rewrite andb_false_r.
  - left. unfold committedBy. cbn. by rewrite bool_decide_false by by intros [= H]; apply Ho.
Qed.

Lemma run_all_elsewhere b os db db' :
  Forall elsewhere os → run_all os db = Some db' → Within b db → Within b db'.
Proof using Hfull.
  revert db. induction os as [|o os IH]; intros db Hos; cbn [run_all]; [by intros [= ->]|].
  apply Forall_cons in Hos as [Ho Hos]. destruct (allowed o db) eqn:Ha; [|done]. intros H HW.
  apply (IH (run o db)); [done..|]. by apply run_elsewhere.
Qed.

(** A lease to the worker takes what the task's ID stands for. *)
Lemma lease_Within b req aid a db db' :
  ReqWorkerID req = wid → LeaseTask req db = (Ok (LeaseLeased aid a), db') →
  Within b db → Within (b + default full (cores (ReqTaskID req))) db'.
Proof.
  intros Hw E (Hr & Hi & Hb).
  assert (db' = run (OpLease req) db) as Hrun by (cbn; by rewrite E).
  split; [rewrite Hrun; by apply reach_step|].
  split; [rewrite Hrun; by apply run_identified|].
  apply LeaseTask_leased in E as (t & j & q & f & _ & [Ht Hrd _ _ Et _ _ _ _ _] & _).
  unfold CommittedCores in *. rewrite Et.
  rewrite <- (insert_id _ _ _ Ht) in Hb. rewrite <- insert_delete_eq in Hb |- *.
  rewrite sum_by_insert in Hb |- * by apply lookup_delete_eq.
  assert (committedBy wid full t = 0) as E0.
  { unfold committedBy. by rewrite Hrd, andb_false_r. }
  assert (committedBy wid full (leaseTask (ReqWorkerID req) (ReqNow req) t) =
          default full (cores (ReqTaskID req))) as E1.
  { unfold committedBy. cbn. rewrite Hw, bool_decide_true by done. cbn. by rewrite (Hi _ _ Ht). }
  lia.
Qed.

(** ** The selection *)

Context (env : Surroundings).
(** What other writers do before each call. *)
Context (Hothers : ∀ n db, ∃ os, Forall elsewhere os ∧ run_all os db = Some (others env n db)).

Lemma others_Within b n db : Within b db → Within b (others env n db).
Proof using Hfull Hothers.
  intros HW. destruct (Hothers n db) as (os & Hos & E). by apply (run_all_elsewhere b os db).
Qed.

Context {tables : CaseTables} (range : gmap string string → list (string * string)).

Lemma buildUsageContext_keeps b step : keeps true (Within b) (buildUsageContext env step).
Proof using Hfull Hothers.
  assert (∀ names ps counts, keeps true (Within b) (activeCountsOf env names ps counts)) as Hc.
  { induction names as [|name names IH]; intros ps counts; cbn [activeCountsOf]; keep_steps; try apply IH.
    apply others_Within. }
  unfold buildUsageContext. keep_steps; try apply Hc; apply others_Within.
Qed.

Lemma leaseGatesPass_keeps b task w short :
  keeps true (Within b) (leaseGatesPass env range task w short).
Proof using Hfull Hothers.
  unfold leaseGatesPass, GetJob, GetStep, GetQueue, GetFarm, policyGate.
  keep_steps; try apply others_Within; apply buildUsageContext_keeps.
Qed.

Context (FarmID : string) (AssignBatchSize : nat) (srv : ServerExprLimits).
Context (uuid : nat → nat → string) {Template Payload : Type}.
Context (stepTemplate : Job → Step → option Template).
Context (assemble : Template → string → Task → Worker → Queue → string → option Payload).

Lemma buildAssignPayload_keeps b taskID task w gd aid :
  keeps true (Within b) (buildAssignPayload env stepTemplate assemble taskID task w gd aid).
Proof using Hfull Hothers. unfold buildAssignPayload. keep_steps. apply others_Within. Qed.

Lemma Within_weaken b b' db : b ≤ b' → Within b db → Within b' db.
Proof. intros Hle (? & ? & ?). split_and!; [done..|lia]. Qed.

Lemma tryLeaseTask_fits taskID task w free short wo :
  0 ≤ free → fullCores (Caps w) = full → RequiredCores task = cores taskID →
  Within (full - free) (wdb wo) →
  returns (tryLeaseTask env range uuid stepTemplate assemble taskID task wid w free short) wo (λ r w',
    match r with
    | Ok None => Within (full - free) (wdb w')
    | Ok (Some (_, cost)) => Within (full - (free - cost)) (wdb w') ∧ 0 ≤ free - cost
    | Err _ => Within full (wdb w')
    end).
Proof using Hfull Hothers.
  intros Hfree Hw Hrow HW. unfold tryLeaseTask. set (cost := fullMachineCost task (Caps w)).
  destruct (free <? cost) eqn:Ec; [by apply returns_ret|]. apply Z.ltb_ge in Ec.
  assert (default full (cores taskID) ≤ cost) as Hcost.
  { subst cost. unfold fullMachineCost, fullCores in *. rewrite <- Hrow.
    destruct (RequiredCores task) as [c|]; cbn; [destruct (c <? 1) eqn:?; zbool; lia|].
    destruct (CPUCount (Caps w) <=? 0) eqn:E1, (0 <? CPUCount (Caps w)) eqn:E2; zbool; lia. }
  apply returns_bind.
  destruct (keeps_returns _ _ wo (leaseGatesPass_keeps (full - free) task w short) HW) as (r & w1 & E & HW1).
  exists r, w1. split; [done|].
  destruct r as [[gd|]|e]; [|by apply returns_ret|by apply (Within_weaken (full - free)); [lia|]].
  do 3 (apply returns_bind; eexists _, _; split; [reflexivity|]; cbn beta iota).
  apply returns_bind, returns_call; cbn [wdb].
  { intros e _. apply (Within_weaken (full - free)); [lia|]. by apply others_Within. }
  intros _. set (req := mkLeaseRequest _ _ _ _ _). set (db := others env _ _).
  assert (Within (full - free) db) as HW2 by by apply others_Within.
  destruct (LeaseTask req db) as [res db'] eqn:El. cbn [fst snd].
  destruct (LeaseTask_outcome _ _ _ _ El) as [(aid & a & ->)|[-> Hres]].
  - apply (lease_Within (full - free)) in El; [|done..]. cbn [ReqTaskID req] in El.
    apply returns_bind, returns_notify. apply returns_bind.
    assert (Within (full - (free - cost)) db') as HW3 by (eapply Within_weaken; [|exact El]; subst req; cbn; lia).
    eapply returns_mono.
    { apply (keeps_returns_post _ _ _ (buildAssignPayload_keeps (full - (free - cost)) taskID task w gd aid)).
      exact HW3. }
    intros [p|e] w3 HW4; cbn; [|by apply (Within_weaken (full - (free - cost))); [lia|]].
    apply returns_ret. split; [done|lia].
  - destruct res as [[aid a| | | |]|e]; [by destruct (Hres aid a)|by apply returns_ret..|].
    by apply (Within_weaken (full - free)); [lia|].
Qed.

Lemma leaseLoop_fits cands w short free batch wo :
  0 ≤ free → fullCores (Caps w) = full →
  (∀ row, row ∈ cands → RequiredCores (RowTask row) = cores (RowID row)) →
  Within (full - free) (wdb wo) →
  returns (leaseLoop env range uuid stepTemplate assemble cands wid w short free batch) wo
    (λ r w', (∃ x, r = Ok x) ∧ Within full (wdb w')).
Proof using Hfull Hothers.
  intros Hfree Hw. revert free batch wo Hfree.
  induction cands as [|row cands IH]; intros free batch wo Hfree Hrows HW; cbn [leaseLoop].
  { apply returns_ret. split; [eauto|]. by apply (Within_weaken (full - free)); [lia|]. }
  destruct (free <=? 0).
  { apply returns_ret. split; [eauto|]. by apply (Within_weaken (full - free)); [lia|]. }
  apply returns_bind, returns_attempt. eapply returns_mono.
  { apply tryLeaseTask_fits; [done..|apply Hrows; left|done]. }
  intros [[[p cost]|]|e] w1 H; cbn.
  - destruct H as [H1 H2]. apply IH; [done| |done]. intros r Hr. apply Hrows. by right.
  - apply IH; [done| |done]. intros r Hr. apply Hrows. by right.
  - apply returns_ret. eauto.
Qed.

(** The rows of the ready list are the tasks they name. *)
Lemma ListReadyTasks_rows db farm t n row :
  row ∈ ListReadyTasks farm t n db → tasks db !! RowID row = Some (RowTask row).
Proof.
  unfold ListReadyTasks, readyRows. intros (i & H%list_elem_of_lookup_2 & _)%elem_of_take.
  rewrite sort_by_perm in H.
  apply list_elem_of_filter in H as [_ H].
  apply list_elem_of_omap in H as ([k x] & Hin & Hj). apply elem_of_map_to_list in Hin.
  unfold joinRow in Hj. cbn in Hj. repeat case_match; simplify_option_eq; done.
Qed.

(** C10. A worker's cores are never oversubscribed.  Whatever other writers do
    between the calls of a selection (reports, cancellations, reclaims,
    submissions, leases to other workers; the lock per worker keeps a second
    selection for this one out) and whichever calls fail, the selection ends, and
    afterwards the worker's tasks in flight reserve no more than the cores it
    offers, or no more than they did before. *)
Theorem lease_fits_worker w wo :
  fullCores (Caps w) = full → reachable (wdb wo) → Identified (wdb wo) →
  ∃ batch err wo',
    selectLeaseBatch env range FarmID AssignBatchSize srv uuid stepTemplate assemble wid w wo
      = Some (Ok (batch, err), wo') ∧
    reachable (wdb wo') ∧
    CommittedCores (wdb wo') wid full ≤ Z.max full (CommittedCores (wdb wo) wid full).
Proof using Hfull Hothers.
  intros Hw Hr Hi. set (b := CommittedCores (wdb wo) wid full).
  assert (Within b (wdb wo)) as HW by done.
  enough (returns (selectLeaseBatch env range FarmID AssignBatchSize srv uuid stepTemplate assemble wid w) wo
    (λ r w', (∃ x, r = Ok x) ∧ Within (Z.max full b) (wdb w'))) as (r & wo' & E & [[batch err] ->] & H1 & _ & H2).
  { by exists batch, err, wo'. }
  assert (∀ db, Within b db → Within (Z.max full b) db) as Hmax by (intros db; apply Within_weaken; lia).
  unfold selectLeaseBatch. rewrite Hw. apply returns_bind, returns_attempt, returns_call.
  { intros e _. apply returns_ret. split; [eauto|]. by apply Hmax, others_Within. }
  intros _. cbn [fst snd wdb]. set (db := others env _ _).
  assert (Within b db) as HW1 by by apply others_Within.
  set (free := full - CommittedCores db wid full).
  destruct (free <=? 0) eqn:Ef; [apply returns_ret; eauto|]. apply Z.leb_gt in Ef.
  apply returns_bind, returns_time, returns_bind, returns_attempt.
  assert (Within (full - free) db) as HW2 by (destruct HW1 as (? & ? & _); split_and!; [done..|lia]).
  apply returns_call; cbn [wdb wcalls].
  { intros e _. apply returns_ret. split; [eauto|]. by apply Hmax, others_Within. }
  intros _. cbn [fst snd wdb]. set (db2 := others env _ db).
  assert (Within (full - free) db2) as HW3 by by apply others_Within.
  eapply returns_mono.
  - apply leaseLoop_fits; [lia|done| |exact HW3]. intros row Hrow%ListReadyTasks_rows. by apply HW3.
  - intros r w' [Hx H]. split; [done|]. by apply (Within_weaken full); [lia|].
Qed.
End Cores.

(** ** A sample selection *)

(** The sample farm with its job submitted, nothing leased yet. *)
Definition sampleReady : DB :=
  default emptyDB (run_all (take 3 sampleOps) emptyDB).

Lemma sampleReady_reachable : reachable sampleReady.
Proof.
  unfold sampleReady. destruct (run_all _ _) as [db|] eqn:E; [|apply reach_empty].
  by apply (run_all_reachable (take 3 sampleOps) emptyDB); [apply reach_empty|].
Qed.

Definition sampleRange (m : gmap string string) : list (string * string) := map_to_list m.
Definition sampleLimits : ServerExprLimits := mkServerExprLimits 10000 1000000 10000 10000000.
Definition sampleUUID (n k : nat) : string := of_str (of_string "u" ++ Itoa (Z.of_nat (10 * n + k))).

Definition sampleSelect : M (list string * option CallErr) :=
  selectLeaseBatch (tables := asciiTables) (quiet (λ n, 100 + Z.of_nat n)) sampleRange "" 50 sampleLimits
    sampleUUID (λ _ _, Some tt) (λ _ taskID _ _ _ _, Some taskID) "w" (Sample.worker false).

Lemma lease_fits_worker_witness :
  ∃ batch err wo', sampleSelect (mkWorld sampleReady 0 []) = Some (Ok (batch, err), wo') ∧
    reachable (wdb wo') ∧ CommittedCores (wdb wo') "w" 8 ≤ 8.
Proof.
  destruct (lease_fits_worker "w" 8 ltac:(done) (λ _, None) (quiet (λ n, 100 + Z.of_nat n))
    (λ _ db, ex_intro _ [] (conj (Forall_nil_2 _) eq_refl)) (tables := asciiTables) sampleRange "" 50 sampleLimits
    sampleUUID (λ _ _, Some tt) (λ _ taskID _ _ _ _, Some taskID) (Sample.worker false)
    (mkWorld sampleReady 0 [])) as (batch & err & wo' & E & H1 & H2).
  - reflexivity.
  - apply sampleReady_reachable.
  - intros k t E. cbn [wdb] in E. assert (map_Forall (λ _ t, RequiredCores t = None) (tasks sampleReady)) as H.
    { apply (bool_decide_unpack _). vm_compute. exact I. }
    by apply (H k).
  - exists batch, err, wo'. split; [exact E|]. split; [exact H1|].
    replace (Z.max 8 (CommittedCores sampleReady "w" 8)) with 8 in H2 by (vm_compute; reflexivity). exact H2.
Defined.

(** The sample selection leases one task, the queue's cap. *)
Lemma sampleSelect_leases :
  ∃ wo', sampleSelect (mkWorld sampleReady 0 []) = Some (Ok (["t1"%string], None), wo') ∧
    CommittedCores (wdb wo') "w" 8 = 8.
Proof. eexists. split; [vm_compute; reflexivity|]. vm_compute. reflexivity. Qed.

(** ** What a request writes *)

Section Requests.
Context (env : Surroundings) (P : DB → Prop) (Hothers : ∀ n db, P db → P (others env n db)).
Context {tables : CaseTables} (range : gmap string string → list (string * string)).
Context (FarmID : string) (AssignBatchSize : nat) (srv : ServerExprLimits).
Context (uuid : nat → nat → string) {Template Payload : Type}.
Context (stepTemplate : Job → Step → option Template).
Context (assemble : Template → string → Task → Worker → Queue → string → option Payload).

Lemma gates_keep task w short : keeps true P (leaseGatesPass env range task w short).
Proof using Hothers.
  assert (∀ names ps counts, keeps true P (activeCountsOf env names ps counts)) as Hc.
  { induction names as [|name names IH]; intros ps counts; cbn [activeCountsOf]; keep_steps; apply IH. }
  unfold leaseGatesPass, GetJob, GetStep, GetQueue, GetFarm, policyGate, buildUsageContext.
  keep_steps; apply Hc.
Qed.

Context (workerID : string).

Lemma select_keeps w :
  (∀ req db, ReqWorkerID req = workerID → P db → P (LeaseTask req db).2) →
  keeps true P (selectLeaseBatch env range FarmID AssignBatchSize srv uuid stepTemplate assemble workerID w).
Proof using Hothers.
  intros Hl. unfold selectLeaseBatch. keep_steps. generalize (fullCores (Caps w) - a) as free.
  generalize (@nil Payload) as batch. generalize (workerExprShortfall srv w) as short.
  induction a0 as [|row rows IH]; intros short batch free; cbn [leaseLoop]; keep_steps; try apply IH.
  unfold tryLeaseTask, new_uuid, draws, buildAssignPayload.
  keep_steps; try apply gates_keep; try (by intros wo Hwo).
  apply keeps_call; [done|]. intros db. by apply Hl.
Qed.

Lemma deposed_keeps : keeps true P deposed.
Proof. by intros w Hw. Qed.

Lemma fence_keeps e : keeps true P (stopIfFenced e).
Proof. unfold stopIfFenced, fenced. keep_steps. apply deposed_keeps. Qed.

Context (payload : option leaseRequest).
Context (Hlease : ∀ req db, ReqWorkerID req = workerID → LeaseWorkerID <$> payload = Some workerID →
                    P db → P (LeaseTask req db).2).

Lemma handleLeaseRequest_keeps woken :
  keeps true P (handleLeaseRequest env range FarmID AssignBatchSize srv uuid stepTemplate assemble workerID
                  payload woken).
Proof using Hothers Hlease.
  unfold handleLeaseRequest.
  apply keeps_bind; [apply deposed_keeps|]. intros [|]; [apply keeps_ret|].
  destruct payload as [req|]; [|apply keeps_ret].  destruct (bool_decide _); [apply keeps_ret|].
  case_bool_decide as Hreq; cbn [negb]; [|apply keeps_ret].
  assert (∀ w, keeps true P (selectLeaseBatch env range FarmID AssignBatchSize srv uuid stepTemplate assemble
    workerID w)) as Hsel.
  { intros w. apply select_keeps. intros r db Hr. apply Hlease; [done|]. cbn. by rewrite Hreq. }
  unfold leaseAfterPark, GetWorker.
  keep_steps; try apply Hsel; try apply deposed_keeps; try apply fence_keeps; done.
Qed.

(** A lease request writes nothing but leases to its sender: whatever the
    other writers keep and a lease to the worker of the request's subject keeps,
    the whole request keeps, and it ends.  A lease happens only if the payload
    names the subject's worker; a request that decodes to nothing, or names
    another worker, writes nothing. *)
Theorem lease_request_writes woken wo :
  P (wdb wo) →
  ∃ batch wo',
    handleLeaseRequest env range FarmID AssignBatchSize srv uuid stepTemplate assemble workerID payload woken wo
      = Some (batch, wo') ∧ P (wdb wo').
Proof using Hothers Hlease. apply keeps_returns, handleLeaseRequest_keeps. Qed.
End Requests.

(** Nobody else runs anything. *)
Definition onlyW (db : DB) : Prop :=
  ∀ k t, tasks db !! k = Some t → in_flight (TaskStatusOf t) = true → AssignedWorkerID t = Some "w"%string.

Lemma lease_onlyW req db : ReqWorkerID req = "w"%string → onlyW db → onlyW (LeaseTask req db).2.
Proof.
  intros Hw H. destruct (LeaseTask req db) as [r db'] eqn:E. cbn.
  destruct (LeaseTask_outcome _ _ _ _ E) as [(aid & a & ->)|[-> _]]; [|done].
  apply LeaseTask_leased in E as (t & j & q & f & _ & [Ht _ _ _ Et _ _ _ _ _] & _).
  intros k x. rewrite Et. intros [[<- <-]|[_ E]]%lookup_insert_Some; [|by apply (H k)].
  intros _. cbn. by rewrite Hw.
Qed.

Lemma lease_request_writes_witness :
  ∃ batch wo', handleLeaseRequest (tables := asciiTables) (quiet (λ n, 100 + Z.of_nat n)) sampleRange "" 50
      sampleLimits sampleUUID (λ _ _, Some tt) (λ _ taskID _ _ _ _, Some taskID) "w"
      (Some (mkleaseRequest "w" "i1")) false (mkWorld sampleReady 0 []) = Some (batch, wo') ∧
    onlyW (wdb wo').
Proof.
  apply (lease_request_writes (quiet (λ n, 100 + Z.of_nat n)) onlyW); [done| |].
  - intros req db Hw _. by apply lease_onlyW.
  - cbn [wdb]. assert (map_Forall (λ _ t, in_flight (TaskStatusOf t) = false) (tasks sampleReady)) as H.
    { apply (bool_decide_unpack _). vm_compute. exact I. }
    intros k t E Hf. rewrite (H k t E) in Hf. done.
Defined.

(** ** The sweep and the gates *)

Section Sweep.
Context (clock : nat → Z) {tables : CaseTables} (range : gmap string string → list (string * string)).
Context (srv : ServerExprLimits).

(** With nobody around, a read leaves the database. *)
Lemma returns_query {A} (f : DB → res StoreErr A) wo (Q : res CallErr A → World → Prop) :
  (∀ w', wdb w' = wdb wo → Q (match f (wdb wo) with Ok x => Ok x | Err e => Err (StoreError e) end) w') →
  returns (query (quiet clock) f) wo Q.
Proof. intros H. apply returns_call_quiet, H. done. Qed.

Fixpoint countsIn (db : DB) (names : list string) (ps : gmap string (string * UsagePool))
    (counts : gmap string Z) : gmap string Z :=
  match names with
  | [] => counts
  | name :: names' =>
      match ps !! lowered name with
      | None => countsIn db names' ps counts
      | Some (id, _) => countsIn db names' ps (<[lowered name := ActiveClaimCount db id]> counts)
      end
  end.

(** The usage context of a database. *)
Definition usageIn (db : DB) (step : Step) : gmap string (string * UsagePool) * gmap string Z :=
  match requiredPools step with
  | [] => (∅, ∅)
  | names => let ps := poolsByName (ListUsagePools db) in (ps, countsIn db names ps ∅)
  end.

Lemma buildUsageContext_quiet step wo (Q : res CallErr _ → World → Prop) :
  (∀ w', wdb w' = wdb wo → Q (Ok (usageIn (wdb wo) step)) w') →
  returns (buildUsageContext (quiet clock) step) wo Q.
Proof.
  assert (∀ names ps counts w1 (R : res CallErr _ → World → Prop),
    (∀ w', wdb w' = wdb w1 → R (Ok (countsIn (wdb w1) names ps counts)) w') →
    returns (activeCountsOf (quiet clock) names ps counts) w1 R) as Hc.
  { induction names as [|name names IH]; intros ps counts w1 R H; cbn [activeCountsOf countsIn] in *.
    - apply returns_ret. by apply H.
    - destruct (ps !! lowered name) as [[id p]|]; [|by apply IH].
      apply returns_bind, returns_query. intros w2 E2. apply IH. intros w3 E3.
      rewrite E2. apply H. congruence. }
  intros H. unfold buildUsageContext, usageIn in *. destruct (requiredPools step) as [|name names].
  - apply returns_ret. by apply H.
  - apply returns_bind, returns_query. intros w1 E1. apply returns_bind, Hc. intros w2 E2.
    apply returns_ret. rewrite E1. apply H. congruence.
Qed.

(** Room under the queue's and the farm's caps. *)
Definition roomIn (db : DB) (job : Job) (queue : Queue) (farm : Farm) : Prop :=
  (0 < QueueMaxConcurrentTasks queue →
   CountActiveTasksInQueue db (JobQueueID job) < QueueMaxConcurrentTasks queue) ∧
  (0 < FarmMaxConcurrentTasks farm →
   CountActiveTasksInFarm db (JobFarmID job) < FarmMaxConcurrentTasks farm).

Lemma policyGate_quiet job queue farm wo (Q : res CallErr bool → World → Prop) :
  roomIn (wdb wo) job queue farm → (∀ w', wdb w' = wdb wo → Q (Ok true) w') →
  returns (policyGate (quiet clock) job queue farm) wo Q.
Proof.
  intros [Hq Hf] H. unfold policyGate.
  assert (∀ w1, wdb w1 = wdb wo → returns (if 0 <? FarmMaxConcurrentTasks farm
    then active ← query (quiet clock) (λ db, Ok (CountActiveTasksInFarm db (JobFarmID job)));
         mret (negb (FarmMaxConcurrentTasks farm <=? active)) else mret true) w1 Q) as Hfarm.
  { intros w1 E1. destruct (0 <? _) eqn:E; [|by apply returns_ret, H].
    apply returns_bind, returns_query. intros w2 E2. apply returns_ret. zbool.
    rewrite E1. replace (_ <=? _) with false by (symmetry; apply Z.leb_gt; auto). apply H. congruence. }
  apply returns_bind. destruct (0 <? QueueMaxConcurrentTasks queue) eqn:E.
  - apply returns_bind, returns_query. intros w1 E1. apply returns_ret. zbool.
    replace (_ <=? _) with false by (symmetry; apply Z.leb_gt; auto). cbn [negb]. by apply Hfarm.
  - apply returns_ret. cbn [negb]. by apply Hfarm.
Qed.

(** The gates of a lease, from the rows. *)
Definition gatesOpen (db : DB) (job : Job) (step : Step) (w : Worker) : bool :=
  bool_decide (workerCompatBlock (workerExprShortfall srv w) w job = ""%string)
  && WorkerEligible range w job step (usageIn db step).1 (usageIn db step).2.

Context (task : Task) (job : Job) (step : Step) (queue : Queue) (farm : Farm) (wo : World).
Context (Hjob : jobs (wdb wo) !! TaskJobID task = Some job).
Context (Hstep : steps (wdb wo) !! TaskStepID task = Some step).

Lemma leaseGatesPass_quiet w :
  queues (wdb wo) !! JobQueueID job = Some queue → farms (wdb wo) !! JobFarmID job = Some farm →
  JobStatusOf job ≠ JobPaused → job_terminal (JobStatusOf job) = false →
  roomIn (wdb wo) job queue farm →
  returns (leaseGatesPass (quiet clock) range task w (workerExprShortfall srv w)) wo (λ r _,
    ∃ gd, r = Ok gd ∧ (is_Some gd ↔ gatesOpen (wdb wo) job step w = true)).
Proof using Hjob Hstep.
  intros Hq Hf Hp Ht Hroom. unfold leaseGatesPass, gatesOpen.
  apply returns_bind, returns_query. intros w1 E1. unfold get. rewrite Hjob, bool_decide_false, Ht by done. cbn [orb].
  case_bool_decide; cbn [negb andb]; [|apply returns_ret; exists None; split; [done|]; split; [by intros []|done]].
  apply returns_bind, returns_query. intros w2 E2. unfold get. rewrite E1, Hstep.
  apply returns_bind, returns_query. intros w3 E3. unfold get. rewrite E2, E1, Hq.
  apply returns_bind, returns_query. intros w4 E4. unfold get. rewrite E3, E2, E1, Hf.
  assert (wdb w4 = wdb wo) as E by congruence.
  apply returns_bind, policyGate_quiet; [by rewrite E|]. intros w5 E5. cbn [negb].
  apply returns_bind, buildUsageContext_quiet. intros w6 E6. rewrite E5, E.
  destruct (WorkerEligible _ _ _ _ _ _); apply returns_ret; eexists; (split; [done|]); split; try done; by intros [].
Qed.

Lemma lastReason_none ws ps counts last :
  lastReason range srv ws job step ps counts last = None ↔
  ∃ id w, (id, w) ∈ ws ∧ WorkerEligible range w job step ps counts = true ∧
          workerCompatBlock (workerExprShortfall srv w) w job = ""%string.
Proof.
  revert last. induction ws as [|[id w] ws IH]; intros last; cbn [lastReason].
  { split; [done|]. intros (? & ? & H & _). by apply elem_of_nil in H. }
  assert ((∃ id' w', (id', w') ∈ (id, w) :: ws ∧ WorkerEligible range w' job step ps counts = true ∧
    workerCompatBlock (workerExprShortfall srv w') w' job = ""%string) ↔
    (WorkerEligible range w job step ps counts = true ∧
     workerCompatBlock (workerExprShortfall srv w) w job = ""%string) ∨
    ∃ id' w', (id', w') ∈ ws ∧ WorkerEligible range w' job step ps counts = true ∧
      workerCompatBlock (workerExprShortfall srv w') w' job = ""%string) as ->.
  { setoid_rewrite elem_of_cons. naive_solver. }
  unfold WorkerEligible in IH |- * at 1. destruct (workerEligible range w job step ps counts);
    try (rewrite IH; naive_solver).
  case_bool_decide as Hc; [naive_solver|]. rewrite IH. naive_solver.
Qed.

End Sweep.

