(* ===== verification/Reconciler.v ===== *)
(** * Attempts a worker has stopped reporting:
      [internal/scheduler/attemptreconcile.go]

    The reconciler remembers which attempts each worker's heartbeats reported, and
    names the open attempts a live worker no longer holds.  Times are instants and
    differences of them exact; [time.Sub] saturates far outside the durations
    compared here. *)

From S2P Require Import Prelude.
Open Scope Z_scope.

(** [maxReportedAttempts] *)
Definition maxReportedAttempts : nat := 4096.

Record workerReport := mkworkerReport {
  workerAt : Z;
  receivedAt : Z;
  reported : gset string;
}.

Record reconciler := mkreconciler {
  grace : Z;
  skew : Z;
  reports : gmap string workerReport;
  lastSeen : gmap string Z;
  warned : gset string;
}.

(** [store.OpenAttempt] *)
Record OpenAttempt := mkOpenAttempt {
  OpenAttemptID : string;
  OpenWorkerID : string;
  OpenTaskID : string;
  OpenCreatedAt : Z;
}.

Definition newReconciler (grace skew : Z) : reconciler := mkreconciler grace skew ∅ ∅ ∅.

(** [New]: disabled unless the grace is positive, and never shorter than the
    worker timeout. *)
Definition reconcilerFor (ReconcileGrace WorkerTimeout : Z) : option reconciler :=
  if 0 <? ReconcileGrace
  then Some (newReconciler (Z.max ReconcileGrace WorkerTimeout) WorkerTimeout) else None.

Definition freshLocked (r : reconciler) (rep : workerReport) (now : Z) : bool :=
  now - receivedAt rep <=? skew r.

(** Whether the caller warns, and the reconciler after. *)
Definition record (r : reconciler) (workerID : string) (at_ received : Z) (attemptIDs : list string)
    : bool * reconciler :=
  let d := received - at_ in
  if (skew r <? d) || (d <? - skew r) then
    (negb (bool_decide (workerID ∈ warned r)),
     mkreconciler (grace r) (skew r) (reports r) (lastSeen r) ({[workerID]} ∪ warned r))
  else
    let w := warned r ∖ {[workerID]} in
    if match reports r !! workerID with Some prev => at_ <? workerAt prev | None => false end
    then (false, mkreconciler (grace r) (skew r) (reports r) (lastSeen r) w)
    else
      (false, mkreconciler (grace r) (skew r)
         (<[workerID := mkworkerReport at_ received (list_to_set attemptIDs)]> (reports r))
         (fold_left (λ m id, <[id := received]> m) attemptIDs (lastSeen r)) w).

(** An open attempt's worker has been omitting it for the grace. *)
Definition unreported (r : reconciler) (now : Z) (a : OpenAttempt) : bool :=
  match reports r !! OpenWorkerID a with
  | None => false
  | Some rep =>
      freshLocked r rep now
      && negb (bool_decide (OpenAttemptID a ∈ reported rep))
      && let since :=
           match lastSeen r !! OpenAttemptID a with
           | Some seen => if OpenCreatedAt a <? seen then seen else OpenCreatedAt a
           | None => OpenCreatedAt a
           end in
         grace r <=? receivedAt rep - since
  end.

Definition pruneLocked (r : reconciler) (now : Z) : reconciler :=
  mkreconciler (grace r) (skew r)
    (filter (λ kv, now - receivedAt kv.2 ≤ 2 * grace r) (reports r))
    (filter (λ kv, now - kv.2 ≤ 2 * grace r) (lastSeen r)) (warned r).

Definition due (r : reconciler) (open : list OpenAttempt) (now : Z) : list OpenAttempt * reconciler :=
  (filter (λ a, unreported r now a = true) open, pruneLocked r now).

(** A worker's report of an attempt it holds. *)
Record heldAttempt := mkheldAttempt {
  heldWorkerID : string;
  heldReceivedAt : Z;
}.

(** [order] is the order a [range] over the reports takes. *)
Definition held (order : gmap string workerReport → list (string * workerReport)) (r : reconciler)
    (now : Z) : gmap string heldAttempt :=
  fold_left (λ out kv,
    if freshLocked r kv.2 now
    then set_fold (λ id out, <[id := mkheldAttempt kv.1 (receivedAt kv.2)]> out) out (reported kv.2)
    else out) (order (reports r)) ∅.

(** ** Histories *)

(** What the reconciler sees: a heartbeat received, or a sweep at a time. *)
Inductive Seen :=
  | Heard (workerID : string) (at_ received : Z) (attemptIDs : list string)
  | Swept (now : Z).

Definition seen_time (e : Seen) : Z := match e with Heard _ _ t _ | Swept t => t end.

(** Newest first, the server's clock not going back. *)
Fixpoint ordered (h : list Seen) : Prop :=
  match h with
  | [] => True
  | e :: h' => (∀ e', e' ∈ h' → seen_time e' ≤ seen_time e) ∧ ordered h'
  end.

Section History.
Context (r0 : reconciler).

Fixpoint after (h : list Seen) : reconciler :=
  match h with
  | [] => r0
  | Heard w at_ t ids :: h' => (record (after h') w at_ t ids).2
  | Swept t :: h' => pruneLocked (after h') t
  end.

(** The reports taken, newest first: received in the window of the worker's clock
    and not older than the worker's previous one. *)
Definition accepts (acc : list (string * workerReport)) (w : string) (at_ t : Z) : bool :=
  (Z.abs (t - at_) <=? skew r0)
  && forallb (λ p, negb (bool_decide (p.1 = w)) || (workerAt p.2 <=? at_)) acc.

Fixpoint accepted (h : list Seen) : list (string * workerReport) :=
  match h with
  | [] => []
  | Heard w at_ t ids :: h' =>
      if accepts (accepted h') w at_ t
      then (w, mkworkerReport at_ t (list_to_set ids)) :: accepted h' else accepted h'
  | Swept _ :: h' => accepted h'
  end.

Definition latest (acc : list (string * workerReport)) (w : string) : option workerReport :=
  snd <$> head (filter (λ p, p.1 = w) acc).

(** The reference: the worker's latest report is fresh and omits the attempt, and
    the grace has passed, at that report, since the attempt was made and since
    every report that named it. *)
Definition lost (h : list Seen) (now : Z) (a : OpenAttempt) : bool :=
  match latest (accepted h) (OpenWorkerID a) with
  | None => false
  | Some rep =>
      (now - receivedAt rep <=? skew r0)
      && negb (bool_decide (OpenAttemptID a ∈ reported rep))
      && (grace r0 <=? receivedAt rep - OpenCreatedAt a)
      && forallb (λ p, negb (bool_decide (OpenAttemptID a ∈ reported p.2))
                       || (grace r0 <=? receivedAt rep - receivedAt p.2)) (accepted h)
  end.
End History.

(** ** The reconciler's state against the history *)

Lemma latest_cons acc w rep v :
  latest ((w, rep) :: acc) v = if decide (w = v) then Some rep else latest acc v.
Proof. unfold latest. rewrite filter_cons. cbn. by case_decide. Qed.

Lemma latest_elem acc w rep : latest acc w = Some rep → (w, rep) ∈ acc.
Proof.
  induction acc as [|[v x] acc IH]; [done|]. rewrite latest_cons. case_decide as E; [|right; auto].
  intros [= ->]. subst v. by left.
Qed.

Lemma latest_none acc w p : latest acc w = None → p ∈ acc → p.1 ≠ w.
Proof.
  induction acc as [|[v x] acc IH]; [by intros _ H%elem_of_nil|]. rewrite latest_cons. case_decide; [done|].
  intros Hn [->|Hp]%elem_of_cons; auto.
Qed.

Lemma fold_insert_lookup (ids : list string) (t : Z) (m : gmap string Z) id :
  fold_left (λ m id, <[id := t]> m) ids m !! id = if decide (id ∈ ids) then Some t else m !! id.
Proof.
  revert m. induction ids as [|x ids IH]; intros m; cbn [fold_left].
  { by rewrite decide_False by apply not_elem_of_nil. }
  rewrite IH. destruct (decide (id ∈ ids)) as [Hi|Hi]; [by rewrite decide_True by by right|].
  destruct (decide (x = id)) as [->|Hne].
  - rewrite lookup_insert_eq, decide_True; [done|by left].
  - rewrite lookup_insert_ne, decide_False; [done| |done]. rewrite elem_of_cons. naive_solver.
Qed.

Section Reference.
Context (r0 : reconciler) (Hgrace : skew r0 ≤ grace r0) (Hpos : 0 ≤ grace r0).
Context (no_reports : reports r0 = ∅) (no_sightings : lastSeen r0 = ∅).

(** Older than twice the grace at some sweep. *)
Definition forgotten (h : list Seen) (t : Z) : Prop := ∃ s, Swept s ∈ h ∧ 2 * grace r0 < s - t.

Record Tracks (h : list Seen) : Prop := mkTracks {
  tr_grace : grace (after r0 h) = grace r0;
  tr_skew : skew (after r0 h) = skew r0;
  tr_window : ∀ p, p ∈ accepted r0 h → Z.abs (receivedAt p.2 - workerAt p.2) ≤ skew r0;
  tr_time : ∀ p, p ∈ accepted r0 h → ∃ e, e ∈ h ∧ seen_time e = receivedAt p.2;
  tr_chain : ∀ p rep, p ∈ accepted r0 h → latest (accepted r0 h) p.1 = Some rep →
    workerAt p.2 ≤ workerAt rep;
  tr_report : ∀ w rep, reports (after r0 h) !! w = Some rep → latest (accepted r0 h) w = Some rep;
  tr_unreport : ∀ w rep, latest (accepted r0 h) w = Some rep → reports (after r0 h) !! w = None →
    forgotten h (receivedAt rep);
  tr_seen : ∀ id t, lastSeen (after r0 h) !! id = Some t →
    (∃ p, p ∈ accepted r0 h ∧ id ∈ reported p.2 ∧ receivedAt p.2 = t) ∧
    ∀ p, p ∈ accepted r0 h → id ∈ reported p.2 → receivedAt p.2 ≤ t;
  tr_unseen : ∀ id p, lastSeen (after r0 h) !! id = None → p ∈ accepted r0 h → id ∈ reported p.2 →
    forgotten h (receivedAt p.2);
}.

Lemma forgotten_cons e h t : forgotten h t → forgotten (e :: h) t.
Proof. intros (s & Hs & H). exists s. split; [by right|done]. Qed.

Lemma Tracks_nil : Tracks [].
Proof using no_reports no_sightings.
  split; cbn; try done; try (by intros p H%elem_of_nil).
  - intros w rep. by rewrite no_reports, lookup_empty.
  - intros id t. by rewrite no_sightings, lookup_empty.
  - intros id p _ H. by apply elem_of_nil in H.
Qed.

Lemma Tracks_swept t h : Tracks h → Tracks (Swept t :: h).
Proof.
  intros [T1 T2 T3 T4 T5 T6 T7 T8 T9]. split; cbn [after accepted]; cbn [grace skew reports lastSeen pruneLocked];
    try done.
  - intros p Hp. destruct (T4 p Hp) as (e & He & E). exists e. split; [by right|done].
  - intros w rep [E _]%map_lookup_filter_Some. auto.
  - intros w rep El En. destruct (reports (after r0 h) !! w) as [x|] eqn:E.
    + specialize (T6 _ _ E). rewrite T6 in El. injection El as ->. exists t. split; [by left|].
      rewrite map_lookup_filter_None in En. destruct En as [En|En]; [congruence|].
      specialize (En _ E). cbn in En. lia.
    + apply forgotten_cons. eauto.
  - intros id x [E _]%map_lookup_filter_Some. auto.
  - intros id p En Hp Hid. destruct (lastSeen (after r0 h) !! id) as [x|] eqn:E.
    + destruct (T8 _ _ E) as [_ Hm]. specialize (Hm _ Hp Hid). exists t. split; [by left|].
      rewrite map_lookup_filter_None in En. destruct En as [En|En]; [congruence|].
      specialize (En _ E). cbn in En. lia.
    + apply forgotten_cons. eauto.
Qed.

(** The report is taken exactly when the reference takes it. *)
Lemma accepts_spec h w at_ t :
  Tracks h → (∀ e, e ∈ h → seen_time e ≤ t) →
  accepts r0 (accepted r0 h) w at_ t =
  negb ((skew r0 <? t - at_) || (t - at_ <? - skew r0))
  && negb (match reports (after r0 h) !! w with Some prev => at_ <? workerAt prev | None => false end).
Proof using Hgrace Hpos.
  intros HT Ht. unfold accepts.
  replace (Z.abs (t - at_) <=? skew r0) with (negb ((skew r0 <? t - at_) || (t - at_ <? - skew r0)))
    by (destruct (Z.leb_spec (Z.abs (t - at_)) (skew r0)), (Z.ltb_spec (skew r0) (t - at_)),
          (Z.ltb_spec (t - at_) (- skew r0)); cbn; lia).
  destruct (negb ((skew r0 <? t - at_) || (t - at_ <? - skew r0))) eqn:Hw; [cbn [andb]|done].
  assert (Z.abs (t - at_) ≤ skew r0) as Hwin
    by (destruct (Z.ltb_spec (skew r0) (t - at_)), (Z.ltb_spec (t - at_) (- skew r0)); cbn in Hw; [done..|]; lia).
  apply eq_bool_prop_intro. rewrite !Is_true_true, forallb_forall.
  setoid_rewrite <- list_elem_of_In. setoid_rewrite orb_true_iff. setoid_rewrite negb_true_iff.
  setoid_rewrite bool_decide_eq_false. setoid_rewrite Z.leb_le. split.
  - intros H. destruct (reports _ !! w) as [prev|] eqn:E; [|done]. apply Z.ltb_ge.
    apply (tr_report _ HT), latest_elem in E. by destruct (H _ E).
  - intros H [v x] Hp. cbn. destruct (decide (v = w)) as [->|Hne]; [|by left]. right.
    destruct (latest (accepted r0 h) w) as [rep|] eqn:El.
    2: { by destruct (latest_none _ _ _ El Hp). }
    pose proof (tr_chain _ HT _ _ Hp El) as Hc. cbn in Hc. etrans; [exact Hc|].
    destruct (reports (after r0 h) !! w) as [prev|] eqn:E.
    + apply (tr_report _ HT) in E. rewrite E in El. injection El as ->. by apply Z.ltb_ge.
    + destruct (tr_unreport _ HT _ _ El E) as (s & Hs & Hold). specialize (Ht _ Hs). cbn in Ht.
      pose proof (tr_window _ HT _ (latest_elem _ _ _ El)) as Hrw. cbn in Hrw. lia.
Qed.

Lemma Tracks_ignored w at_ t ids h (r' : reconciler) :
  accepts r0 (accepted r0 h) w at_ t = false →
  (record (after r0 h) w at_ t ids).2 = r' →
  grace r' = grace (after r0 h) → skew r' = skew (after r0 h) → reports r' = reports (after r0 h) →
  lastSeen r' = lastSeen (after r0 h) → Tracks h → Tracks (Heard w at_ t ids :: h).
Proof.
  intros Hacc Er E1 E2 E3 E4 [T1 T2 T3 T4 T5 T6 T7 T8 T9].
  split; cbn [after accepted]; rewrite ?Er, ?Hacc, ?E1, ?E2, ?E3, ?E4; try done.
  - intros p Hp. destruct (T4 p Hp) as (e & He & E). exists e. split; [by right|done].
  - intros v rep El En. apply forgotten_cons. eauto.
  - intros id p En Hp Hid. apply forgotten_cons. eauto.
Qed.

Lemma Tracks_taken w at_ t ids h (r' : reconciler) :
  accepts r0 (accepted r0 h) w at_ t = true →
  (record (after r0 h) w at_ t ids).2 = r' →
  grace r' = grace (after r0 h) → skew r' = skew (after r0 h) →
  reports r' = <[w := mkworkerReport at_ t (list_to_set ids)]> (reports (after r0 h)) →
  lastSeen r' = fold_left (λ m id, <[id := t]> m) ids (lastSeen (after r0 h)) →
  (∀ e, e ∈ h → seen_time e ≤ t) → Tracks h → Tracks (Heard w at_ t ids :: h).
Proof.
  intros Hacc Er E1 E2 E3 E4 Ht [T1 T2 T3 T4 T5 T6 T7 T8 T9].
  assert (∀ p, p ∈ accepted r0 h → receivedAt p.2 ≤ t) as Hle.
  { intros p Hp. destruct (T4 p Hp) as (e & He & <-). auto. }
  pose proof Hacc as [Hwin Hall]%andb_prop. apply Z.leb_le in Hwin. rewrite forallb_forall in Hall.
  split; cbn [after accepted]; rewrite ?Er, ?Hacc, ?E1, ?E2, ?E3, ?E4; try done.
  - intros p [->|Hp]%elem_of_cons; [done|auto].
  - intros p [->|Hp]%elem_of_cons; [by exists (Heard w at_ t ids); split; [left|]|].
    destruct (T4 p Hp) as (e & He & E). exists e. split; [by right|done].
  - intros p rep Hp. rewrite latest_cons. case_decide as Hw.
    + intros [= <-]. cbn. apply elem_of_cons in Hp as [->|Hp]; [done|].
      apply list_elem_of_In in Hp. specialize (Hall _ Hp). rewrite bool_decide_true in Hall by done.
      by apply Z.leb_le in Hall.
    + apply elem_of_cons in Hp as [->|Hp]; [done|]. by apply T5.
  - intros v rep. rewrite latest_cons. case_decide as Hw; [subst v; by rewrite lookup_insert_eq|].
    rewrite lookup_insert_ne by done. auto.
  - intros v rep. rewrite latest_cons. case_decide as Hw; [subst v; by rewrite lookup_insert_eq|].
    rewrite lookup_insert_ne by done. intros El En. apply forgotten_cons. eauto.
  - intros id x. rewrite fold_insert_lookup. case_decide as Hin.
    + intros [= <-]. split.
      * eexists. split; [by left|]. cbn. split; [by apply elem_of_list_to_set|done].
      * intros p [->|Hp]%elem_of_cons _; [done|auto].
    + intros E. destruct (T8 _ _ E) as [(p & Hp & Hid & Hr) Hm]. split.
      * exists p. split; [by right|done].
      * intros q [->|Hq]%elem_of_cons Hid'; [by apply elem_of_list_to_set in Hid'|auto].
  - intros id p. rewrite fold_insert_lookup. case_decide as Hin; [done|].
    intros En [->|Hp]%elem_of_cons Hid; [by apply elem_of_list_to_set in Hid|]. apply forgotten_cons. eauto.
Qed.

Lemma Tracks_ordered h : ordered h → Tracks h.
Proof using Hgrace Hpos no_reports no_sightings.
  induction h as [|[w at_ t ids|t] h IH]; [intros _; apply Tracks_nil|..]; intros [Ht Ho]; specialize (IH Ho).
  2: { by apply Tracks_swept. }
  assert (∀ e, e ∈ h → seen_time e ≤ t) as Hle by exact Ht.
  pose proof (accepts_spec h w at_ t IH Hle) as Hacc.
  destruct (record (after r0 h) w at_ t ids) as [b r'] eqn:Er. pose proof Er as Er'.
  unfold record in Er'. rewrite (tr_skew _ IH) in Er'.
  destruct (_ || _); [injection Er' as <- <-|].
  { eapply Tracks_ignored; [exact Hacc|by rewrite Er|done| |done..]. by rewrite (tr_skew _ IH). }
  destruct (match reports _ !! w with Some _ => _ | None => _ end); injection Er' as <- <-.
  - eapply Tracks_ignored; [exact Hacc|by rewrite Er|done| |done..]. by rewrite (tr_skew _ IH).
  - eapply Tracks_taken; [exact Hacc|by rewrite Er|done| |done..]. by rewrite (tr_skew _ IH).
Qed.

(** One attempt's verdict. *)
Lemma unreported_lost h now a :
  ordered h → (∀ e, e ∈ h → seen_time e ≤ now) → unreported (after r0 h) now a = lost r0 h now a.
Proof using Hgrace Hpos no_reports no_sightings.
  intros Ho Hnow. pose proof (Tracks_ordered h Ho) as HT. unfold unreported, lost, freshLocked.
  rewrite (tr_skew _ HT), (tr_grace _ HT).
  destruct (reports (after r0 h) !! OpenWorkerID a) as [rep|] eqn:Er.
  2: { destruct (latest _ _) as [rep|] eqn:El; [|done].
       destruct (tr_unreport _ HT _ _ El Er) as (s & Hs & Hold). specialize (Hnow _ Hs). cbn in Hnow.
       rewrite (proj2 (Z.leb_gt _ _)) by lia. done. }
  rewrite (tr_report _ HT _ _ Er).
  destruct (Z.leb_spec (now - receivedAt rep) (skew r0)) as [Hf|_]; [|done]. cbn [andb].
  destruct (bool_decide (OpenAttemptID a ∈ reported rep)); [done|]. cbn [negb andb].
  apply eq_bool_prop_intro. rewrite !Is_true_true, andb_true_iff, forallb_forall.
  setoid_rewrite <- list_elem_of_In. setoid_rewrite orb_true_iff. setoid_rewrite negb_true_iff.
  setoid_rewrite bool_decide_eq_false. rewrite !Z.leb_le. setoid_rewrite Z.leb_le.
  destruct (lastSeen (after r0 h) !! OpenAttemptID a) as [seen|] eqn:Es.
  - destruct (tr_seen _ HT _ _ Es) as [(p & Hp & Hid & <-) Hm]. split.
    + intros H. assert (grace r0 ≤ receivedAt rep - receivedAt p.2 ∧ grace r0 ≤ receivedAt rep - OpenCreatedAt a)
        as [H1 H2] by (destruct (Z.ltb_spec (OpenCreatedAt a) (receivedAt p.2)); lia).
      split; [done|]. intros q Hq. destruct (decide (OpenAttemptID a ∈ reported q.2)) as [Hi|]; [|by left].
      right. specialize (Hm _ Hq Hi). lia.
    + intros [H1 H2]. destruct (H2 _ Hp) as [|H3]; [done|]. destruct (_ <? _); done.
  - split; [intros H|by intros [H _]]. split; [done|]. intros q Hq.
    destruct (decide (OpenAttemptID a ∈ reported q.2)) as [Hi|]; [|by left]. right.
    destruct (tr_unseen _ HT _ _ Es Hq Hi) as (s & Hs & Hold). specialize (Hnow _ Hs). cbn in Hnow. lia.
Qed.
End Reference.

(** The reconciler names exactly the attempts that are lost.  Whatever
    heartbeats it has been given, from any workers and clocks, and however often
    it has been swept in between, the open attempts it names at a sweep are those
    whose worker's latest report is fresh and omits them, when the grace has
    passed since the attempt was made and since every report that named it.  So
    the pruning it does at each sweep never changes a decision, as its comment
    says; that rests on the grace being no shorter than the skew, which the
    scheduler's constructor sees to. *)
Theorem due_reference ReconcileGrace WorkerTimeout r0 h open now :
  reconcilerFor ReconcileGrace WorkerTimeout = Some r0 → ordered (Swept now :: h) →
  due (after r0 h) open now = (filter (λ a, lost r0 h now a = true) open, after r0 (Swept now :: h)).
Proof.
  unfold reconcilerFor. destruct (Z.ltb_spec 0 ReconcileGrace); [|done]. intros [= <-] [Ht Ho]. unfold due.
  cbn [after]. f_equal. apply list_filter_iff. intros a. rewrite unreported_lost; try done; cbn; lia.
Qed.

(** A worker reports two attempts, then only one of them for two minutes. *)
Definition sampleHistory : list Seen :=
  [Heard "w" 240 240 ["a2"]; Swept 200; Heard "w" 180 180 ["a2"]; Heard "v" 5 150 ["a1"];
   Heard "w" 120 121 ["a2"]; Heard "w" 60 60 ["a1"; "a2"]]%string.

Lemma due_reference_witness :
  ∃ r0, reconcilerFor 120 90 = Some r0 ∧
    (due (after r0 sampleHistory)
       [mkOpenAttempt "a1" "w" "t1" 10; mkOpenAttempt "a2" "w" "t2" 10; mkOpenAttempt "a3" "w" "t3" 200] 245).1
    = [mkOpenAttempt "a1" "w" "t1" 10].
Proof.
  eexists. split; [reflexivity|]. rewrite (due_reference 120 90 _ _ _ _ eq_refl).
  - vm_compute. reflexivity.
  - cbn. repeat split; intros e He; repeat (apply elem_of_cons in He as [->|He]; [cbn; lia|]); set_solver.
Defined.
