(* ===== verification/Waiters.v ===== *)
(** * Parked lease requests: [internal/scheduler/waiter.go]

    A registry of the channels that parked requests wait on, by queue.  A wake
    takes the channels of a queue out of the registry under its lock and closes
    them after releasing it, so that other goroutines run in between; the steps
    below are those sections.  Closing a channel twice panics. *)

From S2P Require Import Prelude.

(** ** The registry *)

(** The channels parked under each queue; a queue without an entry has none. *)
Abbreviation waiters := (gmap string (gset nat)).

Definition parked (r : waiters) (queueID : string) : gset nat := default ∅ (r !! queueID).

(** The part of [wait] under the lock. *)
Definition register (queueID : string) (ch : nat) (r : waiters) : waiters :=
  <[queueID := {[ch]} ∪ parked r queueID]> r.

Definition remove (queueID : string) (ch : nat) (r : waiters) : waiters :=
  match r !! queueID with
  | Some set => <[queueID := set ∖ {[ch]}]> r
  | None => r
  end.

(** The channels taken, to be closed, and the registry left. *)
Definition notify (queueID : string) (r : waiters) : gset nat * waiters :=
  (parked r queueID, <[queueID := ∅]> r).

Definition notifyAll (r : waiters) : gset nat * waiters :=
  (⋃ (map_to_list r).*2, ∅).

(** ** The goroutines *)

(** A request that parked, and how its wait ended. *)
Inductive Waiter := Parked (queueID : string) | Woken | GaveUp.

Record State := mkState {
  registry : waiters;
  requests : gmap nat Waiter;
  next : nat;
  closing : list nat;
  closed : gset nat;
  panicked : bool;
}.

Definition initial : State := mkState ∅ ∅ 0 [] ∅ false.

Inductive step : State → State → Prop :=
  | Park q r m n cl cd p :
      step (mkState r m n cl cd p) (mkState (register q n r) (<[n := Parked q]> m) (S n) cl cd p)
  | Notify q r m n cl cd p :
      step (mkState r m n cl cd p)
        (mkState (notify q r).2 m n (elements (notify q r).1 ++ cl) cd p)
  | NotifyAll r m n cl cd p :
      step (mkState r m n cl cd p)
        (mkState (notifyAll r).2 m n (elements (notifyAll r).1 ++ cl) cd p)
  | Close c r m n cl cl' cd p :
      cl ≡ₚ c :: cl' →
      step (mkState r m n cl cd p) (mkState r m n cl' ({[c]} ∪ cd) (p || bool_decide (c ∈ cd)))
  | Wake c q r m n cl cd p :
      m !! c = Some (Parked q) → c ∈ cd →
      step (mkState r m n cl cd p) (mkState r (<[c := Woken]> m) n cl cd p)
  | GiveUp c q r m n cl cd p :
      m !! c = Some (Parked q) →
      step (mkState r m n cl cd p) (mkState (remove q c r) (<[c := GaveUp]> m) n cl cd p).

Inductive reached : State → Prop :=
  | reached_initial : reached initial
  | reached_step s s' : reached s → step s s' → reached s'.

(** ** Every channel is in one place *)

Record Once (s : State) : Prop := mkOnce {
  once_panic : panicked s = false;
  once_fresh : ∀ c, ((∃ q, c ∈ parked (registry s) q) ∨ c ∈ closing s ∨ c ∈ closed s ∨
    is_Some (requests s !! c)) → (c < next s)%nat;
  once_queue : ∀ q q' c, c ∈ parked (registry s) q → c ∈ parked (registry s) q' → q = q';
  once_closing : NoDup (closing s);
  once_apart : ∀ q c, c ∈ parked (registry s) q → (c ∉ closing s) ∧ (c ∉ closed s);
  once_closed : ∀ c, c ∈ closing s → c ∉ closed s;
  once_waiting : ∀ c q, requests s !! c = Some (Parked q) →
    c ∈ parked (registry s) q ∨ c ∈ closing s ∨ c ∈ closed s;
}.

Lemma parked_register q n r v :
  parked (register q n r) v = if decide (q = v) then {[n]} ∪ parked r v else parked r v.
Proof.
  unfold parked, register. case_decide as E; [subst; by rewrite lookup_insert_eq|by rewrite lookup_insert_ne].
Qed.

Lemma parked_remove q n r v :
  parked (remove q n r) v = if decide (q = v) then parked r v ∖ {[n]} else parked r v.
Proof.
  unfold parked, remove. case_decide as E.
  - subst v. destruct (r !! q) eqn:Er; [by rewrite lookup_insert_eq|rewrite Er; set_solver].
  - destruct (r !! q); [by rewrite lookup_insert_ne|done].
Qed.

Lemma parked_notify q r v : parked (notify q r).2 v = if decide (q = v) then ∅ else parked r v.
Proof.
  unfold parked, notify. cbn. case_decide as E; [subst; by rewrite lookup_insert_eq|by rewrite lookup_insert_ne].
Qed.

Lemma elem_of_notifyAll r c : c ∈ (notifyAll r).1 ↔ ∃ q, c ∈ parked r q.
Proof.
  unfold notifyAll, parked. cbn. rewrite elem_of_union_list. split.
  - intros (X & HX & Hc). apply list_elem_of_fmap in HX as ([q Y] & -> & HX).
    apply elem_of_map_to_list in HX. exists q. by rewrite HX.
  - intros (q & Hc). destruct (r !! q) as [X|] eqn:E; [|set_solver]. exists X. split; [|done].
    apply list_elem_of_fmap. exists (q, X). split; [done|]. by apply elem_of_map_to_list.
Qed.

(** Channels taken out of the registry to be closed. *)
Lemma Once_take r r' m n cl cd p (taken : gset nat) :
  (∀ c, c ∈ taken → ∃ q, c ∈ parked r q) → (∀ q c, c ∈ parked r' q → c ∈ parked r q ∧ c ∉ taken) →
  (∀ q c, c ∈ parked r q → c ∈ parked r' q ∨ c ∈ taken) →
  Once (mkState r m n cl cd p) → Once (mkState r' m n (elements taken ++ cl) cd p).
Proof.
  intros H1 H2 H3 [O1 O2 O3 O4 O5 O6 O7]. cbn in *. split; cbn; [done|..].
  - intros c. rewrite elem_of_app, elem_of_elements. intros Hc. apply O2.
    destruct Hc as [[q Hc]|[[Hc|Hc]|Hc]]; [|auto..]. left. exists q. by apply H2.
  - intros q q' c Hq Hq'. apply (O3 _ _ c); by apply H2.
  - apply NoDup_app. split; [apply NoDup_elements|]. split; [|done].
    intros c Hc%elem_of_elements. destruct (H1 c Hc) as [q Hq]. by destruct (O5 q c Hq).
  - intros q c Hc. rewrite elem_of_app, elem_of_elements. destruct (H2 q c Hc) as [Hq Ht].
    destruct (O5 q c Hq). naive_solver.
  - intros c. rewrite elem_of_app, elem_of_elements. intros [Hc|Hc]; [|auto].
    destruct (H1 c Hc) as [q Hq]. by destruct (O5 q c Hq).
  - intros c q E. rewrite elem_of_app, elem_of_elements. destruct (O7 c q E) as [Hq|[Hc|Hc]]; [|auto..].
    destruct (H3 q c Hq); auto.
Qed.

Lemma Once_park q r m n cl cd p :
  Once (mkState r m n cl cd p) → Once (mkState (register q n r) (<[n := Parked q]> m) (S n) cl cd p).
Proof.
  intros [O1 O2 O3 O4 O5 O6 O7]. cbn in *.
  assert (∀ c, ((∃ q, c ∈ parked r q) ∨ c ∈ cl ∨ c ∈ cd) → c ≠ n) as Hn.
  { intros c Hc ->. specialize (O2 n). lapply O2; [lia|]. naive_solver. }
  split; cbn; [done|..]; try setoid_rewrite parked_register.
  - intros c Hc. destruct (decide (c = n)) as [->|Hne]; [lia|]. apply Nat.lt_lt_succ_r, O2.
    destruct Hc as [[v Hc]|[Hc|[Hc|[x Hc]]]]; [|auto|auto|].
    + left. exists v. case_decide; set_solver.
    + rewrite lookup_insert_ne in Hc by done. eauto.
  - intros v v' c Hv Hv'. destruct (decide (c = n)) as [->|Hne].
    + assert (∀ u, n ∉ parked r u) as Hno by (intros u Hu; by apply (Hn n); eauto).
      repeat case_decide; set_solver.
    + apply (O3 v v' c); repeat case_decide; set_solver.
  - done.
  - intros v c Hc. case_decide; [|by apply (O5 v)]. apply elem_of_union in Hc as [->%elem_of_singleton|Hc].
    + split; intros Hx; by apply (Hn n); auto.
    + by apply (O5 v).
  - done.
  - intros c v E. destruct (decide (n = c)) as [<-|Hne].
    + rewrite lookup_insert_eq in E. injection E as ->. left. rewrite decide_True by done. set_solver.
    + rewrite lookup_insert_ne in E by done. destruct (O7 c v E) as [Hc|H]; [|auto]. left. case_decide; set_solver.
Qed.

Lemma Once_giveup c q r m n cl cd p :
  m !! c = Some (Parked q) → Once (mkState r m n cl cd p) →
  Once (mkState (remove q c r) (<[c := GaveUp]> m) n cl cd p).
Proof.
  intros Em [O1 O2 O3 O4 O5 O6 O7]. cbn in *.
  assert (∀ v x, x ∈ parked (remove q c r) v → x ∈ parked r v) as Hsub.
  { intros v x. rewrite parked_remove. case_decide; set_solver. }
  split; cbn; [done|..|done| |done|].
  - intros x Hx. apply O2. destruct Hx as [[v Hx]|[Hx|[Hx|[y Hx]]]]; [eauto|auto|auto|].
    destruct (decide (c = x)) as [<-|Hne]; [eauto|]. rewrite lookup_insert_ne in Hx by done. eauto.
  - intros v v' x Hv Hv'. eauto.
  - intros v x Hx. eauto.
  - intros x v E. destruct (decide (c = x)) as [<-|Hne]; [by rewrite lookup_insert_eq in E|].
    rewrite lookup_insert_ne in E by done. destruct (O7 x v E) as [Hx|H]; [|auto]. left.
    rewrite parked_remove. case_decide; set_solver.
Qed.

Lemma Once_step s s' : step s s' → Once s → Once s'.
Proof.
  intros [q r m n cl cd p|q r m n cl cd p|r m n cl cd p|c r m n cl cl' cd p Hp|c q r m n cl cd p Em Hc
         |c q r m n cl cd p Em] HO.
  - by apply Once_park.
  - eapply Once_take; [..|done]; cbn [notify fst]; [by eauto|..]; intros v c; rewrite parked_notify.
    + case_decide as E; [set_solver|]. intros Hv. split; [done|]. intros Hq.
      apply E. by apply (once_queue _ HO q v c).
    + case_decide as E; [subst; auto|auto].
  - eapply Once_take; [..|done].
    + intros c. apply elem_of_notifyAll.
    + intros v c. unfold parked. cbn. rewrite lookup_empty. set_solver.
    + intros v c Hc. right. apply elem_of_notifyAll. eauto.
  - destruct HO as [O1 O2 O3 O4 O5 O6 O7]. cbn in *. rewrite Hp in O4.
    apply NoDup_cons in O4 as [Hc O4]. split; cbn; try done.
    + rewrite O1, bool_decide_false; [done|]. apply O6. rewrite Hp. by left.
    + intros x Hx. apply O2. rewrite Hp, elem_of_cons. set_solver.
    + intros v x Hx. destruct (O5 v x Hx) as [H1 H2]. rewrite Hp, elem_of_cons in H1. set_solver.
    + intros x Hx. rewrite elem_of_union, elem_of_singleton. intros [->|Hd]; [done|].
      revert Hd. apply O6. rewrite Hp. by right.
    + intros x v E. destruct (O7 x v E) as [|[H|H]]; [auto| |set_solver]. rewrite Hp, elem_of_cons in H. set_solver.
  - destruct HO as [O1 O2 O3 O4 O5 O6 O7]. cbn in *. split; cbn; try done.
    + intros x Hx. apply O2. destruct Hx as [Hx|[Hx|[Hx|[y Hx]]]]; [auto..|].
      destruct (decide (c = x)) as [<-|Hne]; [auto|]. rewrite lookup_insert_ne in Hx by done. eauto.
    + intros x v E. destruct (decide (c = x)) as [<-|Hne]; [by rewrite lookup_insert_eq in E|].
      rewrite lookup_insert_ne in E by done. eauto.
  - by apply Once_giveup.
Qed.

Lemma reached_once s : reached s → Once s.
Proof.
  induction 1 as [|s s' _ IH Hs]; [|by eapply Once_step].
  assert (∀ q, parked ∅ q = ∅) as Hp by (intros q; unfold parked; by rewrite lookup_empty).
  split; cbn; try setoid_rewrite Hp; try done; [|constructor|set_solver..].
  intros c [[q Hc]|[Hc|[Hc|[x Hc]]]]; rewrite ?lookup_empty in *; set_solver.
Qed.

(** C15. However parking, waking and giving up interleave, no channel is closed
    twice, so waking never panics; and no parked request is lost: its channel is
    registered under its queue, or has been taken to be closed, or is closed.  In
    particular a wake of the queue takes every request parked on it by then, and
    what it takes is no longer registered, so each request is woken at most
    once. *)
Theorem wakes_once s :
  reached s →
  panicked s = false ∧
  (∀ c q, requests s !! c = Some (Parked q) →
     c ∈ parked (registry s) q ∨ c ∈ closing s ∨ c ∈ closed s) ∧
  (∀ c q s', s' = mkState (notify q (registry s)).2 (requests s) (next s)
       (elements (notify q (registry s)).1 ++ closing s) (closed s) (panicked s) →
     requests s !! c = Some (Parked q) → reached s' ∧ (c ∈ closing s' ∨ c ∈ closed s')) ∧
  (∀ c q, c ∈ closing s ∨ c ∈ closed s → c ∉ parked (registry s) q).
Proof.
  intros Hr. pose proof (reached_once s Hr) as HO. split; [apply HO|]. split; [apply HO|]. split.
  - intros c q s' -> E. split.
    + eapply reached_step; [exact Hr|]. destruct s. apply Notify.
    + cbn. rewrite elem_of_app, elem_of_elements. destruct (once_waiting _ HO c q E) as [H|[H|H]]; auto.
  - intros c q Hc Hp. destruct (once_apart _ HO q c Hp). naive_solver.
Qed.

Lemma wakes_once_witness :
  ∃ s, reached s ∧ requests s !! 0 = Some Woken ∧ requests s !! 1 = Some GaveUp ∧ panicked s = false.
Proof.
  pose proof reached_initial as H. unfold initial in H.
  apply (λ H, reached_step _ _ H (Park "q" _ _ _ _ _ _)) in H.
  apply (λ H, reached_step _ _ H (Park "q" _ _ _ _ _ _)) in H.
  apply (λ H, reached_step _ _ H (Notify "q" _ _ _ _ _ _)) in H.
  eapply reached_step in H; [|apply (Close 1 _ _ _ _ [0]); vm_compute; reflexivity].
  eapply reached_step in H; [|apply (Close 0 _ _ _ _ []); reflexivity].
  eapply reached_step in H; [|apply (Wake 0 "q"); [vm_compute; reflexivity|set_solver]].
  eapply reached_step in H; [|apply (GiveUp 1 "q"); vm_compute; reflexivity].
  eexists. split; [exact H|]. split; [vm_compute; reflexivity|]. split; [vm_compute; reflexivity|].
  exact (proj1 (wakes_once _ H)).
Defined.
