(* ===== verification/Fleet.v ===== *)
(** * Workers coming, going and going silent: the worker consumer, the sweeps and
      the start-up passes of [internal/scheduler/scheduler.go], and the attempt
      reconciliation of [attemptreconcile.go]

    The messages by which a worker registers, reports that it lives and leaves,
    and what the scheduler does on its own, once at start and at every tick.  The
    store calls, their order, the early returns and the events are the code's; log
    lines and metrics are left out. *)

From S2P Require Import Prelude Subjects GoText Schema Finalize Attempts Lease Jobs Workers Catalog.
From S2P Require Import StoreInv Sched Policy Match Deps Reconcile Reconciler Handlers Select.
Open Scope Z_scope.

(** ** Messages *)

(** [protocol.RegisterMsg], without what is only displayed. *)
Record RegisterMsg := mkRegisterMsg {
  RegVersion : string;
  RegWorkerID : string;
  RegInstanceID : string;
  RegFarmID : string;
  RegQueueID : string;
  RegCaps : Capabilities;
}.

(** [protocol.HeartbeatMsg]: what the server reads of it. *)
Record HeartbeatMsg := mkHeartbeatMsg {
  BeatVersion : string;
  BeatWorkerID : string;
  BeatAt : option Z;
  AttemptsReported : bool;
  ActiveAttemptIDs : list string;
}.

Record DeregisterMsg := mkDeregisterMsg {
  LeaveWorkerID : string;
  LeaveInstanceID : string;
}.

(** The message's bytes decoded as each of them, [None] where that fails, and its
    metadata: the broker's stamp when it has one, and the deliveries counted. *)
Record WorkerMsg := mkWorkerMsg {
  asRegister : option RegisterMsg;
  asHeartbeat : option HeartbeatMsg;
  asDeregister : option DeregisterMsg;
  BrokerStamp : option Z;
  Delivered : Z;
}.

Definition nullString (s : string) : option string :=
  if bool_decide (s = ""%string) then None else Some s.

Definition hasPrefix (s p : str) : bool := bool_decide (take (length p) s = p).

(** ** Reads *)

(** [ORDER BY a.created_at, a.id] *)
Definition openAttempts (db : DB) : list OpenAttempt :=
  (λ ka, mkOpenAttempt ka.1 (AttemptWorkerID ka.2) (AttemptTaskID ka.2) (AttemptCreatedAt ka.2)) <$>
  sort_by (λ a b, (AttemptCreatedAt a.2 <? AttemptCreatedAt b.2)
                  || ((AttemptCreatedAt a.2 =? AttemptCreatedAt b.2) && String.leb a.1 b.1))
    (map_to_list (ListOpenAttempts db)).

Section Fleet.
Context (env : Surroundings) {tables : CaseTables}.
Context (range : gmap string string → list (string * string)).
(** The scheduler's configuration. *)
Context (FarmID : string) (srv : ServerExprLimits) (NATSAuthEnabled : bool).
Context (WorkerTimeout AssignedTaskTimeout OfflineWorkerRetention JobRetention : Z).
Context (JobRetentionIncludeFailed : bool) (UnschedulableGrace ReconcileGrace BusReconnectGrace : Z).
(** [cfg.BusUpSince], when there is one, as read before the [n]-th call: [None]
    while the bus is down; and when [Run] started. *)
Context (BusUpSince : option (nat → option Z)) (startedAt : Z).
(** [uuid.NewString]. *)
Context (uuid : nat → nat → string).
(** The rows of a listing of workers and the keys of a map, in an order. *)
Context (listed : gmap string Worker → list (string * Worker)).
Context (rangeReports : gmap string workerReport → list (string * workerReport)).
Context (rangeHeld : gmap string heldAttempt → list (string * heldAttempt)).

(** ** Registering *)

Definition discardOnIdentityMismatch (subjectWorkerID payloadWorkerID : string) : bool :=
  negb (bool_decide (payloadWorkerID = subjectWorkerID)).

Definition discardOnVersionMismatch (version : string) : bool :=
  negb (bool_decide (version = ProtocolVersion)).

(** Waking every parked request once tasks went back to ready. *)
Definition reclaimOfflineWorkerTasks (reclaimed : gmap string Task) : M unit :=
  if bool_decide (reclaimed = ∅) then mret tt else notify WakeAll.

Definition ensureComputeLocation (name : string) : M unit :=
  if bool_decide (name = ""%string) then mret tt
  else
    r ← attempt (query env (GetComputeLocationByName name));
    match r with
    | Err (StoreError ErrNotFound) =>
        id ← new_uuid uuid 0;
        c ← attempt (call env (CreateComputeLocation id name));
        match c with Err e => _ ← stopIfFenced e; mret tt | Ok _ => mret tt end
    | _ => mret tt
    end.

Definition touchWorkerCredential (workerID : string) (at_ : Z) : M unit :=
  r ← attempt (call env (TouchWorkerCredential workerID at_));
  match r with Err e => _ ← stopIfFenced e; mret tt | Ok _ => mret tt end.

(** The row the registration asks for. *)
Definition registeredWorker (m : RegisterMsg) (now : Z) (stamp : option Z) : Worker :=
  mkWorker (nullString (RegFarmID m)) (nullString (RegQueueID m)) WorkerOnline false (RegInstanceID m)
    stamp None (Some now) 0 0 (RegCaps m).

Definition handleWorkerRegister (subjectWorkerID : string) (msg : WorkerMsg) : M Disposition :=
  match asRegister msg with
  | None => ackMsg
  | Some m =>
      if discardOnVersionMismatch (RegVersion m) then ackMsg
      else if discardOnIdentityMismatch subjectWorkerID (RegWorkerID m) then ackMsg
      else
        t ← time_Now env;
        r ← attempt (call env (RegisterWorker (RegWorkerID m) (registeredWorker m t (BrokerStamp msg)) t));
        match r with
        | Err (StoreError ErrStaleRegistration) => ackMsg
        | Err e =>
            stop ← stopIfFenced e;
            if stop : bool then mret LeftUnacked else nakMsg (Delivered msg)
        | Ok (stored, reclaimed) =>
            _ ← reclaimOfflineWorkerTasks reclaimed;
            _ ← ensureComputeLocation (ComputeLocation (RegCaps m));
            _ ← (if NATSAuthEnabled then touchWorkerCredential (RegWorkerID m) t else mret tt);
            _ ← notify (WorkerEvent (RegWorkerID m) (EffectiveStatus stored));
            ackMsg
        end
  end.

(** ** Leaving *)

Definition handleWorkerDeregister (subjectWorkerID : string) (msg : WorkerMsg) : M Disposition :=
  match asDeregister msg with
  | None => ackMsg
  | Some m =>
      if discardOnIdentityMismatch subjectWorkerID (LeaveWorkerID m) then ackMsg
      else
        t ← time_Now env;
        r ← attempt (call env (OfflineWorker (LeaveWorkerID m) (LeaveInstanceID m) t));
        match r with
        | Err e =>
            stop ← stopIfFenced e;
            if stop : bool then mret LeftUnacked else ackMsg
        | Ok (_, false) => ackMsg
        | Ok (reclaimed, true) =>
            _ ← reclaimOfflineWorkerTasks reclaimed;
            w ← attempt (GetWorker env (LeaveWorkerID m));
            _ ← notify (WorkerEvent (LeaveWorkerID m)
                   (match w with Ok w => EffectiveStatus w | Err _ => WorkerOffline end));
            ackMsg
        end
  end.

(** ** Heartbeats *)

(** With the reconciler after it. *)
Definition handleWorkerHeartbeat (subjectWorkerID : string) (msg : WorkerMsg) (rec : option reconciler)
    : M (Disposition * option reconciler) :=
  match asHeartbeat msg with
  | None => d ← ackMsg; mret (d, rec)
  | Some m =>
      if discardOnVersionMismatch (BeatVersion m) then d ← ackMsg; mret (d, rec)
      else if discardOnIdentityMismatch subjectWorkerID (BeatWorkerID m) then d ← ackMsg; mret (d, rec)
      else
        received ← time_Now env;
        let at_ := default received (BeatAt m) in
        let seen := default received (BrokerStamp msg) in
        r ← attempt (call env (UpdateWorkerHeartbeat (BeatWorkerID m) seen (BrokerStamp msg) received));
        match r with
        | Err e =>
            stop ← stopIfFenced e;
            if stop : bool then mret (LeftUnacked, rec)
            else d ← nakMsg (Delivered msg); mret (d, rec)
        | Ok _ =>
            d ← ackMsg;
            mret (d, match rec with
                     | None => None
                     | Some rc =>
                         if negb (AttemptsReported m)
                            || (maxReportedAttempts <? length (ActiveAttemptIDs m))%nat
                         then Some rc
                         else Some (record rc (BeatWorkerID m) at_ received (ActiveAttemptIDs m)).2
                     end)
        end
  end.

(** ** The consumer *)

Definition handleWorkerMessage (subject : str) (msg : WorkerMsg) (rec : option reconciler)
    : M (Disposition * option reconciler) :=
  match ParseWorkerSubject subject with
  | None => d ← ackMsg; mret (d, rec)
  | Some (workerID, _) =>
      if hasPrefix subject (SubjectWorkerRegisterPrefix ++ [dot])
      then d ← handleWorkerRegister (of_str workerID) msg; mret (d, rec)
      else if hasPrefix subject (SubjectWorkerHeartbeatPrefix ++ [dot])
      then handleWorkerHeartbeat (of_str workerID) msg rec
      else if hasPrefix subject (SubjectWorkerDeregisterPrefix ++ [dot])
      then d ← handleWorkerDeregister (of_str workerID) msg; mret (d, rec)
      else d ← ackMsg; mret (d, rec)
  end.

(** ** Silent workers *)

(** [livenessDeferred] *)
Definition livenessDeferred : M bool := λ w,
  let n := wcalls w in
  Some (Ok match BusUpSince with
           | None => false
           | Some since =>
               match since n with
               | None => true
               | Some up => now env n - Z.max up startedAt <? BusReconnectGrace
               end
           end, w).

(** Until a call is fenced. *)
Fixpoint staleLoop (stale : list (string * Worker)) (cutoff : Z) : M unit :=
  match stale with
  | [] => mret tt
  | (id, w) :: stale' =>
      t ← time_Now env;
      r ← attempt (call env (OfflineStaleWorker id cutoff t));
      match r with
      | Err e =>
          stop ← stopIfFenced e;
          if stop : bool then mret tt else staleLoop stale' cutoff
      | Ok (_, false) => staleLoop stale' cutoff
      | Ok (reclaimed, true) =>
          _ ← notify (WorkerEvent id (EffectiveStatus (set_WorkerStatusOf WorkerOffline w)));
          _ ← reclaimOfflineWorkerTasks reclaimed;
          staleLoop stale' cutoff
      end
  end.

Definition sweepStaleWorkers : M unit :=
  deferred ← livenessDeferred;
  if deferred : bool then mret tt
  else
    t ← time_Now env;
    let cutoff := t - WorkerTimeout in
    r ← attempt (query env (λ db, Ok (listed (ListStaleWorkers cutoff db))));
    match r with Err _ => mret tt | Ok stale => staleLoop stale cutoff end.

Definition sweepRetiredWorkers : M unit :=
  if OfflineWorkerRetention <=? 0 then mret tt
  else
    t ← time_Now env;
    r ← attempt (call env (DeleteOfflineWorkersBefore (t - OfflineWorkerRetention)));
    match r with
    | Err e => warnUnlessStopped (A:=unit) (Err e)
    | Ok removed => for_each (map_to_list removed) (λ w, notify (WorkerRemoved w.1))
    end.

(** ** Jobs past their retention *)

(** [DeleteTerminalJobsBefore]: each job in its own transaction; the jobs deleted
    before an error are returned with it. *)
Fixpoint purgeLoop (ids : list string) (cutoff : Z) (includeFailed : bool) (deleted : list string)
    : M (list string * option CallErr) :=
  match ids with
  | [] => mret (deleted, None)
  | id :: ids' =>
      r ← attempt (call env (purgeExpiredJob cutoff includeFailed id));
      match r with
      | Err e => mret (deleted, Some e)
      | Ok purged => purgeLoop ids' cutoff includeFailed (if purged : bool then deleted ++ [id] else deleted)
      end
  end.

Definition DeleteTerminalJobsBefore (cutoff : Z) (includeFailed : bool)
    : M (list string * option CallErr) :=
  r ← attempt (query env (λ db, Ok (expiredJobs cutoff includeFailed db)));
  match r with Err e => mret ([], Some e) | Ok ids => purgeLoop ids cutoff includeFailed [] end.

Definition warnPartial (err : option CallErr) : M unit :=
  match err with None => mret tt | Some e => warnUnlessStopped (A:=unit) (Err e) end.

Definition sweepRetiredJobs : M unit :=
  if JobRetention <=? 0 then mret tt
  else
    t ← time_Now env;
    r ← DeleteTerminalJobsBefore (t - JobRetention) JobRetentionIncludeFailed;
    _ ← warnPartial r.2;
    for_each r.1 (λ id, notify (JobRemoved id)).

(** ** Assignments that never started *)

(** [ReclaimStaleAssignedTasks]: a batch at a time. *)
Fixpoint reclaimLoop (batches : list (list string)) (cutoff : Z) (reclaimed : list (string * Task))
    : M (list (string * Task) * option CallErr) :=
  match batches with
  | [] => mret (reclaimed, None)
  | b :: batches' =>
      t ← time_Now env;
      r ← attempt (call env (reclaimStaleBatch b cutoff t));
      match r with
      | Err e => mret (reclaimed, Some e)
      | Ok got => reclaimLoop batches' cutoff (reclaimed ++ map_to_list got)
      end
  end.

Definition ReclaimStaleAssignedTasks (cutoff : Z) : M (list (string * Task) * option CallErr) :=
  r ← attempt (query env (λ db, Ok (staleAssignedCandidates cutoff db)));
  match r with
  | Err e => mret ([], Some e)
  | Ok cands => reclaimLoop (chunks (length cands) reclaimBatch cands) cutoff []
  end.

Definition announceReaped (reclaimed : list (string * Task)) : M unit :=
  for_each reclaimed (λ t, notifyTaskReclaimed env t.1 t.2).

Definition reapStaleAssignedTasks : M unit :=
  deferred ← livenessDeferred;
  if deferred : bool then mret tt
  else
    t ← time_Now env;
    r ← ReclaimStaleAssignedTasks (t - AssignedTaskTimeout);
    _ ← announceReaped r.1;
    warnPartial r.2.

(** ** Attempts no longer reported, and cancels that were lost *)

Definition reclaimUnreportedAttempt (a : OpenAttempt) (now : Z) : M unit :=
  r ← attempt (reclaimAttempt env (OpenAttemptID a) (OpenTaskID a) now);
  warnUnlessStopped r.

Fixpoint reclaimDue (as_ : list OpenAttempt) (now : Z) : M bool :=
  match as_ with
  | [] => mret true
  | a :: as' =>
      d ← deposed;
      if d : bool then mret false
      else _ ← reclaimUnreportedAttempt a now; reclaimDue as' now
  end.

Fixpoint cancelClosedAttempts (hs : list (string * heldAttempt)) : M unit :=
  match hs with
  | [] => mret tt
  | (attemptID, h) :: hs' =>
      d ← deposed;
      if d : bool then mret tt
      else
        r ← attempt (GetTaskAttempt env attemptID);
        _ ← match r with
            | Err (StoreError ErrNotFound) => publishCancel (heldWorkerID h) "" attemptID
            | Err e => warnUnlessStopped (A:=unit) (Err e)
            | Ok a =>
                if match EndedAt a with Some e => negb (e <? heldReceivedAt h) | None => false end
                then mret tt
                else
                  t ← attempt (GetTask env (AttemptTaskID a));
                  match t with
                  | Err e => warnUnlessStopped (A:=unit) (Err e)
                  | Ok _ => publishCancel (heldWorkerID h) (AttemptTaskID a) attemptID
                  end
            end;
        cancelClosedAttempts hs'
  end.

Definition reconcileAttempts (rec : option reconciler) (now : Z) : M (option reconciler) :=
  match rec with
  | None => mret None
  | Some rc =>
      if now - startedAt <? ReconcileGrace then mret (Some rc)
      else
        let holding := held rangeReports rc now in
        r ← attempt (query env (λ db, Ok (openAttempts db)));
        match r with
        | Err _ => mret (Some rc)
        | Ok open =>
            let '(dues, rc') := due rc open now in
            all ← reclaimDue dues now;
            if negb all then mret (Some rc')
            else
              let rest := fold_left (λ m a, delete (OpenAttemptID a) m) open holding in
              _ ← cancelClosedAttempts (rangeHeld rest);
              mret (Some rc')
        end
  end.

(** ** Stalled jobs *)

Fixpoint demoteLoop (ids : list string) (now : Z) (demoted : list string)
    : M (list string * option CallErr) :=
  match ids with
  | [] => mret (demoted, None)
  | id :: ids' =>
      r ← attempt (call env (demoteStalledJob id now));
      match r with
      | Err e => mret (demoted, Some e)
      | Ok got => demoteLoop ids' now (if got : bool then demoted ++ [id] else demoted)
      end
  end.

Definition DemoteStalledJobs (now : Z) : M (list string * option CallErr) :=
  r ← attempt (query env (λ db, Ok (stalledJobCandidates db)));
  match r with Err e => mret ([], Some e) | Ok ids => demoteLoop ids now [] end.

Definition demoteStalledJobs : M unit :=
  t ← time_Now env;
  r ← DemoteStalledJobs t;
  _ ← for_each r.1 (λ id, notify (JobEvent id JobPending));
  warnPartial r.2.

(** ** A tick *)

Definition sweepBlockedJobsOnce (fuel : nat) : M unit :=
  r ← attempt (sweepBlockedJobs env fuel);
  match r with Err e => _ ← stopIfFenced e; mret tt | Ok _ => mret tt end.

(** One sweep, unless this scheduler has been deposed. *)
Definition unlessDeposed {A} (old : A) (sweep : M A) : M A :=
  d ← deposed;
  if d : bool then mret old else sweep.

Definition sweepOnce (fuel : nat) (rec : option reconciler) : M (option reconciler) :=
  _ ← unlessDeposed tt sweepStaleWorkers;
  _ ← unlessDeposed tt sweepRetiredWorkers;
  _ ← unlessDeposed tt sweepRetiredJobs;
  _ ← unlessDeposed tt reapStaleAssignedTasks;
  rec' ← unlessDeposed rec (t ← time_Now env; reconcileAttempts rec t);
  _ ← unlessDeposed tt demoteStalledJobs;
  _ ← unlessDeposed tt (sweepUnschedulable env range FarmID srv UnschedulableGrace listed);
  _ ← unlessDeposed tt (sweepBlockedJobsOnce fuel);
  mret rec'.

(** ** Start-up *)

(** Steps a finished task left behind, through the path a report takes. *)
Fixpoint stuckLoop (fuel : nat) (ss : list (string * Step)) : M unit :=
  match ss with
  | [] => mret tt
  | (id, st) :: ss' =>
      d ← deposed;
      if d : bool then mret tt
      else
        r ← attempt (checkStepCompletion env fuel id (StepJobID st));
        match r with
        | Err e =>
            stop ← stopIfFenced e;
            if stop : bool then mret tt else stuckLoop fuel ss'
        | Ok _ => stuckLoop fuel ss'
        end
  end.

(** [ORDER BY job_id, step_order] *)
Definition stuckSteps (db : DB) : list (string * Step) :=
  sort_by (λ a b, String.ltb (StepJobID a.2) (StepJobID b.2)
                  || (bool_decide (StepJobID a.2 = StepJobID b.2) && (StepOrder a.2 <=? StepOrder b.2)))
    (map_to_list (ListStuckSteps db)).

Definition reconcileStuckSteps (fuel : nat) : M unit :=
  r ← attempt (query env (λ db, Ok (stuckSteps db)));
  match r with Err _ => mret tt | Ok ss => stuckLoop fuel ss end.

(** [sqlListJobIDsWithPendingSteps] *)
Definition ListJobIDsWithPendingSteps (db : DB) : list string :=
  sort_by String.leb (map_to_list (matching (λ id j,
    negb (job_terminal (JobStatusOf j)) && negb (bool_decide (JobStatusOf j = JobBlocked))
    && exists_where (λ _ st, bool_decide (StepJobID st = id) && bool_decide (StepStatusOf st = StepPending))
         (steps db)) (jobs db))).*1.

Definition jobHasOpenStep (jobID : string) : M bool :=
  query env (λ db, Ok (existsb (λ st, negb (step_terminal (StepStatusOf st.2))) (ListSteps db jobID))).

Definition reconcilePendingJob (fuel : nat) (jobID : string) : M unit :=
  r ← attempt (propagateStepDependencies env jobID StepCompleted);
  match r with
  | Err e => _ ← stopIfFenced e; mret tt
  | Ok _ =>
      r ← attempt (propagateStepDependencies env jobID StepFailed);
      match r with
      | Err e => _ ← stopIfFenced e; mret tt
      | Ok _ =>
          open ← attempt (jobHasOpenStep jobID);
          match open with
          | Err _ | Ok true => mret tt
          | Ok false =>
              r ← attempt (checkJobCompletion env fuel jobID);
              match r with Err e => _ ← stopIfFenced e; mret tt | Ok _ => mret tt end
          end
      end
  end.

Fixpoint pendingLoop (fuel : nat) (ids : list string) : M unit :=
  match ids with
  | [] => mret tt
  | id :: ids' =>
      d ← deposed;
      if d : bool then mret tt
      else _ ← reconcilePendingJob fuel id; pendingLoop fuel ids'
  end.

Definition reconcilePendingSteps (fuel : nat) : M unit :=
  r ← attempt (query env (λ db, Ok (ListJobIDsWithPendingSteps db)));
  match r with Err _ => mret tt | Ok ids => pendingLoop fuel ids end.

(** Before [Run] leases anything. *)
Definition startUp (fuel : nat) : M unit :=
  _ ← reconcileStuckSteps fuel; reconcilePendingSteps fuel.
End Fleet.
