(* ===== verification/Tending.v ===== *)
(** * The scheduler as a whole

    Every input the scheduler takes — messages from the bus, lease requests, the
    API's cancellations and retries, the ticks of its own clock — served one after
    another on one store, with other writers between any two store calls.  The
    other goroutines of the same process are among those writers. *)

From S2P Require Import Prelude StatusText Subjects GoText Schema Sample Finalize Attempts Lease Jobs Workers Catalog.
From S2P Require Import Evolve Keeps StoreInv Outcomes Sched Policy Match Deps Reconcile Handlers Handling.
From S2P Require Import Select Selecting Reconciler Fleet.
Open Scope Z_scope.

Create HintDb keeping.

(** ** Inputs *)

Inductive Input :=
  | InStatus (subject : str) (payload : option TaskStatusMsg) (delivered : Z)
  | InWorker (subject : str) (msg : WorkerMsg)
  | InLease (workerID : string) (payload : option leaseRequest) (woken : bool)
  | InTick
  | InCancelJob (jobID : string)
  | InCancelTask (taskID : string)
  | InRetryJob (jobID : string)
  | InRetryTask (taskID : string).

Section Tending.
Context (env : Surroundings) {tables : CaseTables}.
Context (range : gmap string string → list (string * string)).
Context (RetryDefaults : RetryPolicy) (FarmID : string) (AssignBatchSize : nat) (srv : ServerExprLimits).
Context (NATSAuthEnabled : bool).
Context (WorkerTimeout AssignedTaskTimeout OfflineWorkerRetention JobRetention : Z).
Context (JobRetentionIncludeFailed : bool) (UnschedulableGrace ReconcileGrace BusReconnectGrace : Z).
Context (BusUpSince : option (nat → option Z)) (startedAt : Z).
Context (uuid : nat → nat → string) {Template Payload : Type}.
Context (stepTemplate : Job → Step → option Template).
Context (assemble : Template → string → Task → Worker → Queue → string → option Payload).
Context (listed : gmap string Worker → list (string * Worker)).
Context (rangeReports : gmap string workerReport → list (string * workerReport)).
Context (rangeHeld : gmap string heldAttempt → list (string * heldAttempt)).
Context (fuel : nat).

(** One input, by the handler [Run] wires it to; an error goes back to whoever
    asked.  With the attempt reconciler after it. *)
Definition serve (i : Input) (rec : option reconciler) : M (option reconciler) :=
  match i with
  | InStatus subject payload delivered =>
      _ ← attempt (handleTaskStatusMessage env RetryDefaults fuel subject payload delivered); mret rec
  | InWorker subject msg =>
      r ← handleWorkerMessage env NATSAuthEnabled uuid subject msg rec; mret r.2
  | InLease workerID payload woken =>
      _ ← attempt (handleLeaseRequest env range FarmID AssignBatchSize srv uuid stepTemplate assemble
                     workerID payload woken); mret rec
  | InTick =>
      sweepOnce env range FarmID srv WorkerTimeout AssignedTaskTimeout OfflineWorkerRetention JobRetention
        JobRetentionIncludeFailed UnschedulableGrace ReconcileGrace BusReconnectGrace BusUpSince startedAt
        listed rangeReports rangeHeld fuel rec
  | InCancelJob jobID => _ ← attempt (CancelJob env jobID); mret rec
  | InCancelTask taskID => _ ← attempt (CancelTask env fuel taskID); mret rec
  | InRetryJob jobID => _ ← attempt (RetryJob env fuel jobID); mret rec
  | InRetryTask taskID => _ ← attempt (RetryTask env fuel taskID); mret rec
  end.

Fixpoint serveAll (ins : list Input) (rec : option reconciler) : M (option reconciler) :=
  match ins with
  | [] => mret rec
  | i :: ins' => r ← attempt (serve i rec); serveAll ins' (match r with Ok rec' => rec' | Err _ => rec end)
  end.

(** A scheduler from its start: the repairs, then its inputs. *)
Definition Run (ins : list Input) : M (option reconciler) :=
  _ ← attempt (startUp env fuel); serveAll ins (reconcilerFor ReconcileGrace WorkerTimeout).

(** ** The worker handlers and the sweeps keep the store's invariants *)

Section Keeping.
Context (aid : string) (HW : Writers env aid).
Context (B : gset string) (Hfuel : (size B < fuel)%nat).

Lemma others_keep n db : Sound B db → Sound B (others env n db).
Proof using HW. by apply (others_Sound env aid HW). Qed.

Lemma write_keeps {A} (op : DB → res StoreErr A * DB) (o : Op) :
  (∀ db, (op db).2 = run o db) → (∀ db, allowed o db = true) →
  match o with OpSubmit _ _ _ _ _ => False | _ => True end → keeps true (Sound B) (call env op).
Proof using HW. intros H1 H2 H3. by apply (op_keeps env aid HW B true op (λ _, o)). Qed.

Lemma warn_keeps {A} (r : res CallErr A) : keeps true (Sound B) (warnUnlessStopped r).
Proof. unfold warnUnlessStopped. keep_steps. apply fence_keeps. Qed.

Lemma warnPartial_keeps e : keeps true (Sound B) (warnPartial e).
Proof. unfold warnPartial. keep_steps. apply warn_keeps. Qed.

Lemma ack_keeps : keeps true (Sound B) ackMsg.
Proof. unfold ackMsg. keep_steps. apply deposed_keeps. Qed.

Lemma nak_keeps n : keeps true (Sound B) (nakMsg n).
Proof. unfold nakMsg. keep_steps. apply deposed_keeps. Qed.

Lemma reclaimOffline_keeps ts : keeps true (Sound B) (reclaimOfflineWorkerTasks ts).
Proof. unfold reclaimOfflineWorkerTasks. keep_steps. Qed.

#[local] Hint Resolve others_keep warn_keeps warnPartial_keeps ack_keeps nak_keeps : keeping.
#[local] Hint Resolve reclaimOffline_keeps deposed_keeps fence_keeps : keeping.

Ltac tend := keep_steps; auto with keeping.

Lemma ensureComputeLocation_keeps name : keeps true (Sound B) (ensureComputeLocation env uuid name).
Proof using HW.
  unfold ensureComputeLocation. tend. by eapply (write_keeps _ (OpLocation _ _)).
Qed.

Lemma touchWorkerCredential_keeps id t : keeps true (Sound B) (touchWorkerCredential env id t).
Proof using HW. unfold touchWorkerCredential. tend. by eapply (write_keeps _ (OpTouchCredential _ _)). Qed.

Lemma handleWorkerRegister_keeps id msg :
  keeps true (Sound B) (handleWorkerRegister env NATSAuthEnabled uuid id msg).
Proof using HW.
  unfold handleWorkerRegister.
  tend; auto using ensureComputeLocation_keeps, touchWorkerCredential_keeps.
  by eapply (write_keeps _ (OpRegister _ _ _)).
Qed.

Lemma handleWorkerDeregister_keeps id msg : keeps true (Sound B) (handleWorkerDeregister env id msg).
Proof using HW.
  unfold handleWorkerDeregister, GetWorker. tend. by eapply (write_keeps _ (OpOffline _ _ _)).
Qed.

Lemma handleWorkerHeartbeat_keeps id msg rec : keeps true (Sound B) (handleWorkerHeartbeat env id msg rec).
Proof using HW.
  unfold handleWorkerHeartbeat. tend. by eapply (write_keeps _ (OpHeartbeat _ _ _ _)).
Qed.

Lemma handleWorkerMessage_keeps subject msg rec :
  keeps true (Sound B) (handleWorkerMessage env NATSAuthEnabled uuid subject msg rec).
Proof using HW.
  unfold handleWorkerMessage.
  tend; auto using handleWorkerRegister_keeps, handleWorkerHeartbeat_keeps, handleWorkerDeregister_keeps.
Qed.

Lemma sweepStaleWorkers_keeps :
  keeps true (Sound B) (sweepStaleWorkers env WorkerTimeout BusReconnectGrace BusUpSince startedAt listed).
Proof using HW.
  unfold sweepStaleWorkers. tend.
  match goal with |- keeps _ _ (staleLoop _ ?l ?c) => generalize c; induction l as [|[id w] l IH] end;
    intros c; cbn [staleLoop]; tend. by eapply (write_keeps _ (OpOfflineStale _ _ _)).
Qed.

Lemma sweepRetiredWorkers_keeps : keeps true (Sound B) (sweepRetiredWorkers env OfflineWorkerRetention).
Proof using HW.
  unfold sweepRetiredWorkers. tend. by eapply (write_keeps _ (OpDeleteOfflineWorkers _)).
Qed.

Lemma purgeLoop_keeps ids cutoff f done_ : keeps true (Sound B) (purgeLoop env ids cutoff f done_).
Proof using HW.
  revert done_. induction ids as [|id ids IH]; intros done_; cbn [purgeLoop]; tend. by eapply (write_keeps _ (OpPurgeJob _ _ _)).
Qed.

Lemma sweepRetiredJobs_keeps :
  keeps true (Sound B) (sweepRetiredJobs env JobRetention JobRetentionIncludeFailed).
Proof using HW. unfold sweepRetiredJobs, DeleteTerminalJobsBefore. tend. apply purgeLoop_keeps. Qed.

Lemma reclaimLoop_keeps bs cutoff got : keeps true (Sound B) (reclaimLoop env bs cutoff got).
Proof using HW.
  revert got. induction bs as [|b bs IH]; intros got; cbn [reclaimLoop]; tend. by eapply (write_keeps _ (OpReclaimStale _ _ _)).
Qed.

Lemma reapStaleAssignedTasks_keeps :
  keeps true (Sound B)
    (reapStaleAssignedTasks env AssignedTaskTimeout BusReconnectGrace BusUpSince startedAt).
Proof using HW.
  unfold reapStaleAssignedTasks, ReclaimStaleAssignedTasks, announceReaped, notifyTaskReclaimed.
  tend; try apply reclaimLoop_keeps. by apply (notifyQueue_keeps env aid HW).
Qed.

Lemma reclaimDue_keeps as_ now : keeps true (Sound B) (reclaimDue env as_ now).
Proof using HW.
  induction as_ as [|a as_ IH]; cbn [reclaimDue]; tend.
  unfold reclaimUnreportedAttempt, reclaimAttempt, notifyTaskReclaimed, GetTask. tend.
  - by eapply (write_keeps _ (OpReclaimAttempt _ _ _)).
  - by apply (notifyQueue_keeps env aid HW).
Qed.

Lemma cancelClosedAttempts_keeps hs : keeps true (Sound B) (cancelClosedAttempts env hs).
Proof using HW.
  induction hs as [|[id h] hs IH]; cbn [cancelClosedAttempts]; unfold GetTaskAttempt, GetTask, publishCancel; tend.
Qed.

Lemma reconcileAttempts_keeps rec now :
  keeps true (Sound B) (reconcileAttempts env ReconcileGrace startedAt rangeReports rangeHeld rec now).
Proof using HW.
  unfold reconcileAttempts. tend; auto using reclaimDue_keeps, cancelClosedAttempts_keeps.
Qed.

Lemma demoteLoop_keeps ids now got : keeps true (Sound B) (demoteLoop env ids now got).
Proof using HW.
  revert got. induction ids as [|id ids IH]; intros got; cbn [demoteLoop]; tend. by eapply (write_keeps _ (OpDemoteStalledJob _ _)).
Qed.

Lemma demoteStalledJobs_keeps : keeps true (Sound B) (demoteStalledJobs env).
Proof using HW. unfold demoteStalledJobs, DemoteStalledJobs. tend. apply demoteLoop_keeps. Qed.

Lemma completes : Completes env (Sound B).
Proof using HW. by apply (Completes_Sound env aid HW). Qed.

Lemma stepCompletion_keeps stepID jobID : keeps true (Sound B) (checkStepCompletion env fuel stepID jobID).
Proof using HW Hfuel. by apply (completion_keeps env aid HW). Qed.

Lemma jobCompletion_keeps jobID : keeps true (Sound B) (checkJobCompletion env fuel jobID).
Proof using HW Hfuel.
  apply (checkJobCompletion_keeps env (Sound B) completes B); [by intros db []|apply HW|done].
Qed.

Lemma blockedJob_keeps id : keeps true (Sound B) (reconcileBlockedJob env fuel id).
Proof using HW Hfuel.
  apply (reconcileBlockedJob_total env (Sound B) completes B); [by intros db []|apply HW|done].
Qed.

#[local] Hint Resolve stepCompletion_keeps jobCompletion_keeps blockedJob_keeps : keeping.

Lemma activeCountsOf_keeps names ps counts : keeps true (Sound B) (activeCountsOf env names ps counts).
Proof using HW. revert counts. induction names as [|name names IH]; intros counts; cbn [activeCountsOf]; tend. Qed.

Lemma unschedulableLoop_keeps rows cutoff ws :
  keeps true (Sound B) (unschedulableLoop env range srv rows cutoff ws).
Proof using HW.
  induction rows as [|row rows IH]; cbn [unschedulableLoop]; tend.
  unfold reconcileTaskSchedulability, evaluateSchedulability, GetJob, GetStep, buildUsageContext.
  tend; try apply activeCountsOf_keeps. by eapply (write_keeps _ (OpUnschedulable _ _ _)).
Qed.

Lemma sweepUnschedulable_keeps :
  keeps true (Sound B) (sweepUnschedulable env range FarmID srv UnschedulableGrace listed).
Proof using HW. unfold sweepUnschedulable, onlineWorkers. tend. apply unschedulableLoop_keeps. Qed.

Lemma sweepBlockedJobsOnce_keeps : keeps true (Sound B) (sweepBlockedJobsOnce env fuel).
Proof using HW Hfuel. unfold sweepBlockedJobsOnce, sweepBlockedJobs. tend. Qed.

Lemma sweepOnce_keeps rec :
  keeps true (Sound B) (sweepOnce env range FarmID srv WorkerTimeout AssignedTaskTimeout
    OfflineWorkerRetention JobRetention JobRetentionIncludeFailed UnschedulableGrace ReconcileGrace
    BusReconnectGrace BusUpSince startedAt listed rangeReports rangeHeld fuel rec).
Proof using HW Hfuel.
  unfold sweepOnce, unlessDeposed.
  tend; auto using sweepStaleWorkers_keeps, sweepRetiredWorkers_keeps, sweepRetiredJobs_keeps,
    reapStaleAssignedTasks_keeps, reconcileAttempts_keeps, demoteStalledJobs_keeps,
    sweepUnschedulable_keeps, sweepBlockedJobsOnce_keeps.
Qed.

Lemma propagate_keeps jobID st : keeps true (Sound B) (propagateStepDependencies env jobID st).
Proof using HW. apply propagateStepDependencies_keeps, completes. Qed.

Lemma startUp_keeps : keeps true (Sound B) (startUp env fuel).
Proof using HW Hfuel.
  unfold startUp, reconcileStuckSteps, reconcilePendingSteps. tend.
  - match goal with |- keeps _ _ (stuckLoop _ _ ?ss) => induction ss as [|[id st] ss IH] end;
      cbn [stuckLoop]; tend.
  - match goal with |- keeps _ _ (pendingLoop _ _ ?ids) => induction ids as [|id ids IH] end;
      cbn [pendingLoop]; tend.
    unfold reconcilePendingJob, jobHasOpenStep. tend; apply propagate_keeps.
Qed.

Lemma retry_keeps jobID ids : keeps true (Sound B) (retry env fuel jobID ids).
Proof using HW Hfuel.
  unfold retry, notifyRevived, notifyRecanceled, GetTask, GetJob.
  tend; auto using ResolveDependencies_keeps, CancelDependents_keeps, completes.
  - by eapply (write_keeps _ (OpRetryTasks _ _ _)).
  - by apply (notifyQueue_keeps env aid HW).
Qed.

Lemma serve_keeps i rec :
  (∀ subject m delivered, i = InStatus subject (Some m) delivered → MsgAttemptID m = aid) →
  keeps true (Sound B) (serve i rec).
Proof using HW Hfuel.
  intros Hi. destruct i; cbn [serve]; unfold CancelJob, CancelTask, RetryJob, RetryTask, GetTask,
    publishCancelSignals, publishCancel; tend; auto using sweepOnce_keeps, retry_keeps, handleWorkerMessage_keeps.
  - apply (handleTaskStatusMessage_keeps env RetryDefaults aid HW B fuel Hfuel). intros m ->. eauto.
  - apply handleLeaseRequest_keeps; [apply others_keep|]. intros req db _ _ Hdb.
    by apply (run_Sound B (OpLease req)).
  - by eapply (write_keeps _ (OpCancelJob _ _ _)).
  - by eapply (write_keeps _ (OpCancelTask _ _ _)).
Qed.
End Keeping.

(** The attempt a report is of. *)
Definition reported (i : Input) : string :=
  match i with InStatus _ (Some m) _ => MsgAttemptID m | _ => ""%string end.

Lemma serveAll_keeps B ins rec :
  (size B < fuel)%nat → (∀ i, i ∈ ins → Writers env (reported i)) → keeps true (Sound B) (serveAll ins rec).
Proof.
  intros Hf. revert rec. induction ins as [|i ins IH]; intros rec Hi; cbn [serveAll]; [apply keeps_ret|].
  apply keeps_bind; [|intros r; apply IH; intros i' Hi'; apply Hi; by right]. apply keeps_attempt.
  apply (serve_keeps (reported i)); [apply Hi; by left|done|]. by intros subject m delivered ->.
Qed.

(** C5. The whole scheduler keeps the store sound.  From any reachable database,
    after any sequence of reports, worker messages, lease requests, ticks,
    cancellations and retries, whatever they contain, whatever other writers
    commit between any two store calls (as long as they keep the database
    reachable, block no further job and reopen no attempt being reported), and
    whichever calls fail: the start-up repairs and every handler return, the
    database is reachable, so that every invariant of the store holds of it, and
    no job has become blocked.  The fuel needed is one level for each job blocked
    at the start. *)
Theorem scheduler_keeps_store ins w :
  Writers env ""%string → (∀ i, i ∈ ins → Writers env (reported i)) →
  (size (blockedIDs (wdb w)) < fuel)%nat → reachable (wdb w) →
  ∃ r w', Run ins w = Some (r, w') ∧ reachable (wdb w') ∧ blockedIDs (wdb w') ⊆ blockedIDs (wdb w).
Proof.
  intros HW Hins Hf Hr. apply (keeps_returns (Sound (blockedIDs (wdb w)))); [|by split].
  unfold Run. apply keeps_bind; [apply keeps_attempt; by eapply startUp_keeps|].
  intros _. by apply serveAll_keeps.
Qed.
End Tending.

(** ** Witness *)

Definition sampleInputs : list Input :=
  [ InWorker (WorkerHeartbeatSubject (of_string "w"))
      (mkWorkerMsg None (Some (mkHeartbeatMsg ProtocolVersion "w" None true ["a1"%string])) None (Some 25) 1);
    InStatus (TaskStatusSubject (of_string "w") (of_string "j")) (Some (sampleReport "succeeded")) 1;
    InLease "w" (Some (mkleaseRequest "w" "i1")) true; InTick; InRetryJob "j"; InCancelJob "j" ].

Definition sampleRun : M (option reconciler) :=
  Run (tables := asciiTables) (quiet (λ n, 30 + Z.of_nat n)) sampleRange samplePolicy "" 50 sampleLimits false
    90 120 0 0 false 0 60 30 None 0 sampleUUID (λ _ _, Some tt) (λ _ taskID _ _ _ _, Some taskID)
    map_to_list map_to_list map_to_list 1 sampleInputs.

Lemma Writers_quiet clock aid : Writers (quiet clock) aid.
Proof. by split. Qed.

Lemma scheduler_keeps_store_witness :
  ∃ r w', sampleRun sampleWorld = Some (r, w') ∧ reachable (wdb w') ∧
    blockedIDs (wdb w') ⊆ blockedIDs (wdb sampleWorld).
Proof.
  apply scheduler_keeps_store.
  - apply Writers_quiet.
  - intros i _. apply Writers_quiet.
  - apply Nat.ltb_lt. vm_compute. reflexivity.
  - exact sampleReached_reachable.
Defined.

(** The report of that run is taken. *)
Lemma sampleRun_served :
  (λ rw, (TaskStatusOf <$> tasks (wdb rw.2) !! "t1"%string)) <$> sampleRun sampleWorld = Some (Some TaskSucceeded).
Proof. vm_compute. reflexivity. Qed.
