(* ===== verification/Silent.v ===== *)
(** * Silent workers

    What [sweepStaleWorkers] of [internal/scheduler/scheduler.go] does to the
    workers and their tasks: exactly the workers that fell silent go offline, and
    exactly their tasks go back to ready; nothing is done while the bus has not
    been up long enough to judge. *)

From S2P Require Import Prelude Schema Sample Finalize Attempts Lease Jobs Workers Evolve Keeps StoreInv.
From S2P Require Import Transitions Sched Handlers Handling Reconciler Select Fleet.
Open Scope Z_scope.

Section Silent.
Context (cutoff : Z).

(** A worker among [ids] that is online and was last heard of before the cutoff. *)
Definition silent (ids : list string) (db : DB) (id : string) : bool :=
  bool_decide (id ∈ ids) && row_matches (workers db) id (staleWorker cutoff).

(** Held, in flight, by such a worker. *)
Definition stranded (ids : list string) (db : DB) (t : Task) : bool :=
  in_flight (TaskStatusOf t) && match AssignedWorkerID t with Some w => silent ids db w | None => false end.

(** The silent workers of [ids] offline, their tasks ready again, every other
    worker and task as it was. *)
Record Swept (ids : list string) (db db' : DB) : Prop := mkSwept {
  swept_workers : ∀ k, if silent ids db k
    then ∃ x n, workers db !! k = Some x ∧
                workers db' !! k = Some (set_WorkerUpdatedAt n (set_WorkerStatusOf WorkerOffline x))
    else workers db' !! k = workers db !! k;
  swept_tasks : ∀ k, match tasks db !! k with
    | Some t => if stranded ids db t then ∃ n, tasks db' !! k = Some (reclaimTask n t)
                else tasks db' !! k = Some t
    | None => tasks db' !! k = None
    end;
}.

Lemma workers_closeTasks ids s m n db : workers (closeTasksAttemptsTx ids s m n db) = workers db.
Proof. unfold closeTasksAttemptsTx. by case_bool_decide. Qed.

(** One worker. *)
Lemma OfflineStaleWorker_swept id n db : Swept [id] db (OfflineStaleWorker id cutoff n db).2.
Proof.
  unfold OfflineStaleWorker, offlineWorker, inTx.
  assert (∀ k, silent [id] db k = bool_decide (k = id) && row_matches (workers db) id (staleWorker cutoff)) as Hs.
  { intros k. unfold silent. rewrite (bool_decide_ext (k ∈ [id]) (k = id)) by apply list_elem_of_singleton.
    case_bool_decide; [by subst k|done]. }
  assert (∀ t, stranded [id] db t = workerTask id t && row_matches (workers db) id (staleWorker cutoff)) as Ht.
  { intros t. unfold stranded, workerTask. destruct (in_flight _); cbn [andb]; [|by rewrite andb_false_r].
    rewrite andb_true_r. destruct (AssignedWorkerID t) as [w|]; [|by rewrite bool_decide_false].
    rewrite Hs. f_equal. apply bool_decide_ext. naive_solver. }
  destruct (row_matches (workers db) id (staleWorker cutoff)) eqn:Hr; cbn [negb snd].
  - unfold reclaimWorkerTasksTx, row_matches in *. cbn [snd]. split.
    + intros k. rewrite Hs, andb_true_r, workers_closeTasks. cbn. rewrite lookup_update_where.
      case_bool_decide as Hk; cbn [andb]; [subst k|by destruct (workers db !! k)].
      destruct (workers db !! id) as [x|]; [|done]. cbn. rewrite Hr. by exists x, n.
    + intros k. rewrite tasks_closeTasks. cbn. rewrite lookup_update_where.
      destruct (tasks db !! k) as [t|]; [|done]. rewrite Ht, andb_true_r. cbn.
      destruct (workerTask id t); eauto.
  - split; intros k; [by rewrite Hs, andb_false_r|].
    destruct (tasks db !! k); [|done]. by rewrite Ht, andb_false_r.
Qed.

(** One after another. *)
Lemma Swept_cons id ids db db1 db' : Swept [id] db db1 → Swept ids db1 db' → Swept (id :: ids) db db'.
Proof.
  intros [HW HT] [HW' HT'].
  assert (∀ k, silent (id :: ids) db k = silent [id] db k || silent ids db k) as Hs.
  { intros k. unfold silent. destruct (row_matches _ _ _); rewrite ?andb_false_r, ?andb_true_r; [|done].
    rewrite <- bool_decide_or. apply bool_decide_ext. set_solver. }
  assert (∀ k, silent [id] db k = true → silent ids db1 k = false) as H1.
  { intros k Hk. specialize (HW k). rewrite Hk in HW. destruct HW as (x & n & _ & E).
    unfold silent, row_matches. rewrite E. apply andb_false_r. }
  assert (∀ k, silent [id] db k = false → silent ids db1 k = silent ids db k) as H0.
  { intros k Hk. specialize (HW k). rewrite Hk in HW. unfold silent, row_matches. by rewrite HW. }
  split; intros k.
  - specialize (HW k). specialize (HW' k). rewrite Hs.
    destruct (silent [id] db k) eqn:Hk; cbn [orb].
    + rewrite (H1 k Hk) in HW'. by rewrite HW'.
    + rewrite (H0 k Hk), HW in HW'. done.
  - specialize (HT k). specialize (HT' k). destruct (tasks db !! k) as [t|]; [|by rewrite HT in HT'].
    assert (stranded (id :: ids) db t = stranded [id] db t || stranded ids db t) as ->.
    { unfold stranded. destruct (in_flight _), (AssignedWorkerID t); cbn; auto. }
    destruct (stranded [id] db t) eqn:Ht; cbn [orb].
    + destruct HT as [n E]. rewrite E in HT'. exists n. exact HT'.
    + rewrite HT in HT'. assert (stranded ids db1 t = stranded ids db t) as E; [|by rewrite E in HT'].
      unfold stranded in *. destruct (in_flight _), (AssignedWorkerID t); cbn in *; auto.
Qed.

Lemma Swept_nil db : Swept [] db db.
Proof.
  split; intros k; [done|]. destruct (tasks db !! k) as [t|]; [|done].
  replace (stranded [] db t) with false; [done|]. unfold stranded. destruct (in_flight _), (AssignedWorkerID t); done.
Qed.

Lemma Swept_ext ids ids' db db' :
  (∀ k, silent ids db k = silent ids' db k) → Swept ids db db' → Swept ids' db db'.
Proof.
  intros He [HW HT]. split; intros k; [specialize (HW k); by rewrite He in HW|].
  specialize (HT k). destruct (tasks db !! k) as [t|]; [|done].
  replace (stranded ids' db t) with (stranded ids db t); [done|].
  unfold stranded. destruct (AssignedWorkerID t); [by rewrite He|done].
Qed.

Lemma staleLoop_swept clock stale w :
  returns (staleLoop (quiet clock) stale cutoff) w (λ r w', r = Ok tt ∧ Swept stale.*1 (wdb w) (wdb w')).
Proof.
  revert w. induction stale as [|[id x] stale IH]; intros w; cbn [staleLoop fmap list_fmap fst].
  { apply returns_ret. split; [done|apply Swept_nil]. }
  apply returns_bind, returns_time, returns_bind, returns_attempt, returns_call_quiet.
  change (now (quiet clock) (wcalls w)) with (clock (wcalls w)).
  set (w1 := mkWorld _ _ _). pose proof (OfflineStaleWorker_swept id (clock (wcalls w)) (wdb w)) as H1.
  assert (∀ w2, wdb w2 = wdb w1 → returns (staleLoop (quiet clock) stale cutoff) w2
    (λ r w', r = Ok tt ∧ Swept (id :: stale.*1) (wdb w) (wdb w'))) as Hgo.
  { intros w2 E. eapply returns_mono; [apply IH|]. intros r w' [-> H]. split; [done|].
    eapply Swept_cons; [exact H1|]. by rewrite E in H. }
  destruct (OfflineStaleWorker id cutoff (clock (wcalls w)) (wdb w)).1 as [[reclaimed [|]]|e] eqn:E1; cbn iota beta.
  - apply returns_bind, returns_notify, returns_bind. unfold reclaimOfflineWorkerTasks.
    destruct (bool_decide _); [apply returns_ret|apply returns_notify]; by apply Hgo.
  - by apply Hgo.
  - apply returns_bind. unfold stopIfFenced. apply returns_ret. by apply Hgo.
Qed.
End Silent.

Section Sweep.
Context (WorkerTimeout BusReconnectGrace : Z) (BusUpSince : option (nat → option Z)) (startedAt : Z).
Context (listed : gmap string Worker → list (string * Worker)).

(** The bus is down, or has not been up, nor the scheduler running, for the grace. *)
Definition unjudged (at_ : Z) (n : nat) : Prop :=
  ∃ since, BusUpSince = Some since ∧
    (since n = None ∨ ∃ up, since n = Some up ∧ at_ - Z.max up startedAt < BusReconnectGrace).

Lemma livenessDeferred_spec env w :
  ∃ b, livenessDeferred env BusReconnectGrace BusUpSince startedAt w = Some (Ok b, w) ∧
    (b = true ↔ unjudged (now env (wcalls w)) (wcalls w)).
Proof.
  eexists. split; [reflexivity|]. unfold unjudged. destruct BusUpSince as [since|]; [|naive_solver].
  destruct (since (wcalls w)) as [up|] eqn:E; [|naive_solver]. rewrite Z.ltb_lt. naive_solver.
Qed.

(** C12. The sweep for silent workers takes exactly those.  While the bus is down,
    or has been up (or the scheduler running) for less than the reconnect grace,
    it does nothing at all.  Otherwise, with no other writer, exactly the workers
    that are online and were last heard of longer ago than the timeout go offline,
    exactly the tasks they had in flight go back to ready, unassigned, and every
    other worker and task is as it was. *)
Theorem stale_sweep_exact clock w :
  (∀ m, listed m ≡ₚ map_to_list m) →
  ∃ w', sweepStaleWorkers (quiet clock) WorkerTimeout BusReconnectGrace BusUpSince startedAt listed w
          = Some (Ok tt, w') ∧
    (unjudged (clock (wcalls w)) (wcalls w) → w' = w) ∧
    (¬ unjudged (clock (wcalls w)) (wcalls w) →
       Swept (clock (wcalls w) - WorkerTimeout) (map_to_list (workers (wdb w))).*1 (wdb w) (wdb w')).
Proof.
  intros Hl. unfold sweepStaleWorkers.
  destruct (livenessDeferred_spec (quiet clock) w) as (b & E & Hb). cbn [now quiet] in Hb.
  rewrite (bind_ok _ _ w b w) by exact E. destruct b.
  { exists w. split; [done|]. naive_solver. }
  set (cutoff := clock (wcalls w) - WorkerTimeout).
  destruct (staleLoop_swept cutoff clock (listed (ListStaleWorkers cutoff (wdb w)))
    (mkWorld (wdb w) (S (wcalls w)) (wevents w))) as (r & w' & E' & -> & Hs).
  exists w'. split; [exact E'|]. split; [naive_solver|]. intros _.
  eapply Swept_ext; [|exact Hs]. intros k. cbn [wdb]. unfold silent.
  destruct (row_matches (workers (wdb w)) k (staleWorker cutoff)) eqn:Hk; rewrite ?andb_false_r, ?andb_true_r; [|done].
  unfold row_matches in Hk. destruct (workers (wdb w) !! k) as [x|] eqn:Ex; [|done].
  rewrite !bool_decide_true; [done|..].
  - apply list_elem_of_fmap. exists (k, x). split; [done|]. by apply elem_of_map_to_list.
  - apply list_elem_of_fmap. exists (k, x). split; [done|]. rewrite Hl. apply elem_of_map_to_list.
    by apply lookup_matching.
Qed.

(** Whatever fails and whoever writes in between, a worker that stays heard of is
    not taken offline: each write asks again. *)
Definition heard (cutoff : Z) (id : string) (db : DB) : Prop :=
  ∃ x, workers db !! id = Some x ∧ WorkerStatusOf x = WorkerOnline ∧ staleWorker cutoff x = false.

Lemma staleLoop_spares env cutoff id stale :
  (∀ n db, heard cutoff id db → heard cutoff id (others env n db)) →
  keeps true (heard cutoff id) (staleLoop env stale cutoff).
Proof.
  intros Ho. induction stale as [|[k x] stale IH]; cbn [staleLoop]; [apply keeps_ret|].
  assert (∀ n, keeps true (heard cutoff id) (call env (OfflineStaleWorker k cutoff n))) as Hc.
  { intros n. apply keeps_call; [done|]. intros db (y & E & Hon & Hy). exists y. split; [|done].
    rewrite <- E. destruct (OfflineStaleWorker_swept cutoff k n db) as [HW _]. specialize (HW id).
    unfold silent, row_matches in HW. rewrite E, Hy, andb_false_r in HW. by rewrite E. }
  unfold reclaimOfflineWorkerTasks, stopIfFenced, fenced. keep_steps; auto. by intros w Hw.
Qed.
End Sweep.

(** ** Witness *)

Lemma stale_sweep_exact_witness :
  ∃ w', sweepStaleWorkers (quiet (λ _, 1000)) 90 30 (Some (λ _, Some 0)) 0 map_to_list sampleWorld
          = Some (Ok tt, w') ∧
    Swept 910 (map_to_list (workers (wdb sampleWorld))).*1 (wdb sampleWorld) (wdb w').
Proof.
  destruct (stale_sweep_exact 90 30 (Some (λ _, Some 0)) 0 map_to_list (λ _, 1000) sampleWorld)
    as (w' & E & _ & H); [reflexivity|].
  exists w'. split; [exact E|]. apply H. intros (since & [= <-] & [H'|(up & [= <-] & H')]); [discriminate|lia].
Defined.

(** There, the worker goes offline and its task back to ready. *)
Lemma stale_sweep_sample :
  (λ rw, (WorkerStatusOf <$> workers (wdb rw.2) !! "w"%string, TaskStatusOf <$> tasks (wdb rw.2) !! "t1"%string)) <$>
  sweepStaleWorkers (quiet (λ _, 1000)) 90 30 (Some (λ _, Some 0)) 0 map_to_list sampleWorld
  = Some (Some WorkerOffline, Some TaskReady).
Proof. vm_compute. reflexivity. Qed.
