(* ===== verification/Logs.v ===== *)
(** * Log chunks: [internal/scheduler/logingest.go] and [attemptcache.go]

    Workers publish their tasks' output in chunks.  A chunk carries no identity of
    its own, so the scheduler looks up whose attempt it is, in a bounded cache
    first, before it stores the chunk. *)

From S2P Require Import Prelude StatusText Subjects Schema Finalize Attempts Lease Jobs Workers Catalog Evolve Keeps.
From S2P Require Import StoreInv Sched Policy Deps Reconcile Handlers Handling Select.
Open Scope Z_scope.

(** ** The cache *)

Definition maxAttemptOwnerCacheEntries : Z := 8192.

(** An attempt's worker and task. *)
Record attemptOwner := mkattemptOwner {
  ownerWorkerID : string;
  ownerTaskID : string;
}.

Section Logs.
Context (env : Surroundings).
(** The order a [range] over the cache takes, and [uuid.NewString]. *)
Context (rangeOwners : gmap string attemptOwner → list string).
Context (uuid : nat → nat → string).

(** Room is made by dropping the first entry the iteration meets. *)
Definition cache_put (attemptID : string) (o : attemptOwner) (c : gmap string attemptOwner)
    : gmap string attemptOwner :=
  let c' := if negb (bool_decide (is_Some (c !! attemptID))) && (maxAttemptOwnerCacheEntries <=? Z.of_nat (size c))
            then match rangeOwners c with k :: _ => delete k c | [] => c end else c in
  <[attemptID := o]> c'.

Definition cache_evict (attemptID : string) (c : gmap string attemptOwner) : gmap string attemptOwner :=
  delete attemptID c.

(** What the scheduler's puts and evictions so far left in it. *)
Definition cache_event (c : gmap string attemptOwner) (e : Event) : gmap string attemptOwner :=
  match e with
  | Cached id w t => cache_put id (mkattemptOwner w t) c
  | Evicted id => cache_evict id c
  | _ => c
  end.

Definition attemptCache (events : list Event) : gmap string attemptOwner :=
  fold_left cache_event events ∅.

Definition cache_get (attemptID : string) : M (option attemptOwner) := λ w,
  Some (Ok (attemptCache (wevents w) !! attemptID), w).

(** ** Chunks *)

(** [protocol.LogChunkMsg] *)
Record LogChunkMsg := mkLogChunkMsg {
  ChunkTaskID : string;
  ChunkAttemptID : string;
  ChunkSeqNum : Z;
  ChunkStream : string;
  ChunkData : string;
  ChunkAt : option Z;
}.

Definition persistLogChunkFailed (m : LogChunkMsg) (err : CallErr) (delivered : Z) : M Disposition :=
  stop ← stopIfFenced err;
  if stop : bool then mret LeftUnacked
  else
    _ ← notify (Evicted (ChunkAttemptID m));
    match err with
    | StoreError ErrConflict => ackMsg
    | _ => nakMsg delivered
    end.

(** Once the attempt's owner is known. *)
Definition storeChunk (m : LogChunkMsg) (streamSeq : option Z) (delivered : Z) : M Disposition :=
  t ← time_Now env;
  let at_ := default t (ChunkAt m) in
  let stream := if bool_decide (ChunkStream m = "stderr"%string) then LogStreamStderr else LogStreamStdout in
  id ← new_uuid uuid 0;
  r ← attempt (call env (CreateTaskLog id
         (mkTaskLog (ChunkTaskID m) (ChunkAttemptID m) (ChunkSeqNum m) (from_option wrap64 0 streamSeq) at_ 0
            stream (ChunkData m)) t));
  match r with
  | Err e => persistLogChunkFailed m e delivered
  | Ok _ => _ ← notify (LogEvent (ChunkTaskID m) (ChunkAttemptID m) (ChunkSeqNum m)); ackMsg
  end.

(** [payload] is the decoded chunk; [streamSeq] its number in the stream, when the
    metadata can be read. *)
Definition handleLogChunk (subject : str) (payload : option LogChunkMsg) (streamSeq : option Z)
    (delivered : Z) : M Disposition :=
  match payload with
  | None => ackMsg
  | Some m =>
      if bool_decide (ChunkTaskID m = ""%string) || bool_decide (ChunkAttemptID m = ""%string) then ackMsg
      else
        match ParseWorkerSubject subject with
        | None => ackMsg
        | Some (workerID, _) =>
            cached ← cache_get (ChunkAttemptID m);
            owner ← match cached with
                    | Some o => mret (Ok o)
                    | None =>
                        r ← attempt (GetTaskAttempt env (ChunkAttemptID m));
                        match r with
                        | Err e => mret (Err e)
                        | Ok a =>
                            let o := mkattemptOwner (AttemptWorkerID a) (AttemptTaskID a) in
                            _ ← notify (Cached (ChunkAttemptID m) (ownerWorkerID o) (ownerTaskID o));
                            mret (Ok o)
                        end
                    end;
            match owner with
            | Err (StoreError ErrNotFound) => ackMsg
            | Err _ => nakMsg delivered
            | Ok o =>
                if negb (bool_decide (ownerTaskID o = ChunkTaskID m)) then ackMsg
                else if negb (bool_decide (of_str workerID = ownerWorkerID o)) then ackMsg
                else storeChunk m streamSeq delivered
            end
        end
  end.
End Logs.

(** ** The cache is bounded *)

Section Cache.
Context (rangeOwners : gmap string attemptOwner → list string).
Context (range_keys : ∀ c, c ≠ ∅ → ∃ k ks, rangeOwners c = k :: ks ∧ k ∈ dom c).

Lemma cache_put_size id o c :
  Z.of_nat (size c) ≤ maxAttemptOwnerCacheEntries →
  Z.of_nat (size (cache_put rangeOwners id o c)) ≤ maxAttemptOwnerCacheEntries.
Proof using range_keys.
  intros Hc. unfold cache_put. case_bool_decide as Hin; cbn [negb andb].
  - by rewrite map_size_insert_Some.
  - apply eq_None_not_Some in Hin.
    assert (∀ d, d !! id = None → size (<[id := o]> d) = S (size d)) as Hs
      by (intros d Hd; by rewrite map_size_insert_None).
    destruct (Z.leb_spec maxAttemptOwnerCacheEntries (Z.of_nat (size c))) as [Hfull|Hroom].
    + destruct (range_keys c) as (k & ks & -> & Hk).
      { intros ->. rewrite map_size_empty in Hfull. done. }
      rewrite Hs by (rewrite lookup_delete_None; auto). apply elem_of_dom in Hk as [y Hy].
      rewrite map_size_delete_Some by eauto.
      assert (size c ≠ 0%nat) by (intros E; apply map_size_empty_inv in E; subst; by rewrite lookup_empty in Hy).
      lia.
    + rewrite Hs by done. lia.
Qed.

Lemma attemptCache_bounded events :
  Z.of_nat (size (attemptCache rangeOwners events)) ≤ maxAttemptOwnerCacheEntries.
Proof using range_keys.
  unfold attemptCache. assert (Z.of_nat (size (∅ : gmap string attemptOwner)) ≤ maxAttemptOwnerCacheEntries) as H
    by done. revert H. generalize (∅ : gmap string attemptOwner). induction events as [|e events IH]; intros c Hc; [done|].
  cbn [fold_left]. apply IH. destruct e; try done; [|by apply cache_put_size].
  cbn. unfold cache_evict. etrans; [|exact Hc]. apply Nat2Z.inj_le, map_subseteq_size, delete_subseteq.
Qed.
End Cache.

(** ** Whose chunk it is *)

Section Attribution.
Context (rangeOwners : gmap string attemptOwner → list string).

(** A cached owner is the attempt's, while the attempt exists. *)
Definition Agrees (events : list Event) (db : DB) : Prop :=
  ∀ id o a, attemptCache rangeOwners events !! id = Some o → attempts db !! id = Some a →
  o = mkattemptOwner (AttemptWorkerID a) (AttemptTaskID a).

Lemma attemptCache_snoc events e :
  attemptCache rangeOwners (events ++ [e]) = cache_event rangeOwners (attemptCache rangeOwners events) e.
Proof. unfold attemptCache. by rewrite fold_left_app. Qed.

Lemma cache_put_some id o c k x :
  cache_put rangeOwners id o c !! k = Some x → (k = id ∧ x = o) ∨ c !! k = Some x.
Proof.
  unfold cache_put. intros [[<- <-]|[_ E]]%lookup_insert_Some; [auto|]. right.
  destruct (_ && _); [|done]. destruct (rangeOwners c); [done|]. by apply lookup_delete_Some in E as [_ E].
Qed.

Lemma Agrees_nil db : Agrees [] db.
Proof. intros id o a E. unfold attemptCache in E. cbn in E. by rewrite lookup_empty in E. Qed.

Lemma Agrees_cached events db id w t :
  (∀ a, attempts db !! id = Some a → AttemptWorkerID a = w ∧ AttemptTaskID a = t) →
  Agrees events db → Agrees (events ++ [Cached id w t]) db.
Proof.
  intros Hid HA k o a. rewrite attemptCache_snoc. cbn. intros [[-> ->]|E]%cache_put_some Ea; [|eauto].
  by destruct (Hid a Ea) as [-> ->].
Qed.

Lemma Agrees_evicted events db id : Agrees events db → Agrees (events ++ [Evicted id]) db.
Proof.
  intros HA k o a. rewrite attemptCache_snoc. cbn. unfold cache_evict. intros [_ E]%lookup_delete_Some. eauto.
Qed.

Lemma Agrees_event events db e :
  (match e with Cached _ _ _ => False | _ => True end) → Agrees events db → Agrees (events ++ [e]) db.
Proof.
  intros He HA. destruct e; try done; try (by apply Agrees_evicted);
    intros k o a; rewrite attemptCache_snoc; cbn; eauto.
Qed.

(** What an attempt is of never changes, so only a lease under a cached
    identifier could make the cache wrong. *)
Lemma run_Agrees events o db :
  allowed o db = true →
  (∀ req, o = OpLease req → attemptCache rangeOwners events !! ReqAttemptID req = None) →
  Agrees events db → Agrees events (run o db).
Proof.
  intros Ha Hl HA k x a' Ek E.
  assert (∀ a, attempts db !! k = Some a → AttemptWorkerID a' = AttemptWorkerID a →
            AttemptTaskID a' = AttemptTaskID a → x = mkattemptOwner (AttemptWorkerID a') (AttemptTaskID a')) as H.
  { intros a Ea -> ->. eauto. }
  destruct (run_kind o db Ha) as [[_ Hev _]|[Hg|[Hs|(req & aid & y & -> & Hle)]]].
  - destruct (pointwise_some_inv _ _ _ _ _ Hev E) as (a & Ea & (Ht & _ & Hw) & _). eauto.
  - rewrite (grows_attempts _ _ Hg) in E. eauto.
  - apply (H a'); [|done..]. eapply lookup_weaken; [exact E|apply Hs].
  - specialize (Hl _ eq_refl). apply LeaseTask_leased in Hle as (t & j & q & f & _ & HL & _).
    rewrite (leased_attempts _ _ _ _ _ HL), lookup_insert_ne in E by congruence. eauto.
Qed.

Context (env : Surroundings) (alone : ∀ n db, others env n db = db) (uuid : nat → nat → string).

(** The chunk is stored, once, with the attempt it belongs to. *)
Definition stored_chunk (subject : str) (m : LogChunkMsg) (db db' : DB) : Prop :=
  ∃ worker leaf a id row,
    db' = set_taskLogs (<[id := row]> (taskLogs db)) db ∧
    ParseWorkerSubject subject = Some (worker, leaf) ∧
    attempts db !! ChunkAttemptID m = Some a ∧ AttemptWorkerID a = of_str worker ∧
    AttemptTaskID a = ChunkTaskID m ∧
    LogTaskID row = ChunkTaskID m ∧ LogAttemptID row = ChunkAttemptID m ∧ SeqNum row = ChunkSeqNum m ∧
    Data row = ChunkData m ∧
    (∀ k l, taskLogs db !! k = Some l → LogAttemptID l = ChunkAttemptID m → SeqNum l ≠ ChunkSeqNum m).

(** What the handler leaves: a disposition, a cache that agrees, and the database
    with the chunk or as it was. *)
Definition ingested (subject : str) (payload : option LogChunkMsg) (db : DB)
    (r : res CallErr Disposition) (w' : World) : Prop :=
  (∃ d, r = Ok d) ∧ Agrees (wevents w') (wdb w') ∧
  (wdb w' = db ∨ ∃ m, payload = Some m ∧ stored_chunk subject m db (wdb w')).

Lemma returns_ack w (Q : res CallErr Disposition → World → Prop) :
  (∀ d, Q (Ok d) w) → returns ackMsg w Q.
Proof. intros H. unfold ackMsg, deposed. by eexists _, w. Qed.

Lemma ack_ingested subject payload w :
  Agrees (wevents w) (wdb w) → returns ackMsg w (ingested subject payload (wdb w)).
Proof. intros HA. unfold ackMsg, deposed. eexists _, w. split; [done|]. split; [by eexists|]. auto. Qed.

Lemma nak_ingested subject payload n w :
  Agrees (wevents w) (wdb w) → returns (nakMsg n) w (ingested subject payload (wdb w)).
Proof. intros HA. unfold nakMsg, deposed. eexists _, w. split; [done|]. split; [by eexists|]. auto. Qed.

Lemma failed_ingested subject payload m e n w :
  Agrees (wevents w) (wdb w) → returns (persistLogChunkFailed m e n) w (ingested subject payload (wdb w)).
Proof.
  intros HA. unfold persistLogChunkFailed. apply returns_bind.
  assert (returns (stopIfFenced e) w (λ r w', (∃ b, r = Ok b) ∧ wdb w' = wdb w ∧ Agrees (wevents w') (wdb w')))
    as H.
  { unfold stopIfFenced, fenced. destruct e; try (apply returns_ret; by eauto).
    apply returns_bind, returns_bind. eexists (Ok _), w. split; [done|]. destruct (bool_decide _).
    - apply returns_ret, returns_ret. eauto.
    - apply returns_notify, returns_ret. split; [by eexists|]. split; [done|]. by apply Agrees_event. }
  eapply returns_mono; [exact H|]. intros r w1 ([b ->] & Hdb & HA1). destruct b.
  - apply returns_ret. split; [by eexists|]. auto.
  - apply returns_bind, returns_notify. rewrite <- Hdb. set (w2 := mkWorld _ _ _).
    assert (Agrees (wevents w2) (wdb w2)) as HA2 by by apply Agrees_evicted.
    change (wdb w1) with (wdb w2). destruct e as [[]| |]; auto using ack_ingested, nak_ingested.
Qed.

Lemma storeChunk_ingested subject m worker leaf streamSeq n w :
  ParseWorkerSubject subject = Some (worker, leaf) → Agrees (wevents w) (wdb w) →
  (∀ a, attempts (wdb w) !! ChunkAttemptID m = Some a →
     AttemptWorkerID a = of_str worker ∧ AttemptTaskID a = ChunkTaskID m) →
  returns (storeChunk env uuid m streamSeq n) w (ingested subject (Some m) (wdb w)).
Proof using alone.
  intros HP HA Ha. unfold storeChunk. apply returns_bind, returns_time. cbv zeta. apply returns_bind.
  eexists (Ok _), w. split; [done|]. apply returns_bind, returns_attempt, returns_call; rewrite alone.
  { intros e _. by apply (failed_ingested _ _ _ _ _ (mkWorld (wdb w) (S (wcalls w)) (wevents w))). }
  intros _. unfold CreateTaskLog. destruct (_ || _) eqn:Hc; cbn [fst snd].
  { by apply (failed_ingested _ _ _ _ _ (mkWorld (wdb w) (S (wcalls w)) (wevents w))). }
  apply orb_false_iff in Hc as [[[_ Hdup]%orb_false_iff _]%orb_false_iff Hatt]. cbn in Hdup, Hatt.
  apply negb_false_iff in Hatt. unfold present, row_matches in Hatt.
  destruct (attempts (wdb w) !! ChunkAttemptID m) as [x|] eqn:Ex; [|done]. destruct (Ha x eq_refl) as [Hw Ht].
  apply returns_bind, returns_notify, returns_ack. intros d. split; [by eexists|].
  split; [by apply Agrees_event|]. right. exists m. split; [done|]. do 5 eexists. split; [reflexivity|].
  split; [done|]. split; [exact Ex|]. do 6 (split; [done|]).
  intros k l El Hl Hseq. apply exists_where_false with (k := k) (x := l) in Hdup; [|done].
  by rewrite Hl, Hseq, bool_decide_true, Z.eqb_refl in Hdup.
Qed.

(** A chunk that is to be kept: its attempt is the sender's and the task's, and
    nothing is stored under its number or under the identifiers to come. *)
Definition acceptable (subject : str) (m : LogChunkMsg) (db : DB) : Prop :=
  ∃ worker leaf a,
    ParseWorkerSubject subject = Some (worker, leaf) ∧ attempts db !! ChunkAttemptID m = Some a ∧
    AttemptWorkerID a = of_str worker ∧ AttemptTaskID a = ChunkTaskID m ∧
    ChunkTaskID m ≠ ""%string ∧ ChunkAttemptID m ≠ ""%string ∧ is_Some (tasks db !! ChunkTaskID m) ∧
    (∀ n, taskLogs db !! uuid n 0%nat = None) ∧
    (∀ k l, taskLogs db !! k = Some l → LogAttemptID l = ChunkAttemptID m → SeqNum l ≠ ChunkSeqNum m).

Lemma handleLogChunk_ingested subject payload streamSeq delivered w :
  Agrees (wevents w) (wdb w) →
  returns (handleLogChunk env rangeOwners uuid subject payload streamSeq delivered) w
    (ingested subject payload (wdb w)).
Proof using alone.
  intros HA. unfold handleLogChunk. destruct payload as [m|]; [|by apply ack_ingested].
  destruct (_ || _); [by apply ack_ingested|].
  destruct (ParseWorkerSubject subject) as [[worker leaf]|] eqn:HP; [|by apply ack_ingested].
  apply returns_bind. unfold cache_get. eexists (Ok _), w. split; [done|]. apply returns_bind.
  assert (∀ o w1, wdb w1 = wdb w → Agrees (wevents w1) (wdb w1) →
    (∀ a, attempts (wdb w1) !! ChunkAttemptID m = Some a → o = mkattemptOwner (AttemptWorkerID a) (AttemptTaskID a)) →
    returns (if negb (bool_decide (ownerTaskID o = ChunkTaskID m)) then ackMsg
             else if negb (bool_decide (of_str worker = ownerWorkerID o)) then ackMsg
             else storeChunk env uuid m streamSeq delivered) w1 (ingested subject (Some m) (wdb w))) as Hgo.
  { intros o w1 Hdb HA1 Ho. rewrite <- Hdb. case_bool_decide as Ht; [|by apply ack_ingested]. cbn [negb].
    case_bool_decide as Hw; [|by apply ack_ingested]. cbn [negb]. eapply storeChunk_ingested; [done|done|].
    intros a Ea. specialize (Ho a Ea). by subst o. }
  destruct (attemptCache rangeOwners (wevents w) !! ChunkAttemptID m) as [o|] eqn:Ec.
  - apply returns_ret, Hgo; [done|done|]. eauto.
  - set (w1 := mkWorld (wdb w) (S (wcalls w)) (wevents w)).
    apply returns_bind, returns_attempt, returns_call; rewrite alone.
    { intros e _. apply returns_ret. destruct e as [[]| |];
        first [by apply (ack_ingested _ _ w1)|by apply (nak_ingested _ _ _ w1)]. }
    intros _. unfold get. cbn [fst snd]. destruct (attempts (wdb w) !! ChunkAttemptID m) as [a|] eqn:Ea.
    + apply returns_bind, returns_notify, returns_ret, Hgo; [done| |].
      * apply Agrees_cached; [|exact HA]. cbn. by intros a' [= <-]%(eq_trans (eq_sym Ea)).
      * cbn. by intros a' [= <-]%(eq_trans (eq_sym Ea)).
    + apply returns_ret. by apply (ack_ingested _ _ w1).
Qed.

Lemma storeChunk_adds subject m streamSeq n w :
  (∀ k, fault env k = None) → acceptable subject m (wdb w) →
  returns (storeChunk env uuid m streamSeq n) w (λ _ w', wdb w' ≠ wdb w).
Proof using alone.
  intros Hf (worker & leaf & a & _ & Ea & _ & _ & _ & _ & [t Et] & Hnew & Hdup). unfold storeChunk.
  apply returns_bind, returns_time. cbv zeta. apply returns_bind. eexists (Ok _), w. split; [done|].
  apply returns_bind, returns_attempt, returns_call; rewrite alone; [by rewrite Hf|]. intros _.
  unfold CreateTaskLog, present, row_matches. cbn [LogAttemptID LogTaskID SeqNum]. rewrite Hnew, Ea, Et.
  rewrite (proj2 (exists_where_false _ _)); cbn [orb negb fst snd].
  - apply returns_bind, returns_notify, returns_ack. intros _ E.
    apply (f_equal (λ db, taskLogs db !! uuid (wcalls w) 0%nat)) in E. cbn in E.
    by rewrite lookup_insert_eq, Hnew in E.
  - intros k l El. case_bool_decide as Hl; [|done]. apply Z.eqb_neq. eauto.
Qed.

Lemma handleLogChunk_adds subject m streamSeq delivered w :
  (∀ k, fault env k = None) → Agrees (wevents w) (wdb w) → acceptable subject m (wdb w) →
  returns (handleLogChunk env rangeOwners uuid subject (Some m) streamSeq delivered) w
    (λ _ w', wdb w' ≠ wdb w).
Proof using alone.
  intros Hf HA Hacc. pose proof Hacc as (worker & leaf & a & HP & Ea & Hw & Ht & Hn & Hn' & _).
  unfold handleLogChunk. rewrite !(bool_decide_false (_ = ""%string)), HP by done. cbn [orb].
  apply returns_bind. unfold cache_get. eexists (Ok _), w. split; [done|]. apply returns_bind.
  destruct (attemptCache rangeOwners (wevents w) !! ChunkAttemptID m) as [o|] eqn:Ec.
  - rewrite (HA _ _ _ Ec Ea). apply returns_ret. cbn [ownerTaskID ownerWorkerID].
    rewrite !bool_decide_true by done. by apply storeChunk_adds with subject.
  - apply returns_bind, returns_attempt, returns_call; rewrite alone; [by rewrite Hf|]. intros _.
    unfold get. cbn [fst snd]. rewrite Ea. apply returns_bind, returns_notify, returns_ret.
    cbn [ownerTaskID ownerWorkerID]. rewrite !bool_decide_true by done. cbn [negb].
    set (w1 := mkWorld _ _ _). by apply (storeChunk_adds subject m streamSeq delivered w1).
Qed.

(** Every log chunk the scheduler keeps is attributed to the attempt that wrote
    it.  With no other writer and whatever calls fail, the handler gives every
    message a disposition and leaves the owner cache agreeing with the attempts;
    it either leaves the database as it was or adds exactly the chunk's row, and
    then the attempt exists, is held by the worker of the subject and is of the
    chunk's task, and no chunk of that attempt had the same number.  When no call
    fails, such a chunk is always stored. *)
Theorem log_chunk_attributed subject payload streamSeq delivered w :
  Agrees (wevents w) (wdb w) →
  ∃ r w', handleLogChunk env rangeOwners uuid subject payload streamSeq delivered w = Some (r, w') ∧
    ingested subject payload (wdb w) r w' ∧
    (∀ m, payload = Some m → (∀ n, fault env n = None) → acceptable subject m (wdb w) →
     stored_chunk subject m (wdb w) (wdb w')).
Proof using alone.
  intros HA. destruct (handleLogChunk_ingested subject payload streamSeq delivered w HA) as (r & w' & E & H).
  exists r, w'. split; [done|]. split; [done|]. intros m -> Hf Hacc.
  destruct (handleLogChunk_adds subject m streamSeq delivered w Hf HA Hacc) as (r2 & w2 & E2 & Hne).
  rewrite E in E2. injection E2 as <- <-. destruct H as (_ & _ & [H|(m' & [= <-] & H)]); [|done]. by destruct Hne.
Qed.
End Attribution.

(** ** Witness *)

Definition sampleChunk : LogChunkMsg := mkLogChunkMsg "t1" "a1" 7 "stderr" "frame 1" None.

Definition rangeKeys (c : gmap string attemptOwner) : list string := (map_to_list c).*1.

Lemma log_chunk_attributed_witness :
  ∃ r w', handleLogChunk (quiet (λ _, 30)) rangeKeys (λ _ _, "l"%string)
    (TaskLogsSubject (of_string "w") (of_string "t1")) (Some sampleChunk) (Some 3) 1 sampleWorld = Some (r, w') ∧
    stored_chunk (TaskLogsSubject (of_string "w") (of_string "t1")) sampleChunk (wdb sampleWorld) (wdb w').
Proof.
  destruct (log_chunk_attributed rangeKeys (quiet (λ _, 30)) (λ n db, eq_refl) (λ _ _, "l"%string)
    (TaskLogsSubject (of_string "w") (of_string "t1")) (Some sampleChunk) (Some 3) 1 sampleWorld)
    as (r & w' & E & _ & Hs).
  - exact (Agrees_nil rangeKeys (wdb sampleWorld)).
  - exists r, w'. split; [exact E|]. apply Hs; [reflexivity|reflexivity|].
    assert (AttemptWorkerID <$> attempts (wdb sampleWorld) !! "a1"%string = Some "w"%string) as Hw
      by (vm_compute; reflexivity).
    assert (AttemptTaskID <$> attempts (wdb sampleWorld) !! "a1"%string = Some "t1"%string) as Ht
      by (vm_compute; reflexivity).
    destruct (attempts (wdb sampleWorld) !! "a1"%string) as [a|] eqn:Ea; [|discriminate].
    injection Hw as Hw. injection Ht as Ht. exists (of_string "w"), (of_string "t1"), a.
    split; [vm_compute; reflexivity|]. split; [exact Ea|]. split; [rewrite Hw; reflexivity|].
    split; [exact Ht|]. split; [discriminate|]. split; [discriminate|].
    assert (bool_decide (is_Some (tasks (wdb sampleWorld) !! "t1"%string)) = true) as H1 by (vm_compute; reflexivity).
    assert (bool_decide (taskLogs (wdb sampleWorld) = ∅) = true) as H2 by (vm_compute; reflexivity).
    apply bool_decide_eq_true in H1, H2. rewrite H2. split; [exact H1|].
    split; [intros _; apply lookup_empty|]. intros k l El. rewrite lookup_empty in El. discriminate.
Defined.
