(* ===== verification/Blocked.v ===== *)
(** * A blocked job whose work runs

    [store/statemachine.go] rules out a blocked job completing: "a blocked job's
    tasks are never leased".  The trace below is a run of the program in which
    one is. *)

From S2P Require Import Prelude Schema Sample Finalize Attempts Lease Jobs Workers Evolve.
From S2P Require Import Keeps StoreInv Sched Deps Reconcile.
Open Scope Z_scope.

Section Trace.
Definition downTask (s : TaskStatus) : Task := mkTask "down" "s2" s None None 0 0 None "" 0 None "".

(** Job [up] is pending; job [down], of one step with two tasks, is submitted
    blocked on it; a user cancels one of its tasks. *)
Definition beforeRetry : list Op :=
  [OpAdmin (farms Sample.db) (queues Sample.db) (pools Sample.db) ∅ ∅;
   OpRegister "w" (Sample.worker false) 2;
   OpSubmit (λ i, Z.of_nat i + 5) id
     (mkJobSubmission "up" (Sample.job JobPending) []
        [("s1"%string, mkStep "up" "render" [] 0 StepReady 0 0 "" None)]
        [("t0"%string, mkTask "up" "s1" TaskReady None None 0 0 None "" 0 None "")]) 64 5;
   OpSubmit (λ i, Z.of_nat i + 15) id
     (mkJobSubmission "down" (Sample.job JobBlocked) ["up"%string]
        [("s2"%string, mkStep "down" "comp" [] 0 StepPending 0 0 "" None)]
        [("t1"%string, downTask TaskPending); ("t2"%string, downTask TaskPending)]) 64 15;
   OpCancelTask "t1" "canceled by user" 30].

Definition runTask (task attempt : string) (at_ : Z) : list Op :=
  [OpLease (mkLeaseRequest task "w" attempt at_ []);
   OpStart attempt task "sess" (at_ + 1);
   OpComplete (mkAttemptCompletion attempt task TaskSucceeded AttemptSucceeded (Some 0) "sess" "" ""
     (at_ + 2)) (at_ + 2)].

Definition retried : option (res CallErr unit * World) :=
  db ← run_all beforeRetry emptyDB;
  RetryTask (quiet (λ n, Z.of_nat n + 40)) 5 "t1" (mkWorld db 0 []).

Definition ran : option DB :=
  w ← retried; run_all (runTask "t1" "a1" 60 ++ runTask "t2" "a2" 70) (wdb w.2).

Definition ended : option (res CallErr unit * World) :=
  db ← ran; checkStepCompletion (quiet (λ n, Z.of_nat n + 80)) 5 "s2" "down" (mkWorld db 0 []).
End Trace.

Definition jobStatus (db : DB) (id : string) : option JobStatus := JobStatusOf <$> jobs db !! id.
Definition taskStatus (db : DB) (id : string) : option TaskStatus := TaskStatusOf <$> tasks db !! id.

