(* ===== verification/ExprType.v ===== *)
(** * The types of the expression language

    src/internal/openjd/expr/type.go: type codes, structural equality, the
    printed form, the normalising constructors [UnionOf], [UnresolvedOf],
    [ListOf] and [OptionalOf], and the parser of the type notation.

    A Go [Type] is a code with a slice of parameters, and the source asks that
    types be built by the constructors only. Here a list and a placeholder carry
    exactly one parameter and a scalar none, so the malformed values that the
    source guards against ([len(t.Params) == 1]) cannot be written down.

    The theorems: every type the constructors build is canonical; a union does
    not depend on the order, the repetition or the grouping of its members; and
    the parser reads back what [TypeString] prints. *)

From Stdlib Require Import ZArith Lia List Ascii String Sorted.
From stdpp Require Import base list option decidable.
From S2P Require Import Prelude.
Import ListNotations.

(** ** Types *)

(** type.go [Code] *)
Inductive Code :=
  | CodeNull | CodeBool | CodeInt | CodeFloat | CodeString | CodePath | CodeRangeExpr
  | CodeList | CodeUnion | CodeUnresolved | CodeAny | CodeNoReturn
  | CodeVarT | CodeVarT1 | CodeVarT2 | CodeVarT3.

#[export] Instance Code_eq_dec : EqDecision Code.
Proof. solve_decision. Defined.

(** type.go [Type] *)
Inductive Ty :=
  | TNull | TBool | TInt | TFloat | TString | TPath | TRangeExpr | TAny | TNoReturn
  | TVarT | TVarT1 | TVarT2 | TVarT3
  | TList (elem : Ty)
  | TUnion (members : list Ty)
  | TUnresolved (constraint : Ty).

Definition code (t : Ty) : Code :=
  match t with
  | TNull => CodeNull | TBool => CodeBool | TInt => CodeInt | TFloat => CodeFloat
  | TString => CodeString | TPath => CodePath | TRangeExpr => CodeRangeExpr
  | TAny => CodeAny | TNoReturn => CodeNoReturn
  | TVarT => CodeVarT | TVarT1 => CodeVarT1 | TVarT2 => CodeVarT2 | TVarT3 => CodeVarT3
  | TList _ => CodeList | TUnion _ => CodeUnion | TUnresolved _ => CodeUnresolved
  end.

(** [Type{Code: c}] for the codes without parameters. *)
Definition plainType (c : Code) : option Ty :=
  match c with
  | CodeNull => Some TNull | CodeBool => Some TBool | CodeInt => Some TInt
  | CodeFloat => Some TFloat | CodeString => Some TString | CodePath => Some TPath
  | CodeRangeExpr => Some TRangeExpr | CodeAny => Some TAny
  | CodeNoReturn => Some TNoReturn
  | CodeVarT => Some TVarT | CodeVarT1 => Some TVarT1
  | CodeVarT2 => Some TVarT2 | CodeVarT3 => Some TVarT3
  | CodeList | CodeUnion | CodeUnresolved => None
  end.

Definition is_code (c : Code) (t : Ty) : bool := bool_decide (code t = c).

(** type.go [codeNames], [Code.String] *)
Definition CodeName (c : Code) : str :=
  of_string match c with
  | CodeNull => "nulltype" | CodeBool => "bool" | CodeInt => "int"
  | CodeFloat => "float" | CodeString => "string" | CodePath => "path"
  | CodeRangeExpr => "range_expr" | CodeList => "list" | CodeUnion => "union"
  | CodeUnresolved => "unresolved" | CodeAny => "any" | CodeNoReturn => "noreturn"
  | CodeVarT => "T" | CodeVarT1 => "T1" | CodeVarT2 => "T2" | CodeVarT3 => "T3"
  end.

(** type.go [Type.Equal] *)
Fixpoint Equal (t o : Ty) {struct t} : bool :=
  match t, o with
  | TList a, TList b => Equal a b
  | TUnresolved a, TUnresolved b => Equal a b
  | TUnion ts, TUnion os =>
      (fix go (ts os : list Ty) : bool :=
         match ts, os with
         | [], [] => true
         | t :: ts', o :: os' => Equal t o && go ts' os'
         | _, _ => false
         end) ts os
  | TList _, _ | _, TList _ | TUnresolved _, _ | _, TUnresolved _
  | TUnion _, _ | _, TUnion _ => false
  | _, _ => bool_decide (code t = code o)
  end.

(** type.go [Type.String], [paramString], [unionString] *)
Fixpoint TypeString (t : Ty) : str :=
  match t with
  | TList e => of_string "list[" ++ TypeString e ++ of_string "]"
  | TUnresolved c =>
      if is_code CodeAny c then of_string "unresolved"
      else of_string "unresolved[" ++ TypeString c ++ of_string "]"
  | TUnion ms =>
      match ms with
      | [m; TNull] => TypeString m ++ of_string "?"
      | _ => join (of_string " | ") (map TypeString ms)
      end
  | _ => CodeName (code t)
  end.

(** The byte order of Go's string comparison. *)
Fixpoint strLess (a b : str) : bool :=
  match a, b with
  | _, [] => false
  | [], _ :: _ => true
  | x :: a', y :: b' =>
      if Nat.ltb (nat_of_ascii x) (nat_of_ascii y) then true
      else if Nat.ltb (nat_of_ascii y) (nat_of_ascii x) then false
      else strLess a' b'
  end.

(** type.go [unionLess] *)
Definition unionLess (a b : Ty) : bool :=
  let an := is_code CodeNull a in
  let bn := is_code CodeNull b in
  if negb (eqb an bn) then bn else strLess (TypeString a) (TypeString b).

(** [sort.Slice] with [unionLess]: [a] may stand before [b]. *)
Definition unionLe (a b : Ty) : bool := negb (unionLess b a).

(** type.go [containsType] *)
Definition containsType (ts : list Ty) (t : Ty) : bool := existsb (λ x, Equal x t) ts.

(** type.go [UnresolvedOf] *)
Definition UnresolvedOf (t : Ty) : Ty :=
  match t with TUnresolved _ => t | _ => TUnresolved t end.

(** type.go [ListOf] *)
Fixpoint ListOf (elem : Ty) : Ty :=
  match elem with
  | TUnresolved c => UnresolvedOf (ListOf c)
  | _ => TList elem
  end.

(** type.go [collectUnionMembers]: the members [t] adds and whether it is a
    placeholder. *)
Fixpoint collectUnionMembers (t : Ty) : list Ty * bool :=
  match t with
  | TUnresolved c => (fst (collectUnionMembers c), true)
  | TUnion ps =>
      (concat (map (λ p, fst (collectUnionMembers p)) ps),
       existsb (λ p, snd (collectUnionMembers p)) ps)
  | TNoReturn => ([], false)
  | _ => ([t], false)
  end.

(** The loop of [normalizeUnionMembers] that drops repeated members. *)
Definition uniqTypes (members : list Ty) : list Ty :=
  fold_left (λ uniq m, if containsType uniq m then uniq else uniq ++ [m]) members [].

(** type.go [normalizeUnionMembers] *)
Definition normalizeUnionMembers (members : list Ty) : Ty :=
  if existsb (is_code CodeAny) members then TAny
  else
    match uniqTypes members with
    | [] => TNoReturn
    | [m] => m
    | uniq => TUnion (sort_by unionLe uniq)
    end.

(** type.go [UnionOf] *)
Definition UnionOf (ts : list Ty) : Ty :=
  let members := concat (map (λ t, fst (collectUnionMembers t)) ts) in
  let unresolved := existsb (λ t, snd (collectUnionMembers t)) ts in
  let out := normalizeUnionMembers members in
  if unresolved then UnresolvedOf out else out.

(** type.go [OptionalOf] *)
Definition OptionalOf (t : Ty) : Ty := UnionOf [t; TNull].

(** type.go [unresolvedConstraint], [unwrapUnresolved] *)
Definition unresolvedConstraint (t : Ty) : option Ty :=
  match t with TUnresolved c => Some c | _ => None end.

Definition unwrapUnresolved (t : Ty) : Ty :=
  match unresolvedConstraint t with Some c => c | None => t end.

(** ** The parser of the type notation *)

Inductive TypeErr :=
  | ErrExpectedType
  | ErrUnknownType (name : str)
  | ErrExpectedOpen (name : str)
  | ErrExpectedClose (name : str)
  | ErrUnexpected (rest : str)
  | ErrNestedThird (elem : Ty)
  | ErrOptionalElem (elem : Ty)
  | ErrTypeFuel.

(** type.go [checkListElem] *)
Definition checkListElem (elem : Ty) : res TypeErr unit :=
  match unwrapUnresolved elem with
  | TList (TList _) => Err (ErrNestedThird elem)
  | TUnion ms => if containsType ms TNull then Err (ErrOptionalElem elem) else Ok tt
  | _ => Ok tt
  end.

(** type.go [isTypeNameByte] *)
Definition isTypeNameByte (c : ascii) : bool :=
  byte_is c 95 || byte_in c 97 122 || byte_in c 65 90 || byte_in c 48 57.

(** type.go [typeParser.skipSpace]; the parser's position is the text that is
    left. *)
Fixpoint skipSpace (s : str) : str :=
  match s with
  | c :: s' => if byte_is c 32 || byte_is c 9 then skipSpace s' else s
  | [] => []
  end.

(** type.go [typeParser.word] *)
Fixpoint word (s : str) : str * str :=
  match s with
  | c :: s' =>
      if isTypeNameByte c then let '(w, r) := word s' in (c :: w, r) else ([], s)
  | [] => ([], [])
  end.

(** The next byte is [c]: the text after it. *)
Definition eat (c : ascii) (s : str) : option str :=
  match s with
  | d :: s' => if bool_decide (d = c) then Some s' else None
  | [] => None
  end.

Definition plainCodes : list Code :=
  [CodeNull; CodeBool; CodeInt; CodeFloat; CodeString; CodePath; CodeRangeExpr;
   CodeAny; CodeNoReturn; CodeVarT; CodeVarT1; CodeVarT2; CodeVarT3].

(** The loop over [codeNames] at the end of [parseAtom]. *)
Definition typeNamed (name : str) : option Ty :=
  c ← find (λ c, bool_decide (CodeName c = name)) plainCodes; plainType c.

Section Parser.
(** [parseUnion], one level down; the check a list element has to pass. *)
Context (check : Ty → res TypeErr unit) (parseUnion : str → res TypeErr (Ty * str)).

(** type.go [typeParser.parseBracketed] *)
Definition parseBracketed (name s : str) : res TypeErr (Ty * str) :=
  match eat "["%char (skipSpace s) with
  | None => Err (ErrExpectedOpen name)
  | Some s1 =>
      let? (inner, s2) := parseUnion s1 in
      match eat "]"%char (skipSpace s2) with
      | None => Err (ErrExpectedClose name)
      | Some s3 => Ok (inner, s3)
      end
  end.

(** type.go [typeParser.parseAtom] *)
Definition parseAtom (s : str) : res TypeErr (Ty * str) :=
  let '(name, s1) := word (skipSpace s) in
  if bool_decide (name = []) then Err ErrExpectedType
  else if bool_decide (name = of_string "list") then
    let? (elem, s2) := parseBracketed name s1 in
    let? _ := check elem in
    Ok (ListOf elem, s2)
  else if bool_decide (name = of_string "unresolved") then
    match eat "["%char (skipSpace s1) with
    | None => Ok (UnresolvedOf TAny, skipSpace s1)
    | Some _ =>
        let? (inner, s2) := parseBracketed name s1 in
        Ok (UnresolvedOf inner, s2)
    end
  else
    match typeNamed name with
    | Some t => Ok (t, s1)
    | None => Err (ErrUnknownType name)
    end.

(** The loop of [typeParser.parseSuffixed]. *)
Fixpoint suffixes (t : Ty) (s : str) : Ty * str :=
  match s with
  | [] => (t, [])
  | c :: s' =>
      if byte_is c 32 || byte_is c 9 then suffixes t s'
      else if bool_decide (c = "?"%char) then suffixes (OptionalOf t) s'
      else (t, s)
  end.

(** type.go [typeParser.parseSuffixed] *)
Definition parseSuffixed (s : str) : res TypeErr (Ty * str) :=
  let? (t, s1) := parseAtom s in Ok (suffixes t s1).

(** The loop of [typeParser.parseUnion]. *)
Fixpoint unionMembers (fuel : nat) (members : list Ty) (s : str) : res TypeErr (Ty * str) :=
  match fuel with
  | O => Err ErrTypeFuel
  | S f =>
      match eat "|"%char (skipSpace s) with
      | None => Ok (UnionOf members, skipSpace s)
      | Some s1 =>
          let? (next, s2) := parseSuffixed s1 in
          unionMembers f (members ++ [next]) s2
      end
  end.
End Parser.

(** type.go [typeParser.parseUnion] *)
Fixpoint parseUnion (check : Ty → res TypeErr unit) (fuel : nat) (s : str)
    : res TypeErr (Ty * str) :=
  match fuel with
  | O => Err ErrTypeFuel
  | S f =>
      let? (first, s1) := parseSuffixed check (parseUnion check f) s in
      unionMembers check (parseUnion check f) (S (length s1)) [first] s1
  end.

(** The whole text must be read. *)
Definition parseTypeWith (check : Ty → res TypeErr unit) (s : str) : res TypeErr Ty :=
  let? (t, rest) := parseUnion check (S (length s)) s in
  match skipSpace rest with
  | [] => Ok t
  | rest => Err (ErrUnexpected rest)
  end.

(** type.go [ParseType] *)
Definition ParseType (s : str) : res TypeErr Ty := parseTypeWith checkListElem s.

(** ** Induction and equality *)

Section TyInd.
Variable P : Ty → Prop.
Hypothesis P_plain : ∀ t, plainType (code t) = Some t → P t.
Hypothesis P_list : ∀ e, P e → P (TList e).
Hypothesis P_union : ∀ ms, Forall P ms → P (TUnion ms).
Hypothesis P_unresolved : ∀ c, P c → P (TUnresolved c).

Fixpoint Ty_induct (t : Ty) : P t :=
  match t with
  | TList e => P_list e (Ty_induct e)
  | TUnresolved c => P_unresolved c (Ty_induct c)
  | TUnion ms =>
      P_union ms
        ((fix go (ms : list Ty) : Forall P ms :=
            match ms with
            | [] => @List.Forall_nil _ P
            | m :: ms' => @List.Forall_cons _ P m ms' (Ty_induct m) (go ms')
            end) ms)
  | t => P_plain t eq_refl
  end.
End TyInd.

Lemma Equal_spec t o : Equal t o = true ↔ t = o.
Proof.
  revert o. induction t as [t Ht|e IH|ms IH|c IH] using Ty_induct; intros o.
  - destruct t; try discriminate Ht; destruct o; vm_compute; split; congruence.
  - destruct o; simpl; try (split; [discriminate|congruence]).
    rewrite IH. split; congruence.
  - destruct o as [| | | | | | | | | | | | | |os|]; cbn [Equal]; try (split; [discriminate|congruence]).
    revert os. induction IH as [|m ms Hm _ IHms]; intros [|o os]; try (split; congruence).
    rewrite andb_true_iff, Hm, IHms. split; [|intros [=]; subst; auto].
    intros [-> [=]]; by subst.
  - destruct o; simpl; try (split; [discriminate|congruence]).
    rewrite IH. split; congruence.
Qed.

#[export] Instance Ty_eq_dec : EqDecision Ty.
Proof.
  intros t o. destruct (Equal t o) eqn:E.
  - left. by apply Equal_spec.
  - right. intros ->. assert (Equal o o = true) by (by apply Equal_spec). congruence.
Defined.

Lemma Equal_refl t : Equal t t = true.
Proof. by apply Equal_spec. Qed.

Lemma Equal_false t o : Equal t o = false ↔ t ≠ o.
Proof. rewrite <- not_true_iff_false, Equal_spec. done. Qed.

Lemma containsType_spec ts t : containsType ts t = true ↔ t ∈ ts.
Proof.
  unfold containsType. rewrite existsb_exists. setoid_rewrite Equal_spec.
  rewrite list_elem_of_In. split; [intros (x & Hx & ->); done|eauto].
Qed.

(** ** Canonical types *)

(** What may stand in a union. *)
Definition unionable (t : Ty) : Prop :=
  match t with TUnion _ | TAny | TNoReturn | TUnresolved _ => False | _ => True end.

Definition Less (a b : Ty) : Prop := unionLess a b = true.

(** A type without placeholders whose unions have at least two members, no
    union, [any] or [noreturn] among them, each once and in the printed order. *)
Fixpoint resolved (t : Ty) : Prop :=
  match t with
  | TList e => resolved e
  | TUnion ms =>
      2 ≤ length ms ∧ Forall unionable ms ∧ StronglySorted Less ms ∧
      foldr (λ m P, resolved m ∧ P) True ms
  | TUnresolved _ => False
  | _ => True
  end.

Definition canonical (t : Ty) : Prop :=
  match t with TUnresolved c => resolved c | _ => resolved t end.

Lemma resolved_union ms :
  resolved (TUnion ms) ↔
  2 ≤ length ms ∧ Forall unionable ms ∧ StronglySorted Less ms ∧ Forall resolved ms.
Proof.
  cbn [resolved]. assert (foldr (λ m P, resolved m ∧ P) True ms ↔ Forall resolved ms) as ->; [|done].
  induction ms as [|m ms IH]; simpl; [by split|]. rewrite IH, Forall_cons. done.
Qed.

Lemma resolved_canonical t : resolved t → canonical t.
Proof. by destruct t. Qed.

Lemma canonical_unwrap t : canonical t → resolved (unwrapUnresolved t).
Proof. by destruct t. Qed.

(** ** The order of union members *)

Lemma strLess_irrefl a : strLess a a = false.
Proof. induction a as [|x a IH]; simpl; [done|]. by rewrite Nat.ltb_irrefl. Qed.

Lemma strLess_trans a b c : strLess a b = true → strLess b c = true → strLess a c = true.
Proof.
  revert b c. induction a as [|x a IH]; intros [|y b] [|z c]; simpl; try done.
  repeat case_match; rewrite ?Nat.ltb_lt, ?Nat.ltb_ge in *; try done; try lia.
  apply IH.
Qed.

Lemma strLess_total a b : strLess a b = false → strLess b a = false → a = b.
Proof.
  revert b. induction a as [|x a IH]; intros [|y b]; simpl; try done.
  repeat case_match; rewrite ?Nat.ltb_lt, ?Nat.ltb_ge in *; try done; try lia.
  intros. f_equal; [|by apply IH].
  rewrite <- (ascii_nat_embedding x), <- (ascii_nat_embedding y). f_equal. lia.
Qed.

Lemma unionLess_irrefl a : unionLess a a = false.
Proof. unfold unionLess. rewrite eqb_reflx. apply strLess_irrefl. Qed.

Lemma unionLess_trans a b c : Less a b → Less b c → Less a c.
Proof.
  unfold Less, unionLess.
  destruct (is_code CodeNull a), (is_code CodeNull b), (is_code CodeNull c); simpl; try done.
  all: apply strLess_trans.
Qed.

Lemma unionLe_trans a b c : unionLe a b = true → unionLe b c = true → unionLe a c = true.
Proof.
  unfold unionLe, unionLess.
  destruct (is_code CodeNull a), (is_code CodeNull b), (is_code CodeNull c); simpl; try done.
  all: rewrite !negb_true_iff; intros H1 H2; apply not_true_iff_false; intros H3.
  all: destruct (strLess (TypeString b) (TypeString c)) eqn:E.
  all: try (by pose proof (strLess_trans _ _ _ E H3); congruence).
  all: pose proof (strLess_total _ _ E H2) as HE; rewrite HE in *; congruence.
Qed.

Lemma unionLe_total a b : unionLe a b = true ∨ unionLe b a = true.
Proof.
  unfold unionLe. destruct (unionLess b a) eqn:E; [right|left; done].
  destruct (unionLess a b) eqn:E'; [|done].
  pose proof (unionLess_trans a b a E' E) as H. unfold Less in H.
  rewrite unionLess_irrefl in H. done.
Qed.

(** Two strictly sorted lists with the same elements are the same. *)
Lemma strictly_sorted_ext l k :
  StronglySorted Less l → StronglySorted Less k → (∀ x, x ∈ l ↔ x ∈ k) → l = k.
Proof.
  assert (Hir : ∀ x, ¬ Less x x) by (intros x; unfold Less; by rewrite unionLess_irrefl).
  intros Hl. revert k. induction Hl as [|x l Hl IH Hx]; intros k Hk Heq.
  - destruct k as [|y k]; [done|]. exfalso. specialize (Heq y). set_solver.
  - destruct Hk as [|y k Hk Hy]; [exfalso; specialize (Heq x); set_solver|].
    rewrite Forall_forall in Hx, Hy.
    assert (x = y) as ->.
    { destruct (decide (x = y)) as [|Hne]; [done|].
      assert (Less y x) by (apply Hy; specialize (Heq x); set_solver).
      assert (Less x y) by (apply Hx; specialize (Heq y); set_solver).
      destruct (Hir x). by eapply unionLess_trans. }
    f_equal. apply IH; [done|]. intros z. specialize (Heq z).
    rewrite !elem_of_cons in Heq. split; intros Hz.
    + destruct (proj1 Heq (or_intror Hz)) as [->|]; [|done]. destruct (Hir y). by apply Hx.
    + destruct (proj2 Heq (or_intror Hz)) as [->|]; [|done]. destruct (Hir y). by apply Hy.
Qed.

(** ** Reading back a printed type *)

Lemma word_app w rest :
  Forall (λ c, isTypeNameByte c = true) w →
  (∀ c r, rest = c :: r → isTypeNameByte c = false) →
  word (w ++ rest) = (w, rest).
Proof.
  intros Hw Hrest. induction Hw as [|c w Hc _ IH]; simpl.
  - destruct rest as [|c r]; [done|]. simpl. by rewrite (Hrest c r).
  - by rewrite Hc, IH.
Qed.

(** What may follow an atom: nothing, or a byte that is not part of a name. *)
Definition stops (rest : str) : Prop := ∀ c r, rest = c :: r → isTypeNameByte c = false.

(** What follows a whole type inside brackets or at the end. *)
Definition closes (rest : str) : Prop := rest = [] ∨ ∃ r, rest = "]"%char :: r.

Lemma stops_cons c r : isTypeNameByte c = false → stops (c :: r).
Proof. by intros H ?? [= -> ->]. Qed.

Lemma closes_stops rest : closes rest → stops rest.
Proof. intros [->|[r ->]]; [done|by apply stops_cons]. Qed.

Lemma closes_still rest : closes rest → ∀ t, suffixes t rest = (t, rest) ∧ skipSpace rest = rest ∧ eat "|"%char rest = None.
Proof. by intros [->|[r ->]]. Qed.

Lemma name_bytes c : Forall (λ b, isTypeNameByte b = true) (CodeName c).
Proof. destruct c; repeat constructor. Qed.

Lemma name_skip c rest : skipSpace (CodeName c ++ rest) = CodeName c ++ rest.
Proof. by destruct c. Qed.

(** A type that is not a union starts with its code's name. *)
Lemma TypeString_skip t rest :
  unionable t ∨ t = TAny ∨ t = TNoReturn →
  skipSpace (TypeString t ++ rest) = TypeString t ++ rest.
Proof. intros H. destruct t; try (by apply (name_skip (code _))); [done|naive_solver..]. Qed.

Section Print.
Context (check : Ty → res TypeErr unit).

(** Every list inside [t] has an element type that passes the check. *)
Fixpoint listable (t : Ty) : Prop :=
  match t with
  | TList e => check e = Ok tt ∧ listable e
  | TUnion ms => foldr (λ m P, listable m ∧ P) True ms
  | TUnresolved c => listable c
  | _ => True
  end.

Definition reads_atom (t : Ty) : Prop := ∀ f rest,
  length (TypeString t) ≤ f → stops rest →
  parseAtom check (parseUnion check f) (TypeString t ++ rest) = Ok (t, rest).

Definition reads (t : Ty) : Prop := ∀ f rest,
  length (TypeString t) < f → closes rest →
  parseUnion check f (TypeString t ++ rest) = Ok (t, rest).

Lemma plain_reads_atom t : plainType (code t) = Some t → reads_atom t.
Proof.
  intros Ht f rest _ Hrest. unfold parseAtom.
  assert (TypeString t = CodeName (code t)) as -> by (by destruct t).
  rewrite name_skip, word_app by (apply name_bytes || done).
  by destruct t.
Qed.

Lemma bracketed_reads name e f rest :
  reads e → length (TypeString e) < f →
  parseBracketed (parseUnion check f) name ("["%char :: TypeString e ++ "]"%char :: rest) = Ok (e, rest).
Proof.
  intros He Hf. unfold parseBracketed. simpl. rewrite He by (done || right; eauto). done.
Qed.

Lemma list_reads_atom e : check e = Ok tt → ListOf e = TList e → reads e → reads_atom (TList e).
Proof.
  intros Hc Hl He f rest Hf _. cbn [TypeString] in *. unfold parseAtom.
  rewrite !length_app in Hf. simpl in Hf.
  assert ((of_string "list[" ++ TypeString e ++ of_string "]") ++ rest =
          CodeName CodeList ++ "["%char :: TypeString e ++ "]"%char :: rest) as ->
    by (rewrite <- !app_assoc; done).
  rewrite name_skip, word_app by (apply name_bytes || by apply stops_cons).
  rewrite bool_decide_false by done. rewrite bool_decide_true by done.
  rewrite bracketed_reads by (done || lia). simpl. by rewrite Hc, Hl.
Qed.

(** Once the whole text of an atom is read, so is the type it stands for. *)
Lemma atom_reads t : reads_atom t → UnionOf [t] = t → reads t.
Proof.
  intros Ha Hu [|f] rest Hf Hrest; [lia|]. cbn [parseUnion]. unfold parseSuffixed at 1.
  rewrite Ha by (lia || by apply closes_stops). simpl.
  destruct (closes_still rest Hrest t) as (-> & Hs & He). simpl.
  by rewrite Hs, He, Hu.
Qed.

Lemma optional_reads m :
  reads_atom m → OptionalOf m = TUnion [m; TNull] → UnionOf [TUnion [m; TNull]] = TUnion [m; TNull] →
  reads (TUnion [m; TNull]).
Proof.
  intros Ha Ho Hu [|f] rest Hf Hrest; [lia|]. cbn [parseUnion TypeString] in *.
  rewrite length_app in Hf. simpl in Hf. unfold parseSuffixed at 1.
  rewrite <- app_assoc. rewrite Ha by (lia || by apply stops_cons). simpl.
  rewrite Ho. destruct (closes_still rest Hrest (TUnion [m; TNull])) as (-> & Hs & He). simpl.
  by rewrite Hs, He, Hu.
Qed.

(** The members after the first, as they are printed. *)
Definition tailText (ms : list Ty) (rest : str) : str :=
  concat (map (λ m, of_string " | " ++ TypeString m) ms) ++ rest.

Lemma suffixes_tail t ms rest : closes rest → suffixes t (tailText ms rest) = (t, skipSpace (tailText ms rest)).
Proof.
  intros Hrest. destruct (closes_still rest Hrest t) as (H1 & H2 & _).
  destruct ms as [|m ms]; unfold tailText; [|done]. change (suffixes t rest = (t, skipSpace rest)).
  by rewrite H1, H2.
Qed.

Lemma tail_stops ms rest : closes rest → stops (tailText ms rest).
Proof.
  intros Hrest. destruct ms as [|m ms]; [by apply closes_stops|]. by apply stops_cons.
Qed.

Lemma members_read f ms : ∀ n acc rest,
  Forall reads_atom ms → Forall unionable ms →
  Forall (λ m, length (TypeString m) ≤ f) ms → closes rest → length ms < n →
  unionMembers check (parseUnion check f) n acc (skipSpace (tailText ms rest)) = Ok (UnionOf (acc ++ ms), rest).
Proof.
  induction ms as [|m ms IH]; intros [|n] acc rest Hr Hu Hf Hrest Hn; simpl in Hn; try lia.
  - unfold tailText. simpl. destruct (closes_still rest Hrest TAny) as (_ & Hs & He).
    rewrite Hs, Hs, He. by rewrite app_nil_r.
  - inversion_clear Hr as [|?? Hm Hms]. inversion_clear Hu. inversion_clear Hf.
    assert (skipSpace (tailText (m :: ms) rest) = "|"%char :: " "%char :: TypeString m ++ tailText ms rest) as ->.
    { unfold tailText. cbn [map concat]. rewrite <- !app_assoc. done. }
    cbn [unionMembers skipSpace]. simpl. unfold parseSuffixed at 1.
    assert (Hatom : parseAtom check (parseUnion check f) (" "%char :: TypeString m ++ tailText ms rest)
                    = Ok (m, tailText ms rest)).
    { rewrite <- (Hm f (tailText ms rest)) by (done || by apply tail_stops).
      unfold parseAtom. cbn [skipSpace]. simpl. by rewrite !TypeString_skip by auto. }
    rewrite Hatom. simpl. rewrite suffixes_tail by done.
    rewrite IH by (done || lia). by rewrite <- app_assoc.
Qed.

Lemma join_tail sep (m : str) ms : join sep (m :: ms) = m ++ concat (map (λ x, sep ++ x) ms).
Proof.
  revert m. induction ms as [|m' ms IH]; intros m; [by rewrite app_nil_r|].
  change (join sep (m :: m' :: ms)) with (m ++ sep ++ join sep (m' :: ms)).
  rewrite IH. cbn [map concat]. by rewrite <- app_assoc.
Qed.

Lemma map_tail ms : map (λ x, of_string " | " ++ x) (map TypeString ms) = map (λ m, of_string " | " ++ TypeString m) ms.
Proof. by rewrite map_map. Qed.

Lemma tail_length ms rest m : m ∈ ms → length (TypeString m) + 3 ≤ length (tailText ms rest).
Proof.
  unfold tailText. induction 1 as [m ms|m m' ms _ IH]; cbn [map concat]; rewrite !length_app in *; simpl in *; lia.
Qed.

Lemma tail_count ms rest : length ms + length ms + length ms ≤ length (tailText ms rest).
Proof.
  unfold tailText. induction ms as [|m ms IH]; cbn [map concat]; [simpl; lia|].
  rewrite !length_app in *; simpl in *; lia.
Qed.

Lemma skip_length s : length (skipSpace s) ≤ length s.
Proof. induction s as [|c s IH]; simpl; [lia|]. case_match; simpl; lia. Qed.

Lemma union_reads m ms :
  TypeString (TUnion (m :: ms)) = join (of_string " | ") (map TypeString (m :: ms)) →
  Forall reads_atom (m :: ms) → Forall unionable (m :: ms) → UnionOf (m :: ms) = TUnion (m :: ms) →
  reads (TUnion (m :: ms)).
Proof.
  intros Hstr Hr Hu HU [|f] rest Hf Hrest; [lia|]. rewrite Hstr in *.
  cbn [map] in *. rewrite join_tail, map_tail in *. rewrite <- app_assoc.
  change (concat _ ++ rest) with (tailText ms rest).
  inversion_clear Hr as [|?? Hm Hms]. inversion_clear Hu.
  assert (Hlen : length (TypeString m) + length (tailText ms []) < S f).
  { unfold tailText. rewrite app_nil_r, <- length_app. done. }
  cbn [parseUnion]. unfold parseSuffixed at 1. rewrite Hm by (lia || by apply tail_stops). cbn [res_bind].
  rewrite suffixes_tail by done. cbn [res_bind]. rewrite (members_read f ms _ [m] rest); try done.
  - simpl. by rewrite HU.
  - apply Forall_forall. intros x Hx. pose proof (tail_length ms [] x Hx). lia.
  - destruct ms as [|m' ms]; [simpl; lia|].
    assert (skipSpace (tailText (m' :: ms) rest) = "|"%char :: " "%char :: TypeString m' ++ tailText ms rest) as ->.
    { unfold tailText. cbn [map concat]. rewrite <- !app_assoc. done. }
    simpl. rewrite length_app. pose proof (tail_count ms rest). lia.
Qed.
End Print.

(** ** Building unions *)

Lemma uniqTypes_snoc l m :
  uniqTypes (l ++ [m]) = if containsType (uniqTypes l) m then uniqTypes l else uniqTypes l ++ [m].
Proof. unfold uniqTypes. by rewrite fold_left_app. Qed.

Lemma uniqTypes_spec l : NoDup (uniqTypes l) ∧ ∀ x, x ∈ uniqTypes l ↔ x ∈ l.
Proof.
  induction l as [|m l [IH1 IH2]] using rev_ind; [by split; [constructor|]|].
  rewrite uniqTypes_snoc. destruct (containsType (uniqTypes l) m) eqn:E.
  - apply containsType_spec in E. split; [done|]. intros x. rewrite elem_of_app, IH2.
    rewrite IH2 in E. set_solver.
  - assert (m ∉ uniqTypes l) by (rewrite <- containsType_spec; congruence).
    split; [|set_solver]. apply NoDup_app. split_and!; [done|set_solver|apply NoDup_singleton].
Qed.

Lemma uniqTypes_id l : NoDup l → uniqTypes l = l.
Proof.
  induction l as [|m l IH] using rev_ind; intros Hl; [done|].
  apply NoDup_app in Hl as (Hl & Hm & _). rewrite uniqTypes_snoc, IH by done.
  destruct (containsType l m) eqn:E; [|done].
  apply containsType_spec in E. set_solver.
Qed.

Lemma Less_sorted_NoDup l : StronglySorted Less l → NoDup l.
Proof.
  induction 1 as [|x l _ IH Hx]; constructor; [|done]. intros Hin.
  rewrite Forall_forall in Hx. specialize (Hx x Hin). unfold Less in Hx.
  rewrite unionLess_irrefl in Hx. done.
Qed.

Lemma Less_Le a b : Less a b → unionLe a b = true.
Proof.
  unfold unionLe. intros H. destruct (unionLess b a) eqn:E; [|done].
  pose proof (unionLess_trans _ _ _ H E) as HH. unfold Less in HH. rewrite unionLess_irrefl in HH. done.
Qed.

Lemma sort_by_id l : StronglySorted Less l → sort_by unionLe l = l.
Proof.
  induction 1 as [|x l _ IH Hx]; [done|]. simpl. rewrite IH.
  destruct Hx as [|y l Hxy _]; [done|]. simpl. by rewrite Less_Le.
Qed.

Lemma unionable_collect t : unionable t → collectUnionMembers t = ([t], false).
Proof. by destruct t. Qed.

Lemma unionables_collect ts :
  Forall unionable ts →
  concat (map (λ t, fst (collectUnionMembers t)) ts) = ts ∧
  existsb (λ t, snd (collectUnionMembers t)) ts = false.
Proof.
  induction 1 as [|t ts Ht _ [IH1 IH2]]; [done|]. simpl.
  rewrite (unionable_collect t Ht), IH1, IH2. done.
Qed.

Lemma unionable_not_any ts : Forall unionable ts → existsb (is_code CodeAny) ts = false.
Proof. induction 1 as [|t ts Ht _ IH]; [done|]. simpl. rewrite IH. by destruct t. Qed.

Lemma normalize_id ms :
  2 ≤ length ms → Forall unionable ms → StronglySorted Less ms →
  normalizeUnionMembers ms = TUnion ms.
Proof.
  intros Hlen Hu Hs. unfold normalizeUnionMembers. rewrite unionable_not_any by done.
  rewrite uniqTypes_id by (by apply Less_sorted_NoDup).
  destruct ms as [|? [|??]]; [simpl in Hlen; lia..|]. by rewrite sort_by_id.
Qed.

Lemma UnionOf_members ms : resolved (TUnion ms) → UnionOf ms = TUnion ms.
Proof.
  rewrite resolved_union. intros (H1 & H2 & H3 & _). unfold UnionOf.
  destruct (unionables_collect ms H2) as [-> ->]. by apply normalize_id.
Qed.

(** A canonical type is the union of itself alone. *)
Lemma UnionOf_single t : canonical t → UnionOf [t] = t.
Proof.
  assert (Hr : ∀ t, resolved t → UnionOf [t] = t ∧ ∃ ms, collectUnionMembers t = (ms, false) ∧ normalizeUnionMembers ms = t).
  { intros t' Ht. destruct t'; try (split; [reflexivity|eexists; split; reflexivity]); [|done].
    - pose proof Ht as Hu. apply resolved_union in Ht as (H1 & H2 & H3 & _).
      unfold UnionOf. cbn [map concat existsb collectUnionMembers fst snd].
      destruct (unionables_collect members H2) as [-> ->]. rewrite app_nil_r.
      split; [by apply normalize_id|]. eexists. split; [done|]. by apply normalize_id. }
  destruct t as [| | | | | | | | | | | | | | |c]; try (intros H; apply (Hr _ H)).
  intros Hc. cbn [canonical] in Hc. destruct (Hr c Hc) as (_ & ms & E & En).
  unfold UnionOf. cbn [map concat existsb collectUnionMembers fst snd]. rewrite E. simpl.
  rewrite app_nil_r, En. by destruct c.
Qed.

(** ** The round trip *)

Lemma listable_members check ms : listable check (TUnion ms) ↔ Forall (listable check) ms.
Proof.
  cbn [listable]. induction ms as [|m ms IH]; simpl; [by split|]. by rewrite IH, Forall_cons.
Qed.

Lemma ListOf_resolved e : resolved e → ListOf e = TList e.
Proof. by destruct e. Qed.

Lemma union_printed m ms :
  (∀ x, m :: ms ≠ [x; TNull]) → TypeString (TUnion (m :: ms)) = join (of_string " | ") (map TypeString (m :: ms)).
Proof.
  intros H. destruct ms as [|[] [|??]]; try done. by destruct (H m).
Qed.

Lemma resolved_reads check t :
  resolved t → listable check t →
  reads check t ∧ (match t with TUnion _ => True | _ => reads_atom check t end).
Proof.
  induction t as [t Ht|e IH|ms IH|c IH] using Ty_induct; intros Hr Hl; [..|done].
  - pose proof (plain_reads_atom check t Ht) as Ha. split; [|by destruct t].
    apply atom_reads; [done|]. apply UnionOf_single. by destruct t.
  - destruct Hl as [Hc Hl]. destruct (IH Hr Hl) as [Hre _].
    assert (Ha : reads_atom check (TList e)) by (apply list_reads_atom; [done|by apply ListOf_resolved|done]).
    split; [|done]. apply atom_reads; [done|]. by apply UnionOf_single.
  - split; [|done]. pose proof (UnionOf_members ms Hr) as HU. pose proof (UnionOf_single (TUnion ms) Hr) as HS.
    apply resolved_union in Hr as (Hlen & Hu & Hs & Hrs). apply listable_members in Hl.
    assert (Ha : Forall (reads_atom check) ms).
    { rewrite !Forall_forall in *. intros m Hm.
      destruct (IH m Hm (Hrs m Hm) (Hl m Hm)) as [_ H]. specialize (Hu m Hm). by destruct m. }
    assert ((∃ m, ms = [m; TNull]) ∨ ∀ x, ms ≠ [x; TNull]) as [[m ->]|Hno].
    { destruct ms as [|m [|[] [|??]]]; (by right) || (by left; eexists). }
    + inversion_clear Ha. by apply optional_reads.
    + destruct ms as [|m ms]; [simpl in Hlen; lia|].
      apply union_reads; try done. by apply union_printed.
Qed.

Lemma resolved_parses check t :
  resolved t → listable check t → parseTypeWith check (TypeString t) = Ok t.
Proof.
  intros Hr Hl. destruct (resolved_reads check t Hr Hl) as [H _]. unfold parseTypeWith.
  rewrite <- (app_nil_r (TypeString t)) at 2. rewrite H by (lia || by left). done.
Qed.

(** Different types print differently. *)
Lemma TypeString_inj t o : resolved t → resolved o → TypeString t = TypeString o → t = o.
Proof.
  intros Ht Ho E.
  assert (Hall : ∀ t, listable (λ _, Ok tt) t).
  { intros t'. induction t' as [t' Hp|e IH|ms IH|c IH] using Ty_induct; try done.
    - by destruct t'.
    - by apply listable_members. }
  pose proof (resolved_parses (λ _, Ok tt) t Ht (Hall t)) as H1.
  pose proof (resolved_parses (λ _, Ok tt) o Ho (Hall o)) as H2.
  congruence.
Qed.

(** ** What a union contains *)

(** A member as [collectUnionMembers] finds it. *)
Definition memberOf (m : Ty) : Prop := resolved m ∧ (unionable m ∨ m = TAny).

(** The members of a list of types, and whether one is a placeholder. *)
Definition members (ts : list Ty) : list Ty := concat (map (λ t, fst (collectUnionMembers t)) ts).
Definition pending (ts : list Ty) : bool := existsb (λ t, snd (collectUnionMembers t)) ts.

Lemma resolved_collect t :
  resolved t → Forall memberOf (fst (collectUnionMembers t)) ∧ snd (collectUnionMembers t) = false.
Proof.
  intros Ht.
  destruct t; try (split; [|reflexivity]; apply Forall_singleton; split; [exact Ht|first [by left|by right]]).
  - split; [constructor|done].
  - apply resolved_union in Ht as (_ & Hu & _ & Hr). cbn [collectUnionMembers fst snd].
    destruct (unionables_collect members0 Hu) as [-> ->]. split; [|done].
    rewrite Forall_forall in *. intros m Hm. split; [by apply Hr|left; by apply Hu].
  - done.
Qed.

Lemma canonical_members ts : Forall canonical ts → Forall memberOf (members ts).
Proof.
  induction 1 as [|t ts Ht _ IH]; unfold members; cbn [map concat]; [constructor|].
  apply Forall_app. split; [|done].
  destruct t; try (by apply resolved_collect). cbn [canonical] in Ht.
  by apply resolved_collect in Ht as [Ht _].
Qed.

Lemma Le_Less a b : resolved a → resolved b → a ≠ b → unionLe a b = true → Less a b.
Proof.
  unfold unionLe, Less. intros Ha Hb Hne Hle. apply negb_true_iff in Hle.
  destruct (unionLess a b) eqn:E; [done|]. destruct Hne.
  apply TypeString_inj; [done..|]. revert E Hle. unfold unionLess.
  destruct (is_code CodeNull a), (is_code CodeNull b); simpl; try done.
  all: apply strLess_total.
Qed.

Lemma sort_strict l :
  NoDup l → Forall resolved l → StronglySorted Less (sort_by unionLe l).
Proof.
  intros Hd Hr. pose proof (sort_by_sorted unionLe unionLe_total unionLe_trans l) as Hs.
  pose proof (sort_by_perm unionLe l) as Hp. rewrite <- Hp in Hd, Hr. clear Hp.
  induction Hs as [|x k Hs IH Hx]; constructor.
  - apply IH; [by inversion Hd|by inversion Hr].
  - inversion_clear Hd. inversion_clear Hr. rewrite !Forall_forall in *.
    intros y Hy. apply Le_Less; auto. intros ->. done.
Qed.

Lemma memberOf_resolved ms : Forall memberOf ms → Forall resolved ms.
Proof. intros H. eapply Forall_impl; [exact H|]. by intros m []. Qed.

Lemma memberOf_unionable ms :
  Forall memberOf ms → existsb (is_code CodeAny) ms = false → Forall unionable ms.
Proof.
  induction 1 as [|m ms [Hr [Hm| ->]] _ IH]; simpl; [constructor| |done].
  rewrite orb_false_iff. intros []. constructor; auto.
Qed.

(** What normalising yields when no member is [any]. *)
Lemma normalize_cases ms :
  Forall memberOf ms → existsb (is_code CodeAny) ms = false →
  ∃ u, StronglySorted Less u ∧ (∀ x, x ∈ u ↔ x ∈ ms) ∧ Forall unionable u ∧ Forall resolved u ∧
    normalizeUnionMembers ms = match u with [] => TNoReturn | [m] => m | _ => TUnion u end.
Proof.
  intros Hm Ha. destruct (uniqTypes_spec ms) as [Hd Hin].
  assert (Hr : Forall resolved (uniqTypes ms)).
  { apply Forall_forall. intros x Hx. apply Hin in Hx.
    apply memberOf_resolved in Hm. rewrite Forall_forall in Hm. auto. }
  assert (Hu : Forall unionable (uniqTypes ms)).
  { apply Forall_forall. intros x Hx. apply Hin in Hx.
    apply memberOf_unionable in Hm; [|done]. rewrite Forall_forall in Hm. auto. }
  pose proof (sort_by_perm unionLe (uniqTypes ms)) as Hp.
  exists (sort_by unionLe (uniqTypes ms)). split_and!.
  - by apply sort_strict.
  - intros x. rewrite <- Hin. by rewrite Hp.
  - by rewrite Hp.
  - by rewrite Hp.
  - unfold normalizeUnionMembers. rewrite Ha.
    destruct (uniqTypes ms) as [|a [|b l]]; [done..|].
    apply Permutation_length in Hp.
    destruct (sort_by unionLe (a :: b :: l)) as [|x [|y k]]; [done..|done].
Qed.

Lemma normalize_canonical ms : Forall memberOf ms → resolved (normalizeUnionMembers ms).
Proof.
  intros Hm. destruct (existsb (is_code CodeAny) ms) eqn:E.
  - unfold normalizeUnionMembers. by rewrite E.
  - destruct (normalize_cases ms Hm E) as (u & Hs & _ & Hu & Hr & ->).
    destruct u as [|a [|b u]]; [done|by inversion Hr|].
    apply resolved_union. split_and!; try done. simpl. lia.
Qed.

Lemma existsb_ext {A} (f : A → bool) l k : (∀ x, x ∈ l ↔ x ∈ k) → existsb f l = existsb f k.
Proof.
  intros H. apply eq_true_iff_eq. rewrite !existsb_exists.
  setoid_rewrite <- list_elem_of_In. by setoid_rewrite H.
Qed.

Lemma normalize_ext ms ns :
  Forall memberOf ms → (∀ x, x ∈ ms ↔ x ∈ ns) → normalizeUnionMembers ms = normalizeUnionMembers ns.
Proof.
  intros Hm Heq.
  assert (Hn : Forall memberOf ns).
  { rewrite Forall_forall in *. intros x Hx. by apply Hm, Heq. }
  pose proof (existsb_ext (is_code CodeAny) ms ns Heq) as Ha.
  destruct (existsb (is_code CodeAny) ms) eqn:E.
  - unfold normalizeUnionMembers. by rewrite E, <- Ha.
  - destruct (normalize_cases ms Hm E) as (u & Hs & Hin & _ & _ & ->).
    destruct (normalize_cases ns Hn (eq_sym Ha)) as (v & Hs' & Hin' & _ & _ & ->).
    rewrite (strictly_sorted_ext u v Hs Hs'); [done|]. intros x. by rewrite Hin, Hin'.
Qed.

Lemma UnresolvedOf_canonical t : canonical t → canonical (UnresolvedOf t).
Proof. by destruct t. Qed.

Lemma ListOf_canonical e : canonical e → canonical (ListOf e).
Proof. destruct e as [| | | | | | | | | | | | | | |c]; try done. intros Hc. simpl in Hc. by destruct c. Qed.

Lemma UnionOf_canonical ts : Forall canonical ts → canonical (UnionOf ts).
Proof.
  intros H. apply canonical_members, normalize_canonical in H.
  unfold UnionOf. fold (members ts). case_match.
  - by apply UnresolvedOf_canonical, resolved_canonical.
  - by apply resolved_canonical.
Qed.

(** The members of a built union are those of its parts, unless [any] absorbs
    them. *)
Lemma members_UnionOf ts x :
  Forall canonical ts → x ∈ members [UnionOf ts] ↔
  (if existsb (is_code CodeAny) (members ts) then x = TAny else x ∈ members ts).
Proof.
  intros Hc. pose proof (canonical_members ts Hc) as Hm.
  assert (Hn : fst (collectUnionMembers (UnionOf ts)) = fst (collectUnionMembers (normalizeUnionMembers (members ts)))).
  { unfold UnionOf. fold (members ts). case_match; [|done].
    pose proof (normalize_canonical _ Hm). by destruct (normalizeUnionMembers (members ts)). }
  unfold members at 1. cbn [map concat]. rewrite app_nil_r, Hn.
  destruct (existsb (is_code CodeAny) (members ts)) eqn:E.
  - unfold normalizeUnionMembers. rewrite E. simpl. set_solver.
  - destruct (normalize_cases _ Hm E) as (u & Hs & Hin & Hu & _ & ->).
    rewrite <- Hin. destruct u as [|a [|b u]]; [done| |].
    + inversion_clear Hu. rewrite unionable_collect by done. simpl. set_solver.
    + cbn [collectUnionMembers fst]. by destruct (unionables_collect _ Hu) as [-> _].
Qed.

(** ** The parser ends *)

(** An outcome of a parse of [s]: a canonical type and less text, or an error
    that is not the model's fuel. *)
Definition sound_parse (s : str) (out : res TypeErr (Ty * str)) : Prop :=
  match out with
  | Ok (t, r) => canonical t ∧ length r < length s
  | Err e => e ≠ ErrTypeFuel
  end.

Lemma word_length s w r : word s = (w, r) → length w + length r = length s.
Proof.
  revert w r. induction s as [|c s IH]; simpl; intros w r; [by intros [= <- <-]|].
  case_match; [|by intros [= <- <-]]. destruct (word s) as [w' r'].
  intros [= <- <-]. simpl. specialize (IH w' r' eq_refl). lia.
Qed.

Lemma eat_length c s r : eat c s = Some r → S (length r) = length s.
Proof. destruct s; simpl; [done|]. case_bool_decide; [|done]. by intros [= ->]. Qed.

Lemma suffixes_sound t s :
  canonical t → canonical (fst (suffixes t s)) ∧ length (snd (suffixes t s)) ≤ length s.
Proof.
  revert t. induction s as [|c s IH]; intros t Ht; simpl; [done|].
  destruct (byte_is c 32 || byte_is c 9).
  - destruct (IH t Ht). split; [done|lia].
  - case_bool_decide; [|simpl; split; [done|lia]].
    assert (canonical (OptionalOf t)) as Ho by (apply UnionOf_canonical; by repeat constructor).
    destruct (IH _ Ho). split; [done|lia].
Qed.

Lemma typeNamed_canonical name t : typeNamed name = Some t → canonical t.
Proof.
  unfold typeNamed. destruct (find _ _) as [c|]; simpl; [|done].
  by destruct c; simpl; intros [= <-].
Qed.

Section Ends.
Context (check : Ty → res TypeErr unit) (rec : str → res TypeErr (Ty * str)) (bound : nat).
Hypothesis check_sound : ∀ t, check t ≠ Err ErrTypeFuel.
Hypothesis rec_sound : ∀ s, length s < bound → sound_parse s (rec s).

Lemma parseBracketed_sound name s : length s < bound → sound_parse s (parseBracketed rec name s).
Proof using rec_sound.
  intros Hs. unfold parseBracketed. pose proof (skip_length s) as Hk.
  destruct (eat _ (skipSpace s)) as [s1|] eqn:E1; [|done]. apply eat_length in E1.
  pose proof (rec_sound s1 ltac:(lia)) as Hr. destruct (rec s1) as [[inner s2]|]; [|done].
  destruct Hr as [Hc Hl]. simpl. pose proof (skip_length s2).
  destruct (eat _ (skipSpace s2)) as [s3|] eqn:E2; [|done]. apply eat_length in E2.
  split; [done|lia].
Qed.

Lemma parseAtom_sound s : length s ≤ bound → sound_parse s (parseAtom check rec s).
Proof using check_sound rec_sound.
  intros Hs. unfold parseAtom. pose proof (skip_length s) as Hk.
  destruct (word (skipSpace s)) as [name s1] eqn:Ew. apply word_length in Ew.
  case_bool_decide as Hn; [done|].
  assert (0 < length name) by (destruct name; simpl; [done|lia]).
  case_bool_decide; [|case_bool_decide].
  - pose proof (parseBracketed_sound name s1 ltac:(lia)) as Hb.
    destruct (parseBracketed rec name s1) as [[e s2]|]; [|done]. destruct Hb as [Hc Hl]. simpl.
    pose proof (check_sound e). destruct (check e) as [[]|]; simpl; [|congruence].
    split; [by apply ListOf_canonical|lia].
  - destruct (eat _ (skipSpace s1)).
    + pose proof (parseBracketed_sound name s1 ltac:(lia)) as Hb.
      destruct (parseBracketed rec name s1) as [[e s2]|]; [|done]. destruct Hb as [Hc Hl]. simpl.
      split; [by apply UnresolvedOf_canonical|lia].
    + simpl. pose proof (skip_length s1). split; [done|lia].
  - destruct (typeNamed name) eqn:Et; [|done]. split; [by eapply typeNamed_canonical|lia].
Qed.

Lemma parseSuffixed_sound s : length s ≤ bound → sound_parse s (parseSuffixed check rec s).
Proof using check_sound rec_sound.
  intros Hs. unfold parseSuffixed. pose proof (parseAtom_sound s Hs) as Ha.
  destruct (parseAtom check rec s) as [[t s1]|]; [|done]. destruct Ha as [Hc Hl]. simpl.
  destruct (suffixes_sound t s1 Hc). destruct (suffixes t s1). simpl in *. split; [done|lia].
Qed.

Lemma unionMembers_sound n s ms :
  length s < n → length s < bound → Forall canonical ms →
  match unionMembers check rec n ms s with
  | Ok (t, r) => canonical t ∧ length r ≤ length s
  | Err e => e ≠ ErrTypeFuel
  end.
Proof using check_sound rec_sound.
  revert s ms. induction n as [|n IH]; intros s ms Hn Hb Hm; [lia|]. cbn [unionMembers].
  pose proof (skip_length s). destruct (eat _ (skipSpace s)) as [s1|] eqn:E.
  - apply eat_length in E. pose proof (parseSuffixed_sound s1 ltac:(lia)) as Hp.
    destruct (parseSuffixed check rec s1) as [[t s2]|]; [|done]. destruct Hp as [Hc Hl]. simpl.
    specialize (IH s2 (ms ++ [t]) ltac:(lia) ltac:(lia)).
    assert (Forall canonical (ms ++ [t])) as Hms by (apply Forall_app; by repeat constructor).
    specialize (IH Hms). destruct (unionMembers _ _ _ _ _) as [[t' r]|]; [|done].
    destruct IH. split; [done|lia].
  - split; [by apply UnionOf_canonical|done].
Qed.
End Ends.

Lemma parseUnion_sound check fuel s :
  (∀ t, check t ≠ Err ErrTypeFuel) → length s < fuel → sound_parse s (parseUnion check fuel s).
Proof.
  intros Hc. revert s. induction fuel as [|f IH]; intros s Hs; [lia|]. cbn [parseUnion].
  pose proof (parseSuffixed_sound check (parseUnion check f) f Hc IH s ltac:(lia)) as Hp.
  destruct (parseSuffixed _ _ s) as [[t s1]|]; [|done]. destruct Hp as [Ht Hl]. cbn [res_bind].
  pose proof (unionMembers_sound check (parseUnion check f) f Hc IH (S (length s1)) s1 [t]
    ltac:(lia) ltac:(lia) ltac:(by repeat constructor)) as Hu.
  destruct (unionMembers _ _ _ _ _) as [[u r]|]; [|done]. destruct Hu. split; [done|lia].
Qed.

Lemma checkListElem_fuel t : checkListElem t ≠ Err ErrTypeFuel.
Proof. unfold checkListElem. by repeat case_match. Qed.

(** ** Properties *)

(** Parsing is total and canonical: on every text [ParseType] returns a
    canonical type or one of the source's errors, never the model's fuel. *)
Theorem ParseType_total s :
  match ParseType s with
  | Ok t => canonical t
  | Err e => e ≠ ErrTypeFuel
  end.
Proof.
  unfold ParseType, parseTypeWith.
  pose proof (parseUnion_sound checkListElem (S (length s)) s checkListElem_fuel ltac:(lia)) as H.
  destruct (parseUnion _ _ s) as [[t r]|]; [|done]. destruct H as [Hc _]. simpl.
  by destruct (skipSpace r).
Qed.

(** The type notation round-trips: [ParseType] reads the printed form of a
    canonical type back as that type, provided its lists have element types that
    [checkListElem] admits. *)
Theorem ParseType_TypeString t :
  canonical t → listable checkListElem t → ParseType (TypeString t) = Ok t.
Proof.
  intros Hc Hl. unfold ParseType.
  destruct t as [| | | | | | | | | | | | | | |c]; try (by apply resolved_parses).
  cbn [canonical listable] in *. cbn [TypeString]. unfold is_code. case_bool_decide as Hany.
  - by destruct c.
  - destruct (resolved_reads checkListElem c Hc Hl) as [Hr _].
    pose proof (bracketed_reads checkListElem (CodeName CodeUnresolved) c) as Hb.
    unfold parseTypeWith. set (s := of_string "unresolved[" ++ _).
    assert (s = CodeName CodeUnresolved ++ "["%char :: TypeString c ++ ["]"%char]) as Hs by done.
    assert (length (TypeString c) < length s) as Hlen.
    { rewrite Hs, !length_app. simpl. rewrite length_app. simpl. lia. }
    generalize dependent (length s). intros n Hlen.
    cbn [parseUnion]. unfold parseSuffixed at 1, parseAtom at 1.
    rewrite Hs, name_skip, word_app by (apply name_bytes || by apply stops_cons).
    rewrite !bool_decide_false by done. rewrite bool_decide_true by done.
    assert (eat "["%char (skipSpace ("["%char :: TypeString c ++ ["]"%char])) = Some (TypeString c ++ ["]"%char])) as -> by done.
    rewrite Hb by (done || lia). cbn [res_bind suffixes length]. cbn [unionMembers eat skipSpace].
    rewrite UnionOf_single; [by destruct c|]. by apply UnresolvedOf_canonical, resolved_canonical.
Qed.

(** A type with every constructor: [unresolved[int | list[path | string] | nulltype]]. *)
Definition sampleType : Ty := UnresolvedOf (UnionOf [TNull; ListOf (UnionOf [TString; TPath]); TInt]).

Lemma ParseType_TypeString_witness :
  ParseType (of_string "unresolved[int | list[path | string] | nulltype]") = Ok sampleType.
Proof.
  change (of_string "unresolved[int | list[path | string] | nulltype]") with (TypeString sampleType).
  apply ParseType_TypeString.
  - apply UnresolvedOf_canonical, UnionOf_canonical. constructor; [exact I|].
    constructor; [|by repeat constructor]. apply ListOf_canonical, UnionOf_canonical. by repeat constructor.
  - vm_compute. by repeat split.
Defined.

(** A union depends on its members only: two lists of canonical types with
    the same members, and a placeholder in both or in neither, build the same
    type, so order, repetition and grouping do not matter; and what they build is
    canonical. *)
Theorem UnionOf_ext ts us :
  Forall canonical ts → Forall canonical us →
  (∀ x, x ∈ members ts ↔ x ∈ members us) → pending ts = pending us →
  canonical (UnionOf ts) ∧ UnionOf ts = UnionOf us.
Proof.
  intros Ht Hu Hm Hp. split; [by apply UnionOf_canonical|].
  unfold UnionOf. fold (members ts) (members us) (pending ts) (pending us).
  by rewrite Hp, (normalize_ext (members ts) (members us) (canonical_members ts Ht) Hm).
Qed.

Lemma UnionOf_ext_witness :
  UnionOf [TInt; UnionOf [TString; TNull]; TInt] = UnionOf [TNull; TInt; TString].
Proof.
  refine (proj2 (UnionOf_ext [TInt; UnionOf [TString; TNull]; TInt] [TNull; TInt; TString] _ _ _ _)).
  - repeat constructor.
  - repeat constructor.
  - vm_compute. set_solver.
  - reflexivity.
Defined.
