(* ===== verification/ExprFloat.v ===== *)
(** * Floating-point numbers of the expression language

    The [float64] operations of Go and of its packages [math] and [strconv] that
    src/internal/openjd/expr uses, on the standard library's executable IEEE
    binary64 numbers.  Rounding, remainder and the conversions are exact by
    integer arithmetic on mantissa and exponent.  What Go leaves to the platform
    is a parameter: [math.Pow], the conversion to [int64] of a number that does
    not fit, and the operating system's path format. *)

From Stdlib Require Import SpecFloat.
From S2P Require Import Prelude StatusText GoText.
Open Scope Z_scope.

Abbreviation float64 := spec_float.

(** The platform: [math.Pow], [int64(f)] where the language leaves the result to
    the implementation, and whether [runtime.GOOS] is ["windows"]. *)
Class Platform := mkPlatform {
  Pow : float64 → float64 → float64;
  wildInt : float64 → Z;
  onWindows : bool;
  wildInt_int : ∀ f, in_int (wildInt f);
}.

(** A platform for examples. *)
Lemma zero_int (f : float64) : in_int 0.
Proof. unfold in_int, MinInt, MaxInt. lia. Qed.

Definition samplePlatform : Platform := mkPlatform (λ x _, x) (λ _, 0) false zero_int.

(** ** Arithmetic and order *)

Definition fadd : float64 → float64 → float64 := SFadd 53 1024.
Definition fsub : float64 → float64 → float64 := SFsub 53 1024.
Definition fmul : float64 → float64 → float64 := SFmul 53 1024.
Definition fdiv : float64 → float64 → float64 := SFdiv 53 1024.
Definition fneg : float64 → float64 := SFopp.
Definition fabs : float64 → float64 := SFabs.
Definition feq (a b : float64) : bool := SFeqb a b.
Definition flt (a b : float64) : bool := SFltb a b.
Definition fle (a b : float64) : bool := SFleb a b.

Definition IsNaN (f : float64) : bool := match f with S754_nan => true | _ => false end.
Definition IsInf (f : float64) : bool := match f with S754_infinity _ => true | _ => false end.

Definition finite (f : float64) : bool :=
  match f with S754_zero _ | S754_finite _ _ _ => true | _ => false end.

(** [float64(z)] of an integer. *)
Definition float_of_int (z : Z) : float64 := binary_normalize 53 1024 z 0 false.

Definition fzero : float64 := S754_zero false.

(** The signed mantissa of a finite number. *)
Definition signed_mantissa (s : bool) (m : positive) : Z := if s then Z.neg m else Z.pos m.

(** ** Rounding to an integer *)

(** A number as an integer over a power of two: [f = n / 2^k]. *)
Definition ratio (s : bool) (m : positive) (e : Z) : Z * Z :=
  (signed_mantissa s m * 2 ^ Z.max 0 e, Z.max 0 (- e)).

(** The nearest integer below, towards zero, above, and to even. *)
Definition down (n k : Z) : Z := n / 2 ^ k.
Definition cut (n k : Z) : Z := Z.quot n (2 ^ k).
Definition up (n k : Z) : Z := - ((- n) / 2 ^ k).
Definition even (n k : Z) : Z :=
  let q := n / 2 ^ k in
  let r := 2 * (n mod 2 ^ k) in
  if (r <? 2 ^ k) || ((r =? 2 ^ k) && Z.even q) then q else q + 1.

(** [math.Floor], [math.Trunc], [math.Ceil], [math.RoundToEven]: a number
    without a fraction is returned as it is. *)
Definition integral (round : Z → Z → Z) (f : float64) : float64 :=
  match f with
  | S754_finite s m e =>
      if 0 <=? e then f
      else let '(n, k) := ratio s m e in binary_normalize 53 1024 (round n k) 0 s
  | _ => f
  end.

Definition Floor : float64 → float64 := integral down.
Definition Trunc : float64 → float64 := integral cut.
Definition Ceil : float64 → float64 := integral up.
Definition RoundToEven : float64 → float64 := integral even.

(** The integer part of a finite number. *)
Definition whole (f : float64) : Z :=
  match f with
  | S754_finite s m e => let '(n, k) := ratio s m e in cut n k
  | _ => 0
  end.

(** [int64(f)] *)
Definition int_of_float {arch : Platform} (f : float64) : Z :=
  if finite f then
    if decide (in_int (whole f)) then whole f else wildInt f
  else wildInt f.

(** [math.Mod]: the remainder with the sign of the dividend. *)
Definition Mod (x y : float64) : float64 :=
  match x, y with
  | S754_nan, _ | _, S754_nan | S754_infinity _, _ | _, S754_zero _ => S754_nan
  | S754_zero _, _ | _, S754_infinity _ => x
  | S754_finite sx mx ex, S754_finite sy my ey =>
      let e := Z.min ex ey in
      let a := Z.pos mx * 2 ^ (ex - e) in
      let b := Z.pos my * 2 ^ (ey - e) in
      let r := a mod b in
      binary_normalize 53 1024 (if sx then - r else r) e sx
  end.

(** ** Decimal text *)

(** [f = num / den] for the magnitude of a finite number. *)
Definition magnitude (m : positive) (e : Z) : Z * Z :=
  (Z.pos m * 2 ^ Z.max 0 e, 2 ^ Z.max 0 (- e)).

(** The decimal point of [num / den]: the [k] with
    [10^(k-1) <= num/den < 10^k], found from an estimate at most one off. *)
Definition point (num den : Z) : Z :=
  let guess := (Z.log2 num - Z.log2 den) * 30103 / 100000 in
  let below k := if 0 <=? k then num <? den * 10 ^ k else num * 10 ^ (- k) <? den in
  if below (guess - 1) then guess - 1
  else if below guess then guess
  else if below (guess + 1) then guess + 1
  else guess + 2.

(** The [n]-digit decimals next to [num/den] with point [k]: [d / 10^(n-k)]. *)
Definition scaled (num den n k : Z) : Z * Z :=
  if k <=? n then (num * 10 ^ (n - k), den) else (num, den * 10 ^ (k - n)).

Definition decimal (d n k : Z) : float64 :=
  if k <=? n then float_quotient false d (10 ^ (n - k)) else float_quotient false (d * 10 ^ (k - n)) 1.

(** The shortest digits that read back as [f], of the closest such decimal, and
    their point: the precision -1 of [strconv.FormatFloat]. *)
Fixpoint shortest (fuel : nat) (f : float64) (num den n k : Z) : Z * Z * Z :=
  let '(a, b) := scaled num den n k in
  let lo := a / b in
  let hi := lo + 1 in
  match fuel with
  | O => (lo, n, k)
  | S fuel' =>
      let lo_ok := (0 <? lo) && feq (decimal lo n k) f in
      let hi_ok := feq (decimal hi n k) f in
      let rest := 2 * (a mod b) in
      if lo_ok && (negb hi_ok || (rest <? b) || ((rest =? b) && Z.even lo)) then (lo, n, k)
      else if hi_ok then (hi, n, k)
      else shortest fuel' f num den (n + 1) k
  end.

(** Trailing zeros do not count as digits. *)
Fixpoint strip_zeros (fuel : nat) (d n : Z) : Z * Z :=
  match fuel with
  | O => (d, n)
  | S f => if (1 <? n) && (d mod 10 =? 0) then strip_zeros f (d / 10) (n - 1) else (d, n)
  end.

(** The digits and the point of a positive number; seventeen digits identify
    every [float64]. *)
Definition digits_of (m : positive) (e : Z) : str * Z :=
  let '(num, den) := magnitude m e in
  let '(d, n, k) := shortest 17 (S754_finite false m e) num den 1 (point num den) in
  let k := if 10 ^ n <=? d then k + 1 else k in
  let n := if 10 ^ n <=? d then n + 1 else n in
  let '(d, _) := strip_zeros 18 d n in
  (Itoa d, k).

Definition zeros (n : Z) : str := replicate (Z.to_nat n) "0"%char.

(** [%f] with all digits. *)
Definition fixed (ds : str) (k : Z) : str :=
  let n := Z.of_nat (length ds) in
  if k <=? 0 then of_string "0." ++ zeros (- k) ++ ds
  else if n <=? k then ds ++ zeros (k - n)
  else take (Z.to_nat k) ds ++ "."%char :: drop (Z.to_nat k) ds.

(** [%e] with all digits: at least two digits of exponent. *)
Definition scientific (ds : str) (k : Z) : str :=
  let x := k - 1 in
  let ex := Itoa (Z.abs x) in
  take 1 ds ++ (if (1 <? length ds)%nat then "."%char :: drop 1 ds else [])
  ++ "e"%char :: (if x <? 0 then "-"%char else "+"%char)
  :: (if Z.abs x <? 10 then "0"%char :: ex else ex).

(** [strconv.FormatFloat(f, 'g', -1, 64)] and [(f, 'f', -1, 64)]. *)
Definition FormatFloat (sci : bool) (f : float64) : str :=
  match f with
  | S754_nan => of_string "NaN"
  | S754_infinity s => of_string (if s then "-Inf" else "+Inf")
  | S754_zero s => (if s then ["-"%char] else []) ++ of_string "0"
  | S754_finite s m e =>
      let '(ds, k) := digits_of m e in
      let exp := k - 1 in
      (if s then ["-"%char] else [])
      ++ (if sci && ((exp <? -4) || (6 <=? exp)) then scientific ds k else fixed ds k)
  end.

(** expr/value.go [formatFloat] *)
Definition formatFloat (f : float64) : str :=
  let s := FormatFloat true f in
  let pointed t := if contains t (of_string ".") then t else t ++ of_string ".0" in
  if negb (existsb (λ c, bool_decide (c = "e"%char) || bool_decide (c = "E"%char)) s) then pointed s
  else
    let abs := SFabs f in
    if fle (float_quotient false 1 10000) abs && flt abs (float_of_int (10 ^ 16)) then
      pointed (FormatFloat false f)
    else s.

(** Decimal digits of an integer of any size. *)
Definition wideDec (z : Z) : str := digits (S (Z.to_nat (Z.log2 z))) z.

(** [strconv.FormatFloat(f, 'f', n, 64)]: the exact value rounded to [n] decimals,
    half to even. *)
Definition FormatFixed (f : float64) (n : Z) : str :=
  match f with
  | S754_nan => of_string "NaN"
  | S754_infinity s => of_string (if s then "-Inf" else "+Inf")
  | S754_zero _ | S754_finite _ _ _ =>
      let '(s, num, den) :=
        match f with
        | S754_finite s m e => let '(num, den) := magnitude m e in (s, num, den)
        | S754_zero s => (s, 0, 1)
        | _ => (false, 0, 1)
        end in
      let q := num * 10 ^ n / den in
      let r := 2 * (num * 10 ^ n mod den) in
      let d := if (r <? den) || ((r =? den) && Z.even q) then q else q + 1 in
      let tail := wideDec (d mod 10 ^ n) in
      (if s then ["-"%char] else []) ++ wideDec (d / 10 ^ n)
      ++ (if 0 <? n then "."%char :: zeros (n - Z.of_nat (length tail)) ++ tail else [])
  end.
