(* ===== verification/ExprValue.v ===== *)
(** * Values, limits and the meter of the expression language

    src/internal/openjd/expr: value.go (values and their rendering), errors.go,
    limits.go (size limits), meter.go (the memory and operation budget of one
    evaluation) and rangeexpr.go (range expressions as values).

    A Go [Value] is a type with a payload per type code.  Here each code that a
    value can carry is a constructor with its payload; a list whose element type
    is a placeholder is itself a placeholder, as [ListOf] makes it, and the
    payload it would have is never read.  Reading the payload of another code
    panics in the source ([mustBe]) and is the error [EPanic] here; indexing a
    slice out of range is [EIndexPanic].

    Evaluation threads the meter, which is shared by pointer: what a failed
    computation charged stays charged.  Live bytes are counted exactly; the
    operation count is an [int64] and wraps. *)

From S2P Require Import Prelude StatusText GoText IntRange RangeExpr ExprType ExprFloat.
Open Scope Z_scope.

(** ** Path formats *)

(** eval.go [PathFormat] *)
Inductive PathFormat := PathPOSIX | PathWindows | PathNative.

#[export] Instance PathFormat_eq_dec : EqDecision PathFormat.
Proof. solve_decision. Defined.

(** eval.go [PathFormat.resolve] *)
Definition resolve {arch : Platform} (f : PathFormat) : PathFormat :=
  match f with
  | PathNative => if onWindows then PathWindows else PathPOSIX
  | _ => f
  end.

(** ** Values *)

(** value.go [Value]; a float carries the text it is rendered as, if any. *)
Inductive Value :=
  | VNull
  | VBool (b : bool)
  | VInt (i : Z)
  | VFloat (f : float64) (fs : str)
  | VString (s : str)
  | VPath (s : str) (pf : PathFormat)
  | VRange (s : str)
  | VList (elem : Ty) (l : list Value)
  | VUnresolved (constraint : Ty).

(** The [Type] of a value. *)
Definition typeOf (v : Value) : Ty :=
  match v with
  | VNull => TNull
  | VBool _ => TBool
  | VInt _ => TInt
  | VFloat _ _ => TFloat
  | VString _ => TString
  | VPath _ _ => TPath
  | VRange _ => TRangeExpr
  | VList e _ => TList e
  | VUnresolved c => TUnresolved c
  end.

(** value.go [Float], [floatRendered], [List], [Unresolved] *)
Definition Float (f : float64) : Value := VFloat f [].

Definition ListValue (elem : Ty) (vals : list Value) : Value :=
  match ListOf elem with
  | TUnresolved c => VUnresolved c
  | _ => VList elem vals
  end.

Definition Unresolved (t : Ty) : Value := VUnresolved (unwrapUnresolved t).

(** value.go [IsUnresolved], [IsNull] *)
Definition IsUnresolved (v : Value) : bool := match v with VUnresolved _ => true | _ => false end.
Definition IsNull (v : Value) : bool := match v with VNull => true | _ => false end.

(** The text payload [v.s] of a value: empty when it has none. *)
Definition textOf (v : Value) : str :=
  match v with VString s | VPath s _ | VRange s => s | _ => [] end.

(** meter.go [valueHeaderBytes], [sizeOf] *)
Definition valueHeaderBytes : Z := 64.

Fixpoint sizeOf (v : Value) : Z :=
  match v with
  | VString s | VPath s _ | VRange s => valueHeaderBytes + Z.of_nat (length s)
  | VList _ l => foldr (λ e total, total + sizeOf e) valueHeaderBytes l
  | _ => valueHeaderBytes
  end.

(** ** Rendering *)

Definition hexDigit (z : Z) : ascii := byte_chr (if z <? 10 then 48 + z else 87 + z).

Definition hex4 (r : Z) : str :=
  [hexDigit (r / 4096 mod 16); hexDigit (r / 256 mod 16); hexDigit (r / 16 mod 16); hexDigit (r mod 16)].

(** One rune as [encoding/json] writes it inside a string, without HTML
    escaping.  [bad] marks a byte that is not UTF-8. *)
Definition jsonRune (r : Z) (bad : bool) : str :=
  let esc c := ["\"%char; c] in
  if r =? 34 then esc (byte_chr 34)
  else if r =? 92 then esc "\"%char
  else if r =? 8 then esc "b"%char
  else if r =? 12 then esc "f"%char
  else if r =? 10 then esc "n"%char
  else if r =? 13 then esc "r"%char
  else if r =? 9 then esc "t"%char
  else if (r <? 32) || (r =? 8232) || (r =? 8233) || bad then "\"%char :: "u"%char :: hex4 r
  else EncodeRune r.

Fixpoint jsonRunes (fuel : nat) (s : str) : str :=
  match fuel, s with
  | O, _ | _, [] => []
  | S fuel', _ =>
      let '(r, size) := DecodeRune s in
      jsonRune r ((r =? RuneError) && Nat.eqb size 1) ++ jsonRunes fuel' (drop size s)
  end.

(** funcsconv.go [jsonQuoteElement] *)
Definition jsonQuoteElement (s : str) : str :=
  byte_chr 34 :: jsonRunes (length s) s ++ [byte_chr 34].

(** value.go [Value.String] *)
Fixpoint ValueString (v : Value) : str :=
  match v with
  | VNull => of_string "null"
  | VBool b => of_string (if b then "true" else "false")
  | VInt i => Itoa i
  | VFloat f fs => match fs with [] => formatFloat f | _ => fs end
  | VString s | VPath s _ | VRange s => s
  | VList _ l =>
      of_string "["
      ++ join (of_string ", ")
           (map (λ e, match e with
                      | VString s | VPath s _ | VRange s => jsonQuoteElement s
                      | _ => ValueString e
                      end) l)
      ++ of_string "]"
  | VUnresolved _ => of_string "<" ++ TypeString (typeOf v) ++ of_string ">"
  end.

(** ** Errors *)

(** What went wrong, one constructor per error value or message of the source. *)
Inductive EErr :=
  | EPanic | EIndexPanic
  | EMemoryLimit | EOperationLimit | EDeadlineExceeded | ETooLarge | ELimitOption
  | ENotCoercible | EInexactInt | EIntText | EFloatText | EBoolText
  | EBadRange (e : ParseError)
  | EIntOverflow | EDivideByZero | EModuloByZero | EZeroNegPower
  | EInfinite | ENotANumber | ENegFracPower
  | EUnsupported | ENotOrdering | ENoComparison | EIncompatibleLists
  | EUnknownFunction (name : str) | ENoSignature (name : str)
  | EDunder (name : str) | ENotAFunction | EUnknownSymbol (name : str)
  | EUnknownProperty (attr : str)
  | ETooDeep | EConditionNotBool | EBothBranchesFail | EComparisonNotBool
  | ENullElement | EIncompatibleElements
  | ENoMember | EIndexNotInt | EOutOfBounds | EPathSubscript | ENotSubscriptable
  | ESliceNotInt | EZeroSliceStep | EPathSlice | ENotSliceable
  | ENotIterable | EShadows (name : str) | EFilterNotBool
  | EPathToBool | EListToBool | EEmptyRange | EFail (msg : str)
  | EZeroRangeStep | EEmptyList (name : str)
  | EEmptyName | EInvalidSuffix | ENotRelative | EInvalidName | EEmptyStem
  | EEmptySubstring | EEmptySeparator | ENotFound | EPadding
  | EEmptyPattern | EUnsupportedRegex | EInvalidRegex | EGroupReference.

(** errors.go [Error]: what went wrong and the offset it is reported at, none
    before [wrapAt] gives one. *)
Record Failure := mkFailure {
  what : EErr;
  offset : option Z;
}.

Definition failed (e : EErr) : Failure := mkFailure e None.

(** ** The meter *)

(** meter.go [meter]; the clock is the sequence of its readings. *)
Record Meter := mkMeter {
  mem : Z;
  memLimit : Z;
  ops : Z;
  opLimit : Z;
  deadline : option Z;
  clock : nat → Z;
  reads : nat;
  sinceCheck : Z;
}.

Definition defaultMemoryLimit : Z := 100000000.
Definition defaultOperationLimit : Z := 10000000.

(** meter.go [newMeter], with the options [WithDeadline] and [WithClock]. *)
Definition newMeter (memLimit opLimit : Z) (deadline : option Z) (clock : nat → Z) : Meter :=
  mkMeter 0 memLimit 0 opLimit deadline clock 0 0.

Definition set_mem (m : Meter) (z : Z) : Meter :=
  mkMeter z (memLimit m) (ops m) (opLimit m) (deadline m) (clock m) (reads m) (sinceCheck m).
Definition set_ops (m : Meter) (z : Z) : Meter :=
  mkMeter (mem m) (memLimit m) z (opLimit m) (deadline m) (clock m) (reads m) (sinceCheck m).
Definition set_reads (m : Meter) (n : nat) : Meter :=
  mkMeter (mem m) (memLimit m) (ops m) (opLimit m) (deadline m) (clock m) n (sinceCheck m).
Definition set_since (m : Meter) (z : Z) : Meter :=
  mkMeter (mem m) (memLimit m) (ops m) (opLimit m) (deadline m) (clock m) (reads m) z.

(** ** Metered computations *)

Definition M (A : Type) : Type := Meter → Meter * res Failure A.

Definition ret {A} (a : A) : M A := λ m, (m, Ok a).
Definition raise {A} (e : EErr) : M A := λ m, (m, Err (failed e)).
Definition bind {A B} (c : M A) (k : A → M B) : M B :=
  λ m, match c m with
       | (m', Ok a) => k a m'
       | (m', Err e) => (m', Err e)
       end.

Notation "'let*' x ':=' c 'in' k" := (bind c (λ x, k))
  (at level 10, x pattern, c at level 100, k at level 200) : sqi_scope.

(** A computation that does not touch the meter. *)
Definition lift {A} (r : res EErr A) : M A :=
  λ m, (m, match r with Ok a => Ok a | Err e => Err (failed e) end).

(** errors.go [wrapAt] and [errorAt] *)
Definition wrapAt {A} (pos : Z) (c : M A) : M A :=
  λ m, match c m with
       | (m', Err e) => (m', Err (mkFailure (what e) (Some pos)))
       | out => out
       end.

Definition errorAt {A} (pos : Z) (e : EErr) : M A := λ m, (m, Err (mkFailure e (Some pos))).

(** meter.go [alloc], [release] *)
Definition alloc (v : Value) : M unit :=
  λ m, let live := mem m + sizeOf v in
       (set_mem m live, if memLimit m <? live then Err (failed EMemoryLimit) else Ok tt).

Definition release (v : Value) : M unit :=
  λ m, let live := mem m - sizeOf v in
       (set_mem m (if live <? 0 then 0 else live), Ok tt).

(** meter.go [deadlinePassed], called with a deadline. *)
Definition deadlinePassed (limit : Z) : M unit :=
  λ m, (set_reads m (S (reads m)),
        if limit <? clock m (reads m) then Err (failed EDeadlineExceeded) else Ok tt).

Definition deadlineCheckInterval : Z := 1024.

(** meter.go [checkDeadline] *)
Definition checkDeadline (limit : Z) : M unit :=
  λ m, let n := sinceCheck m + 1 in
       if negb (n =? 1) && (n <? deadlineCheckInterval) then (set_since m n, Ok tt)
       else deadlinePassed limit (set_since m (if deadlineCheckInterval <=? n then 1 else n)).

(** meter.go [charge], [chargeElements], [chargeBytes], [ceilDiv256] *)
Definition charge (n : Z) : M unit :=
  λ m, let total := wrap64 (ops m + n) in
       let m := set_ops m total in
       if opLimit m <? total then (m, Err (failed EOperationLimit))
       else match deadline m with
            | None => (m, Ok tt)
            | Some limit => checkDeadline limit m
            end.

Definition ceilDiv256 (n : Z) : Z := if n <=? 0 then 0 else (n + 255) / 256.
Definition chargeBytes (s : str) : M unit := charge (ceilDiv256 (Z.of_nat (length s))).

(** meter.go [reserve], [reserveBytes] *)
Definition reserve (n : Z) : M unit :=
  λ m, if (0 <? n) && (opLimit m <? wrap64 (ops m + n)) then (m, Err (failed EOperationLimit))
       else match deadline m with
            | None => (m, Ok tt)
            | Some limit => deadlinePassed limit m
            end.

Definition reserveBytes (n : Z) : M unit :=
  if n <=? 0 then ret tt else reserve ((n + 255) / 256).

(** ** Limits *)

(** limits.go *)
Definition maxElements : Z := 10000000.
Definition maxStringBytes : Z := 10000000.
Definition maxParseDepth : nat := 500.
Definition maxEvalDepth : nat := Z.to_nat 10000.
Definition maxSourceBytes : Z := 10000.

Definition checkElementCount (n : Z) : res EErr unit :=
  if (n <? 0) || (maxElements <? n) then Err ETooLarge else Ok tt.

Definition checkStringBytes (n : Z) : res EErr unit :=
  if (n <? 0) || (maxStringBytes <? n) then Err ETooLarge else Ok tt.

Definition checkSourceBytes (n : Z) : res EErr unit :=
  if maxSourceBytes <? n then Err ETooLarge else Ok tt.

(** limits.go [checkRepeat]: the total, computed without overflowing. *)
Definition checkRepeat (unitSize n limit : Z) : res EErr Z :=
  if (unitSize <=? 0) || (n <=? 0) then Ok 0
  else if Z.quot limit unitSize <? n then Err ETooLarge
  else Ok (unitSize * n).

(** ** Reading payloads *)

(** value.go [AsBool], [AsInt], [AsFloat], [AsStr], [AsList], [AsRangeExpr], and
    funcsconv.go [pathText] *)
Definition AsBool (v : Value) : res EErr bool := match v with VBool b => Ok b | _ => Err EPanic end.
Definition AsInt (v : Value) : res EErr Z := match v with VInt i => Ok i | _ => Err EPanic end.
Definition AsFloat (v : Value) : res EErr float64 := match v with VFloat f _ => Ok f | _ => Err EPanic end.
Definition AsStr (v : Value) : res EErr str := match v with VString s => Ok s | _ => Err EPanic end.
Definition AsList (v : Value) : res EErr (list Value) := match v with VList _ l => Ok l | _ => Err EPanic end.
Definition AsRangeExpr (v : Value) : res EErr str := match v with VRange s => Ok s | _ => Err EPanic end.
Definition pathText (v : Value) : res EErr str := match v with VPath s _ => Ok s | _ => Err EPanic end.

(** ** Range expressions *)

(** rangeexpr.go [RangeExpr]: the text is kept as it is written. *)
Definition RangeExprValue (text : str) : res EErr Value :=
  match Parse text with
  | Ok _ => Ok (VRange text)
  | Err e => Err (EBadRange e)
  end.

Definition parsedRanges (v : Value) : res EErr (list Range) :=
  let? s := AsRangeExpr v in
  match Parse s with Ok rs => Ok rs | Err e => Err (EBadRange e) end.

(** The counting loop of [rangeInts] and [rangeExprCount]. *)
Fixpoint sumCounts (total : Z) (ranges : list Range) : res EErr Z :=
  match ranges with
  | [] => Ok total
  | r :: rs =>
      let total := wrap64 (total + Count r) in
      let? _ := checkElementCount total in
      sumCounts total rs
  end.

(** rangeexpr.go [expandOneRange]: ascending, whatever the sign of the step. *)
Definition expandOneRange (r : Range) : list Z :=
  if Step r <? 0 then rev (Iterate r) else Iterate r.

(** rangeexpr.go [expandRanges]: without repetition, ascending. *)
Definition expandRanges (ranges : list Range) : list Z :=
  sort_by Z.leb (addRanges ∅ [] ranges).

Definition expand (ranges : list Range) : list Z :=
  match ranges with [r] => expandOneRange r | _ => expandRanges ranges end.

(** rangeexpr.go [rangeInts] *)
Definition rangeInts (v : Value) : res EErr (list Z) :=
  let? ranges := parsedRanges v in
  let? _ := sumCounts 0 ranges in
  Ok (expand ranges).

(** rangeexpr.go [rangeExprCount]: a single range is counted without a limit. *)
Definition rangeExprCount (v : Value) : res EErr Z :=
  let? ranges := parsedRanges v in
  match ranges with
  | [r] => Ok (Count r)
  | _ =>
      let? _ := sumCounts 0 ranges in
      Ok (Z.of_nat (length (expandRanges ranges)))
  end.

(** The loop of [rangeExprCountBounds]. *)
Fixpoint countBounds (low high : Z) (ranges : list Range) : res EErr (Z * Z) :=
  match ranges with
  | [] => Ok (low, high)
  | r :: rs =>
      let n := Count r in
      let high := wrap64 (high + n) in
      let? _ := checkElementCount high in
      countBounds (if low <? n then n else low) high rs
  end.

(** rangeexpr.go [rangeExprCountBounds] *)
Definition rangeExprCountBounds (v : Value) : res EErr (Z * Z) :=
  let? ranges := parsedRanges v in
  match ranges with
  | [r] => Ok (Count r, Count r)
  | _ => countBounds 0 0 ranges
  end.

(** rangeexpr.go [reserveRangeExprExpansion] *)
Definition reserveRangeExprExpansion (v : Value) : M unit :=
  let* (low, high) := lift (rangeExprCountBounds v) in
  λ m, match reserve high m with
       | (m', Ok _) => (m', Ok tt)
       | (m', Err e) =>
           match what e with
           | EDeadlineExceeded => (m', Err e)
           | _ => (let* _ := reserve low in
                   let* n := lift (rangeExprCount v) in
                   reserve n) m'
           end
       end.

(** rangeexpr.go [reserveRangeExprCount] *)
Definition reserveRangeExprCount (v : Value) : M unit :=
  let* ranges := lift (parsedRanges v) in
  match ranges with
  | [_] => ret tt
  | _ => reserveRangeExprExpansion v
  end.

(** rangeexpr.go [reserveEqualityExpansion] *)
Definition reserveEqualityExpansion (l r : Value) : M unit :=
  match r with
  | VRange rs =>
      match l with
      | VRange ls => if bool_decide (ls = rs) then ret tt else reserveRangeExprExpansion r
      | _ => reserveRangeExprExpansion r
      end
  | _ => ret tt
  end.

(** ops.go [intValues], rangeexpr.go [rangeExprValues] *)
Definition intValues (ints : list Z) : list Value := map VInt ints.

(** The inner loop of [canonicalRange]: the last element of the run with
    difference [delta], and what follows it. *)
Fixpoint runEnd (delta prev : Z) (l : list Z) : Z * list Z :=
  match l with
  | x :: l' => if wrap64 (x - prev) =? delta then runEnd delta x l' else (prev, l)
  | [] => (prev, [])
  end.

(** rangeexpr.go [runText] *)
Definition runText (start end_ delta : Z) : str :=
  if delta =? 1 then Itoa start ++ "-"%char :: Itoa end_
  else Itoa start ++ "-"%char :: Itoa end_ ++ ":"%char :: Itoa delta.

(** The loop of [canonicalRange]; its list shrinks, so its length is fuel
    enough. *)
Fixpoint canonicalParts (fuel : nat) (ints : list Z) : list str :=
  match fuel, ints with
  | O, _ | _, [] => []
  | S f, a :: rest =>
      match rest with
      | b :: c :: rest' =>
          let delta := wrap64 (b - a) in
          if negb (delta =? 0) && (wrap64 (c - b) =? delta) then
            let '(last, tail) := runEnd delta c rest' in
            runText a last delta :: canonicalParts f tail
          else Itoa a :: canonicalParts f rest
      | _ => Itoa a :: canonicalParts f rest
      end
  end.

(** rangeexpr.go [canonicalRange] *)
Definition canonicalRange (ints : list Z) : str :=
  join (of_string ",") (canonicalParts (length ints) ints).
