(* ===== verification/ExprRange.v ===== *)
(** * Range expressions as values

    src/internal/openjd/expr/rangeexpr.go: what [rangeInts] lists, and that
    [canonicalRange] prints a list of integers as a range expression that lists
    them again. *)

From Stdlib Require Import Sorted.
From S2P Require Import Prelude StatusText GoText IntRange RangeExpr ExprType ExprFloat ExprValue.
Open Scope Z_scope.

Abbreviation ascending := (StronglySorted Z.lt).

(** ** Sorting integers *)

Lemma ascending_NoDup l : ascending l → NoDup l.
Proof.
  induction 1 as [|x l _ IH Hx]; constructor; [|done].
  intros Hin. rewrite Forall_forall in Hx. specialize (Hx x Hin). lia.
Qed.

Lemma sort_ascending l : ascending l → sort_by Z.leb l = l.
Proof.
  induction 1 as [|x l _ IH Hx]; [done|]. simpl. rewrite IH.
  destruct Hx as [|y l Hxy _]; [done|]. simpl. destruct (Z.leb_spec x y); [done|lia].
Qed.

Lemma sort_by_ascending l : NoDup l → ascending (sort_by Z.leb l).
Proof.
  intros Hd.
  assert (Hs : StronglySorted (λ x y, (x <=? y) = true) (sort_by Z.leb l)).
  { apply sort_by_sorted; intros; rewrite ?Z.leb_le in *; lia. }
  pose proof (sort_by_perm Z.leb l) as Hp. rewrite <- Hp in Hd. clear Hp.
  induction Hs as [|x k Hs IH Hx]; [constructor|]. inversion_clear Hd as [|?? Hn Hd'].
  constructor; [by apply IH|]. rewrite Forall_forall in *. intros y Hy.
  specialize (Hx y Hy). apply Z.leb_le in Hx. assert (x ≠ y) by congruence. lia.
Qed.

Lemma progression_ascending start step k : 0 < step → ascending (progression start step k).
Proof.
  intros Hs. revert start. induction k as [|k IH]; intros start; [constructor|].
  rewrite progression_S. constructor; [apply IH|]. apply Forall_forall. intros x Hx.
  apply elem_of_progression in Hx as (i & Hi & ->). nia.
Qed.

Lemma progression_snoc start step k :
  progression start step (S k) = progression start step k ++ [start + Z.of_nat k * step].
Proof. unfold progression. by rewrite seq_S, fmap_app. Qed.

Lemma progression_rev start step k :
  rev (progression start step k) = progression (start + (Z.of_nat k - 1) * step) (- step) k.
Proof.
  induction k as [|k IH]; [done|]. rewrite progression_snoc, rev_app_distr, IH.
  cbn [rev app]. rewrite progression_S. f_equal; [lia|]. f_equal. lia.
Qed.

(** ** What a range expression lists *)

Lemma sumCounts_small total rs n :
  0 ≤ total ≤ maxElements → Forall range_ok rs → sumCounts total rs = Ok n →
  Forall (λ r, Count r ≠ MaxInt) rs.
Proof.
  revert total. induction rs as [|r rs IH]; intros total Ht Hok H; [constructor|].
  inversion_clear Hok as [|?? Hr Hrs]. cbn [sumCounts] in H.
  pose proof (Count_is_saturated_size r Hr) as [Hc _].
  unfold checkElementCount in H. unfold maxElements in *.
  destruct (_ || _)%bool eqn:E; [done|]. cbn [res_bind] in H.
  apply orb_false_iff in E as [E1%Z.ltb_ge E2%Z.ltb_ge].
  constructor; [|by eapply IH; [|done..]].
  intros Hmax. rewrite Hmax in *. destruct (wrap64_decomp (total + MaxInt)) as [k Hk].
  pose proof (wrap64_range (total + MaxInt)). unfold in_int, MinInt, MaxInt in *. lia.
Qed.

Lemma expandOneRange_spec r :
  range_ok r → Count r ≠ MaxInt →
  ascending (expandOneRange r) ∧ ∀ x, x ∈ expandOneRange r ↔ in_range_set r x.
Proof.
  intros Hok Hc. unfold expandOneRange.
  pose proof (eff_step_nonzero r) as Hnz. unfold eff_step in Hnz.
  split.
  - rewrite Iterate_progression by done. unfold eff_step in *.
    destruct (Z.ltb_spec (Step r) 0).
    + rewrite progression_rev. apply progression_ascending. case_match; lia.
    + apply progression_ascending. case_match; zbool; lia.
  - intros x. rewrite <- (elem_of_Iterate r x Hok Hc). destruct (Step r <? 0); [|done].
    by rewrite !list_elem_of_In, <- in_rev.
Qed.

Lemma expand_spec rs :
  Forall range_ok rs → Forall (λ r, Count r ≠ MaxInt) rs →
  ascending (expand rs) ∧ ∀ x, x ∈ expand rs ↔ ∃ r, r ∈ rs ∧ in_range_set r x.
Proof.
  intros Hok Hc. unfold expand.
  assert (Hm : ascending (expandRanges rs) ∧ ∀ x, x ∈ expandRanges rs ↔ ∃ r, r ∈ rs ∧ in_range_set r x).
  { unfold expandRanges. rewrite addRanges_first_seen. split.
    - apply sort_by_ascending, NoDup_first_seen.
    - intros x. rewrite sort_by_perm, elem_of_first_seen, list_elem_of_join.
      setoid_rewrite list_elem_of_fmap. rewrite Forall_forall in Hok, Hc. split.
      + intros (l & Hx & r & -> & Hr). exists r. split; [done|]. apply elem_of_Iterate; auto.
      + intros (r & Hr & Hx). exists (Iterate r). split; [|by eauto]. apply elem_of_Iterate; auto. }
  destruct rs as [|r [|r' rs]]; try done.
  inversion_clear Hok. inversion_clear Hc.
  destruct (expandOneRange_spec r) as [Ha Hx]; [done..|]. split; [done|].
  intros x. rewrite Hx. set_solver.
Qed.

Lemma Parse_ok s rs : Parse s = Ok rs → rs ≠ [] ∧ Forall range_ok rs.
Proof.
  intros H. apply ParseWithPolicy_accepted in H as [Hne Ha]. split; [done|].
  eapply Forall_impl; [exact Ha|]. by intros r (? & _).
Qed.

Lemma in_range_set_int r x : range_ok r → in_range_set r x → in_int x.
Proof.
  intros (Hs & He & _) [->|(m & Hm & -> & H1 & H2)]; [done|].
  pose proof (eff_step_nonzero r).
  destruct (Z.lt_trichotomy 0 (eff_step r)) as [?|[?|?]]; [|lia|].
  - specialize (H1 ltac:(done)). unfold in_int in *. nia.
  - specialize (H2 ltac:(done)). unfold in_int in *. nia.
Qed.

(** [rangeInts] lists the integers of its ranges, ascending and without
    repetition, all of them machine integers. *)
Lemma rangeInts_ok s l :
  rangeInts (VRange s) = Ok l →
  ∃ rs, Parse s = Ok rs ∧ ascending l ∧ Forall in_int l ∧
    ∀ x, x ∈ l ↔ ∃ r, r ∈ rs ∧ in_range_set r x.
Proof.
  unfold rangeInts, parsedRanges. cbn [AsRangeExpr res_bind]. intros H.
  destruct (Parse s) as [rs|] eqn:Hp; [|done]. cbn [res_bind] in H.
  destruct (sumCounts 0 rs) as [n|] eqn:Hs; [|done]. cbn [res_bind] in H. injection H as <-.
  apply Parse_ok in Hp as [_ Hok].
  pose proof (sumCounts_small 0 rs n ltac:(unfold maxElements; lia) Hok Hs) as Hc.
  destruct (expand_spec rs Hok Hc) as [Ha Hx]. exists rs. split_and!; try done.
  apply Forall_forall. intros x (r & Hr & Hxr)%Hx.
  rewrite Forall_forall in Hok. eapply in_range_set_int; eauto.
Qed.

Lemma sumCounts_bound total rs n :
  0 ≤ total ≤ maxElements → Forall range_ok rs → sumCounts total rs = Ok n → total + total_count rs ≤ maxElements.
Proof.
  revert total. induction rs as [|r rs IH]; intros total Ht Hok H; [unfold total_count; cbn; lia|].
  pose proof (sumCounts_small total (r :: rs) n Ht Hok H) as Hsm. inversion_clear Hsm as [|?? Hr0 _].
  inversion_clear Hok as [|?? Hr Hrs]. cbn [sumCounts] in H. change (total_count (r :: rs)) with (Count r + total_count rs).
  pose proof (Count_is_saturated_size r Hr) as [Hc _].
  unfold checkElementCount in H. destruct (_ || _)%bool eqn:E; [done|]. cbn [res_bind] in H.
  apply orb_false_iff in E as [E1%Z.ltb_ge E2%Z.ltb_ge].
  assert (Hw : wrap64 (total + Count r) = total + Count r).
  { destruct (wrap64_decomp (total + Count r)) as [k Hk]. pose proof (wrap64_range (total + Count r)).
    pose proof (Count_pos r Hr). unfold in_int, MinInt, MaxInt, maxElements in *. lia. }
  rewrite Hw in *. pose proof (IH _ (conj E1 E2) Hrs H). lia.
Qed.

(** A range expression that is listed has at most ten million integers. *)
Lemma rangeInts_length s l : rangeInts (VRange s) = Ok l → Z.of_nat (length l) ≤ maxElements.
Proof.
  unfold rangeInts, parsedRanges. cbn [AsRangeExpr res_bind]. intros H.
  destruct (Parse s) as [rs|] eqn:Hp; [|done]. cbn [res_bind] in H.
  destruct (sumCounts 0 rs) as [n|] eqn:Hs; [|done]. cbn [res_bind] in H. injection H as <-.
  apply Parse_ok in Hp as [_ Hok].
  pose proof (sumCounts_bound 0 rs n ltac:(unfold maxElements; lia) Hok Hs) as Hc.
  assert (Hj : Z.of_nat (length (mjoin (Iterate <$> rs))) = total_count rs) by (by apply length_iterate_all; [|unfold maxRangeValues, maxElements in *; lia]).
  unfold expand. destruct rs as [|r [|r' rs]].
  - done.
  - unfold expandOneRange. cbn [fmap list_fmap mjoin list_join] in Hj. rewrite app_nil_r in Hj.
    destruct (_ <? _); rewrite ?length_rev; lia.
  - unfold expandRanges. rewrite (Permutation_length (sort_by_perm _ _)), addRanges_first_seen.
    destruct (length_first_seen (mjoin (Iterate <$> r :: r' :: rs))) as [Hle _]. lia.
Qed.

(** ** Printing a list of integers *)

(** The ranges that [canonicalParts] prints. *)
Fixpoint canonicalRanges (fuel : nat) (ints : list Z) : list Range :=
  match fuel, ints with
  | O, _ | _, [] => []
  | S f, a :: rest =>
      match rest with
      | b :: c :: rest' =>
          let delta := wrap64 (b - a) in
          if negb (delta =? 0) && (wrap64 (c - b) =? delta) then
            let '(last, tail) := runEnd delta c rest' in
            mkRange a last delta :: canonicalRanges f tail
          else mkRange a a 1 :: canonicalRanges f rest
      | _ => mkRange a a 1 :: canonicalRanges f rest
      end
  end.

(** Integers that fit, ascending, and whose differences fit as well. *)
Definition narrow (l : list Z) : Prop :=
  ascending l ∧ Forall in_int l ∧ ∀ x y, x ∈ l → y ∈ l → in_int (y - x).

Lemma narrow_tail x l : narrow (x :: l) → narrow l.
Proof.
  intros (Ha & Hi & Hd). inversion_clear Ha. inversion_clear Hi.
  split_and!; [done..|]. intros. apply Hd; set_solver.
Qed.

Lemma narrow_app k l : narrow (k ++ l) → narrow l.
Proof. induction k as [|x k IH]; [done|]. intros H%narrow_tail. by apply IH. Qed.

(** A run continues the progression with the run's difference. *)
Lemma runEnd_spec delta prev l last tail :
  runEnd delta prev l = (last, tail) → narrow (prev :: l) →
  ∃ k, l = progression (prev + delta) delta k ++ tail ∧ last = prev + Z.of_nat k * delta.
Proof.
  revert prev. induction l as [|x l IH]; intros prev; cbn [runEnd].
  - intros [= <- <-] _. exists 0%nat. split; [done|lia].
  - destruct (Z.eqb_spec (wrap64 (x - prev)) delta) as [Hx|Hx].
    + intros Hr Hn. pose proof Hn as (_ & _ & Hd). rewrite wrap64_id in Hx by (apply Hd; set_solver).
      destruct (IH x Hr (narrow_tail _ _ Hn)) as (k & -> & ->). exists (S k).
      rewrite progression_S. cbn [app]. split; [|lia].
      f_equal; [lia|]. f_equal. f_equal. lia.
    + intros [= <- <-] _. exists 0%nat. split; [done|lia].
Qed.

Lemma runEnd_length delta prev l last tail :
  runEnd delta prev l = (last, tail) → (length tail ≤ length l)%nat.
Proof.
  revert prev. induction l as [|x l IH]; intros prev; cbn [runEnd].
  - intros [= <- <-]. lia.
  - case_match; [intros Hr%IH; cbn; lia|]. intros [= <- <-]. lia.
Qed.

(** The range of a run lists the run. *)
Lemma run_range a delta k :
  0 < delta → in_int a → in_int (a + Z.of_nat k * delta) → in_int (Z.of_nat k * delta) →
  in_int delta → Z.of_nat (S k) < MaxInt →
  Iterate (mkRange a (a + Z.of_nat k * delta) delta) = progression a delta (S k) ∧
  Count (mkRange a (a + Z.of_nat k * delta) delta) = Z.of_nat (S k).
Proof.
  intros Hd Ha Hb Hk Hdi Hlen. set (r := mkRange _ _ _).
  assert (Hok : range_ok r) by done.
  assert (Hc : Count r = Z.of_nat (S k)).
  { rewrite Count_saturates by done. rewrite decide_True.
    - unfold exact_count, eff_step, r. cbn [Start End_ Step].
      destruct (Z.eqb_spec delta 0); [lia|]. destruct (Z.ltb_spec 0 delta); [|lia].
      destruct (Z.leb_spec a (a + Z.of_nat k * delta)); [|nia].
      replace (a + Z.of_nat k * delta - a) with (Z.of_nat k * delta) by lia.
      rewrite Z.div_mul by lia. lia.
    - unfold r. cbn. by replace (a + Z.of_nat k * delta - a) with (Z.of_nat k * delta) by lia. }
  split; [|done]. rewrite Iterate_progression by (done || lia).
  rewrite Hc, Nat2Z.id. unfold eff_step, r. cbn [Start Step].
  destruct (Z.eqb_spec delta 0); [lia|done].
Qed.

Lemma single_range a : in_int a → Iterate (mkRange a a 1) = [a] ∧ Count (mkRange a a 1) = 1.
Proof.
  intros Ha. destruct (run_range a 1 0) as [Hi Hc]; [lia|done|..].
  - by replace (a + Z.of_nat 0 * 1) with a by lia.
  - done.
  - done.
  - done.
  - replace (a + Z.of_nat 0 * 1) with a in * by lia. rewrite Hi, Hc. split; [|done].
    unfold progression. cbn. f_equal. lia.
Qed.

(** What [canonicalRanges] owes for a list: accepted ranges that print as the
    parts, list the list and count its length. *)
Definition covers (rs : list Range) (parts : list str) (l : list Z) : Prop :=
  parts = map Range_String rs ∧ Forall (accepted (mkPolicy false false)) rs ∧ Forall printable rs ∧
  mjoin (Iterate <$> rs) = l ∧ foldr (λ r n, Count r + n) 0 rs = Z.of_nat (length l) ∧
  Forall (λ r, 1 ≤ Count r) rs.

Lemma covers_cons r rs part parts k l :
  part = Range_String r → accepted (mkPolicy false false) r → printable r →
  Iterate r = k → Count r = Z.of_nat (length k) → 1 ≤ Count r → covers rs parts l →
  covers (r :: rs) (part :: parts) (k ++ l).
Proof.
  intros -> Ha Hp Hi Hc Hpos (-> & Has & Hps & Hj & Hs & Hall). unfold covers.
  split_and!; try done; try (by constructor).
  - change (Iterate r ++ mjoin (Iterate <$> rs) = k ++ l). by rewrite Hi, Hj.
  - cbn [foldr]. rewrite Hs, Hc, length_app. lia.
Qed.

Lemma covers_single a rs parts l :
  in_int a → covers rs parts l → covers (mkRange a a 1 :: rs) (Itoa a :: parts) (a :: l).
Proof.
  intros Ha Hc. destruct (single_range a Ha) as [Hi Hn].
  apply (covers_cons (mkRange a a 1) rs (Itoa a) parts [a] l); try done.
  - unfold Range_String. cbn. by rewrite Z.eqb_refl.
  - rewrite Hn. lia.
Qed.

Lemma covers_run a b c rest last tail rs parts :
  narrow (a :: b :: c :: rest) → Z.of_nat (length (a :: b :: c :: rest)) ≤ maxElements →
  wrap64 (c - b) = wrap64 (b - a) →
  runEnd (wrap64 (b - a)) c rest = (last, tail) → covers rs parts tail →
  covers (mkRange a last (wrap64 (b - a)) :: rs) (runText a last (wrap64 (b - a)) :: parts)
    (a :: b :: c :: rest).
Proof.
  intros Hn Hlen Hcb Hrun Hcov. pose proof Hn as (Hasc & Hint & Hd).
  rewrite !wrap64_id in * by (apply Hd; set_solver).
  destruct (runEnd_spec _ _ _ _ _ Hrun (narrow_tail _ _ (narrow_tail _ _ Hn))) as (k & Hrest & Hlast).
  set (delta := b - a) in *.
  assert (Hpos : 0 < delta).
  { inversion_clear Hasc as [|?? _ Hf]. inversion_clear Hf. unfold delta. lia. }
  assert (Hl : last = a + Z.of_nat (S (S k)) * delta) by (unfold delta in *; lia).
  assert (Hlast_in : last ∈ c :: rest).
  { rewrite Hlast, Hrest. destruct k as [|k]; [apply elem_of_cons; left; lia|]. right. apply elem_of_app. left.
    apply elem_of_progression. exists (Z.of_nat k). split; [lia|]. lia. }
  assert (Hsplit : a :: b :: c :: rest = progression a delta (S (S (S k))) ++ tail).
  { rewrite !progression_S. cbn [app]. rewrite Hrest. repeat f_equal; unfold delta; lia. }
  destruct (run_range a delta (S (S k))) as [Hi Hcnt].
  - done.
  - rewrite Forall_forall in Hint. apply Hint. set_solver.
  - rewrite <- Hl. rewrite Forall_forall in Hint. apply Hint. set_solver.
  - replace (Z.of_nat (S (S k)) * delta) with (last - a) by lia. apply Hd; set_solver.
  - unfold delta. apply Hd; set_solver.
  - rewrite Hsplit, length_app, length_progression in Hlen. unfold maxElements, MaxInt in *. lia.
  - rewrite Hsplit, Hl. rewrite <- Hl in *.
    apply covers_cons; try done.
    + unfold runText, Range_String. cbn [Start End_ Step].
      destruct (Z.eqb_spec a last); [lia|]. by destruct (Z.eqb_spec delta 1).
    + unfold accepted, range_ok. cbn [Start End_ Step PositiveStepOnly AscendingOnly].
      rewrite Forall_forall in Hint. split_and!; try done; try lia.
      * apply Hint. set_solver.
      * apply Hint. set_solver.
      * unfold delta. apply Hd; set_solver.
    + unfold printable. cbn. lia.
    + by rewrite Hcnt, length_progression.
    + rewrite Hcnt. lia.
Qed.

Lemma canonical_covers fuel l :
  (length l ≤ fuel)%nat → narrow l → Z.of_nat (length l) ≤ maxElements →
  covers (canonicalRanges fuel l) (canonicalParts fuel l) l.
Proof.
  revert l. induction fuel as [|f IH]; intros l Hf Hn Hlen.
  { destruct l; [|cbn in Hf; lia]. unfold covers. by repeat constructor. }
  destruct l as [|a rest]; [unfold covers; by repeat constructor|].
  assert (Ha : in_int a) by (destruct Hn as (_ & Hi & _); by inversion Hi).
  assert (Hstep : covers (mkRange a a 1 :: canonicalRanges f rest) (Itoa a :: canonicalParts f rest) (a :: rest)).
  { apply covers_single; [done|]. cbn in Hf, Hlen. apply IH; [lia|by eapply narrow_tail|lia]. }
  cbn [canonicalRanges canonicalParts].
  destruct rest as [|b [|c rest]]; [done..|].
  destruct (negb (wrap64 (b - a) =? 0) && (wrap64 (c - b) =? wrap64 (b - a)))%bool eqn:E; [|done].
  apply andb_true_iff in E as [_ E%Z.eqb_eq].
  destruct (runEnd (wrap64 (b - a)) c rest) as [last tail] eqn:Hrun.
  pose proof (runEnd_length _ _ _ _ _ Hrun) as Htl. cbn [length] in Hf, Hlen.
  apply (covers_run a b c rest last tail); [done|cbn [length]; lia|done|done|].
  apply IH; [lia| |lia].
  pose proof (narrow_tail _ _ (narrow_tail _ _ (narrow_tail _ _ Hn))) as Hrn.
  destruct (runEnd_spec _ _ _ _ _ Hrun (narrow_tail _ _ (narrow_tail _ _ Hn))) as (k & Hr & _).
  rewrite Hr in Hrn. by eapply narrow_app.
Qed.

Lemma sumCounts_total total rs :
  0 ≤ total → Forall (λ r, 1 ≤ Count r) rs → total + foldr (λ r n, Count r + n) 0 rs ≤ maxElements →
  is_ok (sumCounts total rs) = true.
Proof.
  revert total. induction rs as [|r rs IH]; intros total Ht Hc Hsum; cbn [sumCounts foldr] in *; [done|].
  inversion_clear Hc.
  assert (Hge : 0 ≤ foldr (λ r n, Count r + n) 0 rs).
  { clear -H0. induction H0 as [|r rs Hr _ IH]; cbn; lia. }
  rewrite wrap64_id by (unfold in_int, MinInt, MaxInt, maxElements in *; lia).
  unfold checkElementCount. destruct (Z.ltb_spec (total + Count r) 0); [lia|].
  destruct (Z.ltb_spec maxElements (total + Count r)); [lia|]. cbn [orb res_bind].
  apply IH; [lia|done|lia].
Qed.

(** ** Properties *)

(** Reading a range expression: [rangeInts] of a range value lists its
    integers strictly ascending, each once, and exactly those in one of the
    sets the specification gives its ranges. *)
Theorem rangeInts_correct s l :
  rangeInts (VRange s) = Ok l →
  ascending l ∧ Forall in_int l ∧
  ∃ rs, Parse s = Ok rs ∧ ∀ x, x ∈ l ↔ ∃ r, r ∈ rs ∧ in_range_set r x.
Proof. intros (rs & H1 & H2 & H3 & H4)%rangeInts_ok. eauto. Qed.

Lemma rangeInts_correct_witness :
  rangeInts (VRange (of_string "5-1:-2, 2-4")) = Ok [1; 2; 3; 4; 5] ∧ ascending [1; 2; 3; 4; 5].
Proof.
  split; [vm_compute; reflexivity|].
  refine (proj1 (rangeInts_correct (of_string "5-1:-2, 2-4") [1; 2; 3; 4; 5] _)).
  vm_compute. reflexivity.
Defined.

(** Printing and reading: [canonicalRange] of a non-empty ascending list of
    at most ten million integers, whose first and last differ by less than 2^63,
    is a range expression that lists the same integers. *)
Theorem canonicalRange_reads_back l :
  l ≠ [] → narrow l → Z.of_nat (length l) ≤ maxElements →
  RangeExprValue (canonicalRange l) = Ok (VRange (canonicalRange l)) ∧
  rangeInts (VRange (canonicalRange l)) = Ok l.
Proof.
  intros Hne Hn Hlen.
  destruct (canonical_covers (length l) l ltac:(lia) Hn Hlen) as (Hp & Ha & Hpr & Hj & Hs & Hc).
  set (rs := canonicalRanges (length l) l) in *.
  assert (Hrs : rs ≠ []) by (intros E; rewrite E in Hj; by destruct l).
  assert (Hparse : Parse (canonicalRange l) = Ok rs).
  { unfold canonicalRange, Parse. rewrite Hp. by apply (ParseWithPolicy_join _ rs Hrs Ha Hpr). }
  split.
  { unfold RangeExprValue. by rewrite Hparse. }
  unfold rangeInts, parsedRanges. cbn [AsRangeExpr res_bind]. rewrite Hparse. cbn [res_bind].
  pose proof (sumCounts_total 0 rs ltac:(lia) Hc ltac:(lia)) as Hsum.
  destruct (sumCounts 0 rs) as [n|]; [|done]. cbn [res_bind]. f_equal.
  assert (Hmulti : expandRanges rs = l).
  { unfold expandRanges. rewrite addRanges_first_seen, Hj. destruct Hn as (Hasc & _ & _).
    pose proof (ascending_NoDup l Hasc) as Hd. unfold first_seen.
    rewrite remove_dups_id, reverse_involutive by (by apply NoDup_reverse). by apply sort_ascending. }
  unfold expand. destruct rs as [|r [|r' rs']]; try done.
  cbn in Hj. rewrite app_nil_r in Hj. unfold expandOneRange.
  destruct (Z.ltb_spec (Step r) 0) as [Hneg|]; [|done].
  rewrite Hj. inversion_clear Ha as [|?? Hacc _]. inversion_clear Hc as [|?? Hcr _].
  destruct Hn as (Hasc & _ & _). destruct Hacc as (Hok & _).
  assert (Hcm : Count r ≠ MaxInt) by (cbn in Hs; unfold maxElements, MaxInt in *; lia).
  rewrite Iterate_progression in Hj by done. unfold eff_step in Hj.
  destruct (Z.eqb_spec (Step r) 0); [lia|]. rewrite <- Hj in Hasc |- *.
  destruct (Z.to_nat (Count r)) as [|[|n']]; [done| |].
  - unfold progression. done.
  - rewrite !progression_S in Hasc. inversion_clear Hasc as [|?? _ Hf]. inversion_clear Hf. lia.
Qed.

Lemma canonicalRange_reads_back_witness :
  canonicalRange [1; 2; 3; 7; 10; 20; 30] = of_string "1-3,7,10-30:10" ∧
  rangeInts (VRange (of_string "1-3,7,10-30:10")) = Ok [1; 2; 3; 7; 10; 20; 30].
Proof.
  split; [vm_compute; reflexivity|].
  change (of_string "1-3,7,10-30:10") with (canonicalRange [1; 2; 3; 7; 10; 20; 30]).
  refine (proj2 (canonicalRange_reads_back [1; 2; 3; 7; 10; 20; 30] _ _ _)).
  - discriminate.
  - split_and!.
    + repeat constructor.
    + repeat constructor; vm_compute; discriminate.
    + intros x y Hx Hy. rewrite !elem_of_cons in Hx, Hy. unfold in_int, MinInt, MaxInt.
      pose proof (not_elem_of_nil x). pose proof (not_elem_of_nil y). intuition lia.
  - vm_compute. discriminate.
Defined.
