(* ===== verification/ExprCoerce.v ===== *)
(** * Coercion in the expression language

    src/internal/openjd/expr/coerce.go: when a type reaches a target type, the
    conversion of a value to a target type, the narrowing of a placeholder, and
    the promotions that overload selection may apply.

    Types are given a meaning of their own, [has v t]: the value [v] is one of
    [t].  The theorems show that [coerce] delivers a value of its target, that it
    never reads a payload of another type, and what the narrowed constraint of a
    placeholder promises about the values that later take its place. *)

From S2P Require Import Prelude StatusText GoText IntRange RangeExpr ExprType ExprFloat ExprValue ExprRange.
Open Scope Z_scope.

(** ** Types against codes *)

(** coerce.go [includes] *)
Fixpoint includes (target : Ty) (c : Code) : bool :=
  match target with
  | TAny => true
  | TUnresolved t => includes t c
  | TUnion ms => existsb (λ m, includes m c) ms
  | _ => is_code c target
  end.

(** coerce.go [listElem] *)
Fixpoint listElem (t : Ty) : option Ty :=
  match t with
  | TList e => Some e
  | TUnresolved c => listElem c
  | TUnion ms =>
      (fix go (ms : list Ty) (found : option Ty) : option Ty :=
         match ms with
         | [] => found
         | m :: ms' =>
             match listElem m with
             | None => go ms' found
             | Some el =>
                 match found with
                 | Some f => if Equal f el then go ms' (Some el) else None
                 | None => go ms' (Some el)
                 end
             end
         end) ms None
  | _ => None
  end.

(** coerce.go [isScalarCode] *)
Definition isScalarCode (c : Code) : bool :=
  match c with
  | CodeBool | CodeInt | CodeFloat | CodeString | CodePath | CodeRangeExpr => true
  | _ => false
  end.

(** coerce.go [singleScalarTarget] *)
Fixpoint singleScalarTarget (t : Ty) : option Code :=
  match t with
  | TUnresolved c => singleScalarTarget c
  | TUnion ms =>
      (fix go (ms : list Ty) (found : option Code) : option Code :=
         match ms with
         | [] => found
         | m :: ms' =>
             match singleScalarTarget m with
             | None => go ms' found
             | Some c =>
                 match found with
                 | Some f => if bool_decide (f = c) then go ms' (Some c) else None
                 | None => go ms' (Some c)
                 end
             end
         end) ms None
  | _ => if isScalarCode (code t) then Some (code t) else None
  end.

(** coerce.go [scalarCoercible] *)
Definition scalarCoercible (from to : Code) : bool :=
  bool_decide (from = to)
  || match to with
     | CodeString => true
     | CodePath => bool_decide (from = CodeString)
     | CodeInt => bool_decide (from = CodeFloat) || bool_decide (from = CodeString)
     | CodeFloat => bool_decide (from = CodeInt) || bool_decide (from = CodeString)
     | _ => false
     end.

(** coerce.go [coercibleConditional] *)
Definition coercibleConditional (from to : Ty) : bool :=
  match from with
  | TInt => includes to CodeFloat && negb (includes to CodeInt)
  | TPath => includes to CodeString && negb (includes to CodePath)
  | TRangeExpr =>
      (includes to CodeString && negb (includes to CodeRangeExpr))
      || (negb (includes to CodeRangeExpr)
          && match listElem to with Some el => is_code CodeInt el | None => false end)
  | _ => false
  end.

(** coerce.go [coercible], with [coercibleList] inlined: at that point [from] is
    neither a placeholder nor a union, so only a list has an element type. *)
Fixpoint coercible (from : Ty) : Ty → bool :=
  fix go (to : Ty) : bool :=
    Equal from to || is_code CodeAny to
    || match from with
       | TUnresolved c => coercible c to
       | _ =>
           match to with
           | TUnresolved d => go d
           | _ =>
               match from with
               | TNull => includes to CodeNull
               | TUnion ms => forallb (λ m, coercible m to) ms
               | _ =>
                   coercibleConditional from to
                   || match from, listElem to with
                      | TList fe, Some te => is_code CodeNull fe || coercible fe te
                      | _, _ => false
                      end
                   || (isScalarCode (code from)
                       && match singleScalarTarget to with
                          | Some c => scalarCoercible (code from) c
                          | None => false
                          end)
               end
           end
       end.

(** coerce.go [satisfies] *)
Fixpoint satisfies (from to : Ty) {struct to} : bool :=
  match to with
  | TAny => true
  | TUnresolved c => satisfies from c
  | TUnion ms => existsb (λ m, satisfies from m) ms
  | TList te => match from with TList fe => satisfies fe te | _ => false end
  | _ => Equal from to
  end.

(** coerce.go [scalarDestinations] *)
Definition scalarDestinations (from : Code) : list Code :=
  match from with
  | CodeBool => [CodeString]
  | CodeInt => [CodeFloat; CodeString]
  | CodeFloat => [CodeInt; CodeString]
  | CodeString => [CodeInt; CodeFloat; CodeBool; CodeRangeExpr; CodePath]
  | CodePath => [CodeString]
  | CodeRangeExpr => [CodeString]
  | _ => []
  end.

(** coerce.go [listDestinations] *)
Fixpoint listDestinations (target : Ty) : list Ty :=
  match target with
  | TUnresolved c => listDestinations c
  | TUnion ms => concat (map listDestinations ms)
  | TList e => [e]
  | _ => []
  end.

(** The rank of a destination in [orderedListDestinations]. *)
Fixpoint rankIn (order : list Code) (c : Code) : nat :=
  match order with
  | [] => 0
  | d :: order' => if bool_decide (c = d) then 0 else S (rankIn order' c)
  end.

(** coerce.go [orderedListDestinations] *)
Definition orderedListDestinations (srcElem target : Ty) : list Ty :=
  let order := scalarDestinations (code srcElem) in
  sort_by (λ a b, Nat.leb (rankIn order (code a)) (rankIn order (code b))) (listDestinations target).

(** coerce.go [coercibleToTarget] and [hasListDestination] *)
Fixpoint coercibleToTarget (from : Ty) : Ty → bool :=
  fix go (to : Ty) : bool :=
    satisfies from to
    || match from with
       | TUnresolved c => coercibleToTarget c to
       | _ =>
           match to with
           | TUnresolved d => go d
           | _ =>
               match from with
               | TUnion ms => forallb (λ m, coercibleToTarget m to) ms
               | TNull => includes to CodeNull
               | TRangeExpr =>
                   existsb (includes to) (scalarDestinations (code from))
                   || existsb (satisfies TInt) (listDestinations to)
               | TList se =>
                   existsb (λ elem, is_code CodeNull se || coercibleToTarget se elem) (listDestinations to)
               | _ => existsb (includes to) (scalarDestinations (code from))
               end
           end
       end.

(** The types [Type{Code: d}] of the scalar destinations that [target] includes. *)
Definition scalarTypes (from : Code) (target : Ty) : list Ty :=
  omap plainType (filter (λ d, includes target d = true) (scalarDestinations from)).

(** coerce.go [narrowedConstraint] and [narrowedUnionConstraint] *)
Fixpoint narrowedConstraint (from target : Ty) {struct from} : option Ty :=
  match from with
  | TUnion ms =>
      match
        concat (map (λ m, if satisfies m target then [m]
                          else match narrowedConstraint m target with Some n => [n] | None => [] end) ms)
      with
      | [] => None
      | out => Some (UnionOf out)
      end
  | _ =>
      let dests :=
        scalarTypes (code from) target
        ++ match from with
           | TRangeExpr => if existsb (satisfies TInt) (listDestinations target) then [ListOf TInt] else []
           | TList se =>
               map ListOf (filter (λ elem, is_code CodeNull se || coercibleToTarget se elem = true)
                             (orderedListDestinations se target))
           | _ => []
           end in
      match dests with [] => None | _ => Some (UnionOf dests) end
  end.

(** coerce.go [promotable] *)
Fixpoint promotable (from : Ty) : Ty → bool :=
  fix go (to : Ty) : bool :=
    match from with
    | TUnresolved c => promotable c to
    | _ =>
        match to with
        | TUnresolved d => go d
        | _ =>
            match from with
            | TUnion ms => forallb (λ m, Equal m to || promotable m to) ms
            | TList fe =>
                coercible from to
                && match listElem to with
                   | None => false
                   | Some te => is_code CodeNull fe || promotable fe te
                   end
            | _ => coercible from to && coercibleConditional from to
            end
        end
    end.

(** ** Values to types *)

Section Coerce.
Context {arch : Platform} {tables : CaseTables}.

(** ops.go [floatValue]: no NaN, no infinity, no negative zero. *)
Definition floatValue (f : float64) : res EErr Value :=
  if IsNaN f then Err ENotANumber
  else if IsInf f then Err EInfinite
  else if feq f fzero then Ok (Float fzero)
  else Ok (Float f).

(** coerce.go [toInt] *)
Definition toInt (v : Value) : res EErr Value :=
  match v with
  | VFloat f _ =>
      let i := int_of_float f in
      if feq (float_of_int i) f then Ok (VInt i) else Err EInexactInt
  | VString s => match Atoi s with Some i => Ok (VInt i) | None => Err EIntText end
  | _ => Err ENotCoercible
  end.

(** coerce.go [toFloat] *)
Definition toFloat (v : Value) : res EErr Value :=
  match v with
  | VInt i => floatValue (float_of_int i)
  | VString s => match ParseFloat s with Some f => floatValue f | None => Err EFloatText end
  | _ => Err ENotCoercible
  end.

(** funcsconv.go [boolFromString] *)
Definition boolFromString (s : str) : res EErr Value :=
  let l := of_str (ToLower s) in
  if bool_decide (l ∈ ["1"; "true"; "on"; "yes"]%string) then Ok (VBool true)
  else if bool_decide (l ∈ ["0"; "false"; "off"; "no"]%string) then Ok (VBool false)
  else Err EBoolText.

(** coerce.go [convertScalar] *)
Definition convertScalar (v : Value) (to : Code) : res EErr Value :=
  match to with
  | CodeString => Ok (VString (ValueString v))
  | CodePath => let? s := AsStr v in Ok (VPath s PathPOSIX)
  | CodeInt => toInt v
  | CodeFloat => toFloat v
  | CodeBool => match v with VString s => boolFromString s | _ => Err ENotCoercible end
  | CodeRangeExpr => match v with VString s => RangeExprValue s | _ => Err ENotCoercible end
  | _ => Err ENotCoercible
  end.

(** coerce.go [coerceByDestination]: the first conversion that succeeds, else the
    last error, else nothing. *)
Fixpoint byDestination (v : Value) (target : Ty) (dests : list Code) (last : option EErr)
    : option (res EErr Value) :=
  match dests with
  | [] => Err <$> last
  | d :: dests' =>
      if includes target d then
        match convertScalar v d with
        | Ok out => Some (Ok out)
        | Err e => byDestination v target dests' (Some e)
        end
      else byDestination v target dests' last
  end.

Definition coerceByDestination (v : Value) (target : Ty) : option (res EErr Value) :=
  byDestination v target (scalarDestinations (code (typeOf v))) None.

(** coerce.go [coerceUnresolved] *)
Definition coerceUnresolved (c target : Ty) : res EErr Value :=
  if satisfies c target then Ok (VUnresolved c)
  else
    match target with
    | TUnresolved t =>
        if coercibleToTarget (TUnresolved c) target then Ok (VUnresolved t) else Err ENotCoercible
    | _ =>
        match narrowedConstraint c target with
        | Some n => Ok (Unresolved n)
        | None => Err ENotCoercible
        end
    end.

(** The loop of [coerceByListDestination] over the destinations of a list. *)
Fixpoint byListDestination (convert : Ty → res EErr Value) (dests : list Ty) (last : option EErr)
    : option (res EErr Value) :=
  match dests with
  | [] => Err <$> last
  | elem :: dests' =>
      match convert elem with
      | Ok out => Some (Ok out)
      | Err e => byListDestination convert dests' (Some e)
      end
  end.

(** The range arm of [coerceByListDestination]. *)
Definition rangeDestination (v : Value) (target : Ty) : option (res EErr Value) :=
  if existsb (satisfies TInt) (listDestinations target) then
    Some (let? ints := rangeInts v in Ok (ListValue TInt (intValues ints)))
  else None.

(** coerce.go [coerce], with [coerceByListDestination] and [convertListTo] *)
Fixpoint coerce (v : Value) : Ty → res EErr Value :=
  fix go (target : Ty) : res EErr Value :=
    match v with
    | VUnresolved c => coerceUnresolved c target
    | _ =>
        if satisfies (typeOf v) target then Ok v
        else
          match target with
          | TUnresolved c => go c
          | _ =>
              match v with
              | VNull => if includes target CodeNull then Ok v else Err ENotCoercible
              | _ =>
                  match coerceByDestination v target with
                  | Some out => out
                  | None =>
                      let listOut :=
                        match v with
                        | VRange _ => rangeDestination v target
                        | VList se l =>
                            let convertListTo elem :=
                              let? _ := checkElementCount (Z.of_nat (length l)) in
                              let? out :=
                                (fix convert (l : list Value) : res EErr (list Value) :=
                                   match l with
                                   | [] => Ok []
                                   | e :: l' =>
                                       let? x := coerce e elem in
                                       let? xs := convert l' in
                                       Ok (x :: xs)
                                   end) l in
                              Ok (ListValue elem out) in
                            byListDestination convertListTo (orderedListDestinations se target) None
                        | _ => None
                        end in
                      match listOut with
                      | Some out => out
                      | None => Err ENotCoercible
                      end
                  end
              end
          end
    end.

(** The elements of a list, one after the other; the first error ends it. *)
Fixpoint coerceAll (l : list Value) (elem : Ty) : res EErr (list Value) :=
  match l with
  | [] => Ok []
  | e :: l' =>
      let? x := coerce e elem in
      let? xs := coerceAll l' elem in
      Ok (x :: xs)
  end.

(** coerce.go [convertListTo] *)
Definition convertListTo (l : list Value) (elem : Ty) : res EErr Value :=
  let? _ := checkElementCount (Z.of_nat (length l)) in
  let? out := coerceAll l elem in
  Ok (ListValue elem out).
End Coerce.

(** ** The meaning of types *)

Section ValueInd.
Variable P : Value → Prop.
Hypothesis P_leaf : ∀ v, match v with VList _ _ => False | _ => True end → P v.
Hypothesis P_list : ∀ e l, Forall P l → P (VList e l).

Fixpoint Value_induct (v : Value) : P v :=
  match v with
  | VList e l =>
      P_list e l
        ((fix go (l : list Value) : Forall P l :=
            match l with
            | [] => @List.Forall_nil _ P
            | x :: l' => @List.Forall_cons _ P x l' (Value_induct x) (go l')
            end) l)
  | v => P_leaf v I
  end.
End ValueInd.

Definition concrete (v : Value) : Prop := IsUnresolved v = false.

(** The value [v] is one of the type [t]. *)
Fixpoint has (v : Value) (t : Ty) {struct t} : Prop :=
  match t with
  | TAny => concrete v
  | TUnresolved c => has v c
  | TUnion ms => foldr (λ m P, has v m ∨ P) False ms
  | TList e => match v with VList _ l => Forall (λ x, has x e) l | _ => False end
  | TNull | TBool | TInt | TFloat | TString | TPath | TRangeExpr => typeOf v = t
  | _ => False
  end.

(** A well-formed value: integers fit, floats are finite, a range parses, the
    elements of a list are concrete values of its element type, and types are
    canonical. *)
Fixpoint wf (v : Value) : Prop :=
  match v with
  | VInt i => in_int i
  | VFloat f _ => finite f = true
  | VRange s => is_ok (Parse s) = true
  | VList e l => resolved e ∧ foldr (λ x P, (concrete x ∧ has x e ∧ wf x) ∧ P) True l
  | VUnresolved c => resolved c
  | _ => True
  end.

Lemma has_union v ms : has v (TUnion ms) ↔ ∃ m, m ∈ ms ∧ has v m.
Proof.
  cbn [has]. induction ms as [|m ms IH]; cbn [foldr].
  - split; [done|]. intros (m & Hm & _). by apply not_elem_of_nil in Hm.
  - rewrite IH. setoid_rewrite elem_of_cons. naive_solver.
Qed.

Lemma wf_list e l :
  wf (VList e l) ↔ resolved e ∧ Forall (λ x, concrete x ∧ has x e ∧ wf x) l.
Proof.
  cbn [wf]. assert (foldr (λ x P, (concrete x ∧ has x e ∧ wf x) ∧ P) True l
    ↔ Forall (λ x, concrete x ∧ has x e ∧ wf x) l) as ->; [|done].
  induction l as [|x l IH]; cbn [foldr]; [by split|]. by rewrite IH, Forall_cons.
Qed.

Lemma has_concrete v t : has v t → concrete v.
Proof.
  revert v. induction t as [t Ht|e IH|ms IH|c IH] using Ty_induct; intros v H.
  - destruct t; try done; by destruct v.
  - by destruct v.
  - apply has_union in H as (m & Hm & H). rewrite Forall_forall in IH. eauto.
  - by apply IH.
Qed.

(** A concrete well-formed value is of its own type. *)
Lemma has_typeOf v : wf v → concrete v → has v (typeOf v).
Proof.
  destruct v; intros H Hc; try done.
  apply wf_list in H as [_ H]. cbn. eapply Forall_impl; [exact H|]. by intros x (_ & ? & _).
Qed.

(** Satisfaction is inclusion. *)
Lemma satisfies_has from to v : satisfies from to = true → has v from → has v to.
Proof.
  revert from v. induction to as [t Ht|e IH|ms IH|c IH] using Ty_induct; intros from v Hs Hv.
  - destruct t; try discriminate Ht; cbn [satisfies] in Hs;
      try (apply Equal_spec in Hs; by subst). by eapply has_concrete.
  - destruct from; try done. cbn [satisfies] in Hs. destruct v; try done. cbn [has] in *.
    eapply Forall_impl; [exact Hv|]. eauto.
  - cbn [satisfies] in Hs. apply existsb_exists in Hs as (m & Hm & Hs).
    apply list_elem_of_In in Hm. apply has_union. exists m. split; [done|].
    rewrite Forall_forall in IH. eauto.
  - cbn in *. eauto.
Qed.

Lemma satisfies_refl_scalar t :
  match t with TUnion _ | TUnresolved _ | TList _ => False | _ => True end → satisfies t t = true.
Proof. by destruct t. Qed.

(** A target that includes a scalar code admits its values. *)
Lemma includes_has target c t v :
  includes target c = true → plainType c = Some t → has v t → has v target.
Proof.
  revert v. induction target as [u Hu|e IH|ms IH|d IH] using Ty_induct; intros v Hi Hp Hv.
  - destruct u; try discriminate Hu; cbn [includes] in Hi;
      try (by eapply has_concrete); unfold is_code in Hi; apply bool_decide_eq_true in Hi;
      cbn [code] in Hi; subst c; cbn in Hp; by simplify_eq.
  - cbn [includes] in Hi. unfold is_code in Hi. apply bool_decide_eq_true in Hi. by subst c.
  - cbn [includes] in Hi. apply existsb_exists in Hi as (m & Hm & Hi).
    apply list_elem_of_In in Hm. apply has_union. exists m. split; [done|].
    rewrite Forall_forall in IH. eauto.
  - cbn in *. eauto.
Qed.

(** A list destination admits the lists of its elements. *)
Lemma listDestinations_has target elem v l :
  elem ∈ listDestinations target → v = VList elem l ∨ (∃ e, v = VList e l) →
  Forall (λ x, has x elem) l → has v target.
Proof.
  revert elem. induction target as [u Hu|e IH|ms IH|d IH] using Ty_induct; intros elem He Hv Hl.
  - destruct u; try discriminate Hu; by apply not_elem_of_nil in He.
  - cbn in He. apply list_elem_of_singleton in He. subst elem.
    by destruct Hv as [->|[? ->]].
  - cbn [listDestinations] in He. apply list_elem_of_In, in_concat in He as (k & Hk & He).
    apply in_map_iff in Hk as (m & <- & Hm). apply has_union. exists m.
    apply list_elem_of_In in Hm, He. split; [done|]. rewrite Forall_forall in IH. eauto.
  - cbn in *. eauto.
Qed.

Lemma resolved_destinations target elem :
  resolved target → elem ∈ listDestinations target → resolved elem.
Proof.
  revert elem. induction target as [u Hu|e IH|ms IH|d IH] using Ty_induct; intros elem Hr He.
  - destruct u; try discriminate Hu; by apply not_elem_of_nil in He.
  - cbn in He. apply list_elem_of_singleton in He. by subst elem.
  - apply resolved_union in Hr as (_ & _ & _ & Hr).
    cbn [listDestinations] in He. apply list_elem_of_In, in_concat in He as (k & Hk & He).
    apply in_map_iff in Hk as (m & <- & Hm). apply list_elem_of_In in Hm, He.
    rewrite Forall_forall in IH, Hr. eauto.
  - done.
Qed.

Lemma ordered_perm se target elem :
  elem ∈ orderedListDestinations se target ↔ elem ∈ listDestinations target.
Proof. unfold orderedListDestinations. by rewrite sort_by_perm. Qed.

(** ** Computations that do not panic *)

(** Neither a payload of another type nor an element out of range was read. *)
Definition harmless (e : EErr) : Prop := e ≠ EPanic ∧ e ≠ EIndexPanic.

(** A result in [Q], or an error that is not a panic. *)
Definition good {A} (r : res EErr A) (Q : A → Prop) : Prop :=
  match r with Ok a => Q a | Err e => harmless e end.

Lemma good_bind {A B} (r : res EErr A) (k : A → res EErr B) P Q :
  good r P → (∀ a, P a → good (k a) Q) → good (res_bind r k) Q.
Proof. destruct r; cbn; auto. Qed.

Lemma good_weaken {A} (r : res EErr A) (P Q : A → Prop) : good r P → (∀ a, P a → Q a) → good r Q.
Proof. destruct r; cbn; auto. Qed.

Lemma good_and {A} (r : res EErr A) (P : A → Prop) :
  (∀ a, r = Ok a → P a) → (∀ e, r = Err e → harmless e) → good r P.
Proof. destruct r; cbn; auto. Qed.

(** ** [coerce], one step at a time *)

Section CoerceFacts.
Context {arch : Platform} {tables : CaseTables}.

(** What [coerce] does with a concrete value that does not satisfy a target that
    is not a placeholder. *)
Definition convert (v : Value) (target : Ty) : res EErr Value :=
  match v with
  | VNull => if includes target CodeNull then Ok v else Err ENotCoercible
  | _ =>
      match coerceByDestination v target with
      | Some out => out
      | None =>
          match
            match v with
            | VRange _ => rangeDestination v target
            | VList se l => byListDestination (convertListTo l) (orderedListDestinations se target) None
            | _ => None
            end
          with
          | Some out => out
          | None => Err ENotCoercible
          end
      end
  end.

Lemma byListDestination_ext f g dests last :
  (∀ e, f e = g e) → byListDestination f dests last = byListDestination g dests last.
Proof.
  intros H. revert last. induction dests as [|e dests IH]; intros last; cbn; [done|].
  rewrite H. by destruct (g e).
Qed.

Lemma coerce_eq v target :
  coerce v target =
  match v with
  | VUnresolved c => coerceUnresolved c target
  | _ =>
      if satisfies (typeOf v) target then Ok v
      else match target with TUnresolved c => coerce v c | _ => convert v target end
  end.
Proof.
  assert (Hl : ∀ elem l,
    (fix convert (l : list Value) : res EErr (list Value) :=
       match l with
       | [] => Ok []
       | e :: l' => let? x := coerce e elem in let? xs := convert l' in Ok (x :: xs)
       end) l = coerceAll l elem).
  { intros elem l. induction l as [|x l IH]; [done|]. cbn [coerceAll]. by rewrite IH. }
  destruct v as [| | | | | | |se l|]; try (by destruct target).
  destruct target; cbn [coerce]; try reflexivity; case_match; try reflexivity; cbn [convert];
    (rewrite (byListDestination_ext _ (convertListTo l)); [reflexivity|]);
    intros e; unfold convertListTo; by rewrite Hl.
Qed.

Lemma byDestination_ok v target dests last out :
  byDestination v target dests last = Some (Ok out) →
  ∃ d, d ∈ dests ∧ includes target d = true ∧ convertScalar v d = Ok out.
Proof.
  revert last. induction dests as [|d dests IH]; intros last; cbn [byDestination].
  - by destruct last.
  - destruct (includes target d) eqn:Hi.
    + destruct (convertScalar v d) eqn:Hc.
      * intros [= ->]. exists d. split; [by left|done].
      * intros (d' & ? & ? & ?)%IH. exists d'. split; [by right|done].
    + intros (d' & ? & ? & ?)%IH. exists d'. split; [by right|done].
Qed.

Lemma byListDestination_ok f dests last out :
  byListDestination f dests last = Some (Ok out) → ∃ e, e ∈ dests ∧ f e = Ok out.
Proof.
  revert last. induction dests as [|e dests IH]; intros last; cbn; [by destruct last|].
  destruct (f e) eqn:Hf.
  - intros [= ->]. exists e. split; [by left|done].
  - intros (e' & ? & ?)%IH. exists e'. split; [by right|done].
Qed.

Lemma coerceAll_spec l elem out :
  coerceAll l elem = Ok out → Forall2 (λ x y, coerce x elem = Ok y) l out.
Proof.
  revert out. induction l as [|x l IH]; intros out; cbn [coerceAll]; [by intros [= <-]|].
  intros H. apply res_bind_ok in H as (y & Hy & H). apply res_bind_ok in H as (ys & Hys & H).
  injection H as <-. constructor; auto.
Qed.

(** ** Conversions of scalars *)

Lemma floatValue_ok f out : floatValue f = Ok out → wf out ∧ typeOf out = TFloat.
Proof.
  unfold floatValue. destruct f; cbn; try done; repeat case_match; intros; simplify_eq; done.
Qed.

Lemma int_of_float_int f : in_int (int_of_float f).
Proof. unfold int_of_float. repeat case_match; try case_decide; try done; apply wildInt_int. Qed.

Lemma boolFromString_ok s out : boolFromString s = Ok out → ∃ b, out = VBool b.
Proof. unfold boolFromString. repeat case_bool_decide; intros; simplify_eq; eauto. Qed.

Lemma RangeExprValue_ok s out : RangeExprValue s = Ok out → out = VRange s ∧ is_ok (Parse s) = true.
Proof. unfold RangeExprValue. by destruct (Parse s); intros; simplify_eq. Qed.

Lemma convertScalar_ok v d out :
  convertScalar v d = Ok out → wf out ∧ plainType d = Some (typeOf out) ∧ concrete out.
Proof.
  destruct d; cbn [convertScalar]; try done; intros H.
  - destruct v; try done. by apply boolFromString_ok in H as [b ->].
  - unfold toInt in H. destruct v; try done.
    + case_match; [|done]. injection H as <-. split; [apply int_of_float_int|done].
    + destruct (Atoi s) eqn:Ha; [|done]. injection H as <-. by apply Atoi_range in Ha.
  - unfold toFloat in H. destruct v; try done.
    + apply floatValue_ok in H as [? Ht]. rewrite Ht. by destruct out.
    + destruct (ParseFloat s); [|done]. apply floatValue_ok in H as [? Ht]. rewrite Ht. by destruct out.
  - by injection H as <-.
  - apply res_bind_ok in H as (s & _ & H). by injection H as <-.
  - destruct v; try done. by apply RangeExprValue_ok in H as [-> ?].
Qed.

Lemma scalar_has v t : plainType (code t) = Some t → isScalarCode (code t) = true → typeOf v = t → has v t.
Proof. by destruct t. Qed.

Lemma destination_scalar c d : d ∈ scalarDestinations c → isScalarCode d = true.
Proof. destruct c; cbn; rewrite ?elem_of_cons; intros; destruct_or?; subst; try done; by apply not_elem_of_nil in H. Qed.

Lemma coerceByDestination_ok v target out :
  coerceByDestination v target = Some (Ok out) → wf out ∧ concrete out ∧ has out target.
Proof.
  intros (d & Hd & Hi & Hc)%byDestination_ok. apply destination_scalar in Hd.
  apply convertScalar_ok in Hc as (Hw & Ht & Hcc). split_and!; try done.
  eapply includes_has; [done..|]. destruct out; try done; by destruct d.
Qed.

Lemma ListValue_resolved e l : resolved e → ListValue e l = VList e l.
Proof. unfold ListValue. intros. by rewrite ListOf_resolved. Qed.

Lemma intValues_has ints : Forall in_int ints → Forall (λ x, concrete x ∧ has x TInt ∧ wf x) (intValues ints).
Proof. intros H. unfold intValues. apply Forall_fmap. eapply Forall_impl; [exact H|]. done. Qed.

Lemma intValues_sat ints e : satisfies TInt e = true → Forall (λ x, has x e) (intValues ints).
Proof. intros H. apply Forall_fmap, Forall_true. intros x. by eapply satisfies_has. Qed.

(** ** [coerce] delivers its target *)

(** What a coercion of the concrete value [v] owes its caller. *)
Definition delivers (v : Value) : Prop := ∀ target out,
  wf v → concrete v → canonical target → coerce v target = Ok out →
  wf out ∧ concrete out ∧ has out target.

Lemma rangeDestination_ok v target out :
  wf v → rangeDestination v target = Some (Ok out) → wf out ∧ concrete out ∧ has out target.
Proof.
  unfold rangeDestination. intros Hw H. case_match eqn:He; [|done]. injection H as H.
  apply res_bind_ok in H as (ints & Hr & H). injection H as <-.
  destruct v; try done. destruct (rangeInts_ok _ _ Hr) as (rs & _ & _ & Hi & _).
  apply existsb_exists in He as (e & He & Hs). apply list_elem_of_In in He.
  rewrite ListValue_resolved by done. split_and!; try done.
  - apply wf_list. split; [done|]. by apply intValues_has.
  - eapply listDestinations_has; [exact He|by right; eexists|by apply intValues_sat].
Qed.

Lemma convertListTo_ok l elem out :
  resolved elem → Forall delivers l → Forall (λ x, wf x ∧ concrete x) l →
  convertListTo l elem = Ok out →
  ∃ l', out = VList elem l' ∧ Forall2 (λ x y, coerce x elem = Ok y) l l' ∧
    Forall (λ x, concrete x ∧ has x elem ∧ wf x) l'.
Proof.
  intros Hr Hd Hl H. unfold convertListTo in H. apply res_bind_ok in H as (u & _ & H).
  apply res_bind_ok in H as (l' & Hc & H). injection H as <-. apply coerceAll_spec in Hc.
  rewrite ListValue_resolved by done. exists l'. split_and!; try done.
  clear u. induction Hc as [|x y l l' Hxy _ IH]; [constructor|].
  inversion_clear Hd as [|?? Hdx Hdl]. inversion_clear Hl as [|?? [Hw Hcx] Hll].
  constructor; [|auto]. destruct (Hdx elem y) as (? & ? & ?); auto using resolved_canonical.
Qed.

Lemma convert_ok v target out :
  match v with VList _ l => Forall delivers l | _ => True end →
  wf v → concrete v → resolved target → convert v target = Ok out →
  wf out ∧ concrete out ∧ has out target.
Proof.
  intros Hd Hw Hc Hr H. unfold convert in H.
  assert (Hgen : ∀ rest, match coerceByDestination v target with Some out => out | None => rest end = Ok out →
    (rest = Ok out → wf out ∧ concrete out ∧ has out target) → wf out ∧ concrete out ∧ has out target).
  { intros rest Hm Hrest. destruct (coerceByDestination v target) as [o|] eqn:E; [|auto].
    subst o. by apply coerceByDestination_ok in E. }
  destruct v as [| | | | | |s|se l|]; try (by eapply Hgen; [exact H|]).
  - destruct (includes target CodeNull) eqn:Hi; [|done]. injection H as <-.
    split_and!; try done. by eapply (includes_has _ CodeNull).
  - eapply Hgen; [exact H|]. intros Hrest.
    destruct (rangeDestination (VRange s) target) as [o|] eqn:E; [|done]. subst o.
    by eapply rangeDestination_ok.
  - eapply Hgen; [exact H|]. intros Hrest.
    destruct (byListDestination _ _ _) as [o|] eqn:E; [|done]. subst o.
    apply byListDestination_ok in E as (elem & He & E). apply ordered_perm in He.
    apply wf_list in Hw as [_ Hw].
    apply convertListTo_ok in E as (l' & -> & _ & Hl'); [..|done|].
    + pose proof (resolved_destinations _ _ Hr He). split_and!; [by apply wf_list|done|].
      eapply listDestinations_has; [done|by left|]. eapply Forall_impl; [exact Hl'|]. naive_solver.
    + by eapply resolved_destinations.
    + eapply Forall_impl; [exact Hw|]. naive_solver.
Qed.

Lemma coerce_delivers v : delivers v.
Proof.
  assert (Hstep : ∀ v, match v with VList _ l => Forall delivers l | _ => True end → delivers v).
  { clear v. intros v Hd.
    assert (Hres : ∀ target out, wf v → concrete v → resolved target →
      (if satisfies (typeOf v) target then Ok v else convert v target) = Ok out →
      wf out ∧ concrete out ∧ has out target).
    { intros target out Hw Hc Ht H. destruct (satisfies (typeOf v) target) eqn:Hs.
      - injection H as <-. split_and!; try done. eapply satisfies_has; [exact Hs|]. by apply has_typeOf.
      - by eapply convert_ok. }
    assert (Heq : ∀ target, concrete v → resolved target →
      coerce v target = if satisfies (typeOf v) target then Ok v else convert v target).
    { intros target Hc Ht. rewrite coerce_eq. by destruct v, target. }
    intros target out Hw Hc Ht H.
    destruct target as [| | | | | | | | | | | | | | |c]; try (rewrite Heq in H by done; by eapply Hres).
    cbn [canonical has] in *.
    assert (H' : (if satisfies (typeOf v) c then Ok v else coerce v c) = Ok out).
    { rewrite coerce_eq in H. by destruct v. }
    destruct (satisfies (typeOf v) c) eqn:Hs.
    - apply (Hres c); [done..|]. by rewrite Hs.
    - rewrite Heq in H' by done. by eapply Hres. }
  induction v as [v Hv|e l IH] using Value_induct; apply Hstep; [by destruct v|done].
Qed.

(** ** [coerce] never panics *)

Lemma floatValue_good f : good (floatValue f) (λ v, wf v ∧ typeOf v = TFloat).
Proof.
  apply good_and; [apply floatValue_ok|]. intros e. unfold floatValue. repeat case_match; intros; by simplify_eq.
Qed.

Lemma convertScalar_good v d :
  d ∈ scalarDestinations (code (typeOf v)) → good (convertScalar v d) (λ _, True).
Proof.
  intros Hd. assert (Hv : d = CodePath → ∃ s, v = VString s).
  { intros ->. destruct v; cbn in Hd; rewrite ?elem_of_cons in Hd; destruct_or?; try done; try eauto;
      by apply not_elem_of_nil in Hd. }
  destruct d; cbn [convertScalar]; try done.
  - destruct v; try done. unfold boolFromString. by repeat case_bool_decide.
  - unfold toInt. destruct v; try done; by case_match.
  - unfold toFloat. destruct v; try done; [|destruct (ParseFloat s); [|done]];
      (eapply good_weaken; [apply floatValue_good|done]).
  - by destruct (Hv eq_refl) as [s ->].
  - destruct v; try done. unfold RangeExprValue. by destruct (Parse s).
Qed.

Definition goodEnd {A} (r : option (res EErr A)) : Prop :=
  match r with Some r => good r (λ _, True) | None => True end.

Lemma byDestination_good v target dests last :
  (∀ d, d ∈ dests → good (convertScalar v d) (λ _, True)) → (∀ e, last = Some e → harmless e) →
  goodEnd (byDestination v target dests last).
Proof.
  revert last. induction dests as [|d dests IH]; intros last Hd Hl; cbn [byDestination].
  - destruct last; cbn; auto.
  - pose proof (Hd d ltac:(by left)) as Hg.
    assert (Hrest : ∀ x, x ∈ dests → good (convertScalar v x) (λ _, True)) by (intros; apply Hd; by right).
    destruct (includes target d); [|auto]. destruct (convertScalar v d) as [|e]; [done|].
    apply IH; [done|]. by intros e' [= <-].
Qed.

Lemma byListDestination_good f dests last :
  (∀ e, good (f e) (λ _, True)) → (∀ e, last = Some e → harmless e) → goodEnd (byListDestination f dests last).
Proof.
  intros Hf. revert last. induction dests as [|e dests IH]; intros last Hl; cbn [byListDestination].
  - destruct last; cbn; auto.
  - pose proof (Hf e) as Hg. destruct (f e) as [|e']; [done|]. apply IH. by intros e'' [= <-].
Qed.

Lemma checkElementCount_good n : good (checkElementCount n) (λ _, 0 ≤ n ≤ maxElements).
Proof.
  unfold checkElementCount. destruct (_ || _) eqn:E; [done|]. cbn.
  apply orb_false_elim in E as [?%Z.ltb_ge ?%Z.ltb_ge]. lia.
Qed.

Lemma sumCounts_good total rs : good (sumCounts total rs) (λ _, True).
Proof.
  revert total. induction rs as [|r rs IH]; intros total; cbn [sumCounts]; [done|].
  eapply good_bind; [apply checkElementCount_good|]. intros _ _. apply IH.
Qed.

Lemma parsedRanges_good s : good (parsedRanges (VRange s)) (λ _, True).
Proof. unfold parsedRanges. cbn [AsRangeExpr res_bind]. by case_match. Qed.

Lemma rangeInts_good s : good (rangeInts (VRange s)) (Forall in_int).
Proof.
  apply good_and; [intros l Hl; by apply rangeInts_ok in Hl as (_ & _ & _ & Hi & _)|].
  assert (Hg : good (rangeInts (VRange s)) (λ _, True)).
  { unfold rangeInts. eapply good_bind; [apply parsedRanges_good|]. intros rs _.
    by eapply good_bind; [apply sumCounts_good|]. }
  intros e He. by rewrite He in Hg.
Qed.

Lemma rangeDestination_good s target : goodEnd (rangeDestination (VRange s) target).
Proof.
  unfold rangeDestination. case_match; [|done]. cbn. by eapply good_bind; [apply rangeInts_good|].
Qed.

Lemma coerceAll_good l elem :
  Forall (λ x, good (coerce x elem) (λ _, True)) l → good (coerceAll l elem) (λ _, True).
Proof.
  induction 1 as [|x l Hx _ IH]; cbn [coerceAll]; [done|]. eapply good_bind; [exact Hx|]. intros y _.
  by eapply good_bind; [exact IH|].
Qed.

Lemma convert_good v target :
  match v with VList _ l => ∀ elem, Forall (λ x, good (coerce x elem) (λ _, True)) l | _ => True end →
  good (convert v target) (λ _, True).
Proof.
  intros Hl. unfold convert.
  assert (Hd : goodEnd (coerceByDestination v target)).
  { apply byDestination_good; [|done]. intros d. apply convertScalar_good. }
  destruct v as [| | | | | |s|se l|]; try (by case_match);
    (destruct (coerceByDestination _ target) as [o|]; [exact Hd|]); try done.
  - pose proof (rangeDestination_good s target) as Hr. destruct (rangeDestination _ _); [exact Hr|done].
  - assert (Hb : goodEnd (byListDestination (convertListTo l) (orderedListDestinations se target) None)).
    { apply byListDestination_good; [|done]. intros elem. unfold convertListTo.
      eapply good_bind; [apply checkElementCount_good|]. intros _ _.
      by eapply good_bind; [apply coerceAll_good, Hl|]. }
    destruct (byListDestination _ _ _); [exact Hb|done].
Qed.

Lemma coerceUnresolved_good c target : good (coerceUnresolved c target) (λ _, True).
Proof. unfold coerceUnresolved. by repeat case_match. Qed.

Lemma coerce_good v target : good (coerce v target) (λ _, True).
Proof.
  assert (Hstep : ∀ v, (∀ t, good (convert v t) (λ _, True)) → ∀ t, good (coerce v t) (λ _, True)).
  { clear. intros v Hc t. induction t as [t Ht|u _|ms _|c IH] using Ty_induct; rewrite coerce_eq;
      destruct v; try (by apply coerceUnresolved_good);
      destruct (satisfies _ _); try exact I; first [exact IH|destruct t; try discriminate Ht; apply Hc|apply Hc]. }
  revert target. induction v as [v Hv|e l IH] using Value_induct; apply Hstep; intros t; apply convert_good.
  - by destruct v.
  - intros elem. eapply Forall_impl; [exact IH|]. intros x Hx. apply Hx.
Qed.
End CoerceFacts.
