(* ===== verification/ExprNarrow.v ===== *)
(** * Coercing placeholders

    src/internal/openjd/expr/coerce.go: the narrowing of a placeholder's
    constraint, which the source describes by an invariant with two halves: the
    narrowed constraint satisfies the target, and the concrete value that takes
    the placeholder's place, coerced to the same target, satisfies the narrowed
    constraint.  The first half holds; the second holds for values without empty
    lists, and fails for an empty one. *)

From S2P Require Import Prelude StatusText GoText IntRange RangeExpr ExprType ExprFloat ExprValue ExprRange ExprCoerce.
Open Scope Z_scope.

(** ** Unions and their members *)

Lemma has_collect t x : resolved t → has x t ↔ ∃ m, m ∈ fst (collectUnionMembers t) ∧ has x m.
Proof.
  intros Ht. destruct t; try done; cbn [collectUnionMembers fst];
    try (setoid_rewrite list_elem_of_singleton; naive_solver).
  - split; [done|]. intros (m & Hm & _). by apply not_elem_of_nil in Hm.
  - apply resolved_union in Ht as (_ & Hu & _). destruct (unionables_collect members Hu) as [-> _].
    apply has_union.
Qed.

Lemma has_normalize ms x :
  Forall memberOf ms → has x (normalizeUnionMembers ms) ↔ ∃ m, m ∈ ms ∧ has x m.
Proof.
  intros Hm. destruct (existsb (is_code CodeAny) ms) eqn:E.
  - unfold normalizeUnionMembers. rewrite E. split.
    + intros H. apply existsb_exists in E as (m & Hin & Hm'). apply list_elem_of_In in Hin.
      exists m. split; [done|]. unfold is_code in Hm'. apply bool_decide_eq_true in Hm'. by destruct m.
    + intros (m & _ & Hx). by eapply has_concrete.
  - destruct (normalize_cases ms Hm E) as (u & _ & Hin & _ & _ & ->).
    setoid_rewrite <- Hin. destruct u as [|a [|b u]].
    + split; [done|]. intros (m & Hx & _). by apply not_elem_of_nil in Hx.
    + setoid_rewrite list_elem_of_singleton. naive_solver.
    + apply has_union.
Qed.

(** A value is of a union when it is of one of the parts. *)
Lemma has_UnionOf ts x : Forall canonical ts → has x (UnionOf ts) ↔ ∃ t, t ∈ ts ∧ has x t.
Proof.
  intros Hc. assert (Hn : has x (UnionOf ts) ↔ has x (normalizeUnionMembers (members ts))).
  { unfold UnionOf. fold (members ts). case_match; [|done].
    by destruct (normalizeUnionMembers (members ts)). }
  rewrite Hn, has_normalize by (by apply canonical_members). unfold members.
  rewrite Forall_forall in Hc.
  assert (Hcol : ∀ t, t ∈ ts → has x t ↔ ∃ m, m ∈ fst (collectUnionMembers t) ∧ has x m).
  { intros t Ht. specialize (Hc t Ht). destruct t as [| | | | | | | | | | | | | | |c]; try (by apply has_collect).
    cbn [collectUnionMembers fst has]. by apply has_collect. }
  split.
  - intros (m & Hm & Hx). apply list_elem_of_In, in_concat in Hm as (k & Hk & Hm).
    apply in_map_iff in Hk as (t & <- & Ht). apply list_elem_of_In in Ht, Hm.
    exists t. split; [done|]. apply Hcol; eauto.
  - intros (t & Ht & Hx). apply Hcol in Hx as (m & Hm & Hx); [|done].
    exists m. split; [|done]. apply list_elem_of_In, in_concat.
    exists (fst (collectUnionMembers t)). split; [|by apply list_elem_of_In].
    apply in_map_iff. exists t. split; [done|]. by apply list_elem_of_In.
Qed.

Lemma UnionOf_resolved ts : Forall resolved ts → resolved (UnionOf ts).
Proof.
  intros H. assert (Hc : Forall canonical ts).
  { eapply Forall_impl; [exact H|]. apply resolved_canonical. }
  unfold UnionOf. fold (members ts). destruct (existsb _ ts) eqn:E.
  2: by apply normalize_canonical, canonical_members.
  - apply existsb_exists in E as (t & Ht & E). apply list_elem_of_In in Ht.
    rewrite Forall_forall in H. apply H, resolved_collect in Ht as [_ Ht]. congruence.
Qed.

(** ** The destinations of a constraint *)

(** The types a constraint without a union can become. *)
Definition destinations (from target : Ty) : list Ty :=
  scalarTypes (code from) target
  ++ match from with
     | TRangeExpr => if existsb (satisfies TInt) (listDestinations target) then [ListOf TInt] else []
     | TList se =>
         map ListOf (filter (λ elem, is_code CodeNull se || coercibleToTarget se elem = true)
                       (orderedListDestinations se target))
     | _ => []
     end.

Definition nonUnion (t : Ty) : Prop := match t with TUnion _ => False | _ => True end.

Lemma narrowed_nonUnion from target :
  nonUnion from →
  narrowedConstraint from target = match destinations from target with [] => None | ds => Some (UnionOf ds) end.
Proof.
  intros H. assert (narrowedConstraint from target =
    match destinations from target with [] => None | _ => Some (UnionOf (destinations from target)) end) as ->
    by (by destruct from).
  by destruct (destinations from target).
Qed.

Lemma scalarTypes_spec from target t :
  t ∈ scalarTypes from target ↔
  ∃ d, d ∈ scalarDestinations from ∧ includes target d = true ∧ plainType d = Some t.
Proof.
  unfold scalarTypes. rewrite list_elem_of_omap. setoid_rewrite list_elem_of_filter. naive_solver.
Qed.

Lemma destinations_sound from target t :
  resolved target → t ∈ destinations from target → resolved t ∧ ∀ x, has x t → has x target.
Proof.
  intros Hr Ht. unfold destinations in Ht. apply elem_of_app in Ht as [Ht|Ht].
  - apply scalarTypes_spec in Ht as (d & Hd & Hi & Hp). split.
    + apply destination_scalar in Hd. by destruct d; try done; injection Hp as <-.
    + intros x Hx. by eapply includes_has.
  - destruct from; try (by apply not_elem_of_nil in Ht).
    + destruct (existsb _ _) eqn:E; [|by apply not_elem_of_nil in Ht].
      apply list_elem_of_singleton in Ht. subst t. split; [done|]. intros x Hx.
      apply existsb_exists in E as (e & He & Hs). apply list_elem_of_In in He.
      destruct x; try done. eapply listDestinations_has; [exact He|by right; eexists|].
      cbn in Hx. eapply Forall_impl; [exact Hx|]. intros y Hy. by eapply satisfies_has.
    + apply list_elem_of_fmap in Ht as (e & -> & He). apply list_elem_of_filter in He as [_ He].
      apply ordered_perm in He. pose proof (resolved_destinations _ _ Hr He) as Hre.
      rewrite ListOf_resolved by done. split; [done|]. intros x Hx. destruct x; try done.
      eapply listDestinations_has; [exact He|by right; eexists|done].
Qed.

(** The union of types that are sound for the target is sound for it. *)
Lemma union_sound ds target :
  (∀ u, u ∈ ds → resolved u ∧ ∀ x, has x u → has x target) →
  resolved (UnionOf ds) ∧ ∀ x, has x (UnionOf ds) → has x target.
Proof.
  intros Hd. split; [apply UnionOf_resolved, Forall_forall; intros u Hu; by apply Hd|].
  intros x Hx. apply has_UnionOf in Hx as (u & Hu & Hx); [by apply (Hd u)|].
  apply Forall_forall. intros u' Hu'. by apply resolved_canonical, Hd.
Qed.

Lemma narrowed_sound from target n :
  resolved from → resolved target → narrowedConstraint from target = Some n →
  resolved n ∧ ∀ x, has x n → has x target.
Proof.
  intros Hf Ht. revert n. induction from as [t Hp|e IH|ms IH|c IH] using Ty_induct; intros n H; [| | |done].
  1: rewrite narrowed_nonUnion in H by (by destruct t).
  2: rewrite narrowed_nonUnion in H by done.
  1,2: destruct (destinations _ target) as [|d ds] eqn:E; [done|]; injection H as <-; rewrite <- E;
    apply union_sound; intros u Hu; by eapply destinations_sound.
  cbn [narrowedConstraint] in H. set (out := concat _) in H.
  assert (Hd : ∀ u, u ∈ out → resolved u ∧ ∀ x, has x u → has x target).
  { intros u Hu. apply list_elem_of_In, in_concat in Hu as (k & Hk & Hu).
    apply in_map_iff in Hk as (m & <- & Hm). apply list_elem_of_In in Hm.
    apply resolved_union in Hf as (_ & _ & _ & Hf). rewrite Forall_forall in Hf, IH.
    destruct (satisfies m target) eqn:Hs.
    - destruct Hu as [<-|[]]. split; [by apply Hf|]. intros x. by apply satisfies_has.
    - destruct (narrowedConstraint m target) as [n'|] eqn:Hn; [|done].
      destruct Hu as [<-|[]]. apply (IH m Hm (Hf m Hm) n' Hn). }
  destruct out as [|o out']; [done|]. injection H as <-. by apply union_sound.
Qed.

(** ** Values that take a placeholder's place *)

(** Types without [any], and without unions below the top. *)
Fixpoint simple (t : Ty) : Prop :=
  match t with
  | TList e => simple e
  | TNull | TBool | TInt | TFloat | TString | TPath | TRangeExpr => True
  | _ => False
  end.

Definition flat (t : Ty) : Prop :=
  match t with TUnion ms => Forall simple ms | _ => simple t end.

(** Every list in the value has elements, all of exactly its element type. *)
Fixpoint uniform (v : Value) : Prop :=
  match v with
  | VList e l => l ≠ [] ∧ foldr (λ x P, (typeOf x = e ∧ uniform x) ∧ P) True l
  | _ => True
  end.

Lemma uniform_list e l : uniform (VList e l) ↔ l ≠ [] ∧ Forall (λ x, typeOf x = e ∧ uniform x) l.
Proof.
  cbn [uniform]. assert (foldr (λ x P, (typeOf x = e ∧ uniform x) ∧ P) True l
    ↔ Forall (λ x, typeOf x = e ∧ uniform x) l) as ->; [|done].
  induction l as [|x l IH]; cbn [foldr]; [by split|]. by rewrite IH, Forall_cons.
Qed.

Lemma satisfies_simple t c : simple c → satisfies t c = true → t = c.
Proof.
  revert t. induction c as [c Hc|e IH|ms IH|c IH] using Ty_induct; intros t Hs H; try done.
  - destruct c; try discriminate Hc; try done; by apply Equal_spec in H.
  - destruct t; try done. f_equal. by apply IH.
Qed.

Lemma includes_null target : resolved target → includes target CodeNull = true → satisfies TNull target = true.
Proof.
  induction target as [t Ht|e IH|ms IH|c IH] using Ty_induct; intros Hr H; [by destruct t|done| |done].
  cbn in *. apply existsb_exists in H as (m & Hm & H). apply existsb_exists. exists m. split; [done|].
  apply resolved_union in Hr as (_ & _ & _ & Hr). apply list_elem_of_In in Hm.
  rewrite Forall_forall in Hr, IH. auto.
Qed.

Section Narrow.
Context {arch : Platform} {tables : CaseTables}.

Lemma coerce_resolved v target :
  concrete v → resolved target →
  coerce v target = if satisfies (typeOf v) target then Ok v else convert v target.
Proof. intros Hc Hr. rewrite coerce_eq. by destruct v, target. Qed.

Lemma coercibleToTarget_eq from to :
  resolved from → resolved to →
  coercibleToTarget from to =
  satisfies from to
  || match from with
     | TUnion ms => forallb (λ m, coercibleToTarget m to) ms
     | TNull => includes to CodeNull
     | TRangeExpr =>
         existsb (includes to) (scalarDestinations (code from))
         || existsb (satisfies TInt) (listDestinations to)
     | TList se =>
         existsb (λ elem, is_code CodeNull se || coercibleToTarget se elem) (listDestinations to)
     | _ => existsb (includes to) (scalarDestinations (code from))
     end.
Proof. intros Hf Ht. by destruct from, to. Qed.

(** The type a conversion yields, by the kind of value converted. *)
Lemma convert_cases v target out :
  convert v target = Ok out →
  match v with
  | VNull => includes target CodeNull = true ∧ out = VNull
  | VList se l =>
      ∃ elem, elem ∈ listDestinations target ∧ convertListTo l elem = Ok out
  | _ =>
      (∃ d, d ∈ scalarDestinations (code (typeOf v)) ∧ includes target d = true ∧
         plainType d = Some (typeOf out) ∧ concrete out)
      ∨ (∃ ints, typeOf v = TRangeExpr ∧ existsb (satisfies TInt) (listDestinations target) = true ∧
           out = VList TInt (intValues ints))
  end.
Proof.
  intros H. unfold convert in H.
  assert (Hscalar : coerceByDestination v target = Some (Ok out) →
    ∃ d, d ∈ scalarDestinations (code (typeOf v)) ∧ includes target d = true ∧
         plainType d = Some (typeOf out) ∧ concrete out).
  { intros (d & Hd & Hi & Hc)%byDestination_ok. apply convertScalar_ok in Hc as (_ & Hp & Hcc). eauto. }
  destruct v as [| | | | | |s|se l|];
    try (by left; apply Hscalar; destruct (coerceByDestination _ target); simplify_eq).
  - by destruct (includes target CodeNull); simplify_eq.
  - destruct (coerceByDestination _ target); [left; apply Hscalar; by subst|right].
    unfold rangeDestination in H. destruct (existsb _ _) eqn:E; [|done].
    apply res_bind_ok in H as (ints & _ & H). injection H as <-. eauto.
  - cbn [coerceByDestination byDestination scalarDestinations typeOf code fmap option_fmap option_map] in H.
    destruct (byListDestination _ _ _) as [o|] eqn:E; [|done]. subst o.
    apply byListDestination_ok in E as (elem & He & E). apply ordered_perm in He. eauto.
Qed.

Lemma simple_resolved t : simple t → resolved t.
Proof. induction t as [t Ht|e IH|ms IH|c IH] using Ty_induct; try done. by destruct t. Qed.

(** The elements decide whether a list can be converted. *)
Lemma list_admitted se l elem out :
  (∀ x y, x ∈ l → wf x → concrete x → uniform x → coerce x elem = Ok y →
     coercibleToTarget (typeOf x) elem = true) →
  wf (VList se l) → uniform (VList se l) → convertListTo l elem = Ok out →
  coercibleToTarget se elem = true.
Proof.
  intros Hadm [_ Hw]%wf_list [Hne Hu]%uniform_list H.
  unfold convertListTo in H. apply res_bind_ok in H as ([] & _ & H).
  apply res_bind_ok in H as (l' & Hall & _). apply coerceAll_spec in Hall.
  destruct Hall as [|x y l l' Hxy _]; [done|].
  inversion_clear Hu as [|?? [Ht Hux] _]. inversion_clear Hw as [|?? (Hcx & _ & Hwx) _].
  rewrite <- Ht. eapply Hadm; try done. by left.
Qed.

(** A conversion that succeeds is one the type admits. *)
Lemma coerce_admitted v target out :
  wf v → concrete v → uniform v → simple (typeOf v) → resolved target →
  coerce v target = Ok out → coercibleToTarget (typeOf v) target = true.
Proof.
  revert target out. induction v as [v Hv|e l IH] using Value_induct; intros target out Hw Hc Hu Hs Hr H;
    rewrite coerce_resolved in H by done;
    rewrite coercibleToTarget_eq by (done || by apply simple_resolved);
    destruct (satisfies _ target) eqn:Hsat; try done; cbn [orb]; apply convert_cases in H.
  - assert (Hsc : ∀ d, d ∈ scalarDestinations (code (typeOf v)) → includes target d = true →
      existsb (includes target) (scalarDestinations (code (typeOf v))) = true).
    { intros d Hd Hi. apply existsb_exists. exists d. split; [by apply list_elem_of_In|done]. }
    destruct v; try done; try (by destruct H).
    all: destruct H as [(d & Hd & Hi & _)|(ints & Ht & He & _)]; try done; try (by apply (Hsc d)).
    + cbn [typeOf] in *. apply orb_true_iff. left. by apply (Hsc d).
    + cbn [typeOf] in *. apply orb_true_iff. by right.
  - destruct H as (elem & He & H). cbn [typeOf]. apply existsb_exists. exists elem.
    split; [by apply list_elem_of_In|]. apply orb_true_iff. right.
    eapply list_admitted; [|exact Hw|exact Hu|exact H]. intros x y Hx Hwx Hcx Hux Hxy.
    rewrite Forall_forall in IH. eapply (IH x Hx elem y); try done; [|by eapply resolved_destinations].
    apply uniform_list in Hu as [_ Hu]. rewrite Forall_forall in Hu. by destruct (Hu x Hx) as [-> _].
Qed.

(** A value of a constraint without a union is of the narrowed type once it is
    coerced. *)
Lemma narrowed_covers v target out :
  wf v → concrete v → uniform v → simple (typeOf v) → resolved target →
  satisfies (typeOf v) target = false → coerce v target = Ok out →
  ∃ n, narrowedConstraint (typeOf v) target = Some n ∧ has out n.
Proof.
  intros Hw Hc Hu Hs Hr Hsat H. pose proof H as Hco. rewrite coerce_resolved, Hsat in H by done.
  assert (Hd : ∃ t, t ∈ destinations (typeOf v) target ∧ has out t).
  { apply convert_cases in H. unfold destinations.
    assert (Hscalar : ∀ d, d ∈ scalarDestinations (code (typeOf v)) → includes target d = true →
      plainType d = Some (typeOf out) → concrete out →
      ∃ t, t ∈ destinations (typeOf v) target ∧ has out t).
    { intros d Hd Hi Hp Hcc. exists (typeOf out). split.
      - unfold destinations. apply elem_of_app. left. apply scalarTypes_spec. eauto.
      - apply destination_scalar in Hd. destruct out; try done; by destruct d. }
    destruct v as [| | | | | |s|se l|]; [..|discriminate Hc].
    2-6: destruct H as [(d & ? & ? & ? & ?)|(? & E & _)]; [eapply Hscalar; eassumption|discriminate E].
    - destruct H as [Hi _]. apply includes_null in Hi; [|done]. cbn in Hsat. congruence.
    - destruct H as [(d & ? & ? & ? & ?)|(ints & _ & He & ->)]; [eapply Hscalar; eassumption|].
      cbn [typeOf]. rewrite He. exists (ListOf TInt). split; [apply elem_of_app; right; by left|].
      cbn. apply Forall_fmap, Forall_true. done.
    - destruct H as (elem & He & H). pose proof (resolved_destinations _ _ Hr He) as Hre.
      exists (ListOf elem). cbn [typeOf]. rewrite ListOf_resolved by done. split.
      + apply elem_of_app. right. rewrite <- (ListOf_resolved elem Hre).
        apply list_elem_of_fmap. exists elem. split; [done|]. apply list_elem_of_filter.
        split; [|by apply ordered_perm]. apply orb_true_iff. right.
        eapply list_admitted; [|exact Hw|exact Hu|exact H]. intros x y Hx Hwx Hcx Hux Hxy.
        eapply coerce_admitted; try done.
        apply uniform_list in Hu as [_ Hu]. rewrite Forall_forall in Hu. by destruct (Hu x Hx) as [-> _].
      + assert (Hok : wf out ∧ concrete out ∧ has out (TList elem)); [|by destruct Hok as (_ & _ & ?)].
        apply convertListTo_ok in H as (l' & -> & _ & Hl'); [|exact Hre|..].
        * split_and!; [by apply wf_list|done|]. cbn. eapply Forall_impl; [exact Hl'|]. naive_solver.
        * apply Forall_forall. intros x _. apply coerce_delivers.
        * apply wf_list in Hw as [_ Hw]. eapply Forall_impl; [exact Hw|]. naive_solver. }
  destruct Hd as (t & Ht & Hx). rewrite narrowed_nonUnion by (by destruct (typeOf v)).
  destruct (destinations (typeOf v) target) as [|d ds] eqn:E; [by apply not_elem_of_nil in Ht|].
  eexists. split; [done|]. rewrite <- E in *. apply has_UnionOf; [|eauto].
  apply Forall_forall. intros u Hu'. apply resolved_canonical. by eapply destinations_sound.
Qed.

Lemma satisfies_union ms target t :
  satisfies (TUnion ms) target = true → satisfies t target = true.
Proof.
  induction target as [u Hu|e IH|us IH|c IH] using Ty_induct; intros H; try done.
  - by destruct u.
  - cbn in *. apply existsb_exists in H as (m & Hm & H). apply existsb_exists. exists m.
    split; [done|]. rewrite Forall_forall in IH. apply IH; [by apply list_elem_of_In|done].
  - cbn in *. auto.
Qed.

Lemma simple_covers c target n v out :
  simple c → resolved target → wf v → concrete v → uniform v → satisfies (typeOf v) c = true →
  satisfies c target = false → narrowedConstraint c target = Some n →
  coerce v target = Ok out → has out n.
Proof.
  intros Hs Hr Hw Hc Hu Hsat Hns Hn Hco.
  assert (c = typeOf v) as -> by (symmetry; by apply satisfies_simple).
  destruct (narrowed_covers v target out) as (n' & Hn' & Hx); try done. congruence.
Qed.

(** What each member of a union constraint contributes. *)
Definition contribution (target m : Ty) : list Ty :=
  if satisfies m target then [m]
  else match narrowedConstraint m target with Some n => [n] | None => [] end.

Lemma contribution_covers m target v out :
  simple m → resolved target → wf v → concrete v → uniform v → satisfies (typeOf v) m = true →
  coerce v target = Ok out → ∃ t, t ∈ contribution target m ∧ has out t.
Proof.
  intros Hs Hr Hw Hc Hu Hsat Hco. unfold contribution.
  assert (m = typeOf v) as -> by (symmetry; by apply satisfies_simple).
  destruct (satisfies (typeOf v) target) eqn:Ht.
  - rewrite coerce_resolved, Ht in Hco by done. injection Hco as <-.
    eexists. split; [by left|]. by apply has_typeOf.
  - destruct (narrowed_covers v target out) as (n & -> & Hx); try done.
    eexists. split; [by left|done].
Qed.

Lemma contribution_resolved target m t :
  resolved m → resolved target → t ∈ contribution target m → resolved t.
Proof.
  intros Hm Hr Ht. unfold contribution in Ht.
  destruct (satisfies m target); [apply list_elem_of_singleton in Ht; by subst|].
  destruct (narrowedConstraint m target) as [n|] eqn:E; [|by apply not_elem_of_nil in Ht].
  apply list_elem_of_singleton in Ht. subst t. by destruct (narrowed_sound m target n Hm Hr E).
Qed.

Lemma union_covers ms target n v out :
  resolved (TUnion ms) → Forall simple ms → resolved target →
  wf v → concrete v → uniform v → satisfies (typeOf v) (TUnion ms) = true →
  narrowedConstraint (TUnion ms) target = Some n → coerce v target = Ok out → has out n.
Proof.
  intros Hrc Hf Hr Hw Hc Hu Hsat Hn Hco. cbn [satisfies] in Hsat.
  apply existsb_exists in Hsat as (m & Hm & Hsat). apply list_elem_of_In in Hm.
  rewrite Forall_forall in Hf. apply resolved_union in Hrc as (_ & _ & _ & Hrc). rewrite Forall_forall in Hrc.
  destruct (contribution_covers m target v out) as (t & Ht & Hx); auto.
  change (match concat (map (contribution target) ms) with
          | [] => None | o :: outs => Some (UnionOf (o :: outs)) end = Some n) in Hn.
  assert (Hin : t ∈ concat (map (contribution target) ms)).
  { apply list_elem_of_In, in_concat. exists (contribution target m).
    split; [apply in_map_iff; exists m; split; [done|]|]; by apply list_elem_of_In. }
  destruct (concat _) as [|o outs] eqn:E; [by apply not_elem_of_nil in Hin|]. injection Hn as <-.
  apply has_UnionOf; [|eauto]. rewrite <- E. apply Forall_forall. intros u Hu'.
  apply list_elem_of_In, in_concat in Hu' as (k & Hk & Hu'). apply in_map_iff in Hk as (m' & <- & Hm').
  apply list_elem_of_In in Hm', Hu'. apply resolved_canonical. by eapply contribution_resolved; [apply Hrc| |].
Qed.

(** What a coercion returns. *)
Lemma coerce_spec v target :
  wf v → canonical target →
  match coerce v target with
  | Err e => harmless e
  | Ok out =>
      wf out ∧
      match v with
      | VUnresolved _ => ∃ n, out = VUnresolved n ∧ ∀ x, has x n → has x target
      | _ => concrete out ∧ has out target
      end
  end.
Proof.
  intros Hw Ht. destruct (coerce v target) as [out|e] eqn:H.
  2: { pose proof (coerce_good v target) as Hg. rewrite H in Hg. exact Hg. }
  assert (Hdel : concrete v → wf out ∧ concrete out ∧ has out target).
  { intros Hc. exact (coerce_delivers v target out Hw Hc Ht H). }
  destruct v as [| | | | | | | |c];
    try (destruct (Hdel eq_refl) as (H1 & H2 & H3); exact (conj H1 (conj H2 H3))).
  rewrite coerce_eq in H. unfold coerceUnresolved in H.
  destruct (satisfies c target) eqn:Hs.
  { injection H as <-. split; [done|]. eexists. split; [done|]. intros x. by apply satisfies_has. }
  assert (Hn : ∀ n, resolved target → narrowedConstraint c target = Some n → Ok (Unresolved n) = @Ok EErr _ out →
    wf out ∧ ∃ n, out = VUnresolved n ∧ ∀ x, has x n → has x target).
  { intros n Hr Hn [= <-]. destruct (narrowed_sound c target n Hw Hr Hn) as [Hrn Hx].
    unfold Unresolved. replace (unwrapUnresolved n) with n by (by destruct n). eauto. }
  destruct target; try (destruct (narrowedConstraint c _) as [n|] eqn:E; [by eapply Hn|done]).
  destruct (coercibleToTarget _ _); [|done]. injection H as <-. eauto.
Qed.

(** ** Properties *)

(** C34. Coercion delivers its target: coercing a well-formed value to a canonical
    type never panics; what it returns is well-formed and,
    for a concrete value, a concrete value of the target.  A placeholder stays a
    placeholder, and every value of its new constraint is one of the target. *)
Theorem coerce_correct v target :
  wf v → canonical target →
  match coerce v target with
  | Err e => harmless e
  | Ok out =>
      wf out ∧
      match v with
      | VUnresolved _ => ∃ n, out = VUnresolved n ∧ ∀ x, has x n → has x target
      | _ => concrete out ∧ has out target
      end
  end.
Proof. apply coerce_spec. Qed.

(** A narrowed placeholder covers the values to come: when a placeholder with
    constraint [c] is coerced to a target and becomes one with constraint [n],
    coercing a value whose type satisfies [c] to the same target, if it succeeds,
    gives a value of [n].  The constraint has no union inside a list, and the
    value no empty list. *)
Theorem narrowing_covers c target n v out :
  resolved c → flat c → resolved target →
  wf v → concrete v → uniform v → satisfies (typeOf v) c = true →
  coerceUnresolved c target = Ok (VUnresolved n) → coerce v target = Ok out → has out n.
Proof.
  intros Hrc Hf Hr Hw Hc Hu Hsat Hn Hco. unfold coerceUnresolved in Hn.
  assert (Hkeep : satisfies (typeOf v) target = true → out = v).
  { intros Hs. rewrite coerce_resolved, Hs in Hco by done. by injection Hco. }
  destruct (satisfies c target) eqn:Hs.
  { injection Hn as <-. assert (out = v) as ->; [|by eapply satisfies_has; [|by apply has_typeOf]].
    apply Hkeep. destruct c; try (rewrite (satisfies_simple (typeOf v) _ Hf Hsat); done).
    by eapply satisfies_union. }
  assert (Hn' : narrowedConstraint c target = Some n).
  { destruct target; try done; destruct (narrowedConstraint c _) as [n'|] eqn:E; try done; injection Hn as <-;
      destruct (narrowed_sound c _ n' Hrc Hr E) as [Hrn _]; unfold Unresolved; f_equal; by destruct n'. }
  clear Hn. destruct c as [| | | | | | | | | | | | | |ms|]; try (by eapply simple_covers).
  by eapply union_covers.
Qed.

(** The constraint and the target of the witness below. *)
Definition sampleConstraint : Ty := UnionOf [TFloat; TList TInt].
Definition sampleTarget : Ty := UnionOf [TInt; TString; TList TString].

Lemma narrowing_covers_witness :
  has (VList TString [VString (of_string "7")]) (UnionOf [TInt; TString; TList TString]).
Proof.
  refine (narrowing_covers sampleConstraint sampleTarget (UnionOf [TInt; TString; TList TString])
    (VList TInt [VInt 7]) (VList TString [VString (of_string "7")]) _ _ _ _ _ _ _ _ _).
  - apply UnionOf_resolved. by repeat constructor.
  - vm_compute. by repeat constructor.
  - apply UnionOf_resolved. by repeat constructor.
  - vm_compute. split; [exact I|]. split; [|exact I]. split; [reflexivity|]. split; [reflexivity|].
    split; discriminate.
  - reflexivity.
  - vm_compute. split; [discriminate|]. by repeat split.
  - vm_compute. reflexivity.
  - vm_compute. reflexivity.
  - vm_compute. reflexivity.
Defined.

(** The second half of the invariant fails on an empty list: a placeholder of
    [int | list[bool]] coerced to [int | list[int]] becomes a placeholder of
    [int], because no bool reaches an int; yet the empty [list[bool]], a value of
    its constraint, is converted to the empty [list[int]], which is not an
    [int]. *)
Theorem narrowing_misses_empty_list :
  let c := UnionOf [TInt; TList TBool] in
  let target := UnionOf [TInt; TList TInt] in
  satisfies (typeOf (VList TBool [])) c = true ∧
  coerceUnresolved c target = Ok (VUnresolved TInt) ∧
  coerce (VList TBool []) target = Ok (VList TInt []) ∧
  ¬ has (VList TInt []) TInt.
Proof. split_and!; [vm_compute; reflexivity..|]. discriminate. Qed.
End Narrow.

Lemma coerce_correct_witness :
  wf (VList TFloat [Float (float_of_int 3)]) ∧
  coerce (arch := samplePlatform) (tables := asciiTables) (VList TInt [VInt 3]) (TList TFloat)
  = Ok (VList TFloat [Float (float_of_int 3)]).
Proof.
  assert (H : coerce (arch := samplePlatform) (tables := asciiTables) (VList TInt [VInt 3]) (TList TFloat)
    = Ok (VList TFloat [Float (float_of_int 3)])) by (vm_compute; reflexivity).
  split; [|exact H].
  pose proof (coerce_correct (arch := samplePlatform) (tables := asciiTables) (VList TInt [VInt 3]) (TList TFloat)) as Hc.
  rewrite H in Hc. apply Hc; vm_compute; [|exact I].
  split; [exact I|]. split; [|exact I]. split; [reflexivity|]. split; [reflexivity|]. split; discriminate.
Defined.
