(* ===== verification/ExprPath.v ===== *)
(** * Paths of the expression language

    src/internal/openjd/expr: pathval.go (lexical paths of the POSIX, Windows and
    URI kinds), the helpers of funcspath.go and pathmapping.go (path mapping
    rules).

    Shown: printing a parsed POSIX path or URI and parsing it again changes
    nothing, so the text a path value carries is a normal form; joining a base
    with a path made relative to it gives the path back; and of the mapping rules
    that apply to a path the one with the longest source is used. *)

From Stdlib Require Import Sorted.
From S2P Require Import Prelude StatusText GoText IntRange RangeExpr ExprType ExprFloat ExprValue.
Open Scope Z_scope.

(** ** Text helpers *)

Definition slash : ascii := "/"%char.
Definition backslash : ascii := byte_chr 92.
Definition dot : ascii := "."%char.
Definition colon : ascii := ":"%char.

(** [strings.TrimLeft] and [strings.TrimRight] of one byte. *)
Fixpoint trimLeft (c : ascii) (s : str) : str :=
  match s with
  | d :: s' => if bool_decide (d = c) then trimLeft c s' else s
  | [] => []
  end.

Definition trimRight (c : ascii) (s : str) : str := rev (trimLeft c (rev s)).

(** [strings.ContainsAny] with a set of ASCII bytes. *)
Definition containsAny (s set : str) : bool := existsb (λ c, bool_decide (c ∈ set)) s.

Definition hasSuffix (suffix s : str) : bool := has_prefix (rev suffix) (rev s).

(** ** Parsed paths *)

(** pathval.go [parsedPath] *)
Record parsedPath := mkPath {
  root : str;
  comps : list str;
  flavor : PathFormat;
  isURI : bool;
}.

Section Paths.
Context {arch : Platform} {tables : CaseTables}.

(** pathval.go [pathSeparatorChars], [pathCanonicalSeparator] *)
Definition pathSeparatorChars (f : PathFormat) : str :=
  match resolve f with PathWindows => [slash; backslash] | _ => [slash] end.

Definition pathCanonicalSeparator (f : PathFormat) : ascii :=
  match resolve f with PathWindows => backslash | _ => slash end.

(** pathval.go [normalizeSeparators]: [strings.Map] over the runes. *)
Definition normalizeSeparators (text : str) (f : PathFormat) : str :=
  let seps := byte_val <$> pathSeparatorChars f in
  let canon := byte_val (pathCanonicalSeparator f) in
  concat ((λ r, EncodeRune (if bool_decide (r ∈ seps) then canon else r)) <$> runes text).

(** pathval.go [splitComponents] *)
Definition splitComponents (rest : str) (f : PathFormat) : list str :=
  filter (λ c, c ≠ [] ∧ c ≠ [dot]) (split_on (pathCanonicalSeparator f) rest).

(** pathval.go [driveColonLen] *)
Definition driveColonLen (s : str) : nat :=
  match s with
  | [] => 0%nat
  | _ =>
      let '(r, n) := DecodeRune s in
      if (r =? RuneError) && (n <=? 1)%nat then 0%nat
      else match s !! n with
           | Some c => if bool_decide (c = colon) then S n else 0%nat
           | None => 0%nat
           end
  end.

(** pathval.go [synthesizeUNCRoot]; the exclusion [strings.Contains("?.", seg)]
    tests whether the segment is a substring of ["?."]. *)
Definition synthesizeUNCRoot (p : str) : str * str * str :=
  if hasSuffix [backslash] p then (p, [], [])
  else
    match split_on backslash p with
    | [_; _; seg; _] =>
        if contains (of_string "?.") seg then (p, [], []) else (p, [backslash], [])
    | _ => (p, [], [])
    end.

(** pathval.go [splitRootWindows]: drive, root and rest. *)
Definition splitRootWindows (p : str) : str * str * str :=
  if has_prefix [backslash; backslash] p then
    match index_byte backslash (drop 2 p) with
    | None => synthesizeUNCRoot p
    | Some i =>
        let idx := (i + 2)%nat in
        match index_byte backslash (drop (idx + 1) p) with
        | None => synthesizeUNCRoot p
        | Some j =>
            let idx2 := (j + idx + 1)%nat in
            (take idx2 p, take 1 (drop idx2 p), drop (idx2 + 1) p)
        end
    end
  else if has_prefix [backslash] p then ([], take 1 p, drop 1 p)
  else
    let n := driveColonLen p in
    if (0 <? n)%nat then
      if bool_decide (p !! n = Some backslash) then (take n p, take 1 (drop n p), drop (n + 1) p)
      else (take n p, [], drop n p)
    else ([], [], p).

(** pathval.go [parseWindows] *)
Definition parseWindows (text : str) : parsedPath :=
  let '(drive, rt, rest) := splitRootWindows (normalizeSeparators text PathWindows) in
  mkPath (drive ++ rt) (splitComponents rest PathWindows) PathWindows false.

(** pathval.go [isSchemeStart], [isSchemeByte] *)
Definition isSchemeStart (b : ascii) : bool := byte_in b 97 122 || byte_in b 65 90.
Definition isSchemeByte (b : ascii) : bool :=
  isSchemeStart b || byte_in b 48 57 || bool_decide (b ∈ ["+"%char; "."%char; "-"%char]).

(** The longest prefix of scheme bytes, and the rest. *)
Fixpoint schemeBytes (s : str) : str * str :=
  match s with
  | c :: s' => if isSchemeByte c then let '(w, r) := schemeBytes s' in (c :: w, r) else ([], s)
  | [] => ([], [])
  end.

(** pathval.go [splitURI]: the root and the rest of a URI. *)
Definition splitURI (text : str) : option (str * str) :=
  match text with
  | c :: s =>
      if isSchemeStart c then
        let '(scheme, s1) := schemeBytes s in
        if has_prefix (of_string "://") s1 then
          let auth := drop 3 s1 in
          match index_byte slash auth with
          | None => Some (text, [])
          | Some rel =>
              Some (c :: scheme ++ of_string "://" ++ take rel auth, drop (rel + 1) auth)
          end
        else None
      else None
  | [] => None
  end.

(** pathval.go [parsePath] *)
Definition parsePath (text : str) (f0 : PathFormat) : parsedPath :=
  let f := resolve f0 in
  match splitURI text with
  | Some (rt, rest) =>
      mkPath rt (if (length rt <? length text)%nat then split_on slash rest else []) f true
  | None =>
      match f with
      | PathWindows => parseWindows text
      | _ =>
          if has_prefix [slash] text then
            let trimmed := trimLeft slash text in
            let leading := (length text - length trimmed)%nat in
            mkPath (if Nat.eqb leading 2 then [slash; slash] else [slash]) (splitComponents trimmed f) f false
          else mkPath [] (splitComponents text f) f false
      end
  end.

(** pathval.go [parsedPath.String] *)
Definition PathString (p : parsedPath) : str :=
  if isURI p then
    match comps p with
    | [] => root p
    | cs => root p ++ [slash] ++ join [slash] cs
    end
  else
    let sep := [pathCanonicalSeparator (flavor p)] in
    match root p with
    | _ :: _ => root p ++ join sep (comps p)
    | [] =>
        match comps p with
        | [] => [dot]
        | c :: _ =>
            if bool_decide (flavor p = PathWindows) && (0 <? driveColonLen c)%nat then
              [dot] ++ sep ++ join sep (comps p)
            else join sep (comps p)
        end
    end.

(** pathval.go [parts], [name] *)
Definition parts (p : parsedPath) : list str :=
  match root p with [] => comps p | _ => root p :: comps p end.

Definition name (p : parsedPath) : str := default [] (last (comps p)).

(** pathval.go [splitLeadingDots], [splitStemSuffix], [suffixes] *)
Definition splitLeadingDots (nm : str) : str * list str :=
  let trimmed := trimLeft dot nm in
  (take (length nm - length trimmed) nm, match trimmed with [] => [] | _ => split_on dot trimmed end).

Definition splitStemSuffix (nm : str) : str * str :=
  let '(leading, pieces) := splitLeadingDots nm in
  if (length pieces <=? 1)%nat then (nm, [])
  else (leading ++ join [dot] (removelast pieces), dot :: default [] (last pieces)).

Definition pathSuffixes (p : parsedPath) : list str :=
  map (cons dot) (drop 1 (snd (splitLeadingDots (name p)))).

(** pathval.go [anchorParts] *)
Definition anchorParts (p : parsedPath) : str * str :=
  if isURI p || negb (bool_decide (flavor p = PathWindows)) then ([], root p)
  else let '(d, r, _) := splitRootWindows (root p) in (d, r).

(** pathval.go [trimTrailingEmptyComps], [trimLeadingEmptyComps] *)
Fixpoint trimLeadingEmptyComps (cs : list str) : list str :=
  match cs with
  | [] :: cs' => trimLeadingEmptyComps cs'
  | _ => cs
  end.

Definition trimTrailingEmptyComps (cs : list str) : list str := rev (trimLeadingEmptyComps (rev cs)).

(** pathval.go [pathJoin] *)
Definition pathJoin (parent child : parsedPath) : parsedPath :=
  if isURI child then child
  else
    let '(pDrive, pRoot) := anchorParts parent in
    let '(cDrive, cRoot) := anchorParts child in
    match cRoot with
    | _ :: _ =>
        let d := match cDrive with [] => pDrive | _ => cDrive end in
        mkPath (d ++ cRoot) (comps child) (flavor parent) false
    | [] =>
        if negb (bool_decide (cDrive = [])) && negb (EqualFold cDrive pDrive) then child
        else
          let pDrive := match cDrive with [] => pDrive | _ => cDrive end in
          let cs := trimTrailingEmptyComps (comps parent) ++ comps child in
          let pRoot :=
            if bool_decide (pRoot = []) && negb (bool_decide (pDrive = [])) && negb (bool_decide (cs = []))
               && negb (match last pDrive with Some c => bool_decide (c ∈ [colon; slash; backslash]) | None => false end)
            then [pathCanonicalSeparator (flavor parent)] else pRoot in
          mkPath (pDrive ++ pRoot) cs (flavor parent) (isURI parent)
    end.

(** pathval.go [windowsIsAbsPrefix], [isAbsolute] *)
Definition windowsIsAbsPrefix (s : str) : bool :=
  let r := (λ c, if c =? 47 then 92 else c) <$> take 3 (runes s) in
  (bool_decide (r !! 1%nat = Some 58) && bool_decide (r !! 2%nat = Some 92))
  || (bool_decide (r !! 0%nat = Some 92) && bool_decide (r !! 1%nat = Some 92)).

Definition isAbsolute (p : parsedPath) : bool :=
  if isURI p then true
  else if bool_decide (flavor p = PathWindows) then windowsIsAbsPrefix (PathString p)
  else negb (bool_decide (root p = [])).

(** ** Values *)

(** value.go [Path], [pathOf] *)
Definition PathValue (text : str) (f : PathFormat) : Value :=
  let p := parsePath text f in VPath (PathString p) (flavor p).

Definition pathOf (v : Value) : res EErr parsedPath :=
  match v with VPath s pf => Ok (parsePath s pf) | _ => Err EPanic end.

(** funcspath.go [boundedPath] *)
Definition boundedPath (text : str) (f : PathFormat) : res EErr Value :=
  let? _ := checkStringBytes (Z.of_nat (length text)) in
  Ok (PathValue text f).

(** funcspath.go [pathFromParts] *)
Definition pathFromParts (ps : list str) (f0 : PathFormat) : parsedPath :=
  let f := resolve f0 in
  match ps with
  | [] => mkPath [] [] f false
  | head :: tail =>
      let probe := parsePath head f in
      match root probe, comps probe with
      | _ :: _, [] => mkPath (root probe) tail f (isURI probe)
      | _, _ => mkPath [] ps f false
      end
  end.

(** funcspath.go [asPosix] *)
Definition asPosix (p : parsedPath) : str :=
  if isURI p then PathString p
  else (λ c, if bool_decide (c = pathCanonicalSeparator (flavor p)) then slash else c) <$> PathString p.

(** funcspath.go [pathSeparators], [isValidReplacementName], [withName] *)
Definition pathSeparators (p : parsedPath) : str :=
  if isURI p then [slash] else pathSeparatorChars (flavor p).

Definition isValidReplacementName (nm : str) (p : parsedPath) : bool :=
  negb (bool_decide (nm = [])) && negb (bool_decide (nm = [dot])) && negb (containsAny nm (pathSeparators p)).

Definition withName (p : parsedPath) (nm : str) : res EErr Value :=
  if bool_decide (name p = []) then Err EEmptyName
  else if negb (isValidReplacementName nm p) then Err EInvalidName
  else
    boundedPath (PathString (mkPath (root p) (removelast (comps p) ++ [nm]) (flavor p) (isURI p))) (flavor p).

(** The loop of [relativeParts]. *)
Fixpoint samePrefix (eq : str → str → bool) (op pp : list str) : option (list str) :=
  match op, pp with
  | [], _ => Some pp
  | _ :: _, [] => None
  | o :: op', x :: pp' => if eq x o then samePrefix eq op' pp' else None
  end.

(** funcspath.go [relativeParts] *)
Definition relativeParts (p other : parsedPath) (eq : str → str → bool) : option (list str) :=
  let pp := parts p in
  let op := trimTrailingEmptyComps (parts other) in
  if bool_decide (root other = []) && negb (bool_decide (root p = [])) then None
  else trimLeadingEmptyComps <$> samePrefix eq op pp.

(** funcspath.go [byteEqual] *)
Definition byteEqual (a b : str) : bool := bool_decide (a = b).

(** ** Path mapping *)

(** pathmapping.go [PathMapSourceFormat], [PathMapRule] *)
Inductive PathMapSourceFormat := PathMapPOSIX | PathMapWindows | PathMapURI.

Record PathMapRule := mkRule {
  SourceFormat : PathMapSourceFormat;
  SourcePath : str;
  DestinationPath : str;
}.

(** pathmapping.go [applyURIRule] *)
Definition applyURIRule (s : str) (r : PathMapRule) : option str :=
  let src := trimRight slash (SourcePath r) in
  if bool_decide (s = src) then Some (DestinationPath r)
  else if has_prefix (src ++ [slash]) s then
    Some (trimRight slash (DestinationPath r) ++ drop (length src) s)
  else None.

(** pathmapping.go [applyFileRule] *)
Definition applyFileRule (s : str) (r : PathMapRule) (dst : PathFormat) : option str :=
  let '(srcFlavor, eq) :=
    match SourceFormat r with PathMapWindows => (PathWindows, EqualFold) | _ => (PathPOSIX, byteEqual) end in
  match relativeParts (parsePath s srcFlavor) (parsePath (SourcePath r) srcFlavor) eq with
  | None => None
  | Some remainder =>
      Some (PathString (pathFromParts (parts (parsePath (DestinationPath r) dst) ++ remainder) dst))
  end.

(** pathmapping.go [applyRule] *)
Definition applyRule (s : str) (r : PathMapRule) (dst : PathFormat) : option str :=
  match SourceFormat r with
  | PathMapURI => applyURIRule s r
  | _ => applyFileRule s r dst
  end.

(** The rules in the order they are tried: the longest source first. *)
Definition orderedRules (rules : list PathMapRule) : list PathMapRule :=
  sort_by (λ a b, Nat.leb (length (SourcePath b)) (length (SourcePath a)))
    (filter (λ r, SourcePath r ≠ []) rules).

Fixpoint firstRule (s : str) (rules : list PathMapRule) (dst : PathFormat) : str :=
  match rules with
  | [] => s
  | r :: rs => match applyRule s r dst with Some mapped => mapped | None => firstRule s rs dst end
  end.

(** pathmapping.go [mapPath] *)
Definition mapPath (s : str) (rules : list PathMapRule) (dst : PathFormat) : str :=
  firstRule s (orderedRules rules) dst.
End Paths.

(** ** Facts on text *)

Section PathFacts.
Context {arch : Platform} {tables : CaseTables}.

(** A component of a parsed POSIX path. *)
Definition goodComp (c : str) : Prop := c ≠ [] ∧ c ≠ [dot] ∧ slash ∉ c.

Lemma splitComponents_posix rest f :
  resolve f = PathPOSIX → Forall goodComp (splitComponents rest f).
Proof.
  intros Hf. unfold splitComponents, pathCanonicalSeparator. rewrite Hf.
  apply Forall_forall. intros c [Hc Hin]%list_elem_of_filter.
  pose proof (split_on_free slash rest) as Hfree. rewrite Forall_forall in Hfree.
  destruct Hc. split_and!; auto.
Qed.

Lemma filter_all (cs : list str) : Forall goodComp cs → filter (λ c, c ≠ [] ∧ c ≠ [dot]) cs = cs.
Proof.
  induction 1 as [|c cs (H1 & H2 & _) _ IH]; [done|]. rewrite filter_cons_True by done. by rewrite IH.
Qed.

(** Joining good components and splitting them again. *)
Lemma splitComponents_join cs f :
  resolve f = PathPOSIX → Forall goodComp cs → splitComponents (join [slash] cs) f = cs.
Proof.
  intros Hf Hc. unfold splitComponents, pathCanonicalSeparator. rewrite Hf.
  destruct cs as [|c cs]; [done|]. rewrite split_on_join; [by apply filter_all|done|].
  eapply Forall_impl; [exact Hc|]. by intros x (_ & _ & ?).
Qed.

Lemma trimLeft_stop c s : match s with d :: _ => d ≠ c | [] => True end → trimLeft c s = s.
Proof. destruct s as [|d s]; [done|]. intros H. cbn. by rewrite bool_decide_false. Qed.

Lemma join_head cs : Forall goodComp cs → match join [slash] cs with d :: _ => d ≠ slash | [] => True end.
Proof.
  intros H. destruct H as [|c cs (H1 & _ & H3) _]; [done|]. destruct c as [|d c]; [done|].
  assert (d ≠ slash) by (intros ->; apply H3; by left). by destruct cs.
Qed.

(** Two slashes in a row. *)
Fixpoint doubleSlash (s : str) : bool :=
  match s with
  | a :: ((b :: _) as s') => (bool_decide (a = slash) && bool_decide (b = slash)) || doubleSlash s'
  | _ => false
  end.

Lemma doubleSlash_cons a s :
  doubleSlash (a :: s) = match s with b :: _ => bool_decide (a = slash) && bool_decide (b = slash) | [] => false end || doubleSlash s.
Proof. by destruct s. Qed.

Lemma doubleSlash_free c s :
  slash ∉ c → doubleSlash (c ++ s) = match c with [] => doubleSlash s | _ => doubleSlash s end.
Proof.
  induction c as [|a c IH]; intros Hc; [done|]. apply not_elem_of_cons in Hc as [Ha Hc].
  cbn [app]. rewrite doubleSlash_cons, IH by done.
  assert (bool_decide (a = slash) = false) as -> by (by apply bool_decide_false).
  destruct (c ++ s) eqn:E; [by destruct c|by destruct c].
Qed.

Lemma join_single_slashes cs : Forall goodComp cs → doubleSlash (join [slash] cs) = false.
Proof.
  induction 1 as [|c cs (Hne & _ & Hc) Hcs IH]; [done|]. destruct cs as [|c' cs].
  - cbn [join]. rewrite <- (app_nil_r c), doubleSlash_free by done. by destruct c.
  - change (join [slash] (c :: c' :: cs)) with (c ++ slash :: join [slash] (c' :: cs)).
    rewrite doubleSlash_free by done.
    assert (doubleSlash (slash :: join [slash] (c' :: cs)) = false) as ->; [|by destruct c].
    rewrite doubleSlash_cons, IH. pose proof (join_head (c' :: cs) Hcs) as Hj.
    destruct (join [slash] (c' :: cs)) as [|d s]; [done|]. by rewrite (bool_decide_false (d = slash)), andb_false_r.
Qed.

Lemma doubleSlash_suffix p s : doubleSlash s = true → doubleSlash (p ++ s) = true.
Proof.
  intros H. induction p as [|a p IH]; [done|]. cbn [app]. rewrite doubleSlash_cons, IH. apply orb_true_r.
Qed.

Lemma schemeBytes_app s w r : schemeBytes s = (w, r) → s = w ++ r.
Proof.
  revert w r. induction s as [|c s IH]; intros w r; cbn [schemeBytes]; [by intros [= <- <-]|].
  destruct (isSchemeByte c); [|by intros [= <- <-]]. destruct (schemeBytes s) as [w' r'].
  intros [= <- <-]. cbn. by rewrite (IH w' r').
Qed.

Lemma has_prefix_app p s : has_prefix p s = true → s = p ++ drop (length p) s.
Proof.
  revert s. induction p as [|a p IH]; intros [|b s]; cbn; try done.
  intros [->%bool_decide_eq_true H]%andb_true_iff. f_equal. by apply IH.
Qed.

(** A URI has two slashes in a row. *)
Lemma splitURI_none s : doubleSlash s = false → splitURI s = None.
Proof.
  intros H. unfold splitURI. destruct s as [|c s]; [done|]. destruct (isSchemeStart c); [|done].
  destruct (schemeBytes s) as [w r] eqn:E. apply schemeBytes_app in E. subst s.
  destruct (has_prefix (of_string "://") r) eqn:Hp; [|done]. exfalso.
  apply has_prefix_app in Hp. rewrite Hp in H.
  rewrite app_comm_cons in H. rewrite (doubleSlash_suffix (c :: w)) in H; [done|].
  by vm_compute (of_string "://").
Qed.

(** A URI is its root, alone or followed by a slash and the rest. *)
Lemma splitURI_text text rt rest :
  splitURI text = Some (rt, rest) → text = rt ∨ (text = rt ++ slash :: rest ∧ (length rt < length text)%nat).
Proof.
  unfold splitURI. destruct text as [|c s]; [done|]. destruct (isSchemeStart c); [|done].
  destruct (schemeBytes s) as [w r] eqn:E. apply schemeBytes_app in E. subst s.
  destruct (has_prefix (of_string "://") r) eqn:Hp; [|done]. apply has_prefix_app in Hp.
  change (drop (length (of_string "://")) r) with (drop 3 r) in Hp.
  destruct (index_byte slash (drop 3 r)) as [rel|] eqn:Hi; intros [= <- <-]; [right|by left].
  assert (Hsplit : drop 3 r = take rel (drop 3 r) ++ slash :: drop (rel + 1) (drop 3 r)).
  { revert Hi. generalize (drop 3 r). clear. intros s. revert rel.
    induction s as [|d s IH]; intros rel; cbn; [done|]. case_bool_decide as Hd.
    - intros [= <-]. by subst d.
    - destruct (index_byte slash s) as [i|]; cbn; [|done]. intros [= <-]. cbn. f_equal. by apply IH. }
  assert (Heq : c :: w ++ r = (c :: w ++ of_string "://" ++ take rel (drop 3 r)) ++ slash :: drop (rel + 1) (drop 3 r)).
  { cbn [app]. f_equal. rewrite <- !app_assoc. f_equal. rewrite Hp at 1. by rewrite Hsplit at 1. }
  split; [exact Heq|]. rewrite Heq, length_app. apply Nat.lt_add_pos_r. apply Nat.lt_0_succ.
Qed.

(** A URI prints as the text it was parsed from. *)
Lemma uri_text text rt rest f :
  splitURI text = Some (rt, rest) → PathString (parsePath text f) = text.
Proof.
  intros H. unfold parsePath. rewrite H. unfold PathString. cbn [isURI comps root].
  destruct (splitURI_text _ _ _ H) as [->|[-> Hlen]].
  - by rewrite Nat.ltb_irrefl.
  - apply Nat.ltb_lt in Hlen. rewrite Hlen.
    destruct (split_on slash rest) as [|c cs] eqn:E; [by destruct (split_on_cons slash rest) as (? & ? & ?); congruence|].
    rewrite <- E, join_split_on. done.
Qed.

(** ** Normal forms *)

(** What [parsePath] yields for a POSIX path that is not a URI. *)
Definition posixForm (p : parsedPath) : Prop :=
  (root p = [] ∨ root p = [slash] ∨ root p = [slash; slash]) ∧
  Forall goodComp (comps p) ∧ flavor p = PathPOSIX ∧ isURI p = false.

Lemma parsePath_posix text f :
  resolve f = PathPOSIX → splitURI text = None → posixForm (parsePath text f).
Proof.
  intros Hf Hu. unfold parsePath. rewrite Hu, Hf.
  assert (Hr : resolve PathPOSIX = PathPOSIX) by done.
  destruct (has_prefix [slash] text); unfold posixForm; cbn [root comps flavor isURI]; split_and!;
    try done; try (by apply splitComponents_posix); [|by left]. case_match; auto.
Qed.

Lemma posixForm_reads p : posixForm p → parsePath (PathString p) PathPOSIX = p.
Proof.
  intros (Hroot & Hc & Hf & Hu). destruct p as [rt cs fl u]. cbn in *. subst fl u.
  assert (Hr : resolve PathPOSIX = PathPOSIX) by done.
  pose proof (join_single_slashes cs Hc) as Hd. pose proof (join_head cs Hc) as Hh.
  unfold PathString. cbn [isURI root comps flavor].
  assert (Hsep : [pathCanonicalSeparator PathPOSIX] = [slash]) by done. rewrite Hsep.
  unfold parsePath. rewrite Hr. destruct Hroot as [->|[->| ->]].
  - destruct cs as [|c cs]; [by vm_compute|].
    rewrite (bool_decide_false (PathPOSIX = PathWindows)) by done. cbn [andb].
    rewrite splitURI_none by done.
    assert (has_prefix [slash] (join [slash] (c :: cs)) = false) as ->.
    { destruct (join [slash] (c :: cs)); cbn; [done|]. rewrite bool_decide_false; [done|congruence]. }
    by rewrite splitComponents_join.
  - cbn [app]. assert (splitURI (slash :: join [slash] cs) = None) as -> by done.
    assert (has_prefix [slash] (slash :: join [slash] cs) = true) as -> by done.
    assert (trimLeft slash (slash :: join [slash] cs) = join [slash] cs) as ->.
    { cbn. rewrite bool_decide_true by done. by apply trimLeft_stop. }
    cbn [length]. rewrite Nat.sub_succ_l, Nat.sub_diag by lia. by rewrite splitComponents_join.
  - cbn [app]. assert (splitURI (slash :: slash :: join [slash] cs) = None) as -> by done.
    assert (has_prefix [slash] (slash :: slash :: join [slash] cs) = true) as -> by done.
    assert (trimLeft slash (slash :: slash :: join [slash] cs) = join [slash] cs) as ->.
    { cbn. rewrite !bool_decide_true by done. by apply trimLeft_stop. }
    cbn [length]. replace (_ - _)%nat with 2%nat by lia. by rewrite splitComponents_join.
Qed.

(** ** Making a path relative and joining it again *)

Lemma trimLeading_id cs : Forall (λ c : str, c ≠ []) cs → trimLeadingEmptyComps cs = cs.
Proof. intros H. destruct H as [|c cs Hc _]; [done|]. by destruct c. Qed.

Lemma trimTrailing_id cs : Forall (λ c : str, c ≠ []) cs → trimTrailingEmptyComps cs = cs.
Proof.
  intros H. unfold trimTrailingEmptyComps. rewrite trimLeading_id, rev_involutive; [done|]. by apply Forall_rev.
Qed.

Lemma good_nonempty cs : Forall goodComp cs → Forall (λ c : str, c ≠ []) cs.
Proof. intros H. eapply Forall_impl; [exact H|]. by intros c (? & _). Qed.

Lemma parts_nonempty p : posixForm p → Forall (λ c : str, c ≠ []) (parts p).
Proof.
  intros (Hr & Hc & _). unfold parts. apply good_nonempty in Hc.
  destruct Hr as [->|[->| ->]]; [done|by constructor|by constructor].
Qed.

Lemma samePrefix_spec op pp r : samePrefix byteEqual op pp = Some r → pp = op ++ r.
Proof.
  revert pp. induction op as [|o op IH]; intros [|x pp]; cbn; try (by intros [= ->]).
  unfold byteEqual. case_bool_decide as Hx; [|done]. intros Hr%IH. by subst.
Qed.

Lemma pathFromParts_good r : Forall goodComp r → pathFromParts r PathPOSIX = mkPath [] r PathPOSIX false.
Proof.
  intros H. unfold pathFromParts. destruct H as [|c r (H1 & H2 & H3) _]; [done|].
  assert (Hu : splitURI c = None).
  { apply splitURI_none. rewrite <- (app_nil_r c), doubleSlash_free by done. by destruct c. }
  assert (Hp : root (parsePath c PathPOSIX) = []).
  { unfold parsePath. cbn [resolve]. rewrite Hu. destruct c as [|d c]; [done|].
    assert (has_prefix [slash] (d :: c) = false) as ->; [|done].
    cbn. rewrite bool_decide_false; [done|]. intros <-. apply H3. by left. }
  cbn [resolve]. by rewrite Hp.
Qed.

Lemma relative_suffix p o r :
  posixForm p → posixForm o → relativeParts p o byteEqual = Some r →
  root p = root o ∧ comps p = comps o ++ r.
Proof.
  intros Hp Ho H. unfold relativeParts in H. rewrite trimTrailing_id in H by (by apply parts_nonempty).
  destruct (bool_decide (root o = []) && negb (bool_decide (root p = []))) eqn:Hroots; [done|].
  destruct (samePrefix byteEqual (parts o) (parts p)) as [rem|] eqn:E; [|done]. cbn in H. injection H as <-.
  apply samePrefix_spec in E.
  assert (Hrem : Forall (λ c : str, c ≠ []) rem).
  { pose proof (parts_nonempty p Hp) as Hn. rewrite E in Hn. by apply Forall_app in Hn as [_ ?]. }
  rewrite trimLeading_id by done. destruct Hp as (Hrp & Hcp & _). destruct Ho as (Hro & Hco & _).
  unfold parts in E. destruct (root o) as [|a o'] eqn:Eo.
  - destruct (root p); [done|by rewrite bool_decide_true in Hroots].
  - destruct (root p) as [|b p'] eqn:Ep.
    + exfalso. rewrite E in Hcp. inversion_clear Hcp as [|?? (_ & _ & Hs) _]. apply Hs.
      destruct Hro as [?|[->| ->]]; [done|by left|by left].
    + by injection E as -> -> ->.
Qed.

(** ** Choosing a mapping rule *)

Definition longerFirst (a b : PathMapRule) : bool := Nat.leb (length (SourcePath b)) (length (SourcePath a)).

Lemma orderedRules_sorted rules : StronglySorted (λ a b, longerFirst a b = true) (orderedRules rules).
Proof. apply (sort_by_sorted longerFirst); unfold longerFirst; intros; rewrite ?Nat.leb_le in *; lia. Qed.

Lemma elem_of_orderedRules r rules : r ∈ orderedRules rules ↔ SourcePath r ≠ [] ∧ r ∈ rules.
Proof. unfold orderedRules. by rewrite sort_by_perm, list_elem_of_filter. Qed.

(** The first rule of a list that applies, if any does. *)
Lemma firstRule_cases s rules dst :
  (∃ pre r post, rules = pre ++ r :: post ∧ applyRule s r dst = Some (firstRule s rules dst) ∧
     Forall (λ r', applyRule s r' dst = None) pre) ∨
  (Forall (λ r, applyRule s r dst = None) rules ∧ firstRule s rules dst = s).
Proof.
  induction rules as [|r rules IH]; cbn [firstRule]; [by right|].
  destruct (applyRule s r dst) as [m|] eqn:E.
  - left. exists [], r, rules. split_and!; [done|by rewrite E|constructor].
  - destruct IH as [(pre & r' & post & Heq & Ha & Hpre)|[Hall Hs]].
    + left. exists (r :: pre), r', post. rewrite Heq at 1. split_and!; [done|done|by constructor].
    + right. split; [by constructor|done].
Qed.

(** ** Properties *)

(** Path mapping uses a rule with the longest source path among those that
    apply, and leaves a path alone when no rule does. *)
Theorem mapPath_longest s rules dst :
  (∃ r, r ∈ rules ∧ SourcePath r ≠ [] ∧ applyRule s r dst = Some (mapPath s rules dst) ∧
     ∀ r', r' ∈ rules → SourcePath r' ≠ [] → applyRule s r' dst ≠ None →
       (length (SourcePath r') ≤ length (SourcePath r))%nat) ∨
  ((∀ r, r ∈ rules → SourcePath r ≠ [] → applyRule s r dst = None) ∧ mapPath s rules dst = s).
Proof.
  unfold mapPath. destruct (firstRule_cases s (orderedRules rules) dst)
    as [(pre & r & post & Heq & Ha & Hpre)|[Hall Hs]].
  - left. exists r. assert (Hin : r ∈ orderedRules rules) by (rewrite Heq; set_solver).
    apply elem_of_orderedRules in Hin as [Hne Hin]. split_and!; try done.
    intros r' Hr' Hne' Happ.
    assert (Hin' : r' ∈ pre ++ r :: post) by (rewrite <- Heq; by apply elem_of_orderedRules).
    pose proof (orderedRules_sorted rules) as Hsort. rewrite Heq in Hsort.
    rewrite Forall_forall in Hpre. apply elem_of_app in Hin' as [Hpre'|Hin']; [by destruct Happ; apply Hpre|].
    clear Heq Hpre. induction pre as [|x pre IH]; [|inversion Hsort; auto].
    apply elem_of_cons in Hin' as [->|Hpost]; [done|]. inversion_clear Hsort as [|?? _ Hf].
    rewrite Forall_forall in Hf. specialize (Hf r' Hpost). by apply Nat.leb_le in Hf.
  - right. split; [|done]. intros r Hr Hne. rewrite Forall_forall in Hall. apply Hall.
    by apply elem_of_orderedRules.
Qed.

(** The text of a path is a normal form: parsing what a parsed POSIX path
    prints gives the parsed path again, and a URI prints as the text it was
    parsed from. *)
Theorem path_text_normal text f :
  resolve f = PathPOSIX →
  parsePath (PathString (parsePath text f)) f = parsePath text f ∧
  (splitURI text ≠ None → PathString (parsePath text f) = text).
Proof.
  intros Hf. destruct (splitURI text) as [[rt rest]|] eqn:E.
  - rewrite (uri_text text rt rest f E). done.
  - split; [|done]. pose proof (posixForm_reads _ (parsePath_posix text f Hf E)) as H.
    assert (∀ t, parsePath t f = parsePath t PathPOSIX) as Hsame.
    { intros t. unfold parsePath. by rewrite Hf. }
    rewrite Hsame. exact H.
Qed.

(** [relative_to] and the path operator [/] are inverse: when a POSIX path is
    relative to another, joining the other with the remaining components is the
    path itself. *)
Theorem relative_then_join text base r :
  splitURI text = None → splitURI base = None →
  relativeParts (parsePath text PathPOSIX) (parsePath base PathPOSIX) byteEqual = Some r →
  pathJoin (parsePath base PathPOSIX) (pathFromParts r PathPOSIX) = parsePath text PathPOSIX.
Proof.
  intros Hu Hb H. pose proof (parsePath_posix text PathPOSIX eq_refl Hu) as Hp.
  pose proof (parsePath_posix base PathPOSIX eq_refl Hb) as Ho.
  destruct (relative_suffix _ _ _ Hp Ho H) as [Hroot Hcomps].
  destruct (parsePath text PathPOSIX) as [rp cp fp up]. destruct (parsePath base PathPOSIX) as [ro co fo uo].
  destruct Hp as (_ & Hcp & Hfp & Hup). destruct Ho as (_ & Hco & Hfo & Huo). cbn in *. subst.
  rewrite pathFromParts_good by (by apply Forall_app in Hcp as [_ ?]).
  unfold pathJoin, anchorParts. cbn [isURI flavor root comps orb].
  rewrite (bool_decide_false (PathPOSIX = PathWindows)) by done. cbn [negb].
  rewrite !(bool_decide_true (@eq str [] [])) by done. cbn [negb andb].
  rewrite trimTrailing_id by (by apply good_nonempty). by rewrite andb_false_r.
Qed.
End PathFacts.

#[local] Existing Instance samplePlatform.
#[local] Existing Instance asciiTables.

Lemma path_text_normal_witness :
  PathString (parsePath (of_string "//srv/./a//b/") PathPOSIX) = of_string "//srv/a/b" ∧
  parsePath (of_string "//srv/a/b") PathPOSIX
  = parsePath (of_string "//srv/./a//b/") PathPOSIX.
Proof.
  split; [vm_compute; reflexivity|].
  exact (proj1 (path_text_normal (of_string "//srv/./a//b/") PathPOSIX eq_refl)).
Defined.

Lemma relative_then_join_witness :
  pathJoin
    (parsePath (of_string "/proj/shots") PathPOSIX)
    (pathFromParts [of_string "sh010"; of_string "comp.nk"] PathPOSIX)
  = parsePath (of_string "/proj/shots/sh010/comp.nk") PathPOSIX.
Proof.
  apply (relative_then_join
    (of_string "/proj/shots/sh010/comp.nk") (of_string "/proj/shots") [of_string "sh010"; of_string "comp.nk"]);
    vm_compute; reflexivity.
Defined.
