(* ===== verification/ExprText.v ===== *)
(** * Text functions of the expression language

    src/internal/openjd/expr: searching and replacing (funcsstrfind.go), splitting
    and joining (funcsstrsplit.go), padding (funcsstrpad.go), letter case
    (funcsstrcase.go), frame numbers (pathnumber.go), and quoting for shells and
    for data (funcsreprshell.go, funcsreprdata.go), with the functions of Go's
    [strings] and [unicode/utf8] they call.

    Splitting is inverse to joining, and quoting for a POSIX shell is read back by
    a shell as the words that were quoted.  The tables of [unicode] and the case
    mapping of golang.org/x/text are parameters. *)

From S2P Require Import Prelude StatusText GoText ExprType ExprFloat ExprValue ExprPath.
Open Scope Z_scope.

(** Tables of [unicode], and [cases.Upper] and [cases.Lower] of x/text. *)
Class TextTables := mkTextTables {
  IsLetter : Z → bool;
  IsUpper : Z → bool;
  IsLower : Z → bool;
  IsTitle : Z → bool;
  IsPrint : Z → bool;
  upperString : str → str;
  lowerString : str → str;
}.

(** ** Go's [strings] *)

(** [strings.Index], [strings.LastIndex] *)
Fixpoint Index_ (s sub : str) : option nat :=
  if has_prefix sub s then Some 0%nat
  else match s with [] => None | _ :: s' => S <$> Index_ s' sub end.

Fixpoint LastIndex (s sub : str) : option nat :=
  match s with
  | [] => if has_prefix sub s then Some 0%nat else None
  | _ :: s' =>
      match LastIndex s' sub with
      | Some i => Some (S i)
      | None => if has_prefix sub s then Some 0%nat else None
      end
  end.

(** [strings.SplitN(s, sep, n + 1)] with a separator *)
Fixpoint SplitN (n : nat) (s sep : str) : list str :=
  match n with
  | O => [s]
  | S n' =>
      match Index_ s sep with
      | None => [s]
      | Some m => take m s :: SplitN n' (drop (m + length sep) s) sep
      end
  end.

(** The loop of [strings.Count]: each round takes a byte, so that the length is
    fuel enough. *)
Fixpoint countFuel (fuel : nat) (s sub : str) : Z :=
  match fuel with
  | O => 0
  | S f =>
      match Index_ s sub with
      | None => 0
      | Some m => 1 + countFuel f (drop (m + length sub) s) sub
      end
  end.

Definition Count_ (s sub : str) : Z := countFuel (length s) s sub.

(** [strings.ReplaceAll(s, old, new)] with a text to replace *)
Definition ReplaceAll (s old new : str) : str := join new (SplitN (length s) s old).

(** [strings.TrimPrefix], [strings.TrimSuffix] *)
Definition TrimPrefix (s p : str) : str := if has_prefix p s then drop (length p) s else s.
Definition TrimSuffix (s p : str) : str := if hasSuffix p s then take (length s - length p) s else s.

(** [utf8.DecodeLastRune] *)
Definition RuneStart (c : ascii) : bool := negb (cont (byte_val c)).

Fixpoint lastStart (k : nat) (rs : str) : option nat :=
  match k, rs with
  | O, _ | _, [] => None
  | S k', c :: rs' => if RuneStart c then Some 1%nat else S <$> lastStart k' rs'
  end.

Definition DecodeLastRune (s : str) : Z * nat :=
  match rev s with
  | [] => (RuneError, 0%nat)
  | c :: _ =>
      if byte_val c <? 128 then (byte_val c, 1%nat)
      else
        match lastStart 4 (rev s) with
        | None => (RuneError, 1%nat)
        | Some k =>
            let '(r, size) := DecodeRune (drop (length s - k) s) in
            if Nat.eqb size k then (r, size) else (RuneError, 1%nat)
        end
  end.

(** [strings.TrimLeftFunc], [strings.TrimRightFunc]; a rune has a byte, so that the
    length is fuel enough. *)
Fixpoint trimLeftFuel (f : Z → bool) (fuel : nat) (s : str) : str :=
  match fuel, s with
  | O, _ | _, [] => s
  | S n, _ => let '(r, size) := DecodeRune s in if f r then trimLeftFuel f n (drop size s) else s
  end.

Fixpoint trimRightFuel (f : Z → bool) (fuel : nat) (s : str) : str :=
  match fuel, s with
  | O, _ | _, [] => s
  | S n, _ =>
      let '(r, size) := DecodeLastRune s in
      if f r then trimRightFuel f n (take (length s - size) s) else s
  end.

Definition TrimLeftFunc (s : str) (f : Z → bool) : str := trimLeftFuel f (length s) s.
Definition TrimRightFunc (s : str) (f : Z → bool) : str := trimRightFuel f (length s) s.

(** [strings.TrimLeft], [strings.TrimRight], [strings.Trim] of a set of runes *)
Definition inCutset (cutset : str) (r : Z) : bool := bool_decide (r ∈ runes cutset).
Definition TrimLeftSet (s cutset : str) : str := TrimLeftFunc s (inCutset cutset).
Definition TrimRightSet (s cutset : str) : str := TrimRightFunc s (inCutset cutset).
Definition TrimSet (s cutset : str) : str := TrimLeftSet (TrimRightSet s cutset) cutset.

(** [strings.Fields]: [cur] is the field being read. *)
Fixpoint fieldsFuel (fuel : nat) (s cur : str) : list str :=
  let flush := match cur with [] => [] | _ => [cur] end in
  match fuel, s with
  | O, _ | _, [] => flush
  | S n, _ =>
      let '(r, size) := DecodeRune s in
      if IsSpace r then flush ++ fieldsFuel n (drop size s) []
      else fieldsFuel n (drop size s) (cur ++ take size s)
  end.

Definition Fields (s : str) : list str := fieldsFuel (length s) s [].

(** Lower-case hexadecimal digits, at least [width] of them. *)
Fixpoint hexDigits (width : nat) (r : Z) : str :=
  match width with
  | O => []
  | S w => hexDigits w (r / 16) ++ [hexDigit (r mod 16)]
  end.

(** ** Searching and replacing *)

(** funcsstrfind.go [runeIndexOf], [foundIndex], [replaceAll] *)
Definition runeIndexOf (s sub : str) (last : bool) : res EErr Z :=
  if bool_decide (sub = []) then Err EEmptySubstring
  else
    match (if last then LastIndex s sub else Index_ s sub) with
    | None => Ok (-1)
    | Some at_ => Ok (wrap64 (Z.of_nat (length (runes (take at_ s)))))
    end.

Definition foundIndex (s sub : str) (last : bool) : res EErr Value :=
  let? i := runeIndexOf s sub last in
  if i <? 0 then Err ENotFound else Ok (VInt i).

Definition replaceAll (s old repl : str) : res EErr Value :=
  if bool_decide (old = []) then Err EEmptySubstring
  else
    let grow := Z.of_nat (length repl) - Z.of_nat (length old) in
    let? _ :=
      if 0 <? grow then
        let? added := checkRepeat grow (Count_ s old) maxStringBytes in
        checkStringBytes (Z.of_nat (length s) + added)
      else Ok tt in
    Ok (VString (ReplaceAll s old repl)).

(** ** Splitting and joining *)

(** funcsstrsplit.go [stringList] *)
Definition stringList (parts : list str) : res EErr Value :=
  let? _ := checkElementCount (Z.of_nat (length parts)) in
  Ok (ListValue TString (map VString parts)).

(** The loop of [splitSep] from the right. *)
Fixpoint rsplitLoop (n : nat) (s sep : str) (parts : list str) : list str :=
  match n with
  | O => s :: parts
  | S n' =>
      match LastIndex s sep with
      | None => s :: parts
      | Some at_ => rsplitLoop n' (take at_ s) sep (drop (at_ + length sep) s :: parts)
      end
  end.

(** The pieces [splitSep] makes. *)
Definition splitPieces (s sep : str) (maxsplit : Z) (fromRight : bool) : list str :=
  let total := Count_ s sep in
  let n := Z.to_nat (if (maxsplit <? 0) || (total <? maxsplit) then total else maxsplit) in
  if fromRight then rsplitLoop n s sep [] else SplitN n s sep.

(** funcsstrsplit.go [splitSep] *)
Definition splitSep (s sep : str) (maxsplit : Z) (fromRight : bool) : res EErr Value :=
  if bool_decide (sep = []) then Err EEmptySeparator
  else stringList (splitPieces s sep maxsplit fromRight).

(** The loop of [joinValues]: the texts, within the limit. *)
Fixpoint joinTexts (text : Value → res EErr str) (total : Z) (vals : list Value) : res EErr (list str) :=
  match vals with
  | [] => Ok []
  | v :: vals' =>
      let? p := text v in
      let total := total + Z.of_nat (length p) in
      let? _ := checkStringBytes total in
      let? ps := joinTexts text total vals' in
      Ok (p :: ps)
  end.

(** funcsstrsplit.go [joinValues] *)
Definition joinValues (vals : list Value) (sep : str) (text : Value → res EErr str) : res EErr Value :=
  match vals with
  | [] => Ok (VString [])
  | _ =>
      let? total := checkRepeat (Z.of_nat (length sep)) (Z.of_nat (length vals) - 1) maxStringBytes in
      let? parts := joinTexts text total vals in
      Ok (VString (join sep parts))
  end.

(** ** Padding *)

(** funcsstrpad.go [padSide] *)
Inductive padSide := padRight | padLeft | padCenter.

(** funcsstrpad.go [padWidth], without the reservation: how much is missing, if
    anything. *)
Definition padLength (s : str) (width : Z) : res EErr (option Z) :=
  let cur := Z.of_nat (length (runes s)) in
  if width <=? cur then Ok None
  else
    let n := width - cur in
    let? _ := checkRepeat 1 n (maxStringBytes - Z.of_nat (length s)) in
    Ok (Some n).

Definition padWidth (s : str) (width : Z) : M (option Z) :=
  let* n := lift (padLength s width) in
  match n with
  | None => ret None
  | Some n =>
      let* _ := reserveBytes (Z.of_nat (length s) + n) in
      ret (Some n)
  end.

Definition spaces (n : Z) : str := replicate (Z.to_nat n) " "%char.

(** funcsstrpad.go [padString] *)
Definition padString (s : str) (width : Z) (side : padSide) : M Value :=
  let* n := padWidth s width in
  match n with
  | None => ret (VString s)
  | Some n =>
      match side with
      | padLeft => ret (VString (spaces n ++ s))
      | padCenter =>
          let left_ := Z.quot n 2 + Z.land (Z.land n width) 1 in
          ret (VString (spaces left_ ++ s ++ spaces (n - left_)))
      | padRight => ret (VString (s ++ spaces n))
      end
  end.

(** Zeros after the sign. *)
Definition zfillText (s : str) (n : Z) : str :=
  match s with
  | c :: body =>
      if bool_decide (c = "+"%char) || bool_decide (c = "-"%char) then c :: zeros n ++ body else zeros n ++ s
  | [] => zeros n
  end.

(** funcsstrpad.go [zfillString], and the call of it outside any evaluation *)
Definition zfillString (s : str) (width : Z) : M Value :=
  let* n := padWidth s width in
  ret (VString match n with None => s | Some n => zfillText s n end).

Definition zfillUnmetered (s : str) (width : Z) : res EErr str :=
  let? n := padLength s width in
  Ok match n with None => s | Some n => zfillText s n end.

(** ** Frame numbers *)

(** pathnumber.go [maxNumberPadding] *)
Definition maxNumberPadding : Z := 32.

Fixpoint leading (f : ascii → bool) (s : str) : nat :=
  match s with c :: s' => if f c then S (leading f s') else 0%nat | [] => 0%nat end.

Definition is_hash (c : ascii) : bool := bool_decide (c = "#"%char).

(** The length of a match of pathnumber.go [numberPattern] at the start of a text:
    a percent sign, a zero with digits if any, and a [d]; hashes; or digits. *)
Definition matchNumber (s : str) : option nat :=
  match s with
  | [] => None
  | c :: s' =>
      if bool_decide (c = "%"%char) then
        match s' with
        | d :: rest =>
            if bool_decide (d = "d"%char) then Some 2%nat
            else
              let k := leading is_digit rest in
              if bool_decide (d = "0"%char) && (0 <? k)%nat && bool_decide (rest !! k = Some "d"%char) then Some (3 + k)%nat
              else None
        | [] => None
        end
      else if is_hash c then Some (leading is_hash s)
      else if is_digit c then Some (leading is_digit s)
      else None
  end.

(** pathnumber.go [lastNumberMatch]: start and end of the last match, from offset
    [off] on; [fuel] bytes are left. *)
Fixpoint lastNumberFrom (fuel : nat) (off : nat) (s : str) (found : option (nat * nat)) : option (nat * nat) :=
  match fuel, s with
  | O, _ | _, [] => found
  | S n, _ :: s' =>
      match matchNumber s with
      | Some k => lastNumberFrom n (off + k) (drop k s) (Some (off, (off + k)%nat))
      | None => lastNumberFrom n (S off) s' found
      end
  end.

Definition lastNumberMatch (stem : str) : option (nat * nat) := lastNumberFrom (length stem) 0 stem None.

(** pathnumber.go [paddedNumber], [printfReplacement], [numberReplacement],
    [withNumber] *)
Definition paddedNumber (n width : Z) : res EErr str := zfillUnmetered (Itoa n) width.

Definition printfReplacement (candidate : str) (n : Z) : res EErr str :=
  match take (length candidate - 2) (drop 1 candidate) with
  | [] => Ok (Itoa n)
  | ds =>
      match Atoi ds with
      | None => Err EPadding
      | Some width => if maxNumberPadding <? width then Err EPadding else paddedNumber n width
      end
  end.

Definition numberReplacement (candidate : str) (n : Z) : res EErr str :=
  match candidate with
  | [] => Err EIndexPanic
  | c :: _ =>
      let width := Z.of_nat (length candidate) in
      if bool_decide (c = "%"%char) then printfReplacement candidate n
      else if is_hash c then if maxNumberPadding <? width then Err EPadding else paddedNumber n width
      else paddedNumber n width
  end.

Definition withNumber (nm : str) (n : Z) : res EErr str :=
  let '(stem, suffix) := splitStemSuffix nm in
  match lastNumberMatch stem with
  | None =>
      let? padded := paddedNumber n 4 in
      Ok (stem ++ of_string "_" ++ padded ++ suffix)
  | Some (a, b) =>
      let? r := numberReplacement (take (b - a) (drop a stem)) n in
      Ok (take a stem ++ r ++ drop b stem ++ suffix)
  end.

(** ** Letter case *)

Section Case.
Context {text : TextTables}.

(** funcsstrcase.go [isAlnumRune], [allRunes], [allCased] *)
Definition isAlnumRune (r : Z) : bool := IsLetter r || between 48 57 r.

Definition allRunes (s : str) (pred : Z → bool) : bool :=
  negb (bool_decide (s = [])) && forallb pred (runes s).

Definition isCased (r : Z) : bool := IsUpper r || IsLower r || IsTitle r.

Definition allCased (s : str) (pred : Z → bool) : bool :=
  let cased := filter (λ r, isCased r = true) (runes s) in
  negb (bool_decide (cased = [])) && forallb pred cased.

(** funcsstrcase.go [capitalizeString], [titleString] *)
Definition capitalizeString (s : str) : str :=
  match s with
  | [] => []
  | _ => let '(_, size) := DecodeRune s in upperString (take size s) ++ lowerString (drop size s)
  end.

Fixpoint titleRunes (inWord : bool) (rs : list Z) : str :=
  match rs with
  | [] => []
  | r :: rs' =>
      if negb (isAlnumRune r) then EncodeRune r ++ titleRunes false rs'
      else if negb inWord then upperString (EncodeRune r) ++ titleRunes true rs'
      else lowerString (EncodeRune r) ++ titleRunes true rs'
  end.

Definition titleString (s : str) : str := titleRunes false (runes s).

(** funcsstrcase.go [caseMapWorstCaseExpansion], [checkCaseInputBytes],
    [boundedString] *)
Definition caseMapWorstCaseExpansion : Z := 3.

Definition checkCaseInputBytes (n : Z) : res EErr unit :=
  if (n <? 0) || (Z.quot maxStringBytes caseMapWorstCaseExpansion <? n) then Err ETooLarge else Ok tt.

Definition boundedString (s : str) : res EErr Value :=
  let? _ := checkStringBytes (Z.of_nat (length s)) in
  Ok (VString s).

(** ** Quoting for shells *)

(** funcsreprshell.go [shellUnsafe], [shellQuote] *)
Definition shellUnsafe (r : Z) : bool :=
  negb (between 97 122 r || between 65 90 r || between 48 57 r
        || existsb (λ c, byte_val c =? r) (of_string "_@%+=:,./-")).

Definition shellQuote (s : str) : str :=
  if bool_decide (s = []) then of_string "''"
  else if negb (existsb shellUnsafe (runes s)) then s
  else of_string "'" ++ ReplaceAll s (of_string "'") ("'"%char :: byte_chr 34 :: "'"%char :: byte_chr 34 :: ["'"%char]) ++ of_string "'".

(** funcsreprshell.go [cmdQuote] *)
Definition cmdSpecial : str :=
  of_string "&|<>^()%! " ++ [byte_chr 34; byte_chr 9].

Definition cmdEscape (c : ascii) : str :=
  if bool_decide (c = "^"%char) then of_string "^^"
  else if bool_decide (c = byte_chr 34) then ["^"%char; byte_chr 34]
  else if bool_decide (c = "%"%char) then of_string "%%"
  else if bool_decide (c = "!"%char) then of_string "^^!"
  else [c].

Definition isNewline (c : ascii) : bool := (byte_val c =? 10) || (byte_val c =? 13).

Definition cmdQuote (s : str) : str :=
  let s := filter (λ c, isNewline c = false) s in
  if negb (bool_decide (s = [])) && negb (containsAny s cmdSpecial) then s
  else byte_chr 34 :: concat (map cmdEscape s) ++ [byte_chr 34].

(** funcsreprshell.go [pwshQuote], [pwshUnaryComma], [pwshElement] *)
Definition pwshQuote (s : str) : str :=
  of_string "'" ++ ReplaceAll s (of_string "'") (of_string "''") ++ of_string "'".

Definition pwshUnaryComma (elems : list Value) : str :=
  match elems with [VList _ _] => of_string "," | _ => [] end.

Fixpoint pwshElement (v : Value) : str :=
  match v with
  | VBool b => of_string (if b then "$true" else "$false")
  | VInt _ | VFloat _ _ => ValueString v
  | VNull => of_string "$null"
  | VList _ l =>
      of_string "@(" ++ pwshUnaryComma l ++ join (of_string ", ") (map pwshElement l) ++ of_string ")"
  | _ => pwshQuote (ValueString v)
  end.

(** ** Quoting for data *)

(** funcsreprdata.go [pyQuote] *)
Definition pyRune (quote r : Z) : str :=
  let esc (c : Z) : str := [byte_chr 92; byte_chr c] in
  if r =? quote then byte_chr 92 :: EncodeRune r
  else if r =? 92 then esc 92
  else if r =? 10 then esc 110
  else if r =? 13 then esc 114
  else if r =? 9 then esc 116
  else if negb (IsPrint r) && (r <? 256) then esc 120 ++ hexDigits 2 r
  else if negb (IsPrint r) && (r <=? 65535) then esc 117 ++ hexDigits 4 r
  else if negb (IsPrint r) then esc 85 ++ hexDigits 8 r
  else EncodeRune r.

Definition pyQuote (s : str) : str :=
  let quote := if contains s (of_string "'") && negb (contains s [byte_chr 34]) then 34 else 39 in
  byte_chr quote :: concat (map (pyRune quote) (runes s)) ++ [byte_chr quote].

(** funcsreprdata.go [pyRepr] *)
Fixpoint pyRepr (v : Value) : str :=
  match v with
  | VNull => of_string "None"
  | VBool b => of_string (if b then "True" else "False")
  | VList _ l => of_string "[" ++ join (of_string ", ") (map pyRepr l) ++ of_string "]"
  | VString s | VPath s _ | VRange s => pyQuote s
  | _ => ValueString v
  end.

(** funcsreprdata.go [jsonQuote] *)
Definition jsonUnit (r : Z) : str := byte_chr 92 :: "u"%char :: hexDigits 4 r.

Definition jsonQuoteRune (r : Z) : str :=
  let esc (c : Z) : str := [byte_chr 92; byte_chr c] in
  if r =? 34 then esc 34
  else if r =? 92 then esc 92
  else if r =? 8 then esc 98
  else if r =? 12 then esc 102
  else if r =? 10 then esc 110
  else if r =? 13 then esc 114
  else if r =? 9 then esc 116
  else if (r <? 32) || (r =? 127) then jsonUnit r
  else if r <? 128 then EncodeRune r
  else if 65535 <? r then
    let r := r - 65536 in
    jsonUnit (55296 + Z.shiftr r 10) ++ jsonUnit (56320 + Z.land r 1023)
  else jsonUnit r.

Definition jsonQuote (s : str) : str :=
  byte_chr 34 :: concat (map jsonQuoteRune (runes s)) ++ [byte_chr 34].

(** funcsreprdata.go [jsonRepr] *)
Fixpoint jsonRepr (v : Value) : str :=
  match v with
  | VNull => of_string "null"
  | VBool b => of_string (if b then "true" else "false")
  | VList _ l => of_string "[" ++ join (of_string ", ") (map jsonRepr l) ++ of_string "]"
  | VString s | VPath s _ | VRange s => jsonQuote s
  | _ => ValueString v
  end.
End Case.
