(* ===== verification/ExprQuote.v ===== *)
(** * Splitting, joining and quoting

    The text functions of ExprText against reference readers:
    - a text split at a separator, from either side and any number of times, joins
      back to itself;
    - what [repr_sh] quotes, a POSIX shell reads as the words it was given;
    - what [repr_json] quotes, a JSON reader reads as the runes it was given;
    - what [repr_pwsh] quotes, PowerShell reads back when the text has none of the
      typographic quotes that PowerShell takes for a quote, and not otherwise. *)

From S2P Require Import Prelude StatusText GoText ExprType ExprFloat ExprValue ExprPath ExprText.
Open Scope Z_scope.

#[local] Ltac Zify.zify_post_hook ::= Z.to_euclidean_division_equations.

(** ** Substrings *)

Lemma has_prefix_spec p s : has_prefix p s = true ↔ ∃ t, s = p ++ t.
Proof.
  revert s. induction p as [|a p IH]; intros s; cbn [has_prefix].
  - split; [eauto|done].
  - destruct s as [|b s]; [split; [done|by intros (t & ?)]|].
    rewrite andb_true_iff, bool_decide_eq_true, IH. split.
    + intros [-> (t & ->)]. by exists t.
    + intros (t & [= -> ->]). eauto.
Qed.

Lemma Index_split s sub m : Index_ s sub = Some m → s = take m s ++ sub ++ drop (m + length sub) s.
Proof.
  revert m. induction s as [|c s IH]; intros m; cbn [Index_]; destruct (has_prefix sub _) eqn:E.
  1,3: intros [= <-]; apply has_prefix_spec in E as (t & ->); cbn [take Nat.add app]; by rewrite drop_app_length.
  - done.
  - destruct (Index_ s sub) as [k|] eqn:Ek; [|done]. intros [= <-]. cbn. f_equal. by apply IH.
Qed.

Lemma LastIndex_split s sub m : LastIndex s sub = Some m → s = take m s ++ sub ++ drop (m + length sub) s.
Proof.
  assert (H0 : ∀ s, has_prefix sub s = true → s = take 0 s ++ sub ++ drop (0 + length sub) s).
  { intros t E. apply has_prefix_spec in E as (u & ->). cbn [take Nat.add app]. by rewrite drop_app_length. }
  revert m. induction s as [|c s IH]; intros m; cbn [LastIndex].
  - destruct (has_prefix sub []) eqn:E; [|done]. intros [= <-]. by apply H0.
  - destruct (LastIndex s sub) as [k|] eqn:Ek.
    + intros [= <-]. cbn. f_equal. by apply IH.
    + destruct (has_prefix sub (c :: s)) eqn:E; [|done]. intros [= <-]. by apply H0.
Qed.

(** ** Splitting and joining *)

Lemma join_words {A} (sep p : list A) ps : ps ≠ [] → join sep (p :: ps) = p ++ sep ++ join sep ps.
Proof. by destruct ps. Qed.

Lemma SplitN_nonempty n s sep : SplitN n s sep ≠ [].
Proof. destruct n; cbn [SplitN]; [done|]. by destruct (Index_ s sep). Qed.

Lemma SplitN_join n s sep : join sep (SplitN n s sep) = s.
Proof.
  revert s. induction n as [|n IH]; intros s; cbn [SplitN]; [done|].
  destruct (Index_ s sep) as [m|] eqn:E; [|done]. rewrite join_words by apply SplitN_nonempty.
  rewrite IH. symmetry. by apply Index_split.
Qed.

Lemma rsplitLoop_join n s sep parts :
  join sep (rsplitLoop n s sep parts) = match parts with [] => s | _ => s ++ sep ++ join sep parts end.
Proof.
  revert s parts. induction n as [|n IH]; intros s parts; cbn [rsplitLoop]; [by destruct parts|].
  destruct (LastIndex s sep) as [m|] eqn:E; [|by destruct parts]. rewrite IH. apply LastIndex_split in E.
  destruct parts as [|p ps]; [by symmetry|]. rewrite join_words by done.
  rewrite E at 3. by rewrite <-!app_assoc.
Qed.

Lemma splitPieces_join s sep k r : join sep (splitPieces s sep k r) = s.
Proof. unfold splitPieces. destruct r; [by rewrite rsplitLoop_join|apply SplitN_join]. Qed.

Lemma SplitN_length n s sep : (length (SplitN n s sep) ≤ S n)%nat.
Proof.
  revert s. induction n as [|n IH]; intros s; cbn [SplitN length]; [lia|].
  destruct (Index_ s sep); cbn [length]; [|lia]. specialize (IH (drop (n0 + length sep) s)). lia.
Qed.

Lemma rsplitLoop_length n s sep parts : (length (rsplitLoop n s sep parts) ≤ S n + length parts)%nat.
Proof.
  revert s parts. induction n as [|n IH]; intros s parts; cbn [rsplitLoop length]; [lia|].
  destruct (LastIndex s sep) as [m|]; cbn [length]; [|lia].
  specialize (IH (take m s) (drop (m + length sep) s :: parts)). cbn [length] in IH. lia.
Qed.

Lemma joinTexts_strings total parts qs :
  joinTexts AsStr total (map VString parts) = Ok qs → qs = parts.
Proof.
  revert total qs. induction parts as [|p parts IH]; intros total qs; cbn [map joinTexts].
  - by intros [= <-].
  - cbn [AsStr res_bind]. intros H. apply res_bind_ok in H as (u & _ & H). apply res_bind_ok in H as (ps & Hps & H).
    injection H as <-. f_equal. by eapply IH.
Qed.

(** [split] and [join] are inverse: the pieces of a text split at a separator,
    from the left or from the right and whatever the maximal number of splits, join
    with that separator to the text again; and a non-negative maximum bounds the
    number of splits. *)
Theorem split_then_join s sep k r v :
  splitSep s sep k r = Ok v →
  ∃ parts, v = VList TString (map VString parts) ∧ join sep parts = s ∧
    (0 ≤ k → Z.of_nat (length parts) ≤ k + 1) ∧
    ∀ t, joinValues (map VString parts) sep AsStr = Ok t → t = VString s.
Proof.
  unfold splitSep, stringList. case_bool_decide; [done|]. intros Hs. apply res_bind_ok in Hs as (u & _ & [= <-]).
  exists (splitPieces s sep k r). split_and!.
  - done.
  - apply splitPieces_join.
  - intros Hk. unfold splitPieces.
    set (n := if _ || _ then Count_ s sep else k). assert (Hn : (Z.to_nat n ≤ Z.to_nat k)%nat).
    { unfold n. destruct (Z.ltb_spec k 0); [lia|]. cbn [orb]. destruct (Z.ltb_spec (Count_ s sep) k); lia. }
    destruct r.
    + pose proof (rsplitLoop_length (Z.to_nat n) s sep []). cbn [length] in *. lia.
    + pose proof (SplitN_length (Z.to_nat n) s sep). lia.
  - intros t Ht. pose proof (splitPieces_join s sep k r) as Hj. destruct (splitPieces s sep k r) as [|p ps].
    + cbn in Ht, Hj. injection Ht as <-. by rewrite <-Hj.
    + cbn [map joinValues] in Ht. apply res_bind_ok in Ht as (total & _ & Ht). apply res_bind_ok in Ht as (qs & Hq & Ht).
      injection Ht as <-. apply (joinTexts_strings _ (p :: ps)) in Hq. by rewrite Hq, Hj.
Qed.

Lemma split_then_join_witness :
  splitSep (of_string "a::b::c") (of_string "::") 1 true = Ok (VList TString [VString (of_string "a::b"); VString (of_string "c")]) ∧
  ∃ parts, VList TString [VString (of_string "a::b"); VString (of_string "c")] = VList TString (map VString parts) ∧
    join (of_string "::") parts = of_string "a::b::c".
Proof.
  split; [vm_compute; reflexivity|].
  destruct (split_then_join (of_string "a::b::c") (of_string "::") 1 true
    (VList TString [VString (of_string "a::b"); VString (of_string "c")])) as (parts & H1 & H2 & _); [vm_compute; reflexivity|].
  by exists parts.
Defined.

(** ** Replacing one byte *)

Lemma Index_byte c s :
  (Index_ s [c] = None ∧ c ∉ s) ∨ (∃ p t, s = p ++ (c :: t) ∧ (c ∉ p) ∧ Index_ s [c] = Some (length p)).
Proof.
  induction s as [|d s IH].
  - left. split; [done|apply not_elem_of_nil].
  - cbn [Index_ has_prefix]. destruct (decide (c = d)) as [<-|Hne].
    + right. exists [], s. rewrite bool_decide_true by done. split_and!; [done|apply not_elem_of_nil|done].
    + rewrite bool_decide_false by done. cbn [andb]. destruct IH as [[-> Hn]|(p & t & -> & Hp & ->)].
      * left. split; [done|]. by rewrite not_elem_of_cons.
      * right. exists (d :: p), t. split_and!; [done|by rewrite not_elem_of_cons|done].
Qed.

Lemma SplitN_byte n c s : (length s ≤ n)%nat → SplitN n s [c] = split_on c s.
Proof.
  revert s. induction n as [|n IH]; intros s Hl; cbn [SplitN]; [by destruct s; cbn in Hl; [|lia]|].
  destruct (Index_byte c s) as [[-> Hn]|(p & t & -> & Hp & ->)]; [by rewrite split_on_none|].
  rewrite take_app_length, split_on_app by done. f_equal.
  rewrite drop_app_add. cbn [drop length]. apply IH. rewrite length_app in Hl. cbn in Hl. lia.
Qed.

(** [ReplaceAll] of one byte goes byte by byte. *)
Definition replaceByte (c : ascii) (new : str) (d : ascii) : str := if bool_decide (d = c) then new else [d].

Lemma ReplaceAll_byte s c new : ReplaceAll s [c] new = concat (map (replaceByte c new) s).
Proof.
  unfold ReplaceAll. rewrite SplitN_byte by lia. induction s as [|d s IH]; [done|].
  cbn [map concat split_on]. unfold replaceByte at 1. destruct (split_on_cons c s) as (p & ps & E).
  rewrite <-IH. case_bool_decide; rewrite E; [by destruct ps|]. by destruct ps.
Qed.

(** ** The words a shell reads *)

(** Where a POSIX shell is: between words, in a word, inside single or double
    quotes. *)
Inductive quoting := betweenWords | inWord | inSingle | inDouble.

Definition blank (c : ascii) : bool := (byte_val c =? 32) || (byte_val c =? 9) || (byte_val c =? 10).
Definition single (c : ascii) : bool := byte_val c =? 39.
Definition double (c : ascii) : bool := byte_val c =? 34.

(** A byte that means itself outside of quotes in every POSIX shell.  Others may
    too, the reader refuses them. *)
Definition literal (c : ascii) : bool := negb (shellUnsafe (byte_val c)).

(** A byte that means something inside double quotes. *)
Definition expands (c : ascii) : bool := (byte_val c =? 36) || (byte_val c =? 96) || (byte_val c =? 92) || (byte_val c =? 33).

(** The words of a command line; [cur] is the word being read.  [None] for an
    expansion, an operator or an open quote. *)
Fixpoint shellRead (q : quoting) (cur : str) (s : str) : option (list str) :=
  match q, s with
  | betweenWords, [] => Some []
  | inWord, [] => Some [cur]
  | _, [] => None
  | betweenWords, c :: s' =>
      if blank c then shellRead betweenWords [] s'
      else if single c then shellRead inSingle [] s'
      else if double c then shellRead inDouble [] s'
      else if literal c then shellRead inWord [c] s'
      else None
  | inWord, c :: s' =>
      if blank c then (cur ::.) <$> shellRead betweenWords [] s'
      else if single c then shellRead inSingle cur s'
      else if double c then shellRead inDouble cur s'
      else if literal c then shellRead inWord (cur ++ [c]) s'
      else None
  | inSingle, c :: s' => if single c then shellRead inWord cur s' else shellRead inSingle (cur ++ [c]) s'
  | inDouble, c :: s' =>
      if double c then shellRead inWord cur s'
      else if expands c then None
      else shellRead inDouble (cur ++ [c]) s'
  end.

Definition shellWords (s : str) : option (list str) := shellRead betweenWords [] s.

(** What a single quote becomes. *)
Definition quotedQuote : str := ["'"%char; byte_chr 34; "'"%char; byte_chr 34; "'"%char].

Lemma shellRead_single cur s rest :
  shellRead inSingle cur (concat (map (replaceByte "'"%char quotedQuote) s) ++ "'"%char :: rest) =
  shellRead inWord (cur ++ s) rest.
Proof.
  revert cur. induction s as [|c s IH]; intros cur; [cbn; by rewrite app_nil_r|].
  cbn [map concat]. rewrite <-app_assoc. unfold replaceByte at 1. case_bool_decide as Hc.
  - subst c. change (shellRead inSingle cur (quotedQuote ++ ?r)) with (shellRead inSingle (cur ++ ["'"%char]) r).
    rewrite IH, <-app_assoc. done.
  - cbn [app shellRead]. replace (single c) with false; [by rewrite IH, <-app_assoc|].
    symmetry. apply Z.eqb_neq. intros H. apply Hc. rewrite <-(byte_chr_val c), H. done.
Qed.

Lemma DecodeRune_ascii c s r n : DecodeRune (c :: s) = (r, n) → r < 128 → r = byte_val c ∧ n = 1%nat.
Proof.
  unfold DecodeRune, cont, between, low6, RuneError. cbn [fmap list_fmap]. pose proof (byte_val_range c).
  destruct (Z.ltb_spec (byte_val c) 128); [intros [= <- <-]; done|].
  intros HD Hr. exfalso. repeat case_match; simplify_eq; zbool; try lia.
  all: repeat match goal with H : byte_val <$> ?l = _ |- _ => clear H | H : context [byte_val <$> _] |- _ => clear H end; lia.
Qed.

Lemma shellUnsafe_codes r :
  shellUnsafe r =
  negb (between 97 122 r || between 65 90 r || between 48 57 r
        || existsb (λ z, z =? r) [95; 64; 37; 43; 61; 58; 44; 46; 47; 45]).
Proof. reflexivity. Qed.

Lemma runes_cons c s : ∃ r n, DecodeRune (c :: s) = (r, S n) ∧ runes (c :: s) = r :: runes_from (length s) (drop n s).
Proof.
  unfold runes. cbn [length runes_from]. destruct (DecodeRune (c :: s)) as [r n] eqn:E.
  assert (n ≠ 0%nat) by (unfold DecodeRune in E; cbn [fmap list_fmap] in E; repeat case_match; simplify_eq; done).
  destruct n as [|n]; [done|]. by exists r, n.
Qed.

(** The runes of a text are safe only when its bytes are. *)
Lemma safe_literal s : existsb shellUnsafe (runes s) = false → Forall (λ c, literal c = true) s.
Proof.
  induction s as [|c s IH]; [constructor|].
  destruct (runes_cons c s) as (r & n & HD & ->). cbn [existsb]. intros [Hr Hs]%orb_false_iff.
  assert (r < 128).
  { rewrite shellUnsafe_codes in Hr. unfold between in Hr. cbn [existsb] in Hr. lia. }
  apply DecodeRune_ascii in HD as [-> [= ->]]; [|done]. constructor; [by unfold literal; rewrite Hr|].
  apply IH. exact Hs.
Qed.

Lemma literal_plain c : literal c = true → blank c = false ∧ single c = false ∧ double c = false.
Proof. unfold literal, blank, single, double. rewrite shellUnsafe_codes. unfold between. cbn [existsb]. lia. Qed.

Lemma shellRead_literal cur s rest :
  Forall (λ c, literal c = true) s → shellRead inWord cur (s ++ rest) = shellRead inWord (cur ++ s) rest.
Proof.
  intros H. revert cur. induction H as [|c s Hc _ IH]; intros cur; [cbn; by rewrite app_nil_r|].
  cbn [app shellRead]. destruct (literal_plain c Hc) as (-> & -> & ->). rewrite Hc, IH, <-app_assoc. done.
Qed.

(** A quoted text is read as one word, whatever follows. *)
Lemma shellRead_quote s rest :
  shellRead betweenWords [] (shellQuote s ++ rest) = shellRead inWord s rest.
Proof.
  unfold shellQuote. case_bool_decide as Hs; [by subst|]. destruct (existsb shellUnsafe (runes s)) eqn:E; cbn [negb].
  - change (ReplaceAll s (of_string "'")) with (ReplaceAll s ["'"%char]). rewrite ReplaceAll_byte, <-!app_assoc.
    change (shellRead betweenWords [] (of_string "'" ++ ?r)) with (shellRead inSingle [] r).
    apply (shellRead_single [] s rest).
  - apply safe_literal in E. destruct E as [|c s Hc Hf]; [done|]. cbn [app shellRead].
    destruct (literal_plain c Hc) as (-> & -> & ->). rewrite Hc. apply (shellRead_literal [c] s rest Hf).
Qed.

Lemma shellWords_quoted l : shellWords (join (of_string " ") (map shellQuote l)) = Some l.
Proof.
  induction l as [|w l IH]; [done|]. cbn [map]. destruct l as [|w' l].
  - cbn [map join]. rewrite <-(app_nil_r (shellQuote w)). unfold shellWords. by rewrite shellRead_quote.
  - rewrite join_words by done. unfold shellWords in *. rewrite shellRead_quote.
    change (shellRead inWord w (of_string " " ++ ?r)) with ((w ::.) <$> shellRead betweenWords [] r). by rewrite IH.
Qed.

Lemma joinTexts_map (f : str → str) total parts qs :
  joinTexts (λ v, let? s := AsStr v in Ok (f s)) total (map VString parts) = Ok qs → qs = map f parts.
Proof.
  revert total qs. induction parts as [|p parts IH]; intros total qs; cbn [map joinTexts].
  - by intros [= <-].
  - cbn [AsStr res_bind]. intros H. apply res_bind_ok in H as (u & _ & H). apply res_bind_ok in H as (ps & Hps & H).
    injection H as <-. f_equal. by eapply IH.
Qed.



(** ** What a JSON reader reads *)

Definition hexValue (c : ascii) : option Z :=
  let z := byte_val c in
  if between 48 57 z then Some (z - 48)
  else if between 97 102 z then Some (z - 87)
  else if between 65 70 z then Some (z - 55)
  else None.

(** A UTF-16 unit in four hexadecimal digits, and what follows. *)
Definition readUnit (s : str) : option (Z * str) :=
  match s with
  | a :: b :: c :: d :: s' =>
      match hexValue a, hexValue b, hexValue c, hexValue d with
      | Some a, Some b, Some c, Some d => Some (((a * 16 + b) * 16 + c) * 16 + d, s')
      | _, _, _, _ => None
      end
  | _ => None
  end.

(** A backslash and a [u] before a unit. *)
Definition unitMark (s : str) : option str :=
  match s with
  | a :: b :: s' => if (byte_val a =? 92) && (byte_val b =? 117) then Some s' else None
  | _ => None
  end.

(** The rune of an escape after its backslash (RFC 8259, section 7): a surrogate
    stands only in a pair. *)
Definition readEscape (s : str) : option (Z * str) :=
  match s with
  | [] => None
  | c :: s' =>
      let z := byte_val c in
      if z =? 117 then
        match readUnit s' with
        | None => None
        | Some (hi, rest) =>
            if between 55296 56319 hi then
              match unitMark rest ≫= readUnit with
              | Some (lo, rest') =>
                  if between 56320 57343 lo then Some (65536 + (hi - 55296) * 1024 + (lo - 56320), rest') else None
              | None => None
              end
            else if between 56320 57343 hi then None
            else Some (hi, rest)
        end
      else if (z =? 34) || (z =? 92) || (z =? 47) then Some (z, s')
      else if z =? 98 then Some (8, s')
      else if z =? 102 then Some (12, s')
      else if z =? 110 then Some (10, s')
      else if z =? 114 then Some (13, s')
      else if z =? 116 then Some (9, s')
      else None
  end.

(** The runes of a string up to its closing quote, and what follows it. *)
Fixpoint readRunes (fuel : nat) (s : str) : option (list Z * str) :=
  match fuel, s with
  | O, _ | _, [] => None
  | S n, c :: s' =>
      let z := byte_val c in
      if z =? 34 then Some ([], s')
      else
        let next :=
          if z =? 92 then readEscape s'
          else if z <? 32 then None
          else if z <? 128 then Some (z, s')
          else let '(r, size) := DecodeRune s in Some (r, drop size s) in
        match next with
        | None => None
        | Some (r, rest) =>
            match readRunes n rest with
            | Some (rs, t) => Some (r :: rs, t)
            | None => None
            end
        end
  end.

(** A whole JSON string. *)
Definition readJSONString (s : str) : option (list Z) :=
  match s with
  | c :: s' =>
      if byte_val c =? 34 then
        match readRunes (length s) s' with Some (rs, []) => Some rs | _ => None end
      else None
  | [] => None
  end.

Lemma hexValue_digit d : 0 ≤ d < 16 → hexValue (hexDigit d) = Some d.
Proof.
  intros H. unfold hexDigit. destruct (Z.ltb_spec d 10); unfold hexValue, between; rewrite byte_val_chr by lia.
  - replace ((48 <=? 48 + d) && (48 + d <=? 57)) with true by lia. f_equal. lia.
  - replace ((48 <=? 87 + d) && (87 + d <=? 57)) with false by lia.
    replace ((97 <=? 87 + d) && (87 + d <=? 102)) with true by lia. f_equal. lia.
Qed.

Lemma readUnit_hex r rest : 0 ≤ r < 65536 → readUnit (hexDigits 4 r ++ rest) = Some (r, rest).
Proof.
  intros H. cbn [hexDigits app readUnit].
  rewrite !hexValue_digit by (apply Z.mod_pos_bound; lia). do 2 f_equal.
  pose proof (Z.div_mod r 16). pose proof (Z.div_mod (r / 16) 16). pose proof (Z.div_mod (r / 16 / 16) 16).
  pose proof (Z.div_mod (r / 16 / 16 / 16) 16).
  assert (r / 16 / 16 / 16 / 16 = 0); [|lia]. rewrite !Z.div_div by lia. by apply Z.div_small.
Qed.

(** What the quoting of a rune starts with, and what it reads as. *)
Lemma readRunes_jsonQuoteRune n r rest :
  valid r = true →
  readRunes (S n) (jsonQuoteRune r ++ rest) =
  match readRunes n rest with Some (rs, t) => Some (r :: rs, t) | None => None end.
Proof.
  intros Hv. unfold valid, between in Hv. unfold jsonQuoteRune.
  repeat (match goal with |- context [if ?r =? ?k then _ else _] =>
    lazymatch r with r => destruct (Z.eqb_spec r k) as [->|?]; [reflexivity|] end end).
  assert (Hu : ∀ u rest, 0 ≤ u < 65536 → ¬ (55296 ≤ u ≤ 57343) →
    readRunes (S n) (jsonUnit u ++ rest) = match readRunes n rest with Some (rs, t) => Some (u :: rs, t) | None => None end).
  { intros u t Hu Hs. unfold jsonUnit. cbn [app readRunes]. rewrite (byte_val_chr 92) by lia.
    change (92 =? 34) with false. change (92 =? 92) with true. cbv iota. unfold readEscape.
    change (byte_val "u"%char =? 117) with true. cbv iota. rewrite readUnit_hex by done.
    unfold between. replace ((55296 <=? u) && (u <=? 56319)) with false by lia.
    replace ((56320 <=? u) && (u <=? 57343)) with false by lia. done. }
  destruct ((r <? 32) || (r =? 127)) eqn:E1; [apply Hu; lia|].
  destruct (Z.ltb_spec r 128).
  - unfold EncodeRune. replace (r <? 128) with true by lia. cbn [fmap list_fmap app readRunes].
    rewrite byte_val_chr by lia. replace (r =? 34) with false by lia. replace (r =? 92) with false by lia.
    replace (r <? 32) with false by lia. replace (r <? 128) with true by lia. done.
  - destruct (Z.ltb_spec 65535 r); [|apply Hu; lia]. rewrite <-app_assoc.
    set (hi := 55296 + Z.shiftr (r - 65536) 10). set (lo := 56320 + Z.land (r - 65536) 1023).
    assert (Hq : 0 ≤ Z.shiftr (r - 65536) 10 < 1024 ∧ 0 ≤ Z.land (r - 65536) 1023 < 1024 ∧
      r - 65536 = Z.shiftr (r - 65536) 10 * 1024 + Z.land (r - 65536) 1023).
    { rewrite Z.shiftr_div_pow2 by lia. change 1023 with (Z.ones 10). rewrite Z.land_ones by lia. change (2 ^ 10) with 1024.
      pose proof (Z.div_mod (r - 65536) 1024 ltac:(lia)). pose proof (Z.mod_pos_bound (r - 65536) 1024 ltac:(lia)). lia. }
    destruct Hq as (Hhi & Hlo & Hr).
    unfold jsonUnit at 1. cbn [app readRunes]. rewrite (byte_val_chr 92) by lia.
    change (92 =? 34) with false. change (92 =? 92) with true. cbv iota. unfold readEscape.
    change (byte_val "u"%char =? 117) with true. cbv iota. rewrite readUnit_hex by (unfold hi; lia).
    unfold between. replace ((55296 <=? hi) && (hi <=? 56319)) with true by (unfold hi; lia).
    unfold jsonUnit. cbn [app unitMark]. rewrite (byte_val_chr 92) by lia.
    change ((92 =? 92) && (byte_val "u"%char =? 117)) with true. cbn [mbind option_bind].
    rewrite readUnit_hex by (unfold lo; lia).
    replace ((56320 <=? lo) && (lo <=? 57343)) with true by (unfold lo; lia).
    replace (65536 + (hi - 55296) * 1024 + (lo - 56320)) with r by (unfold hi, lo; lia). done.
Qed.

Lemma DecodeRune_in s : s ≠ [] → valid (DecodeRune s).1 = true.
Proof.
  intros Hs. destruct (DecodeRune s) as [r n] eqn:E. cbn [fst].
  destruct ((r =? RuneError) && Nat.eqb n 1) eqn:Eb.
  - apply andb_true_iff in Eb as [->%Z.eqb_eq _]. done.
  - by apply (DecodeRune_valid s r n).
Qed.

Lemma runes_valid s : Forall (λ r, valid r = true) (runes s).
Proof.
  unfold runes. generalize (length s) as n. intros n. revert s.
  induction n as [|n IH]; intros s; cbn [runes_from]; [constructor|]. destruct s as [|c s]; [constructor|].
  pose proof (DecodeRune_in (c :: s) ltac:(done)) as Hv. destruct (DecodeRune (c :: s)) as [r k]. constructor; [exact Hv|apply IH].
Qed.

Lemma readRunes_quoted rs n :
  Forall (λ r, valid r = true) rs → (length rs < n)%nat →
  readRunes n (concat (map jsonQuoteRune rs) ++ [byte_chr 34]) = Some (rs, []).
Proof.
  intros H. revert n. induction H as [|r rs Hr _ IH]; intros n Hn; (destruct n as [|n]; [cbn in Hn; lia|]).
  - reflexivity.
  - cbn [map concat]. rewrite <-app_assoc, readRunes_jsonQuoteRune by done. rewrite IH by (cbn in Hn; lia). done.
Qed.

Lemma jsonQuoteRune_ascii r : valid r = true → Forall (λ c, 32 ≤ byte_val c < 127) (jsonQuoteRune r).
Proof.
  intros Hv. unfold valid, between in Hv.
  assert (Hh : ∀ d, 0 ≤ d < 16 → 32 ≤ byte_val (hexDigit d) < 127).
  { intros d Hd. unfold hexDigit. destruct (Z.ltb_spec d 10); rewrite byte_val_chr; lia. }
  assert (Hu : ∀ u, Forall (λ c, 32 ≤ byte_val c < 127) (jsonUnit u)).
  { intros u. unfold jsonUnit. cbn [hexDigits app]. repeat constructor; try (apply Hh, Z.mod_pos_bound; lia); vm_compute; congruence. }
  unfold jsonQuoteRune.
  repeat (match goal with |- context [if ?r =? ?k then _ else _] =>
    lazymatch r with r => destruct (Z.eqb_spec r k) as [->|?]; [repeat constructor; vm_compute; congruence|] end end).
  destruct ((r <? 32) || (r =? 127)) eqn:E1; [apply Hu|]. destruct (Z.ltb_spec r 128).
  - unfold EncodeRune. replace (r <? 128) with true by lia. cbn [fmap list_fmap]. constructor; [|constructor]. rewrite byte_val_chr; lia.
  - destruct (65535 <? r); [apply Forall_app; split|]; apply Hu.
Qed.

Lemma jsonQuoteRune_length r : (0 < length (jsonQuoteRune r))%nat.
Proof. unfold jsonQuoteRune, jsonUnit, EncodeRune. repeat case_match; cbn; lia. Qed.

(** [repr_json] round-trips: a JSON reader reads the quoted form of any text as
    the runes of the text, bytes that are not UTF-8 as U+FFFD; and the quoted form is
    printable ASCII, whatever the text contains. *)
Theorem repr_json_reads_back s :
  readJSONString (jsonQuote s) = Some (runes s) ∧ Forall (λ c, 32 ≤ byte_val c < 127) (jsonQuote s).
Proof.
  pose proof (runes_valid s) as Hv. split.
  - unfold jsonQuote, readJSONString. change (byte_val (byte_chr 34) =? 34) with true. cbv iota.
    rewrite readRunes_quoted; [done|done|]. cbn [length]. rewrite length_app. cbn [length].
    clear Hv. induction (runes s) as [|r rs IH]; cbn [map concat length]; [lia|].
    rewrite length_app. pose proof (jsonQuoteRune_length r). lia.
  - unfold jsonQuote. constructor; [vm_compute; split; congruence|]. apply Forall_app.
    split; [|repeat constructor; vm_compute; congruence]. induction Hv as [|r rs Hr _ IH]; [constructor|].
    cbn [map concat]. apply Forall_app. split; [by apply jsonQuoteRune_ascii|exact IH].
Qed.

(** ** What PowerShell reads *)

(** The single quotes of PowerShell's grammar: the ASCII one and four typographic
    ones. *)
Definition typographic (r : Z) : bool := between 8216 8219 r.
Definition pwshSingle (r : Z) : bool := (r =? 39) || typographic r.

(** The content of a verbatim string after its opening quote, and what follows the
    closing one: two quotes in a row stand for the second. *)
Fixpoint pwshBody (rs : list Z) : option (list Z * list Z) :=
  match rs with
  | [] => None
  | r :: rs' =>
      if pwshSingle r then
        match rs' with
        | r2 :: rs'' =>
            if pwshSingle r2 then match pwshBody rs'' with Some (c, t) => Some (r2 :: c, t) | None => None end
            else Some ([], rs')
        | [] => Some ([], [])
        end
      else match pwshBody rs' with Some (c, t) => Some (r :: c, t) | None => None end
  end.

Definition readPwsh (s : str) : option (list Z * list Z) :=
  match runes s with q :: rs => if pwshSingle q then pwshBody rs else None | [] => None end.

Definition weight (quote : Z → bool) (rs : list Z) : nat :=
  foldr (λ r n, (if quote r then 2 else 1) + n)%nat 0%nat rs.

(** Every rune of a verbatim string takes one place, a quote two. *)
Lemma pwshBody_weight rs c t : pwshBody rs = Some (c, t) → length rs = (weight pwshSingle c + 1 + length t)%nat.
Proof.
  remember (length rs) as n eqn:Hn. revert rs Hn c t. induction n as [n IH] using lt_wf_ind. intros rs -> c t H.
  destruct rs as [|r rs]; [done|]. cbn [pwshBody] in H. destruct (pwshSingle r) eqn:Er.
  - destruct rs as [|r2 rs]; [by injection H as <- <-|]. destruct (pwshSingle r2) eqn:Er2; [|by injection H as <- <-].
    destruct (pwshBody rs) as [[c' t']|] eqn:E; [|done]. injection H as <- <-.
    apply (IH (length rs)) in E; [|cbn; lia|done]. cbn [length weight foldr] in *. rewrite Er2. unfold weight in E. lia.
  - destruct (pwshBody rs) as [[c' t']|] eqn:E; [|done]. injection H as <- <-.
    apply (IH (length rs)) in E; [|cbn; lia|done]. cbn [length weight foldr] in *. rewrite Er. unfold weight in E. lia.
Qed.

Definition doubled (r : Z) : list Z := if r =? 39 then [39; 39] else [r].

Lemma EncodeRune_quote r : valid r = true →
  concat (map (replaceByte "'"%char (of_string "''")) (EncodeRune r)) = encode (doubled r).
Proof.
  intros Hv. unfold doubled. destruct (Z.eqb_spec r 39) as [->|Hne]; [reflexivity|].
  assert (H : ∀ l, Forall (λ z, 0 ≤ z < 256 ∧ z ≠ 39) l →
    concat (map (replaceByte "'"%char (of_string "''")) (byte_chr <$> l)) = byte_chr <$> l).
  { induction 1 as [|z l Hz _ IH]; [done|]. rewrite fmap_cons. cbn [map concat]. rewrite IH. unfold replaceByte.
    rewrite bool_decide_false; [done|]. intros E. apply (f_equal byte_val) in E. rewrite byte_val_chr in E by lia.
    change (byte_val "'"%char) with 39 in E. lia. }
  unfold encode. cbn [fmap list_fmap concat]. rewrite app_nil_r. unfold EncodeRune. apply H. unfold valid, between in Hv.
  repeat case_match; rewrite ?Forall_cons, ?Forall_nil; split_and!; try done; lia.
Qed.

Lemma quote_encode rs : Forall (λ r, valid r = true) rs → pwshQuote (encode rs) = encode (39 :: concat (map doubled rs) ++ [39]).
Proof.
  intros Hv. unfold pwshQuote. change (ReplaceAll (encode rs) (of_string "'")) with (ReplaceAll (encode rs) ["'"%char]).
  rewrite ReplaceAll_byte. rewrite encode_cons, encode_app. f_equal. f_equal.
  induction Hv as [|r rs Hr _ IH]; [done|]. cbn [map concat]. rewrite encode_app, <-IH, encode_cons, map_app, concat_app.
  by rewrite EncodeRune_quote.
Qed.

Lemma runes_encode rs : Forall (λ r, valid r = true) rs → runes (encode rs) = rs.
Proof.
  intros Hv. unfold runes. assert (H : ∀ n, (length (encode rs) ≤ n)%nat → runes_from n (encode rs) = rs); [|by apply H].
  induction Hv as [|r rs Hr Hv IH]; intros n Hn; [by destruct n|].
  rewrite encode_cons in *. pose proof (EncodeRune_pos r) as Hp. rewrite length_app in Hn. unfold RuneLen in Hp.
  destruct n as [|n]; [lia|]. cbn [runes_from]. destruct (EncodeRune r ++ encode rs) as [|c s] eqn:E.
  { apply (f_equal length) in E. rewrite length_app in E. cbn in E. lia. }
  rewrite <-E, DecodeRune_Encode by done. f_equal. unfold RuneLen. rewrite drop_app_length. apply IH. lia.
Qed.

Lemma doubled_valid rs : Forall (λ r, valid r = true) rs → Forall (λ r, valid r = true) (39 :: concat (map doubled rs) ++ [39]).
Proof.
  intros Hv. constructor; [done|]. apply Forall_app. split; [|by repeat constructor].
  induction Hv as [|r rs Hr _ IH]; [constructor|]. cbn [map concat]. apply Forall_app. split; [|done].
  unfold doubled. case_match; by repeat constructor.
Qed.

(** Quoting for PowerShell is right exactly for texts without typographic
    quotes: PowerShell reads what [repr_pwsh] makes of a text as that text and
    nothing more if, and only if, the text contains none of the quotes U+2018 to
    U+201B, which PowerShell takes for a quote and the code does not double. *)
Theorem repr_pwsh_reads_back rs :
  Forall (λ r, valid r = true) rs →
  readPwsh (pwshQuote (encode rs)) = Some (rs, []) ↔ Forall (λ r, typographic r = false) rs.
Proof.
  intros Hv. unfold readPwsh. rewrite quote_encode, runes_encode by auto using doubled_valid.
  change (pwshSingle 39) with true. cbv iota. split.
  - intros H. apply pwshBody_weight in H. rewrite length_app in H. cbn [length] in H.
    assert (Hw : length (concat (map doubled rs)) = weight (λ r, r =? 39) rs).
    { clear. induction rs as [|r rs IH]; [done|]. cbn [map concat]. rewrite length_app, IH. unfold doubled, weight. cbn [foldr].
      by destruct (r =? 39). }
    rewrite Hw in H. clear Hv Hw. assert (He : weight (λ r, r =? 39) rs = weight pwshSingle rs) by lia. clear H.
    assert (Hle : ∀ rs, Nat.le (weight (λ r, r =? 39) rs) (weight pwshSingle rs)).
    { clear. induction rs as [|r rs IH]; [done|]. unfold weight in *. cbn [foldr]. unfold pwshSingle at 1.
      destruct (r =? 39), (typographic r); cbn [orb]; lia. }
    induction rs as [|r rs IH]; [constructor|]. specialize (Hle rs). unfold weight in *. cbn [foldr] in He.
    unfold pwshSingle at 1 in He. destruct (r =? 39) eqn:E; cbn [orb] in He.
    + constructor; [unfold typographic, between; lia|]. apply IH. lia.
    + destruct (typographic r) eqn:Et; [lia|]. constructor; [done|]. apply IH. lia.
  - intros Ht. clear Hv. induction Ht as [|r rs Hr _ IH]; [done|]. cbn [map concat]. unfold doubled at 1.
    destruct (Z.eqb_spec r 39) as [->|Hne]; cbn [app pwshBody].
    + change (pwshSingle 39) with true. cbv iota. by rewrite IH.
    + unfold pwshSingle at 1. rewrite Hr. replace (r =? 39) with false by lia. cbn [orb]. by rewrite IH.
Qed.

Lemma repr_pwsh_reads_back_witness :
  readPwsh (pwshQuote (encode [105; 116; 39; 115])) = Some ([105; 116; 39; 115], []) ∧
  readPwsh (pwshQuote (encode [8217; 59; 99; 97; 108; 99])) = Some ([], [59; 99; 97; 108; 99; 39]).
Proof.
  split; [|vm_compute; reflexivity]. apply (repr_pwsh_reads_back [105; 116; 39; 115]); by repeat constructor.
Defined.
