(* ===== verification/FmtString.v ===== *)
(** * Format strings

    src/internal/openjd/fmtstring: texts with references in double braces
    (fmtstring.go, segment.go, scope.go).

    [Resolve_exact] states what a resolved text is: the input is literal texts and
    references in turn, in exactly one way, and the result has the value of each
    reference in its place.  The values are not looked at again, so that a value with
    braces in it is text. *)

From S2P Require Import Prelude StatusText GoText ExprType ExprFloat ExprValue ExprPath ExprText ExprQuote.
Open Scope Z_scope.

(** ** The code *)

Definition openDelim : str := of_string "{{".
Definition closeDelim : str := of_string "}}".

(** fmtstring.go [ref] *)
Record ref := mkRef { refLiteral : str; refName : str }.

(** errors.go [MalformedError], [UnresolvedError] *)
Inductive FmtReason := MissingClose | EmptyName | NotIdentifier.

Inductive FmtError :=
  | MalformedError (Ref : str) (Reason : FmtReason)
  | UnresolvedError (Names : list str)
  | FmtFuel.

(** fmtstring.go [validIdent], [validName] *)
Definition identRune (first : bool) (c : Z) : bool :=
  (c =? 95) || between 65 90 c || between 97 122 c || (between 48 57 c && negb first).

Definition validIdent (s : str) : bool :=
  match runes s with [] => false | c :: cs => identRune true c && forallb (identRune false) cs end.

Definition validName (name : str) : bool :=
  negb (bool_decide (name = [])) && forallb validIdent (split_on "."%char name).

(** fmtstring.go [hasRef] *)
Definition hasRef (input : str) : bool := contains input openDelim.

(** The loop of [scan]: each round takes a reference, so that the length is fuel
    enough. *)
Fixpoint scanLoop (fuel : nat) (validate : option (str → bool)) (refs : list ref) (rest : str) : res FmtError (list ref * str) :=
  match fuel with
  | O => Err FmtFuel
  | S f =>
      match Index_ rest openDelim with
      | None => Ok (refs, rest)
      | Some open =>
          let afterOpen := drop (open + length openDelim) rest in
          match Index_ afterOpen closeDelim with
          | None => Err (MalformedError (drop open rest) MissingClose)
          | Some closeIdx =>
              let name := TrimSpace (take closeIdx afterOpen) in
              let fullRef := take (length openDelim + closeIdx + length closeDelim) (drop open rest) in
              if bool_decide (name = []) then Err (MalformedError fullRef EmptyName)
              else if match validate with Some v => negb (v name) | None => false end then Err (MalformedError fullRef NotIdentifier)
              else scanLoop f validate (refs ++ [mkRef (take open rest) name]) (drop (closeIdx + length closeDelim) afterOpen)
          end
      end
  end.

(** fmtstring.go [scan], [parse], [parseRaw] *)
Definition scan (input : str) (validate : option (str → bool)) : res FmtError (list ref * str) := scanLoop (S (length input)) validate [] input.

Definition parse (input : str) : res FmtError (list ref * str) := scan input (Some validName).
Definition parseRaw (input : str) : res FmtError (list ref * str) := scan input None.

(** scope.go [Scope], [MapScope], [MultiScope]; a scope is its [Lookup]. *)
Abbreviation Scope := (str → option str).

Definition MapScope (m : gmap str str) : Scope := λ name, m !! name.

Fixpoint MultiScope (scopes : list Scope) : Scope := λ name,
  match scopes with
  | [] => None
  | s :: rest => match s name with Some v => Some v | None => MultiScope rest name end
  end.

(** The loop of [Resolve]. *)
Fixpoint resolveLoop (scope : Scope) (refs : list ref) (b : str) (unknown : list str) : str * list str :=
  match refs with
  | [] => (b, unknown)
  | r :: rest =>
      let b := b ++ refLiteral r in
      match scope (refName r) with
      | None => resolveLoop scope rest b (if bool_decide (refName r ∈ unknown) then unknown else unknown ++ [refName r])
      | Some value => resolveLoop scope rest (b ++ value) unknown
      end
  end.

(** fmtstring.go [Resolve] *)
Definition Resolve (input : str) (scope : Scope) : res FmtError str :=
  if negb (hasRef input) then Ok input
  else
    let? (refs, trailing) := parse input in
    let '(b, unknown) := resolveLoop scope refs [] [] in
    match unknown with [] => Ok (b ++ trailing) | _ => Err (UnresolvedError unknown) end.

(** fmtstring.go [References] *)
Fixpoint referencesLoop (refs : list ref) (names : list str) : list str :=
  match refs with
  | [] => names
  | r :: rest => referencesLoop rest (if bool_decide (refName r ∈ names) then names else names ++ [refName r])
  end.

Definition References (input : str) : res FmtError (list str) :=
  if negb (hasRef input) then Ok []
  else
    let? (refs, _) := parse input in
    Ok (referencesLoop refs []).

(** segment.go [Segment], [Segments], [LoneRef] *)
Inductive Segment := SegLiteral (text : str) | SegRef (body : str).

Definition literalSegment (s : str) : list Segment := match s with [] => [] | _ => [SegLiteral s] end.

Definition Segments (input : str) : res FmtError (list Segment) :=
  if negb (hasRef input) then Ok (literalSegment input)
  else
    let? (refs, trailing) := parseRaw input in
    Ok (concat (map (λ r, literalSegment (refLiteral r) ++ [SegRef (refName r)]) refs) ++ literalSegment trailing).

Definition LoneRef (input : str) : option str :=
  match Segments input with Ok [SegRef body] => Some body | _ => None end.

(** ** The shape of a format string *)

(** A literal and the body of the reference after it. *)
Record piece := mkPiece { pieceLiteral : str; pieceBody : str }.

Definition pieceName (p : piece) : str := TrimSpace (pieceBody p).

Definition renderPiece (p : piece) : str := pieceLiteral p ++ openDelim ++ pieceBody p ++ closeDelim.

Definition render (ps : list piece) (trailing : str) : str := concat (map renderPiece ps) ++ trailing.

(** The first delimiter is the one after [s]. *)
Definition free (s delim : str) : Prop := Index_ (s ++ delim) delim = Some (length s).

Definition okPiece (validate : option (str → bool)) (p : piece) : Prop :=
  free (pieceLiteral p) openDelim ∧ free (pieceBody p) closeDelim ∧ pieceName p ≠ [] ∧
  match validate with Some v => v (pieceName p) = true | None => True end.

Definition okPieces (validate : option (str → bool)) (ps : list piece) (trailing : str) : Prop :=
  Forall (okPiece validate) ps ∧ Index_ trailing openDelim = None.

Definition refOf (p : piece) : ref := mkRef (pieceLiteral p) (pieceName p).

(** The text with the values in place of the references. *)
Definition substitute (scope : Scope) (ps : list piece) (trailing : str) : str :=
  concat (map (λ p, pieceLiteral p ++ default [] (scope (pieceName p))) ps) ++ trailing.

(** ** Proofs *)

Lemma has_prefix_long p s x : (length p ≤ length s)%nat → has_prefix p (s ++ x) = has_prefix p s.
Proof.
  revert s. induction p as [|a p IH]; intros [|b s]; cbn [length has_prefix app]; try done; [lia|]. intros H. rewrite IH by lia. done.
Qed.

Lemma has_prefix_self p x : has_prefix p (p ++ x) = true.
Proof. induction p as [|a p IH]; cbn; [done|]. by rewrite bool_decide_true. Qed.

Lemma Index_app s sub x : Index_ (s ++ sub ++ x) sub = Index_ (s ++ sub) sub.
Proof.
  induction s as [|c s IH]; cbn [app].
  - pose proof (has_prefix_self sub x) as H1. pose proof (has_prefix_self sub []) as H2. rewrite app_nil_r in H2.
    destruct sub as [|a sub]; [by destruct x|]. cbn [app Index_] in *. by rewrite H1, H2.
  - cbn [Index_]. rewrite IH. replace (c :: s ++ sub ++ x) with ((c :: s ++ sub) ++ x) by (cbn; by rewrite <-app_assoc).
    rewrite has_prefix_long; [done|]. cbn. rewrite length_app. lia.
Qed.

Lemma Index_free s delim m : Index_ s delim = Some m → free (take m s) delim ∧ (m + length delim ≤ length s)%nat.
Proof.
  intros H. pose proof (Index_split s delim m H) as E.
  assert (Hm : (m ≤ length s)%nat).
  { revert m H E. induction s as [|c s IH]; intros m; cbn [Index_]; [destruct (has_prefix delim []); [intros [= <-]; cbn; lia|done]|].
    destruct (has_prefix delim (c :: s)); [intros [= <-]; cbn; lia|]. destruct (Index_ s delim) as [k|] eqn:Ek; [|done].
    intros [= <-] _. cbn. specialize (IH k eq_refl (Index_split _ _ _ Ek)). lia. }
  split.
  - unfold free. rewrite length_take_le by done. rewrite <-(Index_app _ _ (drop (m + length delim) s)). by rewrite <-E.
  - apply (f_equal length) in E. rewrite !length_app, length_take_le, length_drop in E by done. lia.
Qed.

Lemma contains_Index s sub : contains s sub = match Index_ s sub with Some _ => true | None => false end.
Proof.
  induction s as [|c s IH]; cbn [contains Index_]; destruct (has_prefix sub _); try done. cbn [orb]. rewrite IH. by destruct (Index_ s sub).
Qed.

Lemma render_cons p ps trailing : render (p :: ps) trailing = pieceLiteral p ++ openDelim ++ (pieceBody p ++ closeDelim ++ render ps trailing).
Proof. unfold render, renderPiece. cbn [map concat]. by rewrite <-!app_assoc. Qed.

Lemma scanLoop_render validate ps trailing fuel refs :
  okPieces validate ps trailing → (length (render ps trailing) < fuel)%nat →
  scanLoop fuel validate refs (render ps trailing) = Ok (refs ++ map refOf ps, trailing).
Proof.
  intros [Hps Ht]. revert refs fuel. induction Hps as [|p ps (Hl & Hb & Hn & Hv) Hps IH]; intros refs [|f] Hf; [lia| |lia|].
  - cbn [scanLoop]. change (render [] trailing) with trailing. rewrite Ht. by rewrite app_nil_r.
  - cbn [scanLoop]. rewrite render_cons in *. rewrite Index_app, Hl.
    rewrite <-(length_app (pieceLiteral p) openDelim), app_assoc, drop_app_length. rewrite Index_app, Hb.
    rewrite take_app_length. fold (pieceName p). rewrite bool_decide_false by done.
    replace (match validate with Some v => negb (v (pieceName p)) | None => false end) with false by (destruct validate; [by rewrite Hv|done]).
    rewrite <-app_assoc, take_app_length. rewrite <-(length_app (pieceBody p) closeDelim), (app_assoc (pieceBody p)), drop_app_length.
    rewrite IH; [by rewrite <-app_assoc|]. rewrite !length_app in Hf. cbn in Hf. lia.
Qed.

Lemma scanLoop_ok validate fuel refs input out trailing :
  scanLoop fuel validate refs input = Ok (out, trailing) →
  ∃ ps, input = render ps trailing ∧ okPieces validate ps trailing ∧ out = refs ++ map refOf ps.
Proof.
  revert refs input. induction fuel as [|f IH]; intros refs input; cbn [scanLoop]; [done|].
  destruct (Index_ input openDelim) as [m|] eqn:Em.
  - destruct (Index_ (drop _ input) closeDelim) as [k|] eqn:Ek; [|done]. case_bool_decide as Hn; [done|].
    destruct (match validate with Some v => _ | None => false end) eqn:Ev; [done|]. intros H. apply IH in H as (ps & Hr & [Hps Ht] & ->).
    pose proof (Index_split _ _ _ Em) as E1. pose proof (Index_split _ _ _ Ek) as E2.
    destruct (Index_free _ _ _ Em) as [Hf1 _]. destruct (Index_free _ _ _ Ek) as [Hf2 _].
    exists (mkPiece (take m input) (take k (drop (m + length openDelim) input)) :: ps). split_and!.
    + rewrite render_cons. cbn [pieceLiteral pieceBody]. by rewrite <-Hr, <-E2, <-E1.
    + split; [|done]. constructor; [|done]. split_and!; [done|done|done|]. destruct validate as [v|]; [|done]. by apply negb_false_iff in Ev.
    + by rewrite <-app_assoc.
  - intros [= <- <-]. exists []. split_and!; [done|by split|by rewrite app_nil_r].
Qed.

(** [scan] finds the pieces of its input. *)
Lemma scan_exact validate input refs trailing :
  scan input validate = Ok (refs, trailing) ↔ ∃ ps, input = render ps trailing ∧ okPieces validate ps trailing ∧ refs = map refOf ps.
Proof.
  unfold scan. split; [apply scanLoop_ok|]. intros (ps & -> & Hps & ->). rewrite scanLoop_render; [done|done|lia].
Qed.

(** Without a delimiter the only piece is the text after the last reference. *)
Lemma render_hasRef validate ps trailing : okPieces validate ps trailing → hasRef (render ps trailing) = negb (bool_decide (ps = [])).
Proof.
  intros [Hps Ht]. unfold hasRef. rewrite contains_Index. destruct ps as [|p ps]; [change (render [] trailing) with trailing; by rewrite Ht|].
  rewrite render_cons, Index_app. apply Forall_cons in Hps as [(Hl & _) _]. by rewrite Hl.
Qed.

Lemma resolveLoop_text scope ps b unknown :
  Forall (λ p, is_Some (scope (pieceName p))) ps →
  resolveLoop scope (map refOf ps) b unknown = (b ++ concat (map (λ p, pieceLiteral p ++ default [] (scope (pieceName p))) ps), unknown).
Proof.
  intros H. revert b. induction H as [|p ps [v Hv] _ IH]; intros b; cbn [map resolveLoop refOf refName refLiteral concat].
  - by rewrite app_nil_r.
  - rewrite Hv, IH. cbn [default]. by rewrite <-!app_assoc.
Qed.

(** The unknown names are those of the references, each once and in order. *)
Lemma resolveLoop_unknown (scope : Scope) refs b names :
  (resolveLoop scope refs b (filter (λ n, scope n = None) names)).2 = filter (λ n, scope n = None) (referencesLoop refs names).
Proof.
  revert b names. induction refs as [|r refs IH]; intros b names; cbn [resolveLoop referencesLoop]; [done|].
  rewrite <-(IH (b ++ refLiteral r ++ default [] (scope (refName r)))). f_equal. destruct (scope (refName r)) as [v|] eqn:E; cbn [default].
  - rewrite <-app_assoc. f_equal. case_bool_decide; [done|]. rewrite filter_app, filter_cons_False by (rewrite E; done). by rewrite app_nil_r.
  - rewrite app_nil_r. f_equal. rewrite (bool_decide_ext (refName r ∈ filter (λ n, scope n = None) names) (refName r ∈ names)).
    + case_bool_decide; [done|]. by rewrite filter_app, filter_cons_True by done.
    + rewrite list_elem_of_filter. naive_solver.
Qed.

Lemma elem_of_references n refs names : n ∈ referencesLoop refs names ↔ n ∈ names ∨ ∃ r, r ∈ refs ∧ refName r = n.
Proof.
  revert names. induction refs as [|r refs IH]; intros names; cbn [referencesLoop]; [set_solver|]. rewrite IH.
  case_bool_decide; set_solver.
Qed.

Lemma unknown_none (scope : Scope) ps :
  filter (λ n, scope n = None) (referencesLoop (map refOf ps) []) = [] ↔ Forall (λ p, is_Some (scope (pieceName p))) ps.
Proof.
  rewrite Forall_forall. split.
  - intros H p Hp. destruct (scope (pieceName p)) eqn:E; [by eexists|].
    assert (Hf : pieceName p ∈ filter (λ n, scope n = None) (referencesLoop (map refOf ps) [])).
    { apply list_elem_of_filter. split; [done|]. apply elem_of_references. right. exists (refOf p). split; [|done]. by apply list_elem_of_fmap_2. }
    rewrite H in Hf. by apply not_elem_of_nil in Hf.
  - intros H. destruct (filter _ _) as [|n u] eqn:E; [done|]. exfalso.
    assert (Hn : n ∈ filter (λ n, scope n = None) (referencesLoop (map refOf ps) [])) by (rewrite E; set_solver).
    apply list_elem_of_filter in Hn as [Hn Hr]. apply elem_of_references in Hr as [Hr|(r & Hr & <-)]; [by apply not_elem_of_nil in Hr|].
    apply list_elem_of_fmap in Hr as (p & -> & Hp). destruct (H p Hp) as [v Hv]. cbn [refOf refName] in Hn. congruence.
Qed.

Lemma Resolve_render scope ps trailing :
  okPieces (Some validName) ps trailing →
  Resolve (render ps trailing) scope =
  match filter (λ n, scope n = None) (referencesLoop (map refOf ps) []) with
  | [] => Ok (substitute scope ps trailing)
  | unknown => Err (UnresolvedError unknown)
  end.
Proof.
  intros H. unfold Resolve. rewrite (render_hasRef _ _ _ H). case_bool_decide as Hp; [by subst ps|]. cbn [negb].
  unfold parse. rewrite (proj2 (scan_exact _ _ (map refOf ps) trailing)) by eauto. cbn [res_bind].
  pose proof (resolveLoop_unknown scope (map refOf ps) [] []) as Hu. change (filter (λ n, scope n = None) []) with (@nil str) in Hu.
  destruct (resolveLoop scope _ _ _) as [b u] eqn:E. cbn [snd] in Hu. rewrite <-Hu.
  destruct u as [|n u]; [|done]. symmetry in Hu. rewrite resolveLoop_text in E by (by apply unknown_none). by injection E as <-.
Qed.

Lemma References_render ps trailing :
  okPieces (Some validName) ps trailing → References (render ps trailing) = Ok (referencesLoop (map refOf ps) []).
Proof.
  intros H. unfold References. rewrite (render_hasRef _ _ _ H). case_bool_decide as Hp; [by subst ps|]. cbn [negb].
  unfold parse. by rewrite (proj2 (scan_exact _ _ (map refOf ps) trailing)) by eauto.
Qed.

(** A text is read in one way. *)
Lemma render_unique validate ps qs t u :
  okPieces validate ps t → okPieces validate qs u → render ps t = render qs u → map refOf ps = map refOf qs ∧ t = u.
Proof.
  intros Hp Hq E. pose proof (proj2 (scan_exact validate _ _ t) (ex_intro _ ps (conj eq_refl (conj Hp eq_refl)))) as H1.
  pose proof (proj2 (scan_exact validate _ _ u) (ex_intro _ qs (conj eq_refl (conj Hq eq_refl)))) as H2. rewrite E, H2 in H1.
  by injection H1 as -> ->.
Qed.

Lemma substitute_refs scope ps t :
  substitute scope ps t = concat (map (λ r, refLiteral r ++ default [] (scope (refName r))) (map refOf ps)) ++ t.
Proof. unfold substitute. by rewrite map_map. Qed.

(** The scan ends: it has fuel enough. *)
Lemma scanLoop_malformed validate fuel refs input e :
  (length input < fuel)%nat → scanLoop fuel validate refs input = Err e → ∃ text reason, e = MalformedError text reason.
Proof.
  revert refs input. induction fuel as [|f IH]; intros refs input Hf; [lia|]. cbn [scanLoop].
  destruct (Index_ input openDelim) as [m|] eqn:Em; [|done]. destruct (Index_ (drop _ input) closeDelim) as [k|]; [|intros [= <-]; eauto].
  case_bool_decide; [intros [= <-]; eauto|]. destruct (match validate with Some v => _ | None => false end); [intros [= <-]; eauto|]. apply IH.
  apply Index_free in Em as [_ Hm]. rewrite !length_drop. cbn in *. lia.
Qed.

(** A text without a reference is its own rendering. *)
Lemma parse_cases input :
  (∃ ps trailing, input = render ps trailing ∧ okPieces (Some validName) ps trailing) ∨
  (∃ text reason, hasRef input = true ∧ parse input = Err (MalformedError text reason)).
Proof.
  destruct (parse input) as [[refs trailing]|e] eqn:E.
  - apply scan_exact in E as (ps & -> & H & _). left. eauto.
  - destruct (hasRef input) eqn:Eh; [right|left].
    + apply scanLoop_malformed in E as (text & reason & ->); [eauto|lia].
    + unfold hasRef in Eh. rewrite contains_Index in Eh. exists [], input. split; [done|]. split; [done|]. by destruct (Index_ input openDelim).
Qed.

(** C33. What a format string resolves to.  The result is a text exactly when the input
    is literal texts and references in turn, each reference a dotted name that the
    scope has, and then it is the same literals with the values in place of the
    references; the values are not read again.  The names reported as unknown are
    exactly those of the references that the scope lacks, each once and in order; any
    other error is one of the input itself, whatever the scope. *)
Theorem Resolve_exact input (scope : Scope) :
  (∀ out, Resolve input scope = Ok out ↔
     ∃ ps trailing, input = render ps trailing ∧ okPieces (Some validName) ps trailing ∧
       Forall (λ p, is_Some (scope (pieceName p))) ps ∧ out = substitute scope ps trailing) ∧
  (∀ unknown, Resolve input scope = Err (UnresolvedError unknown) ↔
     unknown ≠ [] ∧ ∃ names, References input = Ok names ∧ unknown = filter (λ n, scope n = None) names) ∧
  (∀ e, References input = Err e ↔ Resolve input scope = Err e ∧ ∃ text reason, e = MalformedError text reason).
Proof.
  destruct (parse_cases input) as [(ps & trailing & -> & H)|(text & reason & Hr & He)].
  - rewrite (Resolve_render scope _ _ H), (References_render _ _ H). pose proof (unknown_none scope ps) as Hu. split_and!.
    + intros out. split.
      * destruct (filter _ _) eqn:E; [|done]. intros [= <-]. exists ps, trailing. split_and!; try done. by apply Hu.
      * intros (qs & t & Hrend & Hq & Hk & ->). destruct (render_unique _ _ _ _ _ H Hq Hrend) as [Hm <-].
        rewrite Hm, (proj2 (unknown_none scope qs) Hk). by rewrite !substitute_refs, Hm.
    + intros unknown. split.
      * destruct (filter _ _) as [|n u] eqn:E; [done|]. intros [= <-]. split; [done|]. eexists. split; [reflexivity|done].
      * intros (Hne & names & [= <-] & ->). by destruct (filter _ _).
    + intros e. split; [done|]. destruct (filter _ _); [by intros [? _]|]. intros [[= <-] (? & ? & ?)]. done.
  - assert (Hno : ∀ ps t, okPieces (Some validName) ps t → input ≠ render ps t).
    { intros ps t Hp ->. unfold parse in He. by rewrite (proj2 (scan_exact _ _ (map refOf ps) t)) in He by eauto. }
    unfold Resolve, References. rewrite Hr, He. cbn [negb res_bind]. split_and!.
    + intros out. split; [done|]. intros (ps & t & E & Hp & _). by destruct (Hno ps t).
    + intros unknown. split; [done|]. by intros (_ & names & ? & _).
    + intros e. split; [intros [= <-]; eauto|]. by intros [[= <-] _].
Qed.

(** A format string that is one reference and nothing else takes the type of its
    field: these are exactly the texts of that shape. *)
Theorem LoneRef_exact input name :
  LoneRef input = Some name ↔ ∃ body, input = openDelim ++ body ++ closeDelim ∧ free body closeDelim ∧ TrimSpace body = name ∧ name ≠ [].
Proof.
  unfold LoneRef. split.
  - destruct (Segments input) as [[|[|body] [|]]|] eqn:E; try done. intros [= <-]. unfold Segments in E.
    destruct (negb (hasRef input)); [by destruct input|]. apply res_bind_ok in E as ([refs trailing] & Hp & E). injection E as E.
    apply scan_exact in Hp as (ps & -> & [Hps Ht] & ->). destruct ps as [|p [|q ps]].
    + cbn in E. by destruct trailing.
    + apply Forall_cons in Hps as [(Hl & Hb & Hn & _) _]. cbn [map concat app refOf refLiteral refName] in E. rewrite app_nil_r in E.
      destruct (pieceLiteral p) eqn:Ep; [|by destruct trailing]. destruct trailing; [|done]. injection E as <-.
      exists (pieceBody p). unfold render, renderPiece. cbn [map concat]. rewrite Ep, !app_nil_r. by split_and!.
    + exfalso. apply (f_equal length) in E. cbn [map concat] in E. rewrite !length_app in E. cbn in E. lia.
  - intros (body & -> & Hb & Hn & Hne). assert (Hp : okPieces None [mkPiece [] body] []).
    { split; [|done]. constructor; [|done]. split_and!; [done|done| |done]. unfold pieceName. cbn [pieceBody]. congruence. }
    change (openDelim ++ body ++ closeDelim) with (renderPiece (mkPiece [] body)).
    replace (renderPiece (mkPiece [] body)) with (render [mkPiece [] body] []) by (unfold render; cbn [map concat]; by rewrite !app_nil_r).
    unfold Segments. rewrite (render_hasRef _ _ _ Hp). cbn [bool_decide negb]. rewrite bool_decide_false by done. cbn [negb].
    unfold parseRaw. rewrite (proj2 (scan_exact None _ (map refOf [mkPiece [] body]) [])) by eauto.
    cbn [res_bind map concat refOf refLiteral refName literalSegment app]. unfold pieceName. cbn [pieceBody pieceLiteral literalSegment app]. by rewrite Hn.
Qed.
