(* ===== verification/Template.v ===== *)
(** * Validation of a template's parameter spaces and dependencies

    src/internal/openjd/validate.go: the checks of a step's parameter space, of its
    dependencies and of cycles between steps, with the base specification's check of a
    format string (scope.go, fmtstring); a template that declares the extension for
    expressions has its format strings checked elsewhere.

    A validation answers a list of errors.  Pointers are texts as in the source; the
    message of an error is a constructor. *)

From S2P Require Import Prelude IntRange RangeExpr Chunk Combine StatusText GoText ExprType ExprFloat ExprValue ExprPath ExprText ExprQuote FmtString.
Open Scope Z_scope.

(** ** Errors *)

Inductive VMessage :=
  | VRequired | VNoDefinitions | VInvalidIdentifier (name : str) | VDuplicateParameter (name : str) | VUnknownType (name : str)
  | VInvalidInteger (v : str) | VInvalidNumber (v : str) | VEmptyPath | VRange (e : RangeExprError)
  | VMalformed (e : FmtError) | VNotAvailable (ref : str) | VNoFile (ref : str)
  | VChunksRequired | VNegative (n : Z) | VNotPositive | VConstraintRequired | VConstraint (v : str) | VOneChunk
  | VCombination (e : CombError) | VUndeclared (name : str) | VTwice (name : str) | VUnreferenced (name : str) | VAssociated (name : str)
  | VTooManyDefinitions (n : nat) | VTooManyValues (n : Z) | VOverlap
  | VEmptyIfSet | VDuplicateDependency (name : string) | VUnknownStep (name : string) | VSelfDependency | VDuplicateStep (name : string)
  | VCycle (name : string) | VNoSteps | VControl (allowLineBreaks : bool) (r : Z) | VTooLong (n : nat).

(** validate.go [ValidationError] *)
Record ValidationError := mkVError { Pointer : str; Message : VMessage }.

Abbreviation ValidationErrors := (list ValidationError).

Definition at_ (ptr : str) (rest : string) : str := ptr ++ of_string rest.

(** [fmt.Sprintf("%s/%d", ptr, i)] *)
Definition item (ptr : str) (i : nat) : str := ptr ++ of_string "/" ++ Itoa (Z.of_nat i).

(** ** Characters *)

(** validate.go [checkControlChars]: the first control character is reported. *)
Fixpoint checkControlRunes (rs : list Z) (ptr : str) (allowLineBreaks : bool) : ValidationErrors :=
  match rs with
  | [] => []
  | r :: rest =>
      if allowLineBreaks && ((r =? 10) || (r =? 13) || (r =? 9)) then checkControlRunes rest ptr allowLineBreaks
      else if negb (IsControl r) then checkControlRunes rest ptr allowLineBreaks
      else [mkVError ptr (VControl allowLineBreaks r)]
  end.

Definition checkControlChars (v ptr : str) (allowLineBreaks : bool) : ValidationErrors := checkControlRunes (runes v) ptr allowLineBreaks.

(** validate.go [validateNoControlChars], [maxDescriptionLen], [validateDescriptionText] *)
Definition validateNoControlChars (v ptr : str) : ValidationErrors := checkControlChars v ptr false.

Definition maxDescriptionLen : nat := 2048.

Definition validateDescriptionText (v ptr : str) : ValidationErrors :=
  match v with
  | [] => []
  | _ =>
      let n := length (runes v) in
      if (maxDescriptionLen <? n)%nat then [mkVError ptr (VTooLong n)] else checkControlChars v ptr true
  end.

(** ** Format strings *)

(** scope.go [Scope] *)
Inductive TemplateScope := ScopeJob | ScopeJobEnvironment | ScopeStepEnvironment | ScopeStepScript | ScopeStepTemplate.

#[export] Instance TemplateScope_eq_dec : EqDecision TemplateScope.
Proof. solve_decision. Defined.

(** scope.go [computeScopeFamilies]; no family is for expressions only. *)
Definition computeScopeFamilies (s : TemplateScope) : list str :=
  let base := [of_string "Param."; of_string "RawParam."] in
  match s with
  | ScopeJob | ScopeStepTemplate => base
  | ScopeJobEnvironment | ScopeStepEnvironment => base ++ [of_string "Env.File."]
  | ScopeStepScript => base ++ [of_string "Task.Param."; of_string "Task.RawParam."; of_string "Task.File."]
  end.

(** scope.go [computeDerivedPrefixes], which [derivedPrefixes] tabulates *)
Definition derivedPrefixes (s : TemplateScope) : list str :=
  match s with
  | ScopeStepTemplate => []
  | _ => computeScopeFamilies s ++ (if bool_decide (s = ScopeJob) then [] else [of_string "Session."])
  end.

(** validate.go [hasAnyPrefix], [checkFileRef] *)
Definition hasAnyPrefix (s : str) (prefixes : list str) : bool := existsb (λ p, has_prefix p s) prefixes.

Fixpoint checkFilePrefixes (prefixes : list str) (r ptr : str) (files : list str) : ValidationErrors :=
  match prefixes with
  | [] => []
  | p :: rest =>
      if negb (has_prefix p r) then checkFilePrefixes rest r ptr files
      else if negb (bool_decide (drop (length p) r ∈ files)) then [mkVError ptr (VNoFile r)]
      else checkFilePrefixes rest r ptr files
  end.

Definition checkFileRef (r ptr : str) (files : list str) : ValidationErrors :=
  checkFilePrefixes [of_string "Task.File."; of_string "Env.File."] r ptr files.

(** validate.go [validateFormatString] *)
Definition validateFormatString (s ptr : str) (scope : TemplateScope) (files : list str) : ValidationErrors :=
  match References s with
  | Err e => [mkVError ptr (VMalformed e)]
  | Ok refs =>
      concat (map (λ r, if negb (hasAnyPrefix r (derivedPrefixes scope)) then [mkVError ptr (VNotAvailable r)] else checkFileRef r ptr files) refs)
  end.

(** ** Task parameters *)

(** [strings.Contains(v, "{{")] *)
Definition isUnresolved (v : str) : bool := contains v (of_string "{{").

(** validate.go [validateRangeListValues]; [strconv.ParseInt(v, 10, 64)] reads what
    [strconv.Atoi] reads. *)
Definition validateRangeValue (tp : TaskParamDefinition) (v vptr : str) (exprDeclared : bool) : ValidationErrors :=
  (if exprDeclared then [] else validateFormatString v vptr ScopeJob []) ++
  (if isUnresolved v then []
   else
     match ParamType tp with
     | TaskParamTypeInt | TaskParamTypeChunkInt => match Atoi v with None => [mkVError vptr (VInvalidInteger v)] | Some _ => [] end
     | TaskParamTypeFloat => match ParseFloat v with None => [mkVError vptr (VInvalidNumber v)] | Some _ => [] end
     | TaskParamTypePath => match v with [] => [mkVError vptr VEmptyPath] | _ => [] end
     | _ => []
     end).

Definition validateRangeListValues (tp : TaskParamDefinition) (base : str) (exprDeclared : bool) : ValidationErrors :=
  concat (imap (λ i v, validateRangeValue tp v (item (at_ base "/range") i) exprDeclared) (ParamRangeList tp)).

(** validate.go [validateChunkFormatStrings] *)
Definition validateChunkFormatStrings (c : TaskChunks) (base : str) : ValidationErrors :=
  match DefaultTaskCountExpr c with None => [] | Some e => validateFormatString e (at_ base "/chunks/defaultTaskCount") ScopeJob [] end ++
  match TargetRuntimeSecondsExpr c with None => [] | Some e => validateFormatString e (at_ base "/chunks/targetRuntimeSeconds") ScopeJob [] end.

(** validate.go [validateChunks] *)
Definition validateChunks (c : TaskChunks) (base : str) : ValidationErrors :=
  match DefaultTaskCountExpr c with
  | None => if DefaultTaskCount c <=? 0 then [mkVError (at_ base "/chunks/defaultTaskCount") VNotPositive] else []
  | Some _ => []
  end ++
  (let ptr := at_ base "/chunks/rangeConstraint" in
   if bool_decide (RangeConstraint c = []) then [mkVError ptr VConstraintRequired]
   else if bool_decide (RangeConstraint c = of_string "CONTIGUOUS") || bool_decide (RangeConstraint c = of_string "NONCONTIGUOUS") then []
   else [mkVError ptr (VConstraint (RangeConstraint c))]).

Definition isChunkInt (t : TaskParamType) : bool := match t with TaskParamTypeChunkInt => true | _ => false end.
Definition isIntType (t : TaskParamType) : bool := match t with TaskParamTypeInt | TaskParamTypeChunkInt => true | _ => false end.

(** validate.go [validateChunksField] *)
Definition validateChunksField (tp : TaskParamDefinition) (base : str) (exprDeclared : bool) : ValidationErrors :=
  match ParamChunks tp with
  | None => if isChunkInt (ParamType tp) then [mkVError (at_ base "/chunks") VChunksRequired] else []
  | Some c =>
      match TargetRuntimeSeconds c with
      | Some n => if n <? 0 then [mkVError (at_ base "/chunks/targetRuntimeSeconds") (VNegative n)] else []
      | None => []
      end ++
      (if exprDeclared then [] else validateChunkFormatStrings c base) ++
      (if isChunkInt (ParamType tp) then validateChunks c base else [])
  end.

(** validate.go [validateTaskParamRangeAndChunks] *)
Definition validateTaskParamRangeAndChunks (tp : TaskParamDefinition) (base : str) (exprDeclared : bool) : ValidationErrors :=
  match ParamRangeExpr tp, ParamRangeList tp with None, [] => [mkVError (at_ base "/range") VRequired] | _, _ => [] end ++
  validateRangeListValues tp base exprDeclared ++
  match ParamRangeExpr tp with
  | None => []
  | Some e =>
      (if exprDeclared then [] else validateFormatString e (at_ base "/range") ScopeJob []) ++
      (if isIntType (ParamType tp) && negb (isUnresolved e) then
         match validateIntRangeExpr e with Err err => [mkVError (at_ base "/range") (VRange err)] | Ok _ => [] end
       else [])
  end ++
  validateChunksField tp base exprDeclared.

(** validate.go [validateTaskParam], with the names seen after it *)
Definition validateTaskParam (tp : TaskParamDefinition) (base : str) (seen : gset str) (exprDeclared : bool) : ValidationErrors * gset str :=
  let '(nameErrs, seen) :=
    if negb (isIdentifier (ParamName tp)) then ([mkVError (at_ base "/name") (VInvalidIdentifier (ParamName tp))], seen)
    else if bool_decide (ParamName tp ∈ seen) then ([mkVError (at_ base "/name") (VDuplicateParameter (ParamName tp))], seen)
    else ([], {[ParamName tp]} ∪ seen) in
  let typeErrs :=
    match ParamType tp with
    | TaskParamTypeOther [] => [mkVError (at_ base "/type") VRequired]
    | TaskParamTypeOther n => [mkVError (at_ base "/type") (VUnknownType n)]
    | _ => []
    end in
  (nameErrs ++ typeErrs ++ validateTaskParamRangeAndChunks tp base exprDeclared, seen).

(** ** Combinations *)

(** validate.go [findChunkInAssoc]; the empty text stands for none. *)
Fixpoint findChunkInAssoc (node : combNode) (chunked : gset str) : str :=
  match node with
  | combIdent _ => []
  | combProduct children => foldr (λ c rest, match findChunkInAssoc c chunked with [] => rest | name => name end) [] children
  | combAssoc _ => default [] (head (filter (λ n, n ∈ chunked) (collectIdents node)))
  end.

(** The loop over the names of a combination: undeclared ones, and repeated ones. *)
Fixpoint combinationNames (names : list str) (seen paramNames : gset str) (ptr : str) : ValidationErrors :=
  match names with
  | [] => []
  | n :: rest =>
      (if bool_decide (n ∈ paramNames) then [] else [mkVError ptr (VUndeclared n)]) ++
      (if bool_decide (n ∈ seen) then [mkVError ptr (VTwice n)] else []) ++
      combinationNames rest ({[n]} ∪ seen) paramNames ptr
  end.

(** validate.go [validateCombination]; the order of the loop over the map of declared
    names is not fixed, that of the model is one. *)
Definition validateCombination (expr : str) (paramNames chunked : gset str) (ptr : str) : ValidationErrors :=
  match combinationIdentifiers expr with
  | Err e => [mkVError ptr (VCombination e)]
  | Ok (names, tree) =>
      combinationNames names ∅ paramNames ptr ++
      concat (map (λ n, if bool_decide (n ∈ names) then [] else [mkVError ptr (VUnreferenced n)]) (elements paramNames)) ++
      (if bool_decide (chunked = ∅) then []
       else match findChunkInAssoc tree chunked with [] => [] | name => [mkVError ptr (VAssociated name)] end)
  end.

(** ** Parameter spaces *)

(** The loop over the definitions: the errors, and the names seen. *)
Fixpoint validateTaskParams (i : nat) (tps : list TaskParamDefinition) (base : str) (seen : gset str) (exprDeclared : bool) : ValidationErrors * gset str :=
  match tps with
  | [] => ([], seen)
  | tp :: rest =>
      let '(errs, seen) := validateTaskParam tp (item (at_ base "/taskParameterDefinitions") i) seen exprDeclared in
      let '(more, seen) := validateTaskParams (S i) rest base seen exprDeclared in
      (errs ++ more, seen)
  end.

(** validate.go [validateParameterSpace] *)
Definition validateParameterSpace (ps : StepParameterSpace) (base : str) (exprDeclared : bool) : ValidationErrors :=
  match TaskParameterDefinitions ps with
  | [] => [mkVError (at_ base "/taskParameterDefinitions") VNoDefinitions]
  | tps =>
      let '(errs, paramNames) := validateTaskParams 0 tps base ∅ exprDeclared in
      let chunks := filter (λ tp, isChunkInt (ParamType tp) = true) tps in
      let chunked := list_to_set (map ParamName chunks) : gset str in
      errs ++
      (if (1 <? length chunks)%nat then [mkVError (at_ base "/taskParameterDefinitions") VOneChunk] else []) ++
      match Combination ps with None => [] | Some e => validateCombination e paramNames chunked (at_ base "/combination") end
  end.

(** validate.go [maxTaskParameterDefinitions], [maxTaskParamValues] *)
Definition maxTaskParameterDefinitions : nat := 16.
Definition maxTaskParamValues : Z := 1024.

(** validate.go [taskParamValueCount] *)
Definition taskParamValueCount (tp : TaskParamDefinition) : option Z :=
  match ParamRangeExpr tp with
  | Some e =>
      if isIntType (ParamType tp) then if isUnresolved e then None else intRangeExprCount e
      else Some (Z.of_nat (length (ParamRangeList tp)))
  | None => Some (Z.of_nat (length (ParamRangeList tp)))
  end.

Definition tooManyValues (tp : TaskParamDefinition) : bool :=
  match taskParamValueCount tp with Some n => maxTaskParamValues <? n | None => false end.

(** validate.go [validateParameterSpaceLimits] *)
Definition validateParamLimits (tp : TaskParamDefinition) (ptr : str) : ValidationErrors :=
  match taskParamValueCount tp with Some n => if maxTaskParamValues <? n then [mkVError ptr (VTooManyValues n)] else [] | None => [] end ++
  match ParamRangeExpr tp with
  | Some e => if isIntType (ParamType tp) then match intRangeHasOverlap e with Ok true => [mkVError ptr VOverlap] | _ => [] end else []
  | None => []
  end.

Definition validateParameterSpaceLimits (ps : StepParameterSpace) (base : str) : ValidationErrors :=
  let tps := TaskParameterDefinitions ps in
  (if (maxTaskParameterDefinitions <? length tps)%nat then [mkVError (at_ base "/taskParameterDefinitions") (VTooManyDefinitions (length tps))] else []) ++
  concat (imap (λ j tp, validateParamLimits tp (at_ (item (at_ base "/taskParameterDefinitions") j) "/range")) tps).

(** ** Steps *)

(** model.go [StepTemplate], as far as the checks below read it *)
Record StepTemplate := mkStepTemplate {
  TemplateName : string;
  TemplateDescription : str;
  Dependencies : list string;
  DependenciesSet : bool;
  ParameterSpace : option StepParameterSpace;
}.

(** validate.go [parameterSpaceOverCaps] *)
Definition parameterSpaceOverCaps (steps : list StepTemplate) : bool :=
  existsb (λ s, match ParameterSpace s with
    | None => false
    | Some ps => (maxTaskParameterDefinitions <? length (TaskParameterDefinitions ps))%nat || existsb tooManyValues (TaskParameterDefinitions ps)
    end) steps.

(** validate.go [requireNonEmptyIfSet] *)
Definition requireNonEmptyIfSet (set : bool) (n : nat) (ptr : str) : ValidationErrors :=
  if negb set || (0 <? n)%nat then [] else [mkVError ptr VEmptyIfSet].

(** The loop of [validateStep] over the dependencies. *)
Fixpoint validateDependencies (j : nat) (deps : list string) (seen : gset string) (self : string) (stepNames : gset string) (base : str) : ValidationErrors :=
  match deps with
  | [] => []
  | d :: rest =>
      let ptr := at_ (item (at_ base "/dependencies") j) "/dependsOn" in
      (if bool_decide (d ∈ seen) && negb (bool_decide (d = ""%string)) then [mkVError ptr (VDuplicateDependency d)] else []) ++
      (if bool_decide (d = ""%string) then [mkVError ptr VRequired]
       else
         (if bool_decide (d ∈ stepNames) then [] else [mkVError ptr (VUnknownStep d)]) ++
         (if bool_decide (d = self) then [mkVError ptr VSelfDependency] else [])) ++
      validateDependencies (S j) rest ({[d]} ∪ seen) self stepNames base
  end.

Definition validateStepDependencies (s : StepTemplate) (idx : nat) (stepNames : gset string) : ValidationErrors :=
  let base := item (of_string "/steps") idx in
  requireNonEmptyIfSet (DependenciesSet s) (length (Dependencies s)) (at_ base "/dependencies") ++
  validateDependencies 0 (Dependencies s) ∅ (TemplateName s) stepNames base.

(** The loop of [ValidateWithBudget] over the names of the steps. *)
Fixpoint validateStepNames (i : nat) (steps : list StepTemplate) (names : gset string) : ValidationErrors * gset string :=
  match steps with
  | [] => ([], names)
  | s :: rest =>
      let ptr := at_ (item (of_string "/steps") i) "/name" in
      if bool_decide (TrimSpace (of_string (TemplateName s)) = []) then
        let '(more, names) := validateStepNames (S i) rest names in (mkVError ptr VRequired :: more, names)
      else
        let errs :=
          validateNoControlChars (of_string (TemplateName s)) ptr ++
          validateDescriptionText (TemplateDescription s) (at_ (item (of_string "/steps") i) "/description") ++
          (if bool_decide (TemplateName s ∈ names) then [mkVError ptr (VDuplicateStep (TemplateName s))] else []) in
        let '(more, names) := validateStepNames (S i) rest ({[TemplateName s]} ∪ names) in (errs ++ more, names)
  end.

(** ** Cycles *)

Inductive color := White | Gray | Black.

#[export] Instance color_eq_dec : EqDecision color.
Proof. solve_decision. Defined.

(** The edges that [validateNoCycles] builds: those of every step with a name. *)
Definition depsOf (steps : list StepTemplate) (name : string) : list string :=
  concat (map Dependencies (filter (λ s, TemplateName s = name ∧ name ≠ ""%string) steps)).

(** The closure [visit]: the colours, and the step at which a cycle was found.  [None]
    is a recursion deeper than the fuel. *)
Definition DFS : Type := gmap string color * option string.

Definition colorOf (st : gmap string color) (name : string) : color := default White (st !! name).

Fixpoint visit (fuel : nat) (deps : string → list string) (name : string) (st : DFS) : option DFS :=
  match fuel with
  | O => None
  | S f =>
      match st.2 with
      | Some _ => Some st
      | None =>
          match colorOf st.1 name with
          | Gray => Some (st.1, Some name)
          | Black => Some st
          | White =>
              let visitAll :=
                fix visitAll (ds : list string) (st : DFS) : option DFS :=
                  match ds with
                  | [] => Some st
                  | d :: ds' => match visit f deps d st with None => None | Some st => visitAll ds' st end
                  end in
              match visitAll (deps name) (<[name := Gray]> st.1, None) with
              | None => None
              | Some st => Some (<[name := Black]> st.1, st.2)
              end
          end
      end
  end.

Fixpoint visitSteps (fuel : nat) (deps : string → list string) (steps : list StepTemplate) (st : DFS) : option DFS :=
  match steps with
  | [] => Some st
  | s :: rest =>
      if bool_decide (TemplateName s = ""%string) then visitSteps fuel deps rest st
      else
        match visit fuel deps (TemplateName s) st with
        | None => None
        | Some (c, Some e) => Some (c, Some e)
        | Some st => visitSteps fuel deps rest st
        end
  end.

(** Every name a recursion can mark: it marks each once. *)
Definition graphNames (steps : list StepTemplate) : list string := map TemplateName steps ++ concat (map Dependencies steps).

(** validate.go [validateNoCycles] *)
Definition validateNoCycles (steps : list StepTemplate) : option ValidationErrors :=
  match visitSteps (S (length (graphNames steps))) (depsOf steps) steps (∅, None) with
  | None => None
  | Some (_, Some name) => Some [mkVError (of_string "/steps") (VCycle name)]
  | Some (_, None) => Some []
  end.

(** The checks of the steps together, as [ValidateWithBudget] composes them. *)
Definition validateSteps (steps : list StepTemplate) (exprDeclared : bool) : option ValidationErrors :=
  let noSteps := match steps with [] => [mkVError (of_string "/steps") VNoSteps] | _ => [] end in
  let '(nameErrs, stepNames) := validateStepNames 0 steps ∅ in
  let stepErrs := concat (imap (λ i s,
    validateStepDependencies s i stepNames ++
    match ParameterSpace s with None => [] | Some ps => validateParameterSpace ps (at_ (item (of_string "/steps") i) "/parameterSpace") exprDeclared end) steps) in
  match validateNoCycles steps with
  | None => None
  | Some cycles => Some (noSteps ++ nameErrs ++ stepErrs ++ cycles)
  end.
