(* ===== verification/Validated.v ===== *)
(** * What a validated template gives

    The validation of src/internal/openjd/validate.go against the code that relies on
    it: the cycle check is exact, a job made from accepted steps always has a step to
    release or to cancel (deps.go), and an accepted parameter space expands (expand.go). *)

From S2P Require Import Prelude IntRange RangeExpr Chunk Combine Schema Sched Deps StatusText GoText ExprType ExprFloat ExprValue ExprPath ExprText ExprQuote FmtString Template.
Open Scope Z_scope.

(** ** Cycles *)

Section Graph.
Context (deps : string → list string).

Definition edge (x y : string) : Prop := y ∈ deps x.

(** Every path from a step ends. *)
Abbreviation ends := (Acc (λ y x, edge x y)).

Lemma ends_acyclic x : ends x → ¬ tc edge x x.
Proof.
  induction 1 as [x _ IH]. intros H. inversion H as [? ? E|? y ? E Hyx]; subst; [by apply (IH x E), tc_once|].
  apply (IH y E). by eapply tc_r.
Qed.

(** The loop of [visit] over the dependencies. *)
Definition visitList (v : string → DFS → option DFS) : list string → DFS → option DFS :=
  fix go ds st :=
    match ds with
    | [] => Some st
    | d :: ds' => match v d st with None => None | Some st => go ds' st end
    end.

Lemma visit_S f name c :
  visit (S f) deps name (c, None) =
  match colorOf c name with
  | Gray => Some (c, Some name)
  | Black => Some (c, None)
  | White =>
      match visitList (visit f deps) (deps name) (<[name := Gray]> c, None) with
      | None => None
      | Some st => Some (<[name := Black]> st.1, st.2)
      end
  end.
Proof. reflexivity. Qed.

Lemma visit_found f name c e st : visit f deps name (c, Some e) = Some st → st = (c, Some e).
Proof. destruct f; [done|]. cbn. by intros [= <-]. Qed.

Lemma visitList_found f ds c e st : visitList (visit f deps) ds (c, Some e) = Some st → st = (c, Some e).
Proof.
  induction ds as [|d ds IH]; cbn; [by intros [= <-]|]. destruct (visit f deps d (c, Some e)) as [st1|] eqn:E; [|done].
  apply visit_found in E as ->. exact IH.
Qed.

Lemma colorOf_insert c n m k : colorOf (<[n := k]> c) m = if decide (m = n) then k else colorOf c m.
Proof.
  unfold colorOf. destruct (decide (m = n)) as [->|Hne]; [by rewrite lookup_insert_eq|by rewrite lookup_insert_ne by congruence].
Qed.

(** Between two visits: black steps are done with. *)
Definition blackEnds (c : gmap string color) : Prop := ∀ b, colorOf c b = Black → ends b.

(** What a visit without a finding leaves behind. *)
Definition kept (c c' : gmap string color) : Prop :=
  (∀ g, colorOf c' g = Gray ↔ colorOf c g = Gray) ∧ blackEnds c' ∧ (∀ b, colorOf c b = Black → colorOf c' b = Black).

Definition visited (names : list string) (c : gmap string color) (st : DFS) : Prop :=
  match st.2 with
  | Some _ => ∃ x, tc edge x x
  | None => kept c st.1 ∧ Forall (λ n, colorOf st.1 n = Black) names
  end.

Lemma visitList_visited f ds c st :
  (∀ name c st, (∀ g, colorOf c g = Gray → tc edge g name) → blackEnds c → visit f deps name (c, None) = Some st → visited [name] c st) →
  (∀ d g, d ∈ ds → colorOf c g = Gray → tc edge g d) → blackEnds c →
  visitList (visit f deps) ds (c, None) = Some st → visited ds c st.
Proof.
  intros IH. revert c. induction ds as [|d ds IHds]; intros c Hg Hb; cbn [visitList].
  { intros [= <-]. split; [|done]. split_and!; done. }
  destruct (visit f deps d (c, None)) as [[c1 [e|]]|] eqn:E; [| |done].
  - intros H. change ((fix go (ds : list string) (st : DFS) {struct ds} := _) ds (c1, Some e)) with (visitList (visit f deps) ds (c1, Some e)) in H.
    apply visitList_found in H as ->. apply IH in E; [exact E| |done]. intros g. apply Hg. set_solver.
  - intros H. change ((fix go (ds : list string) (st : DFS) {struct ds} := _) ds (c1, None)) with (visitList (visit f deps) ds (c1, None)) in H.
    apply IH in E as [(Hg1 & Hb1 & Hk1) Hd]; [|intros g; apply Hg; set_solver|done]. cbn [fst] in *.
    apply IHds in H; [|intros d' g Hd' Hgr; apply Hg; [set_solver|by apply Hg1]|done].
    unfold visited in *. destruct (st.2); [done|]. destruct H as [(Hg2 & Hb2 & Hk2) Hds]. split.
    + split_and!; [intros g; by rewrite Hg2|done|auto].
    + constructor; [|done]. apply Hk2. by inversion Hd.
Qed.

Lemma visit_visited f name c st :
  (∀ g, colorOf c g = Gray → tc edge g name) → blackEnds c → visit f deps name (c, None) = Some st → visited [name] c st.
Proof.
  revert name c st. induction f as [|f IH]; intros name c st Hg Hb; [done|]. rewrite visit_S. destruct (colorOf c name) eqn:Ec.
  - set (c1 := <[name := Gray]> c). destruct (visitList _ _ _) as [[c2 e]|] eqn:E; [|done]. intros [= <-].
    apply visitList_visited in E; [|exact IH| |].
    + unfold visited in *. cbn [fst snd] in *. destruct e; [done|]. destruct E as [(Hg2 & Hb2 & Hk2) Hds].
      assert (Hends : ends name) by (constructor; intros y Hy; apply Hb2; rewrite Forall_forall in Hds; by apply Hds).
      split; [split_and!|].
      * intros g. rewrite colorOf_insert. destruct (decide (g = name)) as [->|Hne]; [by rewrite Ec|]. rewrite Hg2. unfold c1.
        rewrite colorOf_insert. by rewrite decide_False by done.
      * intros b. rewrite colorOf_insert. destruct (decide (b = name)) as [->|Hne]; [done|apply Hb2].
      * intros b Hbl. rewrite colorOf_insert. destruct (decide (b = name)) as [->|Hne]; [done|]. apply Hk2. unfold c1. rewrite colorOf_insert.
        by rewrite decide_False by done.
      * apply Forall_singleton. rewrite colorOf_insert. by rewrite decide_True.
    + intros d g Hd. unfold c1. rewrite colorOf_insert. destruct (decide (g = name)) as [->|Hne]; [intros _; by apply tc_once|].
      intros Hgr. eapply tc_r; [by apply Hg|done].
    + intros b. unfold c1. rewrite colorOf_insert. destruct (decide (b = name)); [done|apply Hb].
  - intros [= <-]. exists name. by apply Hg.
  - intros [= <-]. split; [|by apply Forall_singleton]. by split_and!.
Qed.

Lemma visitSteps_visited f steps c st :
  (∀ g, colorOf c g ≠ Gray) → blackEnds c → visitSteps f deps steps (c, None) = Some st →
  visited (filter (λ n, n ≠ ""%string) (map TemplateName steps)) c st.
Proof.
  revert c. induction steps as [|s steps IH]; intros c Hg Hb; cbn [visitSteps map].
  { intros [= <-]. split; [|done]. by split_and!. }
  case_bool_decide as Hn; [rewrite filter_cons_False by naive_solver; by apply IH|]. rewrite filter_cons_True by done.
  destruct (visit f deps _ (c, None)) as [[c1 [e|]]|] eqn:E; [| |done].
  - intros [= <-]. apply visit_visited in E; [exact E|intros g Hgr; by destruct (Hg g)|done].
  - apply visit_visited in E as [(Hg1 & Hb1 & Hk1) Hd]; [|intros g Hgr; by destruct (Hg g)|done]. cbn [fst] in *. intros H.
    apply IH in H; [|intros g Hgr; by apply (Hg g), Hg1|done]. unfold visited in *. destruct (st.2); [done|].
    destruct H as [(Hg2 & Hb2 & Hk2) Hds]. split.
    + split_and!; [intros g; by rewrite Hg2|done|auto].
    + constructor; [|done]. apply Hk2. by inversion Hd.
Qed.

(** *** The depth of the recursion *)

Context (U : gset string) (HU : ∀ x y, y ∈ deps x → y ∈ U).

Definition whites (c : gmap string color) : gset string := filter (λ n, colorOf c n = White) U.

Lemma visitList_answers f ds c e :
  (∀ name c e, name ∈ U → (size (whites c) < f)%nat → ∃ st, visit f deps name (c, e) = Some st ∧ whites st.1 ⊆ whites c) →
  (∀ d, d ∈ ds → d ∈ U) → (size (whites c) < f)%nat →
  ∃ st, visitList (visit f deps) ds (c, e) = Some st ∧ whites st.1 ⊆ whites c.
Proof.
  intros IH. revert c e. induction ds as [|d ds IHds]; intros c e Hd Hf; cbn [visitList]; [by eexists|].
  destruct (IH d c e) as ([c1 e1] & -> & Hw); [apply Hd; set_solver|done|]. cbn [fst] in Hw.
  destruct (IHds c1 e1) as (st & Hst & Hw2); [set_solver|pose proof (subseteq_size _ _ Hw); lia|].
  exists st. split; [exact Hst|]. by etrans.
Qed.

Lemma visit_answers f name c e :
  name ∈ U → (size (whites c) < f)%nat → ∃ st, visit f deps name (c, e) = Some st ∧ whites st.1 ⊆ whites c.
Proof.
  revert name c e. induction f as [|f IH]; intros name c e Hn Hf; [lia|]. destruct e as [e|]; [by eexists|]. rewrite visit_S.
  destruct (colorOf c name) eqn:Ec; [|by eexists|by eexists].
  assert (Hw1 : whites (<[name := Gray]> c) ⊆ whites c ∖ {[name]}).
  { intros n. unfold whites. rewrite elem_of_difference, !elem_of_filter, elem_of_singleton, colorOf_insert. destruct (decide (n = name)); [by intros [? _]|naive_solver]. }
  assert (Hsz : (size (whites c ∖ {[name]}) < size (whites c))%nat).
  { apply subset_size. assert (name ∈ whites c) by (by apply elem_of_filter). set_solver. }
  destruct (visitList_answers f (deps name) (<[name := Gray]> c) None) as ([c2 e2] & -> & Hw2); [exact IH|intros d; apply HU| |].
  { pose proof (subseteq_size _ _ Hw1). lia. }
  eexists. split; [reflexivity|]. cbn [fst] in *. intros n. unfold whites. rewrite elem_of_filter, colorOf_insert.
  destruct (decide (n = name)); [by intros [? _]|]. intros Hin. assert (n ∈ whites c2) as Hw by (by apply elem_of_filter). set_solver.
Qed.

Lemma visitSteps_answers f steps c :
  (∀ s, s ∈ steps → TemplateName s ∈ U) → (size U < f)%nat → ∃ st, visitSteps f deps steps (c, None) = Some st.
Proof.
  revert c. induction steps as [|s steps IH]; intros c Hs Hf; cbn [visitSteps]; [by eexists|].
  case_bool_decide; [apply IH; [set_solver|done]|]. destruct (visit_answers f (TemplateName s) c None) as ([c1 [e|]] & -> & _).
  - apply Hs. set_solver.
  - assert (size (whites c) ≤ size U)%nat by (apply subseteq_size; unfold whites; set_solver). lia.
  - by eexists.
  - apply IH; [set_solver|done].
Qed.
End Graph.

Lemma size_list_le (l : list string) : (size (list_to_set l : gset string) ≤ length l)%nat.
Proof.
  induction l as [|x l IH]; [done|]. cbn [list_to_set length]. rewrite size_union_alt, size_singleton.
  assert (size ((list_to_set l : gset string) ∖ {[x]}) ≤ size (list_to_set l : gset string))%nat by (apply subseteq_size; set_solver). lia.
Qed.

(** Step [x] waits for step [y]. *)
Definition dependsOn (steps : list StepTemplate) : string → string → Prop := edge (depsOf steps).

Lemma elem_of_depsOf steps x y :
  y ∈ depsOf steps x ↔ ∃ s, s ∈ steps ∧ TemplateName s = x ∧ x ≠ ""%string ∧ y ∈ Dependencies s.
Proof.
  unfold depsOf. rewrite list_elem_of_In, in_concat. setoid_rewrite in_map_iff. setoid_rewrite <-list_elem_of_In.
  setoid_rewrite list_elem_of_filter. naive_solver.
Qed.

Lemma graphNames_closed steps x y : y ∈ depsOf steps x → y ∈ graphNames steps.
Proof.
  rewrite elem_of_depsOf. intros (s & Hs & _ & _ & Hy). unfold graphNames. apply elem_of_app. right.
  apply list_elem_of_In, in_concat. exists (Dependencies s). split; [by apply in_map, list_elem_of_In|by apply list_elem_of_In].
Qed.

(** The check answers; an empty answer means that every path ends. *)
Lemma validateNoCycles_spec steps :
  ∃ errs, validateNoCycles steps = Some errs ∧
    ((errs = [] ∧ ∀ s, s ∈ steps → TemplateName s ≠ ""%string → Acc (λ y x, dependsOn steps x y) (TemplateName s)) ∨
     (errs ≠ [] ∧ ∃ x, tc (dependsOn steps) x x)).
Proof.
  unfold validateNoCycles. set (U := list_to_set (graphNames steps) : gset string).
  destruct (visitSteps_answers (depsOf steps) U ltac:(intros x y Hy; apply elem_of_list_to_set; by eapply graphNames_closed)
    (S (length (graphNames steps))) steps ∅) as [[c e] E].
  - intros s Hs. apply elem_of_list_to_set, elem_of_app. left. by apply list_elem_of_fmap_2.
  - pose proof (size_list_le (graphNames steps)). unfold U. lia.
  - rewrite E. apply visitSteps_visited in E; [|done|done]. unfold visited in E. cbn [fst snd] in E. destruct e as [e|]; (eexists; split; [reflexivity|]).
    + by right.
    + destruct E as [(_ & Hb & _) Hall]. left. split; [done|]. intros s Hs Hn. apply Hb. rewrite Forall_forall in Hall. apply Hall.
      apply list_elem_of_filter. split; [done|]. by apply list_elem_of_fmap_2.
Qed.

(** C23. The cycle check is exact, and its recursion ends: it reports nothing exactly when
    no step waits for itself, directly or through other steps, and otherwise it reports
    a cycle that is there. *)
Theorem validateNoCycles_exact steps :
  match validateNoCycles steps with
  | None => False
  | Some [] => ∀ x, ¬ tc (dependsOn steps) x x
  | Some _ => ∃ x, tc (dependsOn steps) x x
  end.
Proof.
  destruct (validateNoCycles_spec steps) as (errs & -> & [[-> H]|[Hne H]]); [|by destruct errs]. intros x Hx.
  assert (Hd : ∃ y, y ∈ depsOf steps x) by (inversion Hx; subst; eauto). destruct Hd as (y & (s & Hs & <- & Hne & _)%elem_of_depsOf).
  by apply (ends_acyclic (depsOf steps) (TemplateName s) (H s Hs Hne)).
Qed.

(** ** A validated job is never stuck *)

Lemma app_nil_inv {A} (l m : list A) : l ++ m = [] → l = [] ∧ m = [].
Proof. apply app_eq_nil. Qed.

Lemma concat_imap_nil {A B} (f : nat → A → list B) l : concat (imap f l) = [] → ∀ i x, l !! i = Some x → f i x = [].
Proof.
  revert f. induction l as [|y l IH]; intros f H [|i] x; cbn in *; try done; apply app_nil_inv in H as [H1 H2].
  - by intros [= ->].
  - apply (IH (f ∘ S) H2).
Qed.

Lemma validateStepNames_ok i steps names out :
  validateStepNames i steps names = ([], out) →
  (∀ s, s ∈ steps → TemplateName s ≠ ""%string) ∧ ∀ n, n ∈ out → n ∈ names ∨ ∃ s, s ∈ steps ∧ TemplateName s = n.
Proof.
  revert i names. induction steps as [|s steps IH]; intros i names; cbn [validateStepNames]; [intros [= <-]; split; [set_solver|auto]|].
  case_bool_decide as Ht; [by destruct (validateStepNames _ _ _)|]. destruct (validateStepNames _ _ _) as [more names'] eqn:E.
  intros [= H ->]. apply app_nil_inv in H as [_ ->]. apply IH in E as [Hn Ho]. split.
  - intros s' [->|Hs]%elem_of_cons; [|by apply Hn]. intros He. by rewrite He in Ht.
  - intros n Hin. destruct (Ho n Hin) as [Hs|(s' & ? & ?)]; [|right; set_solver].
    apply elem_of_union in Hs as [->%elem_of_singleton|?]; [right; set_solver|by left].
Qed.

Lemma validateDependencies_ok j deps seen self names base : validateDependencies j deps seen self names base = [] → ∀ d, d ∈ deps → d ∈ names.
Proof.
  revert j seen. induction deps as [|d deps IH]; intros j seen; cbn [validateDependencies]; [set_solver|]. intros H.
  apply app_nil_inv in H as [_ H]. apply app_nil_inv in H as [H1 H2]. intros d' [->|Hd]%elem_of_cons; [|by eapply IH].
  case_bool_decide; [done|]. apply app_nil_inv in H1 as [H1 _]. by case_bool_decide.
Qed.

Lemma validateSteps_ok ts ex : validateSteps ts ex = Some [] →
  (∀ s, s ∈ ts → TemplateName s ≠ ""%string ∧ Acc (λ y x, dependsOn ts x y) (TemplateName s)) ∧
  (∀ s d, s ∈ ts → d ∈ Dependencies s → ∃ s', s' ∈ ts ∧ TemplateName s' = d) ∧
  ∀ i s ps, ts !! i = Some s → ParameterSpace s = Some ps → validateParameterSpace ps (at_ (item (of_string "/steps") i) "/parameterSpace") ex = [].
Proof.
  unfold validateSteps. destruct (validateStepNames 0 ts ∅) as [nameErrs names] eqn:En.
  destruct (validateNoCycles_spec ts) as (errs & -> & He). intros [= H]. apply app_nil_inv in H as [_ H]. apply app_nil_inv in H as [-> H].
  apply app_nil_inv in H as [Hs ->]. destruct He as [[_ Hacc]|[? _]]; [|done]. apply validateStepNames_ok in En as [Hn Ho]. split_and!.
  - intros s Hin. split; [by apply Hn|]. apply Hacc; [done|by apply Hn].
  - intros s d Hin Hd. apply list_elem_of_lookup in Hin as [i Hi]. pose proof (concat_imap_nil _ _ Hs i s Hi) as H1. apply app_nil_inv in H1 as [H1 _].
    apply app_nil_inv in H1 as [_ H1]. apply validateDependencies_ok with (d := d) in H1; [|done]. destruct (Ho d H1); set_solver.
  - intros i s ps Hi Hps. pose proof (concat_imap_nil _ _ Hs i s Hi) as H1. apply app_nil_inv in H1 as [_ H1]. by rewrite Hps in H1.
Qed.

(** The job's rows are the steps of the template. *)
Record StoredSteps (db : DB) (jobID : string) (ts : list StepTemplate) : Prop := mkStored {
  stored_row : ∀ s, s ∈ ts → ∃ k u, steps db !! k = Some u ∧ StepJobID u = jobID ∧ StepName u = TemplateName s ∧ DependsOn u = Dependencies s;
  stored_step : ∀ k u, steps db !! k = Some u → StepJobID u = jobID → ∃ s, s ∈ ts ∧ StepName u = TemplateName s ∧ DependsOn u = Dependencies s;
  stored_unique : NamesUnique db jobID;
}.

Lemma either_all {A} (P Q : A → Prop) (l : list A) : (∀ x, x ∈ l → P x ∨ Q x) → (∃ x, x ∈ l ∧ P x) ∨ (∀ x, x ∈ l → Q x).
Proof.
  induction l as [|y l IH]; intros H; [right; set_solver|]. destruct (H y) as [Hy|Hy]; [set_solver|left; set_solver|].
  destruct IH as [(x & Hx & Hp)|Hq]; [set_solver|left; set_solver|right; set_solver].
Qed.

(** Among the pending steps one waits for none of the others. *)
Lemma pending_first db jobID ts ex k u :
  validateSteps ts ex = Some [] → StoredSteps db jobID ts →
  (∀ j v, steps db !! j = Some v → StepJobID v = jobID → StepStatusOf v = StepPending ∨ step_terminal (StepStatusOf v) = true) →
  steps db !! k = Some u → StepJobID u = jobID → StepStatusOf u = StepPending →
  ∃ k u, steps db !! k = Some u ∧ StepJobID u = jobID ∧ StepStatusOf u = StepPending ∧
    ∀ d, d ∈ DependsOn u → ∃ s, HasStatus db jobID d s ∧ step_terminal s = true.
Proof.
  intros Hv [Hrow Hstep _] Hall Hk Hj Hp. apply validateSteps_ok in Hv as (Hacc & Hknown & _).
  destruct (Hstep k u Hk Hj) as (s0 & Hs0 & Hname & _). destruct (Hacc s0 Hs0) as [_ Ha]. rewrite <-Hname in Ha. clear s0 Hs0 Hname.
  remember (StepName u) as n eqn:En. revert k u Hk Hj Hp En. induction Ha as [n _ IH]; intros k u Hk Hj Hp ->.
  destruct (Hstep k u Hk Hj) as (s & Hs & Hname & Hdeps).
  assert (Hsome : ∀ d, d ∈ DependsOn u →
    (∃ j v, steps db !! j = Some v ∧ StepJobID v = jobID ∧ StepName v = d ∧ StepStatusOf v = StepPending) ∨
    (∃ s, HasStatus db jobID d s ∧ step_terminal s = true)).
  { intros d Hd. rewrite Hdeps in Hd. destruct (Hknown s d Hs Hd) as (s' & Hs' & <-). destruct (Hrow s' Hs') as (j & v & Hv1 & Hv2 & Hv3 & _).
    destruct (Hall j v Hv1 Hv2); [left; eauto 6|right]. exists (StepStatusOf v). split; [exists j, v|]; done. }
  destruct (either_all _ _ _ Hsome) as [(d & Hd & j & v & Hv1 & Hv2 & Hv3 & Hv4)|Hdone]; [|by exists k, u].
  apply (IH d) with (k := j) (u := v); try done. apply elem_of_depsOf. exists s. destruct (Hacc s Hs) as [Hne _].
  rewrite <-Hdeps, Hname. by split_and!.
Qed.

(** C22. A job made from steps that validation accepts is never stuck.  When each of its
    steps is pending or has ended and one is pending, then resolving the dependencies
    makes a step ready, or cancelling the dependents cancels one. *)
Theorem validated_job_moves clock jobID w ts ex k u :
  validateSteps ts ex = Some [] → StoredSteps (wdb w) jobID ts →
  (∀ j v, steps (wdb w) !! j = Some v → StepJobID v = jobID → StepStatusOf v = StepPending ∨ step_terminal (StepStatusOf v) = true) →
  steps (wdb w) !! k = Some u → StepJobID u = jobID → StepStatusOf u = StepPending →
  ∃ n m ts1 w1 w2, ResolveDependencies (quiet clock) jobID w = Some (Ok n, w1) ∧
    CancelDependents (quiet clock) jobID w = Some (Ok (m, ts1), w2) ∧ 0 ≤ n ∧ 0 ≤ m ∧ 0 < n + m.
Proof.
  intros Hv Hst Hall Hk Hj Hp. pose proof (stored_unique _ _ _ Hst) as HU.
  destruct (ResolveDependencies_releases clock jobID w HU) as (C & w1 & HR & _ & _ & HC).
  destruct (CancelDependents_spec clock jobID w HU) as (D & ts1 & w2 & HD & _ & _ & HDm & _).
  exists (Z.of_nat (size C)), (Z.of_nat (size D)), ts1, w1, w2. split_and!; [done|done|lia|lia|].
  destruct (pending_first _ _ _ _ _ _ Hv Hst Hall Hk Hj Hp) as (k' & u' & Hk' & Hj' & Hp' & Hdeps).
  assert (Hne : ∀ (X : gset string) x, x ∈ X → (0 < size X)%nat).
  { intros X x Hx. destruct (size X) eqn:E; [|lia]. apply size_empty_inv in E. set_solver. }
  destruct (either_all (λ d, HasStatus (wdb w) jobID d StepFailed ∨ HasStatus (wdb w) jobID d StepCanceled)
    (λ d, HasStatus (wdb w) jobID d StepCompleted) (DependsOn u')) as [(d & Hd & Hbad)|Hok].
  - intros d Hd. destruct (Hdeps d Hd) as (st & Hs & Ht). destruct st; try done; auto.
  - assert (k' ∈ D) by (apply HDm; by eapply Doomed_direct). pose proof (Hne D k' ltac:(done)). lia.
  - assert (k' ∈ C) by (apply HC; eauto). pose proof (Hne C k' ltac:(done)). lia.
Qed.

(** *** An example *)

Definition diamondSteps : list StepTemplate :=
  [mkStepTemplate "a" [] [] false None; mkStepTemplate "b" [] ["a"%string] true None;
   mkStepTemplate "c" [] ["a"%string] true None; mkStepTemplate "d" [] ["b"; "c"]%string true None].

Definition diamondJob : DB :=
  let st name deps order s := mkStep "j" name deps order s 1 1 "" None in
  set_steps {["sa"%string := st "a"%string [] 0 StepCompleted; "sb"%string := st "b"%string ["a"%string] 1 StepPending;
              "sc"%string := st "c"%string ["a"%string] 2 StepCompleted; "sd"%string := st "d"%string ["b"; "c"]%string 3 StepPending]} emptyDB.

Lemma diamondJob_stored : StoredSteps diamondJob "j" diamondSteps.
Proof.
  split.
  - intros s Hs. repeat (apply elem_of_cons in Hs as [->|Hs]); [..|by apply not_elem_of_nil in Hs].
    + exists "sa"%string. by eexists.
    + exists "sb"%string. by eexists.
    + exists "sc"%string. by eexists.
    + exists "sd"%string. by eexists.
  - assert (H : map_Forall (λ _ u, Exists (λ s, StepName u = TemplateName s ∧ DependsOn u = Dependencies s) diamondSteps) (steps diamondJob)).
    { apply (bool_decide_eq_true (map_Forall _ _)). vm_compute. reflexivity. }
    intros k u Hk _. apply (map_Forall_lookup_1 _ _ _ _ H) in Hk. apply Exists_exists in Hk. exact Hk.
  - apply NamesUnique_list. apply (bool_decide_eq_true (NoDup _)). vm_compute. reflexivity.
Qed.

Lemma validated_job_moves_witness :
  validateSteps diamondSteps false = Some [] ∧
  ∃ n m ts w1 w2, ResolveDependencies (quiet Z.of_nat) "j" (mkWorld diamondJob 0 []) = Some (Ok n, w1) ∧
    CancelDependents (quiet Z.of_nat) "j" (mkWorld diamondJob 0 []) = Some (Ok (m, ts), w2) ∧ 0 ≤ n ∧ 0 ≤ m ∧ 0 < n + m.
Proof.
  assert (Hv : validateSteps diamondSteps false = Some []) by (vm_compute; reflexivity). split; [exact Hv|].
  eapply (validated_job_moves Z.of_nat "j" (mkWorld diamondJob 0 []) diamondSteps false "sb"%string _ Hv diamondJob_stored);
    [|vm_compute; reflexivity|reflexivity|reflexivity].
  assert (H : map_Forall (λ _ v, StepStatusOf v = StepPending ∨ step_terminal (StepStatusOf v) = true) (steps diamondJob)).
  { apply (bool_decide_eq_true (map_Forall _ _)). vm_compute. reflexivity. }
  intros j v Hj _. exact (map_Forall_lookup_1 _ _ _ _ H Hj).
Defined.

(** ** A validated parameter space expands *)

(** *** Numbers have no white space *)

(** A fact about every byte. *)
Ltac bytes := let c := fresh in intros c; destruct c as [[] [] [] [] [] [] [] []]; vm_compute; congruence.

Lemma is_char_plain : ∀ c, is_char c "_" || is_char c "." || is_char c "-" || is_char c "+" || is_char c "0" = true → plain c = true.
Proof. bytes. Qed.

Lemma lower_plain : ∀ c, between 97 122 (lower c) = true → plain c = true.
Proof. bytes. Qed.

Lemma ascii_lower_plain : ∀ c, plain (byte_chr (ascii_lower (byte_val c))) = true → plain c = true.
Proof. bytes. Qed.

(** The text up to [rest] is made of plain bytes. *)
Definition plainTo (s rest : str) : Prop := ∃ p, s = p ++ rest ∧ Forall (λ c, plain c = true) p.

Lemma plainTo_refl s : plainTo s s.
Proof. by exists []. Qed.

Lemma plainTo_cons c s rest : plain c = true → plainTo s rest → plainTo (c :: s) rest.
Proof. intros Hc (p & -> & Hp). exists (c :: p). split; [done|by constructor]. Qed.

Lemma plainTo_trans s t u : plainTo s t → plainTo t u → plainTo s u.
Proof. intros (p & -> & Hp) (q & -> & Hq). exists (p ++ q). split; [by rewrite app_assoc|by apply Forall_app]. Qed.

Lemma plainTo_all s : plainTo s [] → Forall (λ c, plain c = true) s.
Proof. intros (p & -> & Hp). by rewrite app_nil_r. Qed.

Lemma plain_of_char c x : is_char c x = true → x ∈ ["_"; "."; "-"; "+"; "0"]%char → plain c = true.
Proof.
  intros H Hx. apply is_char_plain. repeat (apply elem_of_cons in Hx as [->|Hx]; [rewrite H; by rewrite ?orb_true_r|]). by apply not_elem_of_nil in Hx.
Qed.

Lemma signed_plain s : plainTo s (signed s).2.
Proof.
  destruct s as [|c s]; [apply plainTo_refl|]. unfold signed. destruct (is_char c "-") eqn:E1.
  - apply plainTo_cons; [|apply plainTo_refl]. apply (plain_of_char c "-"); [done|set_solver].
  - destruct (is_char c "+") eqn:E2; [|apply plainTo_refl]. apply plainTo_cons; [|apply plainTo_refl].
    apply (plain_of_char c "+"); [done|set_solver].
Qed.

Lemma mantissa_plain base s m frac dot seen : plainTo s (mantissa base s m frac dot seen).2.
Proof.
  revert m frac dot seen. induction s as [|c s IH]; intros m frac dot seen; cbn [mantissa]; [apply plainTo_refl|].
  destruct (is_char c "_") eqn:E1; [apply plainTo_cons; [|apply IH]; apply (plain_of_char c "_"); [done|set_solver]|].
  destruct (is_char c ".") eqn:E2.
  { destruct dot; [apply plainTo_refl|]. apply plainTo_cons; [|apply IH]. apply (plain_of_char c "."); [done|set_solver]. }
  destruct (is_digit c) eqn:E3; [apply plainTo_cons; [by apply is_digit_plain|apply IH]|].
  destruct ((base =? 16) && between 97 102 (lower c)) eqn:E4; [|apply plainTo_refl].
  apply plainTo_cons; [|apply IH]. apply lower_plain. apply andb_prop in E4 as [_ E4]. unfold between in *. lia.
Qed.

Lemma exponent_plain s e : plainTo s (exponent s e).2.
Proof.
  revert e. induction s as [|c s IH]; intros e; cbn [exponent]; [apply plainTo_refl|].
  destruct (is_char c "_") eqn:E1; [apply plainTo_cons; [|apply IH]; apply (plain_of_char c "_"); [done|set_solver]|].
  destruct (is_digit c) eqn:E3; [apply plainTo_cons; [by apply is_digit_plain|apply IH]|apply plainTo_refl].
Qed.

Lemma readExponent_plain base s e rest : readExponent base s = Some (e, rest) → plainTo s rest.
Proof.
  unfold readExponent. destruct s as [|c s]; [destruct (base =? 16); [done|intros [= _ <-]; apply plainTo_refl]|].
  destruct (lower c =? _) eqn:E; [|destruct (base =? 16); [done|intros [= _ <-]; apply plainTo_refl]].
  assert (Hc : plain c = true) by (apply lower_plain; destruct (base =? 16); unfold between; lia).
  pose proof (signed_plain s) as Hs. destruct (signed s) as [neg ds]. cbn [snd] in Hs. destruct ds as [|d ds]; [done|].
  destruct (is_digit d); [|done]. pose proof (exponent_plain (d :: ds) 0) as He. destruct (exponent (d :: ds) 0) as [x r]. intros [= _ <-].
  apply plainTo_cons; [done|]. by eapply plainTo_trans.
Qed.

Lemma lowered_plain s t : (byte_chr <$> (ascii_lower <$> (byte_val <$> s))) = t → Forall (λ c, plain c = true) t → Forall (λ c, plain c = true) s.
Proof.
  intros <- H. induction s as [|c s IH]; [done|]. cbn in H. apply Forall_cons in H as [Hc H]. constructor; [by apply ascii_lower_plain|by apply IH].
Qed.

Lemma hex_prefix_plain s t : hex_prefix s = Some t → plainTo s t.
Proof.
  unfold hex_prefix. destruct s as [|z [|x [|y s]]]; try done. destruct (is_char z "0") eqn:E1; [|done]. destruct (lower x =? 120) eqn:E2; [|done].
  intros [= <-]. apply plainTo_cons; [apply (plain_of_char z "0"); [done|set_solver]|]. apply plainTo_cons; [|apply plainTo_refl].
  apply lower_plain. unfold between. lia.
Qed.

Lemma ParseFloat_plain s f : ParseFloat s = Some f → Forall (λ c, plain c = true) s.
Proof.
  unfold ParseFloat. pose proof (signed_plain s) as Hs. destruct (signed s) as [neg body]. cbn [snd] in Hs.
  destruct (_ || _) eqn:Einf.
  { intros _. destruct Hs as (p & -> & Hp). apply Forall_app. split; [done|].
    apply orb_prop in Einf as [E|E]; apply bool_decide_eq_true in E; (eapply lowered_plain; [exact E|by repeat constructor]). }
  clear Einf. case_bool_decide as En; [intros _; eapply lowered_plain; [exact En|by repeat constructor]|].
  intros H. apply plainTo_all. eapply plainTo_trans; [exact Hs|].
  assert (Ht : ∃ base hex text, (match hex_prefix body with Some t => (16, true, t) | None => (10, false, body) end) = (base, hex, text) ∧ plainTo body text).
  { destruct (hex_prefix body) eqn:E; do 3 eexists; (split; [reflexivity|]); [by apply hex_prefix_plain|apply plainTo_refl]. }
  destruct Ht as (base & hex & text & Et & Ht). rewrite Et in H. eapply plainTo_trans; [exact Ht|].
  pose proof (mantissa_plain base text 0 0 false false) as Hm. destruct (mantissa _ _ _ _ _ _) as [[[m frac] seen] rest]. cbn [snd] in Hm.
  destruct (negb seen); [done|]. destruct (readExponent base rest) as [[e r]|] eqn:Ee; [|done]. destruct r; [|done].
  apply readExponent_plain in Ee. by eapply plainTo_trans.
Qed.

Lemma digits_val_plain acc s n : digits_val acc s = Some n → Forall (λ c, plain c = true) s.
Proof.
  revert acc. induction s as [|c s IH]; intros acc; cbn [digits_val]; [done|]. destruct (is_digit c) eqn:E; [|done]. intros H.
  constructor; [by apply is_digit_plain|by eapply IH].
Qed.

Lemma Atoi_plain s n : Atoi s = Some n → Forall (λ c, plain c = true) s.
Proof.
  unfold Atoi. destruct s as [|c s]; [done|]. case_bool_decide as E1; [|case_bool_decide as E2].
  - subst c. destruct s as [|d s]; [done|]. destruct (digits_val 0 (d :: s)) eqn:E; [|done]. intros _. constructor; [done|by eapply digits_val_plain].
  - subst c. destruct s as [|d s]; [done|]. destruct (digits_val 0 (d :: s)) eqn:E; [|done]. intros _. constructor; [done|by eapply digits_val_plain].
  - destruct (digits_val 0 (c :: s)) eqn:E; [|done]. intros _. by eapply digits_val_plain.
Qed.

(** *** Task parameters *)

(** The canonical text of a number: [strconv.FormatFloat(f, 'g', -1, 64)]. *)
Definition canonFloat (s : str) : option str := FormatFloat true <$> ParseFloat s.

(** Nothing of the definition is left to resolve. *)
Definition settled (tp : TaskParamDefinition) : Prop :=
  (∀ e, ParamRangeExpr tp = Some e → isUnresolved e = false) ∧ Forall (λ v, isUnresolved v = false) (ParamRangeList tp) ∧
  (∀ c, ParamChunks tp = Some c → DefaultTaskCountExpr c = None).

(** A list is needed and an expression is given: what validation does not refuse. *)
Definition exprForList (tp : TaskParamDefinition) : Prop :=
  isIntType (ParamType tp) = false ∧ is_Some (ParamRangeExpr tp) ∧ ParamRangeList tp = [].

Lemma validateInts_ok l : Forall (λ v, is_Some (Atoi v)) l → ∃ ns, validateInts l = Ok ns ∧ (l ≠ [] → ns ≠ []).
Proof.
  induction 1 as [|v l [z Hz] _ (ns & Hns & _)]; cbn [validateInts]; [by exists []|].
  rewrite (TrimSpace_plain v) by (by eapply Atoi_plain). rewrite Hz, Hns. cbn [res_bind]. by eexists.
Qed.

Lemma canonFloats_ok l : Forall (λ v, is_Some (ParseFloat v)) l → ∃ fs, canonFloats canonFloat l = Ok fs.
Proof.
  induction 1 as [|v l [f Hf] _ (fs & Hfs)]; cbn [canonFloats]; [by eexists|].
  rewrite (TrimSpace_plain v) by (by eapply ParseFloat_plain). unfold canonFloat at 1. rewrite Hf, Hfs. cbn. by eexists.
Qed.

Lemma validateRangeListValues_ok tp base : validateRangeListValues tp base false = [] → Forall (λ v, isUnresolved v = false) (ParamRangeList tp) →
  match ParamType tp with
  | TaskParamTypeInt | TaskParamTypeChunkInt => Forall (λ v, is_Some (Atoi v)) (ParamRangeList tp)
  | TaskParamTypeFloat => Forall (λ v, is_Some (ParseFloat v)) (ParamRangeList tp)
  | _ => True
  end.
Proof.
  intros H Hr. unfold validateRangeListValues in H.
  assert (Hv : ∀ v, v ∈ ParamRangeList tp → ∃ ptr, validateRangeValue tp v ptr false = []).
  { intros v Hv. apply list_elem_of_lookup in Hv as [i Hi]. eexists. by apply (concat_imap_nil _ _ H i v). }
  rewrite Forall_forall in Hr. unfold validateRangeValue in Hv. destruct (ParamType tp); try done; apply Forall_forall; intros v Hin;
    destruct (Hv v Hin) as (ptr & Hp); apply app_nil_inv in Hp as [_ Hp]; rewrite (Hr v Hin) in Hp.
  - by destruct (Atoi v).
  - by destruct (ParseFloat v).
  - by destruct (Atoi v).
Qed.

(** The range of an integer parameter is read. *)
Lemma validated_range tp base :
  validateTaskParamRangeAndChunks tp base false = [] → settled tp → isIntType (ParamType tp) = true →
  match ParamRangeExpr tp with
  | Some e => ∃ l, parseIntRangeExpr e = Ok l ∧ l ≠ []
  | None => ∃ l, validateInts (ParamRangeList tp) = Ok l ∧ l ≠ [] ∧ ParamRangeList tp ≠ []
  end.
Proof.
  intros H (He & Hl & _) Ht. unfold validateTaskParamRangeAndChunks in H. apply app_nil_inv in H as [H1 H]. apply app_nil_inv in H as [H2 H].
  apply app_nil_inv in H as [H3 _]. destruct (ParamRangeExpr tp) as [e|] eqn:Ee.
  - apply app_nil_inv in H3 as [_ H3]. rewrite Ht, (He e eq_refl) in H3. cbn [andb negb] in H3. rewrite validateIntRangeExpr_mirrors in H3.
    destruct (parseIntRangeExpr e) as [l|] eqn:El; [|done]. exists l. split; [done|]. by apply parseIntRangeExpr_length in El as [? _].
  - pose proof (validateRangeListValues_ok _ _ H2 Hl) as Hv. destruct (ParamRangeList tp) as [|v l] eqn:El; [done|].
    destruct (validateInts_ok (v :: l)) as (ns & Hns & Hne); [by destruct (ParamType tp)|]. exists ns. split_and!; [done|by apply Hne|done].
Qed.

Lemma validated_param_expands tp base :
  validateTaskParamRangeAndChunks tp base false = [] → settled tp → (∀ n, ParamType tp ≠ TaskParamTypeOther n) →
  (∃ vals, expandTaskParam canonFloat tp = Ok vals) ∨ (expandTaskParam canonFloat tp = Err ParamListEmpty ∧ exprForList tp).
Proof.
  intros H Hs Ho. pose proof (validated_range tp base H Hs) as Hr. unfold expandTaskParam.
  assert (Hlist : isIntType (ParamType tp) = false → ParamRangeList tp = [] → exprForList tp).
  { intros Ht Hl. split_and!; [done| |done]. unfold validateTaskParamRangeAndChunks in H. apply app_nil_inv in H as [H _]. rewrite Hl in H.
    by destruct (ParamRangeExpr tp). }
  unfold validateTaskParamRangeAndChunks in H. apply app_nil_inv in H as [_ H]. apply app_nil_inv in H as [H2 _].
  pose proof (validateRangeListValues_ok _ _ H2 (proj1 (proj2 Hs))) as Hv. destruct (ParamType tp) eqn:Et.
  - left. specialize (Hr eq_refl). destruct (ParamRangeExpr tp) as [e|]; [destruct Hr as (l & -> & _); by eexists|]. destruct Hr as (l & Hl & _ & Hne).
    unfold validateIntList. destruct (ParamRangeList tp); [done|]. rewrite Hl. cbn [res_bind]. by eexists.
  - unfold validateFloatList. destruct (ParamRangeList tp) as [|v l]; [right; auto|]. left. by apply canonFloats_ok.
  - destruct (ParamRangeList tp) as [|v l]; [right; auto|]. left. by eexists.
  - destruct (ParamRangeList tp) as [|v l]; [right; auto|]. left. by eexists.
  - left. specialize (Hr eq_refl). unfold expandChunkInt. destruct Hs as (_ & _ & Hc).
    replace (ParamChunks tp ≫= DefaultTaskCountExpr) with (@None str) by (destruct (ParamChunks tp) as [c|]; [cbn; by rewrite (Hc c)|done]).
    destruct (ParamRangeExpr tp) as [e|]; [destruct Hr as (l & -> & Hne)|destruct Hr as (l & -> & Hne & _)]; cbn [res_bind]; (destruct l; [done|]);
      destruct (match ParamChunks tp with None => _ | Some _ => _ end); by eexists.
  - by destruct (Ho name).
Qed.

Lemma validateTaskParams_ok i tps base seen out :
  validateTaskParams i tps base seen false = ([], out) →
  Forall (λ tp, isIdentifier (ParamName tp) = true ∧ (∀ n, ParamType tp ≠ TaskParamTypeOther n) ∧
    ∃ ptr, validateTaskParamRangeAndChunks tp ptr false = []) tps ∧
  ∀ n, n ∈ out → n ∈ seen ∨ n ∈ map ParamName tps.
Proof.
  revert i seen. induction tps as [|tp tps IH]; intros i seen; cbn [validateTaskParams map]; [intros [= <-]; auto|].
  unfold validateTaskParam. destruct (negb (isIdentifier (ParamName tp))) eqn:Ei; [by destruct (validateTaskParams _ _ _ _ _)|].
  apply negb_false_iff in Ei. case_bool_decide as Hd; [by destruct (validateTaskParams _ _ _ _ _)|].
  destruct (validateTaskParams _ _ _ _ _) as [more seen'] eqn:E. intros [= H ->]. apply app_nil_inv in H as [H ->]. cbn [app] in H.
  apply app_nil_inv in H as [Ht Hr]. apply IH in E as [Hall Hn]. split.
  - constructor; [|done]. split_and!; [done| |eauto]. intros n Hn'. rewrite Hn' in Ht. by destruct n.
  - intros n Hin. destruct (Hn n Hin) as [Hs|?]; [|right; set_solver]. set_solver.
Qed.

(** *** Combinations *)

Lemma combinationNames_ok names seen params ptr : combinationNames names seen params ptr = [] → ∀ n, n ∈ names → n ∈ params.
Proof.
  revert seen. induction names as [|m names IH]; intros seen; cbn [combinationNames]; [set_solver|]. intros H.
  apply app_nil_inv in H as [H1 H]. apply app_nil_inv in H as [_ H]. intros n [->|Hn]%elem_of_cons; [by case_bool_decide|by eapply IH].
Qed.

(** The product of all parameters in order is what a space without an expression has. *)
Definition productOf (names : list str) : combNode := match names with [n] => combIdent n | _ => combProduct (map combIdent names) end.

Lemma product_parses names : names ≠ [] → Forall (λ n, isIdentifier n = true) names →
  parseCombinationExpr (join ["*"%char] names) = Ok (productOf names) ∧ collectIdents (productOf names) = names.
Proof.
  intros Hne H. assert (Hc : concat (map collectIdents (map combIdent names)) = names).
  { clear. induction names as [|n names IH]; [done|]. cbn. by rewrite IH. }
  assert (Hwf : comb_wf (productOf names)).
  { destruct names as [|n [|m names]]; [done|inversion H; by apply wf_ident|]. constructor; [cbn; lia|].
    apply Forall_map. eapply Forall_impl; [exact H|]. intros x Hx. split; [by constructor|done]. }
  assert (Hd : comb_depth (productOf names) = 0%nat).
  { destruct names as [|n [|m names]]; [done|done|]. unfold productOf. cbn [comb_depth]. clear. generalize (n :: m :: names). intros l.
    induction l as [|x l IH]; [done|exact IH]. }
  assert (Ht : expr_text (productOf names) = join ["*"%char] names).
  { assert (Hj : ∀ l, concat (join [tok_star] (map expr_tokens (map combIdent l))) = join ["*"%char] l).
    { induction l as [|x [|y l] IH]; [done|cbn; by rewrite app_nil_r|].
      change (join ["*"%char] (x :: y :: l)) with (x ++ ["*"%char] ++ join ["*"%char] (y :: l)). rewrite <-IH. done. }
    destruct names as [|n [|m names]]; [done|cbn; by rewrite app_nil_r|]. apply Hj. }
  split.
  - rewrite <-Ht. apply parseCombinationExpr_iff. split_and!; [by apply tokenize_text|done|rewrite Hd; unfold maxCombDepth; lia].
  - by destruct names as [|n [|m names]].
Qed.

Lemma evalProduct_err eval acc cs e : evalProduct eval acc cs = Err e → ∃ c, c ∈ cs ∧ eval c = Err e.
Proof.
  revert acc. induction cs as [|c cs IH]; intros acc; cbn; [done|]. destruct (eval c) eqn:E; cbn; [|intros [= ->]; exists c; set_solver].
  intros H. apply IH in H as (c' & ? & ?). exists c'. set_solver.
Qed.

Lemma evalChildren_err eval cs e : evalChildren eval cs = Err e → ∃ c, c ∈ cs ∧ eval c = Err e.
Proof.
  induction cs as [|c cs IH]; [done|].
  change (evalChildren eval (c :: cs)) with (let? r := eval c in let? rs := evalChildren eval cs in Ok (r :: rs)).
  destruct (eval c) eqn:E; cbn [res_bind]; [|intros [= ->]; exists c; set_solver].
  destruct (evalChildren eval cs); cbn [res_bind]; [done|]. intros [= ->]. destruct (IH eq_refl) as (c' & ? & ?). exists c'. set_solver.
Qed.

(** Every name of the tree has values: the only error left is one of lengths. *)
Lemma evalCombNode_declared node values e :
  (∀ n, n ∈ collectIdents node → is_Some (values !! n)) → evalCombNode node values = Err e → ∃ n i m, e = LengthMismatch n i m.
Proof.
  induction node as [n|cs IH|cs IH] using combNode_nested_ind; intros Hn H; cbn [evalCombNode collectIdents] in *.
  - unfold evalIdent in H. destruct (Hn n) as [l Hl]; [set_solver|]. by rewrite Hl in H.
  - apply evalProduct_err in H as (c & Hc & H). rewrite Forall_forall in IH. apply (IH c Hc); [|done]. intros n Hin. apply Hn.
    apply list_elem_of_In, in_concat. exists (collectIdents c). split; [by apply in_map, list_elem_of_In|by apply list_elem_of_In].
  - destruct (evalChildren _ cs) as [groups|e'] eqn:E; cbn [res_bind] in H.
    + unfold zipRows in H. repeat case_match; try done; injection H as <-; eauto.
    + injection H as ->. apply evalChildren_err in E as (c & Hc & H). rewrite Forall_forall in IH. apply (IH c Hc); [|done]. intros n Hin. apply Hn.
      apply list_elem_of_In, in_concat. exists (collectIdents c). split; [by apply in_map, list_elem_of_In|by apply list_elem_of_In].
Qed.

(** *** Spaces *)

Lemma paramValuesFrom_validated tps values :
  Forall (λ tp, (∃ vals, expandTaskParam canonFloat tp = Ok vals) ∨ (expandTaskParam canonFloat tp = Err ParamListEmpty ∧ exprForList tp)) tps →
  (∃ values', paramValuesFrom canonFloat values tps = Ok values' ∧ ∀ n, is_Some (values !! n) ∨ n ∈ map ParamName tps → is_Some (values' !! n)) ∨
  ∃ tp, tp ∈ tps ∧ exprForList tp ∧ paramValuesFrom canonFloat values tps = Err (ExpandParam (ParamName tp) ParamListEmpty).
Proof.
  intros H. revert values. induction H as [|tp tps [[vals Hv]|[Hv He]] _ IH]; intros values; cbn [paramValuesFrom map].
  - left. exists values. split; [done|]. intros n [?|Hn]; [done|set_solver].
  - rewrite Hv. destruct (IH (<[ParamName tp:=vals]> values)) as [(values' & -> & Hn)|(tp' & Hin & He & ->)]; [left|right; exists tp'; set_solver].
    exists values'. split; [done|]. intros n Hc. apply Hn. destruct (decide (ParamName tp = n)) as [<-|Hne]; [left; by rewrite lookup_insert_eq|].
    rewrite lookup_insert_ne by done. destruct Hc as [?|[->|?]%elem_of_cons]; auto. by destruct Hne.
  - right. exists tp. rewrite Hv. set_solver.
Qed.

(** What is left after the combination is parsed. *)
Lemma expand_declared tree values jobBudget e :
  (∀ n, n ∈ collectIdents tree → is_Some (values !! n)) →
  (match countCombNode tree values with
   | None => (jobBudget, Err TooManyTasks)
   | Some count =>
       if count >? maxTasksPerStep then (jobBudget, Err TooManyTasks)
       else
         let '(b, r) := Combine.charge jobBudget count in
         match r with
         | Err e => (b, Err e)
         | Ok _ => (b, match evalCombNode tree values with Ok rows => Ok rows | Err e => Err (ExpandEval e) end)
         end
   end).2 = Err e →
  e = TooManyTasks ∨ (∃ t, e = JobTooManyTasks t) ∨ ∃ n i m, e = ExpandEval (LengthMismatch n i m).
Proof.
  intros Hn. destruct (countCombNode tree values) as [k|]; [|intros [= <-]; auto]. destruct (k >? maxTasksPerStep); [intros [= <-]; auto|].
  destruct (Combine.charge jobBudget k) as [b [[]|e']] eqn:Ec.
  - cbn [snd]. destruct (evalCombNode tree values) as [rows|e'] eqn:Ee; [done|]. intros [= <-].
    destruct (evalCombNode_declared _ _ _ Hn Ee) as (n & i & m & ->). eauto 6.
  - cbn [snd]. intros [= <-]. unfold Combine.charge in Ec. destruct jobBudget; [|done]. injection Ec as _ Ec. case_match; [|done]. injection Ec as <-. eauto.
Qed.

Lemma expand_one jobBudget e :
  (let '(b, r) := Combine.charge jobBudget 1 in (b, match r with Ok _ => Ok [∅] | Err e => Err e end) : option Z * res ExpandError (list TaskParams)).2 = Err e →
  ∃ t, e = JobTooManyTasks t.
Proof. unfold Combine.charge. destruct jobBudget as [t|]; [|done]. destruct (_ >? _); cbn [snd]; [|done]. intros [= <-]. eauto. Qed.

(** The tree that is evaluated names declared parameters only. *)
Lemma validated_tree ps base :
  validateParameterSpace ps base false = [] →
  ∃ tree, parseCombinationExpr (default (join ["*"%char] (ParamName <$> TaskParameterDefinitions ps)) (Combination ps)) = Ok tree ∧
    ∀ n, n ∈ collectIdents tree → n ∈ map ParamName (TaskParameterDefinitions ps).
Proof.
  unfold validateParameterSpace. destruct (TaskParameterDefinitions ps) as [|tp tps] eqn:Et; [done|].
  destruct (validateTaskParams 0 (tp :: tps) base ∅ false) as [errs names] eqn:E. intros H. apply app_nil_inv in H as [-> H]. apply app_nil_inv in H as [_ H].
  apply validateTaskParams_ok in E as [Hall Hn]. destruct (Combination ps) as [expr|]; cbn [from_option id].
  - unfold validateCombination, combinationIdentifiers in H. destruct (parseCombinationExpr expr) as [tree|]; cbn [res_bind] in H; [|done].
    apply app_nil_inv in H as [H _]. exists tree. split; [done|]. intros n Hin. apply (combinationNames_ok _ _ _ _ H), Hn in Hin. set_solver.
  - destruct (product_parses (ParamName <$> tp :: tps)) as [Hp Hc]; [done|apply Forall_map; eapply Forall_impl; [exact Hall|by intros ? []]|].
    exists (productOf (ParamName <$> tp :: tps)). split; [exact Hp|]. rewrite Hc. done.
Qed.

(** C30. A parameter space that validation accepts, with nothing left to resolve, expands: the values of every parameter are read, the
    combination (or the product that stands for it) is parsed and names declared parameters only.  What can still be refused is the
    number of tasks of the step or of the job, parameters of different lengths that are associated, and a FLOAT, STRING or PATH
    parameter whose range is an expression where the list is wanted. *)
Theorem validated_space_expands (ps : StepParameterSpace) (base : str) (jobBudget : option Z)
    (Hv : validateParameterSpace ps base false = []) (Hs : Forall settled (TaskParameterDefinitions ps)) :
  match (expandParameterSpace canonFloat (Some ps) jobBudget).2 with
  | Ok _ | Err TooManyTasks | Err (JobTooManyTasks _) | Err (ExpandEval (LengthMismatch _ _ _)) => True
  | Err (ExpandParam n ParamListEmpty) => ∃ tp, tp ∈ TaskParameterDefinitions ps ∧ ParamName tp = n ∧ exprForList tp
  | Err _ => False
  end.
Proof.
  destruct (validated_tree ps base Hv) as (tree & Hp & Hn).
  assert (Hall : Forall (λ tp, (∃ vals, expandTaskParam canonFloat tp = Ok vals) ∨ (expandTaskParam canonFloat tp = Err ParamListEmpty ∧ exprForList tp))
    (TaskParameterDefinitions ps)).
  { unfold validateParameterSpace in Hv. destruct (TaskParameterDefinitions ps) as [|tp tps] eqn:Et; [done|].
    destruct (validateTaskParams 0 (tp :: tps) base ∅ false) as [errs names] eqn:E. apply app_nil_inv in Hv as [-> _].
    apply validateTaskParams_ok in E as [Ha _]. rewrite Forall_forall in Ha, Hs |- *. intros x Hx. destruct (Ha x Hx) as (_ & Ho & ptr & Hr).
    by eapply validated_param_expands; [exact Hr|by apply Hs|]. }
  unfold expandParameterSpace. destruct (paramValuesFrom_validated _ ∅ Hall) as [(values & -> & Hvals)|(tp & Hin & He & ->)]; [|by exists tp].
  replace (match Combination ps with Some e => e | None => _ end) with (default (join ["*"%char] (ParamName <$> TaskParameterDefinitions ps)) (Combination ps))
    by by destruct (Combination ps).
  destruct (default _ _) as [|c0 expr]; [clear Hp|rewrite Hp; clear Hp].
  - match goal with |- match ?x with _ => _ end => destruct x as [|e] eqn:E end; [done|]. apply expand_one in E as [t ->]. done.
  - match goal with |- match ?x with _ => _ end => destruct x as [|e] eqn:E end; [done|].
    apply expand_declared in E as [->|[[t ->]|(n & i & m & ->)]]; [done..|]. intros n Hin. apply Hvals. right. by apply Hn.
Qed.

Definition framesSpace : StepParameterSpace :=
  mkSpace [mkTaskParam (of_string "Frame") TaskParamTypeInt (Some (of_string "1-4")) [] None; mkTaskParam (of_string "Camera") TaskParamTypeString None [of_string "left"; of_string "right"] None] None.

Lemma validated_space_expands_witness :
  validateParameterSpace framesSpace (of_string "/steps/0/parameterSpace") false = [] ∧ Forall settled (TaskParameterDefinitions framesSpace) ∧
  match (expandParameterSpace canonFloat (Some framesSpace) (Some 0)).2 with
  | Ok _ | Err TooManyTasks | Err (JobTooManyTasks _) | Err (ExpandEval (LengthMismatch _ _ _)) => True
  | Err (ExpandParam n ParamListEmpty) => ∃ tp, tp ∈ TaskParameterDefinitions framesSpace ∧ ParamName tp = n ∧ exprForList tp
  | Err _ => False
  end.
Proof.
  assert (Hv : validateParameterSpace framesSpace (of_string "/steps/0/parameterSpace") false = []) by (vm_compute; reflexivity).
  assert (Hs : Forall settled (TaskParameterDefinitions framesSpace)).
  { repeat constructor; try (intros ? [=]; subst; reflexivity); by intros ? [=]. }
  split_and!; [exact Hv|exact Hs|]. exact (validated_space_expands framesSpace _ (Some 0) Hv Hs).
Defined.
