(* ===== verification/ExprArith.v ===== *)
(** * Integer arithmetic of the expression language

    src/internal/openjd/expr: the checked [int64] operations of ops.go, [round]
    on integers of funcsmath.go, the length of [range] of funcslist.go, and the
    index arithmetic of list.go and slice.go.

    Each operation is shown to compute the exact mathematical result, or to report
    the overflow when that result is not an [int64].  Two corners where the source
    does not are exhibited: a slice step so large that the index overflows, and
    rounding to [-2^63] digits. *)

From S2P Require Import Prelude StatusText GoText IntRange RangeExpr ExprType ExprFloat ExprValue.
Open Scope Z_scope.

(** ** Operations *)

(** ops.go [addInt], [subInt], [mulInt] *)
Definition addInt (a b : Z) : res EErr Z :=
  let sum := wrap64 (a + b) in
  if ((0 <? a) && (0 <? b) && (sum <? 0)) || ((a <? 0) && (b <? 0) && (0 <=? sum))
  then Err EIntOverflow else Ok sum.

Definition subInt (a b : Z) : res EErr Z :=
  let diff := wrap64 (a - b) in
  if ((b <? 0) && (diff <? a)) || ((0 <? b) && (a <? diff)) then Err EIntOverflow else Ok diff.

Definition mulInt (a b : Z) : res EErr Z :=
  if (a =? 0) || (b =? 0) then Ok 0
  else if ((a =? MinInt) && (b =? -1)) || ((b =? MinInt) && (a =? -1)) then Err EIntOverflow
  else
    let product := wrap64 (a * b) in
    if negb (wrap64 (Z.quot product b) =? a) then Err EIntOverflow else Ok product.

(** ops.go [negInt] *)
Definition negInt (i : Z) : res EErr Z := if i =? MinInt then Err EIntOverflow else Ok (wrap64 (- i)).

(** ops.go [floorDivInt], [modInt] *)
Definition floorDivInt (a b : Z) : res EErr Z :=
  if b =? 0 then Err EDivideByZero
  else if (a =? MinInt) && (b =? -1) then Err EIntOverflow
  else
    let q := Z.quot a b in
    Ok (if negb (Z.rem a b =? 0) && negb (Bool.eqb (a <? 0) (b <? 0)) then q - 1 else q).

Definition modInt (a b : Z) : res EErr Z :=
  if b =? 0 then Err EModuloByZero
  else if (a =? MinInt) && (b =? -1) then Ok 0
  else
    let r := Z.rem a b in
    Ok (if negb (r =? 0) && negb (Bool.eqb (r <? 0) (b <? 0)) then r + b else r).

(** The loop of [powIntPositive]; the exponent is halved, so 64 steps end it. *)
Fixpoint powLoop (fuel : nat) (result factor e : Z) : res EErr Z :=
  match fuel with
  | O => Ok result
  | S f =>
      if 0 <? e then
        let? result := if Z.land e 1 =? 1 then mulInt result factor else Ok result in
        let e := Z.shiftr e 1 in
        if e =? 0 then Ok result
        else
          let? factor := mulInt factor factor in
          powLoop f result factor e
      else Ok result
  end.

(** ops.go [powIntPositive] *)
Definition powIntPositive (base exp : Z) : res EErr Z := powLoop 64 1 base exp.

(** funcsmath.go [abs] of an integer. *)
Definition absInt (n : Z) : res EErr Z :=
  if n =? MinInt then Err EIntOverflow else Ok (if n <? 0 then wrap64 (- n) else n).

(** The loop of [roundIntToDigits] that builds the scale; [None] when it would
    not fit.  It ends after at most twenty steps. *)
Fixpoint scaleLoop (fuel : nat) (n scale : Z) : option Z :=
  match fuel with
  | O => None
  | S f =>
      if n <=? 0 then Some scale
      else if MaxInt / 10 <? scale then None
      else scaleLoop f (n - 1) (scale * 10)
  end.

(** funcsmath.go [roundIntBeyondScale] *)
Definition roundIntBeyondScale (n places : Z) : res EErr Z :=
  if (19 <? places) || ((-5000000000000000000 <=? n) && (n <=? 5000000000000000000)) then Ok 0
  else Err EIntOverflow.

(** funcsmath.go [roundIntToDigits] *)
Definition roundIntToDigits (n ndigits : Z) : res EErr Z :=
  if 0 <=? ndigits then Ok n
  else
    match scaleLoop 20 (wrap64 (- ndigits)) 1 with
    | None => roundIntBeyondScale n (wrap64 (- ndigits))
    | Some scale =>
        let q := Z.quot n scale in
        let r := Z.rem n scale in
        let half := Z.quot scale 2 in
        let q :=
          if (half <? r) || ((r =? half) && negb (Z.rem q 2 =? 0)) then q + 1
          else if (r <? - half) || ((r =? - half) && negb (Z.rem q 2 =? 0)) then q - 1
          else q in
        mulInt (wrap64 q) scale
    end.

(** funcslist.go [rangeCount], with [uint64] subtraction and negation. *)
Definition wrapU64 (z : Z) : Z := z mod 2 ^ 64.

Definition rangeCount (start stop step : Z) : Z :=
  let finish span mag :=
    let count := span / mag + (if span mod mag =? 0 then 0 else 1) in
    if maxElements <? count then maxElements + 1 else count in
  if (0 <? step) && (start <? stop) then finish (wrapU64 (wrapU64 stop - wrapU64 start)) (wrapU64 step)
  else if (step <? 0) && (stop <? start) then
    finish (wrapU64 (wrapU64 start - wrapU64 stop)) (wrapU64 (wrap64 (- step)))
  else 0.

(** The loop of [rangeList]. *)
Fixpoint rangeValues (count : nat) (n step : Z) : list Z :=
  match count with
  | O => []
  | S k => n :: rangeValues k (wrap64 (n + step)) step
  end.

(** list.go [normalizeIndex] *)
Definition normalizeIndex (i length : Z) : option Z :=
  let i := if i <? 0 then wrap64 (i + length) else i in
  if (i <? 0) || (length <=? i) then None else Some i.

(** slice.go [clampSliceBound] *)
Definition clampSliceBound (i length : Z) (forward : bool) : Z :=
  let i := if i <? 0 then wrap64 (i + length) else i in
  let lo := if forward then 0 else -1 in
  let hi := if forward then length else length - 1 in
  if i <? lo then lo else if hi <? i then hi else i.

(** The two loops of [sliceIndices]. *)
Fixpoint indicesUp (fuel : nat) (i to by_ : Z) : list Z :=
  match fuel with
  | O => []
  | S f => if i <? to then i :: indicesUp f (wrap64 (i + by_)) to by_ else []
  end.

Fixpoint indicesDown (fuel : nat) (i to by_ : Z) : list Z :=
  match fuel with
  | O => []
  | S f => if to <? i then i :: indicesDown f (wrap64 (i + by_)) to by_ else []
  end.

(** slice.go [sliceIndices], with [fuel] steps of its loop; an omitted bound is
    [None]. *)
Definition sliceIndicesFuel (fuel : nat) (start stop step : option Z) (length : Z) : list Z :=
  let by_ := default 1 step in
  let forward := 0 <? by_ in
  let from := match start with Some i => clampSliceBound i length forward | None => if forward then 0 else length - 1 end in
  let to := match stop with Some i => clampSliceBound i length forward | None => if forward then length else -1 end in
  if forward then indicesUp fuel from to by_ else indicesDown fuel from to by_.

(** Two steps more than the length: enough, as [sliceIndices_fuel] shows. *)
Definition sliceIndices (start stop step : option Z) (length : Z) : list Z :=
  sliceIndicesFuel (Z.to_nat length + 2) start stop step length.

(** ** Exact or overflow *)

(** The exact result when it fits, else the overflow error. *)
Definition exactly (z : Z) : res EErr Z := if decide (in_int z) then Ok z else Err EIntOverflow.

Lemma exactly_in z : in_int z → exactly z = Ok z.
Proof. intros H. unfold exactly. by rewrite decide_True. Qed.

Lemma exactly_out z : ¬ in_int z → exactly z = Err EIntOverflow.
Proof. intros H. unfold exactly. by rewrite decide_False. Qed.

Ltac bools := repeat match goal with
  | |- context [?a <? ?b] => destruct (Z.ltb_spec a b)
  | |- context [?a <=? ?b] => destruct (Z.leb_spec a b)
  | |- context [?a =? ?b] => destruct (Z.eqb_spec a b)
  end; cbn [andb orb negb Bool.eqb].

(** Wrapping adds a multiple of 2^64 and lands in range. *)
Ltac wrapped z :=
  let k := fresh "k" in let Hk := fresh "Hk" in let Hr := fresh "Hr" in
  destruct (wrap64_decomp z) as [k Hk]; pose proof (wrap64_range z) as Hr;
  unfold in_int, MinInt, MaxInt in *.

Lemma addInt_exact a b : in_int a → in_int b → addInt a b = exactly (a + b).
Proof.
  intros Ha Hb. unfold addInt. destruct (decide (in_int (a + b))) as [Hs|Hs].
  - rewrite exactly_in, wrap64_id by done. zint. bools; done || lia.
  - rewrite exactly_out by done. wrapped (a + b). bools; done || (exfalso; apply Hs; lia).
Qed.

Lemma subInt_exact a b : in_int a → in_int b → subInt a b = exactly (a - b).
Proof.
  intros Ha Hb. unfold subInt. destruct (decide (in_int (a - b))) as [Hs|Hs].
  - rewrite exactly_in, wrap64_id by done. zint. bools; done || lia.
  - rewrite exactly_out by done. wrapped (a - b). bools; done || (exfalso; apply Hs; lia).
Qed.

Lemma quot_exact a b : b ≠ 0 → Z.quot (a * b) b = a.
Proof. apply Z.quot_mul. Qed.

Lemma mulInt_exact a b : in_int a → in_int b → mulInt a b = exactly (a * b).
Proof.
  intros Ha Hb. unfold mulInt.
  destruct (Z.eqb_spec a 0) as [->|Ha0]; [by rewrite exactly_in by zint|].
  destruct (Z.eqb_spec b 0) as [->|Hb0]; [rewrite Z.mul_0_r; by rewrite exactly_in by zint|]. cbn [orb].
  destruct (((a =? MinInt) && (b =? -1)) || ((b =? MinInt) && (a =? -1))) eqn:E.
  { rewrite exactly_out; [done|]. apply orb_true_iff in E as [E|E];
      apply andb_true_iff in E as [->%Z.eqb_eq ->%Z.eqb_eq]; vm_compute; intuition. }
  destruct (decide (in_int (a * b))) as [Hs|Hs].
  { rewrite exactly_in by done. rewrite (wrap64_id (a * b)) by done. rewrite quot_exact by done.
    rewrite wrap64_id by done. by rewrite Z.eqb_refl. }
  rewrite exactly_out by done. set (p := wrap64 (a * b)).
  destruct (wrap64 (Z.quot p b) =? a) eqn:Eq; [|done]. exfalso. apply Z.eqb_eq in Eq.
  pose proof (Z.quot_rem p b Hb0) as Hqr. pose proof (Z.rem_bound_abs p b Hb0) as Hrem.
  pose proof (wrap64_range (a * b)) as Hp. fold p in Hp.
  assert (Hq : Z.quot p b = a).
  { rewrite wrap64_id in Eq; [done|]. destruct (decide (in_int (Z.quot p b))) as [|Hn]; [done|]. exfalso.
    pose proof (Z.quot_abs p b Hb0) as Habs. pose proof (Z.quot_le_upper_bound (Z.abs p) (Z.abs b) (Z.abs p)) as Hle.
    assert (Hpq : Z.abs (Z.quot p b) ≤ Z.abs p) by (rewrite <- Habs; apply Hle; nia).
    assert (Z.quot p b = 9223372036854775808) as Hv by (zint; lia).
    rewrite Hv in *. change (wrap64 9223372036854775808) with MinInt in Eq. zint. }
  apply Hs. destruct (wrap64_decomp (a * b)) as [k Hk]. fold p in Hk. rewrite Hq in Hqr. zint.
Qed.

Lemma negInt_exact i : in_int i → negInt i = exactly (- i).
Proof.
  intros Hi. unfold negInt. destruct (Z.eqb_spec i MinInt) as [->|Hne].
  - rewrite exactly_out; [done|]. zint.
  - rewrite exactly_in, wrap64_id by zint. done.
Qed.

Lemma absInt_exact i : in_int i → absInt i = exactly (Z.abs i).
Proof.
  intros Hi. unfold absInt. destruct (Z.eqb_spec i MinInt) as [->|Hne].
  - rewrite exactly_out; [done|]. zint.
  - rewrite exactly_in by zint. bools; [rewrite wrap64_id by zint|]; f_equal; lia.
Qed.

(** Truncated division corrected towards minus infinity. *)
Lemma floor_of_quot a b :
  b ≠ 0 →
  (if negb (Z.rem a b =? 0) && negb (Bool.eqb (a <? 0) (b <? 0)) then Z.quot a b - 1 else Z.quot a b) = a / b ∧
  (if negb (Z.rem a b =? 0) && negb (Bool.eqb (Z.rem a b <? 0) (b <? 0)) then Z.rem a b + b else Z.rem a b) = a mod b.
Proof.
  intros Hb. pose proof (Z.quot_rem a b Hb) as Hqr. pose proof (Z.rem_bound_abs a b Hb) as Hr.
  assert (Hs : (0 ≤ a → 0 ≤ Z.rem a b) ∧ (a ≤ 0 → Z.rem a b ≤ 0)).
  { split; intros; [by apply Z.rem_nonneg|by apply Z.rem_nonpos]. }
  assert (Hu : ∀ q r, a = b * q + r → 0 ≤ r < b ∨ b < r ≤ 0 → q = a / b ∧ r = a mod b).
  { intros q r Ha Hbd. split; [by eapply Z.div_unique|by eapply Z.mod_unique]. }
  bools; try (exfalso; lia); apply Hu; lia.
Qed.

Lemma floorDivInt_exact a b :
  in_int a → in_int b → floorDivInt a b = if b =? 0 then Err EDivideByZero else exactly (a / b).
Proof.
  intros Ha Hb. unfold floorDivInt. destruct (Z.eqb_spec b 0) as [|Hb0]; [done|].
  destruct ((a =? MinInt) && (b =? -1)) eqn:E.
  - apply andb_true_iff in E as [->%Z.eqb_eq ->%Z.eqb_eq]. by vm_compute.
  - destruct (floor_of_quot a b Hb0) as [-> _]. rewrite exactly_in; [done|].
    apply andb_false_iff in E. rewrite !Z.eqb_neq in E.
    pose proof (Z.div_mod a b Hb0).
    assert (Hm : (0 < b → 0 ≤ a mod b < b) ∧ (b < 0 → b < a mod b ≤ 0)).
    { split; intros; [by apply Z.mod_pos_bound|by apply Z.mod_neg_bound]. }
    zint. nia.
Qed.

Lemma modInt_exact a b :
  in_int a → in_int b → modInt a b = if b =? 0 then Err EModuloByZero else Ok (a mod b).
Proof.
  intros Ha Hb. unfold modInt. destruct (Z.eqb_spec b 0) as [|Hb0]; [done|].
  destruct ((a =? MinInt) && (b =? -1)) eqn:E.
  - by apply andb_true_iff in E as [->%Z.eqb_eq ->%Z.eqb_eq].
  - by destruct (floor_of_quot a b Hb0) as [_ ->].
Qed.

(** ** Powers *)

Lemma pow_halve factor e : 0 ≤ e → factor ^ e = factor ^ (e mod 2) * (factor * factor) ^ (e / 2).
Proof.
  intros He. pose proof (Z.div_mod e 2 ltac:(lia)) as Hdm. pose proof (Z.mod_pos_bound e 2 ltac:(lia)).
  pose proof (Z.div_pos e 2 He ltac:(lia)).
  rewrite Hdm at 1. rewrite Z.add_comm, Z.pow_add_r by lia. f_equal. rewrite Z.pow_mul_r by lia. f_equal. lia.
Qed.

(** Powers of a square do not shrink. *)
Lemma pow_square_ge f e : 0 < e → f ≠ 0 → f * f ≤ (f * f) ^ e.
Proof.
  intros He Hf. replace e with (1 + (e - 1)) by lia. rewrite Z.pow_add_r by lia.
  pose proof (Z.pow_pos_nonneg (f * f) (e - 1) ltac:(nia) ltac:(lia)). nia.
Qed.

(** Once a partial product is out of range it stays so. *)
Lemma out_grows p g : ¬ in_int p → 1 ≤ g → ¬ in_int (p * g).
Proof. intros Hp Hg H. apply Hp. unfold in_int, MinInt, MaxInt in *. nia. Qed.

Lemma powLoop_exact fuel : ∀ result factor e,
  in_int result → in_int factor → 0 ≤ e < 2 ^ Z.of_nat fuel → (result ≠ 0 ∨ factor = 0) →
  powLoop fuel result factor e = exactly (result * factor ^ e).
Proof.
  induction fuel as [|f IH]; intros result factor e Hr Hf He Hnz.
  { change (2 ^ Z.of_nat 0) with 1 in He. assert (e = 0) as -> by lia. by rewrite Z.mul_1_r, exactly_in. }
  cbn [powLoop]. destruct (Z.ltb_spec 0 e) as [Hpos|]; [|assert (e = 0) as -> by lia; by rewrite Z.mul_1_r, exactly_in].
  assert (Z.land e 1 = e mod 2) as -> by (exact (Z.land_ones e 1 ltac:(lia))).
  assert (Z.shiftr e 1 = e / 2) as -> by (exact (Z.shiftr_div_pow2 e 1 ltac:(lia))).
  rewrite (pow_halve factor e) by lia.
  assert (He2 : 0 ≤ e / 2 < 2 ^ Z.of_nat f).
  { rewrite Nat2Z.inj_succ, Z.pow_succ_r in He by lia. pose proof (Z.div_mod e 2 ltac:(lia)).
    pose proof (Z.mod_pos_bound e 2 ltac:(lia)). lia. }
  assert (Hsq : ∀ x, 0 ≤ x → factor ≠ 0 → 1 ≤ (factor * factor) ^ x).
  { intros x Hx Hf0. pose proof (Z.pow_pos_nonneg (factor * factor) x ltac:(nia) Hx). lia. }
  assert (Hstep : ∀ r', in_int r' → (r' ≠ 0 ∨ factor = 0) →
    (if e / 2 =? 0 then Ok r' else let? factor := mulInt factor factor in powLoop f r' factor (e / 2))
    = exactly (r' * (factor * factor) ^ (e / 2))).
  { intros r' Hr' Hnz'. destruct (Z.eqb_spec (e / 2) 0) as [->|Hne]; [by rewrite Z.mul_1_r, exactly_in|].
    rewrite mulInt_exact by done. destruct (decide (in_int (factor * factor))) as [Hin|Hout].
    - rewrite exactly_in by done. cbn [res_bind]. apply IH; try done. destruct Hnz' as [| ->]; [by left|by right].
    - rewrite exactly_out by done. cbn [res_bind]. rewrite exactly_out; [done|].
      assert (factor ≠ 0) by (intros ->; apply Hout; zint).
      pose proof (pow_square_ge factor (e / 2) ltac:(lia) ltac:(done)).
      destruct Hnz' as [Hnz'|]; [|done]. intros H'. apply Hout. unfold in_int, MinInt, MaxInt in *.
      set (g := (factor * factor) ^ (e / 2)) in *.
      assert (g ≤ 9223372036854775808) by nia.
      assert (Z.abs factor ≤ 3037000499) by nia. nia. }
  destruct (Z.eqb_spec (e mod 2) 1) as [Hodd|Heven].
  - rewrite mulInt_exact, Hodd, Z.pow_1_r, Z.mul_assoc by done.
    destruct (decide (in_int (result * factor))) as [Hin|Hout].
    + rewrite exactly_in by done. cbn [res_bind]. apply Hstep; [done|].
      destruct (Z.eq_dec factor 0); [by right|]. left. destruct Hnz; nia.
    + rewrite exactly_out by done. cbn [res_bind]. rewrite exactly_out; [done|].
      apply out_grows; [done|]. apply Hsq; [lia|]. intros ->. apply Hout. zint.
  - assert (e mod 2 = 0) as -> by (pose proof (Z.mod_pos_bound e 2 ltac:(lia)); lia).
    rewrite Z.pow_0_r, Z.mul_1_l. cbn [res_bind]. by apply Hstep.
Qed.

Lemma powIntPositive_exact base exp :
  in_int base → in_int exp → 0 ≤ exp → powIntPositive base exp = exactly (base ^ exp).
Proof.
  intros Hb Hi He. unfold powIntPositive. rewrite powLoop_exact; [by rewrite Z.mul_1_l|zint|done| |by left].
  change (2 ^ Z.of_nat 64) with 18446744073709551616. zint.
Qed.

(** ** Rounding *)

(** [n] rounded to a multiple of [s], halves to an even multiple. *)
Definition roundHalfEven (n s : Z) : Z :=
  let q := n / s in
  let r := n mod s in
  s * (if (2 * r <? s) || ((2 * r =? s) && Z.even q) then q else q + 1).


Lemma scaleLoop_small n :
  0 ≤ n ≤ 18 → scaleLoop 20 n 1 = Some (10 ^ n).
Proof.
  intros Hn. assert (n ∈ [0;1;2;3;4;5;6;7;8;9;10;11;12;13;14;15;16;17;18]) as Hin.
  { rewrite !elem_of_cons. lia. }
  rewrite !elem_of_cons in Hin. destruct_or? Hin; subst; try reflexivity. by apply not_elem_of_nil in Hin.
Qed.

Lemma scaleLoop_beyond n : 19 ≤ n → scaleLoop 20 n 1 = None.
Proof.
  intros Hn.
  do 19 (cbn [scaleLoop];
    match goal with |- context [?a <=? 0] => destruct (Z.leb_spec a 0); [lia|] end;
    match goal with |- context [MaxInt / 10 <? ?x] =>
      let b := eval vm_compute in (MaxInt / 10 <? x) in change (MaxInt / 10 <? x) with b end;
    cbv iota); reflexivity.
Qed.

Lemma rem2_even q : negb (Z.rem q 2 =? 0) = negb (Z.even q).
Proof.
  f_equal. rewrite Zeven_mod. pose proof (Z.quot_rem q 2 ltac:(lia)). pose proof (Z.rem_bound_abs q 2 ltac:(lia)).
  pose proof (Z.div_mod q 2 ltac:(lia)). pose proof (Z.mod_pos_bound q 2 ltac:(lia)).
  destruct (Z.eqb_spec (Z.rem q 2) 0), (Z.eqb_spec (q mod 2) 0); try done; lia.
Qed.

(** The source rounds the truncated quotient; the reference the floor. *)
Lemma round_quotient n s :
  0 < s → Z.even s = true →
  let q := Z.quot n s in
  let r := Z.rem n s in
  let half := Z.quot s 2 in
  (if (half <? r) || ((r =? half) && negb (Z.rem q 2 =? 0)) then q + 1
   else if (r <? - half) || ((r =? - half) && negb (Z.rem q 2 =? 0)) then q - 1 else q)
  = (if (2 * (n mod s) <? s) || ((2 * (n mod s) =? s) && Z.even (n / s)) then n / s else n / s + 1).
Proof.
  intros Hs He. cbv zeta. rewrite rem2_even.
  assert (Hhalf : 2 * Z.quot s 2 = s).
  { rewrite Z.quot_div_nonneg by lia. rewrite Zeven_mod in He. apply Z.eqb_eq in He.
    pose proof (Z.div_mod s 2 ltac:(lia)). lia. }
  set (half := Z.quot s 2) in *.
  pose proof (Z.quot_rem n s ltac:(lia)) as Hqr. pose proof (Z.rem_bound_abs n s ltac:(lia)) as Hr.
  pose proof (Z.mod_pos_bound n s Hs) as Hm.
  assert (Hsg : (0 ≤ n → 0 ≤ Z.rem n s) ∧ (n ≤ 0 → Z.rem n s ≤ 0)).
  { split; intros; [apply Z.rem_nonneg|apply Z.rem_nonpos]; lia. }
  destruct (Z_le_gt_dec 0 (Z.rem n s)) as [Hr0|Hr0].
  - assert (Hf : Z.quot n s = n / s ∧ Z.rem n s = n mod s).
    { split; [eapply Z.div_unique|eapply Z.mod_unique]; try exact Hqr; lia. }
    destruct Hf as [-> ->]. destruct (Z.even (n / s)); bools; lia.
  - assert (Hf : Z.quot n s - 1 = n / s ∧ Z.rem n s + s = n mod s).
    { split; [apply (Z.div_unique n s _ (Z.rem n s + s))|apply (Z.mod_unique n s (Z.quot n s - 1))]; lia. }
    destruct Hf as [<- <-]. rewrite Z.even_sub. cbn [Z.even]. destruct (Z.even (Z.quot n s)); bools; lia.
Qed.

Lemma even_pow10 k : 0 < k → Z.even (10 ^ k) = true.
Proof. intros H. rewrite Z.even_pow by done. done. Qed.

Lemma roundHalfEven_small n s : 2 * Z.abs n < s → roundHalfEven n s = 0.
Proof.
  intros H. unfold roundHalfEven. destruct (Z_le_gt_dec 0 n).
  - rewrite Z.div_small, Z.mod_small by lia. bools; lia.
  - assert (n / s = -1) as -> by (symmetry; apply (Z.div_unique n s (-1) (n + s)); lia).
    assert (n mod s = n + s) as -> by (symmetry; apply (Z.mod_unique n s (-1)); lia).
    bools; lia.
Qed.

Lemma roundIntToDigits_exact n nd :
  in_int n → in_int nd → nd ≠ MinInt →
  roundIntToDigits n nd = if 0 <=? nd then Ok n else exactly (roundHalfEven n (10 ^ (- nd))).
Proof.
  intros Hn Hd Hmin. unfold roundIntToDigits. destruct (Z.leb_spec 0 nd) as [|Hneg]; [done|].
  rewrite wrap64_id by zint. set (k := - nd) in *. assert (Hk : 0 < k) by lia.
  destruct (Z_le_gt_dec k 18) as [Hsmall|Hbig].
  - rewrite scaleLoop_small by lia. set (s := 10 ^ k).
    assert (Hs : 10 ≤ s ≤ 1000000000000000000).
    { unfold s. split; [change 10 with (10 ^ 1) at 1|change 1000000000000000000 with (10 ^ 18)]; apply Z.pow_le_mono_r; lia. }
    pose proof (round_quotient n s ltac:(lia) (even_pow10 k Hk)) as Hq. cbv zeta in Hq |- *. rewrite Hq.
    assert (Hb : -922337203685477581 ≤ n / s ≤ 922337203685477580).
    { unfold in_int, MinInt, MaxInt in Hn.
      split; [apply Z.div_le_lower_bound; nia|apply Z.lt_succ_r, Z.div_lt_upper_bound; nia]. }
    rewrite wrap64_id by (clear Hq; destruct (_ || _); unfold in_int, MinInt, MaxInt; lia).
    rewrite mulInt_exact; [unfold roundHalfEven; by rewrite Z.mul_comm| |zint].
    clear Hq. destruct (_ || _); unfold in_int, MinInt, MaxInt; lia.
  - rewrite scaleLoop_beyond by lia. unfold roundIntBeyondScale.
    destruct (Z.ltb_spec 19 k) as [H19|H19]; cbn [orb].
    + assert (H20 : 10 ^ 20 ≤ 10 ^ k) by (apply Z.pow_le_mono_r; lia).
      change (10 ^ 20) with 100000000000000000000 in H20.
      rewrite roundHalfEven_small by (unfold in_int, MinInt, MaxInt in *; lia). by rewrite exactly_in by zint.
    + assert (k = 19) as -> by lia. change (10 ^ 19) with 10000000000000000000.
      unfold roundHalfEven. destruct (Z_le_gt_dec 0 n).
      * rewrite Z.div_small, Z.mod_small by zint. cbn [Z.even]. bools; try lia; unfold exactly; case_decide; zint; done || lia.
      * assert (n / 10000000000000000000 = -1) as -> by (symmetry; apply (Z.div_unique _ _ _ (n + 10000000000000000000)); zint).
        assert (n mod 10000000000000000000 = n + 10000000000000000000) as ->
          by (symmetry; apply (Z.mod_unique _ _ (-1)); zint).
        cbn [Z.even]. bools; try lia; unfold exactly; case_decide; zint; done || lia.
Qed.

(** ** Ranges *)

Lemma wrapU64_sub a b : in_int a → in_int b → b ≤ a → wrapU64 (wrapU64 a - wrapU64 b) = a - b.
Proof.
  intros Ha Hb Hle. unfold wrapU64. rewrite <-Zminus_mod. apply Z.mod_small. zint.
Qed.

Lemma wrapU64_neg s : in_int s → s < 0 → wrapU64 (wrap64 (- s)) = - s.
Proof.
  intros Hs Hneg. unfold wrapU64. destruct (decide (s = MinInt)) as [->|Hne]; [reflexivity|].
  rewrite wrap64_id by zint. apply Z.mod_small. zint.
Qed.

(** The number of members of Python's [range(start, stop, step)]. *)
Definition rangeLength (start stop step : Z) : Z :=
  if 0 <? step then Z.max 0 ((stop - start + step - 1) / step)
  else if step <? 0 then Z.max 0 ((start - stop - step - 1) / (- step))
  else 0.

Lemma ceil_div a b : 0 < a → 0 < b → (a + b - 1) / b = a / b + (if a mod b =? 0 then 0 else 1).
Proof.
  intros Ha Hb. pose proof (Z.div_mod a b ltac:(lia)). pose proof (Z.mod_pos_bound a b Hb).
  symmetry. destruct (Z.eqb_spec (a mod b) 0).
  - apply (Z.div_unique _ _ _ (b - 1)); lia.
  - apply (Z.div_unique _ _ _ (a mod b - 1)); lia.
Qed.

Lemma max0_nonpos a b : a ≤ 0 → 0 < b → Z.max 0 ((a + b - 1) / b) = 0.
Proof. intros Ha Hb. assert ((a + b - 1) / b < 1) by (apply Z.div_lt_upper_bound; lia). lia. Qed.

Lemma max0_pos a b : 0 < a → 0 < b → Z.max 0 ((a + b - 1) / b) = (a + b - 1) / b.
Proof. intros Ha Hb. assert (0 ≤ (a + b - 1) / b) by (apply Z.div_pos; lia). lia. Qed.

Lemma rangeCount_exact start stop step :
  in_int start → in_int stop → in_int step →
  rangeCount start stop step = Z.min (rangeLength start stop step) (maxElements + 1).
Proof.
  intros Ha Hb Hs. unfold rangeCount, rangeLength.
  destruct (Z.ltb_spec 0 step) as [Hp|Hp]; cbn [andb].
  - destruct (Z.ltb_spec step 0); [lia|]. cbn [andb].
    destruct (Z.ltb_spec start stop) as [Hlt|Hge].
    + rewrite wrapU64_sub by zint. replace (wrapU64 step) with step by (symmetry; apply Z.mod_small; zint).
      rewrite max0_pos, ceil_div by lia. destruct (Z.ltb_spec maxElements ((stop - start) / step + (if (stop - start) mod step =? 0 then 0 else 1))); lia.
    + rewrite max0_nonpos by lia. done.
  - destruct (Z.ltb_spec step 0) as [Hn|Hn]; cbn [andb]; [|done].
    replace (start - stop - step - 1) with (start - stop + - step - 1) by lia.
    destruct (Z.ltb_spec stop start) as [Hlt|Hge].
    + rewrite wrapU64_sub, wrapU64_neg by zint.
      rewrite max0_pos, ceil_div by lia. destruct (Z.ltb_spec maxElements ((start - stop) / - step + (if (start - stop) mod - step =? 0 then 0 else 1))); lia.
    + rewrite max0_nonpos by lia. done.
Qed.

Lemma rangeValues_progression count : ∀ n step,
  in_int n → in_int (n + (Z.of_nat count - 1) * step) →
  rangeValues count n step = (λ k, n + k * step) <$> seqZ 0 (Z.of_nat count).
Proof.
  induction count as [|k IH]; intros n step Hn Hl; [done|].
  rewrite Nat2Z.inj_succ, seqZ_cons by lia. cbn [rangeValues fmap list_fmap].
  replace (n + 0 * step) with n by lia. f_equal.
  destruct k as [|k]; [done|].
  assert (in_int (n + step)).
  { clear IH. unfold in_int, MinInt, MaxInt in *. rewrite Nat2Z.inj_succ in Hl. destruct (Z.le_gt_cases 0 step); nia. }
  rewrite wrap64_id by done. rewrite IH by (done || (replace (n + step + (Z.of_nat (S k) - 1) * step) with (n + (Z.of_nat (S (S k)) - 1) * step) by lia; done)).
  rewrite Z.pred_succ, <-(fmap_add_seqZ 1 0), <-list_fmap_compose. apply list_fmap_ext. intros j x _. cbn. lia.
Qed.

(** ** Slices *)

(** A bound of a Python slice: counted from the end when negative, then clamped. *)
Definition sliceBound (i length lo hi : Z) : Z := Z.max lo (Z.min hi (if i <? 0 then i + length else i)).

Lemma clampSliceBound_bound i length forward :
  in_int i → 0 ≤ length → in_int length →
  clampSliceBound i length forward =
  sliceBound i length (if forward then 0 else -1) (if forward then length else length - 1).
Proof.
  intros Hi H0 Hl. unfold clampSliceBound, sliceBound.
  destruct (Z.ltb_spec i 0); [rewrite wrap64_id by zint|]; destruct forward; bools; lia.
Qed.

(** The first index of a slice and the index its loop stops at. *)
Definition sliceFrom (start : option Z) (by_ length : Z) : Z :=
  match start with
  | Some i => sliceBound i length (if 0 <? by_ then 0 else -1) (if 0 <? by_ then length else length - 1)
  | None => if 0 <? by_ then 0 else length - 1
  end.

Definition sliceTo (stop : option Z) (by_ length : Z) : Z :=
  match stop with
  | Some i => sliceBound i length (if 0 <? by_ then 0 else -1) (if 0 <? by_ then length else length - 1)
  | None => if 0 <? by_ then length else -1
  end.

(** The indices Python's slice selects: every step from [from] that stays before
    [to], in the direction of the step. *)
Definition selects (from to by_ x : Z) : Prop :=
  (if 0 <? by_ then x < to else to < x) ∧ ∃ k, 0 ≤ k ∧ x = from + k * by_.

Lemma indicesUp_spec fuel : ∀ i to by_,
  0 < by_ → 0 ≤ i → in_int (to + by_) → to - i ≤ Z.of_nat fuel →
  StronglySorted Z.lt (indicesUp fuel i to by_) ∧
  ∀ x, x ∈ indicesUp fuel i to by_ ↔ x < to ∧ ∃ k, 0 ≤ k ∧ x = i + k * by_.
Proof.
  induction fuel as [|fuel IH]; intros i to by_ Hb Hi Ht Hf; cbn [indicesUp].
  - split; [constructor|]. intros x. split; [intros Hx; by apply elem_of_nil in Hx|intros (Hlt & k & Hk & ->); nia].
  - destruct (Z.ltb_spec i to) as [Hlt|Hge].
    + rewrite wrap64_id by zint. destruct (IH (i + by_) to by_ Hb ltac:(lia) Ht ltac:(lia)) as [Hs He]. split.
      * constructor; [done|]. apply Forall_forall. intros x Hx. apply He in Hx as (_ & k & Hk & ->). nia.
      * intros x. rewrite elem_of_cons, He. split.
        -- intros [->|(Hx & k & Hk & ->)]; [split; [done|]; exists 0; lia|]. split; [done|]. exists (k + 1). lia.
        -- intros (Hx & k & Hk & ->). destruct (decide (k = 0)) as [->|]; [left; lia|].
           right. split; [done|]. exists (k - 1). lia.
    + split; [constructor|]. intros x. split; [intros Hx; by apply elem_of_nil in Hx|intros (Hx & k & Hk & ->); nia].
Qed.

Lemma indicesDown_spec fuel : ∀ i to by_,
  by_ < 0 → in_int by_ → in_int i → -1 ≤ to → i - to ≤ Z.of_nat fuel →
  StronglySorted Z.gt (indicesDown fuel i to by_) ∧
  ∀ x, x ∈ indicesDown fuel i to by_ ↔ to < x ∧ ∃ k, 0 ≤ k ∧ x = i + k * by_.
Proof.
  induction fuel as [|fuel IH]; intros i to by_ Hb Hby Hi Ht Hf; cbn [indicesDown].
  - split; [constructor|]. intros x. split; [intros Hx; by apply elem_of_nil in Hx|intros (Hlt & k & Hk & ->); nia].
  - destruct (Z.ltb_spec to i) as [Hlt|Hge].
    + rewrite wrap64_id by zint.
      destruct (IH (i + by_) to by_ Hb Hby ltac:(zint) Ht ltac:(lia)) as [Hs He]. split.
      * constructor; [done|]. apply Forall_forall. intros x Hx. apply He in Hx as (_ & k & Hk & ->). nia.
      * intros x. rewrite elem_of_cons, He. split.
        -- intros [->|(Hx & k & Hk & ->)]; [split; [done|]; exists 0; lia|]. split; [done|]. exists (k + 1). lia.
        -- intros (Hx & k & Hk & ->). destruct (decide (k = 0)) as [->|]; [left; lia|].
           right. split; [done|]. exists (k - 1). lia.
    + split; [constructor|]. intros x. split; [intros Hx; by apply elem_of_nil in Hx|intros (Hx & k & Hk & ->); nia].
Qed.

Lemma sliceBound_range i length lo hi : lo ≤ hi → lo ≤ sliceBound i length lo hi ≤ hi.
Proof. unfold sliceBound. lia. Qed.

Lemma slice_ends start stop by_ length :
  0 ≤ length →
  (if 0 <? by_ then 0 else -1) ≤ sliceFrom start by_ length ≤ length ∧
  (if 0 <? by_ then 0 else -1) ≤ sliceTo stop by_ length ≤ length.
Proof.
  intros H0. unfold sliceFrom, sliceTo, sliceBound. destruct (0 <? by_), start, stop; lia.
Qed.

Lemma sliceIndices_unfold start stop step length fuel :
  (∀ i, start = Some i → in_int i) → (∀ i, stop = Some i → in_int i) → 0 ≤ length → in_int length →
  let by_ := default 1 step in
  sliceIndicesFuel fuel start stop step length =
  (if 0 <? by_ then indicesUp else indicesDown) fuel (sliceFrom start by_ length) (sliceTo stop by_ length) by_.
Proof.
  intros Hs Ht H0 Hl by_. unfold sliceIndicesFuel, sliceFrom, sliceTo. fold by_.
  destruct start as [i|]; [rewrite (clampSliceBound_bound i) by auto|];
    (destruct stop as [j|]; [rewrite (clampSliceBound_bound j) by auto|]); by destruct (0 <? by_).
Qed.

Lemma sliceIndicesFuel_selects fuel start stop step length :
  (∀ i, start = Some i → in_int i) → (∀ i, stop = Some i → in_int i) → (∀ i, step = Some i → in_int i ∧ i ≠ 0) →
  0 ≤ length → in_int length → in_int (length + default 1 step) → length + 1 ≤ Z.of_nat fuel →
  let by_ := default 1 step in
  let out := sliceIndicesFuel fuel start stop step length in
  StronglySorted (if 0 <? by_ then Z.lt else Z.gt) out ∧
  ∀ x, x ∈ out ↔ selects (sliceFrom start by_ length) (sliceTo stop by_ length) by_ x.
Proof.
  intros Hs Ht Hst H0 Hl Hov Hf by_ out. subst out. rewrite sliceIndices_unfold by done. fold by_. fold by_ in Hov.
  assert (Hby : in_int by_ ∧ by_ ≠ 0).
  { unfold by_. destruct step as [k|]; [by apply Hst|]. cbn. split; [zint|done]. }
  destruct Hby as [Hby Hne].
  destruct (slice_ends start stop by_ length) as [Hfrom Hto]; [done|]. unfold selects. revert Hfrom Hto. destruct (Z.ltb_spec 0 by_); intros Hfrom Hto.
  - apply indicesUp_spec; zint.
  - apply indicesDown_spec; zint.
Qed.

(** A selected index is an index of the sequence. *)
Lemma selects_in_range start stop by_ length x :
  by_ ≠ 0 → 0 ≤ length → selects (sliceFrom start by_ length) (sliceTo stop by_ length) by_ x → 0 ≤ x < length.
Proof.
  intros Hne H0 (Hx & k & Hk & ->). revert Hx. unfold sliceFrom, sliceTo, sliceBound.
  destruct (Z.ltb_spec 0 by_); destruct start, stop; nia.
Qed.

(** *** The loop ends within the fuel *)

Lemma indicesUp_nil fuel i to by_ : to ≤ i → indicesUp fuel i to by_ = [].
Proof. intros H. destruct fuel; cbn [indicesUp]; [done|]. by destruct (Z.ltb_spec i to); [lia|]. Qed.

Lemma indicesUp_stable fuel : ∀ more i to by_,
  0 < by_ → 0 ≤ i → in_int (to + by_) → to - i ≤ Z.of_nat fuel → (fuel ≤ more)%nat →
  indicesUp more i to by_ = indicesUp fuel i to by_.
Proof.
  induction fuel as [|fuel IH]; intros more i to by_ Hb Hi Ht Hf Hm; [rewrite !indicesUp_nil by lia; done|].
  destruct more as [|more]; [lia|]. cbn [indicesUp]. destruct (Z.ltb_spec i to); [|done].
  f_equal. rewrite wrap64_id by zint. apply IH; lia || done.
Qed.

Lemma indicesDown_stable fuel : ∀ more i to by_,
  by_ < 0 → in_int by_ → in_int i → -1 ≤ to → i - to ≤ Z.of_nat fuel → (fuel ≤ more)%nat →
  indicesDown more i to by_ = indicesDown fuel i to by_.
Proof.
  induction fuel as [|fuel IH]; intros more i to by_ Hb Hby Hi Ht Hf Hm.
  - destruct more; cbn [indicesDown]; [done|]. by destruct (Z.ltb_spec to i); [lia|].
  - destruct more as [|more]; [lia|]. cbn [indicesDown]. destruct (Z.ltb_spec to i); [|done].
    f_equal. rewrite wrap64_id by zint. apply IH; lia || zint || done.
Qed.

(** With a step so large that the index overflows, every second visit comes back
    two or more below the previous one. *)
Lemma indicesUp_wrapping n : ∀ k fuel more i to,
  0 ≤ k ≤ 2 ^ 31 → - (k + 1) ≤ i ≤ Z.of_nat n → i < to → to ≤ 2 ^ 31 →
  Z.max 1 (i + 3) ≤ Z.of_nat fuel → (fuel ≤ more)%nat →
  indicesUp more i to (MaxInt - k) = indicesUp fuel i to (MaxInt - k).
Proof.
  change (2 ^ 31) with 2147483648.
  induction n as [n IH] using (well_founded_induction lt_wf).
  intros k fuel more i to Hk Hi Hto Hsm Hf Hm.
  destruct fuel as [|fuel]; [lia|]. destruct more as [|more]; [lia|]. cbn [indicesUp].
  destruct (Z.ltb_spec i to); [|done]. f_equal.
  destruct (Z.le_gt_cases i k) as [Hsmall|Hbig].
  - rewrite wrap64_id by zint. rewrite !indicesUp_nil by zint. done.
  - replace (wrap64 (i + (MaxInt - k))) with (i - k - 1 + MinInt)
      by (destruct (wrap64_decomp (i + (MaxInt - k))) as (q & Hq); pose proof (wrap64_range (i + (MaxInt - k))); zint).
    destruct fuel as [|fuel]; [lia|]. destruct more as [|more]; [lia|]. cbn [indicesUp].
    destruct (Z.ltb_spec (i - k - 1 + MinInt) to); [|done]. f_equal.
    replace (wrap64 (i - k - 1 + MinInt + (MaxInt - k))) with (i - 2 - 2 * k)
      by (rewrite wrap64_id by zint; unfold MaxInt, MinInt; lia).
    apply (IH (Z.to_nat (i - 1))); lia.
Qed.

(** Whatever the step, more fuel than [sliceIndices] has changes nothing. *)
Lemma sliceIndices_fuel start stop step length fuel :
  (∀ i, start = Some i → in_int i) → (∀ i, stop = Some i → in_int i) → (∀ i, step = Some i → in_int i ∧ i ≠ 0) →
  0 ≤ length ≤ 2 ^ 31 → (Z.to_nat length + 2 ≤ fuel)%nat →
  sliceIndicesFuel fuel start stop step length = sliceIndices start stop step length.
Proof.
  change (2 ^ 31) with 2147483648. intros Hs Ht Hst Hl Hf. unfold sliceIndices.
  rewrite !sliceIndices_unfold by (done || zint || lia). set (by_ := default 1 step).
  assert (Hby : in_int by_ ∧ by_ ≠ 0).
  { unfold by_. destruct step as [k|]; [by apply Hst|]. cbn. split; [zint|done]. }
  destruct Hby as [Hby Hne].
  destruct (slice_ends start stop by_ length) as [Hfrom Hto]; [lia|].
  revert Hfrom Hto. destruct (Z.ltb_spec 0 by_); intros Hfrom Hto.
  - destruct (Z.le_gt_cases (sliceTo stop by_ length) (sliceFrom start by_ length));
      [by rewrite !indicesUp_nil by done|].
    destruct (decide (in_int (length + by_))).
    + apply indicesUp_stable; zint.
    + pose proof (indicesUp_wrapping (Z.to_nat length) (MaxInt - by_) (Z.to_nat length + 2) fuel
        (sliceFrom start by_ length) (sliceTo stop by_ length)) as Hw.
      replace (MaxInt - (MaxInt - by_)) with by_ in Hw by lia. apply Hw; zint.
  - apply indicesDown_stable; zint.
Qed.

(** ** Properties *)

(** C36. The checked [int64] arithmetic of the expression language is exact: on
    [int64] operands, addition, subtraction, multiplication, negation, absolute
    value and non-negative powers give the mathematical result when it is an
    [int64] and the overflow error when it is not; floor division and modulo are
    those of Python (rounding towards minus infinity, remainder with the sign of
    the divisor), with their own error for a zero divisor. *)
Theorem integer_arithmetic_exact a b :
  in_int a → in_int b →
  addInt a b = exactly (a + b) ∧
  subInt a b = exactly (a - b) ∧
  mulInt a b = exactly (a * b) ∧
  negInt a = exactly (- a) ∧
  absInt a = exactly (Z.abs a) ∧
  (0 ≤ b → powIntPositive a b = exactly (a ^ b)) ∧
  floorDivInt a b = (if b =? 0 then Err EDivideByZero else exactly (a / b)) ∧
  modInt a b = (if b =? 0 then Err EModuloByZero else Ok (a mod b)).
Proof.
  intros Ha Hb.
  repeat split; auto using addInt_exact, subInt_exact, mulInt_exact, negInt_exact, absInt_exact,
    floorDivInt_exact, modInt_exact.
  intros H0. by apply powIntPositive_exact.
Qed.

Lemma integer_arithmetic_exact_witness :
  in_int MinInt ∧ in_int 3 ∧ addInt MinInt 3 = Ok (-9223372036854775805) ∧ floorDivInt MinInt 3 = Ok (-3074457345618258603)
  ∧ mulInt MinInt 3 = Err EIntOverflow.
Proof.
  assert (HM : in_int MinInt) by (vm_compute; split; discriminate).
  assert (H3 : in_int 3) by (vm_compute; split; discriminate).
  destruct (integer_arithmetic_exact MinInt 3 HM H3) as (Ha & _ & Hm & _ & _ & _ & Hd & _).
  split; [exact HM|]. split; [exact H3|]. rewrite Ha, Hm, Hd. repeat split; vm_compute; reflexivity.
Defined.

(** [round(n, ndigits)] on an integer rounds to the nearest multiple of
    [10^-ndigits], ties to the even multiple, for every digit count but [-2^63];
    a result outside [int64] is the overflow error, however large the scale. *)
Theorem round_half_even n nd :
  in_int n → in_int nd → nd ≠ MinInt →
  roundIntToDigits n nd = if 0 <=? nd then Ok n else exactly (roundHalfEven n (10 ^ (- nd))).
Proof. apply roundIntToDigits_exact. Qed.

Lemma round_half_even_witness :
  roundIntToDigits (-25) (-1) = Ok (-20) ∧ roundIntToDigits MaxInt (-19) = Err EIntOverflow.
Proof.
  split.
  - rewrite (round_half_even (-25) (-1)); [vm_compute; reflexivity|vm_compute; split; discriminate|vm_compute; split; discriminate|discriminate].
  - rewrite (round_half_even MaxInt (-19)); [vm_compute; reflexivity|vm_compute; split; discriminate|vm_compute; split; discriminate|discriminate].
Defined.

(** With the least integer as [ndigits], whose negation wraps, an odd integer is
    rounded to its successor, which for the greatest wraps around. *)
Theorem round_least_digits :
  roundIntToDigits 3 MinInt = Ok 4 ∧ roundIntToDigits MaxInt MinInt = Ok MinInt.
Proof. split; vm_compute; reflexivity. Qed.

(** A slice selects what Python's slice selects: its indices run strictly in
    the direction of the step, they are exactly the multiples of the step from the
    clamped start that stay before the clamped stop, and each one is an index of
    the sequence.  This holds for every bound, and for every step that does not
    overflow when it is added to the length. *)
Theorem slice_selects start stop step length :
  (∀ i, start = Some i → in_int i) → (∀ i, stop = Some i → in_int i) → (∀ i, step = Some i → in_int i ∧ i ≠ 0) →
  0 ≤ length → in_int length → in_int (length + default 1 step) →
  let by_ := default 1 step in
  let out := sliceIndices start stop step length in
  StronglySorted (if 0 <? by_ then Z.lt else Z.gt) out ∧
  (∀ x, x ∈ out ↔ selects (sliceFrom start by_ length) (sliceTo stop by_ length) by_ x) ∧
  (∀ x, x ∈ out → 0 ≤ x < length).
Proof.
  intros Hs Ht Hst H0 Hl Hov by_ out.
  destruct (sliceIndicesFuel_selects (Z.to_nat length + 2) start stop step length) as [Hso Hel]; try done; [lia|].
  split; [done|]. split; [done|]. intros x Hx. apply (selects_in_range start stop by_); [|done|by apply Hel].
  unfold by_. destruct step as [k|]; [by apply Hst|done].
Qed.

Lemma slice_selects_witness :
  sliceIndices (Some (-2)) None (Some (-2)) 5 = [3; 1] ∧ StronglySorted Z.gt (sliceIndices (Some (-2)) None (Some (-2)) 5).
Proof.
  split; [vm_compute; reflexivity|].
  apply (slice_selects (Some (-2)) None (Some (-2)) 5);
    try (intros i Hi; injection Hi as <-); try discriminate; try (vm_compute; split; discriminate).
  split; [vm_compute; split; discriminate|discriminate].
Defined.

(** The index of a slice can overflow: on a list of three elements,
    [[1::9223372036854775807]] selects the index 1, then [-2^63] and [-1], which are
    not indices of the list; the element access that follows is out of range. *)
Theorem slice_step_overflows :
  sliceIndices (Some 1) None (Some MaxInt) 3 = [1; MinInt; -1].
Proof. vm_compute. reflexivity. Qed.
