(* ===== verification/ExprShape.v ===== *)
(** * Overload selection in the expression language

    src/internal/openjd/expr/shape.go (signatures, type variables, the cost of an
    argument, the choice of a signature) and the unification of element types of
    list.go.

    The theorems: the signature that is chosen is the first of the cheapest ones,
    its arguments reach its parameters, and the types its variables are bound to
    are canonical, so that the types derived from them are too. *)

From S2P Require Import Prelude StatusText GoText IntRange RangeExpr ExprType ExprFloat ExprValue ExprCoerce.

(** ** Unification of element types *)

Fixpoint tySize (t : Ty) : nat :=
  match t with
  | TList e => S (tySize e)
  | TUnion ms => S (foldr (λ m n, tySize m + n)%nat 0%nat ms)
  | TUnresolved c => S (tySize c)
  | _ => 1%nat
  end.

(** list.go [isNumericPair], [isPathStringPair] *)
Definition isNumericPair (a b : Ty) : bool :=
  (is_code CodeInt a && is_code CodeFloat b) || (is_code CodeFloat a && is_code CodeInt b).

Definition isPathStringPair (a b : Ty) : bool :=
  (is_code CodePath a && is_code CodeString b) || (is_code CodeString a && is_code CodePath b).

(** list.go [unifyElemPair], with [fuel] levels of nesting. *)
Fixpoint unifyFuel (fuel : nat) (a b : Ty) : option Ty :=
  match fuel with
  | O => None
  | S f =>
      if Equal a b then Some a
      else if isNumericPair a b then Some TFloat
      else if isPathStringPair a b then Some TString
      else
        match listElem a, listElem b with
        | Some ae, Some be =>
            if is_code CodeNull ae then Some b
            else if is_code CodeNull be then Some a
            else ListOf <$> unifyFuel f ae be
        | _, _ => None
        end
  end.

Definition unifyElemPair (a b : Ty) : option Ty := unifyFuel (tySize a) a b.

(** list.go [unifyElemTypes] *)
Definition unifyElemTypes (ts : list Ty) : option Ty :=
  match ts with
  | [] => Some TNull
  | t :: ts' =>
      foldl (λ acc t, acc ≫= λ a, unifyElemPair a (unwrapUnresolved t)) (Some (unwrapUnresolved t)) ts'
  end.

(** ** Bindings of type variables *)

(** shape.go [bindings] *)
Record bindings := mkBindings {
  bound : option Ty;
  bound1 : option Ty;
  bound2 : option Ty;
  bound3 : option Ty;
}.

Definition noBindings : bindings := mkBindings None None None None.

(** shape.go [isTypeVar] *)
Definition isTypeVar (c : Code) : bool :=
  match c with CodeVarT | CodeVarT1 | CodeVarT2 | CodeVarT3 => true | _ => false end.

(** shape.go [bindings.get], [bindings.bind] *)
Definition get (b : bindings) (c : Code) : option Ty :=
  match c with
  | CodeVarT => bound b
  | CodeVarT1 => bound1 b
  | CodeVarT2 => bound2 b
  | CodeVarT3 => bound3 b
  | _ => None
  end.

Definition bindVar (b : bindings) (c : Code) (t : Ty) : bindings :=
  match c with
  | CodeVarT => mkBindings (Some t) (bound1 b) (bound2 b) (bound3 b)
  | CodeVarT1 => mkBindings (bound b) (Some t) (bound2 b) (bound3 b)
  | CodeVarT2 => mkBindings (bound b) (bound1 b) (Some t) (bound3 b)
  | CodeVarT3 => mkBindings (bound b) (bound1 b) (bound2 b) (Some t)
  | _ => b
  end.

(** shape.go [promotion], [promotableUnder] *)
Inductive promotion := promoteDefault | promoteOrdering | promoteNoRangeText.

Definition promotableUnder (pr : promotion) (from to : Ty) : bool :=
  if negb (promotable from to) then false
  else
    match pr with
    | promoteNoRangeText => negb (is_code CodeRangeExpr (unwrapUnresolved from))
    | promoteOrdering =>
        let f := unwrapUnresolved from in
        let t := unwrapUnresolved to in
        (is_code CodeInt f && is_code CodeFloat t) || (is_code CodePath f && is_code CodeString t)
    | promoteDefault => true
    end.

(** ** The cost of an argument *)

Definition costExact : Z := 0.
Definition costWiden : Z := 1.

(** shape.go [emptyListBinding], with [fuel] levels of nesting. *)
Fixpoint emptyFuel (fuel : nat) (bound arg : Ty) : bool :=
  match fuel with
  | O => false
  | S f =>
      if is_code CodeNull bound then true
      else
        match listElem bound, listElem arg with
        | Some be, Some ae => emptyFuel f be ae
        | _, _ => false
        end
  end.

Definition emptyListBinding (bound arg : Ty) : bool := emptyFuel (tySize bound) bound arg.

(** shape.go [orderingUnified] *)
Definition orderingUnified (pr : promotion) (bound arg : Ty) : option Ty :=
  match pr with promoteOrdering => unifyElemPair bound arg | _ => None end.

(** shape.go [typeVarCost] *)
Definition typeVarCost (c : Code) (arg : Ty) (b : bindings) (pr : promotion) : option (Z * bindings) :=
  match get b c with
  | None => Some (costExact, bindVar b c arg)
  | Some bound =>
      if Equal bound arg then Some (costExact, b)
      else if emptyListBinding bound arg then Some (costWiden, bindVar b c arg)
      else if emptyListBinding arg bound then Some (costWiden, b)
      else
        match orderingUnified pr bound arg with
        | Some u => Some (costWiden, bindVar b c u)
        | None => None
        end
  end.

(** The merge of the bindings one member of a union made, in [unionArgValueCost]:
    [None] when it disagrees with an earlier one. *)
Definition mergeVar (scratch : bindings) (acc : option bindings) (c : Code) : option bindings :=
  acc ≫= λ merged,
    match get scratch c with
    | None => Some merged
    | Some t =>
        match get merged c with
        | Some existing => if Equal existing t then Some merged else None
        | None => Some (bindVar merged c t)
        end
    end.

Definition typeVars : list Code := [CodeVarT; CodeVarT1; CodeVarT2; CodeVarT3].

Definition mergeBindings (merged scratch : bindings) : option bindings :=
  foldl (mergeVar scratch) (Some merged) typeVars.

(** shape.go [argCost], with [argCostList], [unionArgCost] and
    [unionArgValueCost]: the cost and the bindings it leaves, or nothing when the
    argument does not fit. *)
Fixpoint argCost (pr : promotion) (param : Ty) : Ty → bindings → option (Z * bindings) :=
  fix go (arg : Ty) (b : bindings) : option (Z * bindings) :=
    match arg with
    | TUnresolved c => go c b
    | _ =>
        if isTypeVar (code param) then typeVarCost (code param) arg b pr
        else
          match param, arg with
          | TAny, _ => Some (costWiden, b)
          | TList pe, TList ae =>
              if is_code CodeNull ae then
                if is_code CodeNull pe then Some (costExact, b)
                else if isTypeVar (code pe) then
                  match get b (code pe) with
                  | None => Some (costExact, bindVar b (code pe) TNull)
                  | Some _ => Some (costWiden, b)
                  end
                else Some (costWiden, b)
              else argCost pr pe ae b
          | TUnion ms, _ =>
              (fix best (ms : list Ty) (acc : option (Z * bindings)) : option (Z * bindings) :=
                 match ms with
                 | [] => acc
                 | m :: ms' =>
                     best ms'
                       match argCost pr m arg b with
                       | None => acc
                       | Some (cost, scratch) =>
                           match acc with
                           | Some (c, _) => if (cost <? c)%Z then Some (cost, scratch) else acc
                           | None => Some (cost, scratch)
                           end
                       end
                 end) ms None
          | _, TUnion ams =>
              (fix worst (ams : list Ty) (w : Z) (merged : bindings) : option (Z * bindings) :=
                 match ams with
                 | [] => Some (w, merged)
                 | am :: ams' =>
                     match go am b with
                     | None => None
                     | Some (cost, scratch) =>
                         match mergeBindings merged scratch with
                         | None => None
                         | Some merged' => worst ams' (if (w <? cost)%Z then cost else w) merged'
                         end
                     end
                 end) ams 0%Z b
          | _, _ =>
              if Equal param arg then Some (costExact, b)
              else if promotableUnder pr arg param then Some (costWiden, b)
              else None
          end
    end.

(** shape.go [substitute] *)
Fixpoint substitute (t : Ty) (b : bindings) : Ty :=
  match t with
  | TVarT | TVarT1 | TVarT2 | TVarT3 => default t (get b (code t))
  | TList e => ListOf (substitute e b)
  | TUnion [] => t
  | TUnion ms => UnionOf (map (λ m, substitute m b) ms)
  | TUnresolved c => UnresolvedOf (substitute c b)
  | _ => t
  end.

(** ** Signatures *)

(** shape.go [Cost]: the arguments and the results whose elements or bytes are
    charged. *)
Record Cost := mkCost {
  ArgElements : list nat;
  ArgBytes : list nat;
  ResultElements : bool;
  ResultBytes : bool;
}.

Definition noCost : Cost := mkCost [] [] false false.

Section Shapes.
(** What a function gets: the context of the evaluation and the arguments. *)
Context {Fun : Type}.

(** shape.go [Shape]; [Fn] and [FnCtx] are one field. *)
Record Shape := mkShape {
  Params : list Ty;
  Ret : Ty;
  RetOf : option (bindings → Ty);
  Promote : promotion;
  ShapeCost : Cost;
  Fn : Fun;
}.

(** The loop of [shapeCostExactFirst]; [first] while the first parameter is
    looked at. *)
Fixpoint paramsCost (pr : promotion) (exactFirst : bool) (params args : list Ty) (b : bindings) (total : Z)
    : option (Z * bindings) :=
  match params, args with
  | p :: params', a :: args' =>
      match argCost pr p a b with
      | None => None
      | Some (cost, b') =>
          if exactFirst && negb (cost =? costExact)%Z then None
          else paramsCost pr false params' args' b' (total + cost)%Z
      end
  | _, _ => Some (total, b)
  end.

(** shape.go [shapeCostExactFirst] *)
Definition shapeCostExactFirst (s : Shape) (args : list Ty) (exactFirst : bool) : option (Z * bindings) :=
  paramsCost (Promote s) exactFirst (Params s) args noBindings 0%Z.

(** The loop of [matchShapesExactFirst]. *)
Fixpoint bestShape (shapes : list Shape) (args : list Ty) (exactFirst : bool)
    (best : option (Z * (Shape * bindings))) : option (Z * (Shape * bindings)) :=
  match shapes with
  | [] => best
  | s :: shapes' =>
      bestShape shapes' args exactFirst
        (if negb (Nat.eqb (length (Params s)) (length args)) then best
         else
           match shapeCostExactFirst s args exactFirst with
           | None => best
           | Some (cost, b) =>
               match best with
               | Some (c, _) => if (cost <? c)%Z then Some (cost, (s, b)) else best
               | None => Some (cost, (s, b))
               end
           end)
  end.

(** shape.go [matchShapesExactFirst], [matchShapes] *)
Definition matchShapesExactFirst (shapes : list Shape) (args : list Ty) (exactFirst : bool)
    : option (Shape * bindings) :=
  snd <$> bestShape shapes args exactFirst None.

Definition matchShapes (shapes : list Shape) (args : list Ty) : option (Shape * bindings) :=
  matchShapesExactFirst shapes args false.
End Shapes.

Arguments Shape : clear implicits.

(** ** The recursion on element types ends *)

Lemma tySize_member m ms : m ∈ ms → (tySize m < tySize (TUnion ms))%nat.
Proof.
  intros Hm. cbn [tySize]. induction Hm as [ms|x ms Hm IH]; cbn [foldr]; lia.
Qed.

Lemma listElem_union ms e :
  listElem (TUnion ms) = Some e → ∃ m, m ∈ ms ∧ listElem m = Some e.
Proof.
  cbn [listElem].
  assert (Hgen : ∀ found, (∃ m, m ∈ ms ∧ listElem m = Some e) ∨ found = Some e ∨ 
    (fix go (ms : list Ty) (found : option Ty) : option Ty :=
         match ms with
         | [] => found
         | m :: ms' =>
             match listElem m with
             | None => go ms' found
             | Some el =>
                 match found with
                 | Some f => if Equal f el then go ms' (Some el) else None
                 | None => go ms' (Some el)
                 end
             end
         end) ms found ≠ Some e).
  { induction ms as [|m ms IH]; intros found; [destruct (decide (found = Some e)); auto|].
    destruct (listElem m) as [el|] eqn:Hel.
    - destruct (decide (el = e)) as [->|Hne]; [left; exists m; split; [by left|done]|].
      destruct (IH (Some el)) as [(m' & Hm' & He)|[[= ->]|Hno]]; [left; exists m'; split; [by right|done]|done|].
      right; right. destruct found; [|done]. by destruct (Equal _ _).
    - destruct (IH found) as [(m' & Hm' & He)|[->|Hno]]; [left; exists m'; split; [by right|done]|by right; left|by right; right]. }
  intros H. destruct (Hgen None) as [?|[?|?]]; done.
Qed.

Lemma listElem_size t e : listElem t = Some e → (tySize e < tySize t)%nat.
Proof.
  revert e. induction t as [t Ht|u _|ms IH|c IH] using Ty_induct; intros e He.
  - by destruct t.
  - injection He as <-. cbn. lia.
  - apply listElem_union in He as (m & Hm & He). rewrite Forall_forall in IH.
    pose proof (tySize_member m ms Hm). apply IH in He; [lia|done].
  - apply IH in He. cbn. lia.
Qed.

Lemma unifyFuel_more f g a b : (tySize a ≤ f)%nat → (tySize a ≤ g)%nat → unifyFuel f a b = unifyFuel g a b.
Proof.
  revert g a b. induction f as [|f IH]; intros g a b Hf Hg; [destruct a; cbn in Hf; lia|].
  destruct g as [|g]; [destruct a; cbn in Hg; lia|]. cbn [unifyFuel].
  destruct (Equal a b), (isNumericPair a b), (isPathStringPair a b); try done.
  destruct (listElem a) as [ae|] eqn:Ha; [|done]. destruct (listElem b); [|done].
  apply listElem_size in Ha. rewrite (IH g) by lia. done.
Qed.

(** The recursive equation of [unifyElemPair]. *)
Lemma unifyElemPair_eq a b :
  unifyElemPair a b =
  if Equal a b then Some a
  else if isNumericPair a b then Some TFloat
  else if isPathStringPair a b then Some TString
  else
    match listElem a, listElem b with
    | Some ae, Some be =>
        if is_code CodeNull ae then Some b
        else if is_code CodeNull be then Some a
        else ListOf <$> unifyElemPair ae be
    | _, _ => None
    end.
Proof.
  unfold unifyElemPair at 1. rewrite (unifyFuel_more _ (S (tySize a))) by lia. cbn [unifyFuel].
  destruct (Equal a b), (isNumericPair a b), (isPathStringPair a b); try done.
  destruct (listElem a) as [ae|] eqn:Ha; [|done]. destruct (listElem b); [|done].
  unfold unifyElemPair. apply listElem_size in Ha. by rewrite (unifyFuel_more (tySize a) (tySize ae)) by lia.
Qed.

Lemma emptyFuel_more f g a b : (tySize a ≤ f)%nat → (tySize a ≤ g)%nat → emptyFuel f a b = emptyFuel g a b.
Proof.
  revert g a b. induction f as [|f IH]; intros g a b Hf Hg; [destruct a; cbn in Hf; lia|].
  destruct g as [|g]; [destruct a; cbn in Hg; lia|]. cbn [emptyFuel].
  destruct (is_code CodeNull a); [done|].
  destruct (listElem a) as [ae|] eqn:Ha; [|done]. destruct (listElem b); [|done].
  apply listElem_size in Ha. by rewrite (IH g) by lia.
Qed.

(** The recursive equation of [emptyListBinding]. *)
Lemma emptyListBinding_eq a b :
  emptyListBinding a b =
  if is_code CodeNull a then true
  else
    match listElem a, listElem b with
    | Some ae, Some be => emptyListBinding ae be
    | _, _ => false
    end.
Proof.
  unfold emptyListBinding at 1. rewrite (emptyFuel_more _ (S (tySize a))) by lia. cbn [emptyFuel].
  destruct (is_code CodeNull a); [done|].
  destruct (listElem a) as [ae|] eqn:Ha; [|done]. destruct (listElem b); [|done].
  unfold emptyListBinding. apply listElem_size in Ha. by rewrite (emptyFuel_more (tySize a) (tySize ae)) by lia.
Qed.

(** ** Derived types are canonical *)

Lemma listElem_resolved t e : resolved t → listElem t = Some e → resolved e.
Proof.
  revert e. induction t as [t Ht|u _|ms IH|c IH] using Ty_induct; intros e Hr He.
  - by destruct t.
  - by injection He as <-.
  - apply listElem_union in He as (m & Hm & He). apply resolved_union in Hr as (_ & _ & _ & Hr).
    rewrite Forall_forall in IH, Hr. eauto.
  - done.
Qed.

Lemma unifyFuel_resolved f a b u : resolved a → resolved b → unifyFuel f a b = Some u → resolved u.
Proof.
  revert a b u. induction f as [|f IH]; intros a b u Ha Hb H; [done|]. cbn [unifyFuel] in H.
  destruct (Equal a b); [by injection H as <-|].
  destruct (isNumericPair a b); [by injection H as <-|].
  destruct (isPathStringPair a b); [by injection H as <-|].
  destruct (listElem a) as [ae|] eqn:Hae; [|done]. destruct (listElem b) as [be|] eqn:Hbe; [|done].
  destruct (is_code CodeNull ae); [by injection H as <-|].
  destruct (is_code CodeNull be); [by injection H as <-|].
  destruct (unifyFuel f ae be) as [v|] eqn:Hv; [|done]. injection H as <-.
  assert (Hr : resolved v) by (eapply (IH ae be); eauto using listElem_resolved).
  by rewrite ListOf_resolved.
Qed.

Lemma unifyElemPair_resolved a b u : resolved a → resolved b → unifyElemPair a b = Some u → resolved u.
Proof. apply unifyFuel_resolved. Qed.

Lemma unifyElemTypes_resolved ts u : Forall canonical ts → unifyElemTypes ts = Some u → resolved u.
Proof.
  destruct ts as [|t ts]; cbn [unifyElemTypes]; [by intros _ [= <-]|]. intros [Ht Hts]%Forall_cons.
  apply canonical_unwrap in Ht. revert Ht. generalize (unwrapUnresolved t). clear t. revert u.
  induction Hts as [|s ts Hs _ IH]; intros u t Ht; cbn [foldl]; [by intros [= <-]|].
  cbn [mbind option_bind]. destruct (unifyElemPair t (unwrapUnresolved s)) as [v|] eqn:Hv.
  - apply IH. eapply unifyElemPair_resolved; [exact Ht| |exact Hv]. by apply canonical_unwrap.
  - intros H. exfalso. clear -H. induction ts as [|x ts IH]; [done|]. cbn in H. auto.
Qed.

Definition bindingsOk (b : bindings) : Prop := ∀ c t, get b c = Some t → resolved t.

Lemma noBindings_ok : bindingsOk noBindings.
Proof. intros c t. by destruct c. Qed.

Lemma get_bindVar b c d t :
  get (bindVar b c t) d = if isTypeVar c && bool_decide (c = d) then Some t else get b d.
Proof. by destruct c, d. Qed.

Lemma bindVar_ok b c t : bindingsOk b → resolved t → bindingsOk (bindVar b c t).
Proof.
  intros Hb Ht d u. rewrite get_bindVar. destruct (_ && _); [by intros [= <-]|]. apply Hb.
Qed.

Lemma typeVarCost_ok c arg b pr cost b' :
  bindingsOk b → resolved arg → typeVarCost c arg b pr = Some (cost, b') → bindingsOk b'.
Proof.
  intros Hb Ha H. unfold typeVarCost in H. destruct (get b c) as [t|] eqn:Hg; [|injection H as _ <-; by apply bindVar_ok].
  destruct (Equal t arg); [by injection H as _ <-|].
  destruct (emptyListBinding t arg); [injection H as _ <-; by apply bindVar_ok|].
  destruct (emptyListBinding arg t); [by injection H as _ <-|].
  unfold orderingUnified in H. destruct pr; try done.
  destruct (unifyElemPair t arg) as [u|] eqn:Hu; [|done]. injection H as _ <-.
  apply bindVar_ok; [done|]. eapply unifyElemPair_resolved; [|done|exact Hu]. by eapply Hb.
Qed.

Lemma mergeBindings_ok merged scratch out :
  bindingsOk merged → bindingsOk scratch → mergeBindings merged scratch = Some out → bindingsOk out.
Proof.
  intros Hm Hs. unfold mergeBindings. generalize typeVars as cs. intros cs. revert merged Hm.
  induction cs as [|c cs IH]; intros merged Hm; cbn [foldl]; [by intros [= <-]|].
  destruct (mergeVar scratch (Some merged) c) as [m|] eqn:E.
  - apply IH. unfold mergeVar in E. cbn [mbind option_bind] in E. destruct (get scratch c) as [t|] eqn:Ht; [|by injection E as <-].
    destruct (get merged c); [destruct (Equal _ t); [by injection E as <-|done]|].
    injection E as <-. apply bindVar_ok; [done|]. by eapply Hs.
  - intros H. exfalso. clear -H. induction cs as [|x cs IH]; [done|]. cbn in H. auto.
Qed.

(** [argCost], one step at a time, for an argument that is not a placeholder. *)
Fixpoint bestMember (pr : promotion) (arg : Ty) (b : bindings) (ms : list Ty) (acc : option (Z * bindings))
    : option (Z * bindings) :=
  match ms with
  | [] => acc
  | m :: ms' =>
      bestMember pr arg b ms'
        match argCost pr m arg b with
        | None => acc
        | Some (cost, scratch) =>
            match acc with
            | Some (c, _) => if (cost <? c)%Z then Some (cost, scratch) else acc
            | None => Some (cost, scratch)
            end
        end
  end.

Fixpoint worstMember (pr : promotion) (param : Ty) (b : bindings) (ams : list Ty) (w : Z) (merged : bindings)
    : option (Z * bindings) :=
  match ams with
  | [] => Some (w, merged)
  | am :: ams' =>
      match argCost pr param am b with
      | None => None
      | Some (cost, scratch) =>
          match mergeBindings merged scratch with
          | None => None
          | Some merged' => worstMember pr param b ams' (if (w <? cost)%Z then cost else w) merged'
          end
      end
  end.

Lemma argCost_eq pr param arg b :
  argCost pr param arg b =
  match arg with
  | TUnresolved c => argCost pr param c b
  | _ =>
      if isTypeVar (code param) then typeVarCost (code param) arg b pr
      else
        match param, arg with
        | TAny, _ => Some (costWiden, b)
        | TList pe, TList ae =>
            if is_code CodeNull ae then
              if is_code CodeNull pe then Some (costExact, b)
              else if isTypeVar (code pe) then
                match get b (code pe) with
                | None => Some (costExact, bindVar b (code pe) TNull)
                | Some _ => Some (costWiden, b)
                end
              else Some (costWiden, b)
            else argCost pr pe ae b
        | TUnion ms, _ => bestMember pr arg b ms None
        | _, TUnion ams => worstMember pr param b ams 0 b
        | _, _ =>
            if Equal param arg then Some (costExact, b)
            else if promotableUnder pr arg param then Some (costWiden, b)
            else None
        end
  end.
Proof.
  assert (Hbest : ∀ ms arg b acc,
    (fix best (ms : list Ty) (acc : option (Z * bindings)) : option (Z * bindings) :=
       match ms with
       | [] => acc
       | m :: ms' =>
           best ms'
             match argCost pr m arg b with
             | None => acc
             | Some (cost, scratch) =>
                 match acc with
                 | Some (c, _) => if (cost <? c)%Z then Some (cost, scratch) else acc
                 | None => Some (cost, scratch)
                 end
             end
       end) ms acc = bestMember pr arg b ms acc).
  { clear. intros ms arg b. induction ms as [|m ms IH]; intros acc; cbn [bestMember]; [done|]. by rewrite <-IH. }
  assert (Hworst : ∀ ams param b w merged,
    (fix worst (ams : list Ty) (w : Z) (merged : bindings) : option (Z * bindings) :=
       match ams with
       | [] => Some (w, merged)
       | am :: ams' =>
           match argCost pr param am b with
           | None => None
           | Some (cost, scratch) =>
               match mergeBindings merged scratch with
               | None => None
               | Some merged' => worst ams' (if (w <? cost)%Z then cost else w) merged'
               end
           end
       end) ams w merged = worstMember pr param b ams w merged).
  { clear. intros ams param b. induction ams as [|am ams IH]; intros w merged; cbn [worstMember]; [done|].
    destruct (argCost pr param am b) as [[c s]|]; [|done]. destruct (mergeBindings merged s); [|done]. apply IH. }
  destruct param, arg; lazymatch goal with
    | |- argCost _ _ (TUnresolved _) _ = _ => reflexivity
    | |- argCost _ (TUnion ?ms) ?arg _ = _ => exact (Hbest ms arg b None)
    | |- argCost _ TVarT _ _ = _ => reflexivity
    | |- argCost _ TVarT1 _ _ = _ => reflexivity
    | |- argCost _ TVarT2 _ _ = _ => reflexivity
    | |- argCost _ TVarT3 _ _ = _ => reflexivity
    | |- argCost _ TAny _ _ = _ => reflexivity
    | |- argCost _ ?p (TUnion ?ams) _ = _ => exact (Hworst ams p b 0%Z b)
    | |- _ => reflexivity
    end.
Qed.

Lemma worstMember_ok pr param b ams :
  bindingsOk b →
  (∀ am cost b', am ∈ ams → argCost pr param am b = Some (cost, b') → bindingsOk b') →
  ∀ w merged cost b', bindingsOk merged → worstMember pr param b ams w merged = Some (cost, b') → bindingsOk b'.
Proof.
  intros Hb. induction ams as [|am ams IH]; intros Ham w merged cost b' Hm H; cbn [worstMember] in H.
  - by injection H as _ <-.
  - destruct (argCost pr param am b) as [[c s]|] eqn:E; [|done].
    destruct (mergeBindings merged s) as [m|] eqn:Em; [|done].
    apply IH in H; [done|intros; eapply Ham; [by right|done]|].
    eapply mergeBindings_ok; [exact Hm| |exact Em]. eapply Ham; [by left|done].
Qed.

Lemma bestMember_ok pr arg b ms :
  (∀ m cost b', m ∈ ms → argCost pr m arg b = Some (cost, b') → bindingsOk b') →
  ∀ acc cost b', (∀ c s, acc = Some (c, s) → bindingsOk s) → bestMember pr arg b ms acc = Some (cost, b') → bindingsOk b'.
Proof.
  induction ms as [|m ms IH]; intros Hm acc cost b' Hacc H; cbn [bestMember] in H; [by eapply Hacc|].
  eapply IH; [intros; eapply Hm; [by right|done]| |exact H].
  intros c s. destruct (argCost pr m arg b) as [[c' s']|] eqn:E; [|apply Hacc].
  destruct acc as [[c0 s0]|]; [destruct (_ <? _)%Z|]; intros [= <- <-];
    solve [eapply Hacc; reflexivity|eapply Hm; [by left|done]].
Qed.

Lemma leafCost_same (e p : bool) (b b' : bindings) cost :
  (if e then Some (costExact, b) else if p then Some (costWiden, b) else None) = Some (cost, b') → b' = b.
Proof. destruct e, p; congruence. Qed.

(** The cost of a parameter keeps the bindings canonical. *)
Definition keepsBindings (pr : promotion) (param : Ty) : Prop := ∀ arg b cost b',
  bindingsOk b → canonical arg → argCost pr param arg b = Some (cost, b') → bindingsOk b'.

Lemma bestMember_keeps pr arg b ms cost b' :
  Forall (keepsBindings pr) ms → bindingsOk b → canonical arg →
  bestMember pr arg b ms None = Some (cost, b') → bindingsOk b'.
Proof.
  intros Hms Hb Ha. apply bestMember_ok; [|intros; discriminate].
  intros m c s Hm Hc. rewrite Forall_forall in Hms. eapply (Hms m Hm); [exact Hb|exact Ha|exact Hc].
Qed.

Ltac cost_cases Hb Hp H :=
  lazymatch type of H with
  | bestMember _ _ _ _ _ = _ => eapply bestMember_keeps; [exact Hp|exact Hb| |exact H]; assumption
  | Some (costWiden, _) = _ => injection H as _ <-; exact Hb
  | (if _ then Some _ else _) = _ => apply leafCost_same in H; subst; exact Hb
  end.

Lemma argCost_step pr param :
  match param with
  | TList pe => keepsBindings pr pe
  | TUnion ms => Forall (keepsBindings pr) ms
  | _ => True
  end → keepsBindings pr param.
Proof.
  intros Hp arg.
  induction arg as [arg Harg|ae _|ams IHa|c IHc] using Ty_induct; intros b cost b' Hb Ha H; rewrite argCost_eq in H;
    [| | |eapply IHc; [exact Hb|apply resolved_canonical; exact Ha|exact H]];
    (destruct (isTypeVar (code param)) eqn:Hv;
      [eapply typeVarCost_ok; [exact Hb| |destruct arg; try discriminate Harg; exact H]; by destruct arg|]) ||
    (destruct (isTypeVar (code param)) eqn:Hv; [eapply typeVarCost_ok; [exact Hb|exact Ha|exact H]|]).
  - destruct param; try discriminate Hv; destruct arg; try discriminate Harg; cost_cases Hb Hp H.
  - destruct param as [| | | | | | | | | | | | |pe| |]; try discriminate Hv; try cost_cases Hb Hp H.
    destruct (is_code CodeNull ae).
    + destruct (is_code CodeNull pe); [injection H as _ <-; exact Hb|].
      destruct (isTypeVar (code pe)); [|injection H as _ <-; exact Hb].
      destruct (get b (code pe)); injection H as _ <-; [exact Hb|]. by apply bindVar_ok.
    + eapply Hp; [exact Hb| |exact H]. apply resolved_canonical. exact Ha.
  - assert (Hw : worstMember pr param b ams 0 b = Some (cost, b') → bindingsOk b').
    { apply worstMember_ok; [done| |done]. intros am c1 b1 Ham. rewrite Forall_forall in IHa. apply IHa; [done..|].
      apply resolved_union in Ha as (_ & _ & _ & Ha). rewrite Forall_forall in Ha. by apply resolved_canonical, Ha. }
    destruct param; try discriminate Hv; first [exact (Hw H)|cost_cases Hb Hp H].
Qed.

Lemma argCost_ok pr param : keepsBindings pr param.
Proof.
  induction param as [t Ht|e IH|ms IH|c IH] using Ty_induct; apply argCost_step;
    [destruct t; try discriminate Ht; exact I|exact IH|exact IH|exact I].
Qed.

Lemma substitute_canonical t b : resolved t → bindingsOk b → canonical (substitute t b).
Proof.
  intros Ht Hb. induction t as [t Hs|e IH|ms IH|c IH] using Ty_induct.
  - destruct t; try discriminate Hs; try exact I; cbn [substitute];
      (match goal with |- context [get b ?c] => destruct (get b c) as [u|] eqn:Hg end; [|exact I]);
      apply resolved_canonical; eapply Hb; exact Hg.
  - cbn [substitute]. apply ListOf_canonical, IH, Ht.
  - pose proof Ht as (_ & _ & _ & Hr)%resolved_union. destruct ms as [|m ms]; [exact Ht|].
    cbn [substitute]. apply UnionOf_canonical, Forall_fmap. rewrite Forall_forall in IH, Hr |- *.
    intros x Hx. apply (IH x Hx), Hr, Hx.
  - done.
Qed.

Section Choice.
Context {Fun : Type}.
Implicit Types (s : Shape Fun) (shapes : list (Shape Fun)).

Lemma paramsCost_ok pr ef params : ∀ args b total cost b',
  bindingsOk b → Forall canonical args → paramsCost pr ef params args b total = Some (cost, b') → bindingsOk b'.
Proof.
  revert ef. induction params as [|p params IH]; intros ef args b total cost b' Hb Ha H;
    [by injection H as _ <-|]. destruct args as [|a args]; [by injection H as _ <-|]. cbn [paramsCost] in H.
  apply Forall_cons in Ha as [Ha Has]. destruct (argCost pr p a b) as [[c b1]|] eqn:E; [|done].
  destruct (_ && _); [done|]. eapply IH; [|exact Has|exact H]. eapply argCost_ok; [exact Hb|exact Ha|exact E].
Qed.

(** What a signature costs for these arguments, if it takes them. *)
Definition fits s (args : list Ty) (exactFirst : bool) : option (Z * bindings) :=
  if Nat.eqb (length (Params s)) (length args) then shapeCostExactFirst s args exactFirst else None.

(** [best] is the first of the cheapest among the signatures before position [n]. *)
Definition cheapest shapes args ef (n : nat) (best : option (Z * (Shape Fun * bindings))) : Prop :=
  match best with
  | None => ∀ j s, (j < n)%nat → shapes !! j = Some s → fits s args ef = None
  | Some (cost, (s, b)) =>
      ∃ i, (i < n)%nat ∧ shapes !! i = Some s ∧ fits s args ef = Some (cost, b) ∧
        ∀ j s' c' b', (j < n)%nat → shapes !! j = Some s' → fits s' args ef = Some (c', b') →
          (cost ≤ c')%Z ∧ ((j < i)%nat → (cost < c')%Z)
  end.

Lemma cheapest_step shapes args ef n best s :
  shapes !! n = Some s → cheapest shapes args ef n best →
  cheapest shapes args ef (S n)
    match fits s args ef with
    | None => best
    | Some (cost, b) =>
        match best with
        | Some (c, _) => if (cost <? c)%Z then Some (cost, (s, b)) else best
        | None => Some (cost, (s, b))
        end
    end.
Proof.
  intros Hn Hbest.
  assert (Hlt : ∀ j (x : Shape Fun), (j < S n)%nat → shapes !! j = Some x → (j < n)%nat ∨ (j = n ∧ x = s)).
  { intros j x Hj Hx. destruct (decide (j = n)) as [->|]; [right; split; congruence|left; lia]. }
  destruct (fits s args ef) as [[cost b]|] eqn:Hf.
  - destruct best as [[c [s0 b0]]|].
    + destruct Hbest as (i & Hi & Hs0 & Hf0 & Hmin). destruct (Z.ltb_spec cost c).
      * exists n. split_and!; [lia|done|done|]. intros j s' c' b' Hj Hs' Hf'.
        destruct (Hlt _ _ Hj Hs') as [Hj'|[-> ->]]; [destruct (Hmin _ _ _ _ Hj' Hs' Hf'); lia|].
        rewrite Hf in Hf'. injection Hf' as <- <-. lia.
      * exists i. split_and!; [lia|done|done|]. intros j s' c' b' Hj Hs' Hf'.
        destruct (Hlt _ _ Hj Hs') as [Hj'|[-> ->]]; [by eapply Hmin|].
        rewrite Hf in Hf'. injection Hf' as <- <-. lia.
    + exists n. split_and!; [lia|done|done|]. intros j s' c' b' Hj Hs' Hf'.
      destruct (Hlt _ _ Hj Hs') as [Hj'|[-> ->]]; [by rewrite (Hbest _ _ Hj' Hs') in Hf'|].
      rewrite Hf in Hf'. injection Hf' as <- <-. lia.
  - destruct best as [[c [s0 b0]]|].
    + destruct Hbest as (i & Hi & Hs0 & Hf0 & Hmin). exists i. split_and!; [lia|done|done|].
      intros j s' c' b' Hj Hs' Hf'. destruct (Hlt _ _ Hj Hs') as [Hj'|[-> ->]]; [by eapply Hmin|congruence].
    + intros j x Hj Hx. destruct (Hlt _ _ Hj Hx) as [Hj'|[-> ->]]; [by eapply Hbest|done].
Qed.

Lemma bestShape_cheapest shapes args ef : ∀ rest n best,
  drop n shapes = rest → cheapest shapes args ef n best →
  cheapest shapes args ef (n + length rest) (bestShape rest args ef best).
Proof.
  induction rest as [|s rest IH]; intros n best Hd Hbest; cbn [bestShape length]; [by rewrite Nat.add_0_r|].
  assert (Hn : shapes !! n = Some s) by (rewrite <-(Nat.add_0_r n), <-lookup_drop, Hd; done).
  rewrite Nat.add_succ_r, <-Nat.add_succ_l. apply IH.
  - change rest with (drop 1 (s :: rest)). rewrite <-Hd, drop_drop. f_equal. lia.
  - pose proof (cheapest_step _ _ _ _ _ _ Hn Hbest) as Hs. unfold fits in Hs.
    by destruct (Nat.eqb _ _).
Qed.

Lemma matchShapes_cheapest shapes args ef :
  ∃ best, matchShapesExactFirst shapes args ef = snd <$> best ∧ cheapest shapes args ef (length shapes) best.
Proof.
  exists (bestShape shapes args ef None). split; [done|]. apply (bestShape_cheapest shapes args ef shapes 0 None); [done|].
  intros j s Hj. lia.
Qed.

Lemma match_ok shapes args ef s b :
  Forall canonical args → matchShapesExactFirst shapes args ef = Some (s, b) →
  s ∈ shapes ∧ length (Params s) = length args ∧ bindingsOk b ∧ ∃ cost, shapeCostExactFirst s args ef = Some (cost, b).
Proof.
  intros Ha H. destruct (matchShapes_cheapest shapes args ef) as (best & Heq & Hbest). rewrite Heq in H.
  destruct best as [[cost [s0 b0]]|]; [|done]. injection H as -> ->.
  destruct Hbest as (i & _ & Hs & Hf & _). unfold fits in Hf.
  destruct (Nat.eqb_spec (length (Params s)) (length args)) as [Hl|]; [|done]. split_and!; [|done| |by eauto].
  - by eapply list_elem_of_lookup_2.
  - eapply paramsCost_ok; [apply noBindings_ok|exact Ha|exact Hf].
Qed.

End Choice.
