(* ===== verification/ExprQuiet.v ===== *)
(** * Operators and functions answer within their types

    A logic for the metered computations of src/internal/openjd/expr, and the
    soundness of the operator tables of ops.go.

    [quiet c Q]: the computation leaves the memory count and the limits of the
    meter alone, does not panic, and answers with a value in [Q].  A signature is
    [sound] when, on arguments of its parameter types, its function is quiet and
    returns a well-formed value of the declared return type.  The call of a sound
    signature is quiet whatever the arguments it was chosen for. *)

From S2P Require Import Prelude StatusText GoText IntRange RangeExpr ExprType ExprFloat ExprValue ExprRange ExprCoerce ExprNarrow ExprPath ExprArith ExprShape ExprOps.
Open Scope Z_scope.

(** ** Quiet computations *)

Definition framed (m m' : Meter) : Prop :=
  mem m' = mem m ∧ memLimit m' = memLimit m ∧ opLimit m' = opLimit m.

Lemma framed_refl m : framed m m.
Proof. done. Qed.

Lemma framed_trans m1 m2 m3 : framed m1 m2 → framed m2 m3 → framed m1 m3.
Proof. unfold framed. naive_solver congruence. Qed.

Definition quiet {A} (c : M A) (Q : A → Prop) : Prop := ∀ m,
  framed m (c m).1 ∧ match (c m).2 with Ok a => Q a | Err e => harmless (what e) end.

Lemma quiet_ret {A} (a : A) (Q : A → Prop) : Q a → quiet (ret a) Q.
Proof. intros H m. done. Qed.

Lemma quiet_raise {A} e (Q : A → Prop) : harmless e → quiet (raise e) Q.
Proof. intros H m. done. Qed.

Lemma quiet_bind {A B} (c : M A) (k : A → M B) P Q :
  quiet c P → (∀ a, P a → quiet (k a) Q) → quiet (bind c k) Q.
Proof.
  intros Hc Hk m. unfold bind. destruct (Hc m) as [Hf Hr]. destruct (c m) as [m' [a|e]]; cbn in *; [|done].
  destruct (Hk a Hr m') as [Hf' Hr']. split; [by eapply framed_trans|done].
Qed.

Lemma quiet_weaken {A} (c : M A) (P Q : A → Prop) : quiet c P → (∀ a, P a → Q a) → quiet c Q.
Proof. intros Hc H m. destruct (Hc m) as [Hf Hr]. split; [done|]. destruct (c m).2; auto. Qed.

Lemma quiet_lift {A} (r : res EErr A) Q : good r Q → quiet (lift r) Q.
Proof. intros H m. unfold lift. by destruct r. Qed.

(** ** The meter *)

Lemma quiet_deadlinePassed limit : quiet (deadlinePassed limit) (λ _, True).
Proof. intros m. unfold deadlinePassed. cbn [fst snd]. split; [done|]. by destruct (_ <? _). Qed.

Lemma quiet_charge n : quiet (charge n) (λ _, True).
Proof.
  intros m. unfold charge. cbn [opLimit set_ops deadline].
  destruct (_ <? _); [done|]. destruct (deadline m) as [limit|]; [|done].
  unfold checkDeadline. cbn. destruct (_ && _); [done|].
  split; [done|]. cbn [snd deadlinePassed]. by destruct (_ <? _).
Qed.

Lemma quiet_reserve n : quiet (reserve n) (λ _, True).
Proof.
  intros m. unfold reserve. destruct (_ && _); [done|]. destruct (deadline m); [|done].
  apply quiet_deadlinePassed.
Qed.

Lemma quiet_chargeBytes s : quiet (chargeBytes s) (λ _, True).
Proof. apply quiet_charge. Qed.

Lemma quiet_reserveBytes n : quiet (reserveBytes n) (λ _, True).
Proof. unfold reserveBytes. case_match; [by apply quiet_ret|apply quiet_reserve]. Qed.

(** ** Ranges *)

Lemma checkStringBytes_good n : good (checkStringBytes n) (λ _, True).
Proof. unfold checkStringBytes. by case_match. Qed.

Lemma checkRepeat_good u n l : good (checkRepeat u n l) (λ _, True).
Proof. unfold checkRepeat. by repeat case_match. Qed.

Lemma rangeExprCount_good s : good (rangeExprCount (VRange s)) (λ _, True).
Proof.
  unfold rangeExprCount. eapply good_bind; [apply parsedRanges_good|]. intros rs _.
  destruct rs as [|r [|r' rs]]; [|done|]; (eapply good_bind; [apply sumCounts_good|done]).
Qed.

Lemma countBounds_good low high rs : good (countBounds low high rs) (λ _, True).
Proof.
  revert low high. induction rs as [|r rs IH]; intros low high; cbn [countBounds]; [done|].
  eapply good_bind; [apply checkElementCount_good|]. intros _ _. apply IH.
Qed.

Lemma rangeExprCountBounds_good s : good (rangeExprCountBounds (VRange s)) (λ _, True).
Proof.
  unfold rangeExprCountBounds. eapply good_bind; [apply parsedRanges_good|]. intros rs _.
  destruct rs as [|r [|r' rs]]; [|done|]; apply countBounds_good.
Qed.

Lemma quiet_reserveRangeExprExpansion s : quiet (reserveRangeExprExpansion (VRange s)) (λ _, True).
Proof.
  unfold reserveRangeExprExpansion. eapply quiet_bind; [apply quiet_lift, rangeExprCountBounds_good|].
  intros [low high] _ m. destruct (quiet_reserve high m) as [Hf Hr].
  destruct (reserve high m) as [m' [[]|e]]; cbn [fst snd] in *; [done|].
  assert (Hq : quiet (let* _ := reserve low in let* n := lift (rangeExprCount (VRange s)) in reserve n) (λ _, True)).
  { eapply quiet_bind; [apply quiet_reserve|]. intros _ _.
    eapply quiet_bind; [apply quiet_lift, rangeExprCount_good|]. intros n _. apply quiet_reserve. }
  destruct (Hq m') as [Hf' Hr']. destruct (what e) eqn:Hw;
    first [split; [exact Hf|cbn [fst snd]; rewrite Hw in *; done]|split; [by eapply framed_trans|exact Hr']].
Qed.

(** ** The type of a converted value *)

(** A value of type [t] may stand for one of the target: its type satisfies the
    target, or it is the list type of one of the target's list members. *)
Definition admits (target t : Ty) : Prop :=
  satisfies t target = true ∨ ∃ elem, elem ∈ listDestinations target ∧ t = TList elem.

Lemma includes_plain target d t :
  resolved target → includes target d = true → plainType d = Some t → satisfies t target = true.
Proof.
  induction target as [u Hu|e IH|ms IH|c IH] using Ty_induct; intros Hr Hi Hp; [| | |done].
  - destruct u; try discriminate Hu; try done; cbn [includes] in Hi; unfold is_code in Hi;
      apply bool_decide_eq_true in Hi; cbn [code] in Hi; subst d; cbn in Hp; by simplify_eq.
  - cbn [includes] in Hi. unfold is_code in Hi. apply bool_decide_eq_true in Hi. by subst d.
  - cbn [includes satisfies] in *. apply existsb_exists in Hi as (m & Hm & Hi).
    apply existsb_exists. exists m. split; [done|].
    apply resolved_union in Hr as (_ & _ & _ & Hr). apply list_elem_of_In in Hm.
    rewrite Forall_forall in Hr, IH. auto.
Qed.

Lemma listDestinations_satisfies target elem t :
  elem ∈ listDestinations target → satisfies t elem = true → satisfies (TList t) target = true.
Proof.
  induction target as [u Hu|e IH|ms IH|c IH] using Ty_induct; intros He Hs.
  - destruct u; try discriminate Hu; by apply not_elem_of_nil in He.
  - cbn in He. apply list_elem_of_singleton in He. by subst.
  - cbn [listDestinations satisfies] in *. apply list_elem_of_In, in_concat in He as (k & Hk & He).
    apply in_map_iff in Hk as (m & <- & Hm). apply existsb_exists. exists m. split; [done|].
    rewrite Forall_forall in IH. apply IH; [by apply list_elem_of_In..|done].
  - cbn in *. auto.
Qed.

(** ** Arguments of a type *)

Definition typed (v : Value) (t : Ty) : Prop := wf v ∧ concrete v ∧ has v t ∧ admits t (typeOf v).

Lemma typed_self v : wf v → concrete v → typed v (typeOf v).
Proof.
  intros Hw Hc. split_and!; [done|done|by apply has_typeOf|].
  destruct v as [| | | | | | |e l|]; try (by left); try done. right. exists e. cbn. split; [by left|done].
Qed.

Lemma coerceAll_elems `{Platform} `{CaseTables} l elem out :
  resolved elem → Forall (λ x, wf x ∧ concrete x) l → coerceAll l elem = Ok out →
  Forall (λ x, concrete x ∧ has x elem ∧ wf x) out.
Proof.
  intros Hr Hl Hc. apply coerceAll_spec in Hc.
  induction Hc as [|x y l l' Hxy _ IH]; [constructor|]. inversion_clear Hl as [|?? [Hw Hcx] Hll].
  constructor; [|auto]. destruct (coerce_delivers x elem y) as (? & ? & ?); auto using resolved_canonical.
Qed.

Section Sound.
Context {arch : Platform} {tables : CaseTables}.

Lemma coerce_typed v target out :
  wf v → concrete v → resolved target → coerce v target = Ok out → typed out target.
Proof.
  intros Hw Hc Hr H. destruct (coerce_delivers v target out) as (Hw' & Hc' & Hh); auto using resolved_canonical.
  split_and!; try done. rewrite coerce_resolved in H by done.
  destruct (satisfies (typeOf v) target) eqn:Hs; [injection H as <-; by left|].
  apply convert_cases in H. destruct v as [| | | | | | |se l|]; try done.
  1: destruct H as [Hi ->]; left; by apply (includes_plain _ CodeNull).
  all: try (destruct H as [(d & Hd & Hi & Hp & _)|(ints & _ & He & ->)];
    [left; by eapply includes_plain
    |left; apply existsb_exists in He as (e & He & Hse);
     eapply listDestinations_satisfies; [by apply list_elem_of_In|exact Hse]]).
  destruct H as (elem & He & H). unfold convertListTo in H. apply res_bind_ok in H as (u & _ & H).
  apply res_bind_ok in H as (l' & _ & H). injection H as <-.
  rewrite ListValue_resolved by (by eapply resolved_destinations). right. by exists elem.
Qed.

Lemma typed_bool v : typed v TBool → ∃ b, v = VBool b.
Proof. intros (_ & _ & H & _). destruct v; try done. eauto. Qed.

Lemma typed_int v : typed v TInt → ∃ i, v = VInt i ∧ in_int i.
Proof. intros (Hw & _ & H & _). destruct v; try done. eauto. Qed.

Lemma typed_float v : typed v TFloat → ∃ f fs, v = VFloat f fs ∧ finite f = true.
Proof. intros (Hw & _ & H & _). destruct v; try done. eauto. Qed.

Lemma typed_string v : typed v TString → ∃ s, v = VString s.
Proof. intros (_ & _ & H & _). destruct v; try done. eauto. Qed.

Lemma typed_path v : typed v TPath → ∃ s pf, v = VPath s pf.
Proof. intros (_ & _ & H & _). destruct v; try done. eauto. Qed.

Lemma typed_range v : typed v TRangeExpr → ∃ s, v = VRange s ∧ is_ok (Parse s) = true.
Proof. intros (Hw & _ & H & _). destruct v; try done. eauto. Qed.

(** The elements of a list argument. *)
Definition elems (e t : Ty) (l : list Value) : Prop :=
  resolved e ∧ (e = t ∨ satisfies e t = true) ∧ Forall (λ x, concrete x ∧ has x e ∧ wf x) l ∧ Forall (λ x, has x t) l.

Lemma typed_list v t : typed v (TList t) → ∃ e l, v = VList e l ∧ elems e t l.
Proof.
  intros (Hw & _ & H & Ha). destruct v as [| | | | | | |e l|]; try done. exists e, l. split; [done|].
  apply wf_list in Hw as [Hr Hl]. split_and!; [done| |done|exact H].
  destruct Ha as [Hs|(elem & He & [= ->])]; [by right|]. cbn in He. apply list_elem_of_singleton in He. by left.
Qed.

Lemma elems_simple e t l : simple t → elems e t l → e = t.
Proof. intros Hs (_ & [->|He] & _); [done|]. by apply satisfies_simple in He. Qed.

(** ** Sound signatures *)

Lemma substitute_resolved t b : resolved t → bindingsOk b → resolved (substitute t b).
Proof.
  intros Ht Hb. induction t as [t Hs|e IH|ms IH|c IH] using Ty_induct.
  - destruct t; try discriminate Hs; try exact I; cbn [substitute];
      (match goal with |- context [get b ?c] => destruct (get b c) as [u|] eqn:Hg end; [|exact I]); eapply Hb; exact Hg.
  - cbn [substitute]. rewrite ListOf_resolved by apply IH, Ht. apply IH, Ht.
  - pose proof Ht as (_ & _ & _ & Hr)%resolved_union. destruct ms as [|m ms]; [exact Ht|].
    cbn [substitute]. apply UnionOf_resolved, Forall_fmap. rewrite Forall_forall in IH, Hr |- *.
    intros x Hx. apply (IH x Hx), Hr, Hx.
  - done.
Qed.

(** What a function of a signature owes on arguments of its parameter types. *)
Definition returns (s : FnShape) (b : bindings) (out : Value) : Prop :=
  wf out ∧ concrete out ∧ (RetOf s = None → has out (substitute (Ret s) b)).

Record sound (s : FnShape) : Prop := {
  sound_params : Forall resolved (Params s);
  sound_ret : resolved (Ret s);
  sound_retOf : ∀ f b, RetOf s = Some f → bindingsOk b → canonical (f b);
  sound_fn : ∀ ec b args, bindingsOk b →
    Forall2 (λ p v, typed v (substitute p b)) (Params s) args → quiet (Fn s ec args) (returns s b);
}.

(** A plain value of a type that has no list in it. *)
Definition answers (out : Value) (t : Ty) : Prop := wf out ∧ concrete out ∧ has out t.

Lemma answers_float v : wf v ∧ typeOf v = TFloat → answers v TFloat.
Proof. intros [Hw Ht]. destruct v; try done. Qed.

Lemma exactly_good z : good (exactly z) in_int.
Proof. unfold exactly. by case_decide. Qed.

Lemma floatValue_answers f : good (floatValue f) (λ v, answers v TFloat).
Proof. eapply good_weaken; [apply floatValue_good|apply answers_float]. Qed.

Lemma intBinary_good f l r :
  (∀ a b, in_int a → in_int b → good (f a b) in_int) → typed l TInt → typed r TInt →
  good (intBinary f l r) (λ v, answers v TInt).
Proof.
  intros Hf (a & -> & Ha)%typed_int (b & -> & Hb)%typed_int. unfold intBinary. cbn [AsInt res_bind].
  eapply good_bind; [by apply Hf|]. done.
Qed.

Lemma floatBinary_good f l r : typed l TFloat → typed r TFloat → good (floatBinary f l r) (λ v, answers v TFloat).
Proof.
  intros (a & ? & -> & _)%typed_float (b & ? & -> & _)%typed_float. apply floatValue_answers.
Qed.

Lemma addInt_good a b : in_int a → in_int b → good (addInt a b) in_int.
Proof. intros. rewrite addInt_exact by done. apply exactly_good. Qed.

Lemma subInt_good a b : in_int a → in_int b → good (subInt a b) in_int.
Proof. intros. rewrite subInt_exact by done. apply exactly_good. Qed.

Lemma mulInt_good a b : in_int a → in_int b → good (mulInt a b) in_int.
Proof. intros. rewrite mulInt_exact by done. apply exactly_good. Qed.

Lemma floorDivInt_good a b : in_int a → in_int b → good (floorDivInt a b) in_int.
Proof. intros. rewrite floorDivInt_exact by done. case_match; [done|]. apply exactly_good. Qed.

Lemma modInt_good a b : in_int a → in_int b → good (modInt a b) in_int.
Proof.
  intros Ha Hb. rewrite modInt_exact by done. destruct (Z.eqb_spec b 0); [done|]. cbn.
  destruct (Z_le_gt_dec 0 b).
  - pose proof (Z.mod_pos_bound a b ltac:(lia)). zint.
  - pose proof (Z.mod_neg_bound a b ltac:(lia)). zint.
Qed.

Lemma powIntPositive_good a b : in_int a → in_int b → 0 ≤ b → good (powIntPositive a b) in_int.
Proof. intros. rewrite powIntPositive_exact by done. apply exactly_good. Qed.

Lemma boundedPath_good t f : good (boundedPath t f) (λ v, answers v TPath).
Proof. unfold boundedPath. eapply good_bind; [apply checkStringBytes_good|]. done. Qed.

Lemma compareValues_good a b : good (compareValues a b) (λ _, True).
Proof.
  revert b. induction a as [a Ha|e l IH] using Value_induct; intros b; [by destruct a, b|].
  destruct b as [| | | | | | |e' r|]; try done. cbn [compareValues]. revert r.
  induction IH as [|x l Hx _ IHl]; intros r; [done|]. destruct r as [|y r]; [done|].
  eapply good_bind; [apply Hx|]. intros c _. destruct (negb _); [done|]. apply IHl.
Qed.

Lemma ordering_good op compare l r :
  match op with OpLt | OpGt | OpLe | OpGe => True | _ => False end →
  good (compare l r) (λ _, True) → good (ordering op compare l r) (λ v, answers v TBool).
Proof. intros Hop Hc. unfold ordering. eapply good_bind; [exact Hc|]. intros c _. by destruct op. Qed.

Lemma coerceAll_answers l elem :
  resolved elem → Forall (λ x, wf x ∧ concrete x) l →
  good (coerceAll l elem) (Forall (λ x, concrete x ∧ has x elem ∧ wf x)).
Proof.
  intros Hr Hl. apply good_and; [intros out; by apply coerceAll_elems|].
  intros e He. pose proof (coerceAll_good l elem) as Hg. rewrite He in Hg. apply Hg.
  apply Forall_true. intros x. apply coerce_good.
Qed.

Lemma list_answers e l : resolved e → Forall (λ x, concrete x ∧ has x e ∧ wf x) l → answers (ListValue e l) (TList e).
Proof.
  intros Hr Hl. rewrite ListValue_resolved by done. split_and!; [by apply wf_list|done|].
  cbn. eapply Forall_impl; [exact Hl|]. by intros x (_ & ? & _).
Qed.

Lemma concatLists_good e1 l1 e2 l2 :
  resolved e1 → resolved e2 →
  Forall (λ x, concrete x ∧ has x e1 ∧ wf x) l1 → Forall (λ x, concrete x ∧ has x e2 ∧ wf x) l2 →
  good (concatLists (VList e1 l1) (VList e2 l2))
    (λ v, wf v ∧ concrete v ∧ (e1 = e2 → has v (TList e1))).
Proof.
  intros Hr1 Hr2 Hl1 Hl2. unfold concatLists. cbn [typeOf].
  destruct (unifyElemPair (TList e1) (TList e2)) as [u|] eqn:Hu; [|done]. cbn [AsList res_bind].
  pose proof (unifyElemPair_resolved (TList e1) (TList e2) u Hr1 Hr2 Hu) as Hur.
  assert (Her : resolved (default TNull (listElem u))).
  { destruct (listElem u) as [x|] eqn:Hx; [|done]. by eapply listElem_resolved. }
  eapply good_bind; [apply checkElementCount_good|]. intros _ _.
  eapply good_bind; [apply coerceAll_answers; [exact Her|]|].
  - apply Forall_app. split; eapply Forall_impl; [exact Hl1| |exact Hl2|]; naive_solver.
  - intros out Hout. cbn [good]. destruct (list_answers _ _ Her Hout) as (? & ? & Hh). split_and!; [done..|].
    intros ->. rewrite unifyElemPair_eq, Equal_refl in Hu. by injection Hu as <-.
Qed.

Lemma copies_Forall {A} (P : A → Prop) n l : Forall P l → Forall P (copies n l).
Proof.
  intros H. unfold copies. induction (Z.to_nat n) as [|k IH]; cbn [repeat concat]; [constructor|].
  by apply Forall_app.
Qed.

(** Arguments one by one. *)
Lemma fn1_quiet f ec b p args Q :
  Forall2 (λ p v, typed v (substitute p b)) [p] args →
  (∀ v, typed v (substitute p b) → quiet (f v) Q) → quiet (fn1 f ec args) Q.
Proof. intros H Hf. inversion_clear H as [|? v ? ? Hv H']. inversion_clear H'. by apply Hf. Qed.

Lemma fn2_quiet f ec b p q args Q :
  Forall2 (λ p v, typed v (substitute p b)) [p; q] args →
  (∀ v w, typed v (substitute p b) → typed w (substitute q b) → quiet (f v w) Q) → quiet (fn2 f ec args) Q.
Proof.
  intros H Hf. inversion_clear H as [|? v ? ? Hv H1]. inversion_clear H1 as [|? w ? ? Hw H2].
  inversion_clear H2. by apply Hf.
Qed.

Lemma fn3_quiet f ec b p q r args Q :
  Forall2 (λ p v, typed v (substitute p b)) [p; q; r] args →
  (∀ v w x, typed v (substitute p b) → typed w (substitute q b) → typed x (substitute r b) → quiet (f v w x) Q) →
  quiet (fn3 f ec args) Q.
Proof.
  intros H Hf. inversion_clear H as [|? v ? ? Hv H1]. inversion_clear H1 as [|? w ? ? Hw H2].
  inversion_clear H2 as [|? x ? ? Hx H3]. inversion_clear H3. by apply Hf.
Qed.

Lemma answers_returns (s : FnShape) b v :
  RetOf s = None → answers v (substitute (Ret s) b) → returns s b v.
Proof. intros _ (? & ? & ?). by split_and!. Qed.

(** The signatures without a rule of their own for the return type. *)
Lemma sound_plain params ret pr c fn :
  Forall resolved params → resolved ret →
  (∀ ec b args, bindingsOk b → Forall2 (λ p v, typed v (substitute p b)) params args →
     quiet (fn ec args) (λ v, answers v (substitute ret b))) →
  sound (mkShape params ret None pr c fn).
Proof.
  intros Hp Hr Hf. constructor; [done|done|done|]. intros ec b args Hb Ha.
  eapply quiet_weaken; [by eapply Hf|]. intros v Hv. by apply answers_returns.
Qed.

Lemma sound_unary p ret f :
  resolved p → resolved ret →
  (∀ b v, bindingsOk b → typed v (substitute p b) → good (f v) (λ v, answers v (substitute ret b))) →
  ∀ pr c, sound (mkShape [p] ret None pr c (shapeUnary f)).
Proof.
  intros Hp Hr Hf pr c. apply sound_plain; [by constructor|done|]. intros ec b args Hb Ha.
  eapply fn1_quiet; [exact Ha|]. intros v Hv. apply quiet_lift. by apply Hf.
Qed.

Lemma sound_binary p q ret f :
  resolved p → resolved q → resolved ret →
  (∀ b v w, bindingsOk b → typed v (substitute p b) → typed w (substitute q b) →
     good (f v w) (λ v, answers v (substitute ret b))) →
  ∀ pr c, sound (mkShape [p; q] ret None pr c (shapeBinary f)).
Proof.
  intros Hp Hq Hr Hf pr c. apply sound_plain; [by repeat constructor|done|]. intros ec b args Hb Ha.
  eapply fn2_quiet; [exact Ha|]. intros v w Hv Hw. apply quiet_lift. by apply Hf.
Qed.

Lemma var_resolved c b : bindingsOk b → resolved (default (match c with CodeVarT1 => TVarT1 | _ => TVarT end) (get b c)).
Proof. intros Hb. destruct (get b c) as [t|] eqn:E; [by eapply Hb|]. by destruct c. Qed.

Lemma typed_list_var v b : bindingsOk b → typed v (substitute (TList TVarT) b) →
  ∃ e l, v = VList e l ∧ elems e (substitute TVarT b) l.
Proof.
  intros Hb H. cbn [substitute] in H. rewrite ListOf_resolved in H by apply (var_resolved CodeVarT b Hb).
  by apply typed_list.
Qed.

Lemma typed_list_var1 v b : bindingsOk b → typed v (substitute (TList TVarT1) b) →
  ∃ e l, v = VList e l ∧ elems e (substitute TVarT1 b) l.
Proof.
  intros Hb H. cbn [substitute] in H. rewrite ListOf_resolved in H by apply (var_resolved CodeVarT1 b Hb).
  by apply typed_list.
Qed.

Lemma answers_list_var e l b :
  bindingsOk b → elems e (substitute TVarT b) l → ∀ k, Forall (λ x, x ∈ l) k →
  answers (ListValue e k) (substitute (TList TVarT) b).
Proof.
  intros Hb (Hr & _ & Hl & Ht) k Hk. cbn [substitute]. rewrite ListOf_resolved by apply (var_resolved CodeVarT b Hb).
  rewrite ListValue_resolved by done. rewrite Forall_forall in Hl, Ht. split_and!; [|done|].
  - apply wf_list. split; [done|]. eapply Forall_impl; [exact Hk|]. intros x Hx. by apply Hl.
  - cbn [has]. eapply Forall_impl; [exact Hk|]. intros x Hx. by apply Ht.
Qed.

Lemma orderingShapes_sound op :
  match op with OpLt | OpGt | OpLe | OpGe => True | _ => False end → Forall sound (orderingShapes op).
Proof.
  intros Hop. unfold orderingShapes, orderingShape.
  repeat (apply List.Forall_cons || apply List.Forall_nil); apply sound_binary; try exact I;
    intros b v w Hb Hv Hw; apply ordering_good; try exact Hop.
  - by apply typed_int in Hv as (? & -> & _), Hw as (? & -> & _).
  - by apply typed_float in Hv as (? & ? & -> & _), Hw as (? & ? & -> & _).
  - by apply typed_string in Hv as (? & ->), Hw as (? & ->).
  - by apply typed_bool in Hv as (? & ->), Hw as (? & ->).
  - apply typed_list_var in Hv as (? & ? & -> & _); [|done]. apply typed_list_var in Hw as (? & ? & -> & _); [|done].
    apply compareValues_good.
Qed.

Lemma repeatList_quiet b v w :
  bindingsOk b → typed v (substitute (TList TVarT) b) → typed w TInt →
  quiet (repeatList v w) (λ v, answers v (substitute (TList TVarT) b)).
Proof.
  intros Hb (e & l & -> & He)%typed_list_var (n & -> & _)%typed_int; [|done].
  unfold repeatList. cbn [typeOf listElem default AsList].
  eapply quiet_bind; [by apply (quiet_lift _ (λ x, x = l))|]. intros ? ->.
  eapply quiet_bind; [by apply (quiet_lift _ (λ x, x = n))|]. intros ? ->.
  destruct (_ || _); [apply quiet_ret; by eapply answers_list_var|].
  eapply quiet_bind; [apply quiet_lift, checkRepeat_good|]. intros total _.
  eapply quiet_bind; [apply quiet_reserve|]. intros _ _. apply quiet_ret.
  eapply answers_list_var; [done|exact He|]. apply copies_Forall. by apply Forall_forall.
Qed.

Lemma repeatString_quiet v w : typed v TString → typed w TInt → quiet (repeatString v w) (λ v, answers v TString).
Proof.
  intros (s & ->)%typed_string (n & -> & _)%typed_int. unfold repeatString.
  eapply quiet_bind; [by apply (quiet_lift _ (λ x, x = s))|]. intros ? ->.
  eapply quiet_bind; [by apply (quiet_lift _ (λ x, x = n))|]. intros ? ->.
  destruct (_ || _); [by apply quiet_ret|].
  eapply quiet_bind; [apply quiet_lift, checkRepeat_good|]. intros total _.
  eapply quiet_bind; [apply quiet_reserveBytes|]. intros _ _. by apply quiet_ret.
Qed.

Lemma joinPaths_good v w : typed v TPath → typed w TString ∨ typed w TPath → good (joinPaths v w) (λ v, answers v TPath).
Proof.
  intros (s & pf & ->)%typed_path [(t & ->)%typed_string|(t & pf' & ->)%typed_path]; apply boundedPath_good.
Qed.

Lemma containsElem_good l w e k : w = VList e k → good (containsElem l w) (λ v, answers v TBool).
Proof. by intros ->. Qed.

Lemma containsRangeInt_good v w : typed v TInt → typed w TRangeExpr → good (containsRangeInt v w) (λ v, answers v TBool).
Proof.
  intros (i & -> & _)%typed_int (s & -> & _)%typed_range. unfold containsRangeInt.
  eapply good_bind; [apply rangeInts_good|]. done.
Qed.

Lemma negate_good f v w : good (f v w) (λ v, answers v TBool) → good (negate f v w) (λ v, answers v TBool).
Proof. intros H. unfold negate. eapply good_bind; [exact H|]. intros x (_ & _ & Hx). by destruct x. Qed.

Lemma concatRanges_good v w : typed v TRangeExpr → typed w TRangeExpr → good (concatRanges v w) (λ v, answers v (TList TInt)).
Proof.
  intros Hv Hw. unfold concatRanges.
  assert (Hc : ∀ v, typed v TRangeExpr → good (coerce v (ListOf TInt)) (λ v, typed v (TList TInt))).
  { intros x (Hx & Hcx & _). apply good_and; [intros out; by apply coerce_typed|].
    intros e He. pose proof (coerce_good x (ListOf TInt)) as Hg. by rewrite He in Hg. }
  eapply good_bind; [apply Hc, Hv|]. intros l (e1 & l1 & -> & H1)%typed_list.
  eapply good_bind; [apply Hc, Hw|]. intros r (e2 & l2 & -> & H2)%typed_list.
  pose proof (elems_simple _ _ _ (I : simple TInt) H1) as ->. pose proof (elems_simple _ _ _ (I : simple TInt) H2) as ->.
  destruct H1 as (_ & _ & H1 & _), H2 as (_ & _ & H2 & _).
  eapply good_weaken; [by apply concatLists_good|]. intros x (? & ? & ?). split_and!; auto.
Qed.

Lemma concatRet_canonical b : bindingsOk b → canonical (concatRet b).
Proof.
  intros Hb. unfold concatRet. destruct (get b CodeVarT) as [l|] eqn:Hl; [|done].
  pose proof (Hb _ _ Hl) as Hlr. destruct (get b CodeVarT1) as [r|] eqn:Hr;
    [|apply ListOf_canonical; by apply resolved_canonical].
  pose proof (Hb _ _ Hr) as Hrr. rewrite !ListOf_resolved by done.
  destruct (unifyElemPair (TList l) (TList r)) as [u|] eqn:Hu; [|by apply resolved_canonical].
  apply resolved_canonical. eapply unifyElemPair_resolved; [| |exact Hu]; done.
Qed.

Lemma concat_var_sound c :
  sound (mkShape [TList TVarT; TList TVarT1] (TList TVarT) (Some concatRet) promoteDefault c (shapeBinary concatLists)).
Proof.
  constructor; [by repeat constructor|done|intros f b [= <-]; apply concatRet_canonical|].
  intros ec b args Hb Ha. eapply fn2_quiet; [exact Ha|]. intros v w Hv Hw. apply quiet_lift.
  apply typed_list_var in Hv as (e1 & l1 & -> & He1); [|done]. apply typed_list_var1 in Hw as (e2 & l2 & -> & He2); [|done].
  destruct He1 as (Hr1 & _ & H1 & _), He2 as (Hr2 & _ & H2 & _).
  eapply good_weaken; [by apply concatLists_good|]. intros x (? & ? & _). by split_and!.
Qed.

Lemma concat_ints_good v w : typed v (TList TInt) → typed w (TList TInt) → good (concatLists v w) (λ v, answers v (TList TInt)).
Proof.
  intros (e1 & l1 & -> & H1)%typed_list (e2 & l2 & -> & H2)%typed_list.
  pose proof (elems_simple _ _ _ (I : simple TInt) H1) as ->. pose proof (elems_simple _ _ _ (I : simple TInt) H2) as ->.
  destruct H1 as (_ & _ & H1 & _), H2 as (_ & _ & H2 & _).
  eapply good_weaken; [by apply concatLists_good|]. intros x (? & ? & ?). split_and!; auto.
Qed.

Lemma powInts_good v w : typed v TInt → typed w TInt → good (powInts v w) (λ v, answers v (UnionOf [TInt; TFloat])).
Proof.
  intros (a & -> & Ha)%typed_int (n & -> & Hn)%typed_int. unfold powInts. cbn [AsInt res_bind].
  assert (Hin : ∀ t x, t ∈ [TInt; TFloat] → answers x t → answers x (UnionOf [TInt; TFloat])).
  { intros t x Ht (? & ? & Hx). split_and!; [done|done|]. apply has_UnionOf; [by repeat constructor|]. eauto. }
  destruct (Z.ltb_spec n 0).
  - destruct (a =? 0); [done|]. eapply good_weaken; [apply floatValue_answers|]. intros x. apply Hin. set_solver.
  - eapply good_bind; [by apply powIntPositive_good|]. intros z Hz. cbn. apply (Hin TInt); [set_solver|done].
Qed.

Lemma float_ops_good v w : typed v TFloat → typed w TFloat →
  good (divFloats v w) (λ v, answers v TFloat) ∧ good (modFloats v w) (λ v, answers v TFloat) ∧
  good (powFloats v w) (λ v, answers v TFloat) ∧ good (floorDivFloats v w) (λ v, answers v TInt).
Proof.
  intros (a & ? & -> & _)%typed_float (n & ? & -> & _)%typed_float.
  unfold divFloats, modFloats, powFloats, floorDivFloats. cbn [AsFloat res_bind].
  split_and!; repeat (match goal with |- good (if ?c then _ else _) _ => destruct c end; try done);
    try apply floatValue_answers.
  cbn. split_and!; try done. apply int_of_float_int.
Qed.

Lemma divInts_good v w : typed v TInt → typed w TInt → good (divInts v w) (λ v, answers v TFloat).
Proof.
  intros (a & -> & _)%typed_int (n & -> & _)%typed_int. unfold divInts. cbn [AsInt res_bind].
  destruct (n =? 0); [done|]. apply floatValue_answers.
Qed.

Lemma strings_good v w : typed v TString → typed w TString →
  good (concatStrings v w) (λ v, answers v TString) ∧ good (containsString v w) (λ v, answers v TBool) ∧
  good (notContainsString v w) (λ v, answers v TBool).
Proof.
  intros (a & ->)%typed_string (n & ->)%typed_string. split_and!; try done.
  unfold concatStrings. cbn [AsStr res_bind]. eapply good_bind; [apply checkStringBytes_good|]. done.
Qed.

Lemma appendToPath_good v w : typed v TPath → typed w TString → good (appendToPath v w) (λ v, answers v TPath).
Proof. intros (s & pf & ->)%typed_path (t & ->)%typed_string. apply boundedPath_good. Qed.

Ltac table := repeat (apply List.Forall_cons || apply List.Forall_nil).
Ltac binary := apply sound_binary; try exact I; intros b v w Hb Hv Hw.

Lemma binaryShapes_sound op : Forall sound (binaryShapes op).
Proof.
  destruct op; cbn [binaryShapes]; try (by apply orderingShapes_sound); table; unfold plainShape, costShape.
  - binary. by apply intBinary_good; [apply addInt_good|..].
  - binary. by apply floatBinary_good.
  - binary. by apply strings_good.
  - binary. by apply appendToPath_good.
  - binary. by apply concatRanges_good.
  - apply concat_var_sound.
  - binary. by apply concat_ints_good.
  - binary. by apply intBinary_good; [apply subInt_good|..].
  - binary. by apply floatBinary_good.
  - binary. by apply intBinary_good; [apply mulInt_good|..].
  - binary. by apply floatBinary_good.
  - apply sound_plain; [by repeat constructor|done|]. intros ec b args Hb Ha.
    eapply fn2_quiet; [exact Ha|]. intros v w. by apply repeatList_quiet.
  - apply sound_plain; [by repeat constructor|done|]. intros ec b args Hb Ha.
    eapply fn2_quiet; [exact Ha|]. intros v w. by apply repeatString_quiet.
  - binary. by apply divInts_good.
  - binary. by apply float_ops_good.
  - binary. apply joinPaths_good; auto.
  - binary. apply joinPaths_good; auto.
  - binary. by apply intBinary_good; [apply floorDivInt_good|..].
  - binary. by apply float_ops_good.
  - binary. by apply intBinary_good; [apply modInt_good|..].
  - binary. by apply float_ops_good.
  - apply sound_binary; try exact I; [by apply UnionOf_resolved; repeat constructor|].
    intros b v w Hb Hv Hw. by apply powInts_good.
  - binary. by apply float_ops_good.
  - binary. by apply strings_good.
  - binary. apply typed_list_var1 in Hw as (e & l & -> & _); [|done]. by eapply containsElem_good.
  - binary. by apply containsRangeInt_good.
  - binary. by apply strings_good.
  - binary. apply typed_list_var1 in Hw as (e & l & -> & _); [|done]. apply negate_good. by eapply containsElem_good.
  - binary. by apply negate_good, containsRangeInt_good.
Qed.

Lemma unaryShapes_sound op : Forall sound (unaryShapes op).
Proof.
  destruct op; cbn [unaryShapes]; table; unfold plainShape; apply sound_unary; try exact I; intros b v Hb Hv.
  - apply typed_int in Hv as (i & -> & Hi). unfold negIntValue. cbn [AsInt res_bind].
    rewrite negInt_exact by done. by eapply good_bind; [apply exactly_good|].
  - apply typed_float in Hv as (f & ? & -> & _). apply floatValue_answers.
  - destruct Hv as (? & ? & ? & _). by split_and!.
  - destruct Hv as (? & ? & ? & _). by split_and!.
  - by apply typed_bool in Hv as (x & ->).
Qed.

(** ** The call of a sound signature *)

Lemma quiet_elementCountBounded v : quiet (elementCountBounded v) (λ _, True).
Proof.
  unfold elementCountBounded. eapply quiet_bind.
  - destruct v; try (by apply (quiet_ret _ (λ _, True))). apply quiet_reserveRangeExprExpansion.
  - intros _ _. apply quiet_lift. destruct v; try done. apply rangeExprCount_good.
Qed.

Lemma quiet_chargeEach f args l : (∀ v, quiet (f v) (λ _, True)) → quiet (chargeEach f args l) (λ _, True).
Proof.
  intros Hf. induction l as [|i l IH]; cbn [chargeEach]; [by apply quiet_ret|].
  eapply quiet_bind; [|intros _ _; exact IH]. destruct (args !! i); [apply Hf|by apply quiet_ret].
Qed.

Lemma quiet_chargeArgs c args : quiet (chargeArgs c args) (λ _, True).
Proof.
  unfold chargeArgs. eapply quiet_bind; [apply quiet_chargeEach|].
  - intros v. eapply quiet_bind; [apply quiet_elementCountBounded|]. intros n _. apply quiet_charge.
  - intros _ _. apply quiet_chargeEach. intros v. apply quiet_chargeBytes.
Qed.

Lemma quiet_chargeResult c out : quiet (chargeResult c out) (λ _, True).
Proof.
  unfold chargeResult. eapply quiet_bind.
  - destruct (ResultElements c); [|by apply (quiet_ret _ (λ _, True))].
    eapply (quiet_bind _ _ (λ _, True)); [apply quiet_lift; destruct out; try done; apply rangeExprCount_good|].
    intros n _. apply quiet_charge.
  - intros _ _. destruct (ResultBytes c); [apply quiet_chargeBytes|by apply quiet_ret].
Qed.

Lemma quiet_reserveRangeExprCoercion v t : quiet (reserveRangeExprCoercion v t) (λ _, True).
Proof.
  unfold reserveRangeExprCoercion. destruct v; try (by apply quiet_ret).
  destruct (listElem t); [apply quiet_reserveRangeExprExpansion|by apply quiet_ret].
Qed.

Lemma coerce_quiet v t : wf v → concrete v → resolved t → quiet (lift (coerce v t)) (λ out, typed out t).
Proof.
  intros Hw Hc Hr. apply quiet_lift, good_and; [intros out; by apply coerce_typed|].
  intros e He. pose proof (coerce_good v t) as Hg. by rewrite He in Hg.
Qed.

Lemma quiet_convertArgs params b args :
  Forall resolved params → bindingsOk b → length params = length args → Forall (λ v, wf v ∧ concrete v) args →
  quiet (convertArgs params b args) (λ out, Forall2 (λ p v, typed v (substitute p b)) params out).
Proof.
  intros Hp Hb. revert args. induction Hp as [|p params Hp _ IH]; intros args Hl Ha;
    destruct args as [|v args]; try done; cbn [convertArgs]; [by apply quiet_ret|].
  apply Forall_cons in Ha as [[Hw Hc] Ha]. pose proof (substitute_resolved p b Hp Hb) as Hr.
  eapply (quiet_bind _ _ (λ out, typed out (substitute p b))).
  - destruct (Equal (typeOf v) (substitute p b)) eqn:He.
    + apply Equal_spec in He. apply quiet_ret. rewrite <-He. by apply typed_self.
    + eapply quiet_bind; [apply quiet_reserveRangeExprCoercion|]. intros _ _. by apply coerce_quiet.
  - intros x Hx. eapply quiet_bind; [apply IH; [by injection Hl|done]|]. intros rest Hrest.
    apply quiet_ret. by constructor.
Qed.

Lemma callShape_quiet ec s b args :
  sound s → bindingsOk b → length (Params s) = length args → Forall (λ v, wf v ∧ concrete v) args →
  quiet (callShape ec s b args) (returns s b).
Proof.
  intros Hs Hb Hl Ha. unfold callShape. eapply quiet_bind; [apply quiet_charge|]. intros _ _.
  eapply quiet_bind; [apply quiet_convertArgs; [apply Hs|done..]|]. intros out Hout.
  eapply quiet_bind; [apply quiet_chargeArgs|]. intros _ _.
  eapply quiet_bind; [by apply (sound_fn s Hs)|]. intros v Hv.
  eapply quiet_bind; [apply quiet_chargeResult|]. intros _ _. by apply quiet_ret.
Qed.

(** A placeholder for the result of a signature. *)
Lemma unresolvedResult_wf s b : sound s → bindingsOk b → wf (unresolvedResult s b).
Proof.
  intros Hs Hb. unfold unresolvedResult, Unresolved. cbn [wf]. apply canonical_unwrap.
  destruct (RetOf s) as [f|] eqn:Hf; [by eapply sound_retOf|].
  apply resolved_canonical, substitute_resolved; [apply Hs|done].
Qed.

(** What a selected signature answers: a well-formed value, a placeholder only
    when an argument is one. *)
Definition answer (unresolved : bool) (v : Value) : Prop := wf v ∧ (unresolved = false → concrete v).

Lemma typeOf_canonical v : wf v → canonical (typeOf v).
Proof. destruct v; try done. intros [Hr _]%wf_list. done. Qed.

Lemma select_quiet ec shapes args ef fail :
  Forall sound shapes → Forall wf args → harmless fail →
  quiet match matchShapesExactFirst shapes (map typeOf args) ef with
        | None => raise fail
        | Some (s, b) =>
            if existsb IsUnresolved args then let* _ := charge 1 in ret (unresolvedResult s b)
            else callShape ec s b args
        end (answer (existsb IsUnresolved args)).
Proof.
  intros Hs Ha Hf. destruct (matchShapesExactFirst _ _ _) as [[s b]|] eqn:Hm; [|by apply quiet_raise].
  apply match_ok in Hm as (Hin & Hl & Hb & _);
    [|apply Forall_fmap; eapply Forall_impl; [exact Ha|]; apply typeOf_canonical].
  rewrite length_map in Hl. rewrite Forall_forall in Hs. apply Hs in Hin.
  destruct (existsb IsUnresolved args) eqn:Hu.
  - eapply quiet_bind; [apply quiet_charge|]. intros _ _. apply quiet_ret. split; [by apply unresolvedResult_wf|done].
  - eapply quiet_weaken; [apply callShape_quiet; try done|].
    + rewrite Forall_forall in Ha |- *. intros v Hv. split; [by apply Ha|].
      unfold concrete. destruct (IsUnresolved v) eqn:E; [|done]. exfalso.
      assert (existsb IsUnresolved args = true); [|congruence].
      apply existsb_exists. exists v. split; [by apply list_elem_of_In|done].
    + intros v (Hw & Hc & _). by split.
Qed.

Lemma applyEquality_quiet l r neg :
  wf l → wf r → quiet (applyEquality l r neg) (answer (IsUnresolved l || IsUnresolved r)).
Proof.
  intros Hl Hr. unfold applyEquality. destruct (_ || _).
  - eapply quiet_bind; [apply quiet_charge|]. intros _ _. by apply quiet_ret.
  - eapply quiet_bind; [apply quiet_charge|]. intros _ _.
    eapply quiet_bind; [apply quiet_elementCountBounded|]. intros n _.
    eapply quiet_bind; [apply quiet_charge|]. intros _ _.
    eapply (quiet_bind _ _ (λ _, True)); [|intros _ _; by apply quiet_ret].
    unfold reserveEqualityExpansion. destruct r; try (by apply quiet_ret).
    destruct l; try apply quiet_reserveRangeExprExpansion.
    case_bool_decide; [by apply quiet_ret|apply quiet_reserveRangeExprExpansion].
Qed.

Lemma applyBinary_quiet ec op l r :
  wf l → wf r → quiet (applyBinary ec op l r) (answer (IsUnresolved l || IsUnresolved r)).
Proof.
  intros Hl Hr.
  pose proof (select_quiet ec (binaryShapes op) [l; r] false EUnsupported (binaryShapes_sound op)
    ltac:(by repeat constructor) ltac:(done)) as Hq.
  cbn [existsb map] in Hq. rewrite orb_false_r in Hq.
  destruct op; first [exact Hq|by apply applyEquality_quiet].
Qed.

Lemma applyUnary_quiet ec op v : wf v → quiet (applyUnary ec op v) (answer (IsUnresolved v)).
Proof.
  intros Hv.
  pose proof (select_quiet ec (unaryShapes op) [v] false EUnsupported (unaryShapes_sound op)
    ltac:(by repeat constructor) ltac:(done)) as Hq.
  cbn [existsb map] in Hq. rewrite orb_false_r in Hq. exact Hq.
Qed.
End Sound.
