(* ===== verification/ExprLib.v ===== *)
(** * The function library of the expression language

    src/internal/openjd/expr: the tables of functions, one per file of the source:
    conversions (funcsconv.go), numbers (funcsmath.go), lists (funcslist.go),
    letter case, searching, splitting and padding of text (funcsstrcase.go,
    funcsstrfind.go, funcsstrsplit.go, funcsstrpad.go), quoting (funcsreprshell.go,
    funcsreprdata.go), paths (funcspath.go) and path mapping (pathmapping.go). *)

From Stdlib Require Import SpecFloat.
From S2P Require Import Prelude StatusText GoText IntRange RangeExpr ExprType ExprFloat ExprValue ExprRange ExprCoerce ExprPath ExprArith ExprShape ExprOps ExprText.
Open Scope Z_scope.

(** ** Go's stable sort *)

(** [slices.SortStableFunc] with a comparison that has a state.  Sections of the
    slice are lists here. *)
Section Stable.
Context {S A : Type} (cmp : S → A → A → S * Z).

(** [insertionSortCmpFunc]: the sorted part is kept in reverse. *)
Fixpoint insertRev (st : S) (x : A) (sorted : list A) : S * list A :=
  match sorted with
  | [] => (st, [x])
  | y :: ys =>
      let '(st, c) := cmp st x y in
      if c <? 0 then let '(st, l) := insertRev st x ys in (st, y :: l) else (st, x :: y :: ys)
  end.

Fixpoint insertAll (st : S) (sorted l : list A) : S * list A :=
  match l with
  | [] => (st, rev sorted)
  | x :: l' => let '(st, sorted) := insertRev st x sorted in insertAll st sorted l'
  end.

(** The binary searches of [symMergeCmpFunc]: the first index from [i] before [j]
    at which [stop] holds. *)
Fixpoint search (fuel : nat) (st : S) (stop : S → nat → S * bool) (i j : nat) : S * nat :=
  match fuel with
  | O => (st, i)
  | Datatypes.S f =>
      if Nat.ltb i j then
        let h := Nat.div (i + j) 2 in
        let '(st, b) := stop st h in
        if b then search f st stop i h else search f st stop (Datatypes.S h) j
      else (st, i)
  end.

(** Whether [data[i]] is before [data[j]]; both are in range. *)
Definition before (st : S) (x y : option A) : S * bool :=
  match x, y with
  | Some x, Some y => let '(st, c) := cmp st x y in (st, c <? 0)
  | _, _ => (st, false)
  end.

(** [symMergeCmpFunc] of two adjacent sections. *)
Fixpoint symMerge (fuel : nat) (st : S) (l r : list A) : S * list A :=
  match fuel with
  | O => (st, l ++ r)
  | Datatypes.S f =>
      match l, r with
      | [], _ | _, [] => (st, l ++ r)
      | [x], _ =>
          let '(st, i) := search (length r) st (λ st h, let '(st, b) := before st (r !! h) (Some x) in (st, negb b)) 0 (length r) in
          (st, take i r ++ x :: drop i r)
      | _, [y] =>
          let '(st, i) := search (length l) st (λ st h, before st (Some y) (l !! h)) 0 (length l) in
          (st, take i l ++ y :: drop i l)
      | _, _ =>
          let data := l ++ r in
          let m := length l in
          let b := length data in
          let mid := Nat.div b 2 in
          let n := (mid + m)%nat in
          let '(start, r0) := if Nat.ltb mid m then ((n - b)%nat, mid) else (0%nat, m) in
          let '(st, start) := search b st (λ st c, before st (data !! (n - 1 - c)%nat) (data !! c)) start r0 in
          let stop := (n - start)%nat in
          let data := take start l ++ take (stop - m) r ++ drop start l ++ drop (stop - m) r in
          let lo := take mid data in
          let hi := drop mid data in
          let '(st, lo) :=
            if Nat.ltb 0 start && Nat.ltb start mid then symMerge f st (take start lo) (drop start lo) else (st, lo) in
          let '(st, hi) :=
            if Nat.ltb mid stop && Nat.ltb stop b then symMerge f st (take (stop - mid) hi) (drop (stop - mid) hi) else (st, hi) in
          (st, lo ++ hi)
      end
  end.

(** Blocks of twenty elements, each sorted by insertion. *)
Fixpoint sortBlocks (fuel : nat) (st : S) (l : list A) : S * list (list A) :=
  match fuel, l with
  | O, _ | _, [] => (st, [])
  | Datatypes.S f, _ =>
      let '(st, b) := insertAll st [] (take 20 l) in
      let '(st, bs) := sortBlocks f st (drop 20 l) in
      (st, b :: bs)
  end.

Fixpoint mergePairs (st : S) (blocks : list (list A)) : S * list (list A) :=
  match blocks with
  | x :: y :: rest =>
      let '(st, xy) := symMerge (length x + length y) st x y in
      let '(st, bs) := mergePairs st rest in
      (st, xy :: bs)
  | _ => (st, blocks)
  end.

Fixpoint mergeAll (fuel : nat) (st : S) (blocks : list (list A)) : S * list A :=
  match fuel, blocks with
  | O, _ | _, [] | _, [_] => (st, concat blocks)
  | Datatypes.S f, _ => let '(st, bs) := mergePairs st blocks in mergeAll f st bs
  end.

Definition SortStableFunc (st : S) (l : list A) : S * list A :=
  let '(st, blocks) := sortBlocks (length l) st l in
  mergeAll (length blocks) st blocks.
End Stable.

(** ** Numbers *)

Section Library.
Context {arch : Platform} {tables : CaseTables} {text : TextTables}.

(** funcsmath.go [floatToInt] *)
Definition floatToInt (f : float64) : res EErr Z :=
  if IsNaN f || IsInf f || flt f (float_of_int MinInt) || fle (float_of_int (2 ^ 63)) f then Err EIntOverflow
  else Ok (int_of_float f).

(** [math.MaxFloat64 / 10] *)
Definition maxFloatTenth : float64 := float_quotient false ((2 ^ 53 - 1) * 2 ^ 971) 10.

(** The loop of [roundToDigits] that builds the scale; [None] when it would not
    fit.  It ends after at most 310 rounds. *)
Fixpoint floatScale (fuel : nat) (places : Z) (scale : float64) : option float64 :=
  match fuel with
  | O => Some scale
  | S f =>
      if places <=? 0 then Some scale
      else if flt maxFloatTenth scale then None
      else floatScale f (places - 1) (fmul scale (float_of_int 10))
  end.

(** funcsmath.go [roundToDigits] *)
Definition roundToDigits (f : float64) (ndigits : Z) : res EErr Value :=
  if 0 <? ndigits then
    if maxStringBytes <? ndigits then Err ETooLarge
    else
      let scale := Pow (float_of_int 10) (float_of_int ndigits) in
      let scaled := fmul f scale in
      let rounded := if negb (IsInf scale) && negb (IsInf scaled) then fdiv (RoundToEven scaled) scale else f in
      let? out := floatValue rounded in
      let? x := AsFloat out in
      Ok (VFloat x (FormatFixed x ndigits))
  else
    match floatScale 400 (wrap64 (- ndigits)) (float_of_int 1) with
    | None => Ok (VInt 0)
    | Some scale =>
        let? n := floatToInt (fmul (RoundToEven (fdiv f scale)) scale) in
        Ok (VInt n)
    end.

(** funcsmath.go [extremumName] *)
Definition extremumName (wantMin : bool) : str := of_string (if wantMin then "min" else "max").

(** The loops of [extremumInt], [extremumInts] and [extremumFloat]. *)
Fixpoint bestInt (wantMin : bool) (best : Z) (vals : list Value) : res EErr Z :=
  match vals with
  | [] => Ok best
  | v :: vals' =>
      let? n := AsInt v in
      bestInt wantMin (if (wantMin && (n <? best)) || (negb wantMin && (best <? n)) then n else best) vals'
  end.

Fixpoint bestFloat (wantMin : bool) (best : float64) (vals : list Value) : res EErr float64 :=
  match vals with
  | [] => Ok best
  | v :: vals' =>
      let? f := AsFloat v in
      bestFloat wantMin (if (wantMin && flt f best) || (negb wantMin && flt best f) then f else best) vals'
  end.

(** funcsmath.go [extremumInt], [extremumInts], [extremumFloat] *)
Definition extremumInt (vals : list Value) (wantMin : bool) : res EErr Value :=
  match vals with
  | [] => Err (EEmptyList (extremumName wantMin))
  | v :: vals' =>
      let? best := AsInt v in
      let? out := bestInt wantMin best vals' in
      Ok (VInt out)
  end.

Definition extremumInts (ints : list Z) (wantMin : bool) : res EErr Value :=
  match ints with
  | [] => Err (EEmptyList (extremumName wantMin))
  | best :: ints' =>
      Ok (VInt (foldl (λ best n, if (wantMin && (n <? best)) || (negb wantMin && (best <? n)) then n else best) best ints'))
  end.

Definition extremumFloat (vals : list Value) (wantMin : bool) : res EErr Value :=
  match vals with
  | [] => Err (EEmptyList (extremumName wantMin))
  | v :: vals' =>
      let? best := AsFloat v in
      let? out := bestFloat wantMin best vals' in
      floatValue out
  end.

(** The loops of [sumInts], [sumInt64s] and of [sum] over floats. *)
Fixpoint addInts (total : Z) (vals : list Value) : res EErr Z :=
  match vals with
  | [] => Ok total
  | v :: vals' =>
      let? n := AsInt v in
      let? next := addInt total n in
      addInts next vals'
  end.

Fixpoint addFloats (total : float64) (vals : list Value) : res EErr float64 :=
  match vals with
  | [] => Ok total
  | v :: vals' => let? f := AsFloat v in addFloats (fadd total f) vals'
  end.

(** funcsmath.go [sumInts], [sumInt64s] *)
Definition sumInts (vals : list Value) : res EErr Value := let? n := addInts 0 vals in Ok (VInt n).
Definition sumInt64s (ints : list Z) : res EErr Value := sumInts (intValues ints).

(** funcsmath.go [abs] of an integer and of a float *)
Definition absIntValue (v : Value) : res EErr Value :=
  let? n := AsInt v in
  if n =? MinInt then Err EIntOverflow else Ok (VInt (if n <? 0 then - n else n)).
Definition absFloat (v : Value) : res EErr Value := let? f := AsFloat v in floatValue (fabs f).

(** [round], [floor] and [ceil] of a float *)
Definition floatToIntBy (round : float64 → float64) (v : Value) : res EErr Value :=
  let? f := AsFloat v in
  let? n := floatToInt (round f) in
  Ok (VInt n).

Definition roundFloat (v d : Value) : res EErr Value :=
  let? f := AsFloat v in
  let? n := AsInt d in
  roundToDigits f n.

Definition roundInt (v d : Value) : res EErr Value :=
  let? z := AsInt v in
  let? n := AsInt d in
  let? out := roundIntToDigits z n in
  Ok (VInt out).

(** A function of all its arguments. *)
Definition fnAll (f : list Value → res EErr Value) : Function_ := λ _ args, lift (f args).

(** A function of the elements of its argument, and of the integers of a range. *)
Definition ofElems (f : list Value → res EErr Value) : Function_ :=
  shapeUnary (λ v, let? l := AsList v in f l).
Definition ofInts (f : list Z → res EErr Value) : Function_ :=
  shapeUnary (λ v, let? ints := rangeInts v in f ints).

(** The signatures of [min] and [max]. *)
Definition extremumShapes (wantMin : bool) : list FnShape :=
  [ plainShape [TInt; TInt] TInt (fnAll (λ args, extremumInt args wantMin));
    plainShape [TFloat; TFloat] TFloat (fnAll (λ args, extremumFloat args wantMin));
    plainShape [TInt; TInt; TInt] TInt (fnAll (λ args, extremumInt args wantMin));
    plainShape [TFloat; TFloat; TFloat] TFloat (fnAll (λ args, extremumFloat args wantMin));
    costShape [TList TInt] TInt (argElements [0%nat]) (ofElems (λ l, extremumInt l wantMin));
    costShape [TList TFloat] TFloat (argElements [0%nat]) (ofElems (λ l, extremumFloat l wantMin));
    plainShape [TList TNull] TNoReturn (shapeUnary (λ _, Err (EEmptyList (extremumName wantMin))));
    costShape [TRangeExpr] TInt (argElements [0%nat]) (ofInts (λ ints, extremumInts ints wantMin)) ].

(** A table of functions. *)
Abbreviation Group := (list (string * list FnShape)).

(** funcsmath.go [mathFuncs] *)
Definition mathFuncs : Group :=
  [ ("round"%string,
     [ plainShape [TFloat] TInt (shapeUnary (floatToIntBy RoundToEven));
       plainShape [TFloat; TInt] (UnionOf [TInt; TFloat]) (shapeBinary roundFloat);
       plainShape [TInt; TInt] TInt (shapeBinary roundInt) ]);
    ("abs"%string,
     [ plainShape [TInt] TInt (shapeUnary absIntValue);
       plainShape [TFloat] TFloat (shapeUnary absFloat) ]);
    ("floor"%string,
     [ plainShape [TInt] TInt (shapeUnary identity);
       plainShape [TFloat] TInt (shapeUnary (floatToIntBy Floor)) ]);
    ("ceil"%string,
     [ plainShape [TInt] TInt (shapeUnary identity);
       plainShape [TFloat] TInt (shapeUnary (floatToIntBy Ceil)) ]);
    ("min"%string, extremumShapes true);
    ("max"%string, extremumShapes false);
    ("sum"%string,
     [ plainShape [TList TNull] TInt (shapeUnary (λ _, Ok (VInt 0)));
       costShape [TList TInt] TInt (argElements [0%nat]) (ofElems sumInts);
       costShape [TList TFloat] TFloat (argElements [0%nat])
         (ofElems (λ l, let? f := addFloats fzero l in floatValue f));
       costShape [TRangeExpr] TInt (argElements [0%nat]) (ofInts sumInt64s) ]) ].

(** ** Conversions *)

(** funcsconv.go [writeJSONValue]: the builder, checked after every value. *)
Fixpoint writeJSONValue (b : str) (v : Value) {struct v} : res EErr str :=
  let? b :=
    match v with
    | VList _ l =>
        let? b :=
          (fix go (b : str) (first : bool) (l : list Value) {struct l} : res EErr str :=
             match l with
             | [] => Ok b
             | e :: l' =>
                 let? b := writeJSONValue (if first then b else b ++ of_string ", ") e in
                 go b false l'
             end) (b ++ of_string "[") true l in
        Ok (b ++ of_string "]")
    | VString s | VPath s _ | VRange s => Ok (b ++ jsonQuoteElement s)
    | _ => Ok (b ++ ValueString v)
    end in
  let? _ := checkStringBytes (Z.of_nat (length b)) in
  Ok b.

(** funcsconv.go [jsonList] *)
Definition jsonList (v : Value) : res EErr str :=
  let? b := writeJSONValue [] v in
  let? _ := checkStringBytes (Z.of_nat (length b)) in
  Ok b.

(** The integers of a list. *)
Fixpoint intsOf (l : list Value) : res EErr (list Z) :=
  match l with
  | [] => Ok []
  | v :: l' => let? i := AsInt v in let? rest := intsOf l' in Ok (i :: rest)
  end.

(** [slices.Compact] *)
Fixpoint compact (l : list Z) : list Z :=
  match l with
  | a :: l' => match l' with b :: _ => if a =? b then compact l' else a :: compact l' | [] => [a] end
  | [] => []
  end.

(** The conversion of a list of integers by [range_expr]. *)
Definition rangeOfInts (l : list Value) : res EErr Value :=
  match l with
  | [] => Err EEmptyRange
  | _ =>
      let? ints := intsOf l in
      RangeExprValue (canonicalRange (compact (sort_by Z.leb ints)))
  end.

Definition stringOf (v : Value) : res EErr Value :=
  let s := ValueString v in
  let? _ := checkStringBytes (Z.of_nat (length s)) in
  Ok (VString s).

Definition floatOf (v : Value) : res EErr Value :=
  let? x := coerce v TFloat in
  let? f := AsFloat x in
  floatValue f.

Definition lenRange (v : Value) : M Value :=
  let* _ := reserveRangeExprCount v in
  let* n := lift (rangeExprCount v) in
  ret (VInt n).

Definition listOfRange (v : Value) : M Value :=
  let* _ := reserveRangeExprExpansion v in
  let* ints := lift (rangeInts v) in
  ret (ListValue TInt (intValues ints)).

(** [len] of Go, which is an [int]. *)
Definition lenInt {A} (l : list A) : Z := wrap64 (Z.of_nat (length l)).

Definition runeCount (s : str) : Value := VInt (lenInt (runes s)).

(** funcsconv.go [convFuncs] *)
Definition convFuncs : Group :=
  [ ("len"%string,
     [ plainShape [TList TVarT] TInt (ofElems (λ l, Ok (VInt (lenInt l))));
       plainShape [TString] TInt (shapeUnary (λ v, let? s := AsStr v in Ok (runeCount s)));
       plainShape [TPath] TInt (shapeUnary (λ v, let? s := pathText v in Ok (runeCount s)));
       plainShape [TRangeExpr] TInt (fn1 lenRange) ]);
    ("bool"%string,
     [ plainShape [TBool] TBool (shapeUnary identity);
       plainShape [TNull] TBool (shapeUnary (λ _, Ok (VBool false)));
       plainShape [TInt] TBool (shapeUnary (λ v, let? i := AsInt v in Ok (VBool (negb (i =? 0)))));
       plainShape [TFloat] TBool (shapeUnary (λ v, let? f := AsFloat v in Ok (VBool (negb (feq f fzero)))));
       plainShape [TString] TBool (shapeUnary (λ v, let? s := AsStr v in boolFromString s));
       plainShape [TPath] TNoReturn (shapeUnary (λ _, Err EPathToBool));
       plainShape [TList TVarT] TNoReturn (shapeUnary (λ _, Err EListToBool)) ]);
    ("int"%string, [ plainShape [UnionOf [TInt; TFloat; TString]] TInt (shapeUnary (λ v, coerce v TInt)) ]);
    ("float"%string, [ plainShape [UnionOf [TInt; TFloat; TString]] TFloat (shapeUnary floatOf) ]);
    ("string"%string,
     [ plainShape [UnionOf [TBool; TInt; TFloat; TString; TPath; TRangeExpr; TNull]] TString (shapeUnary stringOf);
       costShape [TList TVarT] TString (argElements [0%nat]) (shapeUnary (λ v, let? s := jsonList v in Ok (VString s))) ]);
    ("list"%string, [ costShape [TRangeExpr] (TList TInt) resultElements (fn1 listOfRange) ]);
    ("range_expr"%string,
     [ plainShape [TString] TRangeExpr (shapeUnary (λ v, let? s := AsStr v in RangeExprValue s));
       costShape [TList TInt] TRangeExpr (argElements [0%nat]) (ofElems rangeOfInts) ]);
    ("fail"%string, [ plainShape [TString] TNoReturn (shapeUnary (λ v, let? s := AsStr v in Err (EFail s))) ]) ].

(** ** Lists *)

(** funcslist.go [rangeList] *)
Definition rangeList (start stop step : Z) : M Value :=
  if step =? 0 then raise EZeroRangeStep
  else
    let count := rangeCount start stop step in
    let* _ := lift (checkElementCount count) in
    let* _ := reserve count in
    if count =? 0 then ret (ListValue TNull [])
    else ret (ListValue TInt (intValues (rangeValues (Z.to_nat count) start step))).

Definition range1 (a : Value) : M Value := let* n := lift (AsInt a) in rangeList 0 n 1.
Definition range2 (a b : Value) : M Value :=
  let* x := lift (AsInt a) in
  let* y := lift (AsInt b) in
  rangeList x y 1.
Definition range3 (a b c : Value) : M Value :=
  let* x := lift (AsInt a) in
  let* y := lift (AsInt b) in
  let* z := lift (AsInt c) in
  rangeList x y z.

(** The two loops of [flattenNested]. *)
Fixpoint countNested (total : Z) (outer : list Value) : res EErr Z :=
  match outer with
  | [] => Ok total
  | inner :: outer' =>
      let? l := AsList inner in
      let total := total + Z.of_nat (length l) in
      let? _ := checkElementCount total in
      countNested total outer'
  end.

Fixpoint appendNested (outer : list Value) : res EErr (list Value) :=
  match outer with
  | [] => Ok []
  | inner :: outer' =>
      let? l := AsList inner in
      let? rest := appendNested outer' in
      Ok (l ++ rest)
  end.

(** funcslist.go [flattenNested], [rebuildList] *)
Definition flattenNested (v : Value) : res EErr Value :=
  let? outer := AsList v in
  let? total := countNested 0 outer in
  let elem := default TNull (listElem (typeOf v) ≫= listElem) in
  if total =? 0 then Ok (ListValue elem [])
  else let? vals := appendNested outer in Ok (ListValue elem vals).

Definition rebuildList (src : Value) (vals : list Value) : Value :=
  ListValue (default TNull (listElem (typeOf src))) vals.

(** The comparison of [sortedList]: after an error everything is equal. *)
Definition compareUntil (st : option EErr) (a b : Value) : option EErr * Z :=
  match st with
  | Some _ => (st, 0)
  | None => match compareValues a b with Ok c => (None, c) | Err e => (Some e, 0) end
  end.

(** funcslist.go [sortedList] *)
Definition sortedList (v : Value) : res EErr Value :=
  let? l := AsList v in
  match SortStableFunc compareUntil None l with
  | (Some e, _) => Err e
  | (None, out) => Ok (rebuildList v out)
  end.

Definition reversedList (v : Value) : res EErr Value :=
  let? l := AsList v in
  Ok (rebuildList v (rev l)).

(** The loops of [uniqueList]: whether [v] is kept already, and the whole. *)
Fixpoint isKept (v : Value) (kept : list Value) : M bool :=
  match kept with
  | [] => ret false
  | k :: kept' =>
      let* _ := charge 1 in
      if valuesEqual k v then ret true else isKept v kept'
  end.

Fixpoint uniqueLoop (out l : list Value) : M (list Value) :=
  match l with
  | [] => ret out
  | v :: l' =>
      let* dup := isKept v out in
      uniqueLoop (if (dup : bool) then out else out ++ [v]) l'
  end.

(** funcslist.go [uniqueList] *)
Definition uniqueList (v : Value) : M Value :=
  let* l := lift (AsList v) in
  let* out := uniqueLoop [] l in
  ret (rebuildList v out).

(** The loops of [any] and [all]: the first element equal to [stop] decides. *)
Fixpoint anyBool (stop : bool) (l : list Value) : res EErr bool :=
  match l with
  | [] => Ok (negb stop)
  | v :: l' => let? b := AsBool v in if Bool.eqb b stop then Ok stop else anyBool stop l'
  end.

Definition anyShapes (stop : bool) : list FnShape :=
  [ plainShape [TList TNull] TBool (shapeUnary (λ _, Ok (VBool (negb stop))));
    costShape [TList TBool] TBool (argElements [0%nat]) (ofElems (λ l, let? b := anyBool stop l in Ok (VBool b))) ].

(** funcslist.go [listFuncs] *)
Definition listFuncs : Group :=
  [ ("range"%string,
     [ costShape [TInt] (TList TInt) resultElements (fn1 range1);
       costShape [TInt; TInt] (TList TInt) resultElements (fn2 range2);
       costShape [TInt; TInt; TInt] (TList TInt) resultElements (fn3 range3) ]);
    ("flatten"%string,
     [ costShape [TList (TList TVarT)] (TList TVarT) (mkCost [0%nat] [] true false) (shapeUnary flattenNested);
       costShape [TList TVarT] (TList TVarT) (argElements [0%nat]) (shapeUnary identity);
       plainShape [TList TNull] (TList TNull) (shapeUnary identity) ]);
    ("sorted"%string, [ costShape [TList TVarT] (TList TVarT) (argElements [0%nat]) (shapeUnary sortedList) ]);
    ("reversed"%string, [ costShape [TList TVarT] (TList TVarT) (argElements [0%nat]) (shapeUnary reversedList) ]);
    ("unique"%string, [ plainShape [TList TVarT] (TList TVarT) (fn1 uniqueList) ]);
    ("any"%string, anyShapes true);
    ("all"%string, anyShapes false) ].

(** ** Text *)

(** Functions of one, two and three texts. *)
Definition onText (f : str → res EErr Value) : Function_ := shapeUnary (λ v, let? s := AsStr v in f s).
Definition onText2 (f : str → str → res EErr Value) : Function_ :=
  shapeBinary (λ v w, let? s := AsStr v in let? t := AsStr w in f s t).
Definition onText3 (f : str → str → str → res EErr Value) : Function_ :=
  fn3 (λ v w x, lift (let? s := AsStr v in let? t := AsStr w in let? u := AsStr x in f s t u)).
Definition onPath (f : str → res EErr Value) : Function_ := shapeUnary (λ v, let? s := pathText v in f s).

Definition textShape (ret : Ty) (f : str → res EErr Value) : FnShape := costShape [TString] ret (argBytes [0%nat]) (onText f).
Definition textShape2 (ret : Ty) (f : str → str → res EErr Value) : FnShape :=
  costShape [TString; TString] ret (argBytes [0%nat]) (onText2 f).

(** funcsstrcase.go [caseShape], [runePredShape] *)
Definition caseShape (f : str → str) : FnShape :=
  textShape TString (λ s, let? _ := checkCaseInputBytes (Z.of_nat (length s)) in boundedString (f s)).

Definition runePredShape (scan : str → (Z → bool) → bool) (pred : Z → bool) : FnShape :=
  textShape TBool (λ s, Ok (VBool (scan s pred))).

(** funcsstrcase.go [strCaseFuncs] *)
Definition strCaseFuncs : Group :=
  [ ("upper"%string, [caseShape upperString]);
    ("lower"%string, [caseShape lowerString]);
    ("capitalize"%string, [caseShape capitalizeString]);
    ("title"%string, [caseShape titleString]);
    ("isdigit"%string, [runePredShape allRunes (between 48 57)]);
    ("isalpha"%string, [runePredShape allRunes IsLetter]);
    ("isalnum"%string, [runePredShape allRunes isAlnumRune]);
    ("isspace"%string, [runePredShape allRunes IsSpace]);
    ("isupper"%string, [runePredShape allCased IsUpper]);
    ("islower"%string, [runePredShape allCased IsLower]);
    ("isascii"%string, [textShape TBool (λ s, Ok (VBool (forallb (λ r, r <=? 127) (runes s))))]) ].

Definition textOk (f : str → str) (s : str) : res EErr Value := Ok (VString (f s)).
Definition textOk2 (f : str → str → str) (s t : str) : res EErr Value := Ok (VString (f s t)).

Definition countText (s sub : str) : res EErr Value :=
  if bool_decide (sub = []) then Err EEmptySubstring else Ok (VInt (wrap64 (Count_ s sub))).

Definition findText (last : bool) (s sub : str) : res EErr Value :=
  let? i := runeIndexOf s sub last in Ok (VInt i).

(** funcsstrfind.go [strFindFuncs] *)
Definition strFindFuncs : Group :=
  [ ("strip"%string, [textShape TString (textOk TrimSpace); textShape2 TString (textOk2 TrimSet)]);
    ("lstrip"%string,
     [textShape TString (textOk (λ s, TrimLeftFunc s IsSpace)); textShape2 TString (textOk2 TrimLeftSet)]);
    ("rstrip"%string,
     [textShape TString (textOk (λ s, TrimRightFunc s IsSpace)); textShape2 TString (textOk2 TrimRightSet)]);
    ("removeprefix"%string, [textShape2 TString (textOk2 TrimPrefix)]);
    ("removesuffix"%string, [textShape2 TString (textOk2 TrimSuffix)]);
    ("startswith"%string, [textShape2 TBool (λ s p, Ok (VBool (has_prefix p s)))]);
    ("endswith"%string, [textShape2 TBool (λ s p, Ok (VBool (hasSuffix p s)))]);
    ("count"%string, [textShape2 TInt countText]);
    ("find"%string, [textShape2 TInt (findText false)]);
    ("rfind"%string, [textShape2 TInt (findText true)]);
    ("index"%string, [textShape2 TInt (λ s sub, foundIndex s sub false)]);
    ("rindex"%string, [textShape2 TInt (λ s sub, foundIndex s sub true)]);
    ("replace"%string, [costShape [TString; TString; TString] TString (argBytes [0%nat]) (onText3 replaceAll)]) ].

Definition splitMax (fromRight : bool) : Function_ :=
  fn3 (λ v w x, lift (let? s := AsStr v in let? sep := AsStr w in let? n := AsInt x in splitSep s sep n fromRight)).

Definition splitShapes (fromRight : bool) : list FnShape :=
  [ textShape (TList TString) (λ s, stringList (Fields s));
    textShape2 (TList TString) (λ s sep, splitSep s sep (-1) fromRight);
    costShape [TString; TString; TInt] (TList TString) (argBytes [0%nat]) (splitMax fromRight) ].

Definition joinWith (text : Value → res EErr str) : Function_ :=
  shapeBinary (λ v w, let? l := AsList v in let? sep := AsStr w in joinValues l sep text).

(** funcsstrsplit.go [strSplitFuncs] *)
Definition strSplitFuncs : Group :=
  [ ("split"%string, splitShapes false);
    ("rsplit"%string, splitShapes true);
    ("join"%string,
     [ plainShape [TList TNull; TString] TString (shapeBinary (λ _ _, Ok (VString [])));
       costShape [TList TString; TString] TString (mkCost [0%nat] [] false true) (joinWith AsStr);
       costShape [TList TPath; TString] TString (mkCost [0%nat] [] false true) (joinWith pathText) ]) ].

Definition padShape (side : padSide) : FnShape :=
  costShape [TString; TInt] TString resultBytes
    (fn2 (λ v w, let* s := lift (AsStr v) in let* n := lift (AsInt w) in padString s n side)).

Definition zfillOf (f : Value → res EErr str) : Function_ :=
  fn2 (λ v w, let* s := lift (f v) in let* n := lift (AsInt w) in zfillString s n).

(** funcsstrpad.go [strPadFuncs] *)
Definition strPadFuncs : Group :=
  [ ("ljust"%string, [padShape padRight]);
    ("rjust"%string, [padShape padLeft]);
    ("center"%string, [padShape padCenter]);
    ("zfill"%string,
     [ costShape [TString; TInt] TString resultBytes (zfillOf AsStr);
       costShape [TInt; TInt] TString resultBytes (zfillOf (λ v, let? i := AsInt v in Ok (Itoa i)));
       costShape [TFloat; TInt] TString resultBytes (zfillOf (λ v, Ok (ValueString v))) ]) ].

(** ** Quoting *)

Definition quoteText (quote : str → str) (s : str) : res EErr Value := boundedString (quote s).

(** The elements of a list quoted and joined by a space. *)
Definition quoteElems (text : Value → res EErr str) (quote : str → str) : Function_ :=
  ofElems (λ l, joinValues l (of_string " ") (λ v, let? s := text v in Ok (quote s))).

Definition pwshList (l : list Value) : res EErr Value :=
  let? body := joinValues l (of_string ", ") (λ v, Ok (pwshElement v)) in
  let? b := AsStr body in
  boundedString (of_string "@(" ++ pwshUnaryComma l ++ b ++ of_string ")").

(** funcsreprshell.go [reprShellFuncs] *)
Definition reprShellFuncs : Group :=
  [ ("repr_sh"%string,
     [ textShape TString (quoteText shellQuote);
       costShape [TPath] TString (argBytes [0%nat]) (onPath (quoteText shellQuote));
       costShape [TList TString] TString (argElements [0%nat]) (quoteElems AsStr shellQuote);
       costShape [TList TPath] TString (argElements [0%nat]) (quoteElems pathText shellQuote) ]);
    ("repr_cmd"%string,
     [ textShape TString (quoteText cmdQuote);
       costShape [TList TString] TString (argElements [0%nat]) (quoteElems AsStr cmdQuote) ]);
    ("repr_pwsh"%string,
     [ textShape TString (quoteText pwshQuote);
       costShape [TPath] TString (argBytes [0%nat]) (onPath (quoteText pwshQuote));
       plainShape [TRangeExpr] TString (shapeUnary (λ v, quoteText pwshQuote (ValueString v)));
       plainShape [TInt] TString (shapeUnary (λ v, Ok (VString (ValueString v))));
       plainShape [TFloat] TString (shapeUnary (λ v, Ok (VString (ValueString v))));
       plainShape [TBool] TString
         (shapeUnary (λ v, let? b := AsBool v in Ok (VString (of_string (if b then "$true" else "$false")))));
       costShape [TList TVarT] TString (argElements [0%nat]) (ofElems pwshList) ]) ].

Definition reprShapes (none : string) (repr : Value → str) : list FnShape :=
  [ plainShape [TNull] TString (shapeUnary (λ _, Ok (VString (of_string none))));
    plainShape [TRangeExpr] TString (shapeUnary (λ v, boundedString (repr (VString (ValueString v)))));
    costShape [TPath] TString (argBytes [0%nat]) (onPath (λ s, boundedString (repr (VString s))));
    costShape [TVarT] TString (mkCost [0%nat] [0%nat] false false) (shapeUnary (λ v, boundedString (repr v))) ].

(** funcsreprdata.go [reprDataFuncs] *)
Definition reprDataFuncs : Group :=
  [ ("repr_py"%string, reprShapes "None" pyRepr);
    ("repr_json"%string, reprShapes "null" jsonRepr) ].

(** ** Paths *)

Definition onParsed (f : parsedPath → res EErr Value) : Function_ := shapeUnary (λ v, let? p := pathOf v in f p).
Definition pathShape (ret : Ty) (f : parsedPath → res EErr Value) : FnShape := costShape [TPath] ret (argBytes [0%nat]) (onParsed f).
Definition onParsedText (f : parsedPath → str → res EErr Value) : Function_ :=
  shapeBinary (λ v w, let? p := pathOf v in let? s := AsStr w in f p s).
Definition withShape (f : parsedPath → str → res EErr Value) : FnShape :=
  costShape [TPath; TString] TPath (argBytes [0%nat]) (onParsedText f).

(** The strings of a list. *)
Fixpoint textsOf (l : list Value) : res EErr (list str) :=
  match l with
  | [] => Ok []
  | v :: l' => let? s := AsStr v in let? ss := textsOf l' in Ok (s :: ss)
  end.

Definition parentPath (p : parsedPath) : res EErr Value :=
  boundedPath (PathString (mkPath (root p) (removelast (comps p)) (flavor p) (isURI p))) (flavor p).

Definition withStem (p : parsedPath) (stem : str) : res EErr Value :=
  let '(_, suffix) := splitStemSuffix (name p) in
  if bool_decide (suffix = []) then withName p stem
  else if bool_decide (stem = []) then Err EEmptyStem
  else withName p (stem ++ suffix).

Definition withSuffix (p : parsedPath) (suffix : str) : res EErr Value :=
  if negb (bool_decide (suffix = []))
     && (negb (has_prefix [dot] suffix) || (length suffix <=? 1)%nat || containsAny suffix (pathSeparators p))
  then Err EInvalidSuffix
  else let '(stem, _) := splitStemSuffix (name p) in withName p (stem ++ suffix).

Definition relativeTo (v w : Value) : res EErr Value :=
  let? p := pathOf v in
  let? other := pathOf w in
  match relativeParts p other byteEqual with
  | None => Err ENotRelative
  | Some remaining => boundedPath (PathString (pathFromParts remaining (flavor p))) (flavor p)
  end.

Definition isRelativeTo (v w : Value) : res EErr Value :=
  let? p := pathOf v in
  let? other := pathOf w in
  Ok (VBool match relativeParts p other byteEqual with Some _ => true | None => false end).

(** funcspath.go [pathFuncs] *)
Definition pathFuncs : Group :=
  [ ("path"%string,
     [ costShape [TString] TPath (argBytes [0%nat]) (λ ec, fn1 (λ v, lift (let? s := AsStr v in boundedPath s (pathFormat ec))) ec);
       costShape [TList TString] TPath resultBytes
         (λ ec, fn1 (λ v, lift (let? l := AsList v in let? parts := textsOf l in
                                boundedPath (PathString (pathFromParts parts (pathFormat ec))) (pathFormat ec))) ec);
       plainShape [TList TNull] TPath (λ ec _, lift (boundedPath [] (pathFormat ec))) ]);
    ("as_posix"%string, [pathShape TString (λ p, Ok (VString (asPosix p)))]);
    ("is_absolute"%string, [plainShape [TPath] TBool (onParsed (λ p, Ok (VBool (isAbsolute p))))]);
    ("__property_name__"%string, [pathShape TString (λ p, Ok (VString (name p)))]);
    ("__property_stem__"%string, [pathShape TString (λ p, Ok (VString (splitStemSuffix (name p)).1))]);
    ("__property_suffix__"%string, [pathShape TString (λ p, Ok (VString (splitStemSuffix (name p)).2))]);
    ("__property_suffixes__"%string, [pathShape (TList TString) (λ p, stringList (pathSuffixes p))]);
    ("__property_parent__"%string, [pathShape TPath parentPath]);
    ("__property_parts__"%string, [pathShape (TList TString) (λ p, stringList (parts p))]);
    ("with_name"%string, [withShape withName]);
    ("with_stem"%string, [withShape withStem]);
    ("with_suffix"%string, [withShape withSuffix]);
    ("with_number"%string,
     [ costShape [TPath; TInt] TPath (argBytes [0%nat])
         (shapeBinary (λ v w, let? p := pathOf v in let? n := AsInt w in let? nm := withNumber (name p) n in withName p nm));
       costShape [TString; TInt] TString (argBytes [0%nat])
         (shapeBinary (λ v w, let? s := AsStr v in let? n := AsInt w in let? out := withNumber s n in Ok (VString out))) ]);
    ("is_relative_to"%string, [costShape [TPath; TPath] TBool (argBytes [0; 1]%nat) (shapeBinary isRelativeTo)]);
    ("relative_to"%string, [costShape [TPath; TPath] TPath (argBytes [0; 1]%nat) (shapeBinary relativeTo)]) ].

(** pathmapping.go [pathMappingFuncs] *)
Definition pathMappingFuncs : Group :=
  [ ("apply_path_mapping"%string,
     [ costShape [TString] TPath (argBytes [0%nat])
         (λ ec, fn1 (λ v, lift (let? s := AsStr v in boundedPath (mapPath s (pathMapping ec) (pathFormat ec)) (pathFormat ec))) ec) ]) ].
End Library.

Abbreviation Group := (list (string * list FnShape)).

(** ** Lookup *)

(** A name looked up in a table: funcs.go [functionShapes]. *)
Definition lookupShapes (groups : Group) (nm : str) : option (list FnShape) :=
  snd <$> find (λ e, bool_decide (nm = of_string e.1)) groups.
