(* ===== verification/ExprEval.v ===== *)
(** * Evaluation of the expression language

    src/internal/openjd/expr: the syntax tree of ast.go, and its evaluation in
    eval.go, list.go, slice.go, comp.go, call.go and resolve.go.

    [evalNode] takes the depth that is left of [maxEvalDepth] as fuel: the source
    guards its own recursion by that depth, and reports an error where the fuel
    ends.  Handlers get the evaluation of a child at their own depth ([rec]) and
    at one level more ([rec1]), as the source passes [depth] or [depth+1].  The
    table of functions is an interface, [FunctionTable], with the law that its
    signatures are sound. *)

From S2P Require Import Prelude StatusText GoText IntRange RangeExpr ExprType ExprFloat ExprValue ExprRange ExprCoerce ExprNarrow ExprPath ExprArith ExprShape ExprOps ExprQuiet.
Open Scope Z_scope.

(** ** Syntax *)

(** ast.go [Node] and its cases *)
Inductive Node :=
  | IntLit (Offset : Z) (Val : Z)
  | FloatLit (Offset : Z) (Val : float64)
  | StringLit (Offset : Z) (Val : str)
  | BoolLit (Offset : Z) (Val : bool)
  | NullLit (Offset : Z)
  | Name (Offset : Z) (Parts : list str)
  | Unary (Offset : Z) (op : Op) (X : Node)
  | Binary (Offset : Z) (op : Op) (L R : Node)
  | Compare (Offset : Z) (Ops : list Op) (Operands : list Node) (OpOffsets : list Z)
  | Logical (Offset : Z) (op : Op) (L R : Node)
  | Cond (Offset : Z) (Then If Else : Node)
  | ListLit (Offset : Z) (Elems : list Node)
  | Index (Offset : Z) (X Idx : Node)
  | Slice (Offset : Z) (X : Node) (Start Stop Step : option Node)
  | ListComp (Offset : Z) (Elem : Node) (Var : str) (VarOffset : Z) (Iter : Node) (Filter : option Node)
  | Access (Offset : Z) (X : Node) (Attr : str)
  | Call (Offset : Z) (Callee : Node) (Args : list Node).

(** ast.go [Pos] *)
Definition Pos (n : Node) : Z :=
  match n with
  | IntLit o _ | FloatLit o _ | StringLit o _ | BoolLit o _ | NullLit o | Name o _ | Unary o _ _
  | Binary o _ _ _ | Compare o _ _ _ | Logical o _ _ _ | Cond o _ _ _ | ListLit o _ | Index o _ _
  | Slice o _ _ _ _ | ListComp o _ _ _ _ _ | Access o _ _ | Call o _ _ => o
  end.

(** ** Symbols *)

(** eval.go [Symbols] *)
Definition Symbols : Type := str → option Value.

(** comp.go [scopedSymbols] *)
Definition scopedSymbols (parent : Symbols) (name : str) (val : Value) : Symbols :=
  λ n, if bool_decide (n = name) then Some val else parent n.

(** The loop of [resolveName], from the longest prefix down; [i] parts are tried. *)
Fixpoint resolvePrefix (syms : Symbols) (parts : list str) (i : nat) : option (Value * str * list str) :=
  match i with
  | O => None
  | S i' =>
      let prefix := join (of_string ".") (take i parts) in
      match syms prefix with
      | Some v => Some (v, prefix, drop i parts)
      | None => resolvePrefix syms parts i'
      end
  end.

(** resolve.go [resolveName] *)
Definition resolveName (syms : Symbols) (parts : list str) : option (Value * str * list str) :=
  resolvePrefix syms parts (length parts).

(** resolve.go [isDunder], [propertyFuncName] *)
Definition isDunder (s : str) : bool :=
  Nat.ltb 4 (length s) && has_prefix (of_string "__") s && hasSuffix (of_string "__") s.

Definition propertyFuncName (attr : str) : str := of_string "__property_" ++ attr ++ of_string "__".

(** ** Types of results *)

(** list.go [listElemTarget] *)
Fixpoint listElemTarget (target : Ty) : Ty :=
  match target with
  | TUnresolved c => listElemTarget c
  | _ => default TAny (listElem target)
  end.

(** list.go [unifyResultPair], [unionResultType] *)
Definition unifyResultPair (a b : Ty) : Ty :=
  match (if is_code CodeUnion a || is_code CodeUnion b then None else unifyElemPair a b) with
  | Some u => u
  | None => UnionOf [a; b]
  end.

Definition unionResultType (fn : Ty → res EErr Ty) (ms : list Ty) : res EErr Ty :=
  match ms with
  | [] => Err ENoMember
  | m :: ms' =>
      let? acc := fn m in
      (fix go (acc : Ty) (ms : list Ty) {struct ms} : res EErr Ty :=
         match ms with
         | [] => Ok acc
         | m :: ms' => let? r := fn m in go (unifyResultPair acc r) ms'
         end) acc ms'
  end.

(** list.go [indexResultType] *)
Fixpoint indexResultType (recv : Ty) : res EErr Ty :=
  match recv with
  | TList e | TUnresolved (TList e) => Ok e
  | TString | TUnresolved TString => Ok TString
  | TRangeExpr | TUnresolved TRangeExpr => Ok TInt
  | TUnion ms | TUnresolved (TUnion ms) => unionResultType indexResultType ms
  | TPath | TUnresolved TPath => Err EPathSubscript
  | _ => Err ENotSubscriptable
  end.

(** slice.go [sliceResultType] *)
Fixpoint sliceResultType (step : option Z) (recv : Ty) : res EErr Ty :=
  match recv with
  | TList e | TUnresolved (TList e) => Ok (TList e)
  | TString | TUnresolved TString => Ok TString
  | TRangeExpr | TUnresolved TRangeExpr =>
      match step with
      | Some k => if k <? 0 then Ok (ListOf TInt) else Ok (UnionOf [TRangeExpr; ListOf TInt])
      | None => Ok (UnionOf [TRangeExpr; ListOf TInt])
      end
  | TUnion ms | TUnresolved (TUnion ms) => unionResultType (sliceResultType step) ms
  | TPath | TUnresolved TPath => Err EPathSlice
  | _ => Err ENotSliceable
  end.

(** comp.go [iterableElem], [unionIterableElem] *)
Definition unionIterableElem (fn : Ty → option Ty) (ms : list Ty) : option Ty :=
  match ms with
  | [] => None
  | m :: ms' =>
      match fn m with
      | None => None
      | Some acc =>
          (fix go (acc : Ty) (ms : list Ty) {struct ms} : option Ty :=
             match ms with
             | [] => Some acc
             | m :: ms' =>
                 match fn m with
                 | None => None
                 | Some elem =>
                     match unifyElemPair acc elem with
                     | None => None
                     | Some u => go u ms'
                     end
                 end
             end) acc ms'
      end
  end.

Fixpoint iterableElem (t : Ty) : option Ty :=
  match t with
  | TList e | TUnresolved (TList e) => Some e
  | TRangeExpr | TUnresolved TRangeExpr => Some TInt
  | TUnion ms | TUnresolved (TUnion ms) => unionIterableElem iterableElem ms
  | _ => None
  end.

(** ** Metered loops *)

Fixpoint releaseAll (vals : list Value) : M unit :=
  match vals with
  | [] => ret tt
  | v :: vals' => let* _ := release v in releaseAll vals'
  end.

(** A computation whose error is handled by its caller. *)
Definition attempt {A} (c : M A) : M (res Failure A) := λ m, let '(m', r) := c m in (m', Ok r).

(** [slice[i]] of Go. *)
Definition nth {A} (l : list A) (i : Z) : res EErr A :=
  if i <? 0 then Err EIndexPanic
  else match l !! Z.to_nat i with Some x => Ok x | None => Err EIndexPanic end.

(** The elements a slice picks. *)
Fixpoint pick {A} (l : list A) (idx : list Z) : res EErr (list A) :=
  match idx with
  | [] => Ok []
  | i :: idx' => let? x := nth l i in let? xs := pick l idx' in Ok (x :: xs)
  end.

(** ** The interface of the function library *)

(** funcs.go [functionShapes] *)
Class FunctionTable `{Platform, CaseTables} := mkFunctions {
  functionShapes : str → option (list FnShape);
  functions_sound : ∀ name l, functionShapes name = Some l → Forall sound l;
}.

(** ** Evaluation *)

(** eval.go [truthy] *)
Definition truthy (v : Value) : bool := match v with VNull => false | VBool b => b | _ => true end.

(** list.go [isIntish] *)
Definition isIntish (v : Value) : bool := is_code CodeInt (unwrapUnresolved (typeOf v)).

Section Eval.
Context {arch : Platform} {tables : CaseTables} {funcs : FunctionTable}.
Context (ec : Ctx).

(** call.go [callFunction] *)
Definition callFunction (name : str) (args : list Value) (methodStyle : bool) : M Value :=
  match functionShapes name with
  | None => raise (EUnknownFunction name)
  | Some shapes =>
      match matchShapesExactFirst shapes (map typeOf args) methodStyle with
      | None => raise (ENoSignature name)
      | Some (s, b) =>
          if existsb IsUnresolved args then let* _ := charge 1 in ret (unresolvedResult s b)
          else callShape ec s b args
      end
  end.

(** resolve.go [evalProperty], [evalProperties] *)
Definition evalProperty (recv : Value) (attr : str) (offset : Z) : M Value :=
  if isDunder attr then errorAt offset (EDunder attr)
  else
    λ m, match callFunction (propertyFuncName attr) [recv] true m with
         | (m', Err e) =>
             match what e with
             | EUnknownFunction _ => errorAt offset (EUnknownProperty attr) m'
             | w => errorAt offset w m'
             end
         | out => out
         end.

Fixpoint evalProperties (v : Value) (attrs : list str) (offset : Z) : M Value :=
  match attrs with
  | [] => ret v
  | attr :: attrs' => let* v := evalProperty v attr offset in evalProperties v attrs' offset
  end.

(** eval.go [evalName] *)
Definition evalName (offset : Z) (parts : list str) (syms : Symbols) : M Value :=
  match resolveName syms parts with
  | None => errorAt offset (EUnknownSymbol (join (of_string ".") parts))
  | Some (v, _, rest) => evalProperties v rest offset
  end.

(** list.go [chargeIndexReceiver], [indexValue] *)
Definition chargeIndexReceiver (recv : Value) : M unit :=
  match recv with
  | VString s => chargeBytes s
  | VRange _ =>
      let* _ := reserveRangeExprExpansion recv in
      let* n := lift (rangeExprCount recv) in
      charge n
  | _ => ret tt
  end.

Definition indexValue (recv : Value) (i : Z) : res EErr Value :=
  match recv with
  | VList _ elems =>
      match normalizeIndex i (Z.of_nat (length elems)) with
      | None => Err EOutOfBounds
      | Some at_ => nth elems at_
      end
  | VString s =>
      match normalizeIndex i (Z.of_nat (length (runes s))) with
      | None => Err EOutOfBounds
      | Some at_ => let? r := nth (runes s) at_ in Ok (VString (EncodeRune r))
      end
  | VRange _ =>
      let? ints := rangeInts recv in
      match normalizeIndex i (Z.of_nat (length ints)) with
      | None => Err EOutOfBounds
      | Some at_ => let? z := nth ints at_ in Ok (VInt z)
      end
  | _ => Err ENotSubscriptable
  end.

(** slice.go [sliceRangeExpr], [sliceValue] *)
Definition sliceRangeExpr (recv : Value) (start stop step : option Z) : M Value :=
  let* _ := reserveRangeExprExpansion recv in
  let* n := lift (rangeExprCount recv) in
  let* _ := charge n in
  let* ints := lift (rangeInts recv) in
  let* picked := lift (pick ints (sliceIndices start stop step (Z.of_nat (length ints)))) in
  if match step with Some k => k <? 0 | None => false end || bool_decide (picked = [])
  then ret (ListValue TInt (intValues picked))
  else lift (RangeExprValue (canonicalRange picked)).

Definition sliceValue (recv : Value) (start stop step : option Z) : M Value :=
  match recv with
  | VList e elems =>
      let idx := sliceIndices start stop step (Z.of_nat (length elems)) in
      let* _ := charge (Z.of_nat (length idx)) in
      let* out := lift (pick elems idx) in
      ret (ListValue e out)
  | VString s =>
      let* _ := chargeBytes s in
      let* out := lift (pick (runes s) (sliceIndices start stop step (Z.of_nat (length (runes s))))) in
      ret (VString (concat (map EncodeRune out)))
  | VRange _ => sliceRangeExpr recv start stop step
  | _ => raise ENotSliceable
  end.

(** comp.go [reserveIterable], [iterItems] *)
Definition reserveIterable (iter : Value) : M unit :=
  match iter with
  | VList _ l => reserve (Z.of_nat (length l))
  | VRange _ => reserveRangeExprExpansion iter
  | _ => ret tt
  end.

Definition iterItems (iter : Value) : res EErr (list Value) :=
  match iter with
  | VList _ l => Ok l
  | VRange _ => let? ints := rangeInts iter in Ok (intValues ints)
  | _ => Err ENotIterable
  end.

Section Handlers.
(** The evaluation of a child at the depth of its parent, and one level deeper. *)
Context (rec rec1 : Node → Symbols → Ty → M Value).

(** eval.go [evalUnary], [evalBinary] *)
Definition evalUnary (offset : Z) (op : Op) (x : Node) (syms : Symbols) : M Value :=
  let* v := rec x syms TAny in
  let* out := wrapAt offset (applyUnary ec op v) in
  let* _ := release v in
  ret out.

Definition evalBinary (offset : Z) (op : Op) (ln rn : Node) (syms : Symbols) : M Value :=
  let* l := rec ln syms TAny in
  let* r := rec rn syms TAny in
  let* out := wrapAt offset (applyBinary ec op l r) in
  let* _ := release l in
  let* _ := release r in
  ret out.

(** [wrapAt] at [n.OpOffsets[i]], which is read when there is an error. *)
Definition wrapOp {A} (offsets : list Z) (i : nat) (c : M A) : M A :=
  λ m, match c m with
       | (m', Err e) =>
           match offsets !! i with
           | Some pos => (m', Err (mkFailure (what e) (Some pos)))
           | None => (m', Err (failed EIndexPanic))
           end
       | out => out
       end.

(** The loop of [evalCompare]. *)
Fixpoint compareLoop (syms : Symbols) (offsets : list Z) (i : nat) (left_ : Value) (ops : list Op) (operands : list Node)
    : M Value :=
  match ops with
  | [] =>
      let* _ := release left_ in
      ret (VBool true)
  | op :: ops' =>
      match operands with
      | [] => raise EIndexPanic
      | n :: operands' =>
          let* right_ := rec n syms TAny in
          let* out := wrapOp offsets i (applyBinary ec op left_ right_) in
          let* _ := release left_ in
          if IsUnresolved out then
            let* _ := release right_ in
            ret (Unresolved TBool)
          else
            match out with
            | VBool true => compareLoop syms offsets (S i) right_ ops' operands'
            | VBool false =>
                let* _ := release right_ in
                ret (VBool false)
            | _ => wrapOp offsets i (raise EComparisonNotBool)
            end
      end
  end.

(** eval.go [evalCompare] *)
Definition evalCompare (ops : list Op) (operands : list Node) (offsets : list Z) (syms : Symbols) : M Value :=
  match operands with
  | [] => raise EIndexPanic
  | n :: operands' =>
      let* left_ := rec n syms TAny in
      compareLoop syms offsets 0 left_ ops operands'
  end.

(** eval.go [evalLogical] *)
Definition evalLogical (op : Op) (ln rn : Node) (syms : Symbols) (target : Ty) : M Value :=
  let* l := rec ln syms target in
  if IsUnresolved l then
    let* right_ := attempt (rec rn syms target) in
    match right_ with
    | Err _ =>
        let* _ := release l in
        ret (Unresolved (typeOf l))
    | Ok r =>
        let* _ := release l in
        let* _ := release r in
        ret (Unresolved (UnionOf [typeOf l; typeOf r]))
    end
  else if (bool_decide (op = OpAnd) && negb (truthy l)) || (bool_decide (op = OpOr) && truthy l) then
    let* _ := release l in
    ret l
  else
    let* r := rec rn syms target in
    let* _ := release l in
    let* _ := release r in
    ret r.

(** eval.go [condResult], [evalCond] *)
Definition condResult (offset : Z) (then_ else_ : Node) (syms : Symbols) (target : Ty) : M Value :=
  let* t := attempt (rec then_ syms target) in
  let* e := attempt (rec else_ syms target) in
  let* _ := match t with Ok v => release v | Err _ => ret tt end in
  let* _ := match e with Ok v => release v | Err _ => ret tt end in
  match t, e with
  | Ok v, Ok w => ret (Unresolved (UnionOf [typeOf v; typeOf w]))
  | Ok v, Err _ => ret (Unresolved (typeOf v))
  | Err _, Ok w => ret (Unresolved (typeOf w))
  | Err _, Err _ => errorAt offset EBothBranchesFail
  end.

Definition evalCond (offset : Z) (then_ if_ else_ : Node) (syms : Symbols) (target : Ty) : M Value :=
  let* cond := rec if_ syms TBool in
  match cond with
  | VUnresolved c =>
      if negb (includes c CodeBool) then errorAt (Pos if_) EConditionNotBool
      else
        let* out := condResult offset then_ else_ syms target in
        let* _ := release cond in
        ret out
  | VBool b =>
      let* _ := release cond in
      let* branch := rec (if b then then_ else else_) syms target in
      let* _ := release branch in
      ret branch
  | _ => errorAt (Pos if_) EConditionNotBool
  end.

(** The first loop of [evalListLit]. *)
Fixpoint evalElems (elems : list Node) (syms : Symbols) (elemTarget : Ty) : M (list Value) :=
  match elems with
  | [] => ret []
  | node :: elems' =>
      let* v := rec node syms elemTarget in
      if IsNull v then errorAt (Pos node) ENullElement
      else
        let* rest := evalElems elems' syms elemTarget in
        ret (v :: rest)
  end.

(** The second loop of [evalListLit]. *)
Fixpoint coerceElems (elems : list Node) (vals : list Value) (elem : Ty) {struct vals} : M (list Value) :=
  match vals with
  | [] => ret []
  | v :: vals' =>
      match elems with
      | [] => raise EIndexPanic
      | node :: elems' =>
          let* _ := wrapAt (Pos node) (reserveRangeExprCoercion v elem) in
          let* coerced := wrapAt (Pos node) (lift (coerce v elem)) in
          let* rest := coerceElems elems' vals' elem in
          ret (coerced :: rest)
      end
  end.

(** The element type of a list: the target's, else what its elements have in
    common. *)
Definition elemTypeOf (elemTarget : Ty) (types : list Ty) : option Ty :=
  if is_code CodeAny elemTarget then unifyElemTypes types else Some elemTarget.

(** list.go [evalListLit] *)
Definition evalListLit (offset : Z) (elems : list Node) (syms : Symbols) (target : Ty) : M Value :=
  let elemTarget := listElemTarget target in
  let* vals := evalElems elems syms elemTarget in
  match elemTypeOf elemTarget (map typeOf vals) with
  | None => errorAt offset EIncompatibleElements
  | Some elem =>
      let* _ := wrapAt offset (lift (checkElementCount (Z.of_nat (length vals)))) in
      if existsb IsUnresolved vals then
        let* _ := releaseAll vals in
        ret (Unresolved (ListOf elem))
      else
        let* out := coerceElems elems vals elem in
        let* _ := releaseAll vals in
        ret (ListValue elem out)
  end.

(** list.go [evalIndex] *)
Definition evalIndex (offset : Z) (x idx : Node) (syms : Symbols) : M Value :=
  let* recv := rec x syms TAny in
  let* i := rec idx syms TInt in
  if negb (isIntish i) then errorAt (Pos idx) EIndexNotInt
  else
    let* elem := wrapAt offset (lift (indexResultType (typeOf recv))) in
    let* _ := charge 1 in
    if IsUnresolved recv || IsUnresolved i then
      let* _ := release recv in
      let* _ := release i in
      ret (Unresolved elem)
    else
      let* _ := chargeIndexReceiver recv in
      let* z := lift (AsInt i) in
      let* out := wrapAt offset (lift (indexValue recv z)) in
      let* _ := release recv in
      let* _ := release i in
      ret out.

(** slice.go [sliceComponent]: the bound, and whether it is known. *)
Definition sliceComponent (n : option Node) (syms : Symbols) : M (option Z * bool) :=
  match n with
  | None => ret (None, true)
  | Some n =>
      let* v := rec n syms TInt in
      if negb (isIntish v) then errorAt (Pos n) ESliceNotInt
      else if IsUnresolved v then
        let* _ := release v in
        ret (None, false)
      else
        let* i := lift (AsInt v) in
        let* _ := release v in
        ret (Some i, true)
  end.

(** slice.go [evalSlice] *)
Definition evalSlice (offset : Z) (x : Node) (startN stopN stepN : option Node) (syms : Symbols) : M Value :=
  let* recv := rec x syms TAny in
  let* (start, startOK) := sliceComponent startN syms in
  let* (stop, stopOK) := sliceComponent stopN syms in
  let* (step, stepOK) := sliceComponent stepN syms in
  let* result := wrapAt offset (lift (sliceResultType step (typeOf recv))) in
  let* _ := charge 1 in
  if IsUnresolved recv || negb startOK || negb stopOK || negb stepOK then
    let* _ := release recv in
    ret (Unresolved result)
  else if bool_decide (step = Some 0) then
    match stepN with Some n => errorAt (Pos n) EZeroSliceStep | None => raise EPanic end
  else
    let* out := wrapAt offset (sliceValue recv start stop step) in
    let* _ := release recv in
    ret out.

(** coerce.go [coerceUnresolved] of any value: the source asks for a placeholder
    and refuses every other value. *)
Definition coerceUnresolvedValue (v : Value) (target : Ty) : res EErr Value :=
  match v with
  | VUnresolved c => coerceUnresolved c target
  | _ =>
      match target with
      | TUnresolved t => if coercibleToTarget (typeOf v) target then Ok (VUnresolved t) else Err ENotCoercible
      | _ => Err ENotCoercible
      end
  end.

(** comp.go [evalCompFilter]: whether the element is kept, [None] when that is not
    known. *)
Definition evalCompFilter (cond : Node) (syms : Symbols) : M (option bool) :=
  let* c := rec1 cond syms TBool in
  match c with
  | VUnresolved t =>
      if negb (includes t CodeBool) then errorAt (Pos cond) EFilterNotBool
      else
        let* _ := release c in
        ret None
  | VBool keep =>
      let* _ := release c in
      ret (Some keep)
  | _ => errorAt (Pos cond) EFilterNotBool
  end.

(** comp.go [checkCompFilter] *)
Definition checkCompFilter (cond : Node) (syms : Symbols) : M unit :=
  let* c := rec1 cond syms TBool in
  if negb (includes (typeOf c) CodeBool) then errorAt (Pos cond) EFilterNotBool else release c.

(** comp.go [unresolvedComp] *)
Definition unresolvedComp (elemN : Node) (var : str) (cond : option Node) (syms : Symbols) (elemTarget elemType : Ty)
    : M Value :=
  let scoped := scopedSymbols syms var (Unresolved elemType) in
  let* _ := match cond with Some c => checkCompFilter c scoped | None => ret tt end in
  let* v := rec1 elemN scoped elemTarget in
  let* elem :=
    if is_code CodeAny elemTarget then ret (unwrapUnresolved (typeOf v))
    else
      let* _ := wrapAt (Pos elemN) (lift (coerceUnresolvedValue v elemTarget)) in
      ret elemTarget in
  let* _ := release v in
  ret (Unresolved (ListOf elem)).

(** comp.go [collectCompElements]: the elements, and whether one is not known. *)
Fixpoint collectCompElements (elemN : Node) (var : str) (cond : option Node) (syms : Symbols) (elemTarget : Ty)
    (items : list Value) : M (list Value * bool) :=
  match items with
  | [] => ret ([], false)
  | item :: items' =>
      let scoped := scopedSymbols syms var item in
      let* keep := match cond with Some c => evalCompFilter c scoped | None => ret (Some true) end in
      match keep with
      | None => ret ([], true)
      | Some false => collectCompElements elemN var cond syms elemTarget items'
      | Some true =>
          let* v := rec1 elemN scoped elemTarget in
          if IsUnresolved v then
            let* _ := release v in
            ret ([], true)
          else
            let* (rest, unresolved) := collectCompElements elemN var cond syms elemTarget items' in
            ret (v :: rest, unresolved)
      end
  end.

(** comp.go [buildCompResult] *)
Definition buildCompResult (offset : Z) (elemN : Node) (elemTarget : Ty) (out : list Value) : M Value :=
  match elemTypeOf elemTarget (map typeOf out) with
  | None => errorAt offset EIncompatibleElements
  | Some elem =>
      let* converted := wrapAt (Pos elemN) (lift (coerceAll out elem)) in
      let* _ := releaseAll out in
      ret (ListValue elem converted)
  end.

(** comp.go [runComp] *)
Definition runComp (offset : Z) (elemN : Node) (var : str) (cond : option Node) (syms : Symbols)
    (elemTarget elemType : Ty) (items : list Value) : M Value :=
  let* _ := charge (Z.of_nat (length items)) in
  let* (out, unresolved) := collectCompElements elemN var cond syms elemTarget items in
  if (unresolved : bool) then
    let* _ := releaseAll out in
    unresolvedComp elemN var cond syms elemTarget elemType
  else buildCompResult offset elemN elemTarget out.

(** comp.go [evalListComp] *)
Definition evalListComp (offset : Z) (elemN : Node) (var : str) (varOffset : Z) (iterN : Node) (cond : option Node)
    (syms : Symbols) (target : Ty) : M Value :=
  let* iter := rec1 iterN syms TAny in
  match iterableElem (typeOf iter) with
  | None => errorAt (Pos iterN) ENotIterable
  | Some elemType =>
      match syms var with
      | Some _ => errorAt varOffset (EShadows var)
      | None =>
          let elemTarget := listElemTarget target in
          if IsUnresolved iter then
            let* out := unresolvedComp elemN var cond syms elemTarget elemType in
            let* _ := release iter in
            ret out
          else
            let* _ := wrapAt (Pos iterN) (reserveIterable iter) in
            let* items := wrapAt (Pos iterN) (lift (iterItems iter)) in
            let* _ := release iter in
            let* _ := wrapAt offset (lift (checkElementCount (Z.of_nat (length items)))) in
            runComp offset elemN var cond syms elemTarget elemType items
      end
  end.

(** eval.go [evalAccess] *)
Definition evalAccess (offset : Z) (x : Node) (attr : str) (syms : Symbols) : M Value :=
  let* recv := rec1 x syms TAny in
  let* out := evalProperty recv attr offset in
  let* _ := release recv in
  ret out.

(** call.go [nameTarget] and [target]: the function and the receiver of a method
    call. *)
Definition nameTarget (offset : Z) (parts : list str) (syms : Symbols) : M (str * option Value) :=
  match resolveName syms parts with
  | None =>
      match parts with
      | [fn] => if isDunder fn then errorAt offset (EDunder fn) else ret (fn, None)
      | _ => errorAt offset (EUnknownSymbol (join (of_string ".") parts))
      end
  | Some (v, _, rest) =>
      match last rest with
      | None => errorAt offset ENotAFunction
      | Some method =>
          let* cur := evalProperties v (take (length rest - 1) rest) offset in
          if isDunder method then errorAt offset (EDunder method) else ret (method, Some cur)
      end
  end.

Definition callTarget (offset : Z) (callee : Node) (syms : Symbols) : M (str * option Value) :=
  match callee with
  | Access o x attr =>
      if isDunder attr then errorAt o (EDunder attr)
      else
        let* v := rec1 x syms TAny in
        ret (attr, Some v)
  | Name o parts => nameTarget o parts syms
  | _ => errorAt offset ENotAFunction
  end.

Fixpoint evalArgs (args : list Node) (syms : Symbols) : M (list Value) :=
  match args with
  | [] => ret []
  | a :: args' =>
      let* v := rec1 a syms TAny in
      let* rest := evalArgs args' syms in
      ret (v :: rest)
  end.

(** call.go [evalCall]; a receiver that was not allocated is not released. *)
Definition evalCall (offset : Z) (callee : Node) (argNodes : list Node) (syms : Symbols) : M Value :=
  let* (name, recv) := callTarget offset callee syms in
  let recvCounted := match callee with Access _ _ _ => true | _ => false end in
  let* vals := evalArgs argNodes syms in
  let args := match recv with Some v => v :: vals | None => vals end in
  let* out := wrapAt offset (callFunction name args (match recv with Some _ => true | None => false end)) in
  let* _ := releaseAll match recv with Some v => if recvCounted then v :: vals else vals | None => vals end in
  ret out.

(** eval.go [evalDispatch], [evalLiteral] *)
Definition evalDispatch (n : Node) (syms : Symbols) (target : Ty) : M Value :=
  match n with
  | IntLit _ i => ret (VInt i)
  | FloatLit _ f => ret (Float f)
  | StringLit _ s => ret (VString s)
  | BoolLit _ b => ret (VBool b)
  | NullLit _ => ret VNull
  | Name o parts => evalName o parts syms
  | Unary o op x => evalUnary o op x syms
  | Binary o op l r => evalBinary o op l r syms
  | Compare _ ops operands offsets => evalCompare ops operands offsets syms
  | Logical _ op l r => evalLogical op l r syms target
  | Cond o t i e => evalCond o t i e syms target
  | ListLit o elems => evalListLit o elems syms target
  | Index o x i => evalIndex o x i syms
  | Slice o x a b c => evalSlice o x a b c syms
  | ListComp o e var vo iter cond => evalListComp o e var vo iter cond syms target
  | Access o x attr => evalAccess o x attr syms
  | Call o callee args => evalCall o callee args syms
  end.
End Handlers.

(** eval.go [evalNode], with the depth that is left as fuel. *)
Fixpoint evalNode (fuel : nat) (n : Node) (syms : Symbols) (target : Ty) : M Value :=
  match fuel with
  | O => errorAt (Pos n) ETooDeep
  | S f =>
      let* v := evalDispatch (evalNode f) (evalNode (Nat.pred f)) n syms target in
      let* _ := alloc v in
      ret v
  end.

(** eval.go [coerceTop] *)
Definition coerceTop (root : Node) (v : Value) (target : Ty) : M Value :=
  let* _ := wrapAt (Pos root) (reserveRangeExprCoercion v target) in
  let* out := wrapAt (Pos root) (lift (coerce v target)) in
  let* _ := release v in
  let* _ := alloc out in
  ret out.
End Eval.

(** ** Options *)

(** eval.go [Option] and its constructors *)
Inductive Option :=
  | WithPathFormat (f : PathFormat)
  | WithPathMapping (rules : list PathMapRule)
  | WithMemoryLimit (bytes : Z)
  | WithOperationLimit (ops : Z)
  | WithDeadline (t : Z)
  | WithClock (now : nat → Z).

(** eval.go [evalCtx], without its source text and symbols. *)
Record evalCtx := mkEvalCtx {
  ecCtx : Ctx;
  ecMemLimit : Z;
  ecOpLimit : Z;
  ecDeadline : option Z;
  ecClock : nat → Z;
  limitErr : bool;
}.

Section Top.
Context {arch : Platform} {tables : CaseTables} {funcs : FunctionTable}.

Definition applyOption (c : evalCtx) (o : Option) : evalCtx :=
  match o with
  | WithPathFormat f =>
      mkEvalCtx (mkCtx (resolve f) (pathMapping (ecCtx c))) (ecMemLimit c) (ecOpLimit c) (ecDeadline c) (ecClock c) (limitErr c)
  | WithPathMapping rules =>
      mkEvalCtx (mkCtx (pathFormat (ecCtx c)) rules) (ecMemLimit c) (ecOpLimit c) (ecDeadline c) (ecClock c) (limitErr c)
  | WithMemoryLimit b =>
      if b <=? 0 then mkEvalCtx (ecCtx c) (ecMemLimit c) (ecOpLimit c) (ecDeadline c) (ecClock c) true
      else mkEvalCtx (ecCtx c) b (ecOpLimit c) (ecDeadline c) (ecClock c) (limitErr c)
  | WithOperationLimit n =>
      if n <=? 0 then mkEvalCtx (ecCtx c) (ecMemLimit c) (ecOpLimit c) (ecDeadline c) (ecClock c) true
      else mkEvalCtx (ecCtx c) (ecMemLimit c) n (ecDeadline c) (ecClock c) (limitErr c)
  | WithDeadline t => mkEvalCtx (ecCtx c) (ecMemLimit c) (ecOpLimit c) (Some t) (ecClock c) (limitErr c)
  | WithClock now => mkEvalCtx (ecCtx c) (ecMemLimit c) (ecOpLimit c) (ecDeadline c) now (limitErr c)
  end.

(** eval.go [newEvalCtx]; [now] is the system clock. *)
Definition newEvalCtx (now : nat → Z) (opts : list Option) : evalCtx :=
  foldl applyOption (mkEvalCtx (mkCtx PathPOSIX []) defaultMemoryLimit defaultOperationLimit None now false) opts.

(** eval.go [Expression.Eval] *)
Definition Expression_Eval (now : nat → Z) (root : Node) (syms : Symbols) (target : Ty) (opts : list Option) : Meter * res Failure Value :=
  let c := newEvalCtx now opts in
  let m := newMeter (ecMemLimit c) (ecOpLimit c) (ecDeadline c) (ecClock c) in
  if limitErr c then (m, Err (failed ELimitOption))
  else
    (let* v := evalNode (ecCtx c) maxEvalDepth root syms target in
     coerceTop root v target) m.
End Top.
