(* ===== verification/ExprLibSound.v ===== *)
(** * The function library is sound

    Every signature of the function tables of ExprLib is sound (ExprQuiet): on
    arguments of its parameter types the function does not panic, leaves the count
    of live bytes alone and returns a well-formed value of its return type.  The
    merged table so implements the interface [FunctionTable] the evaluator is
    proved against, given that the functions on regular expressions do. *)

From S2P Require Import Prelude StatusText GoText IntRange RangeExpr ExprType ExprFloat ExprValue ExprRange ExprCoerce ExprNarrow ExprPath ExprArith ExprShape ExprOps ExprQuiet ExprEval ExprText ExprLib.
Open Scope Z_scope.

(** ** The sort permutes *)

Section Sort.
Context {S A : Type} (cmp : S → A → A → S * Z).

Lemma insertRev_perm st x l : (insertRev cmp st x l).2 ≡ₚ x :: l.
Proof.
  revert st. induction l as [|y l IH]; intros st; cbn [insertRev]; [done|].
  destruct (cmp st x y) as [st' c]. destruct (c <? 0); [|done].
  specialize (IH st'). destruct (insertRev cmp st' x l) as [st'' k]. cbn [snd] in *. rewrite IH. apply Permutation_swap.
Qed.

Lemma insertAll_perm st sorted l : (insertAll cmp st sorted l).2 ≡ₚ sorted ++ l.
Proof.
  revert st sorted. induction l as [|x l IH]; intros st sorted; cbn [insertAll].
  - cbn [snd]. rewrite app_nil_r. symmetry. apply Permutation_rev.
  - pose proof (insertRev_perm st x sorted) as Hp. destruct (insertRev cmp st x sorted) as [st' k]. cbn [snd] in Hp.
    rewrite IH, Hp. cbn. apply Permutation_middle.
Qed.

Lemma symMerge_perm fuel st l r : (symMerge cmp fuel st l r).2 ≡ₚ l ++ r.
Proof.
  revert st l r. induction fuel as [|fuel IH]; intros st l r; [done|].
  assert (Hins : ∀ i x (k : list A), take i k ++ x :: drop i k ≡ₚ x :: k).
  { intros i x k. rewrite <-Permutation_middle. by rewrite take_drop. }
  assert (Hpart : ∀ st i (b : bool) (k : list A),
    (if b then symMerge cmp fuel st (take i k) (drop i k) else (st, k)).2 ≡ₚ k).
  { intros st' i b k. destruct b; [|done]. by rewrite IH, take_drop. }
  destruct l as [|x [|x' l]]; [done| |]; destruct r as [|y [|y' r]]; cbn [symMerge]; try done.
  - destruct (search _ _ _ _ _) as [st' i]. cbn [snd]. by rewrite Hins.
  - destruct (search _ _ _ _ _) as [st' i]. cbn [snd]. by rewrite Hins.
  - destruct (search _ _ _ _ _) as [st' i]. cbn [snd]. rewrite Hins. apply (Permutation_cons_append (x :: x' :: l)).
  - set (L := x :: x' :: l) in *. set (R := y :: y' :: r) in *. destruct (if Nat.ltb _ _ then _ else _) as [s0 r0].
    destruct (search _ _ _ _ _) as [st' start]. cbv zeta.
    set (stop := (_ - start)%nat). set (data := take start L ++ take (stop - length L) R ++ drop start L ++ drop (stop - length L) R).
    set (mid := Nat.div _ 2).
    match goal with |- context [if ?b then symMerge cmp fuel ?s (take ?i ?k) (drop ?i ?k) else _] =>
      pose proof (Hpart s i b k) as H1; destruct (if b then symMerge cmp fuel s (take i k) (drop i k) else (s, k)) as [st1 lo] end.
    match goal with |- context [if ?b then symMerge cmp fuel ?s (take ?i ?k) (drop ?i ?k) else _] =>
      pose proof (Hpart s i b k) as H2; destruct (if b then symMerge cmp fuel s (take i k) (drop i k) else (s, k)) as [st2 hi] end.
    cbn [snd] in *. rewrite H1, H2, take_drop. unfold data.
    assert (Hg : ∀ a b c d : list A, a ++ b ++ c ++ d ≡ₚ (a ++ c) ++ b ++ d).
    { intros a b c d. rewrite <-app_assoc. apply Permutation_app_head. rewrite !app_assoc.
      apply Permutation_app_tail, Permutation_app_comm. }
    by rewrite Hg, !take_drop.
Qed.

Lemma sortBlocks_perm fuel st l : (length l ≤ fuel)%nat → concat (sortBlocks cmp fuel st l).2 ≡ₚ l.
Proof.
  revert st l. induction fuel as [|fuel IH]; intros st l Hl; (destruct l as [|x l]; [done|]); [cbn in Hl; lia|].
  cbn [sortBlocks]. pose proof (insertAll_perm st [] (take 20 (x :: l))) as Hp.
  destruct (insertAll cmp st [] (take 20 (x :: l))) as [st' b]. cbn [snd app] in Hp.
  assert (Hd : (length (drop 20 (x :: l)) ≤ fuel)%nat) by (rewrite length_drop; cbn [length] in *; lia).
  specialize (IH st' _ Hd). destruct (sortBlocks cmp fuel st' (drop 20 (x :: l))) as [st'' bs].
  cbn [snd concat] in *. by rewrite Hp, IH, take_drop.
Qed.

Lemma mergePairs_perm st bs : concat (mergePairs cmp st bs).2 ≡ₚ concat bs.
Proof.
  remember (length bs) as n eqn:Hn. revert st bs Hn. induction n as [n IH] using lt_wf_ind. intros st bs ->.
  destruct bs as [|x [|y bs]]; [done|done|]. cbn [mergePairs].
  pose proof (symMerge_perm (length x + length y) st x y) as Hp. destruct (symMerge _ _ st x y) as [st' xy]. cbn [snd] in Hp.
  specialize (IH (length bs) ltac:(cbn; lia) st' bs eq_refl). destruct (mergePairs cmp st' bs) as [st'' bs'].
  cbn [snd concat] in *. by rewrite Hp, IH, <-app_assoc.
Qed.

Lemma mergeAll_perm fuel st bs : (mergeAll cmp fuel st bs).2 ≡ₚ concat bs.
Proof.
  revert st bs. induction fuel as [|fuel IH]; intros st bs; [done|].
  destruct bs as [|x [|y bs]]; [done|done|].
  cbn [mergeAll]. pose proof (mergePairs_perm st (x :: y :: bs)) as Hp.
  destruct (mergePairs cmp st (x :: y :: bs)) as [st' bs']. cbn [snd] in Hp. by rewrite IH.
Qed.

Lemma SortStableFunc_perm st l : (SortStableFunc cmp st l).2 ≡ₚ l.
Proof.
  unfold SortStableFunc. pose proof (sortBlocks_perm (length l) st l ltac:(done)) as Hp.
  destruct (sortBlocks cmp (length l) st l) as [st' bs]. cbn [snd] in Hp. by rewrite mergeAll_perm.
Qed.

(** What a comparison keeps, the sort keeps. *)
Context (P : S → Prop) (keeps : ∀ st a b, P st → P (cmp st a b).1).

Lemma insertRev_keeps st x l : P st → P (insertRev cmp st x l).1.
Proof.
  revert st. induction l as [|y l IH]; intros st Hst; cbn [insertRev]; [done|].
  pose proof (keeps st x y Hst) as Hk. destruct (cmp st x y) as [st' c]. cbn [fst] in Hk. destruct (c <? 0); [|done].
  specialize (IH st' Hk). by destruct (insertRev cmp st' x l).
Qed.

Lemma insertAll_keeps st sorted l : P st → P (insertAll cmp st sorted l).1.
Proof.
  revert st sorted. induction l as [|x l IH]; intros st sorted Hst; cbn [insertAll]; [done|].
  pose proof (insertRev_keeps st x sorted Hst) as Hk. destruct (insertRev cmp st x sorted) as [st' k]. by apply IH.
Qed.

Lemma before_keeps st x y : P st → P (before cmp st x y).1.
Proof.
  intros Hst. unfold before. destruct x as [x|], y as [y|]; try done. pose proof (keeps st x y Hst). by destruct (cmp st x y).
Qed.

Lemma search_keeps fuel st stop i j :
  (∀ st h, P st → P (stop st h).1) → P st → P (search fuel st stop i j).1.
Proof.
  intros Hstop. revert st i j. induction fuel as [|fuel IH]; intros st i j Hst; cbn [search]; [done|].
  destruct (Nat.ltb i j); [|done]. pose proof (Hstop st (Nat.div (i + j) 2) Hst) as Hk.
  destruct (stop st (Nat.div (i + j) 2)) as [st' b]. cbn [fst] in Hk. destruct b; by apply IH.
Qed.

Lemma symMerge_keeps fuel st l r : P st → P (symMerge cmp fuel st l r).1.
Proof.
  revert st l r. induction fuel as [|fuel IH]; intros st l r Hst; [done|].
  assert (Hpart : ∀ st i (b : bool) (k : list A), P st →
    P (if b then symMerge cmp fuel st (take i k) (drop i k) else (st, k)).1).
  { intros st' i b k H. destruct b; [by apply IH|done]. }
  assert (Hneg : ∀ st x y, P st → P (let '(st, b) := before cmp st x y in (st, negb b)).1).
  { intros st' x y H. pose proof (before_keeps st' x y H). by destruct (before cmp st' x y). }
  destruct l as [|x [|x' l]]; [done| |]; destruct r as [|y [|y' r]]; cbn [symMerge]; try done.
  1-3: match goal with |- context [search ?f ?s0 ?s ?i ?j] => pose proof (search_keeps f s0 s i j) as Hk; destruct (search f s0 s i j) end;
    cbn [fst] in *; match goal with H : (∀ st h, _) → _ → _ |- _ => apply H end; [|done]; intros; first [by apply before_keeps|by apply Hneg].
  set (L := x :: x' :: l) in *. set (R := y :: y' :: r) in *. destruct (if Nat.ltb _ _ then _ else _) as [s0 r0].
  match goal with |- context [search ?f st ?s ?i ?j] => pose proof (search_keeps f st s i j) as Hk; destruct (search f st s i j) as [st' start] end.
  cbn [fst] in Hk. assert (Hst' : P st') by (apply Hk; [|done]; intros; by apply before_keeps). clear Hk. cbv zeta.
  match goal with |- context [if ?b then symMerge cmp fuel st' (take ?i ?k) (drop ?i ?k) else _] =>
    pose proof (Hpart st' i b k Hst') as H1; destruct (if b then symMerge cmp fuel st' (take i k) (drop i k) else (st', k)) as [st1 lo] end.
  cbn [fst] in H1.
  match goal with |- context [if ?b then symMerge cmp fuel st1 (take ?i ?k) (drop ?i ?k) else _] =>
    pose proof (Hpart st1 i b k H1) as H2; destruct (if b then symMerge cmp fuel st1 (take i k) (drop i k) else (st1, k)) as [st2 hi] end.
  exact H2.
Qed.

Lemma sortBlocks_keeps fuel st l : P st → P (sortBlocks cmp fuel st l).1.
Proof.
  revert st l. induction fuel as [|fuel IH]; intros st l Hst; [done|]. destruct l as [|x l]; [done|].
  cbn [sortBlocks]. pose proof (insertAll_keeps st [] (take 20 (x :: l)) Hst) as Hk.
  destruct (insertAll cmp st [] (take 20 (x :: l))) as [st' b]. cbn [fst] in Hk.
  specialize (IH st' (drop 20 (x :: l)) Hk). by destruct (sortBlocks cmp fuel st' (drop 20 (x :: l))).
Qed.

Lemma mergePairs_keeps st bs : P st → P (mergePairs cmp st bs).1.
Proof.
  remember (length bs) as n eqn:Hn. revert st bs Hn. induction n as [n IH] using lt_wf_ind. intros st bs -> Hst.
  destruct bs as [|x [|y bs]]; [done|done|]. cbn [mergePairs].
  pose proof (symMerge_keeps (length x + length y) st x y Hst) as Hk. destruct (symMerge _ _ st x y) as [st' xy]. cbn [fst] in Hk.
  specialize (IH (length bs) ltac:(cbn; lia) st' bs eq_refl Hk). by destruct (mergePairs cmp st' bs).
Qed.

Lemma SortStableFunc_keeps st l : P st → P (SortStableFunc cmp st l).1.
Proof.
  intros Hst. unfold SortStableFunc. pose proof (sortBlocks_keeps (length l) st l Hst) as Hk.
  destruct (sortBlocks cmp (length l) st l) as [st' bs]. cbn [fst] in Hk. generalize (length bs) as fuel. intros fuel.
  revert st' bs Hk. induction fuel as [|fuel IH]; intros st' bs Hk; [done|].
  destruct bs as [|x [|y bs]]; [done|done|]. cbn [mergeAll].
  pose proof (mergePairs_keeps st' (x :: y :: bs) Hk) as Hp. destruct (mergePairs cmp st' (x :: y :: bs)) as [st'' bs'].
  by apply IH.
Qed.
End Sort.

(** ** Tables of signatures *)

(** All the functions of a table. *)
Definition soundGroup (g : list (string * list FnShape)) : Prop := Forall (λ e, Forall sound e.2) g.

Lemma soundGroup_nil : soundGroup [].
Proof. constructor. Qed.

Lemma soundGroup_cons nm shapes g : Forall sound shapes → soundGroup g → soundGroup ((nm, shapes) :: g).
Proof. by constructor. Qed.

Ltac group := repeat (apply soundGroup_cons || apply soundGroup_nil).

Ltac table := repeat (apply List.Forall_cons || apply List.Forall_nil).

(** A signature of one or two parameters: its function on typed arguments. *)
Ltac unary := apply sound_unary; [exact I|exact I|]; intros b v Hb Hv.
Ltac binary := apply sound_binary; [exact I|exact I|exact I|]; intros b v w Hb Hv Hw.

Section Sound.
Context {arch : Platform} {tables : CaseTables} {text : TextTables}.

(** ** Shared facts *)

Lemma lenInt_in {A} (l : list A) : in_int (lenInt l).
Proof. apply wrap64_range. Qed.

Lemma boundedString_good s : good (boundedString s) (λ v, answers v TString).
Proof. unfold boundedString. eapply good_bind; [apply checkStringBytes_good|]. done. Qed.

Lemma strings_answer ss : answers (ListValue TString (map VString ss)) (TList TString).
Proof. apply list_answers; [done|]. apply Forall_map, Forall_true. done. Qed.

Lemma stringList_good ss : good (stringList ss) (λ v, answers v (TList TString)).
Proof. unfold stringList. eapply good_bind; [apply checkElementCount_good|]. intros _ _. apply strings_answer. Qed.

Lemma ints_answer ints : Forall in_int ints → answers (ListValue TInt (intValues ints)) (TList TInt).
Proof. intros H. apply list_answers; [done|]. apply Forall_map. eapply Forall_impl; [exact H|]. done. Qed.

(** The integers, floats, strings, booleans and paths of a list argument. *)
Lemma typed_ints v : typed v (TList TInt) → ∃ ints, v = VList TInt (map VInt ints) ∧ Forall in_int ints.
Proof.
  intros (e & l & -> & H)%typed_list. pose proof (elems_simple _ _ _ (I : simple TInt) H) as ->.
  destruct H as (_ & _ & Hl & _). induction Hl as [|x l (_ & Hx & Hw) _ (ints & [= ->] & Hi)]; [by exists []|].
  destruct x as [| |i| | | | | |]; try done. exists (i :: ints). by split; [|constructor].
Qed.

Lemma typed_texts v : typed v (TList TString) → ∃ ss, v = VList TString (map VString ss).
Proof.
  intros (e & l & -> & H)%typed_list. pose proof (elems_simple _ _ _ (I : simple TString) H) as ->.
  destruct H as (_ & _ & Hl & _). induction Hl as [|x l (_ & Hx & Hw) _ (ss & [= ->])]; [by exists []|].
  destruct x as [| | | |s| | | |]; try done. by exists (s :: ss).
Qed.

(** The elements of a list of a type without parameters. *)
Lemma typed_elems t v : simple t → typed v (TList t) → ∃ l, v = VList t l ∧ Forall (λ x, has x t ∧ wf x) l.
Proof.
  intros Ht (e & l & -> & H)%typed_list. pose proof (elems_simple _ _ _ Ht H) as ->.
  destruct H as (_ & _ & Hl & _). exists l. split; [done|]. eapply Forall_impl; [exact Hl|]. naive_solver.
Qed.

Lemma coerce_answers v t : wf v → concrete v → resolved t → good (coerce v t) (λ out, typed out t).
Proof.
  intros Hw Hc Hr. apply good_and; [intros out; by apply coerce_typed|].
  intros e He. pose proof (coerce_good v t) as Hg. by rewrite He in Hg.
Qed.

Lemma rangeExprCount_int s : good (rangeExprCount (VRange s)) in_int.
Proof.
  apply good_and; [|intros e He; pose proof (rangeExprCount_good s) as Hg; by rewrite He in Hg].
  intros n H. pose proof (rangeInts_length s) as Hl. unfold rangeInts, rangeExprCount in *.
  destruct (parsedRanges (VRange s)) as [rs|] eqn:Hp; [|done]. cbn [res_bind] in *.
  assert (Hok : Forall range_ok rs).
  { unfold parsedRanges in Hp. cbn [AsRangeExpr res_bind] in Hp. destruct (Parse s) as [rs'|] eqn:E; [|done].
    injection Hp as <-. by eapply Parse_ok. }
  assert (Hmany : (let? _ := sumCounts 0 rs in Ok (Z.of_nat (length (expandRanges rs)))) = Ok n →
    expand rs = expandRanges rs → in_int n).
  { intros Hn He. destruct (sumCounts 0 rs) as [k|]; [|done]. cbn [res_bind] in *. injection Hn as <-.
    specialize (Hl _ eq_refl). rewrite He in Hl. unfold maxElements in Hl. zint. }
  destruct rs as [|r [|r' rs]]; [by apply Hmany| |by apply Hmany].
  injection H as <-. inversion_clear Hok as [|?? Hr _]. rewrite Count_saturates by done.
  pose proof (exact_count_pos r). case_decide; zint.
Qed.

(** ** Numbers *)

Lemma floatToInt_good f : good (floatToInt f) in_int.
Proof. unfold floatToInt. destruct (_ || _); [done|]. apply int_of_float_int. Qed.

Lemma floatToIntBy_good round v : typed v TFloat → good (floatToIntBy round v) (λ v, answers v TInt).
Proof.
  intros (f & fs & -> & _)%typed_float. unfold floatToIntBy. cbn [AsFloat res_bind].
  eapply good_bind; [apply floatToInt_good|]. done.
Qed.

Lemma union_answers ms t x : Forall canonical ms → t ∈ ms → answers x t → answers x (UnionOf ms).
Proof. intros Hr Ht (? & ? & Hx). split_and!; [done|done|]. apply has_UnionOf; [done|]. eauto. Qed.

Lemma number_answers t x : t ∈ [TInt; TFloat] → answers x t → answers x (UnionOf [TInt; TFloat]).
Proof. apply union_answers. by repeat constructor. Qed.

Lemma roundToDigits_good f n : good (roundToDigits f n) (λ v, answers v (UnionOf [TInt; TFloat])).
Proof.
  unfold roundToDigits. destruct (0 <? n).
  - destruct (_ <? _); [done|]. eapply good_bind; [apply floatValue_answers|]. intros x (Hw & _ & Hx).
    destruct x as [| | |y fs| | | | |]; try done. cbn [AsFloat res_bind good].
    apply (number_answers TFloat); [set_solver|]. by split_and!.
  - destruct (floatScale _ _ _) as [scale|].
    + eapply good_bind; [apply floatToInt_good|]. intros z Hz. apply (number_answers TInt); [set_solver|]. by split_and!.
    + apply (number_answers TInt); [set_solver|]. done.
Qed.

Lemma roundIntToDigits_good z n : in_int z → in_int n → good (roundIntToDigits z n) in_int.
Proof.
  intros Hz Hn. unfold roundIntToDigits. destruct (0 <=? n); [done|].
  destruct (Z_le_gt_dec (wrap64 (- n)) 18) as [Hs|Hs].
  - destruct (Z_le_gt_dec 0 (wrap64 (- n))) as [H0|H0].
    + rewrite scaleLoop_small by lia. apply mulInt_good; [apply wrap64_range|].
      assert (10 ^ wrap64 (- n) ≤ 10 ^ 18) by (apply Z.pow_le_mono_r; lia).
      pose proof (Z.pow_pos_nonneg 10 (wrap64 (- n)) ltac:(lia) H0). change (10 ^ 18) with 1000000000000000000 in *. zint.
    + cbn [scaleLoop]. replace (wrap64 (- n) <=? 0) with true by lia. apply mulInt_good; [apply wrap64_range|zint].
  - rewrite scaleLoop_beyond by lia. unfold roundIntBeyondScale. by destruct (_ || _).
Qed.

Lemma bestInt_good m best l : in_int best → Forall (λ x, has x TInt ∧ wf x) l → good (bestInt m best l) in_int.
Proof.
  intros Hb Hl. revert best Hb. induction Hl as [|x l [Hx Hw] _ IH]; intros best Hb; [done|].
  destruct x as [| |i| | | | | |]; try done. cbn [bestInt AsInt res_bind]. apply IH. by destruct (_ || _).
Qed.

Lemma bestFloat_good m best l : Forall (λ x, has x TFloat ∧ wf x) l → good (bestFloat m best l) (λ _, True).
Proof.
  intros Hl. revert best. induction Hl as [|x l [Hx Hw] _ IH]; intros best; [done|].
  destruct x as [| | |f fs| | | | |]; try done. cbn [bestFloat AsFloat res_bind]. apply IH.
Qed.

Lemma extremumInt_good m l : Forall (λ x, has x TInt ∧ wf x) l → good (extremumInt l m) (λ v, answers v TInt).
Proof.
  intros Hl. destruct Hl as [|x l [Hx Hw] Hl]; [done|]. destruct x as [| |i| | | | | |]; try done.
  cbn [extremumInt AsInt res_bind]. eapply good_bind; [by apply bestInt_good|]. done.
Qed.

Lemma extremumFloat_good m l : Forall (λ x, has x TFloat ∧ wf x) l → good (extremumFloat l m) (λ v, answers v TFloat).
Proof.
  intros Hl. destruct Hl as [|x l [Hx Hw] Hl]; [done|]. destruct x as [| | |f fs| | | | |]; try done.
  cbn [extremumFloat AsFloat res_bind]. eapply good_bind; [by apply bestFloat_good|]. intros y _. apply floatValue_answers.
Qed.

Lemma extremumInts_good m ints : Forall in_int ints → good (extremumInts ints m) (λ v, answers v TInt).
Proof.
  intros Hl. destruct Hl as [|i ints Hi Hl]; [done|]. cbn [extremumInts good]. split_and!; [|done|done]. cbn [wf].
  revert i Hi. induction Hl as [|j ints Hj _ IH]; intros i Hi; [done|]. cbn [foldl]. apply IH. by destruct (_ || _).
Qed.

Lemma sumInts_good l : Forall (λ x, has x TInt ∧ wf x) l → good (sumInts l) (λ v, answers v TInt).
Proof.
  intros Hl. unfold sumInts. eapply good_bind; [|by intros n Hn].
  assert (H0 : in_int 0) by zint. revert H0. generalize 0 as total.
  induction Hl as [|x l [Hx Hw] _ IH]; intros total Ht; [done|]. destruct x as [| |i| | | | | |]; try done.
  cbn [addInts AsInt res_bind]. eapply good_bind; [by apply addInt_good|]. apply IH.
Qed.

Lemma addFloats_good f l : Forall (λ x, has x TFloat ∧ wf x) l → good (addFloats f l) (λ _, True).
Proof.
  intros Hl. revert f. induction Hl as [|x l [Hx Hw] _ IH]; intros f; [done|].
  destruct x as [| | |g fs| | | | |]; try done. cbn [addFloats AsFloat res_bind]. apply IH.
Qed.

(** Functions of all their arguments. *)
Lemma sound_all t n f :
  resolved t → (∀ b, substitute t b = t) →
  (∀ l, Forall (λ x, has x t ∧ wf x) l → good (f l) (λ v, answers v t)) →
  sound (plainShape (replicate n t) t (fnAll f)).
Proof.
  intros Hr Hsub Hf.
  apply sound_plain; [by apply Forall_replicate|done|]. intros ec b args Hb Ha.
  rewrite Hsub. apply quiet_lift, Hf. clear Hf. revert args Ha.
  induction n as [|n IH]; intros args Ha; inversion_clear Ha as [|? v ? args' Hv Ha']; constructor; [|by apply IH].
  rewrite Hsub in Hv. destruct Hv as (? & _ & ? & _). done.
Qed.

(** Functions of the elements of a list, and of the integers of a range. *)
Lemma sound_elems t ret c f :
  simple t → resolved t → resolved ret → (∀ b, substitute t b = t) → (∀ b, substitute ret b = ret) →
  (∀ l, Forall (λ x, has x t ∧ wf x) l → good (f l) (λ v, answers v ret)) →
  sound (costShape [TList t] ret c (ofElems f)).
Proof.
  intros Hs Hr Hret Hsub Hsubr Hf. apply sound_unary; [exact Hr|done|]. intros b v Hb Hv.
  cbn [substitute] in Hv. rewrite Hsub, ListOf_resolved in Hv by done. rewrite Hsubr.
  apply typed_elems in Hv as (l & -> & Hl); [|done]. by apply Hf.
Qed.

Lemma sound_ints ret c f :
  resolved ret → (∀ b, substitute ret b = ret) →
  (∀ ints, Forall in_int ints → good (f ints) (λ v, answers v ret)) → sound (costShape [TRangeExpr] ret c (ofInts f)).
Proof.
  intros Hret Hsubr Hf. apply sound_unary; [exact I|done|]. intros b v Hb (s & -> & _)%typed_range. rewrite Hsubr.
  eapply good_bind; [apply rangeInts_good|exact Hf].
Qed.

Lemma extremumShapes_sound m : Forall sound (extremumShapes m).
Proof.
  unfold extremumShapes. table.
  - apply (sound_all TInt 2); [done|done|]. apply extremumInt_good.
  - apply (sound_all TFloat 2); [done|done|]. apply extremumFloat_good.
  - apply (sound_all TInt 3); [done|done|]. apply extremumInt_good.
  - apply (sound_all TFloat 3); [done|done|]. apply extremumFloat_good.
  - apply sound_elems; try done. apply extremumInt_good.
  - apply sound_elems; try done. apply extremumFloat_good.
  - by unary.
  - apply sound_ints; [done|done|]. apply extremumInts_good.
Qed.

Lemma mathFuncs_sound : soundGroup mathFuncs.
Proof.
  unfold mathFuncs. group; try apply extremumShapes_sound; table; unfold plainShape.
  - unary. by apply floatToIntBy_good.
  - apply sound_binary; [exact I|exact I|by apply UnionOf_resolved; repeat constructor|]. intros b v w Hb Hv Hw.
    apply typed_float in Hv as (f & fs & -> & _). apply typed_int in Hw as (n & -> & _). apply roundToDigits_good.
  - binary. apply typed_int in Hv as (z & -> & Hz). apply typed_int in Hw as (n & -> & Hn).
    unfold roundInt. cbn [AsInt res_bind]. eapply good_bind; [by apply roundIntToDigits_good|]. done.
  - unary. apply typed_int in Hv as (z & -> & Hz). unfold absIntValue. cbn [AsInt res_bind].
    destruct (Z.eqb_spec z MinInt); [done|]. cbn. split_and!; try done. cbn [wf]. destruct (Z.ltb_spec z 0); zint.
  - unary. apply typed_float in Hv as (f & fs & -> & _). apply floatValue_answers.
  - unary. by destruct Hv as (? & ? & ? & _).
  - unary. by apply floatToIntBy_good.
  - unary. by destruct Hv as (? & ? & ? & _).
  - unary. by apply floatToIntBy_good.
  - by unary.
  - apply sound_elems; try done. apply sumInts_good.
  - apply sound_elems; try done. intros l Hl. eapply good_bind; [by apply addFloats_good|].
    intros f _. apply floatValue_answers.
  - apply sound_ints; [done|done|]. intros ints Hi. apply sumInts_good. apply Forall_map.
    eapply Forall_impl; [exact Hi|]. done.
Qed.

(** ** Conversions *)

Lemma writeJSONValue_good v : ∀ b, good (writeJSONValue b v) (λ _, True).
Proof.
  assert (Hend : ∀ r, good r (λ _, True) → good (let? b := r in let? _ := checkStringBytes (Z.of_nat (length b)) in Ok b) (λ _ : str, True)).
  { intros r Hr. eapply good_bind; [exact Hr|]. intros b _. eapply good_bind; [apply checkStringBytes_good|]. done. }
  induction v as [v Hv|e l IH] using Value_induct; intros b.
  - destruct v; cbn [writeJSONValue]; try (by apply Hend).
  - cbn [writeJSONValue]. apply Hend. eapply (good_bind _ _ (λ _, True)); [|done].
    match goal with |- good (?go _ true l) _ =>
      assert (Hgo : ∀ acc first, good (go acc first l) (λ _, True)); [|apply Hgo] end.
    induction IH as [|x l Hx _ IHl]; intros acc first; [exact I|]. eapply good_bind; [apply Hx|]. intros acc' _. apply IHl.
Qed.

Lemma jsonList_good v : good (jsonList v) (λ _, True).
Proof.
  unfold jsonList. eapply good_bind; [apply writeJSONValue_good|]. intros b _.
  eapply good_bind; [apply checkStringBytes_good|]. done.
Qed.

Lemma stringOf_good v : good (stringOf v) (λ v, answers v TString).
Proof. unfold stringOf. eapply good_bind; [apply checkStringBytes_good|]. done. Qed.

Lemma RangeExprValue_good s : good (RangeExprValue s) (λ v, answers v TRangeExpr).
Proof. unfold RangeExprValue. destruct (Parse s) as [rs|] eqn:E; [|done]. split_and!; try done. cbn [wf]. by rewrite E. Qed.

Lemma rangeOfInts_good l : Forall (λ x, has x TInt ∧ wf x) l → good (rangeOfInts l) (λ v, answers v TRangeExpr).
Proof.
  intros Hl. unfold rangeOfInts. destruct l as [|x l]; [done|]. eapply (good_bind _ _ (λ _, True)); [|intros; apply RangeExprValue_good].
  induction Hl as [|y k [Hy Hw] _ IH]; [done|]. destruct y as [| |i| | | | | |]; try done. cbn [intsOf AsInt res_bind].
  eapply good_bind; [exact IH|]. done.
Qed.

Lemma lenRange_quiet v : typed v TRangeExpr → quiet (lenRange v) (λ v, answers v TInt).
Proof.
  intros (s & -> & _)%typed_range. unfold lenRange. eapply (quiet_bind _ _ (λ _, True)).
  - unfold reserveRangeExprCount. eapply quiet_bind; [apply quiet_lift, parsedRanges_good|]. intros rs _.
    destruct rs as [|r [|r' rs]]; try apply quiet_reserveRangeExprExpansion. by apply quiet_ret.
  - intros _ _. eapply quiet_bind; [apply quiet_lift, rangeExprCount_int|]. intros n Hn. by apply quiet_ret.
Qed.

Lemma listOfRange_quiet v : typed v TRangeExpr → quiet (listOfRange v) (λ v, answers v (TList TInt)).
Proof.
  intros (s & -> & _)%typed_range. unfold listOfRange. eapply quiet_bind; [apply quiet_reserveRangeExprExpansion|]. intros _ _.
  eapply quiet_bind; [apply quiet_lift, rangeInts_good|]. intros ints Hi. apply quiet_ret. by apply ints_answer.
Qed.

Lemma boolFromString_good s : good (boolFromString s) (λ v, answers v TBool).
Proof.
  apply good_and; [by intros out (b & ->)%boolFromString_ok|]. intros e. unfold boolFromString.
  repeat case_bool_decide; intros; simplify_eq; done.
Qed.

Lemma union_resolved ts : Forall resolved ts → resolved (UnionOf ts).
Proof. apply UnionOf_resolved. Qed.

Lemma convFuncs_sound : soundGroup convFuncs.
Proof.
  unfold convFuncs. group; table; unfold plainShape, costShape.
  - unary. apply typed_list_var in Hv as (e & l & -> & _); [|done]. cbn. split_and!; try done. apply lenInt_in.
  - unary. apply typed_string in Hv as (s & ->). cbn. split_and!; try done. apply lenInt_in.
  - unary. apply typed_path in Hv as (s & pf & ->). cbn. split_and!; try done. apply lenInt_in.
  - apply sound_plain; [by repeat constructor|done|]. intros ec b args Hb Ha. eapply fn1_quiet; [exact Ha|]. apply lenRange_quiet.
  - unary. by destruct Hv as (? & ? & ? & _).
  - by unary.
  - unary. by apply typed_int in Hv as (i & -> & _).
  - unary. by apply typed_float in Hv as (f & fs & -> & _).
  - unary. apply typed_string in Hv as (s & ->). apply boolFromString_good.
  - by unary.
  - by unary.
  - apply sound_unary; [by apply union_resolved; repeat constructor|done|]. intros b v Hb (Hw & Hc & _).
    eapply good_weaken; [by apply coerce_answers|]. by intros x (? & ? & ? & _).
  - apply sound_unary; [by apply union_resolved; repeat constructor|done|]. intros b v Hb (Hw & Hc & _).
    unfold floatOf. eapply good_bind; [by apply coerce_answers|]. intros x (f & fs & -> & _)%typed_float. apply floatValue_answers.
  - apply sound_unary; [by apply union_resolved; repeat constructor|done|]. intros b v Hb _. apply stringOf_good.
  - unary. eapply good_bind; [apply jsonList_good|]. done.
  - apply sound_plain; [by repeat constructor|done|]. intros ec b args Hb Ha. eapply fn1_quiet; [exact Ha|]. apply listOfRange_quiet.
  - unary. apply typed_string in Hv as (s & ->). apply RangeExprValue_good.
  - apply sound_elems; try done. apply rangeOfInts_good.
  - unary. by apply typed_string in Hv as (s & ->).
Qed.

(** ** Lists *)

Lemma rangeValues_int n start step : in_int start → Forall in_int (rangeValues n start step).
Proof. revert start. induction n as [|n IH]; intros start Hs; cbn [rangeValues]; constructor; [done|apply IH, wrap64_range]. Qed.

Lemma rangeList_quiet start stop step : in_int start → quiet (rangeList start stop step) (λ v, answers v (TList TInt)).
Proof.
  intros Hs. unfold rangeList. destruct (step =? 0); [by apply quiet_raise|].
  eapply quiet_bind; [apply quiet_lift, checkElementCount_good|]. intros _ _.
  eapply quiet_bind; [apply quiet_reserve|]. intros _ _. destruct (_ =? 0); apply quiet_ret.
  - split_and!; [by split|done|]. cbn. constructor.
  - by apply ints_answer, rangeValues_int.
Qed.

Lemma quiet_ok {A B} (x : A) (k : A → M B) Q : quiet (k x) Q → quiet (let* y := lift (Ok x) in k y) Q.
Proof. done. Qed.

Lemma rebuildList_answers b v e l k :
  bindingsOk b → v = VList e l → elems e (substitute TVarT b) l → Forall (λ x, x ∈ l) k →
  answers (rebuildList v k) (substitute (TList TVarT) b).
Proof. intros Hb -> He Hk. by eapply answers_list_var. Qed.

Lemma sortedList_good b v :
  bindingsOk b → typed v (substitute (TList TVarT) b) → good (sortedList v) (λ v, answers v (substitute (TList TVarT) b)).
Proof.
  intros Hb (e & l & -> & He)%typed_list_var; [|done]. unfold sortedList. cbn [AsList res_bind].
  pose proof (SortStableFunc_perm compareUntil None l) as Hp.
  assert (Hst : ∀ e, (SortStableFunc compareUntil None l).1 = Some e → harmless e).
  { apply (SortStableFunc_keeps compareUntil (λ st, ∀ e, st = Some e → harmless e)); [|done].
    intros st a a' Hst. unfold compareUntil. destruct st; [done|]. pose proof (compareValues_good a a') as Hg.
    destruct (compareValues a a'); cbn [fst]; [done|]. by intros e' [= <-]. }
  destruct (SortStableFunc compareUntil None l) as [[e'|] out]; cbn [fst snd] in *; [by apply Hst|].
  eapply rebuildList_answers; [done|done|exact He|]. rewrite Hp. by apply Forall_forall.
Qed.

Lemma isKept_quiet v kept : quiet (isKept v kept) (λ _, True).
Proof.
  induction kept as [|k kept IH]; cbn [isKept]; [by apply quiet_ret|].
  eapply quiet_bind; [apply quiet_charge|]. intros _ _. destruct (valuesEqual k v); [by apply quiet_ret|exact IH].
Qed.

Lemma uniqueLoop_quiet (all out l : list Value) :
  Forall (λ x, x ∈ all) out → Forall (λ x, x ∈ all) l → quiet (uniqueLoop out l) (Forall (λ x, x ∈ all)).
Proof.
  intros Ho Hl. revert out Ho. induction Hl as [|v l Hv _ IH]; intros out Ho; cbn [uniqueLoop]; [by apply quiet_ret|].
  eapply quiet_bind; [apply isKept_quiet|]. intros dup _. apply IH. destruct dup; [done|]. apply Forall_app. by split; [|constructor].
Qed.

Lemma uniqueList_quiet b v :
  bindingsOk b → typed v (substitute (TList TVarT) b) → quiet (uniqueList v) (λ v, answers v (substitute (TList TVarT) b)).
Proof.
  intros Hb (e & l & -> & He)%typed_list_var; [|done]. unfold uniqueList. apply quiet_ok.
  eapply quiet_bind; [apply (uniqueLoop_quiet l); [constructor|by apply Forall_forall]|].
  intros out Ho. apply quiet_ret. by eapply rebuildList_answers.
Qed.

Lemma satisfies_list e t : satisfies e (TList t) = true → ∃ e', e = TList e' ∧ satisfies e' t = true.
Proof. destruct e; cbn [satisfies]; try discriminate; eauto. Qed.

Lemma countNested_good total l :
  Forall (λ x, ∃ e k, x = VList e k) l → good (countNested total l) (λ _, True).
Proof.
  intros H. revert total. induction H as [|x l (e & k & ->) _ IH]; intros total; [done|]. cbn [countNested AsList res_bind].
  eapply good_bind; [apply checkElementCount_good|]. intros _ _. apply IH.
Qed.

Lemma appendNested_good (P : Value → Prop) l :
  Forall (λ x, ∃ e k, x = VList e k ∧ Forall P k) l → good (appendNested l) (Forall P).
Proof.
  induction 1 as [|x l (e & k & -> & Hk) _ IH]; [by constructor|]. cbn [appendNested AsList res_bind].
  eapply good_bind; [exact IH|]. intros rest Hr. by apply Forall_app.
Qed.

Lemma flattenNested_good b v :
  bindingsOk b → typed v (substitute (TList (TList TVarT)) b) → good (flattenNested v) (λ v, answers v (substitute (TList TVarT) b)).
Proof.
  intros Hb Hv. pose proof (var_resolved CodeVarT b Hb) as Hr. cbn [substitute code] in Hv |- *. set (T := default TVarT (get b CodeVarT)) in *.
  rewrite (ListOf_resolved T Hr) in Hv |- *. rewrite ListOf_resolved in Hv by exact Hr.
  apply typed_list in Hv as (e & l & -> & He & Het & Hl & Ht).
  assert (He' : ∃ e', e = TList e') by (destruct Het as [->|Hs]; [eauto|apply satisfies_list in Hs as (e' & -> & _); eauto]).
  destruct He' as (e' & ->). unfold flattenNested. cbn [AsList res_bind typeOf listElem default].
  assert (Hin : Forall (λ x, ∃ e k, x = VList e k ∧ Forall (λ y, (concrete y ∧ has y e' ∧ wf y) ∧ has y T) k) l).
  { apply Forall_forall. intros x Hx. rewrite Forall_forall in Hl, Ht. destruct (Hl x Hx) as (Hc & Hh & Hw). specialize (Ht x Hx).
    destruct x as [| | | | | | |f k|]; try done. exists f, k. split; [done|]. apply wf_list in Hw as [_ Hw].
    cbn [has] in Hh, Ht. rewrite Forall_forall in Hw, Hh, Ht |- *. naive_solver. }
  assert (Hans : ∀ k, Forall (λ y, (concrete y ∧ has y e' ∧ wf y) ∧ has y T) k → answers (ListValue e' k) (TList T)).
  { intros k Hk. rewrite ListValue_resolved by done. split_and!; [apply wf_list; split; [done|]|done|cbn [has]];
      (eapply Forall_impl; [exact Hk|]); naive_solver. }
  eapply good_bind; [apply countNested_good; eapply Forall_impl; [exact Hin|]; naive_solver|]. intros total _.
  destruct (total =? 0); [apply Hans; constructor|].
  eapply good_bind; [apply appendNested_good; exact Hin|]. exact Hans.
Qed.

Lemma anyBool_good s l : Forall (λ x, has x TBool ∧ wf x) l → good (anyBool s l) (λ _, True).
Proof.
  induction 1 as [|x l [Hx _] _ IH]; [done|]. destruct x as [|y| | | | | | |]; try done. cbn [anyBool AsBool res_bind].
  destruct (Bool.eqb y s); [done|exact IH].
Qed.

Lemma anyShapes_sound s : Forall sound (anyShapes s).
Proof.
  unfold anyShapes. table; [by unary|]. apply sound_elems; try done. intros l Hl.
  eapply good_bind; [by apply anyBool_good|]. done.
Qed.

Lemma self_answers v t : typed v t → good (identity v) (λ v, answers v t).
Proof. by intros (? & ? & ? & _). Qed.

Lemma listFuncs_sound : soundGroup listFuncs.
Proof.
  unfold listFuncs. group; try apply anyShapes_sound; table; unfold plainShape, costShape.
  - apply sound_plain; [by repeat constructor|done|]. intros ec b args Hb Ha. eapply fn1_quiet; [exact Ha|].
    intros v (n & -> & Hn)%typed_int. apply quiet_ok. apply rangeList_quiet. zint.
  - apply sound_plain; [by repeat constructor|done|]. intros ec b args Hb Ha. eapply fn2_quiet; [exact Ha|].
    intros v w (x & -> & Hx)%typed_int (y & -> & _)%typed_int. do 2 apply quiet_ok. by apply rangeList_quiet.
  - apply sound_plain; [by repeat constructor|done|]. intros ec b args Hb Ha. eapply fn3_quiet; [exact Ha|].
    intros v w u (x & -> & Hx)%typed_int (y & -> & _)%typed_int (z & -> & _)%typed_int. do 3 apply quiet_ok. by apply rangeList_quiet.
  - unary. by apply flattenNested_good.
  - unary. by apply self_answers.
  - unary. by apply self_answers.
  - unary. by apply sortedList_good.
  - unary. apply typed_list_var in Hv as (e & l & -> & He); [|done]. eapply rebuildList_answers; [done|done|exact He|].
    apply Forall_forall. intros x Hx. apply list_elem_of_In, in_rev, list_elem_of_In in Hx. done.
  - apply sound_plain; [by repeat constructor|done|]. intros ec b args Hb Ha. eapply fn1_quiet; [exact Ha|].
    intros v. by apply uniqueList_quiet.
Qed.

(** ** Text *)

Lemma textShape_sound ret f :
  resolved ret → (∀ b, substitute ret b = ret) → (∀ s, good (f s) (λ v, answers v ret)) → sound (textShape ret f).
Proof.
  intros Hr Hsub Hf. apply sound_unary; [exact I|done|]. intros b v Hb (s & ->)%typed_string. rewrite Hsub. apply Hf.
Qed.

Lemma textShape2_sound ret f :
  resolved ret → (∀ b, substitute ret b = ret) → (∀ s t, good (f s t) (λ v, answers v ret)) → sound (textShape2 ret f).
Proof.
  intros Hr Hsub Hf. apply sound_binary; [exact I|exact I|done|].
  intros b v w Hb (s & ->)%typed_string (t & ->)%typed_string. rewrite Hsub. apply Hf.
Qed.

Lemma pathTextShape_sound ret c f :
  resolved ret → (∀ b, substitute ret b = ret) → (∀ s, good (f s) (λ v, answers v ret)) → sound (costShape [TPath] ret c (onPath f)).
Proof.
  intros Hr Hsub Hf. apply sound_unary; [exact I|done|]. intros b v Hb (s & pf & ->)%typed_path. rewrite Hsub. apply Hf.
Qed.

Lemma strCaseFuncs_sound : soundGroup strCaseFuncs.
Proof.
  unfold strCaseFuncs. group; table; unfold caseShape, runePredShape; (apply textShape_sound; [done|done|]); try done;
    (intros s; eapply (good_bind _ _ (λ _, True)); [unfold checkCaseInputBytes; by destruct (_ || _)|]; intros _ _; apply boundedString_good).
Qed.

Lemma runeIndexOf_good s sub last : good (runeIndexOf s sub last) in_int.
Proof.
  unfold runeIndexOf. case_bool_decide; [done|]. destruct (if last then _ else _); cbn; [apply wrap64_range|zint].
Qed.

Lemma strFindFuncs_sound : soundGroup strFindFuncs.
Proof.
  unfold strFindFuncs. group; table;
    try (apply textShape_sound; [done|done|]; done); try (apply textShape2_sound; [done|done|]; try done).
  - intros s sub. unfold countText. case_bool_decide; [done|]. cbn. split_and!; try done. apply wrap64_range.
  - intros s sub. eapply good_bind; [apply runeIndexOf_good|]. done.
  - intros s sub. eapply good_bind; [apply runeIndexOf_good|]. done.
  - intros s sub. unfold foundIndex. eapply good_bind; [apply runeIndexOf_good|]. intros i Hi. by destruct (i <? 0).
  - intros s sub. unfold foundIndex. eapply good_bind; [apply runeIndexOf_good|]. intros i Hi. by destruct (i <? 0).
  - apply sound_plain; [by repeat constructor|done|]. intros ec b args Hb Ha. eapply fn3_quiet; [exact Ha|].
    intros v w u (s & ->)%typed_string (o & ->)%typed_string (r & ->)%typed_string. apply quiet_lift. cbn [AsStr res_bind].
    unfold replaceAll. case_bool_decide; [done|]. eapply (good_bind _ _ (λ _, True)); [|done].
    destruct (_ <? _); [|done]. eapply good_bind; [apply checkRepeat_good|]. intros k _. apply checkStringBytes_good.
Qed.

Lemma splitSep_good s sep n r : good (splitSep s sep n r) (λ v, answers v (TList TString)).
Proof. unfold splitSep. case_bool_decide; [done|]. apply stringList_good. Qed.

Lemma splitShapes_sound r : Forall sound (splitShapes r).
Proof.
  unfold splitShapes. table.
  - apply textShape_sound; [done|done|]. intros s. apply stringList_good.
  - apply textShape2_sound; [done|done|]. intros s sep. apply splitSep_good.
  - apply sound_plain; [by repeat constructor|done|]. intros ec b args Hb Ha. eapply fn3_quiet; [exact Ha|].
    intros v w u (s & ->)%typed_string (o & ->)%typed_string (n & -> & _)%typed_int. apply quiet_lift. apply splitSep_good.
Qed.

Lemma joinValues_good l sep f :
  Forall (λ v, good (f v) (λ _, True)) l → good (joinValues l sep f) (λ v, answers v TString).
Proof.
  intros Hl. unfold joinValues. destruct l as [|x l]; [done|]. eapply good_bind; [apply checkRepeat_good|].
  intros total _. eapply (good_bind _ _ (λ _, True)); [|done]. revert total. induction Hl as [|y k Hy _ IH]; intros total; [done|].
  cbn [joinTexts]. eapply good_bind; [exact Hy|]. intros p _. eapply good_bind; [apply checkStringBytes_good|]. intros _ _.
  eapply good_bind; [apply IH|]. done.
Qed.

Lemma joinWith_sound t c f :
  t = TString ∧ f = AsStr ∨ t = TPath ∧ f = pathText → sound (costShape [TList t; TString] TString c (joinWith f)).
Proof.
  intros Ht. assert (Hs : simple t ∧ resolved t ∧ ∀ b, substitute t b = t) by (by destruct Ht as [[-> _]|[-> _]]).
  destruct Hs as (Hs & Hr & Hsub). apply sound_binary; [exact Hr|exact I|exact I|]. intros b v w Hb Hv (sep & ->)%typed_string.
  cbn [substitute] in Hv. rewrite Hsub, ListOf_resolved in Hv by done. apply typed_elems in Hv as (l & -> & Hl); [|done].
  apply joinValues_good. eapply Forall_impl; [exact Hl|]. intros x [Hx _]. destruct Ht as [[-> ->]|[-> ->]]; by destruct x.
Qed.

Lemma strSplitFuncs_sound : soundGroup strSplitFuncs.
Proof.
  unfold strSplitFuncs. group; try apply splitShapes_sound; table.
  - by binary.
  - apply joinWith_sound. by left.
  - apply joinWith_sound. by right.
Qed.

Lemma padWidth_quiet s n : quiet (padWidth s n) (λ _, True).
Proof.
  unfold padWidth. eapply quiet_bind; [apply (quiet_lift _ (λ _, True)); unfold padLength; destruct (n <=? _); [done|];
    eapply good_bind; [apply checkRepeat_good|]; done|].
  intros [k|] _; [|by apply quiet_ret]. eapply quiet_bind; [apply quiet_reserveBytes|]. intros _ _. by apply quiet_ret.
Qed.

Lemma zfillString_quiet s n : quiet (zfillString s n) (λ v, answers v TString).
Proof. unfold zfillString. eapply quiet_bind; [apply padWidth_quiet|]. intros k _. by apply quiet_ret. Qed.

Lemma padShape_sound side : sound (padShape side).
Proof.
  apply sound_plain; [by repeat constructor|done|]. intros ec b args Hb Ha. eapply fn2_quiet; [exact Ha|].
  intros v w (s & ->)%typed_string (n & -> & _)%typed_int. do 2 apply quiet_ok. unfold padString.
  eapply quiet_bind; [apply padWidth_quiet|]. intros [k|] _; [|by apply quiet_ret]. destruct side; by apply quiet_ret.
Qed.

Lemma zfillOf_sound p f :
  resolved p → (∀ b v, typed v (substitute p b) → good (f v) (λ _, True)) →
  sound (costShape [p; TInt] TString resultBytes (zfillOf f)).
Proof.
  intros Hp Hf. apply sound_plain; [by repeat constructor|done|]. intros ec b args Hb Ha. eapply fn2_quiet; [exact Ha|].
  intros v w Hv (n & -> & _)%typed_int. eapply quiet_bind; [by apply quiet_lift, (Hf b)|]. intros s _. apply quiet_ok.
  apply zfillString_quiet.
Qed.

Lemma strPadFuncs_sound : soundGroup strPadFuncs.
Proof.
  unfold strPadFuncs. group; table; try apply padShape_sound; apply zfillOf_sound; try done; intros b v Hv.
  - by apply typed_string in Hv as (s & ->).
  - by apply typed_int in Hv as (n & -> & _).
Qed.

(** ** Quoting *)

Lemma quoteElems_sound t f q :
  t = TString ∧ f = AsStr ∨ t = TPath ∧ f = pathText → sound (costShape [TList t] TString (argElements [0%nat]) (quoteElems f q)).
Proof.
  intros Ht. destruct Ht as [[-> ->]|[-> ->]]; (apply sound_elems; [done..|]); intros l Hl; apply joinValues_good;
    (eapply Forall_impl; [exact Hl|]); intros x [Hx _]; by destruct x.
Qed.

Lemma joinValues_text l sep f v : joinValues l sep f = Ok v → ∃ s, v = VString s.
Proof.
  unfold joinValues. destruct l; [intros [= <-]; eauto|].
  intros H. apply res_bind_ok in H as (? & _ & H). apply res_bind_ok in H as (? & _ & [= <-]). eauto.
Qed.

Lemma pwshList_good l : good (pwshList l) (λ v, answers v TString).
Proof.
  unfold pwshList. destruct (joinValues _ _ _) as [v|e] eqn:E.
  - apply joinValues_text in E as (s & ->). apply boundedString_good.
  - assert (H : good (joinValues l (of_string ", ") (λ v, Ok (pwshElement v))) (λ v, answers v TString)).
    { apply joinValues_good. by apply Forall_true. }
    by rewrite E in H.
Qed.

Lemma reprShellFuncs_sound : soundGroup reprShellFuncs.
Proof.
  unfold reprShellFuncs. group; table;
    try (apply textShape_sound; [done|done|]; intros s; apply boundedString_good);
    try (apply pathTextShape_sound; [done|done|]; intros s; apply boundedString_good);
    try (apply quoteElems_sound; by auto).
  - unary. apply boundedString_good.
  - by unary.
  - by unary.
  - unary. by apply typed_bool in Hv as (x & ->).
  - unary. apply typed_list_var in Hv as (e & l & -> & _); [|done]. apply pwshList_good.
Qed.

Lemma reprShapes_sound none repr : Forall sound (reprShapes none repr).
Proof.
  unfold reprShapes. table; try (by unary; try apply boundedString_good).
  apply pathTextShape_sound; [done|done|]. intros s. apply boundedString_good.
Qed.

Lemma reprDataFuncs_sound : soundGroup reprDataFuncs.
Proof. unfold reprDataFuncs. group; apply reprShapes_sound. Qed.

(** ** Paths *)

Lemma pathShape_sound ret c f :
  resolved ret → (∀ b, substitute ret b = ret) → (∀ p, good (f p) (λ v, answers v ret)) →
  sound (costShape [TPath] ret c (onParsed f)).
Proof.
  intros Hr Hsub Hf. apply sound_unary; [exact I|done|]. intros b v Hb (s & pf & ->)%typed_path. rewrite Hsub. apply Hf.
Qed.

Lemma withShape_sound f : (∀ p s, good (f p s) (λ v, answers v TPath)) → sound (withShape f).
Proof.
  intros Hf. binary. apply typed_path in Hv as (s & pf & ->). apply typed_string in Hw as (u & ->). apply Hf.
Qed.

Lemma withName_good p nm : good (withName p nm) (λ v, answers v TPath).
Proof. unfold withName. case_bool_decide; [done|]. destruct (negb _); [done|]. apply boundedPath_good. Qed.

Lemma matchNumber_pos s k : matchNumber s = Some k → (0 < k ≤ length s)%nat.
Proof.
  assert (Hle : ∀ f t, (leading f t ≤ length t)%nat).
  { intros f t. induction t as [|c t IH]; cbn; [lia|]. destruct (f c); lia. }
  destruct s as [|c s]; [done|]. unfold matchNumber. case_bool_decide.
  - destruct s as [|d rest]; [done|]. case_bool_decide; [intros [= <-]; cbn; lia|].
    destruct (_ && _) eqn:E; [|done]. intros [= <-]. apply andb_prop in E as [_ E%bool_decide_eq_true]. apply lookup_lt_Some in E. cbn. lia.
  - destruct (is_hash c) eqn:Eh; [|destruct (is_digit c) eqn:Ed; [|done]]; intros [= <-]; cbn [leading];
      [rewrite Eh; specialize (Hle is_hash s)|rewrite Ed; specialize (Hle is_digit s)]; cbn; lia.
Qed.

(** A match is never empty, and lies within the text. *)
Definition inText (stem : str) (r : option (nat * nat)) : Prop :=
  match r with Some (a, b) => (a < b ≤ length stem)%nat | None => True end.

Lemma lastNumberFrom_in stem fuel off s found :
  (off + length s = length stem)%nat → inText stem found → inText stem (lastNumberFrom fuel off s found).
Proof.
  revert off s found. induction fuel as [|n IH]; intros off s found Hl Hf; [by destruct s|]. destruct s as [|c s]; [done|].
  cbn [lastNumberFrom]. destruct (matchNumber (c :: s)) as [k|] eqn:E.
  - apply matchNumber_pos in E as [Hk Hle]. apply IH; [rewrite length_drop; lia|cbn [inText]; lia].
  - apply IH; [cbn in Hl; lia|done].
Qed.

Lemma paddedNumber_good n w : good (paddedNumber n w) (λ _, True).
Proof.
  unfold paddedNumber, zfillUnmetered. eapply (good_bind _ _ (λ _, True)); [|done]. unfold padLength. destruct (w <=? _); [done|].
  eapply good_bind; [apply checkRepeat_good|]. done.
Qed.

Lemma numberReplacement_good c n : c ≠ [] → good (numberReplacement c n) (λ _, True).
Proof.
  intros Hc. destruct c as [|x c]; [done|]. unfold numberReplacement. case_bool_decide.
  - unfold printfReplacement. destruct (take _ _); [done|]. destruct (Atoi _); [|done]. destruct (_ <? _); [done|]. apply paddedNumber_good.
  - destruct (is_hash x); [destruct (_ <? _); [done|]|]; apply paddedNumber_good.
Qed.

Lemma withNumber_good s n : good (withNumber s n) (λ _, True).
Proof.
  unfold withNumber. destruct (splitStemSuffix s) as [stem suffix].
  assert (H : inText stem (lastNumberMatch stem)) by (by apply lastNumberFrom_in).
  destruct (lastNumberMatch stem) as [[a b]|].
  - eapply good_bind; [apply numberReplacement_good|done]. intros E. apply (f_equal length) in E.
    rewrite length_take, length_drop in E. cbn in H, E. lia.
  - eapply good_bind; [apply paddedNumber_good|]. done.
Qed.

Lemma textsOf_good l : Forall (λ x, has x TString ∧ wf x) l → good (textsOf l) (λ _, True).
Proof.
  induction 1 as [|x l [Hx _] _ IH]; [done|]. destruct x; try done. cbn [textsOf AsStr res_bind]. eapply good_bind; [exact IH|]. done.
Qed.

(** A signature of one text whose function needs the evaluation's path format. *)
Lemma sound_format p c f :
  resolved p →
  (∀ ec b v, typed v (substitute p b) → good (f ec v) (λ v, answers v TPath)) →
  sound (costShape [p] TPath c (λ ec, fn1 (λ v, lift (f ec v)) ec)).
Proof.
  intros Hp Hf. apply sound_plain; [by repeat constructor|done|]. intros ec b args Hb Ha. eapply fn1_quiet; [exact Ha|].
  intros v Hv. apply quiet_lift. by eapply Hf.
Qed.

Lemma pathFuncs_sound : soundGroup pathFuncs.
Proof.
  unfold pathFuncs. group; table;
    try (apply pathShape_sound; [done|done|]; intros p; first [apply stringList_good|apply boundedPath_good|done]);
    try apply withShape_sound.
  - apply (sound_format TString _ (λ ec v, let? s := AsStr v in boundedPath s (pathFormat ec))); [done|].
    intros ec b v (s & ->)%typed_string. apply boundedPath_good.
  - apply (sound_format (TList TString) _ (λ ec v, let? l := AsList v in let? parts := textsOf l in
      boundedPath (PathString (pathFromParts parts (pathFormat ec))) (pathFormat ec))); [done|].
    intros ec b v (l & -> & Hl)%typed_elems; [|done]. cbn [AsList res_bind]. eapply good_bind; [by apply textsOf_good|].
    intros parts _. apply boundedPath_good.
  - apply sound_plain; [by repeat constructor|done|]. intros ec b args Hb Ha. apply quiet_lift, boundedPath_good.
  - apply withName_good.
  - intros p s. unfold withStem. destruct (splitStemSuffix (name p)) as [? u].
    case_bool_decide; [apply withName_good|]. case_bool_decide; [done|apply withName_good].
  - intros p s. unfold withSuffix. destruct (_ && _); [done|]. destruct (splitStemSuffix (name p)). apply withName_good.
  - binary. apply typed_path in Hv as (s & pf & ->). apply typed_int in Hw as (n & -> & _). cbn [pathOf AsInt res_bind].
    eapply good_bind; [apply withNumber_good|]. intros nm _. apply withName_good.
  - binary. apply typed_string in Hv as (s & ->). apply typed_int in Hw as (n & -> & _). cbn [AsStr AsInt res_bind].
    eapply good_bind; [apply withNumber_good|]. done.
  - binary. apply typed_path in Hv as (s & pf & ->). by apply typed_path in Hw as (u & qf & ->).
  - binary. apply typed_path in Hv as (s & pf & ->). apply typed_path in Hw as (u & qf & ->). unfold relativeTo. cbn [pathOf res_bind].
    destruct (relativeParts _ _ _); [apply boundedPath_good|done].
Qed.

Lemma pathMappingFuncs_sound : soundGroup pathMappingFuncs.
Proof.
  unfold pathMappingFuncs. group; table.
  apply (sound_format TString _ (λ ec v, let? s := AsStr v in boundedPath (mapPath s (pathMapping ec) (pathFormat ec)) (pathFormat ec))); [done|].
  intros ec b v (s & ->)%typed_string. apply boundedPath_good.
Qed.
End Sound.
