(* ===== verification/ExprRe.v ===== *)
(** * Regular expressions of the expression language

    src/internal/openjd/expr: the translation of a pattern into the syntax of Go's
    [regexp] (repattern.go), the cache of compiled patterns (recache.go) and the
    functions [re_match], [re_search], [re_findall], [re_sub], [re_escape] and
    [re_split] (funcsre.go).

    The engine of [regexp] is a parameter: what it compiles, and where a pattern
    matches first from an offset on ([doExecute]).  The loops of [regexp] around it,
    [allMatches], [replaceAll] and [Split], are written out.  A slice expression out
    of range is [EIndexPanic]. *)

From S2P Require Import Prelude StatusText GoText ExprType ExprFloat ExprValue ExprPath ExprArith ExprShape ExprOps ExprText ExprLib.
Open Scope Z_scope.

(** ** The translation of patterns *)

Definition backslash : ascii := "\"%char.
Definition is_byte (c d : ascii) : bool := bool_decide (c = d).

(** repattern.go [unicodeSpaceSet], [unicodeWordSet] *)
Definition unicodeSpaceSet : str := of_string "\t\n\v\f\r\x{0085}\x{2028}\x{2029}\p{Zs}".
Definition unicodeWordSet : str := of_string "\p{L}_\p{N}".

(** repattern.go [isHexDigit] *)
Definition isHexDigit (c : ascii) : bool :=
  let b := byte_val c in between 48 57 b || between 97 102 b || between 65 70 b.

(** repattern.go [rejectUnsupportedEscape]: whether the escape of [c], followed by
    [rest], is refused. *)
Definition rejectUnsupportedEscape (c : ascii) (rest : str) : bool :=
  is_byte c "z" || is_byte c "Z" || is_byte c "p" || is_byte c "P"
  || between 49 57 (byte_val c)
  || (is_byte c "x" || is_byte c "u" || is_byte c "U") && has_prefix (of_string "{") rest.

(** repattern.go [writeSetEscape] *)
Definition writeSetEscape (set : str) (inClass negate : bool) : res EErr str :=
  if inClass then if negate then Err EPanic else Ok set
  else Ok (of_string "[" ++ (if negate then of_string "^" else []) ++ set ++ of_string "]").

(** repattern.go [scanFixedHex]: the escape's text is [rest] after its letter. *)
Definition scanFixedHex (rest : str) (digits : nat) : res EErr (str * nat) :=
  let hex := take digits rest in
  if (length rest <? digits)%nat || negb (forallb isHexDigit hex) then Err EUnsupportedRegex
  else Ok (of_string "\x{" ++ hex ++ of_string "}", S digits).

(** repattern.go [scanEscape]: [s] follows the backslash.  The text written and
    how many bytes of [s] were read. *)
Definition scanEscape (s : str) (inClass : bool) : res EErr (str * nat) :=
  match s with
  | [] => Err EUnsupportedRegex
  | c :: rest =>
      let set text negate := let? out := writeSetEscape text inClass negate in Ok (out, 1%nat) in
      if rejectUnsupportedEscape c rest then Err EUnsupportedRegex
      else if is_byte c "u" then scanFixedHex rest 4
      else if is_byte c "U" then scanFixedHex rest 8
      else if is_byte c "d" then Ok (of_string "\p{Nd}", 1%nat)
      else if is_byte c "D" then Ok (of_string "\P{Nd}", 1%nat)
      else if is_byte c "w" then set unicodeWordSet false
      else if is_byte c "W" then set unicodeWordSet true
      else if is_byte c "s" then set unicodeSpaceSet false
      else if is_byte c "S" then set unicodeSpaceSet true
      else Ok ([backslash; c], 1%nat)
  end.

(** repattern.go [scanGroup]: whether the group that opens [s] is refused. *)
Definition refusedGroup (s : str) : bool :=
  existsb (λ p, has_prefix (of_string p) s) ["(?="; "(?!"; "(?<="; "(?<!"; "(?P="; "(?("; "(?<"]%string.

Definition scanGroup (s : str) : res EErr str := if refusedGroup s then Err EUnsupportedRegex else Ok (of_string "(").

(** The loop of [scanClassBody]: the members up to the closing bracket, and how many
    bytes were read with it. *)
Fixpoint classMembers (s : str) : res EErr (str * nat) :=
  match s with
  | [] => Err EUnsupportedRegex
  | c :: s' =>
      match is_byte c backslash, s' with
      | true, d :: s'' => let? (body, n) := classMembers s'' in Ok (c :: d :: body, S (S n))
      | _, _ =>
          if has_prefix (of_string "[:") s then Err EUnsupportedRegex
          else if is_byte c "]" then Ok ([], 1%nat)
          else let? (body, n) := classMembers s' in Ok (c :: body, S n)
      end
  end.

(** repattern.go [scanClassBody]: [s] follows the opening bracket. *)
Definition scanClassBody (s : str) : res EErr (str * bool * nat) :=
  let '(negated, s1) := match s with c :: s' => if is_byte c "^" then (true, s') else (false, s) | [] => (false, s) end in
  let '(first, s2) := match s1 with c :: s' => if is_byte c "]" then ([c], s') else ([], s1) | [] => ([], s1) end in
  let? (body, n) := classMembers s2 in
  Ok (first ++ body, negated, (length s - length s2 + n)%nat).

(** repattern.go [classNeedsAlternation] *)
Fixpoint classBranches (body : str) (negated sawW sawS : bool) : res EErr (list str) :=
  match body with
  | b :: body' =>
      if is_byte b backslash then
        match body' with
        | c :: rest =>
            if is_byte c "W" || is_byte c "S" then
              if negated then Err EUnsupportedRegex
              else if is_byte c "W" && negb sawW then
                let? out := classBranches rest negated true sawS in
                Ok ((of_string "[^" ++ unicodeWordSet ++ of_string "]") :: out)
              else if is_byte c "S" && negb sawS then
                let? out := classBranches rest negated sawW true in
                Ok ((of_string "[^" ++ unicodeSpaceSet ++ of_string "]") :: out)
              else classBranches rest negated sawW sawS
            else classBranches rest negated sawW sawS
        | [] => Ok []
        end
      else classBranches body' negated sawW sawS
  | [] => Ok []
  end.

Definition classNeedsAlternation (body : str) (negated : bool) : res EErr (list str) :=
  classBranches body negated false false.

(** repattern.go [translateClassBody]; the first [skip] bytes are read already. *)
Fixpoint translateClassFrom (skip : nat) (body : str) : res EErr str :=
  match body with
  | [] => Ok []
  | c :: body' =>
      match skip with
      | S k => translateClassFrom k body'
      | O =>
          if is_byte c backslash then
            let? (text, n) := scanEscape body' true in
            let? out := translateClassFrom n body' in
            Ok (text ++ out)
          else let? out := translateClassFrom 0 body' in Ok (c :: out)
      end
  end.

Definition translateClassBody (body : str) : res EErr str := translateClassFrom 0 body.

(** repattern.go [dashesAdjacentToDroppedShorthand]: the tokens of a class with
    their offsets, and the offsets of the dashes beside a dropped one. *)
Fixpoint classTokens (start : nat) (body : str) : list (nat * str * bool) :=
  match body with
  | [] => []
  | c :: body' =>
      match is_byte c backslash, body' with
      | true, d :: rest => (start, [c; d], is_byte d "W" || is_byte d "S") :: classTokens (S (S start)) rest
      | _, _ => (start, [c], false) :: classTokens (S start) body'
      end
  end.

Definition is_dash (t : nat * str * bool) : bool := bool_decide (t.1.2 = of_string "-").

Fixpoint dashesBeside (prev : option (nat * str * bool)) (tokens : list (nat * str * bool)) : list nat :=
  match tokens with
  | [] => []
  | t :: rest =>
      (if t.2 then
         (match prev with Some p => if is_dash p then [p.1.1] else [] | None => [] end)
         ++ match rest with n :: _ => if is_dash n then [n.1.1] else [] | [] => [] end
       else [])
      ++ dashesBeside (Some t) rest
  end.

Definition dashesAdjacentToDroppedShorthand (body : str) : list nat := dashesBeside None (classTokens 0 body).

(** repattern.go [classBodyWithout]; [i] is the offset of the byte in the body. *)
Fixpoint classWithoutFrom (escapeDash : list nat) (i skip : nat) (body : str) : res EErr str :=
  match body with
  | [] => Ok []
  | c :: body' =>
      match skip with
      | S k => classWithoutFrom escapeDash (S i) k body'
      | O =>
          match is_byte c backslash, body' with
          | true, d :: _ =>
              if is_byte d "W" || is_byte d "S" then classWithoutFrom escapeDash (S i) 1 body'
              else
                let? (text, n) := scanEscape body' true in
                let? out := classWithoutFrom escapeDash (S i) n body' in
                Ok (text ++ out)
          | _, _ =>
              let? out := classWithoutFrom escapeDash (S i) 0 body' in
              Ok ((if is_byte c "-" && bool_decide (i ∈ escapeDash) then of_string "\-" else [c]) ++ out)
          end
      end
  end.

Definition classBodyWithout (body : str) : res EErr str :=
  classWithoutFrom (dashesAdjacentToDroppedShorthand body) 0 0 body.

(** repattern.go [escapeLeadingCaret], [writeClassAlternation], [writeOrdinaryClass] *)
Definition escapeLeadingCaret (s : str) : str :=
  match s with c :: s' => if is_byte c "^" then of_string "\^" ++ s' else s | [] => s end.

Definition writeClassAlternation (body : str) (branches : list str) : res EErr str :=
  let? rest := classBodyWithout body in
  Ok (of_string "(?:" ++ join (of_string "|") branches
      ++ (if bool_decide (rest = []) then [] else of_string "|[" ++ escapeLeadingCaret rest ++ of_string "]")
      ++ of_string ")").

Definition writeOrdinaryClass (body : str) (negated : bool) : res EErr str :=
  let? inner := translateClassBody body in
  Ok (of_string "[" ++ (if negated then of_string "^" else []) ++ inner ++ of_string "]").

(** repattern.go [scanClass]: [s] follows the opening bracket. *)
Definition scanClass (s : str) : res EErr (str * nat) :=
  let? (body, negated, consumed) := scanClassBody s in
  let? branches := classNeedsAlternation body negated in
  let? text := match branches with
               | [] => writeOrdinaryClass body negated
               | _ => writeClassAlternation body branches
               end in
  Ok (text, consumed).

(** The loop of [translatePattern]; the first [skip] bytes are read already. *)
Fixpoint translateFrom (skip : nat) (pattern : str) : res EErr str :=
  match pattern with
  | [] => Ok []
  | c :: rest =>
      match skip with
      | S k => translateFrom k rest
      | O =>
          let? (text, n) :=
            (if is_byte c backslash then scanEscape rest false
             else if is_byte c "(" then let? text := scanGroup pattern in Ok (text, 0%nat)
             else if is_byte c "[" then scanClass rest
             else Ok ([c], 0%nat)) in
          let? out := translateFrom n rest in
          Ok (text ++ out)
      end
  end.

(** repattern.go [translatePattern] *)
Definition translatePattern (pattern : str) : res EErr str :=
  if bool_decide (pattern = []) then Err EEmptyPattern else translateFrom 0 pattern.

(** ** The engine *)

(** Go's [regexp]: [Compile], [String], [NumSubexp], and [doExecute], the leftmost
    match at or after an offset as one pair of offsets per group, the whole match
    first; a group that takes no part has negative ones. *)
Class Regexps := mkRegexps {
  Regexp : Type;
  Compile : str → option Regexp;
  RegexpString : Regexp → str;
  NumSubexp : Regexp → nat;
  doExecute : Regexp → str → nat → option (list (Z * Z));
}.

(** The width of the rune at an offset, none at the end. *)
Definition runeWidth (s : str) (pos : nat) : nat :=
  match drop pos s with [] => 0%nat | t => (DecodeRune t).2 end.

(** What [regexp] documents: a compiled pattern keeps its source, a match has a pair
    per group, the whole match begins at the offset or later and is made of whole
    runes, and the groups lie within the text. *)
Class RegexpLaws {engine : Regexps} := mkRegexpLaws {
  compiled_source p re : Compile p = Some re → RegexpString re = p;
  execute_pairs re s pos ms : doExecute re s pos = Some ms → length ms = S (NumSubexp re);
  execute_first re s pos a b ms : doExecute re s pos = Some ((a, b) :: ms) →
    Z.of_nat pos ≤ a ≤ b ∧ b ≤ Z.of_nat (length s)
    ∧ (b = Z.of_nat pos ∨ Z.of_nat (pos + runeWidth s pos) ≤ b);
  execute_groups re s pos ms a b : doExecute re s pos = Some ms → (a, b) ∈ ms →
    a < 0 ∨ 0 ≤ a ≤ b ∧ b ≤ Z.of_nat (length s);
}.
Arguments RegexpLaws engine : clear implicits.

(** A slice expression [s[a:b]]. *)
Definition sliceText (s : str) (a b : Z) : res EErr str :=
  if (0 <=? a) && (a <=? b) && (b <=? Z.of_nat (length s)) then Ok (take (Z.to_nat (b - a)) (drop (Z.to_nat a) s))
  else Err EIndexPanic.

Section Functions.
Context {engine : Regexps}.

(** [regexp.allMatches]: at most [n] matches.  Each round moves on, so that two
    rounds more than bytes are fuel enough. *)
Fixpoint allMatchesFrom (fuel : nat) (re : Regexp) (s : str) (n : Z) (pos : nat) (prevMatchEnd : Z) : list (list (Z * Z)) :=
  match fuel with
  | O => []
  | S f =>
      if (n <=? 0) || (length s <? pos)%nat then []
      else
        match doExecute re s pos with
        | Some (((a, b) :: _) as matches) =>
            let empty := b =? Z.of_nat pos in
            let accept := negb (empty && (a =? prevMatchEnd)) in
            let width := runeWidth s pos in
            let pos' := if empty then if (0 <? width)%nat then (pos + width)%nat else S (length s) else Z.to_nat b in
            if accept then matches :: allMatchesFrom f re s (n - 1) pos' b
            else allMatchesFrom f re s n pos' b
        | _ => []
        end
  end.

Definition allMatches (re : Regexp) (s : str) (n : Z) : list (list (Z * Z)) :=
  allMatchesFrom (length s + 2) re s n 0 (-1).

(** [regexp.FindAllStringIndex] *)
Definition FindAllStringIndex (re : Regexp) (s : str) (n : Z) : list (Z * Z) :=
  map (default (0, 0) ∘ head) (allMatches re s n).

(** [regexp.replaceAll] with a literal replacement: what follows [lastMatchEnd]. *)
Fixpoint replaceFrom (fuel : nat) (re : Regexp) (src repl : str) (searchPos : nat) (lastMatchEnd : Z) : res EErr str :=
  let rest := sliceText src lastMatchEnd (Z.of_nat (length src)) in
  match fuel with
  | O => rest
  | S f =>
      if (length src <? searchPos)%nat then rest
      else
        match doExecute re src searchPos with
        | Some ((a, b) :: _) =>
            let? before_ := sliceText src lastMatchEnd a in
            let new := if (lastMatchEnd <? b) || (a =? 0) then repl else [] in
            let width := runeWidth src searchPos in
            let searchPos' :=
              if b <? Z.of_nat (searchPos + width) then (searchPos + width)%nat
              else if b <? Z.of_nat searchPos + 1 then S searchPos
              else Z.to_nat b in
            let? after := replaceFrom f re src repl searchPos' b in
            Ok (before_ ++ new ++ after)
        | _ => rest
        end
  end.

Definition ReplaceAllLiteralString (re : Regexp) (src repl : str) : res EErr str :=
  replaceFrom (length src + 2) re src repl 0 0.

(** The loop of [regexp.Split]: [count] parts so far. *)
Fixpoint splitMatches (s : str) (n : Z) (matches : list (Z * Z)) (count beg end_ : Z) : res EErr (list str) :=
  let rest := if end_ =? Z.of_nat (length s) then Ok [] else let? p := sliceText s beg (Z.of_nat (length s)) in Ok [p] in
  match matches with
  | [] => rest
  | (a, b) :: matches' =>
      if (0 <? n) && (count =? n - 1) then rest
      else if b =? 0 then splitMatches s n matches' count b a
      else
        let? p := sliceText s beg a in
        let? ps := splitMatches s n matches' (count + 1) b a in
        Ok (p :: ps)
  end.

(** [regexp.Split] *)
Definition Split (re : Regexp) (s : str) (n : Z) : res EErr (list str) :=
  if n =? 0 then Ok []
  else if negb (bool_decide (RegexpString re = [])) && bool_decide (s = []) then Ok [[]]
  else splitMatches s n (FindAllStringIndex re s n) 0 0 0.

(** ** The functions *)

(** funcsre.go [compilePattern] *)
Definition compilePattern (pattern : str) : res EErr Regexp :=
  let? translated := translatePattern pattern in
  match Compile translated with Some re => Ok re | None => Err EInvalidRegex end.

(** The text of a group. *)
Definition groupText (s : str) (g : Z * Z) : res EErr str :=
  if g.1 <? 0 then Ok [] else sliceText s g.1 g.2.

Fixpoint groupTexts (s : str) (gs : list (Z * Z)) : res EErr (list str) :=
  match gs with
  | [] => Ok []
  | g :: gs' => let? t := groupText s g in let? ts := groupTexts s gs' in Ok (t :: ts)
  end.

(** funcsre.go [reFind] *)
Definition reFind (s pattern : str) (anchored : bool) : res EErr Value :=
  let? re := compilePattern pattern in
  match doExecute re s 0 with
  | None | Some [] => Ok VNull
  | Some ((a, b) :: gs) =>
      if anchored && negb (a =? 0) then Ok VNull
      else
        let? _ := checkElementCount (Z.of_nat (length ((a, b) :: gs))) in
        let? ts := groupTexts s ((a, b) :: gs) in
        Ok (ListValue TString (map VString ts))
  end.

(** [regexp.FindAllStringSubmatch] *)
Fixpoint matchTexts (s : str) (ms : list (list (Z * Z))) : res EErr (list (list str)) :=
  match ms with
  | [] => Ok []
  | m :: ms' => let? ts := groupTexts s m in let? rest := matchTexts s ms' in Ok (ts :: rest)
  end.

(** Element [i] of each match. *)
Fixpoint nthTexts (i : nat) (ms : list (list str)) : res EErr (list str) :=
  match ms with
  | [] => Ok []
  | m :: ms' =>
      match m !! i with
      | Some t => let? ts := nthTexts i ms' in Ok (t :: ts)
      | None => Err EIndexPanic
      end
  end.

(** The inner lists: the groups of each match. *)
Fixpoint innerLists (groups : nat) (ms : list (list str)) : res EErr (list Value) :=
  match ms with
  | [] => Ok []
  | m :: ms' =>
      if (length m <=? groups)%nat then Err EIndexPanic
      else let? vs := innerLists groups ms' in Ok (ListValue TString (map VString (take groups (drop 1 m))) :: vs)
  end.

(** funcsre.go [reFindAll] *)
Definition reFindAll (s pattern : str) : res EErr Value :=
  let? re := compilePattern pattern in
  let? matches := matchTexts s (allMatches re s (maxElements + 1)) in
  let? _ := checkElementCount (Z.of_nat (length matches)) in
  match NumSubexp re with
  | O => let? ts := nthTexts 0 matches in Ok (ListValue TString (map VString ts))
  | 1%nat => let? ts := nthTexts 1 matches in Ok (ListValue TString (map VString ts))
  | groups =>
      let? _ := checkRepeat (Z.of_nat groups) (Z.of_nat (length matches)) maxElements in
      let? vals := innerLists groups matches in
      Ok (ListValue (ListOf TString) vals)
  end.

(** funcsre.go [rejectGroupReferences]: whether the replacement is refused. *)
Fixpoint groupReference (skip : bool) (repl : str) : bool :=
  match repl with
  | [] => false
  | c :: rest =>
      if skip then groupReference false rest
      else if is_byte c backslash then
        match rest with d :: _ => is_digit d | [] => false end || has_prefix (of_string "g<") rest || groupReference true rest
      else if is_byte c "$" then
        match rest with d :: _ => is_digit d || is_byte d "{" | [] => false end || groupReference false rest
      else groupReference false rest
  end.

Definition rejectGroupReferences (repl : str) : res EErr unit :=
  if groupReference false repl then Err EGroupReference else Ok tt.

Definition matchedBytes (locs : list (Z * Z)) : Z := foldr (λ l n, l.2 - l.1 + n) 0 locs.

(** funcsre.go [reSub] *)
Definition reSub (s pattern repl : str) : res EErr Value :=
  let? _ := rejectGroupReferences repl in
  let? re := compilePattern pattern in
  let locs := FindAllStringIndex re s (maxElements + 1) in
  let? _ := checkElementCount (Z.of_nat (length locs)) in
  let? replTotal := checkRepeat (Z.of_nat (length repl)) (Z.of_nat (length locs)) maxStringBytes in
  let? _ := checkStringBytes (Z.of_nat (length s) - matchedBytes locs + replTotal) in
  let? out := ReplaceAllLiteralString re s repl in
  Ok (VString out).

(** funcsre.go [pySpecialChars], [reEscape] *)
Definition pySpecialChars : list Z :=
  map byte_val (of_string "()[]{}?*+-|^$\.&~# ") ++ [9; 10; 13; 11; 12].

Definition reEscape (s : str) : str :=
  concat (map (λ r, (if (r <? 128) && bool_decide (r ∈ pySpecialChars) then [backslash] else []) ++ EncodeRune r) (runes s)).

(** funcsre.go [reSplitUnlimited], [reSplit] *)
Definition reSplitUnlimited : Z := MaxInt.

Definition reSplit (s pattern : str) (maxsplit : Z) : res EErr Value :=
  let? re := compilePattern pattern in
  if maxsplit <? 0 then Ok (ListValue TString [VString s])
  else
    let n := if maxsplit <? maxElements then Z.min maxsplit (Z.of_nat (length s)) + 1 else maxElements + 1 in
    let? parts := Split re s n in
    stringList parts.

Definition reShape (params : list Ty) (ret : Ty) (f : Function_) : FnShape := costShape params ret (argBytes [0%nat]) f.

(** funcsre.go [reFuncs] *)
Definition reFuncs : list (string * list FnShape) :=
  [ ("re_match"%string, [reShape [TString; TString] (UnionOf [ListOf TString; TNull]) (onText2 (λ s p, reFind s p true))]);
    ("re_search"%string, [reShape [TString; TString] (UnionOf [ListOf TString; TNull]) (onText2 (λ s p, reFind s p false))]);
    ("re_findall"%string,
     [reShape [TString; TString] (UnionOf [ListOf TString; ListOf (ListOf TString)]) (onText2 reFindAll)]);
    ("re_sub"%string, [reShape [TString; TString; TString] TString (onText3 reSub)]);
    ("re_escape"%string, [textShape TString (λ s, boundedString (reEscape s))]);
    ("re_split"%string,
     [ reShape [TString; TString] (ListOf TString) (onText2 (λ s p, reSplit s p reSplitUnlimited));
       reShape [TString; TString; TInt] (ListOf TString)
         (fn3 (λ v w x, lift (let? s := AsStr v in let? p := AsStr w in let? n := AsInt x in reSplit s p n))) ]) ].

(** ** The cache *)

(** recache.go [maxCachedPatterns], [reCache] *)
Definition maxCachedPatterns : nat := 8.

Record reCache := mkCache {
  entries : gmap (list ascii) (res EErr Regexp);
  compiles : nat;
}.

Definition emptyCache : reCache := mkCache ∅ 0.

(** recache.go [compile] *)
Definition compile (c : reCache) (pattern : str) : reCache * res EErr Regexp :=
  match entries c !! pattern with
  | Some hit => (c, hit)
  | None =>
      let r := compilePattern pattern in
      if (maxCachedPatterns <=? size (entries c))%nat then (mkCache (entries c) (S (compiles c)), r)
      else (mkCache (<[pattern := r]> (entries c)) (S (compiles c)), r)
  end.

(** One evaluation's calls, in order. *)
Fixpoint compileAll (c : reCache) (patterns : list str) : reCache * list (res EErr Regexp) :=
  match patterns with
  | [] => (c, [])
  | p :: ps =>
      let '(c, r) := compile c p in
      let '(c, rs) := compileAll c ps in
      (c, r :: rs)
  end.
End Functions.
