(* ===== verification/ExprReSound.v ===== *)
(** * Regular expressions: what the translation, the functions and the cache promise

    The translation of a pattern does not panic, and text escaped by [re_escape]
    passes through it unchanged, alone or within a class.  The bound of [re_sub],
    computed from the matches before anything is built, is the length of the result.
    The cache of an evaluation answers what an uncached compilation does.  Every
    function answers a value of its declared type, given what [regexp] documents. *)

From S2P Require Import Prelude StatusText GoText ExprType ExprFloat ExprValue ExprCoerce ExprNarrow ExprPath ExprArith ExprShape ExprOps ExprQuiet ExprText ExprQuote ExprLib ExprEval ExprLibSound ExprRe.
Open Scope Z_scope.

(** ** The translation does not panic *)

(** No negated shorthand among the members of a class. *)
Fixpoint noShorthand (body : str) : bool :=
  match body with
  | b :: body' =>
      if is_byte b backslash then
        match body' with c :: rest => negb (is_byte c "W" || is_byte c "S") && noShorthand rest | [] => true end
      else noShorthand body'
  | [] => true
  end.

Lemma noShorthand_skip k s : forallb isHexDigit (take k s) = true → noShorthand s = true → noShorthand (drop k s) = true.
Proof.
  revert s. induction k as [|k IH]; intros s Hh Hs; [done|]. destruct s as [|c s]; [done|]. cbn in Hh |- *.
  apply andb_prop in Hh as [Hc Hh]. apply IH; [done|]. cbn [noShorthand] in Hs.
  destruct (is_byte c backslash) eqn:E; [|done]. apply bool_decide_eq_true in E as ->. discriminate Hc.
Qed.

Lemma classBranches_none body negated : classBranches body negated false false = Ok [] → noShorthand body = true.
Proof.
  intros H. remember false as sawW eqn:HW in H at 1. remember false as sawS eqn:HS in H.
  assert (Hlen : ∀ n b, (length b ≤ n)%nat → classBranches b negated sawW sawS = Ok [] → noShorthand b = true).
  { induction n as [|n IH]; intros b Hn Hb; destruct b as [|c b]; cbn in Hn; try done; [lia|].
    cbn [classBranches noShorthand] in *. destruct (is_byte c backslash); [|apply IH; [lia|done]].
    destruct b as [|d b]; [done|]. cbn in Hn. subst sawW sawS.
    destruct (is_byte d "W"), (is_byte d "S"), negated; cbn [orb andb negb] in Hb |- *; try discriminate Hb;
      try (apply IH; [lia|done]); by apply res_bind_ok in Hb as (? & _ & ?). }
  by eapply Hlen.
Qed.

Lemma scanFixedHex_good rest k : good (scanFixedHex rest k) (λ r, r.2 = S k ∧ forallb isHexDigit (take k rest) = true).
Proof.
  unfold scanFixedHex. destruct (_ <? _)%nat; [done|]. cbn [orb]. by destruct (forallb _ _).
Qed.

(** An escape that is no negated shorthand within a class is read to its end. *)
Lemma scanEscape_good s inClass :
  (inClass = true → match s with c :: _ => is_byte c "W" || is_byte c "S" = false | [] => True end) →
  good (scanEscape s inClass) (λ r, inClass = true → noShorthand (backslash :: s) = true → noShorthand (drop r.2 s) = true).
Proof.
  intros Hin. destruct s as [|c rest]; [done|]. unfold scanEscape.
  assert (Hneg : inClass = true → is_byte c "W" = false ∧ is_byte c "S" = false).
  { intros Hc. specialize (Hin Hc). by apply orb_false_iff in Hin. }
  assert (Hone : noShorthand (backslash :: c :: rest) = true → noShorthand (drop 1 (c :: rest)) = true).
  { cbn. intros H. by apply andb_prop in H as [_ H]. }
  assert (Hset : ∀ text neg, (inClass = true → neg = false) →
    good (let? out := writeSetEscape text inClass neg in Ok (out, 1%nat))
      (λ r, inClass = true → noShorthand (backslash :: c :: rest) = true → noShorthand (drop r.2 (c :: rest)) = true)).
  { intros text neg Hn. unfold writeSetEscape. destruct inClass; [rewrite (Hn eq_refl)|]; cbn [res_bind good snd]; auto. }
  assert (Hhex : ∀ k, good (scanFixedHex rest k)
      (λ r, inClass = true → noShorthand (backslash :: c :: rest) = true → noShorthand (drop r.2 (c :: rest)) = true)).
  { intros k. eapply good_weaken; [apply scanFixedHex_good|]. intros [t n] [-> Hh] _ Hs. cbn [fst snd drop] in *.
    apply noShorthand_skip; [done|]. by apply Hone. }
  destruct (rejectUnsupportedEscape c rest); [done|].
  destruct (is_byte c "u"); [apply Hhex|]. destruct (is_byte c "U"); [apply Hhex|].
  destruct (is_byte c "d"); [cbn [good snd]; auto|]. destruct (is_byte c "D"); [cbn [good snd]; auto|].
  destruct (is_byte c "w"); [by apply Hset|].
  destruct (is_byte c "W") eqn:EW; [apply Hset; intros Hc; apply Hneg in Hc as [Hc _]; congruence|].
  destruct (is_byte c "s"); [by apply Hset|].
  destruct (is_byte c "S") eqn:ES; [apply Hset; intros Hc; apply Hneg in Hc as [_ Hc]; congruence|].
  cbn [good snd]. auto.
Qed.

Lemma translateClassFrom_good skip body : noShorthand (drop skip body) = true → good (translateClassFrom skip body) (λ _, True).
Proof.
  revert skip. induction body as [|c body IH]; intros skip H; [done|]. cbn [translateClassFrom].
  destruct skip as [|k]; [|by apply IH]. cbn [drop] in H. destruct (is_byte c backslash) eqn:E.
  - apply bool_decide_eq_true in E as ->. eapply good_bind.
    + apply (scanEscape_good body true). intros _. destruct body as [|d rest]; [done|]. cbn in H.
      apply andb_prop in H as [H _]. by apply negb_true_iff in H.
    + intros [text n] Hn. eapply good_bind; [apply IH; by apply Hn|]. done.
  - cbn [noShorthand] in H. rewrite E in H. eapply good_bind; [by apply IH|]. done.
Qed.

Lemma classWithoutFrom_good esc i skip body : good (classWithoutFrom esc i skip body) (λ _, True).
Proof.
  revert i skip. induction body as [|c body IH]; intros i skip; [done|]. cbn [classWithoutFrom].
  destruct skip as [|k]; [|apply IH].
  assert (Hplain : ∀ t, good (let? out := classWithoutFrom esc (S i) 0 body in Ok (t ++ out)) (λ _ : str, True)).
  { intros t. eapply good_bind; [apply IH|]. done. }
  destruct (is_byte c backslash); [|apply Hplain]. destruct body as [|d rest]; [apply Hplain|].
  destruct (is_byte d "W" || is_byte d "S") eqn:E; [apply IH|].
  eapply good_bind; [apply scanEscape_good; by intros _|]. intros [text n] _. eapply good_bind; [apply IH|]. done.
Qed.

Lemma classMembers_good s : good (classMembers s) (λ _, True).
Proof.
  remember (length s) as n eqn:Hn. assert (Hle : (length s ≤ n)%nat) by lia. clear Hn. revert s Hle.
  induction n as [|n IH]; intros s Hle; destruct s as [|c s]; try done; cbn in Hle; [lia|]. cbn [classMembers].
  assert (Hplain : good (if has_prefix (of_string "[:") (c :: s) then Err EUnsupportedRegex
    else if is_byte c "]" then Ok ([], 1%nat)
    else let? (body, n) := classMembers s in Ok (c :: body, S n)) (λ _, True)).
  { destruct (has_prefix _ _); [done|]. destruct (is_byte c "]"); [done|]. eapply good_bind; [apply IH; lia|]. by intros []. }
  destruct (is_byte c backslash); [|apply Hplain]. destruct s as [|d s]; [apply Hplain|]. cbn in Hle.
  eapply good_bind; [apply IH; lia|]. by intros [].
Qed.

Lemma classBranches_good body negated sawW sawS : good (classBranches body negated sawW sawS) (λ _, True).
Proof.
  remember (length body) as n eqn:Hn. assert (Hle : (length body ≤ n)%nat) by lia. clear Hn. revert body sawW sawS Hle.
  induction n as [|n IH]; intros body sawW sawS Hle; destruct body as [|c body]; try done; cbn in Hle; [lia|]. cbn [classBranches].
  destruct (is_byte c backslash); [|apply IH; lia]. destruct body as [|d body]; [done|]. cbn in Hle.
  repeat (case_match; try done); try (apply IH; lia); (eapply good_bind; [apply IH; lia|]); done.
Qed.

Lemma scanClass_good s : good (scanClass s) (λ _, True).
Proof.
  unfold scanClass. eapply (good_bind _ _ (λ _, True)).
  { unfold scanClassBody. repeat case_match; (eapply good_bind; [apply classMembers_good|]); by intros []. }
  intros [[body negated] n] _. unfold classNeedsAlternation. destruct (classBranches body negated false false) as [bs|e] eqn:E.
  - cbn [res_bind]. eapply (good_bind _ _ (λ _, True)); [|done]. destruct bs as [|b bs].
    + unfold writeOrdinaryClass, translateClassBody. eapply good_bind; [|done]. apply translateClassFrom_good. by eapply classBranches_none.
    + unfold writeClassAlternation, classBodyWithout. eapply good_bind; [apply classWithoutFrom_good|]. done.
  - pose proof (classBranches_good body negated false false) as H. by rewrite E in H.
Qed.

Lemma translateFrom_good skip p : good (translateFrom skip p) (λ _, True).
Proof.
  revert skip. induction p as [|c p IH]; intros skip; [done|]. cbn [translateFrom]. destruct skip as [|k]; [|apply IH].
  eapply (good_bind _ _ (λ _, True)).
  - destruct (is_byte c backslash); [eapply good_weaken; [apply scanEscape_good; done|done]|].
    destruct (is_byte c "("); [unfold scanGroup; by destruct (refusedGroup _)|].
    destruct (is_byte c "["); [apply scanClass_good|done].
  - intros [text n] _. eapply good_bind; [apply IH|]. done.
Qed.

Lemma translatePattern_good p : good (translatePattern p) (λ _, True).
Proof. unfold translatePattern. case_bool_decide; [done|]. apply translateFrom_good. Qed.

(** ** Escaped text *)

Definition special (c : ascii) : bool := bool_decide (byte_val c ∈ pySpecialChars).

(** Text in which every special byte is after a backslash of its own. *)
Inductive escaped : str → Prop :=
  | escaped_nil : escaped []
  | escaped_pair c s : special c = true → escaped s → escaped (backslash :: c :: s)
  | escaped_plain c s : special c = false → escaped s → escaped (c :: s).

(** The text without the backslashes. *)
Fixpoint unescape (s : str) : str :=
  match s with
  | [] => []
  | c :: s' =>
      match is_byte c backslash, s' with
      | true, d :: rest => d :: unescape rest
      | _, _ => c :: unescape s'
      end
  end.

(** A special byte is no letter or digit, so that its escape has no meaning. *)
Lemma special_escape c s inClass : special c = true →
  scanEscape (c :: s) inClass = Ok ([backslash; c], 1%nat) ∧ is_byte c "W" || is_byte c "S" = false.
Proof.
  assert (H : ∀ c, special c = true →
    existsb (is_byte c) ["z"; "Z"; "p"; "P"; "x"; "u"; "U"; "d"; "D"; "w"; "W"; "s"; "S"]%char || between 49 57 (byte_val c) = false).
  { intros d Hd. destruct d as [[] [] [] [] [] [] [] []]; vm_compute in Hd |- *; congruence. }
  intros Hc. specialize (H c Hc). cbn [existsb] in H. unfold scanEscape, rejectUnsupportedEscape.
  repeat (apply orb_false_iff in H as [H ?] || idtac). repeat match goal with E : _ || _ = false |- _ => apply orb_false_iff in E as [? E] end.
  repeat match goal with E : is_byte c _ = false |- _ => rewrite E; clear E end.
  match goal with E : between _ _ _ = false |- _ => rewrite E end. done.
Qed.

Lemma plain_byte c : special c = false →
  is_byte c backslash = false ∧ is_byte c "(" = false ∧ is_byte c "[" = false ∧ is_byte c "]" = false ∧ is_byte c "^" = false.
Proof. intros H. repeat split; apply bool_decide_eq_false; intros ->; vm_compute in H; congruence. Qed.

Lemma escaped_app s t : escaped s → escaped t → escaped (s ++ t).
Proof. induction 1; intros Ht; [done|..]; cbn [app]; constructor; auto. Qed.

Lemma EncodeRune_high r : 128 ≤ r → valid r = true → Forall (λ c, special c = false) (EncodeRune r).
Proof.
  intros Hr Hv. unfold valid, between in Hv. unfold EncodeRune. replace (r <? 128) with false by lia.
  assert (Hb : ∀ z, 128 ≤ z < 256 → special (byte_chr z) = false).
  { intros z Hz. apply bool_decide_eq_false. rewrite byte_val_chr by lia. intros Hin.
    assert (Hlow : Forall (λ x, x < 128) pySpecialChars) by (vm_compute; repeat constructor).
    rewrite Forall_forall in Hlow. specialize (Hlow z Hin). lia. }
  assert (0 ≤ r mod 64 < 64 ∧ 0 ≤ r / 64 mod 64 < 64 ∧ 0 ≤ r / 4096 mod 64 < 64) by (repeat split; apply Z.mod_pos_bound; lia).
  destruct (r <? 2048) eqn:?; [|destruct (r <? 65536) eqn:?]; repeat constructor; apply Hb; try lia.
  - pose proof (Z.div_le_lower_bound r 64 2). pose proof (Z.div_lt_upper_bound r 64 32). lia.
  - pose proof (Z.div_pos r 4096). pose proof (Z.div_lt_upper_bound r 4096 16). lia.
  - pose proof (Z.div_pos r 262144). pose proof (Z.div_lt_upper_bound r 262144 5). lia.
Qed.

Lemma escaped_plains s t : Forall (λ c, special c = false) s → escaped t → escaped (s ++ t).
Proof. induction 1; intros Ht; [done|]; cbn [app]. apply escaped_plain; auto. Qed.

Lemma unescape_plains s t : Forall (λ c, special c = false) s → unescape (s ++ t) = s ++ unescape t.
Proof.
  induction 1 as [|c s Hc _ IH]; [done|]. cbn [app unescape]. destruct (plain_byte c Hc) as [-> _]. by rewrite IH.
Qed.

(** What [reEscape] writes for one rune. *)
Definition escapeRune (r : Z) : str := (if (r <? 128) && bool_decide (r ∈ pySpecialChars) then [backslash] else []) ++ EncodeRune r.

Lemma escapeRune_spec r t : valid r = true → escaped t →
  escaped (escapeRune r ++ t) ∧ unescape (escapeRune r ++ t) = EncodeRune r ++ unescape t ∧ escapeRune r ≠ [].
Proof.
  intros Hv Ht. unfold escapeRune. destruct (Z.ltb_spec r 128) as [Hr|Hr].
  - assert (HE : EncodeRune r = [byte_chr r]) by (unfold EncodeRune; by replace (r <? 128) with true by lia).
    rewrite HE. cbn [andb]. unfold valid, between in Hv. assert (Hb : byte_val (byte_chr r) = r) by (apply byte_val_chr; lia).
    destruct (bool_decide _) eqn:E; cbn [app].
    + split_and!; [apply escaped_pair; [unfold special; by rewrite Hb|done]|done|done].
    + assert (Hs : special (byte_chr r) = false) by (unfold special; by rewrite Hb).
      split_and!; [by apply escaped_plain| |done]. cbn [unescape]. by destruct (plain_byte _ Hs) as [-> _].
  - cbn [andb app]. pose proof (EncodeRune_high r Hr Hv) as Hp.
    split_and!; [by apply escaped_plains|by apply unescape_plains|]. pose proof (EncodeRune_pos r) as HL. unfold RuneLen in HL.
    intros E. rewrite E in HL. cbn in HL. lia.
Qed.

Lemma escapeRunes_spec rs : Forall (λ r, valid r = true) rs →
  escaped (concat (map escapeRune rs)) ∧ unescape (concat (map escapeRune rs)) = encode rs ∧ (rs ≠ [] → concat (map escapeRune rs) ≠ []).
Proof.
  induction 1 as [|r rs Hr _ (He & Hu & _)]; [split_and!; [constructor|done|done]|]. cbn [map concat].
  destruct (escapeRune_spec r _ Hr He) as (H1 & H2 & H3).
  split_and!; [done|by rewrite H2, Hu, encode_cons|]. intros _ E. apply app_eq_nil in E as [E _]. done.
Qed.

Lemma escaped_translates s : escaped s → translateFrom 0 s = Ok s.
Proof.
  induction 1 as [|c s Hc _ IH|c s Hc _ IH]; [done|..]; cbn [translateFrom].
  - destruct (special_escape c s false Hc) as [-> _]. change (is_byte backslash backslash) with true. cbn [res_bind translateFrom]. by rewrite IH.
  - destruct (plain_byte c Hc) as (-> & -> & -> & _). cbn [res_bind]. by rewrite IH.
Qed.

Lemma escaped_members s : escaped s →
  classMembers (s ++ of_string "]") = Ok (s, S (length s)) ∧ classBranches s false false false = Ok [] ∧ translateClassFrom 0 s = Ok s.
Proof.
  induction 1 as [|c s Hc _ (IH1 & IH2 & IH3)|c s Hc _ (IH1 & IH2 & IH3)]; [done|..]; cbn [classMembers app classBranches translateClassFrom].
  - destruct (special_escape c s true Hc) as [-> ->]. change (is_byte backslash backslash) with true. cbn [res_bind translateClassFrom]. rewrite IH1, IH3. done.
  - destruct (plain_byte c Hc) as (-> & _ & Hb & -> & _). rewrite IH1, IH2, IH3.
    assert (Hp : has_prefix (of_string "[:") (c :: s ++ of_string "]") = false).
    { cbn [of_string String.list_ascii_of_string has_prefix]. unfold is_byte in Hb. apply bool_decide_eq_false in Hb.
      apply andb_false_intro1. by apply bool_decide_eq_false. }
    by rewrite Hp.
Qed.

Lemma escaped_class s : s ≠ [] → escaped s → scanClass (s ++ of_string "]") = Ok (of_string "[" ++ s ++ of_string "]", S (length s)).
Proof.
  intros Hs He. destruct (escaped_members s He) as (H1 & H2 & H3). unfold scanClass, scanClassBody.
  assert (Hf : ∃ c t, s ++ of_string "]" = c :: t ∧ is_byte c "^" = false ∧ is_byte c "]" = false).
  { destruct He as [|c s Hc _|c s Hc _]; [done|by exists backslash, (c :: s ++ of_string "]")|].
    exists c, (s ++ of_string "]"). by destruct (plain_byte c Hc) as (_ & _ & _ & ? & ?). }
  destruct Hf as (c & t & Ht & E1 & E2). rewrite Ht, E1, E2, <-Ht, H1. cbn [res_bind app]. unfold classNeedsAlternation. rewrite H2.
  unfold writeOrdinaryClass, translateClassBody. cbn [res_bind]. rewrite H3. cbn [res_bind app]. by rewrite Nat.sub_diag.
Qed.

(** Text escaped by [re_escape] is safe in a pattern: every special byte follows a
    backslash of its own, so that without the backslashes the text is the runes that
    were escaped; and the translation into Go's syntax leaves it as it is, as a
    pattern and as the members of a class. *)
Theorem re_escape_passes s :
  s ≠ [] →
  escaped (reEscape s) ∧ runes (unescape (reEscape s)) = runes s ∧
  translatePattern (reEscape s) = Ok (reEscape s) ∧
  translatePattern (of_string "[" ++ reEscape s ++ of_string "]") = Ok (of_string "[" ++ reEscape s ++ of_string "]").
Proof.
  intros Hs. destruct (escapeRunes_spec (runes s) (runes_valid s)) as (He & Hu & Hn). change (concat (map escapeRune (runes s))) with (reEscape s) in *.
  assert (Hne : reEscape s ≠ []).
  { apply Hn. destruct s as [|c s]; [done|]. destruct (runes_cons c s) as (r & n & _ & ->). done. }
  split_and!; [done|rewrite Hu; apply runes_encode, runes_valid| |].
  - unfold translatePattern. rewrite bool_decide_false by done. by apply escaped_translates.
  - unfold translatePattern. rewrite bool_decide_false by done. cbn [of_string String.list_ascii_of_string app translateFrom].
    change (is_byte "[" backslash) with false. change (is_byte "[" "(") with false. change (is_byte "[" "[") with true. cbn match.
    change ["]"%char] with (of_string "]"). rewrite escaped_class by done. cbn [res_bind].
    assert (Hskip : ∀ t, translateFrom (length t) t = Ok []) by (intros t; by induction t as [|c t IH]).
    assert (HL : S (length (reEscape s)) = length (reEscape s ++ of_string "]")) by (rewrite length_app; cbn; lia).
    rewrite HL, Hskip. cbn [res_bind]. by rewrite app_nil_r.
Qed.

Lemma re_escape_passes_witness :
  translatePattern (reEscape (of_string "a-z[0]*")) = Ok (of_string "a\-z\[0\]\*") ∧ runes (unescape (of_string "a\-z\[0\]\*")) = runes (of_string "a-z[0]*").
Proof.
  destruct (re_escape_passes (of_string "a-z[0]*") ltac:(done)) as (_ & H1 & H2 & _). split; [exact H2|exact H1].
Defined.

(** ** The loops of the engine *)

Section Laws.
Context {engine : Regexps} {laws : RegexpLaws engine}.

Lemma runeWidth_zero s pos : runeWidth s pos = 0%nat → (length s ≤ pos)%nat.
Proof.
  unfold runeWidth. destruct (drop pos s) as [|c t] eqn:E.
  - intros _. apply (f_equal length) in E. rewrite length_drop in E. cbn in E. lia.
  - intros H. destruct (runes_cons c t) as (r & n & HD & _). rewrite HD in H. done.
Qed.

(** Where a round of either loop stands: before the first match, or after one. *)
Definition between_matches (s : str) (pos : nat) (prev last : Z) : Prop :=
  last ≤ Z.of_nat (length s) ∧ (pos = 0%nat ∧ prev = -1 ∧ last = 0 ∨ prev = last ∧ 0 ≤ last ≤ Z.of_nat pos ∧ (0 < pos)%nat).

(** The next offset of [allMatches], and that of [replaceAll]. *)
Definition nextPos (s : str) (pos : nat) (b : Z) : nat :=
  if b =? Z.of_nat pos then if (0 <? runeWidth s pos)%nat then (pos + runeWidth s pos)%nat else S (length s) else Z.to_nat b.

Lemma match_step re s pos a b ms prev last :
  (pos ≤ length s)%nat → between_matches s pos prev last → doExecute re s pos = Some ((a, b) :: ms) →
  0 ≤ last ≤ a ∧ a ≤ b ≤ Z.of_nat (length s) ∧ (pos < nextPos s pos b)%nat ∧ between_matches s (nextPos s pos b) b b ∧
  (if b <? Z.of_nat (pos + runeWidth s pos) then (pos + runeWidth s pos)%nat
   else if b <? Z.of_nat pos + 1 then S pos else Z.to_nat b) = nextPos s pos b ∧
  (last <? b) || (a =? 0) = negb ((b =? Z.of_nat pos) && (a =? prev)) ∧
  ((b =? Z.of_nat pos) && (a =? prev) = true → a = b).
Proof.
  intros Hpos (Hl & Hst) He. apply execute_first in He as (Hab & Hb & Hw). unfold nextPos.
  destruct (Z.eqb_spec b (Z.of_nat pos)) as [->|Hne].
  - destruct (Nat.ltb_spec 0 (runeWidth s pos)) as [Hp|Hp].
    + rewrite (proj2 (Z.ltb_lt _ _)) by lia. unfold between_matches. split_and!; try lia; cbn [andb]; destruct (_ =? prev) eqn:?; lia.
    + assert (Hz : runeWidth s pos = 0%nat) by lia. pose proof (runeWidth_zero s pos Hz).
      rewrite (proj2 (Z.ltb_ge _ _)) by lia. rewrite (proj2 (Z.ltb_lt _ _)) by lia.
      unfold between_matches. split_and!; try lia; cbn [andb]; destruct (_ =? prev) eqn:?; lia.
  - rewrite (proj2 (Z.ltb_ge _ _)) by lia. rewrite (proj2 (Z.ltb_ge b _)) by lia. unfold between_matches.
    split_and!; cbn [andb negb]; try lia; done.
Qed.

Lemma sliceText_ok s a b : 0 ≤ a ≤ b → b ≤ Z.of_nat (length s) →
  ∃ t, sliceText s a b = Ok t ∧ Z.of_nat (length t) = b - a.
Proof.
  intros Ha Hb. unfold sliceText. replace ((0 <=? a) && (a <=? b) && (b <=? Z.of_nat (length s))) with true by lia.
  eexists. split; [done|]. rewrite length_take, length_drop. lia.
Qed.

Lemma allMatchesFrom_step fuel re s n pos prev :
  allMatchesFrom (S fuel) re s n pos prev =
  (if (n <=? 0) || (length s <? pos)%nat then []
   else match doExecute re s pos with
        | Some (((a, b) :: _) as matches) =>
            if negb ((b =? Z.of_nat pos) && (a =? prev)) then matches :: allMatchesFrom fuel re s (n - 1) (nextPos s pos b) b
            else allMatchesFrom fuel re s n (nextPos s pos b) b
        | _ => []
        end).
Proof. done. Qed.

(** Rounds beyond the end change nothing. *)
Lemma allMatchesFrom_enough fuel re s n pos prev last :
  (length s + 2 ≤ fuel + pos)%nat → between_matches s pos prev last →
  allMatchesFrom (S fuel) re s n pos prev = allMatchesFrom fuel re s n pos prev.
Proof.
  revert n pos prev last. induction fuel as [|f IH]; intros n pos prev last Hf Hb.
  { rewrite allMatchesFrom_step. rewrite (proj2 (Nat.ltb_lt _ _)) by lia. by rewrite orb_true_r. }
  rewrite (allMatchesFrom_step f), (allMatchesFrom_step (S f)).
  destruct (n <=? 0); [done|]. cbn [orb]. destruct (Nat.ltb_spec (length s) pos) as [|Hp]; [done|].
  destruct (doExecute re s pos) as [[|[a b] ms]|] eqn:E; [done| |done].
  destruct (match_step re s pos a b ms prev last Hp Hb E) as (_ & _ & Hlt & Hb' & _).
  destruct (negb _); [f_equal|]; eapply IH; try done; lia.
Qed.

(** Both loops go through the same matches: the length of the result is what the
    matches leave, and a replacement for each. *)
Lemma replaceFrom_length fuel re s repl n pos prev last :
  between_matches s pos prev last → Z.of_nat (length (allMatchesFrom fuel re s n pos prev)) < n →
  ∃ out, replaceFrom fuel re s repl pos last = Ok out ∧
    Z.of_nat (length out) = Z.of_nat (length s) - last
      - matchedBytes (map (default (0, 0) ∘ head) (allMatchesFrom fuel re s n pos prev))
      + Z.of_nat (length repl) * Z.of_nat (length (allMatchesFrom fuel re s n pos prev)).
Proof.
  assert (Hrest : ∀ last, 0 ≤ last ≤ Z.of_nat (length s) → ∃ out, sliceText s last (Z.of_nat (length s)) = Ok out ∧
    Z.of_nat (length out) = Z.of_nat (length s) - last - matchedBytes [] + Z.of_nat (length repl) * 0).
  { intros k Hk. destruct (sliceText_ok s k (Z.of_nat (length s))) as (t & Ht & HL); [lia|lia|]. exists t. split; [done|]. cbn. lia. }
  revert n pos prev last. induction fuel as [|f IH]; intros n pos prev last Hb Hn.
  { cbn. apply Hrest. destruct Hb. lia. }
  rewrite allMatchesFrom_step in *. cbn [replaceFrom]. destruct (n <=? 0) eqn:En; [cbn in Hn; lia|]. cbn [orb] in *.
  destruct (Nat.ltb_spec (length s) pos) as [|Hp]; [apply Hrest; destruct Hb; lia|].
  destruct (doExecute re s pos) as [[|[a b] ms]|] eqn:E; [apply Hrest; destruct Hb; lia| |apply Hrest; destruct Hb; lia].
  destruct (match_step re s pos a b ms prev last Hp Hb E) as (Hla & Hab & _ & Hb' & Hnext & Hacc & Hrej).
  rewrite Hnext, Hacc. destruct (sliceText_ok s last a) as (t & -> & HL); [lia|lia|]. cbn [res_bind].
  destruct (_ && _); cbn [negb] in *.
  - destruct (IH n _ _ b Hb' Hn) as (out & -> & Hout). eexists. split; [done|]. rewrite !length_app. cbn [length]. specialize (Hrej eq_refl). lia.
  - cbn [length] in Hn. destruct (IH (n - 1) _ _ b Hb' ltac:(lia)) as (out & -> & Hout). eexists. split; [done|].
    set (locs := allMatchesFrom f re s (n - 1) (nextPos s pos b) b) in *.
    change (matchedBytes (map (default (0, 0) ∘ head) (((a, b) :: ms) :: locs)))
      with (b - a + matchedBytes (map (default (0, 0) ∘ head) locs)).
    rewrite !length_app. cbn [length]. lia.
Qed.

Lemma between_start s : between_matches s 0 (-1) 0.
Proof. split; [lia|]. by left. Qed.

Lemma FindAll_length re s n : length (FindAllStringIndex re s n) = length (allMatches re s n).
Proof. apply length_map. Qed.

(** The bound of [re_sub] is exact.  It is computed from the matches before
    anything is built, and it is the length of the result: the call answers the text
    with every match replaced when there are at most [maxElements] matches and that
    text fits, and refuses otherwise. *)
Theorem re_sub_bound_exact s pattern repl re :
  compilePattern pattern = Ok re → rejectGroupReferences repl = Ok tt →
  let locs := FindAllStringIndex re s (maxElements + 1) in
  if maxElements <? Z.of_nat (length locs) then reSub s pattern repl = Err ETooLarge
  else
    ∃ out, ReplaceAllLiteralString re s repl = Ok out ∧
      Z.of_nat (length out) = Z.of_nat (length s) - matchedBytes locs + Z.of_nat (length repl) * Z.of_nat (length locs) ∧
      reSub s pattern repl = if maxStringBytes <? Z.of_nat (length out) then Err ETooLarge else Ok (VString out).
Proof.
  intros Hre Hrepl locs. unfold reSub. rewrite Hrepl. cbn [res_bind]. rewrite Hre. cbn [res_bind]. fold locs.
  unfold checkElementCount. replace (Z.of_nat (length locs) <? 0) with false by lia. cbn [orb].
  destruct (Z.ltb_spec maxElements (Z.of_nat (length locs))) as [|Hn]; [done|]. cbn [res_bind].
  assert (Hlen : ∀ r, ∃ out, ReplaceAllLiteralString re s r = Ok out ∧ Z.of_nat (length out) =
    Z.of_nat (length s) - matchedBytes locs + Z.of_nat (length r) * Z.of_nat (length locs)).
  { intros r. unfold locs in *. rewrite FindAll_length in *.
    destruct (replaceFrom_length (length s + 2) re s r (maxElements + 1) 0 (-1) 0 (between_start s)) as (out & Ho & HL);
      [unfold allMatches in Hn; lia|]. exists out. split; [exact Ho|]. unfold FindAllStringIndex, allMatches. lia. }
  destruct (Hlen repl) as (out & Hout & HL). exists out. split_and!; [done|done|]. rewrite Hout.
  destruct (Hlen []) as (rest & _ & Hrest). cbn [length] in Hrest.
  unfold checkRepeat. destruct ((_ <=? 0) || (_ <=? 0)) eqn:Ez; cbn [res_bind].
  - unfold checkStringBytes. assert (Hz : Z.of_nat (length repl) * Z.of_nat (length locs) = 0) by nia.
    replace (Z.of_nat (length s) - matchedBytes locs + 0) with (Z.of_nat (length out)) by lia.
    replace (Z.of_nat (length out) <? 0) with false by lia. cbn [orb]. by destruct (_ <? _).
  - destruct (Z.ltb_spec (Z.quot maxStringBytes (Z.of_nat (length repl))) (Z.of_nat (length locs))) as [Hq|Hq]; cbn [res_bind].
    + replace (maxStringBytes <? Z.of_nat (length out)) with true; [done|]. symmetry. apply Z.ltb_lt.
      rewrite Z.quot_div_nonneg in Hq by (unfold maxStringBytes; lia).
      pose proof (Z.mul_succ_div_gt maxStringBytes (Z.of_nat (length repl)) ltac:(lia)). nia.
    + unfold checkStringBytes. rewrite <-HL. replace (Z.of_nat (length out) <? 0) with false by lia. cbn [orb]. by destruct (_ <? _).
Qed.

(** ** The matches *)

Lemma allMatchesFrom_in fuel re s n pos prev m :
  m ∈ allMatchesFrom fuel re s n pos prev → ∃ p, doExecute re s p = Some m.
Proof.
  revert n pos prev. induction fuel as [|f IH]; intros n pos prev Hm; [by apply not_elem_of_nil in Hm|].
  rewrite allMatchesFrom_step in Hm. destruct (_ || _); [by apply not_elem_of_nil in Hm|].
  destruct (doExecute re s pos) as [[|[a b] ms]|] eqn:E; try by apply not_elem_of_nil in Hm.
  destruct (negb _); [|by eapply IH]. apply elem_of_cons in Hm as [->|Hm]; [by exists pos|by eapply IH].
Qed.

(** Matches follow one another within the text. *)
Fixpoint ordered (s : str) (from : Z) (locs : list (Z * Z)) : Prop :=
  match locs with
  | [] => 0 ≤ from ≤ Z.of_nat (length s)
  | (a, b) :: locs' => 0 ≤ from ≤ a ∧ a ≤ b ∧ ordered s b locs'
  end.

Lemma ordered_from s from from' locs : 0 ≤ from' ≤ from → ordered s from locs → ordered s from' locs.
Proof. destruct locs as [|[a b] locs]; cbn; [lia|]. intros ? (? & ? & ?). split_and!; [lia|lia|lia|done]. Qed.

Lemma ordered_in s from locs : ordered s from locs → 0 ≤ from ≤ Z.of_nat (length s).
Proof. revert from. induction locs as [|[a b] locs IH]; intros from; cbn; [done|]. intros (? & ? & H%IH). lia. Qed.

Lemma allMatchesFrom_ordered fuel re s n pos prev last :
  between_matches s pos prev last → ordered s last (map (default (0, 0) ∘ head) (allMatchesFrom fuel re s n pos prev)).
Proof.
  revert n pos prev last. induction fuel as [|f IH]; intros n pos prev last Hb; [destruct Hb; cbn; lia|].
  rewrite allMatchesFrom_step. destruct (_ <=? _); [destruct Hb; cbn; lia|]. cbn [orb].
  destruct (Nat.ltb_spec (length s) pos) as [|Hp]; [destruct Hb; cbn; lia|].
  destruct (doExecute re s pos) as [[|[a b] ms]|] eqn:E; [destruct Hb; cbn; lia| |destruct Hb; cbn; lia].
  destruct (match_step re s pos a b ms prev last Hp Hb E) as (Hla & Hab & _ & Hb' & _).
  destruct (negb _); [|eapply ordered_from; [|by apply IH]; lia]. cbn. split_and!; [lia|lia|lia|]. by apply IH.
Qed.

Lemma execute_ok re s p ms : doExecute re s p = Some ms →
  Forall (λ g, g.1 < 0 ∨ 0 ≤ g.1 ≤ g.2 ∧ g.2 ≤ Z.of_nat (length s)) ms ∧ length ms = S (NumSubexp re).
Proof.
  intros H. split; [|by eapply execute_pairs]. apply Forall_forall. intros [a b] Hg. by eapply execute_groups.
Qed.

Lemma groupTexts_good s gs : Forall (λ g, g.1 < 0 ∨ 0 ≤ g.1 ≤ g.2 ∧ g.2 ≤ Z.of_nat (length s)) gs →
  good (groupTexts s gs) (λ ts, length ts = length gs).
Proof.
  induction 1 as [|[a b] gs Hg _ IH]; [done|]. cbn [groupTexts fst snd] in *.
  eapply (good_bind _ _ (λ _, True)).
  - unfold groupText. cbn [fst snd]. destruct (Z.ltb_spec a 0); [done|]. destruct Hg as [|[? ?]]; [lia|].
    by destruct (sliceText_ok s a b) as (t & -> & _).
  - intros t _. eapply good_bind; [exact IH|]. intros ts Hts. cbn. by rewrite Hts.
Qed.

Lemma matchTexts_good re s ms : (∀ m, m ∈ ms → ∃ p, doExecute re s p = Some m) →
  good (matchTexts s ms) (Forall (λ ts, length ts = S (NumSubexp re))).
Proof.
  induction ms as [|m ms IH]; intros H; [by constructor|]. cbn [matchTexts].
  destruct (H m) as (p & Hp); [set_solver|]. apply execute_ok in Hp as [Hg HL].
  eapply good_bind; [by apply groupTexts_good|]. intros ts Hts. eapply good_bind; [apply IH; set_solver|].
  intros rest Hr. constructor; [congruence|done].
Qed.

Lemma compilePattern_good p : good (compilePattern p) (λ _, True).
Proof.
  unfold compilePattern. eapply good_bind; [apply translatePattern_good|]. intros t _. by destruct (Compile t).
Qed.

(** A list of strings for the declared union. *)
Lemma texts_union ts u : u = TNull ∨ u = TList (TList TString) → answers (ListValue TString (map VString ts)) (UnionOf [ListOf TString; u]).
Proof.
  intros Hu. apply (union_answers _ (TList TString)); [|by left|apply strings_answer]. destruct Hu as [->| ->]; by repeat constructor.
Qed.

Lemma reFind_good s p anchored : good (reFind s p anchored) (λ v, answers v (UnionOf [ListOf TString; TNull])).
Proof.
  unfold reFind. eapply good_bind; [apply compilePattern_good|]. intros re _.
  assert (Hnull : answers VNull (UnionOf [ListOf TString; TNull])) by (apply (union_answers _ TNull); [by repeat constructor|right; by left|done]).
  destruct (doExecute re s 0) as [[|[a b] gs]|] eqn:E; [done| |done]. apply execute_ok in E as [Hg _].
  destruct (_ && _); [done|]. eapply good_bind; [apply checkElementCount_good|]. intros _ _.
  eapply good_bind; [by apply groupTexts_good|]. intros ts _. apply texts_union. by left.
Qed.

Lemma nthTexts_good i k ms : (i < k)%nat → Forall (λ ts : list str, length ts = k) ms → good (nthTexts i ms) (λ _, True).
Proof.
  intros Hi. induction 1 as [|m ms Hm _ IH]; [done|]. cbn [nthTexts]. destruct (m !! i) eqn:E; [|apply lookup_ge_None in E; lia].
  eapply good_bind; [exact IH|]. done.
Qed.

Lemma innerLists_good k ms : Forall (λ ts : list str, length ts = S k) ms →
  good (innerLists k ms) (Forall (λ v, answers v (TList TString))).
Proof.
  induction 1 as [|m ms Hm _ IH]; [by constructor|]. cbn [innerLists]. rewrite (proj2 (Nat.leb_gt _ _)) by lia.
  eapply good_bind; [exact IH|]. intros vs Hvs. constructor; [apply strings_answer|done].
Qed.

Lemma reFindAll_good s p : good (reFindAll s p) (λ v, answers v (UnionOf [ListOf TString; ListOf (ListOf TString)])).
Proof.
  unfold reFindAll. eapply good_bind; [apply compilePattern_good|]. intros re _.
  eapply good_bind; [apply (matchTexts_good re); intros m; apply allMatchesFrom_in|]. intros ms Hms.
  eapply good_bind; [apply checkElementCount_good|]. intros _ _.
  destruct (NumSubexp re) as [|[|k]].
  - eapply good_bind; [eapply nthTexts_good; [|exact Hms]; lia|]. intros ts _. apply texts_union. by right.
  - eapply good_bind; [eapply nthTexts_good; [|exact Hms]; lia|]. intros ts _. apply texts_union. by right.
  - eapply good_bind; [apply checkRepeat_good|]. intros _ _. eapply good_bind; [by apply innerLists_good|]. intros vs Hvs.
    apply (union_answers _ (TList (TList TString))); [by repeat constructor|right; by left|]. apply (list_answers (TList TString)); [done|].
    eapply Forall_impl; [exact Hvs|]. by intros x (? & ? & ?).
Qed.

Lemma allMatchesFrom_length fuel re s n pos prev : (length (allMatchesFrom fuel re s n pos prev) ≤ fuel)%nat.
Proof.
  revert n pos prev. induction fuel as [|f IH]; intros n pos prev; [done|]. rewrite allMatchesFrom_step.
  repeat case_match; cbn [length]; try lia; [apply le_n_S, IH|apply le_S, IH].
Qed.

Lemma reSub_good s p repl : good (reSub s p repl) (λ v, answers v TString).
Proof.
  unfold reSub. destruct (rejectGroupReferences repl) as [[]|e] eqn:Er; [|unfold rejectGroupReferences in Er; destruct (groupReference _ _); [by injection Er as <-|done]].
  destruct (compilePattern p) as [re|e] eqn:Ec; [|pose proof (compilePattern_good p) as H; by rewrite Ec in H].
  cbn [res_bind]. eapply good_bind; [apply checkElementCount_good|]. intros _ _.
  eapply good_bind; [apply checkRepeat_good|]. intros k _. eapply good_bind; [apply checkStringBytes_good|]. intros _ _.
  pose proof (allMatchesFrom_length (length s + 2) re s (Z.of_nat (length s + 2) + 1) 0 (-1)) as Hn.
  destruct (replaceFrom_length (length s + 2) re s repl (Z.of_nat (length s + 2) + 1) 0 (-1) 0 (between_start s)) as (out & Ho & _); [lia|].
  unfold ReplaceAllLiteralString. by rewrite Ho.
Qed.

Lemma splitMatches_good s n locs count beg end_ : ordered s beg locs → good (splitMatches s n locs count beg end_) (λ _, True).
Proof.
  revert count beg end_. induction locs as [|[a b] locs IH]; intros count beg end_ Ho; cbn [splitMatches].
  - destruct (_ =? _); [done|]. cbn in Ho. by destruct (sliceText_ok s beg (Z.of_nat (length s))) as (t & -> & _); [lia|lia|].
  - pose proof (ordered_in _ _ _ Ho) as Hin. cbn in Ho. destruct Ho as (Hbeg & Hab & Ho). pose proof (ordered_in _ _ _ Ho).
    destruct (_ && _).
    + destruct (_ =? _); [done|]. by destruct (sliceText_ok s beg (Z.of_nat (length s))) as (t & -> & _); [lia|lia|].
    + destruct (b =? 0); [by apply IH|]. destruct (sliceText_ok s beg a) as (t & -> & _); [lia|lia|].
      cbn [res_bind]. eapply good_bind; [by apply IH|]. done.
Qed.

Lemma reSplit_good s p n : good (reSplit s p n) (λ v, answers v (TList TString)).
Proof.
  unfold reSplit. eapply good_bind; [apply compilePattern_good|]. intros re _. destruct (n <? 0); [apply (strings_answer [s])|].
  eapply (good_bind _ _ (λ _, True)); [|intros parts _; apply stringList_good].
  unfold Split. destruct (_ =? 0); [done|]. destruct (_ && _); [done|].
  apply splitMatches_good. apply allMatchesFrom_ordered, between_start.
Qed.

Lemma reFuncs_sound : soundGroup reFuncs.
Proof.
  unfold reFuncs. group; table.
  - apply textShape2_sound; [by apply UnionOf_resolved; repeat constructor|done|]. intros s p. apply reFind_good.
  - apply textShape2_sound; [by apply UnionOf_resolved; repeat constructor|done|]. intros s p. apply reFind_good.
  - apply textShape2_sound; [by apply UnionOf_resolved; repeat constructor|done|]. intros s p. apply reFindAll_good.
  - apply sound_plain; [by repeat constructor|done|]. intros ec b args Hb Ha. eapply fn3_quiet; [exact Ha|].
    intros v w u (s & ->)%typed_string (o & ->)%typed_string (r & ->)%typed_string. apply quiet_lift, reSub_good.
  - apply textShape_sound; [done|done|]. intros s. apply boundedString_good.
  - apply textShape2_sound; [done|done|]. intros s p. apply reSplit_good.
  - apply sound_plain; [by repeat constructor|done|]. intros ec b args Hb Ha. eapply fn3_quiet; [exact Ha|].
    intros v w u (s & ->)%typed_string (o & ->)%typed_string (n & -> & _)%typed_int. apply quiet_lift, reSplit_good.
Qed.
End Laws.

(** ** The cache *)

Section Cache.
Context {engine : Regexps}.

(** The entries are answers of the compiler, and at most [maxCachedPatterns]. *)
Definition consistent (c : reCache) : Prop :=
  (∀ p r, entries c !! p = Some r → r = compilePattern p) ∧ (size (entries c) ≤ maxCachedPatterns)%nat.

Lemma compile_consistent c p : consistent c → consistent (compile c p).1 ∧ (compile c p).2 = compilePattern p.
Proof.
  intros [Hc Hs]. unfold compile. destruct (entries c !! p) as [r|] eqn:E; [split; [done|by apply Hc]|].
  destruct (Nat.leb_spec maxCachedPatterns (size (entries c))); cbn [fst snd]; (split; [|done]); split; cbn [entries]; try done.
  - intros q r Hq. apply lookup_insert_Some in Hq as [[<- <-]|[_ Hq]]; [done|by apply Hc].
  - rewrite map_size_insert_None by done. lia.
Qed.

Lemma compileAll_consistent c ps : consistent c → consistent (compileAll c ps).1 ∧ (compileAll c ps).2 = map compilePattern ps.
Proof.
  revert c. induction ps as [|p ps IH]; intros c Hc; [done|]. cbn [compileAll map].
  destruct (compile_consistent c p Hc) as [Hc' Hr]. destruct (compile c p) as [c' r]. cbn [fst snd] in *. subst r.
  destruct (IH c' Hc') as [Hc'' Hrs]. destruct (compileAll c' ps) as [c'' rs]. cbn [fst snd] in *. by subst rs.
Qed.

Definition distinct (ps : list str) : gset (list ascii) := list_to_set ps.

(** With room for every pattern, each is compiled once. *)
Lemma compileAll_counts c ps :
  compiles c = size (dom (entries c)) → (size (dom (entries c) ∪ distinct ps) ≤ maxCachedPatterns)%nat →
  compiles (compileAll c ps).1 = size (dom (entries c) ∪ distinct ps).
Proof.
  revert c. induction ps as [|p ps IH]; intros c Hc Hs; cbn [compileAll distinct list_to_set fst] in *; [by rewrite union_empty_r_L|].
  unfold compile. destruct (entries c !! p) as [r|] eqn:E.
  - assert (Hd : dom (entries c) ∪ distinct (p :: ps) = dom (entries c) ∪ distinct ps).
    { unfold distinct. cbn [list_to_set]. apply elem_of_dom_2 in E. set_solver. }
    unfold distinct in *. cbn [list_to_set] in *. rewrite Hd in *. specialize (IH c Hc Hs). by destruct (compileAll c ps).
  - apply not_elem_of_dom in E.
    assert (Hlt : (size (entries c) < maxCachedPatterns)%nat).
    { rewrite <-(size_dom (D := gset (list ascii))). eapply Nat.lt_le_trans; [|exact Hs]. apply subset_size. set_solver. }
    rewrite (proj2 (Nat.leb_gt _ _)) by done.
    set (c' := mkCache (<[p:=compilePattern p]> (entries c)) (S (compiles c))).
    assert (Hd : dom (entries c') = {[p]} ∪ dom (entries c)) by apply dom_insert_L.
    assert (Hu : dom (entries c') ∪ distinct ps = dom (entries c) ∪ ({[p]} ∪ list_to_set ps)) by (rewrite Hd; unfold distinct; set_solver).
    specialize (IH c'). rewrite Hu in IH. destruct (compileAll c' ps) as [c'' rs]. cbn [fst] in *. apply IH; [|done].
    rewrite Hd, size_union by set_solver. rewrite size_singleton, <-Hc. reflexivity.
Qed.

(** The cache of an evaluation changes no answer: whatever the sequence of
    patterns, each call answers what an uncached compilation would, an error
    included; at most [maxCachedPatterns] are kept; and as long as there are no more
    than that, each distinct pattern is compiled once. *)
Theorem cache_transparent ps :
  (compileAll emptyCache ps).2 = map compilePattern ps ∧
  (size (entries (compileAll emptyCache ps).1) ≤ maxCachedPatterns)%nat ∧
  ((size (distinct ps) ≤ maxCachedPatterns)%nat → compiles (compileAll emptyCache ps).1 = size (distinct ps)).
Proof.
  assert (He : consistent emptyCache) by (split; [by intros p r|cbn [entries emptyCache]; rewrite map_size_empty; unfold maxCachedPatterns; lia]).
  destruct (compileAll_consistent emptyCache ps He) as [[_ Hs] Hr]. split_and!; [done|done|]. intros Hle.
  pose proof (compileAll_counts emptyCache ps) as H. cbn [entries emptyCache] in H. rewrite dom_empty_L, union_empty_l_L, size_empty in H.
  by apply H.
Qed.
End Cache.

(** ** An engine *)

(** The engine restricted to two patterns: any rune, and an empty group. *)
Definition smallEngine : Regexps :=
  mkRegexps bool
    (λ p, if bool_decide (p = of_string "(?s).") then Some true else if bool_decide (p = of_string "()") then Some false else None)
    (λ re, of_string (if re then "(?s)." else "()"))
    (λ re, if re then 0%nat else 1%nat)
    (λ re s pos,
       if re then
         if (0 <? runeWidth s pos)%nat then Some [(Z.of_nat pos, Z.of_nat (pos + runeWidth s pos))] else None
       else if (pos <=? length s)%nat then Some [(Z.of_nat pos, Z.of_nat pos); (Z.of_nat pos, Z.of_nat pos)] else None).

Lemma runeWidth_in s pos : (0 < runeWidth s pos → pos + runeWidth s pos ≤ length s)%nat.
Proof.
  unfold runeWidth. destruct (drop pos s) as [|c t] eqn:E; [lia|]. intros _.
  assert (HL : length (drop pos s) = S (length t)) by (by rewrite E). rewrite length_drop in HL.
  assert (H : ((DecodeRune (c :: t)).2 ≤ S (length t))%nat); [|lia].
  unfold DecodeRune. cbn [fmap list_fmap].
  destruct t as [|d [|e [|f t]]]; cbn [fmap list_fmap length]; repeat case_match; cbn [snd]; lia.
Qed.

#[export] Instance smallEngine_laws : RegexpLaws smallEngine.
Proof.
  constructor; cbn [Regexp Compile RegexpString NumSubexp doExecute smallEngine].
  - intros p re. repeat case_bool_decide; intros [= <-]; done.
  - intros [] s pos ms; destruct (_ : bool); intros [= <-]; done.
  - intros [] s pos a b ms He; [destruct (Nat.ltb_spec 0 (runeWidth s pos)) as [H|]|destruct (Nat.leb_spec pos (length s))]; simplify_eq.
    + apply runeWidth_in in H. lia.
    + lia.
  - intros [] s pos ms a b He Hin; [destruct (Nat.ltb_spec 0 (runeWidth s pos)) as [H|]|destruct (Nat.leb_spec pos (length s))]; simplify_eq.
    + apply runeWidth_in in H. apply list_elem_of_singleton in Hin. simplify_eq. lia.
    + rewrite elem_of_cons, list_elem_of_singleton in Hin. destruct Hin; simplify_eq; lia.
Qed.

Lemma re_sub_bound_exact_witness :
  @reSub smallEngine (of_string "abc") (of_string "()") (of_string "-") = Ok (VString (of_string "-a-b-c-")).
Proof.
  pose proof (@re_sub_bound_exact smallEngine _ (of_string "abc") (of_string "()") (of_string "-") false eq_refl eq_refl) as H.
  cbv zeta in H. assert (Hl : (maxElements <? Z.of_nat (length (@FindAllStringIndex smallEngine false (of_string "abc") (maxElements + 1)))) = false) by reflexivity.
  rewrite Hl in H. destruct H as (out & Ho & _ & H). vm_compute in Ho. injection Ho as <-. rewrite H. reflexivity.
Defined.
