(* ===== verification/ExprSound.v ===== *)
(** * Evaluation is safe and its memory count exact

    The evaluator of src/internal/openjd/expr (ExprEval), run on a well-formed
    syntax tree, symbol table and function table:
    - it never reads the payload of another type, and never indexes out of range
      when the steps of its slices are absent or small literals;
    - what it returns is well-formed and conforms to the target type;
    - without placeholders it returns no placeholder, and when it ends the count of
      live bytes is the size of the result: every intermediate value has been
      released exactly once.

    [wpAt strict cap c Φ m] runs [c] on the meter [m]: it ends in [Φ], or in an error that is
    not a panic, and in both cases with a valid meter. *)

From S2P Require Import Prelude StatusText GoText IntRange RangeExpr ExprType ExprFloat ExprValue ExprRange ExprCoerce ExprNarrow ExprPath ExprArith ExprShape ExprOps ExprQuiet ExprEval.
Open Scope Z_scope.

(** ** Well-formed trees *)

(** The value of an integer literal, negated or not. *)
Definition litValue (n : Node) : option Z :=
  match n with
  | IntLit _ k => Some k
  | Unary _ OpNeg (IntLit _ k) => Some (- k)
  | _ => None
  end.

(** A step that is absent, or a literal of at most [2^62]. *)
Definition smallStep (n : option Node) : Prop :=
  match n with
  | None => True
  | Some n => match litValue n with Some k => in_int k ∧ k ≤ 2 ^ 62 | None => False end
  end.

(** What the parser guarantees: literals fit, a name has a part, and a comparison
    has one operand more than operators.  A [strict] tree has small slice steps besides. *)
Fixpoint wfNode (strict : bool) (n : Node) : Prop :=
  let all := foldr (λ x P, wfNode strict x ∧ P) True in
  let opt x := match x with Some y => wfNode strict y | None => True end in
  match n with
  | IntLit _ i => in_int i
  | FloatLit _ f => finite f = true
  | StringLit _ _ | BoolLit _ _ | NullLit _ => True
  | Name _ parts => parts ≠ []
  | Unary _ _ x | Access _ x _ => wfNode strict x
  | Binary _ _ l r | Logical _ _ l r | Index _ l r => wfNode strict l ∧ wfNode strict r
  | Compare _ ops operands offsets =>
      length operands = S (length ops) ∧ length offsets = length ops ∧ all operands
  | Cond _ t i e => wfNode strict t ∧ wfNode strict i ∧ wfNode strict e
  | ListLit _ elems => all elems
  | Slice _ x a b c =>
      (strict = true → smallStep c) ∧ wfNode strict x ∧ opt a ∧ opt b ∧ opt c
  | ListComp _ e _ _ iter cond => wfNode strict e ∧ wfNode strict iter ∧ opt cond
  | Call _ callee args => wfNode strict callee ∧ all args
  end.

Lemma wfNodes strict l : foldr (λ x P, wfNode strict x ∧ P) True l ↔ Forall (wfNode strict) l.
Proof. induction l as [|x l IH]; cbn [foldr]; [by split|]. by rewrite IH, Forall_cons. Qed.

(** ** Symbol tables *)

Definition wfSyms (syms : Symbols) : Prop := ∀ n v, syms n = Some v → wf v.
Definition closed (syms : Symbols) : Prop := ∀ n v, syms n = Some v → concrete v.

Lemma scoped_wf syms x v : wfSyms syms → wf v → wfSyms (scopedSymbols syms x v).
Proof. intros Hs Hv n w. unfold scopedSymbols. case_bool_decide; [by intros [= <-]|]. apply Hs. Qed.

Lemma scoped_closed syms x v : closed syms → concrete v → closed (scopedSymbols syms x v).
Proof. intros Hs Hv n w. unfold scopedSymbols. case_bool_decide; [by intros [= <-]|]. apply Hs. Qed.

(** ** Sizes *)

Lemma sizeOf_pos v : 64 ≤ sizeOf v.
Proof.
  induction v as [v Hv|e l IH] using Value_induct; [destruct v; cbn [sizeOf]; unfold valueHeaderBytes; try lia; done|].
  cbn [sizeOf]. unfold valueHeaderBytes. induction IH as [|x l Hx _ IHl]; cbn [foldr]; lia.
Qed.

Lemma sizeOf_list e l : 64 * Z.of_nat (length l) + 64 ≤ sizeOf (VList e l).
Proof.
  cbn [sizeOf]. unfold valueHeaderBytes. induction l as [|x l IH]; cbn [foldr length]; [lia|].
  pose proof (sizeOf_pos x). lia.
Qed.

Definition sizes (l : list Value) : Z := foldr (λ v n, sizeOf v + n) 0 l.

Lemma sizes_nonneg l : 0 ≤ sizes l.
Proof. induction l as [|v l IH]; cbn [sizes foldr]; [lia|]. pose proof (sizeOf_pos v). unfold sizes in IH. lia. Qed.

Lemma runes_length s : (length (runes s) ≤ length s)%nat.
Proof.
  unfold runes. generalize (length s) as n. intros n. revert s.
  induction n as [|n IH]; intros s; cbn [runes_from length]; [lia|].
  destruct s as [|c s]; cbn [length]; [lia|]. destruct (DecodeRune (c :: s)) as [r k]. cbn [length].
  specialize (IH (drop k (c :: s))). lia.
Qed.

(** ** Result types are canonical *)

Lemma listElemTarget_resolved t : canonical t → resolved (listElemTarget t).
Proof.
  intros Ht. assert (Hr : ∀ u, resolved u → resolved (default TAny (listElem u))).
  { intros u Hu. destruct (listElem u) as [e|] eqn:He; [by eapply listElem_resolved|done]. }
  destruct t as [| | | | | | | | | | | | | | |c]; try (by apply Hr).
  cbn [canonical listElemTarget] in *. destruct c; first [done|by apply Hr].
Qed.

Lemma elemTypeOf_resolved t types e :
  resolved t → Forall canonical types → elemTypeOf t types = Some e → resolved e.
Proof.
  intros Ht Hts H. unfold elemTypeOf in H. destruct (is_code CodeAny t); [by eapply unifyElemTypes_resolved|].
  by injection H as <-.
Qed.

Lemma unifyResultPair_resolved a b : resolved a → resolved b → resolved (unifyResultPair a b).
Proof.
  intros Ha Hb. unfold unifyResultPair. assert (Hu : resolved (UnionOf [a; b])) by (apply UnionOf_resolved; by rewrite !Forall_cons).
  destruct (_ || _); [exact Hu|]. destruct (unifyElemPair a b) as [u|] eqn:E; [|exact Hu].
  exact (unifyElemPair_resolved a b u Ha Hb E).
Qed.

(** A result type of every member of a union gives one of the union. *)
Definition resolvedTo (r : res EErr Ty) : Prop := good r resolved.

Lemma unionResultType_resolved fn ms : Forall (λ m, resolvedTo (fn m)) ms → resolvedTo (unionResultType fn ms).
Proof.
  intros H. destruct H as [|m ms Hm Hms]; [done|]. unfold unionResultType, resolvedTo.
  eapply good_bind; [exact Hm|]. intros acc Hacc. revert acc Hacc.
  induction Hms as [|x ms Hx _ IH]; intros acc Hacc; [done|].
  eapply good_bind; [exact Hx|]. intros r Hr. by apply IH, unifyResultPair_resolved.
Qed.

(** What holds of the resolved types holds of the placeholders of such types. *)
Lemma on_canonical (fn : Ty → res EErr Ty) :
  (∀ c, fn (TUnresolved c) = match c with TUnresolved _ => fn (TUnresolved c) | _ => fn c end) →
  (∀ t, resolved t → resolvedTo (fn t)) → ∀ t, canonical t → resolvedTo (fn t).
Proof.
  intros Heq H t Ht. destruct t as [| | | | | | | | | | | | | | |c]; try (by apply H).
  cbn [canonical] in Ht. rewrite Heq. by destruct c; try (by apply H).
Qed.

Lemma indexResultType_resolved t : canonical t → resolvedTo (indexResultType t).
Proof.
  apply on_canonical; [by intros []|]. clear t.
  induction t as [t Ht|e _|ms IH|c _] using Ty_induct; intros Hr; [by destruct t|done| |done].
  apply unionResultType_resolved. apply resolved_union in Hr as (_ & _ & _ & Hr).
  rewrite Forall_forall in IH, Hr |- *. auto.
Qed.

Lemma sliceResultType_resolved step t : canonical t → resolvedTo (sliceResultType step t).
Proof.
  apply on_canonical; [by intros []|]. clear t.
  assert (Hu : resolved (UnionOf [TRangeExpr; TList TInt])) by (by apply UnionOf_resolved; repeat constructor).
  induction t as [t Ht|e _|ms IH|c _] using Ty_induct; intros Hr; [|done| |done].
  - destruct t; try done. cbn [sliceResultType]. destruct step as [k|]; [destruct (_ <? _)|]; done.
  - apply (unionResultType_resolved (sliceResultType step)). apply resolved_union in Hr as (_ & _ & _ & Hr).
    rewrite Forall_forall in IH, Hr |- *. auto.
Qed.

Lemma unionIterableElem_resolved fn ms e :
  Forall (λ m, ∀ e, fn m = Some e → resolved e) ms → unionIterableElem fn ms = Some e → resolved e.
Proof.
  intros H He. destruct H as [|m ms Hm Hms]; [done|]. unfold unionIterableElem in He.
  destruct (fn m) as [acc|]; [|done]. pose proof (Hm acc eq_refl) as Hacc. clear Hm. revert acc Hacc He.
  induction Hms as [|x ms Hx _ IH]; intros acc Hacc He; [by injection He as <-|].
  destruct (fn x) as [y|]; [|done]. destruct (unifyElemPair acc y) as [u|] eqn:Hu; [|done].
  eapply IH; [|exact He]. eapply unifyElemPair_resolved; [exact Hacc| |exact Hu]. by apply Hx.
Qed.

Lemma iterableElem_resolved t e : canonical t → iterableElem t = Some e → resolved e.
Proof.
  assert (Hres : ∀ t e, resolved t → iterableElem t = Some e → resolved e).
  { clear. induction t as [t Ht|u _|ms IH|c _] using Ty_induct; intros e Hr He; [| | |done].
    - destruct t; try done; by injection He as <-.
    - by injection He as <-.
    - eapply (unionIterableElem_resolved iterableElem); [|exact He]. apply resolved_union in Hr as (_ & _ & _ & Hr).
      rewrite Forall_forall in IH, Hr |- *. eauto. }
  intros Ht He. destruct t as [| | | | | | | | | | | | | | |c]; try (by eapply Hres).
  cbn [canonical] in Ht. destruct c; try done; by eapply Hres.
Qed.

(** ** The logic *)

Section Logic.
Context (strict : bool) (cap : Z).

Definition validAt (m : Meter) : Prop := 0 ≤ mem m ∧ memLimit m = cap.

(** Not a panic; an index panic is possible when slice steps are not small. *)
Definition tolerableIn (e : EErr) : Prop := e ≠ EPanic ∧ (strict = true → e ≠ EIndexPanic).

Definition wpAt {A} (c : M A) (Φ : Meter → A → Prop) (m : Meter) : Prop :=
  match c m with
  | (m', Ok a) => validAt m' ∧ Φ m' a
  | (m', Err e) => validAt m' ∧ tolerableIn (what e)
  end.

Lemma harmless_tolerable e : harmless e → tolerableIn e.
Proof. intros [H1 H2]. by split. Qed.

Lemma wp_ret {A} (a : A) Φ m : validAt m → Φ m a → wpAt (ret a) Φ m.
Proof. done. Qed.

Lemma wp_bind {A B} (c : M A) (k : A → M B) Φ m : wpAt c (λ m' a, wpAt (k a) Φ m') m → wpAt (bind c k) Φ m.
Proof. unfold wpAt, bind. destruct (c m) as [m' [a|e]]; [intros [_ H]; exact H|auto]. Qed.

Lemma wp_mono {A} (c : M A) (Φ Ψ : Meter → A → Prop) m :
  wpAt c Φ m → (∀ m' a, validAt m' → Φ m' a → Ψ m' a) → wpAt c Ψ m.
Proof. unfold wpAt. destruct (c m) as [m' [a|e]]; [|auto]. intros [Hv HΦ] H. auto. Qed.

Lemma wp_raise {A} e (Φ : Meter → A → Prop) m : validAt m → tolerableIn e → wpAt (raise e) Φ m.
Proof. done. Qed.

Lemma wp_errorAt {A} pos e (Φ : Meter → A → Prop) m : validAt m → tolerableIn e → wpAt (errorAt pos e) Φ m.
Proof. done. Qed.

Lemma wp_wrapAt {A} pos (c : M A) Φ m : wpAt c Φ m → wpAt (wrapAt pos c) Φ m.
Proof. unfold wpAt, wrapAt. by destruct (c m) as [m' [a|e]]. Qed.

Lemma framed_valid m m' : framed m m' → validAt m → validAt m'.
Proof. intros (H1 & H2 & _) [H3 H4]. split; congruence. Qed.

Lemma wp_quiet {A} (c : M A) Q Φ m :
  validAt m → quiet c Q → (∀ m' a, validAt m' → mem m' = mem m → Q a → Φ m' a) → wpAt c Φ m.
Proof.
  intros Hm Hq H. destruct (Hq m) as [Hf Hr]. unfold wpAt. pose proof (framed_valid _ _ Hf Hm) as Hv.
  destruct (c m) as [m' [a|e]]; cbn [fst snd] in *; [|by split; [|apply harmless_tolerable]].
  split; [done|]. apply H; [done| |done]. apply Hf.
Qed.

Lemma wp_lift {A} (r : res EErr A) Q Φ m : validAt m → good r Q → (∀ a, Q a → Φ m a) → wpAt (lift r) Φ m.
Proof.
  intros Hm Hg H. unfold wpAt, lift. destruct r; cbn in *; [by split; [|apply H]|].
  split; [done|]. by apply harmless_tolerable.
Qed.

Lemma wp_release v Φ m :
  validAt m → (∀ m', validAt m' → mem m' = Z.max 0 (mem m - sizeOf v) → Φ m' tt) → wpAt (release v) Φ m.
Proof.
  intros [H0 Hc] H. unfold wpAt, release. set (m' := set_mem m _).
  assert (Hv : validAt m' ∧ mem m' = Z.max 0 (mem m - sizeOf v)).
  { unfold m', validAt. cbn [mem memLimit set_mem]. destruct (Z.ltb_spec (mem m - sizeOf v) 0); split_and!; try done; lia. }
  destruct Hv. auto.
Qed.

Lemma wp_releaseAll l : ∀ Φ m,
  validAt m → (∀ m', validAt m' → (sizes l ≤ mem m → mem m' = mem m - sizes l) → Φ m' tt) → wpAt (releaseAll l) Φ m.
Proof.
  induction l as [|v l IH]; intros Φ m Hm H; cbn [releaseAll].
  - apply wp_ret; [done|]. apply H; [done|]. cbn. lia.
  - apply wp_bind, wp_release; [done|]. intros m1 Hm1 H1. apply IH; [done|]. intros m2 Hm2 H2.
    apply H; [done|]. cbn [sizes foldr] in *. fold (sizes l) in *. pose proof (sizes_nonneg l). intros Hle.
    rewrite H2; [|rewrite H1; lia]. rewrite H1. lia.
Qed.

Lemma wp_alloc v Φ m :
  validAt m → (∀ m', validAt m' → mem m' = mem m + sizeOf v → sizeOf v ≤ cap → Φ m' tt) → wpAt (alloc v) Φ m.
Proof.
  intros [H0 Hc] H. unfold wpAt, alloc. pose proof (sizeOf_pos v). set (m' := set_mem m _).
  assert (Hv : validAt m') by (split; [cbn; lia|done]).
  destruct (Z.ltb_spec (memLimit m) (mem m + sizeOf v)); [by split|].
  split; [done|]. apply H; [done|done|lia].
Qed.

Lemma wp_attempt {A} (c : M A) Φ m :
  wpAt c (λ m' a, Φ m' (Ok a)) m → (∀ m' e, validAt m' → Φ m' (Err e)) → wpAt (attempt c) Φ m.
Proof. unfold wpAt, attempt. destruct (c m) as [m' [a|e]]; intros [H1 H2] He; split; auto. Qed.
End Logic.

(** ** Handlers *)

Section Handlers.
Context {arch : Platform} {tables : CaseTables} {funcs : FunctionTable}.
Context (ec : Ctx) (strict : bool) (cap : Z).
Abbreviation wp := (wpAt strict cap).
Abbreviation valid := (validAt cap).
Abbreviation tolerable := (tolerableIn strict).

(** What a node leaves: a well-formed value, counted, of its literal if it is one;
    no placeholder without one in the symbols. *)
Definition evaluated (syms : Symbols) (n : Node) (m m' : Meter) (v : Value) : Prop :=
  wf v ∧ sizeOf v ≤ cap ∧ (∀ z, litValue n = Some z → v = VInt z) ∧
  (closed syms → concrete v ∧ mem m' = mem m + sizeOf v).

(** What a handler leaves, before its result is counted. *)
Definition produces (syms : Symbols) (m m' : Meter) (v : Value) : Prop :=
  wf v ∧ (closed syms → concrete v ∧ mem m' = mem m).

Definition runs (rec : Node → Symbols → Ty → M Value) : Prop := ∀ n syms target m,
  valid m → wfNode strict n → wfSyms syms → canonical target →
  wp (rec n syms target) (evaluated syms n m) m.

Context (rec rec1 : Node → Symbols → Ty → M Value) (Hrec : runs rec) (Hrec1 : runs rec1).

Lemma wp_eval (ev : Node → Symbols → Ty → M Value) {B} n syms target (k : Value → M B) Φ m :
  runs ev → valid m → wfNode strict n → wfSyms syms → canonical target →
  (∀ m' v, valid m' → evaluated syms n m m' v → wp (k v) Φ m') → wp (bind (ev n syms target) k) Φ m.
Proof.
  intros Hev Hm Hn Hs Ht H. apply wp_bind. eapply wp_mono; [by apply Hev|]. intros m' v Hv He. by apply H.
Qed.

Lemma wp_then {A B} (c : M A) (k : A → M B) Q Φ m :
  valid m → quiet c Q → (∀ m' a, valid m' → mem m' = mem m → Q a → wp (k a) Φ m') → wp (bind c k) Φ m.
Proof. intros Hm Hq H. apply wp_bind. by eapply wp_quiet. Qed.

Lemma wp_thenAt {A B} pos (c : M A) (k : A → M B) Q Φ m :
  valid m → quiet c Q → (∀ m' a, valid m' → mem m' = mem m → Q a → wp (k a) Φ m') → wp (bind (wrapAt pos c) k) Φ m.
Proof. intros Hm Hq H. apply wp_bind, wp_wrapAt. by eapply wp_quiet. Qed.

Lemma wp_free {B} v (k : unit → M B) Φ m :
  valid m → (∀ m', valid m' → mem m' = Z.max 0 (mem m - sizeOf v) → wp (k tt) Φ m') → wp (bind (release v) k) Φ m.
Proof. intros Hm H. apply wp_bind, wp_release; [done|]. auto. Qed.

(** Memory counts after the releases. *)
Ltac count :=
  let Hcl := fresh "Hcl" in
  intros Hcl;
  repeat match goal with H : closed _ → _ |- _ => specialize (H Hcl); destruct H end;
  repeat match goal with H : validAt _ ?m |- _ => destruct H end;
  try split; first [assumption|lia|done].

Lemma evalUnary_ok offset op x syms m :
  valid m → wfNode strict x → wfSyms syms → wp (evalUnary ec rec offset op x syms) (produces syms m) m.
Proof.
  intros Hm Hx Hs. unfold evalUnary. eapply wp_eval; [done..|]. intros m1 v Hm1 (Hv & Hsz & Hlit & Hcl1).
  eapply wp_thenAt; [done|by apply applyUnary_quiet|]. intros m2 out Hm2 E2 [Ho Hoc].
  apply wp_free; [done|]. intros m3 Hm3 E3. apply wp_ret; [done|]. split; [done|].
  intros Hcl. destruct (Hcl1 Hcl) as [Hcv E1]. split; [by apply Hoc|]. destruct Hm. lia.
Qed.

Lemma evalBinary_ok offset op l r syms m :
  valid m → wfNode strict l → wfNode strict r → wfSyms syms →
  wp (evalBinary ec rec offset op l r syms) (produces syms m) m.
Proof.
  intros Hm Hl Hr Hs. unfold evalBinary.
  eapply wp_eval; [done..|]. intros m1 v Hm1 (Hv & _ & _ & Hcl1).
  eapply wp_eval; [done..|]. intros m2 w Hm2 (Hw & _ & _ & Hcl2).
  eapply wp_thenAt; [done|by apply applyBinary_quiet|]. intros m3 out Hm3 E3 [Ho Hoc].
  apply wp_free; [done|]. intros m4 Hm4 E4. apply wp_free; [done|]. intros m5 Hm5 E5.
  apply wp_ret; [done|]. split; [done|].
  intros Hcl. destruct (Hcl1 Hcl) as [Hcv E1], (Hcl2 Hcl) as [Hcw E2].
  split; [apply Hoc; by rewrite Hcv, Hcw|]. pose proof (sizeOf_pos v). pose proof (sizeOf_pos w). destruct Hm. lia.
Qed.

Lemma wp_wrapOp {A} offsets i (c : M A) Φ m :
  (i < length offsets)%nat → wp c Φ m → wp (wrapOp offsets i c) Φ m.
Proof.
  intros Hi. unfold wpAt, wrapOp. destruct (c m) as [m' [a|e]]; [done|].
  destruct (lookup_lt_is_Some_2 offsets i Hi) as [pos ->]. done.
Qed.

Lemma compareLoop_ok offsets syms : ∀ ops operands i left_ m0 m,
  valid m → wf left_ → Forall (wfNode strict) operands → wfSyms syms →
  length operands = length ops → (i + length ops = length offsets)%nat → 0 ≤ mem m0 →
  (closed syms → concrete left_ ∧ mem m = mem m0 + sizeOf left_) →
  wp (compareLoop ec rec syms offsets i left_ ops operands) (produces syms m0) m.
Proof.
  induction ops as [|op ops IH]; intros operands i left_ m0 m Hm Hl Hn Hs Hlen Hoff Hm0 Hcl0; cbn [compareLoop].
  - apply wp_free; [done|]. intros m1 Hm1 E1. apply wp_ret; [done|]. split; [done|]. count.
  - destruct operands as [|n operands]; [done|]. apply Forall_cons in Hn as [Hn Hns]. cbn [length] in *.
    eapply wp_eval; [done..|]. intros m1 r Hm1 (Hr & _ & _ & Hcl1).
    apply wp_bind, wp_wrapOp; [lia|]. eapply wp_quiet; [done|by apply applyBinary_quiet|].
    intros m2 out Hm2 E2 [Ho Hoc]. apply wp_free; [done|]. intros m3 Hm3 E3.
    assert (Hsz : closed syms → concrete r ∧ mem m3 = mem m0 + sizeOf r).
    { intros Hcl. destruct (Hcl0 Hcl) as [? ?], (Hcl1 Hcl) as [? ?]. split; [done|].
      pose proof (sizeOf_pos r). pose proof (sizeOf_pos left_). destruct Hm. lia. }
    assert (Hco : closed syms → concrete out).
    { intros Hcl. destruct (Hcl0 Hcl) as [Hcl_ _], (Hcl1 Hcl) as [Hcr _]. apply Hoc. by rewrite Hcl_, Hcr. }
    destruct (IsUnresolved out) eqn:Hu.
    + apply wp_free; [done|]. intros m4 Hm4 E4. apply wp_ret; [done|]. split; [done|].
      intros Hcl. specialize (Hco Hcl). unfold concrete in Hco. congruence.
    + assert (Hbad : wp (wrapOp offsets i (raise EComparisonNotBool)) (produces syms m0) m3)
        by (apply wp_wrapOp; [lia|by apply wp_raise]).
      destruct out as [|b| | | | | | |]; try exact Hbad. destruct b.
      * apply IH; try done; [by injection Hlen|lia].
      * apply wp_free; [done|]. intros m4 Hm4 E4. apply wp_ret; [done|]. split; [done|].
        intros Hcl. destruct (Hsz Hcl). split; [done|]. lia.
Qed.

Lemma evalCompare_ok ops operands offsets syms m :
  valid m → length operands = S (length ops) → length offsets = length ops → Forall (wfNode strict) operands →
  wfSyms syms → wp (evalCompare ec rec ops operands offsets syms) (produces syms m) m.
Proof.
  intros Hm Hl Ho Hn Hs. unfold evalCompare. destruct operands as [|n operands]; [done|].
  apply Forall_cons in Hn as [Hn Hns]. eapply wp_eval; [done..|]. intros m1 v Hm1 (Hv & _ & _ & Hcl1).
  apply compareLoop_ok; try done; [by injection Hl|by apply Hm].
Qed.

Lemma wf_Unresolved t : canonical t → wf (Unresolved t).
Proof. apply canonical_unwrap. Qed.

Lemma evalLogical_ok op l r syms target m :
  valid m → wfNode strict l → wfNode strict r → wfSyms syms → canonical target →
  wp (evalLogical rec op l r syms target) (produces syms m) m.
Proof.
  intros Hm Hl Hr Hs Ht. unfold evalLogical.
  eapply wp_eval; [done..|]. intros m1 v Hm1 (Hv & _ & _ & Hcl1).
  pose proof (typeOf_canonical v Hv) as Hvt. destruct (IsUnresolved v) eqn:Hu.
  - assert (Hno : closed syms → False).
    { intros Hcl. destruct (Hcl1 Hcl) as [Hc _]. unfold concrete in Hc. congruence. }
    apply wp_bind, wp_attempt.
    + eapply wp_mono; [by apply Hrec|]. intros m2 w Hm2 (Hw & _). apply wp_free; [done|]. intros m3 Hm3 _.
      apply wp_free; [done|]. intros m4 Hm4 _. apply wp_ret; [done|]. split; [|by intros []%Hno].
      apply wf_Unresolved, UnionOf_canonical. repeat constructor; [done|by apply typeOf_canonical].
    + intros m2 e Hm2. apply wp_free; [done|]. intros m3 Hm3 _. apply wp_ret; [done|].
      split; [by apply wf_Unresolved|by intros []%Hno].
  - destruct (_ || _).
    + apply wp_free; [done|]. intros m2 Hm2 E2. apply wp_ret; [done|]. split; [done|]. count.
    + eapply wp_eval; [done..|]. intros m2 w Hm2 (Hw & _ & _ & Hcl2).
      apply wp_free; [done|]. intros m3 Hm3 E3. apply wp_free; [done|]. intros m4 Hm4 E4.
      apply wp_ret; [done|]. split; [done|]. pose proof (sizeOf_pos v). pose proof (sizeOf_pos w). count.
Qed.

Lemma condResult_ok offset t e syms target m :
  valid m → wfNode strict t → wfNode strict e → wfSyms syms → canonical target →
  wp (condResult rec offset t e syms target) (λ _ v, wf v) m.
Proof.
  intros Hm Ht He Hs Hc. unfold condResult.
  set (fine := λ r : res Failure Value, ∀ v, r = Ok v → wf v).
  assert (Hatt : ∀ n m (k : res Failure Value → M Value), valid m → wfNode strict n →
    (∀ m' r, valid m' → fine r → wp (k r) (λ _ v, wf v) m') →
    wp (bind (attempt (rec n syms target)) k) (λ _ v, wf v) m).
  { intros n m0 k Hm0 Hn Hk. apply wp_bind, wp_attempt.
    - eapply wp_mono; [by apply Hrec|]. intros m' v Hm' (Hv & _). apply Hk; [done|]. by intros ? [= <-].
    - intros m' f Hm'. by apply Hk. }
  assert (Hfree : ∀ (r : res Failure Value) m (k : unit → M Value), valid m → (∀ m', valid m' → wp (k tt) (λ _ v, wf v) m') →
    wp (bind match r with Ok v => release v | Err _ => ret tt end k) (λ _ v, wf v) m).
  { intros r m0 k Hm0 Hk. destruct r; [apply wp_free; auto|by apply wp_bind, wp_ret; auto]. }
  apply Hatt; [done..|]. intros m1 r1 Hm1 Hr1. apply Hatt; [done..|]. intros m2 r2 Hm2 Hr2.
  apply Hfree; [done|]. intros m3 Hm3. apply Hfree; [done|]. intros m4 Hm4.
  assert (Hty : ∀ r v, fine r → r = Ok v → canonical (typeOf v)) by (intros r v Hr E; by apply typeOf_canonical, Hr).
  destruct r1 as [v|], r2 as [w|]; [..|by apply wp_errorAt]; apply wp_ret; try done; apply wf_Unresolved.
  - apply UnionOf_canonical. rewrite !Forall_cons. eauto.
  - eauto.
  - eauto.
Qed.

Lemma evalCond_ok offset t i e syms target m :
  valid m → wfNode strict t → wfNode strict i → wfNode strict e → wfSyms syms → canonical target →
  wp (evalCond rec offset t i e syms target) (produces syms m) m.
Proof.
  intros Hm Ht Hi He Hs Hc. unfold evalCond.
  eapply wp_eval; [done..|]. intros m1 v Hm1 (Hv & _ & _ & Hcl1).
  destruct v as [|b| | | | | | |c]; try (by apply wp_errorAt).
  - apply wp_free; [done|]. intros m2 Hm2 E2. eapply wp_eval; [done|done|by destruct b|done|done|].
    intros m3 w Hm3 (Hw & _ & _ & Hcl3). apply wp_free; [done|]. intros m4 Hm4 E4.
    apply wp_ret; [done|]. split; [done|]. count.
  - destruct (negb _); [by apply wp_errorAt|]. apply wp_bind. eapply wp_mono; [by apply condResult_ok|].
    intros m2 out Hm2 Hout. apply wp_free; [done|]. intros m3 Hm3 _. apply wp_ret; [done|]. split; [done|].
    intros Hcl. by destruct (Hcl1 Hcl).
Qed.

(** What the elements of a list leave. *)
Definition collected (syms : Symbols) (m m' : Meter) (vals : list Value) : Prop :=
  Forall wf vals ∧ (closed syms → Forall concrete vals ∧ mem m' = mem m + sizes vals).

Lemma evalElems_ok syms t : ∀ elems m,
  valid m → Forall (wfNode strict) elems → wfSyms syms → canonical t →
  wp (evalElems rec elems syms t) (λ m' vals, collected syms m m' vals ∧ length vals = length elems) m.
Proof.
  induction elems as [|n elems IH]; intros m Hm Hn Hs Ht; cbn [evalElems].
  - apply wp_ret; [done|]. split; [|done]. split; [constructor|]. intros _. split; [constructor|]. cbn. lia.
  - apply Forall_cons in Hn as [Hn Hns]. eapply wp_eval; [done..|]. intros m1 v Hm1 (Hv & _ & _ & Hcl1).
    destruct (IsNull v); [by apply wp_errorAt|]. apply wp_bind. eapply wp_mono; [by apply IH|].
    intros m2 vals Hm2 [[Hw Hcl2] Hl]. apply wp_ret; [done|]. split; [|cbn; lia]. split; [by constructor|].
    intros Hcl. destruct (Hcl1 Hcl), (Hcl2 Hcl). split; [by constructor|]. cbn [sizes foldr]. fold (sizes vals). lia.
Qed.

Lemma types_canonical vals : Forall wf vals → Forall canonical (map typeOf vals).
Proof. intros H. apply Forall_fmap. eapply Forall_impl; [exact H|]. apply typeOf_canonical. Qed.

Lemma none_unresolved vals : existsb IsUnresolved vals = false → Forall concrete vals.
Proof.
  induction vals as [|v vals IH]; cbn [existsb]; [constructor|]. intros [H1 H2]%orb_false_elim.
  constructor; [exact H1|by apply IH].
Qed.

Lemma wrapAt_quiet {A} pos (c : M A) Q : quiet c Q → quiet (wrapAt pos c) Q.
Proof. intros H m. destruct (H m) as [Hf Hr]. unfold wrapAt. by destruct (c m) as [m' [a|e]]. Qed.

Lemma coerceElems_quiet elem : resolved elem → ∀ vals elems,
  length vals = length elems → Forall (λ v, wf v ∧ concrete v) vals →
  quiet (coerceElems elems vals elem) (Forall (λ x, concrete x ∧ has x elem ∧ wf x)).
Proof.
  intros Hr. induction vals as [|v vals IH]; intros elems Hl Hv; cbn [coerceElems]; [apply quiet_ret; constructor|].
  destruct elems as [|n elems]; [done|]. apply Forall_cons in Hv as [[Hw Hc] Hv].
  eapply quiet_bind; [apply wrapAt_quiet, quiet_reserveRangeExprCoercion|]. intros _ _.
  eapply quiet_bind; [by apply wrapAt_quiet, coerce_quiet|]. intros x (Hx1 & Hx2 & Hx3 & _).
  eapply quiet_bind; [apply IH; [by injection Hl|done]|]. intros rest Hrest. apply quiet_ret. by constructor.
Qed.

Lemma both {A} (P Q : A → Prop) l : Forall P l → Forall Q l → Forall (λ x, P x ∧ Q x) l.
Proof. rewrite !Forall_forall. auto. Qed.

Lemma not_closed vals syms (m m' : Meter) :
  collected syms m m' vals → existsb IsUnresolved vals = true → closed syms → False.
Proof.
  intros [_ H] Hu Hcl. destruct (H Hcl) as [Hc _]. apply existsb_exists in Hu as (v & Hv & Hu).
  rewrite Forall_forall in Hc. apply list_elem_of_In in Hv. apply Hc in Hv. unfold concrete in Hv. congruence.
Qed.

Lemma evalListLit_ok offset elems syms target m :
  valid m → Forall (wfNode strict) elems → wfSyms syms → canonical target →
  wp (evalListLit rec offset elems syms target) (produces syms m) m.
Proof.
  intros Hm Hn Hs Hc. unfold evalListLit. pose proof (listElemTarget_resolved target Hc) as Het.
  apply wp_bind. eapply wp_mono; [apply evalElems_ok; try done; by apply resolved_canonical|].
  intros m1 vals Hm1 [Hcol Hlen]. pose proof Hcol as [Hw Hcl1].
  destruct (elemTypeOf _ _) as [elem|] eqn:Hel; [|by apply wp_errorAt].
  apply elemTypeOf_resolved in Hel; [|done|by apply types_canonical].
  eapply wp_thenAt; [done|apply quiet_lift, checkElementCount_good|]. intros m2 _ Hm2 E2 _.
  destruct (existsb IsUnresolved vals) eqn:Hu.
  - apply wp_bind, wp_releaseAll; [done|]. intros m3 Hm3 _. apply wp_ret; [done|]. split.
    + apply wf_Unresolved. rewrite ListOf_resolved by done. exact Hel.
    + intros Hcl. by destruct (not_closed _ _ _ _ Hcol Hu Hcl).
  - eapply wp_then; [done|apply coerceElems_quiet; [done..|]; apply both; [done|by apply none_unresolved]|].
    intros m3 out Hm3 E3 Hout. apply wp_bind, wp_releaseAll; [done|]. intros m4 Hm4 E4. apply wp_ret; [done|].
    destruct (list_answers elem out Hel Hout) as (Hwo & Hco & _). split; [done|].
    intros Hcl. destruct (Hcl1 Hcl) as [_ E1]. split; [done|]. destruct Hm. rewrite E4; lia.
Qed.

Lemma nth_good {A} (l : list A) i : 0 ≤ i < Z.of_nat (length l) → good (nth l i) (λ x, x ∈ l).
Proof.
  intros Hi. unfold nth. destruct (Z.ltb_spec i 0); [lia|].
  destruct (lookup_lt_is_Some_2 l (Z.to_nat i) ltac:(lia)) as [x Hx]. rewrite Hx. cbn.
  by eapply list_elem_of_lookup_2.
Qed.

Lemma normalizeIndex_range i n at_ : normalizeIndex i n = Some at_ → 0 ≤ at_ < n.
Proof.
  unfold normalizeIndex. destruct (_ || _) eqn:E; [done|]. intros [= <-].
  apply orb_false_elim in E as [?%Z.ltb_ge ?%Z.leb_gt]. lia.
Qed.

Lemma indexValue_good recv i : wf recv → good (indexValue recv i) (λ v, wf v ∧ concrete v).
Proof.
  intros Hw. destruct recv as [| | | |s| |s|e l|]; try done; cbn [indexValue].
  - destruct (normalizeIndex _ _) as [a|] eqn:Ha; [|done]. apply normalizeIndex_range in Ha.
    by eapply good_bind; [by apply nth_good|].
  - eapply good_bind; [apply rangeInts_good|]. intros ints Hi.
    destruct (normalizeIndex _ _) as [a|] eqn:Ha; [|done]. apply normalizeIndex_range in Ha.
    eapply good_bind; [by apply nth_good|]. intros z Hz. rewrite Forall_forall in Hi. by split; [apply Hi|].
  - destruct (normalizeIndex _ _) as [a|] eqn:Ha; [|done]. apply normalizeIndex_range in Ha.
    eapply good_weaken; [by apply nth_good|]. intros x Hx. apply wf_list in Hw as [_ Hw].
    rewrite Forall_forall in Hw. by destruct (Hw x Hx) as (? & _ & ?).
Qed.

Lemma chargeIndexReceiver_quiet recv : quiet (chargeIndexReceiver recv) (λ _, True).
Proof.
  destruct recv; try (by apply quiet_ret); [apply quiet_chargeBytes|].
  eapply quiet_bind; [apply quiet_reserveRangeExprExpansion|]. intros _ _.
  eapply quiet_bind; [apply quiet_lift, rangeExprCount_good|]. intros n _. apply quiet_charge.
Qed.

Lemma intish v : isIntish v = true → IsUnresolved v = false → ∃ i, v = VInt i.
Proof. destruct v; try done. eauto. Qed.

Lemma evalIndex_ok offset x idx syms m :
  valid m → wfNode strict x → wfNode strict idx → wfSyms syms →
  wp (evalIndex rec offset x idx syms) (produces syms m) m.
Proof.
  intros Hm Hx Hi Hs. unfold evalIndex.
  eapply wp_eval; [done..|]. intros m1 recv Hm1 (Hv & _ & _ & Hcl1).
  eapply wp_eval; [done..|]. intros m2 i Hm2 (Hw & _ & _ & Hcl2).
  destruct (isIntish i) eqn:Hint; cbn [negb]; [|by apply wp_errorAt].
  eapply wp_thenAt; [done|apply quiet_lift, indexResultType_resolved; by apply typeOf_canonical|].
  intros m3 elem Hm3 E3 Helem. eapply wp_then; [done|apply quiet_charge|]. intros m4 _ Hm4 E4 _.
  destruct (IsUnresolved recv || IsUnresolved i) eqn:Hu.
  - apply wp_free; [done|]. intros m5 Hm5 _. apply wp_free; [done|]. intros m6 Hm6 _.
    apply wp_ret; [done|]. split; [by apply wf_Unresolved, resolved_canonical|].
    intros Hcl. destruct (Hcl1 Hcl) as [Hc1 _], (Hcl2 Hcl) as [Hc2 _]. unfold concrete in *. rewrite Hc1, Hc2 in Hu. done.
  - apply orb_false_elim in Hu as [Hu1 Hu2]. destruct (intish i Hint Hu2) as [z ->].
    eapply wp_then; [done|apply chargeIndexReceiver_quiet|]. intros m5 _ Hm5 E5 _.
    eapply wp_then; [done|by apply (quiet_lift _ (λ x, x = z))|]. intros m6 ? Hm6 E6 ->.
    eapply wp_thenAt; [done|by apply quiet_lift, indexValue_good|]. intros m7 out Hm7 E7 [Hwo Hco].
    apply wp_free; [done|]. intros m8 Hm8 E8. apply wp_free; [done|]. intros m9 Hm9 E9.
    apply wp_ret; [done|]. split; [done|]. pose proof (sizeOf_pos recv). pose proof (sizeOf_pos (VInt z)). count.
Qed.

(** *** Slices *)

Lemma wp_pick {A B} (l : list A) idx (k : list A → M B) Φ m :
  valid m → (strict = true → Forall (λ i, 0 ≤ i < Z.of_nat (length l)) idx) →
  (∀ xs, Forall (λ x, x ∈ l) xs → wp (k xs) Φ m) → wp (bind (lift (pick l idx)) k) Φ m.
Proof.
  intros Hm Hi Hk. apply wp_bind.
  assert (Hp : match pick l idx with Ok xs => Forall (λ x, x ∈ l) xs | Err e => tolerable e end).
  { clear Hk. induction idx as [|i idx IH]; cbn [pick]; [constructor|].
    assert (Hn : match nth l i with Ok x => x ∈ l | Err e => tolerable e end).
    { assert (Hr : 0 ≤ i < Z.of_nat (length l) → match nth l i with Ok x => x ∈ l | Err e => tolerable e end).
      { intros Hr. pose proof (nth_good l i Hr) as Hg. destruct (nth l i); [exact Hg|]. by apply harmless_tolerable. }
      destruct (decide (0 ≤ i < Z.of_nat (length l))) as [Hin|Hout]; [exact (Hr Hin)|].
      assert (Hpan : nth l i = Err EIndexPanic).
      { unfold nth. destruct (Z.ltb_spec i 0); [done|]. by rewrite lookup_ge_None_2 by lia. }
      rewrite Hpan. split; [done|]. intros Hst. specialize (Hi Hst). apply Forall_cons in Hi as [Hin _]. lia. }
    destruct (nth l i); [|exact Hn]. cbn [res_bind].
    assert (Hi' : strict = true → Forall (λ i, 0 ≤ i < Z.of_nat (length l)) idx).
    { intros Hst. specialize (Hi Hst). by apply Forall_cons in Hi as [_ ?]. }
    specialize (IH Hi'). destruct (pick l idx); cbn [res_bind]; [|exact IH]. by constructor. }
  unfold wpAt, lift. destruct (pick l idx); [|by split]. split; [done|]. by apply Hk.
Qed.

(** The bounds a slice was given. *)
Definition sliceArgs (start stop step : option Z) : Prop :=
  (∀ i, start = Some i → in_int i) ∧ (∀ i, stop = Some i → in_int i) ∧ (∀ i, step = Some i → in_int i ∧ i ≠ 0) ∧
  (strict = true → ∀ i, step = Some i → i ≤ 2 ^ 62).

Lemma slice_in_range start stop step n :
  sliceArgs start stop step → 0 ≤ n < 2 ^ 62 → strict = true →
  Forall (λ i, 0 ≤ i < n) (sliceIndices start stop step n).
Proof.
  intros (Ha & Hb & Hc & Hd) Hn Hst. change (2 ^ 62) with 4611686018427387904 in *. specialize (Hd Hst).
  assert (Hov : in_int (n + default 1 step)).
  { destruct step as [k|]; cbn; [|zint]. specialize (Hd k eq_refl). destruct (Hc k eq_refl). zint. }
  destruct (sliceIndicesFuel_selects (Z.to_nat n + 2) start stop step n) as [_ Hel]; try done; [lia|zint|lia|].
  apply Forall_forall. intros x Hx. apply Hel in Hx. eapply selects_in_range; [|lia|exact Hx].
  destruct step as [k|]; cbn; [by destruct (Hc k eq_refl)|done].
Qed.

Lemma sliceRangeExpr_ok s start stop step m :
  valid m → sliceArgs start stop step →
  wp (sliceRangeExpr (VRange s) start stop step) (λ m' v, wf v ∧ concrete v ∧ mem m' = mem m) m.
Proof.
  intros Hm Hsl. unfold sliceRangeExpr.
  eapply wp_then; [done|apply quiet_reserveRangeExprExpansion|]. intros m1 _ Hm1 E1 _.
  eapply wp_then; [done|apply quiet_lift, rangeExprCount_good|]. intros m2 n Hm2 E2 _.
  eapply wp_then; [done|apply quiet_charge|]. intros m3 _ Hm3 E3 _.
  eapply (wp_then _ _ (λ ints, Forall in_int ints ∧ Z.of_nat (length ints) ≤ maxElements)); [done| |].
  { apply quiet_lift, good_and.
    - intros l Hl. split; [by apply rangeInts_ok in Hl as (_ & _ & _ & Hi & _)|by eapply rangeInts_length].
    - intros e He. pose proof (rangeInts_good s) as Hg. by rewrite He in Hg. }
  intros m4 ints Hm4 E4 [Hints Hlen]. unfold maxElements in Hlen. apply wp_pick; [done| |].
  { intros Hst. apply slice_in_range; [done| |done]. change (2 ^ 62) with 4611686018427387904. lia. }
  intros xs Hxs. assert (Hxi : Forall in_int xs).
  { rewrite Forall_forall in Hints, Hxs |- *. auto. }
  destruct (_ || _).
  - apply wp_ret; [done|]. destruct (list_answers TInt (intValues xs) I (intValues_has xs Hxi)) as (? & ? & _).
    split_and!; [done..|]. lia.
  - eapply (wp_lift _ _ _ (λ v, wf v ∧ concrete v)); [done| |intros v []; split_and!; [done..|lia]].
    unfold RangeExprValue. destruct (Parse (canonicalRange xs)) eqn:Hp; [|done]. cbn. by rewrite Hp.
Qed.

Lemma sliceValue_ok recv start stop step m :
  cap ≤ 2 ^ 62 → valid m → wf recv → sizeOf recv ≤ cap → sliceArgs start stop step →
  wp (sliceValue recv start stop step) (λ m' v, wf v ∧ concrete v ∧ mem m' = mem m) m.
Proof.
  intros Hcap Hm Hw Hsz Hsl. destruct recv as [| | | |s| |s|e l|]; try (by apply wp_raise); cbn [sliceValue].
  - eapply wp_then; [done|apply quiet_chargeBytes|]. intros m1 _ Hm1 E1 _. apply wp_pick; [done| |].
    + intros Hst. apply slice_in_range; [done| |done]. pose proof (runes_length s).
      cbn [sizeOf] in Hsz. unfold valueHeaderBytes in Hsz. lia.
    + intros xs _. by apply wp_ret.
  - by apply sliceRangeExpr_ok.
  - pose proof (sizeOf_list e l). apply wf_list in Hw as [Hr Hl].
    eapply wp_then; [done|apply quiet_charge|]. intros m1 _ Hm1 E1 _. apply wp_pick; [done| |].
    + intros Hst. apply slice_in_range; [done| |done]. lia.
    + intros xs Hxs. apply wp_ret; [done|]. destruct (list_answers e xs Hr) as (? & ? & _); [|by split_and!].
      rewrite Forall_forall in Hl, Hxs |- *. auto.
Qed.

Lemma sliceComponent_ok n syms m :
  valid m → match n with Some x => wfNode strict x | None => True end → wfSyms syms →
  wp (sliceComponent rec n syms)
    (λ m' p, (∀ i, p.1 = Some i → in_int i ∧ (smallStep n → i ≤ 2 ^ 62) ∧ n ≠ None) ∧
             (closed syms → p.2 = true ∧ mem m' = mem m)) m.
Proof.
  intros Hm Hn Hs. destruct n as [n|]; cbn [sliceComponent]; [|by apply wp_ret].
  eapply wp_eval; [done..|]. intros m1 v Hm1 (Hv & _ & Hlit & Hcl1).
  destruct (isIntish v) eqn:Hint; cbn [negb]; [|by apply wp_errorAt].
  destruct (IsUnresolved v) eqn:Hu.
  - apply wp_free; [done|]. intros m2 Hm2 _. apply wp_ret; [done|]. split; [done|].
    intros Hcl. destruct (Hcl1 Hcl) as [Hc _]. unfold concrete in Hc. congruence.
  - destruct (intish v Hint Hu) as [i ->]. eapply wp_then; [done|by apply (quiet_lift _ (λ x, x = i))|].
    intros m2 ? Hm2 E2 ->. apply wp_free; [done|]. intros m3 Hm3 E3. apply wp_ret; [done|]. split.
    + intros ? [= <-]. split_and!; [done| |done]. cbn [smallStep]. destruct (litValue n) as [k|]; [|done].
      specialize (Hlit k eq_refl). injection Hlit as ->. by intros [_ ?].
    + intros Hcl. destruct (Hcl1 Hcl). split; [done|]. destruct Hm. lia.
Qed.

Lemma evalSlice_ok offset x a b c syms m :
  cap ≤ 2 ^ 62 → valid m → wfNode strict (Slice offset x a b c) → wfSyms syms →
  wp (evalSlice rec offset x a b c syms) (produces syms m) m.
Proof.
  intros Hcap Hm (Hstep & Hx & Ha & Hb & Hc) Hs. unfold evalSlice.
  eapply wp_eval; [done..|]. intros m1 recv Hm1 (Hv & Hsz & _ & Hcl1).
  apply wp_bind. eapply wp_mono; [by apply sliceComponent_ok|]. intros m2 [start startOK] Hm2 [Hstart Hcl2].
  apply wp_bind. eapply wp_mono; [by apply sliceComponent_ok|]. intros m3 [stop stopOK] Hm3 [Hstop Hcl3].
  apply wp_bind. eapply wp_mono; [by apply sliceComponent_ok|]. intros m4 [step stepOK] Hm4 [Hst Hcl4].
  cbn [fst snd] in *.
  eapply wp_thenAt; [done|apply quiet_lift, sliceResultType_resolved; by apply typeOf_canonical|].
  intros m5 result Hm5 E5 Hres. eapply wp_then; [done|apply quiet_charge|]. intros m6 _ Hm6 E6 _.
  destruct (IsUnresolved recv || negb startOK || negb stopOK || negb stepOK) eqn:Hu.
  - apply wp_free; [done|]. intros m7 Hm7 _. apply wp_ret; [done|].
    split; [by apply wf_Unresolved, resolved_canonical|]. intros Hcl. exfalso.
    destruct (Hcl1 Hcl) as [Hc1 _], (Hcl2 Hcl) as [-> _], (Hcl3 Hcl) as [-> _], (Hcl4 Hcl) as [-> _].
    unfold concrete in Hc1. by rewrite Hc1 in Hu.
  - case_bool_decide as Hz.
    + destruct c as [n|]; [by apply wp_errorAt|]. destruct (Hst 0 Hz) as (_ & _ & Hno). done.
    + apply wp_bind, wp_wrapAt. eapply wp_mono; [apply sliceValue_ok; try done|].
      * split_and!; [intros i Hi; by destruct (Hstart i Hi)|intros i Hi; by destruct (Hstop i Hi)| |].
        -- intros i Hi. destruct (Hst i Hi) as (? & _). split; [done|]. congruence.
        -- intros Hstr i Hi. destruct (Hst i Hi) as (_ & Hsm & _). auto.
      * intros m7 out Hm7 (Hwo & Hco & E7). apply wp_free; [done|]. intros m8 Hm8 E8. apply wp_ret; [done|].
        split; [done|]. pose proof (sizeOf_pos recv). count.
Qed.

(** *** Comprehensions *)

Lemma evalCompFilter_ok c syms m :
  valid m → wfNode strict c → wfSyms syms →
  wp (evalCompFilter rec1 c syms) (λ m' k, closed syms → k ≠ None ∧ mem m' = mem m) m.
Proof.
  intros Hm Hc Hs. unfold evalCompFilter. eapply wp_eval; [done..|]. intros m1 v Hm1 (Hv & _ & _ & Hcl1).
  destruct v as [|b| | | | | | |t]; try (by apply wp_errorAt).
  - apply wp_free; [done|]. intros m2 Hm2 E2. apply wp_ret; [done|]. count.
  - destruct (negb _); [by apply wp_errorAt|]. apply wp_free; [done|]. intros m2 Hm2 E2. apply wp_ret; [done|].
    intros Hcl. by destruct (Hcl1 Hcl).
Qed.

Lemma coerceUnresolvedValue_good v t : good (coerceUnresolvedValue v t) (λ _, True).
Proof.
  assert (Hno : ∀ b w, good (if b : bool then Ok w else Err ENotCoercible) (λ _ : Value, True)) by (by intros []).
  unfold coerceUnresolvedValue. destruct v; try apply coerceUnresolved_good; destruct t; try apply (Hno false VNull); apply Hno.
Qed.

Lemma unresolvedComp_ok elemN var cond syms elemTarget elemType m :
  valid m → wfNode strict elemN → match cond with Some c => wfNode strict c | None => True end → wfSyms syms →
  resolved elemTarget → resolved elemType →
  wp (unresolvedComp rec1 elemN var cond syms elemTarget elemType) (λ _ v, wf v) m.
Proof.
  intros Hm Hn Hc Hs Ht He. unfold unresolvedComp. cbv zeta. set (scoped := scopedSymbols _ _ _).
  assert (Hsc : wfSyms scoped) by (apply scoped_wf; [done|]; by apply wf_Unresolved, resolved_canonical).
  assert (Hbody : ∀ m, valid m → wp (
    let* v := rec1 elemN scoped elemTarget in
    let* elem :=
      if is_code CodeAny elemTarget then ret (unwrapUnresolved (typeOf v))
      else let* _ := wrapAt (Pos elemN) (lift (coerceUnresolvedValue v elemTarget)) in ret elemTarget in
    let* _ := release v in
    ret (Unresolved (ListOf elem))) (λ _ v, wf v) m).
  { clear m Hm. intros m Hm. eapply wp_eval; [done..|by apply resolved_canonical|]. intros m1 v Hm1 (Hv & _).
    eapply (wp_then _ _ resolved); [done| |].
    - destruct (is_code CodeAny elemTarget).
      + apply quiet_ret. by apply canonical_unwrap, typeOf_canonical.
      + eapply quiet_bind; [apply wrapAt_quiet, quiet_lift, coerceUnresolvedValue_good|]. intros _ _. by apply quiet_ret.
    - intros m2 elem Hm2 _ Hel. apply wp_free; [done|]. intros m3 Hm3 _. apply wp_ret; [done|].
      apply wf_Unresolved. by rewrite ListOf_resolved. }
  destruct cond as [c|]; [|by apply wp_bind, wp_ret; [|apply Hbody]].
  apply wp_bind. unfold checkCompFilter. eapply wp_eval; [done..|]. intros m1 v Hm1 _.
  destruct (negb _); [by apply wp_errorAt|]. apply wp_release; [done|]. intros m2 Hm2 _. by apply Hbody.
Qed.

Lemma collectCompElements_ok elemN var cond syms elemTarget : 
  wfNode strict elemN → match cond with Some c => wfNode strict c | None => True end → wfSyms syms →
  resolved elemTarget → ∀ items m, valid m → Forall (λ v, wf v ∧ concrete v) items →
  wp (collectCompElements rec1 elemN var cond syms elemTarget items)
    (λ m' p, Forall (λ v, wf v ∧ concrete v) p.1 ∧ (closed syms → p.2 = false ∧ mem m' = mem m + sizes p.1)) m.
Proof.
  intros Hn Hc Hs Ht. induction items as [|item items IH]; intros m Hm Hi; cbn [collectCompElements].
  { apply wp_ret; [done|]. split; [constructor|]. intros _. split; [done|]. cbn. lia. }
  apply Forall_cons in Hi as [[Hw Hci] Hi]. set (scoped := scopedSymbols syms var item).
  assert (Hsc : wfSyms scoped) by (by apply scoped_wf).
  assert (Hcs : closed syms → closed scoped) by (intros; by apply scoped_closed).
  apply wp_bind. eapply (wp_mono _ _ _ (λ m' k, closed syms → k ≠ None ∧ mem m' = mem m)).
  { destruct cond as [c|]; [|by apply wp_ret]. eapply wp_mono; [by apply evalCompFilter_ok|]. auto. }
  intros m1 keep Hm1 Hcl1. destruct keep as [[|]|].
  - eapply wp_eval; [done..|by apply resolved_canonical|]. intros m2 v Hm2 (Hv & _ & _ & Hcl2).
    destruct (IsUnresolved v) eqn:Hu.
    + apply wp_free; [done|]. intros m3 Hm3 _. apply wp_ret; [done|]. split; [constructor|].
      intros Hcl. destruct (Hcl2 (Hcs Hcl)) as [Hcv _]. unfold concrete in Hcv. congruence.
    + apply wp_bind. eapply wp_mono; [by apply IH|]. intros m3 [rest u] Hm3 [Hrest Hcl3]. cbn [fst snd] in *.
      apply wp_ret; [done|]. split; [by constructor|]. intros Hcl.
      destruct (Hcl1 Hcl), (Hcl2 (Hcs Hcl)), (Hcl3 Hcl). split; [done|]. cbn [fst sizes foldr]. fold (sizes rest). lia.
  - eapply wp_mono; [by apply IH|]. intros m2 p Hm2 [Hp Hcl2]. split; [done|]. intros Hcl.
    destruct (Hcl1 Hcl), (Hcl2 Hcl). split; [done|]. lia.
  - apply wp_ret; [done|]. split; [constructor|]. intros Hcl. by destruct (Hcl1 Hcl).
Qed.

Lemma runComp_ok offset elemN var cond syms elemTarget elemType items m :
  valid m → wfNode strict elemN → match cond with Some c => wfNode strict c | None => True end → wfSyms syms →
  resolved elemTarget → resolved elemType → Forall (λ v, wf v ∧ concrete v) items →
  wp (runComp rec1 offset elemN var cond syms elemTarget elemType items) (produces syms m) m.
Proof.
  intros Hm Hn Hc Hs Ht He Hi. unfold runComp. eapply wp_then; [done|apply quiet_charge|]. intros m1 _ Hm1 E1 _.
  apply wp_bind. eapply wp_mono; [by apply collectCompElements_ok|]. intros m2 [out u] Hm2 [Hout Hcl2].
  cbn [fst snd] in *. destruct u.
  - apply wp_bind, wp_releaseAll; [done|]. intros m3 Hm3 _. eapply wp_mono; [by apply unresolvedComp_ok|].
    intros m4 v Hm4 Hv. split; [done|]. intros Hcl. by destruct (Hcl2 Hcl).
  - unfold buildCompResult. destruct (elemTypeOf _ _) as [elem|] eqn:Hel; [|by apply wp_errorAt].
    apply elemTypeOf_resolved in Hel; [|done|apply types_canonical; eapply Forall_impl; [exact Hout|]; by intros v []].
    eapply wp_thenAt; [done|by apply quiet_lift, coerceAll_answers|]. intros m3 conv Hm3 E3 Hconv.
    apply wp_bind, wp_releaseAll; [done|]. intros m4 Hm4 E4. apply wp_ret; [done|].
    destruct (list_answers elem conv Hel Hconv) as (? & ? & _). split; [done|].
    intros Hcl. destruct (Hcl2 Hcl) as [_ E2]. split; [done|]. destruct Hm. rewrite E4; lia.
Qed.

Lemma iterItems_good iter : wf iter → good (iterItems iter) (Forall (λ v, wf v ∧ concrete v)).
Proof.
  intros Hw. destruct iter as [| | | | | |s|e l|]; try done; cbn [iterItems].
  - eapply good_bind; [apply rangeInts_good|]. intros ints Hi. cbn.
    eapply Forall_impl; [by apply intValues_has|]. naive_solver.
  - cbn. apply wf_list in Hw as [_ Hw]. eapply Forall_impl; [exact Hw|]. naive_solver.
Qed.

Lemma reserveIterable_quiet iter : quiet (reserveIterable iter) (λ _, True).
Proof.
  destruct iter; try (by apply quiet_ret); [apply quiet_reserveRangeExprExpansion|apply quiet_reserve].
Qed.

Lemma evalListComp_ok offset elemN var varOffset iterN cond syms target m :
  valid m → wfNode strict elemN → wfNode strict iterN → match cond with Some c => wfNode strict c | None => True end →
  wfSyms syms → canonical target →
  wp (evalListComp rec1 offset elemN var varOffset iterN cond syms target) (produces syms m) m.
Proof.
  intros Hm Hn Hit Hc Hs Ht. unfold evalListComp. pose proof (listElemTarget_resolved target Ht) as Het.
  eapply wp_eval; [done..|]. intros m1 iter Hm1 (Hv & _ & _ & Hcl1).
  destruct (iterableElem (typeOf iter)) as [elemType|] eqn:Hel; [|by apply wp_errorAt].
  apply iterableElem_resolved in Hel; [|by apply typeOf_canonical].
  destruct (syms var); [by apply wp_errorAt|]. destruct (IsUnresolved iter) eqn:Hu.
  - apply wp_bind. eapply wp_mono; [by apply unresolvedComp_ok|]. intros m2 out Hm2 Hout.
    apply wp_free; [done|]. intros m3 Hm3 _. apply wp_ret; [done|]. split; [done|].
    intros Hcl. destruct (Hcl1 Hcl) as [Hcv _]. unfold concrete in Hcv. congruence.
  - eapply wp_thenAt; [done|apply reserveIterable_quiet|]. intros m2 _ Hm2 E2 _.
    eapply wp_thenAt; [done|by apply quiet_lift, iterItems_good|]. intros m3 items Hm3 E3 Hitems.
    apply wp_free; [done|]. intros m4 Hm4 E4.
    eapply wp_thenAt; [done|apply quiet_lift, checkElementCount_good|]. intros m5 _ Hm5 E5 _.
    eapply wp_mono; [by apply runComp_ok|]. intros m6 v Hm6 [Hwv Hcl6]. split; [done|].
    intros Hcl. destruct (Hcl1 Hcl), (Hcl6 Hcl). split; [done|]. destruct Hm. lia.
Qed.

(** *** Names, properties and calls *)

Lemma callFunction_quiet name args ms :
  Forall wf args → quiet (callFunction ec name args ms) (answer (existsb IsUnresolved args)).
Proof.
  intros Ha. unfold callFunction. destruct (functionShapes name) as [shapes|] eqn:Hf; [|by apply quiet_raise].
  apply select_quiet; [|done|done]. by eapply functions_sound.
Qed.

Lemma evalProperty_quiet recv attr offset :
  wf recv → quiet (evalProperty ec recv attr offset) (answer (IsUnresolved recv)).
Proof.
  intros Hw m. unfold evalProperty. destruct (isDunder attr); [by split|].
  pose proof (callFunction_quiet (propertyFuncName attr) [recv] true ltac:(by constructor) m) as Hq.
  cbn [existsb] in Hq. rewrite orb_false_r in Hq.
  destruct (callFunction _ _ _ _ m) as [m' [v|e]]; [exact Hq|]. destruct Hq as [Hf Hr]. cbn [fst snd] in *.
  destruct (what e) eqn:Hwe; split; first [exact Hf|exact Hr|cbn; done].
Qed.

Lemma evalProperties_quiet attrs offset : ∀ v,
  wf v → quiet (evalProperties ec v attrs offset) (answer (IsUnresolved v)).
Proof.
  induction attrs as [|attr attrs IH]; intros v Hv; cbn [evalProperties]; [by apply quiet_ret|].
  eapply quiet_bind; [by apply evalProperty_quiet|]. intros w [Hw Hc]. eapply quiet_weaken; [by apply IH|].
  intros x [Hx Hcx]. split; [done|]. intros Hu. apply Hcx, Hc, Hu.
Qed.

Lemma resolveName_wf syms parts v p rest :
  wfSyms syms → resolveName syms parts = Some (v, p, rest) → wf v ∧ (closed syms → concrete v).
Proof.
  intros Hs. unfold resolveName. induction (length parts) as [|i IH]; cbn [resolvePrefix]; [done|].
  destruct (syms (join _ _)) as [w|] eqn:E; [|exact IH]. intros [= <- <- <-]. split; [by eapply Hs|].
  intros Hcl. by eapply Hcl.
Qed.

Lemma evalName_ok offset parts syms m :
  valid m → wfSyms syms → wp (evalName ec offset parts syms) (produces syms m) m.
Proof.
  intros Hm Hs. unfold evalName. destruct (resolveName syms parts) as [[[v p] rest]|] eqn:E; [|by apply wp_errorAt].
  apply resolveName_wf in E as [Hw Hc]; [|done]. eapply wp_quiet; [done|by apply evalProperties_quiet|].
  intros m' out Hm' E' [Ho Hoc]. split; [done|]. intros Hcl. split; [apply Hoc, Hc, Hcl|done].
Qed.

Lemma evalAccess_ok offset x attr syms m :
  valid m → wfNode strict x → wfSyms syms → wp (evalAccess ec rec1 offset x attr syms) (produces syms m) m.
Proof.
  intros Hm Hx Hs. unfold evalAccess. eapply wp_eval; [done..|]. intros m1 v Hm1 (Hv & _ & _ & Hcl1).
  eapply wp_then; [done|by apply evalProperty_quiet|]. intros m2 out Hm2 E2 [Ho Hoc].
  apply wp_free; [done|]. intros m3 Hm3 E3. apply wp_ret; [done|]. split; [done|].
  intros Hcl. destruct (Hcl1 Hcl) as [Hc1 E1]. split; [apply Hoc, Hc1|]. destruct Hm. lia.
Qed.

(** The receiver of a call, and whether it was counted. *)
Lemma callTarget_ok offset callee syms m :
  valid m → wfNode strict callee → wfSyms syms →
  wp (callTarget ec rec1 offset callee syms)
    (λ m' p, (∀ v, p.2 = Some v → wf v) ∧
       (closed syms → (∀ v, p.2 = Some v → concrete v) ∧
          mem m' = mem m + match callee, p.2 with Access _ _ _, Some v => sizeOf v | _, _ => 0 end)) m.
Proof.
  intros Hm Hc Hs. destruct callee as [| | | | |o parts| | | | | | | | | |o x attr|]; try (by apply wp_errorAt);
    cbn [callTarget].
  - unfold nameTarget. destruct (resolveName syms parts) as [[[v p] rest]|] eqn:E.
    + apply resolveName_wf in E as [Hw Hcv]; [|done]. destruct (last rest) as [method|]; [|by apply wp_errorAt].
      eapply wp_then; [done|by apply evalProperties_quiet|]. intros m1 cur Hm1 E1 [Hcur Hcc].
      destruct (isDunder method); [by apply wp_errorAt|]. apply wp_ret; [done|]. split; [by intros ? [= <-]|].
      intros Hcl. split; [intros ? [= <-]; apply Hcc, Hcv, Hcl|]. lia.
    + destruct parts as [|fn [|? ?]]; try (by apply wp_errorAt). destruct (isDunder fn); [by apply wp_errorAt|].
      apply wp_ret; [done|]. split; [done|]. intros _. split; [done|]. lia.
  - destruct (isDunder attr); [by apply wp_errorAt|]. eapply wp_eval; [done..|].
    intros m1 v Hm1 (Hv & _ & _ & Hcl1). apply wp_ret; [done|]. split; [by intros ? [= <-]|].
    intros Hcl. destruct (Hcl1 Hcl). split; [by intros ? [= <-]|done].
Qed.

Lemma evalArgs_ok syms : ∀ args m,
  valid m → Forall (wfNode strict) args → wfSyms syms → wp (evalArgs rec1 args syms) (collected syms m) m.
Proof.
  induction args as [|n args IH]; intros m Hm Hn Hs; cbn [evalArgs].
  - apply wp_ret; [done|]. split; [constructor|]. intros _. split; [constructor|]. cbn. lia.
  - apply Forall_cons in Hn as [Hn Hns]. eapply wp_eval; [done..|]. intros m1 v Hm1 (Hv & _ & _ & Hcl1).
    apply wp_bind. eapply wp_mono; [by apply IH|].
    intros m2 vals Hm2 [Hw Hcl2]. apply wp_ret; [done|]. split; [by constructor|].
    intros Hcl. destruct (Hcl1 Hcl), (Hcl2 Hcl). split; [by constructor|]. cbn [sizes foldr]. fold (sizes vals). lia.
Qed.

Lemma concrete_none vals : Forall concrete vals → existsb IsUnresolved vals = false.
Proof. induction 1 as [|v vals Hv _ IH]; cbn [existsb]; [done|]. by rewrite Hv, IH. Qed.

Lemma evalCall_ok offset callee args syms m :
  valid m → wfNode strict callee → Forall (wfNode strict) args → wfSyms syms →
  wp (evalCall ec rec1 offset callee args syms) (produces syms m) m.
Proof.
  intros Hm Hc Ha Hs. unfold evalCall. apply wp_bind. eapply wp_mono; [by apply callTarget_ok|].
  intros m1 [name recv] Hm1 [Hrw Hcl1]. cbn [snd] in *.
  apply wp_bind. eapply wp_mono; [by apply evalArgs_ok|]. intros m2 vals Hm2 [Hw Hcl2].
  set (all := match recv with Some v => v :: vals | None => vals end).
  assert (Hall : Forall wf all) by (unfold all; destruct recv; [constructor; auto|done]).
  assert (Hcall : closed syms → Forall concrete all).
  { intros Hcl. destruct (Hcl1 Hcl) as [Hr _], (Hcl2 Hcl) as [Hv _]. unfold all. destruct recv; [constructor; auto|done]. }
  eapply wp_thenAt; [done|by apply callFunction_quiet|]. intros m3 out Hm3 E3 [Ho Hoc].
  apply wp_bind, wp_releaseAll; [done|]. intros m4 Hm4 E4. apply wp_ret; [done|]. split; [done|].
  intros Hcl. split; [by apply Hoc, concrete_none, Hcall|].
  destruct (Hcl1 Hcl) as [_ E1], (Hcl2 Hcl) as [_ E2]. destruct Hm as [H0 _].
  pose proof (sizes_nonneg vals) as Hnn. rewrite E4; clear E4.
  all: destruct recv as [v|]; [pose proof (sizeOf_pos v)|]; destruct callee; cbn [sizes foldr] in *; fold (sizes vals) in *; lia.
Qed.

(** ** Dispatch *)

Lemma applyUnary_neg k m v m' : in_int k → applyUnary ec OpNeg (VInt k) m = (m', Ok v) → v = VInt (- k).
Proof.
  intros Hk H. set (s := plainShape [TInt] TInt (shapeUnary negIntValue)).
  assert (Hm : matchShapes (unaryShapes OpNeg) [TInt] = Some (s, noBindings)) by reflexivity.
  unfold applyUnary in H. cbn [typeOf] in H. rewrite Hm in H. clear Hm. cbn [IsUnresolved] in H.
  unfold callShape, bind in H. destruct (charge 1 m) as [m1 [[]|e]]; [|discriminate H].
  change (convertArgs (Params s) noBindings [VInt k] m1) with (m1, @Ok Failure _ [VInt k]) in H. cbv beta iota in H.
  change (chargeArgs (ShapeCost s) [VInt k] m1) with (m1, @Ok Failure _ tt) in H. cbv beta iota in H.
  change (Fn s ec [VInt k] m1) with (lift (let? out := negInt k in Ok (VInt out)) m1) in H.
  rewrite negInt_exact in H by done. unfold exactly in H. case_decide; cbn [res_bind lift] in H; [|discriminate H].
  change (chargeResult (ShapeCost s) (VInt (- k)) m1) with (m1, @Ok Failure _ tt) in H. cbv beta iota in H.
  injection H as _ <-. reflexivity.
Qed.

Lemma evalDispatch_ok n syms target m :
  cap ≤ 2 ^ 62 → valid m → wfNode strict n → wfSyms syms → canonical target →
  wp (evalDispatch ec rec rec1 n syms target) (produces syms m) m.
Proof.
  intros Hcap Hm Hn Hs Ht. destruct n; cbn [evalDispatch wfNode] in *; rewrite ?wfNodes in Hn; destruct_and?.
  - by apply wp_ret.
  - by apply wp_ret.
  - by apply wp_ret.
  - by apply wp_ret.
  - by apply wp_ret.
  - by apply evalName_ok.
  - by apply evalUnary_ok.
  - by apply evalBinary_ok.
  - by apply evalCompare_ok.
  - by apply evalLogical_ok.
  - by apply evalCond_ok.
  - by apply evalListLit_ok.
  - by apply evalIndex_ok.
  - by apply evalSlice_ok.
  - by apply evalListComp_ok.
  - by apply evalAccess_ok.
  - by apply evalCall_ok.
Qed.

Lemma wp_and {A} (c : M A) Φ Ψ m : wp c Φ m → wp c Ψ m → wp c (λ m' a, Φ m' a ∧ Ψ m' a) m.
Proof. unfold wpAt. destruct (c m) as [m' [a|e]]; intros [H1 H2] [H3 H4]; [by split|done]. Qed.

(** A literal evaluates to its value. *)
Lemma evalDispatch_lit n syms target m z :
  valid m → wfNode strict n → wfSyms syms → litValue n = Some z →
  wp (evalDispatch ec rec rec1 n syms target) (λ _ v, v = VInt z) m.
Proof.
  intros Hm Hn Hs Hz. destruct n as [| | | | | |o op x| | | | | | | | | |]; try done; cbn [evalDispatch].
  - injection Hz as <-. by apply wp_ret.
  - destruct op; try done. destruct x as [o' k| | | | | | | | | | | | | | | |]; try done. injection Hz as <-.
    unfold evalUnary. eapply wp_eval; [done..|]. intros m1 v Hm1 (_ & _ & Hlit & _). rewrite (Hlit k eq_refl).
    apply wp_bind, wp_wrapAt. pose proof (applyUnary_quiet ec OpNeg (VInt k) Hn m1) as [Hf Hr].
    unfold wpAt. destruct (applyUnary ec OpNeg (VInt k) m1) as [m2 [out|e]] eqn:E; cbn [fst snd] in *;
      pose proof (framed_valid _ _ _ Hf Hm1) as Hm2; [|by split; [|apply harmless_tolerable]].
    split; [done|]. apply applyUnary_neg in E; [|done]. apply wp_free; [done|]. intros m3 Hm3 _. by apply wp_ret.
Qed.
End Handlers.

(** ** Evaluation *)

Section Evaluation.
Context {arch : Platform} {tables : CaseTables} {funcs : FunctionTable}.

Lemma evalNode_runs ec strict cap : cap ≤ 2 ^ 62 → ∀ fuel, runs strict cap (evalNode ec fuel).
Proof.
  intros Hcap. assert (Hall : ∀ fuel f, (f ≤ fuel)%nat → runs strict cap (evalNode ec f)).
  { induction fuel as [|fuel IH]; intros f Hf n syms target m Hm Hn Hs Ht; destruct f as [|f];
      cbn [evalNode]; try lia; try (by apply wp_errorAt).
    assert (Hr : runs strict cap (evalNode ec f)) by (apply IH; lia).
    assert (Hr1 : runs strict cap (evalNode ec (Nat.pred f))) by (apply IH; lia).
    apply wp_bind. eapply wp_mono.
    { apply (wp_and strict cap _ (produces syms m) (λ _ v, ∀ z, litValue n = Some z → v = VInt z)).
      - by apply evalDispatch_ok.
      - destruct (litValue n) as [z|] eqn:Hz.
        + eapply wp_mono; [by eapply evalDispatch_lit|]. intros m' v _ -> z' [= <-]. done.
        + eapply wp_mono; [by apply evalDispatch_ok|]. done. }
    intros m1 v Hm1 [[Hv Hcl] Hlit]. apply wp_bind, wp_alloc; [done|]. intros m2 Hm2 E2 Hsz.
    apply wp_ret; [done|]. split_and!; try done. intros Hc. destruct (Hcl Hc). split; [done|]. lia. }
  intros fuel. by apply (Hall fuel).
Qed.

(** What a value owes the target of its evaluation. *)
Definition conforms (v : Value) (target : Ty) : Prop :=
  match v with VUnresolved n => ∀ x, has x n → has x target | _ => has v target end.

Lemma coerceTop_ok strict cap root v target m :
  validAt cap m → wf v → canonical target →
  wpAt strict cap (coerceTop root v target)
    (λ m' out, wf out ∧ conforms out target ∧ (concrete v → concrete out) ∧ sizeOf out ≤ cap ∧
       mem m' = Z.max 0 (mem m - sizeOf v) + sizeOf out) m.
Proof.
  intros Hm Hv Ht. unfold coerceTop.
  eapply wp_thenAt; [done|apply quiet_reserveRangeExprCoercion|]. intros m1 _ Hm1 E1 _.
  eapply (wp_thenAt _ _ _ _ _ (λ out, wf out ∧ conforms out target ∧ (concrete v → concrete out))); [done| |].
  { apply quiet_lift. pose proof (coerce_spec v target Hv Ht) as Hc. destruct (coerce v target) as [out|e]; [|exact Hc].
    destruct Hc as [Hw Hc]. cbn. split; [done|]. destruct v; try (destruct Hc as [Hco Hh]; by destruct out).
    destruct Hc as (n & -> & Hn). done. }
  intros m2 out Hm2 E2 (Hw & Hconf & Hco). apply wp_free; [done|]. intros m3 Hm3 E3.
  apply wp_bind, wp_alloc; [done|]. intros m4 Hm4 E4 Hsz. apply wp_ret; [done|]. split_and!; try done. lia.
Qed.

Lemma Eval_spec strict now root syms target opts :
  ecMemLimit (newEvalCtx now opts) ≤ 2 ^ 62 →
  wfNode strict root → wfSyms syms → canonical target →
  match Expression_Eval now root syms target opts with
  | (_, Err e) => tolerableIn strict (what e)
  | (m, Ok v) =>
      wf v ∧ conforms v target ∧ sizeOf v ≤ memLimit m ∧ (closed syms → concrete v ∧ mem m = sizeOf v)
  end.
Proof.
  intros Hcap Hn Hs Ht. unfold Expression_Eval. destruct (limitErr _); [done|].
  set (c := newEvalCtx now opts) in *. set (cap := ecMemLimit c) in *.
  set (m0 := newMeter cap (ecOpLimit c) (ecDeadline c) (ecClock c)).
  assert (Hm0 : validAt cap m0) by (split; [cbn; lia|done]).
  assert (Hwp : wpAt strict cap (let* v := evalNode (ecCtx c) maxEvalDepth root syms target in coerceTop root v target)
    (λ m v, wf v ∧ conforms v target ∧ sizeOf v ≤ memLimit m ∧ (closed syms → concrete v ∧ mem m = sizeOf v)) m0).
  { apply wp_bind. eapply wp_mono; [by apply evalNode_runs|]. intros m1 v Hm1 (Hv & _ & _ & Hcl1).
    eapply wp_mono; [by apply coerceTop_ok|]. intros m2 out Hm2 (Hw & Hconf & Hco & Hsz & E2).
    split_and!; try done.
    - destruct Hm2 as [_ ->]. done.
    - intros Hcl. destruct (Hcl1 Hcl) as [Hc E1]. split; [auto|]. rewrite E1 in E2. cbn in E2. lia. }
  unfold wpAt in Hwp. match type of Hwp with context [bind ?a ?k m0] => destruct (bind a k m0) as [m [v|e]] end;
    by destruct Hwp.
Qed.
End Evaluation.

(** ** What evaluation promises *)

Section Promises.
Context {arch : Platform} {tables : CaseTables} {funcs : FunctionTable}.

(** Evaluation is safe: on a tree such as the parser builds, whose slice steps
    are absent or literals of at most [2^62], with a well-formed symbol table, under
    any options, [Expression.Eval] reads no payload of another type and no index out
    of range, whatever it fails with; and what it returns is well-formed, conforms
    to the target type and fits in the memory limit. *)
Theorem evaluation_safe now root syms target opts :
  ecMemLimit (newEvalCtx now opts) ≤ 2 ^ 62 →
  wfNode true root → wfSyms syms → canonical target →
  match Expression_Eval now root syms target opts with
  | (_, Err e) => what e ≠ EPanic ∧ what e ≠ EIndexPanic
  | (m, Ok v) => wf v ∧ conforms v target ∧ sizeOf v ≤ memLimit m
  end.
Proof.
  intros Hcap Hn Hs Ht. pose proof (Eval_spec true now root syms target opts Hcap Hn Hs Ht) as H.
  destruct (Expression_Eval now root syms target opts) as [m [v|e]].
  - by destruct H as (? & ? & ? & _).
  - destruct H as [H1 H2]. by split; [|apply H2].
Qed.

(** The count of live bytes is exact: when no symbol is a placeholder, an
    evaluation that succeeds returns no placeholder, and what the meter counts as
    live at its end is exactly the size of the result. Every intermediate value was
    counted once and released once, for any slice steps and on every path. *)
Theorem evaluation_memory_exact now root syms target opts m v :
  ecMemLimit (newEvalCtx now opts) ≤ 2 ^ 62 →
  wfNode false root → wfSyms syms → closed syms → canonical target →
  Expression_Eval now root syms target opts = (m, Ok v) →
  concrete v ∧ mem m = sizeOf v.
Proof.
  intros Hcap Hn Hs Hcl Ht E. pose proof (Eval_spec false now root syms target opts Hcap Hn Hs Ht) as H.
  rewrite E in H. destruct H as (_ & _ & _ & H). by apply H.
Qed.
End Promises.

(** ** Examples *)

#[local] Existing Instances samplePlatform asciiTables.

(** A table without functions. *)
Lemma no_functions (name : str) (l : list FnShape) : None = Some l → Forall sound l.
Proof. discriminate. Qed.

Definition noFunctions : FunctionTable := mkFunctions _ _ (λ _, None) no_functions.
#[local] Existing Instance noFunctions.

(** The list of [f * 2] for [f] in [Param.Frames] if [f > 3], reversed by a slice. *)
Definition sampleTree : Node :=
  let f := Name 1 [of_string "f"] in
  Slice 50
    (ListComp 0 (Binary 3 OpMul f (IntLit 5 2)) (of_string "f") 11
       (Name 16 [of_string "Param"; of_string "Frames"])
       (Some (Compare 34 [OpGt] [f; IntLit 38 3] [36])))
    None None (Some (Unary 54 OpNeg (IntLit 55 1))).

Definition sampleSyms : Symbols := λ n,
  if bool_decide (n = of_string "Param.Frames") then Some (VRange (of_string "1-7:2")) else None.

Lemma sampleSyms_wf : wfSyms sampleSyms.
Proof.
  intros n v. unfold sampleSyms. case_bool_decide; [|done]. intros [= <-]. by vm_compute.
Qed.

Lemma sampleSyms_closed : closed sampleSyms.
Proof. intros n v. unfold sampleSyms. case_bool_decide; [|done]. by intros [= <-]. Qed.

Lemma sampleTree_wf strict : wfNode strict sampleTree.
Proof. cbn. unfold in_int, MinInt, MaxInt. split_and!; first [done|lia|intros _; split_and!; lia]. Qed.

Lemma evaluation_safe_witness :
  match Expression_Eval (λ _, 0) sampleTree sampleSyms (TList TInt) [] with
  | (_, Err e) => what e ≠ EPanic ∧ what e ≠ EIndexPanic
  | (m, Ok v) => wf v ∧ conforms v (TList TInt) ∧ sizeOf v ≤ memLimit m
  end ∧
  snd (Expression_Eval (λ _, 0) sampleTree sampleSyms (TList TInt) []) = Ok (VList TInt [VInt 14; VInt 10]).
Proof.
  split; [|by vm_compute].
  apply (evaluation_safe (λ _, 0) sampleTree sampleSyms (TList TInt) []);
    [by vm_compute|apply sampleTree_wf|apply sampleSyms_wf|done].
Defined.

Lemma evaluation_memory_exact_witness :
  ∃ m, Expression_Eval (λ _, 0) sampleTree sampleSyms (TList TInt) [] = (m, Ok (VList TInt [VInt 14; VInt 10])) ∧
       mem m = 192 ∧ concrete (VList TInt [VInt 14; VInt 10]) ∧ mem m = sizeOf (VList TInt [VInt 14; VInt 10]).
Proof.
  eexists. split; [vm_compute; reflexivity|]. split; [reflexivity|].
  apply (evaluation_memory_exact (λ _, 0) sampleTree sampleSyms (TList TInt) []);
    [by vm_compute|apply sampleTree_wf|apply sampleSyms_wf|apply sampleSyms_closed|done|by vm_compute].
Defined.
