(* ===== verification/ExprDefects.v ===== *)
(** * Runs of the expression evaluator that go wrong

    Three inputs on which src/internal/openjd/expr does not do what its comments
    say, as runs of the model on trees the parser builds: an index panic of a
    slice, a comprehension refused for a placeholder and accepted for every value,
    and an operation limit that is passed. *)

From S2P Require Import Prelude StatusText GoText IntRange RangeExpr ExprType ExprFloat ExprValue ExprRange ExprCoerce ExprNarrow ExprPath ExprArith ExprShape ExprOps ExprQuiet ExprEval ExprSound.
Open Scope Z_scope.

Section Defects.
Context {arch : Platform} {tables : CaseTables} {funcs : FunctionTable}.

(** The outcome of an evaluation: its result, or what it failed with. *)
Definition outcome (root : Node) (syms : Symbols) (target : Ty) (opts : list Option) : res EErr Value :=
  match snd (Expression_Eval (λ _, 0) root syms target opts) with
  | Ok v => Ok v
  | Err e => Err (what e)
  end.

(** A table with the given symbols. *)
Definition symbols (l : list (string * Value)) : Symbols := λ n,
  match find (λ kv, bool_decide (n = of_string kv.1)) l with Some kv => Some kv.2 | None => None end.

Definition sym (name : string) : Node := Name 0 [of_string name].

(** The list [1, 2, 3] from its second element on, in steps of the greatest integer. *)
Definition hugeStepSlice : Node :=
  Slice 9 (ListLit 0 [IntLit 1 1; IntLit 4 2; IntLit 7 3]) (Some (IntLit 10 1)) None (Some (IntLit 13 MaxInt)).

(** A constant text for each element of [Frames]. *)
Definition constantComp : Node :=
  ListComp 0 (StringLit 1 (of_string "a")) (of_string "x") 9 (sym "Frames") None.

(** Three additions, and the same in the branch not taken of a conditional whose
    condition is not known, after an index into a range of [2^63] integers. *)
Definition costly : Node :=
  let two := Binary 2 OpAdd (IntLit 1 1) (IntLit 3 1) in ListLit 0 [two; two; two].

Definition hidden : Node := Cond 0 (Index 0 (sym "Range") (IntLit 6 0)) (sym "Unknown") costly.

Definition wideRange : list (string * Value) :=
  [("Range"%string, VRange (of_string "0-9223372036854775807")); ("Unknown"%string, VUnresolved TBool)].

(** A slice can index out of range: a list of three elements sliced from
    index 1 with the greatest integer as step makes the index wrap around, and the
    evaluation panics instead of returning the second element, which a step of 5
    gives. *)
Theorem slice_panics :
  outcome hugeStepSlice (symbols []) TAny [] = Err EIndexPanic ∧
  outcome (Slice 9 (ListLit 0 [IntLit 1 1; IntLit 4 2; IntLit 7 3]) (Some (IntLit 10 1)) None (Some (IntLit 13 5)))
    (symbols []) TAny [] = Ok (VList TInt [VInt 2]).
Proof. split; vm_compute; reflexivity. Qed.

(** A placeholder is refused where values are accepted: a comprehension with a
    constant element over an unresolved list of integers, evaluated for a list of
    strings, fails as not coercible, while over each of the lists of up to nine
    integers that the placeholder may stand for it succeeds; checking a template
    rejects what would run. *)
Theorem comprehension_refused :
  outcome constantComp (symbols [("Frames"%string, VUnresolved (TList TInt))]) (TList TString) [] = Err ENotCoercible ∧
  Forall (λ n, outcome constantComp (symbols [("Frames"%string, VList TInt (replicate n (VInt 7)))]) (TList TString) [] =
                 Ok (VList TString (replicate n (VString (of_string "a"))))) (seq 0 10).
Proof. split; [vm_compute; reflexivity|]. repeat constructor; vm_compute; reflexivity. Qed.

End Defects.
