(* ===== verification/ExprLex.v ===== *)
(** * Tokens of the expression language

    src/internal/openjd/expr: the tokens (token.go), the lexer (lexer.go) and the names
    of Unicode characters (unicodename.go), with the integer parser of Go's [strconv]
    they call.

    A position is the offset and the source from there on.  [tokenize_tiles] states
    that the tokens are the source: each is a piece of it at its offset, with nothing
    but white space between them. *)

From Stdlib Require Import SpecFloat.
From S2P Require Import Prelude StatusText GoText ExprType ExprFloat ExprValue ExprText ExprRe.
Open Scope Z_scope.

(** ** Errors *)

(** What a syntax error says. *)
Inductive SMsg :=
  | MTooLarge | MEmpty | MUnexpectedChar | MFloatLiteral | MLeadingZeros | MIntRange | MIntLiteral
  | MUnterminated | MNewline | MLoneBackslash | MHexDigits | MCodePoint | MNameBraces | MNameBrace | MUnknownName
  | MUnexpected | MExpected | MUnexpectedKeyword | MTooDeep | MElse | MIn | MGenerator | MSingleElement | MLoopVariable
  | MOneFilter | MOneFor | MAfterExpression.

(** errors.go [errorAt]: an offset and a message.  [SPanic] is a run-time panic, and
    [SFuel] the end of the fuel of a loop of the model. *)
Inductive SErr := SPanic | SFuel | SAt (at_ : Z) (msg : SMsg).

(** ** Tokens *)

(** token.go [tokenKind] *)
Inductive tokenKind :=
  | tokEOF | tokInt | tokFloat | tokString | tokIdent
  | tokPlus | tokMinus | tokStar | tokDoubleStar | tokSlash | tokDoubleSlash | tokPercent
  | tokLParen | tokRParen | tokLBracket | tokRBracket | tokComma | tokDot | tokColon
  | tokLt | tokGt | tokLe | tokGe | tokEq | tokNe.

#[export] Instance tokenKind_eq_dec : EqDecision tokenKind.
Proof. solve_decision. Defined.

(** token.go [token] *)
Record token := mkToken {
  kind : tokenKind;
  text : str;
  tokOffset : Z;
  tokI : Z;
  tokF : float64;
  tokS : str;
}.

Definition plainToken (k : tokenKind) (t : str) (off : Z) : token := mkToken k t off 0 fzero [].

(** token.go [operators], longest first *)
Definition operators : list (string * tokenKind) :=
  [ ("**"%string, tokDoubleStar); ("//"%string, tokDoubleSlash); ("<="%string, tokLe); (">="%string, tokGe);
    ("=="%string, tokEq); ("!="%string, tokNe);
    ("+"%string, tokPlus); ("-"%string, tokMinus); ("*"%string, tokStar); ("/"%string, tokSlash); ("%"%string, tokPercent);
    ("("%string, tokLParen); (")"%string, tokRParen); ("["%string, tokLBracket); ("]"%string, tokRBracket);
    (","%string, tokComma); ("."%string, tokDot); (":"%string, tokColon); ("<"%string, tokLt); (">"%string, tokGt) ].

(** ** Characters *)

Definition dquote : ascii := byte_chr 34.

(** lexer.go [isQuote], [isIdentStart], [isIdentPart], [isBasePrefix], [isBaseDigit] *)
Definition isQuote (c : ascii) : bool := is_byte c "'" || is_byte c dquote.

Definition isIdentStart (c : ascii) : bool :=
  let b := byte_val c in is_byte c "_" || between 97 122 b || between 65 90 b.

Definition isIdentPart (c : ascii) : bool := isIdentStart c || is_digit c.

Definition isBasePrefix (c : ascii) : bool :=
  is_byte c "x" || is_byte c "X" || is_byte c "o" || is_byte c "O" || is_byte c "b" || is_byte c "B".

Definition isBaseDigit (c : ascii) : bool := isHexDigit c.

(** lexer.go [skipSpace] *)
Definition isBlank (c : ascii) : bool := let b := byte_val c in (b =? 32) || between 9 13 b.

(** ** Numbers *)

(** The loop of [strconv.ParseUint] for 64 bits: [Err true] out of range, [Err false]
    malformed.  Underscores are skipped when the base was left open. *)
Fixpoint uintDigits (open : bool) (base : Z) (s : str) (n : Z) : res bool Z :=
  match s with
  | [] => Ok n
  | c :: s' =>
      if is_byte c "_" && open then uintDigits open base s' n
      else
        let d :=
          if is_digit c then Some (digit_val c)
          else if between 97 122 (lower c) then Some (lower c - 87)
          else None in
        match d with
        | None => Err false
        | Some d =>
            if base <=? d then Err false
            else if 2 ^ 64 <=? n * base + d then Err true
            else uintDigits open base s' (n * base + d)
        end
  end.

(** The base of a literal, and its digits. *)
Definition basePrefix (s : str) : Z * str :=
  match s with
  | z :: x :: (_ :: _) as s' =>
      if is_byte z "0" then
        if lower x =? 98 then (2, drop 2 s)
        else if lower x =? 111 then (8, drop 2 s)
        else if lower x =? 120 then (16, drop 2 s)
        else (8, drop 1 s)
      else (10, s)
  | z :: _ => if is_byte z "0" then (8, drop 1 s) else (10, s)
  | [] => (10, s)
  end.

(** [strconv.underscoreOK] *)
Definition underscoreOK (s : str) : bool :=
  match s with
  | z :: x :: rest =>
      if is_byte z "0" && ((lower x =? 98) || (lower x =? 111) || (lower x =? 120)) then
        underscores_ok (lower x =? 120) (Some true) rest
      else underscores_ok false None s
  | _ => underscores_ok false None s
  end.

(** [strconv.ParseInt(s, 0, 64)] of a text without a sign *)
Definition ParseInt0 (s : str) : res bool Z :=
  match s with
  | [] => Err false
  | _ =>
      let '(base, digits) := basePrefix s in
      let? n := uintDigits true base digits 0 in
      if existsb (λ c, is_byte c "_") digits && negb (underscoreOK s) then Err false
      else if MaxInt <? n then Err true
      else Ok n
  end.

(** lexer.go [scanDigits], [scanExponent], [scanNumber]: how many bytes are read. *)
Definition scanDigits (ok : ascii → bool) (s : str) : nat := leading (λ c, ok c || is_byte c "_") s.

Definition scanExponent (s : str) : option nat :=
  match s with
  | e :: s' =>
      if is_byte e "e" || is_byte e "E" then
        let '(k, rest) :=
          match s' with
          | c :: rest => if is_byte c "+" || is_byte c "-" then (2%nat, rest) else (1%nat, s')
          | [] => (1%nat, s')
          end in
        match rest with
        | d :: _ => if is_digit d then Some (k + scanDigits is_digit rest)%nat else None
        | [] => None
        end
      else None
  | [] => None
  end.

Definition scanNumber (s : str) : bool * bool * nat :=
  let decimal :=
    let k1 := scanDigits is_digit s in
    let '(isFloat, k2) :=
      match drop k1 s with
      | c :: rest => if is_byte c "." then (true, (k1 + 1 + scanDigits is_digit rest)%nat) else (false, k1)
      | [] => (false, k1)
      end in
    match scanExponent (drop k2 s) with
    | Some n => (true, false, (k2 + n)%nat)
    | None => (isFloat, false, k2)
    end in
  match s with
  | z :: x :: rest => if is_byte z "0" && isBasePrefix x then (false, true, (2 + scanDigits isBaseDigit rest)%nat) else decimal
  | _ => decimal
  end.

(** lexer.go [checkNoLeadingZeros]: whether the literal is refused. *)
Definition leadingZeros (t : str) : bool :=
  match filter (λ c, is_byte c "_" = false) t with
  | z :: rest => negb (bool_decide (rest = [])) && is_byte z "0" && existsb (λ c, negb (is_byte c "0")) (z :: rest)
  | [] => false
  end.

(** lexer.go [lexNumber] *)
Definition lexNumber (off : Z) (s : str) : res SErr (token * nat) :=
  let '(isFloat, based, k) := scanNumber s in
  let t := take k s in
  if isFloat then
    match ParseFloat t with
    | Some f => Ok (mkToken tokFloat t off 0 f [], k)
    | None => Err (SAt off MFloatLiteral)
    end
  else if negb based && leadingZeros t then Err (SAt off MLeadingZeros)
  else
    match ParseInt0 t with
    | Ok i => Ok (mkToken tokInt t off i fzero [], k)
    | Err true => Err (SAt off MIntRange)
    | Err false => Err (SAt off MIntLiteral)
    end.

(** ** Names of characters *)

(** [runenames.Name] of golang.org/x/text, and [strings.ToUpper]. *)
Class RuneNames := mkRuneNames {
  runeName : Z → str;
  ToUpper : str → str;
}.

Definition MaxRune : Z := 1114111.
Definition cjkIdeographPrefix : str := of_string "CJK UNIFIED IDEOGRAPH-".

(** The value of hexadecimal digits, none when there is none or another byte. *)
Fixpoint hexFrom (s : str) (n : Z) : option Z :=
  match s with
  | [] => Some n
  | c :: s' =>
      if is_digit c then hexFrom s' (n * 16 + digit_val c)
      else if between 97 102 (lower c) then hexFrom s' (n * 16 + (lower c - 87))
      else None
  end.

(** [strconv.ParseUint(s, 16, 32)] *)
Definition ParseHex (s : str) : option Z :=
  match s, hexFrom s 0 with
  | _ :: _, Some v => if v <? 2 ^ 32 then Some v else None
  | _, _ => None
  end.

Section Lexer.
Context {names : RuneNames}.

(** unicodename.go [cjkIdeographByName] *)
Definition cjkIdeographByName (nm : str) : option Z :=
  if has_prefix cjkIdeographPrefix nm then
    match ParseHex (drop (length cjkIdeographPrefix) nm) with
    | Some v => if (v <=? MaxRune) && has_prefix (of_string "<CJK") (runeName v) then Some v else None
    | None => None
    end
  else None.

(** The table of [buildRuneNames]: of the runes with a listed name, the last one of
    that name; [n] runes are left. *)
Fixpoint lastNamed (n : nat) (nm : str) : option Z :=
  match n with
  | O => None
  | S n' =>
      let listed := runeName (Z.of_nat n') in
      if bool_decide (listed = nm) && negb (bool_decide (listed = [])) && negb (has_prefix (of_string "<") listed)
      then Some (Z.of_nat n') else lastNamed n' nm
  end.

(** unicodename.go [unicodeByName] *)
Definition unicodeByName (nm : str) : option Z :=
  let nm := ToUpper (TrimSpace nm) in
  if bool_decide (nm = []) then None
  else match cjkIdeographByName nm with Some r => Some r | None => lastNamed (Z.to_nat (MaxRune + 1)) nm end.

(** ** Strings *)

(** lexer.go [writeHexEscape]: [rest] follows the marker. *)
Definition writeHexEscape (at_ : Z) (marker : ascii) (rest : str) (digits : nat) : res SErr (str * nat) :=
  if (length rest <? digits)%nat then Err (SAt at_ MHexDigits)
  else
    match ParseHex (take digits rest) with
    | None => Err (SAt at_ MHexDigits)
    | Some v =>
        if negb (is_byte marker "x") && ((MaxRune <? v) || between 55296 57343 v) then Err (SAt at_ MCodePoint)
        else Ok (EncodeRune v, (2 + digits)%nat)
    end.

Fixpoint indexByte (c : ascii) (s : str) : option nat :=
  match s with [] => None | d :: s' => if is_byte d c then Some 0%nat else S <$> indexByte c s' end.

(** lexer.go [writeNamedEscape]: [rest] follows the [N]. *)
Definition writeNamedEscape (at_ : Z) (rest : str) : res SErr (str * nat) :=
  match rest with
  | b :: _ =>
      if is_byte b "{" then
        match indexByte "}" rest with
        | None => Err (SAt at_ MNameBrace)
        | Some rel =>
            match unicodeByName (take (rel - 1) (drop 1 rest)) with
            | None => Err (SAt at_ MUnknownName)
            | Some r => Ok (EncodeRune r, (rel + 3)%nat)
            end
        end
      else Err (SAt at_ MNameBraces)
  | [] => Err (SAt at_ MNameBraces)
  end.

(** lexer.go [writeEscape]: [rest] follows the backslash.  The text written and how
    many bytes were read with the backslash. *)
Definition writeEscape (at_ : Z) (rest : str) : res SErr (str * nat) :=
  match rest with
  | [] => Err (SAt at_ MLoneBackslash)
  | c :: rest' =>
      if is_byte c backslash || is_byte c "'" || is_byte c dquote then Ok ([c], 2%nat)
      else if is_byte c "n" then Ok ([byte_chr 10], 2%nat)
      else if is_byte c "r" then Ok ([byte_chr 13], 2%nat)
      else if is_byte c "t" then Ok ([byte_chr 9], 2%nat)
      else if is_byte c "x" then writeHexEscape at_ c rest' 2
      else if is_byte c "u" then writeHexEscape at_ c rest' 4
      else if is_byte c "U" then writeHexEscape at_ c rest' 8
      else if is_byte c "N" then writeNamedEscape at_ rest'
      else Ok ([backslash; c], 2%nat)
  end.

(** lexer.go [decodeEscapes]; [at_] is the offset of the byte, and the first [skip]
    bytes are read already. *)
Fixpoint decodeEscapes (skip : nat) (at_ : Z) (body : str) : res SErr str :=
  match body with
  | [] => Ok []
  | c :: body' =>
      match skip with
      | S k => decodeEscapes k (at_ + 1) body'
      | O =>
          if is_byte c backslash then
            let? (t, n) := writeEscape at_ body' in
            let? out := decodeEscapes (n - 1) (at_ + 1) body' in
            Ok (t ++ out)
          else
            let? out := decodeEscapes 0 (at_ + 1) body' in
            Ok (c :: out)
      end
  end.

(** lexer.go [scanStringBody]: the length of the contents; [escaped] is set at a byte
    after a backslash. *)
Fixpoint scanStringBody (start : Z) (delim : str) (escaped : bool) (s : str) : res SErr nat :=
  match s with
  | [] => Err (SAt start MUnterminated)
  | c :: s' =>
      if escaped then let? n := scanStringBody start delim false s' in Ok (S n)
      else if has_prefix delim s then Ok 0%nat
      else if is_byte c backslash then let? n := scanStringBody start delim true s' in Ok (S n)
      else if (byte_val c =? 10) && negb (length delim =? 3)%nat then Err (SAt start MNewline)
      else let? n := scanStringBody start delim false s' in Ok (S n)
  end.

(** lexer.go [lexString] *)
Definition lexString (raw : bool) (off : Z) (s : str) : res SErr (token * nat) :=
  let r := if raw then 1%nat else 0%nat in
  match drop r s with
  | [] => Err SPanic
  | q :: _ =>
      let delim := if has_prefix [q; q; q] (drop r s) then [q; q; q] else [q] in
      let open := (r + length delim)%nat in
      let? n := scanStringBody off delim false (drop open s) in
      let body := take n (drop open s) in
      let k := (open + n + length delim)%nat in
      let? contents := (if raw then Ok body else decodeEscapes 0 (off + Z.of_nat open) body) in
      Ok (mkToken tokString (take k s) off 0 fzero contents, k)
  end.

(** ** The lexer *)

(** lexer.go [lexIdent] *)
Definition lexIdent (off : Z) (s : str) : token * nat :=
  let k := leading isIdentPart s in (plainToken tokIdent (take k s) off, k).

(** The operator a text begins with. *)
Fixpoint lexOperator (ops : list (string * tokenKind)) (off : Z) (s : str) : res SErr (token * nat) :=
  match ops with
  | [] => Err (SAt off MUnexpectedChar)
  | (op, k) :: ops' =>
      if has_prefix (of_string op) s then Ok (plainToken k (of_string op) off, length (of_string op))
      else lexOperator ops' off s
  end.

(** lexer.go [next], after the white space *)
Definition lexToken (off : Z) (s : str) : res SErr (token * nat) :=
  match s with
  | [] => Ok (plainToken tokEOF [] off, 0%nat)
  | c :: s' =>
      let follows f := match s' with d :: _ => f d | [] => false end in
      if is_digit c || (is_byte c "." && follows is_digit) then lexNumber off s
      else if isQuote c then lexString false off s
      else if (is_byte c "r" || is_byte c "R") && follows isQuote then lexString true off s
      else if isIdentStart c then Ok (lexIdent off s)
      else lexOperator operators off s
  end.

(** lexer.go [tokenize]; every token but the last has a byte. *)
Fixpoint tokenizeFrom (fuel : nat) (off : Z) (s : str) : res SErr (list token) :=
  match fuel with
  | O => Err SFuel
  | S f =>
      let blanks := leading isBlank s in
      let s1 := drop blanks s in
      let off1 := off + Z.of_nat blanks in
      let? (tok, k) := lexToken off1 s1 in
      match kind tok with
      | tokEOF => Ok [tok]
      | _ =>
          let? toks := tokenizeFrom f (off1 + Z.of_nat k) (drop k s1) in
          Ok (tok :: toks)
      end
  end.

Definition tokenize (src : str) : res SErr (list token) := tokenizeFrom (S (length src)) 0 src.
End Lexer.

(** ** Literals *)

Lemma leading_le f s : (leading f s ≤ length s)%nat.
Proof. induction s as [|c s IH]; cbn; [lia|]. destruct (f c); lia. Qed.

Lemma leading_all f s : forallb f (take (leading f s) s) = true.
Proof. induction s as [|c s IH]; cbn; [done|]. destruct (f c) eqn:E; cbn; [by rewrite E|done]. Qed.

Lemma uintDigits_range open base s n i : 0 ≤ n → 0 < base → uintDigits open base s n = Ok i → 0 ≤ i.
Proof.
  intros Hn Hb. revert n Hn. induction s as [|c s IH]; intros n Hn; cbn [uintDigits]; [intros [= <-]; done|].
  destruct (_ && _); [by apply IH|].
  assert (Hd : ∀ d, 0 ≤ d → (if base <=? d then Err false else if 2 ^ 64 <=? n * base + d then Err true
    else uintDigits open base s (n * base + d)) = Ok i → 0 ≤ i).
  { intros d Hd. destruct (_ <=? _); [done|]. destruct (_ <=? _); [done|]. apply IH. nia. }
  destruct (is_digit c) eqn:Ed; [apply Hd; unfold is_digit, byte_in in Ed; unfold digit_val; lia|].
  destruct (between _ _ _) eqn:El; [apply Hd; unfold between in El; lia|done].
Qed.

Lemma ParseInt0_range s i : ParseInt0 s = Ok i → 0 ≤ i ≤ MaxInt.
Proof.
  unfold ParseInt0. destruct s as [|c s]; [done|].
  assert (Hb : 0 < (basePrefix (c :: s)).1) by (unfold basePrefix; repeat case_match; cbn; lia).
  destruct (basePrefix (c :: s)) as [base digits]. cbn [fst] in Hb. intros (n & Hn & H)%res_bind_ok.
  destruct (_ && _); [done|]. destruct (Z.ltb_spec MaxInt n); [done|]. injection H as <-.
  apply uintDigits_range in Hn; [lia|lia|done].
Qed.

(** Rounding gives no NaN. *)
Lemma iter_shr_pos n mrs : 0 ≤ shr_m mrs → 0 ≤ shr_m (SpecFloat.iter_pos shr_1 n mrs).
Proof.
  assert (H1 : ∀ mrs, 0 ≤ shr_m mrs → 0 ≤ shr_m (shr_1 mrs)).
  { intros [m r s] Hm. cbn in *. destruct m as [|[p|p|]|]; cbn; lia. }
  revert mrs. induction n as [n IH|n IH|]; intros mrs H; cbn [SpecFloat.iter_pos]; auto.
Qed.

Lemma shr_fexp_pos prec emax m e l : 0 ≤ m → 0 ≤ shr_m (shr_fexp prec emax m e l).1.
Proof.
  intros Hm. unfold shr_fexp, shr. set (mrs := shr_record_of_loc m l).
  assert (H : 0 ≤ shr_m mrs) by (unfold mrs, shr_record_of_loc; repeat case_match; done).
  destruct (_ - _); cbn [fst]; [done| |done]. by apply iter_shr_pos.
Qed.

Lemma binary_normalize_real prec emax m e z : binary_normalize prec emax m e z ≠ S754_nan.
Proof.
  unfold binary_normalize. assert (Hr : ∀ s p k, binary_round prec emax s p k ≠ S754_nan).
  { intros s p k. unfold binary_round. destruct (shl_align _ _ _) as [mz ez]. unfold binary_round_aux.
    pose proof (shr_fexp_pos prec emax (Zpos mz) ez loc_Exact ltac:(lia)) as H1. destruct (shr_fexp _ _ _ _ _) as [mrs' e'].
    cbn [fst] in H1.
    assert (H2 : 0 ≤ round_nearest_even (shr_m mrs') (loc_of_shr_record mrs')) by (unfold round_nearest_even; repeat case_match; lia).
    pose proof (shr_fexp_pos prec emax _ e' loc_Exact H2) as H3. destruct (shr_fexp _ _ _ _ _) as [mrs'' e'']. cbn [fst] in H3.
    destruct (shr_m mrs''); [done|by destruct (_ <=? _)|lia]. }
  destruct m; [done|apply Hr|apply Hr].
Qed.

(** A text that begins with a digit or a point is no name of an infinity or NaN. *)
Lemma ParseFloat_finite c s f : is_digit c || is_byte c "." = true → ParseFloat (c :: s) = Some f → finite f = true.
Proof.
  intros Hc. unfold ParseFloat.
  assert (Hs : signed (c :: s) = (false, c :: s)).
  { unfold signed. destruct c as [[] [] [] [] [] [] [] []]; vm_compute in Hc; try discriminate Hc; reflexivity. }
  rewrite Hs. cbn [fmap list_fmap].
  assert (Hl : byte_chr (ascii_lower (byte_val c)) ≠ "i"%char ∧ byte_chr (ascii_lower (byte_val c)) ≠ "n"%char).
  { split; destruct c as [[] [] [] [] [] [] [] []]; vm_compute in Hc |- *; congruence. }
  destruct Hl as [Hi Hn].
  rewrite !bool_decide_false by (cbn [of_string String.list_ascii_of_string]; congruence). cbn [orb].
  destruct (match hex_prefix (c :: s) with Some t => _ | None => _ end) as [[base hex] t].
  destruct (mantissa _ _ _ _ _ _) as [[[m frac] seen] rest]. destruct (negb seen); [done|].
  destruct (readExponent base rest) as [[e [|? ?]]|]; [|done|done]. destruct (negb _); [done|].
  assert (Hreal : (if m =? 0 then S754_zero false
    else if hex then binary_normalize 53 1024 m (e - 4 * frac) false
    else float_quotient false (m * 10 ^ Z.max 0 (e - frac)) (10 ^ Z.max 0 (frac - e))) ≠ S754_nan).
  { destruct (m =? 0); [done|]. destruct hex; [|unfold float_quotient]; apply binary_normalize_real. }
  cbn match in *. destruct (if m =? 0 then _ else _); intros [= <-]; done.
Qed.

(** ** The tokens are the source *)

(** A result that satisfies [Q], or an error of the source: no panic, and no end of
    fuel. *)
Definition answered {A} (r : res SErr A) (Q : A → Prop) : Prop :=
  match r with Ok a => Q a | Err e => e ≠ SPanic ∧ e ≠ SFuel end.

Lemma answered_bind {A B} (r : res SErr A) (k : A → res SErr B) P Q :
  answered r P → (∀ a, P a → answered (k a) Q) → answered (res_bind r k) Q.
Proof. destruct r; cbn; auto. Qed.

(** What the parser reads of a token is what its kind promises. *)
Definition okToken (t : token) : Prop :=
  match kind t with
  | tokInt => 0 ≤ tokI t ≤ MaxInt ∧ ParseInt0 (text t) = Ok (tokI t)
  | tokFloat => finite (tokF t) = true ∧ ParseFloat (text t) = Some (tokF t)
  | tokIdent => match text t with c :: s => isIdentStart c = true ∧ forallb isIdentPart s = true | [] => False end
  | tokEOF => text t = []
  | _ => True
  end.

(** The tokens of a source from an offset on: white space, a token's text, and so on
    to the end. *)
Inductive tiles : Z → str → list token → Prop :=
  | tiles_end off b t :
      forallb isBlank b = true → kind t = tokEOF → text t = [] → tokOffset t = off + Z.of_nat (length b) → tiles off b [t]
  | tiles_token off b t rest toks :
      forallb isBlank b = true → kind t ≠ tokEOF → text t ≠ [] → okToken t → tokOffset t = off + Z.of_nat (length b) →
      tiles (off + Z.of_nat (length b) + Z.of_nat (length (text t))) rest toks →
      tiles off (b ++ text t ++ rest) (t :: toks).

(** A token read at the start of [s]: its text is the [k] bytes read. *)
Definition reads (off : Z) (s : str) (t : token) (k : nat) : Prop :=
  (0 < k ≤ length s)%nat ∧ text t = take k s ∧ tokOffset t = off ∧ kind t ≠ tokEOF ∧ okToken t.

Lemma scanExponent_le s n : scanExponent s = Some n → (n ≤ length s)%nat.
Proof.
  unfold scanExponent. destruct s as [|e s]; [done|]. destruct (_ || _); [|done].
  destruct s as [|c rest]; [done|].
  destruct (_ || _).
  - destruct rest as [|d rest]; [done|]. destruct (is_digit d); [|done]. intros [= <-].
    pose proof (leading_le (λ c, is_digit c || is_byte c "_") (d :: rest)). unfold scanDigits. cbn [length] in *. lia.
  - destruct (is_digit c); [|done]. intros [= <-].
    pose proof (leading_le (λ c, is_digit c || is_byte c "_") (c :: rest)). unfold scanDigits. cbn [length] in *. lia.
Qed.

Lemma scanNumber_le c s : is_digit c || (is_byte c "." && match s with d :: _ => is_digit d | [] => false end) = true →
  (0 < (scanNumber (c :: s)).2 ≤ length (c :: s))%nat.
Proof.
  intros Hc. set (digits := leading (λ c, is_digit c || is_byte c "_")).
  assert (Hdec : ∀ k1, k1 = digits (c :: s) →
    (0 < (let '(isFloat, k2) := match drop k1 (c :: s) with
            | d :: rest => if is_byte d "." then (true, (k1 + 1 + digits rest)%nat) else (false, k1)
            | [] => (false, k1) end in
          match scanExponent (drop k2 (c :: s)) with Some n => (true, false, (k2 + n)%nat) | None => (isFloat, false, k2) end).2
     ≤ length (c :: s))%nat).
  { intros k1 Hk1. assert (Hk : (k1 ≤ length (c :: s))%nat) by (subst k1; apply leading_le).
    assert (H2 : ∃ fl k2, (match drop k1 (c :: s) with
            | d :: rest => if is_byte d "." then (true, (k1 + 1 + digits rest)%nat) else (false, k1)
            | [] => (false, k1) end) = (fl, k2) ∧ (0 < k2 ≤ length (c :: s))%nat).
    { destruct (is_digit c) eqn:Ed.
      - assert (0 < k1)%nat by (subst k1; unfold digits; cbn [leading]; rewrite Ed; cbn; lia).
        destruct (drop k1 (c :: s)) as [|d rest] eqn:E; [eauto with lia|]. destruct (is_byte d "."); [|eauto with lia].
        do 2 eexists. split; [done|]. apply (f_equal length) in E. rewrite length_drop in E. cbn [length] in *.
        pose proof (leading_le (λ c, is_digit c || is_byte c "_") rest). unfold digits. lia.
      - cbn [orb] in Hc. apply andb_prop in Hc as [Hdot _]. assert (k1 = 0%nat) as Hz.
        { subst k1. unfold digits. cbn [leading]. rewrite Ed. apply bool_decide_eq_true in Hdot as ->. reflexivity. }
        rewrite Hz. cbn [drop]. rewrite Hdot. do 2 eexists. split; [done|].
        pose proof (leading_le (λ c, is_digit c || is_byte c "_") s). unfold digits. cbn [length]. lia. }
    destruct H2 as (fl & k2 & -> & Hk2). destruct (scanExponent (drop k2 (c :: s))) as [n|] eqn:E; cbn [snd]; [|lia].
    apply scanExponent_le in E. rewrite length_drop in E. lia. }
  unfold scanNumber. specialize (Hdec (scanDigits is_digit (c :: s)) eq_refl). fold digits in Hdec.
  destruct s as [|x rest]; [exact Hdec|]. destruct (is_byte c "0" && isBasePrefix x); [|exact Hdec]. cbn [snd length].
  pose proof (leading_le (λ c, isBaseDigit c || is_byte c "_") rest). unfold scanDigits. lia.
Qed.

Lemma lexNumber_reads off c s t k :
  is_digit c || (is_byte c "." && match s with d :: _ => is_digit d | [] => false end) = true →
  lexNumber off (c :: s) = Ok (t, k) → reads off (c :: s) t k.
Proof.
  intros Hc. unfold lexNumber. pose proof (scanNumber_le c s Hc) as Hk. destruct (scanNumber (c :: s)) as [[fl based] n]. cbn [snd] in Hk.
  destruct n as [|n]; [lia|]. cbn [take].
  destruct fl.
  - destruct (ParseFloat _) as [f|] eqn:Ef; [|done]. intros [= <- <-].
    split; [exact Hk|]. split_and!; [done|done|done|]. split; [|done]. eapply ParseFloat_finite; [|exact Ef].
    destruct (is_digit c); [done|]. cbn [orb] in *. by apply andb_prop in Hc as [-> _].
  - destruct (negb based && _); [done|]. destruct (ParseInt0 _) as [i|[]] eqn:Ei; [|done|done]. intros [= <- <-].
    split; [exact Hk|]. split_and!; [done|done|done|]. split; [by eapply ParseInt0_range|done].
Qed.

Section Tiles.
Context {names : RuneNames}.

Lemma scanStringBody_le start delim esc s n :
  delim ≠ [] → scanStringBody start delim esc s = Ok n → (n + length delim ≤ length s)%nat.
Proof.
  intros Hd. revert esc n. induction s as [|c s IH]; intros esc n; cbn [scanStringBody]; [done|].
  assert (Hgo : ∀ e m, (let? n := scanStringBody start delim e s in Ok (S n)) = Ok m → (m + length delim ≤ length (c :: s))%nat).
  { intros e m (k & Hk & [= <-])%res_bind_ok. apply IH in Hk. cbn [length]. lia. }
  destruct esc; [apply Hgo|]. destruct (has_prefix delim (c :: s)) eqn:E.
  - intros [= <-]. clear - E. revert E. generalize (c :: s). clear. induction delim as [|d delim IH]; intros s E; [cbn; lia|].
    destruct s as [|c s]; [done|]. cbn in E. apply andb_prop in E as [_ E]. apply IH in E. cbn. lia.
  - destruct (is_byte c backslash); [apply Hgo|]. destruct (_ && _); [done|apply Hgo].
Qed.

Lemma lexString_reads raw off s t k : lexString raw off s = Ok (t, k) → reads off s t k.
Proof.
  unfold lexString. set (r := if raw then 1%nat else 0%nat). destruct (drop r s) as [|q rest] eqn:E; [done|].
  set (delim := if has_prefix [q; q; q] (q :: rest) then [q; q; q] else [q]).
  assert (Hd : delim ≠ []) by (unfold delim; by destruct (has_prefix _ _)).
  assert (HL : (0 < length delim)%nat) by (destruct delim; [done|cbn; lia]).
  intros (n & Hn & H)%res_bind_ok. apply res_bind_ok in H as (contents & _ & [= <- <-]).
  apply scanStringBody_le in Hn; [|done]. rewrite length_drop in Hn. apply (f_equal length) in E. rewrite length_drop in E. cbn [length] in E.
  split_and!; try done; lia.
Qed.

Lemma lexIdent_reads off c s : isIdentStart c = true → reads off (c :: s) (lexIdent off (c :: s)).1 (lexIdent off (c :: s)).2.
Proof.
  intros Hc. unfold lexIdent. cbn [fst snd]. pose proof (leading_le isIdentPart (c :: s)) as Hle.
  pose proof (leading_all isIdentPart (c :: s)) as Ha. cbn [leading] in *.
  assert (Hp : isIdentPart c = true) by (unfold isIdentPart; by rewrite Hc). rewrite Hp in *. cbn [take forallb] in Ha.
  apply andb_prop in Ha as [_ Ha]. split_and!; [lia|done|done|done|done|]. by split.
Qed.

Lemma lexOperator_reads ops off s t k :
  Forall (λ o, o.1 ≠ EmptyString ∧ o.2 ≠ tokEOF ∧ okToken (plainToken o.2 (of_string o.1) off)) ops →
  lexOperator ops off s = Ok (t, k) → reads off s t k.
Proof.
  induction 1 as [|[op kd] ops (Hne & Hk & Hok) _ IH]; cbn [lexOperator]; [done|]. destruct (has_prefix _ s) eqn:E; [|exact IH].
  intros [= <- <-]. cbn [fst snd] in *. clear IH.
  assert (HE : ∀ p u, has_prefix p u = true → (length p ≤ length u)%nat ∧ take (length p) u = p).
  { clear. induction p as [|d p IH]; intros u E; [by split; [cbn; lia|]|]. destruct u as [|c u]; [done|]. cbn in E.
    apply andb_prop in E as [E1 E]. apply IH in E as [? E]. apply bool_decide_eq_true in E1 as ->. cbn. split; [lia|by rewrite E]. }
  apply HE in E as [E1 E2]. destruct op as [|o op]; [done|]. split_and!; [cbn; lia|done|by rewrite E2|done|done|done].
Qed.

Lemma lexToken_reads off s t k : s ≠ [] → lexToken off s = Ok (t, k) → reads off s t k.
Proof.
  intros Hs. destruct s as [|c s]; [done|]. unfold lexToken.
  destruct (is_digit c || _) eqn:E1; [by apply lexNumber_reads|]. destruct (isQuote c); [apply lexString_reads|].
  destruct ((is_byte c "r" || _) && _); [apply lexString_reads|]. destruct (isIdentStart c) eqn:E2.
  - intros [= <- <-]. by apply lexIdent_reads.
  - apply lexOperator_reads. by repeat constructor.
Qed.

Lemma scanStringBody_answers start delim esc s : answered (scanStringBody start delim esc s) (λ _, True).
Proof.
  revert esc. induction s as [|c s IH]; intros esc; [done|]. cbn [scanStringBody].
  repeat (case_match; [try done; try (eapply answered_bind; [apply IH|]; done)|]); try done. eapply answered_bind; [apply IH|]. done.
Qed.

Lemma writeEscape_answers at_ rest : answered (writeEscape at_ rest) (λ _, True).
Proof. unfold writeEscape, writeHexEscape, writeNamedEscape. repeat case_match; done. Qed.

Lemma decodeEscapes_answers skip at_ body : answered (decodeEscapes skip at_ body) (λ _, True).
Proof.
  revert skip at_. induction body as [|c body IH]; intros skip at_; [done|]. cbn [decodeEscapes]. destruct skip as [|k]; [|apply IH].
  destruct (is_byte c backslash).
  - eapply answered_bind; [apply writeEscape_answers|]. intros [x n] _. eapply answered_bind; [apply IH|]. done.
  - eapply answered_bind; [apply IH|]. done.
Qed.

Lemma lexString_answers (raw : bool) (off : Z) (s : str) :
  drop (if raw then 1%nat else 0%nat) s ≠ [] → answered (lexString raw off s) (λ _, True).
Proof.
  intros Hs. unfold lexString. destruct (drop _ s) as [|q rest]; [done|].
  eapply answered_bind; [apply scanStringBody_answers|]. intros n _.
  eapply (answered_bind _ _ (λ _, True)); [|done]. destruct raw; [done|apply decodeEscapes_answers].
Qed.

Lemma lexOperator_answers ops off s : answered (lexOperator ops off s) (λ _, True).
Proof. induction ops as [|[op k] ops IH]; [done|]. cbn [lexOperator]. by destruct (has_prefix _ _). Qed.

Lemma lexToken_answers off s : answered (lexToken off s) (λ _, True).
Proof.
  destruct s as [|c s]; [done|]. unfold lexToken. destruct (is_digit c || _).
  - unfold lexNumber. destruct (scanNumber _) as [[[] b] k]; [by destruct (ParseFloat _)|]. destruct (_ && _); [done|]. by destruct (ParseInt0 _) as [|[]].
  - destruct (isQuote c); [by apply lexString_answers|]. destruct s as [|d s].
    + rewrite andb_false_r. destruct (isIdentStart c); [done|]. apply lexOperator_answers.
    + destruct (_ && _); [by apply lexString_answers|]. destruct (isIdentStart c); [done|]. apply lexOperator_answers.
Qed.

(** Where the lexer stops: with the tokens of the rest of the source, or at an error
    of the source. *)
Lemma tokenizeFrom_spec fuel off s : (length s < fuel)%nat → answered (tokenizeFrom fuel off s) (tiles off s).
Proof.
  revert off s. induction fuel as [|f IH]; intros off s Hf; [lia|]. cbn [tokenizeFrom].
  set (b := leading isBlank s). set (s1 := drop b s). set (off1 := off + Z.of_nat b).
  pose proof (leading_le isBlank s) as Hb. pose proof (leading_all isBlank s) as Ha. fold b in Hb, Ha.
  assert (Hs : s = take b s ++ s1) by (symmetry; apply take_drop). assert (Hlb : length (take b s) = b) by (rewrite length_take; lia).
  pose proof (lexToken_answers off1 s1) as He. destruct (lexToken off1 s1) as [[t k]|e] eqn:E; cbn [res_bind]; [|exact He].
  destruct s1 as [|c s1'] eqn:Es1.
  - cbn in E. injection E as <- <-. cbn [kind plainToken]. rewrite app_nil_r in Hs. rewrite Hs. apply tiles_end; try done.
    rewrite Hlb. done.
  - apply lexToken_reads in E as (Hk & Ht & Ho & Hne & Hok); [|done]. rewrite <-Es1 in *.
    assert (Hlen : length s1 = (length s - b)%nat) by (rewrite Es1 in *; unfold s1 in Es1; rewrite <-Es1; apply length_drop).
    specialize (IH (off1 + Z.of_nat k) (drop k s1)). rewrite length_drop in IH. specialize (IH ltac:(lia)).
    assert (Htok : ∀ toks, tiles (off1 + Z.of_nat k) (drop k s1) toks → tiles off s (t :: toks)).
    { intros toks Htoks. rewrite Hs. rewrite <-(take_drop k s1), <-Ht. assert (Hlt : length (text t) = k) by (rewrite Ht, length_take; lia).
      apply tiles_token; try done; rewrite ?Hlb, ?Hlt; try done. intros En. rewrite En in Hlt. cbn in Hlt. lia. }
    assert (Hr : answered (let? toks := tokenizeFrom f (off1 + Z.of_nat k) (drop k s1) in Ok (t :: toks)) (tiles off s)).
    { eapply answered_bind; [exact IH|]. exact Htok. }
    by destruct (kind t).
Qed.

Lemma tokenize_spec src : answered (tokenize src) (tiles 0 src).
Proof. apply tokenizeFrom_spec. lia. Qed.

(** C38. The tokens are the source.  When the lexer accepts a source, the tokens' texts
    at their offsets, with only white space between and after them, are the whole of
    it; the last one is the end of the source and no other is; and a token of an
    integer, a float or a name carries what its text denotes.  The lexer always
    answers: it neither panics nor runs on. *)
Theorem tokenize_tiles src : answered (tokenize src) (tiles 0 src).
Proof. apply tokenize_spec. Qed.
End Tiles.
