(* ===== verification/ExprParse.v ===== *)
(** * The parser of the expression language

    src/internal/openjd/expr: the recursive-descent parser (parser.go).

    The parser's state is the tokens that are left; its depth counter is the level of
    the descent.  A production at level [d] can enter [d] times more: the guard
    [enter] fails at level zero, and what is called under the guard runs a level
    lower.  That is the recursion of the model, so that it has no fuel for the
    descent; the loops have the number of tokens left.

    That the parser accepts the grammar of the language, and answers for every source,
    is proved in ExprGrammar.v and ExprAccept.v. *)

From S2P Require Import Prelude StatusText GoText ExprType ExprFloat ExprValue ExprShape ExprOps ExprEval ExprRe ExprLex.
Open Scope Z_scope.

(** ** Tokens *)

(** What a production answers: a tree and the tokens left. *)
Abbreviation PRes := (res SErr (Node * list token)).
Abbreviation Production := (list token → PRes).

(** parser.go [peek], [advance], [accept], [expect] *)
Definition peek (ts : list token) : res SErr token := match ts with t :: _ => Ok t | [] => Err SPanic end.

Definition is_kind (t : token) (k : tokenKind) : bool := bool_decide (kind t = k).

Definition advance (ts : list token) : res SErr (token * list token) :=
  match ts with
  | t :: rest => if is_kind t tokEOF then Ok (t, ts) else Ok (t, rest)
  | [] => Err SPanic
  end.

Definition accept (k : tokenKind) (ts : list token) : res SErr (option token * list token) :=
  let? t := peek ts in
  if is_kind t k then let? (t, ts) := advance ts in Ok (Some t, ts) else Ok (None, ts).

Definition errorAtTok {A} (t : token) (m : SMsg) : res SErr A := Err (SAt (tokOffset t) m).

Definition expect (k : tokenKind) (ts : list token) : res SErr (token * list token) :=
  let? t := peek ts in
  if is_kind t k then advance ts
  else errorAtTok t (if is_kind t tokEOF then MUnexpected else MExpected).

(** parser.go [keyword] *)
Definition keyword (t : token) (word : string) : bool := is_kind t tokIdent && bool_decide (text t = of_string word).

(** parser.go [primaryKeywords] *)
Definition primaryKeyword (s : str) : bool :=
  existsb (λ w, bool_decide (s = of_string w)) ["if"; "else"; "and"; "or"; "not"; "for"; "in"]%string.

(** parser.go [isUserIdentifier] *)
Definition isUserIdentifier (s : str) : bool :=
  match s with
  | [] => false
  | c :: rest => (between 97 122 (byte_val c) || is_byte c "_") && forallb isIdentPart rest
  end.

(** ** Levels of operators *)

(** The loop of [parseLogicalLevel]. *)
Fixpoint logicalLoop (fuel : nat) (word : string) (op : Op) (next : Production) (left_ : Node) (ts : list token) : PRes :=
  match fuel with
  | O => Err SFuel
  | S f =>
      let? tok := peek ts in
      if keyword tok word then
        let? (_, ts) := advance ts in
        let? (right_, ts) := next ts in
        logicalLoop f word op next (Logical (tokOffset tok) op left_ right_) ts
      else Ok (left_, ts)
  end.

(** parser.go [parseLogicalLevel] *)
Definition parseLogicalLevel (word : string) (op : Op) (next : Production) : Production := λ ts,
  let? (left_, ts) := next ts in
  logicalLoop (S (length ts)) word op next left_ ts.

(** parser.go [addOps], [mulOps], [compareOps] *)
Definition addOps (k : tokenKind) : option Op :=
  match k with tokPlus => Some OpAdd | tokMinus => Some OpSub | _ => None end.

Definition mulOps (k : tokenKind) : option Op :=
  match k with
  | tokStar => Some OpMul
  | tokSlash => Some OpDiv
  | tokDoubleSlash => Some OpFloorDiv
  | tokPercent => Some OpMod
  | _ => None
  end.

Definition compareOps (k : tokenKind) : option Op :=
  match k with
  | tokLt => Some OpLt
  | tokGt => Some OpGt
  | tokLe => Some OpLe
  | tokGe => Some OpGe
  | tokEq => Some OpEq
  | tokNe => Some OpNe
  | _ => None
  end.

(** The loop of [parseBinaryLevel]. *)
Fixpoint binaryLoop (fuel : nat) (ops : tokenKind → option Op) (next : Production) (left_ : Node) (ts : list token) : PRes :=
  match fuel with
  | O => Err SFuel
  | S f =>
      let? tok := peek ts in
      match ops (kind tok) with
      | Some op =>
          let? (_, ts) := advance ts in
          let? (right_, ts) := next ts in
          binaryLoop f ops next (Binary (tokOffset tok) op left_ right_) ts
      | None => Ok (left_, ts)
      end
  end.

(** parser.go [parseBinaryLevel] *)
Definition parseBinaryLevel (ops : tokenKind → option Op) (next : Production) : Production := λ ts,
  let? (left_, ts) := next ts in
  binaryLoop (S (length ts)) ops next left_ ts.

(** parser.go [compareOperator] *)
Definition compareOperator (tok : token) (ts : list token) : res SErr (option Op * list token) :=
  match compareOps (kind tok) with
  | Some op => let? (_, ts) := advance ts in Ok (Some op, ts)
  | None =>
      if keyword tok "in" then let? (_, ts) := advance ts in Ok (Some OpIn, ts)
      else if keyword tok "not" && match ts with _ :: t :: _ => keyword t "in" | _ => false end then
        let? (_, ts) := advance ts in
        let? (_, ts) := advance ts in
        Ok (Some OpNotIn, ts)
      else Ok (None, ts)
  end.

(** The loop of [parseCompare]. *)
Fixpoint compareLoop (fuel : nat) (next : Production) (first : Node) (ops : list Op) (operands : list Node)
    (offsets : list Z) (ts : list token) : PRes :=
  match fuel with
  | O => Err SFuel
  | S f =>
      let? tok := peek ts in
      let? (op, ts) := compareOperator tok ts in
      match op with
      | None =>
          match ops with
          | [] => Ok (first, ts)
          | _ => Ok (Compare (default (Pos first) (head offsets)) ops operands offsets, ts)
          end
      | Some op =>
          let? (operand, ts) := next ts in
          compareLoop f next first (ops ++ [op]) (operands ++ [operand]) (offsets ++ [tokOffset tok]) ts
      end
  end.

(** parser.go [parseCompare] *)
Definition parseCompare (next : Production) : Production := λ ts,
  let? (first, ts) := next ts in
  compareLoop (S (length ts)) next first [] [first] [] ts.

(** ** Names *)

(** The loop of [parseIdentPrimary]. *)
Fixpoint nameLoop (fuel : nat) (off : Z) (parts : list str) (ts : list token) : PRes :=
  match fuel with
  | O => Err SFuel
  | S f =>
      let? (dot_, ts) := accept tokDot ts in
      match dot_ with
      | None => Ok (Name off parts, ts)
      | Some _ =>
          let? (attr, ts) := expect tokIdent ts in
          nameLoop f off (parts ++ [text attr]) ts
      end
  end.

(** parser.go [parseIdentPrimary] *)
Definition parseIdentPrimary : Production := λ ts,
  let? (tok, ts) := advance ts in
  let says w := bool_decide (text tok = of_string w) in
  if says "True" || says "true" then Ok (BoolLit (tokOffset tok) true, ts)
  else if says "False" || says "false" then Ok (BoolLit (tokOffset tok) false, ts)
  else if says "None" || says "null" then Ok (NullLit (tokOffset tok), ts)
  else if primaryKeyword (text tok) then errorAtTok tok MUnexpectedKeyword
  else nameLoop (S (length ts)) (tokOffset tok) [text tok] ts.

(** ** Lists *)

(** parser.go [parseComprehensionRest]; [or_] is [parseOr]. *)
Definition parseComprehensionRest (or_ : Production) (off : Z) (elem : Node) : Production := λ ts,
  let? (_, ts) := advance ts in
  let? (nm, ts) := expect tokIdent ts in
  if negb (isUserIdentifier (text nm)) then errorAtTok nm MLoopVariable
  else
    let? tok := peek ts in
    if negb (keyword tok "in") then errorAtTok tok MIn
    else
      let? (_, ts) := advance ts in
      let? (iter, ts) := or_ ts in
      let? tok := peek ts in
      let? (cond, ts) :=
        (if keyword tok "if" then
           let? (_, ts) := advance ts in
           let? (cond, ts) := or_ ts in
           let? tok := peek ts in
           if keyword tok "if" then errorAtTok tok MOneFilter else Ok (Some cond, ts)
         else Ok (None, ts)) in
      let? tok := peek ts in
      if keyword tok "for" then errorAtTok tok MOneFor
      else
        let? (_, ts) := expect tokRBracket ts in
        Ok (ListComp off elem (text nm) (tokOffset nm) iter cond, ts).

(** The loop of [parseListLiteral]. *)
Fixpoint listLoop (fuel : nat) (expr or_ : Production) (off : Z) (elems : list Node) (ts : list token) : PRes :=
  match fuel with
  | O => Err SFuel
  | S f =>
      let? (elem, ts) := expr ts in
      let elems := elems ++ [elem] in
      let? tok := peek ts in
      if keyword tok "for" then
        if negb (length elems =? 1)%nat then errorAtTok tok MSingleElement
        else parseComprehensionRest or_ off elem ts
      else
        let? (comma, ts) := accept tokComma ts in
        match comma with
        | None => let? (_, ts) := expect tokRBracket ts in Ok (ListLit off elems, ts)
        | Some _ =>
            let? (close, ts) := accept tokRBracket ts in
            match close with
            | Some _ => Ok (ListLit off elems, ts)
            | None => listLoop f expr or_ off elems ts
            end
        end
  end.

(** parser.go [parseListLiteral] *)
Definition parseListLiteral (expr or_ : Production) : Production := λ ts,
  let? (open, ts) := advance ts in
  let? (close, ts) := accept tokRBracket ts in
  match close with
  | Some _ => Ok (ListLit (tokOffset open) [], ts)
  | None => listLoop (S (length ts)) expr or_ (tokOffset open) [] ts
  end.

(** ** Trailers *)

(** parser.go [parseSliceRest] *)
Definition parseSliceRest (expr : Production) (off : Z) (x : Node) (start : option Node) : Production := λ ts,
  let finish stop ts :=
    let? (_, ts) := expect tokColon ts in
    let? (close, ts) := accept tokRBracket ts in
    match close with
    | Some _ => Ok (Slice off x start stop None, ts)
    | None =>
        let? (step, ts) := expr ts in
        let? (_, ts) := expect tokRBracket ts in
        Ok (Slice off x start stop (Some step), ts)
    end in
  let? (close, ts) := accept tokRBracket ts in
  match close with
  | Some _ => Ok (Slice off x start None None, ts)
  | None =>
      let? tok := peek ts in
      if is_kind tok tokColon then finish None ts
      else
        let? (stop, ts) := expr ts in
        let? (close, ts) := accept tokRBracket ts in
        match close with
        | Some _ => Ok (Slice off x start (Some stop) None, ts)
        | None => finish (Some stop) ts
        end
  end.

(** parser.go [parseSubscript] *)
Definition parseSubscript (expr : Production) (x : Node) : Production := λ ts,
  let? (open, ts) := advance ts in
  let? (colon, ts) := accept tokColon ts in
  match colon with
  | Some _ => parseSliceRest expr (tokOffset open) x None ts
  | None =>
      let? (first, ts) := expr ts in
      let? (colon, ts) := accept tokColon ts in
      match colon with
      | Some _ => parseSliceRest expr (tokOffset open) x (Some first) ts
      | None =>
          let? (_, ts) := expect tokRBracket ts in
          Ok (Index (tokOffset open) x first, ts)
      end
  end.

(** The loop of [parseCall]. *)
Fixpoint argLoop (fuel : nat) (expr : Production) (off : Z) (callee : Node) (args : list Node) (ts : list token) : PRes :=
  match fuel with
  | O => Err SFuel
  | S f =>
      let? (arg, ts) := expr ts in
      let? (comma, ts) := accept tokComma ts in
      match comma with
      | Some _ => argLoop f expr off callee (args ++ [arg]) ts
      | None =>
          let? (_, ts) := expect tokRParen ts in
          Ok (Call off callee (args ++ [arg]), ts)
      end
  end.

(** parser.go [parseCall] *)
Definition parseCall (expr : Production) (callee : Node) : Production := λ ts,
  let? (open, ts) := advance ts in
  let? (close, ts) := accept tokRParen ts in
  match close with
  | Some _ => Ok (Call (tokOffset open) callee [], ts)
  | None => argLoop (S (length ts)) expr (tokOffset open) callee [] ts
  end.

(** parser.go [parseAccess] *)
Definition parseAccess (x : Node) : Production := λ ts,
  let? (dot_, ts) := advance ts in
  let? (attr, ts) := expect tokIdent ts in
  Ok (Access (tokOffset dot_) x (text attr), ts).

(** The loop of [parsePostfix]. *)
Fixpoint postfixLoop (fuel : nat) (expr : Production) (x : Node) (ts : list token) : PRes :=
  match fuel with
  | O => Err SFuel
  | S f =>
      let? tok := peek ts in
      match kind tok with
      | tokLBracket => let? (x, ts) := parseSubscript expr x ts in postfixLoop f expr x ts
      | tokLParen => let? (x, ts) := parseCall expr x ts in postfixLoop f expr x ts
      | tokDot => let? (x, ts) := parseAccess x ts in postfixLoop f expr x ts
      | _ => Ok (x, ts)
      end
  end.

(** ** The descent *)

(** The productions a level calls under its guard. *)
Record Parsers := mkParsers {
  pConditional : Production;
  pOr : Production;
  pNot : Production;
  pUnary : Production;
  pPostfix : Production;
  pPrimary : Production;
}.

(** parser.go [enter]: the productions a level lower, or the error. *)
Definition enter (lower : option Parsers) (tok : token) (body : Parsers → PRes) : PRes :=
  match lower with None => errorAtTok tok MTooDeep | Some l => body l end.

Section Level.
Context (lower : option Parsers).

(** parser.go [parseConditional] *)
Definition parseConditional : Production := λ ts,
  let? tok := peek ts in
  enter lower tok (λ l,
    let? (then_, ts) := pOr l ts in
    let? tok := peek ts in
    if negb (keyword tok "if") then Ok (then_, ts)
    else
      let? (_, ts) := advance ts in
      let? (cond, ts) := pOr l ts in
      let? elseTok := peek ts in
      if negb (keyword elseTok "else") then errorAtTok elseTok MElse
      else
        let? (_, ts) := advance ts in
        let? (otherwise, ts) := pConditional l ts in
        Ok (Cond (tokOffset tok) then_ cond otherwise, ts)).

(** parser.go [parsePostfix] *)
Definition parsePostfix : Production := λ ts,
  let? tok := peek ts in
  enter lower tok (λ l,
    let? (x, ts) := pPrimary l ts in
    postfixLoop (S (length ts)) (pConditional l) x ts).

(** parser.go [parsePower] *)
Definition parsePower : Production := λ ts,
  let? tok := peek ts in
  enter lower tok (λ l,
    let? (base, ts) := pPostfix l ts in
    let? (tok, ts) := accept tokDoubleStar ts in
    match tok with
    | None => Ok (base, ts)
    | Some tok =>
        let? (exp, ts) := pUnary l ts in
        Ok (Binary (tokOffset tok) OpPow base exp, ts)
    end).

(** parser.go [parseUnary] *)
Definition parseUnary : Production := λ ts,
  let? tok := peek ts in
  let sign op :=
    enter lower tok (λ l,
      let? (_, ts) := advance ts in
      let? (x, ts) := pUnary l ts in
      Ok (Unary (tokOffset tok) op x, ts)) in
  match kind tok with
  | tokMinus => sign OpNeg
  | tokPlus => sign OpPos
  | _ => parsePower ts
  end.

(** parser.go [parseMul], [parseAdd] *)
Definition parseMul : Production := parseBinaryLevel mulOps parseUnary.
Definition parseAdd : Production := parseBinaryLevel addOps parseMul.

(** parser.go [parseNot] *)
Definition parseNot : Production := λ ts,
  let? tok := peek ts in
  if negb (keyword tok "not") then parseCompare parseAdd ts
  else
    enter lower tok (λ l,
      let? (_, ts) := advance ts in
      let? (x, ts) := pNot l ts in
      Ok (Unary (tokOffset tok) OpNot x, ts)).

(** parser.go [parseAnd], [parseOr] *)
Definition parseAnd : Production := parseLogicalLevel "and" OpAnd parseNot.
Definition parseOr : Production := parseLogicalLevel "or" OpOr parseAnd.

(** parser.go [parsePrimary] *)
Definition parsePrimary : Production := λ ts,
  let? tok := peek ts in
  match kind tok with
  | tokInt => let? (_, ts) := advance ts in Ok (IntLit (tokOffset tok) (tokI tok), ts)
  | tokFloat => let? (_, ts) := advance ts in Ok (FloatLit (tokOffset tok) (tokF tok), ts)
  | tokString => let? (_, ts) := advance ts in Ok (StringLit (tokOffset tok) (tokS tok), ts)
  | tokIdent => parseIdentPrimary ts
  | tokLParen =>
      let? (_, ts) := advance ts in
      let? (inner, ts) := parseConditional ts in
      let? tok := peek ts in
      if keyword tok "for" then errorAtTok tok MGenerator
      else
        let? (_, ts) := expect tokRParen ts in
        Ok (inner, ts)
  | tokLBracket => parseListLiteral parseConditional parseOr ts
  | _ => errorAtTok tok MUnexpected
  end.

Definition level : Parsers := mkParsers parseConditional parseOr parseNot parseUnary parsePostfix parsePrimary.
End Level.

(** The productions with [d] levels left. *)
Fixpoint parsers (d : nat) : Parsers := level match d with O => None | S d' => Some (parsers d') end.

(** limits.go [maxParseDepth], [maxSourceBytes], [checkSourceBytes] *)
Definition maxParseDepth : nat := 500.
Definition maxSourceBytes : Z := 10000.

(** parser.go [parseExpr] at the start *)
Definition parseExpr : Production := pConditional (parsers maxParseDepth).

(** parser.go [Parse] *)
Definition Parse {names : RuneNames} (src : str) : res SErr Node :=
  if maxSourceBytes <? Z.of_nat (length src) then Err (SAt 0 MTooLarge)
  else
    let? toks := tokenize src in
    let? tok := peek toks in
    if is_kind tok tokEOF then Err (SAt 0 MEmpty)
    else
      let? (root, ts) := parseExpr toks in
      let? tok := peek ts in
      if negb (is_kind tok tokEOF) then errorAtTok tok MAfterExpression else Ok root.
