(* ===== verification/ExprGrammar.v ===== *)
(** * The grammar of the expression language, and its parser

    The grammar that the productions of src/internal/openjd/expr/parser.go are named
    after, as an inductive relation between tokens and trees, indexed by the depth of
    the guarded productions; and the proof that the parser follows it: what it accepts
    is derived by the grammar with the tree it returns, it answers for every source,
    and its trees are well formed.  ExprAccept.v has the converse. *)

From S2P Require Import Prelude StatusText GoText ExprType ExprFloat ExprValue ExprShape ExprOps ExprEval ExprSound ExprRe ExprLex ExprParse.
Open Scope Z_scope.

(** ** The grammar *)

Inductive nonterminal :=
  | ConditionalExpr | OrExpr | AndExpr | NotExpr | CompareExpr | AddExpr | MulExpr | UnaryExpr | PowerExpr | PostfixExpr | PrimaryExpr.

(** A comparison operator: a symbol, ["in"] or ["not" "in"]. *)
Inductive comparison : list token → Op → Prop :=
  | comparison_symbol t op : compareOps (kind t) = Some op → comparison [t] op
  | comparison_in t : keyword t "in" = true → comparison [t] OpIn
  | comparison_not_in t u : keyword t "not" = true → keyword u "in" = true → comparison [t; u] OpNotIn.

(** The value of a name that is a literal. *)
Definition literalName (t : token) : option Node :=
  let says w := bool_decide (text t = of_string w) in
  if says "True" || says "true" then Some (BoolLit (tokOffset t) true)
  else if says "False" || says "false" then Some (BoolLit (tokOffset t) false)
  else if says "None" || says "null" then Some (NullLit (tokOffset t))
  else None.

(** The parts of a name after the first: [("." Identifier)*]. *)
Inductive dotted : list token → list str → Prop :=
  | dotted_nil : dotted [] []
  | dotted_more u ps d t : dotted u ps → kind d = tokDot → kind t = tokIdent → dotted (u ++ [d; t]) (ps ++ [text t]).

(** A name and nothing else: what follows it after a dot is a part of it, not an
    attribute of its value. *)
Definition bareName (ts : list token) : Prop :=
  ∃ t u ps, ts = t :: u ∧ kind t = tokIdent ∧ literalName t = None ∧ dotted u ps.

(** [derives d nt ts n]: the tokens are a phrase of the nonterminal with at most [d]
    guarded productions inside each other, and its tree is [n]. *)
Inductive derives : nat → nonterminal → list token → Node → Prop :=
  (** ConditionalExpr ::= OrExpr ("if" OrExpr "else" ConditionalExpr)? *)
  | d_or {d} u n : derives d OrExpr u n → derives (S d) ConditionalExpr u n
  | d_conditional {d} u t i v c e w o :
      derives d OrExpr u t → keyword i "if" = true → derives d OrExpr v c → keyword e "else" = true → derives d ConditionalExpr w o →
      derives (S d) ConditionalExpr (u ++ i :: v ++ e :: w) (Cond (tokOffset i) t c o)
  (** OrExpr ::= AndExpr ("or" AndExpr)* *)
  | d_and {d} u n : derives d AndExpr u n → derives d OrExpr u n
  | d_or_more {d} u l t v r :
      derives d OrExpr u l → keyword t "or" = true → derives d AndExpr v r → derives d OrExpr (u ++ t :: v) (Logical (tokOffset t) OpOr l r)
  (** AndExpr ::= NotExpr ("and" NotExpr)* *)
  | d_not {d} u n : derives d NotExpr u n → derives d AndExpr u n
  | d_and_more {d} u l t v r :
      derives d AndExpr u l → keyword t "and" = true → derives d NotExpr v r → derives d AndExpr (u ++ t :: v) (Logical (tokOffset t) OpAnd l r)
  (** NotExpr ::= "not" NotExpr | CompareExpr *)
  | d_compare {d} u n : derives d CompareExpr u n → derives d NotExpr u n
  | d_not_not {d} t u x : keyword t "not" = true → derives d NotExpr u x → derives (S d) NotExpr (t :: u) (Unary (tokOffset t) OpNot x)
  (** CompareExpr ::= AddExpr (comparison AddExpr)*, one node for the chain *)
  | d_add {d} u n : derives d AddExpr u n → derives d CompareExpr u n
  | d_chain {d} u op ops operands off offs :
      chain d u (op :: ops) operands (off :: offs) → derives d CompareExpr u (Compare off (op :: ops) operands (off :: offs))
  (** AddExpr ::= MulExpr (("+" | "-") MulExpr)* *)
  | d_mul {d} u n : derives d MulExpr u n → derives d AddExpr u n
  | d_add_more {d} u l t op v r :
      derives d AddExpr u l → addOps (kind t) = Some op → derives d MulExpr v r → derives d AddExpr (u ++ t :: v) (Binary (tokOffset t) op l r)
  (** MulExpr ::= UnaryExpr (("*" | "/" | "//" | "%") UnaryExpr)* *)
  | d_unary {d} u n : derives d UnaryExpr u n → derives d MulExpr u n
  | d_mul_more {d} u l t op v r :
      derives d MulExpr u l → mulOps (kind t) = Some op → derives d UnaryExpr v r → derives d MulExpr (u ++ t :: v) (Binary (tokOffset t) op l r)
  (** UnaryExpr ::= ("-" | "+") UnaryExpr | PowerExpr *)
  | d_power {d} u n : derives d PowerExpr u n → derives d UnaryExpr u n
  | d_minus {d} t u x : kind t = tokMinus → derives d UnaryExpr u x → derives (S d) UnaryExpr (t :: u) (Unary (tokOffset t) OpNeg x)
  | d_plus {d} t u x : kind t = tokPlus → derives d UnaryExpr u x → derives (S d) UnaryExpr (t :: u) (Unary (tokOffset t) OpPos x)
  (** PowerExpr ::= PostfixExpr ("**" UnaryExpr)? *)
  | d_postfix {d} u n : derives d PostfixExpr u n → derives (S d) PowerExpr u n
  | d_pow {d} u b t v e :
      derives d PostfixExpr u b → kind t = tokDoubleStar → derives d UnaryExpr v e →
      derives (S d) PowerExpr (u ++ t :: v) (Binary (tokOffset t) OpPow b e)
  (** PostfixExpr ::= PrimaryExpr (Subscript | Call | "." Identifier)* *)
  | d_primary {d} u n : derives d PrimaryExpr u n → derives (S d) PostfixExpr u n
  | d_index {d} u x o v i c :
      derives (S d) PostfixExpr u x → kind o = tokLBracket → derives d ConditionalExpr v i → kind c = tokRBracket →
      derives (S d) PostfixExpr (u ++ o :: v ++ [c]) (Index (tokOffset o) x i)
  | d_slice {d} u x o v a b s c :
      derives (S d) PostfixExpr u x → kind o = tokLBracket → sliceParts d v a b s → kind c = tokRBracket →
      derives (S d) PostfixExpr (u ++ o :: v ++ [c]) (Slice (tokOffset o) x a b s)
  | d_call_empty {d} u x o c :
      derives (S d) PostfixExpr u x → kind o = tokLParen → kind c = tokRParen → derives (S d) PostfixExpr (u ++ [o; c]) (Call (tokOffset o) x [])
  | d_call {d} u x o v args c :
      derives (S d) PostfixExpr u x → kind o = tokLParen → items d v args → kind c = tokRParen →
      derives (S d) PostfixExpr (u ++ o :: v ++ [c]) (Call (tokOffset o) x args)
  | d_access {d} u x k t :
      derives (S d) PostfixExpr u x → ¬ bareName u → kind k = tokDot → kind t = tokIdent →
      derives (S d) PostfixExpr (u ++ [k; t]) (Access (tokOffset k) x (text t))
  (** PrimaryExpr ::= literal | name | "(" ConditionalExpr ")" | list | comprehension *)
  | d_int {d} t : kind t = tokInt → derives d PrimaryExpr [t] (IntLit (tokOffset t) (tokI t))
  | d_float {d} t : kind t = tokFloat → derives d PrimaryExpr [t] (FloatLit (tokOffset t) (tokF t))
  | d_string {d} t : kind t = tokString → derives d PrimaryExpr [t] (StringLit (tokOffset t) (tokS t))
  | d_literal {d} t n : kind t = tokIdent → literalName t = Some n → derives d PrimaryExpr [t] n
  | d_name {d} t u ps :
      kind t = tokIdent → literalName t = None → primaryKeyword (text t) = false → dotted u ps →
      derives d PrimaryExpr (t :: u) (Name (tokOffset t) (text t :: ps))
  | d_paren {d} o u n c : kind o = tokLParen → derives d ConditionalExpr u n → kind c = tokRParen → derives d PrimaryExpr (o :: u ++ [c]) n
  | d_list_empty {d} o c : kind o = tokLBracket → kind c = tokRBracket → derives d PrimaryExpr [o; c] (ListLit (tokOffset o) [])
  | d_list {d} o u l c :
      kind o = tokLBracket → items d u l → kind c = tokRBracket → derives d PrimaryExpr (o :: u ++ [c]) (ListLit (tokOffset o) l)
  | d_list_comma {d} o u l k c :
      kind o = tokLBracket → items d u l → kind k = tokComma → kind c = tokRBracket →
      derives d PrimaryExpr (o :: u ++ [k; c]) (ListLit (tokOffset o) l)
  | d_comprehension {d} o u e f x i v it c w cond :
      kind o = tokLBracket → derives d ConditionalExpr u e → keyword f "for" = true → kind x = tokIdent → isUserIdentifier (text x) = true →
      keyword i "in" = true → derives d OrExpr v it → filter_ d w cond → kind c = tokRBracket →
      derives d PrimaryExpr (o :: u ++ f :: x :: i :: v ++ w ++ [c]) (ListComp (tokOffset o) e (text x) (tokOffset x) it cond)
with chain : nat → list token → list Op → list Node → list Z → Prop :=
  | chain_first {d} u n : derives d AddExpr u n → chain d u [] [n] []
  | chain_more {d} u ops operands offs t os op v n :
      chain d u ops operands offs → comparison (t :: os) op → derives d AddExpr v n →
      chain d (u ++ t :: os ++ v) (ops ++ [op]) (operands ++ [n]) (offs ++ [tokOffset t])
(** ConditionalExpr ("," ConditionalExpr)* *)
with items : nat → list token → list Node → Prop :=
  | items_one {d} u n : derives d ConditionalExpr u n → items d u [n]
  | items_cons {d} u n c v l : derives d ConditionalExpr u n → kind c = tokComma → items d v l → items d (u ++ c :: v) (n :: l)
(** start? ":" stop? (":" step?)? *)
with sliceParts : nat → list token → option Node → option Node → option Node → Prop :=
  | slice_two {d} u a c v b : optional d u a → kind c = tokColon → optional d v b → sliceParts d (u ++ c :: v) a b None
  | slice_three {d} u a c v b k w s :
      optional d u a → kind c = tokColon → optional d v b → kind k = tokColon → optional d w s → sliceParts d (u ++ c :: v ++ k :: w) a b s
with optional : nat → list token → option Node → Prop :=
  | optional_none {d} : optional d [] None
  | optional_some {d} u n : derives d ConditionalExpr u n → optional d u (Some n)
(** ("if" OrExpr)? *)
with filter_ : nat → list token → option Node → Prop :=
  | filter_none {d} : filter_ d [] None
  | filter_some {d} t u n : keyword t "if" = true → derives d OrExpr u n → filter_ d (t :: u) (Some n).

(** ** Names *)

Lemma dotted_before u k v ps : dotted (u ++ k :: v) ps → kind k = tokDot → ∃ qs, dotted u qs.
Proof.
  intros H Hk. remember (u ++ k :: v) as w eqn:E. revert v E. induction H as [|w ps k' t Hd IH Hk' Ht]; intros v E; [by destruct u|].
  destruct v as [|x v _] using rev_ind.
  - replace (w ++ [k'; t]) with ((w ++ [k']) ++ [t]) in E by (by rewrite <-app_assoc). apply app_inj_tail in E as [_ ->]. congruence.
  - replace (w ++ [k'; t]) with ((w ++ [k']) ++ [t]) in E by (by rewrite <-app_assoc).
    replace (u ++ k :: v ++ [x]) with ((u ++ k :: v) ++ [x]) in E by (by rewrite <-app_assoc). apply app_inj_tail in E as [E _].
    destruct v as [|y v _] using rev_ind; [apply app_inj_tail in E as [<- _]; eauto|].
    replace (u ++ k :: v ++ [y]) with ((u ++ k :: v) ++ [y]) in E by (by rewrite <-app_assoc). apply app_inj_tail in E as [E _]. eauto.
Qed.

Lemma dotted_kinds u ps : dotted u ps → Forall (λ t, kind t = tokDot ∨ kind t = tokIdent) u.
Proof. induction 1; [done|]. apply Forall_app. split; [done|]. rewrite Forall_cons, Forall_singleton. auto. Qed.

Lemma bareName_before u k v : bareName (u ++ k :: v) → kind k = tokDot → bareName u.
Proof.
  intros (t & w & ps & E & Ht & Hl & Hd) Hk. destruct u as [|t' u]; [injection E as -> _; congruence|]. injection E as -> <-.
  destruct (dotted_before u k v ps Hd Hk) as [qs Hq]. by exists t, u, qs.
Qed.

Lemma bareName_kinds u : bareName u → Forall (λ t, kind t = tokDot ∨ kind t = tokIdent) u.
Proof. intros (t & w & ps & -> & Ht & _ & Hd). constructor; [auto|by eapply dotted_kinds]. Qed.

Lemma not_bare u k v : kind k ≠ tokDot → kind k ≠ tokIdent → ¬ bareName (u ++ k :: v).
Proof. intros H1 H2 H. apply bareName_kinds, Forall_app in H as [_ H]. apply Forall_cons in H as [[?|?] _]; done. Qed.

(** No attribute follows: [rest] does not begin with a dot. *)
Definition noDot (rest : list token) : Prop := match rest with t :: _ => kind t ≠ tokDot | [] => True end.

Lemma items_more d u l c v n : items d u l → kind c = tokComma → derives d ConditionalExpr v n → items d (u ++ c :: v) (l ++ [n]).
Proof.
  intros H Hc Hn. induction H as [d u m Hm|d u m k w l Hm Hk _ IH].
  - apply items_cons; [done|done|]. by constructor.
  - rewrite <-app_assoc. cbn [app]. apply items_cons; auto.
Qed.

(** ** Streams of tokens *)

(** Tokens with the end of the source last and nowhere else. *)
Fixpoint stream (ts : list token) : Prop :=
  match ts with
  | [] => False
  | t :: ts' => match ts' with [] => kind t = tokEOF | _ => kind t ≠ tokEOF ∧ okToken t ∧ stream ts' end
  end.

Lemma tiles_stream off s ts : tiles off s ts → stream ts.
Proof. induction 1 as [|off b t rest toks]; [done|]. cbn. by destruct toks. Qed.

Lemma stream_cons t ts : stream (t :: ts) → kind t ≠ tokEOF → okToken t ∧ stream ts.
Proof. destruct ts as [|u ts]; cbn [stream]; [done|]. naive_solver. Qed.

Lemma stream_head ts : stream ts → ∃ t rest, ts = t :: rest.
Proof. destruct ts; [done|eauto]. Qed.

Lemma keyword_ident t w : keyword t w = true → kind t = tokIdent.
Proof. unfold keyword, is_kind. intros H. apply andb_prop in H as [H _]. by apply bool_decide_eq_true in H. Qed.

(** The next token, taken. *)
Definition took (k : tokenKind) (ts : list token) (t : token) (rest : list token) : Prop :=
  ts = t :: rest ∧ kind t = k ∧ okToken t ∧ stream rest.

Lemma advance_took t ts : stream (t :: ts) → kind t ≠ tokEOF → advance (t :: ts) = Ok (t, ts).
Proof. intros Hs Hk. unfold advance, is_kind. by rewrite bool_decide_false. Qed.

Lemma accept_spec k ts : k ≠ tokEOF → stream ts →
  answered (accept k ts) (λ r, match r.1 with None => r.2 = ts | Some t => took k ts t r.2 end).
Proof.
  intros Hk Hs. destruct (stream_head ts Hs) as (t & rest & ->). unfold accept. cbn [peek res_bind]. unfold is_kind at 1.
  case_bool_decide as Ht; [|done]. rewrite advance_took by (congruence || done). apply stream_cons in Hs as [? ?]; [|congruence].
  by split_and!.
Qed.

Lemma expect_spec k ts : k ≠ tokEOF → stream ts → answered (expect k ts) (λ r, took k ts r.1 r.2).
Proof.
  intros Hk Hs. destruct (stream_head ts Hs) as (t & rest & ->). unfold expect. cbn [peek res_bind]. unfold is_kind at 1.
  case_bool_decide as Ht; [|by destruct (is_kind t tokEOF)]. rewrite advance_took by (congruence || done).
  apply stream_cons in Hs as [? ?]; [|congruence]. by split_and!.
Qed.

(** ** What a production promises *)

(** The tokens [u0] read before, and those read from [ts], are a phrase. *)
Definition yields (d : nat) (nt : nonterminal) (u0 ts : list token) (r : Node * list token) : Prop :=
  ∃ u, ts = u ++ r.2 ∧ stream r.2 ∧ derives d nt (u0 ++ u) r.1 ∧ wfNode false r.1.

Definition parses (d : nat) (nt : nonterminal) (p : Production) : Prop :=
  ∀ ts, stream ts → answered (p ts) (λ r, yields d nt [] ts r ∧ (length r.2 < length ts)%nat).

(** Lists of tokens up to associativity. *)
Ltac lists := repeat rewrite <-app_assoc; cbn [app]; repeat rewrite <-app_assoc; rewrite ?app_nil_r; try reflexivity.

Section Phrases.
Context {d : nat}.

Lemma derives_eq nt u v n : derives d nt u n → u = v → derives d nt v n.
Proof. by intros H <-. Qed.

Lemma yields_weaken nt nt' ts r : (∀ u n, derives d nt u n → derives d nt' u n) → yields d nt [] ts r → yields d nt' [] ts r.
Proof. intros H (u & Hu & Hs & Hd & Hw). exists u. split_and!; auto. Qed.

Lemma parses_weaken nt nt' p : (∀ u n, derives d nt u n → derives d nt' u n) → parses d nt p → parses d nt' p.
Proof. intros H Hp ts Hs. specialize (Hp ts Hs). destruct (p ts); [|done]. destruct Hp as [Hy Hl]. split; [|done]. by eapply yields_weaken. Qed.

(** ** The loops *)

(** Going on after [v] more tokens. *)
Lemma yields_step nt u0 v ts rest r : ts = v ++ rest → yields d nt (u0 ++ v) rest r → yields d nt u0 ts r.
Proof. intros -> (u & -> & Hs & Hd & Hw). exists (v ++ u). split_and!; [lists|done| |done]. eapply derives_eq; [exact Hd|]. lists. Qed.

Lemma yields_to nt u0 v w ts rest r : ts = v ++ rest → u0 ++ v = w → yields d nt w rest r → yields d nt u0 ts r.
Proof. intros Hts <-. by apply yields_step. Qed.

Lemma yields_stop nt u0 ts n : stream ts → derives d nt u0 n → wfNode false n → yields d nt u0 ts (n, ts).
Proof. intros Hs Hd Hw. exists []. split_and!; [done|done| |done]. by rewrite app_nil_r. Qed.

End Phrases.

Section Loops.
Context {d : nat}.

Lemma logicalLoop_yields nt nt' word op next fuel l u0 ts :
  (∀ u l t v r, derives d nt u l → keyword t word = true → derives d nt' v r → derives d nt (u ++ t :: v) (Logical (tokOffset t) op l r)) →
  parses d nt' next → (length ts < fuel)%nat → stream ts → derives d nt u0 l → wfNode false l →
  answered (logicalLoop fuel word op next l ts) (yields d nt u0 ts).
Proof.
  intros Hmore Hp. revert l u0 ts. induction fuel as [|f IH]; intros l u0 ts Hf Hs Hd Hw; [lia|]. cbn [logicalLoop].
  destruct (stream_head ts Hs) as (t & rest & ->). cbn [peek res_bind]. destruct (keyword t word) eqn:Ek; [|by apply yields_stop].
  pose proof (keyword_ident _ _ Ek) as Hk. rewrite advance_took by (congruence || done). apply stream_cons in Hs as [_ Hs]; [|congruence].
  cbn [res_bind]. eapply answered_bind; [by apply Hp|]. intros [r ts2] [(v & -> & Hs2 & Hd2 & Hw2) _]. cbn [fst snd app] in *.
  cbn [length] in Hf. rewrite length_app in Hf. specialize (IH (Logical (tokOffset t) op l r) (u0 ++ t :: v) ts2).
  assert (Hgo : answered (logicalLoop f word op next (Logical (tokOffset t) op l r) ts2) (yields d nt (u0 ++ t :: v) ts2)).
  { apply IH; [lia|done|by apply Hmore|by split]. }
  destruct (logicalLoop _ _ _ _ _ _); [|done]. eapply yields_step; [|exact Hgo]. done.
Qed.

Lemma parseLogicalLevel_parses nt nt' word op next :
  (∀ u n, derives d nt' u n → derives d nt u n) →
  (∀ u l t v r, derives d nt u l → keyword t word = true → derives d nt' v r → derives d nt (u ++ t :: v) (Logical (tokOffset t) op l r)) →
  parses d nt' next → parses d nt (parseLogicalLevel word op next).
Proof.
  intros Hone Hmore Hp ts Hs. unfold parseLogicalLevel. eapply answered_bind; [by apply Hp|].
  intros [l ts2] [(u & -> & Hs2 & Hd & Hw) Hl]. cbn [fst snd app] in *.
  pose proof (logicalLoop_yields nt nt' word op next (S (length ts2)) l u ts2 Hmore Hp ltac:(lia) Hs2 (Hone _ _ Hd) Hw) as H.
  destruct (logicalLoop _ _ _ _ _ _) as [[n ts3]|]; [|done]. split; [by eapply yields_step|].
  destruct H as (v & -> & _). cbn [snd]. rewrite !length_app in *. lia.
Qed.

Lemma binaryLoop_yields nt nt' ops next fuel l u0 ts :
  (∀ op, ops tokEOF ≠ Some op) →
  (∀ u l t op v r, derives d nt u l → ops (kind t) = Some op → derives d nt' v r → derives d nt (u ++ t :: v) (Binary (tokOffset t) op l r)) →
  parses d nt' next → (length ts < fuel)%nat → stream ts → derives d nt u0 l → wfNode false l →
  answered (binaryLoop fuel ops next l ts) (yields d nt u0 ts).
Proof.
  intros Heof Hmore Hp. revert l u0 ts. induction fuel as [|f IH]; intros l u0 ts Hf Hs Hd Hw; [lia|]. cbn [binaryLoop].
  destruct (stream_head ts Hs) as (t & rest & ->). cbn [peek res_bind]. destruct (ops (kind t)) as [op|] eqn:Eo; [|by apply yields_stop].
  assert (Hk : kind t ≠ tokEOF) by (intros E; rewrite E in Eo; by eapply Heof).
  rewrite advance_took by done. apply stream_cons in Hs as [_ Hs]; [|done].
  cbn [res_bind]. eapply answered_bind; [by apply Hp|]. intros [r ts2] [(v & -> & Hs2 & Hd2 & Hw2) _]. cbn [fst snd app] in *.
  cbn [length] in Hf. rewrite length_app in Hf.
  assert (Hgo : answered (binaryLoop f ops next (Binary (tokOffset t) op l r) ts2) (yields d nt (u0 ++ t :: v) ts2)).
  { apply IH; [lia|done|by apply Hmore|by split]. }
  destruct (binaryLoop _ _ _ _ _); [|done]. eapply yields_step; [|exact Hgo]. done.
Qed.

Lemma parseBinaryLevel_parses nt nt' ops next :
  (∀ op, ops tokEOF ≠ Some op) → (∀ u n, derives d nt' u n → derives d nt u n) →
  (∀ u l t op v r, derives d nt u l → ops (kind t) = Some op → derives d nt' v r → derives d nt (u ++ t :: v) (Binary (tokOffset t) op l r)) →
  parses d nt' next → parses d nt (parseBinaryLevel ops next).
Proof.
  intros Heof Hone Hmore Hp ts Hs. unfold parseBinaryLevel. eapply answered_bind; [by apply Hp|].
  intros [l ts2] [(u & -> & Hs2 & Hd & Hw) Hl]. cbn [fst snd app] in *.
  pose proof (binaryLoop_yields nt nt' ops next (S (length ts2)) l u ts2 Heof Hmore Hp ltac:(lia) Hs2 (Hone _ _ Hd) Hw) as H.
  destruct (binaryLoop _ _ _ _ _) as [[n ts3]|]; [|done]. split; [by eapply yields_step|].
  destruct H as (v & -> & _). cbn [snd]. rewrite !length_app in *. lia.
Qed.

(** An operator of a comparison, taken, or none. *)
Lemma compareOperator_spec t ts : stream (t :: ts) →
  answered (compareOperator t (t :: ts)) (λ r, match r.1 with
    | None => r.2 = t :: ts
    | Some op => ∃ os, t :: ts = t :: os ++ r.2 ∧ comparison (t :: os) op ∧ stream r.2
    end).
Proof.
  intros Hs. unfold compareOperator. destruct (compareOps (kind t)) as [op|] eqn:Eo.
  - assert (Hk : kind t ≠ tokEOF) by (intros E; by rewrite E in Eo). rewrite advance_took by done. apply stream_cons in Hs as [_ Hs]; [|done].
    cbn. exists []. split_and!; [done|by constructor|done].
  - destruct (keyword t "in") eqn:Ei.
    + pose proof (keyword_ident _ _ Ei) as Hk. rewrite advance_took by (congruence || done). apply stream_cons in Hs as [_ Hs]; [|congruence].
      cbn. exists []. split_and!; [done|by constructor|done].
    + destruct (keyword t "not") eqn:En; [|done]. cbn [andb]. destruct ts as [|t2 ts]; [done|]. destruct (keyword t2 "in") eqn:Ei2; [|done].
      pose proof (keyword_ident _ _ En) as Hk. pose proof (keyword_ident _ _ Ei2) as Hk2.
      rewrite advance_took by (congruence || done). apply stream_cons in Hs as [_ Hs]; [|congruence]. cbn [res_bind].
      rewrite advance_took by (congruence || done). apply stream_cons in Hs as [_ Hs]; [|congruence].
      cbn. exists [t2]. split_and!; [done|by constructor|done].
Qed.

Lemma compareLoop_yields next fuel first ops operands offs u0 ts :
  parses d AddExpr next → (length ts < fuel)%nat → stream ts → derives d AddExpr u0 first ∧ ops = [] ∨ ops ≠ [] →
  chain d u0 ops operands offs → length operands = S (length ops) → length offs = length ops →
  wfNode false first → Forall (wfNode false) operands →
  answered (compareLoop fuel next first ops operands offs ts) (yields d CompareExpr u0 ts).
Proof.
  intros Hp. revert ops operands offs u0 ts. induction fuel as [|f IH]; intros ops operands offs u0 ts Hf Hs Hone Hch Hl1 Hl2 Hw Hws; [lia|].
  cbn [compareLoop]. destruct (stream_head ts Hs) as (t & rest & ->). cbn [peek res_bind].
  eapply answered_bind; [by apply compareOperator_spec|]. intros [[op|] ts1] H1; cbn [fst snd] in H1.
  - destruct H1 as (os & [= ->] & Hc & Hs1). eapply answered_bind; [by apply Hp|].
    intros [x ts2] [(v & -> & Hs2 & Hd2 & Hw2) _]. cbn [fst snd app length] in *. rewrite !length_app in Hf.
    assert (Hgo : answered (compareLoop f next first (ops ++ [op]) (operands ++ [x]) (offs ++ [tokOffset t]) ts2)
      (yields d CompareExpr (u0 ++ t :: os ++ v) ts2)).
    { apply IH; [lia|done|right; by destruct ops|by constructor|rewrite !length_app; cbn; lia|rewrite !length_app; cbn; lia|done|].
      apply Forall_app. by split; [|constructor]. }
    destruct (compareLoop _ _ _ _ _ _ _); [|done]. eapply yields_step; [|exact Hgo]. lists.
  - subst ts1. destruct ops as [|op ops].
    + destruct Hone as [[Hd _]|Hn]; [|done]. apply yields_stop; [done|by apply d_add|done].
    + destruct offs as [|off offs]; [done|]. apply yields_stop; [done|by apply d_chain|]. cbn [wfNode]. split_and!; [done|done|]. by apply wfNodes.
Qed.

Lemma parseCompare_parses next : parses d AddExpr next → parses d CompareExpr (parseCompare next).
Proof.
  intros Hp ts Hs. unfold parseCompare. eapply answered_bind; [by apply Hp|].
  intros [l ts2] [(u & -> & Hs2 & Hd & Hw) Hl]. cbn [fst snd app] in *.
  pose proof (compareLoop_yields next (S (length ts2)) l [] [l] [] u ts2 Hp ltac:(lia) Hs2) as H.
  specialize (H (or_introl (conj Hd eq_refl)) (chain_first _ _ Hd) eq_refl eq_refl Hw ltac:(by constructor)).
  destruct (compareLoop _ _ _ _ _ _ _) as [[n ts3]|]; [|done]. split; [by eapply yields_step|].
  destruct H as (v & -> & _). cbn [snd]. rewrite !length_app in *. lia.
Qed.

(** ** Primaries *)

Lemma nameLoop_yields fuel t u0 ps ts :
  kind t = tokIdent → literalName t = None → primaryKeyword (text t) = false → (length ts < fuel)%nat → stream ts → dotted u0 ps →
  answered (nameLoop fuel (tokOffset t) (text t :: ps) ts) (yields d PrimaryExpr (t :: u0) ts).
Proof.
  intros Hk Hl Hp. revert u0 ps ts. induction fuel as [|f IH]; intros u0 ps ts Hf Hs Hd; [lia|]. cbn [nameLoop].
  eapply answered_bind; [by apply accept_spec|]. intros [[k|] ts1] H1; cbn [fst snd] in H1.
  - destruct H1 as (-> & Hkd & _ & Hs1). eapply answered_bind; [by apply expect_spec|]. intros [a ts2] (-> & Hka & _ & Hs2).
    cbn [fst snd length app] in *.
    assert (Hgo : answered (nameLoop f (tokOffset t) (text t :: ps ++ [text a]) ts2) (yields d PrimaryExpr (t :: u0 ++ [k; a]) ts2)).
    { apply IH; [lia|done|by constructor]. }
    destruct (nameLoop _ _ _ _); [|done]. eapply (yields_step _ _ [k; a]); [|exact Hgo]. done.
  - subst ts1. apply yields_stop; [done|by constructor|done].
Qed.

Lemma parseIdentPrimary_yields t ts : stream (t :: ts) → kind t = tokIdent →
  answered (parseIdentPrimary (t :: ts)) (yields d PrimaryExpr [t] ts).
Proof.
  intros Hs Hk. unfold parseIdentPrimary. rewrite advance_took by (congruence || done). apply stream_cons in Hs as [_ Hs]; [|congruence].
  cbn [res_bind]. pose proof (@d_literal d t) as Hlit. pose proof (nameLoop_yields (S (length ts)) t [] [] ts Hk) as Hname. unfold literalName in *.
  assert (Hstop : ∀ n, derives d PrimaryExpr [t] n → wfNode false n → yields d PrimaryExpr [t] ts (n, ts)) by (intros n; by apply yields_stop).
  destruct (_ || _); [by apply Hstop; [apply Hlit|]|]. destruct (_ || _); [by apply Hstop; [apply Hlit|]|].
  destruct (_ || _); [by apply Hstop; [apply Hlit|]|]. destruct (primaryKeyword (text t)); [done|].
  by apply Hname; [..|lia| |constructor].
Qed.

(** What has been read of a comprehension: the bracket and the element. *)
Lemma parseComprehensionRest_yields or_ o u0 e ts :
  parses d OrExpr or_ → kind o = tokLBracket → derives d ConditionalExpr u0 e → wfNode false e →
  (∃ f rest, ts = f :: rest ∧ keyword f "for" = true) → stream ts →
  answered (parseComprehensionRest or_ (tokOffset o) e ts) (yields d PrimaryExpr (o :: u0) ts).
Proof.
  intros Hp Ho Hd Hw (f & rest & -> & Hf) Hs. unfold parseComprehensionRest.
  pose proof (keyword_ident _ _ Hf) as Hk. rewrite advance_took by (congruence || done). apply stream_cons in Hs as [_ Hs]; [|congruence]. cbn [res_bind].
  eapply answered_bind; [by apply expect_spec|]. intros [x ts1] (-> & Hkx & _ & Hs1). cbn [fst snd] in *.
  destruct (isUserIdentifier (text x)) eqn:Hx; [cbn [negb]|done].
  destruct (stream_head ts1 Hs1) as (i & ts2 & ->). cbn [peek res_bind]. destruct (keyword i "in") eqn:Hi; [cbn [negb]|done].
  pose proof (keyword_ident _ _ Hi) as Hki. rewrite advance_took by (congruence || done). apply stream_cons in Hs1 as [_ Hs2]; [|congruence]. cbn [res_bind].
  eapply answered_bind; [by apply Hp|]. intros [it ts3] [(v & -> & Hs3 & Hd3 & Hw3) _]. cbn [fst snd app] in *.
  destruct (stream_head ts3 Hs3) as (t3 & r3 & E3). rewrite E3. cbn [peek res_bind]. rewrite <-E3.
  eapply (answered_bind _ _ (λ r, ∃ w, ts3 = w ++ r.2 ∧ filter_ d w r.1 ∧ stream r.2 ∧ match r.1 with Some c => wfNode false c | None => True end)).
  { destruct (keyword t3 "if") eqn:Hif; [|by exists []; split_and!; [|constructor|..]].
    pose proof (keyword_ident _ _ Hif) as Hk3. subst ts3. rewrite advance_took by (congruence || done).
    apply stream_cons in Hs3 as [_ Hs3]; [|congruence]. cbn [res_bind].
    eapply answered_bind; [by apply Hp|]. intros [c ts4] [(w & -> & Hs4 & Hd4 & Hw4) _]. cbn [fst snd app] in *.
    destruct (stream_head ts4 Hs4) as (t4 & r4 & E4). rewrite E4. cbn [peek res_bind]. destruct (keyword t4 "if"); [done|]. rewrite <-E4.
    exists (t3 :: w). split_and!; [done|by constructor|done|done]. }
  intros [cond ts5] (w & -> & Hfil & Hs5 & Hwc). cbn [fst snd] in *.
  destruct (stream_head ts5 Hs5) as (t5 & r5 & E5). rewrite E5. cbn [peek res_bind]. destruct (keyword t5 "for"); [done|]. rewrite <-E5.
  eapply answered_bind; [by apply expect_spec|]. intros [c ts6] (E6 & Hkc & _ & Hs6). cbn [fst snd] in *.
  apply (yields_step _ _ (f :: x :: i :: v ++ w ++ [c]) _ ts6); [rewrite E6; lists|]. apply yields_stop; [done| |cbn [wfNode]; by destruct cond].
  eapply derives_eq; [by eapply (d_comprehension o u0 e f x i v it c w)|]. lists.
Qed.

Lemma items_nonempty u l : items d u l → l ≠ [].
Proof. destruct 1 as [|u l c v n]; [done|]. by destruct l. Qed.

Lemma listLoop_yields expr or_ fuel o u0 l ts :
  parses d ConditionalExpr expr → parses d OrExpr or_ → kind o = tokLBracket → (length ts < fuel)%nat → stream ts →
  (u0 = [] ∧ l = [] ∨ ∃ u c, u0 = u ++ [c] ∧ items d u l ∧ kind c = tokComma) → Forall (wfNode false) l →
  answered (listLoop fuel expr or_ (tokOffset o) l ts) (yields d PrimaryExpr (o :: u0) ts).
Proof.
  intros Hp Hq Ho. revert u0 l ts. induction fuel as [|f IH]; intros u0 l ts Hf Hs Hi Hws; [lia|]. cbn [listLoop].
  eapply answered_bind; [by apply Hp|]. intros [e ts1] [(v & -> & Hs1 & Hd1 & Hw1) _]. cbn [fst snd app] in *.
  assert (Hi' : items d (u0 ++ v) (l ++ [e])).
  { destruct Hi as [[-> ->]|(u & c & -> & Hi & Hc)]; [by constructor|]. rewrite <-app_assoc. by apply items_more. }
  assert (Hws' : Forall (wfNode false) (l ++ [e])) by (apply Forall_app; by split; [|constructor]).
  assert (Hlist : wfNode false (ListLit (tokOffset o) (l ++ [e]))) by (by apply wfNodes).
  destruct (stream_head ts1 Hs1) as (t1 & r1 & E1). rewrite E1. cbn [peek res_bind]. rewrite <-E1. destruct (keyword t1 "for") eqn:Hfor.
  - destruct (negb _) eqn:En; [done|]. assert (l = []) as ->.
    { destruct l; [done|]. rewrite length_app in En. cbn in En. apply negb_false_iff, Nat.eqb_eq in En. lia. }
    destruct Hi as [[-> _]|(u & c & _ & Hi & _)]; [|by apply items_nonempty in Hi].
    pose proof (parseComprehensionRest_yields or_ o v e ts1 Hq Ho Hd1 Hw1 ltac:(eauto) Hs1) as H.
    destruct (parseComprehensionRest _ _ _ _); [|done]. by eapply (yields_step _ _ v).
  - eapply answered_bind; [by apply accept_spec|]. intros [[k|] ts2] H2; cbn [fst snd] in H2.
    + destruct H2 as (-> & Hk & _ & Hs2). eapply answered_bind; [by apply accept_spec|]. intros [[c|] ts3] H3; cbn [fst snd] in H3.
      * destruct H3 as (-> & Hc & _ & Hs3). apply (yields_step _ _ (v ++ [k; c]) _ ts3); [lists|]. apply yields_stop; [done| |done].
        eapply derives_eq; [by eapply (d_list_comma o (u0 ++ v) (l ++ [e]) k c)|]. lists.
      * subst ts3. rewrite length_app in Hf. cbn [length] in Hf.
        assert (Hgo : answered (listLoop f expr or_ (tokOffset o) (l ++ [e]) ts2) (yields d PrimaryExpr (o :: u0 ++ v ++ [k]) ts2)).
        { apply IH; [lia|done| |done]. right. exists (u0 ++ v), k. split_and!; [lists|done|done]. }
        destruct (listLoop _ _ _ _ _ _); [|done]. eapply (yields_step _ _ (v ++ [k])); [|exact Hgo]. lists.
    + subst ts2. eapply answered_bind; [by apply expect_spec|]. intros [c ts3] (-> & Hc & _ & Hs3). cbn [fst snd] in *.
      apply (yields_step _ _ (v ++ [c]) _ ts3); [lists|]. apply yields_stop; [done| |done].
      eapply derives_eq; [by eapply (d_list o (u0 ++ v) (l ++ [e]) c)|]. lists.
Qed.

Lemma parseListLiteral_yields expr or_ o ts :
  parses d ConditionalExpr expr → parses d OrExpr or_ → kind o = tokLBracket → stream (o :: ts) →
  answered (parseListLiteral expr or_ (o :: ts)) (yields d PrimaryExpr [o] ts).
Proof.
  intros Hp Hq Ho Hs. unfold parseListLiteral. rewrite advance_took by (congruence || done). apply stream_cons in Hs as [_ Hs]; [|congruence].
  cbn [res_bind]. eapply answered_bind; [by apply accept_spec|]. intros [[c|] ts1] H1; cbn [fst snd] in H1.
  - destruct H1 as (-> & Hc & _ & Hs1). apply (yields_step _ _ [c] _ ts1); [done|]. apply yields_stop; [done|by apply d_list_empty|done].
  - subst ts1. apply listLoop_yields; try done; [lia|by left].
Qed.

(** ** Trailers *)

Lemma parseSliceRest_yields expr u0 x o ua a c ts :
  parses d ConditionalExpr expr → derives (S d) PostfixExpr u0 x → wfNode false x → kind o = tokLBracket →
  optional d ua a → match a with Some n => wfNode false n | None => True end → kind c = tokColon → stream ts →
  answered (parseSliceRest expr (tokOffset o) x a ts) (yields (S d) PostfixExpr (u0 ++ o :: ua ++ [c]) ts).
Proof.
  intros Hp Hx Hwx Ho Ha Hwa Hc Hs. unfold parseSliceRest.
  assert (Hdone : ∀ v b q w s k rest, optional d v b → kind q = tokColon → optional d w s → kind k = tokRBracket → stream rest →
    match b with Some n => wfNode false n | None => True end → match s with Some n => wfNode false n | None => True end →
    yields (S d) PostfixExpr (u0 ++ o :: ua ++ [c]) (v ++ q :: w ++ k :: rest) (Slice (tokOffset o) x a b s, rest)).
  { intros v b q w s k rest Hb Hd Hsp Hk Hr Hwb Hws. apply (yields_step _ _ (v ++ q :: w ++ [k]) _ rest); [lists|].
    apply yields_stop; [done| |cbn [wfNode]; by split_and!]. eapply derives_eq;
      [eapply (d_slice u0 x o (ua ++ c :: v ++ q :: w) a b s k); [done|done|by apply slice_three|done]|]. lists. }
  assert (Htwo : ∀ v b k rest, optional d v b → kind k = tokRBracket → stream rest → match b with Some n => wfNode false n | None => True end →
    yields (S d) PostfixExpr (u0 ++ o :: ua ++ [c]) (v ++ k :: rest) (Slice (tokOffset o) x a b None, rest)).
  { intros v b k rest Hb Hk Hr Hwb. apply (yields_step _ _ (v ++ [k]) _ rest); [lists|].
    apply yields_stop; [done| |cbn [wfNode]; by split_and!]. eapply derives_eq;
      [eapply (d_slice u0 x o (ua ++ c :: v) a b None k); [done|done|by apply slice_two|done]|]. lists. }
  assert (Hfin : ∀ v b ts, optional d v b → match b with Some n => wfNode false n | None => True end → stream ts →
    answered (let? (_, ts) := expect tokColon ts in
      let? (close, ts) := accept tokRBracket ts in
      match close with
      | Some _ => Ok (Slice (tokOffset o) x a b None, ts)
      | None => let? (step, ts) := expr ts in let? (_, ts) := expect tokRBracket ts in Ok (Slice (tokOffset o) x a b (Some step), ts)
      end) (yields (S d) PostfixExpr (u0 ++ o :: ua ++ [c]) (v ++ ts))).
  { intros v b ts' Hb Hwb Hs'. eapply answered_bind; [by apply expect_spec|]. intros [q ts1] (-> & Hd & _ & Hs1). cbn [fst snd] in *.
    eapply answered_bind; [by apply accept_spec|]. intros [[k|] ts2] H2; cbn [fst snd] in H2.
    - destruct H2 as (-> & Hk & _ & Hs2). by apply (Hdone v b q [] None k ts2 Hb Hd optional_none).
    - subst ts2. eapply answered_bind; [by apply Hp|]. intros [s ts3] [(w & -> & Hs3 & Hd3 & Hw3) _]. cbn [fst snd app] in *.
      eapply answered_bind; [by apply expect_spec|]. intros [k ts4] (-> & Hk & _ & Hs4). cbn [fst snd] in *.
      apply Hdone; try done. by constructor. }
  eapply answered_bind; [by apply accept_spec|]. intros [[k|] ts1] H1; cbn [fst snd] in H1.
  - destruct H1 as (-> & Hk & _ & Hs1). by apply (Htwo [] None k ts1 optional_none).
  - subst ts1. destruct (stream_head ts Hs) as (t & rest & E). rewrite E. cbn [peek res_bind]. rewrite <-E.
    destruct (is_kind t tokColon); [by apply (Hfin [] None ts optional_none)|].
    eapply answered_bind; [by apply Hp|]. intros [b ts2] [(v & -> & Hs2 & Hd2 & Hw2) _]. cbn [fst snd app] in *.
    eapply answered_bind; [by apply accept_spec|]. intros [[k|] ts3] H3; cbn [fst snd] in H3.
    + destruct H3 as (-> & Hk & _ & Hs3). apply Htwo; try done. by constructor.
    + subst ts3. apply Hfin; try done. by constructor.
Qed.

Lemma parseSubscript_yields expr u0 x o ts :
  parses d ConditionalExpr expr → derives (S d) PostfixExpr u0 x → wfNode false x → kind o = tokLBracket → stream (o :: ts) →
  answered (parseSubscript expr x (o :: ts)) (yields (S d) PostfixExpr (u0 ++ [o]) ts).
Proof.
  intros Hp Hx Hwx Ho Hs. unfold parseSubscript. rewrite advance_took by (congruence || done). apply stream_cons in Hs as [_ Hs]; [|congruence].
  cbn [res_bind]. eapply answered_bind; [by apply accept_spec|]. intros [[c|] ts1] H1; cbn [fst snd] in H1.
  - destruct H1 as (-> & Hc & _ & Hs1).
    pose proof (parseSliceRest_yields expr u0 x o [] None c ts1 Hp Hx Hwx Ho optional_none I Hc Hs1) as H.
    destruct (parseSliceRest _ _ _ _ _); [|done]. eapply (yields_to _ _ [c]); [done| |exact H]. lists.
  - subst ts1. eapply answered_bind; [by apply Hp|]. intros [i ts2] [(v & -> & Hs2 & Hd2 & Hw2) _]. cbn [fst snd app] in *.
    eapply answered_bind; [by apply accept_spec|]. intros [[c|] ts3] H3; cbn [fst snd] in H3.
    + destruct H3 as (-> & Hc & _ & Hs3).
      pose proof (parseSliceRest_yields expr u0 x o v (Some i) c ts3 Hp Hx Hwx Ho (optional_some _ _ Hd2) Hw2 Hc Hs3) as H.
      destruct (parseSliceRest _ _ _ _ _); [|done]. eapply (yields_to _ _ (v ++ [c])); [| |exact H]; lists.
    + subst ts3. eapply answered_bind; [by apply expect_spec|]. intros [c ts4] (-> & Hc & _ & Hs4). cbn [fst snd] in *.
      eapply (yields_to _ _ (v ++ [c]) (u0 ++ o :: v ++ [c]) _ ts4); [lists|lists|]. apply yields_stop; [done|by apply d_index|by split].
Qed.

Lemma argLoop_yields expr fuel u0 x o ua l ts :
  parses d ConditionalExpr expr → derives (S d) PostfixExpr u0 x → wfNode false x → kind o = tokLParen → (length ts < fuel)%nat → stream ts →
  (ua = [] ∧ l = [] ∨ ∃ u c, ua = u ++ [c] ∧ items d u l ∧ kind c = tokComma) → Forall (wfNode false) l →
  answered (argLoop fuel expr (tokOffset o) x l ts) (yields (S d) PostfixExpr (u0 ++ o :: ua) ts).
Proof.
  intros Hp Hx Hwx Ho. revert ua l ts. induction fuel as [|f IH]; intros ua l ts Hf Hs Hi Hws; [lia|]. cbn [argLoop].
  eapply answered_bind; [by apply Hp|]. intros [e ts1] [(v & -> & Hs1 & Hd1 & Hw1) _]. cbn [fst snd app] in *.
  assert (Hi' : items d (ua ++ v) (l ++ [e])).
  { destruct Hi as [[-> ->]|(u & c & -> & Hi & Hc)]; [by constructor|]. rewrite <-app_assoc. by apply items_more. }
  assert (Hws' : Forall (wfNode false) (l ++ [e])) by (apply Forall_app; by split; [|constructor]).
  eapply answered_bind; [by apply accept_spec|]. intros [[k|] ts2] H2; cbn [fst snd] in H2.
  - destruct H2 as (-> & Hk & _ & Hs2). rewrite length_app in Hf. cbn [length] in Hf.
    assert (Hgo : answered (argLoop f expr (tokOffset o) x (l ++ [e]) ts2) (yields (S d) PostfixExpr (u0 ++ o :: ua ++ v ++ [k]) ts2)).
    { apply IH; [lia|done| |done]. right. exists (ua ++ v), k. split_and!; [lists|done|done]. }
    destruct (argLoop _ _ _ _ _ _); [|done]. eapply (yields_step _ _ (v ++ [k])); [lists|].
    by replace ((u0 ++ o :: ua) ++ v ++ [k]) with (u0 ++ o :: ua ++ v ++ [k]) by lists.
  - subst ts2. eapply answered_bind; [by apply expect_spec|]. intros [c ts3] (-> & Hc & _ & Hs3). cbn [fst snd] in *.
    apply (yields_step _ _ (v ++ [c]) _ ts3); [lists|]. apply yields_stop; [done| |cbn [wfNode]; split; [done|by apply wfNodes]].
    eapply derives_eq; [by eapply (d_call u0 x o (ua ++ v) (l ++ [e]) c)|]. lists.
Qed.

Lemma parseCall_yields expr u0 x o ts :
  parses d ConditionalExpr expr → derives (S d) PostfixExpr u0 x → wfNode false x → kind o = tokLParen → stream (o :: ts) →
  answered (parseCall expr x (o :: ts)) (yields (S d) PostfixExpr (u0 ++ [o]) ts).
Proof.
  intros Hp Hx Hwx Ho Hs. unfold parseCall. rewrite advance_took by (congruence || done). apply stream_cons in Hs as [_ Hs]; [|congruence].
  cbn [res_bind]. eapply answered_bind; [by apply accept_spec|]. intros [[c|] ts1] H1; cbn [fst snd] in H1.
  - destruct H1 as (-> & Hc & _ & Hs1). eapply (yields_to _ _ [c] (u0 ++ [o; c]) _ ts1); [done|lists|]. apply yields_stop; [done|by apply d_call_empty|done].
  - subst ts1. apply argLoop_yields; try done; [lia|by left].
Qed.

Lemma parseAccess_yields u0 x k ts :
  derives (S d) PostfixExpr u0 x → ¬ bareName u0 → wfNode false x → kind k = tokDot → stream (k :: ts) →
  answered (parseAccess x (k :: ts)) (yields (S d) PostfixExpr (u0 ++ [k]) ts).
Proof.
  intros Hx Hb Hwx Hk Hs. unfold parseAccess. rewrite advance_took by (congruence || done). apply stream_cons in Hs as [_ Hs]; [|congruence].
  cbn [res_bind]. eapply answered_bind; [by apply expect_spec|]. intros [t ts1] (-> & Ht & _ & Hs1). cbn [fst snd] in *.
  eapply (yields_to _ _ [t] (u0 ++ [k; t]) _ ts1); [done|lists|]. apply yields_stop; [done|by apply d_access|done].
Qed.

Lemma postfixLoop_yields expr fuel u0 x ts :
  parses d ConditionalExpr expr → derives (S d) PostfixExpr u0 x → (bareName u0 → noDot ts) → wfNode false x → (length ts < fuel)%nat → stream ts →
  answered (postfixLoop fuel expr x ts) (yields (S d) PostfixExpr u0 ts).
Proof.
  intros Hp. revert u0 x ts. induction fuel as [|f IH]; intros u0 x ts Hx Hb Hwx Hf Hs; [lia|]. cbn [postfixLoop].
  destruct (stream_head ts Hs) as (t & rest & ->). cbn [peek res_bind].
  assert (Hgo : ∀ p, kind t ≠ tokEOF → (∀ v, ¬ bareName (u0 ++ t :: v)) → answered (p (t :: rest)) (yields (S d) PostfixExpr (u0 ++ [t]) rest) →
    answered (let? (x, ts) := p (t :: rest) in postfixLoop f expr x ts) (yields (S d) PostfixExpr u0 (t :: rest))).
  { intros p Hk Hn H. eapply answered_bind; [exact H|]. intros [y ts2] (v & -> & Hs2 & Hd2 & Hw2). cbn [fst snd length] in *. rewrite length_app in Hf.
    assert (Hr : answered (postfixLoop f expr y ts2) (yields (S d) PostfixExpr ((u0 ++ [t]) ++ v) ts2)).
    { apply IH; try done; [|lia]. rewrite <-app_assoc. cbn [app]. intros Hb2. by destruct (Hn v). }
    destruct (postfixLoop _ _ _ _); [|done]. eapply (yields_to _ _ (t :: v)); [done| |exact Hr]. lists. }
  destruct (kind t) eqn:Ek; try (by apply yields_stop).
  - apply Hgo; [done|intros v; apply not_bare; congruence|]. by apply parseCall_yields.
  - apply Hgo; [done|intros v; apply not_bare; congruence|]. by apply parseSubscript_yields.
  - assert (Hn : ¬ bareName u0) by (intros H; by apply (Hb H)).
    apply Hgo; [done|intros v H; by apply Hn, (bareName_before _ t v)|]. by apply parseAccess_yields.
Qed.
End Loops.

(** ** The descent *)

(** A production that takes a token and goes on. *)
Lemma yields_shorter d nt u0 t rest r : yields d nt (u0 ++ [t]) rest r → yields d nt u0 (t :: rest) r ∧ (length r.2 < length (t :: rest))%nat.
Proof.
  intros H. split; [by eapply (yields_to _ _ [t])|]. destruct H as (v & -> & _). cbn [length]. rewrite length_app. lia.
Qed.

(** A name is read whole: no dot is left behind it. *)
Definition readsNames (p : Production) : Prop :=
  ∀ u rest n, p (u ++ rest) = Ok (n, rest) → bareName u → noDot rest.

Lemma nameLoop_noDot fuel off parts ts n rest : nameLoop fuel off parts ts = Ok (n, rest) → noDot rest.
Proof.
  revert parts ts. induction fuel as [|f IH]; intros parts ts; cbn [nameLoop]; [done|]. intros H.
  apply res_bind_ok in H as ([[k|] ts1] & H1 & H); cbn [fst snd] in H.
  - apply res_bind_ok in H as ([a ts2] & _ & H). by eapply IH.
  - injection H as _ ->. destruct ts as [|t ts]; [done|]. unfold accept, is_kind in H1. cbn [peek res_bind] in H1. case_bool_decide as Hk.
    + apply res_bind_ok in H1 as ([? ?] & _ & H1). by injection H1.
    + by injection H1 as <-.
Qed.

(** The productions of a level, all in one. *)
Definition follows (d : nat) (l : Parsers) : Prop :=
  parses d ConditionalExpr (pConditional l) ∧ parses d OrExpr (pOr l) ∧ parses d NotExpr (pNot l) ∧ parses d UnaryExpr (pUnary l) ∧
  parses d PostfixExpr (pPostfix l) ∧ parses d PrimaryExpr (pPrimary l) ∧ readsNames (pPrimary l).

Section Level.
Context (d : nat) (lower : option Parsers) (Hlower : ∀ l, lower = Some l → ∃ d', d = S d' ∧ follows d' l).

Lemma enter_answers {Q} t body : (∀ d' l, d = S d' → follows d' l → answered (body l) Q) → answered (enter lower t body) Q.
Proof. intros H. unfold enter. destruct lower as [l|] eqn:E; [|done]. destruct (Hlower l eq_refl) as (d' & Hd & Hl). by eapply H. Qed.

Lemma parseConditional_parses : parses d ConditionalExpr (parseConditional lower).
Proof.
  intros ts Hs. unfold parseConditional. destruct (stream_head ts Hs) as (t & rest & E). rewrite E. cbn [peek res_bind]. rewrite <-E.
  apply enter_answers. intros d' l Ed (Hc & Ho & _). rewrite Ed.
  eapply answered_bind; [by apply Ho|]. intros [a ts1] [(u & -> & Hs1 & Hd1 & Hw1) Hl1]. cbn [fst snd app] in *.
  destruct (stream_head ts1 Hs1) as (i & ts2 & ->). cbn [peek res_bind]. destruct (keyword i "if") eqn:Hi; cbn [negb].
  - pose proof (keyword_ident _ _ Hi) as Hki. rewrite advance_took by (congruence || done). apply stream_cons in Hs1 as [_ Hs2]; [|congruence].
    cbn [res_bind]. eapply answered_bind; [by apply Ho|]. intros [c ts3] [(v & -> & Hs3 & Hd3 & Hw3) _]. cbn [fst snd app] in *.
    destruct (stream_head ts3 Hs3) as (e & ts4 & ->). cbn [peek res_bind]. destruct (keyword e "else") eqn:He; cbn [negb]; [|done].
    pose proof (keyword_ident _ _ He) as Hke. rewrite advance_took by (congruence || done). apply stream_cons in Hs3 as [_ Hs4]; [|congruence].
    cbn [res_bind]. eapply answered_bind; [by apply Hc|]. intros [o ts5] [(w & -> & Hs5 & Hd5 & Hw5) _]. cbn [fst snd app] in *.
    split; [|cbn [snd]; rewrite !length_app; cbn [length]; rewrite !length_app; cbn [length]; rewrite !length_app; lia].
    apply (yields_step _ _ (u ++ i :: v ++ e :: w) _ ts5); [lists|]. apply yields_stop; [done|by apply d_conditional|by split_and!].
  - split; [|done]. apply (yields_step _ _ u _ (i :: ts2)); [done|]. apply yields_stop; [done|by apply d_or|done].
Qed.

Lemma parsePostfix_parses : parses d PostfixExpr (parsePostfix lower).
Proof.
  intros ts Hs. unfold parsePostfix. destruct (stream_head ts Hs) as (t & rest & E). rewrite E. cbn [peek res_bind]. rewrite <-E.
  apply enter_answers. intros d' l Ed (Hc & _ & _ & _ & _ & Hp & Hn). rewrite Ed.
  specialize (Hp ts Hs). destruct (pPrimary l ts) as [[x ts1]|] eqn:Ex; [|done]. cbn [answered res_bind] in Hp |- *.
  destruct Hp as [(u & -> & Hs1 & Hd1 & Hw1) Hl1]. cbn [fst snd app] in *.
  pose proof (postfixLoop_yields (pConditional l) (S (length ts1)) u x ts1 Hc (d_primary _ _ Hd1)) as H.
  specialize (H (Hn _ _ _ Ex) Hw1 ltac:(lia) Hs1).
  destruct (postfixLoop _ _ _ _) as [[n ts2]|]; [|done]. split; [by eapply yields_step|].
  destruct H as (v & -> & _). cbn [snd]. rewrite !length_app in *. lia.
Qed.

Lemma parsePower_parses : parses d PowerExpr (parsePower lower).
Proof.
  intros ts Hs. unfold parsePower. destruct (stream_head ts Hs) as (t & rest & E). rewrite E. cbn [peek res_bind]. rewrite <-E.
  apply enter_answers. intros d' l Ed (_ & _ & _ & Hu & Hp & _). rewrite Ed.
  eapply answered_bind; [by apply Hp|]. intros [b ts1] [(u & -> & Hs1 & Hd1 & Hw1) Hl1]. cbn [fst snd app] in *.
  eapply answered_bind; [by apply accept_spec|]. intros [[p|] ts2] H2; cbn [fst snd] in H2.
  - destruct H2 as (-> & Hk & _ & Hs2). eapply answered_bind; [by apply Hu|]. intros [e ts3] [(v & -> & Hs3 & Hd3 & Hw3) _]. cbn [fst snd app] in *.
    split; [|cbn [snd]; rewrite !length_app; cbn [length]; rewrite !length_app; lia].
    apply (yields_step _ _ (u ++ p :: v) _ ts3); [lists|]. apply yields_stop; [done|by apply d_pow|by split].
  - subst ts2. split; [|done]. apply (yields_step _ _ u _ ts1); [done|]. apply yields_stop; [done|by apply d_postfix|done].
Qed.

Lemma parseUnary_parses : parses d UnaryExpr (parseUnary lower).
Proof.
  intros ts Hs. unfold parseUnary. destruct (stream_head ts Hs) as (t & rest & E). rewrite E. cbn [peek res_bind]. rewrite <-E.
  assert (Hsign : ∀ op, kind t = tokMinus ∧ op = OpNeg ∨ kind t = tokPlus ∧ op = OpPos →
    answered (enter lower t (λ l, let? (_, ts) := advance ts in let? (x, ts) := pUnary l ts in Ok (Unary (tokOffset t) op x, ts)))
      (λ r, yields d UnaryExpr [] ts r ∧ (length r.2 < length ts)%nat)).
  { intros op Hop. apply enter_answers. intros d' l Ed (_ & _ & _ & Hu & _). rewrite Ed. assert (Hk : kind t ≠ tokEOF) by (destruct Hop as [[-> _]|[-> _]]; done).
    subst ts. rewrite advance_took by done. apply stream_cons in Hs as [_ Hs]; [|done]. cbn [res_bind].
    eapply answered_bind; [by apply Hu|]. intros [x ts1] [(v & -> & Hs1 & Hd1 & Hw1) _]. cbn [fst snd app] in *.
    apply yields_shorter. apply (yields_step _ _ v _ ts1); [done|]. apply yields_stop; [done| |done].
    destruct Hop as [[Ht ->]|[Ht ->]]; [by apply d_minus|by apply d_plus]. }
  assert (Hpow : answered (parsePower lower ts) (λ r, yields d UnaryExpr [] ts r ∧ (length r.2 < length ts)%nat)).
  { by apply (parses_weaken PowerExpr UnaryExpr _ d_power parsePower_parses). }
  destruct (kind t) eqn:Ek; try exact Hpow; apply Hsign; auto.
Qed.

Lemma parseAdd_parses : parses d AddExpr (parseAdd lower).
Proof.
  apply (parseBinaryLevel_parses AddExpr MulExpr); [done|by constructor|by constructor|].
  apply (parseBinaryLevel_parses MulExpr UnaryExpr); [done|by constructor|by constructor|]. apply parseUnary_parses.
Qed.

Lemma parseNot_parses : parses d NotExpr (parseNot lower).
Proof.
  intros ts Hs. unfold parseNot. destruct (stream_head ts Hs) as (t & rest & E). rewrite E. cbn [peek res_bind]. rewrite <-E.
  destruct (keyword t "not") eqn:Hn; cbn [negb].
  - apply enter_answers. intros d' l Ed (_ & _ & Hp & _). rewrite Ed. pose proof (keyword_ident _ _ Hn) as Hk. subst ts.
    rewrite advance_took by (congruence || done). apply stream_cons in Hs as [_ Hs]; [|congruence]. cbn [res_bind].
    eapply answered_bind; [by apply Hp|]. intros [x ts1] [(v & -> & Hs1 & Hd1 & Hw1) _]. cbn [fst snd app] in *.
    apply yields_shorter. apply (yields_step _ _ v _ ts1); [done|]. apply yields_stop; [done|by apply d_not_not|done].
  - by apply (parses_weaken CompareExpr NotExpr _ d_compare (parseCompare_parses _ parseAdd_parses)).
Qed.

Lemma parseOr_parses : parses d OrExpr (parseOr lower).
Proof.
  apply (parseLogicalLevel_parses OrExpr AndExpr); [by constructor|by constructor|].
  apply (parseLogicalLevel_parses AndExpr NotExpr); [by constructor|by constructor|]. apply parseNot_parses.
Qed.

Lemma parsePrimary_parses : parses d PrimaryExpr (parsePrimary lower).
Proof.
  intros ts Hs. unfold parsePrimary. destruct (stream_head ts Hs) as (t & rest & ->). cbn [peek res_bind].
  assert (Hlit : ∀ n, kind t ≠ tokEOF → derives d PrimaryExpr [t] n → (okToken t → wfNode false n) →
    answered (let? (_, ts) := advance (t :: rest) in Ok (n, ts)) (λ r, yields d PrimaryExpr [] (t :: rest) r ∧ (length r.2 < length (t :: rest))%nat)).
  { intros n Hk Hd Hw. rewrite advance_took by done. apply stream_cons in Hs as [Hok Hs]; [|done]. cbn [res_bind].
    apply yields_shorter. apply yields_stop; auto. }
  assert (Hown : ∀ (r : PRes), answered r (yields d PrimaryExpr [t] rest) →
    answered r (λ r, yields d PrimaryExpr [] (t :: rest) r ∧ (length r.2 < length (t :: rest))%nat)).
  { intros r Hr. destruct r; [|done]. by apply yields_shorter. }
  destruct (kind t) eqn:Ek; try done.
  - apply Hlit; [done|by apply d_int|]. unfold okToken. rewrite Ek. intros [H _]. cbn. unfold in_int, MinInt. lia.
  - apply Hlit; [done|by apply d_float|]. unfold okToken. rewrite Ek. by intros [H _].
  - apply Hlit; [done|by apply d_string|done].
  - apply Hown. by apply parseIdentPrimary_yields.
  - apply Hown. rewrite advance_took by (congruence || done). apply stream_cons in Hs as [_ Hs]; [|congruence]. cbn [res_bind].
    eapply answered_bind; [by apply parseConditional_parses|]. intros [n ts1] [(v & -> & Hs1 & Hd1 & Hw1) _]. cbn [fst snd app] in *.
    destruct (stream_head ts1 Hs1) as (t1 & r1 & E1). rewrite E1. cbn [peek res_bind]. rewrite <-E1. destruct (keyword t1 "for"); [done|].
    eapply answered_bind; [by apply expect_spec|]. intros [c ts2] (-> & Hc & _ & Hs2). cbn [fst snd] in *.
    apply (yields_step _ _ (v ++ [c]) _ ts2); [lists|]. apply yields_stop; [done|by apply d_paren|done].
  - apply Hown. apply parseListLiteral_yields; [apply parseConditional_parses|apply parseOr_parses|done|done].
Qed.

Lemma parsePrimary_readsNames : readsNames (parsePrimary lower).
Proof.
  intros u rest n H (t & v & ps & -> & Hk & Hl & _). unfold parsePrimary in H. cbn [app peek res_bind] in H. rewrite Hk in H.
  unfold parseIdentPrimary in H. apply res_bind_ok in H as ([t' ts] & Ha & H). unfold advance, is_kind in Ha.
  rewrite bool_decide_false in Ha by congruence. injection Ha as <- <-. unfold literalName in Hl.
  destruct (_ || _); [done|]. destruct (_ || _); [done|]. destruct (_ || _); [done|]. destruct (primaryKeyword (text t)); [done|].
  by eapply nameLoop_noDot.
Qed.

Lemma level_follows : follows d (level lower).
Proof.
  split_and!; cbn; [apply parseConditional_parses|apply parseOr_parses|apply parseNot_parses|apply parseUnary_parses
    |apply parsePostfix_parses|apply parsePrimary_parses|apply parsePrimary_readsNames].
Qed.
End Level.

Lemma parsers_follow d : follows d (parsers d).
Proof. induction d as [|d IH]; cbn [parsers]; apply level_follows; [done|]. intros l [= <-]. eauto. Qed.

Section Parse.
Context {names : RuneNames}.

Lemma tokenize_stream src toks : tokenize src = Ok toks → stream toks.
Proof. intros H. pose proof (tokenize_spec src) as Ht. rewrite H in Ht. by eapply tiles_stream. Qed.

Lemma Parse_spec src :
  answered (Parse src) (λ n, wfNode false n ∧ Z.of_nat (length src) ≤ maxSourceBytes ∧
    ∃ ts e, tokenize src = Ok (ts ++ [e]) ∧ kind e = tokEOF ∧ derives maxParseDepth ConditionalExpr ts n).
Proof.
  unfold Parse. destruct (Z.ltb_spec maxSourceBytes (Z.of_nat (length src))) as [|Hlen]; [done|].
  pose proof (tokenize_spec src) as Ht. destruct (tokenize src) as [toks|] eqn:Et; [|done]. cbn [answered res_bind] in Ht |- *.
  pose proof (tiles_stream _ _ _ Ht) as Hs.
  destruct (stream_head toks Hs) as (t & rest & E). rewrite E. cbn [peek res_bind]. rewrite <-E. destruct (is_kind t tokEOF); [done|].
  destruct (parsers_follow maxParseDepth) as (Hp & _). eapply answered_bind; [by apply Hp|].
  intros [n ts] [(u & -> & Hs2 & Hd & Hw) _]. cbn [fst snd app] in *.
  destruct (stream_head ts Hs2) as (e & r & ->). cbn [peek res_bind]. destruct (is_kind e tokEOF) eqn:Ek; cbn [negb]; [|done].
  apply bool_decide_eq_true in Ek. cbn [stream] in Hs2. destruct r as [|e2 r]; [|by destruct Hs2]. split_and!; [done|done|eauto].
Qed.
End Parse.
