(* ===== verification/ExprAccept.v ===== *)
(** * The parser accepts the grammar

    The converse of ExprGrammar.v: the parser of src/internal/openjd/expr/parser.go
    returns the tree of every phrase of the grammar whose productions are nested
    within its depth.  With the soundness proved there, [Parse] decides the grammar,
    and the grammar gives a phrase one tree.

    A production that ends by not finding more is complete for every rest whose first
    token does not continue the phrase ([reads]); one that loops over operators is in
    the state of its loop after every phrase ([reaches]). *)

From S2P Require Import Prelude StatusText GoText ExprType ExprFloat ExprValue ExprShape ExprOps ExprEval ExprSound ExprRe ExprLex ExprParse ExprGrammar.
Open Scope Z_scope.

(** ** What a phrase begins with *)

Definition primaryStart (t : token) : bool :=
  match kind t with
  | tokInt | tokFloat | tokString | tokLParen | tokLBracket => true
  | tokIdent => negb (primaryKeyword (text t))
  | _ => false
  end.

Definition unaryStart (t : token) : bool := primaryStart t || is_kind t tokMinus || is_kind t tokPlus.

Definition notStart (t : token) : bool := unaryStart t || keyword t "not".

Definition begins (nt : nonterminal) (t : token) : bool :=
  match nt with
  | PrimaryExpr | PostfixExpr | PowerExpr => primaryStart t
  | UnaryExpr | MulExpr | AddExpr | CompareExpr => unaryStart t
  | NotExpr | AndExpr | OrExpr | ConditionalExpr => notStart t
  end.

Definition beginsWith (g : token → bool) (u : list token) : Prop := match u with t :: _ => g t = true | [] => False end.

Lemma beginsWith_app g u v : beginsWith g u → beginsWith g (u ++ v).
Proof. by destruct u. Qed.

Lemma beginsWith_weaken (g h : token → bool) u : (∀ t, g t = true → h t = true) → beginsWith g u → beginsWith h u.
Proof. intros H. destruct u; [done|]. apply H. Qed.

Lemma primary_unary t : primaryStart t = true → unaryStart t = true.
Proof. intros H. unfold unaryStart. by rewrite H. Qed.

Lemma unary_not t : unaryStart t = true → notStart t = true.
Proof. intros H. unfold notStart. by rewrite H. Qed.

Lemma literalName_start t n : literalName t = Some n → primaryKeyword (text t) = false.
Proof.
  assert (Hw : ∀ a b, primaryKeyword (of_string a) = false → primaryKeyword (of_string b) = false →
    bool_decide (text t = of_string a) || bool_decide (text t = of_string b) = true → primaryKeyword (text t) = false).
  { intros a b Ha Hb H. apply orb_prop in H as [H|H]; apply bool_decide_eq_true in H; by rewrite H. }
  unfold literalName. intros H.
  destruct (_ || _) eqn:E in H; [by apply Hw in E|clear E]. destruct (_ || _) eqn:E in H; [by apply Hw in E|clear E].
  destruct (_ || _) eqn:E in H; [by apply Hw in E|done].
Qed.

Scheme derives_min := Minimality for derives Sort Prop
  with chain_min := Minimality for chain Sort Prop
  with items_min := Minimality for items Sort Prop
  with sliceParts_min := Minimality for sliceParts Sort Prop
  with optional_min := Minimality for optional Sort Prop
  with filter_min := Minimality for filter_ Sort Prop.

Lemma derives_begins d nt u n : derives d nt u n → beginsWith (begins nt) u.
Proof.
  intros H. induction H using derives_min with
    (P0 := λ d u _ _ _, beginsWith unaryStart u) (P1 := λ d u _, True) (P2 := λ _ _ _ _ _, True) (P3 := λ _ _ _, True) (P4 := λ _ _ _, True);
    try done; try (by apply beginsWith_app); cbn [beginsWith begins] in *.
  all: try (by eapply beginsWith_weaken; [apply unary_not|]). all: try (by eapply beginsWith_weaken; [apply primary_unary|]).
  all: unfold notStart, unaryStart, primaryStart, is_kind;
    repeat match goal with H : kind _ = _ |- _ => rewrite H; clear H end; try done.
  - rewrite H. apply orb_true_r.
  - by erewrite literalName_start.
  - by rewrite H1.
Qed.

(** ** What continues a phrase *)

Definition postfixGoes (t : token) : bool := match kind t with tokLBracket | tokLParen | tokDot => true | _ => false end.
Definition powerGoes (t : token) : bool := postfixGoes t || is_kind t tokDoubleStar.
Definition mulGoes (t : token) : bool := powerGoes t || bool_decide (is_Some (mulOps (kind t))).
Definition addGoes (t : token) : bool := mulGoes t || bool_decide (is_Some (addOps (kind t))).
Definition compareGoes (t : token) : bool :=
  addGoes t || bool_decide (is_Some (compareOps (kind t))) || keyword t "in" || keyword t "not".
Definition andGoes (t : token) : bool := compareGoes t || keyword t "and".
Definition orGoes (t : token) : bool := andGoes t || keyword t "or".
Definition conditionalGoes (t : token) : bool := orGoes t || keyword t "if".

Definition stops (g : token → bool) (rest : list token) : Prop := match rest with t :: _ => g t = false | [] => False end.

Lemma stops_weaken (g h : token → bool) rest : (∀ t, g t = false → h t = false) → stops g rest → stops h rest.
Proof. intros H. destruct rest; [done|]. apply H. Qed.

Lemma goes_power t : mulGoes t = false → powerGoes t = false.
Proof. intros H. by apply orb_false_iff in H as [H _]. Qed.
Lemma goes_mul t : addGoes t = false → mulGoes t = false.
Proof. intros H. by apply orb_false_iff in H as [H _]. Qed.
Lemma goes_add t : compareGoes t = false → addGoes t = false.
Proof. intros H. by do 3 apply orb_false_iff in H as [H _]. Qed.
Lemma goes_compare t : andGoes t = false → compareGoes t = false.
Proof. intros H. by apply orb_false_iff in H as [H _]. Qed.
Lemma goes_and t : orGoes t = false → andGoes t = false.
Proof. intros H. by apply orb_false_iff in H as [H _]. Qed.
Lemma goes_or t : conditionalGoes t = false → orGoes t = false.
Proof. intros H. by apply orb_false_iff in H as [H _]. Qed.

Create HintDb goes discriminated.
#[local] Hint Resolve goes_power goes_mul goes_add goes_compare goes_and goes_or stops_weaken : goes.

Lemma stops_first g rest : stops g rest → ∃ t r, rest = t :: r ∧ g t = false.
Proof. destruct rest; [done|eauto]. Qed.

(** Facts about a token whose kind, or the word of which, is known. *)
Ltac token :=
  repeat match goal with
  | H : keyword ?t ?w = true |- _ =>
      let Hk := fresh in pose proof (keyword_ident _ _ H) as Hk;
      let Ht := fresh in assert (Ht : text t = of_string w) by (by apply andb_prop in H as [_ H]; apply bool_decide_eq_true in H);
      clear H
  end;
  cbn [stops];
  unfold conditionalGoes, orGoes, andGoes, compareGoes, addGoes, mulGoes, powerGoes, postfixGoes, keyword, is_kind;
  repeat match goal with H : kind ?t = _ |- _ => rewrite H; clear H end;
  repeat match goal with H : text ?t = of_string _ |- _ => rewrite H; clear H end; first [reflexivity|discriminate|done].

Lemma advance_cons t ts : kind t ≠ tokEOF → advance (t :: ts) = Ok (t, ts).
Proof. intros H. unfold advance, is_kind. by rewrite bool_decide_false. Qed.

Lemma accept_yes k t ts : kind t = k → k ≠ tokEOF → accept k (t :: ts) = Ok (Some t, ts).
Proof. intros <- H. unfold accept. cbn [peek res_bind]. unfold is_kind at 1. rewrite bool_decide_true by done. by rewrite advance_cons. Qed.

Lemma accept_no k t ts : kind t ≠ k → accept k (t :: ts) = Ok (None, t :: ts).
Proof. intros H. unfold accept. cbn [peek res_bind]. unfold is_kind. by rewrite bool_decide_false. Qed.

Lemma expect_yes k t ts : kind t = k → k ≠ tokEOF → expect k (t :: ts) = Ok (t, ts).
Proof. intros <- H. unfold expect. cbn [peek res_bind]. unfold is_kind at 1. rewrite bool_decide_true by done. by rewrite advance_cons. Qed.

Lemma stream_app u rest : stream (u ++ rest) → rest ≠ [] → stream rest.
Proof.
  intros H Hr. induction u as [|t u IH]; [done|]. apply IH. cbn [app] in H. apply stream_cons in H as [_ H]; [done|].
  intros E. cbn [stream] in H. destruct (u ++ rest) eqn:Eu; [|by destruct H]. by apply app_eq_nil in Eu as [_ ->].
Qed.

(** ** Loops do not depend on their fuel *)

Definition shrinks (p : Production) : Prop := ∀ ts r, stream ts → p ts = Ok r → stream r.2 ∧ (length r.2 < length ts)%nat.

Lemma parses_shrinks d nt p : parses d nt p → shrinks p.
Proof. intros H ts [n rest] Hs E. specialize (H ts Hs). rewrite E in H. destruct H as [(u & _ & Hr & _) Hl]. done. Qed.

Section Fuel.
Context (next : Production) (Hnext : shrinks next).

Lemma advance_stream ts t rest : stream ts → advance ts = Ok (t, rest) → stream rest ∧ (length rest ≤ length ts)%nat.
Proof.
  intros Hs. destruct (stream_head ts Hs) as (u & r & ->). unfold advance, is_kind. case_bool_decide as Hk; intros [= <- <-]; [done|].
  apply stream_cons in Hs as [_ Hs]; [|done]. split; [done|]. cbn. lia.
Qed.

Lemma logicalLoop_fuel word op f g l ts :
  stream ts → (length ts < f)%nat → (length ts < g)%nat → logicalLoop f word op next l ts = logicalLoop g word op next l ts.
Proof.
  revert g l ts. induction f as [|f IH]; intros [|g] l ts Hs Hf Hg; [lia|lia|lia|]. cbn [logicalLoop].
  destruct (peek ts) as [t|]; [|done]. cbn [res_bind]. destruct (keyword t word); [|done].
  destruct (advance ts) as [[a ts1]|] eqn:E1; [|done]. cbn [res_bind]. apply advance_stream in E1 as [Hs1 Hl1]; [|done].
  destruct (next ts1) as [[r ts2]|] eqn:E2; [|done]. cbn [res_bind]. apply Hnext in E2 as [Hs2 Hl2]; [|done]. cbn [snd] in *. apply IH; [done|lia|lia].
Qed.

Lemma binaryLoop_fuel ops f g l ts :
  stream ts → (length ts < f)%nat → (length ts < g)%nat → binaryLoop f ops next l ts = binaryLoop g ops next l ts.
Proof.
  revert g l ts. induction f as [|f IH]; intros [|g] l ts Hs Hf Hg; [lia|lia|lia|]. cbn [binaryLoop].
  destruct (peek ts) as [t|]; [|done]. cbn [res_bind]. destruct (ops (kind t)); [|done].
  destruct (advance ts) as [[a ts1]|] eqn:E1; [|done]. cbn [res_bind]. apply advance_stream in E1 as [Hs1 Hl1]; [|done].
  destruct (next ts1) as [[r ts2]|] eqn:E2; [|done]. cbn [res_bind]. apply Hnext in E2 as [Hs2 Hl2]; [|done]. cbn [snd] in *. apply IH; [done|lia|lia].
Qed.

Lemma compareLoop_fuel first f g ops operands offs ts :
  stream ts → (length ts < f)%nat → (length ts < g)%nat →
  compareLoop f next first ops operands offs ts = compareLoop g next first ops operands offs ts.
Proof.
  revert g ops operands offs ts. induction f as [|f IH]; intros [|g] ops operands offs ts Hs Hf Hg; [lia|lia|lia|]. cbn [compareLoop].
  destruct (stream_head ts Hs) as (t & r & ->). cbn [peek res_bind].
  pose proof (compareOperator_spec t r Hs) as H. destruct (compareOperator t (t :: r)) as [[[op|] ts1]|]; [|done|done]. cbn [answered res_bind] in H |- *.
  destruct H as (os & E & _ & Hs1). cbn [fst snd] in *. assert (Hl1 : (length ts1 ≤ length (t :: r))%nat) by (rewrite E; cbn; rewrite length_app; lia).
  destruct (next ts1) as [[x ts2]|] eqn:E2; [|done]. cbn [res_bind]. apply Hnext in E2 as [Hs2 Hl2]; [|done]. cbn [snd] in *. apply IH; [done|lia|lia].
Qed.
End Fuel.

Lemma nameLoop_fuel off f g parts ts :
  (length ts < f)%nat → (length ts < g)%nat → stream ts → nameLoop f off parts ts = nameLoop g off parts ts.
Proof.
  revert g parts ts. induction f as [|f IH]; intros [|g] parts ts Hf Hg Hs; [lia|lia|lia|]. cbn [nameLoop].
  pose proof (accept_spec tokDot ts ltac:(done) Hs) as H. destruct (accept tokDot ts) as [[[k|] ts1]|]; [|done|done]. cbn [answered res_bind] in H |- *.
  destruct H as (-> & _ & _ & Hs1). cbn [fst snd] in *.
  pose proof (expect_spec tokIdent ts1 ltac:(done) Hs1) as H. destruct (expect tokIdent ts1) as [[a ts2]|]; [|done]. cbn [answered res_bind] in H |- *.
  destruct H as (-> & _ & _ & Hs2). cbn [fst snd length] in *. apply IH; [lia|lia|done].
Qed.

(** What is left is a stream, and not longer. *)
Definition within (ts rest : list token) : Prop := stream ts → stream rest ∧ (length rest ≤ length ts)%nat.

#[local] Instance within_preorder : PreOrder within.
Proof. split; [done|]. intros a b c Hab Hbc Ha. destruct (Hab Ha) as [Hb ?]. destruct (Hbc Hb). split; [done|lia]. Qed.

Lemma advance_within ts t rest : advance ts = Ok (t, rest) → within ts rest.
Proof. intros H Hs. by eapply advance_stream. Qed.

Lemma accept_within k ts o rest : k ≠ tokEOF → accept k ts = Ok (o, rest) → within ts rest.
Proof.
  intros Hk H Hs. pose proof (accept_spec k ts Hk Hs) as Ha. rewrite H in Ha. cbn [answered fst snd] in Ha. destruct o as [t|]; [|by subst].
  destruct Ha as (-> & _ & _ & Hr). split; [done|]. cbn. lia.
Qed.

Lemma expect_within k ts t rest : k ≠ tokEOF → expect k ts = Ok (t, rest) → within ts rest.
Proof.
  intros Hk H Hs. pose proof (expect_spec k ts Hk Hs) as Ha. rewrite H in Ha. destruct Ha as (-> & _ & _ & Hr). split; [done|]. cbn. lia.
Qed.

Lemma shrinks_within p ts n rest : shrinks p → p ts = Ok (n, rest) → within ts rest.
Proof. intros Hp H Hs. destruct (Hp ts (n, rest) Hs H) as [? ?]. cbn [snd] in *. split; [done|lia]. Qed.

(** Follows an answer through the steps of a production. *)
Ltac follow :=
  repeat match goal with
  | H : errorAtTok _ _ = Ok _ |- _ => discriminate H
  | H : Ok _ = Ok _ |- _ => injection H as ? ?; subst
  | H : res_bind (peek _) _ = Ok _ |- _ => let t := fresh "t" in apply res_bind_ok in H as (t & _ & H)
  | H : res_bind _ _ = Ok _ |- _ => apply res_bind_ok in H as ([? ?] & ? & H)
  | H : match ?o with Some _ => _ | None => _ end = Ok _ |- _ => destruct o
  | H : (if ?b then _ else _) = Ok _ |- _ => destruct b
  | H : advance _ = Ok _ |- _ => apply advance_within in H
  | H : accept _ _ = Ok _ |- _ => apply accept_within in H; [|done]
  | H : expect _ _ = Ok _ |- _ => apply expect_within in H; [|done]
  | H : ?p _ = Ok _, Hp : shrinks ?p |- _ => apply (shrinks_within _ _ _ _ Hp) in H
  end.

Ltac chained := repeat match goal with H : within ?a _ |- within ?a _ => etransitivity; [exact H|clear H] end; try reflexivity.

Section Trailers.
Context (expr : Production) (Hexpr : shrinks expr).

Lemma parseSliceRest_within off x a ts n rest : parseSliceRest expr off x a ts = Ok (n, rest) → within ts rest.
Proof. unfold parseSliceRest. intros H. follow; chained. Qed.

Lemma parseSubscript_within x t ts n rest : kind t ≠ tokEOF → parseSubscript expr x (t :: ts) = Ok (n, rest) → within ts rest.
Proof. unfold parseSubscript. intros Hk H. rewrite advance_cons in H by done. cbn [res_bind] in H. follow; try (apply parseSliceRest_within in H); chained. Qed.

Lemma argLoop_within f off x args ts n rest : argLoop f expr off x args ts = Ok (n, rest) → within ts rest.
Proof.
  revert args ts. induction f as [|f IH]; intros args ts H; cbn [argLoop] in H; [done|]. follow; try (apply IH in H); chained.
Qed.

Lemma parseCall_within x t ts n rest : kind t ≠ tokEOF → parseCall expr x (t :: ts) = Ok (n, rest) → within ts rest.
Proof. unfold parseCall. intros Hk H. rewrite advance_cons in H by done. cbn [res_bind] in H. follow; try (apply argLoop_within in H); chained. Qed.

Lemma parseAccess_within x t ts n rest : kind t ≠ tokEOF → parseAccess x (t :: ts) = Ok (n, rest) → within ts rest.
Proof. unfold parseAccess. intros Hk H. rewrite advance_cons in H by done. cbn [res_bind] in H. follow; chained. Qed.

Lemma postfixLoop_fuel f g x ts :
  stream ts → (length ts < f)%nat → (length ts < g)%nat → postfixLoop f expr x ts = postfixLoop g expr x ts.
Proof.
  revert g x ts. induction f as [|f IH]; intros [|g] x ts Hs Hf Hg; [lia|lia|lia|]. cbn [postfixLoop].
  destruct (stream_head ts Hs) as (t & r & ->). cbn [peek res_bind length] in *.
  assert (Hgo : ∀ p : Production, kind t ≠ tokEOF → (∀ n rest, p (t :: r) = Ok (n, rest) → within r rest) →
    (let? (x, ts) := p (t :: r) in postfixLoop f expr x ts) = (let? (x, ts) := p (t :: r) in postfixLoop g expr x ts)).
  { intros p Hk Hp. destruct (p (t :: r)) as [[y ts1]|]; [|done]. cbn [res_bind]. apply stream_cons in Hs as [_ Hs]; [|done].
    destruct (Hp y ts1 eq_refl Hs) as [Hs1 Hl]. apply IH; [done|lia|lia]. }
  destruct (kind t) eqn:Ek; try done.
  - apply Hgo; [done|]. intros n rest. apply parseCall_within. congruence.
  - apply Hgo; [done|]. intros n rest. apply parseSubscript_within. congruence.
  - apply Hgo; [done|]. intros n rest. apply parseAccess_within. congruence.
Qed.
End Trailers.

(** ** Completeness *)

(** The productions under the guard of level [d]. *)
Definition lowerOf (d : nat) : option Parsers := match d with O => None | S d' => Some (parsers d') end.

Lemma parsers_level d : parsers d = level (lowerOf d).
Proof. by destruct d. Qed.

(** [p] reads the phrase [u] as [n] when what follows does not continue it. *)
Definition reads (g : token → bool) (p : Production) (u : list token) (n : Node) : Prop :=
  ∀ rest, stream (u ++ rest) → stops g rest → p (u ++ rest) = Ok (n, rest).

(** [p] reads the phrase [u] and is then in its loop with [n]. *)
Definition reaches (g : token → bool) (p : Production) (loop : nat → Node → Production) (u : list token) (n : Node) : Prop :=
  ∀ rest, stream (u ++ rest) → stops g rest → p (u ++ rest) = loop (S (length rest)) n rest.

(** The rest of a list: its end, or a last comma and its end. *)
Definition closes (rest tail : list token) : Prop :=
  (∃ c, rest = c :: tail ∧ kind c = tokRBracket) ∨ (∃ k c, rest = k :: c :: tail ∧ kind k = tokComma ∧ kind c = tokRBracket).

(** What is proved of each phrase. *)
Definition accepts (d : nat) (nt : nonterminal) (u : list token) (n : Node) : Prop :=
  let L := lowerOf d in
  match nt with
  | ConditionalExpr => reads conditionalGoes (parseConditional L) u n
  | OrExpr => reaches andGoes (parseOr L) (λ f l, logicalLoop f "or" OpOr (parseAnd L) l) u n
  | AndExpr => reaches compareGoes (parseAnd L) (λ f l, logicalLoop f "and" OpAnd (parseNot L) l) u n
  | NotExpr => reads compareGoes (parseNot L) u n
  | CompareExpr => reads compareGoes (parseCompare (parseAdd L)) u n
  | AddExpr => reaches mulGoes (parseAdd L) (λ f l, binaryLoop f addOps (parseMul L) l) u n
  | MulExpr => reaches powerGoes (parseMul L) (λ f l, binaryLoop f mulOps (parseUnary L) l) u n
  | UnaryExpr => reads powerGoes (parseUnary L) u n
  | PowerExpr => reads powerGoes (parsePower L) u n
  | PostfixExpr => ∀ rest, stream (u ++ rest) → rest ≠ [] → (bareName u → noDot rest) →
      match d with
      | O => False
      | S d' => parsePostfix L (u ++ rest) = postfixLoop (S (length rest)) (pConditional (parsers d')) n rest
      end
  | PrimaryExpr => ∀ rest, stream (u ++ rest) → rest ≠ [] → (bareName u → noDot rest) → parsePrimary L (u ++ rest) = Ok (n, rest)
  end.

Definition acceptsChain (d : nat) (u : list token) (ops : list Op) (operands : list Node) (offs : list Z) : Prop :=
  ∃ first, ∀ rest, stream (u ++ rest) → stops addGoes rest →
    parseCompare (parseAdd (lowerOf d)) (u ++ rest) =
    compareLoop (S (length rest)) (parseAdd (lowerOf d)) first ops operands offs rest.

Definition acceptsItems (d : nat) (u : list token) (l : list Node) : Prop :=
  (∀ fuel off elems rest tail, closes rest tail → stream (u ++ rest) → (length (u ++ rest) < fuel)%nat →
     listLoop fuel (parseConditional (lowerOf d)) (parseOr (lowerOf d)) off elems (u ++ rest) = Ok (ListLit off (elems ++ l), tail)) ∧
  (∀ fuel off x args c tail, kind c = tokRParen → stream (u ++ c :: tail) → (length (u ++ c :: tail) < fuel)%nat →
     argLoop fuel (parseConditional (lowerOf d)) off x args (u ++ c :: tail) = Ok (Call off x (args ++ l), tail)).

Definition acceptsOptional (d : nat) (u : list token) (o : option Node) : Prop :=
  match o with
  | None => u = []
  | Some n => reads conditionalGoes (parseConditional (lowerOf d)) u n ∧ beginsWith notStart u
  end.

Definition acceptsSlice (d : nat) (v : list token) (a b s : option Node) : Prop :=
  ∀ x o c tail, kind o = tokLBracket → kind c = tokRBracket → stream (o :: v ++ c :: tail) →
    parseSubscript (parseConditional (lowerOf d)) x (o :: v ++ c :: tail) = Ok (Slice (tokOffset o) x a b s, tail).

Definition acceptsFilter (d : nat) (w : list token) (o : option Node) : Prop :=
  match o with
  | None => w = []
  | Some n => ∃ t u, w = t :: u ∧ keyword t "if" = true ∧ reads orGoes (parseOr (lowerOf d)) u n
  end.

(** *** Operators *)

Lemma stops_nonempty g rest : stops g rest → rest ≠ [].
Proof. by destruct rest. Qed.

Section Operators.
Context (g : token → bool) (next : Production) (Hnext : shrinks next).

Lemma logical_one word op u n : reads g next u n → reaches g (parseLogicalLevel word op next) (λ f l, logicalLoop f word op next l) u n.
Proof. intros H rest Hs Hst. unfold parseLogicalLevel. by rewrite H. Qed.

Lemma logical_more word op u l t v r :
  g t = false → keyword t word = true → reaches g (parseLogicalLevel word op next) (λ f l, logicalLoop f word op next l) u l → reads g next v r →
  reaches g (parseLogicalLevel word op next) (λ f l, logicalLoop f word op next l) (u ++ t :: v) (Logical (tokOffset t) op l r).
Proof.
  intros Hg Hk Hu Hv rest Hs Hst. rewrite <-app_assoc in *. cbn [app] in *. rewrite Hu by done.
  set (z := logicalLoop (S (length rest)) _ _ _ _ _). cbn [logicalLoop peek res_bind]. rewrite Hk.
  rewrite advance_cons by token. cbn [res_bind]. pose proof (stream_app u _ Hs ltac:(done)) as Hs1.
  pose proof (stream_app [t] _ Hs1 ltac:(by intros [_ ->]%app_eq_nil)) as Hs2.
  rewrite Hv by done. cbn [res_bind]. pose proof (stream_app v _ Hs2 ltac:(by eapply stops_nonempty)).
  subst z. apply logicalLoop_fuel; try done; cbn [length]; rewrite ?length_app; lia.
Qed.

Lemma logical_reads (h : token → bool) word op u n :
  (∀ t, h t = false → g t = false ∧ keyword t word = false) →
  reaches g (parseLogicalLevel word op next) (λ f l, logicalLoop f word op next l) u n → reads h (parseLogicalLevel word op next) u n.
Proof.
  intros Hh Hu rest Hs Hst. destruct (stops_first _ _ Hst) as (t & r & -> & Ht). destruct (Hh t Ht) as [Hg Hk].
  rewrite Hu by done. cbn [logicalLoop peek res_bind]. by rewrite Hk.
Qed.

Lemma binary_one ops u n : reads g next u n → reaches g (parseBinaryLevel ops next) (λ f l, binaryLoop f ops next l) u n.
Proof. intros H rest Hs Hst. unfold parseBinaryLevel. by rewrite H. Qed.

Lemma binary_more ops u l t op v r :
  g t = false → kind t ≠ tokEOF → ops (kind t) = Some op →
  reaches g (parseBinaryLevel ops next) (λ f l, binaryLoop f ops next l) u l → reads g next v r →
  reaches g (parseBinaryLevel ops next) (λ f l, binaryLoop f ops next l) (u ++ t :: v) (Binary (tokOffset t) op l r).
Proof.
  intros Hg Hk Ho Hu Hv rest Hs Hst. rewrite <-app_assoc in *. cbn [app] in *. rewrite Hu by done.
  set (z := binaryLoop (S (length rest)) _ _ _ _). cbn [binaryLoop peek res_bind]. rewrite Ho.
  rewrite advance_cons by done. cbn [res_bind]. pose proof (stream_app u _ Hs ltac:(done)) as Hs1.
  pose proof (stream_app [t] _ Hs1 ltac:(by intros [_ ->]%app_eq_nil)) as Hs2.
  rewrite Hv by done. cbn [res_bind]. pose proof (stream_app v _ Hs2 ltac:(by eapply stops_nonempty)).
  subst z. apply binaryLoop_fuel; try done; cbn [length]; rewrite ?length_app; lia.
Qed.

Lemma binary_reads (h : token → bool) ops u n :
  (∀ t, h t = false → g t = false ∧ ops (kind t) = None) →
  reaches g (parseBinaryLevel ops next) (λ f l, binaryLoop f ops next l) u n → reads h (parseBinaryLevel ops next) u n.
Proof.
  intros Hh Hu rest Hs Hst. destruct (stops_first _ _ Hst) as (t & r & -> & Ht). destruct (Hh t Ht) as [Hg Hk].
  rewrite Hu by done. cbn [binaryLoop peek res_bind]. by rewrite Hk.
Qed.
End Operators.

Lemma comparison_stops t os op : comparison (t :: os) op → addGoes t = false ∧ kind t ≠ tokEOF.
Proof.
  intros H. inversion H as [? ? Ho|? Hk|? ? Hk]; subst; [|split; token..].
  destruct (kind t) eqn:E; try done; (split; [unfold addGoes, mulGoes, powerGoes, postfixGoes, is_kind; by rewrite E|done]).
Qed.

Lemma compareOperator_yes t os op ts : comparison (t :: os) op → compareOperator t (t :: os ++ ts) = Ok (Some op, ts).
Proof.
  intros H. inversion H as [? ? Ho|? Hk|? u Hk Hi]; subst; unfold compareOperator.
  - rewrite Ho, advance_cons; [done|]. intros E. by rewrite E in Ho.
  - rewrite (keyword_ident _ _ Hk). cbn [compareOps]. rewrite Hk. by rewrite advance_cons by token.
  - rewrite (keyword_ident _ _ Hk). cbn [compareOps]. replace (keyword t "in") with false by (symmetry; token). rewrite Hk. cbn [app andb].
    rewrite Hi. rewrite advance_cons by token. cbn [res_bind]. by rewrite advance_cons by token.
Qed.

Lemma compareOperator_no t ts : compareGoes t = false → compareOperator t (t :: ts) = Ok (None, t :: ts).
Proof.
  intros H. unfold compareGoes in H. apply orb_false_iff in H as [H Hn]. apply orb_false_iff in H as [H Hi].
  apply orb_false_iff in H as [_ H]. apply bool_decide_eq_false in H. unfold compareOperator. rewrite Hn, Hi.
  destruct (compareOps (kind t)); [destruct H; eauto|done].
Qed.

(** *** The levels *)

Lemma lower_follows d l : lowerOf d = Some l → ∃ d', d = S d' ∧ follows d' l.
Proof. destruct d as [|d]; [done|]. intros [= <-]. exists d. split; [done|apply parsers_follow]. Qed.

Lemma peek_app u t r : ∃ h, peek (u ++ t :: r) = Ok h.
Proof. destruct u; cbn; eauto. Qed.

Lemma unaryStart_not t : unaryStart t = true → keyword t "not" = false.
Proof.
  intros H. unfold keyword, is_kind. case_bool_decide as Hk; [|done]. cbn [andb]. apply bool_decide_eq_false. intros Ht.
  unfold unaryStart, primaryStart, is_kind in H. rewrite Hk, Ht in H. discriminate H.
Qed.

(** A token that begins a phrase closes none. *)
Lemma notStart_kind t k : notStart t = true → k ∈ [tokRBracket; tokRParen; tokColon; tokComma; tokEOF; tokDot; tokDoubleStar] → kind t ≠ k.
Proof.
  intros H Hk E. unfold notStart, unaryStart, primaryStart, keyword, is_kind in H. rewrite E in H.
  repeat (apply elem_of_cons in Hk as [->|Hk]; [discriminate H|]). by apply not_elem_of_nil in Hk.
Qed.

Section AtLevel.
Context (d : nat).
Let L := lowerOf d.

Lemma not_shrinks : shrinks (parseNot L).
Proof. apply (parses_shrinks d NotExpr), parseNot_parses, lower_follows. Qed.

Lemma and_shrinks : shrinks (parseAnd L).
Proof.
  apply (parses_shrinks d AndExpr), (parseLogicalLevel_parses AndExpr NotExpr); [by constructor|by constructor|]. apply parseNot_parses, lower_follows.
Qed.

Lemma unary_shrinks : shrinks (parseUnary L).
Proof. apply (parses_shrinks d UnaryExpr), parseUnary_parses, lower_follows. Qed.

Lemma mul_shrinks : shrinks (parseMul L).
Proof.
  apply (parses_shrinks d MulExpr), (parseBinaryLevel_parses MulExpr UnaryExpr); [done|by constructor|by constructor|]. apply parseUnary_parses, lower_follows.
Qed.

Lemma add_shrinks : shrinks (parseAdd L).
Proof. apply (parses_shrinks d AddExpr), parseAdd_parses, lower_follows. Qed.

Lemma conditional_shrinks : shrinks (parseConditional L).
Proof. apply (parses_shrinks d ConditionalExpr), parseConditional_parses, lower_follows. Qed.

Lemma or_reads u n : accepts d OrExpr u n → reads orGoes (parseOr L) u n.
Proof. apply logical_reads. intros t H. by apply orb_false_iff in H. Qed.

Lemma and_reads u n : accepts d AndExpr u n → reads andGoes (parseAnd L) u n.
Proof. apply logical_reads. intros t H. by apply orb_false_iff in H. Qed.

Lemma add_reads u n : accepts d AddExpr u n → reads addGoes (parseAdd L) u n.
Proof.
  apply binary_reads. intros t H. apply orb_false_iff in H as [H Ho]. apply bool_decide_eq_false in Ho. split; [done|].
  destruct (addOps (kind t)); [destruct Ho; eauto|done].
Qed.

Lemma mul_reads u n : accepts d MulExpr u n → reads mulGoes (parseMul L) u n.
Proof.
  apply binary_reads. intros t H. apply orb_false_iff in H as [H Ho]. apply bool_decide_eq_false in Ho. split; [done|].
  destruct (mulOps (kind t)); [destruct Ho; eauto|done].
Qed.

Lemma accepts_chain_first u n : accepts d AddExpr u n → acceptsChain d u [] [n] [].
Proof. intros H. exists n. intros rest Hs Hst. unfold parseCompare. by rewrite (add_reads u n H). Qed.

Lemma accepts_chain_more u ops operands offs t os op v n :
  acceptsChain d u ops operands offs → comparison (t :: os) op → accepts d AddExpr v n →
  acceptsChain d (u ++ t :: os ++ v) (ops ++ [op]) (operands ++ [n]) (offs ++ [tokOffset t]).
Proof.
  intros [first Hu] Hc Hv. exists first. intros rest Hs Hst. destruct (comparison_stops _ _ _ Hc) as [Hg Hk].
  replace ((u ++ t :: os ++ v) ++ rest) with (u ++ t :: os ++ v ++ rest) in * by (by rewrite <-!app_assoc, <-app_comm_cons, <-app_assoc).
  rewrite Hu by done. set (z := compareLoop (S (length rest)) _ _ _ _ _ _). cbn [compareLoop peek res_bind].
  rewrite (compareOperator_yes t os op) by done. cbn [res_bind]. pose proof (stream_app u _ Hs ltac:(done)) as Hs1.
  assert (Hne : v ++ rest ≠ []) by (intros [_ ->]%app_eq_nil; done).
  pose proof (stream_app (t :: os) (v ++ rest) ltac:(by rewrite <-app_comm_cons) Hne) as Hs2.
  rewrite (add_reads v n Hv) by done. cbn [res_bind]. subst z. apply compareLoop_fuel; [apply add_shrinks|..|lia].
  - by eapply stream_app, stops_nonempty.
  - cbn [length]. rewrite !length_app. lia.
Qed.

Lemma accepts_add u n : accepts d AddExpr u n → accepts d CompareExpr u n.
Proof.
  intros H rest Hs Hst. unfold parseCompare. rewrite (add_reads u n H) by eauto with goes. cbn [res_bind].
  destruct (stops_first _ _ Hst) as (t & r & -> & Ht). cbn [compareLoop peek res_bind]. by rewrite compareOperator_no.
Qed.

Lemma accepts_chain u op ops operands off offs :
  acceptsChain d u (op :: ops) operands (off :: offs) → accepts d CompareExpr u (Compare off (op :: ops) operands (off :: offs)).
Proof.
  intros [first H] rest Hs Hst. rewrite H by eauto with goes. destruct (stops_first _ _ Hst) as (t & r & -> & Ht).
  cbn [compareLoop peek res_bind]. by rewrite compareOperator_no.
Qed.

Lemma accepts_compare u n : beginsWith unaryStart u → accepts d CompareExpr u n → accepts d NotExpr u n.
Proof.
  intros Hb H rest Hs Hst. specialize (H rest Hs Hst). destruct u as [|t u]; [done|]. cbn [app] in *. unfold parseNot. cbn [peek res_bind].
  by rewrite unaryStart_not.
Qed.

Lemma accepts_power u n : beginsWith primaryStart u → accepts d PowerExpr u n → accepts d UnaryExpr u n.
Proof.
  intros Hb H rest Hs Hst. specialize (H rest Hs Hst). destruct u as [|t u]; [done|]. cbn [app beginsWith] in *. unfold parseUnary. cbn [peek res_bind].
  unfold primaryStart in Hb. by destruct (kind t).
Qed.
End AtLevel.

(** *** Guarded productions *)

Section Guarded.
Context (d : nat).
Let L := lowerOf d.

Lemma lower_conditional : pConditional (parsers d) = parseConditional L.
Proof. by rewrite parsers_level. Qed.
Lemma lower_or : pOr (parsers d) = parseOr L.
Proof. by rewrite parsers_level. Qed.
Lemma lower_not : pNot (parsers d) = parseNot L.
Proof. by rewrite parsers_level. Qed.
Lemma lower_unary : pUnary (parsers d) = parseUnary L.
Proof. by rewrite parsers_level. Qed.
Lemma lower_postfix : pPostfix (parsers d) = parsePostfix L.
Proof. by rewrite parsers_level. Qed.
Lemma lower_primary : pPrimary (parsers d) = parsePrimary L.
Proof. by rewrite parsers_level. Qed.

Lemma accepts_or u n : accepts d OrExpr u n → accepts (S d) ConditionalExpr u n.
Proof.
  intros H rest Hs Hst. destruct (stops_first _ _ Hst) as (t & r & -> & Ht). unfold parseConditional.
  destruct (peek_app u t r) as [h ->]. cbn [res_bind lowerOf enter]. rewrite lower_or, (or_reads d u n H) by (done || eauto with goes).
  cbn [res_bind peek]. apply orb_false_iff in Ht as [_ Ht]. by rewrite Ht.
Qed.

Lemma accepts_conditional u t i v c e w o :
  accepts d OrExpr u t → keyword i "if" = true → accepts d OrExpr v c → keyword e "else" = true → accepts d ConditionalExpr w o →
  accepts (S d) ConditionalExpr (u ++ i :: v ++ e :: w) (Cond (tokOffset i) t c o).
Proof.
  intros Hu Hi Hv He Hw rest Hs Hst.
  replace ((u ++ i :: v ++ e :: w) ++ rest) with (u ++ i :: v ++ e :: w ++ rest) in * by lists.
  pose proof (stream_app u _ Hs ltac:(done)) as Hs1. pose proof (stream_app [i] _ Hs1 ltac:(by destruct v)) as Hs2.
  pose proof (stream_app v _ Hs2 ltac:(done)) as Hs3. pose proof (stream_app [e] _ Hs3 ltac:(intros [_ ->]%app_eq_nil; done)) as Hs4.
  unfold parseConditional. destruct (peek_app u i (v ++ e :: w ++ rest)) as [h ->]. cbn [res_bind lowerOf enter].
  rewrite lower_or, (or_reads d u t Hu) by (done || token). cbn [res_bind peek]. rewrite Hi. cbn [negb].
  rewrite advance_cons by token. cbn [res_bind]. rewrite (or_reads d v c Hv) by (done || token). cbn [res_bind peek]. rewrite He. cbn [negb].
  rewrite advance_cons by token. cbn [res_bind]. rewrite lower_conditional. unfold L. by rewrite Hw.
Qed.

Lemma accepts_not_not t u x : keyword t "not" = true → accepts d NotExpr u x → accepts (S d) NotExpr (t :: u) (Unary (tokOffset t) OpNot x).
Proof.
  intros Ht Hu rest Hs Hst. cbn [app] in *. unfold parseNot. cbn [peek res_bind]. rewrite Ht. cbn [negb lowerOf enter].
  rewrite advance_cons by token. cbn [res_bind]. rewrite lower_not. unfold L.
  rewrite Hu; [done| |done]. apply (stream_app [t]); [done|]. intros [_ ->]%app_eq_nil. done.
Qed.

Lemma accepts_sign t u x op :
  kind t = tokMinus ∧ op = OpNeg ∨ kind t = tokPlus ∧ op = OpPos → accepts d UnaryExpr u x →
  accepts (S d) UnaryExpr (t :: u) (Unary (tokOffset t) op x).
Proof.
  intros Ht Hu rest Hs Hst. cbn [app] in *. unfold parseUnary. cbn [peek res_bind lowerOf enter].
  assert (Hr : reads powerGoes (pUnary (parsers d)) u x) by (rewrite lower_unary; exact Hu).
  assert (Hs1 : stream (u ++ rest)) by (apply (stream_app [t]); [done|]; intros [_ ->]%app_eq_nil; done).
  destruct Ht as [[Ht ->]|[Ht ->]]; rewrite Ht, advance_cons by congruence; cbn [res_bind]; by rewrite Hr.
Qed.

Lemma postfix_reads u n : accepts d PostfixExpr u n → reads postfixGoes (parsePostfix L) u n.
Proof.
  intros H rest Hs Hst. destruct (stops_first _ _ Hst) as (t & r & -> & Ht).
  assert (Hd : noDot (t :: r)) by (cbn; intros E; unfold postfixGoes in Ht; by rewrite E in Ht).
  specialize (H (t :: r) Hs ltac:(done) ltac:(done)). unfold L. destruct d as [|d']; [done|]. rewrite H. cbn [postfixLoop peek res_bind].
  unfold postfixGoes in Ht. by destruct (kind t).
Qed.

Lemma accepts_postfix u n : accepts d PostfixExpr u n → accepts (S d) PowerExpr u n.
Proof.
  intros H rest Hs Hst. destruct (stops_first _ _ Hst) as (t & r & -> & Ht). apply orb_false_iff in Ht as [Hg Hk].
  apply bool_decide_eq_false in Hk. unfold parsePower. destruct (peek_app u t r) as [h ->]. cbn [res_bind lowerOf enter].
  rewrite lower_postfix, (postfix_reads u n H) by done. cbn [res_bind]. by rewrite accept_no.
Qed.

Lemma accepts_pow u b t v e :
  accepts d PostfixExpr u b → kind t = tokDoubleStar → accepts d UnaryExpr v e → accepts (S d) PowerExpr (u ++ t :: v) (Binary (tokOffset t) OpPow b e).
Proof.
  intros Hu Ht Hv rest Hs Hst. rewrite <-app_assoc in *. cbn [app] in *.
  pose proof (stream_app u _ Hs ltac:(done)) as Hs1. pose proof (stream_app [t] _ Hs1 ltac:(intros [_ ->]%app_eq_nil; done)) as Hs2.
  unfold parsePower. destruct (peek_app u t (v ++ rest)) as [h ->]. cbn [res_bind lowerOf enter].
  rewrite lower_postfix, (postfix_reads u b Hu) by (done || token). cbn [res_bind]. rewrite accept_yes by done. cbn [res_bind].
  rewrite lower_unary. unfold L. by rewrite Hv.
Qed.

(** *** Trailers *)

Lemma accepts_primary u n : accepts d PrimaryExpr u n → accepts (S d) PostfixExpr u n.
Proof.
  intros H rest Hs Hne Hb. destruct rest as [|t r]; [done|]. unfold parsePostfix. destruct (peek_app u t r) as [h ->].
  cbn [res_bind lowerOf enter]. rewrite lower_primary. unfold L. by rewrite H.
Qed.

(** The trailer that a token begins. *)
Definition trailer (expr : Production) (x : Node) (t : token) : Production :=
  match kind t with tokLBracket => parseSubscript expr x | tokLParen => parseCall expr x | _ => parseAccess x end.

Lemma accepts_trailer u x t w y :
  accepts (S d) PostfixExpr u x → postfixGoes t = true → (kind t = tokDot → ¬ bareName u) →
  (∀ rest, rest ≠ [] → stream (t :: w ++ rest) → trailer (parseConditional L) x t (t :: w ++ rest) = Ok (y, rest)) →
  accepts (S d) PostfixExpr (u ++ t :: w) y.
Proof.
  intros Hu Hg Hn Hw rest Hs Hne Hb. rewrite <-app_assoc in *. cbn [app] in *. pose proof (stream_app u _ Hs ltac:(done)) as Hs1.
  rewrite Hu; [|done|done|intros Hbu E; by apply Hn]. set (z := postfixLoop (S (length rest)) _ _ _). rewrite lower_conditional.
  cbn [postfixLoop peek res_bind]. specialize (Hw rest Hne Hs1). unfold trailer in Hw. unfold postfixGoes in Hg.
  assert (Hz : postfixLoop (length (t :: w ++ rest)) (parseConditional L) y rest = z).
  { subst z. rewrite lower_conditional. apply postfixLoop_fuel; [apply conditional_shrinks|..|lia]; [|cbn [length]; rewrite length_app; lia].
    by apply (stream_app (t :: w)). }
  destruct (kind t); try done; rewrite Hw; exact Hz.
Qed.
End Guarded.

Section Phrases.
Context (d : nat).
Let L := lowerOf d.

Lemma head_start u v : beginsWith notStart u → ∃ t r, u ++ v = t :: r ∧ notStart t = true.
Proof. destruct u as [|t u]; [done|]. cbn. eauto. Qed.

(** A token that does not begin a phrase is not found at the head of one. *)
Lemma accept_start k u v : beginsWith notStart u → k ∈ [tokRBracket; tokRParen; tokColon; tokComma; tokEOF; tokDot; tokDoubleStar] →
  accept k (u ++ v) = Ok (None, u ++ v).
Proof. intros H Hk. destruct (head_start u v H) as (t & r & -> & Ht). apply accept_no. by eapply notStart_kind. Qed.

Lemma accepts_index u x o v i c :
  accepts (S d) PostfixExpr u x → kind o = tokLBracket → beginsWith notStart v → accepts d ConditionalExpr v i → kind c = tokRBracket →
  accepts (S d) PostfixExpr (u ++ o :: v ++ [c]) (Index (tokOffset o) x i).
Proof.
  intros Hu Ho Hb Hv Hc. eapply accepts_trailer; [done|unfold postfixGoes; by rewrite Ho|congruence|]. intros rest Hne Hs.
  rewrite <-app_assoc in *. cbn [app] in *. unfold trailer. rewrite Ho. unfold parseSubscript. rewrite advance_cons by congruence. cbn [res_bind].
  rewrite accept_start by (done || set_solver). cbn [res_bind]. rewrite Hv; [|apply (stream_app [o]); [done|by destruct v]|token]. cbn [res_bind].
  rewrite accept_no by congruence. cbn [res_bind]. by rewrite expect_yes.
Qed.

Lemma accepts_call_empty u x o c :
  accepts (S d) PostfixExpr u x → kind o = tokLParen → kind c = tokRParen → accepts (S d) PostfixExpr (u ++ [o; c]) (Call (tokOffset o) x []).
Proof.
  intros Hu Ho Hc. eapply accepts_trailer; [done|unfold postfixGoes; by rewrite Ho|congruence|]. intros rest Hne Hs. cbn [app] in *.
  unfold trailer. rewrite Ho. unfold parseCall. rewrite advance_cons by congruence. cbn [res_bind]. by rewrite accept_yes.
Qed.

Lemma accepts_call u x o v args c :
  accepts (S d) PostfixExpr u x → kind o = tokLParen → beginsWith notStart v → acceptsItems d v args → kind c = tokRParen →
  accepts (S d) PostfixExpr (u ++ o :: v ++ [c]) (Call (tokOffset o) x args).
Proof.
  intros Hu Ho Hb [_ Hv] Hc. eapply accepts_trailer; [done|unfold postfixGoes; by rewrite Ho|congruence|]. intros rest Hne Hs.
  rewrite <-app_assoc in *. cbn [app] in *. unfold trailer. rewrite Ho. unfold parseCall. rewrite advance_cons by congruence. cbn [res_bind].
  rewrite accept_start by (done || set_solver). cbn [res_bind]. rewrite Hv; [done|done| |lia]. apply (stream_app [o]); [done|by destruct v].
Qed.

Lemma accepts_access u x k t :
  accepts (S d) PostfixExpr u x → ¬ bareName u → kind k = tokDot → kind t = tokIdent →
  accepts (S d) PostfixExpr (u ++ [k; t]) (Access (tokOffset k) x (text t)).
Proof.
  intros Hu Hn Hk Ht. eapply accepts_trailer; [done|unfold postfixGoes; by rewrite Hk|done|]. intros rest Hne Hs. cbn [app] in *.
  unfold trailer. rewrite Hk. unfold parseAccess. rewrite advance_cons by congruence. cbn [res_bind]. by rewrite expect_yes.
Qed.

(** *** Slices *)

Lemma subscript_slice u a o k x ts :
  acceptsOptional d u a → kind o = tokLBracket → kind k = tokColon → stream (o :: u ++ k :: ts) →
  parseSubscript (parseConditional L) x (o :: u ++ k :: ts) = parseSliceRest (parseConditional L) (tokOffset o) x a ts.
Proof.
  intros Ha Ho Hk Hs. unfold parseSubscript. rewrite advance_cons by congruence. cbn [res_bind].
  destruct a as [n|]; cbn [acceptsOptional] in Ha; [|subst u; cbn [app]; by rewrite accept_yes]. destruct Ha as [Hr Hb].
  rewrite accept_start by (done || set_solver). cbn [res_bind]. rewrite Hr; [|apply (stream_app [o]); [done|by destruct u]|token]. cbn [res_bind].
  by rewrite accept_yes.
Qed.

Lemma sliceRest_two off x a v b c tail :
  acceptsOptional d v b → kind c = tokRBracket → stream (v ++ c :: tail) →
  parseSliceRest (parseConditional L) off x a (v ++ c :: tail) = Ok (Slice off x a b None, tail).
Proof.
  intros Hb Hc Hs. unfold parseSliceRest. destruct b as [n|]; cbn [acceptsOptional] in Hb; [|subst v; cbn [app]; by rewrite accept_yes].
  destruct Hb as [Hr Hb]. rewrite accept_start by (done || set_solver). cbn [res_bind]. destruct (head_start v (c :: tail) Hb) as (t & r & E & Ht).
  rewrite E at 1. cbn [peek res_bind]. unfold is_kind. rewrite bool_decide_false by (eapply notStart_kind; [done|set_solver]).
  rewrite Hr by (done || token). cbn [res_bind]. by rewrite accept_yes.
Qed.

Lemma sliceRest_three off x a v b k w s c tail :
  acceptsOptional d v b → kind k = tokColon → acceptsOptional d w s → kind c = tokRBracket → stream (v ++ k :: w ++ c :: tail) →
  parseSliceRest (parseConditional L) off x a (v ++ k :: w ++ c :: tail) = Ok (Slice off x a b s, tail).
Proof.
  intros Hb Hk Hw Hc Hs. unfold parseSliceRest. pose proof (stream_app v _ Hs ltac:(done)) as Hs1.
  pose proof (stream_app [k] _ Hs1 ltac:(by destruct w)) as Hs2.
  assert (Hfin : ∀ stop, (let? (_, ts) := expect tokColon (k :: w ++ c :: tail) in
    let? (close, ts) := accept tokRBracket ts in
    match close with
    | Some _ => Ok (Slice off x a stop None, ts)
    | None => let? (step, ts) := parseConditional L ts in let? (_, ts) := expect tokRBracket ts in Ok (Slice off x a stop (Some step), ts)
    end) = Ok (Slice off x a stop s, tail)).
  { intros stop. rewrite expect_yes by done. cbn [res_bind]. destruct s as [n|]; cbn [acceptsOptional] in Hw; [|subst w; cbn [app]; by rewrite accept_yes].
    destruct Hw as [Hr Hw]. rewrite accept_start by (done || set_solver). cbn [res_bind]. rewrite Hr by (done || token). cbn [res_bind].
    by rewrite expect_yes. }
  destruct b as [n|]; cbn [acceptsOptional] in Hb.
  - destruct Hb as [Hr Hb]. rewrite accept_start by (done || set_solver). cbn [res_bind]. destruct (head_start v (k :: w ++ c :: tail) Hb) as (t & r & E & Ht).
    rewrite E at 1. cbn [peek res_bind]. unfold is_kind. rewrite bool_decide_false by (eapply notStart_kind; [done|set_solver]).
    rewrite Hr by (done || token). cbn [res_bind]. rewrite accept_no by congruence. cbn [res_bind]. apply Hfin.
  - subst v. cbn [app]. rewrite accept_no by congruence. cbn [res_bind peek]. unfold is_kind. rewrite bool_decide_true by done. apply Hfin.
Qed.

Lemma accepts_slice u x o v a b s c :
  accepts (S d) PostfixExpr u x → kind o = tokLBracket → acceptsSlice d v a b s → kind c = tokRBracket →
  accepts (S d) PostfixExpr (u ++ o :: v ++ [c]) (Slice (tokOffset o) x a b s).
Proof.
  intros Hu Ho Hv Hc. eapply accepts_trailer; [done|unfold postfixGoes; by rewrite Ho|congruence|]. intros rest Hne Hs.
  rewrite <-app_assoc in *. cbn [app] in *. unfold trailer. rewrite Ho. by apply Hv.
Qed.

Lemma accepts_slice_two u a c v b : acceptsOptional d u a → kind c = tokColon → acceptsOptional d v b → acceptsSlice d (u ++ c :: v) a b None.
Proof.
  intros Ha Hc Hb x o c' tail Ho Hc' Hs. rewrite <-app_assoc in *. cbn [app] in *. fold L. rewrite (subscript_slice u a) by done.
  apply sliceRest_two; [done|done|]. change (o :: u ++ c :: v ++ c' :: tail) with ([o] ++ u ++ c :: v ++ c' :: tail) in Hs.
  rewrite app_assoc in Hs. apply stream_app in Hs; [|done]. apply (stream_app [c]); [done|]. by destruct v.
Qed.

Lemma accepts_slice_three u a c v b k w s :
  acceptsOptional d u a → kind c = tokColon → acceptsOptional d v b → kind k = tokColon → acceptsOptional d w s →
  acceptsSlice d (u ++ c :: v ++ k :: w) a b s.
Proof.
  intros Ha Hc Hb Hk Hw x o c' tail Ho Hc' Hs.
  replace (o :: (u ++ c :: v ++ k :: w) ++ c' :: tail) with (o :: u ++ c :: v ++ k :: w ++ c' :: tail) in * by lists. fold L.
  rewrite (subscript_slice u a) by done.
  apply sliceRest_three; try done. change (o :: u ++ c :: v ++ k :: w ++ c' :: tail) with ([o] ++ u ++ c :: v ++ k :: w ++ c' :: tail) in Hs.
  rewrite app_assoc in Hs. apply stream_app in Hs; [|done]. apply (stream_app [c]); [done|]. by destruct v.
Qed.
End Phrases.

Section Primaries.
Context (d : nat).
Let L := lowerOf d.

(** *** Lists *)

Lemma closes_goes rest tail : closes rest tail → stops conditionalGoes rest.
Proof. intros [(c & -> & Hc)|(k & c & -> & Hk & _)]; token. Qed.

Lemma accepts_items_one u n : accepts d ConditionalExpr u n → acceptsItems d u [n].
Proof.
  intros H. split.
  - intros fuel off elems rest tail Hc Hs Hf. destruct fuel as [|f]; [lia|]. cbn [listLoop].
    rewrite H by (done || by eapply closes_goes). cbn [res_bind]. destruct Hc as [(c & -> & Hc)|(k & c & -> & Hk & Hc)]; cbn [peek res_bind].
    + replace (keyword c "for") with false by (symmetry; token). rewrite accept_no by congruence. cbn [res_bind]. by rewrite expect_yes.
    + replace (keyword k "for") with false by (symmetry; token). rewrite accept_yes by done. cbn [res_bind]. by rewrite accept_yes.
  - intros fuel off x args c tail Hc Hs Hf. destruct fuel as [|f]; [lia|]. cbn [argLoop]. rewrite H by (done || token). cbn [res_bind].
    rewrite accept_no by congruence. cbn [res_bind]. by rewrite expect_yes.
Qed.

Lemma accepts_items_cons u n c v l :
  accepts d ConditionalExpr u n → kind c = tokComma → beginsWith notStart v → acceptsItems d v l → acceptsItems d (u ++ c :: v) (n :: l).
Proof.
  intros H Hc Hb [Hl Ha]. split.
  - intros fuel off elems rest tail Hcl Hs Hf. destruct fuel as [|f]; [lia|]. cbn [listLoop]. rewrite <-app_assoc in *. cbn [app] in *.
    pose proof (stream_app u _ Hs ltac:(done)) as Hs1. pose proof (stream_app [c] _ Hs1 ltac:(by destruct v)) as Hs2.
    rewrite H by (done || token). cbn [res_bind peek]. replace (keyword c "for") with false by (symmetry; token).
    rewrite accept_yes by done. cbn [res_bind]. rewrite accept_start by (done || set_solver). cbn [res_bind].
    rewrite (Hl f off (elems ++ [n]) rest tail); [by rewrite <-app_assoc|done|done|].
    rewrite length_app in Hf. cbn [length] in Hf. lia.
  - intros fuel off x args k tail Hk Hs Hf. destruct fuel as [|f]; [lia|]. cbn [argLoop]. rewrite <-app_assoc in *. cbn [app] in *.
    pose proof (stream_app u _ Hs ltac:(done)) as Hs1. pose proof (stream_app [c] _ Hs1 ltac:(by destruct v)) as Hs2.
    rewrite H by (done || token). cbn [res_bind]. rewrite accept_yes by done. cbn [res_bind].
    rewrite (Ha f off x (args ++ [n]) k tail); [by rewrite <-app_assoc|done|done|].
    rewrite length_app in Hf. cbn [length] in Hf. lia.
Qed.

Lemma accepts_list o u l rest tail :
  kind o = tokLBracket → beginsWith notStart u → acceptsItems d u l → closes rest tail → stream (o :: u ++ rest) →
  parsePrimary L (o :: u ++ rest) = Ok (ListLit (tokOffset o) l, tail).
Proof.
  intros Ho Hb [Hl _] Hc Hs. unfold parsePrimary. cbn [peek res_bind]. rewrite Ho. unfold parseListLiteral. rewrite advance_cons by congruence.
  cbn [res_bind]. rewrite accept_start by (done || set_solver). cbn [res_bind]. apply (Hl _ _ [] rest tail); [done| |lia].
  apply (stream_app [o]); [done|]. destruct u; [|done]. by destruct Hc as [(? & -> & _)|(? & ? & -> & _)].
Qed.

Lemma accepts_comprehension o u e f x i v it c w cond :
  kind o = tokLBracket → beginsWith notStart u → accepts d ConditionalExpr u e → keyword f "for" = true → kind x = tokIdent →
  isUserIdentifier (text x) = true → keyword i "in" = true → accepts d OrExpr v it → acceptsFilter d w cond → kind c = tokRBracket →
  accepts d PrimaryExpr (o :: u ++ f :: x :: i :: v ++ w ++ [c]) (ListComp (tokOffset o) e (text x) (tokOffset x) it cond).
Proof.
  intros Ho Hb Hu Hf Hx Hid Hi Hv Hw Hc rest Hs Hne _.
  replace ((o :: u ++ f :: x :: i :: v ++ w ++ [c]) ++ rest) with (o :: u ++ f :: x :: i :: v ++ w ++ c :: rest) in *
    by (do 4 (cbn [app]; rewrite <-?app_assoc); done).
  pose proof (stream_app [o] _ Hs ltac:(by destruct u)) as Hs1. pose proof (stream_app u _ Hs1 ltac:(done)) as Hs2.
  pose proof (stream_app [f; x; i] _ Hs2 ltac:(intros [_ [_ E]%app_eq_nil]%app_eq_nil; discriminate E)) as Hs3.
  pose proof (stream_app v _ Hs3 ltac:(intros [_ E]%app_eq_nil; discriminate E)) as Hs4.
  unfold parsePrimary. cbn [peek res_bind]. rewrite Ho. unfold parseListLiteral. rewrite advance_cons by congruence.
  cbn [res_bind]. rewrite accept_start by (done || set_solver). cbn [res_bind listLoop]. rewrite Hu by (done || token). cbn [res_bind peek]. rewrite Hf.
  cbn [length app Nat.eqb negb]. unfold parseComprehensionRest. rewrite advance_cons by token. cbn [res_bind]. rewrite expect_yes by done.
  cbn [res_bind]. rewrite Hid. cbn [negb peek res_bind]. rewrite Hi. cbn [negb]. rewrite advance_cons by token. cbn [res_bind].
  assert (Hend : (let? tok := peek (c :: rest) in if keyword tok "for" then errorAtTok tok MOneFor else
    let? (_, ts) := expect tokRBracket (c :: rest) in Ok (ListComp (tokOffset o) e (text x) (tokOffset x) it cond, ts)) =
    Ok (ListComp (tokOffset o) e (text x) (tokOffset x) it cond, rest)).
  { cbn [peek res_bind]. replace (keyword c "for") with false by (symmetry; token). by rewrite expect_yes. }
  destruct cond as [cn|]; cbn [acceptsFilter] in Hw.
  - destruct Hw as (t & w' & -> & Ht & Hr). cbn [app] in *. rewrite (or_reads d v it Hv) by (done || token). cbn [res_bind peek]. rewrite Ht.
    rewrite advance_cons by token. cbn [res_bind]. rewrite Hr; [|apply (stream_app [t]); [done|by destruct w']|token]. cbn [res_bind peek].
    replace (keyword c "if") with false by (symmetry; token). cbn [res_bind]. exact Hend.
  - subst w. cbn [app] in *. rewrite (or_reads d v it Hv) by (done || token). cbn [res_bind peek].
    replace (keyword c "if") with false by (symmetry; token). cbn [res_bind]. exact Hend.
Qed.

(** *** Names, literals and parentheses *)

Lemma dotted_reaches u ps : dotted u ps → ∀ off parts rest, stream (u ++ rest) → rest ≠ [] →
  nameLoop (S (length (u ++ rest))) off parts (u ++ rest) = nameLoop (S (length rest)) off (parts ++ ps) rest.
Proof.
  induction 1 as [|u ps k t Hd IH Hk Ht]; intros off parts rest Hs Hne; [by rewrite app_nil_r|].
  rewrite <-app_assoc in *. cbn [app] in *. rewrite IH by done. set (z := nameLoop (S (length rest)) _ _ _). cbn [nameLoop].
  rewrite accept_yes by done. cbn [res_bind]. rewrite expect_yes by done. cbn [res_bind]. subst z. rewrite <-app_assoc.
  apply nameLoop_fuel; [cbn [length]; lia|lia|]. apply (stream_app [k; t]); [|done]. by apply (stream_app u).
Qed.

Lemma accepts_name t u ps :
  kind t = tokIdent → literalName t = None → primaryKeyword (text t) = false → dotted u ps →
  accepts d PrimaryExpr (t :: u) (Name (tokOffset t) (text t :: ps)).
Proof.
  intros Hk Hl Hp Hd rest Hs Hne Hb. cbn [app] in *. assert (Hn : noDot rest) by (apply Hb; by exists t, u, ps).
  unfold parsePrimary. cbn [peek res_bind]. rewrite Hk. unfold parseIdentPrimary.
  rewrite advance_cons by congruence. cbn [res_bind]. unfold literalName in Hl.
  destruct (_ || _) in Hl |- *; [done|]. destruct (_ || _) in Hl |- *; [done|]. destruct (_ || _) in Hl |- *; [done|]. rewrite Hp.
  assert (Hs1 : stream (u ++ rest)) by (apply (stream_app [t]); [done|]; intros [_ ->]%app_eq_nil; done).
  rewrite (dotted_reaches u ps Hd) by done.
  destruct rest as [|k r]; [done|]. cbn [nameLoop]. by rewrite accept_no.
Qed.

Lemma accepts_token t n :
  match kind t with
  | tokInt => n = IntLit (tokOffset t) (tokI t)
  | tokFloat => n = FloatLit (tokOffset t) (tokF t)
  | tokString => n = StringLit (tokOffset t) (tokS t)
  | _ => False
  end → accepts d PrimaryExpr [t] n.
Proof.
  intros H rest Hs Hne _. cbn [app]. unfold parsePrimary. cbn [peek res_bind]. destruct (kind t) eqn:Hk; try done; subst n;
    by rewrite advance_cons by congruence.
Qed.

Lemma accepts_literal t n : kind t = tokIdent → literalName t = Some n → accepts d PrimaryExpr [t] n.
Proof.
  intros Hk Hl rest Hs Hne _. cbn [app]. unfold parsePrimary. cbn [peek res_bind]. rewrite Hk. unfold parseIdentPrimary.
  rewrite advance_cons by congruence. cbn [res_bind]. unfold literalName in Hl.
  destruct (_ || _) in Hl |- *; [by injection Hl as <-|]. destruct (_ || _) in Hl |- *; [by injection Hl as <-|].
  destruct (_ || _) in Hl |- *; [by injection Hl as <-|done].
Qed.

Lemma accepts_paren o u n c : kind o = tokLParen → accepts d ConditionalExpr u n → kind c = tokRParen → accepts d PrimaryExpr (o :: u ++ [c]) n.
Proof.
  intros Ho Hu Hc rest Hs Hne _. cbn [app] in *. rewrite <-app_assoc in *. cbn [app] in *. unfold parsePrimary. cbn [peek res_bind]. rewrite Ho.
  rewrite advance_cons by congruence. cbn [res_bind]. rewrite Hu; [|apply (stream_app [o]); [done|by destruct u]|token]. cbn [res_bind peek].
  replace (keyword c "for") with false by (symmetry; token). by rewrite expect_yes.
Qed.
End Primaries.

(** ** The theorem *)

Lemma derives_accepts d nt u n : derives d nt u n → accepts d nt u n.
Proof.
  intros H. induction H using derives_min with
    (P0 := λ d u ops operands offs, acceptsChain d u ops operands offs) (P1 := λ d u l, acceptsItems d u l ∧ beginsWith notStart u)
    (P2 := λ d v a b s, acceptsSlice d v a b s) (P3 := λ d u o, acceptsOptional d u o) (P4 := λ d w o, acceptsFilter d w o).
  - by apply accepts_or.
  - by apply accepts_conditional.
  - by apply logical_one, and_reads.
  - apply logical_more; [apply and_shrinks|token|done|done|by apply and_reads].
  - by apply logical_one.
  - apply logical_more; [apply not_shrinks|token|done|done|done].
  - apply accepts_compare; [by apply derives_begins in H|done].
  - by apply accepts_not_not.
  - by apply accepts_add.
  - by apply accepts_chain.
  - by apply binary_one, mul_reads.
  - apply binary_more; [apply mul_shrinks| | |done|done|by apply mul_reads]; destruct (kind t) eqn:E; try done; token.
  - by apply binary_one.
  - apply binary_more; [apply unary_shrinks| | |done|done|done]; destruct (kind t) eqn:E; try done; token.
  - apply accepts_power; [by apply derives_begins in H|done].
  - apply accepts_sign; auto.
  - apply accepts_sign; auto.
  - by apply accepts_postfix.
  - by apply accepts_pow.
  - by apply accepts_primary.
  - apply accepts_index; try done. by apply derives_begins in H1.
  - by apply accepts_slice.
  - by apply accepts_call_empty.
  - destruct IHderives0. by apply accepts_call.
  - by apply accepts_access.
  - apply accepts_token. by rewrite H.
  - apply accepts_token. by rewrite H.
  - apply accepts_token. by rewrite H.
  - by apply accepts_literal.
  - by apply accepts_name.
  - by apply accepts_paren.
  - intros rest Hs Hne _. cbn [app] in *. unfold parsePrimary. cbn [peek res_bind]. rewrite H. unfold parseListLiteral.
    rewrite advance_cons by congruence. cbn [res_bind]. by rewrite accept_yes.
  - destruct IHderives. intros rest Hs Hne _. cbn [app] in *. rewrite <-app_assoc in *. apply accepts_list; try done. left. eauto.
  - destruct IHderives. intros rest Hs Hne _. cbn [app] in *. rewrite <-app_assoc in *. apply accepts_list; try done. right. eauto 6.
  - apply accepts_comprehension; try done. by apply derives_begins in H0.
  - by apply accepts_chain_first.
  - by apply accepts_chain_more.
  - split; [by apply accepts_items_one|by apply derives_begins in H].
  - destruct IHderives0. split; [by apply accepts_items_cons|]. apply beginsWith_app. by apply derives_begins in H.
  - by apply accepts_slice_two.
  - by apply accepts_slice_three.
  - done.
  - split; [done|by apply derives_begins in H].
  - done.
  - exists t, u. split_and!; [done|done|by apply or_reads].
Qed.

(** The grammar gives a phrase one tree. *)
Lemma derives_unique d u n m e : derives d ConditionalExpr u n → derives d ConditionalExpr u m → stream (u ++ [e]) → kind e = tokEOF → n = m.
Proof.
  intros Hn Hm Hs He. apply derives_accepts in Hn, Hm. specialize (Hn [e] Hs ltac:(token)). specialize (Hm [e] Hs ltac:(token)). congruence.
Qed.

Section Parse.
Context {names : RuneNames}.

Lemma Parse_complete src ts e n :
  Z.of_nat (length src) ≤ maxSourceBytes → tokenize src = Ok (ts ++ [e]) → kind e = tokEOF → derives maxParseDepth ConditionalExpr ts n →
  Parse src = Ok n.
Proof.
  intros Hlen Ht He Hd. pose proof (tokenize_stream src _ Ht) as Hs. pose proof (derives_begins _ _ _ _ Hd) as Hb.
  pose proof (derives_accepts _ _ _ _ Hd [e] Hs ltac:(token)) as Hp. unfold Parse.
  replace (maxSourceBytes <? Z.of_nat (length src)) with false by lia. rewrite Ht. cbn [res_bind].
  destruct ts as [|t ts]; [done|]. cbn [app peek res_bind]. cbn [beginsWith begins] in Hb. unfold is_kind at 1.
  rewrite bool_decide_false by (eapply notStart_kind; [done|set_solver]). unfold parseExpr. rewrite lower_conditional. cbn [app] in Hp. rewrite Hp.
  cbn [res_bind peek]. unfold is_kind. by rewrite bool_decide_true.
Qed.

(** C7. The parser decides the grammar.  A source within the bound is accepted exactly
    when its tokens up to its end are a phrase of the grammar nested within the
    parser's depth, and then with the tree the grammar gives the phrase: precedence,
    associativity, chains of comparisons and comprehensions as the grammar has them,
    and every position the one of its token.  There is one such tree, it is well
    formed, and for any other source the answer is an error of the source, never a
    panic or an endless loop. *)
Theorem Parse_grammar src :
  (∀ n, Parse src = Ok n ↔ Z.of_nat (length src) ≤ maxSourceBytes ∧
     ∃ ts e, tokenize src = Ok (ts ++ [e]) ∧ kind e = tokEOF ∧ derives maxParseDepth ConditionalExpr ts n) ∧
  match Parse src with Ok n => wfNode false n | Err e => ∃ at_ msg, e = SAt at_ msg end.
Proof.
  pose proof (Parse_spec src) as H. split.
  - intros n. split; [intros E; rewrite E in H; by destruct H|]. intros (Hlen & ts & e & Ht & He & Hd). by eapply Parse_complete.
  - destruct (Parse src) as [n|[| |at_ msg]]; cbn in H; [by destruct H|naive_solver..].
Qed.
End Parse.
