(* ===== verification/ExprNames.v ===== *)
(** * The names an expression refers to

    src/internal/openjd/expr: the walk over a tree (ast.go [walk], [walkUntil],
    [pushChildren]) and what is collected with it (parser.go [Names],
    [CalledFunctions], [CallsAny]).

    The walk is a loop over a stack of frames.  It visits the nodes in the order of the
    recursive definition [visits]; the names it collects are the external ones; and an
    evaluation reads no others, so that a table with the collected names alone serves
    it. *)

From S2P Require Import Prelude StatusText GoText ExprType ExprFloat ExprValue ExprRange ExprCoerce ExprPath ExprShape ExprOps ExprEval ExprSound ExprRe ExprLex ExprParse ExprGrammar.
Open Scope Z_scope.

(** ** The walk *)

(** ast.go [walkCtx]; the scopes are the loop variables, innermost first. *)
Record walkCtx := mkWalkCtx {
  scope : list str;
  callee : bool;
}.

(** ast.go [binds] *)
Definition binds (vars : list str) (nm : str) : bool := bool_decide (nm ∈ vars).

Definition given (n : option Node) : list Node := match n with Some n => [n] | None => [] end.

(** ast.go [pushRev], [pushChildren]; the top of the stack is the head of the list. *)
Definition pushRev (stack : list (Node * walkCtx)) (ctx : walkCtx) (nodes : list Node) : list (Node * walkCtx) :=
  map (λ n, (n, ctx)) nodes ++ stack.

Definition pushChildren (stack : list (Node * walkCtx)) (f : Node * walkCtx) : list (Node * walkCtx) :=
  let vars := scope f.2 in
  let here := mkWalkCtx vars false in
  match f.1 with
  | Unary _ _ x => pushRev stack here [x]
  | Binary _ _ l r => pushRev stack here [l; r]
  | Logical _ _ l r => pushRev stack here [l; r]
  | Cond _ t i e => pushRev stack here [t; i; e]
  | Compare _ _ operands _ => pushRev stack here operands
  | ListLit _ elems => pushRev stack here elems
  | Index _ x i => pushRev stack here [x; i]
  | Slice _ x a b c => pushRev stack here ([x] ++ given a ++ given b ++ given c)
  | ListComp _ elem var _ iter cond =>
      let inner := mkWalkCtx (var :: vars) false in
      let stack := pushRev stack inner (given cond) in
      let stack := pushRev stack here [iter] in
      pushRev stack inner [elem]
  | Access _ x _ => pushRev stack here [x]
  | Call _ fn args =>
      let stack := pushRev stack here args in
      pushRev stack (mkWalkCtx vars true) [fn]
  | IntLit _ _ | FloatLit _ _ | StringLit _ _ | BoolLit _ _ | NullLit _ | Name _ _ => stack
  end.

Fixpoint nodeCount (n : Node) : nat :=
  let all := foldr (λ x k, nodeCount x + k)%nat 0%nat in
  let opt x := match x with Some y => nodeCount y | None => 0%nat end in
  S match n with
    | Unary _ _ x | Access _ x _ => nodeCount x
    | Binary _ _ l r | Logical _ _ l r | Index _ l r => nodeCount l + nodeCount r
    | Cond _ t i e => nodeCount t + (nodeCount i + nodeCount e)
    | Compare _ _ xs _ | ListLit _ xs => all xs
    | Slice _ x a b c => nodeCount x + (opt a + (opt b + opt c))
    | ListComp _ e _ _ iter cond => nodeCount e + (nodeCount iter + opt cond)
    | Call _ fn args => nodeCount fn + all args
    | _ => 0
    end.

(** ast.go [walkUntil] with a visitor that has a state; every node is visited once, so
    that their number is fuel enough. *)
Fixpoint walkLoop {St} (fuel : nat) (fn : St → Node → walkCtx → St * bool) (st : St) (stack : list (Node * walkCtx)) : St * bool :=
  match fuel, stack with
  | O, _ | _, [] => (st, false)
  | S f, cur :: rest =>
      let '(st, stop) := fn st cur.1 cur.2 in
      if stop then (st, true) else walkLoop f fn st (pushChildren rest cur)
  end.

Definition walkUntil {St} (root : Node) (fn : St → Node → walkCtx → St * bool) (st : St) : St * bool :=
  walkLoop (nodeCount root) fn st [(root, mkWalkCtx [] false)].

(** ** What is collected *)

(** Adding to a list without duplicates. *)
Definition addOnce (s : str) (out : list str) : list str := if bool_decide (s ∈ out) then out else out ++ [s].

(** [sort.Strings] *)
Definition strLe (a b : str) : bool := negb (strLess b a).
Definition sortStrings (l : list str) : list str := sort_by strLe l.

(** The parts of a name that are a symbol: all but the function's when it is called.
    The slice expression panics for a name without parts. *)
Definition symbolParts (parts : list str) (called : bool) : res EErr (list str) :=
  if called then match parts with [] => Err EIndexPanic | _ => Ok (removelast parts) end else Ok parts.

(** The visitor of parser.go [Names]; a panic ends the walk. *)
Definition visitName (st : res EErr (list str)) (n : Node) (ctx : walkCtx) : res EErr (list str) * bool :=
  match st, n with
  | Ok out, Name _ parts =>
      match symbolParts parts (callee ctx) with
      | Err e => (Err e, true)
      | Ok [] => (Ok out, false)
      | Ok (p :: ps) =>
          if binds (scope ctx) p then (Ok out, false)
          else (Ok (addOnce (join (of_string ".") (p :: ps)) out), false)
      end
  | _, _ => (st, false)
  end.

(** parser.go [Names] *)
Definition Names (root : Node) : res EErr (list str) :=
  let? out := (walkUntil root visitName (Ok [])).1 in
  Ok (sortStrings out).

(** The name a node calls, if it is in the position of a callee. *)
Definition calledName (n : Node) (ctx : walkCtx) : res EErr (option str) :=
  if negb (callee ctx) then Ok None
  else
    match n with
    | Name _ parts =>
        if (length parts =? 1)%nat && match parts with p :: _ => binds (scope ctx) p | [] => false end then Ok None
        else match last parts with Some nm => Ok (Some nm) | None => Err EIndexPanic end
    | Access _ _ attr => Ok (Some attr)
    | _ => Ok None
    end.

Definition visitCalled (st : res EErr (list str)) (n : Node) (ctx : walkCtx) : res EErr (list str) * bool :=
  match st with
  | Err _ => (st, false)
  | Ok out =>
      match calledName n ctx with
      | Err e => (Err e, true)
      | Ok None => (Ok out, false)
      | Ok (Some nm) => (Ok (if bool_decide (nm = []) then out else addOnce nm out), false)
      end
  end.

(** parser.go [CalledFunctions] *)
Definition CalledFunctions (root : Node) : res EErr (list str) :=
  let? out := (walkUntil root visitCalled (Ok [])).1 in
  Ok (sortStrings out).

Definition visitCalls (names : list str) (st : res EErr unit) (n : Node) (ctx : walkCtx) : res EErr unit * bool :=
  match st with
  | Err _ => (st, false)
  | Ok _ =>
      match calledName n ctx with
      | Err e => (Err e, true)
      | Ok None => (st, false)
      | Ok (Some nm) => (st, bool_decide (nm ∈ names))
      end
  end.

(** parser.go [CallsAny] *)
Definition CallsAny (names : list str) (root : Node) : res EErr bool :=
  if bool_decide (names = []) then Ok false
  else
    let '(st, found) := walkUntil root (visitCalls names) (Ok tt) in
    let? _ := st in
    Ok found.

(** ** The order of the walk *)

Section NodeInduction.
Context (P : Node → Prop).

(** Every subtree of a list, and of an optional part. *)
Definition allOf (l : list Node) : Prop := Forall P l.
Definition optOf (n : option Node) : Prop := match n with Some n => P n | None => True end.

Context
  (Hint : ∀ o i, P (IntLit o i)) (Hfloat : ∀ o f, P (FloatLit o f)) (Hstring : ∀ o s, P (StringLit o s))
  (Hbool : ∀ o b, P (BoolLit o b)) (Hnull : ∀ o, P (NullLit o)) (Hname : ∀ o ps, P (Name o ps))
  (Hunary : ∀ o op x, P x → P (Unary o op x)) (Hbinary : ∀ o op l r, P l → P r → P (Binary o op l r))
  (Hcompare : ∀ o ops xs offs, allOf xs → P (Compare o ops xs offs)) (Hlogical : ∀ o op l r, P l → P r → P (Logical o op l r))
  (Hcond : ∀ o t i e, P t → P i → P e → P (Cond o t i e)) (Hlist : ∀ o xs, allOf xs → P (ListLit o xs))
  (Hindex : ∀ o x i, P x → P i → P (Index o x i))
  (Hslice : ∀ o x a b c, P x → optOf a → optOf b → optOf c → P (Slice o x a b c))
  (Hcomp : ∀ o e v vo it c, P e → P it → optOf c → P (ListComp o e v vo it c))
  (Haccess : ∀ o x a, P x → P (Access o x a)) (Hcall : ∀ o fn args, P fn → allOf args → P (Call o fn args)).

Lemma Node_induct n : P n.
Proof.
  revert n. fix IH 1. intros n.
  assert (Hall : ∀ l, allOf l) by (fix IHl 1; intros [|x l]; constructor; [apply IH|apply IHl]).
  assert (Hopt : ∀ m, optOf m) by (intros [m|]; cbn; [apply IH|exact I]).
  destruct n.
  - apply Hint.
  - apply Hfloat.
  - apply Hstring.
  - apply Hbool.
  - apply Hnull.
  - apply Hname.
  - apply Hunary, IH.
  - apply Hbinary; apply IH.
  - apply Hcompare, Hall.
  - apply Hlogical; apply IH.
  - apply Hcond; apply IH.
  - apply Hlist, Hall.
  - apply Hindex; apply IH.
  - apply Hslice; [apply IH|apply Hopt..].
  - apply Hcomp; [apply IH..|apply Hopt].
  - apply Haccess, IH.
  - apply Hcall; [apply IH|apply Hall].
Qed.
End NodeInduction.

(** The nodes of a tree with their contexts, a parent before its children and these
    from left to right. *)
Fixpoint visits (vars : list str) (called : bool) (n : Node) : list (Node * walkCtx) :=
  let here := visits vars false in
  let opt v x := match x with Some y => visits v false y | None => [] end in
  (n, mkWalkCtx vars called) ::
  match n with
  | Unary _ _ x | Access _ x _ => here x
  | Binary _ _ l r | Logical _ _ l r | Index _ l r => here l ++ here r
  | Cond _ t i e => here t ++ here i ++ here e
  | Compare _ _ xs _ | ListLit _ xs => concat (map here xs)
  | Slice _ x a b c => here x ++ opt vars a ++ opt vars b ++ opt vars c
  | ListComp _ e var _ iter cond => visits (var :: vars) false e ++ here iter ++ opt (var :: vars) cond
  | Call _ fn args => visits vars true fn ++ concat (map here args)
  | _ => []
  end.

Definition visitsOf (f : Node * walkCtx) : list (Node * walkCtx) := visits (scope f.2) (callee f.2) f.1.

Lemma pushRev_visits stack ctx nodes :
  concat (map visitsOf (pushRev stack ctx nodes)) = concat (map (visits (scope ctx) (callee ctx)) nodes) ++ concat (map visitsOf stack).
Proof. unfold pushRev. rewrite map_app, concat_app, map_map. done. Qed.

Lemma given_visits vars n : concat (map (visits vars false) (given n)) = match n with Some n => visits vars false n | None => [] end.
Proof. destruct n; cbn [given map concat]; [apply app_nil_r|done]. Qed.

Lemma pushChildren_visits stack f : visitsOf f ++ concat (map visitsOf stack) = f :: concat (map visitsOf (pushChildren stack f)).
Proof.
  destruct f as [n [vars called]]. unfold pushChildren, visitsOf at 1. cbn [fst snd scope callee].
  destruct n; cbn [visits app]; f_equal; rewrite ?pushRev_visits; cbn [scope callee map concat]; rewrite ?map_app, ?concat_app, ?given_visits;
    cbn [map concat]; rewrite ?app_nil_r, <-?app_assoc; done.
Qed.

Lemma visits_count vars called n : length (visits vars called n) = nodeCount n.
Proof.
  revert vars called. induction n using Node_induct; intros vars called; cbn [visits nodeCount length]; f_equal; rewrite ?length_app; try done;
    repeat match goal with
      | H : ∀ (vars : list str) called, length (visits vars called _) = _ |- _ => rewrite H; clear H
      | H : optOf _ ?a |- _ => destruct a; cbn [optOf] in H
      end; try done.
  - induction H as [|x l Hx _ IH]; cbn; [done|]. by rewrite length_app, Hx, IH.
  - induction H as [|x l Hx _ IH]; cbn; [done|]. by rewrite length_app, Hx, IH.
  - f_equal. induction H as [|x l Hx _ IH]; cbn; [done|]. by rewrite length_app, Hx, IH.
Qed.

(** A visitor on a list of nodes. *)
Fixpoint feed {St} (fn : St → Node → walkCtx → St * bool) (st : St) (l : list (Node * walkCtx)) : St * bool :=
  match l with
  | [] => (st, false)
  | f :: l' => let '(st, stop) := fn st f.1 f.2 in if stop then (st, true) else feed fn st l'
  end.

Lemma walkLoop_feed {St} fuel (fn : St → Node → walkCtx → St * bool) st stack :
  (length (concat (map visitsOf stack)) ≤ fuel)%nat → walkLoop fuel fn st stack = feed fn st (concat (map visitsOf stack)).
Proof.
  revert st stack. induction fuel as [|f IH]; intros st stack Hf.
  - destruct stack as [|[n ctx] stack]; [done|]. cbn [map concat] in Hf. rewrite length_app in Hf. unfold visitsOf in Hf at 1.
    rewrite visits_count in Hf. destruct n; cbn in Hf; lia.
  - destruct stack as [|cur stack]; [done|]. cbn [map concat walkLoop] in *. rewrite pushChildren_visits in *. cbn [feed].
    destruct (fn st cur.1 cur.2) as [st' []]; [done|]. apply IH. cbn in Hf. lia.
Qed.

Lemma walkUntil_feed {St} root (fn : St → Node → walkCtx → St * bool) st : walkUntil root fn st = feed fn st (visits [] false root).
Proof.
  unfold walkUntil. rewrite walkLoop_feed; cbn [map concat]; rewrite app_nil_r; [done|]. unfold visitsOf. cbn. by rewrite visits_count.
Qed.

(** ** What is collected *)

Lemma visits_all (Q : Node → Prop) vars xs :
  allOf (λ n, ∀ vars called, Q n → Forall (λ f, Q f.1) (visits vars called n)) xs → Forall Q xs →
  Forall (λ f, Q f.1) (concat (map (visits vars false) xs)).
Proof. induction 1 as [|y l Hy _ IH]; intros H; cbn [map concat]; [constructor|]. inversion_clear H. apply Forall_app. auto. Qed.

Lemma visits_wf vars called n : wfNode false n → Forall (λ f, wfNode false f.1) (visits vars called n).
Proof.
  revert vars called. induction n using Node_induct; intros vars called Hw; cbn [visits];
    (constructor; [exact Hw|]); cbn [wfNode] in Hw; try apply Forall_nil_2;
    repeat match goal with
      | H : optOf _ ?a |- _ => destruct a; cbn [optOf] in H
      | H : _ ∧ _ |- _ => destruct H
      | |- Forall _ (_ ++ _) => apply Forall_app; split
      end; try apply Forall_nil_2; auto; by apply visits_all; [|apply wfNodes].
Qed.

(** Collecting what a function gives for each node. *)
Definition collect (g : Node * walkCtx → option str) (out : list str) (l : list (Node * walkCtx)) : list str :=
  foldl (λ out f, match g f with Some s => addOnce s out | None => out end) out l.

Lemma addOnce_elem s out x : x ∈ addOnce s out ↔ x ∈ out ∨ x = s.
Proof. unfold addOnce. case_bool_decide; set_solver. Qed.

Lemma collect_elem g out l x : x ∈ collect g out l ↔ x ∈ out ∨ ∃ f, f ∈ l ∧ g f = Some x.
Proof.
  unfold collect. revert out. induction l as [|f l IH]; intros out; cbn [foldl]; [set_solver|]. rewrite IH. destruct (g f) as [s|] eqn:E.
  - rewrite addOnce_elem. set_solver.
  - set_solver.
Qed.

Lemma collect_NoDup g out l : NoDup out → NoDup (collect g out l).
Proof.
  unfold collect. revert out. induction l as [|f l IH]; intros out Hn; cbn [foldl]; [done|]. apply IH. destruct (g f) as [s|]; [|done].
  unfold addOnce. case_bool_decide; [done|]. apply NoDup_app. split_and!; [done|set_solver|apply NoDup_singleton].
Qed.

(** The symbol a visited node refers to. *)
Definition symbolOf (f : Node * walkCtx) : option str :=
  match f.1 with
  | Name _ parts =>
      match (if callee f.2 then removelast parts else parts) with
      | [] => None
      | p :: ps => if binds (scope f.2) p then None else Some (join (of_string ".") (p :: ps))
      end
  | _ => None
  end.

Lemma feed_names out l : Forall (λ f, wfNode false f.1) l → feed visitName (Ok out) l = (Ok (collect symbolOf out l), false).
Proof.
  intros H. unfold collect. revert out. induction H as [|[n ctx] l Hn _ IH]; intros out; [done|]. cbn [feed foldl fst snd].
  assert (Hv : visitName (Ok out) n ctx = (Ok (match symbolOf (n, ctx) with Some s => addOnce s out | None => out end), false)).
  { unfold visitName, symbolOf. destruct n; try done. cbn [fst snd wfNode] in *. unfold symbolParts. destruct (callee ctx).
    - destruct Parts as [|p ps]; [done|]. destruct (removelast (p :: ps)) as [|q qs]; [done|]. by destruct (binds _ q).
    - destruct Parts as [|p ps]; [done|]. by destruct (binds _ p). }
  rewrite Hv. apply IH.
Qed.

(** Sorted, without duplicates. *)
Lemma sortStrings_spec l : NoDup l → StronglySorted (λ a b, strLess a b = true) (sortStrings l) ∧ ∀ x, x ∈ sortStrings l ↔ x ∈ l.
Proof.
  intros Hn. unfold sortStrings. pose proof (sort_by_perm strLe l) as Hp. split; [|intros x; by rewrite Hp].
  assert (Hs : StronglySorted (λ x y, strLe x y = true) (sort_by strLe l)).
  { apply sort_by_sorted.
    - intros a b. unfold strLe. destruct (strLess b a) eqn:E1; [|by left]. right. destruct (strLess a b) eqn:E2; [|done].
      pose proof (strLess_trans _ _ _ E1 E2) as E. by rewrite strLess_irrefl in E.
    - intros a b c. unfold strLe. rewrite !negb_true_iff. intros H1 H2. destruct (strLess c a) eqn:E; [|done].
      destruct (strLess a b) eqn:E3; [by rewrite (strLess_trans _ _ _ E E3) in H2|].
      pose proof (strLess_total _ _ E3 H1) as ->. congruence. }
  rewrite <-Hp in Hn. clear Hp. revert Hn. induction Hs as [|x k Hs IH Hf]; intros Hn; [constructor|].
  apply NoDup_cons in Hn as [Hx Hn]. constructor; [by apply IH|]. rewrite Forall_forall in Hf |- *. intros y Hy. specialize (Hf y Hy). unfold strLe in Hf. apply negb_true_iff in Hf.
  destruct (strLess x y) eqn:E; [done|]. pose proof (strLess_total _ _ E Hf) as ->. done.
Qed.

(** The external symbols of a tree: its names, without the function where one is
    called, that no loop variable around them binds. *)
Fixpoint external (vars : list str) (called : bool) (n : Node) (x : str) : Prop :=
  let some := foldr (λ y P, external vars false y x ∨ P) False in
  let opt v m := match m with Some y => external v false y x | None => False end in
  match n with
  | Name _ parts =>
      ∃ p ps, (if called then removelast parts else parts) = p :: ps ∧ (p ∉ vars) ∧ x = join (of_string ".") (p :: ps)
  | Unary _ _ y | Access _ y _ => external vars false y x
  | Binary _ _ l r | Logical _ _ l r | Index _ l r => external vars false l x ∨ external vars false r x
  | Cond _ t i e => external vars false t x ∨ external vars false i x ∨ external vars false e x
  | Compare _ _ xs _ | ListLit _ xs => some xs
  | Slice _ y a b c => external vars false y x ∨ opt vars a ∨ opt vars b ∨ opt vars c
  | ListComp _ e var _ iter cond => external (var :: vars) false e x ∨ external vars false iter x ∨ opt (var :: vars) cond
  | Call _ fn args => external vars true fn x ∨ some args
  | _ => False
  end.

Lemma some_external vars xs x :
  allOf (λ n, ∀ vars called, external vars called n x ↔ ∃ f, f ∈ visits vars called n ∧ symbolOf f = Some x) xs →
  foldr (λ y P, external vars false y x ∨ P) False xs ↔ ∃ f, f ∈ concat (map (visits vars false) xs) ∧ symbolOf f = Some x.
Proof. induction 1 as [|y l Hy _ IH]; cbn [foldr map concat]; [set_solver|]. rewrite IH, Hy. setoid_rewrite elem_of_app. naive_solver. Qed.

Lemma external_visits vars called n x : external vars called n x ↔ ∃ f, f ∈ visits vars called n ∧ symbolOf f = Some x.
Proof.
  revert vars called. induction n using Node_induct; intros vars called; cbn [external visits];
    repeat match goal with H : allOf _ ?xs |- _ => rewrite (some_external vars xs x H); clear H | H : optOf _ ?a |- _ => destruct a; cbn [optOf] in H end;
    repeat match goal with H : ∀ vars called, external vars called ?n x ↔ _ |- context [external _ _ ?n x] => rewrite H end;
    setoid_rewrite elem_of_cons; repeat setoid_rewrite elem_of_app; try (unfold symbolOf at 1; set_solver); try naive_solver.
  split.
  - intros (p & q & Hp & Hn & ->). eexists. split; [by left|]. unfold symbolOf. cbn [fst snd callee scope]. rewrite Hp.
    unfold binds. by rewrite bool_decide_false.
  - intros (f & [->|Hf] & Hs); [|set_solver]. unfold symbolOf in Hs. cbn [fst snd callee scope] in Hs.
    destruct (if called then _ else _) as [|p q]; [done|]. unfold binds in Hs. case_bool_decide; [done|]. injection Hs as <-. eauto.
Qed.

Lemma Names_spec root : wfNode false root →
  ∃ l, Names root = Ok l ∧ StronglySorted (λ a b, strLess a b = true) l ∧ ∀ x, x ∈ l ↔ external [] false root x.
Proof.
  intros Hw. unfold Names. rewrite walkUntil_feed, feed_names by (by apply visits_wf). cbn [fst res_bind]. eexists. split; [done|].
  destruct (sortStrings_spec (collect symbolOf [] (visits [] false root))) as [Hs He]; [apply collect_NoDup; constructor|].
  split; [done|]. intros x. rewrite He, collect_elem, external_visits. set_solver.
Qed.

(** [Names] collects the external symbols: of a parsed source it answers, in order and
    without duplicates, exactly the dotted names that occur in the expression, without
    the function where one is called, and outside the comprehensions that bind their
    first part. *)
Theorem Names_external {names : RuneNames} src root :
  Parse src = Ok root →
  ∃ l, Names root = Ok l ∧ StronglySorted (λ a b, strLess a b = true) l ∧ ∀ x, x ∈ l ↔ external [] false root x.
Proof. intros H. pose proof (Parse_spec src) as Hp. rewrite H in Hp. destruct Hp as [Hw _]. by apply Names_spec. Qed.

(** A table of names for sources without named characters. *)
Definition noNames : RuneNames := mkRuneNames (λ _, []) (λ s, s).

Definition namesSource : str := of_string "[x.stem for x in Param.Files if len(x.name) > 2] + [x] + Param.Name.upper()".

Lemma Names_external_witness :
  ∃ root l, @Parse noNames namesSource = Ok root ∧ Names root = Ok l ∧ l = map of_string ["Param.Files"; "Param.Name"; "x"]%string.
Proof.
  destruct (@Parse noNames namesSource) as [root|e] eqn:E; [|vm_compute in E; discriminate E].
  destruct (@Names_external noNames namesSource root E) as (l & Hl & _). exists root, l. split; [done|]. split; [done|].
  vm_compute in E. injection E as <-. vm_compute in Hl. by injection Hl as <-.
Defined.

(** ** Called functions *)

Definition calledOf (f : Node * walkCtx) : option str := match calledName f.1 f.2 with Ok (Some nm) => Some nm | _ => None end.

Lemma calledName_ok f : wfNode false f.1 → calledName f.1 f.2 = Ok (calledOf f).
Proof.
  intros Hw. unfold calledOf. destruct (calledName f.1 f.2) as [[nm|]|e] eqn:E; [done|done|]. unfold calledName in E.
  destruct (negb _); [done|]. destruct f.1; try done. destruct (_ && _); [done|].
  destruct (last Parts) eqn:El; [done|]. apply last_None in El. by subst.
Qed.

Lemma feed_called out l : Forall (λ f, wfNode false f.1) l →
  feed visitCalled (Ok out) l = (Ok (collect (λ f, match calledOf f with Some [] => None | r => r end) out l), false).
Proof.
  intros H. unfold collect. revert out. induction H as [|f l Hf _ IH]; intros out; [done|]. cbn [feed foldl]. unfold visitCalled at 1.
  rewrite calledName_ok by done. destruct (calledOf f) as [[|c s]|]; cbn match; apply IH.
Qed.

Lemma feed_calls names l : Forall (λ f, wfNode false f.1) l →
  feed (visitCalls names) (Ok tt) l = (Ok tt, existsb (λ f, match calledOf f with Some nm => bool_decide (nm ∈ names) | None => false end) l).
Proof.
  induction 1 as [|f l Hf _ IH]; [done|]. cbn [feed existsb]. unfold visitCalls at 1. rewrite calledName_ok by done.
  destruct (calledOf f) as [nm|]; [|exact IH]. by case_bool_decide.
Qed.

(** [CallsAny] is the membership question of [CalledFunctions]: it says whether one of
    the names is among the called functions, which are listed in order and without
    duplicates. *)
Theorem CallsAny_CalledFunctions root names :
  wfNode false root → [] ∉ names →
  ∃ l, CalledFunctions root = Ok l ∧ StronglySorted (λ a b, strLess a b = true) l ∧
    CallsAny names root = Ok (existsb (λ f, bool_decide (f ∈ names)) l).
Proof.
  intros Hw Hne. pose proof (visits_wf [] false root Hw) as Hv. unfold CalledFunctions, CallsAny.
  rewrite !walkUntil_feed, feed_called, feed_calls by done. cbn [fst res_bind]. eexists. split; [done|].
  set (g := λ f, match calledOf f with Some [] => None | r => r end).
  destruct (sortStrings_spec (collect g [] (visits [] false root))) as [Hs He]; [apply collect_NoDup; constructor|]. split; [done|].
  case_bool_decide as En; [subst names|].
  - f_equal. symmetry. apply not_true_iff_false. rewrite existsb_exists. intros (f & _ & Hf). apply bool_decide_eq_true in Hf. by apply not_elem_of_nil in Hf.
  - f_equal. apply eq_true_iff_eq. rewrite !existsb_exists. setoid_rewrite <-list_elem_of_In. split.
    + intros (f & Hf & Hc). destruct (calledOf f) as [nm|] eqn:Ec; [|done]. exists nm. split; [|done]. apply He, collect_elem. right. exists f.
      split; [done|]. unfold g. rewrite Ec. destruct nm; [|done]. apply bool_decide_eq_true in Hc. done.
    + intros (nm & Hnm & Hc). apply He, collect_elem in Hnm as [Hnm|(f & Hf & Hg)]; [by apply not_elem_of_nil in Hnm|]. exists f. split; [done|].
      unfold g in Hg. destruct (calledOf f) as [[|c s]|]; [done| |done]. by injection Hg as <-.
Qed.

Lemma CallsAny_CalledFunctions_witness :
  ∃ root l, @Parse noNames namesSource = Ok root ∧ CalledFunctions root = Ok l ∧ l = map of_string ["len"; "upper"]%string ∧
    CallsAny [of_string "apply_path_mapping"] root = Ok false.
Proof.
  destruct (@Parse noNames namesSource) as [root|e] eqn:E; [|vm_compute in E; discriminate E].
  pose proof (@Parse_spec noNames namesSource) as Hp. rewrite E in Hp. destruct Hp as [Hw _].
  destruct (CallsAny_CalledFunctions root [of_string "apply_path_mapping"] Hw ltac:(intros H%list_elem_of_singleton; discriminate H)) as (l & Hl & _ & Hc).
  exists root, l. split; [done|]. split; [done|]. rewrite Hc. vm_compute in E. injection E as <-. vm_compute in Hl. injection Hl as <-.
  split; reflexivity.
Defined.
