(* ===== verification/ExprNeeds.v ===== *)
(** * What an evaluation reads of its symbols

    An evaluation (ExprEval.v) looks up the prefixes of the names of its expression and
    the loop variables, and nothing else.  With the names that [Names] collects
    (ExprNames.v) this is what a caller relies on who provides these names alone. *)

From S2P Require Import Prelude StatusText GoText ExprType ExprFloat ExprValue ExprRange ExprCoerce ExprPath ExprShape ExprOps ExprEval ExprSound ExprRe ExprLex ExprParse ExprGrammar ExprNames.
Open Scope Z_scope.

(** ** Equal computations *)

(** Two computations that do the same on every meter. *)
Definition same {A} (c d : M A) : Prop := ∀ m, c m = d m.

#[export] Instance same_equivalence {A} : Equivalence (@same A).
Proof. split; [by intros c m|by intros c d H m|intros c d e H1 H2 m; by rewrite H1]. Qed.

#[export] Instance bind_proper {A B} : Proper (same ==> pointwise_relation A same ==> same) (@bind A B).
Proof. intros c d H k j Hk m. unfold bind. rewrite H. destruct (d m) as [m' [a|e]]; [apply Hk|done]. Qed.

#[export] Instance wrapAt_proper {A} pos : Proper (same ==> same) (@wrapAt A pos).
Proof. intros c d H m. unfold wrapAt. by rewrite H. Qed.

#[export] Instance attempt_proper {A} : Proper (same ==> same) (@attempt A).
Proof. intros c d H m. unfold attempt. by rewrite H. Qed.

Lemma same_bind {A B} (c d : M A) (k j : A → M B) : same c d → (∀ a, same (k a) (j a)) → same (bind c k) (bind d j).
Proof. intros H Hk. by apply bind_proper. Qed.

(** ** Lookups *)

(** The dotted prefixes of a name. *)
Definition prefixes (parts : list str) : list str := map (λ i, join (of_string ".") (take i parts)) (seq 1 (length parts)).

(** The symbols an evaluation of the tree may look up. *)
Fixpoint lookups (n : Node) : list str :=
  let all l := concat (map lookups l) in
  let opt x := match x with Some y => lookups y | None => [] end in
  match n with
  | Name _ parts => prefixes parts
  | Unary _ _ x | Access _ x _ => lookups x
  | Binary _ _ l r | Logical _ _ l r | Index _ l r => lookups l ++ lookups r
  | Cond _ t i e => lookups t ++ lookups i ++ lookups e
  | Compare _ _ xs _ | ListLit _ xs => all xs
  | Slice _ x a b c => lookups x ++ opt a ++ opt b ++ opt c
  | ListComp _ e var _ iter cond => var :: lookups e ++ lookups iter ++ opt cond
  | Call _ fn args => lookups fn ++ all args
  | _ => []
  end.

Definition agree (l : list str) (s1 s2 : Symbols) : Prop := ∀ x, x ∈ l → s1 x = s2 x.

Lemma agree_app l k s1 s2 : agree (l ++ k) s1 s2 ↔ agree l s1 s2 ∧ agree k s1 s2.
Proof. unfold agree. setoid_rewrite elem_of_app. naive_solver. Qed.

Lemma agree_scoped l s1 s2 x v : agree l s1 s2 → agree l (scopedSymbols s1 x v) (scopedSymbols s2 x v).
Proof. intros H y Hy. unfold scopedSymbols. case_bool_decide; [done|]. by apply H. Qed.

Lemma resolveName_agree s1 s2 parts : agree (prefixes parts) s1 s2 → resolveName s1 parts = resolveName s2 parts.
Proof.
  intros H. unfold resolveName. assert (Hi : ∀ i, (i ≤ length parts)%nat → resolvePrefix s1 parts i = resolvePrefix s2 parts i).
  { induction i as [|i IH]; intros Hi; [done|]. cbn [resolvePrefix]. rewrite (H (join (of_string ".") (take (S i) parts))).
    - destruct (s2 _); [done|]. apply IH. lia.
    - apply list_elem_of_In, (in_map (λ i, join (of_string ".") (take i parts))), in_seq. lia. }
  by apply Hi.
Qed.

Section Agree.
Context {arch : Platform} {tables : CaseTables} {funcs : FunctionTable} (ec : Ctx).
Context (rec rec1 : Node → Symbols → Ty → M Value).
Context (Hrec : ∀ n s1 s2 t, agree (lookups n) s1 s2 → same (rec n s1 t) (rec n s2 t)).
Context (Hrec1 : ∀ n s1 s2 t, agree (lookups n) s1 s2 → same (rec1 n s1 t) (rec1 n s2 t)).
Context (s1 s2 : Symbols).

(** A sequence of steps: each the same, the children by what they look up. *)
Ltac steps :=
  repeat first
    [ reflexivity
    | apply Hrec; assumption | apply Hrec1; assumption
    | apply same_bind; [|intros]
    | apply attempt_proper | apply wrapAt_proper
    | match goal with |- same (match ?x with _ => _ end) _ => destruct x end ].

Lemma evalElems_same l t : agree (concat (map lookups l)) s1 s2 → same (evalElems rec l s1 t) (evalElems rec l s2 t).
Proof.
  induction l as [|n l IH]; intros H; [done|]. cbn [map concat] in H. apply agree_app in H as [H1 H2]. cbn [evalElems]. specialize (IH H2). steps. exact IH.
Qed.

Lemma evalArgs_same l : agree (concat (map lookups l)) s1 s2 → same (evalArgs rec1 l s1) (evalArgs rec1 l s2).
Proof.
  induction l as [|n l IH]; intros H; [done|]. cbn [map concat] in H. apply agree_app in H as [H1 H2]. cbn [evalArgs]. specialize (IH H2). steps. exact IH.
Qed.

Lemma compareLoop_same offs i v ops l : agree (concat (map lookups l)) s1 s2 →
  same (ExprEval.compareLoop ec rec s1 offs i v ops l) (ExprEval.compareLoop ec rec s2 offs i v ops l).
Proof.
  revert i v l. induction ops as [|op ops IH]; intros i v l H; [done|]. cbn [ExprEval.compareLoop]. destruct l as [|n l]; [done|].
  cbn [map concat] in H. apply agree_app in H as [H1 H2]. steps; by apply IH.
Qed.

Lemma sliceComponent_same n : agree match n with Some x => lookups x | None => [] end s1 s2 → same (sliceComponent rec n s1) (sliceComponent rec n s2).
Proof. intros H. destruct n as [n|]; [|done]. unfold sliceComponent. steps. Qed.

Lemma nameTarget_same o parts : agree (prefixes parts) s1 s2 → same (nameTarget ec o parts s1) (nameTarget ec o parts s2).
Proof. intros H. unfold nameTarget. by rewrite (resolveName_agree s1 s2). Qed.

Lemma callTarget_same o fn : agree (lookups fn) s1 s2 → same (callTarget ec rec1 o fn s1) (callTarget ec rec1 o fn s2).
Proof. intros H. unfold callTarget. destruct fn; try done; [by apply nameTarget_same|]. cbn [lookups] in H. steps. Qed.

(** The parts of a comprehension, with the loop variable bound. *)
Ltac scoped := apply Hrec1, agree_scoped; assumption.

Lemma unresolvedComp_same e var cond t u :
  agree (lookups e) s1 s2 → agree match cond with Some c => lookups c | None => [] end s1 s2 →
  same (unresolvedComp rec1 e var cond s1 t u) (unresolvedComp rec1 e var cond s2 t u).
Proof.
  intros He Hc. unfold unresolvedComp. apply same_bind.
  - destruct cond as [c|]; [|done]. unfold checkCompFilter. apply same_bind; [scoped|]. intros v. steps.
  - intros _. apply same_bind; [scoped|]. intros v. steps.
Qed.

Lemma collectCompElements_same e var cond t items :
  agree (lookups e) s1 s2 → agree match cond with Some c => lookups c | None => [] end s1 s2 →
  same (collectCompElements rec1 e var cond s1 t items) (collectCompElements rec1 e var cond s2 t items).
Proof.
  intros He Hc. induction items as [|v items IH]; [done|]. cbn [collectCompElements]. apply same_bind.
  - destruct cond as [c|]; [|done]. unfold evalCompFilter. apply same_bind; [scoped|]. intros w. steps.
  - intros [[]|]; [|exact IH|done]. apply same_bind; [scoped|]. intros w. destruct (IsUnresolved w); [steps|]. apply same_bind; [exact IH|]. intros []. steps.
Qed.

Lemma evalListComp_same o e var vo iter cond t : agree (lookups (ListComp o e var vo iter cond)) s1 s2 →
  same (evalListComp rec1 o e var vo iter cond s1 t) (evalListComp rec1 o e var vo iter cond s2 t).
Proof.
  intros H. cbn [lookups] in H.
  assert (Hvar : s1 var = s2 var) by (apply H; by left).
  assert (Hrest : agree (lookups e ++ lookups iter ++ match cond with Some y => lookups y | None => [] end) s1 s2).
  { intros x Hx. apply H. by right. }
  apply agree_app in Hrest as [He Hrest]. apply agree_app in Hrest as [Hi Hc].
  unfold evalListComp. apply same_bind; [by apply Hrec1|]. intros it. destruct (iterableElem (typeOf it)) as [u|]; [|done].
  rewrite Hvar. destruct (s2 var); [done|]. destruct (IsUnresolved it).
  - apply same_bind; [by apply unresolvedComp_same|]. intros v. steps.
  - steps; [by apply collectCompElements_same|scoped..].
Qed.

Lemma evalDispatch_same n t : agree (lookups n) s1 s2 → same (evalDispatch ec rec rec1 n s1 t) (evalDispatch ec rec rec1 n s2 t).
Proof.
  intros H. destruct n; cbn [evalDispatch]; try done; cbn [lookups] in H;
    repeat match goal with H : agree (_ ++ _) _ _ |- _ => apply agree_app in H as [? ?] end.
  - unfold evalName. by rewrite (resolveName_agree s1 s2).
  - unfold evalUnary. steps.
  - unfold evalBinary. steps.
  - unfold evalCompare. destruct Operands as [|x xs]; [done|]. cbn [map concat] in H. apply agree_app in H as [? ?]. steps. by apply compareLoop_same.
  - unfold evalLogical. steps.
  - unfold evalCond, condResult. steps. apply Hrec. by case_match.
  - unfold evalListLit. apply same_bind; [by apply evalElems_same|]. intros vs. steps.
  - unfold evalIndex. steps.
  - unfold evalSlice. steps; by apply sliceComponent_same.
  - by apply evalListComp_same.
  - unfold evalAccess. steps.
  - unfold evalCall. steps; [by apply callTarget_same|by apply evalArgs_same].
Qed.
End Agree.

Section Needs.
Context {arch : Platform} {tables : CaseTables} {funcs : FunctionTable}.

Lemma evalNode_same ec fuel n s1 s2 t : agree (lookups n) s1 s2 → same (evalNode ec fuel n s1 t) (evalNode ec fuel n s2 t).
Proof.
  revert n s1 s2 t. induction fuel as [fuel IH] using lt_wf_ind. intros n s1 s2 t H. destruct fuel as [|f]; [done|]. cbn [evalNode].
  apply same_bind; [|done]. apply evalDispatch_same; [| |done]; intros; apply IH; [lia|done|lia|done].
Qed.

Lemma Eval_same now root s1 s2 t opts : agree (lookups root) s1 s2 → Expression_Eval now root s1 t opts = Expression_Eval now root s2 t opts.
Proof.
  intros H. unfold Expression_Eval. destruct (limitErr _); [done|]. apply same_bind; [by apply evalNode_same|]. done.
Qed.

(** ** The collected names suffice *)

(** What one node looks up. *)
Definition nodeLookups (n : Node) : list str :=
  match n with Name _ parts => prefixes parts | ListComp _ _ var _ _ _ => [var] | _ => [] end.

(** A disjunct that holds. *)
Ltac pick H := solve [exact H | left; pick H | right; pick H].

Lemma all_lookups vars x l :
  allOf (λ n, ∀ vars called, x ∈ lookups n → ∃ f, f ∈ visits vars called n ∧ x ∈ nodeLookups f.1) l →
  x ∈ concat (map lookups l) → ∃ f, f ∈ concat (map (visits vars false) l) ∧ x ∈ nodeLookups f.1.
Proof.
  induction 1 as [|y l Hy _ IH]; cbn [map concat]; [by intros ?%not_elem_of_nil|]. rewrite elem_of_app.
  intros [Hx|Hx]; [destruct (Hy vars false Hx) as (f & ? & ?)|destruct (IH Hx) as (f & ? & ?)]; exists f; rewrite elem_of_app; auto.
Qed.

Lemma lookups_visits vars called n x : x ∈ lookups n → ∃ f, f ∈ visits vars called n ∧ x ∈ nodeLookups f.1.
Proof.
  revert vars called. induction n using Node_induct; intros vars called Hx; cbn [lookups visits] in *;
    try by apply not_elem_of_nil in Hx.
  all: repeat match goal with H : optOf _ ?a |- _ => destruct a; cbn [optOf] in H end.
  all: setoid_rewrite elem_of_cons; repeat setoid_rewrite elem_of_app; rewrite ?elem_of_cons, ?elem_of_app in Hx.
  all: repeat match goal with H : allOf _ ?l |- _ => pose proof (all_lookups vars x l H); clear H end.
  1: (eexists; split; [by left|done]).
  all: repeat match goal with H : _ ∨ _ |- _ => destruct H as [Hx|Hx] end; try by apply not_elem_of_nil in Hx.
  all: try match goal with H : _ → ∃ f, _ |- _ => destruct (H Hx) as (f & Hf & Hn); exists f; split; [pick Hf|exact Hn] end.
  all: try match type of Hx with _ ∈ lookups ?n => match goal with H : context [visits _ _ n] |- context [visits ?v ?c n] =>
    destruct (H v c Hx) as (f & Hf & Hn); exists f; split; [pick Hf|exact Hn] end end.
  all: rewrite Hx; eexists; (split; [by left|]); by left.
Qed.

(** Symbols that are looked up without being a name the expression needs: a called
    function as it is written, a name that begins with a loop variable, and the loop
    variable itself. *)
Inductive incidental (root : Node) : str → Prop :=
  | incidental_called f o parts :
      f ∈ visits [] false root → f.1 = Name o parts → callee f.2 = true → incidental root (join (of_string ".") parts)
  | incidental_bound f o p ps x :
      f ∈ visits [] false root → f.1 = Name o (p :: ps) → p ∈ scope f.2 → x ∈ prefixes (p :: ps) → incidental root x
  | incidental_variable f o e var vo it c : f ∈ visits [] false root → f.1 = ListComp o e var vo it c → incidental root var.

Lemma prefixes_elem x parts : x ∈ prefixes parts ↔ ∃ i, (1 ≤ i ≤ length parts)%nat ∧ x = join (of_string ".") (take i parts).
Proof.
  unfold prefixes. rewrite list_elem_of_In, in_map_iff. setoid_rewrite in_seq. split.
  - intros (i & <- & Hi). exists i. split; [lia|done].
  - intros (i & Hi & ->). exists i. split; [done|lia].
Qed.

(** A prefix of a called name is the name, or one of its symbol. *)
Lemma prefixes_called x parts : x ∈ prefixes parts → x = join (of_string ".") parts ∨ x ∈ prefixes (removelast parts).
Proof.
  intros (i & Hi & ->)%prefixes_elem. destruct (decide (i = length parts)) as [->|Hne]; [left; by rewrite firstn_all|]. right.
  assert (Hp : parts ≠ []) by (intros ->; cbn in Hi; lia). destruct (exists_last Hp) as (qs & q & ->). rewrite removelast_last.
  rewrite length_app in *. cbn [length] in *. apply prefixes_elem. exists i. split; [lia|]. by rewrite take_app_le by lia.
Qed.

(** Every lookup is of a prefix of a collected name, or incidental. *)
Lemma lookups_covered root l x : wfNode false root → Names root = Ok l → x ∈ lookups root →
  (∃ parts, join (of_string ".") parts ∈ l ∧ x ∈ prefixes parts) ∨ incidental root x.
Proof.
  intros Hw Hl Hx. destruct (Names_spec root Hw) as (l' & Hl' & _ & He). rewrite Hl in Hl'. injection Hl' as <-.
  destruct (lookups_visits [] false root x Hx) as (f & Hf & Hn). unfold nodeLookups in Hn. destruct f.1 as [| | | | |o parts| | | | | | | | |o e var vo it c| |] eqn:E;
    try by apply not_elem_of_nil in Hn.
  - destruct (callee f.2) eqn:Ec.
    + apply prefixes_called in Hn as [->|Hn]; [right; by eapply incidental_called|]. destruct (removelast parts) as [|p ps] eqn:Er; [by apply not_elem_of_nil in Hn|].
      destruct (decide (p ∈ scope f.2)) as [Hb|Hb].
      * right. destruct parts as [|q qs]; [done|]. assert (q = p) as -> by (destruct qs; [done|by injection Er]).
        eapply incidental_bound; [exact Hf|exact E|done|]. apply prefixes_elem in Hn as (i & Hi & ->). rewrite <-Er in Hi |- *.
        assert (Hp : p :: qs ≠ []) by done. destruct (exists_last Hp) as (rs & r & Hr). rewrite Hr, removelast_last in *. apply prefixes_elem.
        exists i. rewrite length_app. split; [cbn; lia|]. by rewrite take_app_le by lia.
      * left. exists (p :: ps). split; [|done]. apply He, external_visits. exists f. split; [done|]. unfold symbolOf. rewrite E, Ec, Er.
        unfold binds. by rewrite bool_decide_false.
    + destruct parts as [|p ps]; [by apply not_elem_of_nil in Hn|]. destruct (decide (p ∈ scope f.2)) as [Hb|Hb]; [right; by eapply incidental_bound|].
      left. exists (p :: ps). split; [|done]. apply He, external_visits. exists f. split; [done|]. unfold symbolOf. rewrite E, Ec.
      unfold binds. by rewrite bool_decide_false.
  - apply list_elem_of_singleton in Hn as ->. right. by eapply incidental_variable.
Qed.

(** C9. The collected names are what an evaluation needs.  Two symbol tables that agree on
    the dotted prefixes of the names [Names] collects, and on the symbols that are looked
    up only to find a function or a loop variable, give the same evaluation of a parsed
    source: the same value or error, the same memory and the same count of operations. *)
Theorem names_suffice {names : RuneNames} src root l s1 s2 now target opts :
  Parse src = Ok root → Names root = Ok l →
  (∀ parts, join (of_string ".") parts ∈ l → agree (prefixes parts) s1 s2) →
  (∀ x, incidental root x → s1 x = s2 x) →
  Expression_Eval now root s1 target opts = Expression_Eval now root s2 target opts.
Proof.
  intros Hp Hl Hn Hi. pose proof (Parse_spec src) as Hs. rewrite Hp in Hs. destruct Hs as [Hw _]. apply Eval_same. intros x Hx.
  destruct (lookups_covered root l x Hw Hl Hx) as [(parts & Hj & Hpre)|Hinc]; [by eapply Hn|by apply Hi].
Qed.
End Needs.

(** ** An example *)

Lemma join_take parts i : ∃ t, join (of_string ".") parts = join (of_string ".") (take i parts) ++ t.
Proof.
  revert i. induction parts as [|p ps IH]; intros i; [by exists []; destruct i|]. destruct i as [|i]; [eexists; done|].
  destruct (IH i) as (t & Ht). cbn [take]. destruct ps as [|q qs]; [exists []; by destruct i; rewrite ?app_nil_r|].
  destruct i as [|i]; [eexists; cbn; done|]. cbn [take] in *. exists t. cbn [join] in *. rewrite Ht, <-!app_assoc. done.
Qed.

#[local] Existing Instances samplePlatform asciiTables noFunctions noNames.

Definition sumSource : str := of_string "Param.A + 1".
Definition sumRoot : Node := match Parse sumSource with Ok n => n | Err _ => NullLit 0 end.

(** The symbol the expression needs, alone and with another. *)
Definition needed : Symbols := λ x, if bool_decide (x = of_string "Param.A") then Some (VInt 2) else None.
Definition withOther : Symbols := λ x, if bool_decide (x = of_string "Other") then Some (VInt 5) else needed x.

Lemma sumRoot_incidental x : incidental sumRoot x → False.
Proof.
  assert (Hv : ∀ f, f ∈ visits [] false sumRoot → (∀ o parts, f.1 = Name o parts → callee f.2 = false ∧ scope f.2 = []) ∧
    ∀ o e var vo it c, f.1 ≠ ListComp o e var vo it c).
  { intros f Hf. vm_compute in Hf. repeat (apply elem_of_cons in Hf as [->|Hf]; [by split|]). by apply not_elem_of_nil in Hf. }
  intros [f o parts Hf Hn Hc|f o p ps y Hf Hn Hp _|f o e var vo it c Hf Hn]; destruct (Hv f Hf) as [H1 H2].
  - apply H1 in Hn as [Hn _]. congruence.
  - apply H1 in Hn as [_ Hn]. rewrite Hn in Hp. by apply not_elem_of_nil in Hp.
  - by apply H2 in Hn.
Qed.

Lemma names_suffice_witness :
  Expression_Eval (λ _, 0) sumRoot withOther TInt [] = Expression_Eval (λ _, 0) sumRoot needed TInt [] ∧
  snd (Expression_Eval (λ _, 0) sumRoot needed TInt []) = Ok (VInt 3).
Proof.
  split; [|by vm_compute].
  apply (names_suffice sumSource sumRoot [of_string "Param.A"] withOther needed (λ _, 0) TInt []).
  - by vm_compute.
  - by vm_compute.
  - intros parts Hj x Hx. apply list_elem_of_singleton in Hj. apply prefixes_elem in Hx as (i & _ & ->).
    unfold withOther. case_bool_decide as E; [|done]. destruct (join_take parts i) as (t & Ht). rewrite Hj, E in Ht. discriminate Ht.
  - intros x Hx. destruct (sumRoot_incidental x Hx).
Defined.
