(* ===== verification/ExprMain.v ===== *)
(** * Expressions from source to value

    The function library merged as in src/internal/openjd/expr/funcs.go, and the promises
    of the whole: a source that is parsed (parser.go) and evaluated (eval.go) with the
    library's functions.  The parser's guarantees are what the evaluator relies on, and
    the library's functions are sound, so that nothing is left to assume about the
    tree or the functions. *)

From S2P Require Import Prelude StatusText GoText IntRange RangeExpr ExprType ExprFloat ExprValue ExprRange ExprCoerce ExprNarrow ExprPath ExprArith ExprShape ExprOps ExprQuiet ExprText ExprLib ExprEval ExprSound ExprLibSound ExprRe ExprReSound ExprLex ExprParse ExprGrammar ExprNames ExprNeeds.
Open Scope Z_scope.

(** ** The library *)

(** The loop of funcs.go [mergeFuncs] over one group. *)
Fixpoint mergeGroup (out : Group) (g : Group) : res EErr Group :=
  match g with
  | [] => Ok out
  | (nm, shapes) :: g' =>
      if existsb (λ e, String.eqb e.1 nm) out then Err EPanic else mergeGroup (out ++ [(nm, shapes)]) g'
  end.

(** funcs.go [mergeFuncs]: a name of two groups is a panic. *)
Fixpoint mergeFuncs (out : Group) (groups : list Group) : res EErr Group :=
  match groups with
  | [] => Ok out
  | g :: groups' => let? out := mergeGroup out g in mergeFuncs out groups'
  end.

Section Library.
Context {arch : Platform} {tables : CaseTables} {text : TextTables} {engine : Regexps} {laws : RegexpLaws engine}.

(** funcs.go [functionShapes] *)
Definition libraryGroups : list Group :=
  [convFuncs; mathFuncs; listFuncs; strCaseFuncs; strFindFuncs; strSplitFuncs; strPadFuncs; reFuncs; reprShellFuncs; reprDataFuncs;
   pathFuncs; pathMappingFuncs].

Lemma mergeGroup_app out g : NoDup (map fst (out ++ g)) → mergeGroup out g = Ok (out ++ g).
Proof.
  revert out. induction g as [|[nm shapes] g IH]; intros out Hn; cbn [mergeGroup]; [by rewrite app_nil_r|].
  assert (Hf : existsb (λ e : string * list FnShape, String.eqb e.1 nm) out = false).
  { apply not_true_iff_false. rewrite existsb_exists. intros (e & He & Heq). apply String.eqb_eq in Heq. rewrite map_app in Hn.
    apply NoDup_app in Hn as (_ & Hd & _). apply (Hd nm); [rewrite list_elem_of_In, <-Heq; by apply in_map|by left]. }
  rewrite Hf, IH; by rewrite <-app_assoc.
Qed.

Lemma mergeFuncs_concat out groups : NoDup (map fst (out ++ concat groups)) → mergeFuncs out groups = Ok (out ++ concat groups).
Proof.
  revert out. induction groups as [|g groups IH]; intros out Hn; cbn [mergeFuncs concat] in *; [by rewrite app_nil_r|].
  rewrite app_assoc in Hn. rewrite mergeGroup_app; [cbn [res_bind]; rewrite IH; [by rewrite <-app_assoc|done]|].
  rewrite map_app in Hn. by apply NoDup_app in Hn as (? & _ & _).
Qed.

(** No name is of two groups, so that the registry is built without a panic. *)
Lemma library_merges : mergeFuncs [] libraryGroups = Ok (concat libraryGroups).
Proof.
  apply (mergeFuncs_concat []). cbn [app].
  refine (proj1 (bool_decide_eq_true _) _). vm_compute. reflexivity.
Qed.

Lemma library_sound nm l : lookupShapes (concat libraryGroups) nm = Some l → Forall sound l.
Proof.
  assert (H : soundGroup (concat libraryGroups)).
  { apply Forall_concat. unfold libraryGroups.
    repeat match goal with |- Forall _ (_ :: _) => apply Forall_cons_2 end; [..|apply Forall_nil_2];
      [apply convFuncs_sound|apply mathFuncs_sound|apply listFuncs_sound|apply strCaseFuncs_sound|apply strFindFuncs_sound|apply strSplitFuncs_sound
      |apply strPadFuncs_sound|apply reFuncs_sound|apply reprShellFuncs_sound|apply reprDataFuncs_sound|apply pathFuncs_sound|apply pathMappingFuncs_sound]. }
  unfold lookupShapes. destruct (find _ _) as [e|] eqn:E; [|done]. intros [= <-]. apply find_some in E as [E _].
  unfold soundGroup in H. rewrite Forall_forall in H. apply H. by apply list_elem_of_In.
Qed.

(** The functions of the language. *)
#[export] Instance library : FunctionTable := mkFunctions _ _ (lookupShapes (concat libraryGroups)) library_sound.
End Library.

(** ** From source to value *)

(** Every slice step of the tree is absent, or a literal of at most [2^62]. *)
Fixpoint smallSteps (n : Node) : Prop :=
  let all := foldr (λ x P, smallSteps x ∧ P) True in
  let opt x := match x with Some y => smallSteps y | None => True end in
  match n with
  | Unary _ _ x | Access _ x _ => smallSteps x
  | Binary _ _ l r | Logical _ _ l r | Index _ l r => smallSteps l ∧ smallSteps r
  | Cond _ t i e => smallSteps t ∧ smallSteps i ∧ smallSteps e
  | Compare _ _ xs _ | ListLit _ xs => all xs
  | Slice _ x a b c => smallStep c ∧ smallSteps x ∧ opt a ∧ opt b ∧ opt c
  | ListComp _ e _ _ iter cond => smallSteps e ∧ smallSteps iter ∧ opt cond
  | Call _ fn args => smallSteps fn ∧ all args
  | _ => True
  end.

Lemma strict_all xs :
  allOf (λ n, wfNode false n → smallSteps n → wfNode true n) xs →
  foldr (λ x P, wfNode false x ∧ P) True xs → foldr (λ x P, smallSteps x ∧ P) True xs → foldr (λ x P, wfNode true x ∧ P) True xs.
Proof. induction 1 as [|y l Hy _ IH]; cbn [foldr]; [done|]. intros [? ?] [? ?]. auto. Qed.

Lemma wfNode_strict n : wfNode false n → smallSteps n → wfNode true n.
Proof.
  induction n using Node_induct; cbn [wfNode smallSteps]; try done;
    repeat match goal with
      | H : optOf _ ?a |- _ => destruct a; cbn [optOf] in H
      | H : allOf _ _ |- _ => pose proof (strict_all _ H); clear H
      end; tauto.
Qed.

Section Whole.
Context {arch : Platform} {tables : CaseTables} {text : TextTables} {engine : Regexps} {laws : RegexpLaws engine} {names : RuneNames}.

(** C6. Expressions are safe from source to value.  Whatever source the parser accepts,
    with slice steps absent or literals of at most [2^62], evaluated with the whole
    function library on well-formed symbols under any options: no payload of another type
    is read and no index is out of range, whatever the evaluation fails with; and what it
    returns is well formed, conforms to the target type and fits in the memory limit. *)
Theorem source_safe src root now syms target opts :
  Parse src = Ok root → smallSteps root →
  ecMemLimit (newEvalCtx now opts) ≤ 2 ^ 62 → wfSyms syms → canonical target →
  match Expression_Eval now root syms target opts with
  | (_, Err e) => what e ≠ EPanic ∧ what e ≠ EIndexPanic
  | (m, Ok v) => wf v ∧ conforms v target ∧ sizeOf v ≤ memLimit m
  end.
Proof.
  intros Hp Hs Hm Hsyms Ht. pose proof (Parse_spec src) as Hw. rewrite Hp in Hw. destruct Hw as [Hw _].
  apply evaluation_safe; try done. by apply wfNode_strict.
Qed.

(** C8. The count of live bytes is exact, from source to value.  When no symbol is a
    placeholder, an evaluation of a parsed source with the whole function library that
    succeeds returns no placeholder, and the meter counts as live at its end exactly the
    size of the result: every intermediate value was counted once and released once. *)
Theorem source_memory_exact src root now syms target opts m v :
  Parse src = Ok root →
  ecMemLimit (newEvalCtx now opts) ≤ 2 ^ 62 → wfSyms syms → closed syms → canonical target →
  Expression_Eval now root syms target opts = (m, Ok v) →
  concrete v ∧ mem m = sizeOf v.
Proof.
  intros Hp Hm Hs Hc Ht E. pose proof (Parse_spec src) as Hw. rewrite Hp in Hw. destruct Hw as [Hw _].
  by eapply evaluation_memory_exact.
Qed.
End Whole.

(** ** Examples *)

(** Tables for text whose letters are ASCII. *)
Definition asciiUpper (r : Z) : bool := between 65 90 r.
Definition asciiLower (r : Z) : bool := between 97 122 r.

Definition asciiText : TextTables :=
  mkTextTables (λ r, asciiUpper r || asciiLower r) asciiUpper asciiLower (λ _, false) (between 32 126)
    (map (λ c, if asciiLower (byte_val c) then byte_chr (byte_val c - 32) else c))
    (map (λ c, if asciiUpper (byte_val c) then byte_chr (byte_val c + 32) else c)).

#[local] Existing Instances samplePlatform asciiTables asciiText smallEngine noNames.

(** Frames after the third, doubled, from the greatest down, as text. *)
Definition framesSource : str :=
  of_string "join([string(f * 2) for f in sorted(list(Param.Frames)) if f > 3][::-1], ',').upper() + re_sub('ab', '()', '-')".

Definition framesRoot : Node := match Parse framesSource with Ok n => n | Err _ => NullLit 0 end.

Lemma framesRoot_small : smallSteps framesRoot.
Proof. vm_compute. split_and!; first [exact I|discriminate|idtac]. Qed.

Lemma source_safe_witness :
  match Expression_Eval (λ _, 0) framesRoot sampleSyms TString [] with
  | (_, Err e) => what e ≠ EPanic ∧ what e ≠ EIndexPanic
  | (m, Ok v) => wf v ∧ conforms v TString ∧ sizeOf v ≤ memLimit m
  end ∧
  snd (Expression_Eval (λ _, 0) framesRoot sampleSyms TString []) = Ok (VString (of_string "14,10-a-b-")).
Proof.
  split; [|by vm_compute].
  apply (source_safe framesSource framesRoot (λ _, 0) sampleSyms TString []);
    [by vm_compute|apply framesRoot_small|by vm_compute|apply sampleSyms_wf|done].
Defined.

Lemma source_memory_exact_witness :
  ∃ m, Expression_Eval (λ _, 0) framesRoot sampleSyms TString [] = (m, Ok (VString (of_string "14,10-a-b-"))) ∧
       concrete (VString (of_string "14,10-a-b-")) ∧ mem m = sizeOf (VString (of_string "14,10-a-b-")).
Proof.
  eexists. split; [vm_compute; reflexivity|].
  apply (source_memory_exact framesSource framesRoot (λ _, 0) sampleSyms TString []);
    [by vm_compute|by vm_compute|apply sampleSyms_wf|apply sampleSyms_closed|done|by vm_compute].
Defined.
